(* ===== verification/_CoqProject ===== *)
-Q . S2P
Prelude.v
GoBytes.v
Strconv.v
Floats.v
Commands.v
Writer.v
Protocol.v
Acl.v
AclProps.v
Engine.v
Runs.v
Bitmap.v
BitmapProps.v
BitCount.v
BitField.v
BitOp.v
Lcs.v
Sets.v
SetProps.v
SetTheorems.v
Strings.v
Keys.v
Hashes.v
HashTtl.v
Lists.v
Zsets.v
ZsetOrder.v
ZsetRanges.v
HashTheorems.v
ZsetTheorems.v
ZsetOps.v
ZsetRangeProps.v
ListProps.v
ListTheorems.v
ListLaws.v
Blocking.v
BlockingProps.v
ListBlocking.v
ListBlockingProps.v
ZsetBlocking.v
StreamIds.v
Streams.v
StreamCommands.v
StreamReads.v
StreamGroups.v
StreamDelivery.v
StreamInfo.v
StreamProps.v
StreamTheorems.v
StreamXTrim.v
StreamGroupProps.v
StreamExamples.v
PubSub.v
PubSubProps.v
Dispatch.v
DispatchProps.v
TxnInvariant.v
ConnLoop.v
ConnTheorems.v
PubSubTheorems.v
ConnExamples.v
JsonText.v
JsonTextProps.v
JsonPath.v
JsonTree.v
JsonCommands.v
JsonTreeProps.v
JsonTheorems.v
SqlEncoding.v
SqlProps.v
StringTheorems.v
KeyProps.v
HashTtlProps.v
ZsetOpProps.v
HyperLogLog.v
HllProps.v
Sort.v
SortProps.v
Geo.v
GeoProps.v
