(* ===== verification/Prelude.v ===== *)
(** * Swytch: a verification of its server core

    Swytch is a database server that speaks the Redis protocol and SQL over a
    replicated effects engine.  A connection is a loop: the parser reads a
    command, the dispatcher checks what the user may do, a handler validates
    the arguments and returns a runner, the runner reads snapshots and emits
    effects through the engine, and the writer collects the reply.  This
    library translates that path from src/redis, and the key encodings of
    src/sql, into definitions that compute, and proves what they do.

    ** Files and sources

    - [Prelude], [GoBytes]: machine integers, results, byte strings with the
      parts of Go's strings, bytes and encoding/binary the sources use.
    - [Strconv]: decimal numbers of strconv and ParseInt64, ParseUint64 of
      src/redis/shared/protocol.go.
    - [Floats]: binary64 numbers as the Standard Library's [spec_float], with
      their bit patterns.  Reading and printing decimals are parameters.
    - [Commands]: src/redis/shared/command.go and acl_categories.go, the
      enumeration of commands, their names both ways, their categories.
    - [Writer]: src/redis/shared/writer.go, the reply buffer.  One definition
      per Write method, with the record [Writer] as state.
    - [Protocol]: src/redis/shared/protocol.go, the parser, and the reader
      goroutine of src/redis/server.go ([read_loop]).  The reader is the list of
      bytes to come; a [ProtoError] leaves it where the error occurred.
    - [Acl], [AclProps]: src/redis/acl.go, shared/acl_types.go and the SETUSER
      and DELUSER handlers of acl_handlers.go.  The manager is the record
      [ACLManager]; bcrypt is the parameter [Bcrypt].
    - [Engine]: the interface to the effects engine, which is not part of the
      repository.  [Engine] is the class of the calls handlers make,
      [EngineLaws] what they rely on (an emitted effect is what later snapshots
      of that key reduce, other keys are unchanged, an emptied collection is
      not shown, a deleted key is dead until written, a scalar write replaces
      the value and clears the expiry, an additive write adds to an integer or a
      float, a tag or an expiry changes nothing else), [RefEngine] a concrete
      instance; [StreamProps] adds what streams rely on (savepoints, removals
      that are not in place).  The
      monad [M] threads the context, the writer and the locks held, and ends in
      a value, an early return, a run-time panic or a deadlock; [Try] is for the
      closures that return an error and are undone by a savepoint.
    - [Runs]: what a run of a handler does under the laws ([steps], [finishes],
      [tries]) and how runs compose.
    - [Bitmap]: src/redis/bitmap/core.go, all commands, each as a handler that
      parses ([Accept] or [Refuse]) and a runner in [M].  [BitmapProps] views
      byte strings as bits and, with [BitCount], [BitOp], [BitField], holds the
      theorems.
    - [Sets]: src/redis/set/core.go, query.go and setops.go, every command.  The
      order in which Go visits a map ([RangeOrder]) and the numbers drawn
      ([Rand]) are parameters.  [SetProps] relates a key to the finite set it
      stands for and treats each runner; [SetTheorems] states the properties.
    - [Strings]: src/redis/str/strings.go, every command, with the checks of
      helpers.go; [StringTheorems] relates a key to the text it holds and
      states the properties.  [Lcs]: computeLCS of helpers.go.
    - [Keys], [KeyProps]: src/redis/str/keys.go, the commands on keys of any
      type, and expiry.go.  The clock is the
      class [WallClock]: a time at the checks and one at the run.
    - [Lists]: src/redis/list/core.go, every command; element ids come from the
      class [Clock].  [ListProps], [ListTheorems] treat the runners,
      [ListLaws] states the properties.
    - [Hashes], [HashTtl]: src/redis/hash, the commands on fields and on their
      expiries; [HashTheorems], [HashTtlProps] hold the theorems
      and their runs.  The glob matcher is a parameter.
    - [Zsets], [ZsetRanges], [ZsetOps], [ZsetBlocking]: src/redis/zset, every
      command on sorted sets; [ZsetOrder] is the order of scores and names,
      [ZsetTheorems], [ZsetRangeProps], [ZsetOpProps] hold the theorems and
      their runs.
    - [StreamIds], [Streams], [StreamCommands], [StreamReads],
      [StreamGroups], [StreamDelivery], [StreamInfo]: src/redis/stream and
      shared/streams.go, every stream command; [StreamIds] also holds
      SHA-256, the hash of IDMPAUTO.  The ordered index behind a stream value is the class [KeyTrie],
      the ids an engine remembers as removed [NetRemoves], the clock
      [StreamClock].  [StreamProps], [StreamTheorems], [StreamXTrim],
      [StreamGroupProps] hold the theorems,
      [StreamExamples] their runs.
    - [Blocking]: src/redis/shared/blocking.go, the registry of blocked clients,
      as whole operations and as the steps other goroutines interleave with
      ([step], and [bstep] for the connection's flag); [BlockingProps] holds the
      invariants over all interleavings.
    - [ListBlocking], [ListBlockingProps]: src/redis/list/blocking.go and
      shared/timeout.go; what happens while a command waits is given from
      outside ([WaitEvent]).
    - [Dispatch]: src/redis/handler.go (ExecuteInto, transactions, connection
      commands), command_execution.go, shared/registry.go and the connection of
      shared/handler_interface.go.  [HSt] is the ACL manager, the connection,
      the two engine contexts, the reply and the locks held; commands run in
      [HM].  [TxEngine] adds the transaction calls of the engine to [Engine].
      [DispatchProps] and [TxnInvariant] hold the theorems.
    - [PubSub]: src/redis/pubsub and shared/pubsub_client.go, the subscription
      tables, delivery and the commands; [PubSubProps], [PubSubTheorems] hold the
      theorems and their runs.  Clients are a heap of objects.
    - [ConnLoop]: the executor loop of handleConnection in src/redis/server.go,
      with the buffered writer and pub/sub delivery, over the classes [ConnHost]
      (the command handler) and [Socket]; [ConnTheorems] holds the
      theorems, [ConnExamples] the hosts and runs.
    - [JsonText]: value.go, parse.go and serialize.go of src/redis/json, with the
      token decoder of encoding/json; [JsonPath]: path.go and filter.go;
      [JsonTree]: tree.go and access.go, the partitions a document is stored in;
      [JsonCommands]: every JSON command.  The engine's view of partitioned keys
      is the class [JsonEngine] with the laws [DocLaws] (an effect on a partition
      is reduced by [reduce_node], other keys and partitions stay), [DocEngine] an
      instance.  [JsonTextProps], [JsonTreeProps] and [JsonTheorems] hold the
      theorems and their runs.  Regular expressions, math.Pow and the text of
      doubles are the classes [Regexp], [MathPow], [ParseFloat] and [FormatG].
    - [HyperLogLog], [HllProps]: src/redis/hll and the HLL values of
      shared/item.go, with the hash and the estimate computed as the code does.
      [HllLaws] is what is relied on of the engine's byte-wise maximum.
    - [Sort], [SortProps]: src/redis/sort.go, with ParseFloat64 of
      shared/protocol.go.  [sort.SliceStable] of the Go library is translated:
      insertion sort of blocks and SymMerge ([stable]).
    - [Geo], [GeoProps]: src/redis/geo, geohashes, distances and every geo command.
      The functions of package math are the class [Trig], [sort.Slice] the class
      [SortSlice] with its laws.
    - [SqlEncoding], [SqlProps]: src/sql/encoding.go and keys.go.

    ** What the theorems show

    - The wire.  Requests written as arrays of bulk strings are read back as the
      commands they denote, back to back; a request cut short is never taken
      for a command; the parser's limits hold on every input; the read loop
      ends, though after an error it goes on inside the refused request; inline
      lines are split at spaces; numbers are accepted exactly when they fit; names and command types are inverse to each other; a failed
      command's partial reply is replaced by its error.
    - Access control.  Glob matching decides a declarative relation; the command,
      key and password checks grant exactly what the user's rules say; users whose
      names and patterns are ASCII without spaces survive a round trip through the
      rule file; every sequence of operations
      keeps the default user and the shape of the tables; the log is bounded.
    - Bitmaps.  Every command refines the corresponding operation on a string of
      bits, for every stored form of the key (a string, bit overlays, overlays
      on a string) and every engine that satisfies the laws.
    - Sets.  The commands are union, difference, intersection, move and choice
      on finite sets, whatever the iteration order and the random numbers;
      destinations of STORE may be sources.
    - Strings, keys and expiry.  SET writes exactly when its conditions hold;
      counters are exact or refused at the ends of the 64 bits; APPEND, SETRANGE
      and GETRANGE are operations on byte strings; MSETNX is all or nothing; a
      longest common subsequence is found with the ranges that spell it; DEL, and
      RENAME of strings, integer counters, sets and hashes, act on whole keys and
      nothing else; expiries are set, read back and cleared.  The commands that read
      a string or change it in place refuse values of other types untouched.
    - Lists.  The commands are operations on sequences, for any fresh element
      ids; blocked clients are served in the order they came, and the registry
      is consistent in every interleaving.
    - Hashes.  The commands on fields are operations on finite maps; a scan from
      cursor zero visits every matching field once and ends; field expiries are
      set exactly where their conditions hold and read back.
    - Sorted sets.  Scores are set exactly where the conditions of ZADD hold, with
      INCR too; ranks, ranges and pops are those of the order by score and name, and do
      not depend on the sorting algorithm; unions and intersections aggregate
      weighted scores, also into one of their sources.
    - Streams.  Ids print, parse and encode without loss, and their keys compare
      as they do; XADD gives only ids above every id the stream has had; ranges
      are filters of the entries in order; deletions and trims take exactly what
      they say, from the front when they trim; a group gives each entry out
      once, to one consumer, and keeps it on record until it is acknowledged.
    - Dispatch.  A command that fails the check of the command or of the keys its
      handler or key extractor names has no effect; MULTI and EXEC run the queued commands once, in order and not before EXEC;
      no sequence of commands leaves transaction state behind.
    - Publish and subscribe.  The tables agree in both directions and queues are
      bounded in every interleaving of the calls; the other nodes are told exactly
      the names with a subscriber as long as calls do not overlap; a message is sent
      to each subscriber once and once per pattern, and taken in where there is room.
    - Connections.  In every interleaving of the executor with the delivery
      goroutines, and however the connection fails, a client receives a prefix of
      whole replies and messages in order; a pipeline on a connection that does
      not fail is answered completely, from the bytes sent to the bytes received.
    - JSON.  A document printed and parsed is the document; the partitions of a
      key always form a tree that reads back as the document it stands for; on a
      path of keys and indexes JSON.SET, MERGE, DEL, the array commands, the
      number commands, STRAPPEND and TOGGLE change the value at that place of the
      document and nothing else, and what SET wrote is what GET answers; a merge
      is the merge of RFC 7396 member by member; a slice selects an arithmetic
      sequence of indexes of the array as long as its step does not wrap.
    - HyperLogLog.  A key stands for the set of the elements added to it: its
      registers are the least that cover the set, PFADD and PFMERGE act on sets,
      and PFCOUNT depends on the union of the sets alone.
    - SORT.  The elements come in the order of their weights, those of the same
      weight as they were (with DESC in reverse), cut to the limit, with the values
      of the GET patterns; STORE leaves exactly that list at the destination.
    - Geo.  Geohashes interleave two cell numbers and give them back, also from the
      score, except at longitude 180; GEOADD is a
      ZADD of geohashes; a search finds exactly the members in its circle or box, in
      the order and number asked for, and STORE leaves exactly those.
    - SQL keys.  Primary keys and index keys decode to their values, converted to
      the affinities of their columns, sort as these tuples, are cut by column prefixes where the values are; the key
      spaces of tables, indexes and metadata are disjoint.
    - Where the code departs from its comments or from what it means to do, a
      theorem states what it does: a queued command escapes the key check,
      BITFIELD waits for a lock its caller holds, a denial after +@all does not
      deny, a failed reload loses the default user, a saved passwordless user
      loses that property, a pattern with a space is split when it is reloaded and
      may grant every command, saturation ends at the wrong bound, a multiplied
      offset may wrap and panic, the payload of a refused bulk string is read as
      commands, SADD counts a repeated member twice and takes a hash for a set,
      SPOP panics on a large count, LMPOP on a large number of keys, LREM takes
      the least count for one, a blocking pop in a script does nothing, a served
      client may swallow the wake-up of the next, EXPIRETIME and PEXPIRETIME
      exchange their units, long expiries wrap into the past, MSETNX overwrites
      values of other types, MSETEX is locked by its values, HEXPIRE GT differs
      from EXPIRE GT, ZINTER keeps a product that is not a number, a stream read
      by a consumer named streams escapes the key check, XTRIM ACKED trims what
      a consumer with a short name holds and XTRIM ~ wraps near the largest
      length, XAUTOCLAIM JUSTID counts a delivery, the keys of groups collide,
      announcements of subscriptions cross, an idle RESP3 subscriber is sent
      nothing, replies wait behind XREAD and behind half a request, a JSON slice
      with a step near the largest integer panics, ARRPOP on a path that names an
      array twice reports two elements and removes one, an infinite product
      takes its member out of the document, PFCOUNT panics above 143 million
      elements, SORT panics on a negative offset, is checked for another key than
      it writes, wraps long numbers, reverses ties under DESC and loses the members
      of a sorted set, HSET, ZADD and GEOADD count a repeated member twice, numbers
      in NUMERIC columns are encoded as text and texts in INTEGER keys share one
      key, a search takes a radius that is no number, and a geohash at longitude 180 has 54 bits.

    ** Fuel and bounds

    Recursion that is not structural takes fuel.  [read_loop] takes one unit
    per round and is [None] without; [read_loop_terminates] shows that the
    length of the input plus one is always enough, since every round consumes
    a byte.  [aclMatchGlobRecursive] is called with one unit more than the
    pattern has bytes, which [aclMatchGlob_correct] shows to be enough;
    [walk_back] gets the sum of the lengths, which [computeLCS_correct] shows to
    be enough; the walks over the index of a stream get its size, which
    [Trim_spec] shows to be enough; [parseValue] gets two units per byte, which
    [Parse_fuel_enough] shows to be enough; reading a document gets two units more
    than it has partitions, enough for a tree of them ([assemble_represents]);
    [intPow] gets the 64 rounds of its exponent; [HLLRho] one round per bit, which
    [HLLRho_correct] shows to be enough; [nativeLog] doubles or halves at most 1100
    times, beyond the exponents of binary64; option lists get their lengths.  Digits of a number are produced with fuel above their count.  The retries of
    [run_attempts] are the source's own bound ([maxTxnRetries]).  Go integers
    are [Z] with the wrap-around written out where the source computes; the
    largest allocation [make] grants is 2^48 bytes.

    ** What is not modelled, and the plan

    The read buffer has its default size ([ReadBufSize]); a configured one is not
    modelled.  The engine, bcrypt, SQLite and the Unicode tables are outside the
    repository and stay parameters.  Listening sockets, goroutine scheduling between
    connections, logging, tracing, metrics and the Kubernetes operator are left
    out: concurrency appears as the locks one command takes and in the step
    relations of blocking, subscriptions and connections.  Replies that
    print doubles wait for a model of their shortest decimal form.

    Scripting (a third-party Lua machine), the client registry, the server information commands, forwarded
    transactions, the SQL front end over the key encodings and the Caddy storage
    module are not modelled; a continuation would take the client registry and SQL
    predicates and schema first. *)

From Stdlib Require Export ZArith Lia Bool.
From stdpp Require Export base tactics numbers list gmap strings sorting.

#[export] Set Default Goal Selector "!".
#[export] Set Warnings "-clear-no-such-hyp".

(** ** Machine integers

    A Go integer of width [w] is a [Z] kept in range by the operation that
    produces it.  [u64]/[i64] write the wrap-around of Go's [uint64] and
    [int64] (the [int] of the 64-bit platforms the server is built for). *)
Module Int.
Local Open Scope Z_scope.

Definition MaxInt64 : Z := 9223372036854775807.
Definition MinInt64 : Z := -9223372036854775808.
Definition MaxUint64 : Z := 18446744073709551615.

Definition u64 (z : Z) : Z := z `mod` 2 ^ 64.
Definition i64 (z : Z) : Z := (z + 2 ^ 63) `mod` 2 ^ 64 - 2 ^ 63.
Definition u8 (z : Z) : Z := z `mod` 256.

Definition is_i64 (z : Z) : Prop := MinInt64 <= z <= MaxInt64.
Definition is_u64 (z : Z) : Prop := 0 <= z <= MaxUint64.
Definition is_u8 (z : Z) : Prop := 0 <= z < 256.

#[global] Instance is_i64_dec z : Decision (is_i64 z).
Proof. unfold is_i64. apply _. Defined.
#[global] Instance is_u64_dec z : Decision (is_u64 z).
Proof. unfold is_u64. apply _. Defined.
#[global] Instance is_u8_dec z : Decision (is_u8 z).
Proof. unfold is_u8. apply _. Defined.
End Int.
Export Int.

(** ** Errors

    A Go function that returns a value and an error returns a [result]; the
    monad instances give it stdpp's [x ← e; k] notation. *)
Inductive result (E A : Type) : Type :=
  | Ok (a : A)
  | Err (e : E).
Arguments Ok {E A} a.
Arguments Err {E A} e.

#[global] Instance result_ret {E} : MRet (result E) := λ A a, Ok a.
#[global] Instance result_bind {E} : MBind (result E) := λ A B f m,
  match m with Ok a => f a | Err e => Err e end.

#[global] Instance result_eq_dec {E A} `{EqDecision E, EqDecision A} :
  EqDecision (result E A).
Proof. solve_decision. Defined.

(** ** Proof automation *)

(** Exposes the bounds behind the width predicates before [lia]. *)
Ltac widths :=
  unfold is_i64, is_u64, is_u8, MaxInt64, MinInt64, MaxUint64 in *.
Ltac zlia := widths; change (2 ^ 64)%Z with 18446744073709551616%Z in *;
  change (2 ^ 63)%Z with 9223372036854775808%Z in *; lia.

(** Turns the boolean tests of the code into propositions. *)
Ltac reflect_bools :=
  repeat match goal with
  | H : _ && _ = true |- _ => apply andb_true_iff in H as [? ?]
  | H : _ || _ = false |- _ => apply orb_false_iff in H as [? ?]
  | H : negb _ = true |- _ => apply negb_true_iff in H
  | H : negb _ = false |- _ => apply negb_false_iff in H
  | H : (_ <? _)%Z = true |- _ => apply Z.ltb_lt in H
  | H : (_ <? _)%Z = false |- _ => apply Z.ltb_ge in H
  | H : (_ <=? _)%Z = true |- _ => apply Z.leb_le in H
  | H : (_ <=? _)%Z = false |- _ => apply Z.leb_gt in H
  | H : (_ =? _)%Z = true |- _ => apply Z.eqb_eq in H
  | H : (_ =? _)%Z = false |- _ => apply Z.eqb_neq in H
  | H : bool_decide _ = true |- _ => apply bool_decide_eq_true in H
  | H : bool_decide _ = false |- _ => apply bool_decide_eq_false in H
  end.

(** Splits the conditionals of the goal, reflecting each test. *)
Ltac split_if :=
  match goal with
  | |- context [if ?b then _ else _] => destruct b eqn:?; reflect_bools
  end.
Ltac split_if_in H :=
  match type of H with
  | context [if ?b then _ else _] => destruct b eqn:?; reflect_bools
  end.

Create HintDb go.

(** ** Facts on machine integers *)
Section IntFacts.
Local Open Scope Z_scope.

Lemma u64_id z : is_u64 z → u64 z = z.
Proof. intros. unfold u64. apply Z.mod_small. zlia. Qed.

Lemma u64_range z : is_u64 (u64 z).
Proof.
  unfold u64. pose proof (Z.mod_pos_bound z (2 ^ 64) ltac:(lia)). zlia.
Qed.

Lemma i64_id z : is_i64 z → i64 z = z.
Proof. intros. unfold i64. rewrite Z.mod_small; zlia. Qed.

(** One turn too far. *)
Lemma i64_over z : 2 ^ 63 <= z < 2 ^ 64 + 2 ^ 63 → i64 z = z - 2 ^ 64.
Proof.
  intros Hz. unfold i64. replace (z + 2 ^ 63) with ((z - 2 ^ 63) + 1 * 2 ^ 64) by lia.
  rewrite Z.mod_add by lia. rewrite Z.mod_small by lia. lia.
Qed.

Lemma i64_range z : is_i64 (i64 z).
Proof.
  unfold i64. pose proof (Z.mod_pos_bound (z + 2 ^ 63) (2 ^ 64) ltac:(lia)). zlia.
Qed.

(** Two integers equal modulo [2^64] wrap to the same [int64]. *)
Lemma i64_mod_eq a b : a `mod` 2 ^ 64 = b `mod` 2 ^ 64 → i64 a = i64 b.
Proof.
  intros H. unfold i64. f_equal.
  rewrite <- (Zplus_mod_idemp_l a), <- (Zplus_mod_idemp_l b), H. done.
Qed.

Lemma i64_mod z : i64 z `mod` 2 ^ 64 = z `mod` 2 ^ 64.
Proof.
  unfold i64. rewrite Zminus_mod_idemp_l. f_equal. lia.
Qed.

Lemma u8_range z : is_u8 (u8 z).
Proof. unfold u8. pose proof (Z.mod_pos_bound z 256 ltac:(lia)). zlia. Qed.
End IntFacts.

#[export] Hint Resolve u64_range i64_range u8_range : go.

(** ** Facts on lists *)
Section ListFacts.
Context {A : Type}.
Implicit Types l : list A.

Lemma take_drop_app_eq l1 l2 n :
  n = length l1 → take n (l1 ++ l2) = l1 ∧ drop n (l1 ++ l2) = l2.
Proof. intros ->. by rewrite take_app_length, drop_app_length. Qed.

Lemma filter_ext_in (P Q : A → Prop) `{!∀ x, Decision (P x), !∀ x, Decision (Q x)} l :
  (∀ x, x ∈ l → P x ↔ Q x) → filter P l = filter Q l.
Proof.
  induction l as [|x l IH]; intros Hl; [done|]. rewrite !filter_cons.
  assert (Hx : P x ↔ Q x) by (apply Hl; by left).
  rewrite IH by (intros y Hy; apply Hl; by right). repeat case_decide; naive_solver.
Qed.

Lemma filter_id (P : A → Prop) `{!∀ x, Decision (P x)} l : (∀ x, x ∈ l → P x) → filter P l = l.
Proof.
  induction l as [|x l IH]; intros Hl; [done|]. rewrite filter_cons_True by (apply Hl; by left).
  f_equal. apply IH. intros y Hy. apply Hl. by right.
Qed.

Lemma filter_none (P : A → Prop) `{!∀ x, Decision (P x)} l : (∀ x, x ∈ l → ¬ P x) → filter P l = [].
Proof.
  induction l as [|x l IH]; intros Hn; [done|]. rewrite filter_cons_False by (apply Hn; by left).
  apply IH. intros y Hy. apply Hn. by right.
Qed.
End ListFacts.
