(* ===== verification/GoBytes.v ===== *)
(** * Byte strings

    Go's [string] and [[]byte] are both sequences of bytes; here both are
    [list Z] with the elements in [0, 256).  This file models what the
    sources use of the [strings], [bytes] and [encoding/binary] packages:
    literals, comparison, case mapping, prefixes, splitting and the
    big-endian fixed-width encodings. *)

From Stdlib Require Import Ascii.
From S2P Require Import Prelude.

Local Open Scope Z_scope.

Abbreviation bytes := (list Z).

(** A literal of the source, byte by byte. *)
Definition str (s : string) : bytes :=
  (λ c, Z.of_N (N_of_ascii c)) <$> String.list_ascii_of_string s.

Definition byte_ok : bytes → Prop := Forall is_u8.

(** [len(b)] as a Go [int]. *)
Definition len {A} (l : list A) : Z := Z.of_nat (length l).

(** [==] on strings. *)
Definition beq (a b : bytes) : bool := bool_decide (a = b).

(** [<] on strings: bytewise lexicographic. *)
Fixpoint blt (a b : bytes) : bool :=
  match a, b with
  | _, [] => false
  | [], _ :: _ => true
  | x :: a', y :: b' => if x <? y then true else if y <? x then false else blt a' b'
  end.

(** [strings.HasPrefix]. *)
Fixpoint has_prefix (s p : bytes) {struct p} : bool :=
  match p, s with
  | [], _ => true
  | _ :: _, [] => false
  | y :: p', x :: s' => (x =? y) && has_prefix s' p'
  end.

(** [strings.IndexByte]/[strings.Index] of a one-byte separator. *)
Fixpoint index_byte (s : bytes) (c : Z) : option nat :=
  match s with
  | [] => None
  | x :: s' => if x =? c then Some 0%nat else S <$> index_byte s' c
  end.

(** [strings.SplitN(s, sep, 2)] for a one-byte separator: the part before the
    first separator, and the part after it when there is one. *)
Definition split2 (s : bytes) (sep : Z) : bytes * option bytes :=
  match index_byte s sep with
  | None => (s, None)
  | Some i => (take i s, Some (drop (S i) s))
  end.

(** The ASCII case mappings. *)
Definition upper_byte (c : Z) : Z := if (97 <=? c) && (c <=? 122) then c - 32 else c.
Definition lower_byte (c : Z) : Z := if (65 <=? c) && (c <=? 90) then c + 32 else c.
Definition ascii_upper (s : bytes) : bytes := upper_byte <$> s.
Definition ascii_lower (s : bytes) : bytes := lower_byte <$> s.

(** [strings.ToLower] and [strings.ToUpper] take the bytewise path when the
    string is ASCII; the Unicode tables for the other strings are left open. *)
Definition is_ascii (s : bytes) : bool := forallb (λ c, c <? 128) s.
Class UnicodeCase := {
  unicode_lower : bytes → bytes;
  unicode_upper : bytes → bytes;
  unicode_fields : bytes → list bytes;
  unicode_trim : bytes → bytes
}.
Definition ToLower `{UnicodeCase} (s : bytes) : bytes :=
  if is_ascii s then ascii_lower s else unicode_lower s.
Definition strings_ToUpper `{UnicodeCase} (s : bytes) : bytes :=
  if is_ascii s then ascii_upper s else unicode_upper s.

(** [strings.Fields], [strings.TrimSpace] and [strings.Join]. *)
Definition is_space (c : Z) : bool := ((9 <=? c) && (c <=? 13)) || (c =? 32).
Fixpoint fields_go (cur : bytes) (s : bytes) : list bytes :=
  match s with
  | [] => match cur with [] => [] | _ => [cur] end
  | c :: s' =>
    if is_space c
    then match cur with [] => fields_go [] s' | _ => cur :: fields_go [] s' end
    else fields_go (cur ++ [c]) s'
  end.
Definition Fields `{UnicodeCase} (s : bytes) : list bytes :=
  if is_ascii s then fields_go [] s else unicode_fields s.
Fixpoint drop_spaces (s : bytes) : bytes :=
  match s with
  | [] => []
  | c :: s' => if is_space c then drop_spaces s' else s
  end.
Definition TrimSpace `{UnicodeCase} (s : bytes) : bytes :=
  if is_ascii s then rev (drop_spaces (rev (drop_spaces s))) else unicode_trim s.
Fixpoint join (sep : bytes) (parts : list bytes) : bytes :=
  match parts with
  | [] => []
  | [p] => p
  | p :: ps => p ++ sep ++ join sep ps
  end.

(** [binary.BigEndian.PutUintN] of an [n]-byte buffer, and its reader. *)
Fixpoint be_put (n : nat) (z : Z) : bytes :=
  match n with
  | O => []
  | S n' => be_put n' (z / 256) ++ [z `mod` 256]
  end.

Definition be_get (b : bytes) : Z := foldl (λ acc c, acc * 256 + c) 0 b.

(** [hex.EncodeToString]. *)
Definition hex_digit (n : Z) : Z := if n <? 10 then 48 + n else 87 + n.
Definition hex_encode (b : bytes) : bytes := c ← b; [hex_digit (Z.shiftr c 4); hex_digit (Z.land c 15)].

(** [xxh3.Hash] of zeebo/xxh3, which is left open; two keys may collide. *)
Class Xxh3 := xxh3_Hash : bytes → Z.

(** ** Lemmas *)

#[global] Instance byte_ok_dec b : Decision (byte_ok b).
Proof. unfold byte_ok. apply _. Defined.

Lemma byte_ok_snoc b c : byte_ok (b ++ [c]) ↔ byte_ok b ∧ is_u8 c.
Proof. unfold byte_ok. by rewrite Forall_app, Forall_singleton. Qed.

Lemma beq_true a b : beq a b = true ↔ a = b.
Proof. unfold beq. by rewrite bool_decide_eq_true. Qed.

Lemma beq_refl a : beq a a = true.
Proof. by apply beq_true. Qed.

Lemma len_nonneg {A} (l : list A) : 0 <= len l.
Proof. unfold len. lia. Qed.

Lemma len_app {A} (l k : list A) : len (l ++ k) = len l + len k.
Proof. unfold len. rewrite length_app. lia. Qed.

Lemma len_cons {A} (x : A) l : len (x :: l) = 1 + len l.
Proof. unfold len. simpl. lia. Qed.

#[export] Hint Resolve len_nonneg beq_refl : go.

(** *** The lexicographic order is a strict total order. *)

Lemma blt_irrefl a : blt a a = false.
Proof.
  induction a as [|x a IH]; [done|]. simpl. by rewrite Z.ltb_irrefl.
Qed.

Lemma blt_cons x a y b :
  blt (x :: a) (y :: b) = true ↔ x < y ∨ (x = y ∧ blt a b = true).
Proof.
  simpl. destruct (Z.ltb_spec x y), (Z.ltb_spec y x);
    intuition (try lia; try congruence).
Qed.

Lemma blt_trans a b c : blt a b = true → blt b c = true → blt a c = true.
Proof.
  revert b c. induction a as [|x a IH]; intros [|y b] [|z c]; try done.
  rewrite !blt_cons. intros [?|[-> ?]] [?|[-> ?]]; [left; lia..|].
  right. eauto.
Qed.

Lemma blt_total a b : blt a b = true ∨ a = b ∨ blt b a = true.
Proof.
  revert b. induction a as [|x a IH]; intros [|y b]; [by auto..|].
  rewrite !blt_cons. destruct (Z.lt_trichotomy x y) as [?|[->|?]]; [by auto| |by auto].
  destruct (IH b) as [?|[->|?]]; auto.
Qed.

Lemma blt_asym a b : blt a b = true → blt b a = false.
Proof.
  intros H. destruct (blt b a) eqn:E; [|done].
  pose proof (blt_trans _ _ _ H E) as C. by rewrite blt_irrefl in C.
Qed.

(** A common prefix does not matter; a difference within equally long heads
    decides whatever follows. *)
Lemma blt_app_same p a b : blt (p ++ a) (p ++ b) = blt a b.
Proof. induction p as [|x p IH]; [done|]. simpl. by rewrite Z.ltb_irrefl. Qed.

Lemma blt_app_head a b x y :
  length a = length b → blt a b = true → blt (a ++ x) (b ++ y) = true.
Proof.
  revert b. induction a as [|u a IH]; intros [|v b] Hl; try done.
  rewrite <- !app_comm_cons, !blt_cons. simpl in Hl.
  intros [?|[-> ?]]; [auto|]. right. split; [done|]. apply IH; [lia|done].
Qed.

Lemma blt_app_r a x : x ≠ [] → blt a (a ++ x) = true.
Proof.
  intros Hx. rewrite <- (app_nil_r a) at 1. rewrite blt_app_same. by destruct x.
Qed.

(** *** Prefixes *)

Lemma has_prefix_spec s p : has_prefix s p = true ↔ ∃ r, s = p ++ r.
Proof.
  revert s. induction p as [|y p IH]; intros s; simpl.
  { split; [by exists s|done]. }
  destruct s as [|x s]; [split; [done|by intros [? ?]]|].
  rewrite andb_true_iff, Z.eqb_eq, IH.
  split; [intros [-> [r ->]]; by exists r|intros [r [= -> ->]]; eauto].
Qed.

Lemma has_prefix_cons x s y p : has_prefix (x :: s) (y :: p) = (x =? y) && has_prefix s p.
Proof. done. Qed.

Lemma has_prefix_app p r : has_prefix (p ++ r) p = true.
Proof. apply has_prefix_spec. eauto. Qed.

(** *** Splitting *)

Lemma index_byte_app s c r : c ∉ s → index_byte (s ++ c :: r) c = Some (length s).
Proof.
  induction s as [|x s IH]; intros Hn; simpl.
  { by rewrite Z.eqb_refl. }
  apply not_elem_of_cons in Hn as [Hx Hn]. rewrite (proj2 (Z.eqb_neq x c)) by done.
  by rewrite IH.
Qed.

Lemma index_byte_None s c : index_byte s c = None ↔ c ∉ s.
Proof.
  induction s as [|x s IH]; simpl; [split; [intros _; apply not_elem_of_nil|done]|].
  rewrite not_elem_of_cons, <- IH.
  destruct (Z.eqb_spec x c); [naive_solver|].
  destruct (index_byte s c); simpl; split; intros; repeat split; naive_solver.
Qed.

Lemma split2_app s c r : c ∉ s → split2 (s ++ c :: r) c = (s, Some r).
Proof.
  intros Hn. unfold split2. rewrite index_byte_app by done.
  rewrite take_app_length. replace (s ++ c :: r) with ((s ++ [c]) ++ r)
    by by rewrite <- app_assoc.
  by rewrite (drop_app_length' (s ++ [c])) by (rewrite length_app; simpl; lia).
Qed.

Lemma split2_none s c : c ∉ s → split2 s c = (s, None).
Proof. intros Hn%index_byte_None. unfold split2. by rewrite Hn. Qed.

(** *** Fields and joins *)

Definition no_space (s : bytes) : Prop := forallb (λ c, negb (is_space c)) s = true.

Lemma no_space_cons c s : no_space (c :: s) ↔ is_space c = false ∧ no_space s.
Proof. unfold no_space. simpl. by rewrite andb_true_iff, negb_true_iff. Qed.

Lemma is_ascii_app a b : is_ascii (a ++ b) = is_ascii a && is_ascii b.
Proof. apply forallb_app. Qed.

Lemma fields_go_word cur w s :
  no_space w → fields_go cur (w ++ s) = fields_go (cur ++ w) s.
Proof.
  revert cur. induction w as [|c w IH]; intros cur Hw; [by rewrite app_nil_r|].
  apply no_space_cons in Hw as [Hc Hw]. simpl. rewrite Hc, IH by done.
  by rewrite <- app_assoc.
Qed.

Lemma fields_join parts :
  Forall (λ p, p ≠ [] ∧ no_space p) parts → fields_go [] (join (str " ") parts) = parts.
Proof.
  induction 1 as [|p ps [Hne Hp] Hps IH]; [done|].
  destruct ps as [|q qs].
  - simpl. rewrite <- (app_nil_r p) at 1. rewrite fields_go_word by done. by destruct p.
  - change (join (str " ") (p :: q :: qs)) with (p ++ 32 :: join (str " ") (q :: qs)).
    rewrite fields_go_word by done. simpl app.
    cbn [fields_go]. change (is_space 32) with true. cbn iota. rewrite IH. by destruct p.
Qed.

Lemma is_ascii_join parts :
  Forall (λ p, is_ascii p = true) parts → is_ascii (join (str " ") parts) = true.
Proof.
  induction 1 as [|p ps Hp Hps IH]; [done|]. destruct ps as [|q qs]; [done|].
  change (join (str " ") (p :: q :: qs)) with (p ++ str " " ++ join (str " ") (q :: qs)).
  by rewrite !is_ascii_app, Hp, IH.
Qed.

Lemma Fields_join `{UnicodeCase} parts :
  Forall (λ p, p ≠ [] ∧ no_space p ∧ is_ascii p = true) parts →
  Fields (join (str " ") parts) = parts.
Proof.
  intros Hf. unfold Fields. rewrite is_ascii_join, fields_join; [done|..];
    (eapply Forall_impl; [exact Hf|naive_solver]).
Qed.

(** *** Big-endian encodings *)

Lemma length_be_put n z : length (be_put n z) = n.
Proof.
  revert z. induction n; intros z; [done|]. simpl. rewrite length_app, IHn. simpl. lia.
Qed.

Lemma be_put_ok n z : byte_ok (be_put n z).
Proof.
  revert z. induction n as [|n IH]; intros z; simpl; [constructor|].
  apply Forall_app. split; [apply IH|]. constructor; [|constructor].
  apply u8_range.
Qed.

Lemma be_get_snoc b c : be_get (b ++ [c]) = be_get b * 256 + c.
Proof. unfold be_get. by rewrite foldl_app. Qed.

Lemma pow256_succ n : 256 ^ Z.of_nat (S n) = 256 ^ Z.of_nat n * 256.
Proof. rewrite Nat2Z.inj_succ, Z.pow_succ_r; lia. Qed.

Lemma be_get_put n z : 0 <= z < 256 ^ Z.of_nat n → be_get (be_put n z) = z.
Proof.
  revert z. induction n as [|n IH]; intros z Hz.
  { change (256 ^ Z.of_nat 0) with 1 in Hz. unfold be_get. simpl. lia. }
  simpl. rewrite be_get_snoc, IH.
  { rewrite (Z.mul_comm (z / 256)). symmetry. apply Z_div_mod_eq_full. }
  rewrite pow256_succ in Hz. split; [apply Z.div_pos; lia|].
  apply Z.div_lt_upper_bound; lia.
Qed.

Lemma be_get_bound b : byte_ok b → 0 <= be_get b < 256 ^ Z.of_nat (length b).
Proof.
  induction b as [|c b IH] using rev_ind; intros Hb; [done|].
  apply byte_ok_snoc in Hb as [Hb Hc].
  rewrite be_get_snoc, length_app, Nat.add_1_r, pow256_succ.
  specialize (IH Hb). zlia.
Qed.

Lemma be_put_get b : byte_ok b → be_put (length b) (be_get b) = b.
Proof.
  induction b as [|c b IH] using rev_ind; intros Hb; [done|].
  apply byte_ok_snoc in Hb as [Hb Hc].
  unfold is_u8 in Hc. rewrite length_app, Nat.add_1_r. simpl.
  rewrite be_get_snoc, Z.div_add_l, (Z.div_small c), Z.add_0_r, IH by (done || lia).
  by rewrite Z.add_comm, Z_mod_plus_full, Z.mod_small by lia.
Qed.

(** Big-endian encodings of a fixed width compare like the numbers. *)
Lemma be_put_lt n a b :
  0 <= a → a < b → b < 256 ^ Z.of_nat n → blt (be_put n a) (be_put n b) = true.
Proof.
  revert a b. induction n as [|n IH]; intros a b Ha Hab Hb.
  { change (256 ^ Z.of_nat 0) with 1 in Hb. lia. }
  simpl. rewrite pow256_succ in Hb.
  destruct (decide (a / 256 = b / 256)) as [E|E].
  - rewrite E, blt_app_same. apply blt_cons. left.
    pose proof (Z_div_mod_eq_full a 256). pose proof (Z_div_mod_eq_full b 256). lia.
  - apply blt_app_head; [by rewrite !length_be_put|]. apply IH.
    + apply Z.div_pos; lia.
    + pose proof (Z.div_le_mono a b 256). lia.
    + apply Z.div_lt_upper_bound; lia.
Qed.

Lemma be_put_lt_iff n a b :
  0 <= a < 256 ^ Z.of_nat n → 0 <= b < 256 ^ Z.of_nat n →
  blt (be_put n a) (be_put n b) = true ↔ a < b.
Proof.
  intros Ha Hb. split; [|intros; apply be_put_lt; lia].
  intros H. destruct (Z.lt_trichotomy a b) as [?|[->|?]]; [done| |].
  - by rewrite blt_irrefl in H.
  - apply blt_asym in H. rewrite be_put_lt in H by lia. done.
Qed.
