(* ===== verification/Strconv.v ===== *)
(** * Decimal numbers

    The number syntax of the wire protocol and of the keys the server
    derives from numbers: [strconv.FormatInt]/[AppendInt]/[FormatUint],
    [strconv.ParseUint], [strconv.ParseInt]/[Atoi], and the hand-written
    [ParseInt64] and [ParseUint64] of src/redis/shared/protocol.go. *)

From S2P Require Import Prelude GoBytes.

Local Open Scope Z_scope.

(** ** Definitions *)

Definition is_digit (c : Z) : bool := (48 <=? c) && (c <=? 57).
Definition all_digits (s : bytes) : bool := forallb is_digit s.

(** The number a digit string denotes. *)
Definition dval_acc (acc : Z) (s : bytes) : Z := foldl (λ n c, n * 10 + (c - 48)) acc s.
Definition dval (s : bytes) : Z := dval_acc 0 s.

(** [strconv.FormatUint(n, 10)]: [log2 n + 1] rounds are enough, each one
    drops a decimal digit and so at least one bit. *)
Fixpoint format_digits (fuel : nat) (n : Z) : bytes :=
  match fuel with
  | O => []
  | S fuel' =>
    if n <? 10 then [n + 48]
    else format_digits fuel' (n / 10) ++ [n `mod` 10 + 48]
  end.
Definition FormatUint (n : Z) : bytes := format_digits (S (Z.to_nat (Z.log2 n))) n.
Definition FormatInt (n : Z) : bytes :=
  if n <? 0 then 45 :: FormatUint (- n) else FormatUint n.

(** [strconv.ParseUint(s, 10, 64)], the error as [None]. *)
Definition ParseUint (s : bytes) : option Z :=
  if (0 <? len s) && all_digits s && (dval s <=? MaxUint64) then Some (dval s) else None.

(** [strconv.ParseInt(s, 10, 64)]: the value returned beside the error is the
    clamped number on a range error and 0 on a syntax error. *)
Definition split_sign (s : bytes) : bool * bytes :=
  match s with
  | c :: s' => if c =? 45 then (true, s') else if c =? 43 then (false, s') else (false, s)
  | [] => (false, [])
  end.
Definition ParseInt_val (s : bytes) : Z * bool :=
  let '(neg, ds) := split_sign s in
  if (0 <? len ds) && all_digits ds then
    if neg then
      if dval ds <=? MaxInt64 + 1 then (- dval ds, true) else (MinInt64, false)
    else
      if dval ds <=? MaxInt64 then (dval ds, true) else (MaxInt64, false)
  else (0, false).
Definition Atoi (s : bytes) : option Z :=
  let '(n, ok) := ParseInt_val s in if ok then Some n else None.

(** [shared.ParseInt64]: the accumulator is a [uint64], checked before the
    multiplication and against the sign's bound after the addition. *)
Fixpoint ParseInt64_loop (neg : bool) (n : Z) (b : bytes) : option Z :=
  match b with
  | [] => Some n
  | c :: b' =>
    if (c <? 48) || (57 <? c) then None
    else if (MaxInt64 + 1) / 10 <? n then None
    else
      let n := u64 (n * 10 + (c - 48)) in
      if negb neg && (MaxInt64 <? n) then None
      else if neg && (MaxInt64 + 1 <? n) then None
      else ParseInt64_loop neg n b'
  end.
Definition ParseInt64 (b : bytes) : option Z :=
  match b with
  | [] => None
  | _ =>
    let '(neg, ds) := split_sign b in
    match ds with
    | [] => None
    | _ =>
      match ParseInt64_loop neg 0 ds with
      | None => None
      | Some n => Some (if neg then i64 (- i64 n) else i64 n)
      end
    end
  end.

(** [shared.ParseUint64]: no overflow check, the accumulator wraps. *)
Fixpoint ParseUint64_loop (n : Z) (b : bytes) : option Z :=
  match b with
  | [] => Some n
  | c :: b' =>
    if (c <? 48) || (57 <? c) then None
    else ParseUint64_loop (u64 (n * 10 + (c - 48))) b'
  end.
Definition ParseUint64 (b : bytes) : option Z :=
  match b with [] => None | _ => ParseUint64_loop 0 b end.

(** What an integer literal is: an optional sign, at least one digit, a
    value of the type. *)
Inductive int64_literal : bytes → Z → Prop :=
  | lit_plain ds : ds ≠ [] → all_digits ds = true → dval ds <= MaxInt64 →
      int64_literal ds (dval ds)
  | lit_plus ds : ds ≠ [] → all_digits ds = true → dval ds <= MaxInt64 →
      int64_literal (43 :: ds) (dval ds)
  | lit_minus ds : ds ≠ [] → all_digits ds = true → dval ds <= MaxInt64 + 1 →
      int64_literal (45 :: ds) (- dval ds).

(** ** Lemmas on digit strings *)

Lemma is_digit_spec c : is_digit c = true ↔ 48 <= c <= 57.
Proof. unfold is_digit. rewrite andb_true_iff, !Z.leb_le. done. Qed.

Lemma all_digits_cons c s : all_digits (c :: s) = true ↔ 48 <= c <= 57 ∧ all_digits s = true.
Proof. unfold all_digits. simpl. by rewrite andb_true_iff, is_digit_spec. Qed.

Lemma all_digits_app s t : all_digits (s ++ t) = all_digits s && all_digits t.
Proof. apply forallb_app. Qed.

Lemma dval_acc_cons n c s : dval_acc n (c :: s) = dval_acc (n * 10 + (c - 48)) s.
Proof. done. Qed.

Lemma dval_snoc s c : dval (s ++ [c]) = dval s * 10 + (c - 48).
Proof. unfold dval, dval_acc. by rewrite foldl_app. Qed.

Lemma dval_acc_ge n s : 0 <= n → all_digits s = true → n <= dval_acc n s.
Proof.
  revert n. induction s as [|c s IH]; intros n Hn Hs; [simpl; unfold dval_acc; simpl; lia|].
  apply all_digits_cons in Hs as [? ?]. rewrite dval_acc_cons.
  specialize (IH (n * 10 + (c - 48)) ltac:(lia) ltac:(done)). lia.
Qed.

Lemma dval_nonneg s : all_digits s = true → 0 <= dval s.
Proof. intros. by apply dval_acc_ge. Qed.

Lemma format_digits_spec fuel n :
  0 <= n < 2 ^ Z.of_nat fuel → fuel ≠ 0%nat →
  all_digits (format_digits fuel n) = true ∧ dval (format_digits fuel n) = n ∧
  format_digits fuel n ≠ [].
Proof.
  revert n. induction fuel as [|fuel IH]; intros n Hn Hf; [done|]. simpl.
  destruct (Z.ltb_spec n 10) as [H|H].
  - rewrite all_digits_cons. unfold dval, dval_acc. simpl. repeat split; (lia || done).
  - assert (Hp : 2 ^ Z.of_nat (S fuel) = 2 ^ Z.of_nat fuel * 2)
      by (rewrite Nat2Z.inj_succ, Z.pow_succ_r; lia).
    pose proof (Z.mod_pos_bound n 10 ltac:(lia)) as Hm.
    pose proof (Z_div_mod_eq_full n 10) as Hq.
    destruct (IH (n / 10)) as (H1 & H2 & H3).
    { split; [apply Z.div_pos; lia|]. apply Z.div_lt_upper_bound; lia. }
    { intros ->. simpl in Hn. lia. }
    rewrite all_digits_app, H1, dval_snoc, H2. split; [|split; [lia|]].
    + apply andb_true_iff. split; [done|]. apply all_digits_cons. split; [lia|done].
    + by intros [? ?]%app_nil.
Qed.

Lemma FormatUint_spec n :
  0 <= n → all_digits (FormatUint n) = true ∧ dval (FormatUint n) = n ∧ FormatUint n ≠ [].
Proof.
  intros Hn. apply format_digits_spec; [|done]. split; [done|].
  rewrite Nat2Z.inj_succ, Z2Nat.id by apply Z.log2_nonneg.
  destruct (decide (n = 0)) as [->|]; [done|]. apply Z.log2_spec. lia.
Qed.

Lemma all_digits_no_sep s c : all_digits s = true → ¬ (48 <= c <= 57) → c ∉ s.
Proof.
  intros Hs Hc Hin. unfold all_digits in Hs. rewrite forallb_forall in Hs.
  apply list_elem_of_In in Hin. apply Hs in Hin. by apply is_digit_spec in Hin.
Qed.

Lemma split_sign_digits s : all_digits s = true → split_sign s = (false, s).
Proof.
  destruct s as [|c s]; [done|]. intros [? ?]%all_digits_cons. simpl.
  destruct (Z.eqb_spec c 45), (Z.eqb_spec c 43); (lia || done).
Qed.

(** ** The parsers *)

Lemma ParseUint_FormatUint n : is_u64 n → ParseUint (FormatUint n) = Some n.
Proof.
  intros Hn. destruct (FormatUint_spec n) as (H1 & H2 & H3); [zlia|].
  unfold ParseUint. rewrite H1, H2.
  destruct (FormatUint n) as [|c s]; [done|]. rewrite len_cons.
  pose proof (len_nonneg s). replace (0 <? 1 + len s) with true by (symmetry; apply Z.ltb_lt; lia).
  simpl. replace (n <=? MaxUint64) with true by (symmetry; apply Z.leb_le; zlia). done.
Qed.

Lemma ParseUint_range s n : ParseUint s = Some n → is_u64 n.
Proof.
  unfold ParseUint. split_if; [|done]. intros [= <-].
  pose proof (dval_nonneg s ltac:(done)). zlia.
Qed.

(** The loop accepts exactly the digit strings whose value stays within the
    sign's bound, and never wraps. *)
Lemma ParseInt64_loop_spec (neg : bool) ds n :
  0 <= n <= MaxInt64 + (if neg then 1 else 0) →
  ParseInt64_loop neg n ds =
    (if all_digits ds && (dval_acc n ds <=? MaxInt64 + (if neg then 1 else 0))
     then Some (dval_acc n ds) else None).
Proof.
  revert n. induction ds as [|c ds IH]; intros n Hn.
  { simpl. unfold dval_acc. simpl.
    by rewrite (proj2 (Z.leb_le n _)) by (destruct neg; lia). }
  cbn [ParseInt64_loop]. rewrite dval_acc_cons.
  destruct (is_digit c) eqn:Hc; unfold is_digit in Hc; [apply andb_true_iff in Hc as [? ?]|];
    simpl; fold (all_digits ds).
  2:{ unfold is_digit. rewrite Hc. apply andb_false_iff in Hc.
      rewrite !Z.leb_gt in Hc. replace ((c <? 48) || (57 <? c)) with true; [done|].
      symmetry. apply orb_true_iff. rewrite !Z.ltb_lt. lia. }
  reflect_bools.
  replace ((c <? 48) || (57 <? c)) with false
    by (symmetry; apply orb_false_iff; rewrite !Z.ltb_ge; lia).
  replace (is_digit c) with true by (symmetry; by apply is_digit_spec).
  change ((MaxInt64 + 1) / 10) with 922337203685477580. simpl.
  assert (Hover : MaxInt64 + (if neg then 1 else 0) < n * 10 + (c - 48) →
    all_digits ds && (dval_acc (n * 10 + (c - 48)) ds <=? MaxInt64 + (if neg then 1 else 0)) = false).
  { intros. destruct (all_digits ds) eqn:Hd; [|done]. simpl. apply Z.leb_gt.
    pose proof (dval_acc_ge (n * 10 + (c - 48)) ds ltac:(lia) Hd). lia. }
  destruct (Z.ltb_spec 922337203685477580 n).
  { rewrite Hover; [done|]. destruct neg; zlia. }
  rewrite u64_id by zlia.
  destruct neg; simpl in *.
  - destruct (Z.ltb_spec (MaxInt64 + 1) (n * 10 + (c - 48))); [by rewrite Hover|].
    apply IH; lia.
  - destruct (Z.ltb_spec MaxInt64 (n * 10 + (c - 48))); [by rewrite Hover by lia|].
    rewrite IH; [done|lia].
Qed.

Lemma ParseInt64_spec (b : bytes) (z : Z) :
  ParseInt64 b = Some z ↔ int64_literal b z.
Proof.
  split.
  - unfold ParseInt64. destruct b as [|c b]; [done|]. simpl.
    destruct (Z.eqb_spec c 45) as [->|]; [|destruct (Z.eqb_spec c 43) as [->|]].
    + destruct b as [|d b]; [done|]. rewrite ParseInt64_loop_spec by zlia.
      fold (dval (d :: b)). split_if; [|done]. intros [= <-].
      pose proof (dval_nonneg (d :: b) ltac:(done)).
      destruct (decide (dval (d :: b) = MaxInt64 + 1)) as [E|].
      * rewrite E. change (i64 (- i64 (MaxInt64 + 1))) with (- (MaxInt64 + 1)).
        rewrite <- E. by apply lit_minus.
      * rewrite (i64_id (dval _)), i64_id by zlia. by apply lit_minus.
    + destruct b as [|d b]; [done|]. rewrite ParseInt64_loop_spec by zlia.
      fold (dval (d :: b)). split_if; [|done]. intros [= <-].
      pose proof (dval_nonneg (d :: b) ltac:(done)).
      rewrite i64_id by zlia. apply lit_plus; [done..|lia].
    + rewrite ParseInt64_loop_spec by zlia.
      fold (dval (c :: b)). split_if; [|done]. intros [= <-].
      pose proof (dval_nonneg (c :: b) ltac:(done)).
      rewrite i64_id by zlia. apply lit_plain; [done..|lia].
  - intros Hlit. unfold ParseInt64.
    destruct Hlit as [ds Hne Hd Hv|ds Hne Hd Hv|ds Hne Hd Hv];
      pose proof (dval_nonneg ds Hd);
      (destruct ds as [|c ds]; [done|]); [rewrite split_sign_digits by done|cbn [split_sign Z.eqb Pos.eqb]..];
      rewrite ParseInt64_loop_spec by zlia; fold (dval (c :: ds)); rewrite Hd;
      rewrite (proj2 (Z.leb_le _ _)) by lia; simpl; f_equal.
    + apply i64_id. zlia.
    + apply i64_id. zlia.
    + destruct (decide (dval (c :: ds) = MaxInt64 + 1)) as [->|]; [done|].
      rewrite (i64_id (dval _)), i64_id; zlia.
Qed.

(** [ParseInt64] accepts exactly the integer literals (optional sign, at
    least one digit) whose value fits in an [int64], and returns that value;
    every other input is refused, in particular every overflow. *)
Theorem ParseInt64_correct (b : bytes) (z : Z) :
  ParseInt64 b = Some z ↔ int64_literal b z.
Proof. apply ParseInt64_spec. Qed.

Lemma FormatInt_literal z : is_i64 z → int64_literal (FormatInt z) z.
Proof.
  intros Hz. unfold FormatInt. destruct (Z.ltb_spec z 0).
  - destruct (FormatUint_spec (- z)) as (H1 & H2 & H3); [lia|].
    replace z with (- dval (FormatUint (- z))) at 2 by lia. apply lit_minus; [done..|zlia].
  - destruct (FormatUint_spec z) as (H1 & H2 & H3); [lia|].
    rewrite <- H2 at 2. apply lit_plain; [done..|zlia].
Qed.

Lemma ParseInt64_Format n : is_i64 n → ParseInt64 (FormatInt n) = Some n.
Proof. intros. by apply ParseInt64_spec, FormatInt_literal. Qed.

Lemma ParseInt_val_FormatInt z : 0 <= z <= MaxInt64 → ParseInt_val (FormatInt z) = (z, true).
Proof.
  intros Hz. unfold FormatInt. rewrite (proj2 (Z.ltb_ge z 0)) by lia.
  destruct (FormatUint_spec z) as (H1 & H2 & H3); [lia|].
  unfold ParseInt_val. rewrite split_sign_digits, H1, H2 by done.
  destruct (FormatUint z) as [|c s]; [done|]. rewrite len_cons.
  pose proof (len_nonneg s). rewrite (proj2 (Z.ltb_lt 0 _)) by lia. simpl.
  by rewrite (proj2 (Z.leb_le z _)) by lia.
Qed.

(** Distinct numbers print differently. *)
Lemma FormatUint_inj a b : 0 <= a → 0 <= b → FormatUint a = FormatUint b → a = b.
Proof.
  intros Ha Hb E. destruct (FormatUint_spec a Ha) as (_ & <- & _).
  rewrite E. by destruct (FormatUint_spec b Hb) as (_ & -> & _).
Qed.
