(* ===== verification/Floats.v ===== *)
(** * Floating point

    Go's float64 as an IEEE double ([spec_float] of the Standard Library with 53
    bits of precision), its 64-bit pattern, its conversions to and from
    integers, and the two functions of strconv the handlers use, which are left
    open. *)

From Stdlib Require Import SpecFloat.
From S2P Require Import Prelude GoBytes.

Local Open Scope Z_scope.

(** [strconv.ParseFloat(s, 64)], [None] for an error, and
    [strconv.FormatFloat(f, 'f', -1, 64)]. *)
Class ParseFloat := parse_float : bytes → option spec_float.
Class FormatFloat := format_float : spec_float → bytes.
(** [strconv.FormatFloat(f, 'g', -1, 64)]. *)
Class FormatG := format_g : spec_float → bytes.

#[global] Instance spec_float_eq_dec : EqDecision spec_float.
Proof. solve_decision. Defined.

Definition float64_of (z : Z) : spec_float := binary_normalize 53 1024 z 0 false.
Definition float_add : spec_float → spec_float → spec_float := SFadd 53 1024.
Definition float_sub : spec_float → spec_float → spec_float := SFsub 53 1024.
Definition float_mul : spec_float → spec_float → spec_float := SFmul 53 1024.
Definition float_div : spec_float → spec_float → spec_float := SFdiv 53 1024.

Definition IsNaN (f : spec_float) : bool := match f with S754_nan => true | _ => false end.
(** [math.IsInf(f, 0)]. *)
Definition IsInf (f : spec_float) : bool := match f with S754_infinity _ => true | _ => false end.

(** [int64(f)] for a value in range: the fraction is dropped. *)
Definition int64_of_float (f : spec_float) : Z :=
  match f with
  | S754_finite s m e =>
    let n := if 0 <=? e then Z.pos m * 2 ^ e else Z.pos m / 2 ^ (- e) in
    if s then - n else n
  | _ => 0
  end.

(** [math.Float64bits] and [math.Float64frombits]. *)
Definition Float64frombits (b : Z) : spec_float :=
  let s := Z.testbit b 63 in
  let e := Z.land (Z.shiftr b 52) 2047 in
  let m := Z.land b (2 ^ 52 - 1) in
  if e =? 0 then match m with Z.pos p => S754_finite s p (-1074) | _ => S754_zero s end
  else if e =? 2047 then (if m =? 0 then S754_infinity s else S754_nan)
  else match m + 2 ^ 52 with Z.pos p => S754_finite s p (e - 1075) | _ => S754_nan end.

Definition Float64bits (f : spec_float) : Z :=
  let sign (s : bool) := if s then 2 ^ 63 else 0 in
  match f with
  | S754_zero s => sign s
  | S754_infinity s => sign s + 2047 * 2 ^ 52
  | S754_nan => 2047 * 2 ^ 52 + 2 ^ 51 + 1
  | S754_finite s m e =>
    if Z.pos m <? 2 ^ 52 then sign s + Z.pos m
    else sign s + (e + 1075) * 2 ^ 52 + (Z.pos m - 2 ^ 52)
  end.

(** ** The bit pattern determines the float *)

Lemma bits_fields (s : bool) e m : 0 <= e < 2 ^ 11 → 0 <= m < 2 ^ 52 →
  let b := (if s then 2 ^ 63 else 0) + e * 2 ^ 52 + m in
  Z.testbit b 63 = s ∧ Z.land (Z.shiftr b 52) 2047 = e ∧ Z.land b (2 ^ 52 - 1) = m.
Proof.
  intros He Hm b. change 2047 with (Z.ones 11). change (2 ^ 52 - 1) with (Z.ones 52).
  rewrite !Z.land_ones, Z.shiftr_div_pow2 by lia.
  assert (Hb : b = ((if s then 2 ^ 11 else 0) + e) * 2 ^ 52 + m) by (unfold b; destruct s; lia).
  assert (Hd : b / 2 ^ 52 = (if s then 2 ^ 11 else 0) + e).
  { rewrite Hb. rewrite Z.div_add_l by lia. rewrite (Z.div_small m) by lia. lia. }
  split_and!.
  - rewrite Z.testbit_odd, Z.shiftr_div_pow2 by lia.
    replace (2 ^ 63) with (2 ^ 52 * 2 ^ 11) by lia. rewrite <- Z.div_div by lia. rewrite Hd.
    destruct s.
    + replace ((2 ^ 11 + e) / 2 ^ 11) with 1; [done|]. apply Z.div_unique with e; lia.
    + rewrite Z.div_small by lia. done.
  - rewrite Hd. destruct s; [|by apply Z.mod_small].
    rewrite <- (Z.mod_small e (2 ^ 11)) at 2 by lia. rewrite Z.add_comm.
    replace (2 ^ 11) with (1 * 2 ^ 11) at 1 by lia. by rewrite Z.mod_add by lia.
  - rewrite Hb, Z.add_comm, Z.mod_add by lia. by apply Z.mod_small.
Qed.

(** A double in canonical form: subnormals have the least exponent. *)
Definition is_double (f : spec_float) : Prop :=
  match f with
  | S754_finite _ m e =>
    if Z.pos m <? 2 ^ 52 then e = -1074 else Z.pos m < 2 ^ 53 ∧ -1074 <= e <= 971
  | _ => True
  end.

(** [Float64frombits] undoes [Float64bits]. *)
Lemma Float64bits_roundtrip f : is_double f → Float64frombits (Float64bits f) = f.
Proof.
  intros Hf. unfold Float64frombits. destruct f as [s|s| |s m e].
  - by destruct s.
  - by destruct s.
  - done.
  - unfold is_double in Hf. cbn [Float64bits]. destruct (Z.ltb_spec (Z.pos m) (2 ^ 52)) as [Hm|Hm].
    + destruct (bits_fields s 0 (Z.pos m)) as (Hs & He & Hl); [lia..|].
      rewrite Z.mul_0_l, Z.add_0_r in *. rewrite Hs, He, Hl. cbn. by subst.
    + destruct (bits_fields s (e + 1075) (Z.pos m - 2 ^ 52)) as (Hs & He & Hl); [lia..|].
      rewrite Hs, He, Hl. rewrite (proj2 (Z.eqb_neq _ 0)), (proj2 (Z.eqb_neq _ 2047)) by lia.
      rewrite Z.sub_add. f_equal. lia.
Qed.

(** ** Integers as doubles *)

Lemma iter_xO_value p k : Z.pos (Pos.iter xO p k) = Z.pos p * 2 ^ Z.pos k.
Proof. induction k as [|k IH] using Pos.peano_ind; [cbn; lia|]. rewrite Pos.iter_succ, Pos2Z.inj_xO, IH, Pos2Z.inj_succ, Z.pow_succ_r by lia. lia. Qed.
Lemma iter_xO_digits p k : digits2_pos (Pos.iter xO p k) = (digits2_pos p + k)%positive.
Proof. induction k as [|k IH] using Pos.peano_ind; [cbn; lia|]. rewrite Pos.iter_succ. cbn [digits2_pos]. rewrite IH. lia. Qed.
Lemma digits_below p : 2 ^ (Z.pos (digits2_pos p) - 1) <= Z.pos p.
Proof.
  induction p as [p IH|p IH|]; cbn [digits2_pos]; [| |cbn; lia].
  all: rewrite Pos2Z.inj_succ; replace (Z.succ (Z.pos (digits2_pos p)) - 1) with (Z.succ (Z.pos (digits2_pos p) - 1)) by lia; rewrite Z.pow_succ_r by lia; lia.
Qed.

Lemma digits_above p : Z.pos p < 2 ^ Z.pos (digits2_pos p).
Proof. induction p as [p IH|p IH|]; cbn [digits2_pos]; [| |cbn; lia]. all: rewrite Pos2Z.inj_succ, Z.pow_succ_r by lia; lia. Qed.

(** Integers of at most 53 bits are doubles, and are read back as they are. *)
Lemma float64_exact z : 0 <= z < 2 ^ 53 → int64_of_float (float64_of z) = z.
Proof.
  intros Hz. unfold float64_of. destruct z as [|p|p]; [done| |lia]. cbn [binary_normalize].
  assert (Hd : Z.pos (digits2_pos p) <= 53).
  { destruct (Z.le_gt_cases (Z.pos (digits2_pos p)) 53) as [|Hgt]; [done|]. pose proof (digits_below p) as Hb.
    assert (2 ^ 53 <= 2 ^ (Z.pos (digits2_pos p) - 1)) by (apply Z.pow_le_mono_r; lia). lia. }
  assert (Hf : ∀ e, -53 <= e <= 0 → fexp 53 1024 (53 + e) = e) by (intros e He; unfold fexp, emin; lia).
  assert (Hround : ∀ m e, digits2_pos m = 53%positive → -53 <= e <= 0 → binary_round_aux 53 1024 false (Z.pos m) e loc_Exact = S754_finite false m e).
  { intros m e Hm He. unfold binary_round_aux, shr_fexp. cbn [Zdigits2]. rewrite Hm, Hf by lia. rewrite Z.sub_diag. cbn [shr shr_record_of_loc loc_of_shr_record round_nearest_even shr_m].
    cbn [Zdigits2]. rewrite Hm, Hf by lia. rewrite Z.sub_diag. cbn [shr shr_record_of_loc shr_m]. by rewrite (proj2 (Z.leb_le _ _)) by lia. }
  unfold binary_round. replace (fexp 53 1024 (Z.pos (digits2_pos p) + 0)) with (Z.pos (digits2_pos p) - 53) by (unfold fexp, emin; lia).
  unfold shl_align. rewrite Z.sub_0_r. destruct (Z.pos (digits2_pos p) - 53) as [|k|k] eqn:Ek; [|lia|].
  - rewrite Hround by lia. cbn. lia.
  - rewrite Hround; [|rewrite iter_xO_digits; lia|lia]. cbn [int64_of_float]. rewrite (proj2 (Z.leb_gt _ _)) by lia.
    change (- Z.neg k) with (Z.pos k). rewrite iter_xO_value. apply Z.div_mul. lia.
Qed.

(** ** Results that are numbers *)

Definition finite (f : spec_float) : bool := match f with S754_zero _ | S754_finite _ _ _ => true | _ => false end.

Lemma iter_pos_keeps {A} (f : A → A) (Q : A → Prop) n x : (∀ y, Q y → Q (f y)) → Q x → Q (SpecFloat.iter_pos f n x).
Proof. intros Hf. revert x. induction n as [n IH|n IH|]; intros x Hx; cbn [SpecFloat.iter_pos]; auto. Qed.
Lemma shr_keeps m r s e n : 0 <= m → let '(mrs, e') := shr (Build_shr_record m r s) e n in 0 <= shr_m mrs <= m ∧ e' = e + Z.max n 0.
Proof.
  intros Hm. destruct n as [|n|n]; cbn [shr]; [cbn [shr_m]; lia| |cbn [shr_m]; lia]. split; [|lia].
  apply (iter_pos_keeps shr_1 (λ y, 0 <= shr_m y <= m)); [|cbn; lia]. intros [k r' s'] Hk. cbn [shr_m] in Hk. destruct k as [|[p|p|]|p]; cbn; lia.
Qed.
(** Rounding a positive number never gives NaN, and gives a finite one as long as
    its exponent stays low. *)
Lemma round_aux_number sx m e l : 0 <= m → IsNaN (binary_round_aux 53 1024 sx m e l) = false ∧
  (m < 2 ^ 64 → -1074 <= e <= 64 → finite (binary_round_aux 53 1024 sx m e l) = true).
Proof.
  intros Hm. unfold binary_round_aux, shr_fexp. set (n1 := fexp 53 1024 (Zdigits2 m + e) - e).
  assert (Hr : ∃ r s, shr_record_of_loc m l = Build_shr_record m r s) by (destruct l as [|[| |]]; cbn; eauto). destruct Hr as (r & s & ->).
  pose proof (shr_keeps m r s e n1 Hm) as H1. destruct (shr _ e n1) as [mrs1 e1]. destruct H1 as [Hm1 He1].
  set (m2 := round_nearest_even (shr_m mrs1) (loc_of_shr_record mrs1)). assert (Hm2 : 0 <= m2 <= m + 1) by (unfold m2, round_nearest_even; destruct (loc_of_shr_record mrs1) as [|[| |]]; try case (Z.even (shr_m mrs1)); lia).
  set (n2 := fexp 53 1024 (Zdigits2 m2 + e1) - e1). cbn [shr_record_of_loc]. pose proof (shr_keeps m2 false false e1 n2 (proj1 Hm2)) as H2. destruct (shr _ e1 n2) as [mrs2 e2]. destruct H2 as [Hm3 He2].
  destruct (shr_m mrs2) as [|p|p] eqn:E; [done| |lia]. split; [by destruct (e2 <=? 1024 - 53)|]. intros Hlt He.
  assert (Hd : ∀ k, 0 <= k <= 2 ^ 64 → Zdigits2 k <= 65).
  { intros [|q|q] Hk; cbn [Zdigits2]; [lia| |lia]. pose proof (digits_below q) as Hb. destruct (Z.le_gt_cases (Z.pos (digits2_pos q)) 65) as [|Hgt]; [done|].
    assert (2 ^ 65 <= 2 ^ (Z.pos (digits2_pos q) - 1)) by (apply Z.pow_le_mono_r; lia). lia. }
  pose proof (Hd m ltac:(lia)) as Hd1. pose proof (Hd m2 ltac:(lia)) as Hd2. rewrite (proj2 (Z.leb_le e2 (1024 - 53))); [done|]. unfold n1, n2, fexp, emin in *. lia.
Qed.
Lemma normalize_number m e sz : IsNaN (binary_normalize 53 1024 m e sz) = false.
Proof. destruct m as [|p|p]; [done|..]; cbn [binary_normalize]; unfold binary_round; destruct (shl_align _ _ _); apply round_aux_number; lia. Qed.
Lemma float64_finite z : is_i64 z → finite (float64_of z) = true.
Proof.
  intros Hz. unfold float64_of. destruct z as [|p|p]; [done|..]; cbn [binary_normalize]; unfold binary_round, shl_align; rewrite Z.add_0_r, Z.sub_0_r.
  all: assert (Hd : 1 <= Z.pos (digits2_pos p) <= 64) by (split; [lia|]; pose proof (digits_below p); destruct (Z.le_gt_cases (Z.pos (digits2_pos p)) 64); [done|]; assert (2 ^ 64 <= 2 ^ (Z.pos (digits2_pos p) - 1)) by (apply Z.pow_le_mono_r; lia); zlia).
  all: destruct (fexp 53 1024 (Z.pos (digits2_pos p))) as [|k|k] eqn:Ek; try (apply round_aux_number; zlia).
  all: apply round_aux_number; [lia| |unfold fexp, emin in Ek; lia]; rewrite iter_xO_value.
  all: pose proof (digits_above p) as Hp; assert (Hk : Z.pos (digits2_pos p) + Z.pos k = 53) by (unfold fexp, emin in Ek; lia).
  all: apply Z.lt_trans with (2 ^ 53); [|lia]; rewrite <- Hk, Z.pow_add_r by lia; apply Z.mul_lt_mono_pos_r; lia.
Qed.

Lemma div_number a b : finite a = true → finite b = true → (∀ s, b ≠ S754_zero s) → IsNaN (float_div a b) = false.
Proof.
  intros Ha Hb Hz. unfold float_div. destruct a as [sa|sa| |sa ma ea], b as [sb|sb| |sb mb eb]; try done; try (by destruct (Hz sb)). cbn [SFdiv]. unfold SFdiv_core_binary.
  match goal with |- context [Z.div_eucl ?x (Z.pos mb)] => pose proof (Z_div_mod x (Z.pos mb)) as Hd; assert (Hx : 0 <= x) by (match goal with |- context [match ?y with _ => _ end] => destruct y end; [lia|apply Z.shiftl_nonneg; lia|lia]); destruct (Z.div_eucl x (Z.pos mb)) as [q r] end.
  destruct Hd as [He Hr]; [lia|]. apply round_aux_number. nia.
Qed.
Lemma div_infinity a s : finite a = true → IsNaN (float_div a (S754_infinity s)) = false.
Proof. by destruct a. Qed.
Lemma add_number a b : finite a = true → IsNaN b = false → IsNaN (float_add a b) = false.
Proof. intros Ha Hb. unfold float_add. destruct a as [sa|sa| |sa ma ea], b as [sb|sb| |sb mb eb]; try done; cbn [SFadd]; [by destruct sa, sb|apply normalize_number]. Qed.
Lemma opp_number a : IsNaN (SFopp a) = IsNaN a.
Proof. by destruct a. Qed.
