(* ===== verification/Commands.v ===== *)
(** * The command table

    src/redis/shared/command.go and src/redis/shared/acl_categories.go: the
    [CommandType] enumeration, the name tables in both directions, the
    category table, and the lookups the parser and the ACL layer make in
    them.  A Go map literal has distinct keys, so each table is the
    association list of its literal and the map built from it. *)

From S2P Require Import Prelude GoBytes.

Local Open Scope Z_scope.

(** ** Tables *)

(** The constants of [CommandType], in the order of their [iota]. *)
Inductive CommandType : Type :=
  | CmdUnknown | CmdNoop | CmdPing | CmdEcho | CmdAuth | CmdSelect | CmdQuit | CmdHello
  | CmdGet | CmdSet | CmdDel | CmdDelEx | CmdExists | CmdExpire | CmdExpireAt | CmdPExpire
  | CmdPExpireAt | CmdTTL | CmdPTTL | CmdExpireTime | CmdPExpireTime | CmdPersist | CmdRename
  | CmdRenameNX | CmdIncr | CmdDecr | CmdIncrBy | CmdDecrBy | CmdIncrByFloat | CmdAppend
  | CmdGetSet | CmdGetDel | CmdGetEx | CmdMGet | CmdMSet | CmdMSetNX | CmdMSetEX | CmdSetNX
  | CmdSetEX | CmdPSetEX | CmdStrLen | CmdSetRange | CmdGetRange | CmdSubstr | CmdLcs
  | CmdDigest | CmdType | CmdSetBit | CmdGetBit | CmdBitCount | CmdBitPos | CmdBitOp
  | CmdBitField | CmdBitFieldRO | CmdLPush | CmdLPushX | CmdRPush | CmdRPushX | CmdLPop
  | CmdRPop | CmdBLPop | CmdBRPop | CmdLMPop | CmdBLMPop | CmdLMove | CmdBLMove | CmdRPopLPush
  | CmdBRPopLPush | CmdLLen | CmdLRange | CmdLIndex | CmdLSet | CmdLRem | CmdLTrim | CmdLInsert
  | CmdLPos | CmdHGet | CmdHSet | CmdHSetNX | CmdHDel | CmdHExists | CmdHGetAll | CmdHKeys
  | CmdHVals | CmdHLen | CmdHMGet | CmdHMSet | CmdHIncrBy | CmdHIncrByFloat | CmdHStrLen
  | CmdHRandField | CmdHScan | CmdHGetDel | CmdHExpire | CmdHPExpire | CmdHExpireAt
  | CmdHPExpireAt | CmdHTTL | CmdHPTTL | CmdHExpireTime | CmdHPExpireTime | CmdHPersist
  | CmdHSetEx | CmdHGetEx | CmdSAdd | CmdSCard | CmdSIsMember | CmdSMIsMember | CmdSMembers
  | CmdSPop | CmdSRem | CmdSRandMember | CmdSInter | CmdSInterStore | CmdSInterCard | CmdSUnion
  | CmdSUnionStore | CmdSDiff | CmdSDiffStore | CmdSMove | CmdZAdd | CmdZRem | CmdZScore
  | CmdZCard | CmdZRank | CmdZRevRank | CmdZRange | CmdZRevRange | CmdZRangeByScore
  | CmdZRevRangeByScore | CmdZCount | CmdZIncrBy | CmdZPopMin | CmdZPopMax | CmdZMPop
  | CmdZMScore | CmdBZPopMin | CmdBZPopMax | CmdBZMPop | CmdZRangeByLex | CmdZRevRangeByLex
  | CmdZLexCount | CmdZRemRangeByScore | CmdZRemRangeByRank | CmdZRemRangeByLex
  | CmdZUnionStore | CmdZInterStore | CmdZUnion | CmdZInter | CmdZInterCard | CmdZDiff
  | CmdZDiffStore | CmdZRangeStore | CmdZRandMember | CmdCopy | CmdMove | CmdRandomKey
  | CmdSort | CmdSortRO | CmdInfo | CmdDBSize | CmdFlushDB | CmdFlushAll | CmdTime | CmdKeys
  | CmdScan | CmdCommand | CmdConfig | CmdClient | CmdDebug | CmdMemory | CmdShutdown
  | CmdMulti | CmdExec | CmdDiscard | CmdWatch | CmdUnwatch | CmdFunction | CmdScript | CmdEval
  | CmdEvalSha | CmdEvalRO | CmdEvalShaRO | CmdFcall | CmdFcallRO | CmdSync | CmdPSync
  | CmdReplConf | CmdWait | CmdWaitAof | CmdSubscribe | CmdUnsubscribe | CmdPSubscribe
  | CmdPUnsubscribe | CmdPublish | CmdPubSub | CmdSwapDB | CmdXAdd | CmdXLen | CmdXRange
  | CmdXRevRange | CmdXRead | CmdXGroup | CmdXReadGroup | CmdXAck | CmdXPending | CmdXTrim
  | CmdXDel | CmdXInfo | CmdXSetId | CmdXDelEx | CmdXAckDel | CmdXClaim | CmdXAutoClaim
  | CmdXIdmpRecord | CmdXCfgSet | CmdPFAdd | CmdPFCount | CmdPFMerge | CmdPFSelfTest
  | CmdPFDebug | CmdGeoAdd | CmdGeoDist | CmdGeoHash | CmdGeoPos | CmdGeoRadius
  | CmdGeoRadiusRO | CmdGeoRadiusByMember | CmdGeoRadiusByMemberRO | CmdGeoSearch
  | CmdGeoSearchStore | CmdAcl | CmdJSONSet | CmdJSONGet | CmdJSONMGet | CmdJSONMSet
  | CmdJSONMerge | CmdJSONDel | CmdJSONForget | CmdJSONClear | CmdJSONType | CmdJSONNumIncrBy
  | CmdJSONNumMultBy | CmdJSONNumPowBy | CmdJSONArrLen | CmdJSONArrAppend | CmdJSONArrInsert
  | CmdJSONArrPop | CmdJSONArrTrim | CmdJSONArrIndex | CmdJSONStrLen | CmdJSONStrAppend
  | CmdJSONObjKeys | CmdJSONObjLen | CmdJSONToggle | CmdJSONResp | CmdJSONDebug | CmdUnlink
  | CmdMax.

(** The [iota] value of a command. *)
Definition cmd_index (c : CommandType) : nat :=
  match c with
  | CmdUnknown => 0%nat | CmdNoop => 1%nat | CmdPing => 2%nat | CmdEcho => 3%nat
  | CmdAuth => 4%nat | CmdSelect => 5%nat | CmdQuit => 6%nat | CmdHello => 7%nat
  | CmdGet => 8%nat | CmdSet => 9%nat | CmdDel => 10%nat | CmdDelEx => 11%nat
  | CmdExists => 12%nat | CmdExpire => 13%nat | CmdExpireAt => 14%nat | CmdPExpire => 15%nat
  | CmdPExpireAt => 16%nat | CmdTTL => 17%nat | CmdPTTL => 18%nat | CmdExpireTime => 19%nat
  | CmdPExpireTime => 20%nat | CmdPersist => 21%nat | CmdRename => 22%nat
  | CmdRenameNX => 23%nat | CmdIncr => 24%nat | CmdDecr => 25%nat | CmdIncrBy => 26%nat
  | CmdDecrBy => 27%nat | CmdIncrByFloat => 28%nat | CmdAppend => 29%nat | CmdGetSet => 30%nat
  | CmdGetDel => 31%nat | CmdGetEx => 32%nat | CmdMGet => 33%nat | CmdMSet => 34%nat
  | CmdMSetNX => 35%nat | CmdMSetEX => 36%nat | CmdSetNX => 37%nat | CmdSetEX => 38%nat
  | CmdPSetEX => 39%nat | CmdStrLen => 40%nat | CmdSetRange => 41%nat | CmdGetRange => 42%nat
  | CmdSubstr => 43%nat | CmdLcs => 44%nat | CmdDigest => 45%nat | CmdType => 46%nat
  | CmdSetBit => 47%nat | CmdGetBit => 48%nat | CmdBitCount => 49%nat | CmdBitPos => 50%nat
  | CmdBitOp => 51%nat | CmdBitField => 52%nat | CmdBitFieldRO => 53%nat | CmdLPush => 54%nat
  | CmdLPushX => 55%nat | CmdRPush => 56%nat | CmdRPushX => 57%nat | CmdLPop => 58%nat
  | CmdRPop => 59%nat | CmdBLPop => 60%nat | CmdBRPop => 61%nat | CmdLMPop => 62%nat
  | CmdBLMPop => 63%nat | CmdLMove => 64%nat | CmdBLMove => 65%nat | CmdRPopLPush => 66%nat
  | CmdBRPopLPush => 67%nat | CmdLLen => 68%nat | CmdLRange => 69%nat | CmdLIndex => 70%nat
  | CmdLSet => 71%nat | CmdLRem => 72%nat | CmdLTrim => 73%nat | CmdLInsert => 74%nat
  | CmdLPos => 75%nat | CmdHGet => 76%nat | CmdHSet => 77%nat | CmdHSetNX => 78%nat
  | CmdHDel => 79%nat | CmdHExists => 80%nat | CmdHGetAll => 81%nat | CmdHKeys => 82%nat
  | CmdHVals => 83%nat | CmdHLen => 84%nat | CmdHMGet => 85%nat | CmdHMSet => 86%nat
  | CmdHIncrBy => 87%nat | CmdHIncrByFloat => 88%nat | CmdHStrLen => 89%nat
  | CmdHRandField => 90%nat | CmdHScan => 91%nat | CmdHGetDel => 92%nat | CmdHExpire => 93%nat
  | CmdHPExpire => 94%nat | CmdHExpireAt => 95%nat | CmdHPExpireAt => 96%nat
  | CmdHTTL => 97%nat | CmdHPTTL => 98%nat | CmdHExpireTime => 99%nat
  | CmdHPExpireTime => 100%nat | CmdHPersist => 101%nat | CmdHSetEx => 102%nat
  | CmdHGetEx => 103%nat | CmdSAdd => 104%nat | CmdSCard => 105%nat | CmdSIsMember => 106%nat
  | CmdSMIsMember => 107%nat | CmdSMembers => 108%nat | CmdSPop => 109%nat | CmdSRem => 110%nat
  | CmdSRandMember => 111%nat | CmdSInter => 112%nat | CmdSInterStore => 113%nat
  | CmdSInterCard => 114%nat | CmdSUnion => 115%nat | CmdSUnionStore => 116%nat
  | CmdSDiff => 117%nat | CmdSDiffStore => 118%nat | CmdSMove => 119%nat | CmdZAdd => 120%nat
  | CmdZRem => 121%nat | CmdZScore => 122%nat | CmdZCard => 123%nat | CmdZRank => 124%nat
  | CmdZRevRank => 125%nat | CmdZRange => 126%nat | CmdZRevRange => 127%nat
  | CmdZRangeByScore => 128%nat | CmdZRevRangeByScore => 129%nat | CmdZCount => 130%nat
  | CmdZIncrBy => 131%nat | CmdZPopMin => 132%nat | CmdZPopMax => 133%nat | CmdZMPop => 134%nat
  | CmdZMScore => 135%nat | CmdBZPopMin => 136%nat | CmdBZPopMax => 137%nat
  | CmdBZMPop => 138%nat | CmdZRangeByLex => 139%nat | CmdZRevRangeByLex => 140%nat
  | CmdZLexCount => 141%nat | CmdZRemRangeByScore => 142%nat | CmdZRemRangeByRank => 143%nat
  | CmdZRemRangeByLex => 144%nat | CmdZUnionStore => 145%nat | CmdZInterStore => 146%nat
  | CmdZUnion => 147%nat | CmdZInter => 148%nat | CmdZInterCard => 149%nat
  | CmdZDiff => 150%nat | CmdZDiffStore => 151%nat | CmdZRangeStore => 152%nat
  | CmdZRandMember => 153%nat | CmdCopy => 154%nat | CmdMove => 155%nat
  | CmdRandomKey => 156%nat | CmdSort => 157%nat | CmdSortRO => 158%nat | CmdInfo => 159%nat
  | CmdDBSize => 160%nat | CmdFlushDB => 161%nat | CmdFlushAll => 162%nat | CmdTime => 163%nat
  | CmdKeys => 164%nat | CmdScan => 165%nat | CmdCommand => 166%nat | CmdConfig => 167%nat
  | CmdClient => 168%nat | CmdDebug => 169%nat | CmdMemory => 170%nat | CmdShutdown => 171%nat
  | CmdMulti => 172%nat | CmdExec => 173%nat | CmdDiscard => 174%nat | CmdWatch => 175%nat
  | CmdUnwatch => 176%nat | CmdFunction => 177%nat | CmdScript => 178%nat | CmdEval => 179%nat
  | CmdEvalSha => 180%nat | CmdEvalRO => 181%nat | CmdEvalShaRO => 182%nat
  | CmdFcall => 183%nat | CmdFcallRO => 184%nat | CmdSync => 185%nat | CmdPSync => 186%nat
  | CmdReplConf => 187%nat | CmdWait => 188%nat | CmdWaitAof => 189%nat
  | CmdSubscribe => 190%nat | CmdUnsubscribe => 191%nat | CmdPSubscribe => 192%nat
  | CmdPUnsubscribe => 193%nat | CmdPublish => 194%nat | CmdPubSub => 195%nat
  | CmdSwapDB => 196%nat | CmdXAdd => 197%nat | CmdXLen => 198%nat | CmdXRange => 199%nat
  | CmdXRevRange => 200%nat | CmdXRead => 201%nat | CmdXGroup => 202%nat
  | CmdXReadGroup => 203%nat | CmdXAck => 204%nat | CmdXPending => 205%nat
  | CmdXTrim => 206%nat | CmdXDel => 207%nat | CmdXInfo => 208%nat | CmdXSetId => 209%nat
  | CmdXDelEx => 210%nat | CmdXAckDel => 211%nat | CmdXClaim => 212%nat
  | CmdXAutoClaim => 213%nat | CmdXIdmpRecord => 214%nat | CmdXCfgSet => 215%nat
  | CmdPFAdd => 216%nat | CmdPFCount => 217%nat | CmdPFMerge => 218%nat
  | CmdPFSelfTest => 219%nat | CmdPFDebug => 220%nat | CmdGeoAdd => 221%nat
  | CmdGeoDist => 222%nat | CmdGeoHash => 223%nat | CmdGeoPos => 224%nat
  | CmdGeoRadius => 225%nat | CmdGeoRadiusRO => 226%nat | CmdGeoRadiusByMember => 227%nat
  | CmdGeoRadiusByMemberRO => 228%nat | CmdGeoSearch => 229%nat | CmdGeoSearchStore => 230%nat
  | CmdAcl => 231%nat | CmdJSONSet => 232%nat | CmdJSONGet => 233%nat | CmdJSONMGet => 234%nat
  | CmdJSONMSet => 235%nat | CmdJSONMerge => 236%nat | CmdJSONDel => 237%nat
  | CmdJSONForget => 238%nat | CmdJSONClear => 239%nat | CmdJSONType => 240%nat
  | CmdJSONNumIncrBy => 241%nat | CmdJSONNumMultBy => 242%nat | CmdJSONNumPowBy => 243%nat
  | CmdJSONArrLen => 244%nat | CmdJSONArrAppend => 245%nat | CmdJSONArrInsert => 246%nat
  | CmdJSONArrPop => 247%nat | CmdJSONArrTrim => 248%nat | CmdJSONArrIndex => 249%nat
  | CmdJSONStrLen => 250%nat | CmdJSONStrAppend => 251%nat | CmdJSONObjKeys => 252%nat
  | CmdJSONObjLen => 253%nat | CmdJSONToggle => 254%nat | CmdJSONResp => 255%nat
  | CmdJSONDebug => 256%nat | CmdUnlink => 257%nat | CmdMax => 258%nat
  end.

Definition all_commands : list CommandType := [
  CmdUnknown; CmdNoop; CmdPing; CmdEcho; CmdAuth; CmdSelect; CmdQuit; CmdHello; CmdGet; CmdSet;
  CmdDel; CmdDelEx; CmdExists; CmdExpire; CmdExpireAt; CmdPExpire; CmdPExpireAt; CmdTTL;
  CmdPTTL; CmdExpireTime; CmdPExpireTime; CmdPersist; CmdRename; CmdRenameNX; CmdIncr; CmdDecr;
  CmdIncrBy; CmdDecrBy; CmdIncrByFloat; CmdAppend; CmdGetSet; CmdGetDel; CmdGetEx; CmdMGet;
  CmdMSet; CmdMSetNX; CmdMSetEX; CmdSetNX; CmdSetEX; CmdPSetEX; CmdStrLen; CmdSetRange;
  CmdGetRange; CmdSubstr; CmdLcs; CmdDigest; CmdType; CmdSetBit; CmdGetBit; CmdBitCount;
  CmdBitPos; CmdBitOp; CmdBitField; CmdBitFieldRO; CmdLPush; CmdLPushX; CmdRPush; CmdRPushX;
  CmdLPop; CmdRPop; CmdBLPop; CmdBRPop; CmdLMPop; CmdBLMPop; CmdLMove; CmdBLMove; CmdRPopLPush;
  CmdBRPopLPush; CmdLLen; CmdLRange; CmdLIndex; CmdLSet; CmdLRem; CmdLTrim; CmdLInsert;
  CmdLPos; CmdHGet; CmdHSet; CmdHSetNX; CmdHDel; CmdHExists; CmdHGetAll; CmdHKeys; CmdHVals;
  CmdHLen; CmdHMGet; CmdHMSet; CmdHIncrBy; CmdHIncrByFloat; CmdHStrLen; CmdHRandField;
  CmdHScan; CmdHGetDel; CmdHExpire; CmdHPExpire; CmdHExpireAt; CmdHPExpireAt; CmdHTTL;
  CmdHPTTL; CmdHExpireTime; CmdHPExpireTime; CmdHPersist; CmdHSetEx; CmdHGetEx; CmdSAdd;
  CmdSCard; CmdSIsMember; CmdSMIsMember; CmdSMembers; CmdSPop; CmdSRem; CmdSRandMember;
  CmdSInter; CmdSInterStore; CmdSInterCard; CmdSUnion; CmdSUnionStore; CmdSDiff; CmdSDiffStore;
  CmdSMove; CmdZAdd; CmdZRem; CmdZScore; CmdZCard; CmdZRank; CmdZRevRank; CmdZRange;
  CmdZRevRange; CmdZRangeByScore; CmdZRevRangeByScore; CmdZCount; CmdZIncrBy; CmdZPopMin;
  CmdZPopMax; CmdZMPop; CmdZMScore; CmdBZPopMin; CmdBZPopMax; CmdBZMPop; CmdZRangeByLex;
  CmdZRevRangeByLex; CmdZLexCount; CmdZRemRangeByScore; CmdZRemRangeByRank; CmdZRemRangeByLex;
  CmdZUnionStore; CmdZInterStore; CmdZUnion; CmdZInter; CmdZInterCard; CmdZDiff; CmdZDiffStore;
  CmdZRangeStore; CmdZRandMember; CmdCopy; CmdMove; CmdRandomKey; CmdSort; CmdSortRO; CmdInfo;
  CmdDBSize; CmdFlushDB; CmdFlushAll; CmdTime; CmdKeys; CmdScan; CmdCommand; CmdConfig;
  CmdClient; CmdDebug; CmdMemory; CmdShutdown; CmdMulti; CmdExec; CmdDiscard; CmdWatch;
  CmdUnwatch; CmdFunction; CmdScript; CmdEval; CmdEvalSha; CmdEvalRO; CmdEvalShaRO; CmdFcall;
  CmdFcallRO; CmdSync; CmdPSync; CmdReplConf; CmdWait; CmdWaitAof; CmdSubscribe;
  CmdUnsubscribe; CmdPSubscribe; CmdPUnsubscribe; CmdPublish; CmdPubSub; CmdSwapDB; CmdXAdd;
  CmdXLen; CmdXRange; CmdXRevRange; CmdXRead; CmdXGroup; CmdXReadGroup; CmdXAck; CmdXPending;
  CmdXTrim; CmdXDel; CmdXInfo; CmdXSetId; CmdXDelEx; CmdXAckDel; CmdXClaim; CmdXAutoClaim;
  CmdXIdmpRecord; CmdXCfgSet; CmdPFAdd; CmdPFCount; CmdPFMerge; CmdPFSelfTest; CmdPFDebug;
  CmdGeoAdd; CmdGeoDist; CmdGeoHash; CmdGeoPos; CmdGeoRadius; CmdGeoRadiusRO;
  CmdGeoRadiusByMember; CmdGeoRadiusByMemberRO; CmdGeoSearch; CmdGeoSearchStore; CmdAcl;
  CmdJSONSet; CmdJSONGet; CmdJSONMGet; CmdJSONMSet; CmdJSONMerge; CmdJSONDel; CmdJSONForget;
  CmdJSONClear; CmdJSONType; CmdJSONNumIncrBy; CmdJSONNumMultBy; CmdJSONNumPowBy;
  CmdJSONArrLen; CmdJSONArrAppend; CmdJSONArrInsert; CmdJSONArrPop; CmdJSONArrTrim;
  CmdJSONArrIndex; CmdJSONStrLen; CmdJSONStrAppend; CmdJSONObjKeys; CmdJSONObjLen;
  CmdJSONToggle; CmdJSONResp; CmdJSONDebug; CmdUnlink; CmdMax
].

Definition commandNames_1 : list (string * CommandType) := [
  ("PING", CmdPing); ("ECHO", CmdEcho); ("AUTH", CmdAuth); ("SELECT", CmdSelect);
  ("QUIT", CmdQuit); ("HELLO", CmdHello); ("GET", CmdGet); ("SET", CmdSet); ("DEL", CmdDel);
  ("UNLINK", CmdUnlink); ("DELEX", CmdDelEx); ("EXISTS", CmdExists); ("EXPIRE", CmdExpire);
  ("EXPIREAT", CmdExpireAt); ("PEXPIRE", CmdPExpire); ("PEXPIREAT", CmdPExpireAt);
  ("TTL", CmdTTL); ("PTTL", CmdPTTL); ("EXPIRETIME", CmdExpireTime);
  ("PEXPIRETIME", CmdPExpireTime); ("PERSIST", CmdPersist); ("RENAME", CmdRename);
  ("RENAMENX", CmdRenameNX); ("INCR", CmdIncr); ("DECR", CmdDecr); ("INCRBY", CmdIncrBy);
  ("DECRBY", CmdDecrBy); ("INCRBYFLOAT", CmdIncrByFloat); ("APPEND", CmdAppend);
  ("GETSET", CmdGetSet); ("GETDEL", CmdGetDel); ("GETEX", CmdGetEx); ("MGET", CmdMGet);
  ("MSET", CmdMSet); ("MSETNX", CmdMSetNX); ("MSETEX", CmdMSetEX); ("SETNX", CmdSetNX);
  ("SETEX", CmdSetEX); ("PSETEX", CmdPSetEX); ("STRLEN", CmdStrLen); ("SETRANGE", CmdSetRange);
  ("GETRANGE", CmdGetRange); ("SUBSTR", CmdSubstr); ("LCS", CmdLcs); ("DIGEST", CmdDigest);
  ("TYPE", CmdType); ("SETBIT", CmdSetBit); ("GETBIT", CmdGetBit); ("BITCOUNT", CmdBitCount);
  ("BITPOS", CmdBitPos); ("BITOP", CmdBitOp); ("BITFIELD", CmdBitField);
  ("BITFIELD_RO", CmdBitFieldRO); ("LPUSH", CmdLPush); ("LPUSHX", CmdLPushX);
  ("RPUSH", CmdRPush); ("RPUSHX", CmdRPushX); ("LPOP", CmdLPop); ("RPOP", CmdRPop);
  ("BLPOP", CmdBLPop); ("BRPOP", CmdBRPop); ("LMPOP", CmdLMPop); ("BLMPOP", CmdBLMPop);
  ("LMOVE", CmdLMove); ("BLMOVE", CmdBLMove); ("RPOPLPUSH", CmdRPopLPush);
  ("BRPOPLPUSH", CmdBRPopLPush); ("LLEN", CmdLLen); ("LRANGE", CmdLRange);
  ("LINDEX", CmdLIndex); ("LSET", CmdLSet); ("LREM", CmdLRem); ("LTRIM", CmdLTrim);
  ("LINSERT", CmdLInsert); ("LPOS", CmdLPos); ("HGET", CmdHGet); ("HSET", CmdHSet);
  ("HSETNX", CmdHSetNX); ("HDEL", CmdHDel); ("HEXISTS", CmdHExists); ("HGETALL", CmdHGetAll);
  ("HKEYS", CmdHKeys); ("HVALS", CmdHVals); ("HLEN", CmdHLen); ("HMGET", CmdHMGet);
  ("HMSET", CmdHMSet); ("HINCRBY", CmdHIncrBy); ("HINCRBYFLOAT", CmdHIncrByFloat);
  ("HSTRLEN", CmdHStrLen); ("HRANDFIELD", CmdHRandField); ("HSCAN", CmdHScan);
  ("HGETDEL", CmdHGetDel); ("HEXPIRE", CmdHExpire); ("HPEXPIRE", CmdHPExpire);
  ("HEXPIREAT", CmdHExpireAt); ("HPEXPIREAT", CmdHPExpireAt); ("HTTL", CmdHTTL);
  ("HPTTL", CmdHPTTL); ("HEXPIRETIME", CmdHExpireTime); ("HPEXPIRETIME", CmdHPExpireTime);
  ("HPERSIST", CmdHPersist); ("HSETEX", CmdHSetEx); ("HGETEX", CmdHGetEx); ("SADD", CmdSAdd);
  ("SCARD", CmdSCard); ("SISMEMBER", CmdSIsMember); ("SMISMEMBER", CmdSMIsMember);
  ("SMEMBERS", CmdSMembers); ("SPOP", CmdSPop); ("SREM", CmdSRem);
  ("SRANDMEMBER", CmdSRandMember); ("SINTER", CmdSInter); ("SINTERSTORE", CmdSInterStore);
  ("SINTERCARD", CmdSInterCard); ("SUNION", CmdSUnion); ("SUNIONSTORE", CmdSUnionStore);
  ("SDIFF", CmdSDiff); ("SDIFFSTORE", CmdSDiffStore); ("SMOVE", CmdSMove); ("ZADD", CmdZAdd);
  ("ZREM", CmdZRem); ("ZSCORE", CmdZScore); ("ZCARD", CmdZCard); ("ZRANK", CmdZRank);
  ("ZREVRANK", CmdZRevRank); ("ZRANGE", CmdZRange)
].

Definition commandNames_2 : list (string * CommandType) := [
  ("ZREVRANGE", CmdZRevRange); ("ZRANGEBYSCORE", CmdZRangeByScore);
  ("ZREVRANGEBYSCORE", CmdZRevRangeByScore); ("ZCOUNT", CmdZCount); ("ZINCRBY", CmdZIncrBy);
  ("ZPOPMIN", CmdZPopMin); ("ZPOPMAX", CmdZPopMax); ("ZMPOP", CmdZMPop);
  ("ZMSCORE", CmdZMScore); ("BZPOPMIN", CmdBZPopMin); ("BZPOPMAX", CmdBZPopMax);
  ("BZMPOP", CmdBZMPop); ("ZRANGEBYLEX", CmdZRangeByLex);
  ("ZREVRANGEBYLEX", CmdZRevRangeByLex); ("ZLEXCOUNT", CmdZLexCount);
  ("ZREMRANGEBYSCORE", CmdZRemRangeByScore); ("ZREMRANGEBYRANK", CmdZRemRangeByRank);
  ("ZREMRANGEBYLEX", CmdZRemRangeByLex); ("ZUNIONSTORE", CmdZUnionStore);
  ("ZINTERSTORE", CmdZInterStore); ("ZUNION", CmdZUnion); ("ZINTER", CmdZInter);
  ("ZINTERCARD", CmdZInterCard); ("ZDIFF", CmdZDiff); ("ZDIFFSTORE", CmdZDiffStore);
  ("ZRANGESTORE", CmdZRangeStore); ("ZRANDMEMBER", CmdZRandMember); ("COPY", CmdCopy);
  ("MOVE", CmdMove); ("RANDOMKEY", CmdRandomKey); ("SORT", CmdSort); ("SORT_RO", CmdSortRO);
  ("INFO", CmdInfo); ("DBSIZE", CmdDBSize); ("FLUSHDB", CmdFlushDB); ("FLUSHALL", CmdFlushAll);
  ("TIME", CmdTime); ("KEYS", CmdKeys); ("SCAN", CmdScan); ("COMMAND", CmdCommand);
  ("CONFIG", CmdConfig); ("CLIENT", CmdClient); ("DEBUG", CmdDebug); ("MEMORY", CmdMemory);
  ("SHUTDOWN", CmdShutdown); ("MULTI", CmdMulti); ("EXEC", CmdExec); ("DISCARD", CmdDiscard);
  ("WATCH", CmdWatch); ("UNWATCH", CmdUnwatch); ("FUNCTION", CmdFunction);
  ("SCRIPT", CmdScript); ("EVAL", CmdEval); ("EVALSHA", CmdEvalSha); ("EVAL_RO", CmdEvalRO);
  ("EVALSHA_RO", CmdEvalShaRO); ("FCALL", CmdFcall); ("FCALL_RO", CmdFcallRO);
  ("SYNC", CmdSync); ("PSYNC", CmdPSync); ("REPLCONF", CmdReplConf); ("WAIT", CmdWait);
  ("WAITAOF", CmdWaitAof); ("SUBSCRIBE", CmdSubscribe); ("UNSUBSCRIBE", CmdUnsubscribe);
  ("PSUBSCRIBE", CmdPSubscribe); ("PUNSUBSCRIBE", CmdPUnsubscribe); ("PUBLISH", CmdPublish);
  ("PUBSUB", CmdPubSub); ("SWAPDB", CmdSwapDB); ("XADD", CmdXAdd); ("XLEN", CmdXLen);
  ("XRANGE", CmdXRange); ("XREVRANGE", CmdXRevRange); ("XREAD", CmdXRead);
  ("XGROUP", CmdXGroup); ("XREADGROUP", CmdXReadGroup); ("XACK", CmdXAck);
  ("XPENDING", CmdXPending); ("XTRIM", CmdXTrim); ("XDEL", CmdXDel); ("XINFO", CmdXInfo);
  ("XSETID", CmdXSetId); ("XDELEX", CmdXDelEx); ("XACKDEL", CmdXAckDel); ("XCLAIM", CmdXClaim);
  ("XAUTOCLAIM", CmdXAutoClaim); ("XIDMPRECORD", CmdXIdmpRecord); ("XCFGSET", CmdXCfgSet);
  ("PFADD", CmdPFAdd); ("PFCOUNT", CmdPFCount); ("PFMERGE", CmdPFMerge);
  ("PFSELFTEST", CmdPFSelfTest); ("PFDEBUG", CmdPFDebug); ("GEOADD", CmdGeoAdd);
  ("GEODIST", CmdGeoDist); ("GEOHASH", CmdGeoHash); ("GEOPOS", CmdGeoPos);
  ("GEORADIUS", CmdGeoRadius); ("GEORADIUS_RO", CmdGeoRadiusRO);
  ("GEORADIUSBYMEMBER", CmdGeoRadiusByMember);
  ("GEORADIUSBYMEMBER_RO", CmdGeoRadiusByMemberRO); ("GEOSEARCH", CmdGeoSearch);
  ("GEOSEARCHSTORE", CmdGeoSearchStore); ("ACL", CmdAcl); ("JSON.SET", CmdJSONSet);
  ("JSON.GET", CmdJSONGet); ("JSON.MGET", CmdJSONMGet); ("JSON.MSET", CmdJSONMSet);
  ("JSON.MERGE", CmdJSONMerge); ("JSON.DEL", CmdJSONDel); ("JSON.FORGET", CmdJSONForget);
  ("JSON.CLEAR", CmdJSONClear); ("JSON.TYPE", CmdJSONType);
  ("JSON.NUMINCRBY", CmdJSONNumIncrBy); ("JSON.NUMMULTBY", CmdJSONNumMultBy)
].

Definition commandNames_3 : list (string * CommandType) := [
  ("JSON.NUMPOWBY", CmdJSONNumPowBy); ("JSON.ARRLEN", CmdJSONArrLen);
  ("JSON.ARRAPPEND", CmdJSONArrAppend); ("JSON.ARRINSERT", CmdJSONArrInsert);
  ("JSON.ARRPOP", CmdJSONArrPop); ("JSON.ARRTRIM", CmdJSONArrTrim);
  ("JSON.ARRINDEX", CmdJSONArrIndex); ("JSON.STRLEN", CmdJSONStrLen);
  ("JSON.STRAPPEND", CmdJSONStrAppend); ("JSON.OBJKEYS", CmdJSONObjKeys);
  ("JSON.OBJLEN", CmdJSONObjLen); ("JSON.TOGGLE", CmdJSONToggle); ("JSON.RESP", CmdJSONResp);
  ("JSON.DEBUG", CmdJSONDebug)
].

Definition commandStrings_1 : list (CommandType * string) := [
  (CmdPing, "ping"); (CmdEcho, "echo"); (CmdAuth, "auth"); (CmdSelect, "select");
  (CmdQuit, "quit"); (CmdHello, "hello"); (CmdGet, "get"); (CmdSet, "set"); (CmdDel, "del");
  (CmdUnlink, "unlink"); (CmdDelEx, "delex"); (CmdExists, "exists"); (CmdExpire, "expire");
  (CmdExpireAt, "expireat"); (CmdPExpire, "pexpire"); (CmdPExpireAt, "pexpireat");
  (CmdTTL, "ttl"); (CmdPTTL, "pttl"); (CmdExpireTime, "expiretime");
  (CmdPExpireTime, "pexpiretime"); (CmdPersist, "persist"); (CmdRename, "rename");
  (CmdRenameNX, "renamenx"); (CmdIncr, "incr"); (CmdDecr, "decr"); (CmdIncrBy, "incrby");
  (CmdDecrBy, "decrby"); (CmdIncrByFloat, "incrbyfloat"); (CmdAppend, "append");
  (CmdGetSet, "getset"); (CmdGetDel, "getdel"); (CmdGetEx, "getex"); (CmdMGet, "mget");
  (CmdMSet, "mset"); (CmdMSetNX, "msetnx"); (CmdMSetEX, "msetex"); (CmdSetNX, "setnx");
  (CmdSetEX, "setex"); (CmdPSetEX, "psetex"); (CmdStrLen, "strlen"); (CmdSetRange, "setrange");
  (CmdGetRange, "getrange"); (CmdSubstr, "substr"); (CmdLcs, "lcs"); (CmdDigest, "digest");
  (CmdType, "type"); (CmdSetBit, "setbit"); (CmdGetBit, "getbit"); (CmdBitCount, "bitcount");
  (CmdBitPos, "bitpos"); (CmdBitOp, "bitop"); (CmdBitField, "bitfield");
  (CmdBitFieldRO, "bitfield_ro"); (CmdLPush, "lpush"); (CmdLPushX, "lpushx");
  (CmdRPush, "rpush"); (CmdRPushX, "rpushx"); (CmdLPop, "lpop"); (CmdRPop, "rpop");
  (CmdBLPop, "blpop"); (CmdBRPop, "brpop"); (CmdLMPop, "lmpop"); (CmdBLMPop, "blmpop");
  (CmdLMove, "lmove"); (CmdBLMove, "blmove"); (CmdRPopLPush, "rpoplpush");
  (CmdBRPopLPush, "brpoplpush"); (CmdLLen, "llen"); (CmdLRange, "lrange");
  (CmdLIndex, "lindex"); (CmdLSet, "lset"); (CmdLRem, "lrem"); (CmdLTrim, "ltrim");
  (CmdLInsert, "linsert"); (CmdLPos, "lpos"); (CmdHGet, "hget"); (CmdHSet, "hset");
  (CmdHSetNX, "hsetnx"); (CmdHDel, "hdel"); (CmdHExists, "hexists"); (CmdHGetAll, "hgetall");
  (CmdHKeys, "hkeys"); (CmdHVals, "hvals"); (CmdHLen, "hlen"); (CmdHMGet, "hmget");
  (CmdHMSet, "hmset"); (CmdHIncrBy, "hincrby"); (CmdHIncrByFloat, "hincrbyfloat");
  (CmdHStrLen, "hstrlen"); (CmdHRandField, "hrandfield"); (CmdHScan, "hscan");
  (CmdHGetDel, "hgetdel"); (CmdHExpire, "hexpire"); (CmdHPExpire, "hpexpire");
  (CmdHExpireAt, "hexpireat"); (CmdHPExpireAt, "hpexpireat"); (CmdHTTL, "httl");
  (CmdHPTTL, "hpttl"); (CmdHExpireTime, "hexpiretime"); (CmdHPExpireTime, "hpexpiretime");
  (CmdHPersist, "hpersist"); (CmdHSetEx, "hsetex"); (CmdHGetEx, "hgetex"); (CmdSAdd, "sadd");
  (CmdSCard, "scard"); (CmdSIsMember, "sismember"); (CmdSMIsMember, "smismember");
  (CmdSMembers, "smembers"); (CmdSPop, "spop"); (CmdSRem, "srem");
  (CmdSRandMember, "srandmember"); (CmdSInter, "sinter"); (CmdSInterStore, "sinterstore");
  (CmdSInterCard, "sintercard"); (CmdSUnion, "sunion"); (CmdSUnionStore, "sunionstore");
  (CmdSDiff, "sdiff"); (CmdSDiffStore, "sdiffstore"); (CmdSMove, "smove"); (CmdZAdd, "zadd");
  (CmdZRem, "zrem"); (CmdZScore, "zscore"); (CmdZCard, "zcard"); (CmdZRank, "zrank");
  (CmdZRevRank, "zrevrank"); (CmdZRange, "zrange"); (CmdZRevRange, "zrevrange");
  (CmdZRangeByScore, "zrangebyscore"); (CmdZRevRangeByScore, "zrevrangebyscore");
  (CmdZCount, "zcount"); (CmdZIncrBy, "zincrby"); (CmdZPopMin, "zpopmin");
  (CmdZPopMax, "zpopmax"); (CmdZMPop, "zmpop"); (CmdZMScore, "zmscore");
  (CmdBZPopMin, "bzpopmin"); (CmdBZPopMax, "bzpopmax"); (CmdBZMPop, "bzmpop");
  (CmdZRangeByLex, "zrangebylex")
].

Definition commandStrings_2 : list (CommandType * string) := [
  (CmdZRevRangeByLex, "zrevrangebylex"); (CmdZLexCount, "zlexcount");
  (CmdZRemRangeByScore, "zremrangebyscore"); (CmdZRemRangeByRank, "zremrangebyrank");
  (CmdZRemRangeByLex, "zremrangebylex"); (CmdZUnionStore, "zunionstore");
  (CmdZInterStore, "zinterstore"); (CmdZUnion, "zunion"); (CmdZInter, "zinter");
  (CmdZInterCard, "zintercard"); (CmdZDiff, "zdiff"); (CmdZDiffStore, "zdiffstore");
  (CmdZRangeStore, "zrangestore"); (CmdZRandMember, "zrandmember"); (CmdCopy, "copy");
  (CmdMove, "move"); (CmdRandomKey, "randomkey"); (CmdSort, "sort"); (CmdSortRO, "sort_ro");
  (CmdInfo, "info"); (CmdDBSize, "dbsize"); (CmdFlushDB, "flushdb"); (CmdFlushAll, "flushall");
  (CmdTime, "time"); (CmdKeys, "keys"); (CmdScan, "scan"); (CmdCommand, "command");
  (CmdConfig, "config"); (CmdClient, "client"); (CmdDebug, "debug"); (CmdMemory, "memory");
  (CmdShutdown, "shutdown"); (CmdMulti, "multi"); (CmdExec, "exec"); (CmdDiscard, "discard");
  (CmdWatch, "watch"); (CmdUnwatch, "unwatch"); (CmdFunction, "function");
  (CmdScript, "script"); (CmdEval, "eval"); (CmdEvalSha, "evalsha"); (CmdEvalRO, "eval_ro");
  (CmdEvalShaRO, "evalsha_ro"); (CmdFcall, "fcall"); (CmdFcallRO, "fcall_ro");
  (CmdSync, "sync"); (CmdPSync, "psync"); (CmdReplConf, "replconf"); (CmdWait, "wait");
  (CmdWaitAof, "waitaof"); (CmdSubscribe, "subscribe"); (CmdUnsubscribe, "unsubscribe");
  (CmdPSubscribe, "psubscribe"); (CmdPUnsubscribe, "punsubscribe"); (CmdPublish, "publish");
  (CmdPubSub, "pubsub"); (CmdSwapDB, "swapdb"); (CmdXAdd, "xadd"); (CmdXLen, "xlen");
  (CmdXRange, "xrange"); (CmdXRevRange, "xrevrange"); (CmdXRead, "xread");
  (CmdXGroup, "xgroup"); (CmdXReadGroup, "xreadgroup"); (CmdXAck, "xack");
  (CmdXPending, "xpending"); (CmdXTrim, "xtrim"); (CmdXDel, "xdel"); (CmdXInfo, "xinfo");
  (CmdXSetId, "xsetid"); (CmdXDelEx, "xdelex"); (CmdXAckDel, "xackdel"); (CmdXClaim, "xclaim");
  (CmdXAutoClaim, "xautoclaim"); (CmdXIdmpRecord, "xidmprecord"); (CmdXCfgSet, "xcfgset");
  (CmdPFAdd, "pfadd"); (CmdPFCount, "pfcount"); (CmdPFMerge, "pfmerge");
  (CmdPFSelfTest, "pfselftest"); (CmdPFDebug, "pfdebug"); (CmdGeoAdd, "geoadd");
  (CmdGeoDist, "geodist"); (CmdGeoHash, "geohash"); (CmdGeoPos, "geopos");
  (CmdGeoRadius, "georadius"); (CmdGeoRadiusRO, "georadius_ro");
  (CmdGeoRadiusByMember, "georadiusbymember");
  (CmdGeoRadiusByMemberRO, "georadiusbymember_ro"); (CmdGeoSearch, "geosearch");
  (CmdGeoSearchStore, "geosearchstore"); (CmdAcl, "acl"); (CmdJSONSet, "json.set");
  (CmdJSONGet, "json.get"); (CmdJSONMGet, "json.mget"); (CmdJSONMSet, "json.mset");
  (CmdJSONMerge, "json.merge"); (CmdJSONDel, "json.del"); (CmdJSONForget, "json.forget");
  (CmdJSONClear, "json.clear"); (CmdJSONType, "json.type");
  (CmdJSONNumIncrBy, "json.numincrby"); (CmdJSONNumMultBy, "json.nummultby");
  (CmdJSONNumPowBy, "json.numpowby"); (CmdJSONArrLen, "json.arrlen");
  (CmdJSONArrAppend, "json.arrappend"); (CmdJSONArrInsert, "json.arrinsert");
  (CmdJSONArrPop, "json.arrpop"); (CmdJSONArrTrim, "json.arrtrim");
  (CmdJSONArrIndex, "json.arrindex"); (CmdJSONStrLen, "json.strlen");
  (CmdJSONStrAppend, "json.strappend"); (CmdJSONObjKeys, "json.objkeys");
  (CmdJSONObjLen, "json.objlen"); (CmdJSONToggle, "json.toggle"); (CmdJSONResp, "json.resp");
  (CmdJSONDebug, "json.debug")
].

(** The categories, [1 << iota] in the source; only their identity is used. *)
Inductive CommandCategory : Type :=
  | CatRead | CatWrite | CatSet | CatSortedSet | CatList | CatHash | CatString | CatBitmap
  | CatHyperLogLog | CatGeo | CatStream | CatPubSub | CatAdmin | CatFast | CatSlow
  | CatBlocking | CatDangerous | CatConnection | CatTransaction | CatScripting | CatKeyspace
  | CatAll.

Definition commandCategories_1 : list (CommandType * list CommandCategory) := [
  (CmdPing, [CatFast; CatConnection]); (CmdEcho, [CatFast; CatConnection]);
  (CmdAuth, [CatFast; CatConnection]); (CmdSelect, [CatFast; CatConnection]);
  (CmdQuit, [CatFast; CatConnection]); (CmdHello, [CatFast; CatConnection]);
  (CmdGet, [CatRead; CatString; CatFast]); (CmdMGet, [CatRead; CatString; CatFast]);
  (CmdStrLen, [CatRead; CatString; CatFast]); (CmdGetRange, [CatRead; CatString; CatSlow]);
  (CmdSubstr, [CatRead; CatString; CatSlow]); (CmdSet, [CatWrite; CatString; CatSlow]);
  (CmdSetNX, [CatWrite; CatString; CatFast]); (CmdSetEX, [CatWrite; CatString; CatSlow]);
  (CmdPSetEX, [CatWrite; CatString; CatSlow]); (CmdMSet, [CatWrite; CatString; CatSlow]);
  (CmdMSetNX, [CatWrite; CatString; CatSlow]); (CmdMSetEX, [CatWrite; CatString; CatSlow]);
  (CmdGetSet, [CatWrite; CatString; CatFast]); (CmdGetDel, [CatWrite; CatString; CatFast]);
  (CmdGetEx, [CatWrite; CatString; CatFast]); (CmdAppend, [CatWrite; CatString; CatFast]);
  (CmdSetRange, [CatWrite; CatString; CatSlow]); (CmdIncr, [CatWrite; CatString; CatFast]);
  (CmdDecr, [CatWrite; CatString; CatFast]); (CmdIncrBy, [CatWrite; CatString; CatFast]);
  (CmdDecrBy, [CatWrite; CatString; CatFast]);
  (CmdIncrByFloat, [CatWrite; CatString; CatFast]); (CmdLcs, [CatRead; CatString; CatSlow]);
  (CmdDigest, [CatRead; CatString; CatFast]); (CmdDel, [CatWrite; CatKeyspace; CatFast]);
  (CmdUnlink, [CatWrite; CatKeyspace; CatFast]); (CmdDelEx, [CatWrite; CatKeyspace; CatFast]);
  (CmdExists, [CatRead; CatKeyspace; CatFast]); (CmdExpire, [CatWrite; CatKeyspace; CatFast]);
  (CmdExpireAt, [CatWrite; CatKeyspace; CatFast]);
  (CmdPExpire, [CatWrite; CatKeyspace; CatFast]);
  (CmdPExpireAt, [CatWrite; CatKeyspace; CatFast]); (CmdTTL, [CatRead; CatKeyspace; CatFast]);
  (CmdPTTL, [CatRead; CatKeyspace; CatFast]); (CmdExpireTime, [CatRead; CatKeyspace; CatFast]);
  (CmdPExpireTime, [CatRead; CatKeyspace; CatFast]);
  (CmdPersist, [CatWrite; CatKeyspace; CatFast]);
  (CmdRename, [CatWrite; CatKeyspace; CatSlow]);
  (CmdRenameNX, [CatWrite; CatKeyspace; CatSlow]); (CmdType, [CatRead; CatKeyspace; CatFast]);
  (CmdCopy, [CatWrite; CatKeyspace; CatSlow]); (CmdMove, [CatWrite; CatKeyspace; CatSlow]);
  (CmdRandomKey, [CatRead; CatKeyspace; CatSlow]);
  (CmdSort, [CatWrite; CatKeyspace; CatSlow; CatDangerous]);
  (CmdSortRO, [CatRead; CatKeyspace; CatSlow]); (CmdSetBit, [CatWrite; CatBitmap; CatSlow]);
  (CmdGetBit, [CatRead; CatBitmap; CatFast]); (CmdBitCount, [CatRead; CatBitmap; CatSlow]);
  (CmdBitPos, [CatRead; CatBitmap; CatSlow]); (CmdBitOp, [CatWrite; CatBitmap; CatSlow]);
  (CmdBitField, [CatWrite; CatBitmap; CatSlow]);
  (CmdBitFieldRO, [CatRead; CatBitmap; CatSlow]); (CmdLLen, [CatRead; CatList; CatFast]);
  (CmdLRange, [CatRead; CatList; CatSlow]); (CmdLIndex, [CatRead; CatList; CatSlow]);
  (CmdLPos, [CatRead; CatList; CatSlow]); (CmdLPush, [CatWrite; CatList; CatFast]);
  (CmdLPushX, [CatWrite; CatList; CatFast]); (CmdRPush, [CatWrite; CatList; CatFast]);
  (CmdRPushX, [CatWrite; CatList; CatFast]); (CmdLPop, [CatWrite; CatList; CatFast]);
  (CmdRPop, [CatWrite; CatList; CatFast]); (CmdLSet, [CatWrite; CatList; CatSlow]);
  (CmdLRem, [CatWrite; CatList; CatSlow]); (CmdLTrim, [CatWrite; CatList; CatSlow]);
  (CmdLInsert, [CatWrite; CatList; CatSlow]); (CmdLMove, [CatWrite; CatList; CatSlow]);
  (CmdRPopLPush, [CatWrite; CatList; CatSlow]); (CmdLMPop, [CatWrite; CatList; CatSlow]);
  (CmdBLPop, [CatWrite; CatList; CatSlow; CatBlocking]);
  (CmdBRPop, [CatWrite; CatList; CatSlow; CatBlocking]);
  (CmdBLMPop, [CatWrite; CatList; CatSlow; CatBlocking]);
  (CmdBLMove, [CatWrite; CatList; CatSlow; CatBlocking]);
  (CmdBRPopLPush, [CatWrite; CatList; CatSlow; CatBlocking]);
  (CmdHGet, [CatRead; CatHash; CatFast]); (CmdHExists, [CatRead; CatHash; CatFast]);
  (CmdHGetAll, [CatRead; CatHash; CatSlow]); (CmdHKeys, [CatRead; CatHash; CatSlow]);
  (CmdHVals, [CatRead; CatHash; CatSlow]); (CmdHLen, [CatRead; CatHash; CatFast]);
  (CmdHMGet, [CatRead; CatHash; CatFast]); (CmdHStrLen, [CatRead; CatHash; CatFast]);
  (CmdHRandField, [CatRead; CatHash; CatSlow]); (CmdHScan, [CatRead; CatHash; CatSlow]);
  (CmdHTTL, [CatRead; CatHash; CatFast]); (CmdHPTTL, [CatRead; CatHash; CatFast]);
  (CmdHExpireTime, [CatRead; CatHash; CatFast]);
  (CmdHPExpireTime, [CatRead; CatHash; CatFast]); (CmdHSet, [CatWrite; CatHash; CatFast]);
  (CmdHSetNX, [CatWrite; CatHash; CatFast]); (CmdHDel, [CatWrite; CatHash; CatFast]);
  (CmdHMSet, [CatWrite; CatHash; CatFast]); (CmdHIncrBy, [CatWrite; CatHash; CatFast]);
  (CmdHIncrByFloat, [CatWrite; CatHash; CatFast]); (CmdHGetDel, [CatWrite; CatHash; CatFast]);
  (CmdHExpire, [CatWrite; CatHash; CatFast]); (CmdHPExpire, [CatWrite; CatHash; CatFast]);
  (CmdHExpireAt, [CatWrite; CatHash; CatFast]); (CmdHPExpireAt, [CatWrite; CatHash; CatFast]);
  (CmdHPersist, [CatWrite; CatHash; CatFast]); (CmdHSetEx, [CatWrite; CatHash; CatFast]);
  (CmdHGetEx, [CatWrite; CatHash; CatFast]); (CmdSCard, [CatRead; CatSet; CatFast]);
  (CmdSIsMember, [CatRead; CatSet; CatFast]); (CmdSMIsMember, [CatRead; CatSet; CatFast]);
  (CmdSMembers, [CatRead; CatSet; CatSlow]); (CmdSRandMember, [CatRead; CatSet; CatSlow]);
  (CmdSInter, [CatRead; CatSet; CatSlow]); (CmdSUnion, [CatRead; CatSet; CatSlow]);
  (CmdSDiff, [CatRead; CatSet; CatSlow]); (CmdSInterCard, [CatRead; CatSet; CatSlow]);
  (CmdSAdd, [CatWrite; CatSet; CatFast])
].

Definition commandCategories_2 : list (CommandType * list CommandCategory) := [
  (CmdSPop, [CatWrite; CatSet; CatFast]); (CmdSRem, [CatWrite; CatSet; CatFast]);
  (CmdSInterStore, [CatWrite; CatSet; CatSlow]); (CmdSUnionStore, [CatWrite; CatSet; CatSlow]);
  (CmdSDiffStore, [CatWrite; CatSet; CatSlow]); (CmdSMove, [CatWrite; CatSet; CatFast]);
  (CmdZScore, [CatRead; CatSortedSet; CatFast]); (CmdZCard, [CatRead; CatSortedSet; CatFast]);
  (CmdZRank, [CatRead; CatSortedSet; CatFast]);
  (CmdZRevRank, [CatRead; CatSortedSet; CatFast]);
  (CmdZRange, [CatRead; CatSortedSet; CatSlow]);
  (CmdZRevRange, [CatRead; CatSortedSet; CatSlow]);
  (CmdZRangeByScore, [CatRead; CatSortedSet; CatSlow]);
  (CmdZRevRangeByScore, [CatRead; CatSortedSet; CatSlow]);
  (CmdZCount, [CatRead; CatSortedSet; CatFast]);
  (CmdZMScore, [CatRead; CatSortedSet; CatFast]);
  (CmdZRangeByLex, [CatRead; CatSortedSet; CatSlow]);
  (CmdZRevRangeByLex, [CatRead; CatSortedSet; CatSlow]);
  (CmdZLexCount, [CatRead; CatSortedSet; CatFast]);
  (CmdZRandMember, [CatRead; CatSortedSet; CatSlow]);
  (CmdZUnion, [CatRead; CatSortedSet; CatSlow]); (CmdZInter, [CatRead; CatSortedSet; CatSlow]);
  (CmdZDiff, [CatRead; CatSortedSet; CatSlow]);
  (CmdZInterCard, [CatRead; CatSortedSet; CatSlow]);
  (CmdZAdd, [CatWrite; CatSortedSet; CatFast]); (CmdZRem, [CatWrite; CatSortedSet; CatFast]);
  (CmdZIncrBy, [CatWrite; CatSortedSet; CatFast]);
  (CmdZPopMin, [CatWrite; CatSortedSet; CatFast]);
  (CmdZPopMax, [CatWrite; CatSortedSet; CatFast]);
  (CmdZMPop, [CatWrite; CatSortedSet; CatSlow]);
  (CmdZRemRangeByScore, [CatWrite; CatSortedSet; CatSlow]);
  (CmdZRemRangeByRank, [CatWrite; CatSortedSet; CatSlow]);
  (CmdZRemRangeByLex, [CatWrite; CatSortedSet; CatSlow]);
  (CmdZUnionStore, [CatWrite; CatSortedSet; CatSlow]);
  (CmdZInterStore, [CatWrite; CatSortedSet; CatSlow]);
  (CmdZDiffStore, [CatWrite; CatSortedSet; CatSlow]);
  (CmdZRangeStore, [CatWrite; CatSortedSet; CatSlow]);
  (CmdBZPopMin, [CatWrite; CatSortedSet; CatSlow; CatBlocking]);
  (CmdBZPopMax, [CatWrite; CatSortedSet; CatSlow; CatBlocking]);
  (CmdBZMPop, [CatWrite; CatSortedSet; CatSlow; CatBlocking]);
  (CmdXLen, [CatRead; CatStream; CatFast]); (CmdXRange, [CatRead; CatStream; CatSlow]);
  (CmdXRevRange, [CatRead; CatStream; CatSlow]);
  (CmdXRead, [CatRead; CatStream; CatSlow; CatBlocking]);
  (CmdXPending, [CatRead; CatStream; CatSlow]); (CmdXInfo, [CatRead; CatStream; CatSlow]);
  (CmdXAdd, [CatWrite; CatStream; CatFast]); (CmdXGroup, [CatWrite; CatStream; CatSlow]);
  (CmdXReadGroup, [CatWrite; CatStream; CatSlow; CatBlocking]);
  (CmdXAck, [CatWrite; CatStream; CatFast]); (CmdXTrim, [CatWrite; CatStream; CatSlow]);
  (CmdXDel, [CatWrite; CatStream; CatFast]); (CmdXSetId, [CatWrite; CatStream; CatFast]);
  (CmdXDelEx, [CatWrite; CatStream; CatFast]); (CmdXAckDel, [CatWrite; CatStream; CatFast]);
  (CmdXClaim, [CatWrite; CatStream; CatFast]); (CmdXAutoClaim, [CatWrite; CatStream; CatFast]);
  (CmdXIdmpRecord, [CatWrite; CatStream; CatFast]);
  (CmdXCfgSet, [CatWrite; CatStream; CatFast]);
  (CmdPFAdd, [CatWrite; CatHyperLogLog; CatFast]);
  (CmdPFCount, [CatRead; CatHyperLogLog; CatSlow]);
  (CmdPFMerge, [CatWrite; CatHyperLogLog; CatSlow]);
  (CmdPFSelfTest, [CatRead; CatHyperLogLog; CatSlow; CatAdmin]);
  (CmdPFDebug, [CatRead; CatHyperLogLog; CatSlow; CatAdmin]);
  (CmdGeoAdd, [CatWrite; CatGeo; CatSlow]); (CmdGeoDist, [CatRead; CatGeo; CatFast]);
  (CmdGeoHash, [CatRead; CatGeo; CatFast]); (CmdGeoPos, [CatRead; CatGeo; CatFast]);
  (CmdGeoRadius, [CatWrite; CatGeo; CatSlow]); (CmdGeoRadiusRO, [CatRead; CatGeo; CatSlow]);
  (CmdGeoRadiusByMember, [CatWrite; CatGeo; CatSlow]);
  (CmdGeoRadiusByMemberRO, [CatRead; CatGeo; CatSlow]);
  (CmdGeoSearch, [CatRead; CatGeo; CatSlow]); (CmdGeoSearchStore, [CatWrite; CatGeo; CatSlow]);
  (CmdSubscribe, [CatPubSub; CatSlow]); (CmdUnsubscribe, [CatPubSub; CatSlow]);
  (CmdPSubscribe, [CatPubSub; CatSlow]); (CmdPUnsubscribe, [CatPubSub; CatSlow]);
  (CmdPublish, [CatPubSub; CatFast]); (CmdPubSub, [CatPubSub; CatSlow]);
  (CmdInfo, [CatRead; CatAdmin; CatSlow]); (CmdDBSize, [CatRead; CatAdmin; CatFast]);
  (CmdFlushDB, [CatWrite; CatAdmin; CatSlow; CatDangerous]);
  (CmdFlushAll, [CatWrite; CatAdmin; CatSlow; CatDangerous]);
  (CmdTime, [CatRead; CatAdmin; CatFast]);
  (CmdKeys, [CatRead; CatKeyspace; CatSlow; CatDangerous]);
  (CmdScan, [CatRead; CatKeyspace; CatSlow]); (CmdCommand, [CatRead; CatAdmin; CatSlow]);
  (CmdConfig, [CatAdmin; CatSlow; CatDangerous]); (CmdClient, [CatAdmin; CatSlow]);
  (CmdDebug, [CatAdmin; CatSlow; CatDangerous]); (CmdMemory, [CatRead; CatAdmin; CatSlow]);
  (CmdShutdown, [CatAdmin; CatSlow; CatDangerous]);
  (CmdSwapDB, [CatWrite; CatAdmin; CatSlow; CatDangerous]);
  (CmdMulti, [CatTransaction; CatFast]); (CmdExec, [CatTransaction; CatSlow]);
  (CmdDiscard, [CatTransaction; CatFast]); (CmdWatch, [CatTransaction; CatFast]);
  (CmdUnwatch, [CatTransaction; CatFast]); (CmdFunction, [CatScripting; CatSlow]);
  (CmdScript, [CatScripting; CatSlow]); (CmdEval, [CatScripting; CatSlow]);
  (CmdEvalSha, [CatScripting; CatSlow]); (CmdEvalRO, [CatScripting; CatSlow; CatRead]);
  (CmdEvalShaRO, [CatScripting; CatSlow; CatRead]); (CmdFcall, [CatScripting; CatSlow]);
  (CmdFcallRO, [CatScripting; CatSlow; CatRead]); (CmdSync, [CatAdmin; CatSlow]);
  (CmdPSync, [CatAdmin; CatSlow]); (CmdReplConf, [CatAdmin; CatSlow]);
  (CmdWait, [CatSlow; CatBlocking]); (CmdWaitAof, [CatSlow; CatBlocking]);
  (CmdAcl, [CatAdmin; CatSlow; CatDangerous])
].

(** ** Decidability *)

Definition cmd_of_index (n : nat) : option CommandType := all_commands !! n.

Lemma cmd_of_index_index c : cmd_of_index (cmd_index c) = Some c.
Proof. by destruct c. Qed.

Lemma cmd_index_inj c d : cmd_index c = cmd_index d → c = d.
Proof.
  intros E. apply (inj Some). by rewrite <- !cmd_of_index_index, E.
Qed.

#[global] Instance CommandType_eq_dec : EqDecision CommandType.
Proof.
  intros c d. destruct (decide (cmd_index c = cmd_index d)) as [E|E].
  - left. by apply cmd_index_inj.
  - right. by intros ->.
Defined.

#[global] Instance CommandType_countable : Countable CommandType :=
  inj_countable cmd_index cmd_of_index cmd_of_index_index.

#[global] Instance CommandCategory_eq_dec : EqDecision CommandCategory.
Proof. solve_decision. Defined.

Definition all_categories : list CommandCategory := [
  CatRead; CatWrite; CatSet; CatSortedSet; CatList; CatHash; CatString; CatBitmap;
  CatHyperLogLog; CatGeo; CatStream; CatPubSub; CatAdmin; CatFast; CatSlow; CatBlocking;
  CatDangerous; CatConnection; CatTransaction; CatScripting; CatKeyspace; CatAll ].

Definition cat_index (c : CommandCategory) : nat :=
  match list_find (eq c) all_categories with Some (i, _) => i | None => 0%nat end.

Lemma cat_of_index_index c : all_categories !! cat_index c = Some c.
Proof. by destruct c. Qed.

#[global] Instance CommandCategory_countable : Countable CommandCategory :=
  inj_countable cat_index (λ n, all_categories !! n) cat_of_index_index.

(** ** Lookups *)

Definition unknownName : bytes := str "unknown".

Definition names_table : list (bytes * CommandType) :=
  (λ '(n, c), (str n, c)) <$> (commandNames_1 ++ commandNames_2 ++ commandNames_3).
Definition commandNames : gmap bytes CommandType := list_to_map names_table.

Definition strings_table : list (CommandType * bytes) :=
  (λ '(c, n), (c, str n)) <$> (commandStrings_1 ++ commandStrings_2).
Definition commandStrings : gmap CommandType bytes := list_to_map strings_table.

Definition commandCategories : gmap CommandType (list CommandCategory) :=
  list_to_map (commandCategories_1 ++ commandCategories_2).

(** [categoryNames], and [categoryToName] for the other direction. *)
Definition categoryNames : list (bytes * CommandCategory) := [
  (str "read", CatRead); (str "write", CatWrite); (str "set", CatSet);
  (str "sortedset", CatSortedSet); (str "list", CatList); (str "hash", CatHash);
  (str "string", CatString); (str "bitmap", CatBitmap); (str "hyperloglog", CatHyperLogLog);
  (str "geo", CatGeo); (str "stream", CatStream); (str "pubsub", CatPubSub);
  (str "admin", CatAdmin); (str "fast", CatFast); (str "slow", CatSlow);
  (str "blocking", CatBlocking); (str "dangerous", CatDangerous);
  (str "connection", CatConnection); (str "transaction", CatTransaction);
  (str "scripting", CatScripting); (str "keyspace", CatKeyspace); (str "all", CatAll) ].

Definition categoryToName (c : CommandCategory) : bytes :=
  match c with
  | CatRead => str "read" | CatWrite => str "write" | CatSet => str "set"
  | CatSortedSet => str "sortedset" | CatList => str "list" | CatHash => str "hash"
  | CatString => str "string" | CatBitmap => str "bitmap"
  | CatHyperLogLog => str "hyperloglog" | CatGeo => str "geo" | CatStream => str "stream"
  | CatPubSub => str "pubsub" | CatAdmin => str "admin" | CatFast => str "fast"
  | CatSlow => str "slow" | CatBlocking => str "blocking" | CatDangerous => str "dangerous"
  | CatConnection => str "connection" | CatTransaction => str "transaction"
  | CatScripting => str "scripting" | CatKeyspace => str "keyspace" | CatAll => str "all"
  end.

(** [CommandType.String]. *)
Definition CommandString (c : CommandType) : bytes :=
  match commandStrings !! c with Some s => s | None => unknownName end.

Definition LookupCommandName (name : bytes) : option CommandType := commandNames !! name.

(** [shared.ToUpper]: the input itself when nothing has to change. *)
Definition ToUpper (b : bytes) : bytes :=
  if existsb (λ c, (97 <=? c) && (c <=? 122)) b
  then (λ c, if (97 <=? c) && (c <=? 122) then u8 (c - 32) else c) <$> b
  else b.

Definition ParseCommandType (name : bytes) : CommandType :=
  match commandNames !! ToUpper name with Some cmd => cmd | None => CmdUnknown end.

Definition GetCategoryByName `{UnicodeCase} (name : bytes) : option CommandCategory :=
  (list_to_map categoryNames : gmap bytes CommandCategory) !! ToLower name.

Definition GetCategoryName (cat : CommandCategory) : bytes := categoryToName cat.

Definition GetCommandCategories (cmd : CommandType) : list CommandCategory :=
  match commandCategories !! cmd with Some cats => cats | None => [] end.

Definition CommandHasCategory (cmd : CommandType) (cat : CommandCategory) : bool :=
  match commandCategories !! cmd with
  | Some cats => bool_decide (cat ∈ cats)
  | None => false
  end.

(** ** Lemmas *)

(** The commands a client can name: all but the two internal markers and the
    sentinel. *)
Definition client_command (c : CommandType) : Prop :=
  c ≠ CmdUnknown ∧ c ≠ CmdNoop ∧ c ≠ CmdMax.

#[global] Instance client_command_dec c : Decision (client_command c).
Proof. unfold client_command. apply _. Defined.

Lemma ToUpper_ascii b : ToUpper b = ascii_upper b.
Proof.
  unfold ToUpper, ascii_upper. destruct (existsb _ b) eqn:E.
  - apply list_fmap_ext. intros _ c _. unfold upper_byte. split_if; [|done].
    unfold u8. apply Z.mod_small. lia.
  - induction b as [|c b IH]; [done|]. simpl in E. apply orb_false_iff in E as [E1 E2].
    simpl. unfold upper_byte at 1. rewrite E1. f_equal. by apply IH.
Qed.

Lemma elem_of_all_commands c : c ∈ all_commands.
Proof. eapply list_elem_of_lookup_2, cmd_of_index_index. Qed.

(** The two name tables agree, in both directions. *)
Lemma names_strings_agree :
  Forall (λ c, client_command c → commandNames !! ascii_upper (CommandString c) = Some c)
    all_commands.
Proof. apply (bool_decide_unpack _). vm_compute. done. Qed.

Lemma names_table_strings :
  Forall (λ '(n, c), client_command c ∧ ascii_upper (CommandString c) = n) names_table.
Proof. apply (bool_decide_unpack _). vm_compute. done. Qed.

Lemma commandNames_lookup n c :
  commandNames !! n = Some c → client_command c ∧ ascii_upper (CommandString c) = n.
Proof.
  intros H%elem_of_list_to_map_2.
  pose proof names_table_strings as HF. rewrite Forall_forall in HF. by apply HF in H.
Qed.

(** Parsing a command name is the exact inverse of printing it, whatever
    the case of its letters: a name yields the client command [c] if and only
    if it is a spelling of [String(c)]; every other name is [CmdUnknown]. *)
Theorem ParseCommandType_correct (name : bytes) (c : CommandType) :
  (ParseCommandType name = c ∧ c ≠ CmdUnknown) ↔
  (client_command c ∧ ascii_upper name = ascii_upper (CommandString c)).
Proof.
  unfold ParseCommandType. rewrite ToUpper_ascii. split.
  - intros [<- Hne]. destruct (commandNames !! _) as [d|] eqn:E; [|destruct (Hne eq_refl)].
    by apply commandNames_lookup in E as [? ->].
  - intros [Hc ->]. pose proof names_strings_agree as HF. rewrite Forall_forall in HF.
    rewrite (HF c (elem_of_all_commands c) Hc). split; [reflexivity|apply Hc].
Qed.

Lemma GetCategoryByName_Name `{UnicodeCase} cat : GetCategoryByName (GetCategoryName cat) = Some cat.
Proof. destruct cat; vm_compute; done. Qed.

Lemma LookupCommandName_String c :
  client_command c → LookupCommandName (ascii_upper (CommandString c)) = Some c.
Proof.
  intros Hc. pose proof names_strings_agree as HF. rewrite Forall_forall in HF.
  exact (HF c (elem_of_all_commands c) Hc).
Qed.

(** A printed command name is a lowercase letter followed by ASCII bytes that
    are neither spaces nor bars. *)
Definition plain_name (s : bytes) : bool :=
  match s with
  | c :: _ => (97 <=? c) && (c <=? 122) && is_ascii s &&
              forallb (λ x, negb (is_space x)) s && forallb (λ x, negb (x =? 124)) s
  | [] => false
  end.

Lemma command_strings_plain :
  Forall (λ c, client_command c → plain_name (CommandString c) = true) all_commands.
Proof. apply (bool_decide_unpack _). vm_compute. done. Qed.

Lemma CommandString_plain c : client_command c → plain_name (CommandString c) = true.
Proof.
  intros Hc. pose proof command_strings_plain as HF. rewrite Forall_forall in HF.
  exact (HF c (elem_of_all_commands c) Hc).
Qed.

(** The tables are large: proofs below go through the lemmas above. *)
#[global] Opaque commandNames commandStrings commandCategories.
