(* ===== verification/Writer.v ===== *)
(** * The RESP writer

    src/redis/shared/writer.go: the reply buffer of a connection, the
    protocol version it speaks, and the error bookkeeping that lets a failed
    command replace its partial output by its error.  The shortest decimal form
    of a float is a parameter ([FormatG]); the buffer swapping of
    [Reset]/[Scratch] is not part of this file. *)

From Stdlib Require Import SpecFloat.
From S2P Require Import Prelude GoBytes Strconv Floats.

Local Open Scope Z_scope.

(** ** State *)

Inductive ProtocolVersion : Type := RESP2 | RESP3.

#[global] Instance ProtocolVersion_eq_dec : EqDecision ProtocolVersion.
Proof. solve_decision. Defined.

(** The error counters of [shared.Stats]. *)
Record Stats := mkStats {
  TotalErrorReplies : Z;
  errorStats : gmap bytes Z
}.

Record Writer := mkWriter {
  w_buf : bytes;
  w_protocol : ProtocolVersion;
  w_stats : option Stats;
  w_wroteError : bool;
  w_errorCount : Z;
  w_errorStart : Z;
  w_errorEnd : Z
}.

Definition NewWriter (buf : bytes) : Writer := mkWriter buf RESP2 None false 0 0 0.

Definition SetStats (s : option Stats) (w : Writer) : Writer :=
  mkWriter (w_buf w) (w_protocol w) s (w_wroteError w) (w_errorCount w)
    (w_errorStart w) (w_errorEnd w).

Definition ResetErrorFlag (w : Writer) : Writer :=
  mkWriter (w_buf w) (w_protocol w) (w_stats w) false (w_errorCount w)
    (w_errorStart w) (w_errorEnd w).

Definition SetProtocol (p : ProtocolVersion) (w : Writer) : Writer :=
  mkWriter (w_buf w) p (w_stats w) (w_wroteError w) (w_errorCount w)
    (w_errorStart w) (w_errorEnd w).

(** [w.buf.Write], [WriteString], [WriteByte]. *)
Definition buf_write (b : bytes) (w : Writer) : Writer :=
  mkWriter (w_buf w ++ b) (w_protocol w) (w_stats w) (w_wroteError w) (w_errorCount w)
    (w_errorStart w) (w_errorEnd w).

(** [w.buf.Truncate(n)]. *)
Definition buf_truncate (n : Z) (w : Writer) : Writer :=
  mkWriter (take (Z.to_nat n) (w_buf w)) (w_protocol w) (w_stats w) (w_wroteError w)
    (w_errorCount w) (w_errorStart w) (w_errorEnd w).

Definition recordError (start : Z) (w : Writer) : Writer :=
  mkWriter (w_buf w) (w_protocol w) (w_stats w) true (u64 (w_errorCount w + 1))
    start (len (w_buf w)).

(** [Stats.RecordError]: one more error reply, one more with this prefix. *)
Definition RecordError (prefix : bytes) (s : Stats) : Stats :=
  mkStats (u64 (TotalErrorReplies s + 1))
    (<[prefix := u64 (default 0 (errorStats s !! prefix) + 1)]> (errorStats s)).

Definition record_stats (prefix : bytes) (w : Writer) : Writer :=
  match w_stats w with
  | None => w
  | Some s => SetStats (Some (RecordError prefix s)) w
  end.

(** [DiscardPartialReply]: the flag and the writer after the call. *)
Definition DiscardPartialReply (start previousErrors : Z) (w : Writer) : bool * Writer :=
  if w_errorCount w =? previousErrors then (false, w)
  else
    let reply := take (Z.to_nat (w_errorEnd w - w_errorStart w))
                   (drop (Z.to_nat (w_errorStart w)) (w_buf w)) in
    let w := buf_write reply (buf_truncate start w) in
    (true, mkWriter (w_buf w) (w_protocol w) (w_stats w) (w_wroteError w) (w_errorCount w)
             start (len (w_buf w))).

(** ** Fixed replies *)

Definition crlf : bytes := [13; 10].
Definition line (s : bytes) : bytes := s ++ crlf.

Definition nullBulkString := line (str "$-1").
Definition nullArray := line (str "*-1").
Definition respOK := line (str "+OK").
Definition respPong := line (str "+PONG").
Definition respQueued := line (str "+QUEUED").
Definition respZero := line (str ":0").
Definition respOne := line (str ":1").
Definition respWrongType :=
  line (str "-WRONGTYPE Operation against a key holding the wrong kind of value").
Definition respNoAuth := line (str "-NOAUTH Authentication required.").
Definition respSyntaxError := line (str "-ERR syntax error").
Definition respNotInteger := line (str "-ERR value is not an integer or out of range").
Definition respOutOfRange := line (str "-ERR index out of range").
Definition resp3Null := line (str "_").
Definition resp3True := line (str "#t").
Definition resp3False := line (str "#f").

(** ** Writing *)

(** An aggregate or length header: the type byte, a number, CRLF. *)
Definition header (c : Z) (n : Z) : bytes := c :: line (FormatInt n).
Definition bulk (b : bytes) : bytes := header 36 (len b) ++ line b.

Definition writeErrorReply (reply : bytes) (w : Writer) : Writer :=
  let start := len (w_buf w) in recordError start (buf_write reply w).

Definition WriteRaw (data : bytes) (w : Writer) : Writer := buf_write data w.
Definition WriteSimpleString (s : bytes) (w : Writer) : Writer := buf_write (43 :: line s) w.

Definition error_prefix (msg : bytes) : bytes :=
  match index_byte msg 32 with
  | Some (S i) => take (S i) msg
  | _ => msg
  end.
Definition WriteError (msg : bytes) (w : Writer) : Writer :=
  let start := len (w_buf w) in
  record_stats (error_prefix msg) (recordError start (buf_write (45 :: line msg) w)).
Definition WriteErrorf (format : bytes) (w : Writer) : Writer :=
  let start := len (w_buf w) in
  record_stats (str "ERR")
    (recordError start (buf_write (45 :: str "ERR " ++ line format) w)).

Definition WriteInteger (n : Z) (w : Writer) : Writer := buf_write (header 58 n) w.
Definition WriteBulkString (b : bytes) (w : Writer) : Writer := buf_write (bulk b) w.
Definition WriteBulkStringStr (s : bytes) (w : Writer) : Writer := buf_write (bulk s) w.

Definition WriteNullBulkString (w : Writer) : Writer :=
  match w_protocol w with RESP3 => buf_write resp3Null w | RESP2 => buf_write nullBulkString w end.
Definition WriteNull (w : Writer) : Writer :=
  match w_protocol w with RESP3 => buf_write resp3Null w | RESP2 => buf_write nullBulkString w end.
Definition WriteZero (w : Writer) : Writer := buf_write respZero w.
Definition WriteOne (w : Writer) : Writer := buf_write respOne w.
Definition WriteOK (w : Writer) : Writer := buf_write respOK w.
Definition WritePong (w : Writer) : Writer := buf_write respPong w.
Definition WriteQueued (w : Writer) : Writer := buf_write respQueued w.
Definition WriteArray (count : Z) (w : Writer) : Writer := buf_write (header 42 count) w.
Definition WriteNullArray (w : Writer) : Writer :=
  match w_protocol w with RESP3 => buf_write resp3Null w | RESP2 => buf_write nullArray w end.

(** ** Floats *)

(** [f == float64(int64(f)) && f >= -2^53 && f <= 2^53]. *)
Definition is_whole (f : spec_float) : bool :=
  SFeqb f (float64_of (int64_of_float f)) &&
  SFleb (float64_of (-9007199254740992)) f && SFleb f (float64_of 9007199254740992).

Definition score_text `{FormatG} (f : spec_float) : bytes :=
  match f with
  | S754_nan => str "nan"
  | S754_infinity false => str "inf"
  | S754_infinity true => str "-inf"
  | _ => if is_whole f then FormatInt (int64_of_float f) else format_g f
  end.

Definition WriteScore `{FormatG} (f : spec_float) (w : Writer) : Writer :=
  match w_protocol w with
  | RESP3 => buf_write (44 :: line (score_text f)) w
  | RESP2 => WriteBulkString (score_text f) w
  end.

Definition WriteDouble `{FormatG} (f : spec_float) (w : Writer) : Writer :=
  match w_protocol w with
  | RESP3 => buf_write (44 :: line (format_g f)) w
  | RESP2 => WriteBulkString (format_g f) w
  end.

Definition WriteBoolean (b : bool) (w : Writer) : Writer :=
  match w_protocol w with
  | RESP3 => if b then buf_write resp3True w else buf_write resp3False w
  | RESP2 => if b then WriteOne w else WriteZero w
  end.
Definition WriteMap (count : Z) (w : Writer) : Writer :=
  match w_protocol w with
  | RESP3 => buf_write (header 37 count) w
  | RESP2 => WriteArray (i64 (count * 2)) w
  end.
Definition WriteSet (count : Z) (w : Writer) : Writer :=
  match w_protocol w with
  | RESP3 => buf_write (header 126 count) w
  | RESP2 => WriteArray count w
  end.
Definition WritePush (count : Z) (w : Writer) : Writer := buf_write (header 62 count) w.
Definition WriteAttribute (count : Z) (w : Writer) : Writer :=
  match w_protocol w with RESP3 => buf_write (header 124 count) w | RESP2 => w end.

Definition WriteBlobError (errType msg : bytes) (w : Writer) : Writer :=
  match w_protocol w with
  | RESP3 =>
    let fullMsg := errType ++ str " " ++ msg in
    let start := len (w_buf w) in
    recordError start (buf_write (header 33 (len fullMsg) ++ line fullMsg) w)
  | RESP2 => WriteError (errType ++ str " " ++ msg) w
  end.
Definition WriteVerbatimString (encoding data : bytes) (w : Writer) : Writer :=
  match w_protocol w with
  | RESP3 =>
    let encoding := if len encoding =? 3 then encoding else str "txt" in
    buf_write (header 61 (3 + 1 + len data) ++ encoding ++ 58 :: line data) w
  | RESP2 => WriteBulkString data w
  end.
Definition WriteBigNumber (n : bytes) (w : Writer) : Writer :=
  match w_protocol w with
  | RESP3 => buf_write (40 :: line n) w
  | RESP2 => WriteBulkStringStr n w
  end.

Definition WriteWrongType : Writer → Writer := writeErrorReply respWrongType.
Definition WriteNoAuth : Writer → Writer := writeErrorReply respNoAuth.
Definition WriteSyntaxError : Writer → Writer := writeErrorReply respSyntaxError.
Definition WriteNotInteger : Writer → Writer := writeErrorReply respNotInteger.
Definition WriteOutOfRange : Writer → Writer := writeErrorReply respOutOfRange.

Definition WriteWrongNumArguments (cmd : bytes) (w : Writer) : Writer :=
  writeErrorReply
    (45 :: line (str "ERR wrong number of arguments for '" ++ cmd ++ str "' command")) w.
Definition WriteWrongNumArgs (cmd : bytes) (w : Writer) : Writer :=
  writeErrorReply
    (45 :: line (str "ERR wrong number of args for '" ++ cmd ++ str "' command")) w.

(** The quoted arguments of [WriteUnknownCommand]: a space before every one
    but the first, an ellipsis after the third. *)
Fixpoint quoted_args (i : Z) (args : list bytes) : bytes :=
  match args with
  | [] => []
  | arg :: args' =>
    (if 0 <? i then [32] else []) ++ 39 :: arg ++ 39 ::
    (if 2 <=? i then str "..." else quoted_args (i + 1) args')
  end.
Definition WriteUnknownCommand (cmd : bytes) (args : list bytes) (w : Writer) : Writer :=
  writeErrorReply
    (45 :: line (str "ERR unknown command '" ++ cmd ++
                 str "', with args beginning with: " ++ quoted_args 0 args)) w.

(** An array reply of bulk strings, the shape of a client's command. *)
Definition WriteBulkArray (args : list bytes) (w : Writer) : Writer :=
  foldl (λ w b, WriteBulkString b w) (WriteArray (len args) w) args.

(** ** The operations as data

    One constructor per reply method, so that statements range over
    everything a command can write. *)
Inductive WOp : Type :=
  | ORaw (b : bytes) | OSimpleString (s : bytes) | OInteger (n : Z) | OBulkString (b : bytes)
  | ONullBulkString | OZero | OOne | OOK | OPong | OQueued | OArray (n : Z) | ONullArray
  | OBoolean (b : bool) | OMap (n : Z) | OSet (n : Z) | OPush (n : Z) | OAttribute (n : Z)
  | OVerbatimString (enc data : bytes) | OBigNumber (n : bytes)
  | OError (msg : bytes) | OErrorf (msg : bytes) | OBlobError (ty msg : bytes)
  | OWrongType | ONoAuth | OSyntaxError | ONotInteger | OOutOfRange
  | OWrongNumArguments (cmd : bytes) | OWrongNumArgs (cmd : bytes)
  | OUnknownCommand (cmd : bytes) (args : list bytes).

Definition run_op (o : WOp) : Writer → Writer :=
  match o with
  | ORaw b => WriteRaw b | OSimpleString s => WriteSimpleString s
  | OInteger n => WriteInteger n | OBulkString b => WriteBulkString b
  | ONullBulkString => WriteNullBulkString | OZero => WriteZero | OOne => WriteOne
  | OOK => WriteOK | OPong => WritePong | OQueued => WriteQueued
  | OArray n => WriteArray n | ONullArray => WriteNullArray
  | OBoolean b => WriteBoolean b | OMap n => WriteMap n | OSet n => WriteSet n
  | OPush n => WritePush n | OAttribute n => WriteAttribute n
  | OVerbatimString e d => WriteVerbatimString e d | OBigNumber n => WriteBigNumber n
  | OError m => WriteError m | OErrorf m => WriteErrorf m | OBlobError t m => WriteBlobError t m
  | OWrongType => WriteWrongType | ONoAuth => WriteNoAuth | OSyntaxError => WriteSyntaxError
  | ONotInteger => WriteNotInteger | OOutOfRange => WriteOutOfRange
  | OWrongNumArguments c => WriteWrongNumArguments c | OWrongNumArgs c => WriteWrongNumArgs c
  | OUnknownCommand c args => WriteUnknownCommand c args
  end.

Definition run_ops (ops : list WOp) (w : Writer) : Writer := foldl (λ w o, run_op o w) w ops.

(** Whether an operation is one of the error replies. *)
Definition is_error_op (o : WOp) : bool :=
  match o with
  | OError _ | OErrorf _ | OBlobError _ _ | OWrongType | ONoAuth | OSyntaxError
  | ONotInteger | OOutOfRange | OWrongNumArguments _ | OWrongNumArgs _
  | OUnknownCommand _ _ => true
  | _ => false
  end.

(** What an operation appends when the writer speaks [p]. *)
Definition op_output (p : ProtocolVersion) (o : WOp) : bytes :=
  w_buf (run_op o (mkWriter [] p None false 0 0 0)).

Definition ops_output (p : ProtocolVersion) (ops : list WOp) : bytes :=
  concat (op_output p <$> ops).

(** The last error reply of a sequence, if it has one. *)
Definition last_error (p : ProtocolVersion) (ops : list WOp) : option bytes :=
  last (op_output p <$> filter (λ o, is_error_op o = true) ops).

Definition error_ops (ops : list WOp) : Z := len (filter (λ o, is_error_op o = true) ops).

(** ** Lemmas *)

(** What one operation does to each field. *)
Lemma run_op_spec o w :
  w_buf (run_op o w) = w_buf w ++ op_output (w_protocol w) o ∧
  w_protocol (run_op o w) = w_protocol w ∧
  (if is_error_op o then
     w_errorCount (run_op o w) = u64 (w_errorCount w + 1) ∧
     w_errorStart (run_op o w) = len (w_buf w) ∧
     w_errorEnd (run_op o w) = len (w_buf (run_op o w))
   else
     w_errorCount (run_op o w) = w_errorCount w ∧
     w_errorStart (run_op o w) = w_errorStart w ∧
     w_errorEnd (run_op o w) = w_errorEnd w).
Proof.
  destruct w as [buf p st we ec es ee].
  destruct o; destruct p; destruct st; try destruct b; cbn; rewrite ?app_nil_r; done.
Qed.

Lemma run_ops_snoc ops o w : run_ops (ops ++ [o]) w = run_op o (run_ops ops w).
Proof. unfold run_ops. by rewrite foldl_app. Qed.

Lemma ops_output_snoc p ops o : ops_output p (ops ++ [o]) = ops_output p ops ++ op_output p o.
Proof.
  unfold ops_output. rewrite fmap_app, concat_app. simpl. by rewrite app_nil_r.
Qed.

Lemma run_ops_protocol ops w : w_protocol (run_ops ops w) = w_protocol w.
Proof.
  induction ops as [|o ops IH] using rev_ind; [done|].
  rewrite run_ops_snoc. destruct (run_op_spec o (run_ops ops w)) as (_ & -> & _). done.
Qed.

(** Writing only ever appends. *)
Lemma run_ops_buf ops w :
  w_buf (run_ops ops w) = w_buf w ++ ops_output (w_protocol w) ops.
Proof.
  induction ops as [|o ops IH] using rev_ind; [by rewrite app_nil_r|].
  rewrite run_ops_snoc, ops_output_snoc, app_assoc, <- IH.
  destruct (run_op_spec o (run_ops ops w)) as (-> & _). by rewrite run_ops_protocol.
Qed.

Lemma error_ops_snoc ops o :
  error_ops (ops ++ [o]) = error_ops ops + (if is_error_op o then 1 else 0).
Proof.
  unfold error_ops. rewrite filter_app, len_app. f_equal.
  rewrite filter_cons, filter_nil. by destruct (is_error_op o).
Qed.

Lemma last_error_snoc p ops o :
  last_error p (ops ++ [o]) = if is_error_op o then Some (op_output p o) else last_error p ops.
Proof.
  unfold last_error. rewrite filter_app, filter_cons, filter_nil.
  destruct (is_error_op o); simpl.
  - rewrite fmap_app. simpl. by rewrite last_snoc.
  - by rewrite app_nil_r.
Qed.

(** The error window always delimits the last error reply. *)
Lemma run_ops_errors ops w :
  is_u64 (w_errorCount w) →
  let w' := run_ops ops w in
  w_errorCount w' = u64 (w_errorCount w + error_ops ops) ∧
  match last_error (w_protocol w) ops with
  | None => error_ops ops = 0
  | Some e => ∃ pre post,
      ops_output (w_protocol w) ops = pre ++ e ++ post ∧
      w_errorStart w' = len (w_buf w ++ pre) ∧
      w_errorEnd w' = len (w_buf w ++ pre ++ e)
  end.
Proof.
  intros Hc. cbv zeta. induction ops as [|o ops [IH1 IH2]] using rev_ind.
  { split; [|done]. simpl. rewrite Z.add_0_r, u64_id; done. }
  rewrite run_ops_snoc, error_ops_snoc, last_error_snoc.
  pose proof (run_op_spec o (run_ops ops w)) as (Hb & _ & He).
  rewrite run_ops_protocol, run_ops_buf in *.
  destruct (is_error_op o); destruct He as (E1 & E2 & E3).
  - split.
    + rewrite E1, IH1. unfold u64. rewrite Zplus_mod_idemp_l. f_equal. lia.
    + exists (ops_output (w_protocol w) ops), [].
      rewrite ops_output_snoc, app_nil_r, E2, E3, Hb. by rewrite app_assoc.
  - rewrite E1, E2, E3, Z.add_0_r. split; [done|].
    destruct (last_error _ ops) as [e|]; [|done].
    destruct IH2 as (pre & post & Ho & ? & ?). exists pre, (post ++ op_output (w_protocol w) o).
    rewrite ops_output_snoc, Ho. rewrite <- !app_assoc. done.
Qed.

Lemma u64_add_ne a n : is_u64 a → 0 < n < 2 ^ 64 → u64 (a + n) ≠ a.
Proof.
  intros Ha Hn E. unfold u64 in E.
  pose proof (Z_div_mod_eq_full (a + n) (2 ^ 64)).
  assert (0 <= (a + n) / 2 ^ 64 < 2); [|zlia].
  split; [apply Z.div_pos; zlia|apply Z.div_lt_upper_bound; zlia].
Qed.

Lemma error_ops_pos p ops e : last_error p ops = Some e → 0 < error_ops ops.
Proof.
  unfold last_error, error_ops. destruct (filter _ ops) as [|o os]; [done|].
  intros _. rewrite len_cons. pose proof (len_nonneg os). lia.
Qed.

(** Whatever a command writes, [DiscardPartialReply] with the buffer length
    and error count taken before it leaves the earlier replies untouched and
    nothing of the command but its last error reply; a command that wrote no
    error is left exactly as it is. *)
Theorem DiscardPartialReply_correct (ops : list WOp) (w : Writer) :
  is_u64 (w_errorCount w) → error_ops ops < 2 ^ 64 →
  let w' := run_ops ops w in
  match last_error (w_protocol w) ops with
  | None => DiscardPartialReply (len (w_buf w)) (w_errorCount w) w' = (false, w')
  | Some e =>
      ∃ w'', DiscardPartialReply (len (w_buf w)) (w_errorCount w) w' = (true, w'') ∧
      w_buf w'' = w_buf w ++ e ∧ w_errorCount w'' = w_errorCount w' ∧
      w_errorStart w'' = len (w_buf w) ∧ w_errorEnd w'' = len (w_buf w'')
  end.
Proof.
  intros Hc Hn w'. pose proof (run_ops_errors ops w Hc) as [Ec El]. fold w' in Ec, El.
  unfold DiscardPartialReply. destruct (last_error _ ops) as [e|] eqn:E.
  - destruct El as (pre & post & Ho & Es & Ee).
    rewrite (proj2 (Z.eqb_neq _ _)).
    2:{ rewrite Ec. apply u64_add_ne; [done|]. apply error_ops_pos in E. lia. }
    eexists. split; [reflexivity|]. cbn [w_buf w_errorCount w_errorStart w_errorEnd buf_write buf_truncate].
    repeat split. replace (w_buf w') with (w_buf w ++ pre ++ e ++ post)
      by (unfold w'; by rewrite run_ops_buf, Ho).
    rewrite Es, Ee. unfold len.
    rewrite !Nat2Z.id, take_app_length. f_equal.
    rewrite (app_assoc (w_buf w) pre (e ++ post)), drop_app_length.
    apply take_app_length'. rewrite !length_app. lia.
  - by rewrite Ec, El, Z.add_0_r, u64_id, Z.eqb_refl.
Qed.

Lemma DiscardPartialReply_correct_witness :
  let w := NewWriter respOK in
  let ops := [OArray 2; OInteger 7; OWrongType] in
  ∃ w'', DiscardPartialReply (len (w_buf w)) (w_errorCount w) (run_ops ops w) = (true, w'') ∧
    w_buf w'' = respOK ++ respWrongType.
Proof.
  intros w ops.
  pose proof (DiscardPartialReply_correct ops w ltac:(vm_compute; split; congruence)
    ltac:(vm_compute; reflexivity)) as H.
  destruct H as (w'' & E & Hb & _). exists w''. split; [exact E|exact Hb].
Defined.
