(* ===== verification/Protocol.v ===== *)
(** * The RESP parser

    src/redis/shared/protocol.go: commands read from a connection, either as
    RESP arrays of bulk strings or as inline (telnet) lines, and the reader
    goroutine of src/redis/server.go that turns a connection into a sequence of
    commands.  The reader is the list of the bytes still to come; its end is
    the end of the stream.  An error leaves the reader where it occurred, and
    the goroutine goes on from there. *)

From S2P Require Import Prelude GoBytes Strconv Commands Writer.

Local Open Scope Z_scope.

(** ** Data *)

Inductive ProtoError : Type :=
  | ErrInvalidProtocol | ErrInvalidBulkLength | ErrInvalidArrayCount | ErrLineTooLong
  | IoEOF | IoUnexpectedEOF.

#[global] Instance ProtoError_eq_dec : EqDecision ProtoError.
Proof. solve_decision. Defined.

(** What a read gives: a value or an error, and the reader after it. *)
Abbreviation read A := (result (ProtoError * bytes) (A * bytes)).

(** [shared.Command], the fields the parser sets.  A nil slice and an empty
    one are both []: they are told apart nowhere but in the buffer pool. *)
Record Command := mkCommand {
  cmd_Type : CommandType;
  cmd_Args : list bytes;
  cmd_RawName : bytes
}.

Definition defaultProtoMaxBulkLen : Z := 512 * 1024 * 1024.
Definition maxArrayCount : Z := 1048576.
(** The size of the read buffer when the configuration sets none (getConnState of
    server.go); the development is of this default. *)
Definition ReadBufSize : Z := 65536.

(** ** Operations *)

(** [bufio.Reader.ReadSlice('\n')]: the line with its terminator; a buffer
    full of other bytes is an error, as is the end of the stream, and both
    consume what they have seen. *)
Definition ReadSlice (r : bytes) : read bytes :=
  match index_byte r 10 with
  | Some i => if Z.of_nat i <? ReadBufSize then Ok (take (S i) r, drop (S i) r)
              else Err (ErrLineTooLong, drop (Z.to_nat ReadBufSize) r)
  | None => if len r <? ReadBufSize then Err (IoEOF, [])
            else Err (ErrLineTooLong, drop (Z.to_nat ReadBufSize) r)
  end.

Definition trim_last (c : Z) (s : bytes) : bytes :=
  if bool_decide (last s = Some c) then take (length s - 1) s else s.

Definition readLine (r : bytes) : read bytes :=
  '(line, r) ← ReadSlice r;
  Ok (trim_last 13 (trim_last 10 line), r).

(** [io.ReadFull]: nothing at all is [io.EOF], a short read
    [io.ErrUnexpectedEOF]. *)
Definition ReadFull (n : Z) (r : bytes) : read bytes :=
  if n <=? len r then Ok (take (Z.to_nat n) r, drop (Z.to_nat n) r)
  else match r with [] => Err (IoEOF, []) | _ => Err (IoUnexpectedEOF, []) end.

(** [bufio.Reader.Discard]. *)
Definition Discard (n : nat) (r : bytes) : result (ProtoError * bytes) bytes :=
  if bool_decide (n ≤ length r)%nat then Ok (drop n r) else Err (IoEOF, []).

Definition readBulkString (r : bytes) : read bytes :=
  '(line, r) ← readLine r;
  match line with
  | [] => Err (ErrInvalidProtocol, r)
  | c :: digits =>
    if negb (c =? 36) then Err (ErrInvalidProtocol, r)
    else match ParseInt64 digits with
    | None => Err (ErrInvalidBulkLength, r)
    | Some length =>
      if length =? -1 then Ok ([], r)
      else if length <? 0 then Err (ErrInvalidBulkLength, r)
      else if defaultProtoMaxBulkLen <? length then Err (ErrInvalidBulkLength, r)
      else
        '(data, r) ← ReadFull length r;
        r ← Discard 2 r;
        Ok (data, r)
    end
  end.

Fixpoint readBulkStrings (count : nat) (r : bytes) : read (list bytes) :=
  match count with
  | O => Ok ([], r)
  | S count' =>
    '(arg, r) ← readBulkString r;
    '(args, r) ← readBulkStrings count' r;
    Ok (arg :: args, r)
  end.

(** The end of both readers: the name becomes the type, or the raw name of an
    unknown command, and leaves the argument list. *)
Definition finish_command (name : bytes) (args : list bytes) (cmd : Command) : Command :=
  let ty := ParseCommandType name in
  mkCommand ty args (if bool_decide (ty = CmdUnknown) then name else cmd_RawName cmd).

Definition readArrayCommand (cmd : Command) (r : bytes) : read Command :=
  '(line, r) ← readLine r;
  match line with
  | [] => Err (ErrInvalidProtocol, r)
  | c :: digits =>
    if negb (c =? 42) then Err (ErrInvalidProtocol, r)
    else match ParseInt64 digits with
    | None => Err (ErrInvalidArrayCount, r)
    | Some count =>
      if count <? 0 then Err (ErrInvalidArrayCount, r)
      else if maxArrayCount <? count then Err (ErrInvalidArrayCount, r)
      else if count =? 0 then Ok (mkCommand CmdUnknown (cmd_Args cmd) (cmd_RawName cmd), r)
      else
        '(args, r) ← readBulkStrings (Z.to_nat count) r;
        match args with
        | name :: args' => Ok (finish_command name args' cmd, r)
        | [] => Ok (mkCommand (cmd_Type cmd) [] (cmd_RawName cmd), r)
        end
    end
  end.

Fixpoint skip_spaces (b : bytes) : bytes :=
  match b with
  | [] => []
  | c :: b' => if c =? 32 then skip_spaces b' else b
  end.

Fixpoint token_end (b : bytes) : nat :=
  match b with
  | [] => 0
  | c :: b' => if c =? 32 then 0 else S (token_end b')
  end.

(** [NextToken]: [None] is the nil token of a line of spaces. *)
Definition NextToken (b : bytes) : option (bytes * bytes) :=
  match skip_spaces b with
  | [] => None
  | b => Some (take (token_end b) b, drop 1 (drop (token_end b) b))
  end.

(** The token loop of [readInlineCommand]; every round consumes at least one
    byte, so the length of the line is enough fuel. *)
Fixpoint inline_tokens (fuel : nat) (rest : bytes) : list bytes :=
  match fuel with
  | O => []
  | S fuel' =>
    match rest with
    | [] => []
    | _ => match NextToken rest with
           | None => []
           | Some (token, remaining) => token :: inline_tokens fuel' remaining
           end
    end
  end.

Definition readInlineCommand (cmd : Command) (r : bytes) : read Command :=
  '(line, r) ← readLine r;
  match line with
  | [] => Ok (mkCommand CmdNoop (cmd_Args cmd) (cmd_RawName cmd), r)
  | _ =>
    match inline_tokens (length line) line with
    | [] => Ok (mkCommand CmdNoop [] (cmd_RawName cmd), r)
    | name :: args => Ok (finish_command name args cmd, r)
    end
  end.

Definition ReadCommandInto (cmd : Command) (r : bytes) : read Command :=
  match r with
  | [] => Err (IoEOF, [])
  | c :: _ => if c =? 42 then readArrayCommand cmd r else readInlineCommand cmd r
  end.

(** A command straight from the pool: [Command.Reset] cleared it. *)
Definition GetCommand : Command := mkCommand CmdUnknown [] [].
Definition ReadCommand (r : bytes) : read Command :=
  ReadCommandInto GetCommand r.

(** What the reader goroutine sends to the executor. *)
Inductive readResult : Type :=
  | RCommand (cmd : Command)
  | RProtocolErr (msg : bytes)
  | RQuit.

(** The loop of the reader goroutine of [handleConnection], on a connection whose
    only failures are those of the stream: the end of the stream and an
    overlong line end it, as QUIT does; any other error is reported and the
    loop goes on with the bytes that follow.  [None]: out of fuel. *)
Fixpoint read_loop (fuel : nat) (r : bytes) : option (list readResult) :=
  match fuel with
  | O => None
  | S fuel' =>
    match ReadCommandInto GetCommand r with
    | Err (e, r') =>
      if bool_decide (e = IoEOF) then Some []
      else if bool_decide (e = ErrLineTooLong) then Some []
      else cons (RProtocolErr (str "ERR protocol error")) <$> read_loop fuel' r'
    | Ok (parsedCmd, r') =>
      if bool_decide (cmd_Type parsedCmd = CmdQuit) then Some [RQuit]
      else cons (RCommand parsedCmd) <$> read_loop fuel' r'
    end
  end.

(** A client's request: an array of bulk strings. *)
Definition request (args : list bytes) : bytes := w_buf (WriteBulkArray args (NewWriter [])).

(** What a client may send: at least a name, at most [maxArrayCount] elements
    of at most [defaultProtoMaxBulkLen] bytes. *)
Definition sendable (args : list bytes) : Prop :=
  args ≠ [] ∧ len args <= maxArrayCount ∧ Forall (λ a, len a <= defaultProtoMaxBulkLen) args.

#[global] Instance sendable_dec args : Decision (sendable args).
Proof. unfold sendable. apply _. Defined.

(** The command a request denotes. *)
Definition denotes (args : list bytes) : Command :=
  match args with
  | name :: args => finish_command name args GetCommand
  | [] => GetCommand
  end.

(** What the executor is sent for these commands. *)
Fixpoint until_quit (cs : list Command) : list readResult :=
  match cs with
  | [] => []
  | c :: cs' => if bool_decide (cmd_Type c = CmdQuit) then [RQuit] else RCommand c :: until_quit cs'
  end.

(** ** Lines *)

Lemma trim_last_snoc c s : trim_last c (s ++ [c]) = s.
Proof.
  unfold trim_last. rewrite last_snoc, bool_decide_true by done.
  rewrite length_app. apply take_app_length'. simpl. lia.
Qed.

Lemma readLine_line s r :
  10 ∉ s → len s + 1 < ReadBufSize → readLine (line s ++ r) = Ok (s, r).
Proof.
  intros Hs Hl. unfold readLine, ReadSlice, line.
  replace ((s ++ crlf) ++ r) with ((s ++ [13]) ++ 10 :: r)
    by by rewrite <- !app_assoc.
  rewrite index_byte_app by (rewrite not_elem_of_app, not_elem_of_cons; repeat split; (done || apply not_elem_of_nil)).
  rewrite (proj2 (Z.ltb_lt _ _)).
  2:{ rewrite length_app. unfold len in Hl. simpl. lia. }
  simpl. replace ((s ++ [13]) ++ 10 :: r) with ((s ++ [13; 10]) ++ r)
    by by rewrite <- !app_assoc.
  rewrite take_app_length', drop_app_length'
    by (rewrite !length_app; simpl; lia).
  change [13; 10] with ([13] ++ [10]). by rewrite app_assoc, !trim_last_snoc.
Qed.

Lemma length_format_digits fuel n : (length (format_digits fuel n) ≤ fuel)%nat.
Proof.
  revert n. induction fuel as [|fuel IH]; intros n; simpl; [lia|].
  destruct (n <? 10); simpl; [lia|]. rewrite length_app. specialize (IH (n / 10)).
  simpl. lia.
Qed.

(** The length line of an element or array fits in the buffer. *)
Lemma readLine_header c n r :
  c ≠ 10 → 0 <= n <= MaxInt64 → readLine (header c n ++ r) = Ok (c :: FormatInt n, r).
Proof.
  intros Hc Hn. unfold header. change (c :: line (FormatInt n)) with (line (c :: FormatInt n)).
  unfold FormatInt. rewrite (proj2 (Z.ltb_ge n 0)) by lia.
  apply readLine_line.
  - apply not_elem_of_cons. split; [done|]. apply all_digits_no_sep; [|lia].
    apply FormatUint_spec; lia.
  - rewrite len_cons. unfold len, FormatUint.
    pose proof (length_format_digits (S (Z.to_nat (Z.log2 n))) n).
    assert (Z.log2 n <= 63) by (apply (Z.log2_le_mono n (2 ^ 63)); zlia).
    pose proof (Z.log2_nonneg n). unfold ReadBufSize. lia.
Qed.

Lemma readBulkString_bulk b r :
  len b <= defaultProtoMaxBulkLen → readBulkString (bulk b ++ r) = Ok (b, r).
Proof.
  intros Hb. pose proof (len_nonneg b). unfold defaultProtoMaxBulkLen in Hb.
  unfold readBulkString, bulk. rewrite <- app_assoc.
  rewrite readLine_header by (unfold MaxInt64; lia). simpl.
  rewrite ParseInt64_Format by zlia.
  rewrite (proj2 (Z.eqb_neq _ _)), (proj2 (Z.ltb_ge (len b) 0)),
    (proj2 (Z.ltb_ge defaultProtoMaxBulkLen _)) by (unfold defaultProtoMaxBulkLen; lia).
  unfold ReadFull, line. rewrite <- app_assoc, len_app.
  pose proof (len_nonneg (crlf ++ r)). rewrite (proj2 (Z.leb_le _ _)) by lia.
  unfold len at 1 2. rewrite Nat2Z.id, take_app_length, drop_app_length. done.
Qed.

Lemma readBulkStrings_bulk args r :
  Forall (λ a, len a <= defaultProtoMaxBulkLen) args →
  readBulkStrings (length args) (concat (bulk <$> args) ++ r) = Ok (args, r).
Proof.
  induction 1 as [|b args Hb Hargs IH]; [done|].
  change (concat (bulk <$> b :: args)) with (bulk b ++ concat (bulk <$> args)).
  cbn [readBulkStrings length]. rewrite <- app_assoc, readBulkString_bulk by done.
  simpl. by rewrite IH.
Qed.

Lemma request_eq args : request args = header 42 (len args) ++ concat (bulk <$> args).
Proof.
  assert (H : ∀ args w, w_buf (foldl (λ w b, WriteBulkString b w) w args) =
                        w_buf w ++ concat (bulk <$> args)).
  { clear. induction args as [|b args IH]; intros w; simpl; [by rewrite app_nil_r|].
    rewrite IH. simpl. by rewrite <- app_assoc. }
  unfold request, WriteBulkArray. by rewrite H.
Qed.

Lemma ReadCommand_request args r :
  sendable args → ReadCommand (request args ++ r) = Ok (denotes args, r).
Proof.
  intros (Hne & Hn & Hl). rewrite request_eq, <- app_assoc.
  unfold ReadCommand, ReadCommandInto. cbn [header app].
  change (42 =? 42) with true. cbn iota. unfold readArrayCommand.
  change (42 :: line (FormatInt (len args)) ++ ?x) with (header 42 (len args) ++ x).
  pose proof (len_nonneg args). unfold maxArrayCount in Hn.
  rewrite readLine_header by zlia. simpl. rewrite ParseInt64_Format by zlia.
  rewrite (proj2 (Z.ltb_ge (len args) 0)), (proj2 (Z.ltb_ge maxArrayCount _))
    by (unfold maxArrayCount; lia).
  destruct args as [|name args]; [done|].
  rewrite (proj2 (Z.eqb_neq _ _)) by (rewrite len_cons; pose proof (len_nonneg args); lia).
  unfold len. rewrite Nat2Z.id, readBulkStrings_bulk by done. done.
Qed.

(** ** Truncated input *)

Definition is_eof (e : ProtoError) : Prop := e = IoEOF ∨ e = IoUnexpectedEOF.

Lemma app_eq_cases {A} (p s a b : list A) :
  p ++ s = a ++ b →
  (∃ t, t ≠ [] ∧ p ++ t = a) ∨ (∃ q, p = a ++ q ∧ q ++ s = b).
Proof.
  intros [(k & -> & ->)|(k & -> & ->)]%app_eq_inv; [right; eauto|].
  destruct k as [|x k]; [right; exists []; by rewrite !app_nil_r|left; by exists (x :: k)].
Qed.

(** A header cut short has no line end. *)
Lemma readLine_header_cut c n p t :
  c ≠ 10 → 0 <= n <= MaxInt64 → t ≠ [] → p ++ t = header c n → readLine p = Err (IoEOF, []).
Proof.
  intros Hc Hn Ht E.
  pose proof (readLine_header c n [] Hc Hn) as Hr. rewrite app_nil_r in Hr.
  assert (Hf : 10 ∉ c :: FormatInt n).
  { apply not_elem_of_cons. split; [done|]. apply all_digits_no_sep; [|lia].
    unfold FormatInt. rewrite (proj2 (Z.ltb_ge n 0)) by lia. apply FormatUint_spec; lia. }
  change (header c n) with (line (c :: FormatInt n)) in E, Hr.
  set (h := c :: FormatInt n) in *. unfold line in E.
  assert (Hp : ∃ u, p ++ u = h ++ [13]).
  { change crlf with ([13] ++ [10]) in E. rewrite app_assoc in E.
    destruct (exists_last Ht) as (u & x & ->). exists u.
    rewrite app_assoc in E. by apply app_inj_tail in E as [-> _]. }
  destruct Hp as [u Hu].
  assert (Hnp : 10 ∉ p).
  { intros Hin. assert (10 ∈ p ++ u) as Hin' by (apply elem_of_app; auto).
    rewrite Hu, elem_of_app, list_elem_of_singleton in Hin'. naive_solver. }
  unfold readLine, ReadSlice. rewrite (proj2 (index_byte_None p 10)) by done.
  assert (Hl : len p <= len (h ++ [13])) by (rewrite <- Hu, len_app; pose proof (len_nonneg u); lia).
  rewrite (proj2 (Z.ltb_lt _ _)); [done|].
  revert Hr. unfold readLine, ReadSlice, line. change crlf with ([13] ++ [10]).
  rewrite app_assoc, index_byte_app.
  2:{ rewrite not_elem_of_app, not_elem_of_cons. repeat split; (done || apply not_elem_of_nil). }
  destruct (Z.ltb_spec (Z.of_nat (length (h ++ [13]))) ReadBufSize); [|done].
  unfold len in *. lia.
Qed.

Lemma readBulkString_cut b p t :
  len b <= defaultProtoMaxBulkLen → t ≠ [] → p ++ t = bulk b →
  ∃ e, readBulkString p = Err (e, []) ∧ is_eof e.
Proof.
  intros Hb Ht E. pose proof (len_nonneg b). unfold defaultProtoMaxBulkLen in Hb.
  unfold bulk in E. unfold is_eof. apply app_eq_cases in E as [(u & Hu & E)|(q & -> & E)].
  { exists IoEOF. unfold readBulkString.
    rewrite (readLine_header_cut 36 (len b) p u) by (done || zlia). auto. }
  unfold readBulkString. rewrite readLine_header by zlia. simpl.
  rewrite ParseInt64_Format by zlia.
  rewrite (proj2 (Z.eqb_neq _ _)), (proj2 (Z.ltb_ge (len b) 0)),
    (proj2 (Z.ltb_ge defaultProtoMaxBulkLen _)) by (unfold defaultProtoMaxBulkLen; lia).
  unfold line in E. apply app_eq_cases in E as [(u & Hu & <-)|(q' & -> & E)].
  - unfold ReadFull. rewrite len_app. destruct u as [|x u]; [done|].
    rewrite len_cons. pose proof (len_nonneg u).
    rewrite (proj2 (Z.leb_gt _ _)) by lia. destruct q; eauto.
  - exists IoEOF. unfold ReadFull. rewrite len_app. pose proof (len_nonneg q').
    rewrite (proj2 (Z.leb_le _ _)) by lia. unfold len. rewrite Nat2Z.id.
    rewrite take_app_length, drop_app_length. simpl. split; [|auto]. unfold Discard.
    rewrite bool_decide_false; [done|]. destruct t as [|x t]; [done|].
    apply (f_equal length) in E. rewrite length_app in E. simpl in E. lia.
Qed.

Lemma readBulkStrings_cut args p t :
  Forall (λ a, len a <= defaultProtoMaxBulkLen) args → t ≠ [] →
  p ++ t = concat (bulk <$> args) →
  ∃ e, readBulkStrings (length args) p = Err (e, []) ∧ is_eof e.
Proof.
  intros Hl Ht. revert p. induction Hl as [|b args Hb Hargs IH]; intros p E.
  { apply app_nil in E as [_ ->]. done. }
  change (concat (bulk <$> b :: args)) with (bulk b ++ concat (bulk <$> args)) in E.
  cbn [readBulkStrings length]. apply app_eq_cases in E as [(u & Hu & E)|(q & -> & E)].
  - destruct (readBulkString_cut b p u Hb Hu E) as (e & -> & ?). by exists e.
  - rewrite readBulkString_bulk by done. simpl.
    destruct (IH _ E) as (e & -> & ?). by exists e.
Qed.

Lemma length_requests reqs :
  (length reqs ≤ length (concat (request <$> reqs)))%nat.
Proof.
  induction reqs as [|args reqs IH]; [done|].
  change (concat (request <$> args :: reqs)) with (request args ++ concat (request <$> reqs)).
  rewrite length_app, request_eq. simpl. lia.
Qed.

Lemma read_loop_requests reqs fuel :
  Forall sendable reqs → (length reqs < fuel)%nat →
  read_loop fuel (concat (request <$> reqs)) = Some (until_quit (denotes <$> reqs)).
Proof.
  intros Hs. revert fuel. induction Hs as [|args reqs Ha Hr IH]; intros fuel Hf;
    (destruct fuel as [|fuel]; [simpl in Hf; lia|]); [done|].
  change (concat (request <$> args :: reqs)) with (request args ++ concat (request <$> reqs)).
  cbn [read_loop fmap list_fmap until_quit].
  change (ReadCommandInto GetCommand ?x) with (ReadCommand x). rewrite ReadCommand_request by done.
  case_bool_decide; [done|]. rewrite IH by (simpl in Hf; lia). done.
Qed.

(** ** Properties *)

(** C8: a pipeline of requests, written with the server's own writer, is read
    back as exactly the commands it denotes, in order, up to a QUIT or the end
    of the stream, and nothing else is sent to the executor. *)
Theorem pipeline_roundtrip (reqs : list (list bytes)) :
  Forall sendable reqs →
  let stream := concat (request <$> reqs) in
  ∀ extra, read_loop (S (length stream) + extra) stream = Some (until_quit (denotes <$> reqs)).
Proof.
  intros Hs stream extra. apply read_loop_requests; [done|].
  pose proof (length_requests reqs). unfold stream. lia.
Qed.

(** A request cut short at any byte never yields a command: the parser
    reports the end of the stream. *)
Theorem truncated_request_fails (args : list bytes) (p t : bytes) :
  sendable args → t ≠ [] → p ++ t = request args →
  ∃ e, ReadCommand p = Err (e, []) ∧ is_eof e.
Proof.
  intros (Hne & Hn & Hl) Ht E. rewrite request_eq in E.
  pose proof (len_nonneg args). unfold maxArrayCount in Hn.
  apply app_eq_cases in E as [(u & Hu & E)|(q & -> & E)].
  - destruct p as [|c p]; [exists IoEOF; unfold is_eof; auto|].
    exists IoEOF. unfold is_eof. split; [|auto]. pose proof E as E'. injection E' as -> _.
    unfold ReadCommand, ReadCommandInto. change (42 =? 42) with true. cbn iota.
    unfold readArrayCommand.
    by rewrite (readLine_header_cut 42 (len args) (42 :: p) u) by (done || zlia).
  - unfold ReadCommand, ReadCommandInto. cbn [header app].
    change (42 =? 42) with true. cbn iota. unfold readArrayCommand.
    change (42 :: line (FormatInt (len args)) ++ q) with (header 42 (len args) ++ q).
    rewrite readLine_header by zlia. simpl. rewrite ParseInt64_Format by zlia.
    rewrite (proj2 (Z.ltb_ge (len args) 0)), (proj2 (Z.ltb_ge maxArrayCount _))
      by (unfold maxArrayCount; lia).
    destruct args as [|name args]; [done|].
    rewrite (proj2 (Z.eqb_neq _ _)) by (rewrite len_cons; pose proof (len_nonneg args); lia).
    unfold len. rewrite Nat2Z.id.
    destruct (readBulkStrings_cut _ q t Hl Ht E) as (e & -> & ?). by exists e.
Qed.

(** ** Progress and bounds on arbitrary input *)

Lemma readLine_consumes r l r' : readLine r = Ok (l, r') → (length r' < length r)%nat.
Proof.
  unfold readLine, ReadSlice. destruct (index_byte r 10) as [i|] eqn:E.
  - split_if; [|done]. simpl. intros [= _ <-]. rewrite length_drop.
    destruct r; [done|]. simpl. lia.
  - split_if; done.
Qed.

Lemma readLine_eof r e r' : readLine r = Err (e, r') → e = IoEOF ∨ e = ErrLineTooLong.
Proof.
  unfold readLine, ReadSlice. destruct (index_byte r 10); split_if; simpl; intros [= <- _]; auto.
Qed.

Lemma readLine_error r e r' : readLine r = Err (e, r') → (length r' ≤ length r)%nat.
Proof.
  unfold readLine, ReadSlice. destruct (index_byte r 10); split_if; simpl; try done;
    intros [= _ <-]; rewrite ?length_drop; simpl; lia.
Qed.

Lemma readBulkString_consumes r b r' :
  readBulkString r = Ok (b, r') →
  (length r' < length r)%nat ∧ len b <= defaultProtoMaxBulkLen.
Proof.
  unfold readBulkString. destruct (readLine r) as [[l r1]|] eqn:El; [|done].
  apply readLine_consumes in El. simpl. destruct l as [|c digits]; [done|].
  split_if; [done|]. destruct (ParseInt64 digits) as [n|]; [|done].
  split_if; [intros [= <- <-]; split; [done|]; unfold len, defaultProtoMaxBulkLen; simpl; lia|].
  split_if; [done|]. split_if; [done|].
  unfold ReadFull. split_if; [|by destruct r1]. simpl. unfold Discard.
  split_if; [|done]. intros [= <- <-]. rewrite !length_drop in *.
  split; [lia|]. unfold len in *. rewrite length_take. lia.
Qed.

Lemma readBulkStrings_consumes n r args r' :
  readBulkStrings n r = Ok (args, r') →
  (length r' ≤ length r)%nat ∧ length args = n ∧
  Forall (λ a, len a <= defaultProtoMaxBulkLen) args.
Proof.
  revert r args r'. induction n as [|n IH]; intros r args r'; simpl.
  { intros [= <- <-]. by repeat split. }
  destruct (readBulkString r) as [[b r1]|] eqn:Eb; [|done]. simpl.
  destruct (readBulkStrings n r1) as [[bs r2]|] eqn:Ebs; [|done]. simpl.
  intros [= <- <-]. apply readBulkString_consumes in Eb as [? ?].
  apply IH in Ebs as (? & <- & ?). repeat split; [lia|]. by constructor.
Qed.

Lemma ReadCommandInto_consumes cmd r c r' :
  ReadCommandInto cmd r = Ok (c, r') → (length r' < length r)%nat.
Proof.
  unfold ReadCommandInto, readArrayCommand, readInlineCommand.
  destruct r as [|x r]; [done|]. split_if;
    (destruct (readLine _) as [[l r1]|] eqn:El; [|done]; apply readLine_consumes in El; simpl).
  - destruct l as [|y digits]; [done|]. split_if; [done|].
    destruct (ParseInt64 digits) as [n|]; [|done]. split_if; [done|]. split_if; [done|].
    split_if; [by intros [= _ <-]|].
    destruct (readBulkStrings _ r1) as [[args r2]|] eqn:Ea; [|done].
    apply readBulkStrings_consumes in Ea as [? _]. simpl.
    destruct args; intros [= _ <-]; simpl in El; lia.
  - destruct l as [|y l]; [by intros [= _ <-]|].
    destruct (inline_tokens _ _); by intros [= _ <-].
Qed.

(** A protocol error, too, has consumed the line it was found in. *)
Lemma readBulkString_error r e r' :
  readBulkString r = Err (e, r') → (length r' ≤ length r)%nat.
Proof.
  unfold readBulkString. destruct (readLine r) as [[l r1]|[e1 r1]] eqn:El.
  2:{ simpl. intros [= <- <-]. by apply readLine_error in El. }
  apply readLine_consumes in El. simpl. destruct l as [|c digits]; [intros [= _ <-]; lia|].
  split_if; [intros [= _ <-]; lia|].
  destruct (ParseInt64 digits) as [n|]; [|intros [= _ <-]; lia].
  split_if; [done|]. split_if; [intros [= _ <-]; lia|]. split_if; [intros [= _ <-]; lia|].
  unfold ReadFull. split_if; [|destruct r1; intros [= _ <-]; simpl; lia].
  simpl. unfold Discard. split_if; [done|]. intros [= _ <-]. simpl. lia.
Qed.

Lemma readBulkStrings_error n r e r' :
  readBulkStrings n r = Err (e, r') → (length r' ≤ length r)%nat.
Proof.
  revert r. induction n as [|n IH]; intros r; simpl; [done|].
  destruct (readBulkString r) as [[b r1]|[e1 r1]] eqn:Eb; simpl.
  2:{ intros [= <- <-]. by eapply readBulkString_error. }
  apply readBulkString_consumes in Eb as [? _].
  destruct (readBulkStrings n r1) as [[bs r2]|[e2 r2]] eqn:Ebs; [done|]. simpl.
  intros [= <- <-]. apply IH in Ebs. lia.
Qed.

Lemma ReadCommandInto_error cmd r e r' :
  ReadCommandInto cmd r = Err (e, r') → e ≠ IoEOF → e ≠ ErrLineTooLong →
  (length r' < length r)%nat.
Proof.
  unfold ReadCommandInto, readArrayCommand, readInlineCommand.
  destruct r as [|x r]; [intros [= <- _]; done|]. intros E He1 He2. revert E. split_if;
    (destruct (readLine _) as [[l r1]|[e1 r1]] eqn:El;
     [apply readLine_consumes in El|apply readLine_eof in El; simpl; intros [= <- <-]; naive_solver]);
    simpl.
  - destruct l as [|y digits]; [by intros [= _ <-]|]. split_if; [by intros [= _ <-]|].
    destruct (ParseInt64 digits) as [n|]; [|by intros [= _ <-]].
    split_if; [by intros [= _ <-]|]. split_if; [by intros [= _ <-]|]. split_if; [done|].
    destruct (readBulkStrings _ r1) as [[args r2]|[e2 r2]] eqn:Ea; simpl; [by destruct args|].
    intros [= <- <-]. apply readBulkStrings_error in Ea. simpl in El. lia.
  - destruct l as [|y l]; [done|]. by destruct (inline_tokens _ _).
Qed.

Lemma read_loop_total fuel r : (length r < fuel)%nat → ∃ out, read_loop fuel r = Some out.
Proof.
  revert r. induction fuel as [|fuel IH]; intros r Hr; [lia|]. cbn [read_loop].
  destruct (ReadCommandInto GetCommand r) as [[c r']|[e r']] eqn:E.
  - apply ReadCommandInto_consumes in E. case_bool_decide; [eauto|].
    destruct (IH r') as [out ->]; [lia|]. simpl. eauto.
  - case_bool_decide as H1; [eauto|]. case_bool_decide as H2; [eauto|].
    apply ReadCommandInto_error in E; [|done..].
    destruct (IH r') as [out ->]; [lia|]. simpl. eauto.
Qed.

Lemma read_loop_more fuel extra r out :
  read_loop fuel r = Some out → read_loop (fuel + extra) r = Some out.
Proof.
  revert r out. induction fuel as [|fuel IH]; intros r out; [done|].
  cbn [read_loop Nat.add].
  destruct (ReadCommandInto GetCommand r) as [[c r']|[e r']];
    repeat (case_bool_decide; [done|]); intros (rest & E & ->)%fmap_Some;
    by rewrite (IH _ _ E).
Qed.

(** C39: the reader loop terminates on every input: each round consumes at
    least one byte, also when it ends in a protocol error, so one round per
    byte and one more are enough, and further rounds change nothing. *)
Theorem read_loop_terminates (r : bytes) :
  ∃ out, ∀ extra, read_loop (S (length r) + extra) r = Some out.
Proof.
  destruct (read_loop_total (S (length r)) r) as [out Ho]; [lia|].
  exists out. intros extra. by apply read_loop_more.
Qed.

Lemma readBulkString_too_long n r : defaultProtoMaxBulkLen < n <= MaxInt64 →
  readBulkString (header 36 n ++ r) = Err (ErrInvalidBulkLength, r).
Proof.
  unfold defaultProtoMaxBulkLen. intros Hn. unfold readBulkString.
  rewrite readLine_header by lia. simpl. rewrite ParseInt64_Format by zlia.
  by rewrite (proj2 (Z.eqb_neq _ _)), (proj2 (Z.ltb_ge n 0)), (proj2 (Z.ltb_lt _ n))
    by (unfold defaultProtoMaxBulkLen in *; lia).
Qed.

(** A bulk string announced longer than the limit is refused, but its
    bytes stay in the stream, and the reader takes them for the next commands:
    what a client sends as data is executed. *)
Theorem refused_payload_is_executed (n : Z) (payload : list (list bytes)) (extra : nat) :
  defaultProtoMaxBulkLen < n <= MaxInt64 → Forall sendable payload →
  let stream := header 42 1 ++ header 36 n ++ concat (request <$> payload) in
  read_loop (S (length stream) + extra) stream =
  Some (RProtocolErr (str "ERR protocol error") :: until_quit (denotes <$> payload)).
Proof.
  intros Hn Hp stream. cbn [read_loop Nat.add].
  assert (E : ReadCommandInto GetCommand stream
              = Err (ErrInvalidBulkLength, concat (request <$> payload))).
  { unfold ReadCommandInto, stream. cbn [header app]. change (42 =? 42) with true. cbn iota.
    unfold readArrayCommand. change (42 :: line (FormatInt 1) ++ ?x) with (header 42 1 ++ x).
    rewrite readLine_header by zlia. unfold mbind at 1, result_bind at 1. cbn iota beta.
    rewrite (ParseInt64_Format 1) by zlia. cbn -[header readBulkString defaultProtoMaxBulkLen].
    change (Z.to_nat 1) with 1%nat. cbn [readBulkStrings].
    change (36 :: line (FormatInt n) ++ ?x) with (header 36 n ++ x).
    by rewrite (readBulkString_too_long n) by done. }
  rewrite E. repeat (rewrite bool_decide_false by done).
  rewrite read_loop_requests; [done|done|].
  pose proof (length_requests payload). unfold stream. rewrite !length_app. simpl. lia.
Qed.

(** On any input whatsoever, a command read in RESP form has fewer than
    [maxArrayCount] arguments of at most [defaultProtoMaxBulkLen] bytes each:
    no client can make the parser build a larger one. *)
Theorem ReadCommand_array_bounds (r : bytes) (c : Command) (r' : bytes) :
  ReadCommand (42 :: r) = Ok (c, r') →
  len (cmd_Args c) < maxArrayCount ∧
  Forall (λ a, len a <= defaultProtoMaxBulkLen) (cmd_Args c).
Proof.
  unfold ReadCommand, ReadCommandInto. change (42 =? 42) with true. cbn iota.
  unfold readArrayCommand. destruct (readLine _) as [[l r1]|]; [|done]. simpl.
  destruct l as [|y digits]; [done|]. split_if; [done|].
  destruct (ParseInt64 digits) as [n|]; [|done]. split_if; [done|]. split_if; [done|].
  split_if; [intros [= <- _]; split; [done|constructor]|].
  destruct (readBulkStrings _ r1) as [[args r2]|] eqn:Ea; [|done].
  apply readBulkStrings_consumes in Ea as (_ & Hlen & Hf). simpl.
  destruct args as [|name args]; intros [= <- <-]; simpl; [split; [done|constructor]|].
  apply Forall_cons in Hf as [_ Hf]. simpl in Hlen. unfold len. split; [lia|done].
Qed.

(** ** Inline commands *)

(** Reference tokenizer: the non-empty pieces between spaces. *)
Fixpoint split_spaces (s : bytes) : list bytes :=
  match s with
  | [] => [[]]
  | c :: s' =>
    if c =? 32 then [] :: split_spaces s'
    else match split_spaces s' with
         | [] => [[c]]
         | w :: ws => (c :: w) :: ws
         end
  end.
Definition words (s : bytes) : list bytes := filter (λ w, w ≠ []) (split_spaces s).

Lemma split_spaces_token s :
  split_spaces s = take (token_end s) s ::
    match drop (token_end s) s with [] => [] | _ :: r => split_spaces r end.
Proof.
  induction s as [|c s IH]; [done|]. simpl.
  destruct (Z.eqb_spec c 32); [done|]. by rewrite IH.
Qed.

Lemma words_skip s : words (skip_spaces s) = words s.
Proof.
  induction s as [|c s IH]; [done|]. simpl.
  destruct (Z.eqb_spec c 32) as [->|Hc]; [exact IH|done].
Qed.

Lemma skip_spaces_length s : (length (skip_spaces s) ≤ length s)%nat.
Proof.
  induction s as [|c s IH]; simpl; [lia|]. destruct (c =? 32); simpl; lia.
Qed.

Lemma skip_spaces_head s c r : skip_spaces s = c :: r → c ≠ 32.
Proof.
  induction s as [|d s IH]; [done|]. simpl.
  destruct (Z.eqb_spec d 32); [done|]. by intros [= <- _].
Qed.

(** The inline tokenizer returns exactly the non-empty space-separated
    words of the line, for every line. *)
Theorem inline_tokens_words (s : bytes) : inline_tokens (length s) s = words s.
Proof.
  remember (length s) as n eqn:Hn. assert (Hle : (length s ≤ n)%nat) by lia. clear Hn.
  revert s Hle. induction n as [|n IH]; intros s Hle.
  { destruct s; [done|]. simpl in Hle. lia. }
  cbn [inline_tokens]. destruct s as [|x s]; [done|]. unfold NextToken.
  rewrite <- (words_skip (x :: s)). pose proof (skip_spaces_length (x :: s)) as Hl.
  destruct (skip_spaces (x :: s)) as [|c r] eqn:E; [done|].
  apply skip_spaces_head in E. unfold words. rewrite split_spaces_token.
  simpl token_end in *. rewrite (proj2 (Z.eqb_neq c 32)) by done. simpl.
  rewrite filter_cons_True by done. f_equal. rewrite IH.
  - destruct (drop (token_end r) r); done.
  - rewrite !length_drop. simpl in *. lia.
Qed.

(** ** Witnesses *)

Lemma sendable_get : sendable [str "get"; str "k"].
Proof. apply (bool_decide_unpack (sendable _)). vm_compute. exact I. Qed.

Definition get_twice : list (list bytes) := [[str "get"; str "k"]; [str "get"; str "k"]].

Lemma pipeline_roundtrip_witness :
  read_loop (S (length (concat (request <$> get_twice)))) (concat (request <$> get_twice)) =
  Some [RCommand (mkCommand CmdGet [str "k"] []); RCommand (mkCommand CmdGet [str "k"] [])].
Proof.
  rewrite <- (Nat.add_0_r (S _)). refine (eq_trans (pipeline_roundtrip get_twice _ 0) _).
  - constructor; [apply sendable_get|]. constructor; [apply sendable_get|constructor].
  - vm_compute. reflexivity.
Defined.

Lemma truncated_request_fails_witness :
  ∃ e, ReadCommand (take 9 (request [str "get"; str "k"])) = Err (e, []) ∧ is_eof e.
Proof.
  apply (truncated_request_fails [str "get"; str "k"] _
    (drop 9 (request [str "get"; str "k"])) sendable_get).
  - vm_compute. discriminate.
  - apply take_drop.
Defined.

Lemma ReadCommand_array_bounds_witness :
  len [str "k"] < maxArrayCount ∧ Forall (λ a, len a <= defaultProtoMaxBulkLen) [str "k"].
Proof.
  apply (ReadCommand_array_bounds (drop 1 (request [str "get"; str "k"]))
    (mkCommand CmdGet [str "k"] []) []).
  vm_compute. reflexivity.
Defined.

Lemma refused_payload_is_executed_witness :
  read_loop (S (length (header 42 1 ++ header 36 536870913 ++ concat (request <$> get_twice))) + 0)
    (header 42 1 ++ header 36 536870913 ++ concat (request <$> get_twice)) =
  Some (RProtocolErr (str "ERR protocol error") :: until_quit (denotes <$> get_twice)).
Proof.
  apply (refused_payload_is_executed 536870913 get_twice 0).
  - vm_compute. by split.
  - constructor; [apply sendable_get|]. constructor; [apply sendable_get|constructor].
Defined.
