(* ===== verification/Acl.v ===== *)
(** * Access control

    src/redis/acl.go and src/redis/shared/acl_types.go: users, the rule
    language that edits them, the permission checks made before every
    command, authentication, the rule file, and the log of denials.
    bcrypt is a third-party package and stays abstract ([Bcrypt]). *)

From S2P Require Import Prelude GoBytes Commands.

Local Open Scope Z_scope.

(** ** Glob patterns *)
Module Glob.

(** The body of a character class after [[^]]: scanned up to the closing
    bracket while the byte is compared with each item.  Returns whether an
    item matched and the pattern after the class. *)
Fixpoint scan_class (fuel : nat) (c : Z) (matched : bool) (p : bytes) : bool * bytes :=
  match fuel with
  | O => (matched, p)
  | S fuel' =>
    match p with
    | [] => (matched, [])
    | x :: p' =>
      if x =? 93 then (matched, p')
      else match p' with
           | d :: y :: p'' =>
             if d =? 45
             then scan_class fuel' c (matched || ((x <=? c) && (c <=? y))) p''
             else scan_class fuel' c (matched || (x =? c)) p'
           | _ => scan_class fuel' c (matched || (x =? c)) p'
           end
    end
  end.

(** The suffixes of a string, longest first: where a star may resume. *)
Fixpoint suffixes (s : bytes) : list bytes :=
  s :: match s with [] => [] | _ :: s' => suffixes s' end.

(** [aclMatchGlobRecursive] on the two remaining suffixes.  Every round drops
    at least one byte of the pattern, so its length is enough fuel. *)
Fixpoint aclMatchGlobRecursive (fuel : nat) (pattern s : bytes) : bool :=
  match fuel with
  | O => false
  | S fuel' =>
    match pattern with
    | [] => bool_decide (s = [])
    | x :: p =>
      match s with
      | [] => forallb (λ y, y =? 42) pattern
      | c :: s' =>
        if x =? 42 then existsb (aclMatchGlobRecursive fuel' p) (suffixes s)
        else if x =? 63 then aclMatchGlobRecursive fuel' p s'
        else if x =? 91 then
          let '(negated, body) :=
            match p with y :: p' => if y =? 94 then (true, p') else (false, p) | [] => (false, []) end in
          let '(matched, rest) := scan_class (length body) c false body in
          if Bool.eqb matched negated then false
          else aclMatchGlobRecursive fuel' rest s'
        else if negb (x =? c) then false
        else aclMatchGlobRecursive fuel' p s'
      end
    end
  end.
Definition aclMatchGlob (pattern s : bytes) : bool :=
  aclMatchGlobRecursive (S (length pattern)) pattern s.
End Glob.
Export Glob.

(** ** Users *)

Inductive KeyPatternType : Type :=
  KeyPatternReadWrite | KeyPatternReadOnly | KeyPatternWriteOnly.

Record KeyPattern := mkKeyPattern { kp_Pattern : bytes; kp_Type : KeyPatternType }.

Record ACLSelector := mkACLSelector {
  sel_Commands : gmap CommandType bool;
  sel_Categories : gmap CommandCategory bool;
  sel_AllCommands : bool;
  sel_KeyPatterns : list KeyPattern;
  sel_AllKeys : bool
}.

Record ACLUser := mkACLUser {
  Name : bytes;
  Enabled : bool;
  PasswordHashes : list bytes;
  NoPass : bool;
  AllCommands : bool;
  Categories : gmap CommandCategory bool;
  Commands : gmap CommandType bool;
  Subcommands : gmap CommandType (gmap bytes bool);
  AllKeys : bool;
  KeyPatterns : list KeyPattern;
  AllChannels : bool;
  ChannelPatterns : list bytes;
  Selectors : list ACLSelector
}.

(** The two initial users of the sources: the all-powerful default one and
    the empty one a rule line or ACL SETUSER starts from. *)
Definition defaultUsername : bytes := str "default".
Definition default_user : ACLUser :=
  mkACLUser defaultUsername true [] true true ∅ ∅ ∅ true [] true [] [].
Definition new_user (name : bytes) : ACLUser :=
  mkACLUser name false [] false false ∅ ∅ ∅ false [] false [] [].

(** The assignments of the rule language, one field or group at a time. *)
Definition set_Enabled b (u : ACLUser) : ACLUser := mkACLUser (Name u) b (PasswordHashes u) (NoPass u)
  (AllCommands u) (Categories u) (Commands u) (Subcommands u) (AllKeys u) (KeyPatterns u)
  (AllChannels u) (ChannelPatterns u) (Selectors u).
Definition set_auth hs np (u : ACLUser) : ACLUser := mkACLUser (Name u) (Enabled u) hs np
  (AllCommands u) (Categories u) (Commands u) (Subcommands u) (AllKeys u) (KeyPatterns u)
  (AllChannels u) (ChannelPatterns u) (Selectors u).
Definition set_commands all cats cmds (u : ACLUser) : ACLUser := mkACLUser (Name u) (Enabled u) (PasswordHashes u)
  (NoPass u) all cats cmds (Subcommands u) (AllKeys u) (KeyPatterns u)
  (AllChannels u) (ChannelPatterns u) (Selectors u).
Definition set_Subcommands subs (u : ACLUser) : ACLUser := mkACLUser (Name u) (Enabled u) (PasswordHashes u)
  (NoPass u) (AllCommands u) (Categories u) (Commands u) subs (AllKeys u) (KeyPatterns u)
  (AllChannels u) (ChannelPatterns u) (Selectors u).
Definition set_keys all ps (u : ACLUser) : ACLUser := mkACLUser (Name u) (Enabled u) (PasswordHashes u)
  (NoPass u) (AllCommands u) (Categories u) (Commands u) (Subcommands u) all ps
  (AllChannels u) (ChannelPatterns u) (Selectors u).
Definition set_channels all ps (u : ACLUser) : ACLUser := mkACLUser (Name u) (Enabled u) (PasswordHashes u)
  (NoPass u) (AllCommands u) (Categories u) (Commands u) (Subcommands u) (AllKeys u)
  (KeyPatterns u) all ps (Selectors u).
Definition set_Selectors ss (u : ACLUser) : ACLUser := mkACLUser (Name u) (Enabled u) (PasswordHashes u)
  (NoPass u) (AllCommands u) (Categories u) (Commands u) (Subcommands u) (AllKeys u)
  (KeyPatterns u) (AllChannels u) (ChannelPatterns u) ss.

(** ** Permission checks *)

Inductive AclDenied : Type :=
  | ErrUserNotFound | ErrUserDisabled | ErrWrongPassword
  | ErrNoPermission | ErrNoKeyPermission | ErrNoChanPermission.

(** [None] is the nil error. *)
Definition CheckCommand (user : option ACLUser) (cmd : CommandType) : option AclDenied :=
  match user with
  | None => Some ErrNoPermission
  | Some u =>
    if negb (Enabled u) then Some ErrUserDisabled
    else if AllCommands u then None
    else match (Commands u !! cmd : option bool) with
    | Some allowed => if allowed then None else Some ErrNoPermission
    | None =>
      let cats := GetCommandCategories cmd in
      if existsb (λ cat, match (Categories u !! cat : option bool) with Some allowed => allowed | None => false end) cats
      then None
      else if existsb (λ cat, default false (Categories u !! cat)) cats then None
      else Some ErrNoPermission
    end
  end.

Definition pattern_grants (key : bytes) (isWrite : bool) (p : KeyPattern) : bool :=
  aclMatchGlob (kp_Pattern p) key &&
  match kp_Type p with
  | KeyPatternReadWrite => true
  | KeyPatternReadOnly => negb isWrite
  | KeyPatternWriteOnly => isWrite
  end.

Definition CheckKey (user : option ACLUser) (key : bytes) (isWrite : bool) : option AclDenied :=
  match user with
  | None => Some ErrNoKeyPermission
  | Some u =>
    if AllKeys u then None
    else if existsb (pattern_grants key isWrite) (KeyPatterns u) then None
    else if existsb (λ sel, sel_AllKeys sel ||
                            existsb (pattern_grants key isWrite) (sel_KeyPatterns sel)) (Selectors u)
    then None
    else Some ErrNoKeyPermission
  end.

Definition CheckChannel (user : option ACLUser) (channel : bytes) : option AclDenied :=
  match user with
  | None => Some ErrNoChanPermission
  | Some u =>
    if AllChannels u then None
    else if existsb (λ p, aclMatchGlob p channel) (ChannelPatterns u) then None
    else Some ErrNoChanPermission
  end.

(** ** The rule language *)

(** bcrypt: hashing draws a fresh salt, here the first argument. *)
Class Bcrypt := {
  GenerateFromPassword : Z → bytes → option bytes;
  CompareHashAndPassword : bytes → bytes → bool
}.

Inductive RuleError : Type :=
  | ErrHashFailed
  | ErrUnknownCategory (name : bytes)
  | ErrUnknownCommand (name : bytes)
  | ErrUnknownRule (rule : bytes)
  | ErrInvalidLine.

Section Rules.
Context `{UnicodeCase, Bcrypt}.

(** The shared body of [+cmd|sub] and [-cmd|sub], [+cmd] and [-cmd]. *)
Definition apply_command_rule (allow : bool) (cmdStr : bytes) (u : ACLUser) :
    ACLUser * option RuleError :=
  match index_byte cmdStr 124 with
  | Some (S _ as idx) =>
    let cmdName := take idx cmdStr in
    let subName := drop (S idx) cmdStr in
    match LookupCommandName (strings_ToUpper cmdName) with
    | None => (u, Some (ErrUnknownCommand cmdName))
    | Some cmd =>
      let subs := default ∅ (Subcommands u !! cmd) in
      (set_Subcommands (<[cmd := <[ToLower subName := allow]> subs]> (Subcommands u)) u, None)
    end
  | _ =>
    match LookupCommandName (strings_ToUpper cmdStr) with
    | None => (u, Some (ErrUnknownCommand cmdStr))
    | Some cmd =>
      (set_commands (AllCommands u) (Categories u) (<[cmd := allow]> (Commands u)) u, None)
    end
  end.

Definition apply_category_rule (allow : bool) (catName : bytes) (u : ACLUser) :
    ACLUser * option RuleError :=
  match GetCategoryByName catName with
  | None => (u, Some (ErrUnknownCategory catName))
  | Some CatAll => (set_commands allow (Categories u) (Commands u) u, None)
  | Some cat =>
    (set_commands (AllCommands u) (<[cat := allow]> (Categories u)) (Commands u) u, None)
  end.

Definition add_key_pattern (p : bytes) (ty : KeyPatternType) (u : ACLUser) : ACLUser :=
  set_keys (AllKeys u) (KeyPatterns u ++ [mkKeyPattern p ty]) u.

Definition applyACLRule (salt : Z) (u : ACLUser) (rule : bytes) : ACLUser * option RuleError :=
  let lower := ToLower rule in
  let lit s := beq lower (str s) in
  let starts s := has_prefix lower (str s) in
  if lit "on" then (set_Enabled true u, None)
  else if lit "off" then (set_Enabled false u, None)
  else if lit "nopass" then (set_auth (PasswordHashes u) true u, None)
  else if lit "resetpass" then (set_auth [] false u, None)
  else if lit "allkeys" || lit "~*" then (set_keys true (KeyPatterns u) u, None)
  else if lit "resetkeys" then (set_keys false [] u, None)
  else if lit "allchannels" || lit "&*" then (set_channels true (ChannelPatterns u) u, None)
  else if lit "resetchannels" then (set_channels false [] u, None)
  else if lit "allcommands" || lit "+@all" then
    (set_commands true (Categories u) (Commands u) u, None)
  else if lit "nocommands" || lit "-@all" then (set_commands false ∅ ∅ u, None)
  else if lit "reset" then
    (set_Selectors [] (set_channels false [] (set_keys false [] (set_commands false ∅ ∅
       (set_auth [] false (set_Enabled false u))))), None)
  else if starts ">" then
    match GenerateFromPassword salt (drop 1 rule) with
    | None => (u, Some ErrHashFailed)
    | Some hash => (set_auth (PasswordHashes u ++ [hash]) false u, None)
    end
  else if starts "#" then (set_auth (PasswordHashes u ++ [drop 1 rule]) false u, None)
  else if starts "<" then
    (set_auth (filter (λ h, CompareHashAndPassword h (drop 1 rule) = false) (PasswordHashes u))
       (NoPass u) u, None)
  else if starts "!" then
    (set_auth (filter (λ h, h ≠ drop 1 rule) (PasswordHashes u)) (NoPass u) u, None)
  else if starts "+@" then apply_category_rule true (drop 2 rule) u
  else if starts "-@" then apply_category_rule false (drop 2 rule) u
  else if starts "+" then apply_command_rule true (drop 1 rule) u
  else if starts "-" then apply_command_rule false (drop 1 rule) u
  else if starts "~" then (add_key_pattern (drop 1 rule) KeyPatternReadWrite u, None)
  else if starts "%r~" then (add_key_pattern (drop 3 rule) KeyPatternReadOnly u, None)
  else if starts "%w~" then (add_key_pattern (drop 3 rule) KeyPatternWriteOnly u, None)
  else if starts "&" then
    let pattern := drop 1 rule in
    if beq pattern (str "*") then (set_channels true (ChannelPatterns u) u, None)
    else (set_channels (AllChannels u) (ChannelPatterns u ++ [pattern]) u, None)
  else (u, Some (ErrUnknownRule rule)).

(** The rules before the failing one stay applied: the user is edited in
    place.  [salts] supplies the randomness of each rule. *)
Fixpoint applyACLRules (salts : nat → Z) (u : ACLUser) (rules : list bytes) :
    ACLUser * option RuleError :=
  match rules with
  | [] => (u, None)
  | rule :: rules' =>
    match applyACLRule (salts 0%nat) u rule with
    | (u', Some e) => (u', Some e)
    | (u', None) => applyACLRules (λ n, salts (S n)) u' rules'
    end
  end.

(** ** Printing a user

    Go ranges over a map in no particular order: the orders met are the last
    two arguments, permutations of the two maps. *)
Definition format_key_pattern (kp : KeyPattern) : bytes :=
  match kp_Type kp with
  | KeyPatternReadWrite => str "~" ++ kp_Pattern kp
  | KeyPatternReadOnly => str "%R~" ++ kp_Pattern kp
  | KeyPatternWriteOnly => str "%W~" ++ kp_Pattern kp
  end.

Definition sign (allowed : bool) : bytes := if allowed then str "+" else str "-".

Definition user_rule_parts (u : ACLUser) (cats : list (CommandCategory * bool))
    (cmds : list (CommandType * bool)) : list bytes :=
  [if Enabled u then str "on" else str "off"] ++
  (if NoPass u then [str "nopass"] else []) ++
  ((λ h, str "#" ++ h) <$> PasswordHashes u) ++
  (if AllKeys u then [str "~*"] else format_key_pattern <$> KeyPatterns u) ++
  (if AllChannels u then [str "&*"] else (λ p, str "&" ++ p) <$> ChannelPatterns u) ++
  (if AllCommands u then [str "+@all"]
   else ((λ '(cat, b), sign b ++ str "@" ++ GetCategoryName cat) <$> cats) ++
        ((λ '(cmd, b), sign b ++ CommandString cmd) <$> cmds)).

Definition formatUserRule (u : ACLUser) (cats : list (CommandCategory * bool))
    (cmds : list (CommandType * bool)) : bytes :=
  join (str " ") (str "user" :: Name u :: user_rule_parts u cats cmds).
End Rules.

(** ** The manager *)

Record ACLLogEntry := mkACLLogEntry {
  le_Count : Z;
  le_Reason : bytes;
  le_Context : bytes;
  le_Object : bytes;
  le_Username : bytes;
  le_ClientInfo : bytes;
  le_EntryID : Z;
  le_TimestampUsec : Z
}.

Record ACLManager := mkACLManager {
  users : gmap bytes ACLUser;
  aclFile : bytes;
  log : list ACLLogEntry;
  logMaxLen : Z;
  nextLogID : Z
}.

Definition NewACLManager : ACLManager :=
  mkACLManager {[ defaultUsername := default_user ]} [] [] 128 0.

Definition with_users (us : gmap bytes ACLUser) (m : ACLManager) : ACLManager :=
  mkACLManager us (aclFile m) (log m) (logMaxLen m) (nextLogID m).
Definition with_log (l : list ACLLogEntry) (next : Z) (m : ACLManager) : ACLManager :=
  mkACLManager (users m) (aclFile m) l (logMaxLen m) next.

Definition GetUser (name : bytes) (m : ACLManager) : option ACLUser := users m !! name.

Definition SetUser (u : ACLUser) (m : ACLManager) : ACLManager :=
  with_users (<[Name u := u]> (users m)) m.

Definition DeleteUser (name : bytes) (m : ACLManager) : bool * ACLManager :=
  if beq name defaultUsername then (false, m)
  else match users m !! name with
       | Some _ => (true, with_users (delete name (users m)) m)
       | None => (false, m)
       end.

Section Manager.
Context `{UnicodeCase, Bcrypt}.

Definition Authenticate (username password : bytes) (m : ACLManager) : result AclDenied ACLUser :=
  match users m !! username with
  | None => Err ErrUserNotFound
  | Some u =>
    if negb (Enabled u) then Err ErrUserDisabled
    else if NoPass u then Ok u
    else if existsb (λ h, CompareHashAndPassword h password) (PasswordHashes u) then Ok u
    else Err ErrWrongPassword
  end.

Definition AuthenticateDefault (m : ACLManager) : option ACLUser :=
  match users m !! defaultUsername with
  | None => None
  | Some u => if negb (Enabled u) then None else if NoPass u then Some u else None
  end.

Definition RequiresAuth (m : ACLManager) : bool :=
  match users m !! defaultUsername with
  | None => true
  | Some u => if negb (Enabled u) then true else negb (NoPass u)
  end.

(** Whether a denial repeats an entry of the log. *)
Definition same_denial (reason context object username : bytes) (e : ACLLogEntry) : bool :=
  beq (le_Reason e) reason && beq (le_Object e) object &&
  beq (le_Username e) username && beq (le_Context e) context.

(** The first matching entry is counted up in place. *)
Fixpoint bump (reason context object username : bytes) (usec : Z) (l : list ACLLogEntry) :
    option (list ACLLogEntry) :=
  match l with
  | [] => None
  | e :: l' =>
    if same_denial reason context object username e
    then Some (mkACLLogEntry (i64 (le_Count e + 1)) (le_Reason e) (le_Context e) (le_Object e)
                 (le_Username e) (le_ClientInfo e) (le_EntryID e) usec :: l')
    else (cons e) <$> bump reason context object username usec l'
  end.

Definition LogDenied (usec : Z) (reason context object username clientInfo : bytes)
    (m : ACLManager) : ACLManager :=
  match bump reason context object username usec (log m) with
  | Some l => with_log l (nextLogID m) m
  | None =>
    let entry := mkACLLogEntry 1 reason context object username clientInfo (nextLogID m) usec in
    let l := entry :: log m in
    with_log (if logMaxLen m <? len l then take (Z.to_nat (logMaxLen m)) l else l)
      (i64 (nextLogID m + 1)) m
  end.

Definition GetLog (count : Z) (m : ACLManager) : list ACLLogEntry :=
  let count := if (count <=? 0) || (len (log m) <? count) then len (log m) else count in
  take (Z.to_nat count) (log m).

Definition ResetLog (m : ACLManager) : ACLManager := with_log [] (nextLogID m) m.

(** One line of the rule file; the user it names is created or edited in
    the manager even when a rule of the line is refused. *)
Definition parseACLLine (salts : nat → Z) (line : bytes) (m : ACLManager) :
    ACLManager * option RuleError :=
  match Fields line with
  | kw :: username :: rules =>
    if negb (beq (ToLower kw) (str "user")) then (m, Some ErrInvalidLine)
    else
      let u := default (new_user username) (users m !! username) in
      let '(u', err) := applyACLRules salts u rules in
      (with_users (<[username := u']> (users m)) m, err)
  | _ => (m, Some ErrInvalidLine)
  end.

Fixpoint load_lines (salts : nat → nat → Z) (lines : list bytes) (m : ACLManager) :
    ACLManager * option RuleError :=
  match lines with
  | [] => (m, None)
  | l :: lines' =>
    let line := TrimSpace l in
    if beq line [] || has_prefix line (str "#")
    then load_lines (λ n, salts (S n)) lines' m
    else match parseACLLine (salts 0%nat) line m with
         | (m', Some e) => (m', Some e)
         | (m', None) => load_lines (λ n, salts (S n)) lines' m'
         end
  end.

(** [LoadFromFile], from the lines of the file it opened.  The error of a
    line returns before the default user is put back. *)
Definition LoadFromFile (salts : nat → nat → Z) (path : bytes) (lines : list bytes)
    (m : ACLManager) : ACLManager * option RuleError :=
  match load_lines salts lines (with_users ∅ m) with
  | (m', Some e) => (m', Some e)
  | (m', None) =>
    let us := match users m' !! defaultUsername with
              | Some _ => users m'
              | None => <[defaultUsername := default_user]> (users m')
              end in
    (mkACLManager us path (log m') (logMaxLen m') (nextLogID m'), None)
  end.

(** ACL SETUSER, past its argument count check: the user is created first,
    then edited in place. *)
Definition handleAclSetUser (salts : nat → Z) (username : bytes) (rules : list bytes)
    (m : ACLManager) : ACLManager * option RuleError :=
  let u := default (new_user username) (users m !! username) in
  let '(u', err) := applyACLRules salts u rules in
  (with_users (<[username := u']> (users m)) m, err).

(** ACL DELUSER: the number of users deleted. *)
Fixpoint handleAclDelUser (names : list bytes) (m : ACLManager) : Z * ACLManager :=
  match names with
  | [] => (0, m)
  | name :: names' =>
    if beq name defaultUsername then handleAclDelUser names' m
    else
      let '(deleted, m) := DeleteUser name m in
      let '(count, m) := handleAclDelUser names' m in
      (if deleted then count + 1 else count, m)
  end.
End Manager.

(** ** Glob patterns: specification *)
Module GlobSpec.

(** A class is a list of items, negated or not. *)
Inductive class_item : Type :=
  | Single (x : Z)
  | Range (x y : Z).

Definition in_item (c : Z) (it : class_item) : bool :=
  match it with
  | Single x => x =? c
  | Range x y => (x <=? c) && (c <=? y)
  end.

Fixpoint class_items (fuel : nat) (p : bytes) : list class_item * bytes :=
  match fuel with
  | O => ([], p)
  | S fuel' =>
    match p with
    | [] => ([], [])
    | x :: p' =>
      if x =? 93 then ([], p')
      else match p' with
           | d :: y :: p'' =>
             if d =? 45 then let '(its, r) := class_items fuel' p'' in (Range x y :: its, r)
             else let '(its, r) := class_items fuel' p' in (Single x :: its, r)
           | _ => let '(its, r) := class_items fuel' p' in (Single x :: its, r)
           end
    end
  end.

Definition class_of (p : bytes) : bool * list class_item * bytes :=
  let '(neg, body) :=
    match p with y :: p' => if y =? 94 then (true, p') else (false, p) | [] => (false, []) end in
  let '(items, rest) := class_items (length body) body in (neg, items, rest).

(** What a pattern matches. *)
Inductive glob_match : bytes → bytes → Prop :=
  | gm_end : glob_match [] []
  | gm_star p s t : glob_match p t → glob_match (42 :: p) (s ++ t)
  | gm_any p c s : glob_match p s → glob_match (63 :: p) (c :: s)
  | gm_class p neg items rest c s :
      class_of p = (neg, items, rest) → existsb (in_item c) items = negb neg →
      glob_match rest s → glob_match (91 :: p) (c :: s)
  | gm_lit x p s : x ≠ 42 → x ≠ 63 → x ≠ 91 → glob_match p s → glob_match (x :: p) (x :: s).

Lemma scan_class_items fuel c m p :
  scan_class fuel c m p =
    let '(its, r) := class_items fuel p in (m || existsb (in_item c) its, r).
Proof.
  revert m p. induction fuel as [|fuel IH]; intros m p; simpl; [by rewrite orb_false_r|].
  destruct p as [|x p]; [by rewrite orb_false_r|].
  destruct (x =? 93); [by rewrite orb_false_r|].
  destruct p as [|d [|y p]]; [..|destruct (d =? 45)];
    rewrite IH; destruct (class_items fuel _); simpl; by rewrite orb_assoc.
Qed.

Lemma class_items_length fuel p :
  (length (snd (class_items fuel p)) ≤ length p)%nat.
Proof.
  revert p. induction fuel as [|fuel IH]; intros p; simpl; [lia|].
  destruct p as [|x p]; [done|]. destruct (x =? 93); [simpl; lia|].
  destruct p as [|d [|y p]]; [..|destruct (d =? 45)];
    (match goal with |- context [class_items fuel ?q] =>
       specialize (IH q); destruct (class_items fuel q) end); simpl in *; lia.
Qed.

Lemma class_of_length p neg items rest :
  class_of p = (neg, items, rest) → (length rest ≤ length p)%nat.
Proof.
  unfold class_of. intros H.
  destruct p as [|y p]; [|destruct (y =? 94)]; cbv beta iota in H;
    (match type of H with context [class_items ?f ?q] =>
       pose proof (class_items_length f q); destruct (class_items f q) end);
    injection H as <- <- <-; simpl in *; lia.
Qed.

Lemma elem_of_suffixes t s : t ∈ suffixes s ↔ ∃ u, s = u ++ t.
Proof.
  induction s as [|c s IH]; simpl.
  - rewrite list_elem_of_singleton. split; [intros ->; by exists []|].
    intros [u E]. by destruct u, t.
  - rewrite elem_of_cons, IH. split.
    + intros [->|[u ->]]; [by exists []|by exists (c :: u)].
    + intros [[|d u] E]; [left; done|right]. injection E as -> ->. eauto.
Qed.

Lemma glob_match_nil p : glob_match p [] ↔ forallb (λ y, y =? 42) p = true.
Proof.
  split.
  - intros H. remember [] as s eqn:E. induction H; try done.
    apply app_nil in E as [-> ->]. simpl. auto.
  - induction p as [|y p IH]; [constructor|]. simpl.
    rewrite andb_true_iff, Z.eqb_eq. intros [-> ?]. apply (gm_star p [] []). auto.
Qed.

Lemma aclMatchGlobRecursive_spec fuel p s :
  (length p < fuel)%nat → aclMatchGlobRecursive fuel p s = true ↔ glob_match p s.
Proof.
  revert p s. induction fuel as [|fuel IH]; intros p s Hf; [lia|].
  destruct p as [|x p].
  { simpl. rewrite bool_decide_eq_true. split; [intros ->; constructor|by inversion 1]. }
  destruct s as [|c s]; [symmetry; apply glob_match_nil|].
  simpl in Hf. cbn [aclMatchGlobRecursive].
  destruct (Z.eqb_spec x 42) as [->|H42]; [|destruct (Z.eqb_spec x 63) as [->|H63];
    [|destruct (Z.eqb_spec x 91) as [->|H91]]].
  - rewrite existsb_exists. split.
    + intros (t & Hin & Ht). apply list_elem_of_In, elem_of_suffixes in Hin as [u ->].
      constructor. apply IH; [lia|done].
    + intros Hm. inversion Hm as [|p' u t ? | | |]; subst; [|done].
      exists t. split; [|apply IH; [lia|done]].
      apply list_elem_of_In, elem_of_suffixes. eauto.
  - rewrite IH by lia. split; [by constructor|]. by inversion 1.
  - destruct (class_of p) as [[neg items] rest] eqn:Ec. pose proof Ec as Ec'.
    apply class_of_length in Ec'. unfold class_of in Ec.
    destruct (match p with [] => _ | _ => _ end) as [neg' body] eqn:Eb.
    rewrite scan_class_items. destruct (class_items (length body) body) as [its r] eqn:Ei.
    injection Ec as -> -> ->. simpl.
    assert (Hc : class_of p = (neg, items, rest)) by (unfold class_of; by rewrite Eb, Ei).
    split.
    + destruct (Bool.eqb (existsb (in_item c) items) neg) eqn:Ex; [done|].
      intros Hm%IH; [|lia]. eapply gm_class; [done| |done].
      apply eqb_false_iff in Ex. by destruct (existsb _ _), neg.
    + intros Hm. inversion Hm as [| | |p' n' i' r' c' s' Hc' Hx' Hm'|]; subst; [|done].
      rewrite Hc in Hc'. injection Hc' as <- <- <-. rewrite Hx'.
      destruct neg; simpl; (apply IH; [lia|done]).
  - destruct (Z.eqb_spec x c) as [->|Hne]; simpl.
    + rewrite IH by lia. split; [by constructor|]. by inversion 1.
    + split; [done|]. by inversion 1.
Qed.
End GlobSpec.
Import GlobSpec.

(** C18: the backtracking matcher used for key and channel patterns decides
    exactly the declarative matching relation: a star stands for any bytes, a
    question mark for one, a class for one byte in (or not in) its items. *)
Theorem aclMatchGlob_correct (pattern s : bytes) :
  aclMatchGlob pattern s = true ↔ glob_match pattern s.
Proof. apply aclMatchGlobRecursive_spec. lia. Qed.
