(* ===== verification/AclProps.v ===== *)
(** * Access control: properties

    What the permission checks of [Acl] grant, the save/load round trip of
    the rule file, and the invariants of the manager and of its log. *)

From S2P Require Import Prelude GoBytes Commands Acl.
Import GlobSpec.

Local Open Scope Z_scope.

(** ** Checks *)

Definition type_allows (ty : KeyPatternType) (isWrite : bool) : Prop :=
  match ty with
  | KeyPatternReadWrite => True
  | KeyPatternReadOnly => isWrite = false
  | KeyPatternWriteOnly => isWrite = true
  end.

Definition grants_key (ps : list KeyPattern) (key : bytes) (isWrite : bool) : Prop :=
  ∃ p, p ∈ ps ∧ glob_match (kp_Pattern p) key ∧ type_allows (kp_Type p) isWrite.

Lemma existsb_elem_of {A} (f : A → bool) l : existsb f l = true ↔ ∃ x, x ∈ l ∧ f x = true.
Proof.
  rewrite existsb_exists. split; intros (x & Hx & Hf); exists x; split; try done;
    by apply list_elem_of_In.
Qed.

Lemma pattern_grants_spec key w p :
  pattern_grants key w p = true ↔
  glob_match (kp_Pattern p) key ∧ type_allows (kp_Type p) w.
Proof.
  unfold pattern_grants, aclMatchGlob.
  rewrite andb_true_iff, aclMatchGlobRecursive_spec by lia.
  destruct (kp_Type p), w; simpl; intuition congruence.
Qed.

Lemma existsb_grants key w ps :
  existsb (pattern_grants key w) ps = true ↔ grants_key ps key w.
Proof.
  unfold grants_key. rewrite existsb_elem_of.
  setoid_rewrite pattern_grants_spec. done.
Qed.

(** a key access is granted exactly when the user has all keys, or one of
    its own patterns, or a selector, matches the key with a type that covers
    the access; in particular a read-only pattern never grants a write. *)
Theorem CheckKey_correct (u : ACLUser) (key : bytes) (isWrite : bool) :
  CheckKey (Some u) key isWrite = None ↔
  AllKeys u = true ∨ grants_key (KeyPatterns u) key isWrite ∨
  ∃ sel, sel ∈ Selectors u ∧ (sel_AllKeys sel = true ∨ grants_key (sel_KeyPatterns sel) key isWrite).
Proof.
  assert (Es : existsb (λ sel, sel_AllKeys sel ||
      existsb (pattern_grants key isWrite) (sel_KeyPatterns sel)) (Selectors u) = true ↔
    ∃ sel, sel ∈ Selectors u ∧
      (sel_AllKeys sel = true ∨ grants_key (sel_KeyPatterns sel) key isWrite)).
  { rewrite existsb_elem_of. setoid_rewrite orb_true_iff. by setoid_rewrite existsb_grants. }
  rewrite <- Es, <- existsb_grants. unfold CheckKey.
  destruct (AllKeys u), (existsb _ (KeyPatterns u)), (existsb _ (Selectors u));
    intuition congruence.
Qed.

Lemma CommandHasCategory_spec cmd cat :
  CommandHasCategory cmd cat = true ↔ cat ∈ GetCommandCategories cmd.
Proof.
  unfold CommandHasCategory, GetCommandCategories.
  destruct (commandCategories !! cmd); [by rewrite bool_decide_eq_true|].
  split; [done|]. intros []%not_elem_of_nil.
Qed.

Lemma CheckCommand_spec u cmd :
  CheckCommand (Some u) cmd = None ↔
  Enabled u = true ∧
  (AllCommands u = true ∨ Commands u !! cmd = Some true ∨
   (Commands u !! cmd = None ∧
    ∃ cat, CommandHasCategory cmd cat = true ∧ Categories u !! cat = Some true)).
Proof.
  setoid_rewrite CommandHasCategory_spec. unfold CheckCommand.
  destruct (Enabled u); simpl; [|intuition congruence].
  destruct (AllCommands u); [intuition congruence|].
  destruct (Commands u !! cmd) as [[]|]; [intuition congruence..|].
  assert (E : ∀ cats, existsb (λ cat, match (Categories u !! cat : option bool) with
      Some allowed => allowed | None => false end) cats = true ↔
      ∃ cat, cat ∈ cats ∧ Categories u !! cat = Some true).
  { intros cats. rewrite existsb_elem_of. split; intros (cat & Hin & Hc); exists cat;
      (split; [done|]); destruct (Categories u !! cat) as [[]|]; congruence. }
  specialize (E (GetCommandCategories cmd)).
  change (λ cat, default false (Categories u !! cat)) with
    (λ cat, match (Categories u !! cat : option bool) with
            Some allowed => allowed | None => false end).
  destruct (existsb _ _); intuition congruence.
Qed.

(** A command is permitted exactly for an enabled user that has all
    commands, or an explicit grant, or, when nothing explicit is recorded for
    the command, a granted category the command belongs to. *)
Theorem CheckCommand_correct (u : ACLUser) (cmd : CommandType) :
  CheckCommand (Some u) cmd = None ↔
  Enabled u = true ∧
  (AllCommands u = true ∨ Commands u !! cmd = Some true ∨
   (Commands u !! cmd = None ∧
    ∃ cat, CommandHasCategory cmd cat = true ∧ Categories u !! cat = Some true)).
Proof. apply CheckCommand_spec. Qed.

(** ** Rules that apply cleanly *)
Section Rules.
Context `{UnicodeCase, Bcrypt}.

(** [rule] always succeeds and edits the user by [f]. *)
Definition applies (rule : bytes) (f : ACLUser → ACLUser) : Prop :=
  ∀ salt u, applyACLRule salt u rule = (f u, None).
Definition applies_all (rules : list bytes) (f : ACLUser → ACLUser) : Prop :=
  ∀ salts u, applyACLRules salts u rules = (f u, None).

Lemma applies_all_nil : applies_all [] id.
Proof. done. Qed.

Lemma applies_all_cons r rs f g :
  applies r f → applies_all rs g → applies_all (r :: rs) (λ u, g (f u)).
Proof. intros Hr Hrs salts u. simpl. by rewrite Hr, Hrs. Qed.

Lemma applies_all_one r f : applies r f → applies_all [r] f.
Proof. intros Hr salts u. simpl. by rewrite Hr. Qed.

Lemma applies_all_app rs1 rs2 f g :
  applies_all rs1 f → applies_all rs2 g → applies_all (rs1 ++ rs2) (λ u, g (f u)).
Proof.
  intros H1 H2 salts u. revert salts u f H1.
  induction rs1 as [|r rs IH]; intros salts u f H1.
  - specialize (H1 salts u). injection H1 as <-. apply H2.
  - simpl. destruct (applyACLRule (salts 0%nat) u r) as [u' [e|]] eqn:E.
    + specialize (H1 salts u). simpl in H1. by rewrite E in H1.
    + assert (Hf : ∀ s, applyACLRules s u' rs = (f u, None)).
      { intros s. specialize (H1 (λ n, match n with O => salts 0%nat | S n => s n end) u).
        simpl in H1. by rewrite E in H1. }
      clear IH H1 E. revert salts u' Hf. generalize (f u). clear u f.
      induction rs as [|r' rs IH]; intros v salts u' Hf.
      { specialize (Hf salts). injection Hf as <-. apply H2. }
      simpl. destruct (applyACLRule _ u' r') as [u'' [e|]] eqn:E.
      * specialize (Hf (λ n, salts (S n))). simpl in Hf. by rewrite E in Hf.
      * apply (IH v (λ n, salts (S n))). intros s.
        specialize (Hf (λ n, match n with O => salts 1%nat | S n => s n end)).
        simpl in Hf. by rewrite E in Hf.
Qed.

Lemma applies_all_fold {A} (rule : A → bytes) (f : A → ACLUser → ACLUser) (l : list A) :
  Forall (λ x, applies (rule x) (f x)) l →
  applies_all (rule <$> l) (λ u, foldl (λ u x, f x u) u l).
Proof.
  induction 1 as [|x l Hx Hl IH]; [apply applies_all_nil|].
  intros salts u. simpl. rewrite Hx. apply IH.
Qed.

Lemma ToLower_ascii s : is_ascii s = true → ToLower s = ascii_lower s.
Proof. intros E. unfold ToLower. by rewrite E. Qed.

Lemma lower_byte_star c : lower_byte c = 42 → c = 42.
Proof. unfold lower_byte. split_if; lia. Qed.

Lemma ascii_lower_star p : ascii_lower p = [42] → p = [42].
Proof.
  destruct p as [|c [|d p]]; [done| |done]. intros [= E]. by apply lower_byte_star in E as ->.
Qed.

Lemma beq_star c p : p ≠ [42] → beq (c :: ascii_lower p) [c; 42] = false.
Proof.
  intros Hp. apply bool_decide_eq_false. intros [= E]. by apply ascii_lower_star in E.
Qed.

(** Lowercase the rule and let the tests compute. *)
Ltac rule_applies :=
  intros salt u; unfold applyACLRule; cbv zeta; rewrite ToLower_ascii by done; reflexivity.

Lemma applies_on : applies (str "on") (set_Enabled true).
Proof. rule_applies. Qed.
Lemma applies_off : applies (str "off") (set_Enabled false).
Proof. rule_applies. Qed.
Lemma applies_nopass : applies (str "nopass") (λ u, set_auth (PasswordHashes u) true u).
Proof. rule_applies. Qed.
Lemma applies_allkeys : applies (str "~*") (λ u, set_keys true (KeyPatterns u) u).
Proof. rule_applies. Qed.
Lemma applies_allchannels : applies (str "&*") (λ u, set_channels true (ChannelPatterns u) u).
Proof. rule_applies. Qed.
Lemma applies_allcommands :
  applies (str "+@all") (λ u, set_commands true (Categories u) (Commands u) u).
Proof. rule_applies. Qed.

Lemma applies_hash h :
  is_ascii h = true → applies (str "#" ++ h) (λ u, set_auth (PasswordHashes u ++ [h]) false u).
Proof. intros Hh. rule_applies. Qed.

Definition pattern_ok (p : bytes) : Prop := is_ascii p = true ∧ no_space p ∧ p ≠ [42].

(** [~*] sets the all-keys flag and is no pattern. *)
Definition key_pattern_ok (kp : KeyPattern) : Prop :=
  is_ascii (kp_Pattern kp) = true ∧ no_space (kp_Pattern kp) ∧ (kp_Type kp = KeyPatternReadWrite → kp_Pattern kp ≠ [42]).

Lemma applies_key_pattern kp :
  key_pattern_ok kp →
  applies (format_key_pattern kp) (add_key_pattern (kp_Pattern kp) (kp_Type kp)).
Proof.
  destruct kp as [p ty]. intros (Ha & _ & Hp). destruct ty; simpl in *; [|rule_applies..].
  intros salt u. unfold applyACLRule. cbv zeta. rewrite ToLower_ascii by done.
  change (ascii_lower (format_key_pattern _)) with (126 :: ascii_lower p).
  change (str "~*") with [126; 42]. rewrite beq_star by by apply Hp. reflexivity.
Qed.

Lemma applies_channel p :
  pattern_ok p →
  applies (str "&" ++ p) (λ u, set_channels (AllChannels u) (ChannelPatterns u ++ [p]) u).
Proof.
  intros (Ha & _ & Hp) salt u. unfold applyACLRule. cbv zeta. rewrite ToLower_ascii by done.
  change (ascii_lower (str "&" ++ p)) with (38 :: ascii_lower p).
  change (str "&*") with [38; 42]. rewrite beq_star by done.
  change (drop 1 (str "&" ++ p)) with p.
  replace (beq p (str "*")) with false by (symmetry; by apply bool_decide_eq_false).
  reflexivity.
Qed.

Lemma applies_category cat b :
  cat ≠ CatAll →
  applies (sign b ++ str "@" ++ GetCategoryName cat)
    (λ u, set_commands (AllCommands u) (<[cat := b]> (Categories u)) (Commands u) u).
Proof.
  intros Hc salt u. trans (apply_category_rule b (GetCategoryName cat) u).
  - unfold applyACLRule. cbv zeta.
    rewrite ToLower_ascii by (destruct cat, b; done). destruct cat, b; try done.
  - unfold apply_category_rule. rewrite GetCategoryByName_Name. by destruct cat.
Qed.

Lemma applies_command cmd b :
  client_command cmd →
  applies (sign b ++ CommandString cmd)
    (λ u, set_commands (AllCommands u) (Categories u) (<[cmd := b]> (Commands u)) u).
Proof.
  intros Hc salt u. pose proof (CommandString_plain cmd Hc) as Hp.
  trans (apply_command_rule b (CommandString cmd) u).
  - unfold applyACLRule. cbv zeta. destruct (CommandString cmd) as [|c s]; [done|].
    unfold plain_name in Hp. reflect_bools.
    rewrite ToLower_ascii by (by destruct b).
    assert (E : lower_byte c = c) by (unfold lower_byte; split_if; lia).
    destruct b; unfold sign; cbn [str app fmap list_fmap ascii_lower].
    + change (ascii_lower (str "+" ++ c :: s)) with (43 :: lower_byte c :: ascii_lower s).
      rewrite E. replace (beq (43 :: c :: ascii_lower s) (str "+@all")) with false
        by (symmetry; apply bool_decide_eq_false; intros [=]; lia).
      change (has_prefix (43 :: c :: ascii_lower s) (str "+@")) with ((c =? 64) && true).
      rewrite (proj2 (Z.eqb_neq c 64)) by lia.
      reflexivity.
    + change (ascii_lower (str "-" ++ c :: s)) with (45 :: lower_byte c :: ascii_lower s).
      rewrite E. replace (beq (45 :: c :: ascii_lower s) (str "-@all")) with false
        by (symmetry; apply bool_decide_eq_false; intros [=]; lia).
      change (has_prefix (45 :: c :: ascii_lower s) (str "-@")) with ((c =? 64) && true).
      rewrite (proj2 (Z.eqb_neq c 64)) by lia.
      reflexivity.
  - unfold apply_command_rule. rewrite (proj2 (index_byte_None _ 124)).
    2:{ intros Hin. destruct (CommandString cmd) as [|c s]; [done|]. unfold plain_name in Hp.
        reflect_bools. apply list_elem_of_In in Hin.
        match goal with H : forallb (λ x, negb (x =? 124)) _ = true |- _ =>
          rewrite forallb_forall in H; apply H in Hin end. done. }
    unfold strings_ToUpper. replace (is_ascii (CommandString cmd)) with true.
    2:{ destruct (CommandString cmd); [done|]. unfold plain_name in Hp. by reflect_bools. }
    by rewrite LookupCommandName_String.
Qed.

(** ** The rule file round trip *)

(** A user that a line of the rule file can hold: its name, hashes and patterns are
    ASCII without white space (the line is split at white space when it is read), no
    pattern is the [*] that SETUSER turns into a flag, and its maps hold keys the rule
    language can name. *)
Record saveable (u : ACLUser) : Prop := {
  sv_name : Name u ≠ [] ∧ is_ascii (Name u) = true ∧ no_space (Name u);
  sv_hashes : Forall (λ h, is_ascii h = true ∧ no_space h) (PasswordHashes u);
  sv_keys : Forall key_pattern_ok (KeyPatterns u);
  sv_channels : Forall pattern_ok (ChannelPatterns u);
  sv_cats : Categories u !! CatAll = None;
  sv_cmds : map_Forall (λ c _, client_command c) (Commands u)
}.

(** What the line keeps of the user.  [nopass] is printed before the hashes
    and every hash rule clears it again. *)
Definition reloaded (u : ACLUser) : ACLUser :=
  mkACLUser (Name u) (Enabled u) (PasswordHashes u)
    (if decide (PasswordHashes u = []) then NoPass u else false)
    (AllCommands u) (if AllCommands u then ∅ else Categories u)
    (if AllCommands u then ∅ else Commands u) ∅
    (AllKeys u) (if AllKeys u then [] else KeyPatterns u)
    (AllChannels u) (if AllChannels u then [] else ChannelPatterns u) [].

Lemma foldl_hashes hs u :
  foldl (λ u h, set_auth (PasswordHashes u ++ [h]) false u) u hs =
  set_auth (PasswordHashes u ++ hs) (if decide (hs = []) then NoPass u else false) u.
Proof.
  revert u. induction hs as [|h hs IH]; intros u; simpl.
  { rewrite app_nil_r. by destruct u. }
  rewrite IH. unfold set_auth. simpl. rewrite <- app_assoc. f_equal.
  by destruct hs.
Qed.

Lemma foldl_keys kps u :
  foldl (λ u kp, add_key_pattern (kp_Pattern kp) (kp_Type kp) u) u kps =
  set_keys (AllKeys u) (KeyPatterns u ++ kps) u.
Proof.
  revert u. induction kps as [|kp kps IH]; intros u; simpl.
  { rewrite app_nil_r. by destruct u. }
  rewrite IH. unfold add_key_pattern, set_keys. simpl. rewrite <- app_assoc.
  by destruct kp.
Qed.

Lemma foldl_channels ps u :
  foldl (λ u p, set_channels (AllChannels u) (ChannelPatterns u ++ [p]) u) u ps =
  set_channels (AllChannels u) (ChannelPatterns u ++ ps) u.
Proof.
  revert u. induction ps as [|p ps IH]; intros u; simpl.
  { rewrite app_nil_r. by destruct u. }
  rewrite IH. unfold set_channels. simpl. by rewrite <- app_assoc.
Qed.

(** Inserting the entries of a map in any order rebuilds it. *)
Lemma foldl_insert `{Countable K} {A} (l : list (K * A)) (m acc : gmap K A) :
  l ≡ₚ map_to_list m → acc ##ₘ m →
  foldl (λ acc '(k, v), <[k := v]> acc) acc l = acc ∪ m.
Proof.
  revert m acc. induction l as [|[k v] l IH]; intros m acc Hl Hd; simpl.
  { symmetry in Hl. apply Permutation_nil_r, map_to_list_empty_iff in Hl as ->.
    by rewrite map_union_empty. }
  assert (Hk : m !! k = Some v).
  { apply elem_of_map_to_list. rewrite <- Hl. left. }
  rewrite (IH (delete k m)).
  - rewrite <- (insert_delete_id m k v Hk) at 2. rewrite <- insert_union_r, insert_union_l; [done|].
    by eapply map_disjoint_Some_r.
  - apply (Permutation_cons_inv (a := (k, v))). rewrite Hl. symmetry.
    by apply map_to_list_delete.
  - apply map_disjoint_insert_l. split; [apply lookup_delete_eq|].
    by apply map_disjoint_delete_r.
Qed.

Lemma foldl_cats cats u :
  foldl (λ u (x : CommandCategory * bool), set_commands (AllCommands u)
     (<[x.1 := x.2]> (Categories u)) (Commands u) u) u cats =
  set_commands (AllCommands u) (foldl (λ acc '(k, v), <[k := v]> acc) (Categories u) cats)
    (Commands u) u.
Proof.
  revert u. induction cats as [|[k v] cats IH]; intros u; simpl; [by destruct u|].
  by rewrite IH.
Qed.

Lemma foldl_cmds cmds u :
  foldl (λ u (x : CommandType * bool), set_commands (AllCommands u)
     (Categories u) (<[x.1 := x.2]> (Commands u)) u) u cmds =
  set_commands (AllCommands u) (Categories u)
    (foldl (λ acc '(k, v), <[k := v]> acc) (Commands u) cmds) u.
Proof.
  revert u. induction cmds as [|[k v] cmds IH]; intros u; simpl; [by destruct u|].
  by rewrite IH.
Qed.

(** The edit made by each part of the line. *)
Definition edit_keys (u0 u : ACLUser) : ACLUser :=
  if AllKeys u0 then set_keys true (KeyPatterns u) u
  else set_keys (AllKeys u) (KeyPatterns u ++ KeyPatterns u0) u.
Definition edit_channels (u0 u : ACLUser) : ACLUser :=
  if AllChannels u0 then set_channels true (ChannelPatterns u) u
  else set_channels (AllChannels u) (ChannelPatterns u ++ ChannelPatterns u0) u.

Lemma applies_all_ext rs f g : applies_all rs f → (∀ u, f u = g u) → applies_all rs g.
Proof. intros Hf E salts u. by rewrite Hf, E. Qed.

Lemma parts_keys u0 :
  saveable u0 →
  applies_all (if AllKeys u0 then [str "~*"] else format_key_pattern <$> KeyPatterns u0) (edit_keys u0).
Proof.
  intros Hs. unfold edit_keys. destruct (AllKeys u0); [apply applies_all_one, applies_allkeys|].
  eapply applies_all_ext; [apply applies_all_fold|intros; apply foldl_keys].
  eapply Forall_impl; [apply sv_keys, Hs|apply applies_key_pattern].
Qed.

Lemma parts_channels u0 :
  saveable u0 →
  applies_all (if AllChannels u0 then [str "&*"] else (λ p, str "&" ++ p) <$> ChannelPatterns u0)
    (edit_channels u0).
Proof.
  intros Hs. unfold edit_channels.
  destruct (AllChannels u0); [apply applies_all_one, applies_allchannels|].
  eapply applies_all_ext; [apply applies_all_fold|intros; apply foldl_channels].
  eapply Forall_impl; [apply sv_channels, Hs|apply applies_channel].
Qed.

Definition insert_all `{Countable K} {A} (acc : gmap K A) (l : list (K * A)) : gmap K A :=
  foldl (λ acc '(k, v), <[k := v]> acc) acc l.
Definition edit_commands (u0 : ACLUser) cats cmds (u : ACLUser) : ACLUser :=
  if AllCommands u0 then set_commands true (Categories u) (Commands u) u
  else set_commands (AllCommands u) (insert_all (Categories u) cats)
         (insert_all (Commands u) cmds) u.

Lemma category_rule_in u0 cats cat b :
  saveable u0 → cats ≡ₚ map_to_list (Categories u0) → (cat, b) ∈ cats →
  applies (sign b ++ str "@" ++ GetCategoryName cat)
    (λ u, set_commands (AllCommands u) (<[cat := b]> (Categories u)) (Commands u) u).
Proof.
  intros Hs Hcats Hin. apply applies_category. intros ->.
  rewrite Hcats in Hin. apply elem_of_map_to_list in Hin. by rewrite (sv_cats _ Hs) in Hin.
Qed.

Lemma command_rule_in u0 cmds cmd b :
  saveable u0 → cmds ≡ₚ map_to_list (Commands u0) → (cmd, b) ∈ cmds →
  applies (sign b ++ CommandString cmd)
    (λ u, set_commands (AllCommands u) (Categories u) (<[cmd := b]> (Commands u)) u).
Proof.
  intros Hs Hcmds Hin. apply applies_command.
  rewrite Hcmds in Hin. apply elem_of_map_to_list in Hin. by apply (sv_cmds _ Hs) in Hin.
Qed.

Lemma parts_commands u0 cats cmds :
  saveable u0 → cats ≡ₚ map_to_list (Categories u0) → cmds ≡ₚ map_to_list (Commands u0) →
  applies_all
    (if AllCommands u0 then [str "+@all"]
     else ((λ '(cat, b), sign b ++ str "@" ++ GetCategoryName cat) <$> cats) ++
          ((λ '(cmd, b), sign b ++ CommandString cmd) <$> cmds)) (edit_commands u0 cats cmds).
Proof.
  intros Hs Hcats Hcmds. unfold edit_commands.
  destruct (AllCommands u0); [apply applies_all_one, applies_allcommands|].
  eapply applies_all_ext.
  { apply applies_all_app.
    - apply (applies_all_fold _ (λ x u, set_commands (AllCommands u)
        (<[x.1 := x.2]> (Categories u)) (Commands u) u)).
      apply Forall_forall. intros [cat b] Hin. by apply category_rule_in with u0 cats.
    - apply (applies_all_fold _ (λ x u, set_commands (AllCommands u)
        (Categories u) (<[x.1 := x.2]> (Commands u)) u)).
      apply Forall_forall. intros [cmd b] Hin. by apply command_rule_in with u0 cmds. }
  intros u. cbv beta. rewrite (foldl_cats cats u), foldl_cmds. done.
Qed.

Lemma parts_enabled (b : bool) :
  applies_all [if b then str "on" else str "off"] (set_Enabled b).
Proof. apply applies_all_one. destruct b; [apply applies_on|apply applies_off]. Qed.

Definition edit_auth (u0 u : ACLUser) : ACLUser :=
  set_auth (PasswordHashes u ++ PasswordHashes u0)
    (if decide (PasswordHashes u0 = []) then if NoPass u0 then true else NoPass u else false) u.

Lemma parts_auth u0 :
  saveable u0 →
  applies_all ((if NoPass u0 then [str "nopass"] else []) ++
               ((λ h, str "#" ++ h) <$> PasswordHashes u0)) (edit_auth u0).
Proof.
  intros Hs. eapply applies_all_ext.
  - apply applies_all_app.
    + instantiate (1 := λ u, if NoPass u0 then set_auth (PasswordHashes u) true u else u).
      destruct (NoPass u0); [apply applies_all_one, applies_nopass|apply applies_all_nil].
    + apply (applies_all_fold _ (λ h u, set_auth (PasswordHashes u ++ [h]) false u)).
      eapply Forall_impl; [apply sv_hashes, Hs|]. intros h [? ?]. by apply applies_hash.
  - intros u. cbv beta. rewrite foldl_hashes. unfold edit_auth. by destruct (NoPass u0).
Qed.

Lemma user_rule_parts_apply u0 cats cmds salts :
  saveable u0 → cats ≡ₚ map_to_list (Categories u0) → cmds ≡ₚ map_to_list (Commands u0) →
  applyACLRules salts (new_user (Name u0)) (user_rule_parts u0 cats cmds) = (reloaded u0, None).
Proof.
  intros Hs Hcats Hcmds. unfold user_rule_parts.
  rewrite (app_assoc (if NoPass u0 then _ else _)).
  rewrite (applies_all_app _ _ _ _ (parts_enabled (Enabled u0))
    (applies_all_app _ _ _ _ (parts_auth u0 Hs)
      (applies_all_app _ _ _ _ (parts_keys u0 Hs)
        (applies_all_app _ _ _ _ (parts_channels u0 Hs)
          (parts_commands u0 cats cmds Hs Hcats Hcmds))))).
  f_equal. unfold edit_commands, edit_channels, edit_keys, edit_auth, reloaded, insert_all.
  destruct (AllKeys u0), (AllChannels u0), (AllCommands u0); cbn;
    rewrite ?(foldl_insert cats (Categories u0)), ?(foldl_insert cmds (Commands u0)),
      ?map_empty_union by (done || apply map_disjoint_empty_l);
    (f_equal; destruct (NoPass u0); case_decide; done).
Qed.

Lemma user_rule_parts_tokens u0 cats cmds :
  saveable u0 → cmds ≡ₚ map_to_list (Commands u0) →
  Forall (λ p, p ≠ [] ∧ no_space p ∧ is_ascii p = true) (user_rule_parts u0 cats cmds).
Proof.
  intros Hs Hcmds. unfold user_rule_parts. repeat rewrite Forall_app. repeat split.
  - apply Forall_singleton. by destruct (Enabled u0).
  - destruct (NoPass u0); by repeat constructor.
  - apply Forall_fmap. eapply Forall_impl; [apply sv_hashes, Hs|]. by intros h [? ?].
  - destruct (AllKeys u0); [by repeat constructor|]. apply Forall_fmap.
    eapply Forall_impl; [apply sv_keys, Hs|]. by intros [p []] (? & ? & _).
  - destruct (AllChannels u0); [by repeat constructor|]. apply Forall_fmap.
    eapply Forall_impl; [apply sv_channels, Hs|]. by intros p (? & ? & _).
  - destruct (AllCommands u0); [by repeat constructor|].
    rewrite Forall_app, !Forall_fmap. split; apply Forall_forall.
    + intros [cat b] _. by destruct cat, b.
    + intros [cmd b] Hin. rewrite Hcmds in Hin. apply elem_of_map_to_list in Hin.
      apply (sv_cmds _ Hs), CommandString_plain in Hin. simpl.
      destruct (CommandString cmd) as [|c s]; [done|]. unfold plain_name in Hin.
      reflect_bools. unfold no_space. by destruct b.
Qed.

(** The part the line does not carry is never consulted by the checks. *)
Lemma reloaded_checks u :
  Selectors u = [] →
  (∀ cmd, CheckCommand (Some (reloaded u)) cmd = CheckCommand (Some u) cmd) ∧
  (∀ key w, CheckKey (Some (reloaded u)) key w = CheckKey (Some u) key w) ∧
  (∀ ch, CheckChannel (Some (reloaded u)) ch = CheckChannel (Some u) ch).
Proof.
  intros Hsel. unfold CheckCommand, CheckKey, CheckChannel, reloaded. cbn [Enabled AllCommands Commands
    Categories AllKeys KeyPatterns Selectors AllChannels ChannelPatterns]. rewrite Hsel.
  repeat split; intros; [destruct (AllCommands u)|destruct (AllKeys u)|destruct (AllChannels u)]; done.
Qed.

Lemma parse_format_line u cats cmds salts m :
  saveable u → cats ≡ₚ map_to_list (Categories u) → cmds ≡ₚ map_to_list (Commands u) →
  users m !! Name u = None →
  parseACLLine salts (formatUserRule u cats cmds) m =
    (with_users (<[Name u := reloaded u]> (users m)) m, None).
Proof.
  intros Hs Hcats Hcmds Hnew. unfold parseACLLine, formatUserRule.
  destruct (sv_name _ Hs) as (Hn1 & Hn2 & Hn3).
  rewrite Fields_join.
  2:{ constructor; [done|]. constructor; [done|]. by apply user_rule_parts_tokens. }
  rewrite ToLower_ascii by done. change (ascii_lower (str "user")) with (str "user").
  rewrite beq_refl, Hnew. cbn [negb default from_option].
  by rewrite user_rule_parts_apply.
Qed.

(** C20: a user written to the rule file by [formatUserRule], in whatever
    order Go visits its maps, and read back by [parseACLLine] into a manager
    that does not know it, is stored as [reloaded u]: same name, enabled flag
    and hashes, and, when it has no selectors, the same answer to every
    command, key and channel check.  The user is [saveable]: its name, hashes and
    patterns are ASCII and hold no white space.  SETUSER accepts patterns with
    spaces too, and those are not read back as they were: [spaced_pattern_escalates]
    is a user who gains every command by a reload. *)
Theorem acl_line_roundtrip (u : ACLUser) cats cmds salts (m : ACLManager) :
  saveable u → cats ≡ₚ map_to_list (Categories u) → cmds ≡ₚ map_to_list (Commands u) →
  users m !! Name u = None → Selectors u = [] →
  ∃ u', parseACLLine salts (formatUserRule u cats cmds) m =
          (with_users (<[Name u := u']> (users m)) m, None) ∧
    Name u' = Name u ∧ Enabled u' = Enabled u ∧ PasswordHashes u' = PasswordHashes u ∧
    (∀ cmd, CheckCommand (Some u') cmd = CheckCommand (Some u) cmd) ∧
    (∀ key w, CheckKey (Some u') key w = CheckKey (Some u) key w) ∧
    (∀ ch, CheckChannel (Some u') ch = CheckChannel (Some u) ch).
Proof.
  intros. exists (reloaded u). split; [by apply parse_format_line|].
  repeat split; by apply reloaded_checks.
Qed.

(** Saving and reloading a user that is both passwordless and hashed, the
    state [>password] followed by [nopass] leaves, turns its passwordless
    login off. *)
Theorem nopass_lost_on_reload (u : ACLUser) cats cmds salts (m : ACLManager) :
  saveable u → cats ≡ₚ map_to_list (Categories u) → cmds ≡ₚ map_to_list (Commands u) →
  users m !! Name u = None → NoPass u = true → PasswordHashes u ≠ [] →
  ∃ m' u', parseACLLine salts (formatUserRule u cats cmds) m = (m', None) ∧
    users m' !! Name u = Some u' ∧ NoPass u' = false.
Proof.
  intros. eexists _, (reloaded u). split; [by apply parse_format_line|]. simpl. split.
  - apply lookup_insert_eq.
  - by rewrite decide_False.
Qed.

(** An explicit denial recorded after [+@all] does not deny: the command
    stays permitted although the user's table says it is not. *)
Theorem deny_after_all_is_ineffective (salts : nat → Z) (u : ACLUser) (cmd : CommandType) :
  client_command cmd → Enabled u = true →
  ∃ u', applyACLRules salts u [str "+@all"; str "-" ++ CommandString cmd] = (u', None) ∧
    Commands u' !! cmd = Some false ∧ CheckCommand (Some u') cmd = None.
Proof.
  intros Hc He.
  pose proof (applies_all_cons _ _ _ _ applies_allcommands
    (applies_all_one _ _ (applies_command cmd false Hc))) as Ha.
  eexists. split; [apply Ha|]. split; [apply lookup_insert_eq|].
  apply CheckCommand_spec. simpl. auto.
Qed.

(** ** The manager *)

(** The default user is present, and every user is filed under its name. *)
Record manager_ok (m : ACLManager) : Prop := {
  mo_default : is_Some (users m !! defaultUsername);
  mo_names : map_Forall (λ n u, Name u = n) (users m)
}.

Lemma applyACLRule_Name salt u rule : Name (applyACLRule salt u rule).1 = Name u.
Proof.
  unfold applyACLRule, apply_category_rule, apply_command_rule. cbv zeta.
  repeat match goal with
  | |- context [if ?b then _ else _] => destruct b
  | |- context [match ?x with _ => _ end] => destruct x
  end; reflexivity.
Qed.

Lemma applyACLRules_Name salts u rules : Name (applyACLRules salts u rules).1 = Name u.
Proof.
  revert salts u. induction rules as [|r rules IH]; intros salts u; [done|]. simpl.
  pose proof (applyACLRule_Name (salts 0%nat) u r) as E.
  destruct (applyACLRule _ u r) as [u' [e|]]; simpl in *; [done|]. by rewrite IH.
Qed.

Lemma edited_user_names m salts name rules :
  map_Forall (λ n u, Name u = n) (users m) →
  map_Forall (λ n u, Name u = n)
    (<[name := (applyACLRules salts (default (new_user name) (users m !! name)) rules).1]> (users m)).
Proof.
  intros Hn. apply map_Forall_insert_2; [|done]. rewrite applyACLRules_Name.
  destruct (users m !! name) eqn:E; [|done]. by apply Hn in E.
Qed.

Lemma parseACLLine_names salts line m :
  map_Forall (λ n u, Name u = n) (users m) →
  map_Forall (λ n u, Name u = n) (users (parseACLLine salts line m).1).
Proof.
  intros Hn. unfold parseACLLine. destruct (Fields line) as [|kw [|name rules]]; [done..|].
  destruct (negb _); [done|]. pose proof (edited_user_names m salts name rules Hn).
  by destruct (applyACLRules _ _ _).
Qed.

Lemma load_lines_names salts lines m :
  map_Forall (λ n u, Name u = n) (users m) →
  map_Forall (λ n u, Name u = n) (users (load_lines salts lines m).1).
Proof.
  revert salts m. induction lines as [|l lines IH]; intros salts m Hn; [done|]. simpl.
  case_match; [by apply IH|].
  pose proof (parseACLLine_names (salts 0%nat) (TrimSpace l) m Hn).
  destruct (parseACLLine _ _ _) as [m' [e|]]; [done|]. by apply IH.
Qed.

(** The operations that change the set of users. *)
Inductive acl_step : ACLManager → ACLManager → Prop :=
  | step_set u m : acl_step m (SetUser u m)
  | step_delete n m : acl_step m (DeleteUser n m).2
  | step_deluser ns m : acl_step m (handleAclDelUser ns m).2
  | step_setuser salts n rules m : acl_step m (handleAclSetUser salts n rules m).1
  | step_denied usec r c o n ci m : acl_step m (LogDenied usec r c o n ci m)
  | step_resetlog m : acl_step m (ResetLog m)
  | step_load salts path lines m m' :
      LoadFromFile salts path lines m = (m', None) → acl_step m m'.

Lemma DeleteUser_ok n m : manager_ok m → manager_ok (DeleteUser n m).2.
Proof.
  intros [Hd Hn]. unfold DeleteUser. split_if; [done|].
  destruct (users m !! n); [|done]. split; simpl.
  - rewrite lookup_delete_ne; [done|]. intros ->. by rewrite beq_refl in Heqb.
  - by apply map_Forall_delete.
Qed.

Lemma handleAclDelUser_ok ns m : manager_ok m → manager_ok (handleAclDelUser ns m).2.
Proof.
  revert m. induction ns as [|n ns IH]; intros m Hm; [done|]. simpl.
  split_if; [by apply IH|]. pose proof (DeleteUser_ok n m Hm).
  destruct (DeleteUser n m) as [b m']. simpl in *. specialize (IH m').
  destruct (handleAclDelUser ns m'). simpl in *. auto.
Qed.

Lemma manager_ok_users m m' : users m' = users m → manager_ok m → manager_ok m'.
Proof. intros E [? ?]. by split; rewrite E. Qed.

(** from a fresh manager, no sequence of user edits, deletions,
    successful reloads and denials ever loses the default user or files a user
    under another name. *)
Theorem acl_reachable_ok (m : ACLManager) :
  rtc acl_step NewACLManager m → manager_ok m.
Proof.
  intros Hr. assert (H0' : manager_ok NewACLManager).
  { split; simpl; [rewrite lookup_singleton_eq; by eexists|]. by apply map_Forall_singleton. }
  revert H0'. induction Hr as [m|m1 m2 m3 Hs _ IH]; [done|]. intros Hok. apply IH. clear IH.
  destruct Hs as [u m|n m|ns m|salts n rules m|usec r c o n ci m|m|salts path lines m m' Hl].
  - destruct Hok as [Hd Hn]. split; simpl; [|by apply map_Forall_insert_2].
    rewrite lookup_insert. case_decide; [by eexists|done].
  - by apply DeleteUser_ok.
  - by apply handleAclDelUser_ok.
  - destruct Hok as [Hd Hn]. pose proof (edited_user_names m salts n rules Hn) as Hn'.
    unfold handleAclSetUser. destruct (applyACLRules _ _ _) as [u' e]. split; simpl in *; [|done].
    rewrite lookup_insert. case_decide; [by eexists|done].
  - apply (manager_ok_users m); [|done]. unfold LogDenied. by destruct (bump _ _ _ _ _ _).
  - by apply (manager_ok_users m).
  - unfold LoadFromFile in Hl.
    pose proof (load_lines_names salts lines (with_users ∅ m) (map_Forall_empty _)) as Hn.
    destruct (load_lines _ _ _) as [m1 [e|]]; [done|]. injection Hl as <-. simpl in Hn.
    destruct (users m1 !! defaultUsername) eqn:E; split; simpl; [by eexists|done|..].
    + rewrite lookup_insert_eq. by eexists.
    + by apply map_Forall_insert_2.
Qed.

(** A line that does not start with the keyword and a name. *)
Definition malformed (line : bytes) : Prop :=
  match Fields line with
  | kw :: _ :: _ => ToLower kw ≠ str "user"
  | _ => True
  end.

(** A reload that fails on its first rule line leaves the manager without
    any of the users it had, the default one included: authentication becomes
    required and nobody is the default user. *)
Theorem failed_load_loses_users salts path (l : bytes) lines (m : ACLManager) :
  TrimSpace l ≠ [] → has_prefix (TrimSpace l) (str "#") = false → malformed (TrimSpace l) →
  ∃ m', LoadFromFile salts path (l :: lines) m = (m', Some ErrInvalidLine) ∧
    users m' = ∅ ∧ RequiresAuth m' = true ∧ AuthenticateDefault m' = None.
Proof.
  intros Hne Hc Hm. exists (with_users ∅ m). split; [|done].
  unfold LoadFromFile. cbn [load_lines].
  replace (beq (TrimSpace l) []) with false by (symmetry; by apply bool_decide_eq_false).
  rewrite Hc. cbn [orb]. unfold parseACLLine. unfold malformed in Hm.
  destruct (Fields (TrimSpace l)) as [|kw [|name rules]]; [done..|].
  by replace (beq (ToLower kw) (str "user")) with false by (symmetry; by apply bool_decide_eq_false).
Qed.
End Rules.

(** ** Authentication *)
Section Auth.
Context `{Bcrypt}.

(** Authentication succeeds exactly for a known, enabled user that is
    passwordless or has a hash the password verifies against, and returns that
    user. *)
Theorem Authenticate_correct (username password : bytes) (m : ACLManager) (u : ACLUser) :
  Authenticate username password m = Ok u ↔
  users m !! username = Some u ∧ Enabled u = true ∧
  (NoPass u = true ∨ ∃ h, h ∈ PasswordHashes u ∧ CompareHashAndPassword h password = true).
Proof.
  unfold Authenticate. rewrite <- existsb_elem_of.
  destruct (users m !! username) as [v|]; [|naive_solver].
  destruct (Enabled v) eqn:E1; simpl; [|naive_solver congruence].
  destruct (NoPass v) eqn:E2; [naive_solver congruence|].
  destruct (existsb _ (PasswordHashes v)) eqn:E3; naive_solver congruence.
Qed.

(** The default login is exactly what makes authentication unnecessary. *)
Lemma RequiresAuth_default m : RequiresAuth m = false ↔ is_Some (AuthenticateDefault m).
Proof.
  unfold RequiresAuth, AuthenticateDefault. destruct (users m !! defaultUsername) as [u|].
  - destruct (Enabled u), (NoPass u); simpl; split; try done; by eexists.
  - split; [done|]. by intros [? ?].
Qed.
End Auth.

(** ** The denial log *)

Definition denial_key (e : ACLLogEntry) : bytes * bytes * bytes * bytes :=
  (le_Reason e, le_Context e, le_Object e, le_Username e).

(** The log is bounded and holds one entry per kind of denial. *)
Record log_ok (m : ACLManager) : Prop := {
  lo_max : 0 <= logMaxLen m;
  lo_len : len (log m) <= logMaxLen m;
  lo_nodup : NoDup (denial_key <$> log m)
}.

Lemma same_denial_spec r c o n e :
  same_denial r c o n e = true ↔ denial_key e = (r, c, o, n).
Proof.
  unfold same_denial, denial_key. rewrite !andb_true_iff, !beq_true. naive_solver.
Qed.

Lemma bump_None r c o n usec l :
  bump r c o n usec l = None → (r, c, o, n) ∉ denial_key <$> l.
Proof.
  induction l as [|e l IH]; [intros _; apply not_elem_of_nil|]. simpl.
  destruct (same_denial r c o n e) eqn:E; [done|]. intros Hb.
  apply not_elem_of_cons. split.
  - intros Hk. symmetry in Hk. apply same_denial_spec in Hk. congruence.
  - apply IH. by destruct (bump _ _ _ _ _ l).
Qed.

Lemma bump_Some r c o n usec l l' :
  bump r c o n usec l = Some l' → denial_key <$> l' = denial_key <$> l.
Proof.
  revert l'. induction l as [|e l IH]; intros l'; [done|]. simpl.
  destruct (same_denial r c o n e); [by intros [= <-]|].
  destruct (bump _ _ _ _ _ l) as [k|]; [|done]. intros [= <-]. simpl. f_equal. auto.
Qed.

Lemma bump_Some_in r c o n usec l l' :
  bump r c o n usec l = Some l' → (r, c, o, n) ∈ denial_key <$> l.
Proof.
  revert l'. induction l as [|e l IH]; intros l'; [done|]. cbn [bump]. rewrite fmap_cons.
  destruct (same_denial r c o n e) eqn:Es.
  - apply same_denial_spec in Es. rewrite Es. left.
  - destruct (bump _ _ _ _ _ l); [|done]. right. by eapply IH.
Qed.

(** Logging a denial keeps the log within its bound with one entry per
    (reason, context, object, user), counts a repeated denial in place, and
    puts a new one first. *)
Theorem LogDenied_ok usec r c o n ci (m : ACLManager) :
  log_ok m →
  let m' := LogDenied usec r c o n ci m in
  log_ok m' ∧
  ((r, c, o, n) ∈ denial_key <$> log m → denial_key <$> log m' = denial_key <$> log m) ∧
  ((r, c, o, n) ∉ denial_key <$> log m → 0 < logMaxLen m →
     head (denial_key <$> log m') = Some (r, c, o, n)).
Proof.
  intros [Hmax Hlen Hnd]. cbv zeta. unfold LogDenied.
  destruct (bump r c o n usec (log m)) as [l|] eqn:E.
  - pose proof (bump_Some _ _ _ _ _ _ _ E) as Hk. split; [split; simpl; [done| |by rewrite Hk]|].
    + apply (f_equal length) in Hk. rewrite !length_fmap in Hk. unfold len in *. lia.
    + simpl. split; [done|]. intros []. by eapply bump_Some_in.
  - apply bump_None in E. set (e := mkACLLogEntry _ _ _ _ _ _ _ _).
    assert (Hnd' : NoDup (denial_key <$> e :: log m)) by (constructor; done).
    split; [split; simpl; [done|..]|split; [done|]].
    + split_if; [|lia]. unfold len. rewrite length_take. lia.
    + split_if; [|done]. rewrite fmap_take.
      rewrite <- (take_drop (Z.to_nat (logMaxLen m)) (denial_key <$> e :: log m)) in Hnd'.
      by apply NoDup_app in Hnd' as [? _].
    + intros _ Hp. simpl. split_if; [|done]. by destruct (Z.to_nat (logMaxLen m)) eqn:Ez; [lia|].
Qed.

(** ** Witnesses *)

(** ASCII-only case tables and a plain-text "hash", to evaluate the model. *)
Definition test_case : UnicodeCase :=
  {| unicode_lower := id; unicode_upper := id; unicode_fields := fields_go []; unicode_trim := id |}.
Definition test_bcrypt : Bcrypt :=
  {| GenerateFromPassword := λ _ p, Some p; CompareHashAndPassword := beq |}.

Definition test_user : ACLUser :=
  mkACLUser (str "bob") true [str "h1"] true false {[ CatRead := true ]} {[ CmdSet := false ]} ∅
    false [mkKeyPattern (str "a*") KeyPatternReadOnly] true [] [].

Lemma test_user_saveable : saveable test_user.
Proof.
  split.
  - vm_compute. repeat split; (congruence || reflexivity).
  - repeat constructor.
  - apply Forall_singleton. vm_compute. repeat split; (congruence || reflexivity).
  - constructor.
  - vm_compute. reflexivity.
  - intros c b. unfold test_user. simpl. intros [<- _]%lookup_singleton_Some. repeat split; done.
Qed.

Lemma acl_line_roundtrip_witness :
  ∃ u', @parseACLLine test_case test_bcrypt (λ _, 0)
          (formatUserRule test_user [(CatRead, true)] [(CmdSet, false)]) NewACLManager =
          (with_users (<[str "bob" := u']> (users NewACLManager)) NewACLManager, None) ∧
    Name u' = str "bob" ∧ Enabled u' = true ∧ PasswordHashes u' = [str "h1"] ∧
    (∀ cmd, CheckCommand (Some u') cmd = CheckCommand (Some test_user) cmd) ∧
    (∀ key w, CheckKey (Some u') key w = CheckKey (Some test_user) key w) ∧
    (∀ ch, CheckChannel (Some u') ch = CheckChannel (Some test_user) ch).
Proof.
  apply (@acl_line_roundtrip test_case test_bcrypt test_user [(CatRead, true)] [(CmdSet, false)]
    (λ _, 0) NewACLManager test_user_saveable); [|..|reflexivity].
  - unfold test_user. simpl. by rewrite map_to_list_singleton.
  - unfold test_user. simpl. by rewrite map_to_list_singleton.
  - vm_compute. reflexivity.
Defined.

(** One SETUSER argument [~a +@all] is a key pattern with a space in it.  Saved to
    the rule file and read back it is two rules, and a user who could run no
    command may run all of them. *)
Theorem spaced_pattern_escalates : ∃ u m' u',
  @applyACLRules test_case test_bcrypt (λ _, 0) (new_user (str "eve")) [str "on"; str "~a +@all"] = (u, None) ∧
  CheckCommand (Some u) CmdSet ≠ None ∧
  @parseACLLine test_case test_bcrypt (λ _, 0) (formatUserRule u [] []) NewACLManager = (m', None) ∧
  users m' !! str "eve" = Some u' ∧ CheckCommand (Some u') CmdSet = None.
Proof.
  eexists _, _, _. split; [vm_compute; reflexivity|]. split; [vm_compute; discriminate|].
  split; [vm_compute; reflexivity|]. split; vm_compute; reflexivity.
Qed.

Lemma nopass_lost_on_reload_witness :
  ∃ m' u', @parseACLLine test_case test_bcrypt (λ _, 0)
      (formatUserRule test_user [(CatRead, true)] [(CmdSet, false)]) NewACLManager = (m', None) ∧
    users m' !! str "bob" = Some u' ∧ NoPass u' = false.
Proof.
  apply (@nopass_lost_on_reload test_case test_bcrypt test_user [(CatRead, true)] [(CmdSet, false)]
    (λ _, 0) NewACLManager test_user_saveable); [..|reflexivity|discriminate].
  - unfold test_user. simpl. by rewrite map_to_list_singleton.
  - unfold test_user. simpl. by rewrite map_to_list_singleton.
  - vm_compute. reflexivity.
Defined.

Lemma deny_after_all_is_ineffective_witness :
  ∃ u', @applyACLRules test_case test_bcrypt (λ _, 0) default_user
      [str "+@all"; str "-" ++ CommandString CmdSet] = (u', None) ∧
    Commands u' !! CmdSet = Some false ∧ CheckCommand (Some u') CmdSet = None.
Proof.
  apply (@deny_after_all_is_ineffective test_case test_bcrypt (λ _, 0) default_user CmdSet).
  - by repeat split.
  - reflexivity.
Defined.

Lemma acl_reachable_ok_witness :
  manager_ok (SetUser test_user NewACLManager).
Proof.
  apply (@acl_reachable_ok test_case test_bcrypt).
  eapply rtc_l; [apply (step_set test_user)|apply rtc_refl].
Defined.

Lemma failed_load_loses_users_witness :
  ∃ m', @LoadFromFile test_case test_bcrypt (λ _ _, 0) (str "acl") [str "oops"] NewACLManager =
      (m', Some ErrInvalidLine) ∧
    users m' = ∅ ∧ RequiresAuth m' = true ∧ AuthenticateDefault m' = None.
Proof.
  apply (@failed_load_loses_users test_case test_bcrypt (λ _ _, 0) (str "acl") (str "oops") []
    NewACLManager).
  - vm_compute. discriminate.
  - vm_compute. reflexivity.
  - vm_compute. exact I.
Defined.

Lemma LogDenied_ok_witness :
  let m' := LogDenied 5 (str "key") (str "k") (str "get") (str "bob") (str "c") NewACLManager in
  log_ok m' ∧ head (denial_key <$> log m') = Some (str "key", str "k", str "get", str "bob").
Proof.
  assert (H0 : log_ok NewACLManager) by (split; [done|done|constructor]).
  destruct (LogDenied_ok 5 (str "key") (str "k") (str "get") (str "bob") (str "c") NewACLManager H0)
    as (H1 & _ & H2).
  split; [exact H1|]. apply H2; [apply not_elem_of_nil|reflexivity].
Defined.
