(* ===== verification/Engine.v ===== *)
(** * The effects engine as its clients see it

    Commands read and write keys through [effects.Context] of the engine
    package, whose code is not part of this repository.  This file states the
    data that crosses that boundary (the protobuf messages the handlers build
    and read), the calls the handlers make ([Engine]), and what the handlers
    rely on ([EngineLaws]).  It also holds the small monad in which a
    command's runner is written: the engine context and the reply writer are
    threaded through, and an early [return] stops the rest. *)

From Stdlib Require Import SpecFloat.
From S2P Require Import Prelude GoBytes Strconv Floats Writer.

Local Open Scope Z_scope.

(** ** Messages *)

Inductive EffectOp : Type := INSERT_OP | REMOVE_OP.
Inductive MergeRule : Type :=
  MERGE_NONE | LAST_WRITE_WINS | ADDITIVE_INT | ADDITIVE_FLOAT | MAX_BYTES.
Inductive CollectionKind : Type := SCALAR | KEYED | ORDERED.
Inductive Placement : Type :=
  PLACE_NONE | PLACE_HEAD | PLACE_TAIL | PLACE_BEFORE | PLACE_AFTER | PLACE_SELF.
Inductive ValueType : Type :=
  | TYPE_UNSPECIFIED | TYPE_STRING | TYPE_LIST | TYPE_SET | TYPE_ZSET | TYPE_HASH
  | TYPE_STREAM | TYPE_HLL | TYPE_BITMAP | TYPE_GEO | TYPE_JSON | TYPE_JSON_OBJECT
  | TYPE_JSON_ARRAY.

#[global] Instance EffectOp_eq_dec : EqDecision EffectOp.
Proof. solve_decision. Defined.
#[global] Instance MergeRule_eq_dec : EqDecision MergeRule.
Proof. solve_decision. Defined.
#[global] Instance CollectionKind_eq_dec : EqDecision CollectionKind.
Proof. solve_decision. Defined.
#[global] Instance Placement_eq_dec : EqDecision Placement.
Proof. solve_decision. Defined.
#[global] Instance ValueType_eq_dec : EqDecision ValueType.
Proof. solve_decision. Defined.

(** The value oneof of [DataEffect]; a float is its 64-bit pattern. *)
Inductive Value : Type :=
  | IntVal (n : Z)
  | FloatVal (bits : Z)
  | Raw (b : bytes)
  | Compressed (b : bytes).

#[global] Instance Value_eq_dec : EqDecision Value.
Proof. solve_decision. Defined.

(** [GetIntVal()]: zero when another variant is set. *)
Definition GetIntVal (v : Value) : Z := match v with IntVal n => n | _ => 0 end.

Record DataEffect := mkData {
  de_Op : EffectOp;
  de_Merge : MergeRule;
  de_Collection : CollectionKind;
  de_Placement : Placement;
  de_Reference : bytes;
  de_Id : bytes;
  de_Value : option Value
}.

(** A point in time, in nanoseconds since the epoch. *)
Definition Timestamp : Type := Z.

(** [MetaEffect]: a type tag, or the expiry of the key or of one element; fields
    that are not given are unspecified, nil and empty. *)
Record MetaEffect := mkMeta {
  me_TypeTag : ValueType;
  me_ExpiresAt : option Timestamp;
  me_ElementId : bytes
}.
Definition tag_meta (t : ValueType) : MetaEffect := mkMeta t None [].
Definition ttl_meta (e : option Timestamp) : MetaEffect := mkMeta TYPE_UNSPECIFIED e [].
Definition field_ttl_meta (id : bytes) (e : option Timestamp) : MetaEffect :=
  mkMeta TYPE_UNSPECIFIED e id.

Inductive EffectKind : Type :=
  | Effect_Data (d : DataEffect)
  | Effect_Meta (m : MetaEffect)
  | Effect_Noop.

Record Effect := mkEffect { ef_Key : bytes; ef_Kind : EffectKind }.

(** One element of an ordered collection. *)
Record Element := mkElement { el_Id : bytes; el_Value : Value }.

(** A key's reduced state; [re_FieldExpires] has the expiries of those elements
    of [re_NetAdds] that have one. *)
Record ReducedEffect := mkReducedAt {
  re_Op : EffectOp;
  re_Collection : CollectionKind;
  re_TypeTag : ValueType;
  re_Scalar : option Value;
  re_NetAdds : gmap bytes Value;
  re_OrderedElements : list Element;
  re_ExpiresAt : option Timestamp;
  re_FieldExpires : gmap bytes Timestamp
}.

(** A state in which nothing expires. *)
Abbreviation mkReduced op coll tag scalar adds elements :=
  (mkReducedAt op coll tag scalar adds elements None ∅).

(** ** Calls *)

Class Engine := {
  Ctx : Type;
  Tip : Type;
  GetSnapshot : bytes → Ctx → result bytes (option ReducedEffect * list Tip) * Ctx;
  Emit : Effect → list Tip → Ctx → option bytes * Ctx;
  GetSnapshots : list bytes → Ctx → result bytes (list (option ReducedEffect)) * Ctx;
  BeginTx : Ctx → Ctx;
  Savepoint : Type;
  TakeSavepoint : Ctx → Savepoint;
  RestoreSavepoint : Savepoint → Ctx → Ctx;
  GetMerge : ReducedEffect → MergeRule;
  Decompress : Value → bytes;
  GetLock : bytes → Z
}.

(** ** What the handlers rely on

    [reduce before kind] is the state of a key after one more effect, where
    the handlers' comments and tests fix it: a scalar write replaces a scalar
    and discards its expiry, bit overlays are keyed elements that leave a
    scalar base in place, ordered inserts and removals act on the element list,
    a meta effect tags the key or sets or clears an expiry and leaves the rest,
    and an emptied collection is no longer shown.  [None] stands for the
    combinations nothing here relies on: in particular whether writing a keyed
    element again keeps the element's own expiry, and what the removals of
    streams, which give no placement, leave of an emptied stream. *)
Definition is_live (s : option ReducedEffect) : bool :=
  match s with
  | Some r => bool_decide (re_Op r = INSERT_OP)
  | None => false
  end.

(** The position of the element named [id]. *)
Definition find_id (id : bytes) (l : list Element) : option nat :=
  fst <$> list_find (λ x, el_Id x = id) l.

(** A new element goes to an end or next to another one, under an id not in
    use; an element that is there already is replaced in its place. *)
Definition ordered_insert (p : Placement) (ref : bytes) (e : Element) (l : list Element) :
    option (list Element) :=
  match find_id (el_Id e) l with
  | Some i => if bool_decide (p = PLACE_SELF) then Some (<[i := e]> l) else None
  | None =>
    match p with
    | PLACE_HEAD => Some (e :: l)
    | PLACE_TAIL => Some (l ++ [e])
    | PLACE_BEFORE => (λ i, take i l ++ e :: drop i l) <$> find_id ref l
    | PLACE_AFTER => (λ i, take (S i) l ++ e :: drop (S i) l) <$> find_id ref l
    | PLACE_SELF | PLACE_NONE => None
    end
  end.

Definition set_tag (t : ValueType) (r : ReducedEffect) : ReducedEffect :=
  mkReducedAt (re_Op r) (re_Collection r) t (re_Scalar r) (re_NetAdds r) (re_OrderedElements r)
    (re_ExpiresAt r) (re_FieldExpires r).
Definition set_expiry (e : option Timestamp) (r : ReducedEffect) : ReducedEffect :=
  mkReducedAt (re_Op r) (re_Collection r) (re_TypeTag r) (re_Scalar r) (re_NetAdds r)
    (re_OrderedElements r) e (re_FieldExpires r).
Definition set_field_expiry (id : bytes) (e : option Timestamp) (r : ReducedEffect) : ReducedEffect :=
  mkReducedAt (re_Op r) (re_Collection r) (re_TypeTag r) (re_Scalar r) (re_NetAdds r)
    (re_OrderedElements r) (re_ExpiresAt r) (partial_alter (λ _, e) id (re_FieldExpires r)).

Definition reduce_meta (r : ReducedEffect) (m : MetaEffect) : option ReducedEffect :=
  match me_ElementId m with
  | [] =>
    if bool_decide (me_TypeTag m = TYPE_UNSPECIFIED) then Some (set_expiry (me_ExpiresAt m) r)
    else match me_ExpiresAt m with
    | None => Some (set_tag (me_TypeTag m) r)
    | Some _ => None
    end
  | id => if bool_decide (is_Some (re_NetAdds r !! id)) then Some (set_field_expiry id (me_ExpiresAt m) r)
          else None
  end.

Definition reduce (before : option ReducedEffect) (k : EffectKind) : option (option ReducedEffect) :=
  match k with
  | Effect_Noop => Some before
  | Effect_Meta m =>
    match before with
    | Some r => Some <$> reduce_meta r m
    | None => None
    end
  | Effect_Data d =>
    match de_Collection d, de_Op d, de_Merge d, de_Value d with
    | SCALAR, INSERT_OP, LAST_WRITE_WINS, Some v =>
      match before with
      | None => Some (Some (mkReduced INSERT_OP SCALAR TYPE_UNSPECIFIED (Some v) ∅ []))
      | Some r =>
        match re_Collection r with
        | SCALAR => Some (Some (mkReduced INSERT_OP SCALAR (re_TypeTag r) (Some v) ∅ []))
        | _ => None
        end
      end
    | KEYED, INSERT_OP, LAST_WRITE_WINS, Some v =>
      match before with
      | None => Some (Some (mkReduced INSERT_OP KEYED TYPE_UNSPECIFIED None {[ de_Id d := v ]} []))
      | Some r =>
        if negb (is_live before) then None
        else match re_Collection r, re_FieldExpires r !! de_Id d with
        | ORDERED, _ => None
        | _, Some _ => None
        | _, None => Some (Some (mkReducedAt INSERT_OP KEYED (re_TypeTag r) (re_Scalar r)
                             (<[de_Id d := v]> (re_NetAdds r)) [] (re_ExpiresAt r) (re_FieldExpires r)))
        end
      end
    | KEYED, REMOVE_OP, _, _ =>
      match before with
      | Some r =>
        if negb (is_live before) then None
        else match re_Collection r with
        | KEYED =>
          let adds := delete (de_Id d) (re_NetAdds r) in
          if bool_decide (adds = ∅) && bool_decide (re_Scalar r = None) then Some None
          else Some (Some (mkReducedAt INSERT_OP KEYED (re_TypeTag r) (re_Scalar r) adds []
                             (re_ExpiresAt r) (delete (de_Id d) (re_FieldExpires r))))
        | _ => None
        end
      | None => None
      end
    | ORDERED, INSERT_OP, LAST_WRITE_WINS, Some v =>
      match before with
      | None =>
        match ordered_insert (de_Placement d) (de_Reference d) (mkElement (de_Id d) v) [] with
        | Some l => Some (Some (mkReduced INSERT_OP ORDERED TYPE_UNSPECIFIED None ∅ l))
        | None => None
        end
      | Some r =>
        if negb (is_live before) then None
        else match re_Collection r with
        | ORDERED =>
          match ordered_insert (de_Placement d) (de_Reference d) (mkElement (de_Id d) v)
                  (re_OrderedElements r) with
          | Some l => Some (Some (mkReducedAt INSERT_OP ORDERED (re_TypeTag r) None ∅ l
                                    (re_ExpiresAt r) ∅))
          | None => None
          end
        | _ => None
        end
      end
    | ORDERED, REMOVE_OP, _, _ =>
      match before with
      | Some r =>
        if negb (is_live before && bool_decide (de_Placement d = PLACE_SELF)) then None
        else match re_Collection r with
        | ORDERED =>
          match filter (λ e, el_Id e ≠ de_Id d) (re_OrderedElements r) with
          | [] => Some None
          | l => Some (Some (mkReducedAt INSERT_OP ORDERED (re_TypeTag r) None ∅ l (re_ExpiresAt r) ∅))
          end
        | _ => None
        end
      | None => None
      end
    | _, _, _, _ => None
    end
  end.

(** The effect that deletes a key of any type; what it leaves is either nothing
    or a tombstone. *)
Definition delete_effect : EffectKind :=
  Effect_Data (mkData REMOVE_OP MERGE_NONE SCALAR PLACE_NONE [] [] None).
Definition keyed_insert (id : bytes) (v : Value) : EffectKind :=
  Effect_Data (mkData INSERT_OP LAST_WRITE_WINS KEYED PLACE_NONE [] id (Some v)).
Definition keyed_remove (id : bytes) : EffectKind :=
  Effect_Data (mkData REMOVE_OP MERGE_NONE KEYED PLACE_NONE [] id None).

Definition ordered_effect (p : Placement) (ref id : bytes) (v : Value) : EffectKind :=
  Effect_Data (mkData INSERT_OP LAST_WRITE_WINS ORDERED p ref id (Some v)).
Definition ordered_remove (id : bytes) : EffectKind :=
  Effect_Data (mkData REMOVE_OP MERGE_NONE ORDERED PLACE_SELF [] id None).

Definition scalar_insert (v : Value) : EffectKind :=
  Effect_Data (mkData INSERT_OP LAST_WRITE_WINS SCALAR PLACE_NONE [] [] (Some v)).
(** [MergeRule_ADDITIVE_INT] on a scalar: a delta. *)
Definition scalar_add (delta : Z) : EffectKind :=
  Effect_Data (mkData INSERT_OP ADDITIVE_INT SCALAR PLACE_NONE [] [] (Some (IntVal delta))).

(** The same on an element of a keyed collection. *)
Definition keyed_add (id : bytes) (delta : Z) : EffectKind :=
  Effect_Data (mkData INSERT_OP ADDITIVE_INT KEYED PLACE_NONE [] id (Some (IntVal delta))).

Definition keyed_add_float (id : bytes) (delta : spec_float) : EffectKind :=
  Effect_Data (mkData INSERT_OP ADDITIVE_FLOAT KEYED PLACE_NONE [] id (Some (FloatVal (Float64bits delta)))).

(** The type tag of a key after a write: the former one, or none. *)
Definition former_tag (before : option ReducedEffect) (tag : ValueType) : Prop :=
  tag = TYPE_UNSPECIFIED ∨ re_TypeTag <$> before = Some tag.

(** A context that answers ([healthy]), what it shows for each key ([view]),
    and how an emitted effect changes it.  A keyed element, or an element put
    at an end, inserted where nothing lives starts a collection; the type tag
    may be a former one.  A scalar write replaces a value of any kind.  A delta
    starts from zero where nothing lives; it leaves an integer, and the expiry
    is kept or lost; the same for a delta on an element, and a float delta adds to
    a stored float.  The batch read shows the live keys. *)
Definition value_int (dec : Value → bytes) (v : Value) : option Z :=
  match v with
  | IntVal n => Some n
  | Raw _ | Compressed _ => ParseInt64 (dec v)
  | FloatVal _ => None
  end.
(** The integer a scalar key holds; nothing is zero. *)
Definition scalar_int (dec : Value → bytes) (s : option ReducedEffect) : option Z :=
  match s with
  | Some r =>
    if negb (is_live s) then Some 0
    else match re_Collection r, re_Scalar r with
    | SCALAR, Some v => value_int dec v
    | _, _ => None
    end
  | None => Some 0
  end.

(** The integer an element holds; nothing is zero. *)
Definition element_int (dec : Value → bytes) (r : ReducedEffect) (id : bytes) : option Z :=
  match re_NetAdds r !! id with Some v => value_int dec v | None => Some 0 end.

Class EngineLaws `{Engine} := {
  healthy : Ctx → Prop;
  view : Ctx → bytes → option ReducedEffect;
  law_get k c : healthy c →
    ∃ tips c', GetSnapshot k c = (Ok (view c k, tips), c') ∧ healthy c' ∧
      ∀ k', view c' k' = view c k';
  law_emit e tips c : healthy c →
    ∃ c', Emit e tips c = (None, c') ∧ healthy c' ∧
      (∀ k, k ≠ ef_Key e → view c' k = view c k) ∧
      (∀ r, reduce (view c (ef_Key e)) (ef_Kind e) = Some r → view c' (ef_Key e) = r);
  law_delete k tips c : healthy c →
    is_live (view (snd (Emit (mkEffect k delete_effect) tips c)) k) = false;
  law_revive k id v tips c : healthy c → is_live (view c k) = false →
    ∃ tag, view (snd (Emit (mkEffect k (keyed_insert id v)) tips c)) k =
      Some (mkReduced INSERT_OP KEYED tag None {[ id := v ]} []);
  law_revive_ordered k p id v tips c : healthy c → is_live (view c k) = false →
    p = PLACE_HEAD ∨ p = PLACE_TAIL →
    ∃ tag, view (snd (Emit (mkEffect k (ordered_effect p [] id v)) tips c)) k =
      Some (mkReduced INSERT_OP ORDERED tag None ∅ [mkElement id v]);
  law_rekey k id v tips c r : healthy c → view c k = Some r → is_live (view c k) = true →
    re_Collection r ≠ ORDERED →
    ∃ e, view (snd (Emit (mkEffect k (keyed_insert id v)) tips c)) k =
      Some (mkReducedAt INSERT_OP KEYED (re_TypeTag r) (re_Scalar r) (<[id := v]> (re_NetAdds r)) []
              (re_ExpiresAt r) (partial_alter (λ _, e) id (re_FieldExpires r))) ∧
      (e = None ∨ e = re_FieldExpires r !! id);
  law_overwrite k v tips c : healthy c →
    ∃ tag, view (snd (Emit (mkEffect k (scalar_insert v)) tips c)) k =
      Some (mkReduced INSERT_OP SCALAR tag (Some v) ∅ []) ∧ former_tag (view c k) tag;
  law_add k n d tips c : healthy c → scalar_int Decompress (view c k) = Some n → is_i64 (n + d) →
    ∃ tag e, view (snd (Emit (mkEffect k (scalar_add d)) tips c)) k =
      Some (mkReducedAt INSERT_OP SCALAR tag (Some (IntVal (n + d))) ∅ [] e ∅) ∧
      (is_live (view c k) = true → re_TypeTag <$> view c k = Some tag) ∧
      (e = None ∨ is_live (view c k) = true ∧ re_ExpiresAt <$> view c k = Some e);
  law_add_new k id d tips c : healthy c → is_live (view c k) = false →
    ∃ tag, view (snd (Emit (mkEffect k (keyed_add id d)) tips c)) k =
      Some (mkReduced INSERT_OP KEYED tag None {[ id := IntVal d ]} []);
  law_add_element k id n d tips c r : healthy c → view c k = Some r → is_live (view c k) = true →
    re_Collection r ≠ ORDERED → element_int Decompress r id = Some n → is_i64 (n + d) →
    ∃ e, view (snd (Emit (mkEffect k (keyed_add id d)) tips c)) k =
      Some (mkReducedAt INSERT_OP KEYED (re_TypeTag r) (re_Scalar r)
              (<[id := IntVal (n + d)]> (re_NetAdds r)) [] (re_ExpiresAt r)
              (partial_alter (λ _, e) id (re_FieldExpires r))) ∧
      (e = None ∨ e = re_FieldExpires r !! id);
  law_add_float k id b d tips c r : healthy c → view c k = Some r → is_live (view c k) = true →
    re_Collection r ≠ ORDERED → re_NetAdds r !! id = Some (FloatVal b) → is_double d →
    ∃ e, view (snd (Emit (mkEffect k (keyed_add_float id d)) tips c)) k =
      Some (mkReducedAt INSERT_OP KEYED (re_TypeTag r) (re_Scalar r)
              (<[id := FloatVal (Float64bits (float_add (Float64frombits b) d))]> (re_NetAdds r)) []
              (re_ExpiresAt r) (partial_alter (λ _, e) id (re_FieldExpires r))) ∧
      (e = None ∨ e = re_FieldExpires r !! id);
  law_gets ks c : healthy c →
    ∃ c', GetSnapshots ks c =
        (Ok ((λ k, if is_live (view c k) then view c k else None) <$> ks), c') ∧
      healthy c' ∧ ∀ k', view c' k' = view c k';
  law_begin c : healthy c → healthy (BeginTx c) ∧ ∀ k, view (BeginTx c) k = view c k;
  law_raw b : Decompress (Raw b) = b
}.

(** ** The clock

    [HlcClock.Now] of the engine package, whose state is kept with the context
    here, and the id of this node.  Each reading is later than those before it,
    the engine's calls never set the clock back, and [room] readings are left
    before the nanoseconds leave their 63 bits. *)
Class Clock `{Engine} := {
  HlcClock_Now : Ctx → Z * Ctx;
  EffectsNodeID : Z
}.

Class ClockLaws `{EngineLaws} `{!Clock} := {
  clock : Ctx → Z;
  room : Ctx → nat;
  law_now c : healthy c → room c ≠ 0%nat →
    ∃ t c', HlcClock_Now c = (t, c') ∧ healthy c' ∧ (∀ k, view c' k = view c k) ∧
      0 <= t < 2 ^ 63 ∧ clock c < t <= clock c' ∧ (Nat.pred (room c) <= room c')%nat;
  law_clock_get k c : clock c <= clock (snd (GetSnapshot k c)) ∧
    (room c <= room (snd (GetSnapshot k c)))%nat;
  law_clock_emit e tips c : clock c <= clock (snd (Emit e tips c)) ∧
    (room c <= room (snd (Emit e tips c)))%nat;
  law_clock_begin c : clock c <= clock (BeginTx c) ∧ (room c <= room (BeginTx c))%nat
}.

(** ** Runners *)
Section Runner.
Context `{Engine}.

(** [st_held]: the key locks ([sync.Mutex], by identity) the goroutine holds. *)
Record St := mkSt { st_ctx : Ctx; st_w : Writer; st_held : list Z }.

(** A step of a runner goes on with a value, leaves the runner early, or
    panics (an index out of range, an impossible allocation), or blocks for
    ever on a mutex its own goroutine holds. *)
Inductive Outcome (A : Type) : Type :=
  | Next (a : A)
  | Return
  | Panic
  | Deadlock.
#[global] Arguments Next {A} a.
#[global] Arguments Return {A}.
#[global] Arguments Panic {A}.
#[global] Arguments Deadlock {A}.

Definition M (A : Type) : Type := St → Outcome A * St.

#[global] Instance M_ret : MRet M := λ A a st, (Next a, st).
#[global] Instance M_bind : MBind M := λ A B f m st,
  match m st with
  | (Next a, st') => f a st'
  | (Return, st') => (Return, st')
  | (Panic, st') => (Panic, st')
  | (Deadlock, st') => (Deadlock, st')
  end.

Definition write (f : Writer → Writer) : M unit := λ st, (Next tt, mkSt (st_ctx st) (f (st_w st)) (st_held st)).
Definition exit {A} : M A := λ st, (Return, st).
(** A pure computation that may panic. *)
Definition or_panic {A} (o : option A) : M A := λ st,
  match o with Some a => (Next a, st) | None => (Panic, st) end.
(** [w.WriteX(...); return]. *)
Definition reply (f : Writer → Writer) {A} : M A := write f ≫= λ _, exit.

(** [snap, tips, err := cmd.Context.GetSnapshot(key)], with the error
    written and the runner left. *)
Definition get_snapshot (k : bytes) : M (option ReducedEffect * list Tip) := λ st,
  match GetSnapshot k (st_ctx st) with
  | (Ok r, c) => (Next r, mkSt c (st_w st) (st_held st))
  | (Err e, c) => (Return, mkSt c (WriteError e (st_w st)) (st_held st))
  end.

(** [if err := cmd.Context.Emit(...); err != nil { w.WriteError(...); return }]. *)
Definition emit (e : Effect) (tips : list Tip) : M unit := λ st,
  match Emit e tips (st_ctx st) with
  | (None, c) => (Next tt, mkSt c (st_w st) (st_held st))
  | (Some e, c) => (Return, mkSt c (WriteError e (st_w st)) (st_held st))
  end.

Definition begin_tx : M unit := λ st, (Next tt, mkSt (BeginTx (st_ctx st)) (st_w st) (st_held st)).

(** [lock := cmd.Runtime.GetLock(key); lock.Lock(); defer lock.Unlock()]
    around [m]. *)
Definition with_lock (k : bytes) (m : M unit) : M unit := λ st,
  let l := GetLock k in
  if bool_decide (l ∈ st_held st) then (Deadlock, st)
  else let '(o, st') := m (mkSt (st_ctx st) (st_w st) (l :: st_held st)) in
       (o, mkSt (st_ctx st') (st_w st') (tail (st_held st'))).

Fixpoint for_each {A} (l : list A) (f : A → M unit) : M unit :=
  match l with
  | [] => mret tt
  | x :: l' => f x ≫= λ _, for_each l' f
  end.

Definition run (m : M unit) (st : St) : St := snd (m st).

(** What the [getXSnapshot] helpers of the modules return: the snapshot (nil for
    a missing key and for one of another type), its tips, whether the key
    exists and whether it is of another type. *)
Record KeySnap := mkKeySnap {
  ks_snap : option ReducedEffect;
  ks_tips : list Tip;
  ks_exists : bool;
  ks_wrongType : bool
}.

(** What the validation phase of a handler returns: a refusal with its error
    reply, or the keys and the runner; or it panics. *)
Inductive Prep : Type :=
  | Refuse (keys : list bytes) (r : Writer → Writer)
  | Accept (keys : list bytes) (runner : M unit)
  | Crash.

(** *** Steps that return their error

    [func() error] closures on the context: the first error ends them. *)
Definition Try (A : Type) : Type := Ctx → result bytes A * Ctx.

#[global] Instance Try_ret : MRet Try := λ A a c, (Ok a, c).
#[global] Instance Try_bind : MBind Try := λ A B f m c,
  match m c with
  | (Ok a, c') => f a c'
  | (Err e, c') => (Err e, c')
  end.

Definition try_get (k : bytes) : Try (option ReducedEffect * list Tip) := GetSnapshot k.
Definition try_emit (e : Effect) (tips : list Tip) : Try unit := λ c,
  match Emit e tips c with
  | (None, c') => (Ok tt, c')
  | (Some e, c') => (Err e, c')
  end.
Definition try_begin : Try unit := λ c, (Ok tt, BeginTx c).

Fixpoint try_each {A} (l : list A) (f : A → Try unit) : Try unit :=
  match l with
  | [] => mret tt
  | x :: l' => f x ≫= λ _, try_each l' f
  end.

(** [savepoint := TakeSavepoint()], the closure [m], and on its error
    [RestoreSavepoint(savepoint)] with the error as the reply. *)
Definition savepointed {A} (m : Try A) : M A := λ st,
  match m (st_ctx st) with
  | (Ok a, c) => (Next a, mkSt c (st_w st) (st_held st))
  | (Err e, c) =>
    (Return, mkSt (RestoreSavepoint (TakeSavepoint (st_ctx st)) c) (WriteError e (st_w st)) (st_held st))
  end.
End Runner.
Arguments M {_} _.
Arguments Try {_} _.

(** ** Reasoning about runners *)
Section RunnerFacts.
Context `{EngineLaws}.

(** [m], from a healthy state, returns [a] with the writer unchanged and the
    keys showing [v]. *)
Definition returns {A} (m : M A) (st : St) (a : A) (v : bytes → option ReducedEffect) : Prop :=
  ∃ c', m st = (Next a, mkSt c' (st_w st) (st_held st)) ∧ healthy c' ∧ ∀ k, view c' k = v k.

(** [m] ends without a panic, after whatever it did, with writer [w] and view [v]. *)
Definition ends {A} (m : M A) (st : St) (w : Writer) (v : bytes → option ReducedEffect) : Prop :=
  fst (m st) ≠ Panic ∧ fst (m st) ≠ Deadlock ∧ st_held (snd (m st)) = st_held st ∧
  healthy (st_ctx (snd (m st))) ∧ st_w (snd (m st)) = w ∧
  ∀ k, view (st_ctx (snd (m st))) k = v k.

Lemma returns_get k st :
  healthy (st_ctx st) →
  ∃ tips, returns (get_snapshot k) st (view (st_ctx st) k, tips) (view (st_ctx st)).
Proof.
  intros Hh. destruct (law_get k _ Hh) as (tips & c' & E & Hh' & Hv).
  exists tips, c'. unfold get_snapshot. by rewrite E.
Qed.

Lemma returns_emit e tips st r :
  healthy (st_ctx st) → reduce (view (st_ctx st) (ef_Key e)) (ef_Kind e) = Some r →
  returns (emit e tips) st tt
    (λ k, if decide (k = ef_Key e) then r else view (st_ctx st) k).
Proof.
  intros Hh Hr. destruct (law_emit e tips _ Hh) as (c' & E & Hh' & Hne & Heq).
  exists c'. unfold emit. rewrite E. split; [done|split; [done|]]. intros k.
  case_decide; subst; auto.
Qed.

Lemma ends_bind {A B} (m : M A) (f : A → M B) st a v w v' :
  returns m st a v →
  (∀ c', healthy c' → (∀ k, view c' k = v k) → ends (f a) (mkSt c' (st_w st) (st_held st)) w v') →
  ends (m ≫= f) st w v'.
Proof.
  intros (c' & E & Hh & Hv) Hf. unfold ends, mbind, M_bind. rewrite E. by apply Hf.
Qed.

Lemma returns_bind {A B} (m : M A) (f : A → M B) st a b v v' :
  returns m st a v →
  (∀ c', healthy c' → (∀ k, view c' k = v k) → returns (f a) (mkSt c' (st_w st) (st_held st)) b v') →
  returns (m ≫= f) st b v'.
Proof.
  intros (c' & E & Hh & Hv) Hf. destruct (Hf c' Hh Hv) as (c'' & E' & ? & ?).
  exists c''. unfold mbind, M_bind. rewrite E. by rewrite E'.
Qed.

Lemma returns_ret {A} (a : A) st v :
  healthy (st_ctx st) → (∀ k, view (st_ctx st) k = v k) → returns (mret a) st a v.
Proof. intros Hh Hv. exists (st_ctx st). by destruct st. Qed.

(** Steps that leave the state alone. *)
Lemma ends_ret_bind {A B} (a : A) (f : A → M B) st w v :
  ends (f a) st w v → ends (mret a ≫= f) st w v.
Proof. done. Qed.

Lemma ends_or_panic {A B} (o : option A) a (f : A → M B) st w v :
  o = Some a → ends (f a) st w v → ends (or_panic o ≫= f) st w v.
Proof. by intros ->. Qed.

Lemma returns_or_panic {A B} (o : option A) a (f : A → M B) st b v :
  o = Some a → returns (f a) st b v → returns (or_panic o ≫= f) st b v.
Proof. by intros ->. Qed.

Lemma ends_write_bind {B} g (f : unit → M B) st w v :
  ends (f tt) (mkSt (st_ctx st) (g (st_w st)) (st_held st)) w v → ends (write g ≫= f) st w v.
Proof. done. Qed.

Lemma ends_with_lock k m st w v :
  GetLock k ∉ st_held st →
  ends m (mkSt (st_ctx st) (st_w st) (GetLock k :: st_held st)) w v →
  ends (with_lock k m) st w v.
Proof.
  intros Hl (Hp & Hd & Hh & Hc & Hw & Hv). unfold ends, with_lock in *.
  rewrite bool_decide_eq_false_2 by done. destruct (m _) as [o st']. cbn in *.
  by rewrite Hh.
Qed.

Lemma ends_reply {A} f st w v :
  healthy (st_ctx st) → f (st_w st) = w → (∀ k, view (st_ctx st) k = v k) →
  ends (reply f (A := A)) st w v.
Proof. by intros ? <- ?. Qed.

Lemma ends_write f st w v :
  healthy (st_ctx st) → f (st_w st) = w → (∀ k, view (st_ctx st) k = v k) →
  ends (write f) st w v.
Proof. by intros ? <- ?. Qed.
End RunnerFacts.

(** ** A reference engine

    Keys in a finite map, effects reduced as stated above, a counter for the
    clock: the laws have a model. *)
Module RefEngine.
Definition ref_decompress (v : Value) : bytes := match v with Raw b | Compressed b => b | _ => [] end.

Abbreviation Keys := (gmap bytes ReducedEffect).

(** The unspecified cases: a deletion removes the key, an element starts a
    collection where nothing lives, an element written again loses its expiry,
    a scalar write replaces everything, a delta adds to a stored integer (an
    element's expiry stays), the bytes of a scalar are merged by their maximum,
    a tag on a key that does not live is kept for its first write, and anything
    else changes nothing. *)
Definition ref_add (before : option ReducedEffect) (d : Z) : option ReducedEffect :=
  match scalar_int ref_decompress before with
  | Some n =>
    let '(tag, e) := match before with
                     | Some r => if is_live before then (re_TypeTag r, re_ExpiresAt r)
                                 else (TYPE_UNSPECIFIED, None)
                     | None => (TYPE_UNSPECIFIED, None)
                     end in
    Some (mkReducedAt INSERT_OP SCALAR tag (Some (IntVal (n + d))) ∅ [] e ∅)
  | None => before
  end.

Definition ref_add_element (before : option ReducedEffect) (id : bytes) (d : Z) : option ReducedEffect :=
  match before with
  | Some r =>
    if is_live before then
      match re_Collection r, element_int ref_decompress r id with
      | ORDERED, _ | _, None => before
      | _, Some n => Some (mkReducedAt INSERT_OP KEYED (re_TypeTag r) (re_Scalar r)
          (<[id := IntVal (n + d)]> (re_NetAdds r)) [] (re_ExpiresAt r) (re_FieldExpires r))
      end
    else Some (mkReduced INSERT_OP KEYED TYPE_UNSPECIFIED None {[ id := IntVal d ]} [])
  | None => Some (mkReduced INSERT_OP KEYED TYPE_UNSPECIFIED None {[ id := IntVal d ]} [])
  end.

Definition ref_add_float (before : option ReducedEffect) (id : bytes) (bits : Z) : option ReducedEffect :=
  match before with
  | Some r =>
    match re_Collection r, re_NetAdds r !! id with
    | ORDERED, _ => before
    | _, Some (FloatVal b) => Some (mkReducedAt INSERT_OP KEYED (re_TypeTag r) (re_Scalar r)
        (<[id := FloatVal (Float64bits (float_add (Float64frombits b) (Float64frombits bits)))]> (re_NetAdds r)) []
        (re_ExpiresAt r) (re_FieldExpires r))
    | _, _ => before
    end
  | None => None
  end.

(** [MergeRule_MAX_BYTES]: the larger byte at every place. *)
Definition ref_max (before : option ReducedEffect) (v : Value) : option ReducedEffect :=
  match before with
  | Some r =>
    match is_live before, re_Scalar r with
    | true, Some old => Some (mkReducedAt INSERT_OP SCALAR (re_TypeTag r)
        (Some (Raw (zip_with Z.max (ref_decompress old) (ref_decompress v)))) ∅ [] (re_ExpiresAt r) ∅)
    | _, _ => Some (mkReduced INSERT_OP SCALAR (re_TypeTag r) (Some v) ∅ [])
    end
  | None => Some (mkReduced INSERT_OP SCALAR TYPE_UNSPECIFIED (Some v) ∅ [])
  end.

Definition ref_reduce (before : option ReducedEffect) (k : EffectKind) : option ReducedEffect :=
  match reduce before k with
  | Some r => r
  | None =>
    match k with
    | Effect_Data d =>
      match de_Collection d, de_Op d, de_Merge d, de_Value d with
      | SCALAR, REMOVE_OP, _, _ => None
      | SCALAR, INSERT_OP, LAST_WRITE_WINS, Some v =>
        Some (mkReduced INSERT_OP SCALAR TYPE_UNSPECIFIED (Some v) ∅ [])
      | SCALAR, INSERT_OP, ADDITIVE_INT, Some (IntVal n) => ref_add before n
      | SCALAR, INSERT_OP, MAX_BYTES, Some v => ref_max before v
      | KEYED, INSERT_OP, ADDITIVE_INT, Some (IntVal n) => ref_add_element before (de_Id d) n
      | KEYED, INSERT_OP, ADDITIVE_FLOAT, Some (FloatVal b) => ref_add_float before (de_Id d) b
      | KEYED, INSERT_OP, _, Some v =>
        match before with
        | Some r =>
          if negb (is_live before)
          then Some (mkReduced INSERT_OP KEYED TYPE_UNSPECIFIED None {[ de_Id d := v ]} [])
          else match re_Collection r with
          | ORDERED => before
          | _ => Some (mkReducedAt INSERT_OP KEYED (re_TypeTag r) (re_Scalar r)
              (<[de_Id d := v]> (re_NetAdds r)) [] (re_ExpiresAt r) (delete (de_Id d) (re_FieldExpires r)))
          end
        | None => Some (mkReduced INSERT_OP KEYED TYPE_UNSPECIFIED None {[ de_Id d := v ]} [])
        end
      | ORDERED, INSERT_OP, _, Some v =>
        if is_live before then before
        else Some (mkReduced INSERT_OP ORDERED TYPE_UNSPECIFIED None ∅ [mkElement (de_Id d) v])
      | ORDERED, REMOVE_OP, _, _ =>
        match before with
        | Some r =>
          if is_live before && bool_decide (re_Collection r = ORDERED)
          then Some (mkReducedAt INSERT_OP ORDERED (re_TypeTag r) None ∅
                 (filter (λ e, el_Id e ≠ de_Id d) (re_OrderedElements r)) (re_ExpiresAt r) ∅)
          else before
        | None => None
        end
      | _, _, _, _ => before
      end
    | Effect_Meta m =>
      match before with
      | None => Some (mkReduced REMOVE_OP SCALAR (me_TypeTag m) None ∅ [])
      | Some _ => before
      end
    | Effect_Noop => before
    end
  end.

Definition ref_emit (e : Effect) (_ : list unit) (c : Keys * Z) : option bytes * (Keys * Z) :=
  (None, (partial_alter (λ _, ref_reduce (c.1 !! ef_Key e) (ef_Kind e)) (ef_Key e) c.1, c.2)).

Lemma ref_emit_spec (e : Effect) (tips : list unit) (c : Keys * Z) :
  ∃ c', ref_emit e tips c = (None, c') ∧ True ∧
    (∀ k, k ≠ ef_Key e → c'.1 !! k = c.1 !! k) ∧
    (∀ r, reduce (c.1 !! ef_Key e) (ef_Kind e) = Some r → c'.1 !! ef_Key e = r).
Proof.
  unfold ref_emit. eexists. split_and!; [done|done|..].
  - intros k Hk. simpl. by rewrite lookup_partial_alter_ne.
  - intros r Hr. simpl. rewrite lookup_partial_alter_eq. unfold ref_reduce. by rewrite Hr.
Qed.

Lemma ref_revive (k id : bytes) (v : Value) (c : Keys) : is_live (c !! k) = false →
  ∃ tag, ref_reduce (c !! k) (keyed_insert id v) =
    Some (mkReduced INSERT_OP KEYED tag None {[ id := v ]} []).
Proof.
  intros Hl. unfold ref_reduce, keyed_insert. destruct (c !! k) as [r|]; simpl in *; [|eauto].
  rewrite Hl. simpl. eauto.
Qed.

Lemma ref_revive_ordered (k id : bytes) (v : Value) (p : Placement) (c : Keys) :
  is_live (c !! k) = false → p = PLACE_HEAD ∨ p = PLACE_TAIL →
  ∃ tag, ref_reduce (c !! k) (ordered_effect p [] id v) =
    Some (mkReduced INSERT_OP ORDERED tag None ∅ [mkElement id v]).
Proof.
  intros Hl Hp. unfold ref_reduce, ordered_effect. destruct (c !! k) as [r|]; simpl in *.
  - rewrite Hl. simpl. eauto.
  - destruct Hp as [-> | ->]; simpl; eauto.
Qed.

Lemma ref_rekey (k id : bytes) (v : Value) (c : Keys) r :
  c !! k = Some r → is_live (c !! k) = true → re_Collection r ≠ ORDERED →
  ∃ e, ref_reduce (c !! k) (keyed_insert id v) =
    Some (mkReducedAt INSERT_OP KEYED (re_TypeTag r) (re_Scalar r) (<[id := v]> (re_NetAdds r)) []
            (re_ExpiresAt r) (partial_alter (λ _, e) id (re_FieldExpires r))) ∧
    (e = None ∨ e = re_FieldExpires r !! id).
Proof.
  intros Hr Hl Hc. rewrite Hr in *. exists None. unfold ref_reduce, keyed_insert, reduce.
  cbn [de_Collection de_Op de_Merge de_Value de_Id]. rewrite Hl. cbn.
  destruct (re_FieldExpires r !! id) eqn:E, (re_Collection r); try done; cbn; rewrite ?Hl; cbn; try by auto.
  all: split; [|by auto]; do 2 f_equal; symmetry; change (delete id (re_FieldExpires r) = re_FieldExpires r); by apply delete_id.
Qed.

Lemma ref_overwrite (k : bytes) (v : Value) (c : Keys) :
  ∃ tag, ref_reduce (c !! k) (scalar_insert v) =
    Some (mkReduced INSERT_OP SCALAR tag (Some v) ∅ []) ∧ former_tag (c !! k) tag.
Proof.
  unfold ref_reduce, scalar_insert, former_tag. destruct (c !! k) as [r|]; cbn; [|by eauto].
  destruct (re_Collection r) eqn:Hc; cbn; eexists; (split; [reflexivity|auto]).
Qed.

Lemma ref_added (k : bytes) (n d : Z) (c : Keys) :
  scalar_int ref_decompress (c !! k) = Some n →
  ∃ tag e, ref_reduce (c !! k) (scalar_add d) =
    Some (mkReducedAt INSERT_OP SCALAR tag (Some (IntVal (n + d))) ∅ [] e ∅) ∧
    (is_live (c !! k) = true → re_TypeTag <$> c !! k = Some tag) ∧
    (e = None ∨ is_live (c !! k) = true ∧ re_ExpiresAt <$> c !! k = Some e).
Proof.
  intros Hn. unfold ref_reduce, scalar_add, ref_add. cbn.
  destruct (c !! k) as [r|]; rewrite Hn; cbn; [|by eexists _, _; split_and!; [reflexivity|done|left]].
  destruct (bool_decide (re_Op r = INSERT_OP)); cbn; eexists _, _; (split_and!; [reflexivity|done|auto]).
Qed.

Lemma ref_added_new (k id : bytes) (d : Z) (c : Keys) : is_live (c !! k) = false →
  ∃ tag, ref_reduce (c !! k) (keyed_add id d) = Some (mkReduced INSERT_OP KEYED tag None {[ id := IntVal d ]} []).
Proof.
  intros Hl. unfold ref_reduce, keyed_add, ref_add_element. destruct (c !! k) as [r|]; cbn [reduce de_Collection de_Op de_Merge de_Value de_Id]; [|by eauto].
  rewrite Hl. eauto.
Qed.

Lemma ref_added_element (k id : bytes) (n d : Z) (c : Keys) r :
  c !! k = Some r → is_live (c !! k) = true → re_Collection r ≠ ORDERED →
  element_int ref_decompress r id = Some n →
  ∃ e, ref_reduce (c !! k) (keyed_add id d) =
    Some (mkReducedAt INSERT_OP KEYED (re_TypeTag r) (re_Scalar r) (<[id := IntVal (n + d)]> (re_NetAdds r)) []
            (re_ExpiresAt r) (partial_alter (λ _, e) id (re_FieldExpires r))) ∧
    (e = None ∨ e = re_FieldExpires r !! id).
Proof.
  intros Hr Hl Hc Hn. rewrite Hr in *. exists (re_FieldExpires r !! id).
  unfold ref_reduce, keyed_add, ref_add_element. cbn [reduce de_Collection de_Op de_Merge de_Value de_Id].
  rewrite Hl, Hn, partial_alter_self. split; [|by auto]. by destruct (re_Collection r).
Qed.

Lemma ref_added_float (k id : bytes) (b : Z) (d : spec_float) (c : Keys) r :
  c !! k = Some r → re_Collection r ≠ ORDERED → re_NetAdds r !! id = Some (FloatVal b) → is_double d →
  ∃ e, ref_reduce (c !! k) (keyed_add_float id d) =
    Some (mkReducedAt INSERT_OP KEYED (re_TypeTag r) (re_Scalar r)
            (<[id := FloatVal (Float64bits (float_add (Float64frombits b) d))]> (re_NetAdds r)) []
            (re_ExpiresAt r) (partial_alter (λ _, e) id (re_FieldExpires r))) ∧
    (e = None ∨ e = re_FieldExpires r !! id).
Proof.
  intros Hr Hc Hb Hd. rewrite Hr. exists (re_FieldExpires r !! id).
  unfold ref_reduce, keyed_add_float, ref_add_float. cbn [reduce de_Collection de_Op de_Merge de_Value de_Id].
  rewrite Hb, partial_alter_self, (Float64bits_roundtrip d Hd). split; [|by auto]. by destruct (re_Collection r).
Qed.

#[global] Instance ref_engine : Engine := {|
  Ctx := Keys * Z;
  Tip := unit;
  GetSnapshot := λ k c, (Ok (c.1 !! k, []), c);
  Emit := ref_emit;
  GetSnapshots := λ ks c, (Ok ((λ k, if is_live (c.1 !! k) then c.1 !! k else None) <$> ks), c);
  BeginTx := id;
  Savepoint := Keys * Z;
  TakeSavepoint := id;
  RestoreSavepoint := λ sp _, sp;
  GetMerge := λ _, LAST_WRITE_WINS;
  Decompress := ref_decompress;
  GetLock := λ k, len k
|}.

(** The context that holds the keys of [m], its clock not yet read. *)
Definition holding (m : Keys) : Ctx := (m, -1).

#[global] Program Instance ref_laws : EngineLaws := {|
  healthy := λ _, True;
  view := λ (c : Keys * Z) k, c.1 !! k
|}.
Next Obligation. intros k c _. by exists [], c. Qed.
Next Obligation. intros e tips c _. apply ref_emit_spec. Qed.
Next Obligation. intros k tips c _. simpl. by rewrite lookup_partial_alter_eq. Qed.
Next Obligation. intros k id v tips c _ Hl. simpl. rewrite lookup_partial_alter_eq. by apply ref_revive. Qed.
Next Obligation.
  intros k p id v tips c _ Hl Hp. simpl. rewrite lookup_partial_alter_eq. by apply ref_revive_ordered.
Qed.
Next Obligation.
  intros k id v tips c r _ Hr Hl Hc. simpl. rewrite lookup_partial_alter_eq. by apply ref_rekey.
Qed.
Next Obligation. intros k v tips c _. simpl. rewrite lookup_partial_alter_eq. apply ref_overwrite. Qed.
Next Obligation.
  intros k n d tips c _ Hn _. simpl. rewrite lookup_partial_alter_eq. by apply ref_added.
Qed.
Next Obligation. intros k id d tips c _ Hl. simpl. rewrite lookup_partial_alter_eq. by apply ref_added_new. Qed.
Next Obligation.
  intros k id n d tips c r _ Hr Hl Hc Hn _. simpl. rewrite lookup_partial_alter_eq. by apply ref_added_element.
Qed.
Next Obligation.
  intros k id b d tips c r _ Hr Hl Hc Hb Hd. cbv beta in Hr. unfold Emit, ref_engine, ref_emit. cbn [snd fst ef_Key ef_Kind].
  rewrite lookup_partial_alter_eq. exact (ref_added_float k id b d c.1 r Hr Hc Hb Hd).
Qed.
Next Obligation. intros ks c _. by exists c. Qed.
Next Obligation. done. Qed.
Next Obligation. done. Qed.

(** Node 7; the clock starts no earlier than zero and counts nanoseconds. *)
Definition ref_now (c : Keys * Z) : Z * (Keys * Z) :=
  (Z.max 0 (c.2 + 1), (c.1, Z.max 0 (c.2 + 1))).
#[global] Instance ref_clock : @Clock ref_engine :=
  @Build_Clock ref_engine ref_now 7.

#[global] Program Instance ref_clock_laws : @ClockLaws ref_engine ref_laws ref_clock := {|
  clock := λ c : Keys * Z, c.2;
  room := λ c : Keys * Z, Z.to_nat (2 ^ 63 - 1 - Z.max (-1) c.2)
|}.
Next Obligation.
  intros c _ Hr. cbv beta in Hr. eexists _, _. split; [reflexivity|]. destruct c as [m n]. cbn [fst snd] in *.
  split_and!; [done|done|lia..].
Qed.
Next Obligation. simpl. lia. Qed.
Next Obligation. simpl. lia. Qed.
Next Obligation. simpl. lia. Qed.
End RefEngine.
