(* ===== verification/Runs.v ===== *)
(** * Steps and runs of a command's runner

    How the runner of a command is followed through the engine: a step that
    yields a value and leaves the context in a known state, a run that ends
    with a known reply, and the calls every command makes.  The components'
    files build on these for their own kinds of key. *)

From S2P Require Import Prelude GoBytes Writer Engine.

Local Open Scope Z_scope.

Lemma is_live_remove r : is_live (Some r) = negb (bool_decide (re_Op r = REMOVE_OP)).
Proof. simpl. by destruct (re_Op r). Qed.

(** The elements of a reply, one bulk string each. *)
Definition bulks (ms : list bytes) (w : Writer) : Writer := foldl (λ w m, WriteBulkString m w) w ms.

(** ** Steps and runs *)
Section Runs.
Context `{EngineLaws}.

(** [m] returns [a], writes nothing, and leaves a context satisfying [P]. *)
Definition steps {A} (m : M A) (st : St) (a : A) (P : Ctx → Prop) : Prop :=
  ∃ c', m st = (Next a, mkSt c' (st_w st) (st_held st)) ∧ healthy c' ∧ P c'.

(** [m] ends, early or not, having written [w]. *)
Definition finishes (m : M unit) (st : St) (w : Writer) (P : Ctx → Prop) : Prop :=
  ∃ o c', m st = (o, mkSt c' w (st_held st)) ∧ (o = Next tt ∨ o = Return) ∧ healthy c' ∧ P c'.

Lemma finishes_bind {A} (m : M A) (f : A → M unit) st a P w Q :
  steps m st a P →
  (∀ c', healthy c' → P c' → finishes (f a) (mkSt c' (st_w st) (st_held st)) w Q) →
  finishes (m ≫= f) st w Q.
Proof.
  intros (c' & E & Hh & HP) Hf. unfold finishes, mbind, M_bind. rewrite E. by apply Hf.
Qed.

Lemma steps_bind {A B} (m : M A) (f : A → M B) st a P b Q :
  steps m st a P →
  (∀ c', healthy c' → P c' → steps (f a) (mkSt c' (st_w st) (st_held st)) b Q) →
  steps (m ≫= f) st b Q.
Proof.
  intros (c' & E & Hh & HP) Hf. unfold steps, mbind, M_bind. rewrite E. by apply Hf.
Qed.

Lemma steps_weaken {A} (m : M A) st a (P Q : Ctx → Prop) :
  steps m st a P → (∀ c', P c' → Q c') → steps m st a Q.
Proof. intros (c' & E & Hh & HP) HQ. exists c'. auto. Qed.

Lemma steps_ret {A} (a : A) st (P : Ctx → Prop) :
  healthy (st_ctx st) → P (st_ctx st) → steps (mret a) st a P.
Proof. intros Hh HP. exists (st_ctx st). by destruct st. Qed.

Lemma finishes_write f st w (P : Ctx → Prop) :
  healthy (st_ctx st) → f (st_w st) = w → P (st_ctx st) → finishes (write f) st w P.
Proof. intros Hh <- HP. eexists _, _. split; [reflexivity|]. auto. Qed.

Lemma finishes_reply f st w (P : Ctx → Prop) :
  healthy (st_ctx st) → f (st_w st) = w → P (st_ctx st) → finishes (reply f) st w P.
Proof. intros Hh <- HP. eexists _, _. split; [reflexivity|]. auto. Qed.

Lemma finishes_write_bind g f st w P :
  finishes (f tt) (mkSt (st_ctx st) (g (st_w st)) (st_held st)) w P → finishes (write g ≫= f) st w P.
Proof. done. Qed.

(** A step that is the first of several. *)
Lemma finishes_bind_bind {A B} (m : M A) (f : A → M B) (g : B → M unit) st a P w Q :
  steps m st a P →
  (∀ c', healthy c' → P c' → finishes (f a ≫= g) (mkSt c' (st_w st) (st_held st)) w Q) →
  finishes ((m ≫= f) ≫= g) st w Q.
Proof. intros (c' & E & Hh & HP) Hf. unfold finishes, mbind, M_bind. rewrite E. by apply Hf. Qed.

(** A step followed by a write, and one that writes first. *)
Lemma finishes_step_write {A} (m : M A) g (f : unit → M unit) st a P w Q :
  steps m st a P →
  (∀ c', healthy c' → P c' → finishes (f tt) (mkSt c' (g (st_w st)) (st_held st)) w Q) →
  finishes ((m ≫= λ _, write g) ≫= f) st w Q.
Proof.
  intros (c' & E & Hh & HP) Hf. unfold finishes, mbind, M_bind. rewrite E. by apply Hf.
Qed.

Lemma finishes_write_step {A} g (m : M A) (f : A → M unit) st w P :
  finishes (m ≫= f) (mkSt (st_ctx st) (g (st_w st)) (st_held st)) w P →
  finishes ((write g ≫= λ _, m) ≫= f) st w P.
Proof. done. Qed.

Lemma finishes_or_panic {A} (o : option A) a f st w P :
  o = Some a → finishes (f a) st w P → finishes (or_panic o ≫= f) st w P.
Proof. by intros ->. Qed.

(** Writing the elements of a list, one reply each. *)
Lemma finishes_for_each_write {A} (g : A → Writer → Writer) l st (P : Ctx → Prop) :
  healthy (st_ctx st) → P (st_ctx st) →
  finishes (for_each l (λ x, write (g x))) st (foldl (λ w x, g x w) (st_w st) l) P.
Proof.
  revert st. induction l as [|x l IH]; intros st Hh HP.
  - exists (Next tt), (st_ctx st). destruct st. by auto.
  - cbn [for_each foldl]. apply finishes_write_bind. by apply (IH (mkSt _ _ _)).
Qed.

(** The context shows the same keys as [c]. *)
Definition same (c c' : Ctx) : Prop := ∀ k, view c' k = view c k.

Lemma same_trans c c' c'' : same c c' → same c' c'' → same c c''.
Proof. intros H1' H2' k. by rewrite H2', H1'. Qed.

Lemma steps_noop key tips st : healthy (st_ctx st) →
  steps (emit (mkEffect key Effect_Noop) tips) st tt (same (st_ctx st)).
Proof.
  intros Hh. unfold emit.
  destruct (law_emit (mkEffect key Effect_Noop) tips _ Hh) as (c' & E & Hh' & Hne & Hr).
  exists c'. rewrite E. split_and!; [done|done|]. intros k. destruct (decide (k = key)) as [->|]; [|auto].
  by apply (Hr _ eq_refl).
Qed.

Lemma steps_begin st : healthy (st_ctx st) → steps begin_tx st tt (same (st_ctx st)).
Proof. intros Hh. destruct (law_begin _ Hh) as [Hb Hv]. by exists (BeginTx (st_ctx st)). Qed.

(** The context shows the same as [c] but for [key]. *)
Definition others (c : Ctx) (key : bytes) (c' : Ctx) : Prop := ∀ k, k ≠ key → view c' k = view c k.

Lemma others_same c key c' : same c c' → others c key c'.
Proof. intros Hs k _. apply Hs. Qed.

Lemma others_trans c key c' c'' : others c key c' → others c' key c'' → others c key c''.
Proof. intros Ho Ho' k Hk. rewrite Ho', Ho by done. done. Qed.

Lemma steps_get key st : healthy (st_ctx st) →
  ∃ tips, steps (get_snapshot key) st (view (st_ctx st) key, tips) (same (st_ctx st)).
Proof.
  intros Hh. destruct (law_get key _ Hh) as (tips & c' & E & Hh' & Hv).
  exists tips, c'. unfold get_snapshot. rewrite E. by split_and!.
Qed.

(** One effect: what it makes of its key, and the other keys unchanged. *)
Lemma steps_emit key kind tips st : healthy (st_ctx st) →
  steps (emit (mkEffect key kind) tips) st tt (λ c',
    view c' key = view (snd (Emit (mkEffect key kind) tips (st_ctx st))) key ∧ others (st_ctx st) key c').
Proof.
  intros Hh. unfold emit. destruct (law_emit (mkEffect key kind) tips _ Hh) as (c' & E & Hh' & Hne & _).
  exists c'. rewrite E. by split_and!.
Qed.

Lemma steps_reduce key kind tips st r : healthy (st_ctx st) →
  reduce (view (st_ctx st) key) kind = Some r →
  steps (emit (mkEffect key kind) tips) st tt (λ c', view c' key = r ∧ others (st_ctx st) key c').
Proof.
  intros Hh Hred. unfold emit. destruct (law_emit (mkEffect key kind) tips _ Hh) as (c' & E & Hh' & Hne & Hr).
  exists c'. rewrite E. split_and!; [done|done|by apply Hr|done].
Qed.

Lemma finishes_exit st w (P : Ctx → Prop) : healthy (st_ctx st) → st_w st = w → P (st_ctx st) →
  finishes exit st w P.
Proof. intros Hh <- HP. exists Return, (st_ctx st). destruct st. by auto. Qed.

Lemma finishes_ret st w (P : Ctx → Prop) : healthy (st_ctx st) → st_w st = w → P (st_ctx st) →
  finishes (mret tt) st w P.
Proof. intros Hh <- HP. exists (Next tt), (st_ctx st). destruct st. by auto. Qed.

Lemma finishes_weaken m st w (P Q : Ctx → Prop) :
  finishes m st w P → (∀ c', P c' → Q c') → finishes m st w Q.
Proof. intros (o & c' & E & Ho & Hh & HP) HQ. exists o, c'. auto. Qed.

(** A step that leaves early ends the run. *)
Lemma finishes_exit_bind {A} (f : A → M unit) st w (P : Ctx → Prop) :
  healthy (st_ctx st) → st_w st = w → P (st_ctx st) → finishes (exit ≫= f) st w P.
Proof. intros Hh <- HP. exists Return, (st_ctx st). destruct st. by auto. Qed.

Lemma finishes_reply_bind {A} g (f : A → M unit) st w (P : Ctx → Prop) :
  healthy (st_ctx st) → g (st_w st) = w → P (st_ctx st) → finishes (reply g ≫= f) st w P.
Proof. intros Hh <- HP. eexists _, _. split; [reflexivity|]. auto. Qed.

Lemma finishes_ret_bind {A} (a : A) (f : A → M unit) st w P :
  finishes (f a) st w P → finishes (mret a ≫= f) st w P.
Proof. done. Qed.

(** ** Closures that return their error *)

(** [m] succeeds with [a] and leaves a context satisfying [P]. *)
Definition tries {A} (m : Try A) (c : Ctx) (a : A) (P : Ctx → Prop) : Prop :=
  ∃ c', m c = (Ok a, c') ∧ healthy c' ∧ P c'.

Lemma tries_bind {A B} (m : Try A) (f : A → Try B) c a P b Q :
  tries m c a P → (∀ c', healthy c' → P c' → tries (f a) c' b Q) → tries (m ≫= f) c b Q.
Proof. intros (c' & E & Hh & HP) Hf. unfold tries, mbind, Try_bind. rewrite E. by apply Hf. Qed.

Lemma tries_weaken {A} (m : Try A) c a (P Q : Ctx → Prop) :
  tries m c a P → (∀ c', healthy c' → P c' → Q c') → tries m c a Q.
Proof. intros (c' & E & Hh & HP) HQ. exists c'. auto. Qed.

Lemma tries_ret {A} (a : A) c (P : Ctx → Prop) : healthy c → P c → tries (mret a) c a P.
Proof. intros Hh HP. by exists c. Qed.

Lemma tries_get key c : healthy c → ∃ tips, tries (try_get key) c (view c key, tips) (same c).
Proof. intros Hh. destruct (law_get key _ Hh) as (tips & c' & E & Hh' & Hv). by exists tips, c'. Qed.

Lemma tries_emit key kind tips c : healthy c →
  tries (try_emit (mkEffect key kind) tips) c tt (λ c',
    view c' key = view (snd (Emit (mkEffect key kind) tips c)) key ∧ others c key c').
Proof.
  intros Hh. destruct (law_emit (mkEffect key kind) tips _ Hh) as (c' & E & Hh' & Hne & _).
  exists c'. unfold try_emit. rewrite E. by split_and!.
Qed.

Lemma tries_reduce key kind tips c r : healthy c → reduce (view c key) kind = Some r →
  tries (try_emit (mkEffect key kind) tips) c tt (λ c', view c' key = r ∧ others c key c').
Proof.
  intros Hh Hred. destruct (law_emit (mkEffect key kind) tips _ Hh) as (c' & E & Hh' & Hne & Hr).
  exists c'. unfold try_emit. rewrite E. split_and!; [done|done|by apply Hr|done].
Qed.

Lemma tries_noop key tips c : healthy c → tries (try_emit (mkEffect key Effect_Noop) tips) c tt (same c).
Proof.
  intros Hh. eapply tries_weaken; [by apply tries_reduce|]. cbv beta. intros c' _ [Hv Ho] k.
  destruct (decide (k = key)) as [->|]; auto.
Qed.

Lemma tries_begin c : healthy c → tries try_begin c tt (same c).
Proof. intros Hh. destruct (law_begin _ Hh) as [Hb Hv]. by exists (BeginTx c). Qed.

(** A loop that keeps an invariant. *)
Lemma tries_each {A} (l : list A) (f : A → Try unit) c (P : Ctx → Prop) : healthy c → P c →
  (∀ x c, x ∈ l → healthy c → P c → tries (f x) c tt P) → tries (try_each l f) c tt P.
Proof.
  revert c. induction l as [|x l IH]; intros c Hh HP Hf; [by apply tries_ret|].
  cbn [try_each]. eapply tries_bind; [apply Hf; [set_solver|done|done]|]. cbv beta. intros c' Hh' HP'.
  apply IH; [done..|]. intros y c2 Hy. apply Hf. set_solver.
Qed.

Lemma finishes_savepointed {A} (m : Try A) (f : A → M unit) st a P w Q :
  tries m (st_ctx st) a P →
  (∀ c', healthy c' → P c' → finishes (f a) (mkSt c' (st_w st) (st_held st)) w Q) →
  finishes (savepointed m ≫= f) st w Q.
Proof.
  intros (c' & E & Hh & HP) Hf. unfold finishes, mbind, M_bind, savepointed. rewrite E. by apply Hf.
Qed.

End Runs.
