(* ===== verification/Bitmap.v ===== *)
(** * Bitmaps

    src/redis/bitmap/core.go: bit commands over a key that is either a plain
    string (SCALAR) or a set of bit overlays (KEYED, one element per bit
    offset), possibly on top of a string.  Commands are split as in the
    source: a validation phase that parses the arguments, and a runner. *)

From S2P Require Import Prelude GoBytes Strconv Writer Engine.

Local Open Scope Z_scope.

(** ** Bits and bytes *)

(** [data[i]]: [None] is the runtime panic of an index out of range. *)
Definition go_index (data : bytes) (i : Z) : option Z :=
  if i <? 0 then None else data !! Z.to_nat i.

Definition getScalarBit (data : bytes) (offset : Z) : Z :=
  let byteIndex := Z.quot offset 8 in
  let bitIndex := 7 - Z.rem offset 8 in
  if len data <=? byteIndex then 0
  else Z.land (Z.shiftr (default 0 (go_index data byteIndex)) bitIndex) 1.

(** [make([]byte, n)]: a runtime panic outside the allocator's address space
    (2^48 bytes); running out of memory below that is not modelled. *)
Definition maxAlloc : Z := 2 ^ 48.
Definition go_make (n : Z) : option bytes :=
  if (0 <=? n) && (n <=? maxAlloc) then Some (replicate (Z.to_nat n) 0) else None.

(** [data[i] = f(data[i])]. *)
Definition go_update (f : Z → Z) (i : Z) (data : bytes) : option bytes :=
  if (0 <=? i) && (i <? len data) then Some (alter f (Z.to_nat i) data) else None.

(** A longer array with the old contents copied to the front, if needed. *)
Definition grow (needed : Z) (data : bytes) : option bytes :=
  if len data <? needed
  then newData ← go_make needed; Some (data ++ drop (length data) newData)
  else Some data.

(** [1 << (7 - offset%8)], a byte. *)
Definition bit_mask (offset : Z) : Z := u8 (Z.shiftl 1 (7 - Z.rem offset 8)).

(** [data[offset/8] ^= 1 << (7 - offset%8)] and [|=]. *)
Definition xor_bit (data : bytes) (offset : Z) : option bytes :=
  go_update (λ b, Z.lxor b (bit_mask offset)) (Z.quot offset 8) data.
Definition or_bit (data : bytes) (offset : Z) : option bytes :=
  go_update (λ b, Z.lor b (bit_mask offset)) (Z.quot offset 8) data.

(** The loop that applies the overlay entries carrying a 1. *)
Fixpoint apply_entries (f : bytes → Z → option bytes) (data : bytes) (es : list (Z * bool)) :
    option bytes :=
  match es with
  | [] => Some data
  | (off, true) :: es' => data' ← f data off; apply_entries f data' es'
  | (_, false) :: es' => apply_entries f data es'
  end.

(** ** Snapshots *)
Section Snapshots.
Context `{Engine}.

Definition getBit (snap : option ReducedEffect) (offset : Z) : Z :=
  match snap with
  | None => 0
  | Some r =>
    match re_Collection r with
    | KEYED =>
      let baseBit := match re_Scalar r with
                     | Some v => getScalarBit (Decompress v) offset
                     | None => 0
                     end in
      match re_NetAdds r !! FormatInt offset with
      | Some elem =>
        match re_Scalar r with
        | Some _ => if GetIntVal elem =? 1 then 1 - baseBit else baseBit
        | None => GetIntVal elem
        end
      | None => baseBit
      end
    | _ => match re_Scalar r with Some v => getScalarBit (Decompress v) offset | None => 0 end
    end
  end.

(** The overlay entries: offset and whether the element carries a 1. *)
Definition bit_entry (p : bytes * Value) : Z * bool :=
  (fst (ParseInt_val (fst p)), GetIntVal (snd p) =? 1).

Definition max_offset (entries : list (Z * bool)) : Z :=
  foldl (λ m e, if m <? fst e then fst e else m) 0 entries.

(** [reconstructBitmapBytes] for the order [adds] in which Go visits the
    elements. *)
Definition reconstruct_with (r : ReducedEffect) (adds : list (bytes * Value)) : option bytes :=
  match re_Collection r with
  | SCALAR => Some (match re_Scalar r with Some v => Decompress v | None => [] end)
  | _ =>
    let entries := bit_entry <$> adds in
    let needed := Z.quot (max_offset entries) 8 + 1 in
    match re_Scalar r with
    | Some v =>
      let data := Decompress v in
      data ← (match entries with [] => Some data | _ => grow needed data end);
      apply_entries xor_bit data entries
    | None =>
      match entries with
      | [] => Some []
      | _ => data ← go_make needed; apply_entries or_bit data entries
      end
    end
  end.

Definition reconstructBitmapBytes (snap : option ReducedEffect) : option bytes :=
  match snap with
  | None => Some []
  | Some r => reconstruct_with r (map_to_list (re_NetAdds r))
  end.

(** ** Effects *)

(** [getBitmapSnapshot] past its error: the snapshot if it is live and of a
    bitmap kind, the tips, whether the key exists, whether its kind is wrong. *)
Record SnapRes := mkSnapRes {
  sr_snap : option ReducedEffect;
  sr_tips : list Tip;
  sr_exists : bool;
  sr_wrongType : bool
}.

Definition classify_bitmap (snap : option ReducedEffect) (tips : list Tip) : SnapRes :=
  match snap with
  | None => mkSnapRes None tips false false
  | Some r =>
    if bool_decide (re_Op r = REMOVE_OP) then mkSnapRes None tips false false
    else if negb (bool_decide (re_Collection r = KEYED)) &&
            negb (bool_decide (re_Collection r = SCALAR))
    then mkSnapRes None tips true true
    else mkSnapRes snap tips true false
  end.

Definition getBitmapSnapshot (key : bytes) : M SnapRes :=
  '(snap, tips) ← get_snapshot key;
  mret (classify_bitmap snap tips).

Definition emitSetBit (key : bytes) (offset value : Z) : M unit :=
  emit (mkEffect key (Effect_Data (mkData INSERT_OP LAST_WRITE_WINS KEYED PLACE_NONE []
          (FormatInt offset) (Some (IntVal value))))) [].

Definition emit_scalar (key data : bytes) (tips : list Tip) : M unit :=
  emit (mkEffect key (Effect_Data (mkData INSERT_OP LAST_WRITE_WINS SCALAR PLACE_NONE [] []
          (Some (Raw data))))) tips.
Definition emit_tag (key : bytes) (t : ValueType) : M unit :=
  emit (mkEffect key (Effect_Meta (tag_meta t))) [].

(** The offsets at which [data] differs from [base], a missing byte being 0. *)
Definition byte_or_0 (data : bytes) (i : nat) : Z := default 0 (data !! i).
Definition diff_offsets (base data : bytes) : list Z :=
  byteIdx ← seq 0 (Nat.max (length base) (length data));
  let diff := Z.lxor (byte_or_0 data byteIdx) (byte_or_0 base byteIdx) in
  bitIdx ← [7; 6; 5; 4; 3; 2; 1; 0];
  if Z.land (Z.shiftr diff bitIdx) 1 =? 1 then [Z.of_nat byteIdx * 8 + (7 - bitIdx)] else [].

(** The effects of [emitBitmapBulk], for the orders in which Go visits the
    old elements and the set of offsets; the tips go with the first one. *)
Definition bulk_effects (key data : bytes) (oldSnap : option ReducedEffect) : list Effect :=
  let baseData := match oldSnap with
                  | Some r => match re_Scalar r with Some v => Decompress v | None => [] end
                  | None => []
                  end in
  let needInsert := FormatInt <$> diff_offsets baseData data in
  let removes :=
    match oldSnap with
    | Some r =>
      if bool_decide (re_Collection r = KEYED)
      then filter (λ id, id ∉ needInsert) (fst <$> map_to_list (re_NetAdds r))
      else []
    | None => []
    end in
  ((λ id, mkEffect key (Effect_Data (mkData REMOVE_OP MERGE_NONE KEYED PLACE_NONE [] id None)))
     <$> removes) ++
  ((λ id, mkEffect key (Effect_Data (mkData INSERT_OP LAST_WRITE_WINS KEYED PLACE_NONE [] id
       (Some (IntVal 1))))) <$> needInsert).

Definition emitBitmapBulk (key data : bytes) (oldSnap : option ReducedEffect) (tips : list Tip) :
    M unit :=
  match bulk_effects key data oldSnap with
  | [] => mret tt
  | e :: es => emit e tips ≫= λ _, for_each es (λ e, emit e [])
  end.

(** ** SETBIT and GETBIT *)

Definition setbit_runner (key : bytes) (offset value : Z) : M unit :=
  s ← getBitmapSnapshot key;
  if sr_wrongType s then reply WriteWrongType
  else
    let snap := sr_snap s in
    let oldBit := getBit snap offset in
    if bool_decide (snap = None) && (value =? 0) then
      zeroData ← or_panic (go_make (Z.quot offset 8 + 1));
      _ ← emit_scalar key zeroData [];
      _ ← emit_tag key TYPE_BITMAP;
      reply (WriteInteger 0)
    else
      let emitValue :=
        match snap with
        | Some r =>
          match re_Scalar r with
          | Some v => if negb (value =? getScalarBit (Decompress v) offset) then 1 else 0
          | None => value
          end
        | None => value
        end in
      _ ← emitSetBit key offset emitValue;
      _ ← (match snap with None => emit_tag key TYPE_BITMAP | Some _ => mret tt end);
      write (WriteInteger oldBit).

Definition handleSetBit (args : list bytes) : Prep :=
  match args with
  | [key; off; val] =>
    match ParseInt64 off with
    | Some offset =>
      if (offset <? 0) || (4 * 1024 * 1024 * 1024 <=? offset)
      then Refuse [key] (WriteError (str "ERR bit offset is not an integer or out of range"))
      else match ParseInt64 val with
      | Some value =>
        if negb (value =? 0) && negb (value =? 1)
        then Refuse [key] (WriteError (str "ERR bit is not an integer or out of range"))
        else Accept [key] (setbit_runner key offset value)
      | None => Refuse [key] (WriteError (str "ERR bit is not an integer or out of range"))
      end
    | None => Refuse [key] (WriteError (str "ERR bit offset is not an integer or out of range"))
    end
  | _ => Refuse [] (WriteWrongNumArguments (str "setbit"))
  end.

Definition getbit_runner (key : bytes) (offset : Z) : M unit :=
  s ← getBitmapSnapshot key;
  if negb (sr_exists s) then reply (WriteInteger 0)
  else if sr_wrongType s then reply WriteWrongType
  else write (WriteInteger (getBit (sr_snap s) offset)).

Definition handleGetBit (args : list bytes) : Prep :=
  match args with
  | [key; off] =>
    match ParseInt64 off with
    | Some offset =>
      if offset <? 0
      then Refuse [key] (WriteError (str "ERR bit offset is not an integer or out of range"))
      else Accept [key] (getbit_runner key offset)
    | None => Refuse [key] (WriteError (str "ERR bit offset is not an integer or out of range"))
    end
  | _ => Refuse [] (WriteWrongNumArguments (str "getbit"))
  end.

(** ** BITCOUNT and BITPOS *)

(** The index arithmetic the two commands share: negative indices count from
    the end, then both ends are clamped. *)
Definition clamp_range (start end_ size : Z) : Z * Z :=
  let s := if start <? 0 then i64 (size + start) else start in
  let e := if end_ <? 0 then i64 (size + end_) else end_ in
  let s := if s <? 0 then 0 else s in
  let e := if size <=? e then size - 1 else e in
  (s, e).

(** [bits.OnesCount8]. *)
Definition OnesCount8 (b : Z) : Z :=
  len (filter (λ i, Z.testbit b i = true) (seqZ 0 8)).

(** [bit i] of a byte array, read as the loops do. *)
Definition bit_at (data : bytes) (i : Z) : Z :=
  Z.land (Z.shiftr (default 0 (go_index data (Z.quot i 8))) (7 - Z.rem i 8)) 1.

Definition count_bits (data : bytes) (start end_ : Z) : Z :=
  foldl (λ count i, if bit_at data i =? 1 then count + 1 else count) 0
    (seqZ start (end_ - start + 1)).
Definition count_bytes (data : bytes) (start end_ : Z) : Z :=
  foldl (λ count i, count + OnesCount8 (default 0 (go_index data i))) 0
    (seqZ start (end_ - start + 1)).

Definition bitcount_runner (key : bytes) (start end_ : Z) (useBitIndex hasRange : bool) : M unit :=
  s ← getBitmapSnapshot key;
  if negb (sr_exists s) then reply (WriteInteger 0)
  else if sr_wrongType s then reply WriteWrongType
  else match sr_snap s with
  | None => exit
  | Some r =>
    if negb hasRange && bool_decide (re_Collection r = KEYED) && bool_decide (re_Scalar r = None)
    then reply (WriteInteger (len (filter (λ v, GetIntVal v = 1) (snd <$> map_to_list (re_NetAdds r)))))
    else
      data ← or_panic (reconstructBitmapBytes (Some r));
      let dataLen := len data in
      let actualEnd := if hasRange then end_ else dataLen - 1 in
      if useBitIndex then
        let '(s, e) := clamp_range start actualEnd (dataLen * 8) in
        if (e <? s) || (dataLen * 8 <=? s) then reply (WriteInteger 0)
        else write (WriteInteger (count_bits data s e))
      else
        let '(s, e) := clamp_range start actualEnd dataLen in
        if (e <? s) || (dataLen <=? s) then reply (WriteInteger 0)
        else write (WriteInteger (count_bytes data s e))
  end.

(** The BYTE/BIT modifier: [Some true] for BIT. *)
Definition parse_unit `{UnicodeCase} (arg : bytes) : option bool :=
  let modifier := strings_ToUpper arg in
  if beq modifier (str "BIT") then Some true
  else if beq modifier (str "BYTE") then Some false else None.

Definition handleBitCount `{UnicodeCase} (args : list bytes) : Prep :=
  match args with
  | [] => Refuse [] (WriteWrongNumArguments (str "bitcount"))
  | [key] => Accept [key] (bitcount_runner key 0 (-1) false false)
  | [_; _] => Refuse [] WriteSyntaxError
  | key :: a1 :: a2 :: rest =>
    match ParseInt64 a1 with
    | None => Refuse [key] WriteNotInteger
    | Some start =>
      match ParseInt64 a2 with
      | None => Refuse [key] WriteNotInteger
      | Some end_ =>
        match rest with
        | [] => Accept [key] (bitcount_runner key start end_ false true)
        | a3 :: _ =>
          match parse_unit a3 with
          | None => Refuse [key] WriteSyntaxError
          | Some useBit => Accept [key] (bitcount_runner key start end_ useBit true)
          end
        end
      end
    end
  end.

(** The first position of [bit] among the positions [ps]. *)
Fixpoint find_bit (data : bytes) (bit : Z) (ps : list Z) : option Z :=
  match ps with
  | [] => None
  | i :: ps' => if bit_at data i =? bit then Some i else find_bit data bit ps'
  end.

(** BYTE mode walks the bytes, and each byte from its most significant bit. *)
Definition byte_positions (start end_ : Z) : list Z :=
  byteIdx ← seqZ start (end_ - start + 1);
  (λ bitIdx, byteIdx * 8 + (7 - bitIdx)) <$> [7; 6; 5; 4; 3; 2; 1; 0].

Definition bitpos_runner (key : bytes) (searchBit start end_ : Z) (useBitIndex hasEnd : bool) : M unit :=
  s ← getBitmapSnapshot key;
  if negb (sr_exists s) then reply (WriteInteger (if searchBit =? 0 then 0 else -1))
  else if sr_wrongType s then reply WriteWrongType
  else
    data ← or_panic (reconstructBitmapBytes (sr_snap s));
    let dataLen := len data in
    if dataLen =? 0 then reply (WriteInteger (if searchBit =? 0 then 0 else -1))
    else if useBitIndex then
      let bitLen := dataLen * 8 in
      let '(s, e) := clamp_range start (if hasEnd then end_ else bitLen - 1) bitLen in
      if (e <? s) || (bitLen <=? s) then reply (WriteInteger (-1))
      else match find_bit data searchBit (seqZ s (e - s + 1)) with
           | Some i => reply (WriteInteger i)
           | None => write (WriteInteger (-1))
           end
    else
      let '(s, e) := clamp_range start (if hasEnd then end_ else dataLen - 1) dataLen in
      if (e <? s) || (dataLen <=? s) then reply (WriteInteger (-1))
      else match find_bit data searchBit (byte_positions s e) with
           | Some i => reply (WriteInteger i)
           | None =>
             if (searchBit =? 0) && negb hasEnd then reply (WriteInteger (dataLen * 8))
             else write (WriteInteger (-1))
           end.

Definition handleBitPos `{UnicodeCase} (args : list bytes) : Prep :=
  match args with
  | key :: a1 :: rest =>
    if (5 <? len args) then Refuse [] WriteSyntaxError
    else match ParseInt64 a1 with
    | Some searchBit =>
      if negb (searchBit =? 0) && negb (searchBit =? 1)
      then Refuse [key] (WriteError (str "ERR bit is not an integer or out of range"))
      else
        let use := match rest with _ :: _ :: a4 :: _ => parse_unit a4 | _ => Some false end in
        match use with
        | None => Refuse [key] WriteSyntaxError
        | Some useBit =>
          match rest with
          | [] => Accept [key] (bitpos_runner key searchBit 0 (-1) useBit false)
          | a2 :: rest' =>
            match ParseInt64 a2 with
            | None => Refuse [key] WriteNotInteger
            | Some start =>
              match rest' with
              | [] => Accept [key] (bitpos_runner key searchBit start (-1) useBit false)
              | a3 :: _ =>
                match ParseInt64 a3 with
                | None => Refuse [key] WriteNotInteger
                | Some end_ => Accept [key] (bitpos_runner key searchBit start end_ useBit true)
                end
              end
            end
          end
        end
    | None => Refuse [key] (WriteError (str "ERR bit is not an integer or out of range"))
    end
  | _ => Refuse [] (WriteWrongNumArguments (str "bitpos"))
  end.

(** ** BITOP *)

Inductive BitOp : Type := OpAND | OpOR | OpXOR | OpNOT | OpONE | OpDIFF | OpDIFF1 | OpANDOR.

Definition parse_bitop `{UnicodeCase} (arg : bytes) : option BitOp :=
  let op := strings_ToUpper arg in
  if beq op (str "AND") then Some OpAND
  else if beq op (str "OR") then Some OpOR
  else if beq op (str "XOR") then Some OpXOR
  else if beq op (str "ONE") then Some OpONE
  else if beq op (str "NOT") then Some OpNOT
  else if beq op (str "DIFF") then Some OpDIFF
  else if beq op (str "DIFF1") then Some OpDIFF1
  else if beq op (str "ANDOR") then Some OpANDOR
  else None.

(** [for i := range src { result[i] = f(result[i], src[i]) }]: the bytes of
    [result] past the end of [src] stay. *)
Definition update_with (f : Z → Z → Z) (result src : bytes) : bytes :=
  imap (λ i r, match src !! i with Some b => f r b | None => r end) result.

Definition bitop_and (maxLen : nat) (sources : list bytes) : bytes :=
  foldl (λ result src, imap (λ i r, match src !! i with Some b => Z.land r b | None => 0 end) result)
    (replicate maxLen 255) sources.

Definition one_byte (sources : list bytes) (i : nat) : Z :=
  let count := foldl (λ c (src : bytes), match src !! i with Some b => Z.lxor c b | None => c end)
                 0 sources in
  if len sources <=? 2 then count
  else foldl (λ r bit,
         let bitCount := len (filter (λ src : bytes,
              match src !! i with
              | Some b => Z.land (Z.shiftr b bit) 1 =? 1
              | None => false
              end = true) sources) in
         if bitCount =? 1 then Z.lor r (Z.shiftl 1 bit) else r)
       0 [0; 1; 2; 3; 4; 5; 6; 7].

Definition y_union (maxLen : nat) (ys : list bytes) : bytes :=
  foldl (update_with Z.lor) (replicate maxLen 0) ys.

(** The [switch op]; [x] and [ys] are [sources[0]] and [sources[1:]]. *)
Definition bitop_result (op : BitOp) (maxLen : nat) (sources : list bytes) : bytes :=
  let result := replicate maxLen 0 in
  let x := match sources with x :: _ => x | [] => [] end in
  let ys := tail sources in
  match op with
  | OpAND => bitop_and maxLen sources
  | OpOR => foldl (update_with Z.lor) result sources
  | OpXOR => foldl (update_with Z.lxor) result sources
  | OpNOT => if len x =? 0 then [] else update_with (λ _ b, u8 (Z.lnot b)) result x
  | OpONE => imap (λ i _, one_byte sources i) result
  | OpDIFF => foldl (update_with Z.ldiff) (update_with (λ _ b, b) result x) ys
  | OpDIFF1 => update_with Z.ldiff (y_union maxLen ys) x
  | OpANDOR =>
    imap (λ i r, match x !! i with
                 | Some b => Z.land b (byte_or_0 (y_union maxLen ys) i)
                 | None => r
                 end) result
  end.

Fixpoint read_sources (srcKeys : list bytes) : M (list bytes) :=
  match srcKeys with
  | [] => mret []
  | srcKey :: rest =>
    s ← getBitmapSnapshot srcKey;
    if sr_wrongType s then reply WriteWrongType
    else
      srcData ← or_panic (reconstructBitmapBytes (sr_snap s));
      others ← read_sources rest;
      mret (srcData :: others)
  end.

Definition max_len (sources : list bytes) : nat :=
  foldl (λ m src, if (m <? length src)%nat then length src else m) 0%nat sources.

(** [destSnap, destTips, _, _, _ := getBitmapSnapshot(cmd, destKey)]: the
    error is dropped. *)
Definition getBitmapSnapshot_noerr (key : bytes) : M SnapRes := λ st,
  match GetSnapshot key (st_ctx st) with
  | (Ok (snap, tips), c) => (Next (classify_bitmap snap tips), mkSt c (st_w st) (st_held st))
  | (Err _, c) => (Next (mkSnapRes None [] false false), mkSt c (st_w st) (st_held st))
  end.

Definition bitop_runner (op : BitOp) (destKey : bytes) (srcKeys : list bytes) : M unit :=
  sources ← read_sources srcKeys;
  let maxLen := max_len sources in
  if (maxLen =? 0)%nat then reply (WriteInteger 0)
  else
    let result := bitop_result op maxLen sources in
    dest ← getBitmapSnapshot_noerr destKey;
    _ ← emit_scalar destKey result (sr_tips dest);
    let tag := match sr_snap dest with
               | None => true
               | Some r => negb (bool_decide (re_TypeTag r = TYPE_STRING)) &&
                           negb (bool_decide (re_TypeTag r = TYPE_UNSPECIFIED))
               end in
    _ ← (if tag : bool then emit_tag destKey TYPE_STRING else mret tt);
    write (WriteInteger (len result)).

Definition handleBitOp `{UnicodeCase} (args : list bytes) : Prep :=
  match args with
  | a0 :: destKey :: src1 :: more =>
    let srcKeys := src1 :: more in
    let accept op := Accept (destKey :: srcKeys) (bitop_runner op destKey srcKeys) in
    match parse_bitop a0 with
    | Some OpNOT =>
      if negb (len srcKeys =? 1)
      then Refuse [] (WriteError (str "ERR BITOP NOT requires one and only one key"))
      else accept OpNOT
    | Some OpDIFF =>
      if len srcKeys <? 2
      then Refuse [] (WriteError (str "ERR BITOP DIFF requires at least two keys"))
      else accept OpDIFF
    | Some OpDIFF1 =>
      if len srcKeys <? 2
      then Refuse [] (WriteError (str "ERR BITOP DIFF1 requires at least two keys"))
      else accept OpDIFF1
    | Some OpANDOR =>
      if len srcKeys <? 2
      then Refuse [] (WriteError (str "ERR BITOP ANDOR requires at least two keys"))
      else accept OpANDOR
    | Some op => accept op
    | None => Refuse [] (WriteError (str "ERR syntax error"))
    end
  | _ => Refuse [] (WriteWrongNumArguments (str "bitop"))
  end.
End Snapshots.

(** ** BITFIELD integers *)

Inductive overflowBehavior : Type := overflowWrap | overflowSat | overflowFail.

#[global] Instance overflowBehavior_eq_dec : EqDecision overflowBehavior.
Proof. solve_decision. Defined.

Definition parseBitfieldType (b : bytes) : option (bool * Z) :=
  match b with
  | c :: (_ :: _) as ds =>
    let signed := if (c =? 105) || (c =? 73) then Some true
                  else if (c =? 117) || (c =? 85) then Some false else None in
    match signed with
    | None => None
    | Some signed =>
      match Atoi (tail b) with
      | None => None
      | Some bits =>
        if (bits <? 1) || (64 <? bits) then None
        else if negb signed && (bits =? 64) then None
        else Some (signed, bits)
      end
    end
  | _ => None
  end.

(** Offset and whether it was written with [#]. *)
Definition parseBitfieldOffset (b : bytes) (bitWidth : Z) : option (Z * bool) :=
  match b with
  | [] => None
  | c :: rest =>
    if c =? 35 then
      match ParseInt64 rest with
      | Some idx => if idx <? 0 then None else Some (i64 (idx * bitWidth), true)
      | None => None
      end
    else
      match ParseInt64 b with
      | Some offset => if offset <? 0 then None else Some (offset, false)
      | None => None
      end
  end.

(** One turn of the reading loop. *)
Definition read_step (data : bytes) (bitOffset value i : Z) : option Z :=
  let bitPos := i64 (bitOffset + i) in
  let byteIdx := Z.quot bitPos 8 in
  let bitIdx := 7 - Z.rem bitPos 8 in
  if byteIdx <? len data then
    b ← go_index data byteIdx;
    Some (Z.lor (i64 (Z.shiftl value 1)) (Z.land (Z.shiftr b bitIdx) 1))
  else Some (i64 (Z.shiftl value 1)).

Fixpoint read_bits (data : bytes) (bitOffset value : Z) (ps : list Z) : option Z :=
  match ps with
  | [] => Some value
  | i :: ps' => value' ← read_step data bitOffset value i; read_bits data bitOffset value' ps'
  end.

Definition sign_extend (value bits : Z) (signed : bool) : Z :=
  if signed && (bits <? 64) then
    let signBit := i64 (Z.shiftl 1 (bits - 1)) in
    if negb (Z.land value signBit =? 0) then i64 (value - i64 (Z.shiftl 1 bits)) else value
  else value.

Definition getBitfieldInt (data : bytes) (bitOffset bits : Z) (signed : bool) : option Z :=
  if len data =? 0 then Some 0
  else value ← read_bits data bitOffset 0 (seqZ 0 bits); Some (sign_extend value bits signed).

(** One turn of the writing loop. *)
Definition write_step (bitOffset bits value : Z) (data : bytes) (i : Z) : option bytes :=
  let bitPos := i64 (bitOffset + i) in
  let byteIdx := Z.quot bitPos 8 in
  if len data <=? byteIdx then Some data
  else
    let bitValue := Z.land (Z.shiftr value (bits - 1 - i)) 1 in
    if bitValue =? 1 then go_update (λ b, Z.lor b (bit_mask bitPos)) byteIdx data
    else go_update (λ b, Z.ldiff b (bit_mask bitPos)) byteIdx data.

Fixpoint write_bits (bitOffset bits value : Z) (data : bytes) (ps : list Z) : option bytes :=
  match ps with
  | [] => Some data
  | i :: ps' => data' ← write_step bitOffset bits value data i; write_bits bitOffset bits value data' ps'
  end.

Definition setBitfieldInt (data : bytes) (bitOffset bits value : Z) : option bytes :=
  let mask := if bits =? 64 then -1 else i64 (i64 (Z.shiftl 1 bits) - 1) in
  write_bits bitOffset bits (Z.land value mask) data (seqZ 0 bits).

Definition checkBitfieldOverflow (value bits : Z) (signed : bool) : bool :=
  if signed then
    if bits =? 64 then false
    else
      let minVal := i64 (- i64 (Z.shiftl 1 (bits - 1))) in
      let maxVal := i64 (i64 (Z.shiftl 1 (bits - 1)) - 1) in
      (value <? minVal) || (maxVal <? value)
  else
    let maxVal := i64 (i64 (Z.shiftl 1 bits) - 1) in
    (value <? 0) || (maxVal <? value).

Definition checkAdditionOverflow (a b : Z) : bool :=
  if (0 <? b) && (i64 (MaxInt64 - b) <? a) then true
  else if (b <? 0) && (a <? i64 (MinInt64 - b)) then true
  else false.

Definition bitfield_bounds (bits : Z) (signed : bool) : Z * Z :=
  if signed && (bits =? 64) then (MinInt64, MaxInt64)
  else if signed then (i64 (- i64 (Z.shiftl 1 (bits - 1))), i64 (i64 (Z.shiftl 1 (bits - 1)) - 1))
  else (0, i64 (i64 (Z.shiftl 1 bits) - 1)).

Definition applyOverflow (value bits : Z) (signed : bool) (behavior : overflowBehavior) : Z :=
  let '(minVal, maxVal) := bitfield_bounds bits signed in
  match behavior with
  | overflowWrap =>
    if signed then
      if bits =? 64 then value
      else
        let range_ := i64 (Z.shiftl 1 bits) in
        let value := Z.rem (i64 (value - minVal)) range_ in
        let value := if value <? 0 then i64 (value + range_) else value in
        i64 (value + minVal)
    else Z.land value maxVal
  | overflowSat | overflowFail =>
    if value <? minVal then minVal else if maxVal <? value then maxVal else value
  end.

(** ** BITFIELD *)

Inductive bitfieldOp : Type := bitfieldGet | bitfieldSet | bitfieldIncrBy.

#[global] Instance bitfieldOp_eq_dec : EqDecision bitfieldOp.
Proof. solve_decision. Defined.

Record subCommand := mkSub {
  sc_op : bitfieldOp;
  sc_signed : bool;
  sc_bits : Z;
  sc_offset : Z;
  sc_value : Z;
  sc_overflow : overflowBehavior;
  sc_offsetMul : bool
}.

Section Bitfield.
Context `{Engine} `{UnicodeCase}.

Definition invalid_type : Writer → Writer :=
  WriteError (str "ERR Invalid bitfield type. Use something like i16 u8. Note that u64 is not supported but i64 is.").
Definition invalid_offset : Writer → Writer :=
  WriteError (str "ERR bit offset is not an integer or out of range").

(** The type and offset arguments every subcommand starts with. *)
Definition parse_target (ty off : bytes) : result (Writer → Writer) (bool * Z * Z * bool) :=
  match parseBitfieldType ty with
  | None => Err invalid_type
  | Some (signed, bitWidth) =>
    match parseBitfieldOffset off bitWidth with
    | None => Err invalid_offset
    | Some (offset, offsetMul) => Ok (signed, bitWidth, offset, offsetMul)
    end
  end.

(** SET and INCRBY carry a value. *)
Definition parse_write (op : bitfieldOp) (cur : overflowBehavior) (ty off val : bytes) :
    result (Writer → Writer) subCommand :=
  '(signed, bitWidth, offset, offsetMul) ← parse_target ty off;
  match ParseInt64 val with
  | None => Err WriteNotInteger
  | Some value => Ok (mkSub op signed bitWidth offset value cur offsetMul)
  end.

(** The argument loop of [handleBitField], from the current overflow mode. *)
Fixpoint parse_subcommands (cur : overflowBehavior) (args : list bytes) :
    result (Writer → Writer) (list subCommand) :=
  match args with
  | [] => Ok []
  | op :: rest =>
    let op := strings_ToUpper op in
    if beq op (str "GET") then
      match rest with
      | ty :: off :: rest' =>
        '(signed, bitWidth, offset, offsetMul) ← parse_target ty off;
        scs ← parse_subcommands cur rest';
        Ok (mkSub bitfieldGet signed bitWidth offset 0 cur offsetMul :: scs)
      | _ => Err WriteSyntaxError
      end
    else if beq op (str "SET") then
      match rest with
      | ty :: off :: val :: rest' =>
        sc ← parse_write bitfieldSet cur ty off val;
        scs ← parse_subcommands cur rest';
        Ok (sc :: scs)
      | _ => Err WriteSyntaxError
      end
    else if beq op (str "INCRBY") then
      match rest with
      | ty :: off :: val :: rest' =>
        sc ← parse_write bitfieldIncrBy cur ty off val;
        scs ← parse_subcommands cur rest';
        Ok (sc :: scs)
      | _ => Err WriteSyntaxError
      end
    else if beq op (str "OVERFLOW") then
      match rest with
      | b :: rest' =>
        let behavior := strings_ToUpper b in
        if beq behavior (str "WRAP") then parse_subcommands overflowWrap rest'
        else if beq behavior (str "SAT") then parse_subcommands overflowSat rest'
        else if beq behavior (str "FAIL") then parse_subcommands overflowFail rest'
        else Err (WriteError (str "ERR Invalid OVERFLOW type (should be one of WRAP, SAT, FAIL)"))
      | [] => Err WriteSyntaxError
      end
    else Err WriteSyntaxError
  end.

(** [requiredBytes] bytes, then the write. *)
Definition store_field (sc : subCommand) (data : bytes) (newValue : Z) : option bytes :=
  let requiredBytes := Z.quot (i64 (i64 (sc_offset sc + sc_bits sc) + 7)) 8 in
  data ← grow requiredBytes data;
  setBitfieldInt data (sc_offset sc) (sc_bits sc) newValue.

(** One subcommand: the data, whether it was modified, the result ([None] is
    the nil of OVERFLOW FAIL). *)
Definition exec_sub (data : bytes) (modified : bool) (sc : subCommand) :
    option (bytes * bool * option Z) :=
  oldValue ← getBitfieldInt data (sc_offset sc) (sc_bits sc) (sc_signed sc);
  let fails := bool_decide (sc_overflow sc = overflowFail) in
  match sc_op sc with
  | bitfieldGet => Some (data, modified, Some oldValue)
  | bitfieldSet =>
    let newValue := sc_value sc in
    if checkBitfieldOverflow newValue (sc_bits sc) (sc_signed sc) && fails
    then Some (data, modified, None)
    else
      let newValue := applyOverflow newValue (sc_bits sc) (sc_signed sc) (sc_overflow sc) in
      data' ← store_field sc data newValue;
      Some (data', true, Some oldValue)
  | bitfieldIncrBy =>
    if fails && checkAdditionOverflow oldValue (sc_value sc)
    then Some (data, modified, None)
    else
      let newValue := i64 (oldValue + sc_value sc) in
      if checkBitfieldOverflow newValue (sc_bits sc) (sc_signed sc) && fails
      then Some (data, modified, None)
      else
        let newValue := applyOverflow newValue (sc_bits sc) (sc_signed sc) (sc_overflow sc) in
        data' ← store_field sc data newValue;
        Some (data', true, Some newValue)
  end.

Fixpoint exec_subs (data : bytes) (modified : bool) (scs : list subCommand) :
    option (bytes * bool * list (option Z)) :=
  match scs with
  | [] => Some (data, modified, [])
  | sc :: scs' =>
    '(data', modified', r) ← exec_sub data modified sc;
    '(data'', modified'', rs) ← exec_subs data' modified' scs';
    Some (data'', modified'', r :: rs)
  end.

Definition write_field_result (r : option Z) : M unit :=
  match r with None => write WriteNullBulkString | Some v => write (WriteInteger v) end.

Definition bitfield_runner (key : bytes) (subCmds : list subCommand) : M unit :=
  with_lock key (
    s ← getBitmapSnapshot key;
    if sr_wrongType s then reply WriteWrongType
    else
      data ← or_panic (reconstructBitmapBytes (sr_snap s));
      '(data, modified, results) ← or_panic (exec_subs data false subCmds);
      _ ← (if modified : bool then
             _ ← emitBitmapBulk key data (sr_snap s) (sr_tips s);
             if match sr_snap s with
                | None => true
                | Some r => bool_decide (re_Collection r = SCALAR)
                end
             then emit_tag key TYPE_BITMAP else mret tt
           else mret tt);
      _ ← write (WriteArray (len results));
      for_each results write_field_result).

Definition handleBitField (args : list bytes) : Prep :=
  match args with
  | [] => Refuse [] (WriteWrongNumArguments (str "bitfield"))
  | key :: rest =>
    match parse_subcommands overflowWrap rest with
    | Err e => Refuse [key] e
    | Ok [] => Accept [key] (write (WriteArray 0))
    | Ok subCmds => Accept [key] (bitfield_runner key subCmds)
    end
  end.

Fixpoint parse_getcommands (args : list bytes) :
    result (Writer → Writer) (list (bool * Z * Z)) :=
  match args with
  | [] => Ok []
  | op :: rest =>
    if beq (strings_ToUpper op) (str "GET") then
      match rest with
      | ty :: off :: rest' =>
        '(signed, bitWidth, offset, _) ← parse_target ty off;
        gcs ← parse_getcommands rest';
        Ok ((signed, bitWidth, offset) :: gcs)
      | _ => Err WriteSyntaxError
      end
    else Err (WriteError (str "ERR BITFIELD_RO only supports the GET subcommand"))
  end.

Definition bitfield_ro_runner (key : bytes) (getCmds : list (bool * Z * Z)) : M unit :=
  s ← getBitmapSnapshot key;
  if sr_wrongType s then reply WriteWrongType
  else
    data ← or_panic (reconstructBitmapBytes (sr_snap s));
    _ ← write (WriteArray (len getCmds));
    for_each getCmds (λ '(signed, bits, offset),
      value ← or_panic (getBitfieldInt data offset bits signed);
      write (WriteInteger value)).

Definition handleBitFieldRO (args : list bytes) : Prep :=
  match args with
  | [] => Refuse [] (WriteWrongNumArguments (str "bitfield_ro"))
  | key :: rest =>
    match parse_getcommands rest with
    | Err e => Refuse [key] e
    | Ok [] => Accept [key] (write (WriteArray 0))
    | Ok getCmds => Accept [key] (bitfield_ro_runner key getCmds)
    end
  end.
End Bitfield.
