(* ===== verification/BitmapProps.v ===== *)
(** * Bit-level reasoning for bitmaps

    The view of a byte array as a sequence of bits (most significant bit of
    the first byte first), and what the byte updates of Bitmap do to it. *)

From S2P Require Import Prelude GoBytes Strconv Writer Engine Bitmap.

Local Open Scope Z_scope.

(** Bit [i] of a byte array; past its end every bit is 0. *)
Definition bitv (data : bytes) (i : Z) : bool :=
  Z.testbit (byte_or_0 data (Z.to_nat (i / 8))) (7 - i mod 8).

(** Byte [i] with bit positions counted as in [bitv]. *)
Lemma bitv_byte data (i : nat) n :
  0 <= n < 8 → Z.testbit (byte_or_0 data i) n = bitv data (Z.of_nat i * 8 + (7 - n)).
Proof.
  intros Hn. unfold bitv.
  replace ((Z.of_nat i * 8 + (7 - n)) / 8) with (Z.of_nat i) by (Z.div_mod_to_equations; lia).
  replace ((Z.of_nat i * 8 + (7 - n)) mod 8) with (7 - n) by (Z.div_mod_to_equations; lia).
  rewrite Nat2Z.id. f_equal. lia.
Qed.

Lemma byte_or_0_ok data i : Forall is_u8 data → is_u8 (byte_or_0 data i).
Proof.
  intros Hd. unfold byte_or_0. destruct (data !! i) eqn:E; simpl.
  - by eapply Forall_lookup_1 in E.
  - unfold is_u8. lia.
Qed.

Lemma byte_high b n : is_u8 b → 8 <= n → Z.testbit b n = false.
Proof.
  intros Hb Hn. unfold is_u8 in Hb. apply Z.testbit_false; [lia|].
  rewrite Z.div_small; [done|]. split; [lia|].
  apply Z.lt_le_trans with (2 ^ 8); [lia|]. apply Z.pow_le_mono_r; lia.
Qed.

Lemma byte_ext a b :
  is_u8 a → is_u8 b → (∀ n, 0 <= n < 8 → Z.testbit a n = Z.testbit b n) → a = b.
Proof.
  intros Ha Hb Hn. apply Z.bits_inj'. intros n ?. destruct (decide (n < 8)).
  - apply Hn. lia.
  - rewrite !byte_high by (try done; lia). done.
Qed.

Lemma byte_bits_ok b :
  0 <= b → (∀ n, 8 <= n → Z.testbit b n = false) → is_u8 b.
Proof.
  intros Hb Hn. unfold is_u8. split; [done|].
  destruct (decide (b = 0)) as [->|]; [lia|].
  apply (Z.log2_lt_pow2 b 8); [lia|].
  destruct (decide (Z.log2 b < 8)) as [|Hl]; [done|]. exfalso.
  assert (Ht := Z.bit_log2 b ltac:(lia)). rewrite Hn in Ht by lia. done.
Qed.

(** Byte arrays are equal when their lengths and bits are. *)
Lemma bytes_ext d1 d2 :
  Forall is_u8 d1 → Forall is_u8 d2 → length d1 = length d2 →
  (∀ i, 0 <= i < 8 * len d1 → bitv d1 i = bitv d2 i) → d1 = d2.
Proof.
  intros H1 H2 Hlen Hb. apply list_eq_same_length with (n := length d1); [done|done|].
  intros i x y Hi Hx Hy. replace x with (byte_or_0 d1 i) by (unfold byte_or_0; by rewrite Hx).
  replace y with (byte_or_0 d2 i) by (unfold byte_or_0; by rewrite Hy).
  apply byte_ext; [by apply byte_or_0_ok..|]. intros n Hn. rewrite !bitv_byte by done.
  apply Hb. unfold len. lia.
Qed.

Lemma bitv_beyond data i : 8 * len data <= i → bitv data i = false.
Proof.
  intros Hi. unfold bitv, byte_or_0, len in *. rewrite lookup_ge_None_2.
  - apply Z.bits_0.
  - Z.div_mod_to_equations; lia.
Qed.

Lemma bitv_zeros n i : bitv (replicate n 0) i = false.
Proof.
  unfold bitv, byte_or_0. destruct (replicate n 0 !! _) eqn:E; simpl.
  - apply lookup_replicate in E as [-> _]. apply Z.bits_0.
  - apply Z.bits_0.
Qed.

Lemma bitv_app_zeros d n i : 0 <= i → bitv (d ++ replicate n 0) i = bitv d i.
Proof.
  intros Hi. unfold bitv, byte_or_0. f_equal.
  destruct (decide (Z.to_nat (i / 8) < length d)%nat) as [Hl|Hl].
  - by rewrite lookup_app_l.
  - rewrite lookup_app_r by lia. rewrite (lookup_ge_None_2 d) by lia. simpl.
    destruct (replicate n 0 !! _) eqn:E; [|done]. by apply lookup_replicate in E as [-> _].
Qed.

Lemma zeros_ok n : Forall is_u8 (replicate n 0).
Proof. apply Forall_replicate. unfold is_u8. lia. Qed.

(** ** Allocation *)

Lemma go_make_ok n : 0 <= n <= maxAlloc → go_make n = Some (replicate (Z.to_nat n) 0).
Proof. intros Hn. unfold go_make. split_if; [done|]. lia. Qed.

Lemma grow_ok needed data :
  needed <= maxAlloc →
  grow needed data = Some (data ++ replicate (Z.to_nat needed - length data) 0).
Proof.
  intros Hn. unfold grow, len. split_if.
  - rewrite go_make_ok by lia. simpl. by rewrite drop_replicate.
  - replace (Z.to_nat needed - length data)%nat with 0%nat by lia. by rewrite app_nil_r.
Qed.

(** ** Masks and single-bit updates *)

Lemma bit_mask_pow off : 0 <= off → bit_mask off = 2 ^ (7 - off mod 8).
Proof.
  intros Hoff. unfold bit_mask, u8. rewrite Z.rem_mod_nonneg by lia.
  assert (H8 := Z.mod_pos_bound off 8 ltac:(lia)).
  rewrite Z.shiftl_mul_pow2, Z.mul_1_l by lia. apply Z.mod_small. split; [lia|].
  change 256 with (2 ^ 8). apply Z.pow_lt_mono_r; lia.
Qed.

Lemma bit_mask_testbit off n :
  0 <= off → 0 <= n → Z.testbit (bit_mask off) n = (n =? 7 - off mod 8).
Proof.
  intros Hoff Hn. rewrite bit_mask_pow by done. rewrite Z.eqb_sym.
  apply Z.pow2_bits_eqb. assert (H8 := Z.mod_pos_bound off 8 ltac:(lia)). lia.
Qed.

Lemma go_update_lookup f i data data' :
  go_update f i data = Some data' →
  0 <= i ∧ length data' = length data ∧
  (∀ j, j ≠ Z.to_nat i → data' !! j = data !! j) ∧
  byte_or_0 data' (Z.to_nat i) = f (byte_or_0 data (Z.to_nat i)).
Proof.
  unfold go_update, len. split_if; [|done]. intros [= <-]. rewrite length_alter. split_and!; [lia|done|..].
  - intros j Hj. by rewrite list_lookup_alter_ne.
  - unfold byte_or_0. rewrite list_lookup_alter_eq.
    destruct (lookup_lt_is_Some_2 data (Z.to_nat i)) as [x ->]; [lia|done].
Qed.

Section Update.
Context (op : Z → Z → Z) (bop : bool → bool → bool).
Hypothesis op_bits : ∀ a b n, Z.testbit (op a b) n = bop (Z.testbit a n) (Z.testbit b n).
Hypothesis op_false : ∀ x, bop x false = x.
Hypothesis op_nonneg : ∀ a b, 0 <= a → 0 <= b → 0 <= op a b.

(** [data[off/8] op= 1 << (7 - off%8)] changes bit [off] and no other. *)
Lemma update_bit_spec data off :
  Forall is_u8 data → 0 <= off < 8 * len data →
  ∃ data', go_update (λ b, op b (bit_mask off)) (Z.quot off 8) data = Some data' ∧
    Forall is_u8 data' ∧ length data' = length data ∧
    ∀ i, 0 <= i → bitv data' i = if i =? off then bop (bitv data i) true else bitv data i.
Proof.
  intros Hd Hoff. rewrite Z.quot_div_nonneg by lia.
  assert (Hq : 0 <= off / 8 < len data) by (Z.div_mod_to_equations; lia).
  eexists. unfold go_update at 1. rewrite (proj2 (Z.leb_le _ _)), (proj2 (Z.ltb_lt _ _)) by lia.
  split; [reflexivity|].
  destruct (go_update_lookup (λ b, op b (bit_mask off)) (off / 8) data
    (alter (λ b, op b (bit_mask off)) (Z.to_nat (off / 8)) data)) as (_ & Hlen & Hne & Heq).
  { unfold go_update. by rewrite (proj2 (Z.leb_le _ _)), (proj2 (Z.ltb_lt _ _)) by lia. }
  set (data' := alter _ _ data) in *.
  assert (Hm : 0 <= bit_mask off) by (rewrite bit_mask_pow by lia; lia).
  split_and!; [|done|].
  - apply Forall_lookup_2. intros j x Hx. destruct (decide (j = Z.to_nat (off / 8))) as [->|Hj].
    + replace x with (byte_or_0 data' (Z.to_nat (off / 8))) by (unfold byte_or_0; by rewrite Hx).
      rewrite Heq. pose proof (byte_or_0_ok data (Z.to_nat (off / 8)) Hd) as Hb.
      apply byte_bits_ok.
      * apply op_nonneg; [unfold is_u8 in Hb; lia|done].
      * intros n Hn. rewrite op_bits, bit_mask_testbit, byte_high by (try done; lia).
        assert (H8 := Z.mod_pos_bound off 8 ltac:(lia)).
        rewrite (proj2 (Z.eqb_neq _ _)) by lia. apply op_false.
    + rewrite Hne in Hx by done. by eapply Forall_lookup_1 in Hx.
  - intros i Hi. unfold bitv. destruct (decide (Z.to_nat (i / 8) = Z.to_nat (off / 8))) as [E|E].
    + rewrite E, Heq, op_bits, bit_mask_testbit by (Z.div_mod_to_equations; lia).
      destruct (Z.eqb_spec i off) as [->|Hne'].
      * by rewrite Z.eqb_refl.
      * rewrite (proj2 (Z.eqb_neq _ _)), op_false; [done|].
        apply Z2Nat.inj in E; Z.div_mod_to_equations; lia.
    + rewrite (proj2 (Z.eqb_neq _ _)) by congruence. unfold byte_or_0. by rewrite Hne.
Qed.

(** The overlay loop: each entry that carries a 1 changes its bit, once. *)
Lemma apply_entries_spec data es :
  Forall is_u8 data → NoDup (fst <$> es) → Forall (λ e, 0 <= fst e < 8 * len data) es →
  ∃ data', apply_entries (λ d off, go_update (λ b, op b (bit_mask off)) (Z.quot off 8) d) data es
             = Some data' ∧
    Forall is_u8 data' ∧ length data' = length data ∧
    ∀ i, 0 <= i → bitv data' i =
      if bool_decide ((i, true) ∈ es) then bop (bitv data i) true else bitv data i.
Proof.
  revert data. induction es as [|[off b] es IH]; intros data Hd Hnd Hr.
  - exists data. split_and!; [done..|]. intros i _.
    rewrite bool_decide_eq_false_2 by apply not_elem_of_nil. done.
  - rewrite fmap_cons in Hnd. apply NoDup_cons in Hnd as [Hnin Hnd].
    apply Forall_cons in Hr as [Hoff Hr]. simpl in Hoff, Hnin.
    assert (Hnot : ∀ b', (off, b') ∉ es).
    { intros b' Hin. apply Hnin. by apply (list_elem_of_fmap_2 fst _ _ Hin). }
    destruct b; simpl.
    + destruct (update_bit_spec data off Hd Hoff) as (d1 & E1 & Hd1 & Hl1 & Hb1).
      rewrite E1. simpl. destruct (IH d1) as (d2 & E2 & Hd2 & Hl2 & Hb2); [done|done|..].
      { eapply Forall_impl; [exact Hr|]. unfold len. rewrite Hl1. done. }
      exists d2. split_and!; [done..|congruence|]. intros i Hi. rewrite Hb2, Hb1 by done.
      destruct (Z.eqb_spec i off) as [->|Hne].
      * rewrite (bool_decide_eq_false_2 ((off, true) ∈ es)) by apply Hnot.
        rewrite bool_decide_eq_true_2; [done|by left].
      * erewrite (bool_decide_ext ((i, true) ∈ (off, true) :: es)); [reflexivity|].
        rewrite elem_of_cons. split; [intros [[= ?]|?]; done|by right].
    + destruct (IH data) as (d2 & E2 & Hd2 & Hl2 & Hb2); [done..|].
      exists d2. split_and!; [done..|]. intros i Hi. rewrite Hb2 by done.
      erewrite (bool_decide_ext ((i, true) ∈ (off, false) :: es)); [reflexivity|].
      rewrite elem_of_cons. split; [intros [[= ?]|?]; done|by right].
Qed.
End Update.

(** * What the bitmap commands do

    The bytes a bitmap key stands for, the well-formedness of bitmap
    snapshots, and the commands' effect on them against any engine that
    satisfies [EngineLaws]. *)


(** Bit offsets SETBIT accepts. *)
Definition offset_ok (off : Z) : Prop := 0 <= off < 4 * 1024 * 1024 * 1024.

(** ** Well-formed snapshots *)
Section Wf.
Context `{Engine}.

Definition base_bytes (r : ReducedEffect) : bytes :=
  match re_Scalar r with Some v => Decompress v | None => [] end.

(** Whether element [off] carries a 1. *)
Definition overlay (r : ReducedEffect) (off : Z) : bool :=
  match (re_NetAdds r !! FormatInt off : option Value) with
  | Some v => GetIntVal v =? 1
  | None => false
  end.

Record bitmap_wf (r : ReducedEffect) : Prop := mkBitmapWf {
  wf_op : re_Op r = INSERT_OP;
  wf_kind : re_Collection r = KEYED ∨
            re_Collection r = SCALAR ∧ re_Scalar r ≠ None ∧ re_NetAdds r = ∅;
  wf_base : Forall is_u8 (base_bytes r);
  wf_base_len : len (base_bytes r) <= maxAlloc;
  wf_adds : map_Forall (λ id v, ∃ off, offset_ok off ∧ id = FormatInt off ∧
                          (v = IntVal 0 ∨ v = IntVal 1)) (re_NetAdds r);
  wf_lasting : re_FieldExpires r = ∅
}.

Lemma ParseInt_FormatInt_offset off : offset_ok off → ParseInt_val (FormatInt off) = (off, true).
Proof. unfold offset_ok. intros Hoff. apply ParseInt_val_FormatInt. widths; lia. Qed.

Lemma FormatInt_nonneg_inj a b : 0 <= a → 0 <= b → FormatInt a = FormatInt b → a = b.
Proof.
  intros Ha Hb. unfold FormatInt. rewrite !(proj2 (Z.ltb_ge _ _)) by lia. by apply FormatUint_inj.
Qed.

Lemma max_offset_spec es m :
  let r := foldl (λ m (e : Z * bool), if m <? fst e then fst e else m) m es in
  m <= r ∧ (∀ e, e ∈ es → fst e <= r) ∧ (r = m ∨ ∃ e, e ∈ es ∧ fst e = r).
Proof.
  revert m. induction es as [|e es IH]; intros m; simpl.
  - split_and!; [lia| |by left]. intros e He. by apply elem_of_nil in He.
  - destruct (IH (if m <? fst e then fst e else m)) as (Hm & Hall & Hex).
    assert (Hge : m <= (if m <? fst e then fst e else m) ∧
                  fst e <= (if m <? fst e then fst e else m)) by (split_if; lia).
    split_and!; [lia|..].
    + intros e' [->|He']%elem_of_cons; [lia|]. by apply Hall.
    + destruct Hex as [->|(e' & He' & <-)].
      * destruct (Z.ltb_spec m (fst e)); [right; exists e; split; [by left|done]|by left].
      * right. exists e'. split; [by right|done].
Qed.

Section Reconstruct.
Context (r : ReducedEffect) (Hwf : bitmap_wf r).
Context (adds : list (bytes * Value)) (Hadds : adds ≡ₚ map_to_list (re_NetAdds r)).

(** Every visited element is an offset with its bit. *)
Lemma entry_shape p :
  p ∈ adds → ∃ off (b : bool), offset_ok off ∧ p = (FormatInt off, IntVal (Z.b2z b)) ∧
    bit_entry p = (off, b).
Proof.
  destruct p as [id v]. rewrite Hadds. intros Hin%elem_of_map_to_list.
  destruct (wf_adds r Hwf id v Hin) as (off & Hoff & -> & Hv).
  destruct Hv as [-> | ->]; [exists off, false|exists off, true]; (split; [done|]);
    (split; [done|]); unfold bit_entry; simpl; by rewrite ParseInt_FormatInt_offset.
Qed.

Lemma entries_range : Forall (λ e, offset_ok (fst e)) (bit_entry <$> adds).
Proof.
  apply Forall_fmap, Forall_forall. intros p Hp.
  destruct (entry_shape p Hp) as (off & b & Hoff & _ & E). unfold compose. by rewrite E.
Qed.

Lemma entries_nodup : NoDup (fst <$> (bit_entry <$> adds)).
Proof.
  rewrite <-list_fmap_compose. apply NoDup_fmap_2_strong.
  - intros p q Hp Hq.
    destruct (entry_shape p Hp) as (o1 & b1 & H1 & Ep & E1), (entry_shape q Hq) as (o2 & b2 & H2 & Eq & E2).
    unfold compose. rewrite E1, E2. simpl. intros <-.
    assert (Hin1 : re_NetAdds r !! FormatInt o1 = Some (IntVal (Z.b2z b1))).
    { apply elem_of_map_to_list. rewrite <-Hadds, <-Ep. done. }
    assert (Hin2 : re_NetAdds r !! FormatInt o1 = Some (IntVal (Z.b2z b2))).
    { apply elem_of_map_to_list. rewrite <-Hadds, <-Eq. done. }
    rewrite Ep, Eq. congruence.
  - rewrite Hadds. apply NoDup_map_to_list.
Qed.

Lemma overlay_true i :
  0 <= i → overlay r i = true ↔ re_NetAdds r !! FormatInt i = Some (IntVal 1).
Proof.
  intros Hi. unfold overlay. split.
  - destruct (re_NetAdds r !! FormatInt i : option Value) as [v|] eqn:E; [|done].
    destruct (wf_adds r Hwf _ _ E) as (off & _ & _ & [-> | ->]); done.
  - by intros ->.
Qed.

Lemma entries_overlay i :
  0 <= i → bool_decide ((i, true) ∈ bit_entry <$> adds) = overlay r i.
Proof.
  intros Hi. apply eq_true_iff_eq. rewrite bool_decide_eq_true, overlay_true by done.
  rewrite list_elem_of_fmap. split.
  - intros (p & Ep & Hp). destruct (entry_shape p Hp) as (off & b & Hoff & -> & E).
    rewrite E in Ep. injection Ep as -> <-. apply elem_of_map_to_list. by rewrite <-Hadds.
  - intros Hin. exists (FormatInt i, IntVal 1). rewrite Hadds.
    split; [|by apply elem_of_map_to_list].
    destruct (wf_adds r Hwf _ _ Hin) as (off & Hoff & Ei & _).
    apply FormatInt_nonneg_inj in Ei as <-; [|done|by destruct Hoff].
    unfold bit_entry. cbn [fst snd]. by rewrite ParseInt_FormatInt_offset.
Qed.

(** The number of bytes the bitmap spans. *)
Definition span : nat :=
  Nat.max (length (base_bytes r))
    (match adds with [] => 0 | _ => Z.to_nat (max_offset (bit_entry <$> adds) / 8 + 1) end).

(** ** The bytes of a snapshot

    Rebuilding a well-formed bitmap always succeeds; the result spans the base
    and every overlay offset, and its bits are the base bits toggled where
    an element carries a 1. *)
Lemma max_offset_bounds :
  let m := max_offset (bit_entry <$> adds) in
  offset_ok m ∧ ∀ e, e ∈ bit_entry <$> adds → 0 <= fst e <= m.
Proof.
  destruct (max_offset_spec (bit_entry <$> adds) 0) as (H0 & Hall & Hex).
  pose proof entries_range as Hr. rewrite Forall_forall in Hr. cbn zeta in *.
  fold (max_offset (bit_entry <$> adds)) in *. split.
  - destruct Hex as [->|(e & He & <-)]; [unfold offset_ok; lia|by apply Hr].
  - intros e He. split; [by destruct (Hr e He)|by apply Hall].
Qed.

Definition needed : Z := Z.quot (max_offset (bit_entry <$> adds)) 8 + 1.

(** The base, grown to hold every entry. *)
Lemma grown_spec (data : bytes) :
  ∃ n, (match bit_entry <$> adds with [] => Some data | _ => grow needed data end)
         = Some (data ++ replicate n 0) ∧
    (length data + n = Nat.max (length data)
       (match adds with [] => 0 | _ => Z.to_nat (max_offset (bit_entry <$> adds) / 8 + 1) end))%nat ∧
    Forall (λ e, 0 <= fst e < 8 * len (data ++ replicate n 0)) (bit_entry <$> adds).
Proof.
  destruct max_offset_bounds as [Hm Hall]. unfold offset_ok, needed in *.
  rewrite Z.quot_div_nonneg by lia. revert Hm Hall.
  generalize (max_offset (bit_entry <$> adds)). intros m Hm Hall.
  destruct adds as [|p l]; cbn [fmap list_fmap].
  - exists 0%nat. rewrite app_nil_r. split_and!; [done|lia|by constructor].
  - eexists. rewrite grow_ok by (unfold maxAlloc; Z.div_mod_to_equations; lia).
    split_and!; [reflexivity|lia|]. apply Forall_forall. intros e He.
    destruct (Hall e He). unfold len. rewrite length_app, length_replicate.
    Z.div_mod_to_equations; lia.
Qed.

Lemma make_is_grow : bit_entry <$> adds ≠ [] → go_make needed = grow needed [].
Proof.
  intros _. unfold grow, needed, len. cbn [length].
  assert (0 <= Z.quot (max_offset (bit_entry <$> adds)) 8).
  { destruct max_offset_bounds as [[Hm _] _]. by apply Z.quot_pos. }
  rewrite (proj2 (Z.ltb_lt _ _)) by lia.
  by destruct (go_make _).
Qed.

Lemma reconstruct_keyed_spec :
  re_Collection r = KEYED →
  ∃ data, reconstruct_with r adds = Some data ∧
    Forall is_u8 data ∧ length data = span ∧
    ∀ i, 0 <= i → bitv data i = xorb (bitv (base_bytes r) i) (overlay r i).
Proof.
  intros HK. destruct (grown_spec (base_bytes r)) as (n & Hg & Hlen & Hr).
  assert (Hok : Forall is_u8 (base_bytes r ++ replicate n 0))
    by (apply Forall_app; split; [by apply wf_base|apply zeros_ok]).
  pose proof entries_nodup as Hnd. pose proof entries_overlay as Hov.
  unfold reconstruct_with. rewrite HK. fold needed. unfold span.
  unfold base_bytes in *. destruct (re_Scalar r) as [v|].
  - rewrite Hg. cbn [mbind option_bind].
    destruct (apply_entries_spec Z.lxor xorb Z.lxor_spec xorb_false_r
      (λ a b Ha Hb, proj2 (Z.lxor_nonneg a b) (conj (λ _, Hb) (λ _, Ha))) _ _ Hok Hnd Hr)
      as (d & E & Hd & Hl & Hbits).
    exists d. split_and!; [exact E|done|by rewrite Hl, length_app, length_replicate|].
    intros i Hi. rewrite Hbits, Hov, bitv_app_zeros by done.
    by destruct (overlay r i); rewrite ?xorb_false_r.
  - destruct (apply_entries_spec Z.lor orb Z.lor_spec orb_false_r
      (λ a b Ha Hb, proj2 (Z.lor_nonneg a b) (conj Ha Hb)) _ _ Hok Hnd Hr)
      as (d & E & Hd & Hl & Hbits).
    exists d. split_and!; [|done|by rewrite Hl, length_app, length_replicate|].
    + destruct (bit_entry <$> adds) eqn:Ee.
      * cbn in E. injection E as <-. by cbn in Hg; injection Hg as Hg; rewrite <-Hg.
      * rewrite make_is_grow by (by rewrite Ee). rewrite Hg. exact E.
    + intros i Hi. rewrite Hbits, Hov, bitv_app_zeros by done.
      rewrite (bitv_beyond []) by done. by destruct (overlay r i).
Qed.

Lemma reconstruct_spec :
  ∃ data, reconstruct_with r adds = Some data ∧
    Forall is_u8 data ∧ length data = span ∧
    ∀ i, 0 <= i → bitv data i = xorb (bitv (base_bytes r) i) (overlay r i).
Proof.
  destruct (wf_kind r Hwf) as [HK|(HS & Hs & Hempty)]; [by apply reconstruct_keyed_spec|].
  assert (adds = []) as Ha.
  { pose proof Hadds as Hp. rewrite Hempty, map_to_list_empty in Hp. by apply Permutation_nil_r in Hp. }
  exists (base_bytes r). unfold reconstruct_with, span. rewrite HS. split_and!.
  - done.
  - by apply wf_base.
  - rewrite Ha. lia.
  - intros i _. unfold overlay. by rewrite Hempty, lookup_empty, xorb_false_r.
Qed.
End Reconstruct.

(** The bytes a well-formed bitmap stands for. *)
Lemma reconstruct_bytes r :
  bitmap_wf r →
  ∃ data, reconstructBitmapBytes (Some r) = Some data ∧
    Forall is_u8 data ∧ length data = span r (map_to_list (re_NetAdds r)) ∧
    ∀ i, 0 <= i → bitv data i = xorb (bitv (base_bytes r) i) (overlay r i).
Proof. intros Hwf. by apply (reconstruct_spec r Hwf (map_to_list (re_NetAdds r))). Qed.

(** The span is the least length that holds the base and every offset. *)
Lemma span_le r adds (n : nat) :
  bitmap_wf r → adds ≡ₚ map_to_list (re_NetAdds r) →
  (span r adds ≤ n)%nat ↔
  (length (base_bytes r) ≤ n)%nat ∧
  ∀ off, 0 <= off → is_Some (re_NetAdds r !! FormatInt off) → off / 8 + 1 <= Z.of_nat n.
Proof.
  intros Hwf Hadds. unfold span. rewrite Nat.max_lub_iff.
  destruct (max_offset_bounds r Hwf adds Hadds) as [Hm Hall].
  destruct (max_offset_spec (bit_entry <$> adds) 0) as (_ & _ & Hex). cbn zeta in *.
  fold (max_offset (bit_entry <$> adds)) in Hex. apply and_iff_compat_l.
  set (m := max_offset (bit_entry <$> adds)) in *. split.
  - intros Hn off Hoff [v Hv].
    assert (Hin : (FormatInt off, v) ∈ adds) by (rewrite Hadds; by apply elem_of_map_to_list).
    destruct (entry_shape r Hwf adds Hadds _ Hin) as (off' & b & Hoff' & [= E _] & Eb).
    apply FormatInt_nonneg_inj in E as <-; [|done|by destruct Hoff'].
    destruct (Hall (off, b)) as [_ Hle].
    { rewrite <-Eb. by apply list_elem_of_fmap_2. }
    cbn [fst] in Hle. destruct adds; [by apply elem_of_nil in Hin|].
    destruct Hm. Z.div_mod_to_equations; lia.
  - intros Hn. destruct adds as [|p l] eqn:Ea; [lia|]. rewrite <-Ea in *.
    assert (Hp : p ∈ adds) by (rewrite Ea; by left).
    assert (Hmn : m / 8 + 1 <= Z.of_nat n); [|destruct Hm; Z.div_mod_to_equations; lia].
    assert (Hpos : ∀ q, q ∈ adds → fst (bit_entry q) / 8 + 1 <= Z.of_nat n).
    { intros q Hq. destruct (entry_shape r Hwf adds Hadds q Hq) as (off & b & Hoff & Eq & Eb).
      rewrite Eb. cbn [fst]. apply Hn; [by destruct Hoff|]. exists (IntVal (Z.b2z b)).
      apply elem_of_map_to_list. rewrite <-Hadds, <-Eq. exact Hq. }
    destruct Hex as [->|(e & He & <-)].
    + specialize (Hpos p Hp). destruct (entry_shape r Hwf adds Hadds p Hp) as (off & b & Hoff & _ & Eb).
      rewrite Eb in Hpos. destruct Hoff. cbn [fst] in Hpos. Z.div_mod_to_equations; lia.
    + apply list_elem_of_fmap in He as (q & -> & Hq). by apply Hpos.
Qed.

Lemma span_perm r adds :
  bitmap_wf r → adds ≡ₚ map_to_list (re_NetAdds r) →
  span r adds = span r (map_to_list (re_NetAdds r)).
Proof.
  intros Hwf Hadds. apply Nat.le_antisymm.
  - apply (span_le r adds); [done..|]. by apply (span_le r (map_to_list (re_NetAdds r))).
  - apply (span_le r (map_to_list (re_NetAdds r))); [done..|]. by apply (span_le r adds).
Qed.

Lemma getScalarBit_spec data off :
  Forall is_u8 data → 0 <= off → getScalarBit data off = Z.b2z (bitv data off).
Proof.
  intros Hd Hoff. unfold getScalarBit, bitv, byte_or_0, go_index.
  rewrite Z.quot_div_nonneg, Z.rem_mod_nonneg by lia.
  assert (0 <= off / 8) by (Z.div_mod_to_equations; lia).
  assert (H8 := Z.mod_pos_bound off 8 ltac:(lia)). unfold len.
  split_if.
  - rewrite lookup_ge_None_2 by lia. cbn [default]. by rewrite Z.bits_0.
  - rewrite (proj2 (Z.ltb_ge _ _)) by lia.
    rewrite Z.testbit_spec' by lia. rewrite Z.land_comm, Z.shiftr_div_pow2 by lia.
    by rewrite Z.land_comm, (Z.land_ones _ 1) by lia.
Qed.

Lemma getBit_spec r off :
  bitmap_wf r → 0 <= off →
  getBit (Some r) off = Z.b2z (xorb (bitv (base_bytes r) off) (overlay r off)).
Proof.
  intros Hwf Hoff. pose proof (wf_base r Hwf) as Hb.
  assert (Hbase : (match re_Scalar r with Some v => getScalarBit (Decompress v) off | None => 0 end)
                  = Z.b2z (bitv (base_bytes r) off)).
  { unfold base_bytes in *. destruct (re_Scalar r); [by apply getScalarBit_spec|].
    by rewrite bitv_beyond. }
  unfold getBit. cbn zeta. rewrite Hbase.
  destruct (wf_kind r Hwf) as [HK|(HS & _ & Hempty)].
  - rewrite HK. unfold overlay.
    destruct (re_NetAdds r !! FormatInt off : option Value) as [v|] eqn:E;
      [|by rewrite xorb_false_r].
    destruct (wf_adds r Hwf _ _ E) as (_ & _ & _ & Hv).
    destruct (re_Scalar r) as [sv|] eqn:ES.
    + destruct Hv as [-> | ->]; simpl; by destruct (bitv _ off).
    + unfold base_bytes. rewrite ES, bitv_beyond by done. destruct Hv as [-> | ->]; done.
  - rewrite HS. unfold overlay. by rewrite Hempty, lookup_empty, xorb_false_r.
Qed.

(** ** Setting one bit *)

(** What SETBIT promises: the string padded with zero bytes up to the
    offset's byte, with that one bit replaced. *)
Definition set_bit (data : bytes) (off : Z) (v : bool) : bytes :=
  alter (λ b, if v then Z.lor b (2 ^ (7 - off mod 8)) else Z.ldiff b (2 ^ (7 - off mod 8)))
    (Z.to_nat (off / 8))
    (data ++ replicate (Z.to_nat (off / 8 + 1) - length data) 0).

Lemma set_bit_spec data off v :
  Forall is_u8 data → 0 <= off →
  Forall is_u8 (set_bit data off v) ∧
  length (set_bit data off v) = Nat.max (length data) (Z.to_nat (off / 8 + 1)) ∧
  ∀ i, 0 <= i → bitv (set_bit data off v) i = if i =? off then v else bitv data i.
Proof.
  intros Hd Hoff. unfold set_bit.
  set (data' := data ++ replicate (Z.to_nat (off / 8 + 1) - length data) 0).
  assert (Hlen : length data' = Nat.max (length data) (Z.to_nat (off / 8 + 1)))
    by (unfold data'; rewrite length_app, length_replicate; lia).
  assert (Hok : Forall is_u8 data') by (apply Forall_app; split; [done|apply zeros_ok]).
  assert (Hr : 0 <= off < 8 * len data').
  { unfold len. rewrite Hlen. Z.div_mod_to_equations; lia. }
  assert (Hin : (0 <=? Z.quot off 8) && (Z.quot off 8 <? len data') = true).
  { rewrite Z.quot_div_nonneg by lia. apply andb_true_intro.
    rewrite Z.leb_le, Z.ltb_lt. Z.div_mod_to_equations; lia. }
  destruct v;
    [destruct (update_bit_spec Z.lor orb Z.lor_spec orb_false_r
       (λ a b Ha Hb, proj2 (Z.lor_nonneg a b) (conj Ha Hb)) data' off Hok Hr)
       as (d & E & Hd' & Hl & Hb)
    |destruct (update_bit_spec Z.ldiff (λ a b, a && negb b) Z.ldiff_spec andb_true_r
       (λ a b Ha Hb, proj2 (Z.ldiff_nonneg a b) (or_introl Ha)) data' off Hok Hr)
       as (d & E & Hd' & Hl & Hb)];
    unfold go_update in E; rewrite Hin, Z.quot_div_nonneg, bit_mask_pow in E by lia;
    injection E as <-; (split_and!; [exact Hd'|by rewrite length_alter|]);
    intros i Hi; specialize (Hb i Hi); rewrite Hb;
    (destruct (i =? off); [by rewrite ?orb_true_r, ?andb_false_r|]);
    unfold data'; by apply bitv_app_zeros.
Qed.

(** The snapshot after one more bit element. *)
Definition with_bit (r : ReducedEffect) (off : Z) (e : bool) : ReducedEffect :=
  mkReducedAt INSERT_OP KEYED (re_TypeTag r) (re_Scalar r)
    (<[FormatInt off := IntVal (Z.b2z e)]> (re_NetAdds r)) [] (re_ExpiresAt r) (re_FieldExpires r).

Lemma with_bit_wf r off e : bitmap_wf r → offset_ok off → bitmap_wf (with_bit r off e).
Proof.
  intros Hwf Hoff. constructor; cbn [re_Op re_Collection with_bit re_NetAdds re_Scalar re_FieldExpires].
  - done.
  - by left.
  - exact (wf_base r Hwf).
  - exact (wf_base_len r Hwf).
  - apply map_Forall_insert_2; [|exact (wf_adds r Hwf)].
    exists off. split_and!; [done..|]. destruct e; [by right|by left].
  - exact (wf_lasting r Hwf).
Qed.

Lemma with_bit_overlay r off e i :
  0 <= off → 0 <= i → overlay (with_bit r off e) i = if i =? off then e else overlay r i.
Proof.
  intros Hoff Hi. unfold overlay, with_bit; cbn [re_NetAdds]. destruct (Z.eqb_spec i off) as [->|Hne].
  - rewrite lookup_insert_eq. by destruct e.
  - rewrite lookup_insert_ne; [done|]. intros E. apply Hne. symmetry.
    by apply FormatInt_nonneg_inj in E.
Qed.

Lemma with_bit_span r off e (n : nat) :
  bitmap_wf r → offset_ok off →
  (span (with_bit r off e) (map_to_list (re_NetAdds (with_bit r off e))) ≤ n)%nat ↔
  (Nat.max (span r (map_to_list (re_NetAdds r))) (Z.to_nat (off / 8 + 1)) ≤ n)%nat.
Proof.
  intros Hwf Hoff. pose proof (with_bit_wf r off e Hwf Hoff) as Hwf'.
  rewrite Nat.max_lub_iff, !span_le by done.
  change (base_bytes (with_bit r off e)) with (base_bytes r).
  assert (Hiff : (Z.to_nat (off / 8 + 1) ≤ n)%nat ↔ off / 8 + 1 <= Z.of_nat n).
  { destruct Hoff. Z.div_mod_to_equations; lia. }
  rewrite Hiff, Logic.and_assoc. apply and_iff_compat_l. cbn [re_NetAdds with_bit]. split.
  - intros Hn. split.
    + intros o Ho Hs. apply Hn; [done|]. apply lookup_insert_is_Some'. by right.
    + apply Hn; [by destruct Hoff|]. rewrite lookup_insert_eq. by eexists.
  - intros [Hn Hn'] o Ho [E|Hs]%lookup_insert_is_Some'; [|by apply Hn].
    apply FormatInt_nonneg_inj in E as <-; [done|by destruct Hoff|done].
Qed.

(** Emitting [v] relative to the base sets the bit to [v]. *)
Lemma reconstruct_with_bit r data off v :
  bitmap_wf r → offset_ok off → reconstructBitmapBytes (Some r) = Some data →
  reconstructBitmapBytes (Some (with_bit r off (xorb v (bitv (base_bytes r) off))))
    = Some (set_bit data off v).
Proof.
  intros Hwf Hoff Hdata. set (e := xorb v (bitv (base_bytes r) off)).
  destruct (reconstruct_bytes r Hwf) as (d & E & Hd & Hl & Hb).
  rewrite Hdata in E. injection E as <-.
  destruct (reconstruct_bytes _ (with_bit_wf r off e Hwf Hoff)) as (d' & -> & Hd' & Hl' & Hb').
  f_equal. destruct (set_bit_spec data off v Hd (proj1 Hoff)) as (Hs & Hsl & Hsb).
  apply bytes_ext; [done..| |].
  - rewrite Hl', Hsl, Hl. apply Nat.le_antisymm.
    + by apply with_bit_span.
    + apply (with_bit_span r off e); [done..|lia].
  - intros i [Hi _]. rewrite Hb', Hsb, Hb, with_bit_overlay by (try done; apply Hoff).
    change (base_bytes (with_bit r off e)) with (base_bytes r).
    destruct (Z.eqb_spec i off) as [->|]; [|done]. unfold e.
    by destruct v, (bitv (base_bytes r) off).
Qed.
End Wf.

(** ** The commands *)
Section Commands.
Context `{EngineLaws}.

(** A key that holds a bitmap, a string, or nothing. *)
Definition bitmap_key (s : option ReducedEffect) : Prop :=
  match s with None => True | Some r => bitmap_wf r end.

Lemma classify_wf r tips : bitmap_wf r → classify_bitmap (Some r) tips = mkSnapRes (Some r) tips true false.
Proof.
  intros Hwf. unfold classify_bitmap. rewrite (wf_op r Hwf).
  destruct (wf_kind r Hwf) as [-> | (-> & _ & _)]; reflexivity.
Qed.

Lemma returns_bitmap_snapshot k st :
  healthy (st_ctx st) →
  ∃ tips, returns (getBitmapSnapshot k) st (classify_bitmap (view (st_ctx st) k) tips)
            (view (st_ctx st)).
Proof.
  intros Hh. destruct (returns_get k st Hh) as [tips Hg]. exists tips.
  apply (returns_bind _ _ _ _ _ _ _ Hg). intros c' Hh' Hv. cbn. by apply returns_ret.
Qed.

Definition updated (v : bytes → option ReducedEffect) (key : bytes) (s : option ReducedEffect)
    (k : bytes) : option ReducedEffect :=
  if decide (k = key) then s else v k.

(** One emitted effect whose reduction is known, then the rest. *)
Lemma ends_emit {A} e tips (m : M A) st r w v' :
  healthy (st_ctx st) → reduce (view (st_ctx st) (ef_Key e)) (ef_Kind e) = Some r →
  (∀ c', healthy c' → (∀ k, view c' k = updated (view (st_ctx st)) (ef_Key e) r k) →
     ends m (mkSt c' (st_w st) (st_held st)) w v') →
  ends (emit e tips ≫= λ _, m) st w v'.
Proof. intros Hh Hr Hm. by apply (ends_bind _ _ _ _ _ _ _ (returns_emit e tips st r Hh Hr)). Qed.

Lemma view_updated_twice (v : bytes → option ReducedEffect) key s1 s2 k :
  updated (updated v key s1) key s2 k = updated v key s2 k.
Proof. unfold updated. by repeat case_decide. Qed.

Definition empty_bitmap : ReducedEffect := mkReduced INSERT_OP KEYED TYPE_BITMAP None ∅ [].

Lemma empty_bitmap_wf : bitmap_wf empty_bitmap.
Proof.
  constructor; cbn; [done|by left|constructor|unfold len, maxAlloc; cbn; lia|apply map_Forall_empty|done].
Qed.

(** SETBIT on an existing bitmap or string. *)
Lemma setbit_existing key off v r st :
  healthy (st_ctx st) → offset_ok off → view (st_ctx st) key = Some r → bitmap_wf r →
  ends (setbit_runner key off (Z.b2z v)) st
    (WriteInteger (getBit (Some r) off) (st_w st))
    (updated (view (st_ctx st)) key (Some (with_bit r off (xorb v (bitv (base_bytes r) off))))).
Proof.
  intros Hh Hoff Hv Hwf. unfold setbit_runner.
  destruct (returns_bitmap_snapshot key st Hh) as [tips Hs]. rewrite Hv, classify_wf in Hs by done.
  apply (ends_bind _ _ _ _ _ _ _ Hs). intros c' Hh' Hv'. cbn [sr_wrongType sr_snap].
  rewrite (bool_decide_eq_false_2 (Some r = None)) by done. cbn [andb].
  match goal with |- context [emitSetBit key off ?e] => assert (e = Z.b2z (xorb v (bitv (base_bytes r) off))) as -> end.
  { pose proof (wf_base r Hwf) as Hb. unfold base_bytes in *.
    destruct (re_Scalar r) as [sv|];
      [|rewrite (bitv_beyond []) by exact (proj1 Hoff); by rewrite xorb_false_r].
    rewrite getScalarBit_spec by (try done; apply Hoff). by destruct v, (bitv _ off). }
  eapply ends_emit; [done| |].
  { cbn [ef_Key ef_Kind reduce de_Collection de_Op de_Merge de_Value de_Id st_ctx]. rewrite Hv', Hv.
    cbn [is_live].
    assert (re_FieldExpires r !! FormatInt off = None) as -> by (by rewrite (wf_lasting r Hwf), lookup_empty).
    rewrite (wf_op r Hwf).
    destruct (wf_kind r Hwf) as [-> | (-> & _ & _)]; reflexivity. }
  intros c'' Hh'' Hv''. apply ends_ret_bind, ends_write; [done..|]. intros k. rewrite Hv''. cbn [st_ctx ef_Key].
  unfold updated. case_decide; [done|]. apply Hv'.
Qed.

(** SETBIT to 1 on a missing key. *)
Lemma setbit_new_one key off st :
  healthy (st_ctx st) → offset_ok off → view (st_ctx st) key = None →
  ends (setbit_runner key off 1) st (WriteInteger 0 (st_w st))
    (updated (view (st_ctx st)) key (Some (with_bit empty_bitmap off true))).
Proof.
  intros Hh Hoff Hv. unfold setbit_runner.
  destruct (returns_bitmap_snapshot key st Hh) as [tips Hs]. rewrite Hv in Hs.
  apply (ends_bind _ _ _ _ _ _ _ Hs). intros c' Hh' Hv'. cbn.
  eapply ends_emit; [done| |].
  { cbn [ef_Key ef_Kind reduce de_Collection de_Op de_Merge de_Value de_Id st_ctx]. rewrite Hv', Hv. reflexivity. }
  intros c2 Hh2 Hv2. eapply ends_emit; [done| |].
  { cbn [ef_Key ef_Kind reduce st_ctx]. rewrite Hv2. unfold updated.
    cbn [ef_Key]. rewrite decide_True by done. cbn. reflexivity. }
  intros c3 Hh3 Hv3. apply ends_write; [done..|]. intros k. rewrite Hv3. cbn [st_ctx ef_Key re_TypeTag re_Op re_Collection re_Scalar re_NetAdds re_OrderedElements].
  unfold updated, with_bit. cbn [re_NetAdds empty_bitmap re_Scalar re_TypeTag]. case_decide; [|].
  - by rewrite insert_empty.
  - rewrite Hv2. unfold updated. rewrite decide_False by done. apply Hv'.
Qed.

(** SETBIT to 0 on a missing key: a string of zero bytes. *)
Definition zero_string (off : Z) : ReducedEffect :=
  mkReduced INSERT_OP SCALAR TYPE_BITMAP (Some (Raw (replicate (Z.to_nat (Z.quot off 8 + 1)) 0))) ∅ [].

Lemma setbit_new_zero key off st :
  healthy (st_ctx st) → offset_ok off → view (st_ctx st) key = None →
  ends (setbit_runner key off 0) st (WriteInteger 0 (st_w st))
    (updated (view (st_ctx st)) key (Some (zero_string off))).
Proof.
  intros Hh Hoff Hv. unfold setbit_runner.
  destruct (returns_bitmap_snapshot key st Hh) as [tips Hs]. rewrite Hv in Hs.
  apply (ends_bind _ _ _ _ _ _ _ Hs). intros c' Hh' Hv'.
  cbn [sr_wrongType sr_snap classify_bitmap]. rewrite (bool_decide_eq_true_2 (None = None)) by done.
  cbn [andb Z.eqb]. eapply ends_or_panic.
  { apply go_make_ok. destruct Hoff. rewrite Z.quot_div_nonneg by lia. unfold maxAlloc.
    Z.div_mod_to_equations; lia. }
  eapply ends_emit; [done| |].
  { cbn [ef_Key ef_Kind reduce de_Collection de_Op de_Merge de_Value de_Id st_ctx]. rewrite Hv', Hv. reflexivity. }
  intros c2 Hh2 Hv2. eapply ends_emit; [done| |].
  { cbn [ef_Key ef_Kind reduce st_ctx]. rewrite Hv2. unfold updated.
    cbn [ef_Key]. rewrite decide_True by done. cbn. reflexivity. }
  intros c3 Hh3 Hv3. apply ends_reply; [done..|]. intros k. rewrite Hv3. cbn [st_ctx ef_Key].
  unfold updated. case_decide; [done|]. rewrite Hv2. unfold updated. cbn [ef_Key st_ctx].
  rewrite decide_False by done. by rewrite Hv'.
Qed.

Lemma zero_string_bytes off :
  offset_ok off →
  bitmap_wf (zero_string off) ∧
  reconstructBitmapBytes (Some (zero_string off)) = Some (set_bit [] off false).
Proof.
  intros Hoff. assert (Hlen : Z.to_nat (Z.quot off 8 + 1) = Z.to_nat (off / 8 + 1)).
  { destruct Hoff. by rewrite Z.quot_div_nonneg by lia. }
  assert (Hwf : bitmap_wf (zero_string off)).
  { unfold zero_string.
    constructor; unfold base_bytes; cbn [re_Op re_Collection re_Scalar re_NetAdds]; rewrite ?law_raw.
    - done.
    - by right.
    - apply zeros_ok.
    - unfold len, maxAlloc, offset_ok in *. rewrite length_replicate, Hlen. Z.div_mod_to_equations; lia.
    - apply map_Forall_empty.
    - done. }
  split; [done|]. cbn. rewrite law_raw. f_equal.
  destruct (set_bit_spec [] off false (Forall_nil_2 _) (proj1 Hoff)) as (Hs & Hsl & Hsb).
  apply bytes_ext; [apply zeros_ok|done| |].
  - rewrite length_replicate, Hsl. cbn [length]. rewrite Hlen. lia.
  - intros i [Hi _]. rewrite bitv_zeros, Hsb, (bitv_beyond []) by done. by destruct (i =? off).
Qed.

(** C1: SETBIT refines the update of one bit of a string.  For every offset
    the command accepts and either bit value, on a missing key, a string or a
    bitmap, the runner never fails: it replies the old value of the bit, leaves
    every other key as it was, and leaves a well-formed bitmap whose bytes are
    the old ones padded with zeros up to the offset with only that bit
    replaced; whether the bit is stored as a toggle of the string below it, as
    an absolute bit or as a fresh string of zeros cannot be observed. *)
Theorem setbit_correct (key : bytes) (off : Z) (v : bool) (st : St) (data : bytes) :
  healthy (st_ctx st) → offset_ok off → bitmap_key (view (st_ctx st) key) →
  reconstructBitmapBytes (view (st_ctx st) key) = Some data →
  ∃ runner r', handleSetBit [key; FormatInt off; FormatInt (Z.b2z v)] = Accept [key] runner ∧
    ends runner st (WriteInteger (Z.b2z (bitv data off)) (st_w st))
      (updated (view (st_ctx st)) key (Some r')) ∧
    bitmap_wf r' ∧ reconstructBitmapBytes (Some r') = Some (set_bit data off v).
Proof.
  intros Hh Hoff Hkey Hdata. exists (setbit_runner key off (Z.b2z v)).
  assert (Hacc : handleSetBit [key; FormatInt off; FormatInt (Z.b2z v)]
                 = Accept [key] (setbit_runner key off (Z.b2z v))).
  { unfold handleSetBit, offset_ok in *. rewrite !ParseInt64_Format by (destruct v; widths; lia).
    rewrite (proj2 (Z.ltb_ge off 0)), (proj2 (Z.leb_gt _ off)) by lia. by destruct v. }
  destruct (view (st_ctx st) key) as [r|] eqn:Hv; cbn [bitmap_key] in Hkey.
  - exists (with_bit r off (xorb v (bitv (base_bytes r) off))).
    destruct (reconstruct_bytes r Hkey) as (d & E & _ & _ & Hb). rewrite Hdata in E. injection E as <-.
    split_and!; [done| |by apply with_bit_wf|by apply reconstruct_with_bit].
    rewrite Hb, <-getBit_spec by (try done; apply Hoff). by apply setbit_existing.
  - injection Hdata as <-. rewrite (bitv_beyond [] off) by exact (proj1 Hoff). destruct v.
    + exists (with_bit empty_bitmap off true). split_and!; [done|by apply setbit_new_one| |].
      * apply with_bit_wf; [apply empty_bitmap_wf|done].
      * rewrite <-(reconstruct_with_bit empty_bitmap [] off true empty_bitmap_wf Hoff eq_refl).
        by rewrite bitv_beyond by exact (proj1 Hoff).
    + destruct (zero_string_bytes off Hoff). exists (zero_string off).
      split_and!; [done|by apply setbit_new_zero|done..].
Qed.

(** GETBIT reads the bit of the bytes the key stands for, at any
    non-negative offset, and changes nothing. *)
Theorem getbit_correct (key : bytes) (off : Z) (st : St) (data : bytes) :
  healthy (st_ctx st) → 0 <= off <= MaxInt64 → bitmap_key (view (st_ctx st) key) →
  reconstructBitmapBytes (view (st_ctx st) key) = Some data →
  ∃ runner, handleGetBit [key; FormatInt off] = Accept [key] runner ∧
    ends runner st (WriteInteger (Z.b2z (bitv data off)) (st_w st)) (view (st_ctx st)).
Proof.
  intros Hh Hoff Hkey Hdata. exists (getbit_runner key off). split.
  { unfold handleGetBit. rewrite ParseInt64_Format by (widths; lia).
    by rewrite (proj2 (Z.ltb_ge off 0)) by lia. }
  unfold getbit_runner. destruct (returns_bitmap_snapshot key st Hh) as [tips Hs].
  apply (ends_bind _ _ _ _ _ _ _ Hs). intros c' Hh' Hv'.
  destruct (view (st_ctx st) key) as [r|] eqn:Hv; cbn [bitmap_key] in Hkey.
  - destruct (reconstruct_bytes r Hkey) as (d & E & _ & _ & Hb). rewrite Hdata in E. injection E as <-.
    rewrite classify_wf by done. cbn [sr_exists sr_wrongType sr_snap negb].
    apply ends_write; [done| |done]. rewrite getBit_spec, Hb by (try done; lia). done.
  - injection Hdata as <-. apply ends_reply; [done| |done].
    by rewrite (bitv_beyond [] off) by exact (proj1 Hoff).
Qed.

(** The order in which Go visits the overlay map does not matter: any
    order of the elements of a well-formed bitmap rebuilds the same bytes, and
    never panics. *)
Theorem reconstruct_order_independent (r : ReducedEffect) (adds : list (bytes * Value)) :
  bitmap_wf r → adds ≡ₚ map_to_list (re_NetAdds r) →
  ∃ data, reconstruct_with r adds = Some data ∧ reconstructBitmapBytes (Some r) = Some data.
Proof.
  intros Hwf Hadds. destruct (reconstruct_spec r Hwf adds Hadds) as (d & E & Hd & Hl & Hb).
  destruct (reconstruct_bytes r Hwf) as (d' & E' & Hd' & Hl' & Hb').
  exists d. split; [done|]. rewrite E'. f_equal. apply bytes_ext; [done..| |].
  - rewrite Hl, Hl'. symmetry. by apply span_perm.
  - intros i [Hi _]. by rewrite Hb, Hb'.
Qed.
End Commands.

(** ** Witnesses

    The key "k" holding the two bytes 0x80 0x01, with bit 3 toggled on top. *)
Module BitmapExample.
Import RefEngine.
Definition key : bytes := str "k".
Definition snap : ReducedEffect :=
  mkReduced INSERT_OP KEYED TYPE_BITMAP (Some (Raw [128; 1])) {[ FormatInt 3 := IntVal 1 ]} [].
Definition ctx : Ctx := holding {[ key := snap ]}.
Definition st : St := mkSt ctx (NewWriter []) [].

Lemma snap_wf : bitmap_wf snap.
Proof.
  constructor.
  - done.
  - by left.
  - repeat constructor; unfold is_u8; lia.
  - unfold len, maxAlloc; cbn; lia.
  - unfold snap. cbn [re_NetAdds]. apply map_Forall_singleton. exists 3. unfold offset_ok. split_and!; [lia..|done|by right].
  - done.
Qed.

Lemma key_view : view ctx key = Some snap.
Proof. reflexivity. Qed.

Lemma setbit_correct_witness :
  ∃ runner r', handleSetBit [key; FormatInt 20; FormatInt (Z.b2z true)] = Accept [key] runner ∧
    ends runner st (WriteInteger (Z.b2z (bitv [144; 1] 20)) (st_w st))
      (updated (view ctx) key (Some r')) ∧
    bitmap_wf r' ∧ reconstructBitmapBytes (Some r') = Some (set_bit [144; 1] 20 true).
Proof.
  apply (setbit_correct key 20 true st [144; 1]).
  - exact I.
  - unfold offset_ok. lia.
  - exact snap_wf.
  - vm_compute. reflexivity.
Defined.

Lemma getbit_correct_witness :
  ∃ runner, handleGetBit [key; FormatInt 3] = Accept [key] runner ∧
    ends runner st (WriteInteger (Z.b2z (bitv [144; 1] 3)) (st_w st)) (view ctx).
Proof.
  apply (getbit_correct key 3 st [144; 1]).
  - exact I.
  - unfold MaxInt64. lia.
  - exact snap_wf.
  - vm_compute. reflexivity.
Defined.

Lemma reconstruct_order_independent_witness :
  ∃ data, reconstruct_with snap [(FormatInt 3, IntVal 1)] = Some data ∧
    reconstructBitmapBytes (Some snap) = Some data.
Proof.
  apply (reconstruct_order_independent snap [(FormatInt 3, IntVal 1)]).
  - exact snap_wf.
  - cbn [re_NetAdds snap]. by rewrite map_to_list_singleton.
Defined.
End BitmapExample.
