(* ===== verification/BitCount.v ===== *)
(** * BITCOUNT and BITPOS

    The counting and searching loops against their definitions on the bits of
    the string, the element-counting fast path included. *)

From S2P Require Import Prelude GoBytes Strconv Writer Engine Bitmap BitmapProps.

Local Open Scope Z_scope.

(** How many elements satisfy [f]. *)
Fixpoint count_if {A} (f : A → bool) (l : list A) : Z :=
  match l with
  | [] => 0
  | x :: l' => Z.b2z (f x) + count_if f l'
  end.

Lemma count_if_app {A} (f : A → bool) l1 l2 :
  count_if f (l1 ++ l2) = count_if f l1 + count_if f l2.
Proof. induction l1 as [|x l1 IH]; simpl; [done|]. rewrite IH. lia. Qed.

Lemma count_if_filter {A} (f : A → bool) l : count_if f l = len (filter (λ x, f x = true) l).
Proof.
  unfold len. induction l as [|x l IH]; [done|]. cbn [count_if]. rewrite IH, filter_cons.
  case_decide as Hf; [|apply not_true_is_false in Hf]; rewrite Hf; cbn [length Z.b2z]; lia.
Qed.

Lemma count_if_ext {A} (f g : A → bool) l :
  (∀ x, x ∈ l → f x = g x) → count_if f l = count_if g l.
Proof.
  induction l as [|x l IH]; intros Hfg; simpl; [done|]. rewrite IH, (Hfg x); [done|by left|].
  intros y Hy. apply Hfg. by right.
Qed.

(** ** The loops *)

(** The bits the commands look at: a byte range is eight times as long. *)
Definition bit_range (useBit : bool) (lo hi : Z) : list Z :=
  if useBit then seqZ lo (hi - lo + 1) else seqZ (8 * lo) (8 * (hi - lo + 1)).

Lemma bit_at_spec data i :
  Forall is_u8 data → 0 <= i → bit_at data i = Z.b2z (bitv data i).
Proof.
  intros Hd Hi. unfold bit_at, bitv, byte_or_0, go_index.
  rewrite Z.quot_div_nonneg, Z.rem_mod_nonneg by lia.
  assert (0 <= i / 8) by (Z.div_mod_to_equations; lia).
  assert (H8 := Z.mod_pos_bound i 8 ltac:(lia)).
  rewrite (proj2 (Z.ltb_ge _ _)) by lia.
  rewrite Z.testbit_spec' by lia. rewrite Z.shiftr_div_pow2 by lia. by apply (Z.land_ones _ 1).
Qed.

Lemma count_bits_spec data s e :
  Forall is_u8 data → 0 <= s → count_bits data s e = count_if (bitv data) (bit_range true s e).
Proof.
  intros Hd Hs. unfold count_bits, bit_range.
  assert (Hin : ∀ i, i ∈ seqZ s (e - s + 1) → 0 <= i) by (intros i [? ?]%elem_of_seqZ; lia).
  revert Hin. generalize (seqZ s (e - s + 1)). intros l Hin.
  assert (Hgen : ∀ c, foldl (λ count i, if bit_at data i =? 1 then count + 1 else count) c l
                      = c + count_if (bitv data) l); [|by rewrite Hgen].
  induction l as [|i l IH]; intros c; simpl; [lia|].
  rewrite IH by (intros j Hj; apply Hin; by right).
  rewrite bit_at_spec by (try done; apply Hin; by left). destruct (bitv data i); simpl; lia.
Qed.

(** One byte: its population count is the number of its bits. *)
Lemma byte_count data (i : nat) :
  OnesCount8 (byte_or_0 data i) = count_if (bitv data) (seqZ (8 * Z.of_nat i) 8).
Proof.
  unfold OnesCount8. rewrite <-count_if_filter.
  change (seqZ 0 8) with [0; 1; 2; 3; 4; 5; 6; 7].
  replace (seqZ (8 * Z.of_nat i) 8) with ((λ k, 8 * Z.of_nat i + k) <$> [0; 1; 2; 3; 4; 5; 6; 7])
    by (unfold seqZ; change (Z.to_nat 8) with 8%nat; cbn [seq fmap list_fmap];
        repeat first [reflexivity | apply (f_equal2 cons); [lia|]]).
  cbn [count_if fmap list_fmap].
  rewrite !bitv_byte by lia.
  repeat match goal with |- context [bitv data ?x] =>
    lazymatch x with Z.of_nat i * 8 + (7 - ?k) =>
      let k' := eval vm_compute in (7 - k) in
      replace x with (8 * Z.of_nat i + k') by lia end end.
  lia.
Qed.

Lemma count_bytes_spec data s e :
  0 <= s → count_bytes data s e = count_if (bitv data) (bit_range false s e).
Proof.
  intros Hs. unfold count_bytes, bit_range. destruct (decide (e - s + 1 < 0)) as [Hneg|Hpos].
  { unfold seqZ. by rewrite !Z2Nat.nonpos by lia. }
  rewrite <-(Z2Nat.id (e - s + 1)) by lia. generalize (Z.to_nat (e - s + 1)). intros n.
  induction n as [|n IH]; [done|]. rewrite seqZ_S, foldl_app, IH. cbn [foldl].
  replace (8 * Z.of_nat (S n)) with (8 * Z.of_nat n + 8) by lia.
  rewrite seqZ_app, count_if_app by lia. f_equal.
  unfold go_index. rewrite (proj2 (Z.ltb_ge _ _)) by lia.
  fold (byte_or_0 data (Z.to_nat (s + Z.of_nat n))). rewrite byte_count. f_equal. f_equal. lia.
Qed.

(** ** Ranges *)

(** Negative indices count from the end; the range is cut to the string. *)
Definition norm_range (start end_ size : Z) : Z * Z :=
  (Z.max 0 (if start <? 0 then size + start else start),
   Z.min (size - 1) (if end_ <? 0 then size + end_ else end_)).

Lemma clamp_range_spec start end_ size :
  is_i64 start → is_i64 end_ → 0 <= size <= 8 * maxAlloc →
  clamp_range start end_ size = norm_range start end_ size.
Proof.
  intros Hs He Hsize. unfold clamp_range, norm_range, maxAlloc in *.
  assert (H1 : i64 (size + start) = size + start ∨ 0 <= start)
    by (destruct (decide (0 <= start)); [by right|left; apply i64_id; widths; lia]).
  assert (H2 : i64 (size + end_) = size + end_ ∨ 0 <= end_)
    by (destruct (decide (0 <= end_)); [by right|left; apply i64_id; widths; lia]).
  f_equal; repeat case_match; reflect_bools; lia.
Qed.

(** The bits of the string a command is asked about. *)
Definition asked_bits (data : bytes) (start end_ : Z) (useBit : bool) : list Z :=
  let '(lo, hi) := norm_range start end_ (if useBit then len data * 8 else len data) in
  bit_range useBit lo hi.

Lemma bit_range_empty useBit lo hi : hi < lo → bit_range useBit lo hi = [].
Proof. intros Hlt. unfold bit_range, seqZ. destruct useBit; by rewrite Z2Nat.nonpos by lia. Qed.

Section BitCount.
Context `{EngineLaws}.

Lemma reconstruct_len r data :
  bitmap_wf r → reconstructBitmapBytes (Some r) = Some data →
  Forall is_u8 data ∧ 0 <= len data <= maxAlloc.
Proof.
  intros Hwf Hdata. destruct (reconstruct_bytes r Hwf) as (d & E & Hd & Hl & _).
  rewrite Hdata in E. injection E as <-. split; [done|]. unfold len. rewrite Hl.
  split; [lia|]. assert (Hs : (span r (map_to_list (re_NetAdds r)) ≤ Z.to_nat maxAlloc)%nat);
    [|unfold maxAlloc in *; lia].
  apply span_le; [done..|]. pose proof (wf_base_len r Hwf). unfold len, maxAlloc in *. split; [lia|].
  intros off Hoff [v Hv]. destruct (wf_adds r Hwf _ _ Hv) as (off' & Hoff' & E & _).
  apply FormatInt_nonneg_inj in E as <-; [|done|by destruct Hoff'].
  unfold offset_ok in Hoff'. Z.div_mod_to_equations; lia.
Qed.

(** The fast path: without a base the 1 bits are the elements carrying a 1. *)
Lemma ones_count_entries (adds : list (bytes * Value)) :
  len (filter (λ v, GetIntVal v = 1) (snd <$> adds)) =
  len (fst <$> filter (λ e, snd e = true) (bit_entry <$> adds)).
Proof.
  unfold len. induction adds as [|[id v] l IH]; [done|].
  rewrite !fmap_cons, !filter_cons. cbn [snd bit_entry fst].
  destruct (Z.eqb_spec (GetIntVal v) 1).
  - rewrite decide_True, decide_True by done. cbn [length fmap list_fmap]. lia.
  - rewrite decide_False, decide_False by done. exact IH.
Qed.

Lemma fast_count r data :
  bitmap_wf r → re_Scalar r = None → reconstructBitmapBytes (Some r) = Some data →
  len (filter (λ v, GetIntVal v = 1) (snd <$> map_to_list (re_NetAdds r)))
  = count_if (bitv data) (seqZ 0 (8 * len data)).
Proof.
  intros Hwf HS Hdata. rewrite ones_count_entries, count_if_filter. unfold len. f_equal.
  apply Permutation_length. destruct (reconstruct_bytes r Hwf) as (d & E & Hd & _ & Hb).
  rewrite Hdata in E. injection E as <-.
  assert (Hbit : ∀ i, 0 <= i → bitv data i = overlay r i).
  { intros i Hi. rewrite Hb by done. unfold base_bytes. rewrite HS.
    rewrite (bitv_beyond [] i) by exact Hi. done. }
  apply NoDup_Permutation.
  - eapply sublist_NoDup; [apply (entries_nodup r Hwf _ (reflexivity _))|].
    apply fmap_sublist, sublist_filter.
  - apply NoDup_filter, NoDup_seqZ.
  - intros i. rewrite list_elem_of_filter, elem_of_seqZ. split.
    + intros ([o b] & -> & Hin)%list_elem_of_fmap. apply list_elem_of_filter in Hin as [Hb' Hin].
      cbn [snd fst] in *. subst b.
      assert (Ho : 0 <= o).
      { pose proof (entries_range r Hwf _ (reflexivity _)) as Hr. rewrite Forall_forall in Hr.
        by destruct (Hr _ Hin). }
      assert (Ht : bitv data o = true).
      { rewrite Hbit, <-(entries_overlay r Hwf _ (reflexivity _)) by done.
        by apply bool_decide_eq_true_2. }
      split; [done|]. split; [done|]. destruct (decide (o < 0 + 8 * len data)); [done|].
      rewrite bitv_beyond in Ht by lia. done.
    + intros [Ht [Hi _]]. apply list_elem_of_fmap. exists (i, true). split; [done|].
      apply list_elem_of_filter. split; [done|].
      rewrite Hbit, <-(entries_overlay r Hwf _ (reflexivity _)) in Ht by done.
      by apply bool_decide_eq_true_1 in Ht.
Qed.

(** The slow path counts exactly the bits asked about. *)
Lemma slow_count data start end_ (useBit : bool) st v (Hv : ∀ k, view (st_ctx st) k = v k) :
  healthy (st_ctx st) → Forall is_u8 data → 0 <= len data <= maxAlloc →
  is_i64 start → is_i64 end_ →
  ends (if useBit then
          let '(s, e) := clamp_range start end_ (len data * 8) in
          if (e <? s) || (len data * 8 <=? s) then reply (WriteInteger 0)
          else write (WriteInteger (count_bits data s e))
        else
          let '(s, e) := clamp_range start end_ (len data) in
          if (e <? s) || (len data <=? s) then reply (WriteInteger 0)
          else write (WriteInteger (count_bytes data s e)))
    st (WriteInteger (count_if (bitv data) (asked_bits data start end_ useBit)) (st_w st)) v.
Proof.
  intros Hh Hd Hl Hs He. unfold asked_bits.
  destruct useBit; rewrite clamp_range_spec by (try done; unfold maxAlloc in *; lia);
    destruct (norm_range start end_ _) as [lo hi] eqn:En; unfold norm_range in En;
    injection En as Elo Ehi; split_if.
  - apply ends_reply; [done| |done]. by rewrite bit_range_empty by lia.
  - apply ends_write; [done| |done]. by rewrite count_bits_spec by (try done; lia).
  - apply ends_reply; [done| |done]. by rewrite bit_range_empty by lia.
  - apply ends_write; [done| |done]. by rewrite count_bytes_spec by lia.
Qed.

Lemma whole_range data : seqZ 0 (8 * len data) = asked_bits data 0 (-1) false.
Proof.
  unfold asked_bits, norm_range, bit_range. change (0 <? 0) with false. change (-1 <? 0) with true.
  cbn match. apply (f_equal2 seqZ); lia.
Qed.

(** BITCOUNT counts the 1 bits.  For any start and end (negative ones
    counting from the end, out-of-range ones cut to the string) in bytes or
    in bits, or no range at all, on a missing key, a string, a bitmap or a
    bitmap over a string, the reply is the number of 1 bits of the key's bytes
    in that range; the fast path that counts elements instead of bytes gives
    the same number, and nothing is written. *)
Theorem bitcount_correct (key : bytes) (start end_ : Z) (useBit hasRange : bool) (st : St)
    (data : bytes) :
  healthy (st_ctx st) → is_i64 start → is_i64 end_ →
  (hasRange = false → start = 0 ∧ end_ = -1 ∧ useBit = false) →
  bitmap_key (view (st_ctx st) key) →
  reconstructBitmapBytes (view (st_ctx st) key) = Some data →
  ends (bitcount_runner key start end_ useBit hasRange) st
    (WriteInteger (count_if (bitv data) (asked_bits data start end_ useBit)) (st_w st))
    (view (st_ctx st)).
Proof.
  intros Hh Hs He Hr Hkey Hdata. unfold bitcount_runner.
  destruct (returns_bitmap_snapshot key st Hh) as [tips Hsn].
  apply (ends_bind _ _ _ _ _ _ _ Hsn). intros c' Hh' Hv'.
  destruct (view (st_ctx st) key) as [r|] eqn:Hv; cbn [bitmap_key] in Hkey.
  2: { injection Hdata as <-. apply ends_reply; [done| |done]. f_equal.
       assert (Hz : ∀ l, (∀ i, i ∈ l → 0 <= i) → count_if (bitv []) l = 0).
       { intros l. induction l as [|i l IH]; intros Hl; [done|]. cbn [count_if].
         rewrite IH by (intros j Hj; apply Hl; by right).
         rewrite bitv_beyond; [done|]. apply Hl. by left. }
       symmetry. apply Hz. intros i. unfold asked_bits.
       destruct (norm_range _ _ _) as [lo hi] eqn:En. unfold norm_range in En. injection En as Elo Ehi.
       assert (0 <= lo) by (rewrite <-Elo; apply Z.le_max_l).
       unfold bit_range. destruct useBit; rewrite elem_of_seqZ; lia. }
  destruct (reconstruct_len r data Hkey Hdata) as [Hd Hl].
  rewrite classify_wf by done. cbn [sr_exists sr_wrongType sr_snap negb].
  split_if.
  - apply ends_reply; [done| |done]. f_equal. destruct hasRange; [done|].
    destruct (Hr eq_refl) as (-> & -> & ->).
    rewrite (fast_count r data) by (try done; by apply bool_decide_eq_true_1).
    apply (f_equal (count_if _)), whole_range.
  - eapply ends_or_panic; [exact Hdata|].
    replace (asked_bits data start end_ useBit) with
      (asked_bits data start (if hasRange then end_ else len data - 1) useBit).
    + apply (slow_count data start _ useBit (mkSt c' (st_w st) (st_held st))); [done..|]. destruct hasRange; [done|]. widths; unfold maxAlloc in *; lia.
    + destruct hasRange; [done|]. destruct (Hr eq_refl) as (-> & -> & ->).
      unfold asked_bits, norm_range. cbn zeta. f_equal. change (-1 <? 0) with true. cbn match.
      split_if; lia.
Qed.

(** ** BITPOS *)

Lemma byte_positions_spec s e : 0 <= s → byte_positions s e = bit_range false s e.
Proof.
  intros Hs. unfold byte_positions, bit_range. destruct (decide (e - s + 1 < 0)) as [Hneg|Hpos].
  { unfold seqZ. by rewrite !Z2Nat.nonpos by lia. }
  rewrite <-(Z2Nat.id (e - s + 1)) by lia. generalize (Z.to_nat (e - s + 1)). intros n.
  induction n as [|n IH]; [done|]. rewrite seqZ_S, bind_app, IH.
  replace (8 * Z.of_nat (S n)) with (8 * Z.of_nat n + 8) by lia.
  rewrite seqZ_app by lia. f_equal. rewrite bind_cons. cbn [mbind list_bind]. rewrite app_nil_r.
  unfold seqZ. change (Z.to_nat 8) with 8%nat. cbn [seq fmap list_fmap].
  repeat first [reflexivity | apply (f_equal2 cons); [lia|]].
Qed.

(** The first position of a list of positions that holds bit [b]. *)
Definition first_in (data : bytes) (b : bool) (ps : list Z) (n : Z) : Prop :=
  ∃ before after, ps = before ++ n :: after ∧ bitv data n = b ∧
    Forall (λ i, bitv data i ≠ b) before.

Lemma find_bit_spec data b ps :
  Forall is_u8 data → Forall (λ i, 0 <= i) ps →
  match find_bit data (Z.b2z b) ps with
  | Some n => first_in data b ps n
  | None => Forall (λ i, bitv data i ≠ b) ps
  end.
Proof.
  intros Hd. induction ps as [|i ps IH]; intros Hps; simpl; [done|].
  apply Forall_cons in Hps as [Hi Hps]. rewrite bit_at_spec by done. specialize (IH Hps).
  destruct (Z.eqb_spec (Z.b2z (bitv data i)) (Z.b2z b)) as [E|E].
  - exists [], ps. split_and!; [done| |done]. by destruct (bitv data i), b.
  - assert (bitv data i ≠ b) by congruence. destruct (find_bit _ _ ps) as [n|].
    + destruct IH as (l1 & l2 & -> & Hn & Hl). exists (i :: l1), l2. split_and!; [done..|].
      by constructor.
    + by constructor.
Qed.

Lemma bit_range_nonneg useBit lo hi : 0 <= lo → Forall (λ i, 0 <= i) (bit_range useBit lo hi).
Proof.
  intros Hlo. apply Forall_forall. intros i. unfold bit_range.
  destruct useBit; rewrite elem_of_seqZ; lia.
Qed.

(** What BITPOS answers when no asked bit matches: one past the end when a 0
    is sought in a non-empty stretch with an open end in BYTE mode. *)
Definition pos_not_found (data : bytes) (b : bool) (ps : list Z) (useBit hasEnd : bool) : Z :=
  if bool_decide (data = []) then (if b then -1 else 0)
  else if negb b && negb hasEnd && negb useBit && negb (bool_decide (ps = [])) then len data * 8
  else -1.

Lemma asked_empty start end_ useBit : asked_bits [] start end_ useBit = [].
Proof.
  unfold asked_bits. destruct (norm_range _ _ _) as [lo hi] eqn:En. apply bit_range_empty.
  unfold norm_range in En. injection En as <- <-.
  apply Z.le_lt_trans with (-1); [|apply Z.lt_le_trans with 0; [lia|apply Z.le_max_l]].
  etrans; [apply Z.le_min_l|]. by destruct useBit.
Qed.

(** A range whose start is past its end or past the string asks for nothing. *)
Lemma asked_bits_range data start end_ (useBit : bool) (hasEnd : bool) s e :
  let size := if useBit then len data * 8 else len data in
  is_i64 start → is_i64 end_ → (hasEnd = false → end_ = -1) → 0 < len data <= maxAlloc →
  clamp_range start (if hasEnd then end_ else size - 1) size = (s, e) →
  0 <= s ∧ asked_bits data start end_ useBit = bit_range useBit s e ∧
  (bit_range useBit s e = [] ↔ (e <? s) || (size <=? s) = true).
Proof.
  intros size Hs He Hend Hl. unfold asked_bits. fold size.
  assert (Hsize : 0 < size <= 8 * maxAlloc) by (unfold size; destruct useBit; lia).
  rewrite clamp_range_spec; [|done|destruct hasEnd; [done|widths; unfold maxAlloc in *; lia]|lia].
  assert (Hsame : norm_range start (if hasEnd then end_ else size - 1) size = norm_range start end_ size).
  { destruct hasEnd; [done|]. rewrite Hend by done. unfold norm_range. f_equal.
    change (-1 <? 0) with true. cbn match. split_if; lia. }
  rewrite Hsame. intros En. rewrite En. unfold norm_range in En. injection En as Elo Ehi.
  assert (0 <= s) by (rewrite <-Elo; apply Z.le_max_l).
  assert (e <= size - 1) by (rewrite <-Ehi; apply Z.le_min_l).
  clear Elo Ehi Hsame. split_and!; [done..|]. rewrite orb_true_iff, Z.ltb_lt, Z.leb_le. split.
  - intros Hnil. apply (f_equal length) in Hnil. unfold bit_range in Hnil.
    destruct useBit; rewrite length_seqZ in Hnil; cbn [length] in Hnil; lia.
  - intros Hlt. apply bit_range_empty. lia.
Qed.

(** The search of [bitpos_runner] on a non-empty string. *)
Lemma search_correct data b start end_ (useBit hasEnd : bool) :
  Forall is_u8 data → data ≠ [] → len data <= maxAlloc →
  is_i64 start → is_i64 end_ → (hasEnd = false → end_ = -1) →
  let ps := asked_bits data start end_ useBit in
  ∃ n, (∀ st v, healthy (st_ctx st) → (∀ k, view (st_ctx st) k = v k) →
     ends (if useBit then
        let bitLen := len data * 8 in
        let '(s, e) := clamp_range start (if hasEnd then end_ else bitLen - 1) bitLen in
        if (e <? s) || (bitLen <=? s) then reply (WriteInteger (-1))
        else match find_bit data (Z.b2z b) (seqZ s (e - s + 1)) with
             | Some i => reply (WriteInteger i)
             | None => write (WriteInteger (-1))
             end
      else
        let '(s, e) := clamp_range start (if hasEnd then end_ else len data - 1) (len data) in
        if (e <? s) || (len data <=? s) then reply (WriteInteger (-1))
        else match find_bit data (Z.b2z b) (byte_positions s e) with
             | Some i => reply (WriteInteger i)
             | None =>
               if (Z.b2z b =? 0) && negb hasEnd then reply (WriteInteger (len data * 8))
               else write (WriteInteger (-1))
             end) st (WriteInteger n (st_w st)) v) ∧
    (first_in data b ps n ∨
     Forall (λ i, bitv data i ≠ b) ps ∧ n = pos_not_found data b ps useBit hasEnd).
Proof.
  intros Hd Hne Hl Hs He Hend ps.
  assert (Hpos : 0 < len data <= maxAlloc) by (unfold len in *; destruct data; [done|cbn [length] in *; lia]).
  unfold pos_not_found. rewrite (bool_decide_eq_false_2 (data = [])) by done.
  pose proof (asked_bits_range data start end_ useBit hasEnd) as Hr.
  destruct useBit;
    (destruct (clamp_range _ _ _) as [s e] eqn:Ec;
     destruct (Hr s e Hs He Hend Hpos Ec) as (Hs0 & Hps & Hnil); clear Hr;
     unfold ps; rewrite Hps; clear ps Hps; cbn zeta;
     destruct (_ || _) eqn:Erange;
     [rewrite (proj2 Hnil) by done; exists (-1); split;
        [intros st v Hh Hv; by apply ends_reply|right; split; [done|by rewrite !andb_false_r]]|]).
  - pose proof (find_bit_spec data b _ Hd (bit_range_nonneg true s e Hs0)) as Hf.
    change (seqZ s (e - s + 1)) with (bit_range true s e). destruct (find_bit _ _ _) as [n|].
    + exists n. split; [intros st v Hh Hv; by apply ends_reply|by left].
    + exists (-1). split; [intros st v Hh Hv; by apply ends_write|right; split; [done|]].
      by rewrite andb_false_r.
  - rewrite byte_positions_spec by done.
    pose proof (find_bit_spec data b _ Hd (bit_range_nonneg false s e Hs0)) as Hf.
    rewrite (bool_decide_eq_false_2 (bit_range false s e = [])) by (rewrite Hnil; done).
    destruct (find_bit _ _ _) as [n|].
    + exists n. split; [intros st v Hh Hv; by apply ends_reply|by left].
    + destruct b, hasEnd; cbn [Z.b2z Z.eqb negb andb];
        (eexists; split; [intros st v Hh Hv; (by apply ends_write) || (by apply ends_reply)
                         |right; split; done]).
Qed.

(** BITPOS finds the first bit.  For a range in bytes or bits, with an
    open or a given end, the reply is the first position in the range whose
    bit is the one sought; when there is none it is -1, except that a 0
    sought up to an open end is found just past the string, and an empty
    string holds no 1 and a 0 at position 0.  Nothing is written. *)
Theorem bitpos_correct (key : bytes) (b : bool) (start end_ : Z) (useBit hasEnd : bool) (st : St)
    (data : bytes) :
  healthy (st_ctx st) → is_i64 start → is_i64 end_ → (hasEnd = false → end_ = -1) →
  bitmap_key (view (st_ctx st) key) →
  reconstructBitmapBytes (view (st_ctx st) key) = Some data →
  let ps := asked_bits data start end_ useBit in
  ∃ n, ends (bitpos_runner key (Z.b2z b) start end_ useBit hasEnd) st
         (WriteInteger n (st_w st)) (view (st_ctx st)) ∧
    (first_in data b ps n ∨
     Forall (λ i, bitv data i ≠ b) ps ∧ n = pos_not_found data b ps useBit hasEnd).
Proof.
  intros Hh Hs He Hend Hkey Hdata ps. unfold bitpos_runner.
  destruct (returns_bitmap_snapshot key st Hh) as [tips Hsn].
  assert (Hbound : Forall is_u8 data ∧ 0 <= len data <= maxAlloc).
  { destruct (view (st_ctx st) key) as [r|]; [by eapply reconstruct_len|].
    injection Hdata as <-. split; [done|]. unfold maxAlloc, len. cbn. lia. }
  destruct Hbound as [Hd Hl].
  destruct (decide (data = [])) as [->|Hne].
  { exists (if b then -1 else 0). split.
    - apply (ends_bind _ _ _ _ _ _ _ Hsn). intros c' Hh' Hv'.
      destruct (view (st_ctx st) key) as [r|]; cbn [bitmap_key] in Hkey.
      + rewrite classify_wf by done. cbn [sr_exists sr_wrongType sr_snap negb].
        eapply ends_or_panic; [exact Hdata|]. cbn [len length Z.of_nat Z.eqb].
        apply ends_reply; [done|by destruct b|done].
      + apply ends_reply; [done|by destruct b|done].
    - right. unfold ps. rewrite asked_empty. split; [done|]. unfold pos_not_found.
      by rewrite bool_decide_eq_true_2. }
  destruct (view (st_ctx st) key) as [r|] eqn:Hv; cbn [bitmap_key] in Hkey; [|by injection Hdata as <-].
  destruct (search_correct data b start end_ useBit hasEnd) as (n & Hn & Hspec); [done|done|lia|done..|].
  exists n. split; [|exact Hspec].
  apply (ends_bind _ _ _ _ _ _ _ Hsn). intros c' Hh' Hv'.
  rewrite classify_wf by done. cbn [sr_exists sr_wrongType sr_snap negb].
  eapply ends_or_panic; [exact Hdata|].
  assert (0 < len data) by (unfold len; destruct data; [done|cbn; lia]).
  rewrite (proj2 (Z.eqb_neq (len data) 0)) by lia. by apply (Hn (mkSt c' (st_w st) (st_held st))).
Qed.
End BitCount.

(** ** Witnesses *)
Module BitCountExample.
Import RefEngine BitmapExample.

Lemma bitcount_correct_witness :
  ends (bitcount_runner key (-2) (-1) false true) st
    (WriteInteger (count_if (bitv [144; 1]) (asked_bits [144; 1] (-2) (-1) false)) (st_w st))
    (view ctx).
Proof.
  apply (bitcount_correct key (-2) (-1) false true st [144; 1]).
  - exact I.
  - widths; lia.
  - widths; lia.
  - discriminate.
  - exact snap_wf.
  - vm_compute. reflexivity.
Defined.

Lemma bitpos_correct_witness :
  ∃ n, ends (bitpos_runner key (Z.b2z true) 1 (-1) false false) st (WriteInteger n (st_w st)) (view ctx) ∧
    (first_in [144; 1] true (asked_bits [144; 1] 1 (-1) false) n ∨
     Forall (λ i, bitv [144; 1] i ≠ true) (asked_bits [144; 1] 1 (-1) false) ∧
     n = pos_not_found [144; 1] true (asked_bits [144; 1] 1 (-1) false) false false).
Proof.
  apply (bitpos_correct key true 1 (-1) false false st [144; 1]).
  - exact I.
  - widths; lia.
  - widths; lia.
  - reflexivity.
  - exact snap_wf.
  - vm_compute. reflexivity.
Defined.
End BitCountExample.
