(* ===== verification/BitField.v ===== *)
(** * BITFIELD integers

    Reading and writing integer fields of 1 to 64 bits at any bit offset, the
    three overflow modes, and what the index and increment arithmetic on 64
    bits does at its limits. *)

From S2P Require Import Prelude GoBytes Strconv Writer Engine Bitmap BitmapProps BitCount.

Local Open Scope Z_scope.

(** The types BITFIELD accepts: [i1] to [i64], [u1] to [u63]. *)
Definition field_type (bits : Z) (signed : bool) : Prop :=
  1 <= bits <= 64 ∧ (signed = false → bits <= 63).

Definition tmin (bits : Z) (signed : bool) : Z := if signed then - 2 ^ (bits - 1) else 0.
Definition tmax (bits : Z) (signed : bool) : Z :=
  if signed then 2 ^ (bits - 1) - 1 else 2 ^ bits - 1.

Lemma pow2_small k : 0 <= k <= 62 → 0 < 2 ^ k <= 2 ^ 62.
Proof. intros Hk. split; [lia|]. apply Z.pow_le_mono_r; lia. Qed.

Lemma i64_pow k : 0 <= k <= 62 → i64 (Z.shiftl 1 k) = 2 ^ k.
Proof.
  intros Hk. rewrite Z.shiftl_1_l. pose proof (pow2_small k Hk). apply i64_id. widths; lia.
Qed.

Lemma bounds_spec bits signed :
  field_type bits signed → bitfield_bounds bits signed = (tmin bits signed, tmax bits signed).
Proof.
  intros [Hb Hu]. unfold bitfield_bounds, tmin, tmax. destruct signed; cbn [andb].
  - destruct (Z.eqb_spec bits 64) as [->|Hne]; [done|].
    rewrite i64_pow by lia. pose proof (pow2_small (bits - 1) ltac:(lia)).
    f_equal; apply i64_id; widths; lia.
  - specialize (Hu eq_refl). f_equal. destruct (decide (bits = 63)) as [->|]; [done|].
    rewrite i64_pow by lia. pose proof (pow2_small bits ltac:(lia)). apply i64_id; widths; lia.
Qed.

Lemma checkBitfieldOverflow_spec value bits signed :
  field_type bits signed → is_i64 value →
  checkBitfieldOverflow value bits signed
  = negb (bool_decide (tmin bits signed <= value <= tmax bits signed)).
Proof.
  intros Ht Hv. pose proof (bounds_spec bits signed Ht) as Hb. unfold bitfield_bounds in Hb.
  unfold checkBitfieldOverflow. destruct signed; cbn [andb] in Hb.
  - destruct (Z.eqb_spec bits 64) as [->|Hne].
    + rewrite bool_decide_eq_true_2; [done|]. unfold tmin, tmax. widths. lia.
    + injection Hb as -> ->. unfold tmin, tmax. case_bool_decide as Hc; cbn [negb].
      * apply orb_false_intro; apply Z.ltb_ge; lia.
      * apply orb_true_iff. rewrite !Z.ltb_lt. lia.
  - injection Hb as ->. unfold tmin, tmax. case_bool_decide as Hc; cbn [negb].
    + apply orb_false_intro; apply Z.ltb_ge; lia.
    + apply orb_true_iff. rewrite !Z.ltb_lt. lia.
Qed.

(** Two's complement at a width: the only value of the type congruent to [z]. *)
Lemma wrap_unique lo n a b :
  0 < n → lo <= a < lo + n → lo <= b < lo + n → a mod n = b mod n → a = b.
Proof.
  intros Hn Ha Hb E. assert (E' : (a - lo) mod n = (b - lo) mod n)
    by (by rewrite Zminus_mod, E, <-Zminus_mod).
  rewrite !Z.mod_small in E' by lia. lia.
Qed.

Lemma i64_cong z k : 0 <= k <= 64 → i64 z mod 2 ^ k = z mod 2 ^ k.
Proof.
  intros Hk. assert (Hd : (2 ^ k | 2 ^ 64)).
  { exists (2 ^ (64 - k)). rewrite <-Z.pow_add_r by lia. f_equal. lia. }
  by rewrite <-(Z.mod_mod_divide (i64 z) (2 ^ 64) (2 ^ k) Hd), i64_mod, Z.mod_mod_divide.
Qed.

Lemma wrap_signed_spec value bits :
  1 <= bits <= 63 → is_i64 value →
  let minVal := - 2 ^ (bits - 1) in
  let range_ := i64 (Z.shiftl 1 bits) in
  let v1 := Z.rem (i64 (value - minVal)) range_ in
  let v2 := if v1 <? 0 then i64 (v1 + range_) else v1 in
  0 <= v2 < 2 ^ bits ∧ v2 mod 2 ^ bits = (value - minVal) mod 2 ^ bits.
Proof.
  intros Hb Hv minVal range_ v1 v2. pose proof (i64_range (value - minVal)) as Hr.
  pose proof (i64_cong (value - minVal) bits ltac:(lia)) as Hc.
  set (x := i64 (value - minVal)) in *. rewrite <-Hc. clear Hc.
  destruct (decide (bits = 63)) as [->|Hne].
  - unfold v2, v1, range_. change (i64 (Z.shiftl 1 63)) with (- 2 ^ 63). widths.
    destruct (decide (x = - 2 ^ 63)) as [->|Hx]; [done|].
    assert (Z.rem x (- 2 ^ 63) = x) as ->.
    { rewrite Z.rem_opp_r by lia. destruct (decide (0 <= x)); [apply Z.rem_small; lia|].
      rewrite <-(Z.opp_involutive x), Z.rem_opp_l, Z.rem_small by lia. reflexivity. }
    destruct (Z.ltb_spec x 0).
    + replace (i64 (x + - 2 ^ 63)) with (x + 2 ^ 63).
      * split; [lia|]. rewrite <-(Z_mod_plus_full x 1 (2 ^ 63)). f_equal; lia.
      * rewrite <-(i64_id (x + 2 ^ 63)) by (widths; lia). apply i64_mod_eq.
        rewrite <-(Z_mod_plus_full (x + - 2 ^ 63) 1 (2 ^ 64)). f_equal; lia.
    + split; [lia|done].
  - unfold v2, v1, range_. rewrite i64_pow by lia. pose proof (pow2_small bits ltac:(lia)) as Hp.
    set (n := 2 ^ bits) in *. assert (Hq := Z.quot_rem' x n).
    assert (Hrem : - n < Z.rem x n < n) by (pose proof (Z.rem_bound_abs x n ltac:(lia)); lia).
    assert (Hm : Z.rem x n mod n = x mod n).
    { rewrite Hq at 2. by rewrite Z.add_comm, Z.mul_comm, Z_mod_plus_full. }
    destruct (Z.ltb_spec (Z.rem x n) 0).
    + rewrite i64_id by (widths; lia). split; [lia|].
      rewrite <-Hm, <-(Z_mod_plus_full (Z.rem x n) 1 n). f_equal; lia.
    + split; [lia|done].
Qed.

Lemma applyOverflow_wrap value bits signed :
  field_type bits signed → is_i64 value →
  let r := applyOverflow value bits signed overflowWrap in
  tmin bits signed <= r <= tmax bits signed ∧ r mod 2 ^ bits = value mod 2 ^ bits.
Proof.
  intros Ht Hv. pose proof (bounds_spec bits signed Ht) as Hb. destruct Ht as [Hbits Hu].
  unfold applyOverflow. rewrite Hb. destruct signed; cbn zeta.
  - destruct (Z.eqb_spec bits 64) as [->|Hne]; [unfold tmin, tmax; widths; split; [lia|done]|].
    destruct (wrap_signed_spec value bits) as [Hr Hm]; [lia|done|]. cbn zeta in *.
    unfold tmin, tmax in *.
    match goal with |- context [i64 (?v + - 2 ^ (bits - 1))] => set (v2 := v) in * end.
    assert (Hp : 2 ^ bits = 2 * 2 ^ (bits - 1))
      by (rewrite <-(Z.pow_add_r 2 1) by lia; f_equal; lia).
    pose proof (pow2_small (bits - 1) ltac:(lia)).
    rewrite (i64_id (v2 + - 2 ^ (bits - 1))) by (widths; lia). split; [lia|].
    rewrite Zplus_mod, Hm, <-Zplus_mod. f_equal. lia.
  - specialize (Hu eq_refl). unfold tmin, tmax.
    replace (2 ^ bits - 1) with (Z.ones bits) by (rewrite Z.ones_equiv; lia).
    rewrite Z.land_ones by lia. pose proof (Z.mod_pos_bound value (2 ^ bits) ltac:(lia)).
    rewrite Z.ones_equiv. split; [lia|]. by rewrite Zmod_mod.
Qed.

Lemma applyOverflow_sat value bits signed mode :
  field_type bits signed → mode ≠ overflowWrap →
  applyOverflow value bits signed mode = Z.max (tmin bits signed) (Z.min (tmax bits signed) value).
Proof.
  intros Ht Hm. unfold applyOverflow. rewrite bounds_spec by done. destruct Ht as [Hbits Hu].
  assert (Hle : tmin bits signed <= tmax bits signed).
  { unfold tmin, tmax. destruct signed; [pose proof (Z.pow_pos_nonneg 2 (bits - 1)); lia|].
    pose proof (Z.pow_pos_nonneg 2 bits); lia. }
  destruct mode; [done|..]; split_if; try lia; split_if; lia.
Qed.

(** The overflow modes of BITFIELD, for every type and every 64-bit value:
    the result always fits the type; WRAP returns the value congruent to it
    modulo two to the width (i63, where the modulus itself overflows, and u63
    included); SAT returns the nearest value of the type; a value flagged by
    the overflow test is exactly one that does not fit. *)
Theorem applyOverflow_correct (value bits : Z) (signed : bool) (mode : overflowBehavior) :
  field_type bits signed → is_i64 value →
  let r := applyOverflow value bits signed mode in
  tmin bits signed <= r <= tmax bits signed ∧
  (mode = overflowWrap → r mod 2 ^ bits = value mod 2 ^ bits) ∧
  (mode ≠ overflowWrap → r = Z.max (tmin bits signed) (Z.min (tmax bits signed) value)) ∧
  (checkBitfieldOverflow value bits signed = false ↔ tmin bits signed <= value <= tmax bits signed).
Proof.
  intros Ht Hv. cbn zeta. rewrite checkBitfieldOverflow_spec, negb_false_iff, bool_decide_eq_true by done.
  destruct (applyOverflow_wrap value bits signed Ht Hv) as [Hr Hc].
  assert (Hle : tmin bits signed <= tmax bits signed) by lia.
  destruct (decide (mode = overflowWrap)) as [->|Hm];
    [split; [exact Hr|]; split; [by intros _|]; split; [by intros []|tauto]|].
  rewrite applyOverflow_sat by done. split; [lia|]. split; [by intros ->|]. split; [done|tauto].
Qed.

(** ** Reading a field *)

(** The first [n] bits from [off] on, as a binary number. *)
Fixpoint field_val (data : bytes) (off : Z) (n : nat) : Z :=
  match n with
  | O => 0
  | S n' => 2 * field_val data off n' + Z.b2z (bitv data (off + Z.of_nat n'))
  end.

Lemma field_val_range data off n : 0 <= field_val data off n < 2 ^ Z.of_nat n.
Proof.
  induction n as [|n IH]; [cbn; lia|]. cbn [field_val].
  rewrite Nat2Z.inj_succ, Z.pow_succ_r by lia. destruct (bitv _ _); cbn [Z.b2z]; lia.
Qed.

Lemma i64_double_bit v b :
  Z.lor (i64 (Z.shiftl v 1)) (Z.b2z b) = i64 (2 * v + Z.b2z b).
Proof.
  rewrite Z.shiftl_mul_pow2 by lia. change (2 ^ 1) with 2. rewrite Z.mul_comm.
  assert (Heven : ∃ k, i64 (2 * v) = 2 * k).
  { exists (i64 (2 * v) / 2). unfold i64. Z.div_mod_to_equations. lia. }
  destruct Heven as [k Hk]. rewrite Hk.
  assert (Hlor : Z.lor (2 * k) (Z.b2z b) = 2 * k + Z.b2z b).
  { destruct b; cbn [Z.b2z]; [|by rewrite Z.lor_0_r, Z.add_0_r].
    apply Z.bits_inj'. intros n Hn. rewrite Z.lor_spec.
    destruct (decide (n = 0)) as [->|Hne].
    - rewrite Z.testbit_even_0, Z.testbit_odd_0. done.
    - replace n with (Z.succ (n - 1)) by lia.
      rewrite Z.testbit_even_succ, Z.testbit_odd_succ by lia.
      replace 1 with (2 * 0 + 1) by lia. rewrite Z.testbit_odd_succ, Z.bits_0, orb_false_r by lia.
      done. }
  rewrite Hlor, <-Hk. pose proof (i64_range (2 * v)) as Hr. rewrite Hk in *.
  rewrite <-(i64_id (2 * k + Z.b2z b)) by (destruct b; widths; cbn [Z.b2z]; lia).
  apply i64_mod_eq. rewrite <-Hk, Zplus_mod, i64_mod, <-Zplus_mod. done.
Qed.

Lemma read_step_spec data off value i :
  Forall is_u8 data → 0 <= off + i <= MaxInt64 →
  read_step data off value i = Some (i64 (2 * value + Z.b2z (bitv data (off + i)))).
Proof.
  intros Hd Hi. unfold read_step. rewrite (i64_id (off + i)) by (widths; lia).
  rewrite Z.quot_div_nonneg, Z.rem_mod_nonneg by lia.
  assert (0 <= (off + i) / 8) by (Z.div_mod_to_equations; lia).
  assert (H8 := Z.mod_pos_bound (off + i) 8 ltac:(lia)).
  unfold go_index, bitv, byte_or_0, len. rewrite (proj2 (Z.ltb_ge _ 0)) by lia.
  destruct (Z.ltb_spec ((off + i) / 8) (Z.of_nat (length data))) as [Hlt|Hge].
  - destruct (lookup_lt_is_Some_2 data (Z.to_nat ((off + i) / 8))) as [b Hb]; [lia|].
    rewrite Hb. cbn [mbind option_bind default]. f_equal.
    rewrite Z.shiftr_div_pow2, (Z.land_ones _ 1), <-Z.testbit_spec' by lia. apply i64_double_bit.
  - rewrite lookup_ge_None_2 by lia. cbn [default]. rewrite Z.bits_0. cbn [Z.b2z].
    rewrite Z.add_0_r, Z.shiftl_mul_pow2, Z.mul_comm by lia. done.
Qed.

Lemma read_bits_app data off v l1 l2 :
  read_bits data off v (l1 ++ l2) = v' ← read_bits data off v l1; read_bits data off v' l2.
Proof.
  revert v. induction l1 as [|i l1 IH]; intros v; [done|]. simpl.
  destruct (read_step _ _ _ _); simpl; [apply IH|done].
Qed.

Lemma read_bits_spec data off (n : nat) :
  Forall is_u8 data → 0 <= off → off + Z.of_nat n <= MaxInt64 →
  read_bits data off 0 (seqZ 0 (Z.of_nat n)) = Some (i64 (field_val data off n)).
Proof.
  intros Hd Hoff. induction n as [|n IH]; intros Hn; [done|].
  rewrite seqZ_S, read_bits_app, IH by lia. cbn [mbind option_bind read_bits field_val].
  rewrite Z.add_0_l, read_step_spec by (try done; lia). cbn [mbind option_bind]. f_equal.
  apply i64_mod_eq. rewrite Zplus_mod, Zmult_mod, i64_mod, <-Zmult_mod, <-Zplus_mod. done.
Qed.

(** The value of a field of a type, from its bits. *)
Definition typed (u bits : Z) (signed : bool) : Z :=
  if signed && (2 ^ (bits - 1) <=? u) then u - 2 ^ bits else u.

(** The sign bit test. *)
Lemma land_top_bit u k :
  0 <= k → 0 <= u < 2 ^ (k + 1) → (Z.land u (2 ^ k) =? 0) = (u <? 2 ^ k).
Proof.
  intros Hk Hu. rewrite Z.pow_add_r in Hu by lia. change (2 ^ 1) with 2 in Hu.
  assert (Hbit : Z.testbit u k = negb (u <? 2 ^ k)).
  { rewrite Z.testbit_eqb by lia. destruct (Z.ltb_spec u (2 ^ k)).
    - rewrite Z.div_small by lia. done.
    - replace (u / 2 ^ k) with 1; [done|]. apply Z.div_unique with (u - 2 ^ k); lia. }
  destruct (Z.ltb_spec u (2 ^ k)) as [Hlt|Hge]; cbn [negb] in Hbit.
  - apply Z.eqb_eq, Z.bits_inj'. intros n Hn. rewrite Z.land_spec, Z.pow2_bits_eqb, Z.bits_0 by lia.
    destruct (Z.eqb_spec k n) as [<-|]; [by rewrite Hbit|by rewrite andb_false_r].
  - apply Z.eqb_neq. intros E. assert (Ht : Z.testbit (Z.land u (2 ^ k)) k = true).
    { by rewrite Z.land_spec, Z.pow2_bits_true, Hbit by lia. }
    rewrite E, Z.bits_0 in Ht. done.
Qed.

Lemma sign_extend_spec u bits signed :
  field_type bits signed → 0 <= u < 2 ^ bits → sign_extend (i64 u) bits signed = typed u bits signed.
Proof.
  intros [Hb Hu] Hr. unfold sign_extend, typed. destruct signed; cbn [andb].
  2: { specialize (Hu eq_refl). apply i64_id.
       assert (2 ^ bits <= 2 ^ 63) by (apply Z.pow_le_mono_r; lia). widths; lia. }
  destruct (Z.ltb_spec bits 64) as [Hlt|Hge].
  - assert (2 ^ bits <= 2 ^ 63) by (apply Z.pow_le_mono_r; lia).
    rewrite (i64_id u) by (widths; lia). rewrite i64_pow, land_top_bit, Z.leb_antisym
      by (try replace (bits - 1 + 1) with bits by lia; lia).
    destruct (u <? 2 ^ (bits - 1)); cbn [negb]; [done|].
    rewrite <-(i64_id (u - 2 ^ bits)) by (widths; lia). apply i64_mod_eq.
    rewrite Z.shiftl_1_l, Zminus_mod, i64_mod, <-Zminus_mod. done.
  - assert (bits = 64) as -> by lia. unfold i64. change (2 ^ (64 - 1)) with (2 ^ 63).
    split_if; Z.div_mod_to_equations; lia.
Qed.

Lemma getBitfieldInt_spec data off bits signed :
  Forall is_u8 data → 0 <= off → off + bits <= MaxInt64 → field_type bits signed →
  getBitfieldInt data off bits signed
  = Some (typed (field_val data off (Z.to_nat bits)) bits signed).
Proof.
  intros Hd Hoff Hmax Ht. unfold getBitfieldInt. destruct (Z.eqb_spec (len data) 0) as [Hz|Hz].
  - destruct data; [|unfold len in Hz; cbn [length] in Hz; lia].
    assert (Hv : ∀ n, field_val [] off n = 0).
    { induction n as [|n IH]; [done|]. cbn [field_val]. rewrite IH, bitv_beyond; [done|].
      change (8 * len []) with 0. lia. }
    rewrite Hv. unfold typed. f_equal. destruct Ht as [Hb _].
    rewrite (proj2 (Z.leb_gt _ _)) by lia. by rewrite andb_false_r.
  - assert (Hn : bits = Z.of_nat (Z.to_nat bits)) by (destruct Ht; lia).
    rewrite Hn at 1. rewrite read_bits_spec by (try done; lia). cbn [mbind option_bind]. f_equal.
    apply sign_extend_spec; [done|]. rewrite Hn at 3. apply field_val_range.
Qed.

(** ** Writing a field *)

Lemma write_step_spec off bits value data i :
  Forall is_u8 data → 0 <= i < bits → 0 <= off + i < 8 * len data → len data <= maxAlloc →
  ∃ data', write_step off bits value data i = Some data' ∧ Forall is_u8 data' ∧
    length data' = length data ∧
    ∀ j, 0 <= j → bitv data' j = if j =? off + i then Z.testbit value (bits - 1 - i) else bitv data j.
Proof.
  intros Hd Hi Hpos Hl. unfold write_step, maxAlloc in *.
  rewrite (i64_id (off + i)) by (widths; lia).
  rewrite (proj2 (Z.leb_gt _ _))
    by (rewrite Z.quot_div_nonneg by lia; Z.div_mod_to_equations; lia).
  rewrite Z.shiftr_div_pow2, (Z.land_ones _ 1), <-Z.testbit_spec' by lia.
  destruct (Z.testbit value (bits - 1 - i)); cbn [Z.b2z Z.eqb].
  - destruct (update_bit_spec Z.lor orb Z.lor_spec orb_false_r
       (λ a b Ha Hb, proj2 (Z.lor_nonneg a b) (conj Ha Hb)) data (off + i) Hd Hpos)
       as (d & E & Hd' & Hl' & Hb).
    exists d. split_and!; [done..|]. intros j Hj. rewrite Hb by done.
    destruct (j =? off + i); [by rewrite orb_true_r|done].
  - destruct (update_bit_spec Z.ldiff (λ a b, a && negb b) Z.ldiff_spec andb_true_r
       (λ a b Ha Hb, proj2 (Z.ldiff_nonneg a b) (or_introl Ha)) data (off + i) Hd Hpos)
       as (d & E & Hd' & Hl' & Hb).
    exists d. split_and!; [done..|]. intros j Hj. rewrite Hb by done.
    destruct (j =? off + i); [by rewrite andb_false_r|done].
Qed.

Lemma write_bits_app off bits value data l1 l2 :
  write_bits off bits value data (l1 ++ l2)
  = data' ← write_bits off bits value data l1; write_bits off bits value data' l2.
Proof.
  revert data. induction l1 as [|i l1 IH]; intros data; [done|]. simpl.
  destruct (write_step _ _ _ _ _); simpl; [apply IH|done].
Qed.

Lemma write_bits_spec off bits value data (n : nat) :
  Forall is_u8 data → 0 <= off → Z.of_nat n <= bits → off + bits <= 8 * len data →
  len data <= maxAlloc →
  ∃ data', write_bits off bits value data (seqZ 0 (Z.of_nat n)) = Some data' ∧ Forall is_u8 data' ∧
    length data' = length data ∧
    ∀ j, 0 <= j → bitv data' j =
      if (off <=? j) && (j <? off + Z.of_nat n) then Z.testbit value (bits - 1 - (j - off))
      else bitv data j.
Proof.
  intros Hd Hoff Hn Hlen Hl. induction n as [|n IH].
  - exists data. split_and!; [done..|]. intros j Hj. split_if; [lia|done].
  - destruct IH as (d1 & E1 & Hd1 & Hl1 & Hb1); [lia|].
    destruct (write_step_spec off bits value d1 (Z.of_nat n)) as (d2 & E2 & Hd2 & Hl2 & Hb2);
      [done|lia|unfold len in *; lia|unfold len in *; lia|].
    exists d2. rewrite seqZ_S, write_bits_app, E1, Z.add_0_l. cbn [mbind option_bind write_bits].
    rewrite E2. split_and!; [done..|congruence|]. intros j Hj. rewrite Hb2, Hb1 by done.
    destruct (Z.eqb_spec j (off + Z.of_nat n)) as [->|Hne].
    + rewrite (proj2 (Z.leb_le _ _)), (proj2 (Z.ltb_lt _ _)) by lia. cbn [andb]. f_equal. lia.
    + destruct (Z.leb_spec off j); cbn [andb]; [|done].
      destruct (Z.ltb_spec j (off + Z.of_nat n)), (Z.ltb_spec j (off + Z.of_nat (S n)));
        try done; lia.
Qed.

(** Reading back bits that are those of [value]. *)
Lemma field_val_of_bits data off bits value (n : nat) :
  (∀ i, 0 <= i < Z.of_nat n → bitv data (off + i) = Z.testbit value (bits - 1 - i)) →
  Z.of_nat n <= bits →
  field_val data off n = (value / 2 ^ (bits - Z.of_nat n)) mod 2 ^ Z.of_nat n.
Proof.
  intros Hb Hn. induction n as [|n IH]; [by rewrite Z.mod_1_r|].
  cbn [field_val]. rewrite IH, Hb by (try lia; intros i Hi; apply Hb; lia).
  rewrite Z.testbit_spec' by lia.
  replace (bits - 1 - Z.of_nat n) with (bits - Z.of_nat (S n)) by lia.
  set (x := value / 2 ^ (bits - Z.of_nat (S n))).
  assert (Hx : value / 2 ^ (bits - Z.of_nat n) = x / 2).
  { unfold x. rewrite Z.div_div by lia. f_equal. rewrite <-(Z.pow_add_r 2 _ 1) by lia. f_equal. lia. }
  rewrite Hx, Nat2Z.inj_succ, Z.pow_succ_r by lia.
  rewrite (Z.rem_mul_r x 2 (2 ^ Z.of_nat n)) by lia. lia.
Qed.

Lemma mask_spec bits value :
  1 <= bits <= 64 → is_i64 value →
  Z.land value (if bits =? 64 then -1 else i64 (i64 (Z.shiftl 1 bits) - 1)) mod 2 ^ bits
  = value mod 2 ^ bits.
Proof.
  intros Hb Hv. destruct (Z.eqb_spec bits 64) as [->|Hne]; [by rewrite Z.land_m1_r|].
  assert (Hm : i64 (i64 (Z.shiftl 1 bits) - 1) = Z.ones bits).
  { rewrite Z.ones_equiv. destruct (decide (bits = 63)) as [->|]; [done|]. rewrite i64_pow by lia.
    pose proof (pow2_small bits ltac:(lia)). apply i64_id. widths; lia. }
  rewrite Hm, Z.land_ones, Zmod_mod by lia. done.
Qed.

Lemma type_range_i64 bits signed v :
  field_type bits signed → tmin bits signed <= v <= tmax bits signed → is_i64 v.
Proof.
  intros [Hb Hu] Hv. unfold tmin, tmax in Hv. destruct signed.
  - assert (2 ^ (bits - 1) <= 2 ^ 63) by (apply Z.pow_le_mono_r; lia). widths; lia.
  - specialize (Hu eq_refl). assert (2 ^ bits <= 2 ^ 63) by (apply Z.pow_le_mono_r; lia). widths; lia.
Qed.

Lemma typed_mod v bits signed :
  field_type bits signed → tmin bits signed <= v <= tmax bits signed →
  typed (v mod 2 ^ bits) bits signed = v.
Proof.
  intros [Hb _] Hv. unfold typed, tmin, tmax in *.
  assert (Hp : 2 ^ bits = 2 * 2 ^ (bits - 1)) by (rewrite <-(Z.pow_add_r 2 1) by lia; f_equal; lia).
  assert (0 < 2 ^ (bits - 1)) by lia.
  destruct signed; cbn [andb]; [|apply Z.mod_small; lia].
  destruct (decide (0 <= v)).
  - rewrite Z.mod_small by lia. by rewrite (proj2 (Z.leb_gt _ _)) by lia.
  - assert (E : v mod 2 ^ bits = v + 2 ^ bits).
    { rewrite <-(Z_mod_plus_full v 1). rewrite Z.mul_1_l. apply Z.mod_small. lia. }
    rewrite E, (proj2 (Z.leb_le _ _)) by lia. lia.
Qed.

Lemma set_get_spec (data : bytes) (off bits value : Z) (signed : bool) :
  Forall is_u8 data → 0 <= off → off + bits <= 8 * len data → len data <= maxAlloc →
  field_type bits signed → tmin bits signed <= value <= tmax bits signed →
  ∃ data', setBitfieldInt data off bits value = Some data' ∧
    Forall is_u8 data' ∧ getBitfieldInt data' off bits signed = Some value ∧
    length data' = length data ∧
    ∀ j, 0 <= j → ¬ (off <= j < off + bits) → bitv data' j = bitv data j.
Proof.
  intros Hd Hoff Hlen Hl Ht Hv. pose proof (type_range_i64 _ _ _ Ht Hv) as Hi.
  destruct Ht as [Hb Hu]. unfold setBitfieldInt.
  pose proof (mask_spec bits value Hb Hi) as Hm. cbn zeta.
  set (v' := Z.land value _) in *.
  assert (Hn : Z.of_nat (Z.to_nat bits) = bits) by lia.
  destruct (write_bits_spec off bits v' data (Z.to_nat bits)) as (d & E & Hd' & Hl' & Hbits);
    [done..|lia|done|done|]. rewrite Hn in *.
  exists d. split_and!; [done|done| |done|].
  - rewrite getBitfieldInt_spec by (try done; unfold maxAlloc in *; widths; lia). f_equal.
    rewrite (field_val_of_bits d off bits v') by (try lia; intros i Hi'; rewrite Hbits by lia;
      rewrite (proj2 (Z.leb_le _ _)), (proj2 (Z.ltb_lt _ _)) by lia; cbn [andb]; f_equal; lia).
    rewrite Hn, Z.sub_diag, Z.div_1_r, Hm. by apply typed_mod.
  - intros j Hj Hout. rewrite Hbits by done. split_if; [lia|done].
Qed.

(** Field round trip.  Writing an integer of a type at any bit offset
    inside the string and reading it back gives the integer, every bit outside
    the field keeps its value and the length does not change: a field may start
    in the middle of a byte and span up to nine of them. *)
Theorem bitfield_set_get (data : bytes) (off bits value : Z) (signed : bool) :
  Forall is_u8 data → 0 <= off → off + bits <= 8 * len data → len data <= maxAlloc →
  field_type bits signed → tmin bits signed <= value <= tmax bits signed →
  ∃ data', setBitfieldInt data off bits value = Some data' ∧
    getBitfieldInt data' off bits signed = Some value ∧
    length data' = length data ∧
    ∀ j, 0 <= j → ¬ (off <= j < off + bits) → bitv data' j = bitv data j.
Proof.
  intros Hd Hoff Hlen Hl Ht Hv.
  destruct (set_get_spec data off bits value signed) as (d & ? & _ & ? & ? & ?); [done..|].
  by exists d.
Qed.

(** ** Subcommands *)

Lemma checkAdditionOverflow_spec a b :
  is_i64 a → is_i64 b → checkAdditionOverflow a b = negb (bool_decide (MinInt64 <= a + b <= MaxInt64)).
Proof.
  intros Ha Hb. unfold checkAdditionOverflow.
  destruct (Z.ltb_spec 0 b) as [Hp|Hp]; cbn [andb].
  - rewrite (i64_id (MaxInt64 - b)) by (widths; lia). rewrite (proj2 (Z.ltb_ge b 0)) by lia. cbn [andb].
    case_bool_decide as Hc; split_if; try done; widths; lia.
  - destruct (Z.ltb_spec b 0) as [Hn|Hn]; cbn [andb].
    + rewrite (i64_id (MinInt64 - b)) by (widths; lia).
      case_bool_decide as Hc; split_if; try done; widths; lia.
    + rewrite bool_decide_eq_true_2; [done|]. widths; lia.
Qed.

Lemma typed_range u bits signed :
  field_type bits signed → 0 <= u < 2 ^ bits →
  tmin bits signed <= typed u bits signed <= tmax bits signed.
Proof.
  intros [Hb _] Hu. unfold typed, tmin, tmax.
  assert (Hp : 2 ^ bits = 2 * 2 ^ (bits - 1)) by (rewrite <-(Z.pow_add_r 2 1) by lia; f_equal; lia).
  destruct signed; cbn [andb]; [split_if; lia|lia].
Qed.

(** A subcommand whose field the string can be extended to hold. *)
Record sub_ok (sc : subCommand) : Prop := mkSubOk {
  so_type : field_type (sc_bits sc) (sc_signed sc);
  so_off : 0 <= sc_offset sc;
  so_end : sc_offset sc + sc_bits sc <= 8 * maxAlloc - 8;
  so_value : is_i64 (sc_value sc)
}.

Lemma store_field_spec sc data v :
  sub_ok sc → Forall is_u8 data → len data <= maxAlloc →
  tmin (sc_bits sc) (sc_signed sc) <= v <= tmax (sc_bits sc) (sc_signed sc) →
  ∃ data', store_field sc data v = Some data' ∧ Forall is_u8 data' ∧
    getBitfieldInt data' (sc_offset sc) (sc_bits sc) (sc_signed sc) = Some v ∧
    len data <= len data' <= maxAlloc ∧
    ∀ j, 0 <= j → ¬ (sc_offset sc <= j < sc_offset sc + sc_bits sc) → bitv data' j = bitv data j.
Proof.
  intros [Ht Hoff Hend Hval] Hd Hl Hv. unfold store_field. destruct Ht as [Hb Hu].
  unfold maxAlloc in *. rewrite (i64_id (sc_offset sc + _)), i64_id by (widths; lia).
  set (req := Z.quot _ 8). assert (Hreq : 8 * req >= sc_offset sc + sc_bits sc ∧ req <= 2 ^ 48).
  { unfold req. rewrite Z.quot_div_nonneg by lia. Z.div_mod_to_equations; lia. }
  rewrite grow_ok by (unfold maxAlloc; lia). cbn [mbind option_bind].
  set (d0 := data ++ replicate _ 0).
  assert (Hlen : length d0 = Nat.max (length data) (Z.to_nat req))
    by (unfold d0; rewrite length_app, length_replicate; lia).
  destruct (set_get_spec d0 (sc_offset sc) (sc_bits sc) v (sc_signed sc))
    as (d & E & Hd' & Hg & Hl' & Hout); try done.
  - apply Forall_app; split; [done|apply zeros_ok].
  - unfold len. lia.
  - unfold len, maxAlloc in *. lia.
  - exists d. split_and!; [done..|unfold len in *; lia|unfold len in *; lia|].
    intros j Hj Hn. rewrite Hout by done. unfold d0. by apply bitv_app_zeros.
Qed.

(** What a write subcommand is asked to store, given the old value. *)
Definition wanted (sc : subCommand) (old : Z) : Z :=
  match sc_op sc with bitfieldIncrBy => old + sc_value sc | _ => sc_value sc end.

(** The value an overflow mode stores for [want]. *)
Definition stored (mode : overflowBehavior) (bits : Z) (signed : bool) (want s : Z) : Prop :=
  tmin bits signed <= s <= tmax bits signed ∧
  match mode with
  | overflowWrap => s mod 2 ^ bits = want mod 2 ^ bits
  | overflowSat => s = Z.max (tmin bits signed) (Z.min (tmax bits signed) want)
  | overflowFail => s = want
  end.

Definition fits (sc : subCommand) (v : Z) : Prop :=
  tmin (sc_bits sc) (sc_signed sc) <= v <= tmax (sc_bits sc) (sc_signed sc).

#[local] Instance fits_dec sc v : Decision (fits sc v).
Proof. unfold fits. apply _. Defined.

(** The new value SET and INCRBY compute, when they do not give up. *)
Definition new_value (sc : subCommand) (old : Z) : Z :=
  applyOverflow (i64 (wanted sc old)) (sc_bits sc) (sc_signed sc) (sc_overflow sc).

Lemma new_value_stored sc old :
  sub_ok sc → fits sc old →
  (sc_overflow sc = overflowSat → is_i64 (wanted sc old)) →
  (sc_overflow sc = overflowFail → fits sc (wanted sc old)) →
  stored (sc_overflow sc) (sc_bits sc) (sc_signed sc) (wanted sc old) (new_value sc old).
Proof.
  intros Hok Hold Hsat Hfail. pose proof (so_type sc Hok) as Ht. unfold stored, new_value, fits in *.
  pose proof (i64_range (wanted sc old)) as Hr.
  destruct (sc_overflow sc).
  - destruct (applyOverflow_wrap _ _ _ Ht Hr) as [Hin Hc]. split; [done|]. rewrite Hc.
    apply i64_cong. destruct Ht. lia.
  - rewrite applyOverflow_sat, i64_id by (try done; by apply Hsat). split; [lia|done].
  - specialize (Hfail eq_refl). pose proof (type_range_i64 _ _ _ Ht Hfail).
    rewrite applyOverflow_sat, i64_id by done. split; lia.
Qed.

(** Giving up under OVERFLOW FAIL is exactly the wanted value not fitting. *)
Lemma gives_up_spec sc old :
  sub_ok sc → fits sc old → sc_op sc ≠ bitfieldGet →
  let c := checkBitfieldOverflow (i64 (wanted sc old)) (sc_bits sc) (sc_signed sc) in
  (if sc_op sc is bitfieldIncrBy then checkAdditionOverflow old (sc_value sc) || c else c)
  = negb (bool_decide (fits sc (wanted sc old))).
Proof.
  intros Hok Hold Hop c. pose proof (so_type sc Hok) as Ht. pose proof (so_value sc Hok) as Hv.
  pose proof (type_range_i64 _ _ _ Ht Hold) as Hi. unfold c, fits, wanted in *.
  rewrite checkBitfieldOverflow_spec by (try done; apply i64_range).
  destruct (sc_op sc); [done|by rewrite i64_id|].
  rewrite checkAdditionOverflow_spec by done.
  destruct (decide (MinInt64 <= old + sc_value sc <= MaxInt64)) as [Hs|Hs].
  - rewrite (bool_decide_eq_true_2 (_ <= old + sc_value sc <= MaxInt64)), i64_id by done. done.
  - rewrite (bool_decide_eq_false_2 (_ <= old + sc_value sc <= MaxInt64)) by done. cbn [negb orb].
    symmetry. apply negb_true_iff, bool_decide_eq_false_2. intros Hf.
    by apply Hs, (type_range_i64 _ _ _ Ht Hf).
Qed.

Lemma old_fits data sc old :
  sub_ok sc → Forall is_u8 data →
  getBitfieldInt data (sc_offset sc) (sc_bits sc) (sc_signed sc) = Some old → fits sc old.
Proof.
  intros [Ht Hoff Hend Hv] Hd. rewrite getBitfieldInt_spec by (try done; unfold maxAlloc in *; widths; lia).
  intros [= <-]. apply typed_range; [done|].
  pose proof (field_val_range data (sc_offset sc) (Z.to_nat (sc_bits sc))) as Hr.
  rewrite Z2Nat.id in Hr by (destruct Ht; lia). exact Hr.
Qed.

(** The common shape of SET and INCRBY. *)
Lemma exec_write_shape data modified sc old :
  sub_ok sc → fits sc old → sc_op sc ≠ bitfieldGet →
  getBitfieldInt data (sc_offset sc) (sc_bits sc) (sc_signed sc) = Some old →
  exec_sub data modified sc =
    if bool_decide (sc_overflow sc = overflowFail) && negb (bool_decide (fits sc (wanted sc old)))
    then Some (data, modified, None)
    else data' ← store_field sc data (new_value sc old);
         Some (data', true, Some (if sc_op sc is bitfieldIncrBy then new_value sc old else old)).
Proof.
  intros Hok Hold Hop Hg. rewrite <-(gives_up_spec sc old Hok Hold Hop).
  pose proof (so_value sc Hok) as Hv. unfold exec_sub, new_value, wanted. rewrite Hg.
  cbn [mbind option_bind]. destruct (sc_op sc); [done|..].
  - rewrite (i64_id (sc_value sc)) by done. rewrite andb_comm. done.
  - destruct (bool_decide (sc_overflow sc = overflowFail)); cbn [andb].
    + destruct (checkAdditionOverflow _ _); cbn [orb]; [done|]. by rewrite andb_true_r.
    + by rewrite andb_false_r.
Qed.

(** What SET and INCRBY may answer. *)
Definition write_outcome (data : bytes) (modified : bool) (sc : subCommand) (old : Z)
    (out : option (bytes * bool * option Z)) : Prop :=
  (sc_overflow sc = overflowFail ∧ ¬ fits sc (wanted sc old) ∧ out = Some (data, modified, None)) ∨
  ((sc_overflow sc = overflowFail → fits sc (wanted sc old)) ∧
   ∃ data' s,
     out = Some (data', true, Some (if sc_op sc is bitfieldIncrBy then s else old)) ∧
     stored (sc_overflow sc) (sc_bits sc) (sc_signed sc) (wanted sc old) s ∧
     getBitfieldInt data' (sc_offset sc) (sc_bits sc) (sc_signed sc) = Some s ∧
     len data <= len data' ∧
     ∀ j, 0 <= j → ¬ (sc_offset sc <= j < sc_offset sc + sc_bits sc) → bitv data' j = bitv data j).

(** What a BITFIELD subcommand does.  GET returns the field and changes
    nothing.  SET and INCRBY under OVERFLOW FAIL return nil and change nothing
    exactly when the wanted value does not fit the type.  Otherwise they store
    the wanted value (congruent to it under WRAP, clamped under SAT), extending
    the string as needed and touching no other bit; SET returns the old value
    and INCRBY the new one.  SAT increments are required not to overflow 64
    bits. *)
Theorem exec_sub_correct (data : bytes) (modified : bool) (sc : subCommand) (old : Z) :
  sub_ok sc → Forall is_u8 data → len data <= maxAlloc →
  getBitfieldInt data (sc_offset sc) (sc_bits sc) (sc_signed sc) = Some old →
  (sc_overflow sc = overflowSat → is_i64 (wanted sc old)) →
  (sc_op sc = bitfieldGet → exec_sub data modified sc = Some (data, modified, Some old)) ∧
  (sc_op sc ≠ bitfieldGet → write_outcome data modified sc old (exec_sub data modified sc)).
Proof.
  intros Hok Hd Hl Hg Hsat. pose proof (old_fits data sc old Hok Hd Hg) as Hold. split.
  { intros Eop. unfold exec_sub. by rewrite Hg, Eop. }
  intros Hop. rewrite (exec_write_shape data modified sc old Hok Hold Hop Hg). unfold write_outcome.
  destruct (decide (sc_overflow sc = overflowFail ∧ ¬ fits sc (wanted sc old))) as [[Hf Hnf]|Hfit].
  - left. split_and!; [done..|].
    by rewrite (bool_decide_eq_true_2 (sc_overflow sc = _)), bool_decide_eq_false_2.
  - assert (Hfit' : sc_overflow sc = overflowFail → fits sc (wanted sc old)).
    { intros Hf. destruct (decide (fits sc (wanted sc old))); [done|tauto]. }
    right. split; [done|].
    pose proof (new_value_stored sc old Hok Hold Hsat Hfit') as Hst.
    destruct (store_field_spec sc data (new_value sc old)) as (d & E & _ & Hget & [Hlen _] & Hout);
      [done..|by destruct Hst|].
    exists d, (new_value sc old). split_and!; [|done..]. rewrite E.
    case_bool_decide as Hm; cbn [andb]; [|done].
    by rewrite bool_decide_eq_true_2 by auto.
Qed.

(** ** Limits of the 64-bit arithmetic *)

(** Under OVERFLOW SAT an increment that overflows 64 bits saturates at the
    wrong end.  For every type of at most 62 bits and every positive old value,
    INCRBY 9223372036854775807 wraps before it is clamped: the field gets the
    type's minimum instead of its maximum. *)
Theorem incrby_sat_wrong_end (data : bytes) (modified : bool) (sc : subCommand) (old : Z) :
  sub_ok sc → Forall is_u8 data → len data <= maxAlloc →
  getBitfieldInt data (sc_offset sc) (sc_bits sc) (sc_signed sc) = Some old →
  sc_op sc = bitfieldIncrBy → sc_overflow sc = overflowSat → sc_value sc = MaxInt64 →
  0 < old → sc_bits sc <= 62 →
  ∃ data', exec_sub data modified sc = Some (data', true, Some (tmin (sc_bits sc) (sc_signed sc))).
Proof.
  intros Hok Hd Hl Hg Hop Hmode Hval Hpos Hbits. pose proof (old_fits data sc old Hok Hd Hg) as Hold.
  pose proof (so_type sc Hok) as Ht.
  assert (Hnew : new_value sc old = tmin (sc_bits sc) (sc_signed sc)).
  { unfold new_value. rewrite Hmode, applyOverflow_sat by done. unfold wanted. rewrite Hop, Hval.
    assert (Hi : i64 (old + MaxInt64) = old + MaxInt64 - 2 ^ 64).
    { pose proof (type_range_i64 _ _ _ Ht Hold) as Hr.
      rewrite <-(i64_id (old + MaxInt64 - 2 ^ 64)) by (widths; lia). apply i64_mod_eq.
      rewrite <-(Z_mod_plus_full (old + MaxInt64 - 2 ^ 64) 1). f_equal. lia. }
    rewrite Hi. unfold fits in Hold.
    assert (2 ^ sc_bits sc <= 2 ^ 62) by (apply Z.pow_le_mono_r; lia).
    assert (2 ^ (sc_bits sc - 1) <= 2 ^ 62) by (apply Z.pow_le_mono_r; lia).
    unfold tmin, tmax in *. destruct Ht. widths. destruct (sc_signed sc); lia. }
  rewrite (exec_write_shape data modified sc old Hok Hold) by (try done; by rewrite Hop).
  rewrite Hmode, Hop, Hnew. cbn [bool_decide andb].
  destruct (store_field_spec sc data (tmin (sc_bits sc) (sc_signed sc))) as (d & E & _); [done..| |].
  - unfold fits in Hold. lia.
  - exists d. by rewrite E.
Qed.

(** An offset written with [#] is multiplied by the width without a check,
    and the product may wrap to a negative offset that is accepted.
    BITFIELD_RO key GET u2 #4611686018427387904 is accepted, and its runner
    panics on any non-empty string: nothing in the server recovers from it. *)
Theorem bitfield_ro_offset_panics `{EngineLaws} `{UnicodeCase} (key : bytes) (st : St) (data : bytes) :
  healthy (st_ctx st) → bitmap_key (view (st_ctx st) key) →
  reconstructBitmapBytes (view (st_ctx st) key) = Some data → data ≠ [] →
  ∃ runner, handleBitFieldRO [key; str "GET"; str "u2"; str "#4611686018427387904"]
              = Accept [key] runner ∧ fst (runner st) = Panic.
Proof.
  intros Hh Hkey Hdata Hne. exists (bitfield_ro_runner key [(false, 2, MinInt64)]).
  split.
  { unfold handleBitFieldRO.
    assert (Hp : parse_getcommands [str "GET"; str "u2"; str "#4611686018427387904"]
                 = Ok [(false, 2, MinInt64)]) by (vm_compute; reflexivity).
    by rewrite Hp. }
  unfold bitfield_ro_runner.
  destruct (returns_bitmap_snapshot key st Hh) as (tips & c & E & Hc & Hv).
  unfold mbind at 1, M_bind at 1. rewrite E.
  destruct (view (st_ctx st) key) as [r|]; [|by injection Hdata as <-].
  rewrite classify_wf by done. cbn [sr_wrongType sr_snap]. rewrite Hdata.
  destruct data as [|b data]; [done|].
  assert (Hpanic : getBitfieldInt (b :: data) MinInt64 2 false = None);
    [|unfold mbind, M_bind, write, for_each, or_panic, mret, M_ret; by rewrite Hpanic].
  unfold getBitfieldInt. change (seqZ 0 2) with [0; 1].
  assert (Hlen : 0 < len (b :: data)) by (unfold len; cbn [length]; lia).
  rewrite (proj2 (Z.eqb_neq _ 0)) by lia. cbn [read_bits].
  assert (Hstep : read_step (b :: data) MinInt64 0 0 = None); [|by rewrite Hstep].
  unfold read_step.
  assert (Hq : Z.quot (i64 (MinInt64 + 0)) 8 = -1152921504606846976) by (vm_compute; reflexivity).
  rewrite Hq, (proj2 (Z.ltb_lt _ (len (b :: data)))) by lia. done.
Qed.

(** ** Witnesses *)
Module BitFieldExample.
Import RefEngine BitmapExample.

Lemma applyOverflow_correct_witness :
  let r := applyOverflow (2 ^ 62) 63 true overflowWrap in
  tmin 63 true <= r <= tmax 63 true ∧
  (overflowWrap = overflowWrap → r mod 2 ^ 63 = 2 ^ 62 mod 2 ^ 63) ∧
  (overflowWrap ≠ overflowWrap → r = Z.max (tmin 63 true) (Z.min (tmax 63 true) (2 ^ 62))) ∧
  (checkBitfieldOverflow (2 ^ 62) 63 true = false ↔ tmin 63 true <= 2 ^ 62 <= tmax 63 true).
Proof.
  apply (applyOverflow_correct (2 ^ 62) 63 true overflowWrap).
  - split; [lia|discriminate].
  - widths; lia.
Defined.

Lemma bitfield_set_get_witness :
  ∃ data', setBitfieldInt [255; 0; 129] 5 10 (-3) = Some data' ∧
    getBitfieldInt data' 5 10 true = Some (-3) ∧ length data' = 3%nat ∧
    ∀ j, 0 <= j → ¬ (5 <= j < 5 + 10) → bitv data' j = bitv [255; 0; 129] j.
Proof.
  apply (bitfield_set_get [255; 0; 129] 5 10 (-3) true).
  - repeat constructor; unfold is_u8; lia.
  - lia.
  - unfold len; cbn; lia.
  - unfold len, maxAlloc; cbn; lia.
  - split; [lia|discriminate].
  - unfold tmin, tmax. cbn. lia.
Defined.

Definition incr : subCommand := mkSub bitfieldIncrBy true 8 0 100 overflowSat false.

Lemma incr_ok : sub_ok incr.
Proof. constructor; cbn; [split; [lia|discriminate]|lia|unfold maxAlloc; lia|widths; lia]. Qed.

Lemma exec_sub_correct_witness :
  (sc_op incr = bitfieldGet → exec_sub [100] false incr = Some ([100], false, Some 100)) ∧
  (sc_op incr ≠ bitfieldGet → write_outcome [100] false incr 100 (exec_sub [100] false incr)).
Proof.
  apply (exec_sub_correct [100] false incr 100).
  - exact incr_ok.
  - repeat constructor; unfold is_u8; lia.
  - unfold len, maxAlloc; cbn; lia.
  - vm_compute. reflexivity.
  - intros _. cbn. widths; lia.
Defined.

Definition incr_max : subCommand := mkSub bitfieldIncrBy true 8 0 MaxInt64 overflowSat false.

Lemma incrby_sat_wrong_end_witness :
  ∃ data', exec_sub [1] false incr_max = Some (data', true, Some (tmin 8 true)).
Proof.
  apply (incrby_sat_wrong_end [1] false incr_max 1).
  - constructor; cbn; [split; [lia|discriminate]|lia|unfold maxAlloc; lia|widths; lia].
  - repeat constructor; unfold is_u8; lia.
  - unfold len, maxAlloc; cbn; lia.
  - vm_compute. reflexivity.
  - reflexivity.
  - reflexivity.
  - reflexivity.
  - lia.
  - cbn. lia.
Defined.

#[local] Instance no_unicode : UnicodeCase := {|
  unicode_lower := id; unicode_upper := id; unicode_fields := λ _, []; unicode_trim := id |}.

Lemma bitfield_ro_offset_panics_witness :
  ∃ runner, handleBitFieldRO [key; str "GET"; str "u2"; str "#4611686018427387904"]
              = Accept [key] runner ∧ fst (runner st) = Panic.
Proof.
  apply (bitfield_ro_offset_panics key st [144; 1]).
  - exact I.
  - exact snap_wf.
  - vm_compute. reflexivity.
  - discriminate.
Defined.
End BitFieldExample.
