(* ===== verification/BitOp.v ===== *)
(** * BITOP

    The eight bitwise operations as operations on bits, strings of different
    lengths padded with zeros, and the command that stores the result. *)

From S2P Require Import Prelude GoBytes Strconv Writer Engine Bitmap BitmapProps BitCount.

Local Open Scope Z_scope.

(** What an operation computes from the bits of the sources at one position. *)
Definition bitop_spec (op : BitOp) (bs : list bool) : bool :=
  let x := default false (head bs) in
  let ys := tail bs in
  match op with
  | OpAND => forallb id bs
  | OpOR => existsb id bs
  | OpXOR => foldl xorb false bs
  | OpNOT => negb x
  | OpONE => count_if id bs =? 1
  | OpDIFF => x && negb (existsb id ys)
  | OpDIFF1 => negb x && existsb id ys
  | OpANDOR => x && existsb id ys
  end.

Definition bits_at (sources : list bytes) (i : Z) : list bool :=
  (λ src, bitv src i) <$> sources.

(** ** Bytewise updates *)

(** A byte-by-byte map of the result, seen bit by bit. *)
Lemma bitv_imap (g : nat → Z → Z) (result : bytes) i :
  0 <= i < 8 * len result →
  bitv (imap g result) i
  = Z.testbit (g (Z.to_nat (i / 8)) (byte_or_0 result (Z.to_nat (i / 8)))) (7 - i mod 8).
Proof.
  intros Hi. unfold bitv, byte_or_0 at 1. rewrite list_lookup_imap.
  destruct (lookup_lt_is_Some_2 result (Z.to_nat (i / 8))) as [b Hb].
  { unfold len in Hi. Z.div_mod_to_equations; lia. }
  unfold byte_or_0. by rewrite Hb.
Qed.

Lemma byte_lookup (src : bytes) j o : src !! j = o → byte_or_0 src j = match o with Some b => b | None => 0 end.
Proof. intros <-. unfold byte_or_0. by destruct (src !! j). Qed.

Section UpdateWith.
Context (f : Z → Z → Z) (bop : bool → bool → bool).
Hypothesis f_bits : ∀ a b n, Z.testbit (f a b) n = bop (Z.testbit a n) (Z.testbit b n).
Hypothesis bop_false : ∀ x, bop x false = x.

Lemma update_with_bits result src i :
  0 <= i < 8 * len result →
  bitv (update_with f result src) i = bop (bitv result i) (bitv src i).
Proof.
  intros Hi. unfold update_with. rewrite bitv_imap by done. unfold bitv.
  destruct (src !! Z.to_nat (i / 8)) as [b|] eqn:E; rewrite (byte_lookup src _ _ E); cbn [default].
  - apply f_bits.
  - by rewrite Z.bits_0, bop_false.
Qed.

Lemma fold_update_bits result srcs i :
  0 <= i < 8 * len result →
  length (foldl (update_with f) result srcs) = length result ∧
  bitv (foldl (update_with f) result srcs) i = foldl bop (bitv result i) (bits_at srcs i).
Proof.
  revert result. induction srcs as [|src srcs IH]; intros result Hi; [done|]. simpl.
  assert (Hl : length (update_with f result src) = length result) by apply length_imap.
  destruct (IH (update_with f result src)) as [Hlen Hb]; [unfold len in *; by rewrite Hl|].
  rewrite Hlen, Hb, Hl, update_with_bits by done. done.
Qed.
End UpdateWith.

Lemma foldl_orb b l : foldl orb b l = b || existsb id l.
Proof.
  revert b. induction l as [|x l IH]; intros b; simpl; [by rewrite orb_false_r|].
  by rewrite IH, orb_assoc.
Qed.

Lemma foldl_diff b l : foldl (λ a c, a && negb c) b l = b && negb (existsb id l).
Proof.
  revert b. induction l as [|x l IH]; intros b; simpl; [by rewrite andb_true_r|].
  by rewrite IH, negb_orb, andb_assoc.
Qed.

Lemma bitv_255 n i : 0 <= i < 8 * Z.of_nat n → bitv (replicate n 255) i = true.
Proof.
  intros Hi. unfold bitv, byte_or_0. rewrite lookup_replicate_2 by (Z.div_mod_to_equations; lia).
  cbn [default]. change 255 with (Z.ones 8). apply Z.ones_spec_low.
  assert (H8 := Z.mod_pos_bound i 8 ltac:(lia)). lia.
Qed.

Lemma and_bits (result : bytes) srcs i :
  0 <= i < 8 * len result →
  let r := foldl (λ (result : bytes) (src : bytes), imap (λ i r, match src !! i with Some b => Z.land r b | None => 0 end) result)
             result srcs in
  length r = length result ∧ bitv r i = bitv result i && forallb id (bits_at srcs i).
Proof.
  revert result. induction srcs as [|src srcs IH]; intros result Hi; [by rewrite andb_true_r|].
  cbn [foldl]. set (r' := imap _ result).
  assert (Hl : length r' = length result) by apply length_imap.
  destruct (IH r') as [Hlen Hb]; [unfold len in *; by rewrite Hl|].
  cbn zeta in *. rewrite Hlen, Hb, Hl. split; [done|]. unfold r'. rewrite bitv_imap by done.
  change (forallb id (bits_at (src :: srcs) i)) with (bitv src i && forallb id (bits_at srcs i)).
  unfold bitv.
  destruct (src !! Z.to_nat (i / 8)) as [b|] eqn:E; rewrite (byte_lookup src _ _ E); cbn [default].
  - by rewrite Z.land_spec, <-andb_assoc.
  - by rewrite Z.bits_0, andb_false_r.
Qed.

(** The other operations. *)
Lemma copy_bits n x i :
  0 <= i < 8 * Z.of_nat n → (length x ≤ n)%nat →
  bitv (update_with (λ _ b, b) (replicate n 0) x) i = bitv x i.
Proof.
  intros Hi Hx. unfold update_with. rewrite bitv_imap by (unfold len; by rewrite length_replicate).
  unfold bitv. destruct (x !! Z.to_nat (i / 8)) as [b|] eqn:E; rewrite (byte_lookup x _ _ E); [done|].
  cbn [default]. unfold byte_or_0. by rewrite lookup_replicate_2 by (Z.div_mod_to_equations; lia).
Qed.

Lemma not_bits n x i :
  0 <= i < 8 * Z.of_nat n → length x = n →
  bitv (update_with (λ _ b, u8 (Z.lnot b)) (replicate n 0) x) i = negb (bitv x i).
Proof.
  intros Hi Hx. unfold update_with. rewrite bitv_imap by (unfold len; by rewrite length_replicate).
  assert (H8 := Z.mod_pos_bound i 8 ltac:(lia)).
  destruct (lookup_lt_is_Some_2 x (Z.to_nat (i / 8))) as [b Hb]; [Z.div_mod_to_equations; lia|].
  unfold bitv. rewrite Hb, (byte_lookup x _ _ Hb). cbn [default]. unfold u8. change 256 with (2 ^ 8).
  rewrite Z.mod_pow2_bits_low, Z.lnot_spec by lia. done.
Qed.

Lemma andor_bits n x y i :
  0 <= i < 8 * Z.of_nat n →
  bitv (imap (λ i r, match x !! i with Some b => Z.land b (byte_or_0 y i) | None => r end)
          (replicate n 0)) i = bitv x i && bitv y i.
Proof.
  intros Hi. rewrite bitv_imap by (unfold len; by rewrite length_replicate).
  unfold bitv. destruct (x !! Z.to_nat (i / 8)) as [b|] eqn:E; rewrite (byte_lookup x _ _ E).
  - by rewrite Z.land_spec.
  - cbn [default]. rewrite Z.bits_0. unfold byte_or_0.
    rewrite lookup_replicate_2 by (Z.div_mod_to_equations; lia). by rewrite Z.bits_0.
Qed.

(** ** Exactly one *)

Lemma xor_fold_bits (sources : list bytes) j n :
  Z.testbit (foldl (λ c (src : bytes), match src !! j with Some b => Z.lxor c b | None => c end)
               0 sources) n
  = foldl xorb false ((λ src, Z.testbit (byte_or_0 src j) n) <$> sources).
Proof.
  rewrite <-(Z.bits_0 n) at 1. generalize 0. induction sources as [|src l IH]; intros c; [done|].
  cbn [foldl fmap list_fmap]. rewrite IH. f_equal.
  destruct (src !! j) as [b|] eqn:E; rewrite (byte_lookup src _ _ E); cbn [default].
  - apply Z.lxor_spec.
  - by rewrite Z.bits_0, xorb_false_r.
Qed.

(** The counting loop over the eight bits of a byte. *)
Lemma or_loop_bits (P : Z → bool) l r n :
  0 <= n → Forall (λ k, 0 <= k) l →
  Z.testbit (foldl (λ r bit, if P bit then Z.lor r (Z.shiftl 1 bit) else r) r l) n
  = Z.testbit r n || (existsb (Z.eqb n) l && P n).
Proof.
  intros Hn. revert r. induction l as [|k l IH]; intros r Hl; cbn [foldl existsb];
    [by rewrite orb_false_r|]. apply Forall_cons in Hl as [Hk Hl]. rewrite IH by done.
  destruct (Z.eqb_spec n k) as [<-|Hne]; cbn [orb andb].
  - destruct (P n).
    + rewrite Z.lor_spec, Z.shiftl_1_l, Z.pow2_bits_true by lia. by rewrite orb_true_r.
    + by rewrite !andb_false_r.
  - destruct (P k); [|done]. rewrite Z.lor_spec, Z.shiftl_1_l, Z.pow2_bits_false by lia.
    by rewrite orb_false_r.
Qed.

Lemma exactly_one_two (bs : list bool) :
  (length bs ≤ 2)%nat → foldl xorb false bs = (count_if id bs =? 1).
Proof. destruct bs as [|[] [|[] [|? ?]]]; simpl; try done; lia. Qed.

Lemma one_byte_bits sources j n :
  0 <= n < 8 →
  Z.testbit (one_byte sources j) n
  = (count_if id ((λ src, Z.testbit (byte_or_0 src j) n) <$> sources) =? 1).
Proof.
  intros Hn. unfold one_byte. destruct (Z.leb_spec (len sources) 2) as [Hle|Hgt].
  - rewrite xor_fold_bits. apply exactly_one_two. rewrite length_fmap. unfold len in Hle. lia.
  - rewrite (or_loop_bits (λ bit, len (filter (λ src : bytes,
       match src !! j with Some b => Z.land (Z.shiftr b bit) 1 =? 1 | None => false end = true) sources) =? 1))
      by (try lia; repeat constructor; lia).
    rewrite Z.bits_0. cbn [orb].
    replace (existsb (Z.eqb n) [0; 1; 2; 3; 4; 5; 6; 7]) with true.
    2: { symmetry. apply existsb_exists. exists n. split; [|by apply Z.eqb_refl].
         assert (n = 0 ∨ n = 1 ∨ n = 2 ∨ n = 3 ∨ n = 4 ∨ n = 5 ∨ n = 6 ∨ n = 7) by lia. cbn. lia. }
    cbn [andb]. f_equal. rewrite <-count_if_filter. clear Hgt.
    induction sources as [|src l IH]; [done|]. cbn [count_if fmap list_fmap]. rewrite IH. f_equal.
    destruct (src !! j) as [b|] eqn:E; rewrite (byte_lookup src _ _ E); cbn [default].
    + rewrite Z.shiftr_div_pow2, (Z.land_ones _ 1), <-Z.testbit_spec' by lia.
      by destruct (Z.testbit b n).
    + by rewrite Z.bits_0.
Qed.

Lemma max_len_spec (sources : list bytes) src :
  src ∈ sources → (length src ≤ max_len sources)%nat.
Proof.
  unfold max_len. assert (Hgen : ∀ m, (m ≤ foldl (λ m (src : bytes), if (m <? length src)%nat then length src else m) m sources)%nat ∧
    (src ∈ sources → length src ≤ foldl (λ m (src : bytes), if (m <? length src)%nat then length src else m) m sources)%nat).
  { induction sources as [|s l IH]; intros m; simpl.
    - split; [lia|]. by intros ?%elem_of_nil.
    - destruct (IH (if (m <? length s)%nat then length s else m)) as [Hm Hin].
      destruct (Nat.ltb_spec m (length s)); (split; [lia|]);
        intros [->|Hs]%elem_of_cons; [lia|auto|lia|auto]. }
  apply (Hgen 0%nat).
Qed.

(** The bitwise operations of BITOP.  The result is as long as the longest
    source, and each of its bits is the operation of the sources' bits at that
    position, a source that is too short contributing zeros: AND, OR, XOR and
    NOT as usual, ONE when exactly one source has the bit, DIFF when the first
    has it and no other does, DIFF1 when another has it and the first does not,
    ANDOR when the first and some other have it. *)
Theorem bitop_result_correct (op : BitOp) (sources : list bytes) (i : Z) :
  sources ≠ [] → (op = OpNOT → length sources = 1%nat) →
  0 <= i < 8 * Z.of_nat (max_len sources) →
  length (bitop_result op (max_len sources) sources) = max_len sources ∧
  bitv (bitop_result op (max_len sources) sources) i = bitop_spec op (bits_at sources i).
Proof.
  intros Hne Hnot Hi. destruct sources as [|x ys]; [done|]. clear Hne.
  assert (Hx : (length x ≤ max_len (x :: ys))%nat) by (apply max_len_spec; by left).
  assert (Hone : ys = [] → max_len (x :: ys) = length x)
    by (intros ->; unfold max_len; simpl; destruct (Nat.ltb_spec 0 (length x)); lia).
  revert Hnot Hi Hx Hone. generalize (max_len (x :: ys)) as n. intros n Hnot Hi Hx Hone.
  assert (Hzero : 0 <= i < 8 * len (replicate n 0)) by (unfold len; by rewrite length_replicate).
  assert (Hunion : length (y_union n ys) = n ∧ bitv (y_union n ys) i = existsb id (bits_at ys i)).
  { unfold y_union. destruct (fold_update_bits Z.lor orb Z.lor_spec orb_false_r _ ys i Hzero) as [Hl Hb].
    by rewrite Hl, Hb, length_replicate, bitv_zeros, foldl_orb. }
  destruct Hunion as [Hul Hub].
  destruct op; cbn [bitop_result bitop_spec tail].
  - destruct (and_bits (replicate n 255) (x :: ys) i) as [Hl Hb];
      [unfold len; by rewrite length_replicate|].
    unfold bitop_and. rewrite Hl, Hb, length_replicate, bitv_255 by lia. done.
  - destruct (fold_update_bits Z.lor orb Z.lor_spec orb_false_r _ (x :: ys) i Hzero) as [Hl Hb].
    by rewrite Hl, Hb, length_replicate, bitv_zeros, foldl_orb.
  - destruct (fold_update_bits Z.lxor xorb Z.lxor_spec xorb_false_r _ (x :: ys) i Hzero) as [Hl Hb].
    by rewrite Hl, Hb, length_replicate, bitv_zeros.
  - specialize (Hnot eq_refl). assert (ys = []) as -> by (destruct ys; [done|cbn in Hnot; lia]).
    specialize (Hone eq_refl). unfold len. destruct (Z.eqb_spec (Z.of_nat (length x)) 0); [lia|].
    split; [unfold update_with; by rewrite length_imap, length_replicate|]. by apply not_bits.
  - split; [by rewrite length_imap, length_replicate|]. rewrite bitv_imap by done.
    apply one_byte_bits. assert (H8 := Z.mod_pos_bound i 8 ltac:(lia)). lia.
  - assert (Hcl : length (update_with (λ _ b, b) (replicate n 0) x) = n)
      by (unfold update_with; by rewrite length_imap, length_replicate).
    destruct (fold_update_bits Z.ldiff (λ a b, a && negb b) Z.ldiff_spec andb_true_r
      (update_with (λ _ b, b) (replicate n 0) x) ys i) as [Hl Hb]; [unfold len; by rewrite Hcl|].
    by rewrite Hl, Hb, Hcl, copy_bits, foldl_diff.
  - split; [unfold update_with; by rewrite length_imap|].
    rewrite (update_with_bits Z.ldiff (λ a b, a && negb b) Z.ldiff_spec andb_true_r)
      by (unfold len; by rewrite Hul).
    rewrite Hub. apply andb_comm.
  - split; [by rewrite length_imap, length_replicate|]. by rewrite andor_bits, Hub.
Qed.

(** ** The command *)
Section Command.
Context `{EngineLaws}.

(** The bytes of a list of keys. *)
Definition keys_bytes (v : bytes → option ReducedEffect) (ks : list bytes) (ds : list bytes) : Prop :=
  Forall2 (λ k d, bitmap_key (v k) ∧ reconstructBitmapBytes (v k) = Some d) ks ds.

Lemma read_sources_spec ks ds st :
  healthy (st_ctx st) → keys_bytes (view (st_ctx st)) ks ds →
  returns (read_sources ks) st ds (view (st_ctx st)).
Proof.
  intros Hh Hks. revert st Hh Hks. revert ds.
  induction ks as [|k ks IH]; intros ds st Hh Hks.
  - apply Forall2_nil_inv_l in Hks as ->. by apply returns_ret.
  - apply Forall2_cons_inv_l in Hks as (d & ds' & [Hk Hd] & Hks & ->). cbn [read_sources].
    destruct (returns_bitmap_snapshot k st Hh) as [tips Hs].
    apply (returns_bind _ _ _ _ _ _ _ Hs). intros c Hc Hv.
    assert (Hcl : sr_wrongType (classify_bitmap (view (st_ctx st) k) tips) = false ∧
                  sr_snap (classify_bitmap (view (st_ctx st) k) tips) = view (st_ctx st) k).
    { destruct (view (st_ctx st) k); [by rewrite classify_wf|done]. }
    destruct Hcl as [-> ->]. apply (returns_or_panic _ d); [done|].
    eapply (returns_bind _ _ _ _ _ _ _ (IH ds' (mkSt c (st_w st) (st_held st)) Hc _)).
    intros c2 Hc2 Hv2. apply returns_ret; [done|]. intros k'. cbn [st_ctx]. by rewrite Hv2, <-Hv.
    Unshelve. eapply Forall2_impl; [exact Hks|]. intros k' d'. cbn [st_ctx]. by rewrite Hv.
Qed.

(** A destination that is missing or a live string. *)
Definition string_or_none (s : option ReducedEffect) : Prop :=
  match s with
  | None => True
  | Some r => re_Op r = INSERT_OP ∧ re_Collection r = SCALAR
  end.

Lemma returns_snapshot_noerr k st :
  healthy (st_ctx st) →
  ∃ tips, returns (getBitmapSnapshot_noerr k) st (classify_bitmap (view (st_ctx st) k) tips)
            (view (st_ctx st)).
Proof.
  intros Hh. destruct (law_get k _ Hh) as (tips & c' & E & Hh' & Hv).
  exists tips, c'. unfold getBitmapSnapshot_noerr. rewrite E. done.
Qed.

(** BITOP stores the result.  From keys that hold bitmaps, strings or
    nothing, not all of them empty, into a destination that is missing or a
    string, the runner ends without a failure: it replies the length of the
    result, the destination's bytes are the result of the operation on the
    sources' bytes, and no other key changes. *)
Theorem bitop_correct (op : BitOp) (dest : bytes) (ks ds : list bytes) (st : St) :
  healthy (st_ctx st) → keys_bytes (view (st_ctx st)) ks ds → max_len ds ≠ 0%nat →
  string_or_none (view (st_ctx st) dest) →
  ∃ r', ends (bitop_runner op dest ks) st
          (WriteInteger (len (bitop_result op (max_len ds) ds)) (st_w st))
          (updated (view (st_ctx st)) dest (Some r')) ∧
        reconstructBitmapBytes (Some r') = Some (bitop_result op (max_len ds) ds).
Proof.
  intros Hh Hks Hmax Hdest. set (result := bitop_result op (max_len ds) ds).
  set (tag0 := match view (st_ctx st) dest with Some r => re_TypeTag r | None => TYPE_UNSPECIFIED end).
  set (fresh := bool_decide (view (st_ctx st) dest = None)).
  set (tagged := fresh || negb (bool_decide (tag0 = TYPE_STRING)) &&
                          negb (bool_decide (tag0 = TYPE_UNSPECIFIED))).
  exists (mkReduced INSERT_OP SCALAR (if tagged then TYPE_STRING else tag0) (Some (Raw result)) ∅ []).
  split; [|cbn; by rewrite law_raw].
  unfold bitop_runner. apply (ends_bind _ _ _ _ _ _ _ (read_sources_spec ks ds st Hh Hks)).
  intros c1 Hc1 Hv1. rewrite (proj2 (Nat.eqb_neq _ _)) by done.
  destruct (returns_snapshot_noerr dest (mkSt c1 (st_w st) (st_held st)) Hc1) as [tips Hs].
  cbn [st_ctx] in Hs. rewrite Hv1 in Hs. apply (ends_bind _ _ _ _ _ _ _ Hs). intros c2 Hc2 Hv2.
  eapply (ends_emit _ _ _ _ (Some (mkReduced INSERT_OP SCALAR tag0 (Some (Raw result)) ∅ [])));
    [done| |].
  { cbn [ef_Key ef_Kind reduce de_Collection de_Op de_Value st_ctx]. rewrite Hv2, Hv1. unfold tag0.
    destruct (view (st_ctx st) dest) as [r|]; [|done]. by destruct Hdest as [_ ->]. }
  intros c3 Hc3 Hv3.
  assert (Htag : match sr_snap (classify_bitmap (view (st_ctx st) dest) tips) with
                 | None => true
                 | Some r => negb (bool_decide (re_TypeTag r = TYPE_STRING)) &&
                             negb (bool_decide (re_TypeTag r = TYPE_UNSPECIFIED))
                 end = tagged).
  { unfold tagged, fresh, tag0. destruct (view (st_ctx st) dest) as [r|]; [|done].
    destruct Hdest as [Ho Hc]. unfold classify_bitmap. rewrite Ho, Hc. done. }
  rewrite Htag. clear Htag.
  assert (Hview : ∀ c r, (∀ k, view c k = updated (view c3) dest r k) →
            ∀ k, view c k = updated (view (st_ctx st)) dest r k).
  { intros c r Hc k. rewrite Hc. unfold updated. case_decide; [done|].
    rewrite Hv3. unfold updated. cbn [ef_Key st_ctx]. rewrite decide_False by done. by rewrite Hv2, Hv1. }
  destruct tagged.
  - eapply ends_emit; [done| |].
    { cbn [ef_Key ef_Kind reduce st_ctx]. rewrite Hv3. unfold updated. cbn [ef_Key].
      rewrite decide_True by done. reflexivity. }
    intros c4 Hc4 Hv4. apply ends_write; [done..|]. by apply Hview.
  - apply ends_ret_bind, ends_write; [done..|]. intros k. cbn [st_ctx]. rewrite Hv3.
    unfold updated. cbn [ef_Key st_ctx]. case_decide; [done|]. by rewrite Hv2, Hv1.
Qed.
End Command.

(** ** Witnesses *)
Module BitOpExample.
Import RefEngine BitmapExample.

Lemma bitop_result_correct_witness :
  length (bitop_result OpONE 2 [[255; 1]; [15]; [1]]) = 2%nat ∧
  bitv (bitop_result OpONE 2 [[255; 1]; [15]; [1]]) 2 = bitop_spec OpONE [true; false; false].
Proof.
  apply (bitop_result_correct OpONE [[255; 1]; [15]; [1]] 2).
  - discriminate.
  - discriminate.
  - cbn. lia.
Defined.

Lemma bitop_correct_witness :
  ∃ r', ends (bitop_runner OpXOR (str "d") [key; str "none"]) st
          (WriteInteger (len (bitop_result OpXOR 2 [[144; 1]; []])) (st_w st))
          (updated (view ctx) (str "d") (Some r')) ∧
        reconstructBitmapBytes (Some r') = Some (bitop_result OpXOR 2 [[144; 1]; []]).
Proof.
  apply (bitop_correct OpXOR (str "d") [key; str "none"] [[144; 1]; []] st).
  - exact I.
  - constructor; [split; [exact snap_wf|vm_compute; reflexivity]|].
    constructor; [split; [exact I|vm_compute; reflexivity]|constructor].
  - discriminate.
  - exact I.
Defined.
End BitOpExample.
