(* ===== verification/Lcs.v ===== *)
(** * Longest common subsequence

    [computeLCS] of [src/redis/str/helpers.go], the engine of the LCS command:
    the table of lengths, the walk back through it that fills the result from
    its end and collects the ranges of the IDX mode.  The theorems show that
    the walk ends without an index out of range, that the result is a longest
    common subsequence, and that the ranges spell it in both strings. *)

From S2P Require Import Prelude GoBytes.

Local Open Scope Z_scope.

(** ** The table *)

(** [dp[i][j+1..]] from [dp[i-1][j..]]: [diag] is [dp[i-1][j]], [ups] the rest of
    that row, [left] is [dp[i][j]]. *)
Fixpoint dp_cells (x : Z) (b : bytes) (diag : nat) (ups : list nat) (left : nat) : list nat :=
  match b, ups with
  | y :: b', up :: ups' =>
    let v := if x =? y then S diag else Nat.max up left in
    v :: dp_cells x b' up ups' v
  | _, _ => []
  end.

Definition dp_row (x : Z) (b : bytes) (prev : list nat) : list nat :=
  match prev with
  | diag :: ups => 0%nat :: dp_cells x b diag ups 0
  | [] => []
  end.

Fixpoint dp_rows (a b : bytes) (prev : list nat) : list (list nat) :=
  match a with
  | [] => []
  | x :: a' => let row := dp_row x b prev in row :: dp_rows a' b row
  end.

Definition dp_table (a b : bytes) : list (list nat) :=
  let row0 := replicate (S (length b)) 0%nat in row0 :: dp_rows a b row0.

(** ** The walk back *)

Record lcsMatch := mkMatch { start1 : Z; end1 : Z; start2 : Z; end2 : Z; m_length : Z }.

Record Walk := mkWalk {
  wk_result : bytes;
  wk_k : Z;
  wk_inMatch : bool;
  wk_matchEnd1 : Z;
  wk_matchEnd2 : Z;
  wk_matches : list lcsMatch
}.

(** [result[k] = v], which panics out of range. *)
Definition go_set (k : Z) (v : Z) (l : bytes) : option bytes :=
  if (0 <=? k) && (k <? len l) then Some (<[Z.to_nat k := v]> l) else None.

Definition record_match (i j : nat) (w : Walk) : Walk :=
  mkWalk (wk_result w) (wk_k w) false (wk_matchEnd1 w) (wk_matchEnd2 w)
    (wk_matches w ++ [mkMatch (Z.of_nat i) (wk_matchEnd1 w) (Z.of_nat j) (wk_matchEnd2 w)
                        (wk_matchEnd1 w - Z.of_nat i + 1)]).

(** [i == 0 || j == 0 || a[i-1] != b[j-1]]. *)
Definition match_ends (a b : bytes) (i j : nat) : option bool :=
  match i, j with
  | S i', S j' => x ← a !! i'; y ← b !! j'; Some (negb (x =? y))
  | _, _ => Some true
  end.

(** The loop, for [fuel] turns; [None] is a panic or lack of fuel. *)
Fixpoint walk_back (fuel : nat) (a b : bytes) (dp : list (list nat)) (i j : nat) (w : Walk) : option Walk :=
  match i, j with
  | S i', S j' =>
    match fuel with
    | O => None
    | S fuel' =>
      x ← a !! i'; y ← b !! j';
      if x =? y then
        result ← go_set (wk_k w) x (wk_result w);
        let w1 := if negb (wk_inMatch w)
                  then mkWalk result (wk_k w - 1) true (Z.of_nat i') (Z.of_nat j') (wk_matches w)
                  else mkWalk result (wk_k w - 1) true (wk_matchEnd1 w) (wk_matchEnd2 w) (wk_matches w) in
        stop ← match_ends a b i' j';
        walk_back fuel' a b dp i' j' (if stop : bool then record_match i' j' w1 else w1)
      else
        let w1 := if wk_inMatch w then record_match i j w else w in
        up ← dp !! i' ≫= (.!! j);
        lft ← dp !! i ≫= (.!! j');
        if (lft <? up)%nat then walk_back fuel' a b dp i' j w1
        else walk_back fuel' a b dp i j' w1
    end
  | _, _ => Some w
  end.

Definition computeLCS (a b : bytes) : option (bytes * Z * list lcsMatch) :=
  let m := length a in
  let n := length b in
  if (m =? 0)%nat || (n =? 0)%nat then Some ([], 0, [])
  else
    let dp := dp_table a b in
    lcsLen ← dp !! m ≫= (.!! n);
    if (lcsLen =? 0)%nat then Some ([], 0, [])
    else
      w ← walk_back (m + n) a b dp m n
            (mkWalk (replicate lcsLen 0) (Z.of_nat lcsLen - 1) false 0 0 []);
      Some (wk_result w, Z.of_nat lcsLen, wk_matches w).

(** ** The reference: the length of a longest common subsequence *)

Fixpoint lcs_length (s t : bytes) : nat :=
  match s with
  | [] => 0%nat
  | x :: s' =>
    (fix go (t : bytes) : nat :=
       match t with
       | [] => 0%nat
       | y :: t' => if x =? y then S (lcs_length s' t') else Nat.max (lcs_length s' (y :: t')) (go t')
       end) t
  end.

Lemma lcs_length_nil_r s : lcs_length s [] = 0%nat.
Proof. by destruct s. Qed.

Lemma lcs_length_cons x s y t :
  lcs_length (x :: s) (y :: t) =
  if x =? y then S (lcs_length s t) else Nat.max (lcs_length s (y :: t)) (lcs_length (x :: s) t).
Proof. reflexivity. Qed.

(** No common subsequence is longer. *)
Lemma lcs_length_longest u s t : u `sublist_of` s → u `sublist_of` t → (length u <= lcs_length s t)%nat.
Proof.
  revert u t. induction s as [|x s IHs]; intros u t Hs Ht.
  { apply sublist_nil_r in Hs. by subst. }
  revert u Hs Ht. induction t as [|y t IHt]; intros u Hs Ht.
  { apply sublist_nil_r in Ht. by subst. }
  rewrite lcs_length_cons. apply sublist_cons_r in Hs, Ht.
  destruct Hs as [Hs|(u1 & -> & Hs)].
  - destruct Ht as [Ht|(u2 & -> & Ht)].
    + pose proof (IHs u t Hs Ht). pose proof (IHt u (sublist_cons _ _ _ Hs) Ht). destruct (x =? y); lia.
    + destruct (Z.eqb_spec x y) as [->|].
      * simpl. apply le_n_S, IHs; [|done]. etrans; [|exact Hs]. by apply sublist_cons.
      * pose proof (IHs (y :: u2) (y :: t) Hs ltac:(by apply sublist_skip)). lia.
  - destruct Ht as [Ht|(u2 & E & Ht)].
    + destruct (Z.eqb_spec x y) as [->|].
      * simpl. apply le_n_S, IHs; [done|]. etrans; [|exact Ht]. by apply sublist_cons.
      * pose proof (IHt (x :: u1) ltac:(by apply sublist_skip) Ht). lia.
    + simplify_eq. rewrite Z.eqb_refl. simpl. apply le_n_S. by apply IHs.
Qed.

(** ** The table holds the lengths *)

(** The first [i] bytes, last one first. *)
Definition prefix (l : bytes) (i : nat) : bytes := reverse (take i l).

Lemma prefix_S l i x : l !! i = Some x → prefix l (S i) = x :: prefix l i.
Proof. intros Hx. unfold prefix. by rewrite (take_S_r _ _ x), reverse_snoc. Qed.

(** The cells after those of [b0]. *)
Lemma dp_cells_spec x s b0 b1 diag ups left j :
  diag = lcs_length s (reverse b0) →
  (∀ k, (k < length b1)%nat → ups !! k = Some (lcs_length s (reverse (b0 ++ take (S k) b1)))) →
  left = lcs_length (x :: s) (reverse b0) →
  (j < length b1)%nat →
  dp_cells x b1 diag ups left !! j = Some (lcs_length (x :: s) (reverse (b0 ++ take (S j) b1))).
Proof.
  revert b0 diag ups left j. induction b1 as [|y b1 IH]; intros b0 diag ups left j Hd Hu Hl Hj; [simpl in *; lia|].
  assert (Hup := Hu 0%nat ltac:(simpl; lia)). destruct ups as [|up ups]; [done|]. simpl in Hup.
  injection Hup as Hup. rewrite firstn_O in Hup. cbn [dp_cells].
  set (v := if x =? y then _ else _).
  assert (Hv : v = lcs_length (x :: s) (reverse (b0 ++ [y]))).
  { unfold v. rewrite reverse_snoc, lcs_length_cons. subst. destruct (x =? y); [done|]. by rewrite reverse_snoc. }
  destruct j as [|j]; [cbn; rewrite firstn_O; by f_equal|].
  change (dp_cells x b1 up ups v !! j = Some (lcs_length (x :: s) (reverse (b0 ++ y :: take (S j) b1)))).
  rewrite (IH (b0 ++ [y]) _ ups v j); [by rewrite <- app_assoc|done| |done|simpl in Hj; lia].
  intros k Hk. rewrite <- app_assoc. apply (Hu (S k)). simpl. lia.
Qed.

(** A row for the string [s]. *)
Definition row_for (s b : bytes) (row : list nat) : Prop :=
  ∀ j, (j <= length b)%nat → row !! j = Some (lcs_length s (prefix b j)).

Lemma dp_row_spec x s b prev : row_for s b prev → row_for (x :: s) b (dp_row x b prev).
Proof.
  intros Hp j Hj. pose proof (Hp 0%nat ltac:(lia)) as H0. destruct prev as [|d ups]; [done|].
  destruct j as [|j]; [done|]. cbn [dp_row lookup list_lookup].
  apply (dp_cells_spec x s [] b); [by simplify_eq/=| |done|lia].
  intros k Hk. apply (Hp (S k)). lia.
Qed.

Lemma dp_rows_spec s a b prev i : row_for s b prev → (i < length a)%nat →
  ∃ row, dp_rows a b prev !! i = Some row ∧ row_for (prefix a (S i) ++ s) b row.
Proof.
  revert s prev i. induction a as [|x a IH]; intros s prev i Hp Hi; [simpl in *; lia|].
  apply (dp_row_spec x) in Hp. destruct i as [|i]; [by eexists|].
  destruct (IH _ _ i Hp) as (row & E & Hr); [simpl in *; lia|]. exists row. split; [done|].
  unfold prefix in *. cbn [take]. by rewrite reverse_cons, <- app_assoc.
Qed.

Lemma dp_table_spec a b i j : (i <= length a)%nat → (j <= length b)%nat →
  dp_table a b !! i ≫= (.!! j) = Some (lcs_length (prefix a i) (prefix b j)).
Proof.
  intros Hi Hj. unfold dp_table. set (row0 := replicate _ _).
  assert (H0 : row_for [] b row0) by (intros k Hk; apply lookup_replicate_2; lia).
  destruct i as [|i]; [by apply H0|]. cbn [lookup list_lookup].
  destruct (dp_rows_spec [] a b row0 i H0) as (row & E & Hr); [lia|].
  change (dp_rows a b row0 !! i ≫= (.!! j) = Some (lcs_length (prefix a (S i)) (prefix b j))).
  rewrite E, app_nil_r in *. by apply Hr.
Qed.

(** ** The walk *)

(** Bytes [s] to [e] of [l], both included. *)
Definition slice (l : bytes) (s e : Z) : bytes := take (Z.to_nat (e - s + 1)) (drop (Z.to_nat s) l).
Definition slice1 (a : bytes) (m : lcsMatch) : bytes := slice a (start1 m) (end1 m).
Definition slice2 (b : bytes) (m : lcsMatch) : bytes := slice b (start2 m) (end2 m).

(** The ranges, recorded last to first, put together. *)
Definition spell (f : lcsMatch → bytes) (ms : list lcsMatch) : bytes := concat (reverse (f <$> ms)).

Definition match_ok (m : lcsMatch) : Prop :=
  0 <= start1 m <= end1 m ∧ 0 <= start2 m ∧
  m_length m = end1 m - start1 m + 1 ∧ m_length m = end2 m - start2 m + 1.
(** [m'] lies before [m] in both strings. *)
Definition above (m m' : lcsMatch) : Prop := end1 m' < start1 m ∧ end2 m' < start2 m.

Lemma spell_cons f m ms : spell f (m :: ms) = spell f ms ++ f m.
Proof. unfold spell. cbn [fmap list_fmap]. rewrite reverse_cons, concat_app. simpl. by rewrite app_nil_r. Qed.

Lemma go_set_last p z d x : go_set (Z.of_nat (length p)) x ((p ++ [z]) ++ d) = Some (p ++ x :: d).
Proof.
  unfold go_set, len. rewrite !length_app. simpl. rewrite Nat2Z.id.
  rewrite (proj2 (Z.leb_le _ _)), (proj2 (Z.ltb_lt _ _)) by lia. cbn [andb].
  rewrite <- app_assoc. rewrite insert_app_r_alt, Nat.sub_diag by done. done.
Qed.

(** What the walk from [(i, j)] adds: the bytes [r] in front of [d], the ranges
    [ms]; [c] bytes of the range under way are above [(i, j)] already. *)
Record walked (a b : bytes) (i j c : nat) (d : bytes) (w w' : Walk) (r : bytes) (ms : list lcsMatch) : Prop :=
  mkWalked {
    wd_result : wk_result w' = r ++ d;
    wd_length : length r = lcs_length (prefix a i) (prefix b j);
    wd_sub1 : r `sublist_of` take i a;
    wd_sub2 : r `sublist_of` take j b;
    wd_matches : wk_matches w' = wk_matches w ++ ms;
    wd_spell1 : spell (slice1 a) ms = r ++ take c (drop i a);
    wd_spell2 : spell (slice2 b) ms = r ++ take c (drop j b);
    wd_ok : Forall match_ok ms;
    wd_sorted : StronglySorted above ms;
    wd_below : Forall (λ m, end1 m < Z.of_nat (i + c) ∧ end2 m < Z.of_nat (j + c)) ms
  }.

(** The state of the walk at [(i, j)]. *)
Record walking (a b : bytes) (i j c : nat) (d : bytes) (w : Walk) : Prop := mkWalking {
  wg_i : (i <= length a)%nat;
  wg_j : (j <= length b)%nat;
  wg_k : wk_k w = Z.of_nat (lcs_length (prefix a i) (prefix b j)) - 1;
  wg_result : ∃ p, wk_result w = p ++ d ∧ length p = lcs_length (prefix a i) (prefix b j);
  wg_in : wk_inMatch w = negb (c =? 0)%nat;
  wg_run : c ≠ 0%nat → wk_matchEnd1 w = Z.of_nat (i + c) - 1 ∧ wk_matchEnd2 w = Z.of_nat (j + c) - 1 ∧
    ∃ i' j' x, i = S i' ∧ j = S j' ∧ a !! i' = Some x ∧ b !! j' = Some x
}.

Lemma walked_stop a b i j c d w : walking a b i j c d w → i = 0%nat ∨ j = 0%nat →
  walked a b i j c d w w [] [].
Proof.
  intros Hw H0. assert (c = 0%nat) as ->.
  { destruct (decide (c = 0%nat)) as [|Hc]; [done|]. destruct (wg_run _ _ _ _ _ _ _ Hw Hc) as (_ & _ & i' & j' & x & -> & -> & _).
    destruct H0; done. }
  assert (HL : lcs_length (prefix a i) (prefix b j) = 0%nat).
  { destruct H0 as [-> | ->]; [done|]. unfold prefix at 2. rewrite firstn_O. apply lcs_length_nil_r. }
  destruct (wg_result _ _ _ _ _ _ _ Hw) as (p & Hp & Hl). rewrite HL in Hl. destruct p; [|done].
  constructor; rewrite ?app_nil_r, ?HL; try done; try constructor; apply sublist_nil_l.
Qed.

Lemma drop_take_S {A} (l : list A) i c x : l !! i = Some x → take (S c) (drop i l) = x :: take c (drop (S i) l).
Proof. intros Hx. by rewrite (drop_S l x i Hx). Qed.

(** A common byte ends the walk at [(i, j)] if it does at [(i - 1, j - 1)]. *)
Lemma walked_match a b i j c d w w1 w' x r ms : a !! i = Some x → b !! j = Some x →
  wk_matches w1 = wk_matches w → walked a b i j (S c) (x :: d) w1 w' r ms →
  walked a b (S i) (S j) c d w w' (r ++ [x]) ms.
Proof.
  intros Ha Hb Hm [Hr HL H1 H2 Hms Hs1 Hs2 Hok Hso Hbe]. constructor; try done.
  - by rewrite <- app_assoc.
  - rewrite (prefix_S a i x), (prefix_S b j x), lcs_length_cons, Z.eqb_refl, length_app by done. simpl. lia.
  - rewrite (take_S_r _ _ x) by done. by apply sublist_app.
  - rewrite (take_S_r _ _ x) by done. by apply sublist_app.
  - by rewrite Hms, Hm.
  - rewrite Hs1, <- app_assoc. f_equal. by apply drop_take_S.
  - rewrite Hs2, <- app_assoc. f_equal. by apply drop_take_S.
  - eapply Forall_impl; [exact Hbe|]. cbv beta. intros m. lia.
Qed.

Lemma walked_record a b i j c d w w' r ms : c ≠ 0%nat →
  wk_matchEnd1 w = Z.of_nat (i + c) - 1 → wk_matchEnd2 w = Z.of_nat (j + c) - 1 →
  walked a b i j 0 d (record_match i j w) w' r ms → ∃ ms', walked a b i j c d w w' r ms'.
Proof.
  intros Hc H1 H2 [Hr HL Hb1 Hb2 Hms Hs1 Hs2 Hok Hso Hbe].
  set (m0 := mkMatch (Z.of_nat i) (wk_matchEnd1 w) (Z.of_nat j) (wk_matchEnd2 w) (wk_matchEnd1 w - Z.of_nat i + 1)).
  rewrite !app_nil_r in *. exists (m0 :: ms). constructor; try done.
  - rewrite Hms. cbn [record_match wk_matches]. by rewrite <- app_assoc.
  - rewrite spell_cons, Hs1. f_equal. unfold slice1, slice. cbn. rewrite H1, Nat2Z.id. f_equal. lia.
  - rewrite spell_cons, Hs2. f_equal. unfold slice2, slice. cbn. rewrite H2, Nat2Z.id. f_equal. lia.
  - constructor; [|done]. unfold match_ok. cbn. lia.
  - constructor; [done|]. eapply Forall_impl; [exact Hbe|]. unfold above. cbn. intros m. lia.
  - constructor; [cbn; lia|]. eapply Forall_impl; [exact Hbe|]. cbv beta. intros m. lia.
Qed.

(** Above a byte that is not common, no range is under way. *)
Lemma walking_apart a b i j c d w x y : walking a b (S i) (S j) c d w →
  a !! i = Some x → b !! j = Some y → x ≠ y → c = 0%nat.
Proof.
  intros Hw Ha Hb Hne. destruct (decide (c = 0%nat)) as [|Hc]; [done|].
  destruct (wg_run _ _ _ _ _ _ _ Hw Hc) as (_ & _ & i' & j' & z & ? & ? & ? & ?). by simplify_eq.
Qed.

Lemma match_ends_spec a b i j : (i <= length a)%nat → (j <= length b)%nat →
  ∃ stop, match_ends a b i j = Some stop ∧
    (stop = false → ∃ i' j' x, i = S i' ∧ j = S j' ∧ a !! i' = Some x ∧ b !! j' = Some x).
Proof.
  intros Hi Hj. destruct i as [|i], j as [|j]; try by exists true.
  destruct (lookup_lt_is_Some_2 a i) as [x Hx]; [lia|]. destruct (lookup_lt_is_Some_2 b j) as [y Hy]; [lia|].
  exists (negb (x =? y)). simpl. rewrite Hx. simpl. rewrite Hy. split; [done|].
  intros E%negb_false_iff%Z.eqb_eq. subst. by exists i, j, y.
Qed.

(** The state after a common byte has been copied. *)
Lemma walking_match a b i j c d w x : walking a b (S i) (S j) c d w →
  a !! i = Some x → b !! j = Some x →
  ∃ result, go_set (wk_k w) x (wk_result w) = Some result ∧
    let w1 := if negb (wk_inMatch w)
              then mkWalk result (wk_k w - 1) true (Z.of_nat i) (Z.of_nat j) (wk_matches w)
              else mkWalk result (wk_k w - 1) true (wk_matchEnd1 w) (wk_matchEnd2 w) (wk_matches w) in
    wk_matches w1 = wk_matches w ∧
    wk_matchEnd1 w1 = Z.of_nat (i + S c) - 1 ∧ wk_matchEnd2 w1 = Z.of_nat (j + S c) - 1 ∧
    walking a b i j 0 (x :: d) (record_match i j w1) ∧
    ((∃ i' j' y, i = S i' ∧ j = S j' ∧ a !! i' = Some y ∧ b !! j' = Some y) →
     walking a b i j (S c) (x :: d) w1).
Proof.
  intros [Hi Hj Hk (p & Hp & HL) Hin Hrun] Ha Hb.
  rewrite (prefix_S a i x), (prefix_S b j x), lcs_length_cons, Z.eqb_refl in * by done.
  destruct p as [|z p _] using rev_ind; [done|]. rewrite length_app in HL. simpl in HL.
  exists (p ++ x :: d). split.
  { rewrite Hp, Hk. replace (Z.of_nat _ - 1) with (Z.of_nat (length p)) by lia. apply go_set_last. }
  intros w1. assert (H1 : wk_matches w1 = wk_matches w ∧ wk_k w1 = wk_k w - 1 ∧ wk_result w1 = p ++ x :: d ∧
    wk_inMatch w1 = true) by (unfold w1; destruct (wk_inMatch w); by split_and!). destruct H1 as (Hm & Hk1 & Hr1 & Hi1).
  assert (He : wk_matchEnd1 w1 = Z.of_nat (i + S c) - 1 ∧ wk_matchEnd2 w1 = Z.of_nat (j + S c) - 1).
  { unfold w1. rewrite Hin, negb_involutive. destruct (Nat.eqb_spec c 0) as [->|Hc]; cbn.
    - lia.
    - destruct (Hrun Hc) as (-> & -> & _). lia. }
  split_and!; [done|apply He..| |].
  - constructor; cbn [record_match wk_k wk_result wk_inMatch]; [lia..| |done|done].
    exists p. split; [done|lia].
  - intros Hnext. constructor; [lia..| |done|intros _; destruct He; by split_and!]. exists p. split; [done|lia].
Qed.

Lemma walk_back_spec a b fuel i j c d w : (i + j <= fuel)%nat → walking a b i j c d w →
  ∃ w' r ms, walk_back fuel a b (dp_table a b) i j w = Some w' ∧ walked a b i j c d w w' r ms.
Proof.
  revert i j c d w. induction fuel as [|fuel IH]; intros i j c d w Hf Hw.
  { exists w, [], []. assert (i = 0%nat) as -> by lia. split; [done|]. apply walked_stop; [done|lia]. }
  destruct i as [|i]; [by exists w, [], []; split; [|apply walked_stop; [|left]]|].
  destruct j as [|j]; [by exists w, [], []; split; [|apply walked_stop; [|right]]|].
  cbn [walk_back]. pose proof (wg_i _ _ _ _ _ _ _ Hw) as Hi. pose proof (wg_j _ _ _ _ _ _ _ Hw) as Hj.
  destruct (lookup_lt_is_Some_2 a i) as [x Hx]; [lia|]. destruct (lookup_lt_is_Some_2 b j) as [y Hy]; [lia|].
  rewrite Hx, Hy. cbn [mbind option_bind]. destruct (Z.eqb_spec x y) as [->|Hne].
  - destruct (walking_match _ _ _ _ _ _ _ _ Hw Hx Hy) as (result & -> & Hm & He1 & He2 & Hstop & Hgo).
    cbn [mbind option_bind] in *. destruct (match_ends_spec a b i j) as (stop & -> & Hnext); [lia..|].
    cbn [mbind option_bind]. destruct stop.
    + destruct (IH i j _ _ _ ltac:(lia) Hstop) as (w' & r & ms & E & Hd).
      destruct (walked_record _ _ _ _ (S c) _ _ _ _ _ ltac:(lia) He1 He2 Hd) as [ms' Hd'].
      exists w', (r ++ [y]), ms'. split; [done|]. by eapply walked_match.
    + destruct (IH i j _ _ _ ltac:(lia) (Hgo (Hnext eq_refl))) as (w' & r & ms & E & Hd).
      exists w', (r ++ [y]), ms. split; [done|]. by eapply walked_match.
  - pose proof (walking_apart _ _ _ _ _ _ _ _ _ Hw Hx Hy Hne) as ->.
    rewrite (wg_in _ _ _ _ _ _ _ Hw). cbn [Nat.eqb negb]. rewrite !dp_table_spec by lia. cbn [mbind option_bind].
    destruct Hw as [_ _ Hk (p & Hp & HL) Hin _]. rewrite (prefix_S a i x), (prefix_S b j y) in * by done.
    rewrite lcs_length_cons, (proj2 (Z.eqb_neq _ _) Hne) in *.
    destruct (Nat.ltb_spec (lcs_length (x :: prefix a i) (prefix b j)) (lcs_length (prefix a i) (y :: prefix b j))) as [Hlt|Hge].
    + destruct (IH i (S j) 0%nat d w) as (w' & r & ms & E & Hd); [lia| |].
      { constructor; rewrite ?(prefix_S b j y) by done; [lia..| |done|done]. exists p. split; [done|lia]. }
      exists w', r, ms. split; [done|]. destruct Hd. constructor; try done.
      * rewrite (prefix_S a i x), (prefix_S b j y), lcs_length_cons, (proj2 (Z.eqb_neq _ _) Hne) in * by done. lia.
      * rewrite (take_S_r _ _ x) by done. by apply sublist_inserts_r.
      * eapply Forall_impl; [eassumption|]. cbv beta. intros m. lia.
    + destruct (IH (S i) j 0%nat d w) as (w' & r & ms & E & Hd); [lia| |].
      { constructor; rewrite ?(prefix_S a i x) by done; [lia..| |done|done]. exists p. split; [done|lia]. }
      exists w', r, ms. split; [done|]. destruct Hd. constructor; try done.
      * rewrite (prefix_S a i x), (prefix_S b j y), lcs_length_cons, (proj2 (Z.eqb_neq _ _) Hne) in * by done. lia.
      * rewrite (take_S_r _ _ y) by done. by apply sublist_inserts_r.
      * eapply Forall_impl; [eassumption|]. cbv beta. intros m. lia.
Qed.

Lemma prefix_all l : prefix l (length l) = reverse l.
Proof. unfold prefix. by rewrite firstn_all. Qed.

(** What LCS promises of its three results. *)
Record is_lcs (a b r : bytes) (n : Z) (ms : list lcsMatch) : Prop := mkIsLcs {
  lcs_sub1 : r `sublist_of` a;
  lcs_sub2 : r `sublist_of` b;
  lcs_len : n = len r;
  lcs_longest : ∀ u, u `sublist_of` a → u `sublist_of` b → len u <= n;
  lcs_spell1 : spell (slice1 a) ms = r;
  lcs_spell2 : spell (slice2 b) ms = r;
  lcs_matches : Forall match_ok ms;
  lcs_apart : StronglySorted above ms
}.

Lemma nothing_common a b : (∀ u, u `sublist_of` a → u `sublist_of` b → length u = 0%nat) →
  is_lcs a b [] 0 [].
Proof.
  intros H0. constructor; try done; try apply sublist_nil_l; try constructor.
  intros u Ha Hb. unfold len. by rewrite (H0 u Ha Hb).
Qed.

Lemma sublist_reverse (u l : bytes) : u `sublist_of` l → reverse u `sublist_of` reverse l.
Proof.
  induction 1 as [|x u l _ IH|x u l _ IH]; [done| |].
  - rewrite !reverse_cons. by apply sublist_app.
  - rewrite reverse_cons. by apply sublist_inserts_r.
Qed.

Lemma common_bound a b u : u `sublist_of` a → u `sublist_of` b →
  (length u <= lcs_length (reverse a) (reverse b))%nat.
Proof. intros Ha Hb. rewrite <- (length_reverse u). apply lcs_length_longest; by apply sublist_reverse. Qed.

(** C17: For all strings, [computeLCS] ends without an index out of range; its result
    is a subsequence of both strings of the length it gives, no common
    subsequence is longer, and the ranges it gives are disjoint, are listed from
    the end, have the lengths they claim and spell the result in each string. *)
Theorem computeLCS_correct (a b : bytes) :
  ∃ r n ms, computeLCS a b = Some (r, n, ms) ∧ is_lcs a b r n ms.
Proof.
  unfold computeLCS. destruct (decide (length a = 0%nat ∨ length b = 0%nat)) as [H0|H0].
  { exists [], 0, []. split.
    - destruct (Nat.eqb_spec (length a) 0), (Nat.eqb_spec (length b) 0); (done || lia).
    - apply nothing_common. intros u Ha%sublist_length Hb%sublist_length. lia. }
  destruct (Nat.eqb_spec (length a) 0), (Nat.eqb_spec (length b) 0); try lia. cbn [orb].
  rewrite dp_table_spec, !prefix_all by done. cbn [mbind option_bind].
  pose proof (common_bound a b) as Hmax. set (L := lcs_length _ _) in *.
  destruct (Nat.eqb_spec L 0) as [HL|HL].
  { exists [], 0, []. split; [done|]. apply nothing_common. intros u Ha Hb. specialize (Hmax u Ha Hb). lia. }
  destruct (walk_back_spec a b (length a + length b) (length a) (length b) 0 []
    (mkWalk (replicate L 0) (Z.of_nat L - 1) false 0 0 [])) as (w' & r & ms & -> & Hw); [lia| |].
  { constructor; rewrite ?prefix_all; try done; try lia. exists (replicate L 0).
    by rewrite app_nil_r, length_replicate. }
  exists (wk_result w'), (Z.of_nat L), (wk_matches w'). split; [done|].
  destruct Hw as [Hr Hlen H1 H2 Hms Hs1 Hs2 Hok Hso _]. rewrite !prefix_all in Hlen.
  rewrite firstn_all in H1, H2. rewrite !app_nil_r in *. cbn in Hms. subst.
  constructor; try done; unfold len; fold L in Hlen; [lia|]. intros u Ha Hb. specialize (Hmax u Ha Hb). lia.
Qed.
