(* ===== verification/Sets.v ===== *)
(** * Sets

    src/redis/set: core.go, query.go and setops.go.  A set is a keyed collection
    whose elements are named by the members; its snapshot is the map of the
    members present.

    Go visits a map in an order of its choosing and SRANDMEMBER draws random
    numbers: both are parameters ([RangeOrder], [Rand]).  A [nil] map and an
    empty one are both the empty map: [len], [range] and lookups agree on them,
    and the places that test for [nil] give what an empty map gives. *)

From S2P Require Import Prelude GoBytes Strconv Commands Writer Engine.

Local Open Scope Z_scope.

(** [for m := range set]. *)
Class RangeOrder := range_keys : gset bytes → list bytes.
Class RangeOrderLaws `{RangeOrder} := range_keys_perm X : range_keys X ≡ₚ elements X.

(** The [i]-th number a command draws with [rand.IntN(n)]. *)
Class Rand := rand_IntN : nat → Z → Z.
Class RandLaws `{Rand} := rand_IntN_range i n : 0 < n → 0 <= rand_IntN i n < n.

(** [make([]T, 0, cap)] for elements of [size] bytes: a panic beyond the
    address space of the allocator. *)
Definition make_cap (size cap : Z) : option (list bytes) :=
  if (0 <=? cap) && (cap * size <=? 2 ^ 48) then Some [] else None.

Section Sets.
Context `{Engine} `{RangeOrder} `{Rand}.

(** ** Snapshots and effects *)

Definition classify_set (snap : option ReducedEffect) (tips : list Tip) : KeySnap :=
  match snap with
  | None => mkKeySnap None tips false false
  | Some r =>
    if bool_decide (re_Op r = REMOVE_OP) then mkKeySnap None tips false false
    else if bool_decide (re_Collection r = KEYED) then mkKeySnap snap tips true false
    else if bool_decide (re_Collection r = SCALAR) && bool_decide (re_TypeTag r = TYPE_SET)
    then mkKeySnap snap tips true false
    else mkKeySnap None tips true true
  end.

Definition getSetSnapshot (key : bytes) : M KeySnap :=
  '(snap, tips) ← get_snapshot key;
  mret (classify_set snap tips).

(** [_, has := snap.GetNetAdds()[m]], false for a nil snapshot. *)
Definition has_member (snap : option ReducedEffect) (m : bytes) : bool :=
  match snap with
  | Some r => bool_decide (is_Some (re_NetAdds r !! m))
  | None => false
  end.

(** The keys of [snap.GetNetAdds()], empty for a nil snapshot. *)
Definition member_set (snap : option ReducedEffect) : gset bytes :=
  match snap with Some r => dom (re_NetAdds r) | None => ∅ end.

Definition emitSetInsert (key member : bytes) : M unit :=
  emit (mkEffect key (keyed_insert member (Raw member))) [].
Definition emitSetRemove (key member : bytes) : M unit :=
  emit (mkEffect key (keyed_remove member)) [].
Definition emitSetTypeTag (key : bytes) : M unit :=
  emit (mkEffect key (Effect_Meta (tag_meta TYPE_SET))) [].
Definition emitDeleteKey (key : bytes) (tips : list Tip) : M unit :=
  emit (mkEffect key delete_effect) tips.

(** ** SADD, SREM, SPOP, SMOVE *)

Fixpoint add_members (key : bytes) (snap : option ReducedEffect) (added : Z) (members : list bytes) :
    M Z :=
  match members with
  | [] => mret added
  | m :: members' =>
    if has_member snap m then add_members key snap added members'
    else _ ← emitSetInsert key m; add_members key snap (added + 1) members'
  end.

Definition sadd_runner (key : bytes) (members : list bytes) : M unit :=
  s ← getSetSnapshot key;
  if ks_wrongType s then reply WriteWrongType
  else
    added ← add_members key (ks_snap s) 0 members;
    _ ← (if ks_exists s then mret tt else emitSetTypeTag key);
    write (WriteInteger added).

Definition handleSAdd (args : list bytes) : Prep :=
  match args with
  | key :: m :: ms => Accept [key] (sadd_runner key (m :: ms))
  | _ => Refuse [] (WriteWrongNumArguments (str "sadd"))
  end.

Fixpoint remove_members (key : bytes) (snap : option ReducedEffect) (removed : Z)
    (members : list bytes) : M Z :=
  match members with
  | [] => mret removed
  | m :: members' =>
    if has_member snap m
    then _ ← emitSetRemove key m; remove_members key snap (removed + 1) members'
    else remove_members key snap removed members'
  end.

Definition srem_runner (key : bytes) (members : list bytes) : M unit :=
  s ← getSetSnapshot key;
  if negb (ks_exists s) then reply (WriteInteger 0)
  else if ks_wrongType s then reply WriteWrongType
  else
    removed ← remove_members key (ks_snap s) 0 members;
    write (WriteInteger removed).

Definition handleSRem (args : list bytes) : Prep :=
  match args with
  | key :: m :: ms => Accept [key] (srem_runner key (m :: ms))
  | _ => Refuse [] (WriteWrongNumArguments (str "srem"))
  end.

Definition no_member (returnArray : bool) : Writer → Writer :=
  if returnArray then WriteArray 0 else WriteNullBulkString.

Definition spop_runner (key : bytes) (count : Z) (returnArray : bool) : M unit :=
  s ← getSetSnapshot key;
  if negb (ks_exists s) then reply (no_member returnArray)
  else if ks_wrongType s then reply WriteWrongType
  else
    _ ← begin_tx;
    _ ← emit (mkEffect key Effect_Noop) (ks_tips s);
    let members := range_keys (member_set (ks_snap s)) in
    _ ← or_panic (make_cap 24 count);
    let popped := take (Z.to_nat count) members in
    _ ← for_each popped (emitSetRemove key);
    if returnArray then
      _ ← write (WriteArray (len popped));
      for_each popped (λ m, write (WriteBulkString m))
    else match popped with
    | [] => write WriteNullBulkString
    | m :: _ => write (WriteBulkString m)
    end.

Definition not_an_integer : bytes := str "ERR value is not an integer or out of range".

Definition handleSPop (args : list bytes) : Prep :=
  match args with
  | [key] => Accept [key] (spop_runner key 1 false)
  | [key; n] =>
    match ParseInt64 n with
    | Some c => if c <? 0 then Refuse [key] (WriteError not_an_integer)
                else Accept [key] (spop_runner key c true)
    | None => Refuse [key] (WriteError not_an_integer)
    end
  | _ => Refuse [] (WriteWrongNumArguments (str "spop"))
  end.

Definition smove_runner (srcKey dstKey member : bytes) : M unit :=
  src ← getSetSnapshot srcKey;
  if ks_exists src && ks_wrongType src then reply WriteWrongType
  else
    dst ← getSetSnapshot dstKey;
    if ks_exists dst && ks_wrongType dst then reply WriteWrongType
    else if negb (ks_exists src) then reply (WriteInteger 0)
    else if negb (has_member (ks_snap src) member) then reply (WriteInteger 0)
    else
      _ ← begin_tx;
      _ ← emit (mkEffect srcKey Effect_Noop) (ks_tips src);
      _ ← emitSetRemove srcKey member;
      _ ← emitSetInsert dstKey member;
      _ ← (if ks_exists dst then mret tt else emitSetTypeTag dstKey);
      write (WriteInteger 1).

Definition handleSMove (args : list bytes) : Prep :=
  match args with
  | [srcKey; dstKey; member] => Accept [srcKey; dstKey] (smove_runner srcKey dstKey member)
  | _ => Refuse [] (WriteWrongNumArguments (str "smove"))
  end.

(** ** Queries *)

Definition scard_runner (key : bytes) : M unit :=
  s ← getSetSnapshot key;
  if negb (ks_exists s) then reply (WriteInteger 0)
  else if ks_wrongType s then reply WriteWrongType
  else write (WriteInteger (Z.of_nat (size (member_set (ks_snap s))))).

Definition handleSCard (args : list bytes) : Prep :=
  match args with
  | [key] => Accept [key] (scard_runner key)
  | _ => Refuse [] (WriteWrongNumArguments (str "scard"))
  end.

Definition member_int (snap : option ReducedEffect) (m : bytes) : Z :=
  if has_member snap m then 1 else 0.

Definition sismember_runner (key member : bytes) : M unit :=
  s ← getSetSnapshot key;
  if negb (ks_exists s) then reply (WriteInteger 0)
  else if ks_wrongType s then reply WriteWrongType
  else write (WriteInteger (member_int (ks_snap s) member)).

Definition handleSIsMember (args : list bytes) : Prep :=
  match args with
  | [key; member] => Accept [key] (sismember_runner key member)
  | _ => Refuse [] (WriteWrongNumArguments (str "sismember"))
  end.

Definition smismember_runner (key : bytes) (members : list bytes) : M unit :=
  s ← getSetSnapshot key;
  if negb (ks_exists s) then
    _ ← write (WriteArray (len members));
    _ ← for_each members (λ _, write (WriteInteger 0));
    exit
  else if ks_wrongType s then reply WriteWrongType
  else
    _ ← write (WriteArray (len members));
    for_each members (λ m, write (WriteInteger (member_int (ks_snap s) m))).

Definition handleSMIsMember (args : list bytes) : Prep :=
  match args with
  | key :: m :: ms => Accept [key] (smismember_runner key (m :: ms))
  | _ => Refuse [] (WriteWrongNumArguments (str "smismember"))
  end.

(** [w.WriteArray(len(result)); for m := range result { w.WriteBulkString(m) }]. *)
Definition write_members (result : gset bytes) : M unit :=
  _ ← write (WriteArray (Z.of_nat (size result)));
  for_each (range_keys result) (λ m, write (WriteBulkString m)).

Definition smembers_runner (key : bytes) : M unit :=
  s ← getSetSnapshot key;
  if negb (ks_exists s) then reply (WriteArray 0)
  else if ks_wrongType s then reply WriteWrongType
  else write_members (member_set (ks_snap s)).

Definition handleSMembers (args : list bytes) : Prep :=
  match args with
  | [key] => Accept [key] (smembers_runner key)
  | _ => Refuse [] (WriteWrongNumArguments (str "smembers"))
  end.

(** [l[i], l[j] = l[j], l[i]], and the shuffle from index [i] down, the
    [k]-th draw next. *)
Definition swap (l : list bytes) (i j : nat) : list bytes :=
  match l !! i, l !! j with
  | Some x, Some y => <[j := x]> (<[i := y]> l)
  | _, _ => l
  end.
Fixpoint shuffle (k i : nat) (l : list bytes) : list bytes :=
  match i with
  | O => l
  | S i' => shuffle (S k) i' (swap l i (Z.to_nat (rand_IntN k (Z.of_nat i + 1))))
  end.

(** [for range n { w.WriteBulkString(members[rand.IntN(len(members))]) }], the
    [k]-th draw next. *)
Fixpoint write_random (k n : nat) (members : list bytes) : M unit :=
  match n with
  | O => mret tt
  | S n' =>
    m ← or_panic (members !! Z.to_nat (rand_IntN k (len members)));
    _ ← write (WriteBulkString m);
    write_random (S k) n' members
  end.

(** The reply for the members collected from the snapshot. *)
Definition pick_members (members : list bytes) (count : Z) (returnArray : bool) : M unit :=
  if len members =? 0 then reply (no_member returnArray)
  else if returnArray then
    if 0 <? count then
      let n := Z.min count (len members) in
      let shuffled := shuffle 0 (length members - 1) members in
      _ ← write (WriteArray n);
      for_each (take (Z.to_nat n) shuffled) (λ m, write (WriteBulkString m))
    else
      let absCount := i64 (- count) in
      _ ← write (WriteArray absCount);
      write_random 0 (Z.to_nat absCount) members
  else write_random 0 1 members.

Definition srandmember_runner (key : bytes) (count : Z) (returnArray : bool) : M unit :=
  s ← getSetSnapshot key;
  if negb (ks_exists s) then reply (no_member returnArray)
  else if ks_wrongType s then reply WriteWrongType
  else pick_members (range_keys (member_set (ks_snap s))) count returnArray.

Definition handleSRandMember (args : list bytes) : Prep :=
  match args with
  | [key] => Accept [key] (srandmember_runner key 1 false)
  | [key; n] =>
    match ParseInt64 n with
    | None => Refuse [key] (WriteError not_an_integer)
    | Some c =>
      if c =? MinInt64 then Refuse [key] (WriteError (str "ERR value is out of range"))
      else Accept [key] (srandmember_runner key c true)
    end
  | _ => Refuse [] (WriteWrongNumArguments (str "srandmember"))
  end.

(** ** Set algebra *)

(** The source sets in order, [None] for a missing key; a key of another type
    ends the command. *)
Fixpoint collect_sets (keys : list bytes) : M (list (option (gset bytes))) :=
  match keys with
  | [] => mret []
  | key :: keys' =>
    s ← getSetSnapshot key;
    if ks_exists s && ks_wrongType s then reply WriteWrongType
    else
      rest ← collect_sets keys';
      mret ((if ks_exists s then Some (member_set (ks_snap s)) else None) :: rest)
  end.

Definition in_all (m : bytes) (others : list (option (gset bytes))) : bool :=
  forallb (λ o, match o with None => false | Some s => bool_decide (m ∈ s) end) others.
Definition in_other (m : bytes) (others : list (option (gset bytes))) : bool :=
  existsb (λ o, match o with None => false | Some s => bool_decide (m ∈ s) end) others.

(** The loops over the first set that collect the members to keep. *)
Definition keep (p : bytes → bool) (s : gset bytes) : gset bytes :=
  foldl (λ result m, if p m then {[ m ]} ∪ result else result) ∅ (range_keys s).
Definition intersect (sets : list (option (gset bytes))) : gset bytes :=
  match sets with
  | Some s :: others => keep (λ m, in_all m others) s
  | _ => ∅
  end.
Definition difference_ (sets : list (option (gset bytes))) : gset bytes :=
  match sets with
  | Some s :: others => keep (λ m, negb (in_other m others)) s
  | _ => ∅
  end.

Definition sinter_runner (keys : list bytes) : M unit :=
  sets ← collect_sets keys;
  if existsb (λ o, bool_decide (o = None)) sets then reply (WriteArray 0)
  else write_members (intersect sets).

(** The loop of SINTERCARD, left when the limit is reached. *)
Fixpoint count_in_all (others : list (option (gset bytes))) (limit count : Z) (ms : list bytes) : Z :=
  match ms with
  | [] => count
  | m :: ms' =>
    if in_all m others then
      let count := count + 1 in
      if (0 <? limit) && (limit <=? count) then count
      else count_in_all others limit count ms'
    else count_in_all others limit count ms'
  end.

Definition sintercard_runner (keys : list bytes) (limit : Z) : M unit :=
  sets ← collect_sets keys;
  if existsb (λ o, bool_decide (o = None)) sets then reply (WriteInteger 0)
  else match sets with
  | Some s :: others => write (WriteInteger (count_in_all others limit 0 (range_keys s)))
  | _ => write (WriteInteger 0)
  end.

(** SUNION adds the members key by key. *)
Fixpoint union_sets (result : gset bytes) (keys : list bytes) : M (gset bytes) :=
  match keys with
  | [] => mret result
  | key :: keys' =>
    s ← getSetSnapshot key;
    if ks_exists s && ks_wrongType s then reply WriteWrongType
    else union_sets (if ks_exists s
                     then foldl (λ result m, {[ m ]} ∪ result) result (range_keys (member_set (ks_snap s)))
                     else result) keys'
  end.

Definition sunion_runner (keys : list bytes) : M unit :=
  result ← union_sets ∅ keys;
  write_members result.

Definition sdiff_runner (keys : list bytes) : M unit :=
  sets ← collect_sets keys;
  match sets with
  | None :: _ => reply (WriteArray 0)
  | _ => write_members (difference_ sets)
  end.

Definition writeStoreResult (destKey : bytes) (result : gset bytes) : M unit :=
  dest ← getSetSnapshot destKey;
  _ ← emitDeleteKey destKey (ks_tips dest);
  _ ← for_each (range_keys result) (emitSetInsert destKey);
  _ ← (if bool_decide (size result = 0)%nat then mret tt else emitSetTypeTag destKey);
  write (WriteInteger (Z.of_nat (size result))).

Definition sinterstore_runner (destKey : bytes) (keys : list bytes) : M unit :=
  srcSets ← collect_sets keys;
  writeStoreResult destKey (intersect srcSets).
Definition sunionstore_runner (destKey : bytes) (keys : list bytes) : M unit :=
  result ← union_sets ∅ keys;
  writeStoreResult destKey result.
Definition sdiffstore_runner (destKey : bytes) (keys : list bytes) : M unit :=
  srcSets ← collect_sets keys;
  writeStoreResult destKey (difference_ srcSets).

Definition handleSInter (args : list bytes) : Prep :=
  match args with
  | [] => Refuse [] (WriteWrongNumArguments (str "sinter"))
  | keys => Accept keys (sinter_runner keys)
  end.
Definition handleSUnion (args : list bytes) : Prep :=
  match args with
  | [] => Refuse [] (WriteWrongNumArguments (str "sunion"))
  | keys => Accept keys (sunion_runner keys)
  end.
Definition handleSDiff (args : list bytes) : Prep :=
  match args with
  | [] => Refuse [] (WriteWrongNumArguments (str "sdiff"))
  | keys => Accept keys (sdiff_runner keys)
  end.
Definition handleSInterStore (args : list bytes) : Prep :=
  match args with
  | destKey :: key :: keys => Accept args (sinterstore_runner destKey (key :: keys))
  | _ => Refuse [] (WriteWrongNumArguments (str "sinterstore"))
  end.
Definition handleSUnionStore (args : list bytes) : Prep :=
  match args with
  | destKey :: key :: keys => Accept args (sunionstore_runner destKey (key :: keys))
  | _ => Refuse [] (WriteWrongNumArguments (str "sunionstore"))
  end.
Definition handleSDiffStore (args : list bytes) : Prep :=
  match args with
  | destKey :: key :: keys => Accept args (sdiffstore_runner destKey (key :: keys))
  | _ => Refuse [] (WriteWrongNumArguments (str "sdiffstore"))
  end.

(** The options of SINTERCARD: the limit, or the error reply. *)
Fixpoint parse_limit (limit : Z) (remaining : list bytes) : result (Writer → Writer) Z :=
  match remaining with
  | [] => Ok limit
  | arg :: rest =>
    if beq (ToUpper arg) (str "LIMIT") then
      match rest with
      | [] => Err WriteSyntaxError
      | n :: rest' =>
        match ParseInt64 n with
        | Some l => if l <? 0 then Err (WriteError (str "ERR LIMIT can't be negative"))
                    else parse_limit l rest'
        | None => Err (WriteError (str "ERR LIMIT can't be negative"))
        end
      end
    else Err WriteSyntaxError
  end.

Definition handleSInterCard (args : list bytes) : Prep :=
  match args with
  | n :: a :: more =>
    let rest := a :: more in
    match ParseInt64 n with
    | None => Refuse [] (WriteError (str "ERR numkeys should be greater than 0"))
    | Some numKeys =>
      if numKeys <? 1 then Refuse [] (WriteError (str "ERR numkeys should be greater than 0"))
      else if len rest <? numKeys
      then Refuse [] (WriteError (str "ERR Number of keys can't be greater than number of args"))
      else
        let keys := take (Z.to_nat numKeys) rest in
        match parse_limit 0 (drop (Z.to_nat numKeys) rest) with
        | Err f => Refuse [] f
        | Ok limit => Accept keys (sintercard_runner keys limit)
        end
    end
  | _ => Refuse [] (WriteWrongNumArguments (str "sintercard"))
  end.
End Sets.
