(* ===== verification/SetProps.v ===== *)
(** * What the set commands do

    The finite set a key stands for, and the set commands as operations on
    it, against any engine that satisfies [EngineLaws], any order of map
    iteration and any random numbers. *)

From S2P Require Import Prelude GoBytes Strconv Commands Writer Engine Runs Sets.

Local Open Scope Z_scope.

(** ** The set a key stands for *)

(** A missing or deleted key is the empty set; a keyed collection is the set
    of its elements. *)
Definition is_set (v : option ReducedEffect) (X : gset bytes) : Prop :=
  if is_live v then
    match v with
    | Some r => X = dom (re_NetAdds r) ∧
                (re_Collection r = KEYED ∨
                 (re_Collection r = SCALAR ∧ re_TypeTag r = TYPE_SET ∧ re_NetAdds r = ∅))
    | None => False
    end
  else X = ∅.

(** A live key of another kind. *)
Definition not_set (v : option ReducedEffect) : Prop :=
  match v with
  | Some r => re_Op r = INSERT_OP ∧ re_Collection r ≠ KEYED ∧
              ¬ (re_Collection r = SCALAR ∧ re_TypeTag r = TYPE_SET)
  | None => False
  end.

Section SetRuns.
Context `{EngineLaws}.

(** The context shows the same as [c] but for [key], which is the set [X]. *)
Definition only (c : Ctx) (key : bytes) (X : gset bytes) (c' : Ctx) : Prop :=
  is_set (view c' key) X ∧ ∀ k, k ≠ key → view c' k = view c k.

Lemma same_set c c' key X : same c c' → is_set (view c key) X → only c key X c'.
Proof. intros Hs Hx. split; [by rewrite Hs|]. intros k _. apply Hs. Qed.

Lemma only_trans c c' c'' key X Y : only c key X c' → only c' key Y c'' → only c key Y c''.
Proof.
  intros [_ Hf] [Hx Hf']. split; [done|]. intros k Hk. rewrite Hf' by done. by apply Hf.
Qed.

(** *** Reading *)

Lemma steps_snapshot key st : healthy (st_ctx st) →
  ∃ tips, steps (getSetSnapshot key) st (classify_set (view (st_ctx st) key) tips) (same (st_ctx st)).
Proof.
  intros Hh. destruct (law_get key _ Hh) as (tips & c' & E & Hh' & Hv).
  exists tips, c'. unfold getSetSnapshot, mbind, M_bind, get_snapshot. rewrite E. by split_and!.
Qed.

(** What a handler sees of a set. *)
Definition reads (s : KeySnap) (v : option ReducedEffect) (X : gset bytes) : Prop :=
  ks_wrongType s = false ∧ ks_exists s = is_live v ∧ member_set (ks_snap s) = X ∧
  ∀ m, has_member (ks_snap s) m = bool_decide (m ∈ X).

Lemma classify_reads v tips X : is_set v X → reads (classify_set v tips) v X.
Proof.
  unfold is_set, reads, classify_set. destruct v as [r|].
  2:{ simpl. intros ->. split_and!; [done..|]. intros m. by rewrite bool_decide_eq_false_2. }
  rewrite is_live_remove. case_bool_decide as Hop; simpl.
  { intros ->. split_and!; [done..|]. intros m. by rewrite bool_decide_eq_false_2. }
  assert (Hm : ∀ m, bool_decide (is_Some (re_NetAdds r !! m)) = bool_decide (m ∈ dom (re_NetAdds r))).
  { intros m. apply bool_decide_ext. by rewrite elem_of_dom. }
  intros [-> Hc]. case_bool_decide as Hk; simpl; [by split_and!|].
  destruct Hc as [?|(Hs & Ht & Hn)]; [done|]. rewrite !bool_decide_eq_true_2 by done. by split_and!.
Qed.

Lemma classify_not_set v tips : not_set v →
  ks_exists (classify_set v tips) = true ∧ ks_wrongType (classify_set v tips) = true.
Proof.
  unfold classify_set. destruct v as [r|]; [|done]. simpl. intros (Hop & Hk & Hs).
  rewrite bool_decide_eq_false_2 by (rewrite Hop; done). rewrite bool_decide_eq_false_2 by done.
  destruct (bool_decide_reflect (re_Collection r = SCALAR)), (bool_decide_reflect (re_TypeTag r = TYPE_SET));
    naive_solver.
Qed.

(** *** Writing *)

Lemma steps_insert key m st X : healthy (st_ctx st) → is_set (view (st_ctx st) key) X →
  steps (emitSetInsert key m) st tt
    (λ c', only (st_ctx st) key ({[ m ]} ∪ X) c' ∧ is_live (view c' key) = true).
Proof.
  intros Hh Hx. unfold emitSetInsert, emit.
  destruct (law_emit (mkEffect key (keyed_insert m (Raw m))) [] _ Hh) as (c' & E & Hh' & Hne & Hr).
  cbn [ef_Key ef_Kind] in *.
  assert (∃ r, view c' key = Some r ∧ re_Op r = INSERT_OP ∧ re_Collection r = KEYED ∧
               dom (re_NetAdds r) = {[ m ]} ∪ X) as (r & Hv & Ho & Hk & Hd).
  { unfold is_set in Hx. destruct (is_live (view (st_ctx st) key)) eqn:El.
    - destruct (view (st_ctx st) key) as [r|] eqn:Ev; [|done]. destruct Hx as [-> Hc].
      destruct (law_rekey key m (Raw m) [] _ r Hh Ev) as (e & Ht & _); rewrite ?Ev; [done| |].
      { destruct Hc as [->|(-> & _)]; done. }
      rewrite E in Ht. eexists. split; [exact Ht|]. simpl. by rewrite dom_insert_L.
    - destruct (law_revive key m (Raw m) [] _ Hh El) as [tag Ht]. rewrite E in Ht.
      eexists. split; [exact Ht|]. simpl. rewrite dom_singleton_L. subst X. set_solver. }
  exists c'. rewrite E. split_and!; [done|done| |].
  - split; [|done]. rewrite Hv. unfold is_set. simpl. rewrite Ho. simpl. auto.
  - rewrite Hv. simpl. by rewrite Ho.
Qed.

Lemma steps_remove key m st X : healthy (st_ctx st) → is_set (view (st_ctx st) key) X → m ∈ X →
  steps (emitSetRemove key m) st tt (only (st_ctx st) key (X ∖ {[ m ]})).
Proof.
  intros Hh Hx Hm. unfold emitSetRemove, emit.
  destruct (law_emit (mkEffect key (keyed_remove m)) [] _ Hh) as (c' & E & Hh' & Hne & Hr).
  exists c'. rewrite E. split_and!; [done|done|]. split; [|done]. cbn [ef_Key ef_Kind] in *.
  unfold is_set in Hx. destruct (is_live (view (st_ctx st) key)) eqn:El; [|set_solver].
  destruct (view (st_ctx st) key) as [r|]; [|done]. destruct Hx as [-> Hc].
  destruct Hc as [Hk|(_ & _ & Hn)]; [|rewrite Hn in Hm; set_solver].
  unfold keyed_remove, reduce in Hr. simpl in El. cbn in Hr. rewrite El, Hk in Hr. cbn in Hr.
  destruct (bool_decide_reflect (delete m (re_NetAdds r) = ∅)) as [He|He];
    [destruct (bool_decide_reflect (re_Scalar r = None))|]; rewrite (Hr _ eq_refl);
    unfold is_set; simpl; rewrite ?dom_delete_L; auto.
  by rewrite <- dom_delete_L, He, dom_empty_L.
Qed.

(** Tagging a live set. *)
Lemma steps_tag key st X : healthy (st_ctx st) → is_set (view (st_ctx st) key) X →
  is_live (view (st_ctx st) key) = true →
  steps (emitSetTypeTag key) st tt (only (st_ctx st) key X).
Proof.
  intros Hh Hx Hl. unfold emitSetTypeTag, emit.
  destruct (law_emit (mkEffect key (Effect_Meta (tag_meta TYPE_SET))) [] _ Hh) as (c' & E & Hh' & Hne & Hr).
  exists c'. rewrite E. split_and!; [done|done|]. split; [|done]. cbn [ef_Key ef_Kind] in *.
  unfold is_set in *. rewrite Hl in Hx. destruct (view (st_ctx st) key) as [r|]; [|done].
  rewrite (Hr _ eq_refl). simpl in *. rewrite Hl. destruct Hx as [-> [?|(? & _ & ?)]]; auto.
Qed.

Lemma steps_delete key tips st : healthy (st_ctx st) →
  steps (emitDeleteKey key tips) st tt (only (st_ctx st) key ∅).
Proof.
  intros Hh. unfold emitDeleteKey, emit.
  destruct (law_emit (mkEffect key delete_effect) tips _ Hh) as (c' & E & Hh' & Hne & _).
  pose proof (law_delete key tips _ Hh) as Hd. rewrite E in Hd. cbn [snd] in Hd.
  exists c'. rewrite E. split_and!; [done|done|]. split; [|done]. unfold is_set. by rewrite Hd.
Qed.

(** *** Loops *)

(** Inserting a list: afterwards the key is live, unless the list is empty. *)
Lemma steps_insert_all key ms st X : healthy (st_ctx st) → is_set (view (st_ctx st) key) X →
  steps (for_each ms (emitSetInsert key)) st tt
    (λ c', only (st_ctx st) key (X ∪ list_to_set ms) c' ∧ (ms ≠ [] → is_live (view c' key) = true)).
Proof.
  revert st X. induction ms as [|m ms IH]; intros st X Hh Hx.
  { apply steps_ret; [done|]. split; [|done]. apply same_set; [done|].
    by replace (X ∪ list_to_set []) with X by set_solver. }
  cbn [for_each]. eapply steps_bind; [by apply steps_insert|]. intros c1 Hh1 [Ho1 Hl1].
  eapply steps_weaken; [apply (IH (mkSt c1 _ _) ({[ m ]} ∪ X)); [done|apply Ho1]|].
  cbn [st_ctx]. intros c2 [Ho2 Hl2]. split.
  - replace (X ∪ list_to_set (m :: ms)) with ({[ m ]} ∪ X ∪ list_to_set ms) by set_solver.
    by eapply only_trans.
  - intros _. destruct ms as [|m' ms]; [|by apply Hl2].
    destruct Ho2 as [Hs Hf]. revert Hs. unfold is_set.
    destruct (is_live (view c2 key)); [done|]. intros Hs. exfalso. set_solver.
Qed.

Lemma steps_remove_all key ms st X : healthy (st_ctx st) → is_set (view (st_ctx st) key) X →
  NoDup ms → (∀ m, m ∈ ms → m ∈ X) →
  steps (for_each ms (emitSetRemove key)) st tt (only (st_ctx st) key (X ∖ list_to_set ms)).
Proof.
  revert st X. induction ms as [|m ms IH]; intros st X Hh Hx Hnd Hin.
  { apply steps_ret; [done|]. apply same_set; [done|].
    by replace (X ∖ list_to_set []) with X by set_solver. }
  apply NoDup_cons in Hnd as [Hm Hnd]. cbn [for_each].
  eapply steps_bind; [by apply steps_remove; [..|apply Hin; left]|]. intros c1 Hh1 Ho1.
  eapply steps_weaken; [apply (IH (mkSt c1 _ _) (X ∖ {[ m ]})); [done|apply Ho1|done|]|].
  - intros m' Hm'. pose proof (Hin m'). set_solver.
  - cbn [st_ctx]. intros c2 Ho2.
    replace (X ∖ list_to_set (m :: ms)) with (X ∖ {[ m ]} ∖ list_to_set ms) by set_solver.
    by eapply only_trans.
Qed.

(** The conditional loops are the plain ones on the members that qualify. *)
Lemma add_members_eq key snap n ms st :
  add_members key snap n ms st =
  (for_each (filter (λ m, has_member snap m = false) ms) (emitSetInsert key) ≫= λ _,
   mret (n + len (filter (λ m, has_member snap m = false) ms))) st.
Proof.
  revert n st. induction ms as [|m ms IH]; intros n st.
  { cbn. by rewrite Z.add_0_r. }
  cbn [add_members]. rewrite filter_cons. destruct (has_member snap m) eqn:E.
  { rewrite decide_False by done. apply IH. }
  rewrite decide_True by done. cbn [for_each]. unfold mbind, M_bind.
  destruct (emitSetInsert key m st) as [[] st']; [|done..].
  rewrite IH, len_cons. unfold mbind, M_bind. by rewrite Z.add_assoc.
Qed.

Lemma remove_members_eq key snap n ms st :
  remove_members key snap n ms st =
  (for_each (filter (λ m, has_member snap m = true) ms) (emitSetRemove key) ≫= λ _,
   mret (n + len (filter (λ m, has_member snap m = true) ms))) st.
Proof.
  revert n st. induction ms as [|m ms IH]; intros n st.
  { cbn. by rewrite Z.add_0_r. }
  cbn [remove_members]. rewrite filter_cons. destruct (has_member snap m) eqn:E.
  2:{ rewrite decide_False by done. apply IH. }
  rewrite decide_True by done. cbn [for_each]. unfold mbind, M_bind.
  destruct (emitSetRemove key m st) as [[] st']; [|done..].
  rewrite IH, len_cons. unfold mbind, M_bind. by rewrite Z.add_assoc.
Qed.

(** A live key read as a set, and a key read as something else. *)
Lemma finishes_snapshot key (f : KeySnap → M unit) st w X Q :
  healthy (st_ctx st) → is_set (view (st_ctx st) key) X →
  (∀ s c', healthy c' → same (st_ctx st) c' → reads s (view (st_ctx st) key) X →
     finishes (f s) (mkSt c' (st_w st) (st_held st)) w Q) →
  finishes (getSetSnapshot key ≫= f) st w Q.
Proof.
  intros Hh Hx Hf. destruct (steps_snapshot key st Hh) as [tips Hs].
  eapply finishes_bind; [exact Hs|]. intros c' Hh' Hsame. apply Hf; [done|done|].
  by apply classify_reads.
Qed.

Lemma finishes_wrong_type key (f : KeySnap → M unit) st Q :
  healthy (st_ctx st) → not_set (view (st_ctx st) key) → (∀ c, same (st_ctx st) c → Q c) →
  (∀ s, ks_exists s = true → ks_wrongType s = true → f s = reply WriteWrongType) →
  finishes (getSetSnapshot key ≫= f) st (WriteWrongType (st_w st)) Q.
Proof.
  intros Hh Hx HQ Hf. destruct (steps_snapshot key st Hh) as [tips Hs].
  eapply finishes_bind; [exact Hs|]. intros c' Hh' Hsame.
  destruct (classify_not_set _ tips Hx) as [He Hw]. rewrite Hf by done.
  apply finishes_reply; [done|done|]. by apply HQ.
Qed.

Lemma same_only c c' c'' key X : same c c' → only c' key X c'' → only c key X c''.
Proof. intros Hs [Hx Hf]. split; [done|]. intros k Hk. by rewrite Hf, Hs. Qed.

(** The end of a command that may have created the key: tag it, answer. *)
Lemma finishes_tagged key st X (existed : bool) f (Q : Ctx → Prop) :
  healthy (st_ctx st) → is_set (view (st_ctx st) key) X →
  (existed = true ∨ is_live (view (st_ctx st) key) = true) →
  (∀ c', only (st_ctx st) key X c' → Q c') →
  finishes ((if existed then mret tt else emitSetTypeTag key) ≫= λ _, write f) st (f (st_w st)) Q.
Proof.
  intros Hh Hx Hl HQ. destruct existed.
  - apply finishes_write; [done|done|]. apply HQ. by apply same_set.
  - destruct Hl as [|Hl]; [done|]. eapply finishes_bind; [by apply (steps_tag key _ X)|].
    intros c' Hh' Ho. apply finishes_write; [done|done|]. by apply HQ.
Qed.

(** ** SADD and SREM *)

(** The members of the request that are not yet in the set, repetitions
    included. *)
Definition new_members (X : gset bytes) (ms : list bytes) : list bytes := filter (λ m, m ∉ X) ms.

Lemma sadd_spec key ms st X :
  healthy (st_ctx st) → is_set (view (st_ctx st) key) X → ms ≠ [] →
  finishes (sadd_runner key ms) st (WriteInteger (len (new_members X ms)) (st_w st))
    (only (st_ctx st) key (X ∪ list_to_set ms)).
Proof.
  intros Hh Hx Hne. unfold sadd_runner. eapply finishes_snapshot; [done|exact Hx|].
  intros s c1 Hh1 Hs1 (Hw & He & _ & Hm). cbv beta. rewrite Hw.
  assert (Hf : filter (λ m, has_member (ks_snap s) m = false) ms = new_members X ms).
  { apply list_filter_iff. intros m. rewrite Hm. apply bool_decide_eq_false. }
  assert (Hx1 : is_set (view c1 key) X) by by rewrite Hs1.
  eapply (finishes_bind _ _ _ (len (new_members X ms))
    (λ c, only c1 key (X ∪ list_to_set ms) c ∧
          (new_members X ms ≠ [] → is_live (view c key) = true))).
  { destruct (steps_insert_all key (new_members X ms) (mkSt c1 (st_w st) (st_held st)) X Hh1 Hx1)
      as (c2 & E & Hh2 & Ho & Hl).
    exists c2. rewrite add_members_eq. unfold mbind, M_bind. rewrite Hf, E. split_and!; [done|done| |done].
    cbn [st_ctx] in Ho. replace (X ∪ list_to_set ms) with (X ∪ list_to_set (new_members X ms)); [done|].
    unfold new_members. apply set_eq. intros m. rewrite !elem_of_union, !elem_of_list_to_set, list_elem_of_filter.
    destruct (decide (m ∈ X)); naive_solver. }
  intros c2 Hh2 [Ho2 Hl2]. apply (finishes_tagged key (mkSt c2 (st_w st) (st_held st)) (X ∪ list_to_set ms)); cbn [st_ctx]; [done|apply Ho2| |].
  - rewrite He. destruct (is_live (view (st_ctx st) key)) eqn:El; [auto|]. right. apply Hl2.
    assert (X = ∅) as -> by (unfold is_set in Hx; by rewrite El in Hx).
    destruct ms as [|m ms]; [done|]. unfold new_members. by rewrite filter_cons_True by set_solver.
  - intros c3 Ho3. eapply same_only; [done|]. by eapply only_trans.
Qed.

Lemma srem_spec key ms st X :
  healthy (st_ctx st) → is_set (view (st_ctx st) key) X → NoDup ms →
  finishes (srem_runner key ms) st (WriteInteger (len (filter (λ m, m ∈ X) ms)) (st_w st))
    (only (st_ctx st) key (X ∖ list_to_set ms)).
Proof.
  intros Hh Hx Hnd. unfold srem_runner. eapply finishes_snapshot; [done|exact Hx|].
  intros s c1 Hh1 Hs1 (Hw & He & _ & Hm). cbv beta. rewrite He, Hw.
  assert (Hx1 : is_set (view c1 key) X) by by rewrite Hs1.
  destruct (is_live (view (st_ctx st) key)) eqn:El; cbn [negb].
  2:{ assert (X = ∅) as -> by (unfold is_set in Hx; by rewrite El in Hx).
      apply finishes_reply; [done| |].
      - f_equal. unfold len. replace (filter _ ms) with (@nil bytes); [done|].
        symmetry. induction ms as [|m ms IH]; [done|]. apply NoDup_cons in Hnd as [_ Hnd].
        rewrite filter_cons_False by set_solver. by apply IH.
      - apply same_set; [done|]. by replace (∅ ∖ list_to_set ms) with (∅ : gset bytes) by set_solver. }
  assert (Hf : filter (λ m, has_member (ks_snap s) m = true) ms = filter (λ m, m ∈ X) ms).
  { apply list_filter_iff. intros m. rewrite Hm. apply bool_decide_eq_true. }
  eapply (finishes_bind _ _ _ (len (filter (λ m, m ∈ X) ms)) (only c1 key (X ∖ list_to_set ms))).
  - destruct (steps_remove_all key (filter (λ m, m ∈ X) ms) (mkSt c1 (st_w st) (st_held st)) X Hh1 Hx1)
      as (c2 & E & Hh2 & Ho).
    + by apply NoDup_filter.
    + intros m [? _]%list_elem_of_filter. done.
    + exists c2. rewrite remove_members_eq. unfold mbind, M_bind. rewrite Hf, E.
      split_and!; [done|done|]. cbn [st_ctx] in Ho.
      replace (X ∖ list_to_set ms) with (X ∖ list_to_set (filter (λ m, m ∈ X) ms)); [done|].
      apply set_eq. intros m. rewrite !elem_of_difference, !elem_of_list_to_set, list_elem_of_filter.
      naive_solver.
  - intros c2 Hh2 Ho2. apply finishes_write; [done|done|]. by eapply same_only.
Qed.

(** ** SMOVE *)

(** The sets of [src] and [dst] after the move, everything else untouched. *)
Definition moved (c : Ctx) (src dst m : bytes) (X Y : gset bytes) (c' : Ctx) : Prop :=
  is_set (view c' src) (if decide (src = dst) then X else X ∖ {[ m ]}) ∧
  is_set (view c' dst) (if decide (src = dst) then X else {[ m ]} ∪ Y) ∧
  ∀ k, k ≠ src → k ≠ dst → view c' k = view c k.

Lemma smove_spec src dst m st X Y :
  healthy (st_ctx st) → is_set (view (st_ctx st) src) X → is_set (view (st_ctx st) dst) Y → m ∈ X →
  finishes (smove_runner src dst m) st (WriteInteger 1 (st_w st)) (moved (st_ctx st) src dst m X Y).
Proof.
  intros Hh Hx Hy Hm. unfold smove_runner. eapply finishes_snapshot; [done|exact Hx|].
  intros s1 c1 Hh1 Hs1 (Hw1 & He1 & _ & Hm1). cbv beta. rewrite Hw1, andb_false_r.
  eapply finishes_snapshot; [done|by rewrite Hs1|].
  cbn [st_ctx st_w st_held]. intros s2 c2 Hh2 Hs2 (Hw2 & He2 & _ & _). cbv beta.
  rewrite Hw2, andb_false_r, Hm1, bool_decide_eq_true_2, He1, He2 by done.
  assert (Hl : is_live (view (st_ctx st) src) = true).
  { unfold is_set in Hx. destruct (is_live _); [done|]. set_solver. }
  rewrite Hl. cbn [negb].
  eapply finishes_bind; [by apply steps_begin|]. cbn [st_ctx st_w st_held]. intros c3 Hh3 Hs3.
  eapply finishes_bind; [by apply steps_noop|]. cbn [st_ctx st_w st_held]. intros c4 Hh4 Hs4.
  assert (Hsame : same (st_ctx st) c4) by eauto using same_trans.
  eapply finishes_bind; [apply (steps_remove src m _ X); [done|by rewrite Hsame|done]|].
  cbn [st_ctx st_w st_held]. intros c5 Hh5 [Hx5 Hf5].
  assert (Hy5 : is_set (view c5 dst) (if decide (src = dst) then X ∖ {[ m ]} else Y)).
  { case_decide as Ed; [by rewrite <- Ed|]. rewrite Hf5 by congruence. by rewrite Hsame. }
  eapply finishes_bind; [by apply (steps_insert dst m)|].
  cbn [st_ctx st_w st_held]. intros c6 Hh6 [[Hy6 Hf6] Hl6].
  set (Z := {[ m ]} ∪ (if decide (src = dst) then X ∖ {[ m ]} else Y)) in *.
  apply (finishes_tagged dst (mkSt c6 (st_w st) (st_held st)) Z); [done|done|auto|]. cbn [st_ctx]. intros c7 [Hy7 Hf7].
  assert (Hz : Z = if decide (src = dst) then X else {[ m ]} ∪ Y).
  { unfold Z. case_decide; [|done]. apply set_eq. intros x. destruct (decide (x = m)); set_solver. }
  rewrite Hz in Hy7. unfold moved. split_and!; [|done|].
  - case_decide as Ed; [by subst dst|]. by rewrite Hf7, Hf6.
  - intros k Hk1 Hk2. by rewrite Hf7, Hf6, Hf5, Hsame.
Qed.
End SetRuns.

(** ** Iteration order *)
Section Order.
Context `{RangeOrderLaws}.

Lemma elem_of_range_keys m X : m ∈ range_keys X ↔ m ∈ X.
Proof. by rewrite range_keys_perm, elem_of_elements. Qed.

Lemma NoDup_range_keys X : NoDup (range_keys X).
Proof. rewrite range_keys_perm. apply NoDup_elements. Qed.

Lemma len_range_keys X : len (range_keys X) = Z.of_nat (size X).
Proof. unfold len. by rewrite range_keys_perm. Qed.

Lemma range_keys_empty : range_keys ∅ = [].
Proof. apply Permutation_nil. by rewrite range_keys_perm, elements_empty. Qed.

Lemma list_to_set_range_keys X : list_to_set (range_keys X) = X.
Proof. apply set_eq. intros m. by rewrite elem_of_list_to_set, elem_of_range_keys. Qed.

Lemma elem_of_keep p X m : m ∈ keep p X ↔ p m = true ∧ m ∈ X.
Proof.
  unfold keep. rewrite <- (elem_of_range_keys m X).
  assert (Hg : ∀ (l : list bytes) (acc : gset bytes), m ∈ foldl (λ result m, if p m then {[ m ]} ∪ result else result) acc l ↔
                        m ∈ acc ∨ (p m = true ∧ m ∈ l)).
  { induction l as [|x l IH]; intros acc; simpl; [set_solver|].
    rewrite IH. destruct (p x) eqn:Ep; rewrite ?elem_of_union, ?elem_of_singleton, elem_of_cons;
      naive_solver congruence. }
  rewrite Hg. set_solver.
Qed.

(** The reply that lists a set, and the one that lists popped members. *)
Definition members_reply (X : gset bytes) (w : Writer) : Writer :=
  bulks (range_keys X) (WriteArray (Z.of_nat (size X)) w).

Lemma members_reply_empty w : members_reply ∅ w = WriteArray 0 w.
Proof. unfold members_reply. by rewrite range_keys_empty, size_empty. Qed.
End Order.

Definition pop_reply (returnArray : bool) (popped : list bytes) (w : Writer) : Writer :=
  if returnArray then bulks popped (WriteArray (len popped) w)
  else match popped with [] => WriteNullBulkString w | m :: _ => WriteBulkString m w end.

(** ** Set algebra *)
Section Algebra.
Context `{EngineLaws} `{RangeOrderLaws}.

(** The set operations on the list of source sets. *)
Definition inter_of (Xs : list (gset bytes)) : gset bytes :=
  match Xs with X :: Xs' => foldl (∩) X Xs' | [] => ∅ end.
Definition diff_of (Xs : list (gset bytes)) : gset bytes :=
  match Xs with X :: Xs' => X ∖ ⋃ Xs' | [] => ∅ end.

(** What [collect_sets] records for a source. *)
Definition sees (o : option (gset bytes)) (X : gset bytes) : Prop :=
  o = Some X ∨ (o = None ∧ X = ∅).

Definition are_sets (c : Ctx) (keys : list bytes) (Xs : list (gset bytes)) : Prop :=
  Forall2 (λ k X, is_set (view c k) X) keys Xs.

Lemma are_sets_same c c' keys Xs : same c c' → are_sets c keys Xs → are_sets c' keys Xs.
Proof. intros Hs Hk. eapply Forall2_impl; [exact Hk|]. intros k X. simpl. by rewrite Hs. Qed.

Lemma steps_collect keys Xs st : healthy (st_ctx st) → are_sets (st_ctx st) keys Xs →
  ∃ os, steps (collect_sets keys) st os (same (st_ctx st)) ∧ Forall2 sees os Xs.
Proof.
  intros Hh Hk. revert st Hh Hk. induction keys as [|k keys IH] in Xs |- *; intros st Hh Hk.
  { apply Forall2_nil_inv_l in Hk as ->. exists []. split; [|done]. by apply steps_ret. }
  apply Forall2_cons_inv_l in Hk as (X & Xs' & Hx & Hk & ->).
  destruct (steps_snapshot k st Hh) as (tips & c1 & E1 & Hh1 & Hs1).
  destruct (classify_reads _ tips _ Hx) as (Hw & He & Hm & _).
  destruct (IH Xs' (mkSt c1 (st_w st) (st_held st)) Hh1) as (os & (c2 & E2 & Hh2 & Hs2) & Hos).
  { eapply are_sets_same; [exact Hs1|exact Hk]. }
  eexists. split; [exists c2; cbn [collect_sets]; unfold mbind, M_bind; rewrite E1, Hw, andb_false_r, E2|].
  - split_and!; [reflexivity|done|]. intros k'. by rewrite Hs2.
  - constructor; [|done]. unfold sees. rewrite He, Hm. destruct (is_live (view (st_ctx st) k)) eqn:El; [auto|].
    right. split; [done|]. unfold is_set in Hx. by rewrite El in Hx.
Qed.

Lemma in_all_spec m os Xs : Forall2 sees os Xs → in_all m os = true ↔ ∀ X, X ∈ Xs → m ∈ X.
Proof.
  unfold in_all. induction 1 as [|o X os Xs Ho _ IH]; simpl.
  { split; [|done]. intros _ X HX. by apply not_elem_of_nil in HX. }
  rewrite andb_true_iff, IH. setoid_rewrite elem_of_cons.
  destruct Ho as [->|[-> ->]]; [rewrite bool_decide_eq_true; naive_solver|].
  split; [by intros [? _]|]. intros Hm. by destruct (not_elem_of_empty (C := gset bytes) m (Hm ∅ (or_introl eq_refl))).
Qed.

Lemma in_other_spec m os Xs : Forall2 sees os Xs → in_other m os = true ↔ m ∈ ⋃ Xs.
Proof.
  unfold in_other. induction 1 as [|o X os Xs Ho _ IH]; simpl.
  { split; [done|]. by intros ?%not_elem_of_empty. }
  rewrite orb_true_iff, IH, elem_of_union.
  destruct Ho as [->|[-> ->]]; [by rewrite bool_decide_eq_true|].
  split; [intros [|]; [done|auto]|]. intros [?%not_elem_of_empty|]; auto.
Qed.

Lemma elem_of_inter_of m X Xs : m ∈ inter_of (X :: Xs) ↔ m ∈ X ∧ ∀ Y, Y ∈ Xs → m ∈ Y.
Proof.
  simpl. revert X. induction Xs as [|Y Xs IH]; intros X; simpl.
  { split; [|by intros [? _]]. intros Hm. split; [done|]. by intros Y ?%not_elem_of_nil. }
  rewrite IH, elem_of_intersection. setoid_rewrite elem_of_cons. naive_solver.
Qed.

Lemma intersect_spec os Xs : Forall2 sees os Xs → intersect os = inter_of Xs.
Proof.
  intros Hs. destruct Hs as [|o X os Xs Ho Hs]; [done|]. apply set_eq. intros m.
  rewrite elem_of_inter_of. destruct Ho as [->|[-> ->]]; simpl; [|set_solver].
  rewrite elem_of_keep, in_all_spec by done. naive_solver.
Qed.

Lemma difference_spec os Xs : Forall2 sees os Xs → difference_ os = diff_of Xs.
Proof.
  intros Hs. destruct Hs as [|o X os Xs Ho Hs]; [done|]. apply set_eq. intros m. simpl.
  destruct Ho as [->|[-> ->]]; simpl; [|set_solver].
  rewrite elem_of_keep, negb_true_iff, <- not_true_iff_false, in_other_spec by done. set_solver.
Qed.

Lemma steps_union acc keys Xs st : healthy (st_ctx st) → are_sets (st_ctx st) keys Xs →
  steps (union_sets acc keys) st (acc ∪ ⋃ Xs) (same (st_ctx st)).
Proof.
  revert acc Xs st. induction keys as [|k keys IH]; intros acc Xs st Hh Hk.
  { apply Forall2_nil_inv_l in Hk as ->. simpl. rewrite (right_id_L ∅ (∪)). by apply steps_ret. }
  apply Forall2_cons_inv_l in Hk as (X & Xs' & Hx & Hk & ->).
  destruct (steps_snapshot k st Hh) as (tips & c1 & E1 & Hh1 & Hs1).
  destruct (classify_reads _ tips _ Hx) as (Hw & He & Hm & _).
  assert (Hfold : ∀ (l : list bytes) (r : gset bytes), foldl (λ result m, {[ m ]} ∪ result) r l = r ∪ list_to_set l).
  { induction l as [|x l IHl]; intros r; simpl; [set_solver|]. rewrite IHl. set_solver. }
  cbn [union_sets]. unfold steps, mbind, M_bind. rewrite E1, Hw, andb_false_r, He, Hm, Hfold, list_to_set_range_keys.
  replace (acc ∪ ⋃ (X :: Xs')) with ((if is_live (view (st_ctx st) k) then acc ∪ X else acc) ∪ ⋃ Xs').
  - destruct (IH (if is_live (view (st_ctx st) k) then acc ∪ X else acc) Xs'
      (mkSt c1 (st_w st) (st_held st)) Hh1) as (c2 & E2 & Hh2 & Hs2).
    { eapply are_sets_same; [exact Hs1|exact Hk]. }
    exists c2. rewrite E2. split_and!; [done|done|]. intros k'. by rewrite Hs2.
  - simpl. destruct (is_live (view (st_ctx st) k)) eqn:El; [set_solver|].
    unfold is_set in Hx. rewrite El in Hx. subst X. set_solver.
Qed.

Lemma finishes_members X st (P : Ctx → Prop) : healthy (st_ctx st) → P (st_ctx st) →
  finishes (write_members X) st (members_reply X (st_w st)) P.
Proof.
  intros Hh HP. unfold write_members. apply finishes_write_bind.
  by apply (finishes_for_each_write (λ m w, WriteBulkString m w) (range_keys X) (mkSt _ _ _)).
Qed.

(** *** Queries *)

(** With a missing source the intersection is empty. *)
Lemma intersect_missing os : existsb (λ o, bool_decide (o = None)) os = true → intersect os = ∅.
Proof.
  intros (o & Ho & Hn)%existsb_exists. apply bool_decide_eq_true in Hn as ->.
  destruct os as [|[X|] os]; [done| |done]. destruct Ho as [?|Hin]; [done|]. simpl.
  apply set_eq. intros m. split; [|by intros ?%not_elem_of_empty].
  rewrite elem_of_keep. intros [Hall _]. unfold in_all in Hall. rewrite forallb_forall in Hall.
  by specialize (Hall _ Hin).
Qed.

Lemma sinter_spec keys Xs st : healthy (st_ctx st) → are_sets (st_ctx st) keys Xs →
  finishes (sinter_runner keys) st (members_reply (inter_of Xs) (st_w st)) (same (st_ctx st)).
Proof.
  intros Hh Hk. destruct (steps_collect keys Xs st Hh Hk) as (os & Hs & Hos).
  unfold sinter_runner. eapply finishes_bind; [exact Hs|]. intros c1 Hh1 Hs1.
  rewrite <- (intersect_spec os Xs Hos). destruct (existsb _ os) eqn:Ee.
  - rewrite intersect_missing by done.
    apply finishes_reply; [done|by rewrite members_reply_empty|done].
  - by apply (finishes_members (intersect os) (mkSt c1 (st_w st) (st_held st))).
Qed.

Lemma sunion_spec keys Xs st : healthy (st_ctx st) → are_sets (st_ctx st) keys Xs →
  finishes (sunion_runner keys) st (members_reply (⋃ Xs) (st_w st)) (same (st_ctx st)).
Proof.
  intros Hh Hk. unfold sunion_runner. eapply finishes_bind; [by apply (steps_union ∅ keys Xs)|].
  intros c1 Hh1 Hs1. rewrite (left_id_L ∅ (∪)).
  by apply (finishes_members (⋃ Xs) (mkSt c1 (st_w st) (st_held st))).
Qed.

Lemma sdiff_spec keys Xs st : healthy (st_ctx st) → are_sets (st_ctx st) keys Xs →
  finishes (sdiff_runner keys) st (members_reply (diff_of Xs) (st_w st)) (same (st_ctx st)).
Proof.
  intros Hh Hk. destruct (steps_collect keys Xs st Hh Hk) as (os & Hs & Hos).
  unfold sdiff_runner. eapply finishes_bind; [exact Hs|]. intros c1 Hh1 Hs1.
  pose proof (difference_spec os Xs Hos) as Hd.
  assert (Hm : finishes (write_members (diff_of Xs)) (mkSt c1 (st_w st) (st_held st))
                 (members_reply (diff_of Xs) (st_w st)) (same (st_ctx st)))
    by by apply (finishes_members (diff_of Xs) (mkSt c1 (st_w st) (st_held st))).
  rewrite <- Hd in Hm |- *. destruct os as [|[X|] os]; [exact Hm|exact Hm|].
  apply finishes_reply; [done| |done]. simpl. by rewrite members_reply_empty.
Qed.

Lemma count_in_all_spec os limit n l : 0 <= n → 0 <= limit → (limit = 0 ∨ n < limit) →
  count_in_all os limit n l =
  let total := n + len (filter (λ m, in_all m os = true) l) in
  if limit =? 0 then total else Z.min limit total.
Proof.
  cbv zeta. revert n. induction l as [|m l IH]; intros n Hn Hl Hlt.
  { rewrite filter_nil. unfold len. simpl. destruct (Z.eqb_spec limit 0); lia. }
  cbn [count_in_all]. rewrite filter_cons. pose proof (len_nonneg (filter (λ m, in_all m os = true) l)).
  destruct (in_all m os) eqn:E.
  - rewrite decide_True, len_cons by done.
    destruct (Z.ltb_spec 0 limit), (Z.leb_spec limit (n + 1)); cbn [andb];
      rewrite ?IH by lia; destruct (Z.eqb_spec limit 0); lia.
  - rewrite decide_False by done. apply IH; lia.
Qed.

Lemma size_inter_of os X Xs : Forall2 sees os Xs →
  len (filter (λ m, in_all m os = true) (range_keys X)) = Z.of_nat (size (inter_of (X :: Xs))).
Proof.
  intros Hos. replace (inter_of (X :: Xs))
    with (list_to_set (C := gset bytes) (filter (λ m, in_all m os = true) (range_keys X))).
  - unfold len. rewrite size_list_to_set; [done|]. apply NoDup_filter, NoDup_range_keys.
  - apply set_eq. intros m. rewrite elem_of_list_to_set, list_elem_of_filter, elem_of_range_keys,
      elem_of_inter_of, in_all_spec by done. naive_solver.
Qed.

(** The cardinality, cut at the limit when there is one. *)
Definition limited (limit n : Z) : Z := if limit =? 0 then n else Z.min limit n.

Lemma sintercard_spec keys Xs limit st : healthy (st_ctx st) → are_sets (st_ctx st) keys Xs →
  0 <= limit →
  finishes (sintercard_runner keys limit) st
    (WriteInteger (limited limit (Z.of_nat (size (inter_of Xs)))) (st_w st)) (same (st_ctx st)).
Proof.
  intros Hh Hk Hl. destruct (steps_collect keys Xs st Hh Hk) as (os & Hs & Hos).
  unfold sintercard_runner. eapply finishes_bind; [exact Hs|]. intros c1 Hh1 Hs1.
  destruct (existsb _ os) eqn:Ee.
  - apply finishes_reply; [done| |done]. f_equal.
    rewrite <- (intersect_spec os Xs Hos), intersect_missing, size_empty by done.
    unfold limited. destruct (Z.eqb_spec limit 0); lia.
  - destruct Hos as [|o X os Xs Ho Hos].
    { apply finishes_write; [done| |done]. f_equal. change (Z.of_nat (size (inter_of []))) with 0.
      unfold limited. destruct (Z.eqb_spec limit 0); lia. }
    destruct Ho as [->|[-> ->]]; [|done]. apply finishes_write; [done| |done]. f_equal.
    rewrite count_in_all_spec by lia. cbv zeta. by rewrite Z.add_0_l, (size_inter_of os X Xs).
Qed.

(** *** Storing *)

Lemma store_spec dest R st : healthy (st_ctx st) →
  finishes (writeStoreResult dest R) st (WriteInteger (Z.of_nat (size R)) (st_w st))
    (only (st_ctx st) dest R).
Proof.
  intros Hh. unfold writeStoreResult. destruct (steps_snapshot dest st Hh) as [tips Hs].
  eapply finishes_bind; [exact Hs|]. intros c1 Hh1 Hs1.
  eapply finishes_bind; [by apply steps_delete|]. cbn [st_ctx st_w st_held]. intros c2 Hh2 Ho2.
  eapply finishes_bind; [apply (steps_insert_all dest _ _ ∅); [done|apply Ho2]|].
  cbn [st_ctx st_w st_held]. intros c3 Hh3 [Ho3 Hl3].
  rewrite (left_id_L ∅ (∪)), list_to_set_range_keys in Ho3.
  apply (finishes_tagged dest (mkSt c3 (st_w st) (st_held st)) R); cbn [st_ctx]; [done|apply Ho3| |].
  - destruct (bool_decide_reflect (size R = 0)%nat) as [|Hn]; [auto|]. right. apply Hl3.
    intros E. apply (f_equal len) in E. rewrite len_range_keys in E. unfold len in E. simpl in E. lia.
  - intros c4 Ho4. eapply same_only; [done|]. eapply only_trans; [exact Ho2|]. by eapply only_trans.
Qed.
End Algebra.
