(* ===== verification/SetTheorems.v ===== *)
(** * Sets: random members, and the commands as a whole

    SPOP and SRANDMEMBER for any order of iteration and any random numbers,
    then the properties of the set commands. *)

From Stdlib Require Import ZifyBool.
From S2P Require Import Prelude GoBytes Strconv Commands Writer Engine Runs Sets SetProps.

Local Open Scope Z_scope.

(** ** The shuffle *)

Lemma swap_perm l i j : swap l i j ≡ₚ l.
Proof.
  unfold swap. destruct (l !! i) as [x|] eqn:Ei; [|done]. destruct (l !! j) as [y|] eqn:Ej; [|done].
  pose proof (lookup_lt_Some _ _ _ Ei). pose proof (lookup_lt_Some _ _ _ Ej).
  apply Permutation_inj. split; [by rewrite !length_insert|].
  exists (λ k, if decide (k = i) then j else if decide (k = j) then i else k). split.
  { intros a b. repeat case_decide; congruence. }
  intros k. destruct (decide (k = j)) as [->|Hkj].
  - rewrite list_lookup_insert_eq by by rewrite length_insert.
    destruct (decide (j = i)) as [->|]; congruence.
  - rewrite list_lookup_insert_ne by done. destruct (decide (k = i)) as [E|E].
    + subst k. by rewrite list_lookup_insert_eq.
    + by rewrite list_lookup_insert_ne.
Qed.

Lemma shuffle_perm `{Rand} k i l : shuffle k i l ≡ₚ l.
Proof.
  revert k l. induction i as [|i IH]; intros k l; [done|]. cbn [shuffle]. by rewrite IH, swap_perm.
Qed.

Section Random.
Context `{EngineLaws} `{RangeOrderLaws} `{RandLaws}.

Lemma write_random_spec k n l st : l ≠ [] → healthy (st_ctx st) →
  ∃ picked, length picked = n ∧ (∀ m, m ∈ picked → m ∈ l) ∧
    finishes (write_random k n l) st (bulks picked (st_w st)) (same (st_ctx st)).
Proof.
  intros Hl. revert k st. induction n as [|n IH]; intros k st Hh.
  { exists []. split_and!; [done|by intros m ?%not_elem_of_nil|].
    exists (Next tt), (st_ctx st). destruct st. split_and!; [done|by left|done|done]. }
  assert (Hlen : 0 < len l) by (destruct l; [done|]; unfold len; simpl; lia).
  destruct (lookup_lt_is_Some_2 l (Z.to_nat (rand_IntN k (len l)))) as [m Hm].
  { pose proof (rand_IntN_range k _ Hlen). unfold len in *. lia. }
  destruct (IH (S k) (mkSt (st_ctx st) (WriteBulkString m (st_w st)) (st_held st)) Hh)
    as (picked & Hp & Hin & Hf).
  exists (m :: picked). split_and!; [simpl; by rewrite Hp| |].
  - intros m' [->|?]%elem_of_cons; [by eapply list_elem_of_lookup_2|auto].
  - cbn [write_random]. rewrite Hm. exact Hf.
Qed.

(** ** SPOP *)

(** What may be popped: distinct members, as many as asked for or all. *)
Definition a_choice (X : gset bytes) (count : Z) (picked : list bytes) : Prop :=
  NoDup picked ∧ (∀ m, m ∈ picked → m ∈ X) ∧ len picked = Z.min count (Z.of_nat (size X)).

Lemma take_choice X count l : l ≡ₚ range_keys X → 0 <= count → a_choice X count (take (Z.to_nat count) l).
Proof.
  intros Hp Hc. unfold a_choice. split_and!.
  - apply (sublist_NoDup _ l); [|by apply sublist_take]. rewrite Hp. apply NoDup_range_keys.
  - intros m Hm. apply elem_of_range_keys. rewrite <- Hp. apply elem_of_take in Hm as (i & Hi & _).
    by eapply list_elem_of_lookup_2.
  - rewrite <- len_range_keys. unfold len. rewrite length_take, Hp. lia.
Qed.

Lemma spop_spec key count returnArray st X :
  healthy (st_ctx st) → is_set (view (st_ctx st) key) X → 0 <= count → count * 24 <= 2 ^ 48 →
  ∃ popped, a_choice X count popped ∧
    finishes (spop_runner key count returnArray) st (pop_reply returnArray popped (st_w st))
      (only (st_ctx st) key (X ∖ list_to_set popped)).
Proof.
  intros Hh Hx Hc Hcap. set (popped := take (Z.to_nat count) (range_keys X)).
  destruct (take_choice X count (range_keys X)) as (Hnd & Hin & Hlen); [done|done|].
  fold popped in Hnd, Hin, Hlen. exists popped. split; [done|].
  unfold spop_runner. eapply finishes_snapshot; [done|exact Hx|].
  intros s c1 Hh1 Hs1 (Hw & He & Hm & _). cbv beta. rewrite He, Hw.
  destruct (is_live (view (st_ctx st) key)) eqn:El; cbn [negb].
  2:{ assert (X = ∅) as -> by (unfold is_set in Hx; by rewrite El in Hx).
      assert (popped = []) as -> by (unfold popped; by rewrite range_keys_empty, take_nil).
      apply finishes_reply; [done|by destruct returnArray|].
      apply same_set; [done|]. by replace (∅ ∖ list_to_set []) with (∅ : gset bytes) by set_solver. }
  eapply finishes_bind; [by apply steps_begin|]. cbn [st_ctx st_w st_held]. intros c2 Hh2 Hs2.
  eapply finishes_bind; [by apply steps_noop|]. cbn [st_ctx st_w st_held]. intros c3 Hh3 Hs3.
  assert (Hsame : same (st_ctx st) c3) by eauto using same_trans.
  cbv zeta. rewrite Hm. apply (finishes_or_panic _ []).
  { unfold make_cap. by rewrite (proj2 (Z.leb_le 0 count)), (proj2 (Z.leb_le (count * 24) _)). }
  fold popped. eapply finishes_bind.
  { apply (steps_remove_all key popped (mkSt c3 (st_w st) (st_held st)) X);
      [done|cbn [st_ctx]; by rewrite Hsame|done|done]. }
  cbn [st_ctx st_w st_held]. intros c4 Hh4 Ho4.
  assert (Hfin : only (st_ctx st) key (X ∖ list_to_set popped) c4) by by eapply same_only.
  destruct returnArray; cbn [pop_reply].
  - apply finishes_write_bind.
    by apply (finishes_for_each_write (λ m w, WriteBulkString m w) popped (mkSt _ _ _)).
  - destruct popped; by apply finishes_write.
Qed.

(** ** SRANDMEMBER *)

(** What SRANDMEMBER may pick: distinct members for a positive count, any
    members, as often as asked, for a negative one. *)
Definition a_pick (X : gset bytes) (count : Z) (picked : list bytes) : Prop :=
  (∀ m, m ∈ picked → m ∈ X) ∧
  if decide (X = ∅) then picked = []
  else if 0 <? count then a_choice X count picked else len picked = - count.

Lemma pick_spec count returnArray st X :
  healthy (st_ctx st) → MinInt64 < count <= MaxInt64 → (returnArray = false → count = 1) →
  ∃ picked, a_pick X count picked ∧
    finishes (pick_members (range_keys X) count returnArray) st (pop_reply returnArray picked (st_w st))
      (same (st_ctx st)).
Proof.
  intros Hh Hr Hone. unfold pick_members, a_pick.
  destruct (decide (X = ∅)) as [->|HX].
  { exists []. rewrite range_keys_empty. split_and!; [by intros m ?%not_elem_of_nil|done|].
    apply finishes_reply; [done|by destruct returnArray|done]. }
  assert (Hne : range_keys X ≠ []).
  { intros E. apply HX. by rewrite <- (list_to_set_range_keys X), E. }
  assert (Hlen : len (range_keys X) ≠ 0) by (destruct (range_keys X); [done|]; unfold len; simpl; lia).
  rewrite (proj2 (Z.eqb_neq _ _)) by done. destruct returnArray.
  2:{ destruct (write_random_spec 0 1 (range_keys X) st Hne Hh) as ([|m [|]] & Hl & Hin & Hf); try done.
      rewrite (Hone eq_refl). exists [m]. split_and!; [intros m' Hm'; by apply elem_of_range_keys, Hin| |exact Hf].
      split_and!; [by apply NoDup_singleton|intros m' Hm'; by apply elem_of_range_keys, Hin|].
      rewrite <- len_range_keys. pose proof (len_nonneg (range_keys X)). unfold len at 1. simpl. lia. }
  destruct (Z.ltb_spec 0 count).
  - set (n := Z.min count (len (range_keys X))).
    destruct (take_choice X n (shuffle 0 (length (range_keys X) - 1) (range_keys X)))
      as (Hnd & Hin & Hl); [apply shuffle_perm|pose proof (len_nonneg (range_keys X)); lia|].
    rewrite <- len_range_keys in Hl.
    eexists. split_and!; [exact Hin| |].
    + split_and!; [exact Hnd|exact Hin|]. rewrite <- len_range_keys, Hl. lia.
    + cbv zeta. fold n. apply finishes_write_bind. cbn [pop_reply]. rewrite Hl.
      replace (Z.min n (len (range_keys X))) with n by lia.
      by apply (finishes_for_each_write (λ m w, WriteBulkString m w) _ (mkSt _ _ _)).
  - assert (Habs : i64 (- count) = - count) by (apply i64_id; zlia). cbv zeta. rewrite Habs.
    destruct (write_random_spec 0 (Z.to_nat (- count)) (range_keys X)
      (mkSt (st_ctx st) (WriteArray (- count) (st_w st)) (st_held st)) Hne Hh)
      as (picked & Hl & Hin & Hf).
    assert (Hp : len picked = - count) by (unfold len; lia).
    exists picked. split_and!; [intros m' Hm'; by apply elem_of_range_keys, Hin|exact Hp|].
    apply finishes_write_bind. cbn [pop_reply]. rewrite Hp. exact Hf.
Qed.

Lemma srandmember_spec key count returnArray st X :
  healthy (st_ctx st) → is_set (view (st_ctx st) key) X → MinInt64 < count <= MaxInt64 →
  (returnArray = false → count = 1) →
  ∃ picked, a_pick X count picked ∧
    finishes (srandmember_runner key count returnArray) st (pop_reply returnArray picked (st_w st))
      (same (st_ctx st)).
Proof.
  intros Hh Hx Hr Hone. destruct (steps_snapshot key st Hh) as (tips & c1 & E & Hh1 & Hs1).
  destruct (classify_reads _ tips _ Hx) as (Hw & He & Hm & _).
  destruct (pick_spec count returnArray (mkSt c1 (st_w st) (st_held st)) X Hh1 Hr Hone)
    as (picked & Hp & o & c2 & Ef & Ho & Hh2 & Hs2).
  exists picked. split; [done|]. unfold srandmember_runner, finishes, mbind, M_bind.
  rewrite E, He, Hw, Hm. destruct (is_live (view (st_ctx st) key)) eqn:El; cbn [negb].
  - exists o, c2. split_and!; [done..|]. by eapply same_trans.
  - assert (X = ∅) as -> by (unfold is_set in Hx; by rewrite El in Hx).
    destruct Hp as [_ Hp]. rewrite decide_True in Hp by done. subst picked.
    exists Return, c1. split_and!; [by destruct returnArray|auto|done|done].
Qed.
End Random.

(** ** The properties *)
Section Properties.
Context `{EngineLaws} `{RangeOrderLaws} `{RandLaws}.

Lemma new_members_size X ms : NoDup ms →
  len (new_members X ms) = Z.of_nat (size (X ∪ list_to_set ms)) - Z.of_nat (size X).
Proof.
  intros Hnd. replace (X ∪ list_to_set ms) with (X ∪ list_to_set (new_members X ms)).
  - rewrite size_union, size_list_to_set.
    + unfold len. lia.
    + by apply NoDup_filter.
    + intros m Hm Hn. apply elem_of_list_to_set, list_elem_of_filter in Hn as [Hn _]. done.
  - apply set_eq. intros m. unfold new_members.
    rewrite !elem_of_union, !elem_of_list_to_set, list_elem_of_filter. destruct (decide (m ∈ X)); naive_solver.
Qed.

(** SADD makes the key the union of its set and the members given, creates
    it when it is missing, leaves every other key alone, and, for distinct
    members, answers by how many the set has grown; a key of another type is
    refused and left alone. *)
Theorem sadd_correct (key m : bytes) (ms : list bytes) (st : St) :
  healthy (st_ctx st) →
  ∃ runner, handleSAdd (key :: m :: ms) = Accept [key] runner ∧
    (∀ X, is_set (view (st_ctx st) key) X →
       let Y := X ∪ list_to_set (m :: ms) in
       ∃ n, finishes runner st (WriteInteger n (st_w st)) (only (st_ctx st) key Y) ∧
            (NoDup (m :: ms) → n = Z.of_nat (size Y) - Z.of_nat (size X))) ∧
    (not_set (view (st_ctx st) key) →
       finishes runner st (WriteWrongType (st_w st)) (same (st_ctx st))).
Proof.
  intros Hh. exists (sadd_runner key (m :: ms)). split_and!; [done| |].
  - intros X Hx Y. exists (len (new_members X (m :: ms))).
    split; [by apply sadd_spec|apply new_members_size].
  - intros Hn. unfold sadd_runner. apply finishes_wrong_type; [done|done|done|].
    intros s _ Hw. by rewrite Hw.
Qed.

(** SREM makes the key the difference of its set and the members given and
    answers how many of them were there; a set emptied this way is gone, a key
    of another type is refused and left alone. *)
Theorem srem_correct (key m : bytes) (ms : list bytes) (st : St) :
  healthy (st_ctx st) → NoDup (m :: ms) →
  ∃ runner, handleSRem (key :: m :: ms) = Accept [key] runner ∧
    (∀ X, is_set (view (st_ctx st) key) X →
       let Y := X ∖ list_to_set (m :: ms) in
       finishes runner st (WriteInteger (Z.of_nat (size X) - Z.of_nat (size Y)) (st_w st))
         (only (st_ctx st) key Y)) ∧
    (not_set (view (st_ctx st) key) →
       finishes runner st (WriteWrongType (st_w st)) (same (st_ctx st))).
Proof.
  intros Hh Hnd. exists (srem_runner key (m :: ms)). split_and!; [done| |].
  - intros X Hx Y. replace (Z.of_nat (size X) - Z.of_nat (size Y))
      with (len (filter (λ m, m ∈ X) (m :: ms))); [by apply srem_spec|].
    assert (HX : X = Y ∪ list_to_set (filter (λ m, m ∈ X) (m :: ms))).
    { apply set_eq. intros x. unfold Y. rewrite elem_of_union, elem_of_difference, !elem_of_list_to_set,
        list_elem_of_filter. destruct (decide (x ∈ m :: ms)); naive_solver. }
    apply (f_equal size) in HX. rewrite size_union, size_list_to_set in HX.
    + unfold len. lia.
    + by apply NoDup_filter.
    + unfold Y. intros x [_ Hx']%elem_of_difference Hf. apply Hx'.
      apply elem_of_list_to_set. by apply elem_of_list_to_set, list_elem_of_filter in Hf as [_ Hf].
  - intros Hn. unfold srem_runner. apply finishes_wrong_type; [done|done|done|].
    intros s He Hw. by rewrite He, Hw.
Qed.

(** SMOVE takes a member from one set to another in one transaction: it
    answers 1 and moves it when the source has it (a move to the same key
    changes nothing), and 0 without any effect when it has not. *)
Theorem smove_correct (src dst m : bytes) (st : St) (X Y : gset bytes) :
  healthy (st_ctx st) → is_set (view (st_ctx st) src) X → is_set (view (st_ctx st) dst) Y →
  ∃ runner, handleSMove [src; dst; m] = Accept [src; dst] runner ∧
    if decide (m ∈ X)
    then finishes runner st (WriteInteger 1 (st_w st)) (moved (st_ctx st) src dst m X Y)
    else finishes runner st (WriteInteger 0 (st_w st)) (same (st_ctx st)).
Proof.
  intros Hh Hx Hy. exists (smove_runner src dst m). split; [done|].
  destruct (decide (m ∈ X)) as [Hm|Hm]; [by apply smove_spec|].
  unfold smove_runner. eapply finishes_snapshot; [done|exact Hx|].
  intros s1 c1 Hh1 Hs1 (Hw1 & He1 & _ & Hm1). cbv beta. rewrite Hw1, andb_false_r.
  eapply finishes_snapshot; [done|by rewrite Hs1|].
  cbn [st_ctx st_w st_held]. intros s2 c2 Hh2 Hs2 (Hw2 & _ & _ & _). cbv beta.
  rewrite Hw2, andb_false_r, Hm1, bool_decide_eq_false_2 by done. cbn [negb].
  assert (same (st_ctx st) c2) by by eapply same_trans.
  destruct (ks_exists s1); by apply finishes_reply.
Qed.

(** SPOP removes and returns distinct members, as many as asked for or all
    of them, whatever the iteration order; without a count it returns one
    member, or nil from an empty set. *)
Theorem spop_correct (key count : bytes) (c : Z) (st : St) (X : gset bytes) :
  healthy (st_ctx st) → is_set (view (st_ctx st) key) X →
  ParseInt64 count = Some c → 0 <= c → c * 24 <= 2 ^ 48 →
  ∃ one many, handleSPop [key] = Accept [key] one ∧ handleSPop [key; count] = Accept [key] many ∧
    (∃ popped, a_choice X 1 popped ∧
       finishes one st (pop_reply false popped (st_w st)) (only (st_ctx st) key (X ∖ list_to_set popped))) ∧
    (∃ popped, a_choice X c popped ∧
       finishes many st (pop_reply true popped (st_w st)) (only (st_ctx st) key (X ∖ list_to_set popped))).
Proof.
  intros Hh Hx Hp Hc Hcap. exists (spop_runner key 1 false), (spop_runner key c true). split_and!.
  - done.
  - cbn [handleSPop]. rewrite Hp. by rewrite (proj2 (Z.ltb_ge c 0)).
  - by apply spop_spec.
  - by apply spop_spec.
Qed.

(** SRANDMEMBER changes nothing and picks members of the set: distinct
    ones, as many as asked for or all, for a positive count; exactly as many
    as asked for, repetitions allowed, for a negative one; for any order of
    iteration and any random numbers. *)
Theorem srandmember_correct (key count : bytes) (c : Z) (st : St) (X : gset bytes) :
  healthy (st_ctx st) → is_set (view (st_ctx st) key) X →
  ParseInt64 count = Some c → is_i64 c → c ≠ MinInt64 →
  ∃ one many, handleSRandMember [key] = Accept [key] one ∧
    handleSRandMember [key; count] = Accept [key] many ∧
    (∃ picked, a_pick X 1 picked ∧
       finishes one st (pop_reply false picked (st_w st)) (same (st_ctx st))) ∧
    (∃ picked, a_pick X c picked ∧
       finishes many st (pop_reply true picked (st_w st)) (same (st_ctx st))).
Proof.
  intros Hh Hx Hp Hc Hmin. exists (srandmember_runner key 1 false), (srandmember_runner key c true).
  split_and!.
  - done.
  - cbn [handleSRandMember]. rewrite Hp. by rewrite (proj2 (Z.eqb_neq c MinInt64)).
  - apply srandmember_spec; [done|done|zlia|done].
  - apply srandmember_spec; [done|done|zlia|done].
Qed.

(** SINTER, SUNION and SDIFF list the intersection, the union and the
    difference of the sets of their keys, missing keys being empty sets, and
    SINTERCARD counts the intersection up to its limit; nothing is changed. *)
Theorem set_algebra_correct (k : bytes) (ks : list bytes) (Xs : list (gset bytes)) (st : St) (limit : Z) :
  healthy (st_ctx st) → are_sets (st_ctx st) (k :: ks) Xs → 0 <= limit →
  let w := st_w st in
  ∃ ri ru rd, handleSInter (k :: ks) = Accept (k :: ks) ri ∧ handleSUnion (k :: ks) = Accept (k :: ks) ru ∧
    handleSDiff (k :: ks) = Accept (k :: ks) rd ∧
    finishes ri st (members_reply (inter_of Xs) w) (same (st_ctx st)) ∧
    finishes ru st (members_reply (⋃ Xs) w) (same (st_ctx st)) ∧
    finishes rd st (members_reply (diff_of Xs) w) (same (st_ctx st)) ∧
    finishes (sintercard_runner (k :: ks) limit) st
      (WriteInteger (limited limit (Z.of_nat (size (inter_of Xs)))) w) (same (st_ctx st)).
Proof.
  intros Hh Hk Hl w. eexists _, _, _. split_and!; [reflexivity..| | | |].
  - by apply sinter_spec.
  - by apply sunion_spec.
  - by apply sdiff_spec.
  - by apply sintercard_spec.
Qed.

(** the STORE variants compute from the sources as they were before, make
    the destination exactly the result (gone when it is empty), also when it
    is one of the sources or of another type, and answer its size. *)
Theorem set_store_correct (dest k : bytes) (ks : list bytes) (Xs : list (gset bytes)) (st : St) :
  healthy (st_ctx st) → are_sets (st_ctx st) (k :: ks) Xs →
  let args := dest :: k :: ks in
  let stores runner R :=
    finishes runner st (WriteInteger (Z.of_nat (size R)) (st_w st)) (only (st_ctx st) dest R) in
  ∃ ri ru rd, handleSInterStore args = Accept args ri ∧ handleSUnionStore args = Accept args ru ∧
    handleSDiffStore args = Accept args rd ∧
    stores ri (inter_of Xs) ∧ stores ru (⋃ Xs) ∧ stores rd (diff_of Xs).
Proof.
  intros Hh Hk args stores. destruct (steps_collect (k :: ks) Xs st Hh Hk) as (os & Hs & Hos).
  assert (Hst : ∀ c R, healthy c → same (st_ctx st) c →
    finishes (writeStoreResult dest R) (mkSt c (st_w st) (st_held st))
      (WriteInteger (Z.of_nat (size R)) (st_w st)) (only (st_ctx st) dest R)).
  { intros c R Hc Hsc. destruct (store_spec dest R (mkSt c (st_w st) (st_held st)) Hc)
      as (o & c' & E & Ho & Hh' & Hon). exists o, c'. split_and!; [done..|]. by eapply same_only. }
  eexists _, _, _. split_and!; [reflexivity..| | |]; unfold stores.
  - eapply finishes_bind; [exact Hs|]. intros c Hc Hsc. cbv beta. rewrite (intersect_spec os Xs Hos). auto.
  - eapply finishes_bind; [by apply (steps_union ∅ _ Xs)|]. intros c Hc Hsc. cbv beta.
    rewrite (left_id_L ∅ (∪)). auto.
  - eapply finishes_bind; [exact Hs|]. intros c Hc Hsc. cbv beta. rewrite (difference_spec os Xs Hos). auto.
Qed.

(** *** Where the commands differ from what they mean to do *)

(** A new member given twice is counted twice: the set grows by one, the
    answer is 2. *)
Theorem sadd_counts_repeats (key m : bytes) (st : St) (X : gset bytes) :
  healthy (st_ctx st) → is_set (view (st_ctx st) key) X → m ∉ X →
  finishes (sadd_runner key [m; m]) st (WriteInteger 2 (st_w st)) (only (st_ctx st) key ({[ m ]} ∪ X)).
Proof.
  intros Hh Hx Hm. pose proof (sadd_spec key [m; m] st X Hh Hx ltac:(done)) as Hs.
  unfold new_members in Hs. rewrite !filter_cons_True, filter_nil in Hs by done.
  by replace ({[ m ]} ∪ X) with (X ∪ list_to_set [m; m]) by set_solver.
Qed.

(** The result of SPOP is allocated for the count asked for, not for the
    members there are: a large count panics on any live set. *)
Theorem spop_count_panics (key : bytes) (c : Z) (st : St) (X : gset bytes) :
  healthy (st_ctx st) → is_set (view (st_ctx st) key) X → is_live (view (st_ctx st) key) = true →
  2 ^ 48 < c * 24 → fst (spop_runner key c true st) = Panic.
Proof.
  intros Hh Hx Hl Hc. destruct (steps_snapshot key st Hh) as (tips & c1 & E1 & Hh1 & Hs1).
  destruct (classify_reads _ tips _ Hx) as (Hw & He & _ & _).
  destruct (steps_begin (mkSt c1 (st_w st) (st_held st)) Hh1) as (c2 & E2 & Hh2 & _).
  destruct (steps_noop key (ks_tips (classify_set (view (st_ctx st) key) tips))
    (mkSt c2 (st_w st) (st_held st)) Hh2) as (c3 & E3 & _).
  unfold spop_runner, mbind, M_bind. cbn [st_w st_held] in *. rewrite E1, He, Hl, Hw. cbn [negb].
  rewrite E2. rewrite E3. unfold or_panic, make_cap.
  by rewrite (proj2 (Z.leb_gt (c * 24) _)), andb_false_r.
Qed.

(** The type tag of a keyed collection is not looked at: SADD adds a member to
    a hash. *)
Theorem sadd_accepts_hash (key m : bytes) (st : St) (r : ReducedEffect) :
  healthy (st_ctx st) → view (st_ctx st) key = Some r → re_Op r = INSERT_OP →
  re_Collection r = KEYED → re_TypeTag r = TYPE_HASH → re_NetAdds r !! m = None →
  finishes (sadd_runner key [m]) st (WriteInteger 1 (st_w st))
    (only (st_ctx st) key (dom (re_NetAdds r) ∪ {[ m ]})).
Proof.
  intros Hh Hv Ho Hk _ Hm.
  assert (Hx : is_set (view (st_ctx st) key) (dom (re_NetAdds r))).
  { rewrite Hv. unfold is_set. simpl. rewrite Ho. simpl. auto. }
  pose proof (sadd_spec key [m] st _ Hh Hx ltac:(done)) as Hs.
  unfold new_members in Hs. rewrite filter_cons_True, filter_nil in Hs by by rewrite not_elem_of_dom.
  by replace (dom (re_NetAdds r) ∪ {[ m ]}) with (dom (re_NetAdds r) ∪ list_to_set [m]) by set_solver.
Qed.
End Properties.

(** ** Examples *)

Module SetExample.
Import RefEngine.
#[local] Instance sorted_order : RangeOrder := λ X, elements X.
#[local] Instance sorted_order_laws : RangeOrderLaws.
Proof. by intros X. Qed.
#[local] Instance zero_rand : Rand := λ _ _, 0.
#[local] Instance zero_rand_laws : RandLaws.
Proof. intros i n Hn. unfold rand_IntN, zero_rand. lia. Qed.

Definition ab : ReducedEffect :=
  mkReduced INSERT_OP KEYED TYPE_SET None {[ str "a" := Raw (str "a"); str "b" := Raw (str "b") ]} [].
Definition AB : gset bytes := {[ str "a"; str "b" ]}.
Definition start : St :=
  mkSt (holding {[ str "s" := ab ]}) (NewWriter []) [].

Lemma s_is_set : is_set (view (st_ctx start) (str "s")) AB.
Proof. vm_compute. split; [reflexivity|by left]. Qed.
Lemma t_is_set : is_set (view (st_ctx start) (str "t")) ∅.
Proof. vm_compute. reflexivity. Qed.

Lemma sadd_correct_witness :
  ∃ runner, handleSAdd [str "s"; str "b"; str "c"] = Accept [str "s"] runner ∧
    (∀ X, is_set (view (st_ctx start) (str "s")) X →
       let Y := X ∪ list_to_set [str "b"; str "c"] in
       ∃ n, finishes runner start (WriteInteger n (st_w start)) (only (st_ctx start) (str "s") Y) ∧
            (NoDup [str "b"; str "c"] → n = Z.of_nat (size Y) - Z.of_nat (size X))) ∧
    (not_set (view (st_ctx start) (str "s")) →
       finishes runner start (WriteWrongType (st_w start)) (same (st_ctx start))).
Proof. apply (sadd_correct (str "s") (str "b") [str "c"] start). exact I. Defined.

Lemma srem_correct_witness :
  ∃ runner, handleSRem [str "s"; str "b"; str "c"] = Accept [str "s"] runner ∧
    (∀ X, is_set (view (st_ctx start) (str "s")) X →
       let Y := X ∖ list_to_set [str "b"; str "c"] in
       finishes runner start (WriteInteger (Z.of_nat (size X) - Z.of_nat (size Y)) (st_w start))
         (only (st_ctx start) (str "s") Y)) ∧
    (not_set (view (st_ctx start) (str "s")) →
       finishes runner start (WriteWrongType (st_w start)) (same (st_ctx start))).
Proof.
  apply (srem_correct (str "s") (str "b") [str "c"] start); [exact I|].
  apply (bool_decide_unpack _). vm_compute. exact I.
Defined.

Lemma smove_correct_witness :
  ∃ runner, handleSMove [str "s"; str "t"; str "a"] = Accept [str "s"; str "t"] runner ∧
    if decide (str "a" ∈ AB)
    then finishes runner start (WriteInteger 1 (st_w start))
           (moved (st_ctx start) (str "s") (str "t") (str "a") AB ∅)
    else finishes runner start (WriteInteger 0 (st_w start)) (same (st_ctx start)).
Proof.
  apply (smove_correct (str "s") (str "t") (str "a") start AB ∅); [exact I|exact s_is_set|exact t_is_set].
Defined.

Lemma spop_correct_witness :
  ∃ one many, handleSPop [str "s"] = Accept [str "s"] one ∧
    handleSPop [str "s"; str "2"] = Accept [str "s"] many ∧
    (∃ popped, a_choice AB 1 popped ∧ finishes one start (pop_reply false popped (st_w start))
       (only (st_ctx start) (str "s") (AB ∖ list_to_set popped))) ∧
    (∃ popped, a_choice AB 2 popped ∧ finishes many start (pop_reply true popped (st_w start))
       (only (st_ctx start) (str "s") (AB ∖ list_to_set popped))).
Proof.
  apply (spop_correct (str "s") (str "2") 2 start AB); [exact I|exact s_is_set|reflexivity|lia|lia].
Defined.

Lemma srandmember_correct_witness :
  ∃ one many, handleSRandMember [str "s"] = Accept [str "s"] one ∧
    handleSRandMember [str "s"; str "-3"] = Accept [str "s"] many ∧
    (∃ picked, a_pick AB 1 picked ∧
       finishes one start (pop_reply false picked (st_w start)) (same (st_ctx start))) ∧
    (∃ picked, a_pick AB (-3) picked ∧
       finishes many start (pop_reply true picked (st_w start)) (same (st_ctx start))).
Proof.
  apply (srandmember_correct (str "s") (str "-3") (-3) start AB);
    [exact I|exact s_is_set|reflexivity|zlia|zlia].
Defined.

Lemma sources : are_sets (st_ctx start) [str "s"; str "t"] [AB; ∅].
Proof. constructor; [exact s_is_set|]. constructor; [exact t_is_set|constructor]. Qed.

Lemma set_algebra_correct_witness :
  ∃ ri ru rd, handleSInter [str "s"; str "t"] = Accept [str "s"; str "t"] ri ∧
    handleSUnion [str "s"; str "t"] = Accept [str "s"; str "t"] ru ∧
    handleSDiff [str "s"; str "t"] = Accept [str "s"; str "t"] rd ∧
    finishes ri start (members_reply (inter_of [AB; ∅]) (st_w start)) (same (st_ctx start)) ∧
    finishes ru start (members_reply (⋃ [AB; ∅]) (st_w start)) (same (st_ctx start)) ∧
    finishes rd start (members_reply (diff_of [AB; ∅]) (st_w start)) (same (st_ctx start)) ∧
    finishes (sintercard_runner [str "s"; str "t"] 0) start
      (WriteInteger (limited 0 (Z.of_nat (size (inter_of [AB; ∅])))) (st_w start)) (same (st_ctx start)).
Proof.
  apply (set_algebra_correct (str "s") [str "t"] [AB; ∅] start 0); [exact I|exact sources|lia].
Defined.

Lemma set_store_correct_witness :
  let args := [str "s"; str "s"; str "t"] in
  let stores runner R := finishes runner start (WriteInteger (Z.of_nat (size R)) (st_w start))
                           (only (st_ctx start) (str "s") R) in
  ∃ ri ru rd, handleSInterStore args = Accept args ri ∧ handleSUnionStore args = Accept args ru ∧
    handleSDiffStore args = Accept args rd ∧
    stores ri (inter_of [AB; ∅]) ∧ stores ru (⋃ [AB; ∅]) ∧ stores rd (diff_of [AB; ∅]).
Proof.
  apply (set_store_correct (str "s") (str "s") [str "t"] [AB; ∅] start); [exact I|exact sources].
Defined.
End SetExample.
