(* ===== verification/Strings.v ===== *)
(** * String commands

    src/redis/str/strings.go with the option helpers of src/redis/str/helpers.go.
    A string is a scalar of the key: bytes, or the integer or float an additive
    effect leaves, which is printed on reading; a bitmap is read as the bytes it
    stands for.

    [time.Now] is read by the validation, possibly once per option, and once by
    the runner; the readings are parameters ([WallClock]).  The counters of the
    server statistics are not modelled. *)

From Stdlib Require Import SpecFloat.
From S2P Require Import Prelude GoBytes Strconv Floats Commands Writer Engine Bitmap Lcs.

Local Open Scope Z_scope.

(** The wall clock in nanoseconds: what the validation reads when [n] arguments
    are left to parse, what the runner reads, and what a loop in it reads when
    [n] turns are left. *)
Class WallClock := { valid_now : nat → Timestamp; run_now : Timestamp; loop_now : nat → Timestamp }.

(** [t.UnixMilli()], for the clock and for any time (it wraps), and
    [time.UnixMilli(ms)]; [d * unit] is int64 arithmetic. *)
Definition UnixMilli (t : Timestamp) : Z := t / 1000000.
Definition Time_UnixMilli (t : Timestamp) : Z := i64 (t / 1000000).
Definition of_millis (ms : Z) : Timestamp := ms * 1000000.
Definition of_seconds (s : Z) : Timestamp := s * 1000000000.
Definition Duration (n unit : Z) : Z := i64 (n * unit).

(** ** Option helpers *)

Definition maxExpireSeconds : Z := 9223372036854775.

Definition validateExpireSeconds (now : Timestamp) (seconds : Z) : bool :=
  if seconds <=? 0 then false
  else if maxExpireSeconds <? seconds then false
  else i64 (seconds * 1000) <=? i64 (MaxInt64 - UnixMilli now).

Definition validateExpireMillis (now : Timestamp) (millis : Z) : bool :=
  if millis <=? 0 then false else millis <=? i64 (MaxInt64 - UnixMilli now).

Definition validateExpireAtSeconds (timestamp : Z) : bool :=
  if timestamp <=? 0 then false else if maxExpireSeconds <? timestamp then false else true.

Definition validateExpireAtMillis (timestamp : Z) : bool := 0 <? timestamp.

Definition validateExpireSecondsRelative (now : Timestamp) (seconds : Z) : bool :=
  if (maxExpireSeconds <? seconds) || (seconds <? - maxExpireSeconds) then false
  else
    let nowMs := UnixMilli now in
    let millis := i64 (seconds * 1000) in
    if (0 <? millis) && (i64 (MaxInt64 - nowMs) <? millis) then false
    else if (millis <? 0) && (nowMs <? i64 (MinInt64 - millis)) then false
    else true.

Definition validateExpireMillisRelative (now : Timestamp) (millis : Z) : bool :=
  let nowMs := UnixMilli now in
  if (0 <? millis) && (i64 (MaxInt64 - nowMs) <? millis) then false
  else if (millis <? 0) && (nowMs <? i64 (MinInt64 - millis)) then false
  else true.

Definition validateExpireAtSecondsRelative (timestamp : Z) : bool :=
  if (maxExpireSeconds <? timestamp) || (timestamp <? - maxExpireSeconds) then false else true.

Definition is_hex (c : Z) : bool :=
  ((48 <=? c) && (c <=? 57)) || ((97 <=? c) && (c <=? 102)) || ((65 <=? c) && (c <=? 70)).
Definition isValidHexDigest (digest : bytes) : bool :=
  if negb (len digest =? 16) then false else forallb is_hex digest.

(** The sixteen digits of a hash, and their comparison without regard to case
    ([strings.EqualFold], which no character outside ASCII changes here). *)
Definition hash_hex (hash : Z) : bytes := hex_encode (be_put 8 hash).
Definition digestEquals (hash : Z) (digest : bytes) : bool :=
  beq (ascii_lower (hash_hex hash)) (ascii_lower digest).

Section Strings.
Context `{Engine} `{Xxh3} `{ParseFloat} `{FormatFloat} `{WallClock}.

(** ** Snapshots and effects *)

(** [shared.ReconstructBytes]: the one reconstructor registered is the bitmaps'.
    [None]: no reconstructor; [Some None]: it panics. *)
Definition ReconstructBytes (snap : ReducedEffect) : option (option bytes) :=
  match re_TypeTag snap with
  | TYPE_BITMAP => Some (reconstructBitmapBytes (Some snap))
  | _ => None
  end.

Definition is_plain_string (r : ReducedEffect) : bool :=
  bool_decide (re_Collection r = SCALAR) &&
  (bool_decide (re_TypeTag r = TYPE_STRING) || bool_decide (re_TypeTag r = TYPE_UNSPECIFIED)).

(** The synthetic snapshot of a reconstructed value; its [Op] is not read. *)
Definition synthetic (data : bytes) (r : ReducedEffect) : ReducedEffect :=
  mkReducedAt INSERT_OP SCALAR TYPE_STRING (Some (Raw data)) ∅ [] (re_ExpiresAt r) ∅.

Definition classify_string (snap : option ReducedEffect) (tips : list Tip) : option KeySnap :=
  match snap with
  | None => Some (mkKeySnap None tips false false)
  | Some r =>
    if bool_decide (re_Op r = REMOVE_OP) then Some (mkKeySnap None tips false false)
    else if is_plain_string r then Some (mkKeySnap snap tips true false)
    else match ReconstructBytes r with
    | Some data => d ← data; Some (mkKeySnap (Some (synthetic d r)) tips true false)
    | None => Some (mkKeySnap None tips true true)
    end
  end.

Definition getStringSnapshot (key : bytes) : M KeySnap :=
  '(snap, tips) ← get_snapshot key;
  or_panic (classify_string snap tips).

Definition emitStringSet (key value : bytes) (tips : list Tip) : M unit :=
  emit (mkEffect key (scalar_insert (Raw value))) tips.
Definition emitStringTypeTag (key : bytes) : M unit :=
  emit (mkEffect key (Effect_Meta (tag_meta TYPE_STRING))) [].
Definition emitStringTTL (key : bytes) (expiresAt : option Timestamp) : M unit :=
  emit (mkEffect key (Effect_Meta (ttl_meta expiresAt))) [].
Definition emitDeleteKey (key : bytes) (tips : list Tip) : M unit :=
  emit (mkEffect key delete_effect) tips.
Definition emitIncrInt (key : bytes) (delta : Z) (tips : list Tip) : M unit :=
  emit (mkEffect key (scalar_add delta)) tips.
Definition scalar_add_float (delta : spec_float) : EffectKind :=
  Effect_Data (mkData INSERT_OP ADDITIVE_FLOAT SCALAR PLACE_NONE [] [] (Some (FloatVal (Float64bits delta)))).
Definition emitIncrFloat (key : bytes) (delta : spec_float) (tips : list Tip) : M unit :=
  emit (mkEffect key (scalar_add_float delta)) tips.
(** [BeginTx] and the Noop that records the read. *)
Definition begin_string (key : bytes) (tips : list Tip) : M unit :=
  _ ← begin_tx; emit (mkEffect key Effect_Noop) tips.

Definition computeExpiresAtMs (expireSeconds expireMillis expireAt expireAtMillis : Z) : option Timestamp :=
  if 0 <? expireSeconds then Some (run_now + Duration expireSeconds 1000000000)
  else if 0 <? expireMillis then Some (run_now + Duration expireMillis 1000000)
  else if 0 <? expireAt then Some (of_seconds expireAt)
  else if 0 <? expireAtMillis then Some (of_millis expireAtMillis)
  else None.

Definition snapshotToRaw (snap : option ReducedEffect) : bytes :=
  match snap ≫= re_Scalar with
  | None => []
  | Some v =>
    match v with
    | Raw _ | Compressed _ => Decompress v
    | IntVal n => FormatInt n
    | FloatVal b => format_float (Float64frombits b)
    end
  end.

Definition snapshotToInt (snap : option ReducedEffect) : option Z :=
  match snap ≫= re_Scalar with
  | None => Some 0
  | Some v =>
    match v with
    | IntVal n => Some n
    | Raw _ | Compressed _ => ParseInt64 (Decompress v)
    | FloatVal _ => None
    end
  end.

Definition snapshotToFloat (snap : option ReducedEffect) : option spec_float :=
  match snap ≫= re_Scalar with
  | None => Some (float64_of 0)
  | Some v =>
    match v with
    | FloatVal b => Some (Float64frombits b)
    | Raw _ | Compressed _ => parse_float (Decompress v)
    | IntVal n => Some (float64_of n)
    end
  end.

(** [snap.GetExpiresAt()], nil for a nil snapshot. *)
Definition expiry_of (snap : option ReducedEffect) : option Timestamp := snap ≫= re_ExpiresAt.

(** The expiry and the type tag that follow a write which keeps both: the
    write loses the expiry, and a new key has no tag. *)
Definition keep_ttl_and_tag (key : bytes) (s : KeySnap) : M unit :=
  _ ← (if ks_exists s && bool_decide (expiry_of (ks_snap s) ≠ None)
       then emitStringTTL key (expiry_of (ks_snap s)) else mret tt);
  if negb (ks_exists s) then emitStringTypeTag key else mret tt.

(** ** Reading *)

(** The steps GET, STRLEN and DIGEST share: the reply for a missing key, for
    another type, and for a value. *)
Definition read_string (key : bytes) (missing : Writer → Writer) (found : bytes → M unit) : M unit :=
  s ← getStringSnapshot key;
  if negb (ks_exists s) then reply missing
  else if ks_wrongType s then reply WriteWrongType
  else found (snapshotToRaw (ks_snap s)).

Definition handleGet (args : list bytes) : Prep :=
  match args with
  | [key] => Accept [key] (read_string key WriteNullBulkString (λ b, write (WriteBulkString b)))
  | _ => Refuse [] (WriteWrongNumArguments (str "get"))
  end.

Definition handleStrLen (args : list bytes) : Prep :=
  match args with
  | [key] => Accept [key] (read_string key WriteZero (λ b, write (WriteInteger (len b))))
  | _ => Refuse [] (WriteWrongNumArguments (str "strlen"))
  end.

Definition handleDigest (args : list bytes) : Prep :=
  match args with
  | [key] => Accept [key]
      (read_string key WriteNullBulkString (λ b, write (WriteBulkString (hash_hex (xxh3_Hash b)))))
  | _ => Refuse [] (WriteWrongNumArguments (str "digest"))
  end.

(** The bytes from [start] to [end], both included. *)
Definition getrange (start stop : Z) (data : bytes) : bytes :=
  let length := len data in
  if (start <? 0) && (stop <? 0) && (stop <? start) then []
  else
    let startIdx := if start <? 0 then i64 (length + start) else start in
    let endIdx := if stop <? 0 then i64 (length + stop) else stop in
    let startIdx := if startIdx <? 0 then 0 else startIdx in
    let endIdx := if endIdx <? 0 then 0 else endIdx in
    let endIdx := if length <=? endIdx then length - 1 else endIdx in
    if (endIdx <? startIdx) || (length <=? startIdx) then []
    else take (Z.to_nat (endIdx + 1 - startIdx)) (drop (Z.to_nat startIdx) data).

Definition handleGetRange (args : list bytes) : Prep :=
  match args with
  | [key; s; e] =>
    match ParseInt64 s, ParseInt64 e with
    | Some start, Some stop => Accept [key]
        (read_string key (WriteBulkString []) (λ data, write (WriteBulkString (getrange start stop data))))
    | _, _ => Refuse [] WriteNotInteger
    end
  | _ => Refuse [] (WriteWrongNumArguments (str "getrange"))
  end.

(** One entry of MGET: wrong types are null; an empty reconstruction is nil. *)
Definition mget_entry (snap : option ReducedEffect) : option (Writer → Writer) :=
  match snap with
  | None => Some WriteNullBulkString
  | Some r =>
    if is_plain_string r then Some (WriteBulkString (snapshotToRaw snap))
    else match ReconstructBytes r with
    | Some data =>
      d ← data;
      Some (match d with [] => WriteNullBulkString | _ => WriteBulkString d end)
    | None => Some WriteNullBulkString
    end
  end.

Definition get_snapshots (ks : list bytes) : M (list (option ReducedEffect)) := λ st,
  match GetSnapshots ks (st_ctx st) with
  | (Ok r, c) => (Next r, mkSt c (st_w st) (st_held st))
  | (Err e, c) => (Return, mkSt c (WriteError e (st_w st)) (st_held st))
  end.

Definition mget_runner (keys : list bytes) : M unit :=
  snapshots ← get_snapshots keys;
  results ← or_panic (mapM mget_entry snapshots);
  _ ← write (WriteArray (len keys));
  for_each results write.

Definition handleMGet (args : list bytes) : Prep :=
  match args with
  | [] => Refuse [] (WriteWrongNumArguments (str "mget"))
  | keys => Accept keys (mget_runner keys)
  end.

(** ** SET *)

Record SetOpts := mkSetOpts {
  so_seconds : Z;
  so_millis : Z;
  so_at : Z;
  so_atMillis : Z;
  so_nx : bool;
  so_xx : bool;
  so_ifeq : bool;
  so_ifne : bool;
  so_ifdeq : bool;
  so_ifdne : bool;
  so_compare : bytes;
  so_keepTTL : bool;
  so_get : bool
}.
Definition no_opts : SetOpts := mkSetOpts 0 0 0 0 false false false false false false [] false false.

(** The number after an expiry option, checked. *)
Definition expire_arg (cmd : string) (validate : Z → bool) (arg : bytes) : result (Writer → Writer) Z :=
  match ParseInt64 arg with
  | None => Err WriteNotInteger
  | Some n =>
    if validate n then Ok n
    else Err (WriteError (str ("ERR invalid expire time in '" +:+ cmd +:+ "' command")))
  end.

(** The four options that take a time, with the check of each and the update of
    the options; [n] arguments are left. *)
Definition expire_option (n : nat) (opt : bytes) : option (Z → bool) :=
  if beq opt (str "EX") then Some (validateExpireSeconds (valid_now n))
  else if beq opt (str "PX") then Some (validateExpireMillis (valid_now n))
  else if beq opt (str "EXAT") then Some validateExpireAtSeconds
  else if beq opt (str "PXAT") then Some validateExpireAtMillis
  else None.

Definition set_expire (opt : bytes) (t : Z) (o : SetOpts) : SetOpts :=
  let '(mkSetOpts s ms a ams nx xx ifeq ifne ifdeq ifdne cv keep get) := o in
  if beq opt (str "EX") then mkSetOpts t ms a ams nx xx ifeq ifne ifdeq ifdne cv keep get
  else if beq opt (str "PX") then mkSetOpts s t a ams nx xx ifeq ifne ifdeq ifdne cv keep get
  else if beq opt (str "EXAT") then mkSetOpts s ms t ams nx xx ifeq ifne ifdeq ifdne cv keep get
  else mkSetOpts s ms a t nx xx ifeq ifne ifdeq ifdne cv keep get.

(** The options that compare the old value. *)
Definition set_compare (opt value : bytes) (o : SetOpts) : option SetOpts :=
  let '(mkSetOpts s ms a ams nx xx ifeq ifne ifdeq ifdne _ keep get) := o in
  if beq opt (str "IFEQ") then Some (mkSetOpts s ms a ams nx xx true ifne ifdeq ifdne value keep get)
  else if beq opt (str "IFNE") then Some (mkSetOpts s ms a ams nx xx ifeq true ifdeq ifdne value keep get)
  else if beq opt (str "IFDEQ") then Some (mkSetOpts s ms a ams nx xx ifeq ifne true ifdne value keep get)
  else if beq opt (str "IFDNE") then Some (mkSetOpts s ms a ams nx xx ifeq ifne ifdeq true value keep get)
  else None.

Definition set_flag (opt : bytes) (o : SetOpts) : option SetOpts :=
  let '(mkSetOpts s ms a ams nx xx ifeq ifne ifdeq ifdne cv keep get) := o in
  if beq opt (str "NX") then Some (mkSetOpts s ms a ams true xx ifeq ifne ifdeq ifdne cv keep get)
  else if beq opt (str "XX") then Some (mkSetOpts s ms a ams nx true ifeq ifne ifdeq ifdne cv keep get)
  else if beq opt (str "KEEPTTL") then Some (mkSetOpts s ms a ams nx xx ifeq ifne ifdeq ifdne cv true get)
  else if beq opt (str "GET") then Some (mkSetOpts s ms a ams nx xx ifeq ifne ifdeq ifdne cv keep true)
  else None.

Fixpoint parse_set_opts (args : list bytes) (o : SetOpts) : result (Writer → Writer) SetOpts :=
  match args with
  | [] => Ok o
  | arg :: args' =>
    let opt := ToUpper arg in
    match expire_option (length args) opt with
    | Some validate =>
      match args' with
      | [] => Err WriteSyntaxError
      | v :: args'' =>
        match expire_arg "set" validate v with
        | Ok t => parse_set_opts args'' (set_expire opt t o)
        | Err e => Err e
        end
      end
    | None =>
      match set_compare opt [] o with
      | Some _ =>
        match args' with
        | [] => Err WriteSyntaxError
        | v :: args'' => parse_set_opts args'' (default o (set_compare opt v o))
        end
      | None =>
        match set_flag opt o with
        | Some o' => parse_set_opts args' o'
        | None => Err WriteSyntaxError
        end
      end
    end
  end.

Definition condCount (o : SetOpts) : Z :=
  Z.b2z (so_nx o) + Z.b2z (so_xx o) + Z.b2z (so_ifeq o) + Z.b2z (so_ifne o) +
  Z.b2z (so_ifdeq o) + Z.b2z (so_ifdne o).

Definition bad_digest : bytes := str "ERR digest must be exactly 16 hexadecimal characters".

(** A condition that does not hold: null, unless GET answers. *)
Definition set_unmet (o : SetOpts) {A} : M A :=
  if so_get o then exit else reply WriteNullBulkString.

Definition check_equal (o : SetOpts) (s : KeySnap) : M unit :=
  if so_ifeq o then
    if negb (ks_exists s) then set_unmet o
    else if ks_wrongType s then reply WriteWrongType
    else if negb (beq (snapshotToRaw (ks_snap s)) (so_compare o)) then set_unmet o
    else mret tt
  else mret tt.

Definition check_not_equal (o : SetOpts) (s : KeySnap) : M unit :=
  if so_ifne o && ks_exists s then
    if ks_wrongType s then reply WriteWrongType
    else if beq (snapshotToRaw (ks_snap s)) (so_compare o) then set_unmet o
    else mret tt
  else mret tt.

Definition check_digest_equal (o : SetOpts) (s : KeySnap) : M unit :=
  if so_ifdeq o then
    if negb (ks_exists s) then set_unmet o
    else if ks_wrongType s then reply WriteWrongType
    else if negb (isValidHexDigest (so_compare o)) then reply (WriteError bad_digest)
    else if negb (digestEquals (xxh3_Hash (snapshotToRaw (ks_snap s))) (so_compare o)) then set_unmet o
    else mret tt
  else mret tt.

Definition check_digest_not_equal (o : SetOpts) (s : KeySnap) : M unit :=
  if so_ifdne o && ks_exists s then
    if ks_wrongType s then reply WriteWrongType
    else if negb (isValidHexDigest (so_compare o)) then reply (WriteError bad_digest)
    else if digestEquals (xxh3_Hash (snapshotToRaw (ks_snap s))) (so_compare o) then set_unmet o
    else mret tt
  else mret tt.

Definition set_body (key value : bytes) (o : SetOpts) (s : KeySnap) : M unit :=
  if so_nx o && ks_exists s then set_unmet o
  else if so_xx o && negb (ks_exists s) then set_unmet o
  else
    _ ← check_equal o s;
    _ ← check_not_equal o s;
    _ ← check_digest_equal o s;
    _ ← check_digest_not_equal o s;
    _ ← emitStringSet key value (ks_tips s);
    let expiresAt :=
      if so_keepTTL o && ks_exists s && bool_decide (ks_snap s ≠ None) then expiry_of (ks_snap s)
      else computeExpiresAtMs (so_seconds o) (so_millis o) (so_at o) (so_atMillis o) in
    _ ← (if bool_decide (expiresAt ≠ None) then emitStringTTL key expiresAt else mret tt);
    _ ← (if negb (ks_exists s) || ks_wrongType s then emitStringTypeTag key else mret tt);
    if so_get o then mret tt else write WriteOK.

(** [defer f] before [m]. *)
Definition deferred (f : Writer → Writer) (m : M unit) : M unit := λ st,
  let '(o, st') := m st in (o, mkSt (st_ctx st') (f (st_w st')) (st_held st')).

Definition set_runner (key value : bytes) (o : SetOpts) : M unit :=
  s ← getStringSnapshot key;
  if so_get o then
    if ks_exists s && negb (ks_wrongType s)
    then deferred (WriteBulkString (snapshotToRaw (ks_snap s))) (set_body key value o s)
    else if ks_wrongType s then reply WriteWrongType
    else deferred WriteNullBulkString (set_body key value o s)
  else set_body key value o s.

Definition handleSet (args : list bytes) : Prep :=
  match args with
  | key :: value :: opts =>
    match parse_set_opts opts no_opts with
    | Err e => Refuse [] e
    | Ok o => if 1 <? condCount o then Refuse [] WriteSyntaxError
              else Accept [key] (set_runner key value o)
    end
  | _ => Refuse [] (WriteWrongNumArguments (str "set"))
  end.

Definition setnx_runner (key value : bytes) : M unit :=
  s ← getStringSnapshot key;
  if ks_exists s then reply WriteZero
  else
    _ ← emitStringSet key value (ks_tips s);
    _ ← emitStringTypeTag key;
    write WriteOne.

Definition handleSetNX (args : list bytes) : Prep :=
  match args with
  | [key; value] => Accept [key] (setnx_runner key value)
  | _ => Refuse [] (WriteWrongNumArguments (str "setnx"))
  end.

(** SETEX and PSETEX, the expiry given. *)
Definition setex_runner (key value : bytes) (expiresAt : option Timestamp) : M unit :=
  _ ← emitStringSet key value [];
  _ ← emitStringTTL key expiresAt;
  _ ← emitStringTypeTag key;
  write WriteOK.

Definition handleSetEX (args : list bytes) : Prep :=
  match args with
  | [key; t; value] =>
    match expire_arg "setex" (validateExpireSeconds (valid_now 3)) t with
    | Ok seconds => Accept [key] (setex_runner key value (computeExpiresAtMs seconds 0 0 0))
    | Err e => Refuse [] e
    end
  | _ => Refuse [] (WriteWrongNumArguments (str "setex"))
  end.

Definition handlePSetEX (args : list bytes) : Prep :=
  match args with
  | [key; t; value] =>
    match expire_arg "psetex" (validateExpireMillis (valid_now 3)) t with
    | Ok millis => Accept [key] (setex_runner key value (computeExpiresAtMs 0 millis 0 0))
    | Err e => Refuse [] e
    end
  | _ => Refuse [] (WriteWrongNumArguments (str "psetex"))
  end.

(** ** GETSET, GETDEL, GETEX *)

Definition getset_runner (key value : bytes) : M unit :=
  s ← getStringSnapshot key;
  if ks_exists s && ks_wrongType s then reply WriteWrongType
  else
    _ ← begin_string key (ks_tips s);
    _ ← emitStringSet key value [];
    _ ← (if negb (ks_exists s) then emitStringTypeTag key else mret tt);
    write (if ks_exists s then WriteBulkString (snapshotToRaw (ks_snap s)) else WriteNullBulkString).

Definition handleGetSet (args : list bytes) : Prep :=
  match args with
  | [key; value] => Accept [key] (getset_runner key value)
  | _ => Refuse [] (WriteWrongNumArguments (str "getset"))
  end.

Definition getdel_runner (key : bytes) : M unit :=
  s ← getStringSnapshot key;
  if negb (ks_exists s) then reply WriteNullBulkString
  else if ks_wrongType s then reply WriteWrongType
  else
    _ ← begin_string key (ks_tips s);
    _ ← emitDeleteKey key [];
    write (WriteBulkString (snapshotToRaw (ks_snap s))).

Definition handleGetDel (args : list bytes) : Prep :=
  match args with
  | [key] => Accept [key] (getdel_runner key)
  | _ => Refuse [] (WriteWrongNumArguments (str "getdel"))
  end.

(** [change]: [None] without option, else the new expiry ([Some None] is
    PERSIST). *)
Definition getex_runner (key : bytes) (change : option (option Timestamp)) : M unit :=
  s ← getStringSnapshot key;
  if negb (ks_exists s) then reply WriteNullBulkString
  else if ks_wrongType s then reply WriteWrongType
  else
    _ ← (match change with
         | Some expiresAt => _ ← begin_string key (ks_tips s); emitStringTTL key expiresAt
         | None => mret tt
         end);
    write (WriteBulkString (snapshotToRaw (ks_snap s))).

(** The expiry of one option with its number. *)
Definition option_expiry (opt : bytes) (t : Z) : option Timestamp :=
  if beq opt (str "EX") then computeExpiresAtMs t 0 0 0
  else if beq opt (str "PX") then computeExpiresAtMs 0 t 0 0
  else if beq opt (str "EXAT") then computeExpiresAtMs 0 0 t 0
  else computeExpiresAtMs 0 0 0 t.

Definition handleGetEx (args : list bytes) : Prep :=
  match args with
  | [] => Refuse [] (WriteWrongNumArguments (str "getex"))
  | [key] => Accept [key] (getex_runner key None)
  | key :: arg :: rest =>
    let opt := ToUpper arg in
    match expire_option (length args) opt with
    | Some validate =>
      match rest with
      | [v] =>
        match expire_arg "getex" validate v with
        | Ok t => Accept [key] (getex_runner key (Some (option_expiry opt t)))
        | Err e => Refuse [] e
        end
      | _ => Refuse [] WriteSyntaxError
      end
    | None =>
      if beq opt (str "PERSIST") then Accept [key] (getex_runner key (Some None))
      else Refuse [] WriteSyntaxError
    end
  end.

(** ** MSET, MSETNX, MSETEX *)

(** The arguments in pairs; [None] when one is left over. *)
Fixpoint pairs (args : list bytes) : option (list (bytes * bytes)) :=
  match args with
  | [] => Some []
  | k :: v :: args' => l ← pairs args'; Some ((k, v) :: l)
  | _ => None
  end.

Definition set_pair (kv : bytes * bytes) : M unit :=
  _ ← emitStringSet (fst kv) (snd kv) [];
  emitStringTypeTag (fst kv).

Definition mset_runner (kvs : list (bytes * bytes)) : M unit :=
  _ ← for_each kvs set_pair;
  write WriteOK.

Definition handleMSet (args : list bytes) : Prep :=
  match pairs args with
  | Some (kv :: kvs) => Accept (fst <$> kv :: kvs) (mset_runner (kv :: kvs))
  | _ => Refuse [] (WriteWrongNumArguments (str "mset"))
  end.

(** The reads of MSETNX, which stop at the first key that has a string. *)
Fixpoint missing_keys (keys : list bytes) : M (list (bytes * list Tip)) :=
  match keys with
  | [] => mret []
  | key :: keys' =>
    s ← getStringSnapshot key;
    match ks_snap s with
    | Some _ => reply WriteZero
    | None => infos ← missing_keys keys'; mret ((key, ks_tips s) :: infos)
    end
  end.

Definition record_reads (infos : list (bytes * list Tip)) : M unit :=
  for_each infos (λ i, emit (mkEffect (fst i) Effect_Noop) (snd i)).

Definition msetnx_runner (kvs : list (bytes * bytes)) : M unit :=
  infos ← missing_keys (fst <$> kvs);
  _ ← begin_tx;
  _ ← record_reads infos;
  _ ← for_each kvs set_pair;
  write WriteOne.

Definition handleMSetNX (args : list bytes) : Prep :=
  match pairs args with
  | Some (kv :: kvs) => Accept (fst <$> kv :: kvs) (msetnx_runner (kv :: kvs))
  | _ => Refuse [] (WriteWrongNumArguments (str "msetnx"))
  end.

Record MSetOpts := mkMSetOpts {
  mo_seconds : Z;
  mo_millis : Z;
  mo_at : Z;
  mo_atMillis : Z;
  mo_nx : bool;
  mo_xx : bool;
  mo_keepTTL : bool;
  mo_count : Z
}.

(** The number after an expiry option of MSETEX. *)
Definition positive_arg (arg : bytes) : option Z :=
  match ParseInt64 arg with Some n => if n <=? 0 then None else Some n | None => None end.

Fixpoint parse_mset_opts (args : list bytes) (o : MSetOpts) : result (Writer → Writer) MSetOpts :=
  match args with
  | [] => Ok o
  | arg :: args' =>
    let opt := ToUpper arg in
    let '(mkMSetOpts s ms a ams nx xx keep n) := o in
    if beq opt (str "EX") || beq opt (str "PX") || beq opt (str "EXAT") || beq opt (str "PXAT") then
      match args' with
      | [] => Err WriteSyntaxError
      | v :: args'' =>
        match positive_arg v with
        | None => Err WriteNotInteger
        | Some t =>
          parse_mset_opts args''
            (if beq opt (str "EX") then mkMSetOpts t ms a ams nx xx keep (n + 1)
             else if beq opt (str "PX") then mkMSetOpts s t a ams nx xx keep (n + 1)
             else if beq opt (str "EXAT") then mkMSetOpts s ms t ams nx xx keep (n + 1)
             else mkMSetOpts s ms a t nx xx keep (n + 1))
        end
      end
    else if beq opt (str "NX") then parse_mset_opts args' (mkMSetOpts s ms a ams true xx keep n)
    else if beq opt (str "XX") then parse_mset_opts args' (mkMSetOpts s ms a ams nx true keep n)
    else if beq opt (str "KEEPTTL") then parse_mset_opts args' (mkMSetOpts s ms a ams nx xx true (n + 1))
    else Err WriteSyntaxError
  end.

Definition string_snapshots (keys : list bytes) : M (list (bytes * KeySnap)) :=
  (fix go keys :=
     match keys with
     | [] => mret []
     | key :: keys' => s ← getStringSnapshot key; infos ← go keys'; mret ((key, s) :: infos)
     end) keys.

Definition is_nil {A} (o : option A) : bool := match o with None => true | _ => false end.

(** One key of MSETEX; [ttl] is the expiry computed for all, [s] the key's read. *)
Definition msetex_pair (keep : bool) (ttl : option Timestamp) (kv : bytes * bytes) (s : KeySnap) : M unit :=
  _ ← set_pair kv;
  let ttl := if keep && negb (is_nil (ks_snap s)) then expiry_of (ks_snap s) else ttl in
  if negb (is_nil ttl) then emitStringTTL (fst kv) ttl else mret tt.

Definition msetex_runner (kvs : list (bytes * bytes)) (o : MSetOpts) : M unit :=
  infos ← string_snapshots (fst <$> kvs);
  if mo_nx o && existsb (λ i, negb (is_nil (ks_snap (snd i)))) infos then reply WriteZero
  else if mo_xx o && existsb (λ i, is_nil (ks_snap (snd i))) infos then reply WriteZero
  else
    _ ← (if mo_nx o || mo_xx o
         then _ ← begin_tx; record_reads ((λ i, (fst i, ks_tips (snd i))) <$> infos)
         else mret tt);
    let expiresAt := computeExpiresAtMs (mo_seconds o) (mo_millis o) (mo_at o) (mo_atMillis o) in
    _ ← for_each (zip kvs infos) (λ p, msetex_pair (mo_keepTTL o) expiresAt (fst p) (snd (snd p)));
    write (if mo_nx o || mo_xx o then WriteOne else WriteOK).

Definition handleMSetEX (args : list bytes) : Prep :=
  match args with
  | n :: rest =>
    if len args <? 3 then Refuse [] (WriteWrongNumArguments (str "msetex"))
    else
      match ParseInt64 n with
      | None => Refuse [] (WriteError (str "ERR invalid numkeys value"))
      | Some numKeys =>
        if (numKeys <=? 0) || (2147483647 <? numKeys)
        then Refuse [] (WriteError (str "ERR invalid numkeys value"))
        else if len args <? 1 + numKeys * 2
        then Refuse [] (WriteError (str "ERR wrong number of key-value pairs"))
        else
          let kvEnd := Z.to_nat (numKeys * 2) in
          match parse_mset_opts (drop kvEnd rest) (mkMSetOpts 0 0 0 0 false false false 0) with
          | Err e => Refuse [] e
          | Ok o =>
            if (mo_nx o && mo_xx o) || (1 <? mo_count o) then Refuse [] WriteSyntaxError
            else
              let kvs := default [] (pairs (take kvEnd rest)) in
              Accept (fst <$> kvs) (msetex_runner kvs o)
          end
      end
  | [] => Refuse [] (WriteWrongNumArguments (str "msetex"))
  end.

(** ** Counters *)

Definition overflow_error : bytes := str "ERR increment or decrement would overflow".

Definition incrBy (key : bytes) (delta : Z) : M unit :=
  s ← getStringSnapshot key;
  if ks_wrongType s then reply WriteWrongType
  else match snapshotToInt (ks_snap s) with
  | None => reply WriteNotInteger
  | Some current =>
    let newValue := i64 (current + delta) in
    if ((0 <? delta) && (newValue <? current)) || ((delta <? 0) && (current <? newValue))
    then reply (WriteError overflow_error)
    else
      _ ← emitIncrInt key delta (ks_tips s);
      _ ← keep_ttl_and_tag key s;
      write (WriteInteger newValue)
  end.

Definition handleIncr (args : list bytes) : Prep :=
  match args with
  | [key] => Accept [key] (incrBy key 1)
  | _ => Refuse [] (WriteWrongNumArguments (str "incr"))
  end.
Definition handleDecr (args : list bytes) : Prep :=
  match args with
  | [key] => Accept [key] (incrBy key (-1))
  | _ => Refuse [] (WriteWrongNumArguments (str "decr"))
  end.
Definition handleIncrBy (args : list bytes) : Prep :=
  match args with
  | [key; d] =>
    match ParseInt64 d with
    | None => Refuse [] WriteNotInteger
    | Some delta => Accept [key] (incrBy key delta)
    end
  | _ => Refuse [] (WriteWrongNumArguments (str "incrby"))
  end.
Definition handleDecrBy (args : list bytes) : Prep :=
  match args with
  | [key; d] =>
    match ParseInt64 d with
    | None => Refuse [] WriteNotInteger
    | Some delta =>
      if delta =? MinInt64 then Refuse [] (WriteError (str "ERR value is out of range"))
      else Accept [key] (incrBy key (- delta))
    end
  | _ => Refuse [] (WriteWrongNumArguments (str "decrby"))
  end.

Definition not_float : bytes := str "ERR value is not a valid float".
Definition not_finite : bytes := str "ERR increment would produce NaN or Infinity".

Definition incrbyfloat_runner (key : bytes) (delta : spec_float) : M unit :=
  s ← getStringSnapshot key;
  if ks_wrongType s then reply WriteWrongType
  else match snapshotToFloat (ks_snap s) with
  | None => reply (WriteError not_float)
  | Some current =>
    let newValue := float_add current delta in
    if IsNaN newValue || IsInf newValue then reply (WriteError not_finite)
    else
      _ ← emitIncrFloat key delta (ks_tips s);
      _ ← keep_ttl_and_tag key s;
      write (WriteBulkString (format_float newValue))
  end.

Definition handleIncrByFloat (args : list bytes) : Prep :=
  match args with
  | [key; d] =>
    match parse_float d with
    | None => Refuse [] (WriteError not_float)
    | Some delta =>
      if IsNaN delta || IsInf delta then Refuse [] (WriteError not_finite)
      else Accept [key] (incrbyfloat_runner key delta)
    end
  | _ => Refuse [] (WriteWrongNumArguments (str "incrbyfloat"))
  end.

(** ** APPEND and SETRANGE *)

Definition append_runner (key appendData : bytes) : M unit :=
  s ← getStringSnapshot key;
  if ks_wrongType s then reply WriteWrongType
  else
    let currentData := if ks_exists s then snapshotToRaw (ks_snap s) else [] in
    let newData := currentData ++ appendData in
    _ ← emitStringSet key newData (ks_tips s);
    _ ← keep_ttl_and_tag key s;
    write (WriteInteger (len newData)).

Definition handleAppend (args : list bytes) : Prep :=
  match args with
  | [key; appendData] => Accept [key] (append_runner key appendData)
  | _ => Refuse [] (WriteWrongNumArguments (str "append"))
  end.

(** [copy(data[offset:], value)]. *)
Definition copy_at (offset : Z) (value data : bytes) : bytes :=
  let o := Z.to_nat offset in
  take o data ++ take (length (drop o data)) value ++ drop (o + length value) data.

Definition setrange_runner (key : bytes) (offset : Z) (value : bytes) : M unit :=
  s ← getStringSnapshot key;
  if negb (ks_exists s) && (len value =? 0) then reply (WriteInteger 0)
  else if ks_wrongType s then reply WriteWrongType
  else
    let data := if ks_exists s then snapshotToRaw (ks_snap s) else [] in
    data ← or_panic (grow (offset + len value) data);
    let data := copy_at offset value data in
    _ ← emitStringSet key data (ks_tips s);
    _ ← keep_ttl_and_tag key s;
    write (WriteInteger (len data)).

Definition too_long : bytes := str "ERR string exceeds maximum allowed size (proto-max-bulk-len)".

(** [protoMaxBulkLen]: the value of the configuration when the command is
    checked. *)
Definition handleSetRange (protoMaxBulkLen : Z) (args : list bytes) : Prep :=
  match args with
  | [key; o; value] =>
    match ParseInt64 o with
    | None => Refuse [] (WriteError (str "ERR offset is out of range"))
    | Some offset =>
      if offset <? 0 then Refuse [] (WriteError (str "ERR offset is out of range"))
      else if protoMaxBulkLen <? offset then Refuse [] (WriteError too_long)
      else if protoMaxBulkLen <? i64 (offset + len value) then Refuse [] (WriteError too_long)
      else Accept [key] (setrange_runner key offset value)
    end
  | _ => Refuse [] (WriteWrongNumArguments (str "setrange"))
  end.

(** ** LCS *)

Record LcsOpts := mkLcsOpts { lo_len : bool; lo_idx : bool; lo_withMatchLen : bool; lo_min : Z }.

Fixpoint parse_lcs_opts (args : list bytes) (o : LcsOpts) : result (Writer → Writer) LcsOpts :=
  match args with
  | [] => Ok o
  | arg :: args' =>
    let opt := ToUpper arg in
    let '(mkLcsOpts l i wm mn) := o in
    if beq opt (str "LEN") then parse_lcs_opts args' (mkLcsOpts true i wm mn)
    else if beq opt (str "IDX") then parse_lcs_opts args' (mkLcsOpts l true wm mn)
    else if beq opt (str "WITHMATCHLEN") then parse_lcs_opts args' (mkLcsOpts l i true mn)
    else if beq opt (str "MINMATCHLEN") then
      match args' with
      | [] => Err WriteSyntaxError
      | v :: args'' =>
        match ParseInt64 v with
        | None => Err WriteNotInteger
        | Some val => if val <? 0 then Err WriteNotInteger
                      else parse_lcs_opts args'' (mkLcsOpts l i wm val)
        end
      end
    else Err WriteSyntaxError
  end.

Definition write_match (withMatchLen : bool) (m : lcsMatch) (w : Writer) : Writer :=
  let w := WriteArray (if withMatchLen then 3 else 2) w in
  let w := WriteInteger (end1 m) (WriteInteger (start1 m) (WriteArray 2 w)) in
  let w := WriteInteger (end2 m) (WriteInteger (start2 m) (WriteArray 2 w)) in
  if withMatchLen then WriteInteger (m_length m) w else w.

Definition write_lcs (o : LcsOpts) (lcsResult : bytes) (lcsLen : Z) (matches : list lcsMatch) (w : Writer) :
    Writer :=
  if lo_len o && negb (lo_idx o) then WriteInteger lcsLen w
  else if lo_idx o then
    let filtered := filter (λ m, (lo_min o <=? m_length m) = true) matches in
    let w := WriteBulkString (str "matches") (WriteArray 4 w) in
    let w := foldl (λ w m, write_match (lo_withMatchLen o) m w) (WriteArray (len filtered) w) filtered in
    WriteInteger lcsLen (WriteBulkString (str "len") w)
  else WriteBulkString lcsResult w.

Definition lcs_runner (key1 key2 : bytes) (o : LcsOpts) : M unit :=
  s1 ← getStringSnapshot key1;
  if ks_wrongType s1 then reply WriteWrongType
  else
    let data1 := if ks_exists s1 then snapshotToRaw (ks_snap s1) else [] in
    s2 ← getStringSnapshot key2;
    if ks_wrongType s2 then reply WriteWrongType
    else
      let data2 := if ks_exists s2 then snapshotToRaw (ks_snap s2) else [] in
      r ← or_panic (computeLCS data1 data2);
      let '(lcsResult, lcsLen, matches) := r in
      write (write_lcs o lcsResult lcsLen matches).

Definition handleLcs (args : list bytes) : Prep :=
  match args with
  | key1 :: key2 :: opts =>
    match parse_lcs_opts opts (mkLcsOpts false false false 0) with
    | Err e => Refuse [] e
    | Ok o => Accept [key1; key2] (lcs_runner key1 key2 o)
    end
  | _ => Refuse [] (WriteWrongNumArguments (str "lcs"))
  end.

End Strings.
