(* ===== verification/Keys.v ===== *)
(** * Key commands

    src/redis/str/keys.go: DEL, DELEX, EXISTS, RENAME, RENAMENX, COPY, MOVE and
    TYPE, which act on keys of any type.  A stream keeps its consumer groups and
    producers under keys of its own, named after the stream's; they are deleted
    and copied with it. *)

From Stdlib Require Import SpecFloat.
From S2P Require Import Prelude GoBytes Strconv Floats Commands Writer Engine Sets Strings.

Local Open Scope Z_scope.

Section Keys.
Context `{Engine} `{Xxh3} `{FormatFloat} `{RangeOrder}.

(** ** Snapshots of any type *)

Definition live_snapshot (snap : option ReducedEffect) : option ReducedEffect :=
  match snap with
  | Some r => if bool_decide (re_Op r = REMOVE_OP) then None else snap
  | None => None
  end.

Definition getAnySnapshot (key : bytes) : M (option ReducedEffect) :=
  '(snap, _) ← get_snapshot key; mret (live_snapshot snap).
Definition getAnySnapshotWithTips (key : bytes) : M (option ReducedEffect * list Tip) :=
  '(snap, tips) ← get_snapshot key; mret (live_snapshot snap, tips).

(** The same calls inside a closure that returns its error. *)
Definition try_any (key : bytes) : Try (option ReducedEffect * list Tip) :=
  '(snap, tips) ← try_get key; mret (live_snapshot snap, tips).
Definition try_delete (key : bytes) (tips : list Tip) : Try unit := try_emit (mkEffect key delete_effect) tips.

(** [for id, elem := range snap.GetNetAdds()]. *)
Definition range_adds (r : ReducedEffect) : list (bytes * Value) :=
  omap (λ id, pair id <$> re_NetAdds r !! id) (range_keys (dom (re_NetAdds r))).

(** ** A value at another key *)

Definition emit_element (destKey : bytes) (r : ReducedEffect) (p : bytes * Value) : Try unit :=
  let '(id, v) := p in
  _ ← try_emit (mkEffect destKey (Effect_Data
        (mkData INSERT_OP (GetMerge r) KEYED PLACE_NONE [] id (Some v)))) [];
  match re_FieldExpires r !! id with
  | Some e => try_emit (mkEffect destKey (Effect_Meta (field_ttl_meta id (Some e)))) []
  | None => mret tt
  end.

Definition emitSnapshotAtKey (destKey : bytes) (r : ReducedEffect) : Try unit :=
  _ ← (match re_Collection r with
       | SCALAR =>
         match re_Scalar r with
         | Some v => try_emit (mkEffect destKey (Effect_Data
             (mkData INSERT_OP (GetMerge r) SCALAR PLACE_NONE [] [] (Some v)))) []
         | None => mret tt
         end
       | KEYED => try_each (range_adds r) (emit_element destKey r)
       | ORDERED => try_each (re_OrderedElements r) (λ el,
           try_emit (mkEffect destKey (Effect_Data
             (mkData INSERT_OP (GetMerge r) ORDERED PLACE_NONE [] (el_Id el) (Some (el_Value el))))) [])
       end);
  _ ← (if negb (bool_decide (re_TypeTag r = TYPE_UNSPECIFIED))
       then try_emit (mkEffect destKey (Effect_Meta (tag_meta (re_TypeTag r)))) [] else mret tt);
  match re_ExpiresAt r with
  | Some e => try_emit (mkEffect destKey (Effect_Meta (ttl_meta (Some e)))) []
  | None => mret tt
  end.

Definition typeTagToString (tag : ValueType) : bytes :=
  match tag with
  | TYPE_STRING | TYPE_HLL | TYPE_BITMAP => str "string"
  | TYPE_LIST => str "list"
  | TYPE_HASH => str "hash"
  | TYPE_SET => str "set"
  | TYPE_ZSET | TYPE_GEO => str "zset"
  | TYPE_STREAM => str "stream"
  | TYPE_UNSPECIFIED | TYPE_JSON | TYPE_JSON_OBJECT | TYPE_JSON_ARRAY => str "none"
  end.

(** ** The keys that belong to a stream *)

(** [key + "\x01" + part + "\x01" + name]. *)
Definition sub_key (key part name : bytes) : bytes := key ++ 1 :: part ++ 1 :: name.
Definition registry_name : bytes := str "__registry__".
Definition group_key (key name : bytes) : bytes := sub_key key (str "g") name.
Definition pel_key (key name : bytes) : bytes := sub_key key (str "pel") name.
Definition producer_key (key name : bytes) : bytes := sub_key key (str "p") name.
Definition cfg_key (key : bytes) : bytes := key ++ 1 :: str "cfg".

(** The names in a registry, none without a snapshot; the snapshot's [Op] is
    not looked at. *)
Definition registered (snap : option ReducedEffect) : list bytes :=
  match snap with Some r => range_keys (dom (re_NetAdds r)) | None => [] end.

Definition cleanupStreamGroups (key : bytes) : Try unit :=
  let groupRegistryKey := group_key key registry_name in
  '(registrySnap, _) ← try_get groupRegistryKey;
  _ ← try_each (registered registrySnap) (λ groupName,
        _ ← try_delete (group_key key groupName) [];
        try_delete (pel_key key groupName) []);
  _ ← try_delete groupRegistryKey [];
  let producerRegistryKey := producer_key key registry_name in
  '(producerSnap, _) ← try_get producerRegistryKey;
  _ ← try_each (registered producerSnap) (λ producerName, try_delete (producer_key key producerName) []);
  _ ← try_delete producerRegistryKey [];
  '(cfgSnap, _) ← try_get (cfg_key key);
  try_each (registered cfgSnap) (λ elemID, try_emit (mkEffect (cfg_key key) (keyed_remove elemID)) []).

Definition copy_sub_key (src dst : bytes) : Try unit :=
  '(snap, _) ← try_get src;
  match snap with Some r => emitSnapshotAtKey dst r | None => mret tt end.

Definition copyStreamGroups (srcKey dstKey : bytes) : Try unit :=
  '(registrySnap, _) ← try_get (group_key srcKey registry_name);
  match registrySnap with
  | None => mret tt
  | Some r =>
    if bool_decide (re_NetAdds r = ∅) then mret tt
    else
      _ ← emitSnapshotAtKey (group_key dstKey registry_name) r;
      try_each (registered registrySnap) (λ groupName,
        _ ← copy_sub_key (group_key srcKey groupName) (group_key dstKey groupName);
        copy_sub_key (pel_key srcKey groupName) (pel_key dstKey groupName))
  end.

(** ** DEL, UNLINK, DELEX, EXISTS *)

(** The loop of DEL, with the count so far. *)
Fixpoint del_keys (keys : list bytes) (deleted : Z) : Try Z :=
  match keys with
  | [] => mret deleted
  | key :: keys' =>
    '(snap, _) ← try_any key;
    match snap with
    | None => del_keys keys' deleted
    | Some _ =>
      _ ← cleanupStreamGroups key;
      _ ← try_delete key [];
      del_keys keys' (deleted + 1)
    end
  end.

Definition del_runner (keys : list bytes) : M unit :=
  deleted ← savepointed (del_keys keys 0);
  write (WriteInteger deleted).

(** [cmdName]: [cmd.Type.String()], for DEL and UNLINK. *)
Definition handleDel (cmdName : bytes) (args : list bytes) : Prep :=
  match args with
  | [] => Refuse [] (WriteWrongNumArguments cmdName)
  | keys => Accept keys (del_runner keys)
  end.

Inductive DelCond : Type := IfEq | IfNe | IfDigestEq | IfDigestNe.
Definition parse_cond (opt : bytes) : option DelCond :=
  if beq opt (str "IFEQ") then Some IfEq
  else if beq opt (str "IFNE") then Some IfNe
  else if beq opt (str "IFDEQ") then Some IfDigestEq
  else if beq opt (str "IFDNE") then Some IfDigestNe
  else None.
Definition on_digest (c : DelCond) : bool :=
  match c with IfDigestEq | IfDigestNe => true | _ => false end.
Definition shouldDelete (c : DelCond) (raw compareValue : bytes) : bool :=
  match c with
  | IfEq => beq raw compareValue
  | IfNe => negb (beq raw compareValue)
  | IfDigestEq => digestEquals (xxh3_Hash raw) compareValue
  | IfDigestNe => negb (digestEquals (xxh3_Hash raw) compareValue)
  end.

Definition delex_runner (key : bytes) (cond : option (DelCond * bytes)) : M unit :=
  match cond with
  | None =>
    snap ← getAnySnapshot key;
    match snap with
    | None => reply WriteZero
    | Some _ => _ ← emitDeleteKey key []; reply WriteOne
    end
  | Some (c, compareValue) =>
    s ← getStringSnapshot key;
    if negb (ks_exists s) then reply WriteZero
    else if ks_wrongType s
    then reply (WriteError (str "ERR DELEX with conditions only supports string values"))
    else if on_digest c && negb (isValidHexDigest compareValue) then reply (WriteError bad_digest)
    else if negb (shouldDelete c (snapshotToRaw (ks_snap s)) compareValue) then reply WriteZero
    else
      _ ← savepointed (
            _ ← try_begin;
            _ ← try_emit (mkEffect key Effect_Noop) (ks_tips s);
            try_delete key []);
      write WriteOne
  end.

Definition handleDelEx (args : list bytes) : Prep :=
  match args with
  | [key] => Accept [key] (delex_runner key None)
  | [key; opt; value] =>
    match parse_cond (ToUpper opt) with
    | Some c => Accept [key] (delex_runner key (Some (c, value)))
    | None => Refuse [] (WriteError (str "ERR Invalid condition for DELEX"))
    end
  | [] => Refuse [] (WriteWrongNumArguments (str "delex"))
  | _ => Refuse [] (WriteError (str "ERR wrong number of arguments for 'delex' command"))
  end.

Fixpoint count_existing (keys : list bytes) (count : Z) : M Z :=
  match keys with
  | [] => mret count
  | key :: keys' =>
    snap ← getAnySnapshot key;
    count_existing keys' (match snap with Some _ => count + 1 | None => count end)
  end.

Definition exists_runner (keys : list bytes) : M unit :=
  count ← count_existing keys 0; write (WriteInteger count).

Definition handleExists (args : list bytes) : Prep :=
  match args with
  | [] => Refuse [] (WriteWrongNumArguments (str "exists"))
  | keys => Accept keys (exists_runner keys)
  end.

(** ** RENAME, RENAMENX, COPY, MOVE, TYPE *)

Definition no_such_key : bytes := str "ERR no such key".
Definition is_stream (snap : option ReducedEffect) : bool :=
  match snap with Some r => bool_decide (re_TypeTag r = TYPE_STREAM) | None => false end.

Definition record_dest (key : bytes) (tips : list Tip) : Try unit :=
  if 0 <? len tips then try_emit (mkEffect key Effect_Noop) tips else mret tt.

Definition rename_tx (key newKey : bytes) (r : ReducedEffect) (tips : list Tip) : Try unit :=
  _ ← try_begin;
  _ ← try_emit (mkEffect key Effect_Noop) tips;
  '(destSnap, destTips) ← try_any newKey;
  _ ← record_dest newKey destTips;
  _ ← try_delete key [];
  _ ← try_delete newKey [];
  _ ← emitSnapshotAtKey newKey r;
  if is_stream (Some r) then
    _ ← (if is_stream destSnap then cleanupStreamGroups newKey else mret tt);
    _ ← copyStreamGroups key newKey;
    cleanupStreamGroups key
  else if is_stream destSnap then cleanupStreamGroups newKey
  else mret tt.

Definition rename_runner (key newKey : bytes) : M unit :=
  '(snap, tips) ← getAnySnapshotWithTips key;
  match snap with
  | None => reply (WriteError no_such_key)
  | Some r =>
    if beq key newKey then reply WriteOK
    else _ ← savepointed (rename_tx key newKey r tips); write WriteOK
  end.

Definition handleRename (args : list bytes) : Prep :=
  match args with
  | [key; newKey] => Accept [key; newKey] (rename_runner key newKey)
  | _ => Refuse [] (WriteWrongNumArguments (str "rename"))
  end.

Definition renamenx_tx (key newKey : bytes) (r : ReducedEffect) (tips destTips : list Tip) : Try unit :=
  _ ← try_begin;
  _ ← try_emit (mkEffect key Effect_Noop) tips;
  _ ← record_dest newKey destTips;
  _ ← try_delete key [];
  _ ← emitSnapshotAtKey newKey r;
  if is_stream (Some r) then
    _ ← copyStreamGroups key newKey;
    cleanupStreamGroups key
  else mret tt.

Definition renamenx_runner (key newKey : bytes) : M unit :=
  '(snap, tips) ← getAnySnapshotWithTips key;
  match snap with
  | None => reply (WriteError no_such_key)
  | Some r =>
    if beq key newKey then reply WriteZero
    else
      '(destSnap, destTips) ← getAnySnapshotWithTips newKey;
      match destSnap with
      | Some _ => reply WriteZero
      | None => _ ← savepointed (renamenx_tx key newKey r tips destTips); write WriteOne
      end
  end.

Definition handleRenameNX (args : list bytes) : Prep :=
  match args with
  | [key; newKey] => Accept [key; newKey] (renamenx_runner key newKey)
  | _ => Refuse [] (WriteWrongNumArguments (str "renamenx"))
  end.

Definition db_out_of_range : bytes := str "ERR DB index is out of range".

Fixpoint parse_copy_opts (args : list bytes) (replace : bool) : result (Writer → Writer) bool :=
  match args with
  | [] => Ok replace
  | arg :: args' =>
    let opt := ToUpper arg in
    if beq opt (str "DB") then
      match args' with
      | [] => Err WriteSyntaxError
      | v :: args'' =>
        match ParseInt64 v with
        | None => Err WriteNotInteger
        | Some dbIndex => if negb (dbIndex =? 0) then Err (WriteError db_out_of_range)
                          else parse_copy_opts args'' replace
        end
      end
    else if beq opt (str "REPLACE") then parse_copy_opts args' true
    else Err WriteSyntaxError
  end.

Definition copy_tx (srcKey dstKey : bytes) (replace : bool) (r : ReducedEffect) : Try unit :=
  _ ← try_begin;
  _ ← (if replace then
         '(destSnap, _) ← try_any dstKey;
         _ ← try_delete dstKey [];
         if is_stream destSnap then cleanupStreamGroups dstKey else mret tt
       else mret tt);
  _ ← emitSnapshotAtKey dstKey r;
  if is_stream (Some r) then copyStreamGroups srcKey dstKey else mret tt.

Definition copy_runner (srcKey dstKey : bytes) (replace : bool) : M unit :=
  '(snap, _) ← getAnySnapshotWithTips srcKey;
  match snap with
  | None => reply WriteZero
  | Some r =>
    _ ← (if negb replace then
           '(destSnap, _) ← getAnySnapshotWithTips dstKey;
           match destSnap with Some _ => reply WriteZero | None => mret tt end
         else mret tt);
    _ ← savepointed (copy_tx srcKey dstKey replace r);
    write WriteOne
  end.

Definition handleCopy (args : list bytes) : Prep :=
  match args with
  | srcKey :: dstKey :: opts =>
    match parse_copy_opts opts false with
    | Err e => Refuse [] e
    | Ok replace => Accept [srcKey; dstKey] (copy_runner srcKey dstKey replace)
    end
  | _ => Refuse [] (WriteWrongNumArguments (str "copy"))
  end.

Definition handleMove (args : list bytes) : Prep :=
  match args with
  | [_; db] =>
    match ParseInt64 db with
    | None => Refuse [] WriteNotInteger
    | Some dbIndex =>
      if negb (dbIndex =? 0) then Refuse [] (WriteError db_out_of_range)
      else Refuse [] (WriteError (str "ERR source and destination objects are the same"))
    end
  | _ => Refuse [] (WriteWrongNumArguments (str "move"))
  end.

Definition type_runner (key : bytes) : M unit :=
  snap ← getAnySnapshot key;
  match snap with
  | None => reply (WriteSimpleString (str "none"))
  | Some r => write (WriteSimpleString (typeTagToString (re_TypeTag r)))
  end.

Definition handleType (args : list bytes) : Prep :=
  match args with
  | [key] => Accept [key] (type_runner key)
  | _ => Refuse [] (WriteWrongNumArguments (str "type"))
  end.

End Keys.

(** * Expiry commands

    src/redis/str/expiry.go with the expiry helpers of src/redis/str/helpers.go:
    EXPIRE, EXPIREAT, PEXPIRE, PEXPIREAT, TTL, PTTL, EXPIRETIME, PEXPIRETIME and
    PERSIST.  Removing what has expired is the engine's part. *)


(** ** Options *)

Record ExpireOpts := mkExpireOpts { eo_nx : bool; eo_xx : bool; eo_gt : bool; eo_lt : bool }.

Fixpoint scan_expire_opts (args : list bytes) (o : ExpireOpts) : result bytes ExpireOpts :=
  match args with
  | [] => Ok o
  | arg :: args' =>
    let opt := ToUpper arg in
    if beq opt (str "NX") then scan_expire_opts args' (mkExpireOpts true (eo_xx o) (eo_gt o) (eo_lt o))
    else if beq opt (str "XX") then scan_expire_opts args' (mkExpireOpts (eo_nx o) true (eo_gt o) (eo_lt o))
    else if beq opt (str "GT") then scan_expire_opts args' (mkExpireOpts (eo_nx o) (eo_xx o) true (eo_lt o))
    else if beq opt (str "LT") then scan_expire_opts args' (mkExpireOpts (eo_nx o) (eo_xx o) (eo_gt o) true)
    else Err (str "ERR Unsupported option " ++ arg)
  end.

Definition parseExpireOptions (args : list bytes) : result bytes ExpireOpts :=
  match scan_expire_opts args (mkExpireOpts false false false false) with
  | Err e => Err e
  | Ok o =>
    if eo_gt o && eo_lt o
    then Err (str "ERR GT and LT options at the same time are not compatible")
    else if eo_nx o && (eo_xx o || eo_gt o || eo_lt o)
    then Err (str "ERR NX and XX, GT or LT options at the same time are not compatible")
    else Ok o
  end.

Definition shouldSetExpire (newExpire : Timestamp) (current : option Timestamp) (o : ExpireOpts) : bool :=
  let hasExpiry := negb (is_nil current) in
  if eo_nx o && hasExpiry then false
  else if eo_xx o && negb hasExpiry then false
  else if eo_gt o && match current with None => true | Some t => newExpire <? t end then false
  else if eo_lt o && match current with None => false | Some t => t <? newExpire end then false
  else true.

(** [d.Seconds()] of a duration, and [t.Sub(u)], which saturates. *)
Definition Duration_Seconds (d : Z) : spec_float :=
  float_add (float64_of (Z.quot d 1000000000))
    (float_div (float64_of (Z.rem d 1000000000)) (float64_of 1000000000)).
Definition saturate (d : Z) : Z := Z.max MinInt64 (Z.min MaxInt64 d).

Section Expiry.
Context `{Engine} `{WallClock}.

(** ** Setting *)

Definition finalExpire (newExpire : Timestamp) (r : ReducedEffect) (o : ExpireOpts) (key : bytes)
    (tips : list Tip) : M unit :=
  if negb (shouldSetExpire newExpire (re_ExpiresAt r) o) then reply WriteZero
  else
    _ ← begin_string key tips;
    _ ← emitStringTTL key (Some newExpire);
    write WriteOne.

(** The runner the four commands share: [past] deletes the key at once. *)
Definition expire_runner (key : bytes) (past : bool) (newExpire : Timestamp) (o : ExpireOpts) : M unit :=
  '(snap, tips) ← getAnySnapshotWithTips key;
  match snap with
  | None => reply WriteZero
  | Some r =>
    if past then _ ← emitDeleteKey key tips; reply WriteOne
    else finalExpire newExpire r o key tips
  end.

(** The checks they share. *)
Definition expire_prep (cmd : string) (args : list bytes) (validate : Z → bool) (run : bytes → Z → ExpireOpts → M unit) :
    Prep :=
  match args with
  | key :: t :: opts =>
    match ParseInt64 t with
    | None => Refuse [] WriteNotInteger
    | Some n =>
      if negb (validate n)
      then Refuse [] (WriteError (str ("ERR invalid expire time in '" +:+ cmd +:+ "' command")))
      else match parseExpireOptions opts with
      | Err e => Refuse [] (WriteError e)
      | Ok o => Accept [key] (run key n o)
      end
    end
  | _ => Refuse [] (WriteWrongNumArguments (str cmd))
  end.

Definition handleExpire (args : list bytes) : Prep :=
  expire_prep "expire" args (validateExpireSecondsRelative (valid_now 0)) (λ key seconds,
    expire_runner key (seconds <? 0) (run_now + Duration seconds 1000000000)).

Definition handleExpireAt (args : list bytes) : Prep :=
  expire_prep "expireat" args validateExpireAtSecondsRelative (λ key timestamp,
    expire_runner key (i64 (timestamp * 1000) <=? UnixMilli run_now) (of_millis (i64 (timestamp * 1000)))).

Definition handlePExpire (args : list bytes) : Prep :=
  expire_prep "pexpire" args (validateExpireMillisRelative (valid_now 0)) (λ key millis,
    expire_runner key (millis <? 0) (of_millis (i64 (UnixMilli run_now + millis)))).

Definition handlePExpireAt (args : list bytes) : Prep :=
  expire_prep "pexpireat" args (λ _, true) (λ key timestamp,
    expire_runner key (timestamp <=? UnixMilli run_now) (of_millis timestamp)).

(** ** Reading *)

(** The steps of the four commands that read an expiry: [-2] without key, [-1]
    without expiry. *)
Definition read_expiry (key : bytes) (found : Timestamp → Writer → Writer) : M unit :=
  snap ← getAnySnapshot key;
  match snap with
  | None => reply (WriteInteger (-2))
  | Some r =>
    match re_ExpiresAt r with
    | None => reply (WriteInteger (-1))
    | Some t => write (found t)
    end
  end.

Definition ttl_reply (unit : Z → Z) (t : Timestamp) : Writer → Writer :=
  let remaining := saturate (t - run_now) in
  if remaining <=? 0 then WriteInteger (-2) else WriteInteger (unit remaining).

Definition handleTTL (args : list bytes) : Prep :=
  match args with
  | [key] => Accept [key] (read_expiry key (ttl_reply (λ d, int64_of_float (Duration_Seconds d))))
  | _ => Refuse [] (WriteWrongNumArguments (str "ttl"))
  end.
Definition handlePTTL (args : list bytes) : Prep :=
  match args with
  | [key] => Accept [key] (read_expiry key (ttl_reply (λ d, Z.quot d 1000000)))
  | _ => Refuse [] (WriteWrongNumArguments (str "pttl"))
  end.

Definition time_reply (unit : Timestamp → Z) (t : Timestamp) : Writer → Writer :=
  if t <? run_now then WriteInteger (-2) else WriteInteger (unit t).

Definition handleExpireTime (args : list bytes) : Prep :=
  match args with
  | [key] => Accept [key] (read_expiry key (time_reply Time_UnixMilli))
  | _ => Refuse [] (WriteWrongNumArguments (str "expiretime"))
  end.
Definition handlePExpireTime (args : list bytes) : Prep :=
  match args with
  | [key] => Accept [key] (read_expiry key (time_reply (λ t, t / 1000000000)))
  | _ => Refuse [] (WriteWrongNumArguments (str "pexpiretime"))
  end.

(** ** Clearing *)

Definition persist_runner (key : bytes) : M unit :=
  '(snap, tips) ← getAnySnapshotWithTips key;
  match snap ≫= re_ExpiresAt with
  | None => reply WriteZero
  | Some _ =>
    _ ← begin_string key tips;
    _ ← emitStringTTL key None;
    write WriteOne
  end.

Definition handlePersist (args : list bytes) : Prep :=
  match args with
  | [key] => Accept [key] (persist_runner key)
  | _ => Refuse [] (WriteWrongNumArguments (str "persist"))
  end.

End Expiry.
