(* ===== verification/Hashes.v ===== *)
(** * Hash commands

    src/redis/hash: core.go, scan.go and getdel.go.  A hash is a keyed
    collection whose elements are named by the fields; HashTtl models ttl.go.

    The glob matcher of HSCAN is the engine package's and a parameter
    ([GlobMatch]); the order of map iteration and the random numbers are those
    of Sets. *)

From Stdlib Require Import SpecFloat.
From S2P Require Import Prelude GoBytes Strconv Floats Commands Writer Engine Sets Strings.

Local Open Scope Z_scope.

(** [crdt.MatchGlobPattern(name, pattern)]. *)
Class GlobMatch := MatchGlobPattern : bytes → bytes → bool.

(** [sort.Strings]. *)
Definition str_le (x y : bytes) : Prop := blt y x = false.
#[global] Instance str_le_dec x y : Decision (str_le x y) := decide (blt y x = false).
Definition sort_Strings (l : list bytes) : list bytes := merge_sort str_le l.

Section Hashes.
Context `{Engine} `{ParseFloat} `{FormatFloat} `{RangeOrder} `{Rand} `{UnicodeCase} `{GlobMatch}.

(** ** Snapshots and effects *)

Definition classify_hash (snap : option ReducedEffect) (tips : list Tip) : KeySnap :=
  match snap with
  | None => mkKeySnap None tips false false
  | Some r =>
    if bool_decide (re_Op r = REMOVE_OP) then mkKeySnap None tips false false
    else if bool_decide (re_Collection r = KEYED) then mkKeySnap snap tips true false
    else if bool_decide (re_Collection r = SCALAR) && bool_decide (re_TypeTag r = TYPE_HASH)
    then mkKeySnap snap tips true false
    else mkKeySnap None tips true true
  end.

Definition getHashSnapshot (key : bytes) : M KeySnap :=
  '(snap, tips) ← get_snapshot key;
  mret (classify_hash snap tips).

Definition emitHashInsert (key field value : bytes) : M unit :=
  emit (mkEffect key (keyed_insert field (Raw value))) [].
Definition emitHashIncrInt (key field : bytes) (delta : Z) : M unit :=
  emit (mkEffect key (keyed_add field delta)) [].
Definition emitHashIncrFloat (key field : bytes) (delta : spec_float) : M unit :=
  emit (mkEffect key (keyed_add_float field delta)) [].
Definition emitHashRemove (key field : bytes) : M unit :=
  emit (mkEffect key (keyed_remove field)) [].
Definition emitHashTypeTag (key : bytes) : M unit :=
  emit (mkEffect key (Effect_Meta (tag_meta TYPE_HASH))) [].
Definition emitHashFieldTTL (key field : bytes) (expiresAt : Timestamp) : M unit :=
  emit (mkEffect key (Effect_Meta (field_ttl_meta field (Some expiresAt)))) [].
Definition emitHashFieldPersist (key field : bytes) : M unit :=
  emit (mkEffect key (Effect_Meta (field_ttl_meta field None))) [].

(** A compressed value is not decompressed here. *)
Definition elementValueBytes (v : Value) : bytes :=
  match v with
  | Raw b => b
  | IntVal n => FormatInt n
  | FloatVal b => format_float (Float64frombits b)
  | Compressed _ => []
  end.

(** [snap.GetNetAdds()], of a nil snapshot too. *)
Definition net_adds (snap : option ReducedEffect) : gmap bytes Value :=
  match snap with Some r => re_NetAdds r | None => ∅ end.

Definition hashFieldValue (snap : option ReducedEffect) (field : bytes) : option bytes :=
  elementValueBytes <$> net_adds snap !! field.

(** The zero [time.Time], year 1. *)
Definition zero_time : Timestamp := -62135596800 * 1000000000.

Definition hashFieldExpiresAt (snap : option ReducedEffect) (field : bytes) : option Timestamp :=
  match snap with
  | None => None
  | Some r =>
    match re_NetAdds r !! field with
    | None => None
    | Some _ => Some (default zero_time (re_FieldExpires r !! field))
    end
  end.

(** ** Reading *)

(** What the reading commands share; the type test precedes the test for a
    missing key in some of them, but a key of another type exists. *)
Definition read_hash (key : bytes) (missing : Writer → Writer) (found : option ReducedEffect → M unit) :
    M unit :=
  s ← getHashSnapshot key;
  if negb (ks_exists s) then reply missing
  else if ks_wrongType s then reply WriteWrongType
  else found (ks_snap s).

Definition handleHGet (args : list bytes) : Prep :=
  match args with
  | [key; field] => Accept [key] (read_hash key WriteNullBulkString (λ snap,
      match hashFieldValue snap field with
      | None => reply WriteNullBulkString
      | Some b => write (WriteBulkString b)
      end))
  | _ => Refuse [] (WriteWrongNumArguments (str "hget"))
  end.

Definition handleHExists (args : list bytes) : Prep :=
  match args with
  | [key; field] => Accept [key] (read_hash key WriteZero (λ snap,
      if has_member snap field then reply WriteOne else write WriteZero))
  | _ => Refuse [] (WriteWrongNumArguments (str "hexists"))
  end.

(** The fields in the order they are visited, with their values. *)
Definition range_fields (snap : option ReducedEffect) : list (bytes * bytes) :=
  omap (λ f, pair f ∘ elementValueBytes <$> net_adds snap !! f) (range_keys (dom (net_adds snap))).

Definition handleHGetAll (args : list bytes) : Prep :=
  match args with
  | [key] => Accept [key] (read_hash key (WriteMap 0) (λ snap,
      _ ← write (WriteMap (Z.of_nat (size (net_adds snap))));
      for_each (range_fields snap) (λ p,
        _ ← write (WriteBulkStringStr (fst p)); write (WriteBulkString (snd p)))))
  | _ => Refuse [] (WriteWrongNumArguments (str "hgetall"))
  end.

Definition handleHKeys (args : list bytes) : Prep :=
  match args with
  | [key] => Accept [key] (read_hash key (WriteArray 0) (λ snap,
      _ ← write (WriteArray (Z.of_nat (size (net_adds snap))));
      for_each (range_fields snap) (λ p, write (WriteBulkStringStr (fst p)))))
  | _ => Refuse [] (WriteWrongNumArguments (str "hkeys"))
  end.

Definition handleHVals (args : list bytes) : Prep :=
  match args with
  | [key] => Accept [key] (read_hash key (WriteArray 0) (λ snap,
      _ ← write (WriteArray (Z.of_nat (size (net_adds snap))));
      for_each (range_fields snap) (λ p, write (WriteBulkString (snd p)))))
  | _ => Refuse [] (WriteWrongNumArguments (str "hvals"))
  end.

(** An empty map answers the integer zero either way. *)
Definition handleHLen (args : list bytes) : Prep :=
  match args with
  | [key] => Accept [key] (read_hash key WriteZero (λ snap,
      write (WriteInteger (Z.of_nat (size (net_adds snap))))))
  | _ => Refuse [] (WriteWrongNumArguments (str "hlen"))
  end.

Definition handleHStrLen (args : list bytes) : Prep :=
  match args with
  | [key; field] => Accept [key] (read_hash key WriteZero (λ snap,
      match hashFieldValue snap field with
      | None => reply WriteZero
      | Some b => write (WriteInteger (len b))
      end))
  | _ => Refuse [] (WriteWrongNumArguments (str "hstrlen"))
  end.

Definition bulk_or_null (o : option bytes) : Writer → Writer :=
  match o with Some b => WriteBulkString b | None => WriteNullBulkString end.

(** [n] times the same reply, after an array header. *)
Definition array_of (f : Writer → Writer) (n : nat) (w : Writer) : Writer :=
  Nat.iter n f (WriteArray (Z.of_nat n) w).

Definition hmget_runner (key : bytes) (fields : list bytes) : M unit :=
  read_hash key (array_of WriteNullBulkString (length fields)) (λ snap,
    _ ← write (WriteArray (len fields));
    for_each fields (λ f, write (bulk_or_null (hashFieldValue snap f)))).

Definition handleHMGet (args : list bytes) : Prep :=
  match args with
  | key :: f :: fs => Accept [key] (hmget_runner key (f :: fs))
  | _ => Refuse [] (WriteWrongNumArguments (str "hmget"))
  end.

(** ** Writing *)

(** A key that did not exist gets its tag after its first fields. *)
Definition tag_new_hash (key : bytes) (s : KeySnap) : M unit :=
  if negb (ks_exists s) then emitHashTypeTag key else mret tt.

(** The loop of HSET, with the count of fields not in the snapshot. *)
Fixpoint set_fields (key : bytes) (snap : option ReducedEffect) (added : Z) (fvs : list (bytes * bytes)) : M Z :=
  match fvs with
  | [] => mret added
  | (field, value) :: fvs' =>
    let added := if has_member snap field then added else added + 1 in
    _ ← emitHashInsert key field value;
    set_fields key snap added fvs'
  end.

Definition hset_runner (key : bytes) (fvs : list (bytes * bytes)) : M unit :=
  s ← getHashSnapshot key;
  if ks_wrongType s then reply WriteWrongType
  else
    added ← set_fields key (ks_snap s) 0 fvs;
    _ ← tag_new_hash key s;
    write (WriteInteger added).

Definition handleHSet (args : list bytes) : Prep :=
  match args with
  | key :: rest =>
    match pairs rest with
    | Some (fv :: fvs) => Accept [key] (hset_runner key (fv :: fvs))
    | _ => Refuse [] (WriteWrongNumArguments (str "hset"))
    end
  | [] => Refuse [] (WriteWrongNumArguments (str "hset"))
  end.

Definition hmset_runner (key : bytes) (fvs : list (bytes * bytes)) : M unit :=
  s ← getHashSnapshot key;
  if ks_wrongType s then reply WriteWrongType
  else
    _ ← for_each fvs (λ fv, emitHashInsert key (fst fv) (snd fv));
    _ ← tag_new_hash key s;
    write WriteOK.

Definition handleHMSet (args : list bytes) : Prep :=
  match args with
  | key :: rest =>
    match pairs rest with
    | Some (fv :: fvs) => Accept [key] (hmset_runner key (fv :: fvs))
    | _ => Refuse [] (WriteWrongNumArguments (str "hmset"))
    end
  | [] => Refuse [] (WriteWrongNumArguments (str "hmset"))
  end.

Definition hsetnx_runner (key field value : bytes) : M unit :=
  s ← getHashSnapshot key;
  if ks_wrongType s then reply WriteWrongType
  else if has_member (ks_snap s) field then reply WriteZero
  else
    _ ← emitHashInsert key field value;
    _ ← tag_new_hash key s;
    write WriteOne.

Definition handleHSetNX (args : list bytes) : Prep :=
  match args with
  | [key; field; value] => Accept [key] (hsetnx_runner key field value)
  | _ => Refuse [] (WriteWrongNumArguments (str "hsetnx"))
  end.

Fixpoint delete_fields (key : bytes) (snap : option ReducedEffect) (deleted : Z) (fields : list bytes) : M Z :=
  match fields with
  | [] => mret deleted
  | f :: fs =>
    if has_member snap f
    then _ ← emitHashRemove key f; delete_fields key snap (deleted + 1) fs
    else delete_fields key snap deleted fs
  end.

Definition hdel_runner (key : bytes) (fields : list bytes) : M unit :=
  read_hash key WriteZero (λ snap,
    deleted ← delete_fields key snap 0 fields;
    write (WriteInteger deleted)).

Definition handleHDel (args : list bytes) : Prep :=
  match args with
  | key :: f :: fs => Accept [key] (hdel_runner key (f :: fs))
  | _ => Refuse [] (WriteWrongNumArguments (str "hdel"))
  end.

(** ** Counters *)

Definition checkAdditionOverflow (a b : Z) : bool :=
  if (0 <? b) && (MaxInt64 - b <? a) then true
  else if (b <? 0) && (a <? MinInt64 - b) then true
  else false.

(** The integer a field holds, zero without the field. *)
Definition current_int (snap : option ReducedEffect) (field : bytes) : option Z :=
  match net_adds snap !! field with
  | None => Some 0
  | Some (IntVal n) => Some n
  | Some v => ParseInt64 (Decompress v)
  end.

Definition hincrby_runner (key field : bytes) (increment : Z) : M unit :=
  s ← getHashSnapshot key;
  if ks_wrongType s then reply WriteWrongType
  else match current_int (ks_snap s) field with
  | None => reply WriteNotInteger
  | Some current =>
    if checkAdditionOverflow current increment then reply (WriteError overflow_error)
    else
      let newValue := i64 (current + increment) in
      _ ← emitHashIncrInt key field increment;
      _ ← tag_new_hash key s;
      write (WriteInteger newValue)
  end.

Definition handleHIncrBy (args : list bytes) : Prep :=
  match args with
  | [key; field; d] =>
    match ParseInt64 d with
    | None => Refuse [] WriteNotInteger
    | Some increment => Accept [key] (hincrby_runner key field increment)
    end
  | _ => Refuse [] (WriteWrongNumArguments (str "hincrby"))
  end.

Definition current_float (snap : option ReducedEffect) (field : bytes) : option spec_float :=
  match net_adds snap !! field with
  | None => Some (float64_of 0)
  | Some (FloatVal b) => Some (Float64frombits b)
  | Some (IntVal n) => Some (float64_of n)
  | Some v => parse_float (Decompress v)
  end.

Definition hincrbyfloat_runner (key field : bytes) (increment : spec_float) : M unit :=
  s ← getHashSnapshot key;
  if ks_wrongType s then reply WriteWrongType
  else match current_float (ks_snap s) field with
  | None => reply (WriteError (str "ERR hash value is not a float"))
  | Some current =>
    let newValue := float_add current increment in
    if IsNaN newValue || IsInf newValue then reply (WriteError not_finite)
    else
      _ ← emitHashIncrFloat key field increment;
      _ ← tag_new_hash key s;
      write (WriteBulkString (format_float newValue))
  end.

Definition handleHIncrByFloat (args : list bytes) : Prep :=
  match args with
  | [key; field; d] =>
    match parse_float d with
    | None => Refuse [] (WriteError not_float)
    | Some increment =>
      if IsNaN increment || IsInf increment then Refuse [] (WriteError (str "ERR value is NaN or Infinity"))
      else Accept [key] (hincrbyfloat_runner key field increment)
    end
  | _ => Refuse [] (WriteWrongNumArguments (str "hincrbyfloat"))
  end.

(** ** HGETDEL *)

Definition optionFields : bytes := str "FIELDS".

Fixpoint getdel_fields (key : bytes) (snap : option ReducedEffect) (fields : list bytes) : M unit :=
  match fields with
  | [] => mret tt
  | f :: fs =>
    _ ← (match hashFieldValue snap f with
         | Some b => _ ← write (WriteBulkString b); emitHashRemove key f
         | None => write WriteNullBulkString
         end);
    getdel_fields key snap fs
  end.

Definition hgetdel_runner (key : bytes) (fields : list bytes) : M unit :=
  s ← getHashSnapshot key;
  if negb (ks_exists s) then reply (array_of WriteNullBulkString (length fields))
  else if ks_wrongType s then reply WriteWrongType
  else
    _ ← begin_tx;
    _ ← emit (mkEffect key Effect_Noop) (ks_tips s);
    _ ← write (WriteArray (len fields));
    getdel_fields key (ks_snap s) fields.

Definition handleHGetDel (args : list bytes) : Prep :=
  match args with
  | key :: kw :: n :: ((f :: fs) as fields) =>
    if negb (beq (strings_ToUpper kw) optionFields)
    then Refuse [] (WriteError (str "ERR mandatory argument FIELDS is missing, or not at the right position"))
    else match ParseInt64 n with
    | None => Refuse [] (WriteError (str "ERR Number of fields must be a positive integer"))
    | Some numFields =>
      if numFields <=? 0 then Refuse [] (WriteError (str "ERR Number of fields must be a positive integer"))
      else if negb (len fields =? numFields)
      then Refuse [] (WriteError (str "ERR The `numfields` parameter must match the number of arguments"))
      else Accept [key] (hgetdel_runner key fields)
    end
  | _ => Refuse [] (WriteWrongNumArguments (str "hgetdel"))
  end.

(** ** HSCAN *)

Fixpoint scan_opts (args : list bytes) (pattern : bytes) (count : Z) : option (bytes * Z) :=
  match args with
  | o :: v :: args' =>
    let opt := ToUpper o in
    if beq opt (str "MATCH") then scan_opts args' v count
    else if beq opt (str "COUNT") then
      match ParseInt64 v with
      | None => None
      | Some c => if c <=? 0 then None else scan_opts args' pattern c
      end
    else scan_opts args' pattern count
  | _ => Some (pattern, count)
  end.

Definition empty_page (w : Writer) : Writer := WriteArray 0 (WriteBulkStringStr (str "0") (WriteArray 2 w)).

(** The page of [matched] at a cursor and the next cursor; [None]: the slice
    bounds are out of range. *)
Definition scan_page (matched : list bytes) (startIdx count : Z) : option (Z * list bytes) :=
  let endIdx := Z.min (i64 (startIdx + count)) (len matched) in
  let next := if len matched <=? endIdx then 0 else endIdx in
  if (0 <=? startIdx) && (startIdx <=? endIdx)
  then Some (next, take (Z.to_nat (endIdx - startIdx)) (drop (Z.to_nat startIdx) matched))
  else None.

Definition matched_fields (snap : option ReducedEffect) (pattern : bytes) : list bytes :=
  sort_Strings (filter (λ f, MatchGlobPattern f pattern = true) (range_keys (dom (net_adds snap)))).

Definition hscan_runner (key : bytes) (cursor : Z) (pattern : bytes) (count : Z) : M unit :=
  read_hash key empty_page (λ snap,
    let matched := matched_fields snap pattern in
    let startIdx := i64 cursor in
    if len matched <=? startIdx then reply empty_page
    else
      '(next, fields) ← or_panic (scan_page matched startIdx count);
      _ ← write (λ w, WriteArray (len fields * 2) (WriteBulkStringStr (FormatInt next) (WriteArray 2 w)));
      for_each fields (λ f,
        _ ← write (WriteBulkStringStr f);
        write (WriteBulkString (default [] (hashFieldValue snap f))))).

Definition handleHScan (args : list bytes) : Prep :=
  match args with
  | key :: c :: opts =>
    match ParseUint64 c with
    | None => Refuse [] (WriteError (str "ERR invalid cursor"))
    | Some cursor =>
      match scan_opts opts (str "*") 10 with
      | None => Refuse [] WriteNotInteger
      | Some (pattern, count) => Accept [key] (hscan_runner key cursor pattern count)
      end
    end
  | _ => Refuse [] (WriteWrongNumArguments (str "hscan"))
  end.

(** ** HRANDFIELD *)

(** One field of the reply, with its value when asked for: a pair of its own
    under RESP3. *)
Definition random_entry (snap : option ReducedEffect) (withValues : bool) (f : bytes) (w : Writer) : Writer :=
  if withValues then
    let w := match w_protocol w with RESP3 => WriteArray 2 w | RESP2 => w end in
    WriteBulkString (default [] (hashFieldValue snap f)) (WriteBulkStringStr f w)
  else WriteBulkStringStr f w.
Definition random_header (withValues : bool) (n : Z) (w : Writer) : Writer :=
  match w_protocol w with
  | RESP2 => WriteArray (if withValues then n * 2 else n) w
  | RESP3 => WriteArray n w
  end.

(** [n] fields drawn with repetition, the [k]-th draw next. *)
Fixpoint draw_fields (k n : nat) (fields : list bytes) (f : bytes → Writer → Writer) : M unit :=
  match n with
  | O => mret tt
  | S n' =>
    field ← or_panic (fields !! Z.to_nat (rand_IntN k (len fields)));
    _ ← write (f field);
    draw_fields (S k) n' fields f
  end.

Definition pick_fields (snap : option ReducedEffect) (count : Z) (returnArray withValues : bool) : M unit :=
  let fields := range_keys (dom (net_adds snap)) in
  if len fields =? 0 then reply (no_member returnArray)
  else if returnArray then
    if 0 <? count then
      let n := Z.min count (len fields) in
      let shuffled := shuffle 0 (length fields - 1) fields in
      _ ← write (random_header withValues n);
      for_each (take (Z.to_nat n) shuffled) (λ f, write (random_entry snap withValues f))
    else
      let absCount := - count in
      _ ← write (random_header withValues absCount);
      draw_fields 0 (Z.to_nat absCount) fields (random_entry snap withValues)
  else draw_fields 0 1 fields WriteBulkStringStr.

Definition hrandfield_runner (key : bytes) (count : Z) (returnArray withValues : bool) : M unit :=
  read_hash key (no_member returnArray) (λ snap, pick_fields snap count returnArray withValues).

Definition hrandfield_count (arg : bytes) : result (Writer → Writer) Z :=
  match ParseInt64 arg with
  | None => Err (WriteError not_an_integer)
  | Some c =>
    if (2147483647 <? c) || (c <? -2147483647) then Err (WriteError (str "ERR value is out of range")) else Ok c
  end.

Definition handleHRandField (args : list bytes) : Prep :=
  match args with
  | [key] => Accept [key] (hrandfield_runner key 1 false false)
  | [key; n] =>
    match hrandfield_count n with
    | Err e => Refuse [] e
    | Ok c => Accept [key] (hrandfield_runner key c true false)
    end
  | [key; n; opt] =>
    match hrandfield_count n with
    | Err e => Refuse [] e
    | Ok c =>
      if negb (beq (strings_ToUpper opt) (str "WITHVALUES")) then Refuse [] WriteSyntaxError
      else Accept [key] (hrandfield_runner key c true true)
    end
  | _ => Refuse [] (WriteWrongNumArguments (str "hrandfield"))
  end.
End Hashes.
