(* ===== verification/HashTtl.v ===== *)
(** * Expiry of hash fields

    src/redis/hash/ttl.go: HEXPIRE, HPEXPIRE, HEXPIREAT, HPEXPIREAT, HTTL,
    HPTTL, HEXPIRETIME, HPEXPIRETIME, HPERSIST, HSETEX and HGETEX. *)

From S2P Require Import Prelude GoBytes Strconv Floats Commands Writer Engine Sets Strings Keys Hashes.

Local Open Scope Z_scope.

(** [time.Unix(sec, 0)], whose seconds since year 1 wrap. *)
Definition time_Unix (sec : Z) : Timestamp :=
  (i64 (sec + 62135596800) - 62135596800) * 1000000000.

(** The errors of the argument parsers; [None] is [errWrongNumArguments]. *)
Definition HErr : Type := option bytes.
Definition herr_text (e : HErr) : bytes := default (str "wrong number of arguments") e.

Definition many_conditions : bytes := str "ERR Multiple condition flags specified".
Definition not_int : bytes := str "ERR value is not an integer or out of range".
Definition few_fields : bytes := str "ERR Parameter `numFields` should be greater than 0".
Definition unknown_argument (arg : bytes) : bytes := str "ERR unknown argument '" ++ arg ++ str "'".

Section HashTtl.
Context `{Engine} `{UnicodeCase} `{WallClock} `{FormatFloat}.

(** ** Arguments *)

(** The flags before FIELDS; the arguments from FIELDS on are left. *)
Fixpoint leading_flags (args : list bytes) (o : ExpireOpts) : result HErr (ExpireOpts * list bytes) :=
  match args with
  | [] => Ok (o, [])
  | a :: rest =>
    let arg := strings_ToUpper a in
    let '(mkExpireOpts nx xx gt lt) := o in
    if beq arg (str "NX") then
      if xx || gt || lt then Err (Some many_conditions) else leading_flags rest (mkExpireOpts true xx gt lt)
    else if beq arg (str "XX") then
      if nx || gt || lt then Err (Some many_conditions) else leading_flags rest (mkExpireOpts nx true gt lt)
    else if beq arg (str "GT") then
      if nx || xx || lt then Err (Some many_conditions) else leading_flags rest (mkExpireOpts nx xx true lt)
    else if beq arg (str "LT") then
      if nx || xx || gt then Err (Some many_conditions) else leading_flags rest (mkExpireOpts nx xx gt true)
    else if beq arg optionFields then Ok (o, args)
    else Err (Some (unknown_argument a))
  end.

Fixpoint trailing_flags (args : list bytes) (o : ExpireOpts) : result HErr ExpireOpts :=
  match args with
  | [] => Ok o
  | a :: rest =>
    let arg := strings_ToUpper a in
    let '(mkExpireOpts nx xx gt lt) := o in
    let any := nx || xx || gt || lt in
    if beq arg (str "NX") then
      if any then Err (Some many_conditions) else trailing_flags rest (mkExpireOpts true xx gt lt)
    else if beq arg (str "XX") then
      if any then Err (Some many_conditions) else trailing_flags rest (mkExpireOpts nx true gt lt)
    else if beq arg (str "GT") then
      if any then Err (Some many_conditions) else trailing_flags rest (mkExpireOpts nx xx true lt)
    else if beq arg (str "LT") then
      if any then Err (Some many_conditions) else trailing_flags rest (mkExpireOpts nx xx gt true)
    else if beq arg optionFields then Err (Some (str "ERR FIELDS keyword specified multiple times"))
    else Err (Some (unknown_argument a))
  end.

(** The number of fields and the fields, with what follows them. *)
Definition counted_fields (n : bytes) (rest : list bytes) : result HErr (list bytes * list bytes) :=
  match ParseInt64 n with
  | None => Err (Some not_int)
  | Some numFields =>
    if numFields <=? 0 then Err (Some few_fields)
    else if len rest <? numFields then Err None
    else Ok (take (Z.to_nat numFields) rest, drop (Z.to_nat numFields) rest)
  end.

(** [args]: those from index 2 on. *)
Definition parseHExpireArgs (args : list bytes) : result HErr (ExpireOpts * list bytes) :=
  match leading_flags args (mkExpireOpts false false false false) with
  | Err e => Err e
  | Ok (o, _ :: n :: rest) =>
    match counted_fields n rest with
    | Err e => Err e
    | Ok (fields, rest') =>
      match trailing_flags rest' o with
      | Err e => Err e
      | Ok o' => Ok (o', fields)
      end
    end
  | Ok _ => Err (Some (str "ERR syntax error"))
  end.

(** [args]: those from index 1 on. *)
Definition parseHTTLArgs (args : list bytes) : result HErr (list bytes) :=
  match args with
  | kw :: n :: rest =>
    if negb (beq (strings_ToUpper kw) optionFields) then Err (Some (unknown_argument kw))
    else match counted_fields n rest with
    | Err e => Err e
    | Ok (fields, []) => Ok fields
    | Ok (fields, extra :: _) => Err (Some (unknown_argument extra))
    end
  | _ => Err None
  end.

(** ** HEXPIRE and its relatives *)

(** A time that has passed removes the fields. *)
Fixpoint expire_now (key : bytes) (snap : option ReducedEffect) (fields : list bytes) : M unit :=
  match fields with
  | [] => mret tt
  | f :: fs =>
    _ ← (match hashFieldExpiresAt snap f with
         | Some _ => _ ← emitHashRemove key f; write (WriteInteger 2)
         | None => write (WriteInteger (-2))
         end);
    expire_now key snap fs
  end.

(** Whether the conditions refuse a field that expires at [current]. *)
Definition field_refused (o : ExpireOpts) (current expiresAt : Timestamp) : bool :=
  if eo_nx o && (zero_time <? current) then true
  else if eo_xx o && (current =? zero_time) then true
  else if eo_gt o && (expiresAt <? current) then true
  else eo_lt o && (current <? expiresAt) && (zero_time <? current).

Fixpoint expire_fields (key : bytes) (snap : option ReducedEffect) (o : ExpireOpts) (expiresAt : Timestamp)
    (fields : list bytes) : M unit :=
  match fields with
  | [] => mret tt
  | f :: fs =>
    _ ← (match hashFieldExpiresAt snap f with
         | None => write (WriteInteger (-2))
         | Some current =>
           if field_refused o current expiresAt then write (WriteInteger 0)
           else _ ← emitHashFieldTTL key f expiresAt; write (WriteInteger 1)
         end);
    expire_fields key snap o expiresAt fs
  end.

Definition handleExpiration (key : bytes) (snap : option ReducedEffect) (o : ExpireOpts) (expiresAt : Timestamp)
    (fields : list bytes) : M unit :=
  _ ← write (WriteArray (len fields));
  expire_fields key snap o expiresAt fields.

Definition hexpire_runner (key : bytes) (fields : list bytes) (o : ExpireOpts) (past : bool) (expiresAt : Timestamp) :
    M unit :=
  read_hash key (array_of (WriteInteger (-2)) (length fields)) (λ snap,
    if past then _ ← write (WriteArray (len fields)); expire_now key snap fields
    else handleExpiration key snap o expiresAt fields).

(** The checks the four commands share. *)
Definition hexpire_prep (cmd : string) (args : list bytes) (run : bytes → Z → list bytes → ExpireOpts → M unit) : Prep :=
  match args with
  | key :: t :: ((_ :: _ :: _ :: _) as rest) =>
    match ParseInt64 t with
    | None => Refuse [] (WriteError not_int)
    | Some n =>
      match parseHExpireArgs rest with
      | Err e => Refuse [] (WriteError (herr_text e))
      | Ok (o, fields) => Accept [key] (run key n fields o)
      end
    end
  | _ => Refuse [] (WriteWrongNumArguments (str cmd))
  end.

Definition handleHExpire (args : list bytes) : Prep :=
  hexpire_prep "hexpire" args (λ key seconds fields o,
    hexpire_runner key fields o (seconds <=? 0) (run_now + Duration seconds 1000000000)).
Definition handleHPExpire (args : list bytes) : Prep :=
  hexpire_prep "hpexpire" args (λ key millis fields o,
    hexpire_runner key fields o (millis <=? 0) (run_now + Duration millis 1000000)).
Definition handleHExpireAt (args : list bytes) : Prep :=
  hexpire_prep "hexpireat" args (λ key unixSeconds fields o,
    hexpire_runner key fields o (time_Unix unixSeconds <? run_now) (time_Unix unixSeconds)).
Definition handleHPExpireAt (args : list bytes) : Prep :=
  hexpire_prep "hpexpireat" args (λ key unixMillis fields o,
    hexpire_runner key fields o (of_millis unixMillis <? run_now) (of_millis unixMillis)).

(** ** Reading an expiry *)

(** The loop the four reading commands share; [shown] gets the expiry and the
    clock's reading in that turn of the loop. *)
Fixpoint field_times (snap : option ReducedEffect) (shown : Timestamp → Timestamp → Z) (fields : list bytes) : M unit :=
  match fields with
  | [] => mret tt
  | f :: fs =>
    _ ← write (WriteInteger
          match hashFieldExpiresAt snap f with
          | None => -2
          | Some t => if t =? zero_time then -1 else shown t (loop_now (length fs))
          end);
    field_times snap shown fs
  end.

Definition httl_prep (cmd : string) (args : list bytes) (run : bytes → list bytes → M unit) : Prep :=
  match args with
  | key :: ((_ :: _ :: _ :: _) as rest) =>
    match parseHTTLArgs rest with
    | Err None => Refuse [] (WriteWrongNumArguments (str cmd))
    | Err (Some e) => Refuse [] (WriteError e)
    | Ok fields => Accept [key] (run key fields)
    end
  | _ => Refuse [] (WriteWrongNumArguments (str cmd))
  end.

Definition times_runner (shown : Timestamp → Timestamp → Z) (key : bytes) (fields : list bytes) : M unit :=
  read_hash key (array_of (WriteInteger (-2)) (length fields)) (λ snap,
    _ ← write (WriteArray (len fields));
    field_times snap shown fields).

(** Seconds rounded up, and whole milliseconds. *)
Definition remaining_seconds (expiresAt now : Timestamp) : Z :=
  let remaining := saturate (expiresAt - now) in
  let seconds := Z.quot remaining 1000000000 in
  if (0 <? remaining) && negb (Z.rem remaining 1000000000 =? 0) then seconds + 1 else seconds.
Definition remaining_millis (expiresAt now : Timestamp) : Z :=
  Z.quot (saturate (expiresAt - now)) 1000000.

Definition handleHTTL (args : list bytes) : Prep := httl_prep "httl" args (times_runner remaining_seconds).
Definition handleHPTTL (args : list bytes) : Prep := httl_prep "hpttl" args (times_runner remaining_millis).
Definition handleHExpireTime (args : list bytes) : Prep :=
  httl_prep "hexpiretime" args (times_runner (λ t _, t / 1000000000)).
Definition handleHPExpireTime (args : list bytes) : Prep :=
  httl_prep "hpexpiretime" args (times_runner (λ t _, Time_UnixMilli t)).

(** ** HPERSIST *)

Fixpoint persist_fields (key : bytes) (snap : option ReducedEffect) (fields : list bytes) : M unit :=
  match fields with
  | [] => mret tt
  | f :: fs =>
    _ ← (match hashFieldExpiresAt snap f with
         | None => write (WriteInteger (-2))
         | Some t =>
           if t =? zero_time then write (WriteInteger (-1))
           else _ ← emitHashFieldPersist key f; write (WriteInteger 1)
         end);
    persist_fields key snap fs
  end.

Definition handleHPersist (args : list bytes) : Prep :=
  httl_prep "hpersist" args (λ key fields,
    read_hash key (array_of (WriteInteger (-2)) (length fields)) (λ snap,
      _ ← write (WriteArray (len fields));
      persist_fields key snap fields)).

(** ** HSETEX and HGETEX *)

Inductive ExpireMode : Type := ModeEX | ModePX | ModeEXAT | ModePXAT.
Definition expire_mode (arg : bytes) : option ExpireMode :=
  if beq arg (str "EX") then Some ModeEX
  else if beq arg (str "PX") then Some ModePX
  else if beq arg (str "EXAT") then Some ModeEXAT
  else if beq arg (str "PXAT") then Some ModePXAT
  else None.

(** [expiresAtMs] as a signed integer: zero without a mode. *)
Definition mode_millis (m : option (ExpireMode * Z)) : Z :=
  match m with
  | None => 0
  | Some (ModeEX, v) => i64 (UnixMilli run_now + i64 (v * 1000))
  | Some (ModePX, v) => i64 (UnixMilli run_now + v)
  | Some (ModeEXAT, v) => i64 (v * 1000)
  | Some (ModePXAT, v) => v
  end.

(** The result of a parser: its value, its error reply, or a panic. *)
Inductive Parsed (A : Type) : Type := Good (a : A) | Bad (e : Writer → Writer) | Boom.
Arguments Good {A} _.
Arguments Bad {A} _.
Arguments Boom {A}.

(** The options: [xo_keep] is KEEPTTL or PERSIST, [xo_fields] what FIELDS
    brought last. *)
Record ExOpts (F : Type) := mkExOpts {
  xo_fnx : bool;
  xo_fxx : bool;
  xo_keep : bool;
  xo_mode : option (ExpireMode * Z);
  xo_fields : option (list F)
}.
Arguments mkExOpts {F} _ _ _ _ _.
Arguments xo_fnx {F} _.
Arguments xo_fxx {F} _.
Arguments xo_keep {F} _.
Arguments xo_mode {F} _.
Arguments xo_fields {F} _.

Definition has_expiry {F} (o : ExOpts F) : bool := negb (is_nil (xo_mode o)) || xo_keep o.

Definition one_condition : bytes := str "ERR Only one of FXX or FNX arguments can be specified for HSETEX".
Definition one_expiry_set : bytes :=
  str "ERR Only one of EX, PX, EXAT, PXAT or KEEPTTL arguments can be specified for HSETEX".
Definition one_expiry_get : bytes :=
  str "ERR Only one of EX, PX, EXAT, PXAT or PERSIST arguments can be specified for HGETEX".

(** The number of fields of FIELDS, and how many arguments follow it. *)
Definition numfields (n : bytes) : result (Writer → Writer) Z :=
  match ParseInt64 n with
  | None => Err (WriteError not_int)
  | Some numFields => if numFields <=? 0 then Err (WriteError (str "ERR invalid number of fields")) else Ok numFields
  end.

(** The loop of HSETEX over what is left of [total] arguments. *)
Fixpoint parse_hsetex (fuel : nat) (total : Z) (args : list bytes) (o : ExOpts (bytes * bytes)) :
    Parsed (ExOpts (bytes * bytes)) :=
  match fuel, args with
  | _, [] => Good o
  | O, _ => Boom
  | S fuel', a :: rest =>
    let arg := strings_ToUpper a in
    let '(mkExOpts fnx fxx keep mode fvs) := o in
    if beq arg (str "FNX") then
      if fnx || fxx then Bad (WriteError one_condition)
      else parse_hsetex fuel' total rest (mkExOpts true fxx keep mode fvs)
    else if beq arg (str "FXX") then
      if fnx || fxx then Bad (WriteError one_condition)
      else parse_hsetex fuel' total rest (mkExOpts fnx true keep mode fvs)
    else match expire_mode arg with
    | Some m =>
      if has_expiry o then Bad (WriteError one_expiry_set)
      else match rest with
      | [] => Bad (WriteWrongNumArguments (str "hsetex"))
      | v :: rest' =>
        match positive_arg v with
        | None => Bad (WriteError (str "ERR invalid expire time in 'hsetex' command"))
        | Some t => parse_hsetex fuel' total rest' (mkExOpts fnx fxx keep (Some (m, t)) fvs)
        end
      end
    | None =>
      if beq arg (str "KEEPTTL") then
        if has_expiry o then Bad (WriteError one_expiry_set)
        else parse_hsetex fuel' total rest (mkExOpts fnx fxx true mode fvs)
      else if beq arg optionFields then
        match rest with
        | [] => Bad (WriteWrongNumArguments (str "hsetex"))
        | n :: rest' =>
          match numfields n with
          | Err e => Bad e
          | Ok numFields =>
            let fieldValuesEnd := i64 (total - len rest' + i64 (numFields * 2)) in
            if total <? fieldValuesEnd then Bad (WriteWrongNumArguments (str "hsetex"))
            else match make_cap 24 (i64 (numFields * 2)) with
            | None => Boom
            | Some _ =>
              let k := Z.to_nat (numFields * 2) in
              parse_hsetex fuel' total (drop k rest')
                (mkExOpts fnx fxx keep mode (pairs (take k rest')))
            end
          end
        end
      else Bad (WriteError (unknown_argument a))
    end
  end.

(** The number after an expiry option of HGETEX. *)
Definition hgetex_time (m : ExpireMode) (v : bytes) : result (Writer → Writer) Z :=
  match ParseInt64 v with
  | None => Err (WriteError not_int)
  | Some t =>
    let limit := match m with ModeEX | ModeEXAT => 2 ^ 46 / 1000 | ModePX | ModePXAT => 2 ^ 46 end in
    if t <? 0 then Err (WriteError (str "ERR invalid expire time, must be >= 0"))
    else if (t =? 0) || (limit <? t) then Err (WriteError (str "ERR invalid expire time in 'hgetex' command"))
    else Ok t
  end.

Fixpoint parse_hgetex (fuel : nat) (total : Z) (args : list bytes) (o : ExOpts bytes) : Parsed (ExOpts bytes) :=
  match fuel, args with
  | _, [] => Good o
  | O, _ => Boom
  | S fuel', a :: rest =>
    let arg := strings_ToUpper a in
    let '(mkExOpts fnx fxx persist mode fields) := o in
    match expire_mode arg with
    | Some m =>
      if has_expiry o then Bad (WriteError one_expiry_get)
      else match rest with
      | [] => Bad (WriteWrongNumArguments (str "hgetex"))
      | v :: rest' =>
        match hgetex_time m v with
        | Err e => Bad e
        | Ok t => parse_hgetex fuel' total rest' (mkExOpts fnx fxx persist (Some (m, t)) fields)
        end
      end
    | None =>
      if beq arg (str "PERSIST") then
        if has_expiry o then Bad (WriteError one_expiry_get)
        else parse_hgetex fuel' total rest (mkExOpts fnx fxx true mode fields)
      else if beq arg optionFields then
        match rest with
        | [] => Bad (WriteWrongNumArguments (str "hgetex"))
        | n :: rest' =>
          match numfields n with
          | Err e => Bad e
          | Ok numFields =>
            let fieldNamesEnd := i64 (total - len rest' + numFields) in
            if total <? fieldNamesEnd then Bad (WriteWrongNumArguments (str "hgetex"))
            else match make_cap 16 numFields with
            | None => Boom
            | Some _ =>
              let k := Z.to_nat numFields in
              parse_hgetex fuel' total (drop k rest') (mkExOpts fnx fxx persist mode (Some (take k rest')))
            end
          end
        end
      else Bad (WriteError (unknown_argument a))
    end
  end.

(** Whether FNX or FXX refuses the write. *)
Definition hsetex_refused (o : ExOpts (bytes * bytes)) (s : KeySnap) (fvs : list (bytes * bytes)) : bool :=
  if negb (xo_fnx o || xo_fxx o) then false
  else if negb (ks_exists s) then xo_fxx o
  else
    let allExist := forallb (λ fv, has_member (ks_snap s) (fst fv)) fvs in
    let noneExist := forallb (λ fv, negb (has_member (ks_snap s) (fst fv))) fvs in
    (xo_fnx o && negb noneExist) || (xo_fxx o && negb allExist).

Definition hsetex_runner (key : bytes) (o : ExOpts (bytes * bytes)) (fvs : list (bytes * bytes)) : M unit :=
  let expiresAtMs := mode_millis (xo_mode o) in
  s ← getHashSnapshot key;
  if ks_wrongType s then reply WriteWrongType
  else if hsetex_refused o s fvs then reply (WriteInteger 0)
  else
    _ ← for_each fvs (λ fv,
          _ ← emitHashInsert key (fst fv) (snd fv);
          if negb (xo_keep o) && (0 <? u64 expiresAtMs)
          then emitHashFieldTTL key (fst fv) (of_millis expiresAtMs) else mret tt);
    _ ← tag_new_hash key s;
    write (WriteInteger 1).

Definition handleHSetEx (args : list bytes) : Prep :=
  match args with
  | key :: ((_ :: _ :: _ :: _) as rest) =>
    match parse_hsetex (length rest) (len args) rest (mkExOpts false false false None None) with
    | Boom => Crash
    | Bad e => Refuse [key] e
    | Good o =>
      match xo_fields o with
      | None => Refuse [key] (WriteWrongNumArguments (str "hsetex"))
      | Some fvs => Accept [key] (hsetex_runner key o fvs)
      end
    end
  | _ => Refuse [] (WriteWrongNumArguments (str "hsetex"))
  end.

Fixpoint getex_fields (key : bytes) (snap : option ReducedEffect) (o : ExOpts bytes) (expiresAtMs : Z)
    (fields : list bytes) : M unit :=
  match fields with
  | [] => mret tt
  | f :: fs =>
    _ ← (match hashFieldValue snap f with
         | None => write WriteNullBulkString
         | Some b =>
           _ ← write (WriteBulkString b);
           if 0 <? u64 expiresAtMs then emitHashFieldTTL key f (of_millis expiresAtMs)
           else if xo_keep o then emitHashFieldPersist key f
           else mret tt
         end);
    getex_fields key snap o expiresAtMs fs
  end.

Definition hgetex_runner (key : bytes) (o : ExOpts bytes) (fields : list bytes) : M unit :=
  let expiresAtMs := mode_millis (xo_mode o) in
  read_hash key (array_of WriteNullBulkString (length fields)) (λ snap,
    _ ← write (WriteArray (len fields));
    getex_fields key snap o expiresAtMs fields).

Definition handleHGetEx (args : list bytes) : Prep :=
  match args with
  | key :: ((_ :: _ :: _ :: _) as rest) =>
    match parse_hgetex (length rest) (len args) rest (mkExOpts false false false None None) with
    | Boom => Crash
    | Bad e => Refuse [key] e
    | Good o =>
      match xo_fields o with
      | None => Refuse [key] (WriteWrongNumArguments (str "hgetex"))
      | Some fields => Accept [key] (hgetex_runner key o fields)
      end
    end
  | _ => Refuse [] (WriteWrongNumArguments (str "hgetex"))
  end.
End HashTtl.
