(* ===== verification/Lists.v ===== *)
(** * Lists

    src/redis/list/core.go, with the element ids of
    src/redis/shared/effects_globals.go.  A list is an ordered collection whose
    elements carry an id drawn from the clock of the node; the commands name the
    elements to replace, remove or insert next to by that id.

    Index loops that visit [elements[i]] for [i] below [n], or
    [elements[len-1-i]], are the loops over the first [n] elements of the list
    or of its reverse. *)

From S2P Require Import Prelude GoBytes Strconv Commands Writer Engine.

Local Open Scope Z_scope.

(** ** Element ids *)

(** [binary.LittleEndian.PutUint64]. *)
Definition le_put64 (z : Z) : bytes := rev (be_put 8 z).

(** [uint64(hlc.UnixNano())] and [uint64(nodeID)]. *)
Definition EncodeElementID (nanos nodeID : Z) : bytes := le_put64 (u64 nanos) ++ le_put64 (u64 nodeID).

(** [make([]string, n)], 16 bytes an element: a panic when negative or beyond
    the address space of the allocator. *)
Definition make_strings (n : Z) : bool := (0 <=? n) && (n * 16 <=? 2 ^ 48).

Section Lists.
Context `{Engine} `{!Clock}.

Definition NextHLC : M Z := λ st,
  let '(t, c) := HlcClock_Now (st_ctx st) in (Next t, mkSt c (st_w st) (st_held st)).

Definition new_element_id : M bytes :=
  hlc ← NextHLC;
  mret (EncodeElementID hlc EffectsNodeID).

(** ** Snapshots and effects *)

Definition classify_list (snap : option ReducedEffect) (tips : list Tip) : KeySnap :=
  match snap with
  | None => mkKeySnap None tips false false
  | Some r =>
    if bool_decide (re_Op r = REMOVE_OP) then mkKeySnap None tips false false
    else if bool_decide (re_Collection r = ORDERED) then
      if negb (bool_decide (re_TypeTag r = TYPE_LIST)) && negb (bool_decide (re_TypeTag r = TYPE_UNSPECIFIED))
      then mkKeySnap None tips true true
      else mkKeySnap snap tips true false
    else if bool_decide (re_Collection r = SCALAR) && bool_decide (re_TypeTag r = TYPE_LIST)
    then mkKeySnap snap tips true false
    else mkKeySnap None tips true true
  end.

Definition getListSnapshot (key : bytes) : M KeySnap :=
  '(snap, tips) ← get_snapshot key;
  mret (classify_list snap tips).

(** [snap.GetOrderedElements()], empty for a nil snapshot. *)
Definition ordered_elements (s : KeySnap) : list Element :=
  match ks_snap s with Some r => re_OrderedElements r | None => [] end.

(** [elem.GetData().Decompress()]. *)
Definition el_bytes (e : Element) : bytes := Decompress (el_Value e).

Definition emitListInsert (key : bytes) (placement : Placement) (value : bytes) : M unit :=
  id ← new_element_id;
  emit (mkEffect key (ordered_effect placement [] id (Raw value))) [].
Definition emitListInsertAt (key : bytes) (placement : Placement) (value referenceID : bytes) : M unit :=
  id ← new_element_id;
  emit (mkEffect key (ordered_effect placement referenceID id (Raw value))) [].
Definition emitListUpdate (key elementID value : bytes) : M unit :=
  emit (mkEffect key (ordered_effect PLACE_SELF [] elementID (Raw value))) [].
Definition emitListRemove (key elementID : bytes) : M unit :=
  emit (mkEffect key (ordered_remove elementID)) [].
Definition emitListTypeTag (key : bytes) : M unit :=
  emit (mkEffect key (Effect_Meta (tag_meta TYPE_LIST))) [].

(** [BeginTx], the read of [key] recorded by a no-op with its tips. *)
Definition begin_read (key : bytes) (tips : list Tip) : M unit :=
  _ ← begin_tx;
  emit (mkEffect key Effect_Noop) tips.

(** The elements named, removed one by one after the read. *)
Definition remove_elements (key : bytes) (tips : list Tip) (toRemove : list Element) : M unit :=
  _ ← begin_read key tips;
  for_each toRemove (λ e, emitListRemove key (el_Id e)).

(** ** Pushes *)

Definition push_runner (placement : Placement) (key : bytes) (elements : list bytes) : M unit :=
  s ← getListSnapshot key;
  if ks_wrongType s then reply WriteWrongType
  else
    _ ← for_each elements (emitListInsert key placement);
    _ ← (if negb (ks_exists s) then emitListTypeTag key else mret tt);
    write (WriteInteger (len (ordered_elements s) + len elements)).

Definition pushx_runner (placement : Placement) (key : bytes) (elements : list bytes) : M unit :=
  s ← getListSnapshot key;
  if negb (ks_exists s) then reply WriteZero
  else if ks_wrongType s then reply WriteWrongType
  else
    _ ← for_each elements (emitListInsert key placement);
    write (WriteInteger (len (ordered_elements s) + len elements)).

Definition handleLPush (args : list bytes) : Prep :=
  match args with
  | key :: e :: es => Accept [key] (push_runner PLACE_HEAD key (e :: es))
  | _ => Refuse [] (WriteWrongNumArguments (str "lpush"))
  end.
Definition handleLPushX (args : list bytes) : Prep :=
  match args with
  | key :: e :: es => Accept [key] (pushx_runner PLACE_HEAD key (e :: es))
  | _ => Refuse [] (WriteWrongNumArguments (str "lpushx"))
  end.
Definition handleRPush (args : list bytes) : Prep :=
  match args with
  | key :: e :: es => Accept [key] (push_runner PLACE_TAIL key (e :: es))
  | _ => Refuse [] (WriteWrongNumArguments (str "rpush"))
  end.
Definition handleRPushX (args : list bytes) : Prep :=
  match args with
  | key :: e :: es => Accept [key] (pushx_runner PLACE_TAIL key (e :: es))
  | _ => Refuse [] (WriteWrongNumArguments (str "rpushx"))
  end.

(** ** Pops *)

(** The elements in the order a pop takes them. *)
Definition from_end (left : bool) (elements : list Element) : list Element :=
  if left then elements else rev elements.

Definition pop_runner (left : bool) (key : bytes) (count : Z) (hasCountArg : bool) : M unit :=
  s ← getListSnapshot key;
  if ks_wrongType s then reply WriteWrongType
  else if negb (ks_exists s) || (len (ordered_elements s) =? 0)
  then reply (if hasCountArg then WriteNullArray else WriteNullBulkString)
  else
    let elements := ordered_elements s in
    let n := Z.min count (len elements) in
    let popped := take (Z.to_nat n) (from_end left elements) in
    _ ← remove_elements key (ks_tips s) popped;
    if (count =? 1) && negb hasCountArg then
      e ← or_panic (from_end left elements !! 0%nat);
      write (WriteBulkString (el_bytes e))
    else
      _ ← write (WriteArray n);
      for_each popped (λ e, write (WriteBulkString (el_bytes e))).

(** The optional count: [None] refuses the request. *)
Definition handle_pop (left : bool) (name : bytes) (args : list bytes) : Prep :=
  match args with
  | [key] => Accept [key] (pop_runner left key 1 false)
  | [key; n] =>
    match ParseInt64 n with
    | Some c => if c <? 0 then Refuse [] WriteNotInteger else Accept [key] (pop_runner left key c true)
    | None => Refuse [] WriteNotInteger
    end
  | _ => Refuse [] (WriteWrongNumArguments name)
  end.
Definition handleLPop : list bytes → Prep := handle_pop true (str "lpop").
Definition handleRPop : list bytes → Prep := handle_pop false (str "rpop").

(** ** Reads *)

Definition llen_runner (key : bytes) : M unit :=
  s ← getListSnapshot key;
  if negb (ks_exists s) then reply WriteZero
  else if ks_wrongType s then reply WriteWrongType
  else write (WriteInteger (len (ordered_elements s))).

Definition handleLLen (args : list bytes) : Prep :=
  match args with
  | [key] => Accept [key] (llen_runner key)
  | _ => Refuse [] (WriteWrongNumArguments (str "llen"))
  end.

(** Negative indices count from the end; the range is cut to the list. *)
Definition clamp_start (listLen start : Z) : Z :=
  let s := if start <? 0 then listLen + start else start in
  if s <? 0 then 0 else s.
Definition clamp_stop (listLen stop : Z) : Z :=
  let e := if stop <? 0 then listLen + stop else stop in
  if listLen <=? e then listLen - 1 else e.

(** [elements[s : e+1]]: a panic unless [0 <= s <= e+1 <= len]. *)
Definition slice {A} (l : list A) (lo hi : Z) : option (list A) :=
  if (0 <=? lo) && (lo <=? hi) && (hi <=? len l)
  then Some (take (Z.to_nat (hi - lo)) (drop (Z.to_nat lo) l)) else None.

Definition lrange_runner (key : bytes) (start stop : Z) : M unit :=
  s ← getListSnapshot key;
  if negb (ks_exists s) then reply (WriteArray 0)
  else if ks_wrongType s then reply WriteWrongType
  else
    let elements := ordered_elements s in
    let listLen := len elements in
    if listLen =? 0 then reply (WriteArray 0)
    else
      let lo := clamp_start listLen start in
      let hi := clamp_stop listLen stop in
      if hi <? lo then reply (WriteArray 0)
      else
        result ← or_panic (slice elements lo (hi + 1));
        _ ← write (WriteArray (len result));
        for_each result (λ e, write (WriteBulkString (el_bytes e))).

Definition handleLRange (args : list bytes) : Prep :=
  match args with
  | [key; a; b] =>
    match ParseInt64 a, ParseInt64 b with
    | Some start, Some stop => Accept [key] (lrange_runner key start stop)
    | _, _ => Refuse [] WriteNotInteger
    end
  | _ => Refuse [] (WriteWrongNumArguments (str "lrange"))
  end.

Definition norm_index (listLen index : Z) : Z := if index <? 0 then listLen + index else index.

Definition lindex_runner (key : bytes) (index : Z) : M unit :=
  s ← getListSnapshot key;
  if negb (ks_exists s) then reply WriteNullBulkString
  else if ks_wrongType s then reply WriteWrongType
  else
    let elements := ordered_elements s in
    let idx := norm_index (len elements) index in
    if (idx <? 0) || (len elements <=? idx) then reply WriteNullBulkString
    else
      e ← or_panic (elements !! Z.to_nat idx);
      write (WriteBulkString (el_bytes e)).

Definition handleLIndex (args : list bytes) : Prep :=
  match args with
  | [key; a] =>
    match ParseInt64 a with
    | Some index => Accept [key] (lindex_runner key index)
    | None => Refuse [] WriteNotInteger
    end
  | _ => Refuse [] (WriteWrongNumArguments (str "lindex"))
  end.

(** ** Updates by index and by value *)

Definition lset_runner (key : bytes) (index : Z) (value : bytes) : M unit :=
  s ← getListSnapshot key;
  if negb (ks_exists s) then reply (WriteError (str "ERR no such key"))
  else if ks_wrongType s then reply WriteWrongType
  else
    let elements := ordered_elements s in
    let idx := norm_index (len elements) index in
    if (idx <? 0) || (len elements <=? idx) then reply WriteOutOfRange
    else
      e ← or_panic (elements !! Z.to_nat idx);
      _ ← begin_read key (ks_tips s);
      _ ← emitListUpdate key (el_Id e) value;
      write WriteOK.

Definition handleLSet (args : list bytes) : Prep :=
  match args with
  | [key; a; value] =>
    match ParseInt64 a with
    | Some index => Accept [key] (lset_runner key index value)
    | None => Refuse [] WriteNotInteger
    end
  | _ => Refuse [] (WriteWrongNumArguments (str "lset"))
  end.

(** The loops that collect matches: stop once [limit] have been appended;
    [n] counts those so far. *)
Fixpoint collect_matches (element : bytes) (limit n : Z) (elements : list Element) : list Element :=
  match elements with
  | [] => []
  | e :: rest =>
    if beq (el_bytes e) element then
      if limit <=? n + 1 then [e] else e :: collect_matches element limit (n + 1) rest
    else collect_matches element limit n rest
  end.

Definition lrem_matches (count : Z) (element : bytes) (elements : list Element) : list Element :=
  if 0 <? count then collect_matches element count 0 elements
  else if count <? 0 then collect_matches element (i64 (- count)) 0 (rev elements)
  else filter (λ e, beq (el_bytes e) element = true) elements.

Definition lrem_runner (key : bytes) (count : Z) (element : bytes) : M unit :=
  s ← getListSnapshot key;
  if negb (ks_exists s) then reply WriteZero
  else if ks_wrongType s then reply WriteWrongType
  else
    let toRemove := lrem_matches count element (ordered_elements s) in
    if len toRemove =? 0 then reply WriteZero
    else
      _ ← remove_elements key (ks_tips s) toRemove;
      write (WriteInteger (len toRemove)).

Definition handleLRem (args : list bytes) : Prep :=
  match args with
  | [key; a; element] =>
    match ParseInt64 a with
    | Some count => Accept [key] (lrem_runner key count element)
    | None => Refuse [] WriteNotInteger
    end
  | _ => Refuse [] (WriteWrongNumArguments (str "lrem"))
  end.

(** The elements outside [lo, hi], [i] the index of the first. *)
Fixpoint outside (lo hi i : Z) (elements : list Element) : list Element :=
  match elements with
  | [] => []
  | e :: rest =>
    if (i <? lo) || (hi <? i) then e :: outside lo hi (i + 1) rest
    else outside lo hi (i + 1) rest
  end.

Definition ltrim_runner (key : bytes) (start stop : Z) : M unit :=
  s ← getListSnapshot key;
  if negb (ks_exists s) then reply WriteOK
  else if ks_wrongType s then reply WriteWrongType
  else
    let elements := ordered_elements s in
    let listLen := len elements in
    let toRemove := outside (clamp_start listLen start) (clamp_stop listLen stop) 0 elements in
    if len toRemove =? 0 then reply WriteOK
    else
      _ ← remove_elements key (ks_tips s) toRemove;
      write WriteOK.

Definition handleLTrim (args : list bytes) : Prep :=
  match args with
  | [key; a; b] =>
    match ParseInt64 a, ParseInt64 b with
    | Some start, Some stop => Accept [key] (ltrim_runner key start stop)
    | _, _ => Refuse [] WriteNotInteger
    end
  | _ => Refuse [] (WriteWrongNumArguments (str "ltrim"))
  end.

(** The id of the first element that holds [pivot]; nil (empty) without one. *)
Fixpoint pivot_id (pivot : bytes) (elements : list Element) : bytes :=
  match elements with
  | [] => []
  | e :: rest => if beq (el_bytes e) pivot then el_Id e else pivot_id pivot rest
  end.

Definition linsert_runner (key : bytes) (before : bool) (pivot element : bytes) : M unit :=
  s ← getListSnapshot key;
  if negb (ks_exists s) then reply WriteZero
  else if ks_wrongType s then reply WriteWrongType
  else
    let pivotID := pivot_id pivot (ordered_elements s) in
    if beq pivotID [] then reply (WriteInteger (-1))
    else
      _ ← begin_read key (ks_tips s);
      _ ← emitListInsertAt key (if before then PLACE_BEFORE else PLACE_AFTER) element pivotID;
      write (WriteInteger (len (ordered_elements s) + 1)).

Definition handleLInsert (args : list bytes) : Prep :=
  match args with
  | [key; position; pivot; element] =>
    let p := ToUpper position in
    if beq p (str "BEFORE") then Accept [key] (linsert_runner key true pivot element)
    else if beq p (str "AFTER") then Accept [key] (linsert_runner key false pivot element)
    else Refuse [] WriteSyntaxError
  | _ => Refuse [] (WriteWrongNumArguments (str "linsert"))
  end.

(** ** LPOS *)

Record PosOpts := mkPosOpts { po_rank : Z; po_count : Z; po_maxlen : Z }.

Definition rank_zero : bytes :=
  str "ERR RANK can't be zero: use 1 to start from the first match, 2 from the second ... or use negative to start from the end of the list".

Fixpoint parse_lpos (o : PosOpts) (args : list bytes) : result (Writer → Writer) PosOpts :=
  match args with
  | [] => Ok o
  | opt :: rest =>
    let name := ToUpper opt in
    if beq name (str "RANK") then
      match rest with
      | [] => Err WriteSyntaxError
      | a :: rest' =>
        match ParseInt64 a with
        | None => Err (WriteError (str "ERR value is not an integer or out of range"))
        | Some r =>
          if r =? 0 then Err (WriteError rank_zero)
          else if r =? MinInt64 then Err (WriteError (str "ERR value is out of range"))
          else parse_lpos (mkPosOpts r (po_count o) (po_maxlen o)) rest'
        end
      end
    else if beq name (str "COUNT") then
      match rest with
      | [] => Err WriteSyntaxError
      | a :: rest' =>
        match ParseInt64 a with
        | None => Err (WriteError (str "ERR COUNT can't be negative"))
        | Some c => if c <? 0 then Err (WriteError (str "ERR COUNT can't be negative"))
                    else parse_lpos (mkPosOpts (po_rank o) c (po_maxlen o)) rest'
        end
      end
    else if beq name (str "MAXLEN") then
      match rest with
      | [] => Err WriteSyntaxError
      | a :: rest' =>
        match ParseInt64 a with
        | None => Err (WriteError (str "ERR MAXLEN can't be negative"))
        | Some m => if m <? 0 then Err (WriteError (str "ERR MAXLEN can't be negative"))
                    else parse_lpos (mkPosOpts (po_rank o) (po_count o) m) rest'
        end
      end
    else Err WriteSyntaxError
  end.

(** One direction of the search: [indexed] are the elements still to visit
    with their indices. *)
Fixpoint scan_pos (element : bytes) (maxlen matchesNeeded comparisons skipCount nmatches : Z)
    (indexed : list (Z * Element)) : list Z :=
  match indexed with
  | [] => []
  | (idx, e) :: rest =>
    if (0 <? maxlen) && (maxlen <=? comparisons) then []
    else if beq (el_bytes e) element then
      if 0 <? skipCount
      then scan_pos element maxlen matchesNeeded (comparisons + 1) (skipCount - 1) nmatches rest
      else if matchesNeeded <=? nmatches + 1 then [idx]
      else idx :: scan_pos element maxlen matchesNeeded (comparisons + 1) skipCount (nmatches + 1) rest
    else scan_pos element maxlen matchesNeeded (comparisons + 1) skipCount nmatches rest
  end.

Definition indexed {A} (l : list A) : list (Z * A) := imap (λ i e, (Z.of_nat i, e)) l.

Definition lpos_matches (element : bytes) (o : PosOpts) (elements : list Element) : list Z :=
  let matchesNeeded :=
    if po_count o <? 0 then 1
    else if po_count o =? 0 then len elements else po_count o in
  let skipCount := if 0 <? po_rank o then po_rank o - 1 else - po_rank o - 1 in
  scan_pos element (po_maxlen o) matchesNeeded 0 skipCount 0
    (if 0 <? po_rank o then indexed elements else rev (indexed elements)).

Definition no_pos (o : PosOpts) : Writer → Writer :=
  if 0 <=? po_count o then WriteArray 0 else WriteNullBulkString.

Definition lpos_runner (key element : bytes) (o : PosOpts) : M unit :=
  s ← getListSnapshot key;
  if negb (ks_exists s) then reply (no_pos o)
  else if ks_wrongType s then reply WriteWrongType
  else
    let elements := ordered_elements s in
    if len elements =? 0 then reply (no_pos o)
    else
      let matches := lpos_matches element o elements in
      if 0 <=? po_count o then
        _ ← write (WriteArray (len matches));
        for_each matches (λ pos, write (WriteInteger pos))
      else match matches with
      | [] => write WriteNullBulkString
      | m :: _ => write (WriteInteger m)
      end.

Definition handleLPos (args : list bytes) : Prep :=
  match args with
  | key :: element :: opts =>
    match parse_lpos (mkPosOpts 1 (-1) 0) opts with
    | Ok o => Accept [key] (lpos_runner key element o)
    | Err f => Refuse [] f
    end
  | _ => Refuse [] (WriteWrongNumArguments (str "lpos"))
  end.

(** ** LMPOP *)

(** LEFT or RIGHT. *)
Definition parse_direction (a : bytes) : option bool :=
  if beq (ToUpper a) (str "LEFT") then Some true
  else if beq (ToUpper a) (str "RIGHT") then Some false
  else None.

Definition syntax_error : Writer → Writer := WriteError (str "ERR syntax error").

(** What LMPOP and BLMPOP parse of [args], which starts with numkeys; [before]
    arguments come ahead of it.  A refusal keeps the keys extracted so far. *)
Inductive MPopArgs : Type :=
  | MPop (keys : list bytes) (fromLeft : bool) (count : Z)
  | MPopRefuse (keys : list bytes) (f : Writer → Writer)
  | MPopPanic.

Definition parse_mpop (before : Z) (args : list bytes) : MPopArgs :=
  match args with
  | [] => MPopPanic
  | a :: rest =>
    match ParseInt64 a with
    | None => MPopRefuse [] (WriteError (str "ERR numkeys should be greater than 0"))
    | Some numKeys =>
      if numKeys <? 1 then MPopRefuse [] (WriteError (str "ERR numkeys should be greater than 0"))
      else if before + len args <? i64 (numKeys + 2 + before) then MPopRefuse [] syntax_error
      else if negb (make_strings numKeys) then MPopPanic
      else
        let keys := take (Z.to_nat numKeys) rest in
        match drop (Z.to_nat numKeys) rest with
        | [] => MPopPanic
        | d :: more =>
          match parse_direction d with
          | None => MPopRefuse keys syntax_error
          | Some fromLeft =>
            match more with
            | [] => MPop keys fromLeft 1
            | [opt; c] =>
              if negb (beq (ToUpper opt) (str "COUNT")) then MPopRefuse keys syntax_error
              else match ParseInt64 c with
              | None => MPopRefuse keys (WriteError (str "ERR count should be greater than 0"))
              | Some count =>
                if count <? 1 then MPopRefuse keys (WriteError (str "ERR count should be greater than 0"))
                else MPop keys fromLeft count
              end
            | _ => MPopRefuse keys syntax_error
            end
          end
        end
    end
  end.

(** Every key is checked before any is read for popping. *)
Fixpoint check_list_types (keys : list bytes) : M unit :=
  match keys with
  | [] => mret tt
  | key :: keys' =>
    s ← getListSnapshot key;
    if ks_exists s && ks_wrongType s then reply WriteWrongType
    else check_list_types keys'
  end.

(** Pops up to [count] elements of the first key that has any. *)
Fixpoint pop_first (left : bool) (count : Z) (keys : list bytes) : M unit :=
  match keys with
  | [] => write WriteNullArray
  | key :: keys' =>
    s ← getListSnapshot key;
    if negb (ks_exists s) || (len (ordered_elements s) =? 0) then pop_first left count keys'
    else
      let elements := ordered_elements s in
      let n := Z.min count (len elements) in
      let popped := take (Z.to_nat n) (from_end left elements) in
      _ ← remove_elements key (ks_tips s) popped;
      _ ← write (WriteArray 2);
      _ ← write (WriteBulkStringStr key);
      _ ← write (WriteArray n);
      for_each popped (λ e, write (WriteBulkString (el_bytes e)))
  end.

Definition lmpop_runner (keys : list bytes) (left : bool) (count : Z) : M unit :=
  _ ← check_list_types keys;
  pop_first left count keys.

Definition handleLMPop (args : list bytes) : Prep :=
  if len args <? 3 then Refuse [] (WriteWrongNumArguments (str "lmpop"))
  else match parse_mpop 0 args with
  | MPop keys fromLeft count => Accept keys (lmpop_runner keys fromLeft count)
  | MPopRefuse _ f => Refuse [] f
  | MPopPanic => Crash
  end.

(** ** LMOVE, RPOPLPUSH *)

Definition wrong_type_message : bytes :=
  str "WRONGTYPE Operation against a key holding the wrong kind of value".

(** The outcomes of [doLMove] but the engine errors, which [get_snapshot] and
    [emit] answer on the spot. *)
Inductive MoveRes : Type :=
  | Moved (element : bytes)
  | NothingToMove
  | MoveRefused (errMsg : bytes).

Definition doLMove (source destination : bytes) (popLeft pushLeft : bool) : M MoveRes :=
  src ← getListSnapshot source;
  if negb (ks_exists src) then mret NothingToMove
  else if ks_wrongType src then mret (MoveRefused wrong_type_message)
  else match from_end popLeft (ordered_elements src) with
  | [] => mret NothingToMove
  | elem :: _ =>
    dst ← (if beq source destination then mret (false, [])
           else d ← getListSnapshot destination; mret (ks_wrongType d, ks_tips d));
    let '(dstWrongType, dstTips) := dst in
    if dstWrongType : bool then mret (MoveRefused wrong_type_message)
    else
      let value := el_bytes elem in
      _ ← begin_read source (ks_tips src);
      _ ← (if negb (beq source destination) && (0 <? len dstTips)
           then emit (mkEffect destination Effect_Noop) dstTips else mret tt);
      _ ← emitListRemove source (el_Id elem);
      _ ← emitListInsert destination (if pushLeft then PLACE_HEAD else PLACE_TAIL) value;
      mret (Moved value)
  end.

Definition write_move (r : MoveRes) : M unit :=
  match r with
  | Moved elem => write (WriteBulkString elem)
  | NothingToMove => write WriteNullBulkString
  | MoveRefused errMsg => write (WriteError errMsg)
  end.

Definition lmove_runner (source destination : bytes) (popLeft pushLeft : bool) : M unit :=
  r ← doLMove source destination popLeft pushLeft;
  write_move r.

Definition handleLMove (args : list bytes) : Prep :=
  match args with
  | [source; destination; from; to] =>
    match parse_direction from, parse_direction to with
    | Some popLeft, Some pushLeft =>
      Accept [source; destination] (lmove_runner source destination popLeft pushLeft)
    | _, _ => Refuse [] syntax_error
    end
  | _ => Refuse [] (WriteWrongNumArguments (str "lmove"))
  end.

Definition handleRPopLPush (args : list bytes) : Prep :=
  match args with
  | [source; destination] => Accept [source; destination] (lmove_runner source destination false true)
  | _ => Refuse [] (WriteWrongNumArguments (str "rpoplpush"))
  end.

(** ** The blocking commands inside a transaction: one attempt *)

Fixpoint pop_one (left : bool) (keys : list bytes) : M unit :=
  match keys with
  | [] => write WriteNullArray
  | key :: keys' =>
    s ← getListSnapshot key;
    if ks_exists s && ks_wrongType s then reply WriteWrongType
    else match from_end left (ordered_elements s) with
    | [] => pop_one left keys'
    | elem :: _ =>
      _ ← begin_read key (ks_tips s);
      _ ← emitListRemove key (el_Id elem);
      _ ← write (WriteArray 2);
      _ ← write (WriteBulkStringStr key);
      write (WriteBulkString (el_bytes elem))
    end
  end.

Definition handleLPopNonBlocking (left : bool) (args : list bytes) : Prep :=
  if len args <? 2 then
    Refuse [] (WriteWrongNumArguments (if left then str "blpop" else str "brpop"))
  else
    let keys := take (length args - 1) args in
    Accept keys (pop_one left keys).

Definition handleBLMPopNonBlocking (args : list bytes) : Prep :=
  if len args <? 4 then Refuse [] (WriteWrongNumArguments (str "blmpop"))
  else match parse_mpop 1 (tail args) with
  | MPop keys fromLeft count => Accept keys (lmpop_runner keys fromLeft count)
  | MPopRefuse keys f => Refuse keys f
  | MPopPanic => Crash
  end.

Definition handleBLMoveNonBlocking (args : list bytes) : Prep :=
  match args with
  | [source; destination; from; to; _] =>
    match parse_direction from, parse_direction to with
    | Some popLeft, Some pushLeft =>
      Accept [source; destination] (lmove_runner source destination popLeft pushLeft)
    | _, _ => Refuse [source; destination] syntax_error
    end
  | _ => Refuse [] (WriteWrongNumArguments (str "blmove"))
  end.

Definition handleBRPopLPushNonBlocking (args : list bytes) : Prep :=
  match args with
  | [source; destination; _] => Accept [source; destination] (lmove_runner source destination false true)
  | _ => Refuse [] (WriteWrongNumArguments (str "brpoplpush"))
  end.
End Lists.
