(* ===== verification/Zsets.v ===== *)
(** * Sorted-set commands

    src/redis/zset: core.go, lex.go, score.go, query.go, range.go, remove.go,
    pop.go and lex_commands.go.  A sorted set is a keyed collection whose
    elements are floats; ZsetOps models setops.go and ZsetBlocking blocking.go.

    [sort.Slice] by score and member is a merge sort here; the order is strict
    on entries with different members, so that the result does not depend on
    the algorithm as long as no score is NaN. *)

From Stdlib Require Import SpecFloat.
From S2P Require Import Prelude GoBytes Strconv Floats Commands Writer Engine Sets Strings Hashes Lists.

Local Open Scope Z_scope.

(** ** Scores and bounds *)

Definition float_zero : spec_float := S754_zero false.

(** [elem.GetData().GetFloatVal()]: zero unless the value is a float. *)
Definition GetFloatVal (v : Value) : spec_float :=
  match v with FloatVal b => Float64frombits b | _ => float_zero end.
Definition float_value (f : spec_float) : Value := FloatVal (Float64bits f).

Record ZSetEntry := mkEntry { ze_Member : bytes; ze_Score : spec_float }.
#[global] Instance ZSetEntry_eq_dec : EqDecision ZSetEntry.
Proof. solve_decision. Defined.

(** The comparison of [sort.Slice]. *)
Definition entry_less (a b : ZSetEntry) : bool :=
  if negb (SFeqb (ze_Score a) (ze_Score b)) then SFltb (ze_Score a) (ze_Score b)
  else blt (ze_Member a) (ze_Member b).
Definition entry_le (a b : ZSetEntry) : Prop := entry_less b a = false.
#[global] Instance entry_le_dec a b : Decision (entry_le a b) := decide (entry_less b a = false).
Definition sort_entries (l : list ZSetEntry) : list ZSetEntry := merge_sort entry_le l.

Definition scoreInRange (score minScore maxScore : spec_float) (minEx maxEx : bool) : bool :=
  if (if minEx then SFleb score minScore else SFltb score minScore) then false
  else if (if maxEx then SFleb maxScore score else SFltb maxScore score) then false
  else true.

(** A bound is the score and whether it is exclusive. *)
Definition ParseScore `{ParseFloat} (s : bytes) : option (spec_float * bool) :=
  match s with
  | [] => None
  | c :: s' =>
    let exclusive := c =? 40 in
    let text := if exclusive then s' else s in
    if beq text (str "-inf") then Some (S754_infinity true, exclusive)
    else if beq text (str "+inf") || beq text (str "inf") then Some (S754_infinity false, exclusive)
    else match parse_float text with
    | None => None
    | Some f => if IsNaN f then None else Some (f, exclusive)
    end
  end.

Record LexBound := mkLexBound { lb_Value : bytes; lb_Inclusive : bool; lb_IsMin : bool; lb_IsMax : bool }.

Definition ParseLexBound (s : bytes) : option LexBound :=
  match s with
  | [] => None
  | c :: value =>
    if beq s (str "-") then Some (mkLexBound [] false true false)
    else if beq s (str "+") then Some (mkLexBound [] false false true)
    else if c =? 91 then Some (mkLexBound value true false false)
    else if c =? 40 then Some (mkLexBound value false false false)
    else None
  end.

Definition CompareLex (member : bytes) (bound : LexBound) : Z :=
  if lb_IsMin bound then 1
  else if lb_IsMax bound then -1
  else if blt member (lb_Value bound) then -1
  else if blt (lb_Value bound) member then 1
  else 0.

Definition InLexRange (member : bytes) (minBound maxBound : LexBound) : bool :=
  let cmp := CompareLex member minBound in
  if cmp <? 0 then false
  else if (cmp =? 0) && negb (lb_Inclusive minBound) then false
  else
    let cmp := CompareLex member maxBound in
    if 0 <? cmp then false
    else if (cmp =? 0) && negb (lb_Inclusive maxBound) then false
    else true.

(** ** Slices of the sorted entries *)

(** The entries from rank [start] to rank [stop], from the end with [rev]. *)
Definition zsetRangeByIndex (sorted : list ZSetEntry) (start stop : Z) (rev : bool) : list ZSetEntry :=
  let length := len sorted in
  if length =? 0 then []
  else
    let start := if start <? 0 then length + start else start in
    let stop := if stop <? 0 then length + stop else stop in
    let start := if start <? 0 then 0 else start in
    let stop := if length <=? stop then length - 1 else stop in
    if (stop <? start) || (length <=? start) then []
    else take (Z.to_nat (stop - start + 1)) (drop (Z.to_nat start) (if rev then reverse sorted else sorted)).

(** LIMIT: a negative offset gives nothing, a negative count everything. *)
Definition limit_slice {A} (offset count : Z) (l : list A) : list A :=
  if offset <? 0 then []
  else
    let l := if 0 <? offset then (if len l <=? offset then [] else drop (Z.to_nat offset) l) else l in
    if (0 <=? count) && (count <? len l) then take (Z.to_nat count) l else l.

Definition zsetFilterByScore (sorted : list ZSetEntry) (minScore maxScore : spec_float) (minEx maxEx rev : bool)
    (offset count : Z) : list ZSetEntry :=
  limit_slice offset count
    (filter (λ e, scoreInRange (ze_Score e) minScore maxScore minEx maxEx = true) (if rev then reverse sorted else sorted)).

(** The same by member, in the loops of ZRANGE, ZRANGESTORE and the BYLEX
    commands. *)
Definition filter_by_lex (sorted : list ZSetEntry) (minBound maxBound : LexBound) (rev : bool) (offset count : Z) :
    list ZSetEntry :=
  limit_slice offset count
    (filter (λ e, InLexRange (ze_Member e) minBound maxBound = true) (if rev then reverse sorted else sorted)).

(** The first rank of a member. *)
Fixpoint rank_of (member : bytes) (l : list ZSetEntry) : option nat :=
  match l with
  | [] => None
  | e :: l' => if beq (ze_Member e) member then Some 0%nat else S <$> rank_of member l'
  end.

(** [strings.EqualFold(s, "withscore")]: the long s folds to s, and no other
    character outside ASCII to one of these letters. *)
Fixpoint fold_long_s (s : bytes) : bytes :=
  match s with
  | 197 :: 191 :: s' => 115 :: fold_long_s s'
  | c :: s' => c :: fold_long_s s'
  | [] => []
  end.
Definition is_withscore (s : bytes) : bool := beq (ascii_lower (fold_long_s s)) (str "withscore").

(** [rand.Perm(n)]: the [i]-th draw puts [i] at a random place among the first. *)
Fixpoint rand_Perm `{Rand} (n : nat) : list nat :=
  match n with
  | O => []
  | S i =>
    let m := rand_Perm i in
    let j := Z.to_nat (rand_IntN i (Z.of_nat i + 1)) in
    <[j := i]> (m ++ [default i (m !! j)])
  end.

Section Zsets.
Context `{Engine} `{ParseFloat} `{FormatG} `{RangeOrder} `{Rand}.

(** ** Snapshots and effects *)

Definition classify_zset (snap : option ReducedEffect) (tips : list Tip) : KeySnap :=
  match snap with
  | None => mkKeySnap None tips false false
  | Some r =>
    if bool_decide (re_Op r = REMOVE_OP) then mkKeySnap None tips false false
    else if bool_decide (re_Collection r = KEYED) then mkKeySnap snap tips true false
    else if bool_decide (re_Collection r = SCALAR) &&
            (bool_decide (re_TypeTag r = TYPE_ZSET) || bool_decide (re_TypeTag r = TYPE_GEO))
    then mkKeySnap snap tips true false
    else mkKeySnap None tips true true
  end.

Definition getZSetSnapshot (key : bytes) : M KeySnap :=
  '(snap, tips) ← get_snapshot key;
  mret (classify_zset snap tips).

Definition emitZSetInsert (key member : bytes) (score : spec_float) : M unit :=
  emit (mkEffect key (keyed_insert member (float_value score))) [].
Definition emitZSetIncrBy (key member : bytes) (delta : spec_float) : M unit :=
  emit (mkEffect key (keyed_add_float member delta)) [].
Definition emitZSetRemove (key member : bytes) : M unit :=
  emit (mkEffect key (keyed_remove member)) [].
Definition emitZSetTypeTag (key : bytes) : M unit :=
  emit (mkEffect key (Effect_Meta (tag_meta TYPE_ZSET))) [].
Definition emitZSetDeleteKey (key : bytes) : M unit :=
  emit (mkEffect key delete_effect) [].

Definition zsetMemberScore (snap : option ReducedEffect) (member : bytes) : option spec_float :=
  GetFloatVal <$> net_adds snap !! member.

(** The entries of a map in the order they are visited. *)
Definition range_entries (m : gmap bytes spec_float) : list ZSetEntry :=
  omap (λ k, mkEntry k <$> m !! k) (range_keys (dom m)).
Definition scores (snap : option ReducedEffect) : gmap bytes spec_float := GetFloatVal <$> net_adds snap.
Definition zsetSortedMembers (snap : option ReducedEffect) : list ZSetEntry :=
  sort_entries (range_entries (scores snap)).

(** What the reading commands share. *)
Definition read_zset (key : bytes) (missing : Writer → Writer) (found : option ReducedEffect → M unit) : M unit :=
  s ← getZSetSnapshot key;
  if negb (ks_exists s) then reply missing
  else if ks_wrongType s then reply WriteWrongType
  else found (ks_snap s).

(** ** ZADD, ZINCRBY *)

Record ZAddOpts := mkZAddOpts {
  za_nx : bool; za_xx : bool; za_gt : bool; za_lt : bool; za_ch : bool; za_incr : bool
}.

(** The options, and the arguments after them. *)
Fixpoint zadd_opts (args : list bytes) (o : ZAddOpts) : ZAddOpts * list bytes :=
  match args with
  | [] => (o, [])
  | a :: rest =>
    let opt := ToUpper a in
    let '(mkZAddOpts nx xx gt lt ch incr) := o in
    if beq opt (str "NX") then zadd_opts rest (mkZAddOpts true xx gt lt ch incr)
    else if beq opt (str "XX") then zadd_opts rest (mkZAddOpts nx true gt lt ch incr)
    else if beq opt (str "GT") then zadd_opts rest (mkZAddOpts nx xx true lt ch incr)
    else if beq opt (str "LT") then zadd_opts rest (mkZAddOpts nx xx gt true ch incr)
    else if beq opt (str "CH") then zadd_opts rest (mkZAddOpts nx xx gt lt true incr)
    else if beq opt (str "INCR") then zadd_opts rest (mkZAddOpts nx xx gt lt ch true)
    else (o, args)
  end.

Definition not_a_float : bytes := str "ERR value is not a valid float".

(** The score-member pairs; [None] when a score is not a float. *)
Fixpoint score_members (args : list bytes) : option (list (spec_float * bytes)) :=
  match args with
  | s :: member :: rest =>
    match parse_float s with
    | None => None
    | Some score => if IsNaN score then None else cons (score, member) <$> score_members rest
    end
  | _ => Some []
  end.

Definition nan_score : bytes := str "ERR resulting score is not a number (NaN)".

(** One pair of ZADD INCR. *)
Definition zadd_incr (key : bytes) (snap : option ReducedEffect) (o : ZAddOpts) (score : spec_float) (member : bytes) :
    M unit :=
  match zsetMemberScore snap member with
  | Some existing =>
    if za_nx o then reply WriteNullBulkString
    else
      let newScore := float_add existing score in
      if IsNaN newScore then reply (WriteError nan_score)
      else if za_gt o && SFleb newScore existing then reply WriteNullBulkString
      else if za_lt o && SFleb existing newScore then reply WriteNullBulkString
      else
        _ ← emitZSetIncrBy key member score;
        write (WriteScore newScore)
  | None =>
    if za_xx o then reply WriteNullBulkString
    else
      _ ← emitZSetInsert key member score;
      write (WriteScore score)
  end.

(** One pair without INCR: the counts of new and changed members. *)
Definition zadd_one (key : bytes) (snap : option ReducedEffect) (o : ZAddOpts) (score : spec_float) (member : bytes)
    (counts : Z * Z) : M (Z * Z) :=
  let '(added, changed) := counts in
  match zsetMemberScore snap member with
  | Some existing =>
    if za_nx o then mret counts
    else if za_gt o && SFleb score existing then mret counts
    else if za_lt o && SFleb existing score then mret counts
    else
      _ ← emitZSetInsert key member score;
      mret (added, if SFeqb score existing then changed else changed + 1)
  | None =>
    if za_xx o then mret counts
    else
      _ ← emitZSetInsert key member score;
      mret (added + 1, changed)
  end.

Fixpoint zadd_loop (key : bytes) (snap : option ReducedEffect) (o : ZAddOpts) (counts : Z * Z)
    (pairs : list (spec_float * bytes)) : M (Z * Z) :=
  match pairs with
  | [] => mret counts
  | (score, member) :: pairs' =>
    if za_incr o then
      _ ← zadd_incr key snap o score member;
      zadd_loop key snap o counts pairs'
    else
      counts' ← zadd_one key snap o score member counts;
      zadd_loop key snap o counts' pairs'
  end.

Definition tag_new_zset (key : bytes) (s : KeySnap) : M unit :=
  if negb (ks_exists s) then emitZSetTypeTag key else mret tt.

Definition zadd_runner (key : bytes) (o : ZAddOpts) (pairs : list (spec_float * bytes)) : M unit :=
  s ← getZSetSnapshot key;
  if ks_wrongType s then reply WriteWrongType
  else if za_xx o && negb (ks_exists s)
  then reply (if za_incr o then WriteNullBulkString else WriteInteger 0)
  else
    '(added, changed) ← zadd_loop key (ks_snap s) o (0, 0) pairs;
    _ ← tag_new_zset key s;
    if za_incr o then mret tt
    else write (WriteInteger (if za_ch o then added + changed else added)).

Definition handleZAdd (args : list bytes) : Prep :=
  match args with
  | key :: ((_ :: _ :: _) as rest) =>
    let '(o, remaining) := zadd_opts rest (mkZAddOpts false false false false false false) in
    if za_nx o && za_xx o
    then Refuse [key] (WriteError (str "ERR XX and NX options at the same time are not compatible"))
    else if za_gt o && za_lt o
    then Refuse [key] (WriteError (str "ERR GT and LT options at the same time are not compatible"))
    else if (za_gt o || za_lt o) && za_nx o
    then Refuse [key] (WriteError (str "ERR GT/LT and NX options at the same time are not compatible"))
    else if (len remaining <? 2) || negb (len remaining `mod` 2 =? 0)
    then Refuse [key] (WriteError (str "ERR syntax error"))
    else if za_incr o && negb (len remaining =? 2)
    then Refuse [key] (WriteError (str "ERR INCR option supports a single increment-element pair"))
    else match score_members remaining with
    | None => Refuse [key] (WriteError not_a_float)
    | Some pairs => Accept [key] (zadd_runner key o pairs)
    end
  | _ => Refuse [] (WriteWrongNumArguments (str "zadd"))
  end.

Definition zincrby_runner (key member : bytes) (increment : spec_float) : M unit :=
  s ← getZSetSnapshot key;
  if ks_wrongType s then reply WriteWrongType
  else match zsetMemberScore (ks_snap s) member with
  | Some existing =>
    let newScore := float_add existing increment in
    if IsNaN newScore then reply (WriteError nan_score)
    else
      _ ← emitZSetIncrBy key member increment;
      _ ← tag_new_zset key s;
      write (WriteScore newScore)
  | None =>
    _ ← emitZSetInsert key member increment;
    _ ← tag_new_zset key s;
    write (WriteScore increment)
  end.

Definition handleZIncrBy (args : list bytes) : Prep :=
  match args with
  | [key; n; member] =>
    match parse_float n with
    | None => Refuse [key] (WriteError not_a_float)
    | Some increment =>
      if IsNaN increment then Refuse [key] (WriteError not_a_float)
      else Accept [key] (zincrby_runner key member increment)
    end
  | _ => Refuse [] (WriteWrongNumArguments (str "zincrby"))
  end.

(** ** Reading *)

Definition score_or_null (o : option spec_float) : Writer → Writer :=
  match o with Some f => WriteScore f | None => WriteNullBulkString end.

Definition handleZScore (args : list bytes) : Prep :=
  match args with
  | [key; member] => Accept [key] (read_zset key WriteNullBulkString (λ snap,
      match zsetMemberScore snap member with
      | None => reply WriteNullBulkString
      | Some score => write (WriteScore score)
      end))
  | _ => Refuse [] (WriteWrongNumArguments (str "zscore"))
  end.

Definition handleZMScore (args : list bytes) : Prep :=
  match args with
  | key :: ((_ :: _) as members) => Accept [key] (read_zset key (array_of WriteNullBulkString (length members)) (λ snap,
      _ ← write (WriteArray (len members));
      for_each members (λ m, write (score_or_null (zsetMemberScore snap m)))))
  | _ => Refuse [] (WriteWrongNumArguments (str "zmscore"))
  end.

Definition handleZCard (args : list bytes) : Prep :=
  match args with
  | [key] => Accept [key] (read_zset key (WriteInteger 0) (λ snap,
      write (WriteInteger (Z.of_nat (size (net_adds snap))))))
  | _ => Refuse [] (WriteWrongNumArguments (str "zcard"))
  end.

Definition no_rank (withScore : bool) : Writer → Writer :=
  if withScore then WriteNullArray else WriteNullBulkString.
Definition write_rank (withScore : bool) (rank : Z) (score : spec_float) (w : Writer) : Writer :=
  if withScore then WriteScore score (WriteInteger rank (WriteArray 2 w)) else WriteInteger rank w.

Definition zrank_runner (rev : bool) (key member : bytes) (withScore : bool) : M unit :=
  read_zset key (no_rank withScore) (λ snap,
    let sorted := zsetSortedMembers snap in
    match rank_of member sorted with
    | None => reply (no_rank withScore)
    | Some i =>
      let rank := if rev then len sorted - 1 - Z.of_nat i else Z.of_nat i in
      let score := if rev then default float_zero (zsetMemberScore snap member)
                   else default float_zero (ze_Score <$> sorted !! i) in
      write (write_rank withScore rank score)
    end).

Definition handle_rank (rev : bool) (cmd : bytes) (args : list bytes) : Prep :=
  match args with
  | [key; member] => Accept [key] (zrank_runner rev key member false)
  | [key; member; opt] =>
    if is_withscore opt then Accept [key] (zrank_runner rev key member true)
    else Refuse [key] (WriteError (str "ERR syntax error"))
  | _ => Refuse [] (WriteWrongNumArguments cmd)
  end.
Definition handleZRank : list bytes → Prep := handle_rank false (str "zrank").
Definition handleZRevRank : list bytes → Prep := handle_rank true (str "zrevrank").

Definition bad_score : bytes := str "ERR min or max is not a float".
Definition bad_lex : bytes := str "ERR min or max not valid string range item".

Definition handleZCount (args : list bytes) : Prep :=
  match args with
  | [key; mn; mx] =>
    match ParseScore mn, ParseScore mx with
    | Some (minScore, minEx), Some (maxScore, maxEx) =>
      Accept [key] (read_zset key (WriteInteger 0) (λ snap,
        write (WriteInteger (len (filter (λ e, scoreInRange (ze_Score e) minScore maxScore minEx maxEx = true)
                                    (zsetSortedMembers snap))))))
    | _, _ => Refuse [key] (WriteError bad_score)
    end
  | _ => Refuse [] (WriteWrongNumArguments (str "zcount"))
  end.

Definition handleZLexCount (args : list bytes) : Prep :=
  match args with
  | [key; mn; mx] =>
    match ParseLexBound mn, ParseLexBound mx with
    | Some minBound, Some maxBound =>
      Accept [key] (read_zset key (WriteInteger 0) (λ snap,
        write (WriteInteger (len (filter (λ k, InLexRange k minBound maxBound = true)
                                    (range_keys (dom (net_adds snap))))))))
    | _, _ => Refuse [key] (WriteError bad_lex)
    end
  | _ => Refuse [] (WriteWrongNumArguments (str "zlexcount"))
  end.

Definition entry_pair (nested : bool) (e : ZSetEntry) (w : Writer) : Writer :=
  WriteScore (ze_Score e) (WriteBulkStringStr (ze_Member e) (if nested then WriteArray 2 w else w)).
Definition write_pairs (nested : bool) (entries : list ZSetEntry) (w : Writer) : Writer :=
  foldl (λ w e, entry_pair nested e w) (WriteArray (if nested then len entries else len entries * 2) w) entries.

Definition writeZSetEntries (entries : list ZSetEntry) (withScores : bool) (w : Writer) : Writer :=
  if withScores then write_pairs (bool_decide (w_protocol w = RESP3)) entries w
  else foldl (λ w e, WriteBulkStringStr (ze_Member e) w) (WriteArray (len entries) w) entries.

(** *** ZRANDMEMBER *)

(** [n] entries drawn with repetition, the [k]-th draw next. *)
Fixpoint draw_entries (k n : nat) (members : list ZSetEntry) : option (list ZSetEntry) :=
  match n with
  | O => Some []
  | S n' =>
    match members !! Z.to_nat (rand_IntN k (len members)) with
    | None => None
    | Some e => cons e <$> draw_entries (S k) n' members
    end
  end.

Definition zrandmember_runner (key : bytes) (count : option Z) (withScores : bool) : M unit :=
  let none := match count with None => WriteNullBulkString | Some _ => WriteArray 0 end in
  read_zset key none (λ snap,
    let members := range_entries (scores snap) in
    if len members =? 0 then reply none
    else match count with
    | None =>
      l ← or_panic (draw_entries 0 1 members);
      for_each l (λ e, write (WriteBulkStringStr (ze_Member e)))
    | Some count =>
      if count =? 0 then reply (WriteArray 0)
      else
        result ← or_panic
          (if 0 <? count
           then mapM (λ i, members !! i) (take (Z.to_nat (Z.min count (len members))) (rand_Perm (length members)))
           else draw_entries 0 (Z.to_nat (- count)) members);
        write (writeZSetEntries result withScores)
    end).

Definition out_of_range : bytes := str "ERR value is out of range".

Definition handleZRandMember (args : list bytes) : Prep :=
  match args with
  | [] => Refuse [] (WriteWrongNumArguments (str "zrandmember"))
  | [key] => Accept [key] (zrandmember_runner key None false)
  | key :: n :: opts =>
    match ParseInt_val n with
    | (c, false) => Refuse [key] (if c =? 0 then WriteNotInteger else WriteError out_of_range)
    | (c, true) =>
      if (c <? - 2 ^ 31) || (2 ^ 31 <? c) then Refuse [key] (WriteError out_of_range)
      else match opts with
      | [] => Accept [key] (zrandmember_runner key (Some c) false)
      | opt :: more =>
        if negb (beq (ToUpper opt) (str "WITHSCORES")) then Refuse [key] WriteSyntaxError
        else match more with
        | [] => Accept [key] (zrandmember_runner key (Some c) true)
        | _ => Refuse [key] WriteSyntaxError
        end
      end
    end
  end.
End Zsets.
