(* ===== verification/ZsetOrder.v ===== *)
(** * The order of a sorted set

    Doubles that are not NaN are totally ordered, entries are strictly ordered
    by score and member, and so the sorted entries of a set are determined by
    the set alone. *)

From Stdlib Require Import SpecFloat.
From S2P Require Import Prelude GoBytes Strconv Floats Commands Writer Engine Sets Strings Hashes Lists Zsets.

Local Open Scope Z_scope.

(** ** Comparing doubles *)

(** A double as a triple of integers that compare from left to right: its
    class, exponent and mantissa, both negated for negative numbers. *)
Definition float_key (f : spec_float) : Z * Z * Z :=
  match f with
  | S754_infinity true => (-2, 0, 0)
  | S754_finite true m e => (-1, - e, Z.neg m)
  | S754_zero _ | S754_nan => (0, 0, 0)
  | S754_finite false m e => (1, e, Z.pos m)
  | S754_infinity false => (2, 0, 0)
  end.
Definition key_lt (x y : Z * Z * Z) : Prop :=
  let '(a, b, c) := x in
  let '(a', b', c') := y in
  a < a' ∨ a = a' ∧ (b < b' ∨ b = b' ∧ c < c').

Lemma SFcompare_key x y : IsNaN x = false → IsNaN y = false →
  match SFcompare x y with
  | Some Lt => key_lt (float_key x) (float_key y)
  | Some Eq => float_key x = float_key y
  | Some Gt => key_lt (float_key y) (float_key x)
  | None => False
  end.
Proof.
  assert (Hp : ∀ p q, match Pos.compare_cont Eq p q with Lt => (p < q)%positive | Eq => p = q | Gt => (q < p)%positive end).
  { intros p q. fold (Pos.compare p q). destruct (Pos.compare_spec p q); done. }
  destruct x as [|[]| |[] m e], y as [|[]| |[] m' e']; cbn; try done; try lia.
  all: intros _ _; specialize (Hp m m'); destruct (Z.compare_spec e e'); subst; cbn; [|lia..].
  all: destruct (Pos.compare_cont Eq m m'); cbn; subst; try done; lia.
Qed.

Lemma key_lt_irrefl x : ¬ key_lt x x.
Proof. destruct x as [[a b] c]. cbn. lia. Qed.
Lemma key_lt_trans x y z : key_lt x y → key_lt y z → key_lt x z.
Proof. destruct x as [[a b] c], y as [[a' b'] c'], z as [[a2 b2] c2]. cbn. lia. Qed.
Lemma key_lt_total x y : key_lt x y ∨ x = y ∨ key_lt y x.
Proof.
  destruct x as [[a b] c], y as [[a' b'] c']. cbn.
  destruct (Z.lt_trichotomy a a') as [|[->|]]; [lia| |lia].
  destruct (Z.lt_trichotomy b b') as [|[->|]]; [lia| |lia].
  destruct (Z.lt_trichotomy c c') as [|[->|]]; [lia| |lia]. by right; left.
Qed.

Lemma SFltb_key x y : IsNaN x = false → IsNaN y = false → SFltb x y = true ↔ key_lt (float_key x) (float_key y).
Proof.
  intros Hx Hy. pose proof (SFcompare_key x y Hx Hy) as Hc. unfold SFltb. destruct (SFcompare x y) as [[]|]; [..|done].
  - rewrite Hc. split; [done|]. by intros ?%key_lt_irrefl.
  - done.
  - split; [done|]. intros Hl. by destruct (key_lt_irrefl _ (key_lt_trans _ _ _ Hl Hc)).
Qed.

Lemma SFeqb_key x y : IsNaN x = false → IsNaN y = false → SFeqb x y = true ↔ float_key x = float_key y.
Proof.
  intros Hx Hy. pose proof (SFcompare_key x y Hx Hy) as Hc. unfold SFeqb. destruct (SFcompare x y) as [[]|]; [..|done].
  - done.
  - split; [done|]. intros E. rewrite E in Hc. by destruct (key_lt_irrefl _ Hc).
  - split; [done|]. intros E. rewrite E in Hc. by destruct (key_lt_irrefl _ Hc).
Qed.

Lemma SFleb_key x y : IsNaN x = false → IsNaN y = false → SFleb x y = true ↔ ¬ key_lt (float_key y) (float_key x).
Proof.
  intros Hx Hy. pose proof (SFcompare_key x y Hx Hy) as Hc. unfold SFleb. destruct (SFcompare x y) as [[]|]; [..|done].
  - rewrite Hc. split; [|done]. by intros _ ?%key_lt_irrefl.
  - split; [|done]. intros _ Hl. by destruct (key_lt_irrefl _ (key_lt_trans _ _ _ Hl Hc)).
  - split; [done|]. by intros [].
Qed.

(** ** Comparing entries *)

Definition real_score (e : ZSetEntry) : Prop := IsNaN (ze_Score e) = false.
Definition entry_lt (a b : ZSetEntry) : Prop :=
  key_lt (float_key (ze_Score a)) (float_key (ze_Score b)) ∨
  float_key (ze_Score a) = float_key (ze_Score b) ∧ blt (ze_Member a) (ze_Member b) = true.

Lemma entry_less_spec a b : real_score a → real_score b → entry_less a b = true ↔ entry_lt a b.
Proof.
  intros Ha Hb. unfold entry_less, entry_lt. pose proof (SFeqb_key _ _ Ha Hb) as He. pose proof (SFltb_key _ _ Ha Hb) as Hl.
  destruct (SFeqb (ze_Score a) (ze_Score b)); cbn [negb].
  - assert (E : float_key (ze_Score a) = float_key (ze_Score b)) by by apply He. rewrite E.
    split; [by auto|]. intros [?%key_lt_irrefl|[_ ?]]; done.
  - rewrite Hl. split; [by auto|]. intros [?|[E _]]; [done|]. by apply He in E.
Qed.

Lemma entry_lt_irrefl a : ¬ entry_lt a a.
Proof. intros [?%key_lt_irrefl|[_ Hb]]; [done|]. by rewrite blt_irrefl in Hb. Qed.
Lemma entry_lt_trans a b c : entry_lt a b → entry_lt b c → entry_lt a c.
Proof.
  intros [Ha|[Ea Ha]] [Hb|[Eb Hb]]; unfold entry_lt.
  - left. by eapply key_lt_trans.
  - left. by rewrite <- Eb.
  - left. by rewrite Ea.
  - right. split; [congruence|by eapply blt_trans].
Qed.
Lemma entry_lt_total a b : ze_Member a ≠ ze_Member b → entry_lt a b ∨ entry_lt b a.
Proof.
  intros Hm. unfold entry_lt. destruct (key_lt_total (float_key (ze_Score a)) (float_key (ze_Score b))) as [?|[->|?]]; [by auto| |by auto].
  destruct (blt_total (ze_Member a) (ze_Member b)) as [?|[?|?]]; [by auto|done|by auto].
Qed.

Lemma entry_less_asym a b : entry_less a b = true → entry_less b a = false.
Proof.
  intros Hl. destruct (entry_less b a) eqn:Hl2; [|done].
  assert (real_score a ∧ real_score b) as [Ha Hb].
  { revert Hl. unfold entry_less, real_score. by destruct (ze_Score a), (ze_Score b). }
  apply entry_less_spec in Hl, Hl2; [|done..]. by destruct (entry_lt_irrefl _ (entry_lt_trans _ _ _ Hl Hl2)).
Qed.
#[global] Instance entry_le_total : Total entry_le.
Proof. intros a b. unfold entry_le. destruct (entry_less b a) eqn:E; [right; by apply entry_less_asym|by left]. Qed.

(** ** Sorted lists *)

Lemma Sorted_strongly {A} (R : relation A) (P : A → Prop) l :
  (∀ x y z, P x → P y → P z → R x y → R y z → R x z) → Forall P l → Sorted R l → StronglySorted R l.
Proof.
  intros Ht. induction l as [|x l IH]; [constructor|]. intros Hl0 Hs0. apply Forall_cons in Hl0 as [Hx Hl]. apply Sorted_inv in Hs0 as [Hs Hh].
  specialize (IH Hl Hs). constructor; [done|]. destruct Hh as [|y l' Hxy]; [constructor|].
  apply Forall_cons in Hl as [Hy Hl]. apply StronglySorted_inv in IH as [_ Hall]. constructor; [done|].
  rewrite Forall_forall in *. intros z Hz. by apply (Ht x y z); auto.
Qed.

(** [l] holds the entries of [m], in strict order. *)
Record sorted_of (m : gmap bytes spec_float) (l : list ZSetEntry) : Prop := {
  sorted_order : StronglySorted entry_lt l;
  sorted_in k s : mkEntry k s ∈ l ↔ m !! k = Some s
}.

Definition no_nan (m : gmap bytes spec_float) : Prop := map_Forall (λ _ f, IsNaN f = false) m.

(** A strictly sorted list is determined by its elements. *)
Lemma strictly_sorted_unique (l l' : list ZSetEntry) : StronglySorted entry_lt l → StronglySorted entry_lt l' →
  (∀ e, e ∈ l ↔ e ∈ l') → l = l'.
Proof.
  revert l'. induction l as [|x l IH]; intros l' Hs Hs' Hin.
  - destruct l' as [|y l']; [done|]. exfalso. assert (y ∈ []) as Hy by (apply Hin; set_solver). by apply not_elem_of_nil in Hy.
  - destruct l' as [|y l']; [exfalso; assert (x ∈ []) as Hy by (apply Hin; set_solver); by apply not_elem_of_nil in Hy|].
    apply StronglySorted_inv in Hs as [Hs Hx], Hs' as [Hs' Hy]. rewrite Forall_forall in *.
    assert (x = y) as ->.
    { assert (Hx' : x ∈ y :: l') by (apply Hin; set_solver). assert (Hy' : y ∈ x :: l) by (apply Hin; set_solver).
      apply elem_of_cons in Hx' as [?|Hx'], Hy' as [?|Hy']; [by subst..|].
      destruct (entry_lt_irrefl x). eapply entry_lt_trans; [by apply Hx|by apply Hy]. }
    f_equal. apply IH; [done..|]. intros e. specialize (Hin e). rewrite !elem_of_cons in Hin.
    split; intros He; destruct Hin as [H1 H2].
    + destruct H1 as [->|]; [by right| |done]. by destruct (entry_lt_irrefl y); apply Hx.
    + destruct H2 as [->|]; [by right| |done]. by destruct (entry_lt_irrefl y); apply Hy.
Qed.

Lemma sorted_of_unique m l l' : sorted_of m l → sorted_of m l' → l = l'.
Proof.
  intros [Hs Hin] [Hs' Hin']. apply strictly_sorted_unique; [done..|]. intros [k s]. by rewrite Hin, Hin'.
Qed.

Lemma sorted_NoDup m l : sorted_of m l → NoDup (ze_Member <$> l).
Proof.
  intros [Hs Hin]. assert (Hm : ∀ e, e ∈ l → m !! ze_Member e = Some (ze_Score e)) by (intros [k s]; by rewrite Hin).
  clear Hin. induction l as [|x l IH]; [constructor|]. apply StronglySorted_inv in Hs as [Hs Hx].
  cbn. constructor; [|apply IH; [done|]; intros e He; apply Hm; set_solver].
  intros (y & Ey & Hy)%list_elem_of_fmap. rewrite Forall_forall in Hx.
  assert (x = y) as ->.
  { assert (Hmx := Hm x ltac:(set_solver)). assert (Hmy := Hm y ltac:(set_solver)). rewrite Ey in Hmx.
    destruct x, y; cbn in *. congruence. }
  by destruct (entry_lt_irrefl y); apply Hx.
Qed.

Section Sorted.
Context `{RangeOrderLaws}.

Lemma range_entries_in (m : gmap bytes spec_float) k s : mkEntry k s ∈ range_entries m ↔ m !! k = Some s.
Proof.
  unfold range_entries. rewrite list_elem_of_omap. split.
  - intros (k' & Hk & E). destruct (m !! k') eqn:Em; cbn in E; [|done]. injection E as -> ->. done.
  - intros Hm. exists k. rewrite range_keys_perm, elem_of_elements, elem_of_dom, Hm. split; [by eauto|done].
Qed.

Lemma range_entries_members (m : gmap bytes spec_float) : ze_Member <$> range_entries m = range_keys (dom m).
Proof.
  unfold range_entries. assert (Hall : ∀ k, k ∈ range_keys (dom m) → is_Some (m !! k)).
  { intros k. by rewrite range_keys_perm, elem_of_elements, elem_of_dom. }
  induction (range_keys (dom m)) as [|k ks IH]; [done|]. destruct (Hall k ltac:(set_solver)) as [s Hs].
  cbn. rewrite Hs. cbn. f_equal. apply IH. intros k' Hk'. apply Hall. set_solver.
Qed.

Lemma sort_entries_sorted m : no_nan m → sorted_of m (sort_entries (range_entries m)).
Proof.
  intros Hn. unfold sort_entries. set (l := range_entries m).
  assert (Hreal : Forall real_score (merge_sort entry_le l)).
  { rewrite merge_sort_Permutation. apply Forall_forall. intros [k s] Hk. apply range_entries_in in Hk. by apply (Hn k). }
  assert (Hnd : NoDup (ze_Member <$> merge_sort entry_le l)).
  { rewrite merge_sort_Permutation. unfold l. rewrite range_entries_members, range_keys_perm. apply NoDup_elements. }
  split; [|intros k s; rewrite merge_sort_Permutation; apply range_entries_in].
  assert (Hs : StronglySorted entry_le (merge_sort entry_le l)).
  { eapply (Sorted_strongly _ real_score); [|done|apply Sorted_merge_sort, _].
    intros x y z Hx Hy Hz. unfold entry_le. intros Hxy Hyz.
    destruct (entry_less z x) eqn:E; [|done]. apply entry_less_spec in E; [|done..].
    assert (Nxy : ¬ entry_lt y x) by (rewrite <- entry_less_spec by done; congruence).
    assert (Nyz : ¬ entry_lt z y) by (rewrite <- entry_less_spec by done; congruence).
    destruct (decide (ze_Member x = ze_Member y)) as [Exy|Exy].
    - exfalso. revert E Nxy Nyz. unfold entry_lt. rewrite Exy, blt_irrefl.
      destruct (key_lt_total (float_key (ze_Score x)) (float_key (ze_Score y))) as [?|[->|?]]; [| |tauto]; intros E Nxy Nyz.
      + destruct E as [E|[E Eb]]; [|rewrite <- E in *; tauto]. apply Nyz. left. by eapply key_lt_trans.
      + tauto.
    - destruct (entry_lt_total x y Exy) as [Hl|]; [|done]. by destruct Nyz; eapply entry_lt_trans. }
  clear - Hs Hreal Hnd. induction (merge_sort entry_le l) as [|x k IH]; [constructor|].
  apply StronglySorted_inv in Hs as [Hs Hx]. apply Forall_cons in Hreal as [Hr Hreal]. apply NoDup_cons in Hnd as [Hm Hnd].
  constructor; [by apply IH|]. rewrite Forall_forall in *. intros y Hy. specialize (Hx y Hy).
  destruct (entry_lt_total x y) as [|Hl]; [|done|].
  - intros E. apply Hm. apply list_elem_of_fmap. by exists y.
  - apply entry_less_spec in Hl; [|by apply Hreal|done]. unfold entry_le in Hx. congruence.
Qed.
End Sorted.
