(* ===== verification/ZsetRanges.v ===== *)
(** * Ranges, removals and pops of sorted sets

    src/redis/zset: range.go, remove.go, pop.go and lex_commands.go. *)

From Stdlib Require Import SpecFloat.
From S2P Require Import Prelude GoBytes Strconv Floats Commands Writer Engine Sets Strings Hashes Lists Zsets.

Local Open Scope Z_scope.

(** ** Options *)

Record RangeOpts := mkRangeOpts {
  ro_byScore : bool; ro_byLex : bool; ro_rev : bool; ro_withScores : bool;
  ro_offset : Z; ro_count : Z; ro_hasLimit : bool
}.
Definition no_range_opts : RangeOpts := mkRangeOpts false false false false 0 (-1) false.

(** The options of the range commands; each command accepts some of them. *)
Fixpoint range_opts (accepted : list bytes) (args : list bytes) (o : RangeOpts) : result (Writer → Writer) RangeOpts :=
  match args with
  | [] => Ok o
  | a :: rest =>
    let opt := ToUpper a in
    let '(mkRangeOpts byScore byLex rev withScores offset count hasLimit) := o in
    if negb (bool_decide (opt ∈ accepted)) then Err WriteSyntaxError
    else if beq opt (str "BYSCORE") then range_opts accepted rest (mkRangeOpts true byLex rev withScores offset count hasLimit)
    else if beq opt (str "BYLEX") then range_opts accepted rest (mkRangeOpts byScore true rev withScores offset count hasLimit)
    else if beq opt (str "REV") then range_opts accepted rest (mkRangeOpts byScore byLex true withScores offset count hasLimit)
    else if beq opt (str "WITHSCORES") then range_opts accepted rest (mkRangeOpts byScore byLex rev true offset count hasLimit)
    else if beq opt (str "LIMIT") then
      match rest with
      | x :: y :: rest' =>
        match Atoi x with
        | None => Err WriteNotInteger
        | Some offset' =>
          match Atoi y with
          | None => Err WriteNotInteger
          | Some count' => range_opts accepted rest' (mkRangeOpts byScore byLex rev withScores offset' count' true)
          end
        end
      | _ => Err WriteSyntaxError
      end
    else Err WriteSyntaxError
  end.

(** What a range command selects. *)
Inductive Selection : Type :=
  | SelScore (minScore maxScore : spec_float) (minEx maxEx : bool)
  | SelLex (minBound maxBound : LexBound)
  | SelIndex (start stop : Z).

(** The entries selected; with REV the bounds of scores and members are given
    highest first. *)
Definition select_entries (sel : Selection) (o : RangeOpts) (sorted : list ZSetEntry) : list ZSetEntry :=
  match sel with
  | SelScore mn mx mnEx mxEx =>
    if ro_rev o then zsetFilterByScore sorted mx mn mxEx mnEx true (ro_offset o) (ro_count o)
    else zsetFilterByScore sorted mn mx mnEx mxEx false (ro_offset o) (ro_count o)
  | SelLex mn mx =>
    if ro_rev o then filter_by_lex sorted mx mn true (ro_offset o) (ro_count o)
    else filter_by_lex sorted mn mx false (ro_offset o) (ro_count o)
  | SelIndex start stop => zsetRangeByIndex sorted start stop (ro_rev o)
  end.

Section ZsetRanges.
Context `{Engine} `{ParseFloat} `{FormatG} `{RangeOrder}.

(** The bounds of ZRANGE and ZRANGESTORE. *)
Definition parse_selection (o : RangeOpts) (startArg stopArg : bytes) : result (Writer → Writer) Selection :=
  if ro_byScore o && ro_byLex o then Err WriteSyntaxError
  else if ro_hasLimit o && negb (ro_byScore o) && negb (ro_byLex o) then Err WriteSyntaxError
  else if ro_byLex o && ro_withScores o then Err WriteSyntaxError
  else if ro_byScore o then
    match ParseScore startArg, ParseScore stopArg with
    | Some (mn, mnEx), Some (mx, mxEx) => Ok (SelScore mn mx mnEx mxEx)
    | _, _ => Err (WriteError bad_score)
    end
  else if ro_byLex o then
    match ParseLexBound startArg, ParseLexBound stopArg with
    | Some mn, Some mx => Ok (SelLex mn mx)
    | _, _ => Err (WriteError bad_lex)
    end
  else match Atoi startArg with
  | None => Err WriteNotInteger
  | Some start =>
    match Atoi stopArg with
    | None => Err WriteNotInteger
    | Some stop => Ok (SelIndex start stop)
    end
  end.

(** ** Ranges *)

Definition zrange_runner (key : bytes) (sel : Selection) (o : RangeOpts) : M unit :=
  read_zset key (WriteArray 0) (λ snap,
    write (writeZSetEntries (select_entries sel o (zsetSortedMembers snap)) (ro_withScores o))).

Definition zrange_options : list bytes := [str "BYSCORE"; str "BYLEX"; str "REV"; str "WITHSCORES"; str "LIMIT"].

Definition handleZRange (args : list bytes) : Prep :=
  match args with
  | key :: startArg :: stopArg :: opts =>
    match range_opts zrange_options opts no_range_opts with
    | Err f => Refuse [key] f
    | Ok o =>
      match parse_selection o startArg stopArg with
      | Err f => Refuse [key] f
      | Ok sel => Accept [key] (zrange_runner key sel o)
      end
    end
  | _ => Refuse [] (WriteWrongNumArguments (str "zrange"))
  end.

Definition set_rev (o : RangeOpts) : RangeOpts :=
  mkRangeOpts (ro_byScore o) (ro_byLex o) true (ro_withScores o) (ro_offset o) (ro_count o) (ro_hasLimit o).

Definition handleZRevRange (args : list bytes) : Prep :=
  match args with
  | key :: startArg :: stopArg :: opts =>
    match Atoi startArg with
    | None => Refuse [key] WriteNotInteger
    | Some start =>
      match Atoi stopArg with
      | None => Refuse [key] WriteNotInteger
      | Some stop =>
        match range_opts [str "WITHSCORES"] opts no_range_opts with
        | Err f => Refuse [key] f
        | Ok o => Accept [key] (zrange_runner key (SelIndex start stop) (set_rev o))
        end
      end
    end
  | _ => Refuse [] (WriteWrongNumArguments (str "zrevrange"))
  end.

(** The bounds come before the options are looked at; ZREVRANGEBYSCORE takes
    the highest first. *)
Definition handle_by_score (rev : bool) (cmd : bytes) (args : list bytes) : Prep :=
  match args with
  | key :: first :: second :: opts =>
    match ParseScore first, ParseScore second with
    | Some (s1, ex1), Some (s2, ex2) =>
      match range_opts [str "WITHSCORES"; str "LIMIT"] opts no_range_opts with
      | Err f => Refuse [key] f
      | Ok o => Accept [key] (zrange_runner key (SelScore s1 s2 ex1 ex2) (if rev then set_rev o else o))
      end
    | _, _ => Refuse [key] (WriteError bad_score)
    end
  | _ => Refuse [] (WriteWrongNumArguments cmd)
  end.
Definition handleZRangeByScore : list bytes → Prep := handle_by_score false (str "zrangebyscore").
Definition handleZRevRangeByScore : list bytes → Prep := handle_by_score true (str "zrevrangebyscore").

Definition handle_by_lex (rev : bool) (cmd : bytes) (args : list bytes) : Prep :=
  match args with
  | key :: first :: second :: opts =>
    match ParseLexBound first, ParseLexBound second with
    | Some b1, Some b2 =>
      match range_opts [str "LIMIT"] opts no_range_opts with
      | Err f => Refuse [key] f
      | Ok o => Accept [key] (zrange_runner key (SelLex b1 b2) (if rev then set_rev o else o))
      end
    | _, _ => Refuse [key] (WriteError bad_lex)
    end
  | _ => Refuse [] (WriteWrongNumArguments cmd)
  end.
Definition handleZRangeByLex : list bytes → Prep := handle_by_lex false (str "zrangebylex").
Definition handleZRevRangeByLex : list bytes → Prep := handle_by_lex true (str "zrevrangebylex").

(** ** Removals *)

Definition remove_all (key : bytes) (members : list bytes) : M unit := for_each members (emitZSetRemove key).

(** The loop of ZREM over its arguments. *)
Fixpoint zrem_loop (key : bytes) (snap : option ReducedEffect) (removed : Z) (members : list bytes) : M Z :=
  match members with
  | [] => mret removed
  | m :: ms =>
    if has_member snap m
    then _ ← emitZSetRemove key m; zrem_loop key snap (removed + 1) ms
    else zrem_loop key snap removed ms
  end.

Definition handleZRem (args : list bytes) : Prep :=
  match args with
  | key :: ((_ :: _) as members) => Accept [key] (read_zset key (WriteInteger 0) (λ snap,
      removed ← zrem_loop key snap 0 members;
      write (WriteInteger removed)))
  | _ => Refuse [] (WriteWrongNumArguments (str "zrem"))
  end.

Definition remove_runner (key : bytes) (members : option ReducedEffect → list bytes) : M unit :=
  read_zset key (WriteInteger 0) (λ snap,
    _ ← remove_all key (members snap);
    write (WriteInteger (len (members snap)))).

Definition handleZRemRangeByScore (args : list bytes) : Prep :=
  match args with
  | [key; mn; mx] =>
    match ParseScore mn, ParseScore mx with
    | Some (minScore, minEx), Some (maxScore, maxEx) =>
      Accept [key] (remove_runner key (λ snap, ze_Member <$>
        filter (λ e, scoreInRange (ze_Score e) minScore maxScore minEx maxEx = true) (range_entries (scores snap))))
    | _, _ => Refuse [key] (WriteError bad_score)
    end
  | _ => Refuse [] (WriteWrongNumArguments (str "zremrangebyscore"))
  end.

(** The ranks are clamped as in [zsetRangeByIndex]. *)
Definition handleZRemRangeByRank (args : list bytes) : Prep :=
  match args with
  | [key; startArg; stopArg] =>
    match Atoi startArg with
    | None => Refuse [key] WriteNotInteger
    | Some start =>
      match Atoi stopArg with
      | None => Refuse [key] WriteNotInteger
      | Some stop =>
        Accept [key] (remove_runner key (λ snap, ze_Member <$> zsetRangeByIndex (zsetSortedMembers snap) start stop false))
      end
    end
  | _ => Refuse [] (WriteWrongNumArguments (str "zremrangebyrank"))
  end.

Definition handleZRemRangeByLex (args : list bytes) : Prep :=
  match args with
  | [key; mn; mx] =>
    match ParseLexBound mn, ParseLexBound mx with
    | Some minBound, Some maxBound =>
      Accept [key] (remove_runner key (λ snap,
        filter (λ k, InLexRange k minBound maxBound = true) (range_keys (dom (net_adds snap)))))
    | _, _ => Refuse [key] (WriteError bad_lex)
    end
  | _ => Refuse [] (WriteWrongNumArguments (str "zremrangebylex"))
  end.

(** ** Pops *)

(** The entries at the end that is popped, as many as there are up to [count]. *)
Definition popped_entries (popMin : bool) (count : Z) (sorted : list ZSetEntry) : list ZSetEntry :=
  take (Z.to_nat (Z.min count (len sorted))) (if popMin then sorted else reverse sorted).

(** BeginTx, the read recorded, and the removals. *)
Definition pop_entries (key : bytes) (tips : list Tip) (entries : list ZSetEntry) : M unit :=
  _ ← begin_tx;
  _ ← emit (mkEffect key Effect_Noop) tips;
  remove_all key (ze_Member <$> entries).

Definition zpop_runner (popMin : bool) (key : bytes) (count : Z) (hasCount : bool) : M unit :=
  s ← getZSetSnapshot key;
  if negb (ks_exists s) then reply (WriteArray 0)
  else if ks_wrongType s then reply WriteWrongType
  else
    let sorted := zsetSortedMembers (ks_snap s) in
    if len sorted =? 0 then reply (WriteArray 0)
    else
      let entries := popped_entries popMin count sorted in
      _ ← pop_entries key (ks_tips s) entries;
      write (λ w, write_pairs (bool_decide (w_protocol w = RESP3) && hasCount) entries w).

Definition handle_zpop (popMin : bool) (cmd : bytes) (args : list bytes) : Prep :=
  match args with
  | [key] => Accept [key] (zpop_runner popMin key 1 false)
  | [key; n] =>
    match Atoi n with
    | None => Refuse [key] WriteNotInteger
    | Some count =>
      if count <? 0 then Refuse [key] (WriteError (str "ERR value is out of range, must be positive"))
      else Accept [key] (zpop_runner popMin key count true)
    end
  | _ => Refuse [] (WriteWrongNumArguments cmd)
  end.
Definition handleZPopMin : list bytes → Prep := handle_zpop true (str "zpopmin").
Definition handleZPopMax : list bytes → Prep := handle_zpop false (str "zpopmax").

(** *** ZMPOP *)

Inductive ZMPopArgs : Type :=
  | ZMPop (keys : list bytes) (popMin : bool) (count : Z)
  | ZMPopRefuse (keys : list bytes) (f : Writer → Writer)
  | ZMPopPanic.

Fixpoint zmpop_count (args : list bytes) (hasCount : bool) (count : Z) : result (Writer → Writer) Z :=
  match args with
  | [] => Ok count
  | opt :: rest =>
    if negb (beq (ToUpper opt) (str "COUNT")) then Err WriteSyntaxError
    else if hasCount then Err WriteSyntaxError
    else match rest with
    | [] => Err WriteSyntaxError
    | c :: rest' =>
      match Atoi c with
      | None => Err (WriteError (str "ERR count must be positive"))
      | Some n => if n <=? 0 then Err (WriteError (str "ERR count must be positive")) else zmpop_count rest' true n
      end
    end
  end.

(** [args] starts with numkeys; [before] arguments come ahead of it. *)
Definition parse_zmpop (before : Z) (args : list bytes) : ZMPopArgs :=
  match args with
  | [] => ZMPopPanic
  | a :: rest =>
    match Atoi a with
    | None => ZMPopRefuse [] (WriteError (str "ERR numkeys should be greater than 0"))
    | Some numKeys =>
      if numKeys <=? 0 then ZMPopRefuse [] (WriteError (str "ERR numkeys should be greater than 0"))
      else if before + len args <? i64 (numKeys + 2 + before) then ZMPopRefuse [] WriteSyntaxError
      else if negb (make_strings numKeys) then ZMPopPanic
      else
        let keys := take (Z.to_nat numKeys) rest in
        match drop (Z.to_nat numKeys) rest with
        | [] => ZMPopPanic
        | d :: more =>
          let direction := ToUpper d in
          if negb (beq direction (str "MIN") || beq direction (str "MAX")) then ZMPopRefuse keys WriteSyntaxError
          else match zmpop_count more false 1 with
          | Err f => ZMPopRefuse keys f
          | Ok count => ZMPop keys (beq direction (str "MIN")) count
          end
        end
    end
  end.

Definition mpop_reply (key : bytes) (entries : list ZSetEntry) (w : Writer) : Writer :=
  write_pairs true entries (WriteBulkStringStr key (WriteArray 2 w)).

(** The first key that holds anything; a key of another type ends the search. *)
Fixpoint zmpop_first (popMin : bool) (count : Z) (keys : list bytes) : M unit :=
  match keys with
  | [] => write WriteNullArray
  | key :: keys' =>
    s ← getZSetSnapshot key;
    if ks_wrongType s then reply WriteWrongType
    else if negb (ks_exists s) then zmpop_first popMin count keys'
    else
      let sorted := zsetSortedMembers (ks_snap s) in
      if len sorted =? 0 then zmpop_first popMin count keys'
      else
        let entries := popped_entries popMin count sorted in
        _ ← pop_entries key (ks_tips s) entries;
        write (mpop_reply key entries)
  end.

Definition handleZMPop (args : list bytes) : Prep :=
  if len args <? 3 then Refuse [] (WriteWrongNumArguments (str "zmpop"))
  else match parse_zmpop 0 args with
  | ZMPop keys popMin count => Accept keys (zmpop_first popMin count keys)
  | ZMPopRefuse keys f => Refuse keys f
  | ZMPopPanic => Crash
  end.
End ZsetRanges.
