(* ===== verification/HashTheorems.v ===== *)
(** * What the hash commands do to a hash

    The finite map a key stands for, with the expiries of its fields, and the
    steps of the hash commands on it. *)

From S2P Require Import Prelude GoBytes Strconv Floats Commands Writer Engine Runs Sets SetProps Strings Hashes.

Local Open Scope Z_scope.

(** ** The hash a key stands for *)

(** A missing or deleted key is the empty hash; a keyed collection is the map
    of its elements, [e] their expiries. *)
Definition is_hash (v : option ReducedEffect) (m : gmap bytes Value) (e : gmap bytes Timestamp) : Prop :=
  match v with
  | Some r =>
    if is_live v then re_Collection r = KEYED ∧ re_NetAdds r = m ∧ re_FieldExpires r = e
    else m = ∅ ∧ e = ∅
  | None => m = ∅ ∧ e = ∅
  end.

(** A live key of another kind. *)
Definition not_hash (v : option ReducedEffect) : Prop :=
  match v with
  | Some r => re_Op r = INSERT_OP ∧ re_Collection r ≠ KEYED ∧
              ¬ (re_Collection r = SCALAR ∧ re_TypeTag r = TYPE_HASH)
  | None => False
  end.

(** The type tag and the expiry of a key. *)
Definition attrs (v : option ReducedEffect) : option (ValueType * option Timestamp) :=
  (λ r, (re_TypeTag r, re_ExpiresAt r)) <$> v.

(** The expiries agree but for the fields [fs]. *)
Definition agree (fs : list bytes) (e e' : gmap bytes Timestamp) : Prop := ∀ f, f ∉ fs → e' !! f = e !! f.

Lemma agree_trans fs fs' e e' e'' : agree fs e e' → agree fs' e' e'' → agree (fs ++ fs') e e''.
Proof. intros Ha Hb f Hf. rewrite Hb, Ha by set_solver. done. Qed.

Lemma is_hash_dead v m e : is_live v = false → is_hash v m e → m = ∅ ∧ e = ∅.
Proof. destruct v as [r|]; [|done]. unfold is_hash. by intros ->. Qed.

Lemma is_hash_live v m e : is_live v = true → is_hash v m e →
  ∃ r, v = Some r ∧ re_Collection r = KEYED ∧ re_NetAdds r = m ∧ re_FieldExpires r = e.
Proof. destruct v as [r|]; [|done]. unfold is_hash. intros ->. by exists r. Qed.

Section HashRuns.
Context `{EngineLaws}.

(** ** Reading *)

Lemma steps_hash_snapshot key st : healthy (st_ctx st) →
  ∃ tips, steps (getHashSnapshot key) st (classify_hash (view (st_ctx st) key) tips) (same (st_ctx st)).
Proof.
  intros Hh. destruct (steps_get key st Hh) as [tips Hg]. exists tips. eapply steps_bind; [exact Hg|].
  cbv beta iota. intros c' Hh' Hs. by apply (steps_ret _ (mkSt c' _ _)).
Qed.

(** What a handler sees of a hash. *)
Record sees (s : KeySnap) (v : option ReducedEffect) (m : gmap bytes Value) (e : gmap bytes Timestamp) : Prop := {
  sees_type : ks_wrongType s = false;
  sees_exists : ks_exists s = is_live v;
  sees_fields : net_adds (ks_snap s) = m;
  sees_member f : has_member (ks_snap s) f = bool_decide (is_Some (m !! f));
  sees_expiry f : hashFieldExpiresAt (ks_snap s) f = (λ _, default zero_time (e !! f)) <$> m !! f
}.

Lemma classify_sees v tips m e : is_hash v m e → sees (classify_hash v tips) v m e.
Proof.
  unfold is_hash, classify_hash. destruct v as [r|]; [rewrite is_live_remove|].
  2: { intros [-> ->]. by split. }
  case_bool_decide as Hop; cbn [negb].
  { intros [-> ->]. split; try done. by rewrite is_live_remove, bool_decide_eq_true_2. }
  intros (Hk & <- & <-). rewrite (bool_decide_eq_true_2 (re_Collection r = KEYED)) by done.
  split; try done; cbn [ks_exists ks_snap].
  by rewrite is_live_remove, bool_decide_eq_false_2.
Qed.

Lemma classify_not_hash v tips : not_hash v →
  ks_exists (classify_hash v tips) = true ∧ ks_wrongType (classify_hash v tips) = true.
Proof.
  unfold classify_hash. destruct v as [r|]; [|done]. intros (Hop & Hk & Hs).
  rewrite bool_decide_eq_false_2 by (rewrite Hop; done). rewrite bool_decide_eq_false_2 by done.
  destruct (bool_decide_reflect (re_Collection r = SCALAR)), (bool_decide_reflect (re_TypeTag r = TYPE_HASH));
    naive_solver.
Qed.

(** A command that reads a hash, and one that finds another type. *)
Lemma finishes_read_hash key missing found st m e w Q : healthy (st_ctx st) →
  is_hash (view (st_ctx st) key) m e →
  (is_live (view (st_ctx st) key) = false → missing (st_w st) = w ∧ ∀ c', same (st_ctx st) c' → Q c') →
  (∀ s c', sees s (view (st_ctx st) key) m e → healthy c' → same (st_ctx st) c' →
     is_live (view (st_ctx st) key) = true → finishes (found (ks_snap s)) (mkSt c' (st_w st) (st_held st)) w Q) →
  finishes (read_hash key missing found) st w Q.
Proof.
  intros Hh Hx Hm Hf. destruct (steps_hash_snapshot key st Hh) as [tips Hg]. unfold read_hash.
  eapply finishes_bind; [exact Hg|]. cbv beta. intros c' Hh' Hs.
  pose proof (classify_sees _ tips _ _ Hx) as Hse. rewrite (sees_exists _ _ _ _ Hse), (sees_type _ _ _ _ Hse).
  destruct (is_live (view (st_ctx st) key)) eqn:El; cbn [negb]; [by apply Hf|].
  destruct (Hm eq_refl) as [Hw HQ]. apply finishes_reply; [done|exact Hw|by apply HQ].
Qed.

Lemma finishes_read_not_hash key missing found st : healthy (st_ctx st) → not_hash (view (st_ctx st) key) →
  finishes (read_hash key missing found) st (WriteWrongType (st_w st)) (same (st_ctx st)).
Proof.
  intros Hh Hx. destruct (steps_hash_snapshot key st Hh) as [tips Hg]. unfold read_hash.
  eapply finishes_bind; [exact Hg|]. cbv beta. intros c' Hh' Hs.
  destruct (classify_not_hash _ tips Hx) as [-> ->]. by apply finishes_reply.
Qed.

(** ** Writing *)

(** From [c], the key has become the live hash [m], the expiries changed only at
    [fs]; its tag and expiry are what they were, or those of a new hash. *)
Record grown (c : Ctx) (key : bytes) (m : gmap bytes Value) (fs : list bytes) (e e' : gmap bytes Timestamp)
    (tag : ValueType → Prop) (c' : Ctx) : Prop := {
  grown_hash : is_hash (view c' key) m e';
  grown_live : is_live (view c' key) = true;
  grown_agree : agree fs e e';
  grown_attrs : if is_live (view c key) then attrs (view c' key) = attrs (view c key)
                else ∃ t, tag t ∧ attrs (view c' key) = Some (t, None);
  grown_others : others c key c'
}.

Definition any_tag (_ : ValueType) : Prop := True.

Lemma grown_trans c key m fs e e' tag c' m2 fs2 e2 tag2 c'' :
  grown c key m fs e e' tag c' → grown c' key m2 fs2 e' e2 tag2 c'' → grown c key m2 (fs ++ fs2) e e2 tag c''.
Proof.
  intros [Ha La Ga Ta Oa] [Hb Lb Gb Tb Ob]. rewrite La in Tb. split; [done|done| | |].
  - by eapply agree_trans.
  - by rewrite Tb.
  - by eapply others_trans.
Qed.

(** An effect that inserts an element, whatever it stores. *)
Lemma steps_element key f v kind st m e : healthy (st_ctx st) → is_hash (view (st_ctx st) key) m e →
  (is_live (view (st_ctx st) key) = false →
     ∃ tag, view (snd (Emit (mkEffect key kind) [] (st_ctx st))) key = Some (mkReduced INSERT_OP KEYED tag None {[ f := v ]} [])) →
  (∀ r, view (st_ctx st) key = Some r → re_Collection r = KEYED → re_NetAdds r = m → is_live (view (st_ctx st) key) = true →
     ∃ x, view (snd (Emit (mkEffect key kind) [] (st_ctx st))) key =
       Some (mkReducedAt INSERT_OP KEYED (re_TypeTag r) (re_Scalar r) (<[f := v]> (re_NetAdds r)) [] (re_ExpiresAt r)
               (partial_alter (λ _, x) f (re_FieldExpires r)))) →
  steps (emit (mkEffect key kind) []) st tt (λ c', ∃ e', grown (st_ctx st) key (<[f := v]> m) [f] e e' any_tag c').
Proof.
  intros Hh Hx Hdead Hlive. eapply steps_weaken; [by apply steps_emit|]. cbv beta. intros c' [Hv Ho].
  destruct (is_live (view (st_ctx st) key)) eqn:El.
  - destruct (is_hash_live _ _ _ El Hx) as (r & Hr & Hk & Hm & He).
    destruct (Hlive r Hr Hk Hm eq_refl) as [x Hx']. rewrite Hx' in Hv. subst m e.
    exists (partial_alter (λ _, x) f (re_FieldExpires r)). split; rewrite ?Hv; cbn [is_hash is_live re_Op]; try done.
    + intros g Hg. rewrite lookup_partial_alter_ne; [done|]. set_solver.
    + rewrite El, Hr. done.
  - destruct (is_hash_dead _ _ _ El Hx) as [-> ->]. destruct (Hdead eq_refl) as [tag Ht]. rewrite Ht in Hv.
    exists ∅. split; rewrite ?Hv; try done. rewrite El. by exists tag.
Qed.

Lemma steps_hash_insert key f b st m e : healthy (st_ctx st) → is_hash (view (st_ctx st) key) m e →
  steps (emitHashInsert key f b) st tt (λ c', ∃ e', grown (st_ctx st) key (<[f := Raw b]> m) [f] e e' any_tag c').
Proof.
  intros Hh Hx. apply steps_element; [done|done| |].
  - intros El. by apply law_revive.
  - intros r Hr Hk Hm El. destruct (law_rekey key f (Raw b) [] _ r Hh Hr El) as (x & Hv & _); [by rewrite Hk|].
    by exists x.
Qed.

Lemma steps_hash_add key f n d st m e : healthy (st_ctx st) → is_hash (view (st_ctx st) key) m e →
  match m !! f with Some v => value_int Decompress v | None => Some 0 end = Some n → is_i64 (n + d) →
  steps (emitHashIncrInt key f d) st tt (λ c', ∃ e', grown (st_ctx st) key (<[f := IntVal (n + d)]> m) [f] e e' any_tag c').
Proof.
  intros Hh Hx Hn Hi. apply steps_element; [done|done| |].
  - intros El. destruct (is_hash_dead _ _ _ El Hx) as [-> _]. rewrite lookup_empty in Hn. injection Hn as <-.
    by apply law_add_new.
  - intros r Hr Hk Hm El. destruct (law_add_element key f n d [] _ r Hh Hr El) as (x & Hv & _);
      [by rewrite Hk|unfold element_int; by rewrite Hm|done|]. by exists x.
Qed.

(** The tag of a collection that is new in [c0]. *)
Lemma steps_tag_fresh tag key s st c0 m fs e e' : tag ≠ TYPE_UNSPECIFIED → healthy (st_ctx st) →
  ks_exists s = is_live (view c0 key) → grown c0 key m fs e e' any_tag (st_ctx st) →
  steps (if negb (ks_exists s) then emit (mkEffect key (Effect_Meta (tag_meta tag))) [] else mret tt) st tt
    (grown c0 key m fs e e' (λ t, t = tag)).
Proof.
  intros Htag Hh Hs [Ha La Ga Ta Oa]. rewrite Hs. destruct (is_live (view c0 key)) eqn:El; cbn [negb].
  { apply steps_ret; [done|]. split; try done. by rewrite El. }
  destruct (is_hash_live _ _ _ La Ha) as (r & Hr & Hk & Hm & He).
  assert (Hred : reduce (view (st_ctx st) key) (Effect_Meta (tag_meta tag)) = Some (Some (set_tag tag r))).
  { rewrite Hr. cbn [reduce]. unfold reduce_meta. cbn [tag_meta me_ElementId me_TypeTag me_ExpiresAt].
    by rewrite bool_decide_eq_false_2. }
  eapply steps_weaken; [by apply steps_reduce|]. cbv beta. intros c' [Hv Ho].
  rewrite Hr in La, Ta. destruct Ta as (t & _ & Ht). cbn in Ht.
  split; rewrite ?Hv; [|done|done| |by eapply others_trans].
  - unfold is_hash. cbn [is_live] in *. cbn [set_tag re_Op re_Collection re_NetAdds re_FieldExpires]. by rewrite La.
  - rewrite El. exists tag. split; [done|]. unfold attrs, set_tag. cbn. by injection Ht as _ ->.
Qed.

Lemma steps_tag_new key s st c0 m fs e e' : healthy (st_ctx st) → ks_exists s = is_live (view c0 key) →
  grown c0 key m fs e e' any_tag (st_ctx st) →
  steps (tag_new_hash key s) st tt (grown c0 key m fs e e' (λ t, t = TYPE_HASH)).
Proof. by apply steps_tag_fresh. Qed.

(** *** Loops *)

(** The map after the pairs are set in turn. *)
Definition put_all (fvs : list (bytes * bytes)) (m : gmap bytes Value) : gmap bytes Value :=
  foldl (λ m fv, <[fst fv := Raw (snd fv)]> m) m fvs.

(** A loop of steps each of which sets one pair, from a hash or from nothing. *)
Lemma steps_puts (step : bytes * bytes → M unit) key fv fvs st m e :
  (∀ fv st m e, healthy (st_ctx st) → is_hash (view (st_ctx st) key) m e →
     steps (step fv) st tt (λ c', ∃ e', grown (st_ctx st) key (<[fst fv := Raw (snd fv)]> m) [fst fv] e e' any_tag c')) →
  healthy (st_ctx st) → is_hash (view (st_ctx st) key) m e →
  steps (for_each (fv :: fvs) step) st tt (λ c',
    ∃ e', grown (st_ctx st) key (put_all (fv :: fvs) m) (fst <$> fv :: fvs) e e' any_tag c').
Proof.
  intros Hstep. revert fv st m e. induction fvs as [|fv2 fvs IH]; intros fv st m e Hh Hx.
  - cbn [for_each]. eapply steps_bind; [by apply Hstep|]. cbv beta. intros c' Hh' Hg.
    by apply (steps_ret tt (mkSt c' _ _)).
  - change (for_each (fv :: fv2 :: fvs) step) with (step fv ≫= λ _, for_each (fv2 :: fvs) step).
    eapply steps_bind; [by apply Hstep|]. cbv beta. intros c' Hh' [e1 Hg].
    eapply steps_weaken; [apply (IH fv2 (mkSt c' _ _) (<[fst fv := Raw (snd fv)]> m) e1); [done|apply Hg]|]. cbv beta. cbn [st_ctx].
    intros c'' [e2 Hg2]. exists e2. change (fst <$> fv :: fv2 :: fvs) with ([fst fv] ++ (fst <$> fv2 :: fvs)).
    by eapply grown_trans.
Qed.

Lemma set_fields_eq key snap added fvs st :
  set_fields key snap added fvs st =
  (for_each fvs (λ fv, emitHashInsert key (fst fv) (snd fv)) ≫=
   λ _, mret (added + len (filter (λ fv, has_member snap (fst fv) = false) fvs))) st.
Proof.
  revert added st. induction fvs as [|[f v] fvs IH]; intros added st.
  - cbn. unfold mbind, M_bind, mret, M_ret. by rewrite Z.add_0_r.
  - cbn [set_fields for_each fst snd]. unfold mbind at 1 2 3, M_bind at 1 2 3.
    destruct (emitHashInsert key f v st) as [[] st']; try done. rewrite IH. unfold mbind, M_bind.
    destruct (for_each fvs _ st') as [[] st'']; try done. unfold mret, M_ret. do 2 f_equal.
    rewrite filter_cons. cbn [fst]. destruct (has_member snap f); cbn [bool_decide decide];
      [rewrite decide_False by done|rewrite decide_True by done; rewrite len_cons]; lia.
Qed.

(** *** Removing *)

(** From [c], the key has become the hash [m]; the expiries of the fields left
    are unchanged. *)
Record shrunk (c : Ctx) (key : bytes) (m : gmap bytes Value) (e : gmap bytes Timestamp) (c' : Ctx) : Prop := {
  shrunk_hash : ∃ e', is_hash (view c' key) m e' ∧ ∀ f, is_Some (m !! f) → e' !! f = e !! f;
  shrunk_others : others c key c'
}.

Lemma steps_hash_remove key f st m e : healthy (st_ctx st) → is_hash (view (st_ctx st) key) m e → is_Some (m !! f) →
  steps (emitHashRemove key f) st tt (shrunk (st_ctx st) key (delete f m) e).
Proof.
  intros Hh Hx Hf. destruct (is_live (view (st_ctx st) key)) eqn:El.
  2: { destruct (is_hash_dead _ _ _ El Hx) as [-> _]. rewrite lookup_empty in Hf. by destruct Hf. }
  destruct (is_hash_live _ _ _ El Hx) as (r & Hr & Hk & <- & <-).
  assert (Hred : reduce (view (st_ctx st) key) (keyed_remove f) = Some
    (if bool_decide (delete f (re_NetAdds r) = ∅) && bool_decide (re_Scalar r = None) then None
     else Some (mkReducedAt INSERT_OP KEYED (re_TypeTag r) (re_Scalar r) (delete f (re_NetAdds r)) []
                  (re_ExpiresAt r) (delete f (re_FieldExpires r))))).
  { rewrite Hr in *. unfold keyed_remove, reduce. cbn [de_Collection de_Op de_Id]. rewrite El, Hk. cbn [negb].
    by destruct (_ && _). }
  eapply steps_weaken; [by apply steps_reduce|]. cbv beta. intros c' [Hv Ho]. split; [|done].
  destruct (bool_decide_reflect (delete f (re_NetAdds r) = ∅)) as [He|He]; [destruct (bool_decide_reflect (re_Scalar r = None))|];
    cbn [andb] in Hv; rewrite Hv.
  1: exists ∅; rewrite He; split; [done|]; intros g [? Hg]; by rewrite lookup_empty in Hg.
  all: exists (delete f (re_FieldExpires r)); (split; [done|]); intros g [? Hg];
    apply lookup_delete_Some in Hg as [? _]; by rewrite lookup_delete_ne.
Qed.

Lemma shrunk_trans (c c' c'' : Ctx) (key : bytes) (m m2 : gmap bytes Value) (e e' : gmap bytes Timestamp) : (∀ f, is_Some (m2 !! f) → is_Some (m !! f)) →
  (∀ f, is_Some (m !! f) → e' !! f = e !! f) → others c key c' → shrunk c' key m2 e' c'' → shrunk c key m2 e c''.
Proof.
  intros Hsub He Ho [(e2 & Hx & H2) Ho2]. split; [|by eapply others_trans]. exists e2. split; [done|].
  intros f Hf. rewrite H2, He by auto. done.
Qed.

(** The map without the fields [fs]. *)
Definition drop_fields (fs : list bytes) (m : gmap bytes Value) : gmap bytes Value := foldl (λ m f, delete f m) m fs.

Lemma drop_fields_lookup fs m f : drop_fields fs m !! f = if decide (f ∈ fs) then None else m !! f.
Proof.
  revert m. induction fs as [|g fs IH]; intros m; [done|]. cbn [drop_fields foldl]. unfold drop_fields in IH. rewrite IH.
  destruct (decide (f ∈ fs)), (decide (f ∈ g :: fs)); try set_solver.
  - destruct (decide (f = g)) as [->|]; [by rewrite lookup_delete_eq|set_solver].
  - rewrite lookup_delete_ne by set_solver. done.
Qed.

(** A loop that removes the distinct members among [fs]. *)
Lemma delete_fields_eq key snap d fs st :
  delete_fields key snap d fs st =
  (for_each (filter (λ f, has_member snap f = true) fs) (emitHashRemove key) ≫=
   λ _, mret (d + len (filter (λ f, has_member snap f = true) fs))) st.
Proof.
  revert d st. induction fs as [|f fs IH]; intros d st.
  - cbn. unfold mbind, M_bind, mret, M_ret. by rewrite Z.add_0_r.
  - cbn [delete_fields]. rewrite filter_cons. destruct (has_member snap f).
    + rewrite decide_True by done. cbn [for_each]. unfold mbind at 1 2 3, M_bind at 1 2 3.
      destruct (emitHashRemove key f st) as [[] st']; try done. rewrite IH. unfold mbind, M_bind.
      destruct (for_each _ _ st') as [[] st'']; try done. unfold mret, M_ret. do 2 f_equal.
      rewrite len_cons. lia.
    + rewrite decide_False by done. apply IH.
Qed.

Lemma steps_removes key fs st m e : healthy (st_ctx st) → is_hash (view (st_ctx st) key) m e → NoDup fs →
  Forall (λ f, is_Some (m !! f)) fs →
  steps (for_each fs (emitHashRemove key)) st tt (shrunk (st_ctx st) key (drop_fields fs m) e).
Proof.
  revert st m e. induction fs as [|f fs IH]; intros st m e Hh Hx Hnd Hall.
  - apply steps_ret; [done|]. split; [by exists e|done].
  - apply NoDup_cons in Hnd as [Hf Hnd]. apply Forall_cons in Hall as [Hm Hall]. cbn [for_each].
    eapply steps_bind; [by apply (steps_hash_remove key f st m e)|]. cbv beta. intros c' Hh' [(e1 & Hx1 & He1) Ho1].
    eapply steps_weaken; [apply (IH (mkSt c' _ _) (delete f m) e1); [done|done|done|]|].
    + rewrite Forall_forall in *. intros g Hg. rewrite lookup_delete_ne by set_solver. auto.
    + cbv beta. cbn [st_ctx]. intros c'' Hs. eapply shrunk_trans; [|exact He1|exact Ho1|exact Hs].
      intros g. rewrite drop_fields_lookup. case_decide as Hg; [by intros []|]. by rewrite lookup_delete_ne by set_solver.
Qed.
End HashRuns.

(** * What the hash commands answer and leave behind *)


Section HashLaws.
Context `{EngineLaws} `{ParseFloat} `{FormatFloat} `{RangeOrderLaws} `{Rand} `{UnicodeCase} `{GlobMatch}.

(** A field's value as bytes. *)
Definition field_bytes (m : gmap bytes Value) (f : bytes) : option bytes := elementValueBytes <$> m !! f.

Lemma sees_value s v m e f : sees s v m e → hashFieldValue (ks_snap s) f = field_bytes m f.
Proof. intros Hs. unfold hashFieldValue. by rewrite (sees_fields _ _ _ _ Hs). Qed.

(** The fields and values of a hash in the order of a map iteration. *)
Definition visited (m : gmap bytes Value) : list (bytes * bytes) :=
  omap (λ f, pair f ∘ elementValueBytes <$> m !! f) (range_keys (dom m)).

Lemma sees_visited s v m e : sees s v m e → range_fields (ks_snap s) = visited m.
Proof. intros Hs. unfold range_fields. by rewrite (sees_fields _ _ _ _ Hs). Qed.

Lemma visited_perm m : visited m ≡ₚ (λ p, (fst p, elementValueBytes (snd p))) <$> map_to_list m.
Proof.
  unfold visited. rewrite (omap_Permutation _ _ _ (range_keys_perm (dom m))).
  induction m as [|f x m Hf IH] using map_ind; [by rewrite dom_empty_L, elements_empty, map_to_list_empty|].
  rewrite dom_insert_L, elements_union_singleton by (by apply not_elem_of_dom). rewrite map_to_list_insert by done.
  cbn [omap list_omap fmap list_fmap fst snd]. rewrite lookup_insert_eq. cbn [fmap option_fmap option_map compose].
  apply Permutation_skip. rewrite <- IH. apply reflexive_eq. apply list_omap_ext.
  apply Forall2_same_length_lookup. split; [done|].
  intros i y z Hy Hz. rewrite Hy in Hz. injection Hz as <-. rewrite lookup_insert_ne; [done|].
  intros <-. apply list_elem_of_lookup_2 in Hy. apply elem_of_elements, elem_of_dom in Hy as [? Hy]. by rewrite Hf in Hy.
Qed.

Lemma visited_empty : visited ∅ = [].
Proof. unfold visited. by rewrite dom_empty_L, range_keys_empty. Qed.

(** A command that only reads: [w] is the reply for the map, and also the reply
    for a missing key when the map is empty. *)
Lemma reads_hash key missing found st m e w : healthy (st_ctx st) → is_hash (view (st_ctx st) key) m e →
  (m = ∅ → missing (st_w st) = w) →
  (∀ s c', sees s (view (st_ctx st) key) m e → healthy c' → same (st_ctx st) c' →
     finishes (found (ks_snap s)) (mkSt c' (st_w st) (st_held st)) w (same (st_ctx st))) →
  finishes (read_hash key missing found) st w (same (st_ctx st)).
Proof.
  intros Hh Hx Hm Hf. eapply finishes_read_hash; [done|done| |].
  - intros El. destruct (is_hash_dead _ _ _ El Hx) as [Hem _]. split; [by apply Hm|done].
  - intros s c' Hs Hh' Hsame _. by apply Hf.
Qed.

Lemma for_each_ext {A} (l : list A) (f g : A → M unit) : (∀ x, f x = g x) → for_each l f = for_each l g.
Proof. intros Hfg. induction l as [|x l IH]; [done|]. cbn [for_each]. by rewrite Hfg, IH. Qed.

(** A loop that writes each of its elements in two pieces. *)
Lemma finishes_for_each_write2 {A} (g1 g2 : A → Writer → Writer) l st (P : Ctx → Prop) :
  healthy (st_ctx st) → P (st_ctx st) →
  finishes (for_each l (λ x, _ ← write (g1 x); write (g2 x))) st (foldl (λ w x, g2 x (g1 x w)) (st_w st) l) P.
Proof.
  revert st. induction l as [|x l IH]; intros st Hh HP; [by apply finishes_ret|].
  cbn [for_each foldl]. by apply (IH (mkSt _ _ _)).
Qed.

Lemma array_of_nulls fs w : array_of WriteNullBulkString (length fs) w =
  foldl (λ w g, bulk_or_null (field_bytes ∅ g) w) (WriteArray (len fs) w) fs.
Proof.
  unfold array_of, len. generalize (WriteArray (Z.of_nat (length fs)) w). clear. intros w. revert w.
  induction fs as [|f fs IH]; intros w; [done|]. cbn [length foldl]. unfold field_bytes at 2.
  rewrite lookup_empty. cbn [fmap option_fmap option_map bulk_or_null]. rewrite <- IH. by rewrite Nat.iter_succ_r.
Qed.

(** HGET, HEXISTS, HLEN, HSTRLEN and HMGET read the map the key stands for;
    HKEYS, HVALS and HGETALL visit each of its fields once, in some order. *)
Theorem hash_reads_correct (key f : bytes) (fs : list bytes) (st : St) (m : gmap bytes Value)
    (e : gmap bytes Timestamp) :
  healthy (st_ctx st) → is_hash (view (st_ctx st) key) m e →
  ∃ hget hexists hlen hstrlen hmget hkeys hvals hgetall l, l ≡ₚ (λ p, (fst p, elementValueBytes (snd p))) <$> map_to_list m ∧
    handleHGet [key; f] = Accept [key] hget ∧ handleHExists [key; f] = Accept [key] hexists ∧
    handleHLen [key] = Accept [key] hlen ∧ handleHStrLen [key; f] = Accept [key] hstrlen ∧
    handleHMGet (key :: f :: fs) = Accept [key] hmget ∧ handleHKeys [key] = Accept [key] hkeys ∧
    handleHVals [key] = Accept [key] hvals ∧ handleHGetAll [key] = Accept [key] hgetall ∧
    let answers r w := finishes r st w (same (st_ctx st)) in
    answers hget (bulk_or_null (field_bytes m f) (st_w st)) ∧
    answers hexists (WriteInteger (Z.b2z (bool_decide (is_Some (m !! f)))) (st_w st)) ∧
    answers hlen (WriteInteger (Z.of_nat (size m)) (st_w st)) ∧
    answers hstrlen (WriteInteger (len (default [] (field_bytes m f))) (st_w st)) ∧
    answers hmget (foldl (λ w g, bulk_or_null (field_bytes m g) w) (WriteArray (len (f :: fs)) (st_w st)) (f :: fs)) ∧
    answers hkeys (foldl (λ w p, WriteBulkStringStr (fst p) w) (WriteArray (Z.of_nat (size m)) (st_w st)) l) ∧
    answers hvals (foldl (λ w p, WriteBulkString (snd p) w) (WriteArray (Z.of_nat (size m)) (st_w st)) l) ∧
    answers hgetall (foldl (λ w p, WriteBulkString (snd p) (WriteBulkStringStr (fst p) w))
                       (WriteMap (Z.of_nat (size m)) (st_w st)) l).
Proof.
  intros Hh Hx. do 8 eexists. exists (visited m). split; [apply visited_perm|]. do 8 (split; [reflexivity|]).
  cbv zeta. split_and!; (eapply reads_hash; [done|exact Hx|..]).
  - by intros ->.
  - intros s c' Hs Hh' Hsame. rewrite (sees_value _ _ _ _ _ Hs).
    destruct (field_bytes m f); [by apply finishes_write|by apply finishes_reply].
  - intros ->. rewrite bool_decide_eq_false_2; [done|]. rewrite lookup_empty. by intros [].
  - intros s c' Hs Hh' Hsame. rewrite (sees_member _ _ _ _ Hs). case_bool_decide; [by apply finishes_reply|by apply finishes_write].
  - by intros ->.
  - intros s c' Hs Hh' Hsame. rewrite (sees_fields _ _ _ _ Hs). by apply finishes_write.
  - by intros ->.
  - intros s c' Hs Hh' Hsame. rewrite (sees_value _ _ _ _ _ Hs).
    destruct (field_bytes m f); [by apply finishes_write|by apply finishes_reply].
  - intros ->. apply array_of_nulls.
  - intros s c' Hs Hh' Hsame. apply finishes_write_bind. cbn [st_ctx st_w st_held].
    erewrite (for_each_ext (f :: fs)); [by apply (finishes_for_each_write (λ g, bulk_or_null (field_bytes m g)) _ (mkSt c' _ _))|].
    intros g. by rewrite (sees_value _ _ _ _ g Hs).
  - intros ->. by rewrite visited_empty.
  - intros s c' Hs Hh' Hsame. rewrite (sees_fields _ _ _ _ Hs), (sees_visited _ _ _ _ Hs). apply finishes_write_bind.
    by apply (finishes_for_each_write (λ p, WriteBulkStringStr (fst p)) _ (mkSt c' _ _)).
  - intros ->. by rewrite visited_empty.
  - intros s c' Hs Hh' Hsame. rewrite (sees_fields _ _ _ _ Hs), (sees_visited _ _ _ _ Hs). apply finishes_write_bind.
    by apply (finishes_for_each_write (λ p, WriteBulkString (snd p)) _ (mkSt c' _ _)).
  - intros ->. by rewrite visited_empty.
  - intros s c' Hs Hh' Hsame. rewrite (sees_fields _ _ _ _ Hs), (sees_visited _ _ _ _ Hs). apply finishes_write_bind.
    by apply (finishes_for_each_write2 (λ p, WriteBulkStringStr (fst p)) (λ p, WriteBulkString (snd p)) _ (mkSt c' _ _)).
Qed.
(** ** Writing *)

(** A command that looks at the hash before it writes. *)
Lemma finishes_hash_snapshot key f st m e w Q : healthy (st_ctx st) → is_hash (view (st_ctx st) key) m e →
  (∀ s c', sees s (view (st_ctx st) key) m e → healthy c' → same (st_ctx st) c' →
     finishes (f s) (mkSt c' (st_w st) (st_held st)) w Q) →
  finishes (s ← getHashSnapshot key; if ks_wrongType s then reply WriteWrongType else f s) st w Q.
Proof.
  intros Hh Hx Hf. destruct (steps_hash_snapshot key st Hh) as [tips Hg]. eapply finishes_bind; [exact Hg|].
  cbv beta. intros c' Hh' Hs. pose proof (classify_sees _ tips _ _ Hx) as Hse. rewrite (sees_type _ _ _ _ Hse). by apply Hf.
Qed.

Lemma finishes_hash_refused key f st : healthy (st_ctx st) → not_hash (view (st_ctx st) key) →
  finishes (s ← getHashSnapshot key; if ks_wrongType s then reply WriteWrongType else f s) st
    (WriteWrongType (st_w st)) (same (st_ctx st)).
Proof.
  intros Hh Hx. destruct (steps_hash_snapshot key st Hh) as [tips Hg]. eapply finishes_bind; [exact Hg|].
  cbv beta. intros c' Hh' Hs. destruct (classify_not_hash _ tips Hx) as [_ ->]. by apply finishes_reply.
Qed.

(** The tail of every command that puts fields: the tag of a new hash and the
    reply. *)
Lemma finishes_tag_write key s c0 v m0 e0 m fs e e' g st w (Q : Ctx → Prop) : healthy (st_ctx st) →
  sees s v m0 e0 → v = view c0 key → grown c0 key m fs e e' any_tag (st_ctx st) → g (st_w st) = w →
  (∀ c', grown c0 key m fs e e' (λ t, t = TYPE_HASH) c' → Q c') →
  finishes (tag_new_hash key s ≫= λ _, write g) st w Q.
Proof.
  intros Hh Hs Hv Hg Hw HQ. subst v. eapply finishes_bind; [by eapply steps_tag_new, Hg; [done|apply (sees_exists _ _ _ _ Hs)]|].
  cbv beta. intros c' Hh' Hg'. apply finishes_write; [done|done|by apply HQ].
Qed.

Lemma same_grown c c1 key m fs e e' tag c' : same c c1 → grown c1 key m fs e e' tag c' → grown c key m fs e e' tag c'.
Proof.
  intros Hs [Ha La Ga Ta Oa]. split; try done; [by rewrite Hs in Ta|]. intros k Hk. by rewrite Oa, Hs.
Qed.

(** The number of fields among the pairs that the hash does not have. *)
Definition new_fields (m : gmap bytes Value) (fvs : list (bytes * bytes)) : list (bytes * bytes) :=
  filter (λ fv, m !! fst fv = None) fvs.

Lemma put_all_size (fvs : list (bytes * bytes)) (m : gmap bytes Value) : NoDup (fst <$> fvs) →
  Z.of_nat (size (put_all fvs m)) = Z.of_nat (size m) + len (new_fields m fvs).
Proof.
  revert m. induction fvs as [|[f v] fvs IH]; intros m Hnd; [cbn; unfold len; cbn; lia|].
  apply NoDup_cons in Hnd as [Hf Hnd]. cbn [put_all foldl fst snd]. unfold put_all in IH. rewrite IH by done.
  assert (Hn : new_fields (<[f := Raw v]> m) fvs = new_fields m fvs).
  { apply filter_ext_in. intros [g w] Hg. cbn [fst]. rewrite lookup_insert_ne; [done|]. intros <-. apply Hf.
    apply (list_elem_of_fmap_2 fst) in Hg. done. }
  rewrite Hn. unfold new_fields at 2. rewrite filter_cons. cbn [fst].
  destruct (m !! f) as [x|] eqn:Ef.
  - rewrite decide_False by done. rewrite map_size_insert_Some by eauto. done.
  - rewrite decide_True by done. rewrite map_size_insert_None by done. fold (new_fields m fvs). rewrite len_cons. lia.
Qed.

Lemma steps_hash_puts key fv fvs st m e : healthy (st_ctx st) → is_hash (view (st_ctx st) key) m e →
  steps (for_each (fv :: fvs) (λ fv, emitHashInsert key (fst fv) (snd fv))) st tt (λ c',
    ∃ e', grown (st_ctx st) key (put_all (fv :: fvs) m) (fst <$> fv :: fvs) e e' any_tag c').
Proof. apply steps_puts. intros [f v] st' m' e' Hh' Hx'. by apply steps_hash_insert. Qed.

Lemma steps_set_fields key s v fv fvs st m e : healthy (st_ctx st) → is_hash (view (st_ctx st) key) m e → sees s v m e →
  steps (set_fields key (ks_snap s) 0 (fv :: fvs)) st (len (new_fields m (fv :: fvs))) (λ c',
    ∃ e', grown (st_ctx st) key (put_all (fv :: fvs) m) (fst <$> fv :: fvs) e e' any_tag c').
Proof.
  intros Hh Hx Hs. unfold steps. rewrite set_fields_eq.
  replace (filter (λ fv, has_member (ks_snap s) (fst fv) = false) (fv :: fvs)) with (new_fields m (fv :: fvs)).
  - eapply steps_bind; [by apply steps_hash_puts|]. cbv beta. intros c' Hh' Hg. by apply (steps_ret _ (mkSt c' _ _)).
  - apply filter_ext_in. intros [g w] _. cbn [fst]. rewrite (sees_member _ _ _ _ Hs).
    rewrite bool_decide_eq_false, eq_None_not_Some. done.
Qed.

(** C32: HSET and HMSET put the pairs into the hash one after the other, create a
    missing hash with its tag, and touch no other field, no other expiry and
    no other key.  HSET answers how many of its pairs name a field the hash did not
    have: the number of new fields when no field is repeated, while a new field
    given twice is counted twice ([repeated_fields_counted]).  HSETNX puts its field
    only when it was missing. *)
Theorem hset_correct (key f v : bytes) (args : list bytes) (fv : bytes * bytes) (fvs : list (bytes * bytes))
    (st : St) (m : gmap bytes Value) (e : gmap bytes Timestamp) :
  healthy (st_ctx st) → is_hash (view (st_ctx st) key) m e → pairs args = Some (fv :: fvs) →
  ∃ hset hmset hsetnx, handleHSet (key :: args) = Accept [key] hset ∧
    handleHMSet (key :: args) = Accept [key] hmset ∧ handleHSetNX [key; f; v] = Accept [key] hsetnx ∧
    let m' := put_all (fv :: fvs) m in
    let puts m' fs c' := ∃ e', grown (st_ctx st) key m' fs e e' (λ t, t = TYPE_HASH) c' in
    finishes hset st (WriteInteger (len (new_fields m (fv :: fvs))) (st_w st)) (puts m' (fst <$> fv :: fvs)) ∧
    (NoDup (fst <$> fv :: fvs) → len (new_fields m (fv :: fvs)) = Z.of_nat (size m') - Z.of_nat (size m)) ∧
    finishes hmset st (WriteOK (st_w st)) (puts m' (fst <$> fv :: fvs)) ∧
    match m !! f with
    | Some _ => finishes hsetnx st (WriteZero (st_w st)) (same (st_ctx st))
    | None => finishes hsetnx st (WriteOne (st_w st)) (puts (<[f := Raw v]> m) [f])
    end.
Proof.
  intros Hh Hx Hp. do 3 eexists. split; [cbn; by rewrite Hp|]. split; [cbn; by rewrite Hp|]. split; [reflexivity|].
  cbv zeta. split_and!.
  - eapply finishes_hash_snapshot; [done|exact Hx|]. intros s c' Hs Hh' Hsame.
    eapply finishes_bind; [apply (steps_set_fields key s (view (st_ctx st) key) fv fvs (mkSt c' (st_w st) (st_held st)) m e); [done|by rewrite Hsame|exact Hs]|].
    cbv beta. cbn [st_ctx st_w st_held]. intros c2 Hh2 [e2 Hg]. apply (same_grown _ _ _ _ _ _ _ _ _ Hsame) in Hg.
    eapply (finishes_tag_write _ _ _ _ _ _ _ _ _ _ _ (mkSt c2 _ _)); [done|exact Hs|reflexivity|exact Hg|done|by eauto].
  - intros Hnd. pose proof (put_all_size _ m Hnd). lia.
  - eapply finishes_hash_snapshot; [done|exact Hx|]. intros s c' Hs Hh' Hsame.
    eapply finishes_bind; [apply (steps_hash_puts key fv fvs (mkSt c' _ _) m e); [done|by rewrite Hsame]|].
    cbv beta. cbn [st_ctx st_w st_held]. intros c2 Hh2 [e2 Hg]. apply (same_grown _ _ _ _ _ _ _ _ _ Hsame) in Hg.
    by eapply (finishes_tag_write _ _ _ _ _ _ _ _ _ _ _ (mkSt c2 _ _)); [done|exact Hs|reflexivity|exact Hg|done|eauto].
  - destruct (m !! f) eqn:Ef; (eapply finishes_hash_snapshot; [done|exact Hx|]); intros s c' Hs Hh' Hsame;
      rewrite (sees_member _ _ _ _ Hs), Ef.
    + by apply finishes_reply.
    + rewrite bool_decide_eq_false_2 by (by intros []).
      eapply finishes_bind; [apply (steps_hash_insert key f v (mkSt c' _ _) m e); [done|by rewrite Hsame]|].
      cbv beta. cbn [st_ctx st_w st_held]. intros c2 Hh2 [e2 Hg]. apply (same_grown _ _ _ _ _ _ _ _ _ Hsame) in Hg.
      by eapply (finishes_tag_write _ _ _ _ _ _ _ _ _ _ _ (mkSt c2 _ _)); [done|exact Hs|reflexivity|exact Hg|done|eauto].
Qed.

(** *** HDEL and HGETDEL *)

Lemma same_shrunk c c1 key m e c' : same c c1 → shrunk c1 key m e c' → shrunk c key m e c'.
Proof. intros Hs [Ha Oa]. split; [done|]. intros k Hk. by rewrite Oa, Hs. Qed.

(** The fields of a list that the hash has. *)
Definition present (m : gmap bytes Value) (fs : list bytes) : list bytes := filter (λ f, is_Some (m !! f)) fs.

Lemma drop_present (fs : list bytes) (m : gmap bytes Value) : drop_fields (present m fs) m = drop_fields fs m.
Proof.
  apply map_eq. intros f. rewrite !drop_fields_lookup. unfold present.
  destruct (decide (f ∈ filter (λ f, is_Some (m !! f)) fs)) as [Hf|Hf]; rewrite list_elem_of_filter in Hf.
  - by rewrite decide_True by naive_solver.
  - case_decide; [|done]. apply eq_None_not_Some. naive_solver.
Qed.

Lemma present_empty fs : present ∅ fs = [].
Proof. induction fs as [|f fs IH]; [done|]. unfold present in *. rewrite filter_cons, decide_False; [done|]. rewrite lookup_empty. by intros []. Qed.

Lemma drop_empty (fs : list bytes) : drop_fields fs ∅ = ∅.
Proof. apply map_eq. intros f. rewrite drop_fields_lookup, lookup_empty. by case_decide. Qed.

Lemma sees_present s v m e fs : sees s v m e → filter (λ f, has_member (ks_snap s) f = true) fs = present m fs.
Proof.
  intros Hs. apply filter_ext_in. intros f _. by rewrite (sees_member _ _ _ _ Hs), bool_decide_eq_true.
Qed.

Lemma steps_removes_present key st m e fs : healthy (st_ctx st) → is_hash (view (st_ctx st) key) m e → NoDup fs →
  steps (for_each (present m fs) (emitHashRemove key)) st tt (shrunk (st_ctx st) key (drop_fields fs m) e).
Proof.
  intros Hh Hx Hnd. rewrite <- drop_present. apply steps_removes; [done|done|by apply NoDup_filter|].
  apply Forall_forall. intros f Hf. apply list_elem_of_filter in Hf. naive_solver.
Qed.

(** HDEL removes its fields from the hash and answers how many were there; the
    other fields, with their expiries, and the other keys stay. *)
Theorem hdel_correct (key f : bytes) (fs : list bytes) (st : St) (m : gmap bytes Value) (e : gmap bytes Timestamp) :
  healthy (st_ctx st) → is_hash (view (st_ctx st) key) m e → NoDup (f :: fs) →
  ∃ hdel, handleHDel (key :: f :: fs) = Accept [key] hdel ∧
    finishes hdel st (WriteInteger (len (present m (f :: fs))) (st_w st))
      (shrunk (st_ctx st) key (drop_fields (f :: fs) m) e).
Proof.
  intros Hh Hx Hnd. eexists. split; [reflexivity|]. generalize dependent (f :: fs). clear f fs. intros fs Hnd.
  eapply finishes_read_hash; [done|exact Hx| |].
  - intros El. destruct (is_hash_dead _ _ _ El Hx) as [-> ->]. rewrite present_empty, drop_empty. split; [done|].
    intros c' Hs. split; [|by apply others_same]. exists ∅. by rewrite Hs.
  - intros s c' Hs Hh' Hsame El. eapply finishes_bind.
    + unfold steps. rewrite delete_fields_eq, (sees_present _ _ _ _ fs Hs).
      eapply steps_bind; [apply (steps_removes_present key (mkSt c' _ _) m e fs); [done|by rewrite Hsame|done]|].
      cbv beta. intros c2 Hh2 Hg. apply (steps_ret _ (mkSt c2 _ _) (shrunk c' key (drop_fields fs m) e)); done.
    + cbv beta. intros c2 Hh2 Hg. apply finishes_write; [done|done|]. by eapply same_shrunk.
Qed.

Lemma finishes_getdel_fields key s v fs st m e0 m1 e : healthy (st_ctx st) → sees s v m e0 → NoDup fs →
  is_hash (view (st_ctx st) key) m1 e → (∀ f, f ∈ fs → m1 !! f = m !! f) →
  finishes (getdel_fields key (ks_snap s) fs) st
    (foldl (λ w f, bulk_or_null (field_bytes m f) w) (st_w st) fs) (shrunk (st_ctx st) key (drop_fields fs m1) e).
Proof.
  intros Hh Hs. revert st m1 e Hh. induction fs as [|f fs IH]; intros st m1 e Hh Hnd Hx Heq.
  - apply finishes_ret; [done|done|]. split; [by exists e|done].
  - apply NoDup_cons in Hnd as [Hf Hnd]. cbn [getdel_fields foldl]. rewrite (sees_value _ _ _ _ f Hs).
    assert (Hm1 : m1 !! f = m !! f) by (apply Heq; set_solver). assert (Hfb : field_bytes m f = elementValueBytes <$> m !! f) by done.
    rewrite Hfb. destruct (m !! f) as [x|] eqn:Ef; cbn [fmap option_fmap option_map bulk_or_null].
    + apply finishes_write_step. eapply finishes_bind; [apply (steps_hash_remove key f (mkSt _ _ _) m1 e); [done|done|by rewrite Hm1]|].
      cbv beta. cbn [st_ctx st_w st_held]. intros c' Hh' [(e1 & Hx1 & He1) Ho1].
      eapply finishes_weaken; [apply (IH (mkSt c' _ _) (delete f m1) e1); [done|done|done|]|].
      * intros g Hg. rewrite lookup_delete_ne by set_solver. apply Heq. set_solver.
      * cbn [st_ctx]. intros c'' Hc. eapply shrunk_trans; [|exact He1|exact Ho1|exact Hc].
        intros g. change (drop_fields (f :: fs) m1) with (drop_fields fs (delete f m1)).
        rewrite drop_fields_lookup. case_decide; [by intros []|done].
    + apply finishes_write_bind. eapply finishes_weaken; [apply (IH (mkSt _ _ _) m1 e); [done|done|done|]|].
      * intros g Hg. apply Heq. set_solver.
      * cbn [st_ctx]. intros c' [(e1 & Hx1 & He1) Ho1].
        change (drop_fields (f :: fs) m1) with (drop_fields fs (delete f m1)). rewrite (delete_id m1) by done.
        split; [|done]. by exists e1.
Qed.

(** HGETDEL answers the values of its fields, null for the missing ones, and
    removes them; without a hash it answers nulls and does nothing. *)
Theorem hgetdel_correct (key kw n f : bytes) (fs : list bytes) (st : St) (m : gmap bytes Value)
    (e : gmap bytes Timestamp) :
  healthy (st_ctx st) → is_hash (view (st_ctx st) key) m e → NoDup (f :: fs) →
  strings_ToUpper kw = optionFields → ParseInt64 n = Some (len (f :: fs)) →
  ∃ hgetdel, handleHGetDel (key :: kw :: n :: f :: fs) = Accept [key] hgetdel ∧
    finishes hgetdel st
      (foldl (λ w g, bulk_or_null (field_bytes m g) w) (WriteArray (len (f :: fs)) (st_w st)) (f :: fs))
      (shrunk (st_ctx st) key (drop_fields (f :: fs) m) e).
Proof.
  intros Hh Hx Hnd Hk Hn. eexists. split.
  { assert (Hpos : 0 < len (f :: fs)) by (rewrite len_cons; pose proof (len_nonneg fs); lia).
    unfold handleHGetDel. rewrite Hk, Hn, beq_refl. cbn [negb]. rewrite (proj2 (Z.leb_gt _ _) Hpos). rewrite Z.eqb_refl. reflexivity. }
  generalize dependent (f :: fs). clear f fs. intros fs Hnd Hn. unfold hgetdel_runner.
  destruct (steps_hash_snapshot key st Hh) as [tips Hg]. eapply finishes_bind; [exact Hg|].
  cbv beta. intros c' Hh' Hs. pose proof (classify_sees _ tips _ _ Hx) as Hse.
  rewrite (sees_exists _ _ _ _ Hse), (sees_type _ _ _ _ Hse).
  destruct (is_live (view (st_ctx st) key)) eqn:El; cbn [negb].
  - eapply finishes_bind; [apply (steps_begin (mkSt c' _ _)); done|]. cbv beta. cbn [st_ctx st_w st_held]. intros c2 Hh2 Hs2.
    eapply finishes_bind; [apply (steps_noop key _ (mkSt c2 _ _)); done|]. cbv beta. cbn [st_ctx st_w st_held]. intros c3 Hh3 Hs3.
    apply finishes_write_bind. cbn [st_ctx st_w st_held]. assert (Hs' : same (st_ctx st) c3) by (by do 2 (eapply same_trans; [eassumption|])).
    eapply finishes_weaken; [eapply (finishes_getdel_fields key _ _ fs (mkSt c3 _ _) m e m e); [done|exact Hse|done|by rewrite Hs'|done]|].
    cbn [st_ctx]. intros c4. by apply same_shrunk.
  - destruct (is_hash_dead _ _ _ El Hx) as [-> ->]. apply finishes_reply; [done|apply array_of_nulls|].
    rewrite drop_empty. split; [|by apply others_same]. exists ∅. cbn [st_ctx]. by rewrite Hs.
Qed.

(** *** HINCRBY *)

Lemma hash_overflow_spec a b : is_i64 a → is_i64 b →
  checkAdditionOverflow a b = negb ((MinInt64 <=? a + b) && (a + b <=? MaxInt64)).
Proof. unfold checkAdditionOverflow. intros. widths. repeat case_match; lia. Qed.

(** HINCRBY adds to the number a field holds, zero without the field, and
    answers the sum, or an error exactly when it leaves the 64 bits; nothing
    else changes. *)
Theorem hincrby_correct (key f d : bytes) (delta n : Z) (st : St) (m : gmap bytes Value) (e : gmap bytes Timestamp) :
  healthy (st_ctx st) → is_hash (view (st_ctx st) key) m e →
  match m !! f with Some v => value_int Decompress v | None => Some 0 end = Some n → is_i64 n →
  ParseInt64 d = Some delta → is_i64 delta →
  ∃ hincrby, handleHIncrBy [key; f; d] = Accept [key] hincrby ∧
    if (MinInt64 <=? n + delta) && (n + delta <=? MaxInt64)
    then finishes hincrby st (WriteInteger (n + delta) (st_w st)) (λ c',
           ∃ e', grown (st_ctx st) key (<[f := IntVal (n + delta)]> m) [f] e e' (λ t, t = TYPE_HASH) c')
    else finishes hincrby st (WriteError overflow_error (st_w st)) (same (st_ctx st)).
Proof.
  intros Hh Hx Hn Hni Hd Hdi. eexists. split; [cbn; by rewrite Hd|].
  pose proof (hash_overflow_spec n delta Hni Hdi) as Hov.
  assert (Hcur : ∀ s, sees s (view (st_ctx st) key) m e → current_int (ks_snap s) f = Some n).
  { intros s Hs. unfold current_int. rewrite (sees_fields _ _ _ _ Hs).
    destruct (m !! f) as [[]|]; cbn [value_int] in Hn; try done. }
  destruct ((MinInt64 <=? n + delta) && (n + delta <=? MaxInt64)) eqn:Eb; cbn [negb] in Hov;
    (eapply finishes_hash_snapshot; [done|exact Hx|]); intros s c' Hs Hh' Hsame; rewrite (Hcur s Hs); cbv beta iota;
    rewrite Hov.
  - assert (Hi : is_i64 (n + delta)) by (widths; lia). cbv zeta. rewrite (i64_id (n + delta)) by done.
    eapply finishes_bind; [apply (steps_hash_add key f n delta (mkSt c' _ _) m e); [done|by rewrite Hsame|done|done]|].
    cbv beta. cbn [st_ctx st_w st_held]. intros c2 Hh2 [e2 Hg]. apply (same_grown _ _ _ _ _ _ _ _ _ Hsame) in Hg.
    by eapply (finishes_tag_write _ _ _ _ _ _ _ _ _ _ _ (mkSt c2 _ _)); [done|exact Hs|reflexivity|exact Hg|done|eauto].
  - by apply finishes_reply.
Qed.
End HashLaws.

(** * HSCAN visits every field once *)


#[global] Instance str_le_total : Total str_le.
Proof.
  intros x y. unfold str_le. destruct (blt y x) eqn:E; [|by left]. right. by apply blt_asym.
Qed.

Section Scan.
Context `{EngineLaws} `{ParseFloat} `{FormatFloat} `{RangeOrderLaws} `{GlobMatch}.

(** The reply with the fields [fs] of the hash [m] and the next cursor. *)
Definition page (m : gmap bytes Value) (next : Z) (fs : list bytes) (w : Writer) : Writer :=
  foldl (λ w f, WriteBulkString (default [] (field_bytes m f)) (WriteBulkStringStr f w))
    (WriteArray (len fs * 2) (WriteBulkStringStr (FormatInt next) (WriteArray 2 w))) fs.

(** The fields that match, sorted. *)
Definition matching (m : gmap bytes Value) (pattern : bytes) : list bytes :=
  sort_Strings (filter (λ f, MatchGlobPattern f pattern = true) (range_keys (dom m))).

Lemma matching_perm m pattern :
  matching m pattern ≡ₚ filter (λ f, MatchGlobPattern f pattern = true) (elements (dom m)).
Proof. unfold matching, sort_Strings. rewrite merge_sort_Permutation. by rewrite (range_keys_perm (dom m)). Qed.

(** One call at a cursor within the fields. *)
Lemma hscan_run key cursor pattern count st m e : healthy (st_ctx st) → is_hash (view (st_ctx st) key) m e →
  0 <= cursor <= MaxInt64 → 0 < count → cursor + count <= MaxInt64 →
  let l := matching m pattern in
  let stop := cursor + count in
  finishes (hscan_runner key cursor pattern count) st
    (page m (if len l <=? stop then 0 else stop) (take (Z.to_nat count) (drop (Z.to_nat cursor) l)) (st_w st))
    (same (st_ctx st)).
Proof.
  intros Hh Hx Hc Hn Hm l stop. eapply reads_hash; [done|exact Hx| |].
  - intros ->. assert (Hl : l = []).
    { apply Permutation_nil. unfold l. rewrite matching_perm, dom_empty_L. by rewrite elements_empty. }
    rewrite Hl, drop_nil, take_nil. rewrite (proj2 (Z.leb_le _ stop)) by (unfold len, stop; cbn; lia). done.
  - intros s c' Hs Hh' Hsame.
    assert (Hmf : matched_fields (ks_snap s) pattern = l).
    { unfold matched_fields. by rewrite (sees_fields _ _ _ _ Hs). }
    rewrite Hmf. cbv zeta. rewrite (i64_id cursor) by (widths; lia).
    destruct (Z.leb_spec (len l) cursor) as [Hle|Hgt].
    + apply finishes_reply; [done| |done]. cbn [st_w]. rewrite (proj2 (Z.leb_le _ stop)) by (unfold stop; lia).
      rewrite drop_ge, take_nil by (unfold len in *; lia). done.
    + apply (finishes_or_panic _ (if len l <=? stop then 0 else stop, take (Z.to_nat count) (drop (Z.to_nat cursor) l))).
      * unfold scan_page. fold stop. rewrite (i64_id stop) by (unfold stop; widths; lia).
        destruct (Z.leb_spec (len l) stop) as [Hs'|Hs'].
        -- rewrite Z.min_r by lia. rewrite Z.leb_refl, (proj2 (Z.leb_le 0 cursor)), (proj2 (Z.leb_le cursor (len l))) by lia.
           cbn [andb]. f_equal. f_equal. rewrite !take_ge; [done|..]; rewrite length_drop; unfold len, stop in *; lia.
        -- rewrite Z.min_l by lia. rewrite (proj2 (Z.leb_gt (len l) stop)) by lia.
           rewrite (proj2 (Z.leb_le 0 cursor)), (proj2 (Z.leb_le cursor stop)) by (unfold stop; lia). cbn [andb].
           do 3 f_equal. unfold stop. lia.
      * cbv beta iota. apply finishes_write_bind. cbn [st_ctx st_w st_held].
        erewrite for_each_ext; [apply (finishes_for_each_write2 (λ f, WriteBulkStringStr f)
          (λ f, WriteBulkString (default [] (field_bytes m f))) _ (mkSt c' _ _)); done|].
        intros f. by rewrite (sees_value _ _ _ _ f Hs).
Qed.

(** A client that calls HSCAN again with the cursor it got, until it is 0, and
    collects the fields; other commands may run in between as long as the keys
    show the same. *)
Inductive scans (c : Ctx) (m : gmap bytes Value) (key pattern : bytes) (count : Z) : Z → list bytes → Prop :=
  | scans_last cursor fs :
      (∀ st, healthy (st_ctx st) → same c (st_ctx st) →
         finishes (hscan_runner key cursor pattern count) st (page m 0 fs (st_w st)) (same (st_ctx st))) →
      scans c m key pattern count cursor fs
  | scans_more cursor next fs rest : next ≠ 0 →
      (∀ st, healthy (st_ctx st) → same c (st_ctx st) →
         finishes (hscan_runner key cursor pattern count) st (page m next fs (st_w st)) (same (st_ctx st))) →
      scans c m key pattern count next rest →
      scans c m key pattern count cursor (fs ++ rest).

(** HSCAN from cursor 0 until cursor 0 comes back visits every field that
    matches exactly once, in sorted order. *)
Theorem hscan_complete (key pattern : bytes) (count : Z) (c : Ctx) (m : gmap bytes Value) (e : gmap bytes Timestamp) :
  is_hash (view c key) m e → 0 < count <= 2 ^ 62 → Z.of_nat (size m) < 2 ^ 62 →
  ∃ fs, scans c m key pattern count 0 fs ∧ Sorted str_le fs ∧
    fs ≡ₚ filter (λ f, MatchGlobPattern f pattern = true) (elements (dom m)).
Proof.
  intros Hx Hc Hm. exists (matching m pattern). split; [|split; [|apply matching_perm]].
  - set (l := matching m pattern).
    assert (Hl : len l < 2 ^ 62).
    { unfold len, l. rewrite (Permutation_length (matching_perm m pattern)).
      pose proof (length_filter (λ f, MatchGlobPattern f pattern = true) (elements (dom m))).
      assert (length (elements (dom m)) = size m) as Hsz by (by rewrite <- size_dom). lia. }
    assert (Hgen : ∀ n cursor, (length l - Z.to_nat cursor <= n)%nat → 0 <= cursor <= len l →
      scans c m key pattern count cursor (drop (Z.to_nat cursor) l)).
    { induction n as [|n IH]; intros cursor Hn Hcur.
      all: assert (Hrun : ∀ st, healthy (st_ctx st) → same c (st_ctx st) → finishes (hscan_runner key cursor pattern count) st
        (page m (if len l <=? cursor + count then 0 else cursor + count) (take (Z.to_nat count) (drop (Z.to_nat cursor) l)) (st_w st))
        (same (st_ctx st))) by (intros st Hh Hs; eapply hscan_run; [done|by rewrite Hs|widths; lia|lia|widths; lia]).
      all: destruct (Z.leb_spec (len l) (cursor + count)) as [Hend|Hmore].
      1, 3: apply scans_last; rewrite take_ge in Hrun by (rewrite length_drop; unfold len in *; lia); exact Hrun.
      - unfold len in *. lia.
      - rewrite <- (take_drop (Z.to_nat count) (drop (Z.to_nat cursor) l)). eapply scans_more; [|exact Hrun|]; [lia|].
        rewrite drop_drop. replace (Z.to_nat cursor + Z.to_nat count)%nat with (Z.to_nat (cursor + count)) by lia.
        apply IH; unfold len in *; lia. }
    apply (Hgen (length l) 0); unfold len; lia.
  - unfold matching, sort_Strings. apply Sorted_merge_sort, str_le_total.
Qed.

(** The end of a page is computed with wrap-around: the largest count at any
    cursor but the first, and any cursor of 2^63 or more, cut the fields at a
    negative index, and the command panics. *)
Theorem hscan_panics (key pattern : bytes) (cursor count : Z) (st : St) (m : gmap bytes Value) (e : gmap bytes Timestamp) :
  healthy (st_ctx st) → is_hash (view (st_ctx st) key) m e → is_live (view (st_ctx st) key) = true →
  (0 < cursor < len (matching m pattern) ∧ cursor < 2 ^ 63 ∧ count = MaxInt64) ∨
  (2 ^ 63 <= cursor < 2 ^ 64 ∧ 0 < count <= MaxInt64) →
  fst (hscan_runner key cursor pattern count st) = Panic.
Proof.
  intros Hh Hx Hl Hc. unfold hscan_runner, read_hash.
  destruct (steps_hash_snapshot key st Hh) as [tips (c' & E & Hh' & Hs)].
  unfold mbind at 1, M_bind at 1. rewrite E. pose proof (classify_sees _ tips _ _ Hx) as Hse.
  rewrite (sees_exists _ _ _ _ Hse), (sees_type _ _ _ _ Hse), Hl. cbn [negb].
  assert (Hmf : matched_fields (ks_snap (classify_hash (view (st_ctx st) key) tips)) pattern = matching m pattern).
  { unfold matched_fields. by rewrite (sees_fields _ _ _ _ Hse). }
  rewrite Hmf. cbv zeta. set (l := matching m pattern) in *. pose proof (len_nonneg l).
  assert ((len l <=? i64 cursor) = false ∧ scan_page l (i64 cursor) count = None) as [-> ->]; [|done].
  unfold scan_page. destruct Hc as [(Hc & Hc' & ->)|[Hc Hn]].
  - rewrite (i64_id cursor) by (widths; lia). split; [lia|]. rewrite (i64_over (cursor + MaxInt64)) by (widths; lia).
    rewrite Z.min_l by (widths; lia). rewrite (proj2 (Z.leb_gt cursor _)) by (widths; lia). by rewrite andb_false_r.
  - rewrite (i64_over cursor) by lia. split; [lia|]. by rewrite (proj2 (Z.leb_gt 0 (cursor - 2 ^ 64))) by lia.
Qed.
End Scan.
