(* ===== verification/ZsetTheorems.v ===== *)
(** * What the sorted-set commands do to a sorted set

    A sorted set is the keyed collection of HashTheorems with scores for values;
    the steps and runs of the zset commands on it. *)

From Stdlib Require Import SpecFloat.
From S2P Require Import Prelude GoBytes Strconv Floats Commands Writer Engine Runs Sets Strings Hashes HashTheorems Lists Zsets ZsetOrder ZsetRanges.

Local Open Scope Z_scope.

(** The scores of the members. *)
Definition scores_of (m : gmap bytes Value) : gmap bytes spec_float := GetFloatVal <$> m.

(** A live key of another kind. *)
Definition not_zset (v : option ReducedEffect) : Prop :=
  match v with
  | Some r => re_Op r = INSERT_OP ∧ re_Collection r ≠ KEYED ∧
              ¬ (re_Collection r = SCALAR ∧ (re_TypeTag r = TYPE_ZSET ∨ re_TypeTag r = TYPE_GEO))
  | None => False
  end.

Section ZsetRuns.
Context `{EngineLaws} `{ParseFloat} `{FormatG} `{RangeOrderLaws}.

(** ** Reading *)

Lemma classify_zset_keyed v tips m e : is_hash v m e → classify_zset v tips = classify_hash v tips.
Proof.
  unfold is_hash, classify_zset, classify_hash. destruct v as [r|]; [|done]. rewrite is_live_remove.
  case_bool_decide; [done|]. cbn [negb]. intros (Hk & _ & _). by rewrite (bool_decide_eq_true_2 (re_Collection r = KEYED)).
Qed.

Lemma classify_not_zset v tips : not_zset v →
  ks_exists (classify_zset v tips) = true ∧ ks_wrongType (classify_zset v tips) = true.
Proof.
  unfold classify_zset. destruct v as [r|]; [|done]. intros (Hop & Hk & Hs).
  rewrite bool_decide_eq_false_2 by (rewrite Hop; done). rewrite bool_decide_eq_false_2 by done.
  destruct (bool_decide_reflect (re_Collection r = SCALAR)), (bool_decide_reflect (re_TypeTag r = TYPE_ZSET)),
    (bool_decide_reflect (re_TypeTag r = TYPE_GEO)); naive_solver.
Qed.

Lemma steps_zset_get key st : healthy (st_ctx st) →
  ∃ tips, steps (getZSetSnapshot key) st (classify_zset (view (st_ctx st) key) tips) (same (st_ctx st)).
Proof.
  intros Hh. destruct (steps_get key st Hh) as [tips Hg]. exists tips. eapply steps_bind; [exact Hg|].
  cbv beta iota. intros c' Hh' Hs. by apply (steps_ret _ (mkSt c' _ _)).
Qed.

Lemma finishes_zset_get key (f : KeySnap → M unit) st m e w Q : healthy (st_ctx st) → is_hash (view (st_ctx st) key) m e →
  (∀ s c', sees s (view (st_ctx st) key) m e → healthy c' → same (st_ctx st) c' →
     finishes (f s) (mkSt c' (st_w st) (st_held st)) w Q) →
  finishes (getZSetSnapshot key ≫= f) st w Q.
Proof.
  intros Hh Hx Hf. destruct (steps_zset_get key st Hh) as [tips Hg]. eapply finishes_bind; [exact Hg|].
  cbv beta. intros c' Hh' Hs. apply Hf; [|done|done]. rewrite (classify_zset_keyed _ _ _ _ Hx). by apply classify_sees.
Qed.

Lemma finishes_zset_refused key (f g : KeySnap → M unit) st : healthy (st_ctx st) → not_zset (view (st_ctx st) key) →
  (∀ s, ks_exists s = true → ks_wrongType s = true → f s = reply WriteWrongType) →
  finishes (getZSetSnapshot key ≫= f) st (WriteWrongType (st_w st)) (same (st_ctx st)).
Proof.
  intros Hh Hx Hf. destruct (steps_zset_get key st Hh) as [tips Hg]. eapply finishes_bind; [exact Hg|].
  cbv beta. intros c' Hh' Hs. destruct (classify_not_zset _ tips Hx). rewrite Hf by done. by apply finishes_reply.
Qed.

Lemma finishes_read_zset key missing found st m e w Q : healthy (st_ctx st) →
  is_hash (view (st_ctx st) key) m e →
  (is_live (view (st_ctx st) key) = false → missing (st_w st) = w ∧ ∀ c', same (st_ctx st) c' → Q c') →
  (∀ s c', sees s (view (st_ctx st) key) m e → healthy c' → same (st_ctx st) c' →
     is_live (view (st_ctx st) key) = true → finishes (found (ks_snap s)) (mkSt c' (st_w st) (st_held st)) w Q) →
  finishes (read_zset key missing found) st w Q.
Proof.
  intros Hh Hx Hm Hf. apply (finishes_zset_get _ _ _ m e); [done|done|]. intros s c' Hs Hh' Hsame.
  rewrite (sees_exists _ _ _ _ Hs), (sees_type _ _ _ _ Hs).
  destruct (is_live (view (st_ctx st) key)) eqn:El; cbn [negb]; [by apply Hf|].
  destruct (Hm eq_refl) as [Hw HQ]. apply finishes_reply; [done|exact Hw|by apply HQ].
Qed.

(** A command that only reads: a missing key is the empty set. *)
Lemma reads_zset key missing found st m e (w : Writer) : healthy (st_ctx st) → is_hash (view (st_ctx st) key) m e →
  (m = ∅ → missing (st_w st) = w) →
  (∀ s c', sees s (view (st_ctx st) key) m e → healthy c' → same (st_ctx st) c' →
     finishes (found (ks_snap s)) (mkSt c' (st_w st) (st_held st)) w (same (st_ctx st))) →
  finishes (read_zset key missing found) st w (same (st_ctx st)).
Proof.
  intros Hh Hx Hm Hf. eapply finishes_read_zset; [done|done| |].
  - intros El. destruct (is_hash_dead _ _ _ El Hx) as [Hem _]. split; [by apply Hm|done].
  - intros s c' Hs Hh' Hsame _. by apply Hf.
Qed.

Lemma sees_score s v m e k : sees s v m e → zsetMemberScore (ks_snap s) k = scores_of m !! k.
Proof. intros Hs. unfold zsetMemberScore, scores_of. by rewrite (sees_fields _ _ _ _ Hs), lookup_fmap. Qed.

Lemma sees_scores s v m e : sees s v m e → scores (ks_snap s) = scores_of m.
Proof. intros Hs. unfold scores. by rewrite (sees_fields _ _ _ _ Hs). Qed.

(** The sorted entries of the set. *)
Definition entries_of (m : gmap bytes Value) : list ZSetEntry := sort_entries (range_entries (scores_of m)).

Lemma sees_sorted s v m e : sees s v m e → zsetSortedMembers (ks_snap s) = entries_of m.
Proof. intros Hs. unfold zsetSortedMembers. by rewrite (sees_scores _ _ _ _ Hs). Qed.

Lemma entries_sorted m : no_nan (scores_of m) → sorted_of (scores_of m) (entries_of m).
Proof. apply sort_entries_sorted. Qed.

Lemma entries_members m : ze_Member <$> entries_of m ≡ₚ elements (dom m).
Proof.
  unfold entries_of, sort_entries. rewrite merge_sort_Permutation, range_entries_members, range_keys_perm.
  unfold scores_of. by rewrite dom_fmap_L.
Qed.

Lemma entries_length m : len (entries_of m) = Z.of_nat (size m).
Proof.
  unfold len. rewrite <- (length_fmap ze_Member), entries_members. f_equal. apply size_dom.
Qed.

(** ** Writing *)

Lemma steps_zset_insert key k f st m e : healthy (st_ctx st) → is_hash (view (st_ctx st) key) m e →
  steps (emitZSetInsert key k f) st tt (λ c', ∃ e', grown (st_ctx st) key (<[k := float_value f]> m) [k] e e' any_tag c').
Proof.
  intros Hh Hx. apply steps_element; [done|done| |].
  - intros El. by apply law_revive.
  - intros r Hr Hk Hm El. destruct (law_rekey key k (float_value f) [] _ r Hh Hr El) as (x & Hv & _); [by rewrite Hk|].
    by exists x.
Qed.

Lemma steps_zset_incr key k b d st m e : healthy (st_ctx st) → is_hash (view (st_ctx st) key) m e →
  m !! k = Some (FloatVal b) → is_double d →
  steps (emitZSetIncrBy key k d) st tt (λ c', ∃ e',
    grown (st_ctx st) key (<[k := float_value (float_add (Float64frombits b) d)]> m) [k] e e' any_tag c').
Proof.
  intros Hh Hx Hb Hd. apply steps_element; [done|done| |].
  - intros El. destruct (is_hash_dead _ _ _ El Hx) as [-> _]. by rewrite lookup_empty in Hb.
  - intros r Hr Hk Hm El. destruct (law_add_float key k b d [] _ r Hh Hr El) as (x & Hv & _);
      [by rewrite Hk|by rewrite Hm|done|]. by exists x.
Qed.

Lemma steps_tag_zset key s st c0 m fs e e' : healthy (st_ctx st) → ks_exists s = is_live (view c0 key) →
  grown c0 key m fs e e' any_tag (st_ctx st) →
  steps (tag_new_zset key s) st tt (grown c0 key m fs e e' (λ t, t = TYPE_ZSET)).
Proof. by apply steps_tag_fresh. Qed.

Lemma grown_refl c key m e tag : is_hash (view c key) m e → is_live (view c key) = true → grown c key m [] e e tag c.
Proof. intros Hx Hl. split; try done. by rewrite Hl. Qed.

Lemma steps_zset_removes key ks st m e : healthy (st_ctx st) → is_hash (view (st_ctx st) key) m e → NoDup ks →
  Forall (λ k, is_Some (m !! k)) ks →
  steps (remove_all key ks) st tt (shrunk (st_ctx st) key (drop_fields ks m) e).
Proof. apply steps_removes. Qed.
End ZsetRuns.

(** * Correctness of the sorted-set commands *)


(** ** ZADD *)

(** Whether the options let a member with score [old] get the score [new]. *)
Definition zadd_accepts (o : ZAddOpts) (old : option spec_float) (new : spec_float) : bool :=
  match old with
  | Some x => negb (za_nx o) && negb (za_gt o && SFleb new x) && negb (za_lt o && SFleb x new)
  | None => negb (za_xx o)
  end.

(** The set after ZADD: exactly the members named whose options allow it have
    their new scores. *)
Definition zadd_result (o : ZAddOpts) (pairs : list (spec_float * bytes)) (m m' : gmap bytes Value) : Prop :=
  (∀ k, k ∉ (snd <$> pairs) → m' !! k = m !! k) ∧
  (∀ s k, (s, k) ∈ pairs →
     m' !! k = if zadd_accepts o (scores_of m !! k) s then Some (float_value s) else m !! k).

(** The pairs whose members are new, and those that change the score of one. *)
Definition zadd_new (o : ZAddOpts) (m : gmap bytes Value) (p : spec_float * bytes) : bool :=
  zadd_accepts o (scores_of m !! snd p) (fst p) && bool_decide (m !! snd p = None).
Definition zadd_changed (o : ZAddOpts) (m : gmap bytes Value) (p : spec_float * bytes) : bool :=
  zadd_accepts o (scores_of m !! snd p) (fst p) &&
  match scores_of m !! snd p with Some x => negb (SFeqb (fst p) x) | None => false end.
Definition how_many {A} (p : A → bool) (l : list A) : Z := len (filter (λ x, p x = true) l).

Lemma how_many_cons {A} (p : A → bool) x l : how_many p (x :: l) = Z.b2z (p x) + how_many p l.
Proof. unfold how_many. rewrite filter_cons. destruct (p x); [rewrite decide_True, len_cons by done; done|by rewrite decide_False]. Qed.

(** The loop puts the accepted pairs in turn. *)
Definition zadd_puts (o : ZAddOpts) (m : gmap bytes Value) (pairs : list (spec_float * bytes)) (acc : gmap bytes Value) :
    gmap bytes Value :=
  foldl (λ acc p, if zadd_accepts o (scores_of m !! snd p) (fst p) then <[snd p := float_value (fst p)]> acc else acc) acc pairs.

Lemma zadd_puts_cons o m s k pairs acc : zadd_puts o m ((s, k) :: pairs) acc =
  zadd_puts o m pairs (if zadd_accepts o (scores_of m !! k) s then <[k := float_value s]> acc else acc).
Proof. done. Qed.

Lemma zadd_puts_other o m pairs acc k : k ∉ (snd <$> pairs) → zadd_puts o m pairs acc !! k = acc !! k.
Proof.
  revert acc. induction pairs as [|[s k'] pairs IH]; intros acc Hk; [done|]. cbn in Hk. rewrite zadd_puts_cons, IH by set_solver.
  destruct (zadd_accepts _ _ _); [|done]. rewrite lookup_insert_ne; [done|set_solver].
Qed.

Lemma zadd_puts_result o m pairs : NoDup (snd <$> pairs) → zadd_result o pairs m (zadd_puts o m pairs m).
Proof.
  intros Hnd. split; [intros k Hk; by apply zadd_puts_other|].
  assert (Hgen : ∀ acc s k, (s, k) ∈ pairs → zadd_puts o m pairs acc !! k =
    if zadd_accepts o (scores_of m !! k) s then Some (float_value s) else acc !! k); [|by auto].
  induction pairs as [|[s' k'] pairs IH]; intros acc s k Hin; [by apply not_elem_of_nil in Hin|].
  cbn in Hnd. apply NoDup_cons in Hnd as [Hk' Hnd]. rewrite zadd_puts_cons. apply elem_of_cons in Hin as [[= -> ->]|Hin].
  - rewrite zadd_puts_other by done. destruct (zadd_accepts _ _ _); [by rewrite lookup_insert_eq|done].
  - rewrite (IH Hnd _ s k Hin). assert (k' ≠ k) by (intros ->; apply Hk', list_elem_of_fmap; by exists (s, k)).
    destruct (zadd_accepts o (scores_of m !! k) s); [done|]. destruct (zadd_accepts _ _ _); [by rewrite lookup_insert_ne|done].
Qed.

Lemma zadd_puts_size o m pairs acc : NoDup (snd <$> pairs) → (∀ k, k ∈ (snd <$> pairs) → acc !! k = m !! k) →
  Z.of_nat (size (zadd_puts o m pairs acc)) = Z.of_nat (size acc) + how_many (zadd_new o m) pairs.
Proof.
  revert acc. induction pairs as [|[s k] pairs IH]; intros acc Hnd Heq; [unfold how_many, len; cbn; lia|].
  cbn in Hnd. apply NoDup_cons in Hnd as [Hk Hnd]. rewrite zadd_puts_cons, how_many_cons. rewrite IH; [|done|].
  2: { intros k' Hk'. rewrite <- Heq by (cbn; set_solver). destruct (zadd_accepts _ _ _); [|done].
       rewrite lookup_insert_ne; [done|]. by intros ->. }
  assert (Hacc : acc !! k = m !! k) by (apply Heq; cbn; set_solver).
  unfold zadd_new at 2. cbn [fst snd]. destruct (zadd_accepts o (scores_of m !! k) s); cbn [andb Z.b2z]; [|lia].
  rewrite <- Hacc. destruct (acc !! k) eqn:E.
  - rewrite map_size_insert_Some by eauto. rewrite bool_decide_eq_false_2 by done. cbn [Z.b2z]. lia.
  - rewrite map_size_insert_None by done. rewrite bool_decide_eq_true_2 by done. cbn [Z.b2z]. lia.
Qed.

(** The scores that the options let the pairs of one member give it, in turn. *)
Definition accepted (o : ZAddOpts) (m : gmap bytes Value) (k : bytes) (pairs : list (spec_float * bytes)) : list spec_float :=
  fst <$> filter (λ p, snd p = k ∧ zadd_accepts o (scores_of m !! k) (fst p) = true) pairs.
Lemma zadd_puts_last o m pairs acc k :
  zadd_puts o m pairs acc !! k = match last (accepted o m k pairs) with Some s => Some (float_value s) | None => acc !! k end.
Proof.
  revert acc. induction pairs as [|[s k'] pairs IH]; intros acc; [done|]. rewrite zadd_puts_cons, IH. unfold accepted. rewrite filter_cons. cbn [fst snd].
  destruct (decide (k' = k ∧ zadd_accepts o (scores_of m !! k) s = true)) as [[-> Ha]|Hn].
  - rewrite Ha, fmap_cons, last_cons. fold (accepted o m k pairs). destruct (last (accepted o m k pairs)); [done|]. by rewrite lookup_insert_eq.
  - fold (accepted o m k pairs). destruct (last (accepted o m k pairs)); [done|]. destruct (zadd_accepts o (scores_of m !! k') s) eqn:Ha; [|done].
    rewrite lookup_insert_ne; [done|]. intros ->. by apply Hn.
Qed.

Section Zadd.
Context `{EngineLaws} `{ParseFloat} `{FormatG} `{RangeOrderLaws}.

(** One pair, on a live set [acc] that may have grown since the snapshot. *)
Lemma steps_zadd_one key s v o score k a b st m e acc ea : healthy (st_ctx st) → sees s v m e →
  is_hash (view (st_ctx st) key) acc ea → is_live (view (st_ctx st) key) = true →
  steps (zadd_one key (ks_snap s) o score k (a, b)) st
    (a + Z.b2z (zadd_new o m (score, k)), b + Z.b2z (zadd_changed o m (score, k))) (λ c', ∃ fs e',
      grown (st_ctx st) key (zadd_puts o m [(score, k)] acc) fs ea e' any_tag c').
Proof.
  intros Hh Hs Hx Hl. rewrite zadd_puts_cons. change (zadd_puts o m [] ?x) with x.
  unfold zadd_one, zadd_new, zadd_changed. cbn [fst snd]. rewrite (sees_score _ _ _ _ _ Hs).
  assert (Hskip : steps (mret (a, b)) st (a, b) (λ c', ∃ fs e', grown (st_ctx st) key acc fs ea e' any_tag c')).
  { apply steps_ret; [done|]. exists [], ea. by apply grown_refl. }
  assert (Hput : ∀ r : Z * Z, steps (emitZSetInsert key k score ≫= λ _, mret r) st r (λ c', ∃ fs e',
    grown (st_ctx st) key (<[k := float_value score]> acc) fs ea e' any_tag c')).
  { intros r. eapply steps_bind; [by apply steps_zset_insert|]. cbv beta. intros c' Hh' [e' Hg].
    apply (steps_ret _ (mkSt c' _ _)); [done|]. by exists [k], e'. }
  assert (Hm : m !! k = None ↔ scores_of m !! k = None) by (unfold scores_of; rewrite lookup_fmap; by destruct (m !! k)).
  destruct (scores_of m !! k) as [x|] eqn:Ex; unfold zadd_accepts.
  - rewrite (bool_decide_eq_false_2 (m !! k = None)) by (rewrite Hm; done). rewrite andb_false_r.
    destruct (za_nx o); cbn [negb andb Z.b2z]; [by rewrite !Z.add_0_r|].
    destruct (za_gt o && SFleb score x); cbn [negb andb Z.b2z]; [by rewrite !Z.add_0_r|].
    destruct (za_lt o && SFleb x score); cbn [negb andb Z.b2z]; [by rewrite !Z.add_0_r|].
    rewrite Z.add_0_r. destruct (SFeqb score x); cbn [negb Z.b2z]; rewrite ?Z.add_0_r; apply Hput.
  - rewrite (bool_decide_eq_true_2 (m !! k = None)) by (by apply Hm).
    destruct (za_xx o); cbn [negb andb Z.b2z]; rewrite ?Z.add_0_r; [done|]. apply Hput.
Qed.

Lemma steps_zadd_loop key s v o pairs a b st m e acc ea : healthy (st_ctx st) → sees s v m e → za_incr o = false →
  is_hash (view (st_ctx st) key) acc ea → is_live (view (st_ctx st) key) = true →
  steps (zadd_loop key (ks_snap s) o (a, b) pairs) st
    (a + how_many (zadd_new o m) pairs, b + how_many (zadd_changed o m) pairs) (λ c', ∃ fs e',
      grown (st_ctx st) key (zadd_puts o m pairs acc) fs ea e' any_tag c').
Proof.
  intros Hh Hs Hi. revert a b st Hh acc ea. induction pairs as [|[score k] pairs IH]; intros a b st Hh acc ea Hx Hl.
  - cbn [zadd_loop]. unfold how_many, len. cbn [filter list_filter length Z.of_nat]. rewrite !Z.add_0_r.
    apply steps_ret; [done|]. exists [], ea. by apply grown_refl.
  - cbn [zadd_loop]. rewrite Hi, !how_many_cons, !Z.add_assoc. eapply steps_bind; [by eapply steps_zadd_one|].
    cbv beta. intros c' Hh' (fs & e' & Hg).
    eapply steps_weaken; [apply (IH _ _ (mkSt c' _ _) Hh' (zadd_puts o m [(score, k)] acc) e'); [apply Hg|apply Hg]|].
    cbv beta. cbn [st_ctx]. intros c2 (fs2 & e2 & Hg2). exists (fs ++ fs2), e2. by eapply grown_trans.
Qed.

(** From a missing key the first pair starts the set. *)
Lemma steps_zadd_loop_new key s v o p pairs st : healthy (st_ctx st) → sees s v ∅ ∅ → za_incr o = false → za_xx o = false →
  is_hash (view (st_ctx st) key) ∅ ∅ →
  steps (zadd_loop key (ks_snap s) o (0, 0) (p :: pairs)) st
    (how_many (zadd_new o ∅) (p :: pairs), how_many (zadd_changed o ∅) (p :: pairs)) (λ c', ∃ fs e',
      grown (st_ctx st) key (zadd_puts o ∅ (p :: pairs) ∅) fs ∅ e' any_tag c').
Proof.
  intros Hh Hs Hi Hxx Hx. destruct p as [score k]. cbn [zadd_loop]. rewrite Hi, !how_many_cons.
  assert (zadd_new o ∅ (score, k) = true ∧ zadd_changed o ∅ (score, k) = false) as [-> ->].
  { unfold zadd_new, zadd_changed, scores_of, zadd_accepts. cbn [fst snd]. rewrite fmap_empty, !lookup_empty, Hxx. done. }
  unfold zadd_one. rewrite (sees_score _ _ _ _ _ Hs). unfold scores_of at 1. rewrite fmap_empty, lookup_empty, Hxx.
  eapply steps_bind.
  - eapply steps_bind; [by apply (steps_zset_insert key k score st ∅ ∅)|]. cbv beta. intros c' Hh' Hg.
    apply (steps_ret (0 + 1, 0) (mkSt c' _ _) (λ c', ∃ e', grown (st_ctx st) key (<[k:=float_value score]> ∅) [k] ∅ e' any_tag c')); done.
  - cbv beta. intros c' Hh' [e' Hg]. rewrite zadd_puts_cons.
    assert (zadd_accepts o (scores_of ∅ !! k) score = true) as ->.
    { unfold scores_of, zadd_accepts. by rewrite fmap_empty, lookup_empty, Hxx. }
    eapply steps_weaken; [apply (steps_zadd_loop key s v o pairs _ _ (mkSt c' _ _) ∅ ∅ (<[k := float_value score]> ∅) e'); [done|done|done|apply Hg|apply Hg]|].
    cbv beta. cbn [st_ctx]. intros c2 (fs2 & e2 & Hg2). exists ([k] ++ fs2), e2. by eapply grown_trans.
Qed.

(** The set after ZADD with members named any number of times: each has the score of
    the last of its pairs that the options allow. *)
Definition zadd_last (o : ZAddOpts) (pairs : list (spec_float * bytes)) (m m' : gmap bytes Value) : Prop :=
  ∀ k, m' !! k = match last (accepted o m k pairs) with Some s => Some (float_value s) | None => m !! k end.

(** ZADD INCR of one member by [d]. *)
Definition incr_score (m : gmap bytes Value) (k : bytes) (d : spec_float) : spec_float :=
  match scores_of m !! k with Some x => float_add x d | None => d end.
Definition incr_is_nan (o : ZAddOpts) (m : gmap bytes Value) (k : bytes) (d : spec_float) : bool :=
  match scores_of m !! k with Some _ => negb (za_nx o) && IsNaN (incr_score m k d) | None => false end.

(** The rest of the command once the set is read. *)
Definition incr_body (key : bytes) (s : KeySnap) (o : ZAddOpts) (d : spec_float) (k : bytes) : M unit :=
  '(_, _) ← (_ ← zadd_incr key (ks_snap s) o d k; mret (0, 0)); _ ← tag_new_zset key s; mret tt.
Lemma incr_body_stops key s o d k g st w Q : zadd_incr key (ks_snap s) o d k = reply g → healthy (st_ctx st) → g (st_w st) = w → Q (st_ctx st) →
  finishes (incr_body key s o d k) st w Q.
Proof. intros E Hh <- HQ. unfold incr_body. rewrite E. exists Return, (st_ctx st). by auto. Qed.
Lemma incr_body_puts key s o d k sum em st c0 m e : zadd_incr key (ks_snap s) o d k = (_ ← em; write (WriteScore sum)) → healthy (st_ctx st) → same c0 (st_ctx st) →
  sees s (view c0 key) m e → steps em st tt (λ c', ∃ e', grown (st_ctx st) key (<[k := float_value sum]> m) [k] e e' any_tag c') →
  finishes (incr_body key s o d k) st (WriteScore sum (st_w st)) (λ c', ∃ e', grown c0 key (<[k := float_value sum]> m) [k] e e' (λ t, t = TYPE_ZSET) c').
Proof.
  intros E Hh Hsame Hs (c2 & E2 & Hh2 & e' & Hg). unfold incr_body. rewrite E. apply (same_grown _ _ _ _ _ _ _ _ _ Hsame) in Hg.
  destruct (steps_tag_zset key s (mkSt c2 (WriteScore sum (st_w st)) (st_held st)) c0 _ _ _ _ Hh2 (sees_exists _ _ _ _ Hs) Hg) as (c3 & E3 & Hh3 & Hg3).
  exists (Next tt), c3. cbn [st_ctx st_w st_held] in *. unfold mbind, M_bind. rewrite E2. unfold write, mret, M_ret. cbn [st_ctx st_w st_held]. rewrite E3. split_and!; [done|by left|done|by exists e'].
Qed.

Lemma zadd_runner_body key o d k st m e w Q : healthy (st_ctx st) → is_hash (view (st_ctx st) key) m e → za_incr o = true →
  (za_xx o && negb (is_live (view (st_ctx st) key)) = true → w = WriteNullBulkString (st_w st) ∧ Q = same (st_ctx st)) →
  (∀ s c', sees s (view (st_ctx st) key) m e → healthy c' → same (st_ctx st) c' →
     finishes (incr_body key s o d k) (mkSt c' (st_w st) (st_held st)) w Q) →
  finishes (zadd_runner key o [(d, k)]) st w Q.
Proof.
  intros Hh Hx Hi Hno Hf. apply (finishes_zset_get _ _ _ m e); [done|done|]. intros s c' Hs Hh' Hsame.
  rewrite (sees_type _ _ _ _ Hs), (sees_exists _ _ _ _ Hs), Hi. destruct (za_xx o && negb (is_live _)).
  - destruct (Hno eq_refl) as [-> ->]. by apply finishes_reply.
  - cbn [zadd_loop]. rewrite Hi. by apply Hf.
Qed.

Lemma zadd_runner_incr key o d k st m e : healthy (st_ctx st) → is_hash (view (st_ctx st) key) m e → za_incr o = true →
  is_double d → (∀ v, m !! k = Some v → ∃ b, v = FloatVal b) →
  if incr_is_nan o m k d then finishes (zadd_runner key o [(d, k)]) st (WriteError nan_score (st_w st)) (same (st_ctx st))
  else if zadd_accepts o (scores_of m !! k) (incr_score m k d)
  then finishes (zadd_runner key o [(d, k)]) st (WriteScore (incr_score m k d) (st_w st)) (λ c', ∃ e',
         grown (st_ctx st) key (<[k := float_value (incr_score m k d)]> m) [k] e e' (λ t, t = TYPE_ZSET) c')
  else finishes (zadd_runner key o [(d, k)]) st (WriteNullBulkString (st_w st)) (same (st_ctx st)).
Proof.
  intros Hh Hx Hi Hd Hv. unfold incr_is_nan, incr_score, zadd_accepts. destruct (scores_of m !! k) as [x|] eqn:Ex.
  - assert (El : is_live (view (st_ctx st) key) = true).
    { destruct (is_live (view (st_ctx st) key)) eqn:El; [done|]. destruct (is_hash_dead _ _ _ El Hx) as [-> _]. unfold scores_of in Ex. by rewrite fmap_empty in Ex. }
    assert (Hno : za_xx o && negb (is_live (view (st_ctx st) key)) = true → False) by (rewrite El, andb_false_r; done).
    assert (∃ b, m !! k = Some (FloatVal b) ∧ x = Float64frombits b) as (b & Em & ->).
    { unfold scores_of in Ex. apply lookup_fmap_Some in Ex as (v & <- & Em). destruct (Hv v Em) as [b ->]. by exists b. }
    destruct (za_nx o) eqn:Enx; cbn [negb andb].
    { apply (zadd_runner_body key o d k st m e); [done..|by intros []%Hno|]. intros s c' Hs Hh' Hsame.
      eapply incr_body_stops; [|done|done|done]. unfold zadd_incr. by rewrite (sees_score _ _ _ _ _ Hs), Ex, Enx. }
    destruct (IsNaN (float_add (Float64frombits b) d)) eqn:En;
      [|destruct (za_gt o && SFleb (float_add (Float64frombits b) d) (Float64frombits b)) eqn:Eg; cbn [negb andb];
        [|destruct (za_lt o && SFleb (Float64frombits b) (float_add (Float64frombits b) d)) eqn:Et; cbn [negb andb]]];
      (apply (zadd_runner_body key o d k st m e); [done..|by intros []%Hno|]); intros s c' Hs Hh' Hsame;
      assert (Hz : zsetMemberScore (ks_snap s) k = Some (Float64frombits b)) by (by rewrite (sees_score _ _ _ _ _ Hs), Ex).
    1-3: eapply incr_body_stops; [|done|done|done]; unfold zadd_incr; rewrite Hz, Enx; cbv zeta; by rewrite En, ?Eg, ?Et.
    apply (incr_body_puts key s o d k _ (emitZSetIncrBy key k d) (mkSt c' _ _)); [|done|done|done|].
    + unfold zadd_incr. rewrite Hz, Enx. cbv zeta. by rewrite En, Eg, Et.
    + apply (steps_zset_incr key k b d (mkSt c' _ _) m e); [done|by rewrite Hsame|done|done].
  - destruct (za_xx o) eqn:Exx; cbn [negb]; (apply (zadd_runner_body key o d k st m e); [done..|rewrite ?Exx; by try done|]); intros s c' Hs Hh' Hsame.
    + eapply incr_body_stops; [|done|done|done]. unfold zadd_incr. by rewrite (sees_score _ _ _ _ _ Hs), Ex, Exx.
    + apply (incr_body_puts key s o d k d (emitZSetInsert key k d) (mkSt c' _ _)); [|done|done|done|].
      * unfold zadd_incr. by rewrite (sees_score _ _ _ _ _ Hs), Ex, Exx.
      * apply (steps_zset_insert key k d (mkSt c' _ _) m e); [done|by rewrite Hsame].
Qed.

(** ZADD without INCR, on a key that exists or that the options let it make. *)
Lemma zadd_runner_puts key o p pairs st m e : healthy (st_ctx st) → is_hash (view (st_ctx st) key) m e → za_incr o = false →
  za_xx o && negb (is_live (view (st_ctx st) key)) = false →
  finishes (zadd_runner key o (p :: pairs)) st
    (WriteInteger (how_many (zadd_new o m) (p :: pairs) + if za_ch o then how_many (zadd_changed o m) (p :: pairs) else 0) (st_w st))
    (λ c', ∃ fs e', grown (st_ctx st) key (zadd_puts o m (p :: pairs) m) fs e e' (λ t, t = TYPE_ZSET) c').
Proof.
  intros Hh Hx Hi Exx. apply (finishes_zset_get _ _ _ m e); [done|done|]. intros s c' Hs Hh' Hsame.
  rewrite (sees_type _ _ _ _ Hs), (sees_exists _ _ _ _ Hs), Exx, Hi.
  eapply (finishes_bind _ _ (mkSt c' _ _) (how_many (zadd_new o m) (p :: pairs), how_many (zadd_changed o m) (p :: pairs))
    (λ c2, ∃ fs e', grown (st_ctx st) key (zadd_puts o m (p :: pairs) m) fs e e' any_tag c2)).
  - destruct (is_live (view (st_ctx st) key)) eqn:El.
    + eapply steps_weaken; [eapply (steps_zadd_loop key s _ o (p :: pairs) 0 0 (mkSt c' _ _) m e m e); [done|exact Hs|done|by rewrite Hsame|by rewrite Hsame]|].
      cbv beta. cbn [st_ctx]. intros c2 (fs & e2 & Hg). exists fs, e2. by eapply same_grown.
    + destruct (is_hash_dead _ _ _ El Hx) as [-> ->]. rewrite andb_true_r in Exx.
      eapply steps_weaken; [eapply (steps_zadd_loop_new key s _ o p pairs (mkSt c' _ _)); [done|exact Hs|done|done|by rewrite Hsame]|].
      cbv beta. cbn [st_ctx]. intros c2 (fs & e2 & Hg). exists fs, e2. by eapply same_grown.
  - cbv beta iota. cbn [st_ctx st_w st_held]. intros c2 Hh2 (fs & e2 & Hg).
    eapply finishes_bind; [apply (steps_tag_zset key s (mkSt c2 _ _) (st_ctx st)); [done|apply (sees_exists _ _ _ _ Hs)|exact Hg]|].
    cbv beta. intros c3 Hh3 Hg3. apply finishes_write; [done| |by exists fs, e2]. cbn [st_w]. f_equal. destruct (za_ch o); lia.
Qed.

(** What ZADD with the options [o] does to the sorted set [m]. *)
Definition zadd_spec (o : ZAddOpts) (key : bytes) (p : spec_float * bytes) (pairs : list (spec_float * bytes)) (run : M unit)
    (st : St) (m : gmap bytes Value) (e : gmap bytes Timestamp) : Prop :=
  if za_incr o then
    let '(d, k) := p in
    if incr_is_nan o m k d then finishes run st (WriteError nan_score (st_w st)) (same (st_ctx st))
    else if zadd_accepts o (scores_of m !! k) (incr_score m k d)
    then finishes run st (WriteScore (incr_score m k d) (st_w st)) (λ c', ∃ e',
           grown (st_ctx st) key (<[k := float_value (incr_score m k d)]> m) [k] e e' (λ t, t = TYPE_ZSET) c')
    else finishes run st (WriteNullBulkString (st_w st)) (same (st_ctx st))
  else if za_xx o && negb (is_live (view (st_ctx st) key)) then finishes run st (WriteInteger 0 (st_w st)) (same (st_ctx st))
  else ∃ m', zadd_last o (p :: pairs) m m' ∧
    (NoDup (snd <$> p :: pairs) →
       zadd_result o (p :: pairs) m m' ∧ how_many (zadd_new o m) (p :: pairs) = Z.of_nat (size m') - Z.of_nat (size m)) ∧
    finishes run st
      (WriteInteger (how_many (zadd_new o m) (p :: pairs) + if za_ch o then how_many (zadd_changed o m) (p :: pairs) else 0) (st_w st))
      (λ c', ∃ fs e', grown (st_ctx st) key m' fs e e' (λ t, t = TYPE_ZSET) c').

(** C33: ZADD with any compatible options on a sorted set or a missing key.  Without
    INCR each member named gets the score of the last of its pairs whose conditions
    hold of its score before the command, a missing key becomes a sorted set unless
    XX is given, and other keys stay as they were; the reply is the number of pairs
    whose member was not in the set, with CH also of those that changed a score.
    When no member is named twice, exactly the members whose conditions hold have
    their new scores and the first number is that of the new members; a new member
    named twice is counted twice.  With INCR, which takes one pair, the member gets
    the sum, which is also the reply, when the conditions hold of it; the reply is
    null and nothing changes when they do not, and an error for a sum that is not a
    number. *)
Theorem zadd_correct (key : bytes) (rest remaining : list bytes) (o : ZAddOpts) (p : spec_float * bytes)
    (pairs : list (spec_float * bytes)) (st : St) (m : gmap bytes Value) (e : gmap bytes Timestamp) :
  healthy (st_ctx st) → is_hash (view (st_ctx st) key) m e →
  zadd_opts rest (mkZAddOpts false false false false false false) = (o, remaining) →
  za_nx o && za_xx o = false → za_gt o && za_lt o = false → (za_gt o || za_lt o) && za_nx o = false →
  (length rest > 1)%nat → len remaining `mod` 2 = 0 → score_members remaining = Some (p :: pairs) →
  (za_incr o = true → len remaining = 2 ∧ is_double (fst p) ∧ ∀ v, m !! snd p = Some v → ∃ b, v = FloatVal b) →
  ∃ run, handleZAdd (key :: rest) = Accept [key] run ∧ zadd_spec o key p pairs run st m e.
Proof.
  intros Hh Hx Ho Hc1 Hc2 Hc3 Hlen Hmod Hp Hincr.
  assert (Hlr : (len remaining <? 2) = false).
  { destruct remaining as [|? [|? ?]]; [done..|]. apply Z.ltb_ge. unfold len. cbn [length]. lia. }
  exists (zadd_runner key o (p :: pairs)). unfold zadd_spec. destruct (za_incr o) eqn:Hi.
  - destruct (Hincr eq_refl) as (Hl2 & Hd & Hv). assert (pairs = []) as ->.
    { destruct remaining as [|s1 [|s2 [|s3 r]]]; [done..| |unfold len in Hl2; cbn [length] in Hl2; lia].
      cbn [score_members] in Hp. destruct (parse_float s1) as [x|]; [|done]. destruct (IsNaN x); [done|]. by injection Hp as <-. }
    destruct p as [d k]. split; [|by apply zadd_runner_incr].
    destruct rest as [|? [|? ?]]; cbn [length] in Hlen; [lia..|]. unfold handleZAdd. by rewrite Ho, Hc1, Hc2, Hc3, Hlr, Hmod, Hi, Hl2, Hp.
  - split; [destruct rest as [|? [|? ?]]; cbn [length] in Hlen; [lia..|]; unfold handleZAdd; by rewrite Ho, Hc1, Hc2, Hc3, Hlr, Hmod, Hi, Hp|].
    destruct (za_xx o && negb (is_live (view (st_ctx st) key))) eqn:Exx.
    + apply (finishes_zset_get _ _ _ m e); [done|done|]. intros s c' Hs Hh' Hsame.
      rewrite (sees_type _ _ _ _ Hs), (sees_exists _ _ _ _ Hs), Exx, Hi. by apply finishes_reply.
    + exists (zadd_puts o m (p :: pairs) m). split; [intros k; apply zadd_puts_last|]. split; [|by apply zadd_runner_puts].
      intros Hnd. split; [by apply zadd_puts_result|]. rewrite (zadd_puts_size o m (p :: pairs) m Hnd) by done. lia.
Qed.
End Zadd.
