(* ===== verification/ZsetOps.v ===== *)
(** * Operations on several sorted sets

    src/redis/zset/setops.go: ZUNION, ZINTER, ZDIFF, ZINTERCARD, their STORE
    forms and ZRANGESTORE. *)

From Stdlib Require Import SpecFloat.
From S2P Require Import Prelude GoBytes Strconv Floats Commands Writer Engine Sets Strings Hashes Lists Zsets ZsetRanges.

Local Open Scope Z_scope.

(** ** Scores *)

Inductive Aggregate : Type := AggSum | AggMin | AggMax.

Definition zero_nan (f : spec_float) : spec_float := if IsNaN f then float_zero else f.
Definition weighted (score weight : spec_float) : spec_float := zero_nan (float_mul score weight).

(** The score a member gets from the one it has and a further weighted one. *)
Definition aggregate_scores (agg : Aggregate) (existing weightedScore : spec_float) : spec_float :=
  match agg with
  | AggSum => zero_nan (float_add existing weightedScore)
  | AggMin => if SFltb weightedScore existing then weightedScore else existing
  | AggMax => if SFltb existing weightedScore then weightedScore else existing
  end.

(** The loop over the members of one more set: each member occurs once. *)
Definition union_with_set (agg : Aggregate) (weight : spec_float) (members result : gmap bytes spec_float) :
    gmap bytes spec_float :=
  merge (λ have new,
    match have, new with
    | Some existing, Some score => Some (aggregate_scores agg existing (weighted score weight))
    | None, Some score => Some (weighted score weight)
    | have, None => have
    end) result members.

Definition inter_with_set (agg : Aggregate) (weight : spec_float) (members result : gmap bytes spec_float) :
    gmap bytes spec_float :=
  merge (λ have new,
    match have, new with
    | Some existing, Some score => Some (aggregate_scores agg existing (weighted score weight))
    | _, _ => None
    end) result members.

Definition diff_with_set (members result : gmap bytes spec_float) : gmap bytes spec_float := result ∖ members.

(** ** Arguments *)

Record SetOpArgs := mkSetOpArgs {
  so_keys : list bytes; so_weights : list spec_float; so_agg : Aggregate; so_withScores : bool
}.

(** The error message of a parser, or a panic. *)
Inductive OpParsed (A : Type) : Type := OpGood (a : A) | OpBad (errMsg : bytes) | OpBoom.
Arguments OpGood {A} a.
Arguments OpBad {A} errMsg.
Arguments OpBoom {A}.

Definition syntaxErrorMessage : bytes := str "syntax error".
Definition needs_key (cmdName : bytes) : bytes :=
  str "at least 1 input key is needed for '" ++ cmdName ++ str "' command".

Definition parse_aggregate (a : bytes) : option Aggregate :=
  if beq a (str "SUM") then Some AggSum
  else if beq a (str "MIN") then Some AggMin
  else if beq a (str "MAX") then Some AggMax
  else None.

Section ZsetOps.
Context `{Engine} `{ParseFloat} `{FormatG} `{RangeOrder}.

(** [n] weights, and the arguments after them. *)
Fixpoint take_weights (n : nat) (args : list bytes) : result bytes (list spec_float * list bytes) :=
  match n with
  | O => Ok ([], args)
  | S n' =>
    match args with
    | [] => Err syntaxErrorMessage
    | a :: rest =>
      match parse_float a with
      | None => Err (str "weight is not a float")
      | Some f =>
        if IsNaN f then Err (str "weight is not a float")
        else match take_weights n' rest with
        | Err e => Err e
        | Ok (ws, rest') => Ok (f :: ws, rest')
        end
      end
    end
  end.

(** The optional arguments; [scores]: WITHSCORES is one of them. *)
Fixpoint setop_opts (fuel : nat) (scores : bool) (args : list bytes) (o : SetOpArgs) : result bytes SetOpArgs :=
  match fuel, args with
  | _, [] => Ok o
  | O, _ => Err syntaxErrorMessage
  | S fuel', a :: rest =>
    let opt := ToUpper a in
    let '(mkSetOpArgs keys weights agg withScores) := o in
    if beq opt (str "WEIGHTS") then
      match take_weights (length keys) rest with
      | Err e => Err e
      | Ok (ws, rest') => setop_opts fuel' scores rest' (mkSetOpArgs keys ws agg withScores)
      end
    else if beq opt (str "AGGREGATE") then
      match rest with
      | [] => Err syntaxErrorMessage
      | x :: rest' =>
        match parse_aggregate (ToUpper x) with
        | None => Err syntaxErrorMessage
        | Some agg' => setop_opts fuel' scores rest' (mkSetOpArgs keys weights agg' withScores)
        end
      end
    else if scores && beq opt (str "WITHSCORES")
    then setop_opts fuel' scores rest (mkSetOpArgs keys weights agg true)
    else Err syntaxErrorMessage
  end.

(** The keys after their number, and the arguments after them. *)
Definition counted_keys (cmdName : bytes) (args : list bytes) : OpParsed (list bytes * list bytes) :=
  match args with
  | n :: rest =>
    match Atoi n with
    | None => OpBad (str "value is not an integer or out of range")
    | Some numKeys =>
      if numKeys <? 1 then OpBad (needs_key cmdName)
      else if len args <? i64 (1 + numKeys) then OpBad syntaxErrorMessage
      else if negb (make_strings numKeys) then OpBoom
      else OpGood (take (Z.to_nat numKeys) rest, drop (Z.to_nat numKeys) rest)
    end
  | [] => OpBad (str "wrong number of arguments")
  end.

(** [parseZStoreArgs] and [parseZSetOpArgs]: the second accepts WITHSCORES. *)
Definition parse_setop (withScores : bool) (cmdName : bytes) (args : list bytes) : OpParsed SetOpArgs :=
  if len args <? 2 then OpBad (str "wrong number of arguments")
  else match counted_keys cmdName args with
  | OpBad e => OpBad e
  | OpBoom => OpBoom
  | OpGood (keys, rest) =>
    match setop_opts (length rest) withScores rest (mkSetOpArgs keys (replicate (length keys) (float64_of 1)) AggSum false) with
    | Err e => OpBad e
    | Ok o => OpGood o
    end
  end.
Definition parseZStoreArgs : bytes → list bytes → OpParsed SetOpArgs := parse_setop false.
Definition parseZSetOpArgs : bytes → list bytes → OpParsed SetOpArgs := parse_setop true.

(** ** Reading the sets *)

(** The members with their scores, those of a plain set all being one; a
    missing key has no map. *)
Definition members_with_scores (snap : option ReducedEffect) : option (gmap bytes spec_float) * bool :=
  match snap with
  | None => (None, false)
  | Some r =>
    if bool_decide (re_Op r = REMOVE_OP) then (None, false)
    else if bool_decide (re_Collection r = KEYED) ||
            (bool_decide (re_Collection r = SCALAR) &&
             (bool_decide (re_TypeTag r = TYPE_ZSET) || bool_decide (re_TypeTag r = TYPE_SET)))
    then (Some ((λ v, if bool_decide (re_TypeTag r = TYPE_SET) then float64_of 1 else GetFloatVal v) <$> re_NetAdds r), false)
    else (None, true)
  end.

(** With the wrong type replied on the spot, as every caller does. *)
Definition getMembersWithScoresFromSnapshot (key : bytes) : M (option (gmap bytes spec_float)) :=
  '(snap, _) ← get_snapshot key;
  let '(members, wrongType) := members_with_scores snap in
  if wrongType then reply WriteWrongType else mret members.

(** ** Union, intersection, difference *)

Fixpoint zunion (agg : Aggregate) (result : gmap bytes spec_float) (srcs : list (bytes * spec_float)) :
    M (gmap bytes spec_float) :=
  match srcs with
  | [] => mret result
  | (key, weight) :: srcs' =>
    members ← getMembersWithScoresFromSnapshot key;
    match members with
    | None => zunion agg result srcs'
    | Some ms => zunion agg (union_with_set agg weight ms result) srcs'
    end
  end.

(** [missing]: what to do when a set does not exist.  The loop stops at an empty
    intersection, without looking at the sets left. *)
Fixpoint zinter_rest (missing : M (gmap bytes spec_float)) (agg : Aggregate) (result : gmap bytes spec_float)
    (srcs : list (bytes * spec_float)) : M (gmap bytes spec_float) :=
  match srcs with
  | [] => mret result
  | (key, weight) :: srcs' =>
    members ← getMembersWithScoresFromSnapshot key;
    match members with
    | None => missing
    | Some ms =>
      let result' := inter_with_set agg weight ms result in
      if bool_decide (size result' = 0%nat) then mret result' else zinter_rest missing agg result' srcs'
    end
  end.

(** The weighted scores of the first set are taken as they come out. *)
Definition zinter (missing : M (gmap bytes spec_float)) (agg : Aggregate) (srcs : list (bytes * spec_float)) :
    M (gmap bytes spec_float) :=
  match srcs with
  | [] => or_panic None
  | (key, weight) :: srcs' =>
    members ← getMembersWithScoresFromSnapshot key;
    match members with
    | None => missing
    | Some ms => zinter_rest missing agg ((λ s, float_mul s weight) <$> ms) srcs'
    end
  end.

Fixpoint zdiff_rest (result : gmap bytes spec_float) (keys : list bytes) : M (gmap bytes spec_float) :=
  match keys with
  | [] => mret result
  | key :: keys' =>
    members ← getMembersWithScoresFromSnapshot key;
    zdiff_rest (match members with None => result | Some ms => diff_with_set ms result end) keys'
  end.

Definition zdiff (missing : M (gmap bytes spec_float)) (keys : list bytes) : M (gmap bytes spec_float) :=
  match keys with
  | [] => or_panic None
  | key :: keys' =>
    members ← getMembersWithScoresFromSnapshot key;
    match members with
    | None => missing
    | Some ms => zdiff_rest ms keys'
    end
  end.

(** ** Storing a result *)

(** The destination is deleted and nothing stored. *)
Definition store_nothing {A} (dest : bytes) : M A :=
  _ ← emitZSetDeleteKey dest;
  reply (WriteInteger 0).

Definition store_entries (dest : bytes) (entries : list ZSetEntry) : M unit :=
  if len entries =? 0 then store_nothing dest
  else
    _ ← emitZSetDeleteKey dest;
    _ ← for_each entries (λ e, emitZSetInsert dest (ze_Member e) (ze_Score e));
    _ ← emitZSetTypeTag dest;
    write (WriteInteger (len entries)).

Definition sources (o : SetOpArgs) : list (bytes * spec_float) := zip (so_keys o) (so_weights o).

Definition zunionstore_runner (dest : bytes) (o : SetOpArgs) : M unit :=
  result ← zunion (so_agg o) ∅ (sources o);
  store_entries dest (range_entries result).
Definition zinterstore_runner (dest : bytes) (o : SetOpArgs) : M unit :=
  result ← zinter (store_nothing dest) (so_agg o) (sources o);
  store_entries dest (range_entries result).
Definition zdiffstore_runner (dest : bytes) (keys : list bytes) : M unit :=
  result ← zdiff (store_nothing dest) keys;
  store_entries dest (range_entries result).

Definition handle_store (run : bytes → SetOpArgs → M unit) (cmd : bytes) (args : list bytes) : Prep :=
  match args with
  | dest :: ((_ :: _ :: _) as rest) =>
    match parseZStoreArgs cmd rest with
    | OpBad e => Refuse [] (WriteError (str "ERR " ++ e))
    | OpBoom => Crash
    | OpGood o => Accept (dest :: so_keys o) (run dest o)
    end
  | _ => Refuse [] (WriteWrongNumArguments cmd)
  end.
Definition handleZUnionStore : list bytes → Prep := handle_store zunionstore_runner (str "zunionstore").
Definition handleZInterStore : list bytes → Prep := handle_store zinterstore_runner (str "zinterstore").

(** ** The replying forms *)

Definition sorted_result (result : gmap bytes spec_float) : list ZSetEntry := sort_entries (range_entries result).

Definition zunion_runner (o : SetOpArgs) : M unit :=
  result ← zunion (so_agg o) ∅ (sources o);
  write (writeZSetEntries (sorted_result result) (so_withScores o)).
Definition zinter_runner (o : SetOpArgs) : M unit :=
  result ← zinter (reply (WriteArray 0)) (so_agg o) (sources o);
  write (writeZSetEntries (sorted_result result) (so_withScores o)).

Definition handle_op (run : SetOpArgs → M unit) (cmd : bytes) (args : list bytes) : Prep :=
  if len args <? 2 then Refuse [] (WriteWrongNumArguments cmd)
  else match parseZSetOpArgs cmd args with
  | OpBad e => Refuse [] (WriteError (str "ERR " ++ e))
  | OpBoom => Crash
  | OpGood o => Accept (so_keys o) (run o)
  end.
Definition handleZUnion : list bytes → Prep := handle_op zunion_runner (str "zunion").
Definition handleZInter : list bytes → Prep := handle_op zinter_runner (str "zinter").

(** The number of keys and the keys of ZINTERCARD, ZDIFF and ZDIFFSTORE; here a
    missing key is a syntax error of its own. *)
Definition zkeys (cmd : bytes) (args : list bytes) (next : list bytes → list bytes → Prep) : Prep :=
  match counted_keys cmd args with
  | OpBad e => Refuse [] (if beq e syntaxErrorMessage then WriteSyntaxError else WriteError (str "ERR " ++ e))
  | OpBoom => Crash
  | OpGood (keys, rest) => next keys rest
  end.

Fixpoint zintercard_limit (args : list bytes) (limit : Z) : result (Writer → Writer) Z :=
  match args with
  | [] => Ok limit
  | opt :: rest =>
    if negb (beq (ToUpper opt) (str "LIMIT")) then Err WriteSyntaxError
    else match rest with
    | [] => Err WriteSyntaxError
    | n :: rest' =>
      match Atoi n with
      | None => Err (WriteError (str "ERR LIMIT must be a non-negative integer"))
      | Some l =>
        if l <? 0 then Err (WriteError (str "ERR LIMIT must be a non-negative integer"))
        else zintercard_limit rest' l
      end
    end
  end.

Fixpoint zintercard_rest (candidates : gset bytes) (keys : list bytes) : M (gset bytes) :=
  match keys with
  | [] => mret candidates
  | key :: keys' =>
    members ← getMembersWithScoresFromSnapshot key;
    match members with
    | None => reply (WriteInteger 0)
    | Some ms =>
      let candidates' := candidates ∩ dom ms in
      if bool_decide (size candidates' = 0%nat) then mret candidates' else zintercard_rest candidates' keys'
    end
  end.

Definition zintercard_runner (keys : list bytes) (limit : Z) : M unit :=
  match keys with
  | [] => or_panic None
  | key :: keys' =>
    members ← getMembersWithScoresFromSnapshot key;
    match members with
    | None => reply (WriteInteger 0)
    | Some ms =>
      candidates ← zintercard_rest (dom ms) keys';
      let count := Z.of_nat (size candidates) in
      write (WriteInteger (if (0 <? limit) && (limit <? count) then limit else count))
    end
  end.

Definition handleZInterCard (args : list bytes) : Prep :=
  if len args <? 2 then Refuse [] (WriteWrongNumArguments (str "zintercard"))
  else zkeys (str "zintercard") args (λ keys rest,
    match zintercard_limit rest 0 with
    | Err f => Refuse keys f
    | Ok limit => Accept keys (zintercard_runner keys limit)
    end).

(** ZDIFF replies a flat array under RESP3 too. *)
Definition zdiff_runner (keys : list bytes) (withScores : bool) : M unit :=
  result ← zdiff (reply (WriteArray 0)) keys;
  let entries := sorted_result result in
  write (if withScores then write_pairs false entries else writeZSetEntries entries false).

Fixpoint only_withscores (args : list bytes) (withScores : bool) : option bool :=
  match args with
  | [] => Some withScores
  | opt :: rest => if beq (ToUpper opt) (str "WITHSCORES") then only_withscores rest true else None
  end.

Definition handleZDiff (args : list bytes) : Prep :=
  if len args <? 2 then Refuse [] (WriteWrongNumArguments (str "zdiff"))
  else zkeys (str "zdiff") args (λ keys rest,
    match only_withscores rest false with
    | None => Refuse keys WriteSyntaxError
    | Some withScores => Accept keys (zdiff_runner keys withScores)
    end).

(** The sum 2 + numKeys of ZDIFFSTORE counts the destination too. *)
Definition handleZDiffStore (args : list bytes) : Prep :=
  match args with
  | dest :: n :: ((_ :: _) as rest) =>
    match Atoi n with
    | None => Refuse [] (WriteError (str "ERR value is not an integer or out of range"))
    | Some numKeys =>
      if numKeys <? 1 then Refuse [] (WriteError (str "ERR " ++ needs_key (str "zdiffstore")))
      else if (len args <? i64 (2 + numKeys)) || (i64 (2 + numKeys) <? len args) then Refuse [] WriteSyntaxError
      else
        let srcKeys := take (Z.to_nat numKeys) rest in
        Accept (dest :: srcKeys) (zdiffstore_runner dest srcKeys)
    end
  | _ => Refuse [] (WriteWrongNumArguments (str "zdiffstore"))
  end.

(** ** ZRANGESTORE *)

Definition zrangestore_runner (dst src : bytes) (sel : Selection) (o : RangeOpts) : M unit :=
  s ← getZSetSnapshot src;
  if negb (ks_exists s) then store_nothing dst
  else if ks_wrongType s then reply WriteWrongType
  else store_entries dst (select_entries sel o (zsetSortedMembers (ks_snap s))).

Definition handleZRangeStore (args : list bytes) : Prep :=
  match args with
  | dst :: src :: startArg :: stopArg :: opts =>
    match range_opts [str "BYSCORE"; str "BYLEX"; str "REV"; str "LIMIT"] opts no_range_opts with
    | Err f => Refuse [dst; src] f
    | Ok o =>
      match parse_selection o startArg stopArg with
      | Err f => Refuse [dst; src] f
      | Ok sel => Accept [dst; src] (zrangestore_runner dst src sel o)
      end
    end
  | _ => Refuse [] (WriteWrongNumArguments (str "zrangestore"))
  end.
End ZsetOps.
