(* ===== verification/ZsetRangeProps.v ===== *)
(** * Ranks, ranges, removals and pops of sorted sets are correct *)

From Stdlib Require Import SpecFloat.
From S2P Require Import Prelude GoBytes Strconv Floats Commands Writer Engine Runs Sets Strings Hashes HashTheorems Lists Zsets ZsetOrder ZsetRanges ZsetTheorems.

Local Open Scope Z_scope.

(** ** Ranks *)

(** The entries of a set in no particular order. *)
Definition entry_list (m : gmap bytes spec_float) : list ZSetEntry := (λ p, mkEntry (fst p) (snd p)) <$> map_to_list m.

(** How many members come before and after an entry. *)
Definition count_before (m : gmap bytes spec_float) (x : ZSetEntry) : Z := how_many (λ e, entry_less e x) (entry_list m).
Definition count_after (m : gmap bytes spec_float) (x : ZSetEntry) : Z := how_many (λ e, entry_less x e) (entry_list m).

Lemma how_many_perm {A} (p : A → bool) l l' : l ≡ₚ l' → how_many p l = how_many p l'.
Proof. intros Hp. unfold how_many, len. by rewrite Hp. Qed.
Lemma how_many_app {A} (p : A → bool) l l' : how_many p (l ++ l') = how_many p l + how_many p l'.
Proof. unfold how_many. rewrite filter_app. apply len_app. Qed.
Lemma how_many_all {A} (p : A → bool) l : Forall (λ x, p x = true) l → how_many p l = len l.
Proof. intros Ha. unfold how_many. rewrite filter_id; [done|]. by apply Forall_forall. Qed.
Lemma how_many_none {A} (p : A → bool) l : Forall (λ x, p x = false) l → how_many p l = 0.
Proof.
  intros Hf. induction l as [|x l IH]; [done|]. apply Forall_cons in Hf as [Hx Hf]. rewrite how_many_cons, Hx, IH by done. done.
Qed.

Lemma sorted_entry_list m l : sorted_of m l → l ≡ₚ entry_list m.
Proof.
  intros Hs. apply NoDup_Permutation.
  - apply (NoDup_fmap_1 ze_Member). by eapply sorted_NoDup.
  - unfold entry_list. apply NoDup_fmap_2_strong; [|apply NoDup_map_to_list]. intros [a b] [c d] _ _ [= -> ->]. done.
  - intros [k s]. rewrite (sorted_in _ _ Hs). unfold entry_list. rewrite list_elem_of_fmap. split.
    + intros Hk. exists (k, s). split; [done|by apply elem_of_map_to_list].
    + intros ([k' s'] & [= -> ->] & Hin). by apply elem_of_map_to_list in Hin.
Qed.

(** The rank of a member splits the sorted entries. *)
Lemma rank_of_split m l k x : sorted_of m l → m !! k = Some x →
  ∃ l1 l2, l = l1 ++ mkEntry k x :: l2 ∧ rank_of k l = Some (length l1).
Proof.
  intros Hs Hk. pose proof (sorted_NoDup _ _ Hs) as Hnd. apply (sorted_in _ _ Hs) in Hk. clear Hs.
  induction l as [|[k' x'] l IH]; [by apply not_elem_of_nil in Hk|].
  cbn in Hnd. apply NoDup_cons in Hnd as [Hn Hnd]. cbn [rank_of ze_Member].
  apply elem_of_cons in Hk as [[= <- <-]|Hk].
  - exists [], l. by rewrite beq_refl.
  - destruct (IH Hk Hnd) as (l1 & l2 & -> & Hr). exists (mkEntry k' x' :: l1), l2. split; [done|].
    unfold beq. rewrite bool_decide_eq_false_2, Hr; [done|]. intros ->. apply Hn. apply list_elem_of_fmap. by exists (mkEntry k x).
Qed.

Lemma rank_of_None m l k : sorted_of m l → m !! k = None → rank_of k l = None.
Proof.
  intros Hs Hk. assert (Hn : k ∉ (ze_Member <$> l)).
  { intros ([k' x] & -> & Hin)%list_elem_of_fmap. apply (sorted_in _ _ Hs) in Hin. cbn in Hk. congruence. }
  clear Hs Hk. induction l as [|[k' x'] l IH]; [done|]. cbn in Hn. cbn [rank_of ze_Member]. unfold beq.
  rewrite bool_decide_eq_false_2, IH; [done|set_solver..].
Qed.

Lemma rank_counts m l k x : no_nan m → sorted_of m l → m !! k = Some x →
  ∃ i, rank_of k l = Some i ∧ l !! i = Some (mkEntry k x) ∧ Z.of_nat i = count_before m (mkEntry k x) ∧
    len l - 1 - Z.of_nat i = count_after m (mkEntry k x).
Proof.
  intros Hn Hs Hk. destruct (rank_of_split _ _ _ _ Hs Hk) as (l1 & l2 & El & Hr). exists (length l1). split; [done|].
  split; [by rewrite El, list_lookup_middle|]. unfold count_before, count_after.
  rewrite <- !(how_many_perm _ _ _ (sorted_entry_list _ _ Hs)).
  assert (Hreal : Forall real_score l).
  { apply Forall_forall. intros [k' x'] Hin. apply (sorted_in _ _ Hs) in Hin. by apply (Hn k'). }
  pose proof (sorted_order _ _ Hs) as Ho. subst l. set (y := mkEntry k x) in *.
  assert (Hy : real_score y) by (eapply Forall_forall; [exact Hreal|set_solver]).
  assert (H1' : Forall (λ e, entry_lt e y) l1) by (apply Forall_forall; intros e He; apply (StronglySorted_app_1_elem_of _ _ _ _ _ Ho); [done|set_solver]).
  assert (H2' : Forall (λ e, entry_lt y e) l2).
  { apply StronglySorted_app_1_r in Ho. by apply StronglySorted_inv in Ho as [_ Ho]. }
  assert (Hlt : ∀ a b, a ∈ l1 ++ y :: l2 → b ∈ l1 ++ y :: l2 → entry_lt a b → entry_less a b = true ∧ entry_less b a = false).
  { intros a b Ha Hb Hab. rewrite Forall_forall in Hreal. assert (entry_less a b = true) by (apply entry_less_spec; auto).
    split; [done|by apply entry_less_asym]. }
  assert (Hyy : entry_less y y = false).
  { destruct (entry_less y y) eqn:E; [|done]. apply entry_less_spec in E; [|done..]. by destruct (entry_lt_irrefl y). }
  rewrite !how_many_app, !how_many_cons, Hyy, len_app, len_cons. cbn [Z.b2z].
  rewrite (how_many_all (λ e, entry_less e y) l1), (how_many_none (λ e, entry_less e y) l2),
    (how_many_none (λ e, entry_less y e) l1), (how_many_all (λ e, entry_less y e) l2); [unfold len; lia|..];
    rewrite Forall_forall in *; intros e He; apply Hlt; first [set_solver|auto].
Qed.

(** ** Positions *)

(** The elements of [l] whose positions lie between two bounds. *)
Definition at_positions {A} (lo hi : Z) (l : list A) : list A :=
  snd <$> filter (λ p, lo <= fst p <= hi) (zip (seqZ 0 (len l)) l).

Lemma at_positions_from {A} lo hi i (l : list A) :
  snd <$> filter (λ p, lo <= fst p <= hi) (zip (seqZ i (len l)) l) =
  take (Z.to_nat (hi - Z.max lo i + 1)) (drop (Z.to_nat (lo - i)) l).
Proof.
  revert i. induction l as [|x l IH]; intros i; [by rewrite drop_nil, take_nil|].
  rewrite len_cons, seqZ_cons by (pose proof (len_nonneg l); lia). cbn [zip zip_with]. rewrite filter_cons. cbn [fst].
  replace (Z.pred (1 + len l)) with (len l) by lia.
  destruct (decide (lo <= i <= hi)) as [Hi|Hi].
  - rewrite fmap_cons, IH. cbn [snd]. replace (Z.to_nat (lo - i)) with 0%nat by lia. rewrite drop_0.
    replace (Z.to_nat (hi - Z.max lo i + 1)) with (S (Z.to_nat (hi - Z.max lo (Z.succ i) + 1))) by lia. cbn [take].
    by replace (Z.to_nat (lo - Z.succ i)) with 0%nat by lia.
  - rewrite IH. destruct (decide (i < lo)) as [Hlo|Hlo].
    + replace (Z.to_nat (lo - i)) with (S (Z.to_nat (lo - Z.succ i))) by lia. cbn [drop]. do 2 f_equal. lia.
    + replace (Z.to_nat (hi - Z.max lo i + 1)) with 0%nat by lia. by replace (Z.to_nat (hi - Z.max lo (Z.succ i) + 1)) with 0%nat by lia.
Qed.

Lemma at_positions_slice {A} lo hi (l : list A) :
  at_positions lo hi l = take (Z.to_nat (hi - Z.max lo 0 + 1)) (drop (Z.to_nat lo) l).
Proof. unfold at_positions. rewrite at_positions_from. by rewrite Z.sub_0_r. Qed.

Lemma len_reverse {A} (l : list A) : len (reverse l) = len l.
Proof. unfold len. by rewrite length_reverse. Qed.

(** A rank counts from the end when it is negative. *)
Definition from_start (n i : Z) : Z := if i <? 0 then n + i else i.

Lemma zsetRangeByIndex_positions l start stop rev :
  zsetRangeByIndex l start stop rev =
  at_positions (from_start (len l) start) (from_start (len l) stop) (if rev then reverse l else l).
Proof.
  rewrite at_positions_slice. unfold zsetRangeByIndex, from_start.
  set (k := if rev then reverse l else l). assert (Hk : len k = len l) by (unfold k; destruct rev; [apply len_reverse|done]).
  clearbody k. pose proof (len_nonneg l). destruct (Z.eqb_spec (len l) 0) as [E|E].
  { destruct k; [by rewrite drop_nil, take_nil|]. rewrite len_cons in Hk. pose proof (len_nonneg k). lia. }
  set (a := if start <? 0 then len l + start else start). set (b := if stop <? 0 then len l + stop else stop).
  replace (if a <? 0 then 0 else a) with (Z.max a 0) by (destruct (Z.ltb_spec a 0); lia).
  replace (if len l <=? b then len l - 1 else b) with (Z.min b (len l - 1)) by (destruct (Z.leb_spec (len l) b); lia).
  replace (Z.to_nat (Z.max a 0)) with (Z.to_nat a) by lia.
  destruct (Z.ltb_spec (Z.min b (len l - 1)) (Z.max a 0)) as [Hlt|Hge]; cbn [orb].
  { destruct (decide (len l <= Z.max a 0)); [rewrite drop_ge, take_nil by (unfold len in *; lia); done|].
    by replace (Z.to_nat (b - Z.max a 0 + 1)) with 0%nat by lia. }
  rewrite (proj2 (Z.leb_gt _ _)) by lia.
  destruct (decide (b <= len l - 1)); [by rewrite Z.min_l by lia|].
  rewrite !take_ge; [done|..]; rewrite length_drop; unfold len in *; lia.
Qed.

(** LIMIT takes [count] elements from position [offset] on, all of them when
    [count] is negative. *)
Definition paged {A} (offset count : Z) (l : list A) : list A :=
  if offset <? 0 then [] else at_positions offset (if count <? 0 then len l else offset + count - 1) l.

Lemma limit_slice_paged {A} offset count (l : list A) : limit_slice offset count l = paged offset count l.
Proof.
  unfold limit_slice, paged. destruct (Z.ltb_spec offset 0) as [Ho|Ho]; [done|]. rewrite at_positions_slice.
  assert (Hd : (if 0 <? offset then if len l <=? offset then [] else drop (Z.to_nat offset) l else l) = drop (Z.to_nat offset) l).
  { destruct (Z.ltb_spec 0 offset); [|by replace (Z.to_nat offset) with 0%nat by lia].
    destruct (Z.leb_spec (len l) offset); [|done]. by rewrite drop_ge by (unfold len in *; lia). }
  rewrite Hd. rewrite Z.max_l by lia. clear Hd. assert (Hl : len (drop (Z.to_nat offset) l) = Z.max 0 (len l - offset)).
  { unfold len. rewrite length_drop. lia. }
  destruct (Z.ltb_spec count 0); [rewrite (proj2 (Z.leb_gt 0 count)) by lia|rewrite (proj2 (Z.leb_le 0 count)) by lia]; cbn [andb].
  - rewrite take_ge; [done|]. rewrite length_drop. unfold len in *. lia.
  - replace (offset + count - 1 - offset + 1) with count by lia. destruct (Z.ltb_spec count (len (drop (Z.to_nat offset) l))); [done|].
    rewrite take_ge; [done|]. unfold len in *. lia.
Qed.

(** ** Ranges *)

(** A score within bounds, each exclusive or not. *)
Definition score_between (x mn mx : spec_float) (mnEx mxEx : bool) : Prop :=
  (if mnEx then key_lt (float_key mn) (float_key x) else ¬ key_lt (float_key x) (float_key mn)) ∧
  (if mxEx then key_lt (float_key x) (float_key mx) else ¬ key_lt (float_key mx) (float_key x)).

Lemma key_not_lt x y : ¬ key_lt x y ↔ key_lt y x ∨ x = y.
Proof.
  split.
  - intros Hn. destruct (key_lt_total x y) as [|[?|?]]; [done|by auto..].
  - intros [Hl| ->] Hl2; [|by apply key_lt_irrefl in Hl2]. by destruct (key_lt_irrefl _ (key_lt_trans _ _ _ Hl Hl2)).
Qed.

Lemma scoreInRange_spec x mn mx mnEx mxEx : IsNaN x = false → IsNaN mn = false → IsNaN mx = false →
  scoreInRange x mn mx mnEx mxEx = true ↔ score_between x mn mx mnEx mxEx.
Proof.
  intros Hx Hn Hm. unfold scoreInRange, score_between.
  pose proof (SFltb_key x mn Hx Hn) as L1. pose proof (SFltb_key mx x Hm Hx) as L2.
  pose proof (SFleb_key x mn Hx Hn) as E1. pose proof (SFleb_key mx x Hm Hx) as E2.
  assert (D : ∀ a b, key_lt a b ∨ ¬ key_lt a b).
  { intros a b. destruct (key_lt_total a b) as [|[->|]]; [by left|right; apply key_lt_irrefl|].
    right. intros Hl. by destruct (key_lt_irrefl b); eapply key_lt_trans. }
  pose proof (D (float_key mn) (float_key x)). pose proof (D (float_key x) (float_key mx)).
  destruct mnEx, mxEx, (SFltb x mn), (SFltb mx x), (SFleb x mn), (SFleb mx x); naive_solver.
Qed.

(** What a selection means: REV turns the order around and gives the bounds
    highest first; LIMIT applies to scores and members. *)
Definition range_spec (sel : Selection) (o : RangeOpts) (l r : list ZSetEntry) : Prop :=
  let l' := if ro_rev o then reverse l else l in
  match sel with
  | SelIndex start stop => r = at_positions (from_start (len l) start) (from_start (len l) stop) l'
  | SelScore a b aEx bEx => ∃ k, sublist k l' ∧ r = paged (ro_offset o) (ro_count o) k ∧
      ∀ e, e ∈ k ↔ e ∈ l ∧ if ro_rev o then score_between (ze_Score e) b a bEx aEx else score_between (ze_Score e) a b aEx bEx
  | SelLex a b => ∃ k, sublist k l' ∧ r = paged (ro_offset o) (ro_count o) k ∧
      ∀ e, e ∈ k ↔ e ∈ l ∧ if ro_rev o then InLexRange (ze_Member e) b a = true else InLexRange (ze_Member e) a b = true
  end.

Definition real_bounds (sel : Selection) : Prop :=
  match sel with SelScore a b _ _ => IsNaN a = false ∧ IsNaN b = false | _ => True end.

Lemma filtered_page (f : ZSetEntry → bool) (P : ZSetEntry → Prop) (rev : bool) (offset count : Z) (l : list ZSetEntry) :
  (∀ e, e ∈ l → f e = true ↔ P e) →
  ∃ k, sublist k (if rev then reverse l else l) ∧
    limit_slice offset count (filter (λ e, f e = true) (if rev then reverse l else l)) = paged offset count k ∧
    ∀ e, e ∈ k ↔ e ∈ l ∧ P e.
Proof.
  intros Hf. exists (filter (λ e, f e = true) (if rev then reverse l else l)).
  split; [apply sublist_filter|]. split; [apply limit_slice_paged|]. intros e. rewrite list_elem_of_filter.
  assert (Hl : e ∈ (if rev then reverse l else l) ↔ e ∈ l) by (destruct rev; [apply elem_of_reverse|done]).
  rewrite Hl. specialize (Hf e). tauto.
Qed.

Lemma select_entries_spec sel o l : Forall real_score l → real_bounds sel → range_spec sel o l (select_entries sel o l).
Proof.
  intros Hr Hb. rewrite Forall_forall in Hr. unfold range_spec, select_entries, zsetFilterByScore, filter_by_lex.
  destruct sel as [a b aEx bEx|a b|start stop]; [destruct Hb as [Ha Hb]; destruct (ro_rev o)|destruct (ro_rev o)|apply zsetRangeByIndex_positions].
  - apply (filtered_page _ _ true). intros e He. apply scoreInRange_spec; [by apply Hr|done..].
  - apply (filtered_page _ _ false). intros e He. apply scoreInRange_spec; [by apply Hr|done..].
  - by apply (filtered_page (λ e, InLexRange (ze_Member e) b a) _ true).
  - by apply (filtered_page (λ e, InLexRange (ze_Member e) a b) _ false).
Qed.

Lemma ParseScore_real `{ParseFloat} s f ex : ParseScore s = Some (f, ex) → IsNaN f = false.
Proof.
  unfold ParseScore. destruct s as [|c s]; [done|]. destruct (beq _ (str "-inf")); [by intros [= <- _]|].
  destruct (_ || _); [by intros [= <- _]|]. destruct (parse_float _) as [g|]; [|done].
  destruct (IsNaN g) eqn:En; [done|]. by intros [= <- _].
Qed.

Lemma parse_selection_real `{ParseFloat} o a b sel : parse_selection o a b = Ok sel → real_bounds sel.
Proof.
  unfold parse_selection. repeat (case_match; try done); intros [= <-]; try done; cbn; by eauto using ParseScore_real.
Qed.

Section ZsetLaws.
Context `{EngineLaws} `{ParseFloat} `{FormatG} `{RangeOrderLaws} `{Rand}.

Lemma entries_real m : no_nan (scores_of m) → Forall real_score (entries_of m).
Proof.
  intros Hn. apply Forall_forall. intros [k x] Hin. apply (sorted_in _ _ (entries_sorted m Hn)) in Hin. by apply (Hn k).
Qed.

Lemma entries_empty : entries_of ∅ = [].
Proof. apply (fmap_nil_inv ze_Member), Permutation_nil. by rewrite entries_members, dom_empty_L, elements_empty. Qed.

(** ** ZINCRBY *)

(** ZINCRBY adds to the score of a member, or makes the member with the
    increment as its score; the reply is the new score.  A sum that is not a
    number is refused and changes nothing. *)
Theorem zincrby_correct (key n k : bytes) (d : spec_float) (st : St) (m : gmap bytes Value) (e : gmap bytes Timestamp) :
  healthy (st_ctx st) → is_hash (view (st_ctx st) key) m e → parse_float n = Some d → IsNaN d = false → is_double d →
  (∀ v, m !! k = Some v → ∃ b, v = FloatVal b) →
  ∃ run, handleZIncrBy [key; n; k] = Accept [key] run ∧
    let sum := match scores_of m !! k with Some x => float_add x d | None => d end in
    if IsNaN sum then finishes run st (WriteError nan_score (st_w st)) (same (st_ctx st))
    else finishes run st (WriteScore sum (st_w st)) (λ c', ∃ e',
           grown (st_ctx st) key (<[k := float_value sum]> m) [k] e e' (λ t, t = TYPE_ZSET) c').
Proof.
  intros Hh Hx Hp Hd Hdd Hv. exists (zincrby_runner key k d). split; [unfold handleZIncrBy; by rewrite Hp, Hd|]. cbv zeta.
  assert (Hend : ∀ s c2 w e' sum, healthy c2 → sees s (view (st_ctx st) key) m e →
    grown (st_ctx st) key (<[k := float_value sum]> m) [k] e e' any_tag c2 → w = WriteScore sum (st_w st) →
    finishes (_ ← tag_new_zset key s; write (WriteScore sum)) (mkSt c2 (st_w st) (st_held st)) w (λ c', ∃ e',
      grown (st_ctx st) key (<[k := float_value sum]> m) [k] e e' (λ t, t = TYPE_ZSET) c')).
  { intros s c2 w e' sum Hh2 Hs Hg ->. eapply finishes_bind; [apply (steps_tag_zset key s (mkSt c2 _ _) (st_ctx st)); [done|apply (sees_exists _ _ _ _ Hs)|exact Hg]|].
    cbv beta. intros c3 Hh3 Hg3. apply finishes_write; [done|done|by exists e']. }
  destruct (scores_of m !! k) as [x|] eqn:Ex.
  - unfold scores_of in Ex. rewrite lookup_fmap_Some in Ex. destruct Ex as (v & <- & Em). destruct (Hv v Em) as [b ->]. cbn [GetFloatVal].
    destruct (IsNaN (float_add (Float64frombits b) d)) eqn:En; (apply (finishes_zset_get _ _ _ m e); [done|done|]); intros s c' Hs Hh' Hsame;
      rewrite (sees_type _ _ _ _ Hs), (sees_score _ _ _ _ _ Hs); unfold scores_of; rewrite lookup_fmap, Em; cbn [fmap option_fmap option_map GetFloatVal]; cbv zeta; rewrite En.
    + by apply finishes_reply.
    + eapply finishes_bind; [apply (steps_zset_incr key k b d (mkSt c' _ _) m e); [done|by rewrite Hsame|done|done]|].
      cbv beta. cbn [st_ctx st_w st_held]. intros c2 Hh2 [e' Hg]. eapply Hend; [done|exact Hs|by eapply same_grown|done].
  - rewrite Hd. apply (finishes_zset_get _ _ _ m e); [done|done|]. intros s c' Hs Hh' Hsame.
    rewrite (sees_type _ _ _ _ Hs), (sees_score _ _ _ _ _ Hs), Ex.
    eapply finishes_bind; [apply (steps_zset_insert key k d (mkSt c' _ _) m e); [done|by rewrite Hsame]|].
    cbv beta. cbn [st_ctx st_w st_held]. intros c2 Hh2 [e' Hg]. eapply Hend; [done|exact Hs|by eapply same_grown|done].
Qed.

(** ** Reading *)

(** ZRANK answers how many members come before the one asked for in the order
    of scores and names, ZREVRANK how many come after; null for a member that
    is not there. *)
Theorem zrank_correct (key k : bytes) (st : St) (m : gmap bytes Value) (e : gmap bytes Timestamp) :
  healthy (st_ctx st) → is_hash (view (st_ctx st) key) m e → no_nan (scores_of m) →
  ∃ zrank zrevrank, handleZRank [key; k] = Accept [key] zrank ∧ handleZRevRank [key; k] = Accept [key] zrevrank ∧
    let answers r w := finishes r st w (same (st_ctx st)) in
    match scores_of m !! k with
    | Some x => answers zrank (WriteInteger (count_before (scores_of m) (mkEntry k x)) (st_w st)) ∧
                answers zrevrank (WriteInteger (count_after (scores_of m) (mkEntry k x)) (st_w st))
    | None => answers zrank (WriteNullBulkString (st_w st)) ∧ answers zrevrank (WriteNullBulkString (st_w st))
    end.
Proof.
  intros Hh Hx Hn. exists (zrank_runner false key k false), (zrank_runner true key k false). do 2 (split; [done|]). cbv zeta.
  pose proof (entries_sorted m Hn) as Hs. destruct (scores_of m !! k) as [x|] eqn:Ek.
  - destruct (rank_counts _ _ _ _ Hn Hs Ek) as (i & Hr & Hl & Hb & Ha).
    split; (eapply reads_zset; [done|exact Hx|intros ->; unfold scores_of in Ek; by rewrite fmap_empty, lookup_empty in Ek|]);
      intros s c' Hse Hh' Hsame; cbv zeta; rewrite (sees_sorted _ _ _ _ Hse), Hr; cbv zeta; cbn [write_rank]; rewrite ?Ha, ?Hb; by apply finishes_write.
  - pose proof (rank_of_None _ _ _ Hs Ek) as Hr.
    split; (eapply reads_zset; [done|exact Hx|done|]); intros s c' Hse Hh' Hsame; cbv zeta; rewrite (sees_sorted _ _ _ _ Hse), Hr; by apply finishes_reply.
Qed.

(** ZRANGE with any options answers exactly the entries its selection means, of
    the entries in order of score and name: by rank, from the end for negative
    ranks; by score or by name between two bounds, paged by LIMIT; all of it
    turned around by REV. *)
Theorem zrange_correct (key startArg stopArg : bytes) (opts : list bytes) (o : RangeOpts) (sel : Selection) (st : St)
    (m : gmap bytes Value) (e : gmap bytes Timestamp) :
  healthy (st_ctx st) → is_hash (view (st_ctx st) key) m e → no_nan (scores_of m) →
  range_opts zrange_options opts no_range_opts = Ok o → parse_selection o startArg stopArg = Ok sel →
  ∃ run l r, handleZRange (key :: startArg :: stopArg :: opts) = Accept [key] run ∧
    sorted_of (scores_of m) l ∧ range_spec sel o l r ∧
    finishes run st (writeZSetEntries r (ro_withScores o) (st_w st)) (same (st_ctx st)).
Proof.
  intros Hh Hx Hn Ho Hsel. exists (zrange_runner key sel o), (entries_of m), (select_entries sel o (entries_of m)).
  split; [unfold handleZRange; by rewrite Ho, Hsel|]. split; [by apply entries_sorted|].
  split; [apply select_entries_spec; [by apply entries_real|by eapply parse_selection_real]|].
  eapply reads_zset; [done|exact Hx| |].
  - intros ->. rewrite entries_empty. assert (select_entries sel o [] = []) as ->.
    { unfold select_entries, zsetFilterByScore, filter_by_lex, limit_slice, zsetRangeByIndex.
      destruct sel; destruct (ro_rev o); cbn; repeat case_match; rewrite ?drop_nil, ?take_nil; done. }
    unfold writeZSetEntries, write_pairs. destruct (ro_withScores o); repeat case_bool_decide; done.
  - intros s c' Hs Hh' Hsame. rewrite (sees_sorted _ _ _ _ Hs). by apply finishes_write.
Qed.
End ZsetLaws.

(** * What the removals and pops of sorted sets do

    ZREM, the ZREMRANGE commands, ZPOPMIN, ZPOPMAX and ZMPOP. *)


(** [popped] are the first entries, or the last ones from the end, at most
    [count] of them and fewer only when there are no more. *)
Definition end_of (popMin : bool) (count : Z) (m : gmap bytes spec_float) (popped : list ZSetEntry) : Prop :=
  ∃ l rest, sorted_of m l ∧ (if popMin then l else reverse l) = popped ++ rest ∧
    len popped = Z.min count (Z.of_nat (size m)).

Section ZsetPops.
Context `{EngineLaws} `{ParseFloat} `{FormatG} `{RangeOrderLaws}.

Lemma members_present (m : gmap bytes Value) (l : list ZSetEntry) : l ⊆ entries_of m → no_nan (scores_of m) →
  Forall (λ k, is_Some (m !! k)) (ze_Member <$> l).
Proof.
  intros Hl Hn. apply Forall_forall. intros k ([k' x] & -> & Hin)%list_elem_of_fmap.
  apply Hl, (sorted_in _ _ (entries_sorted m Hn)) in Hin. unfold scores_of in Hin. cbn.
  rewrite lookup_fmap in Hin. by destruct (m !! k').
Qed.

Lemma shrunk_same c key m e c' : is_hash (view c key) m e → same c c' → shrunk c key m e c'.
Proof. intros Hx Hs. split; [|by apply others_same]. exists e. by rewrite Hs. Qed.

(** ** Removals *)

Lemma zrem_loop_eq key snap d ms st :
  zrem_loop key snap d ms st =
  (remove_all key (filter (λ k, has_member snap k = true) ms) ≫= λ _, mret (d + len (filter (λ k, has_member snap k = true) ms))) st.
Proof. apply delete_fields_eq. Qed.

(** ZREM removes its members and answers how many were there. *)
Theorem zrem_correct (key k : bytes) (ks : list bytes) (st : St) (m : gmap bytes Value) (e : gmap bytes Timestamp) :
  healthy (st_ctx st) → is_hash (view (st_ctx st) key) m e → NoDup (k :: ks) →
  ∃ run, handleZRem (key :: k :: ks) = Accept [key] run ∧
    finishes run st (WriteInteger (len (present m (k :: ks))) (st_w st))
      (shrunk (st_ctx st) key (drop_fields (k :: ks) m) e).
Proof.
  intros Hh Hx Hnd. eexists. split; [reflexivity|]. generalize dependent (k :: ks). clear k ks. intros ks Hnd.
  eapply finishes_read_zset; [done|exact Hx| |].
  - intros El. destruct (is_hash_dead _ _ _ El Hx) as [-> ->]. rewrite present_empty, drop_empty. split; [done|].
    intros c' Hs. by apply shrunk_same.
  - intros s c' Hs Hh' Hsame El. eapply finishes_bind.
    + unfold steps. rewrite zrem_loop_eq, (sees_present _ _ _ _ ks Hs).
      eapply steps_bind; [apply (steps_removes_present key (mkSt c' _ _) m e ks); [done|by rewrite Hsame|done]|].
      cbv beta. intros c2 Hh2 Hg. apply (steps_ret _ (mkSt c2 _ _) (shrunk c' key (drop_fields ks m) e)); done.
    + cbv beta. intros c2 Hh2 Hg. apply finishes_write; [done|done|]. by eapply same_shrunk.
Qed.

(** Removing the members of a sublist of the set. *)
Lemma finishes_remove_runner key members st m e ks : healthy (st_ctx st) → is_hash (view (st_ctx st) key) m e →
  (∀ s, sees s (view (st_ctx st) key) m e → members (ks_snap s) = ks) → (m = ∅ → ks = []) →
  NoDup ks → Forall (λ k, is_Some (m !! k)) ks →
  finishes (remove_runner key members) st (WriteInteger (len ks) (st_w st)) (shrunk (st_ctx st) key (drop_fields ks m) e).
Proof.
  intros Hh Hx Hks Hem Hnd Hall. eapply finishes_read_zset; [done|exact Hx| |].
  - intros El. destruct (is_hash_dead _ _ _ El Hx) as [-> ->]. rewrite (Hem eq_refl). split; [done|].
    intros c' Hs. by apply shrunk_same.
  - intros s c' Hs Hh' Hsame El. rewrite (Hks s Hs).
    eapply finishes_bind; [apply (steps_zset_removes key ks (mkSt c' _ _) m e); [done|by rewrite Hsame|done|done]|].
    cbv beta. intros c2 Hh2 Hg. apply finishes_write; [done|done|]. by eapply same_shrunk.
Qed.

Lemma range_entries_score m : range_entries (scores_of m) ≡ₚ entries_of m.
Proof. unfold entries_of, sort_entries. by rewrite merge_sort_Permutation. Qed.

Lemma entries_NoDup m : NoDup (ze_Member <$> entries_of m).
Proof. rewrite entries_members. apply NoDup_elements. Qed.

(** The members whose score lies between two bounds. *)
Definition members_between (m : gmap bytes Value) (a b : spec_float) (aEx bEx : bool) (ks : list bytes) : Prop :=
  NoDup ks ∧ ∀ k, k ∈ ks ↔ ∃ x, scores_of m !! k = Some x ∧ score_between x a b aEx bEx.

(** ZREMRANGEBYSCORE removes exactly the members whose score is between the
    bounds and answers their number; the others keep their scores. *)
Theorem zremrangebyscore_correct (key lo hi : bytes) (a b : spec_float) (aEx bEx : bool) (st : St)
    (m : gmap bytes Value) (e : gmap bytes Timestamp) :
  healthy (st_ctx st) → is_hash (view (st_ctx st) key) m e → no_nan (scores_of m) →
  ParseScore lo = Some (a, aEx) → ParseScore hi = Some (b, bEx) →
  ∃ run ks, handleZRemRangeByScore [key; lo; hi] = Accept [key] run ∧ members_between m a b aEx bEx ks ∧
    finishes run st (WriteInteger (len ks) (st_w st)) (shrunk (st_ctx st) key (drop_fields ks m) e).
Proof.
  intros Hh Hx Hn Ha Hb.
  set (keep := filter (λ x, scoreInRange (ze_Score x) a b aEx bEx = true) (range_entries (scores_of m))).
  assert (Hin : ∀ k, k ∈ ze_Member <$> keep ↔ ∃ x, scores_of m !! k = Some x ∧ scoreInRange x a b aEx bEx = true).
  { intros k. unfold keep. rewrite list_elem_of_fmap. split.
    - intros ([k' x] & -> & Hk). apply list_elem_of_filter in Hk as [Hs Hk]. exists x. by apply range_entries_in in Hk.
    - intros (x & Hk & Hs). exists (mkEntry k x). split; [done|]. apply list_elem_of_filter. by rewrite range_entries_in. }
  assert (Hnd : NoDup (ze_Member <$> keep)).
  { unfold keep. eapply sublist_NoDup; [|apply fmap_sublist, sublist_filter]. rewrite range_entries_score. apply entries_NoDup. }
  eexists _, (ze_Member <$> keep). split; [unfold handleZRemRangeByScore; by rewrite Ha, Hb|]. split.
  { split; [done|]. intros k. rewrite Hin. split; intros (x & Hk & Hs); exists x; (split; [done|]);
      (apply scoreInRange_spec in Hs || apply scoreInRange_spec); first [done|by apply (Hn k)|by eapply ParseScore_real]. }
  apply finishes_remove_runner; [done|done| | |done|].
  - intros s Hs. by rewrite (sees_scores _ _ _ _ Hs).
  - intros ->. apply elem_of_nil_inv. intros k. rewrite Hin. unfold scores_of. setoid_rewrite fmap_empty. setoid_rewrite lookup_empty.
    by intros (x & [=] & _).
  - apply Forall_forall. intros k. rewrite Hin. intros (x & Hk & _). unfold scores_of in Hk. rewrite lookup_fmap in Hk.
    by destruct (m !! k).
Qed.

(** ZREMRANGEBYRANK removes exactly the members at the ranks asked for, counted
    from the end when negative. *)
Theorem zremrangebyrank_correct (key a b : bytes) (start stop : Z) (st : St) (m : gmap bytes Value) (e : gmap bytes Timestamp) :
  healthy (st_ctx st) → is_hash (view (st_ctx st) key) m e → no_nan (scores_of m) → Atoi a = Some start → Atoi b = Some stop →
  ∃ run l, handleZRemRangeByRank [key; a; b] = Accept [key] run ∧ sorted_of (scores_of m) l ∧
    let gone := ze_Member <$> at_positions (from_start (len l) start) (from_start (len l) stop) l in
    finishes run st (WriteInteger (len gone) (st_w st)) (shrunk (st_ctx st) key (drop_fields gone m) e).
Proof.
  intros Hh Hx Hn Ha Hb. eexists _, (entries_of m). split; [unfold handleZRemRangeByRank; by rewrite Ha, Hb|].
  split; [by apply entries_sorted|]. cbv zeta.
  assert (Hsub : sublist (at_positions (from_start (len (entries_of m)) start) (from_start (len (entries_of m)) stop) (entries_of m)) (entries_of m)).
  { rewrite at_positions_slice. etrans; [apply sublist_take|apply sublist_drop]. }
  apply finishes_remove_runner; [done|done| | | |].
  - intros s Hs. by rewrite (sees_sorted _ _ _ _ Hs), zsetRangeByIndex_positions.
  - intros ->. rewrite entries_empty in *. by apply sublist_nil_r in Hsub as ->.
  - eapply sublist_NoDup; [apply entries_NoDup|by apply fmap_sublist].
  - apply members_present; [|done]. intros x Hx'. by eapply elem_of_submseteq, sublist_submseteq.
Qed.

(** ** Pops *)

Lemma popped_end popMin count m : no_nan (scores_of m) → 0 <= count →
  end_of popMin count (scores_of m) (popped_entries popMin count (entries_of m)).
Proof.
  intros Hn Hc. exists (entries_of m), (drop (Z.to_nat (Z.min count (len (entries_of m)))) (if popMin then entries_of m else reverse (entries_of m))).
  split; [by apply entries_sorted|]. unfold popped_entries. split; [by rewrite take_drop|].
  unfold scores_of at 1. rewrite map_size_fmap, <- entries_length. unfold len. rewrite length_take.
  destruct popMin; rewrite ?length_reverse; lia.
Qed.

Lemma popped_sub popMin count m : popped_entries popMin count (entries_of m) ⊆ entries_of m.
Proof.
  unfold popped_entries. intros x Hx. assert (Hx' : x ∈ if popMin then entries_of m else reverse (entries_of m)).
  { eapply elem_of_submseteq; [exact Hx|]. apply sublist_submseteq, sublist_take. }
  destruct popMin; [done|]. by rewrite elem_of_reverse in Hx'.
Qed.

Lemma popped_NoDup popMin count m : NoDup (ze_Member <$> popped_entries popMin count (entries_of m)).
Proof.
  unfold popped_entries. eapply sublist_NoDup; [|apply fmap_sublist, sublist_take].
  destruct popMin; [apply entries_NoDup|]. rewrite fmap_reverse, reverse_Permutation. apply entries_NoDup.
Qed.

(** The removal of the entries popped, inside a transaction. *)
Lemma steps_pop key tips popMin count st m e : healthy (st_ctx st) → is_hash (view (st_ctx st) key) m e → no_nan (scores_of m) →
  let popped := popped_entries popMin count (entries_of m) in
  steps (pop_entries key tips popped) st tt (shrunk (st_ctx st) key (drop_fields (ze_Member <$> popped) m) e).
Proof.
  intros Hh Hx Hn popped. unfold pop_entries.
  eapply steps_bind; [by apply steps_begin|]. cbv beta. cbn [st_ctx st_w st_held]. intros c2 Hh2 Hs2.
  eapply steps_bind; [by apply (steps_noop key tips (mkSt c2 _ _))|]. cbv beta. cbn [st_ctx st_w st_held]. intros c3 Hh3 Hs3.
  pose proof (same_trans _ _ _ Hs2 Hs3) as Hs.
  eapply steps_weaken; [apply (steps_zset_removes key (ze_Member <$> popped) (mkSt c3 _ _) m e); [done|by rewrite Hs|apply popped_NoDup|]|].
  - apply members_present; [apply popped_sub|done].
  - cbn [st_ctx]. intros c'. by apply same_shrunk.
Qed.

Lemma end_of_empty popMin count popped : 0 <= count → end_of popMin count ∅ popped → popped = [].
Proof.
  intros Hc (l & rest & _ & _ & Hl). rewrite map_size_empty in Hl. unfold len in Hl. destruct popped; [done|]. cbn [length] in Hl. lia.
Qed.

(** ZPOPMIN and ZPOPMAX take the [count] entries at their end of the order (all
    of them when there are fewer), in order from that end, remove exactly these
    and reply them with their scores. *)
Theorem zpop_correct (popMin : bool) (cmd key n : bytes) (count : Z) (st : St) (m : gmap bytes Value) (e : gmap bytes Timestamp) :
  healthy (st_ctx st) → is_hash (view (st_ctx st) key) m e → no_nan (scores_of m) → Atoi n = Some count → 0 <= count →
  ∃ run popped, handle_zpop popMin cmd [key; n] = Accept [key] run ∧ end_of popMin count (scores_of m) popped ∧
    finishes run st (write_pairs (bool_decide (w_protocol (st_w st) = RESP3)) popped (st_w st))
      (shrunk (st_ctx st) key (drop_fields (ze_Member <$> popped) m) e).
Proof.
  intros Hh Hx Hn Hc Hp. exists (zpop_runner popMin key count true), (popped_entries popMin count (entries_of m)).
  split; [unfold handle_zpop; rewrite Hc; by destruct (Z.ltb_spec count 0); [lia|]|]. pose proof (popped_end popMin count m Hn Hp) as He.
  split; [done|]. apply (finishes_zset_get _ _ _ m e); [done|done|]. intros s c' Hs Hh' Hsame.
  rewrite (sees_exists _ _ _ _ Hs), (sees_type _ _ _ _ Hs). cbv zeta. rewrite (sees_sorted _ _ _ _ Hs).
  assert (Hnone : m = ∅ → finishes (reply (WriteArray 0)) (mkSt c' (st_w st) (st_held st))
    (write_pairs (bool_decide (w_protocol (st_w st) = RESP3)) (popped_entries popMin count (entries_of m)) (st_w st))
    (shrunk (st_ctx st) key (drop_fields (ze_Member <$> popped_entries popMin count (entries_of m)) m) e)).
  { intros ->. unfold scores_of in He. rewrite fmap_empty in He. rewrite (end_of_empty _ _ _ Hp He).
    apply finishes_reply; [done| |by apply shrunk_same]. unfold write_pairs. by case_bool_decide. }
  destruct (is_live (view (st_ctx st) key)) eqn:El; cbn [negb].
  2: { apply Hnone. by eapply is_hash_dead. }
  destruct (Z.eqb_spec (len (entries_of m)) 0) as [Hz|Hz].
  { apply Hnone. rewrite entries_length in Hz. apply map_size_empty_inv. lia. }
  eapply finishes_bind; [apply (steps_pop key (ks_tips s) popMin count (mkSt c' _ _) m e); [done|by rewrite Hsame|done]|].
  cbv beta. intros c2 Hh2 Hg. apply finishes_write; [done|cbn [st_w]; by rewrite andb_true_r|by eapply same_shrunk].
Qed.

(** ZMPOP passes over the keys that hold nothing and pops from the first that
    does, with the reply naming it; no key with anything gives a null array and
    no change. *)
Theorem zmpop_correct (popMin : bool) (count : Z) (empty : list bytes) (rest : list bytes) (st : St) :
  healthy (st_ctx st) → 0 < count → Forall (λ k, ∃ e, is_hash (view (st_ctx st) k) ∅ e) empty →
  match rest with
  | [] => finishes (zmpop_first popMin count (empty ++ rest)) st (WriteNullArray (st_w st)) (same (st_ctx st))
  | key :: _ => ∀ m e, is_hash (view (st_ctx st) key) m e → no_nan (scores_of m) → m ≠ ∅ →
    ∃ popped, end_of popMin count (scores_of m) popped ∧
      finishes (zmpop_first popMin count (empty ++ rest)) st (mpop_reply key popped (st_w st))
        (shrunk (st_ctx st) key (drop_fields (ze_Member <$> popped) m) e)
  end.
Proof.
  intros Hh Hc Hem.
  assert (Hskip : ∀ w Q, (∀ c', healthy c' → same (st_ctx st) c' → finishes (zmpop_first popMin count rest) (mkSt c' (st_w st) (st_held st)) w Q) →
    ∀ c', healthy c' → same (st_ctx st) c' → finishes (zmpop_first popMin count (empty ++ rest)) (mkSt c' (st_w st) (st_held st)) w Q).
  { intros w Q Hend. induction Hem as [|k empty [e Hk] Hem IH]; intros c' Hh' Hs; [by apply Hend|]. cbn [app zmpop_first].
    apply (finishes_zset_get _ _ (mkSt c' _ _) ∅ e); [done|by rewrite Hs|]. cbn [st_ctx st_w st_held]. intros s c2 Hse Hh2 Hs2.
    rewrite (sees_type _ _ _ _ Hse). cbv zeta. rewrite (sees_sorted _ _ _ _ Hse), entries_empty.
    pose proof (IH c2 Hh2 (same_trans _ _ _ Hs Hs2)) as Hgo. by destruct (ks_exists s). }
  assert (Hstart : st = mkSt (st_ctx st) (st_w st) (st_held st)) by (by destruct st).
  destruct rest as [|key rest].
  - rewrite Hstart. apply Hskip; [|done|done]. intros c' Hh' Hs. by apply finishes_write.
  - intros m e Hx Hn Hne. exists (popped_entries popMin count (entries_of m)). split; [apply popped_end; [done|lia]|].
    rewrite Hstart at 1. apply Hskip; [|done|done]. intros c' Hh' Hs. cbn [zmpop_first].
    apply (finishes_zset_get _ _ (mkSt c' _ _) m e); [done|by rewrite Hs|]. cbn [st_ctx st_w st_held]. intros s c2 Hse Hh2 Hs2.
    rewrite (sees_type _ _ _ _ Hse), (sees_exists _ _ _ _ Hse). cbv zeta. rewrite (sees_sorted _ _ _ _ Hse).
    assert (El : is_live (view c' key) = true).
    { destruct (is_live (view c' key)) eqn:El; [done|]. rewrite Hs in El. by destruct (is_hash_dead _ _ _ El Hx). }
    rewrite El. cbn [negb]. destruct (Z.eqb_spec (len (entries_of m)) 0) as [Hz|Hz].
    { exfalso. apply Hne. rewrite entries_length in Hz. apply map_size_empty_inv. lia. }
    pose proof (same_trans _ _ _ Hs Hs2) as Hs3.
    eapply finishes_bind; [apply (steps_pop key (ks_tips s) popMin count (mkSt c2 _ _) m e); [done|by rewrite Hs3|done]|].
    cbv beta. intros c3 Hh3 Hg. apply finishes_write; [done|done|by eapply same_shrunk].
Qed.
End ZsetPops.
