(* ===== verification/ListProps.v ===== *)
(** * Lists as sequences

    What list a key stands for, and how the effects the list commands emit act
    on it, against any engine and clock that satisfy [EngineLaws] and
    [ClockLaws]. *)

From S2P Require Import Prelude GoBytes Writer Engine Runs Lists.

Local Open Scope Z_scope.

(** ** Element ids *)

Lemma le_put64_inj a b : is_u64 a → is_u64 b → le_put64 a = le_put64 b → a = b.
Proof.
  intros Ha Hb He. apply (f_equal (@rev Z)) in He. unfold le_put64 in He. rewrite !rev_involutive in He.
  apply (f_equal be_get) in He.
  rewrite !be_get_put in He by (change (256 ^ Z.of_nat 8) with 18446744073709551616; zlia). done.
Qed.

Lemma length_le_put64 a : length (le_put64 a) = 8%nat.
Proof. unfold le_put64. by rewrite length_rev, length_be_put. Qed.

(** Ids of one node taken at different times differ. *)
Lemma EncodeElementID_inj t t' node :
  0 <= t < 2 ^ 63 → 0 <= t' < 2 ^ 63 → EncodeElementID t node = EncodeElementID t' node → t = t'.
Proof.
  intros Ht Ht' He. unfold EncodeElementID in He. apply app_inv_tail in He.
  apply le_put64_inj in He; [|apply u64_range..]. rewrite !u64_id in He by zlia. done.
Qed.

Lemma EncodeElementID_ne t node : EncodeElementID t node ≠ [].
Proof.
  intros He. apply (f_equal (@length Z)) in He. unfold EncodeElementID in He.
  by rewrite length_app, !length_le_put64 in He.
Qed.

(** ** Element lists *)

Lemma find_id_None id es : id ∉ el_Id <$> es → find_id id es = None.
Proof.
  intros Hn. unfold find_id. replace (list_find _ es) with (@None (nat * Element)); [done|].
  symmetry. apply list_find_None, Forall_forall. intros x Hx Hid. apply Hn.
  rewrite <- Hid. by apply list_elem_of_fmap_2.
Qed.

Lemma find_id_Some es i e : NoDup (el_Id <$> es) → es !! i = Some e → find_id (el_Id e) es = Some i.
Proof.
  intros Hnd Hi. unfold find_id.
  replace (list_find (λ x, el_Id x = el_Id e) es) with (Some (i, e)); [done|].
  symmetry. apply list_find_Some. split_and!; [done|done|].
  intros j y Hj Hlt Hid.
  enough (j = i) by lia. eapply (NoDup_lookup _ j i (el_Id e) Hnd); rewrite list_lookup_fmap.
  - by rewrite Hj, <- Hid.
  - by rewrite Hi.
Qed.

(** Removing an element by its id. *)
Definition without (id : bytes) (es : list Element) : list Element := filter (λ e, el_Id e ≠ id) es.

Lemma without_sublist id es : without id es `sublist_of` es.
Proof. apply sublist_filter. Qed.

Lemma without_NoDup id es : NoDup (el_Id <$> es) → NoDup (el_Id <$> without id es).
Proof. intros Hnd. eapply sublist_NoDup; [done|]. apply fmap_sublist, without_sublist. Qed.

Lemma without_notin id es : id ∉ el_Id <$> es → without id es = es.
Proof.
  induction es as [|e es IH]; [done|]. rewrite fmap_cons, not_elem_of_cons. intros [Hne Hn].
  unfold without. rewrite filter_cons_True by congruence. f_equal. by apply IH.
Qed.

Lemma without_middle es1 e es2 : NoDup (el_Id <$> (es1 ++ e :: es2)) →
  without (el_Id e) (es1 ++ e :: es2) = es1 ++ es2.
Proof.
  rewrite fmap_app, fmap_cons. intros (H1 & H12 & [H2 _]%NoDup_cons)%NoDup_app.
  unfold without. rewrite filter_app, filter_cons_False by naive_solver.
  f_equal; apply without_notin; [|done]. intros Hin. by eapply H12; [|left].
Qed.

(** ** The list a key stands for *)

Definition list_tag (t : ValueType) : Prop := t = TYPE_LIST ∨ t = TYPE_UNSPECIFIED.

(** A key never written, or a live one whose tag the list commands take for a
    list's; a deleted key, which they take for a missing one, has any tag. *)
Definition list_typed (v : option ReducedEffect) : Prop :=
  match v with
  | None => True
  | Some r => re_Op r = INSERT_OP ∧ list_tag (re_TypeTag r)
  end.

(** An ordered collection of the elements [es], whatever its tag; none when
    the key is dead. *)
Definition holds (v : option ReducedEffect) (es : list Element) : Prop :=
  if is_live v then
    match v with
    | Some r => re_Collection r = ORDERED ∧ re_OrderedElements r = es ∧ NoDup (el_Id <$> es)
    | None => False
    end
  else es = [].

(** A live key of another kind. *)
Definition not_list (v : option ReducedEffect) : Prop :=
  match v with
  | Some r => re_Op r = INSERT_OP ∧
      (re_Collection r = ORDERED → ¬ list_tag (re_TypeTag r)) ∧
      ¬ (re_Collection r = SCALAR ∧ re_TypeTag r = TYPE_LIST)
  | None => False
  end.

Section ListRuns.
Context `{ClockLaws}.

(** No element bears an id the clock of this node has still to give. *)
Definition fresh (c : Ctx) (es : list Element) : Prop :=
  ∀ e, e ∈ es → el_Id e ≠ [] ∧
    ∀ t, clock c < t → 0 <= t < 2 ^ 63 → el_Id e ≠ EncodeElementID t EffectsNodeID.

(** The key holds the values [l], in this order. *)
Definition raw_list (c : Ctx) (key : bytes) (l : list bytes) : Prop :=
  ∃ es, holds (view c key) es ∧ fresh c es ∧ el_bytes <$> es = l.

Definition is_list (c : Ctx) (key : bytes) (l : list bytes) : Prop :=
  raw_list c key l ∧ (is_live (view c key) = true → list_typed (view c key)).

Lemma fresh_later c c' es : clock c <= clock c' → fresh c es → fresh c' es.
Proof.
  intros Hc Hf e He. destruct (Hf e He) as [? Ht]. split; [done|]. intros t ? ?. apply Ht; [lia|done].
Qed.

Lemma fresh_sub c es es' : (∀ e, e ∈ es' → e ∈ es) → fresh c es → fresh c es'.
Proof. intros Hs Hf e He. apply Hf. auto. Qed.

(** Other keys untouched, the clock not set back. *)
Definition frame (c : Ctx) (key : bytes) (c' : Ctx) : Prop :=
  (∀ k, k ≠ key → view c' k = view c k) ∧ clock c <= clock c'.

(** Nothing changed, no reading of the clock taken. *)
Definition later (c c' : Ctx) : Prop :=
  same c c' ∧ clock c <= clock c' ∧ (room c <= room c')%nat.

(** After a command that wrote [key]: the list [l], other keys as before. *)
Definition only_list (c : Ctx) (key : bytes) (l : list bytes) (c' : Ctx) : Prop :=
  is_list c' key l ∧ frame c key c'.

Lemma frame_trans c key c' c'' : frame c key c' → frame c' key c'' → frame c key c''.
Proof. intros [Hf ?] [Hf' ?]. split; [|lia]. intros k Hk. rewrite Hf' by done. by apply Hf. Qed.

Lemma later_frame c key c' : later c c' → frame c key c'.
Proof. intros (Hs & ? & _). split; [|done]. intros k _. apply Hs. Qed.

Lemma later_refl c : later c c.
Proof. by split_and!. Qed.

Lemma later_trans c c' c'' : later c c' → later c' c'' → later c c''.
Proof. intros (? & ? & ?) (? & ? & ?). split_and!; [by eapply same_trans|lia..]. Qed.

Lemma later_raw_list c c' key l : later c c' → raw_list c key l → raw_list c' key l.
Proof.
  intros (Hs & Hc & _) (es & Hh & Hf & Hl). exists es. rewrite Hs. split_and!; [done| |done].
  by eapply fresh_later.
Qed.

Lemma later_is_list c c' key l : later c c' → is_list c key l → is_list c' key l.
Proof. intros Hl [Hr Ht]. split; [by eapply later_raw_list|]. destruct Hl as [Hs _]. by rewrite Hs. Qed.

Lemma only_list_later c c' c'' key l : later c c' → only_list c' key l c'' → only_list c key l c''.
Proof. intros Hl [Hx Hf]. split; [done|]. eapply frame_trans; [by apply later_frame|done]. Qed.

Lemma only_list_same c c' key l : later c c' → is_list c key l → only_list c key l c'.
Proof. intros Hl Hx. split; [by eapply later_is_list|by apply later_frame]. Qed.

(** ** Reading *)

Lemma classify_list_other v tips : not_list v →
  ks_exists (classify_list v tips) = true ∧ ks_wrongType (classify_list v tips) = true.
Proof.
  unfold classify_list. destruct v as [r|]; [|done]. simpl. intros (Hop & Ho & Hs).
  rewrite bool_decide_eq_false_2 by (rewrite Hop; done). unfold list_tag in Ho.
  destruct (bool_decide_reflect (re_Collection r = ORDERED)) as [E|E].
  - rewrite !bool_decide_eq_false_2 by naive_solver. done.
  - destruct (bool_decide_reflect (re_Collection r = SCALAR)), (bool_decide_reflect (re_TypeTag r = TYPE_LIST));
      naive_solver.
Qed.

Lemma classify_list_is c key es tips : holds (view c key) es →
  (is_live (view c key) = true → list_typed (view c key)) →
  let s := classify_list (view c key) tips in
  ks_wrongType s = false ∧ ks_exists s = is_live (view c key) ∧ ordered_elements s = es.
Proof.
  unfold holds, classify_list, ordered_elements. destruct (view c key) as [r|]; [|by intros ->].
  rewrite is_live_remove. case_bool_decide as Hop; simpl; [by intros ->|].
  intros (Hc & He & _) Ht. destruct (Ht eq_refl) as [_ [Htag|Htag]];
    rewrite Hc, Htag; by cbn.
Qed.

Lemma steps_get_later key st : healthy (st_ctx st) →
  ∃ tips, steps (get_snapshot key) st (view (st_ctx st) key, tips) (later (st_ctx st)).
Proof.
  intros Hh. destruct (law_get key _ Hh) as (tips & c' & E & Hh' & Hv).
  pose proof (law_clock_get key (st_ctx st)) as Hc. rewrite E in Hc. cbn [snd] in Hc. destruct Hc.
  exists tips, c'. unfold get_snapshot. rewrite E. split; [done|]. split; [done|]. by split_and!.
Qed.

Lemma finishes_list key (f : KeySnap → M unit) st w l Q :
  healthy (st_ctx st) → is_list (st_ctx st) key l →
  (∀ s es c', healthy c' → later (st_ctx st) c' →
     holds (view c' key) es → fresh c' es → el_bytes <$> es = l →
     ks_wrongType s = false → ks_exists s = is_live (view (st_ctx st) key) → ordered_elements s = es →
     finishes (f s) (mkSt c' (st_w st) (st_held st)) w Q) →
  finishes (getListSnapshot key ≫= f) st w Q.
Proof.
  intros Hh [(es & Hs & Hfr & Hb) Ht] Hf. destruct (steps_get_later key st Hh) as [tips (c' & E & Hh' & Hl)].
  unfold getListSnapshot, finishes, mbind, M_bind. rewrite E. cbn [fst snd].
  destruct (classify_list_is _ key es tips Hs Ht) as (Hw & He & Ho).
  apply (Hf _ es); [done|done| | |done..].
  - destruct Hl as [Hv _]. by rewrite Hv.
  - eapply fresh_later; [|done]. apply Hl.
Qed.

Lemma finishes_not_list key (f : KeySnap → M unit) st (Q : Ctx → Prop) :
  healthy (st_ctx st) → not_list (view (st_ctx st) key) → (∀ c, later (st_ctx st) c → Q c) →
  (∀ s, ks_exists s = true → ks_wrongType s = true → f s = reply WriteWrongType) →
  finishes (getListSnapshot key ≫= f) st (WriteWrongType (st_w st)) Q.
Proof.
  intros Hh Hx HQ Hf. destruct (steps_get_later key st Hh) as [tips (c' & E & Hh' & Hl)].
  unfold getListSnapshot, finishes, mbind, M_bind. rewrite E. cbn [fst snd].
  destruct (classify_list_other _ tips Hx) as [He Hw].
  change (finishes (f (classify_list (view (st_ctx st) key) tips)) (mkSt c' (st_w st) (st_held st)) (WriteWrongType (st_w st)) Q).
  rewrite Hf by done.
  apply finishes_reply; [done|done|]. by apply HQ.
Qed.

(** ** Writing *)

Lemma steps_begin_read key tips st : healthy (st_ctx st) →
  steps (begin_read key tips) st tt (later (st_ctx st)).
Proof.
  intros Hh. unfold begin_read. destruct (law_begin _ Hh) as [Hb Hv].
  pose proof (law_clock_begin (st_ctx st)) as Hc.
  destruct (law_emit (mkEffect key Effect_Noop) tips _ Hb) as (c' & E & Hh' & Hne & Hr).
  pose proof (law_clock_emit (mkEffect key Effect_Noop) tips (BeginTx (st_ctx st))) as Hc'.
  rewrite E in Hc'. cbn [snd] in Hc'. exists c'. unfold mbind, M_bind, begin_tx, emit. cbn [st_ctx].
  rewrite E. split; [done|]. split; [done|]. split; [|lia]. intros k.
  destruct (decide (k = key)) as [->|]; [by rewrite (Hr _ eq_refl : view c' key = _)|by rewrite Hne].
Qed.

(** Emitting an effect whose reduction is known. *)
Lemma steps_effect key kind r tips st : healthy (st_ctx st) →
  reduce (view (st_ctx st) key) kind = Some r →
  steps (emit (mkEffect key kind) tips) st tt
    (λ c', view c' key = r ∧ frame (st_ctx st) key c' ∧ (room (st_ctx st) <= room c')%nat).
Proof.
  intros Hh Hred. unfold emit.
  destruct (law_emit (mkEffect key kind) tips _ Hh) as (c' & E & Hh' & Hne & Hr).
  pose proof (law_clock_emit (mkEffect key kind) tips (st_ctx st)) as Hc. rewrite E in Hc. cbn [snd] in Hc.
  exists c'. rewrite E. split_and!; [done|done|by apply Hr| |lia]. split; [done|lia].
Qed.

Lemma steps_remove_elem key id es st : healthy (st_ctx st) → holds (view (st_ctx st) key) es →
  id ∈ el_Id <$> es → list_typed (view (st_ctx st) key) →
  steps (emitListRemove key id) st tt
    (λ c', holds (view c' key) (without id es) ∧ list_typed (view c' key) ∧ frame (st_ctx st) key c' ∧
           (room (st_ctx st) <= room c')%nat).
Proof.
  intros Hh Hx Hin Ht. unfold emitListRemove.
  assert (∃ r, reduce (view (st_ctx st) key) (ordered_remove id) = Some r ∧
               holds r (without id es) ∧ list_typed r) as (r & Hred & Hr1 & Hr2).
  { unfold holds in Hx. destruct (view (st_ctx st) key) as [r|]; cbn [is_live] in Hx; [|subst; set_solver].
    destruct Ht as [Hop Htag]. rewrite bool_decide_eq_true_2 in Hx by done.
    destruct Hx as (Hc & He & Hnd). unfold ordered_remove, reduce. cbn.
    rewrite Hop, Hc. cbn. rewrite He. fold (without id es).
    pose proof (without_NoDup id es Hnd) as Hnd'.
    destruct (without id es) as [|e es'] eqn:E; eexists; (split; [done|]); [by split|].
    split; [|by split]. unfold holds. cbn. by split_and!. }
  eapply steps_weaken; [by apply steps_effect|]. cbv beta. intros c' (-> & ? & ?). done.
Qed.

(** Removing elements one after another. *)
Lemma steps_remove_elems key rm es st : healthy (st_ctx st) → holds (view (st_ctx st) key) es →
  list_typed (view (st_ctx st) key) → NoDup (el_Id <$> rm) → (∀ e, e ∈ rm → e ∈ es) →
  steps (for_each rm (λ e, emitListRemove key (el_Id e))) st tt
    (λ c', holds (view c' key) (filter (λ e, el_Id e ∉ el_Id <$> rm) es) ∧ list_typed (view c' key) ∧
           frame (st_ctx st) key c' ∧ (room (st_ctx st) <= room c')%nat).
Proof.
  revert es st. induction rm as [|e rm IH]; intros es st Hh Hx Ht Hnd Hin.
  { apply steps_ret; [done|]. rewrite filter_id; [by split_and!|]. intros x _. set_solver. }
  apply NoDup_cons in Hnd as [Hni Hnd]. cbn [for_each].
  eapply steps_bind; [apply steps_remove_elem; [done|done| |done]|].
  { apply list_elem_of_fmap_2, Hin. by left. }
  cbv beta. intros c1 Hh1 (Hx1 & Ht1 & Hf1 & Hr1).
  eapply steps_weaken; [apply (IH (without (el_Id e) es) (mkSt c1 _ _)); [done..|]|].
  - intros x Hxin. apply list_elem_of_filter. split; [|apply Hin; by right].
    intros Heq. apply Hni. rewrite <- Heq. by apply list_elem_of_fmap_2.
  - cbn [st_ctx]. intros c2 (Hx2 & Ht2 & Hf2 & Hr2). split_and!; [|done|by eapply frame_trans|lia].
    unfold without in Hx2. rewrite list_filter_filter in Hx2.
    erewrite list_filter_iff; [exact Hx2|]. intros x. cbv beta. rewrite fmap_cons, not_elem_of_cons. naive_solver.
Qed.

(** A fresh id, and an element inserted under it. *)
Lemma steps_new_id st es : healthy (st_ctx st) → room (st_ctx st) ≠ 0%nat → fresh (st_ctx st) es →
  ∃ id, (id ∉ el_Id <$> es) ∧ steps new_element_id st id
    (λ c', (∀ v, fresh c' [mkElement id v]) ∧ same (st_ctx st) c' ∧ clock (st_ctx st) <= clock c' ∧
           (Nat.pred (room (st_ctx st)) <= room c')%nat).
Proof.
  intros Hh Hr Hf. destruct (law_now _ Hh Hr) as (t & c' & E & Hh' & Hv & Ht & Hc & Hrm).
  exists (EncodeElementID t EffectsNodeID). split.
  - intros (e & Heq & He)%list_elem_of_fmap. destruct (Hf e He) as [_ Hne]. by eapply (Hne t); [lia..|].
  - exists c'. unfold new_element_id, NextHLC, mbind, M_bind. rewrite E. split_and!; [done|done| |done|lia|done].
    intros v e ->%list_elem_of_singleton. cbn. split; [apply EncodeElementID_ne|].
    intros t' Hlt Ht' Heq. apply EncodeElementID_inj in Heq; lia.
Qed.

(** The effect of an insertion at an end. *)
Definition push (p : Placement) (x : bytes) (l : list bytes) : list bytes :=
  match p with PLACE_HEAD => x :: l | _ => l ++ [x] end.

Definition push_elem (p : Placement) (e : Element) (es : list Element) : list Element :=
  match p with PLACE_HEAD => e :: es | _ => es ++ [e] end.

Lemma fresh_push c es p e : fresh c es → fresh c [e] → fresh c (push_elem p e es).
Proof.
  intros Hf He x Hx. unfold push_elem in Hx.
  assert (x = e ∨ x ∈ es) as [->|?] by (destruct p; set_solver); [apply He; set_solver|by apply Hf].
Qed.

Lemma push_elem_bytes p id x es :
  el_bytes <$> push_elem p (mkElement id (Raw x)) es = push p x (el_bytes <$> es).
Proof.
  assert (Hx : el_bytes (mkElement id (Raw x)) = x) by apply law_raw.
  destruct p; cbn; rewrite ?fmap_app; cbn; by rewrite Hx.
Qed.

Lemma push_elem_NoDup p e es : el_Id e ∉ el_Id <$> es → NoDup (el_Id <$> es) →
  NoDup (el_Id <$> push_elem p e es).
Proof.
  intros Hid Hnd. assert (NoDup (el_Id <$> es ++ [e])).
  { rewrite fmap_app. apply NoDup_app. split_and!; [done|set_solver|apply NoDup_singleton]. }
  destruct p; [done|by constructor|done..].
Qed.

Lemma reduce_push v p id x es : holds v es → id ∉ el_Id <$> es → p = PLACE_HEAD ∨ p = PLACE_TAIL →
  is_live v = true ∨ v = None →
  ∃ r, reduce v (ordered_effect p [] id (Raw x)) = Some r ∧ is_live r = true ∧
    (list_typed v → list_typed r) ∧ holds r (push_elem p (mkElement id (Raw x)) es).
Proof.
  intros Hx Hid Hp Ht. pose proof (find_id_None id es Hid) as Hfi. unfold holds in Hx.
  destruct v as [r|].
  - destruct Ht as [Hl|]; [|done]. rewrite Hl in Hx. simpl in Hl. apply bool_decide_eq_true in Hl as Hop.
    destruct Hx as (Hc & He & Hnd). pose proof (push_elem_NoDup p (mkElement id (Raw x)) es Hid Hnd) as Hnd'.
    unfold ordered_effect, reduce. cbn. rewrite Hl, Hc. cbn. rewrite He. unfold ordered_insert. cbn.
    rewrite Hfi. destruct Hp as [-> | ->]; cbn; eexists; (split; [done|]); unfold holds; cbn; naive_solver.
  - simpl in Hx. subst es. destruct Hp as [-> | ->]; cbn; eexists; (split; [done|]); unfold holds; cbn;
      (split; [done|]); (split; [intros _; split; [done|by right]|]); (split; [done|]); (split; [done|apply NoDup_singleton]).
Qed.

Lemma holds_dead v es : holds v es → is_live v = false → es = [].
Proof. unfold holds. intros Hx El. by rewrite El in Hx. Qed.

(** Onto a dead key: the tag may be any. *)
Lemma steps_revive key p id x tips st : healthy (st_ctx st) → is_live (view (st_ctx st) key) = false →
  p = PLACE_HEAD ∨ p = PLACE_TAIL →
  steps (emit (mkEffect key (ordered_effect p [] id (Raw x))) tips) st tt
    (λ c', (∃ tag, view c' key = Some (mkReduced INSERT_OP ORDERED tag None ∅ [mkElement id (Raw x)])) ∧
           frame (st_ctx st) key c' ∧ (room (st_ctx st) <= room c')%nat).
Proof.
  intros Hh Hl Hp. unfold emit.
  destruct (law_emit (mkEffect key (ordered_effect p [] id (Raw x))) tips _ Hh) as (c' & E & Hh' & Hne & _).
  pose proof (law_clock_emit (mkEffect key (ordered_effect p [] id (Raw x))) tips (st_ctx st)) as Hc.
  pose proof (law_revive_ordered key p id (Raw x) tips _ Hh Hl Hp) as Ht.
  rewrite E in Hc, Ht. cbn [snd] in Hc, Ht. exists c'. rewrite E.
  split_and!; [done|done|done| |lia]. split; [done|lia].
Qed.

(** One push: the key is live afterwards, and a list if it was one or missing. *)
Lemma steps_push key p x l st : healthy (st_ctx st) → room (st_ctx st) ≠ 0%nat →
  raw_list (st_ctx st) key l → p = PLACE_HEAD ∨ p = PLACE_TAIL →
  steps (emitListInsert key p x) st tt
    (λ c', raw_list c' key (push p x l) ∧ is_live (view c' key) = true ∧
           (list_typed (view (st_ctx st) key) → list_typed (view c' key)) ∧
           frame (st_ctx st) key c' ∧ (Nat.pred (room (st_ctx st)) <= room c')%nat).
Proof.
  intros Hh Hr (es & Hx & Hf & <-) Hp. unfold emitListInsert.
  destruct (steps_new_id st es Hh Hr Hf) as (id & Hid & Hs).
  eapply steps_bind; [exact Hs|]. cbv beta. intros c1 Hh1 (Hf1 & Hv1 & Hc1 & Hr1).
  assert (Hres : ∀ c2, holds (view c2 key) (push_elem p (mkElement id (Raw x)) es) → clock c1 <= clock c2 →
            raw_list c2 key (push p x (el_bytes <$> es))).
  { intros c2 Hh2 Hc2. exists (push_elem p (mkElement id (Raw x)) es). split_and!; [done| |apply push_elem_bytes].
    apply (fresh_later c1); [done|]. apply fresh_push; [by eapply fresh_later|apply Hf1]. }
  rewrite <- (Hv1 key) in Hx |- *. assert (Hfr : frame (st_ctx st) key c1) by (split; [auto|done]).
  destruct (is_live (view c1 key)) eqn:El.
  - destruct (reduce_push _ p id x es Hx Hid Hp (or_introl El)) as (r & Hred & Hl & Ht & Hh2).
    eapply steps_weaken; [by apply (steps_effect key _ r [] (mkSt c1 _ _))|]. cbn [st_ctx].
    intros c2 (Hv2 & Hf2 & Hr2). rewrite Hv2. split_and!; [|done|done|by eapply frame_trans|lia].
    apply Hres; [by rewrite Hv2|apply Hf2].
  - assert (es = []) as -> by by eapply holds_dead. destruct (view c1 key) as [r|] eqn:Ev.
    + eapply steps_weaken; [apply (steps_revive key p id x [] (mkSt c1 _ _)); [done|cbn [st_ctx]; by rewrite Ev|done]|].
      cbn [st_ctx]. intros c2 ((tag & Hv2) & Hf2 & Hr2). rewrite Hv2.
      split_and!; [|done| |by eapply frame_trans|lia].
      * apply Hres; [|apply Hf2]. rewrite Hv2. unfold holds. cbn. unfold push_elem.
        destruct Hp as [-> | ->]; (split_and!; [done|done|apply NoDup_singleton]).
      * intros [Hop _]. simpl in El. by rewrite Hop in El.
    + destruct (reduce_push None p id x [] Hx Hid Hp (or_intror eq_refl)) as (r & Hred & Hl & Ht & Hh2).
      eapply steps_weaken; [apply (steps_effect key _ r [] (mkSt c1 _ _)); [done|cbn [st_ctx]; by rewrite Ev]|]. cbn [st_ctx].
      intros c2 (Hv2 & Hf2 & Hr2). rewrite Hv2. split_and!; [|done|done|by eapply frame_trans|lia].
      apply Hres; [by rewrite Hv2|apply Hf2].
Qed.

(** The list after pushing several elements one after another. *)
Definition push_all (p : Placement) (xs l : list bytes) : list bytes :=
  match p with PLACE_HEAD => rev xs ++ l | _ => l ++ xs end.

Lemma push_all_cons p x xs l : push_all p xs (push p x l) = push_all p (x :: xs) l.
Proof. destruct p; cbn; by rewrite <- app_assoc. Qed.

Lemma steps_push_all key p xs l st : healthy (st_ctx st) → (length xs <= room (st_ctx st))%nat →
  raw_list (st_ctx st) key l → p = PLACE_HEAD ∨ p = PLACE_TAIL →
  steps (for_each xs (emitListInsert key p)) st tt
    (λ c', raw_list c' key (push_all p xs l) ∧ (xs ≠ [] → is_live (view c' key) = true) ∧
           (list_typed (view (st_ctx st) key) → list_typed (view c' key)) ∧ frame (st_ctx st) key c').
Proof.
  revert l st. induction xs as [|x xs IH]; intros l st Hh Hr Hx Hp.
  { apply steps_ret; [done|]. split_and!; [|done|done|split; [done|lia]].
    destruct p; cbn; by rewrite ?app_nil_r. }
  cbn [for_each]. cbn [length] in Hr. eapply steps_bind; [apply (steps_push key p x l); [done|lia|done|done]|].
  cbv beta. intros c1 Hh1 (Hx1 & Hl1 & Ht1 & Hf1 & Hr1).
  eapply steps_weaken; [apply (IH (push p x l) (mkSt c1 _ _)); [done|cbn [st_ctx]; lia|done|done]|].
  cbn [st_ctx]. intros c2 (Hx2 & Hl2 & Ht2 & Hf2).
  rewrite push_all_cons in Hx2. split_and!; [done| |auto|by eapply frame_trans].
  intros _. destruct xs as [|x' xs]; [|by apply Hl2].
  destruct Hx2 as (es & Hh2 & _ & Hb2). destruct (is_live (view c2 key)) eqn:El; [done|].
  rewrite (holds_dead _ _ Hh2 El) in Hb2. destruct p; cbn in Hb2; try (by destruct l); done.
Qed.

(** Tagging a live collection makes it a list. *)
Lemma steps_list_tag key l st : healthy (st_ctx st) → raw_list (st_ctx st) key l →
  is_live (view (st_ctx st) key) = true →
  steps (emitListTypeTag key) st tt (only_list (st_ctx st) key l).
Proof.
  intros Hh (es & Hx & Hf & Hb) Hl. unfold emitListTypeTag.
  destruct (view (st_ctx st) key) as [r|] eqn:Ev; [|done]. simpl in Hl. apply bool_decide_eq_true in Hl as Hop.
  eapply steps_weaken; [by apply steps_effect; [|rewrite Ev]|].
  cbv beta. intros c' (Hv & Hfr & _). split; [|done]. rewrite <- Hb. split.
  - exists es. split_and!; [|by eapply fresh_later; [apply Hfr|]|done]. rewrite Hv. unfold holds in *.
    simpl in *. by rewrite Hl in *.
  - intros _. rewrite Hv. split; [done|by left].
Qed.
End ListRuns.
