(* ===== verification/ListTheorems.v ===== *)
(** * What the list commands do

    Pushes, pops, ranges, searches and moves as operations on the sequence a
    key stands for. *)

From S2P Require Import Prelude GoBytes Strconv Commands Writer Engine Runs Lists ListProps.

Local Open Scope Z_scope.

(** ** Choosing elements of a list

    [picks l a b]: [l] is [a] and [b] merged, each in its order. *)
Inductive picks {A} : list A → list A → list A → Prop :=
  | picks_nil : picks [] [] []
  | picks_in x l a b : picks l a b → picks (x :: l) (x :: a) b
  | picks_out x l a b : picks l a b → picks (x :: l) a (x :: b).
#[export] Hint Constructors picks : go.

Section Picks.
Context {A : Type}.
Implicit Types l a b : list A.

Lemma picks_none l : picks l [] l.
Proof. induction l; auto with go. Qed.

Lemma picks_app l l' a a' b b' : picks l a b → picks l' a' b' → picks (l ++ l') (a ++ a') (b ++ b').
Proof. induction 1; cbn; auto with go. Qed.

Lemma picks_rev l a b : picks l a b → picks (rev l) (rev a) (rev b).
Proof.
  induction 1 as [|x l a b Hp IH|x l a b Hp IH]; cbn; [constructor|..].
  - rewrite <- (app_nil_r (rev b)). apply picks_app; auto with go.
  - rewrite <- (app_nil_r (rev a)). apply picks_app; auto with go.
Qed.

Lemma picks_take_drop n l : picks l (take n l) (drop n l).
Proof.
  revert n. induction l as [|x l IH]; intros [|n]; cbn; auto with go. apply (picks_none (x :: l)).
Qed.

Lemma picks_drop_take n l : picks l (drop n l) (take n l).
Proof.
  revert n. induction l as [|x l IH]; intros [|n]; cbn; auto with go.
  constructor. clear IH. induction l; auto with go.
Qed.

Lemma fmap_rev {B} (f : A → B) l : f <$> rev l = rev (f <$> l).
Proof. induction l as [|x l IH]; [done|]. cbn. by rewrite fmap_app, IH. Qed.

Lemma picks_all l : picks l l [].
Proof. induction l; auto with go. Qed.

Lemma picks_nil_all l b : picks l [] b → l = b.
Proof. remember [] as a. induction 1; [done|done|]. f_equal. auto. Qed.

Lemma picks_length l a b : picks l a b → length l = (length a + length b)%nat.
Proof. induction 1; cbn; lia. Qed.

Lemma picks_in_list l a b x : picks l a b → x ∈ a ∨ x ∈ b ↔ x ∈ l.
Proof. induction 1; set_solver. Qed.

Lemma picks_sublist l a b : picks l a b → a `sublist_of` l ∧ b `sublist_of` l.
Proof. induction 1 as [|x l a b _ [IH1 IH2]|x l a b _ [IH1 IH2]]; split; constructor; done. Qed.

Lemma picks_fmap {B} (f : A → B) l a b : picks l a b → picks (f <$> l) (f <$> a) (f <$> b).
Proof. induction 1; cbn; auto with go. Qed.

(** Keeping what is not picked, by a name that no two elements share. *)
Lemma picks_rest {B} `{EqDecision B} (f : A → B) l a b : picks l a b → NoDup (f <$> l) →
  filter (λ x, f x ∉ f <$> a) l = b.
Proof.
  induction 1 as [|x l a b Hp IH|x l a b Hp IH]; [done|..]; rewrite fmap_cons; intros [Hx Hnd]%NoDup_cons.
  - rewrite filter_cons_False by set_solver. etrans; [|by apply IH].
    apply filter_ext_in. intros y Hy. rewrite fmap_cons, not_elem_of_cons.
    assert (f y ≠ f x); [|naive_solver]. intros He. apply Hx. rewrite <- He. by apply list_elem_of_fmap_2.
  - rewrite filter_cons_True.
    + f_equal. by apply IH.
    + intros Hin. apply Hx. eapply elem_of_sublist; [done|]. by apply fmap_sublist, (picks_sublist _ _ _ Hp).
Qed.
End Picks.

(** ** Ranges *)

(** The elements at the positions from [start] to [stop], negative ones counted
    from the end. *)
Definition in_range (n start stop i : Z) : Prop := norm_index n start <= i <= norm_index n stop.
#[global] Instance in_range_dec n start stop i : Decision (in_range n start stop i).
Proof. unfold in_range. apply _. Defined.
Definition range_of {A} (l : list A) (start stop : Z) : list A :=
  snd <$> filter (λ p, in_range (len l) start stop p.1) (indexed l).

(** The elements from [lo] to [hi] of a list whose first has index [i]. *)
Fixpoint inside {A} (lo hi i : Z) (l : list A) : list A :=
  match l with
  | [] => []
  | x :: l' => if (i <? lo) || (hi <? i) then inside lo hi (i + 1) l' else x :: inside lo hi (i + 1) l'
  end.

Lemma picks_outside lo hi i es : picks es (outside lo hi i es) (inside lo hi i es).
Proof.
  revert i. induction es as [|e es IH]; intros i; cbn; [constructor|].
  destruct (_ || _); auto with go.
Qed.

Lemma inside_fmap {A B} (f : A → B) lo hi i l : f <$> inside lo hi i l = inside lo hi i (f <$> l).
Proof.
  revert i. induction l as [|x l IH]; intros i; cbn; [done|]. destruct (_ || _); cbn; by rewrite IH.
Qed.

Lemma inside_filter {A} lo hi i (l : list A) :
  inside lo hi i l = snd <$> filter (λ p, lo <= p.1 <= hi) (imap (λ j x, (i + Z.of_nat j, x)) l).
Proof.
  revert i. induction l as [|x l IH]; intros i; [done|]. cbn [inside]. rewrite imap_cons.
  replace (imap _ l) with (imap (λ j x, (i + 1 + Z.of_nat j, x)) l).
  2:{ apply imap_ext. intros j y _. cbn. f_equal. lia. }
  rewrite IH. destruct ((i <? lo) || (hi <? i)) eqn:E.
  - rewrite filter_cons_False; [done|]. cbn. apply orb_true_iff in E. rewrite Z.ltb_lt, Z.ltb_lt in E. lia.
  - reflect_bools. rewrite filter_cons_True by (cbn; lia). rewrite fmap_cons. cbn. done.
Qed.

Lemma inside_take {A} lo hi i (l : list A) : lo <= i → inside lo hi i l = take (Z.to_nat (hi - i + 1)) l.
Proof.
  revert i. induction l as [|x l IH]; intros i Hi; cbn [inside]; [by rewrite take_nil|].
  rewrite IH by lia. destruct (i <? lo) eqn:E1; reflect_bools; [lia|]. cbn [orb].
  destruct (hi <? i) eqn:E2; reflect_bools.
  - replace (Z.to_nat (hi - i + 1)) with 0%nat by lia. by replace (Z.to_nat (hi - (i + 1) + 1)) with 0%nat by lia.
  - replace (Z.to_nat (hi - i + 1)) with (S (Z.to_nat (hi - (i + 1) + 1))) by lia. done.
Qed.

Lemma inside_take_drop {A} lo hi i (l : list A) : i <= lo →
  inside lo hi i l = take (Z.to_nat (hi - lo + 1)) (drop (Z.to_nat (lo - i)) l).
Proof.
  revert i. induction l as [|x l IH]; intros i Hi; [by rewrite drop_nil, take_nil|].
  destruct (decide (i = lo)) as [->|Hne].
  - rewrite inside_take by lia. by rewrite Z.sub_diag.
  - cbn [inside]. destruct (i <? lo) eqn:E; reflect_bools; [|lia]. cbn [orb]. rewrite IH by lia.
    replace (Z.to_nat (lo - i)) with (S (Z.to_nat (lo - (i + 1)))) by lia. done.
Qed.

(** Clamping does not change the range. *)
Lemma inside_clamped {A} start stop (l : list A) :
  inside (clamp_start (len l) start) (clamp_stop (len l) stop) 0 l = range_of l start stop.
Proof.
  rewrite inside_filter. unfold range_of, indexed. f_equal.
  replace (imap (λ j x, (0 + Z.of_nat j, x)) l) with (imap (λ i e, (Z.of_nat i, e)) l) by done.
  apply filter_ext_in. intros [i x] (j & y & [= -> ->] & Hj)%elem_of_lookup_imap. cbn.
  apply lookup_lt_Some in Hj. unfold in_range, norm_index, clamp_start, clamp_stop, len.
  repeat split_if; lia.
Qed.

Lemma range_of_fmap {A B} (f : A → B) l start stop : f <$> range_of l start stop = range_of (f <$> l) start stop.
Proof.
  rewrite <- !inside_clamped, inside_fmap. unfold len. by rewrite length_fmap.
Qed.

Lemma slice_inside {A} lo hi (l : list A) : 0 <= lo <= hi → hi < len l →
  slice l lo (hi + 1) = Some (inside lo hi 0 l).
Proof.
  intros Hlo Hhi. unfold slice. rewrite inside_take_drop by lia.
  destruct (_ && _) eqn:E.
  - f_equal. f_equal; [lia|]. f_equal. lia.
  - exfalso. apply andb_false_iff in E as [[E|E]%andb_false_iff|E]; reflect_bools; lia.
Qed.

Section ListCommands.
Context `{ClockLaws}.

(** ** Pushes *)

Lemma push_spec p key xs st l : healthy (st_ctx st) → is_list (st_ctx st) key l →
  p = PLACE_HEAD ∨ p = PLACE_TAIL → xs ≠ [] → (length xs <= room (st_ctx st))%nat →
  finishes (push_runner p key xs) st (WriteInteger (len l + len xs) (st_w st))
    (only_list (st_ctx st) key (push_all p xs l)).
Proof.
  intros Hh Hx Hp Hne Hr. unfold push_runner. eapply finishes_list; [done|exact Hx|].
  intros s es c1 Hh1 Hl1 Hx1 Hf1 Hb1 Hw He Ho. cbv beta. rewrite Hw, He, Ho.
  assert (len es = len l) as -> by (unfold len; by rewrite <- Hb1, length_fmap).
  assert (Hraw : raw_list c1 key l) by by exists es.
  destruct Hl1 as (Hs1 & Hc1 & Hr1).
  eapply finishes_bind; [apply (steps_push_all key p xs l (mkSt c1 _ _)); [done|cbn [st_ctx]; lia|done|done]|].
  cbn [st_ctx st_w st_held]. intros c2 Hh2 (Hx2 & Hl2 & Ht2 & Hf2). specialize (Hl2 Hne).
  assert (Hfr : frame (st_ctx st) key c2) by (eapply frame_trans; [by apply later_frame|done]).
  destruct (is_live (view (st_ctx st) key)) eqn:El; cbn [negb].
  - apply finishes_write; [done|done|]. split; [|done]. split; [done|]. intros _. apply Ht2.
    rewrite Hs1. by apply Hx.
  - eapply finishes_bind; [by apply (steps_list_tag key (push_all p xs l))|].
    cbn [st_ctx st_w st_held]. intros c3 Hh3 [Hx3 Hf3]. apply finishes_write; [done|done|].
    split; [done|]. by eapply frame_trans.
Qed.

Lemma pushx_spec p key xs st l : healthy (st_ctx st) → is_list (st_ctx st) key l →
  p = PLACE_HEAD ∨ p = PLACE_TAIL → (length xs <= room (st_ctx st))%nat →
  finishes (pushx_runner p key xs) st
    ((if is_live (view (st_ctx st) key) then WriteInteger (len l + len xs) else WriteZero) (st_w st))
    (only_list (st_ctx st) key (if is_live (view (st_ctx st) key) then push_all p xs l else l)).
Proof.
  intros Hh Hx Hp Hr. unfold pushx_runner. eapply finishes_list; [done|exact Hx|].
  intros s es c1 Hh1 Hl1 Hx1 Hf1 Hb1 Hw He Ho. cbv beta. rewrite Hw, He, Ho.
  destruct (is_live (view (st_ctx st) key)) eqn:El; cbn [negb].
  2:{ apply finishes_reply; [done|done|]. by apply only_list_same. }
  assert (len es = len l) as -> by (unfold len; by rewrite <- Hb1, length_fmap).
  assert (Hraw : raw_list c1 key l) by by exists es.
  destruct Hl1 as (Hs1 & Hc1 & Hr1).
  eapply finishes_bind; [apply (steps_push_all key p xs l (mkSt c1 _ _)); [done|cbn [st_ctx]; lia|done|done]|].
  cbn [st_ctx st_w st_held]. intros c2 Hh2 (Hx2 & _ & Ht2 & Hf2).
  apply finishes_write; [done|done|]. split.
  - split; [done|]. intros _. apply Ht2. rewrite Hs1. by apply Hx.
  - eapply frame_trans; [by apply later_frame|done].
Qed.

(** ** Removals *)

(** A list that holds something is live, and typed as a list. *)
Lemma nonempty_typed c key es : holds (view c key) es → es ≠ [] →
  (is_live (view c key) = true → list_typed (view c key)) →
  is_live (view c key) = true ∧ list_typed (view c key).
Proof.
  intros Hx Hne Ht. destruct (is_live (view c key)) eqn:El; [auto|]. by apply holds_dead in Hx.
Qed.

(** Removing the elements picked out of the list, in any order. *)
Lemma steps_remove_picked key es rm rest rm' st : healthy (st_ctx st) →
  holds (view (st_ctx st) key) es → fresh (st_ctx st) es → list_typed (view (st_ctx st) key) →
  picks es rm rest → rm' ≡ₚ rm →
  steps (for_each rm' (λ e, emitListRemove key (el_Id e))) st tt
    (λ c', only_list (st_ctx st) key (el_bytes <$> rest) c' ∧ holds (view c' key) rest ∧
           list_typed (view c' key) ∧ (room (st_ctx st) <= room c')%nat).
Proof.
  intros Hh Hx Hf Ht Hp Hperm. destruct (picks_sublist _ _ _ Hp) as [Hs1 Hs2].
  assert (Hnd : NoDup (el_Id <$> es)).
  { unfold holds in Hx. destruct (is_live _); [|by subst; constructor].
    destruct (view _ _) as [r|]; [|done]. by destruct Hx as (_ & _ & ?). }
  eapply steps_weaken; [apply (steps_remove_elems key rm' es); [done..| |]|].
  - rewrite Hperm. eapply sublist_NoDup; [done|]. by apply fmap_sublist.
  - intros e He. rewrite Hperm in He. by eapply elem_of_sublist.
  - cbv beta. intros c' (Hx' & Ht' & Hf' & Hr').
    assert (Hrest : filter (λ e, el_Id e ∉ el_Id <$> rm') es = rest).
    { etrans; [|by apply (picks_rest el_Id _ _ _ Hp)]. apply list_filter_iff. intros e. by rewrite Hperm. }
    rewrite Hrest in Hx'. split_and!; [|done..]. split; [|done]. split; [|auto].
    exists rest. split_and!; [done| |done]. eapply fresh_later; [apply Hf'|].
    eapply fresh_sub; [|done]. intros e He. by eapply elem_of_sublist.
Qed.

(** The same after the read was recorded. *)
Lemma steps_remove_elements key es rm rest rm' tips st : healthy (st_ctx st) →
  holds (view (st_ctx st) key) es → fresh (st_ctx st) es → list_typed (view (st_ctx st) key) →
  picks es rm rest → rm' ≡ₚ rm →
  steps (remove_elements key tips rm') st tt (only_list (st_ctx st) key (el_bytes <$> rest)).
Proof.
  intros Hh Hx Hf Ht Hp Hperm. unfold remove_elements.
  eapply steps_bind; [by apply steps_begin_read|]. cbv beta. intros c1 Hh1 Hl1.
  pose proof Hl1 as (Hs & Hc & _).
  eapply steps_weaken; [apply (steps_remove_picked key es rm rest rm' (mkSt c1 _ _)); cbn [st_ctx];
    rewrite ?Hs; by eauto using fresh_later|].
  cbn [st_ctx]. intros c2 (Ho & _). by eapply only_list_later.
Qed.

(** ** Pops *)

Definition popped (fromLeft : bool) (n : nat) (l : list bytes) : list bytes :=
  take n (if fromLeft then l else rev l).
Definition remaining (fromLeft : bool) (n : nat) (l : list bytes) : list bytes :=
  if fromLeft then drop n l else take (length l - n) l.

Lemma from_end_bytes fromLeft es :
  el_bytes <$> from_end fromLeft es = if fromLeft then el_bytes <$> es else rev (el_bytes <$> es).
Proof. destruct fromLeft; [done|]. apply fmap_rev. Qed.

Lemma picks_from_end fromLeft n es :
  ∃ rm rest, picks es rm rest ∧ take n (from_end fromLeft es) ≡ₚ rm ∧
    el_bytes <$> rest = remaining fromLeft n (el_bytes <$> es).
Proof.
  destruct fromLeft.
  - exists (take n es), (drop n es). split_and!; [apply picks_take_drop|done|]. cbn. by rewrite fmap_drop.
  - exists (drop (length es - n) es), (take (length es - n) es). split_and!; [apply picks_drop_take| |].
    + cbn. rewrite firstn_rev. symmetry. apply Permutation_rev.
    + cbn. by rewrite fmap_take, length_fmap.
Qed.

(** What a pop of [count] replies; without a count argument, one element. *)
Definition pop_reply (fromLeft : bool) (count : option Z) (l : list bytes) (w : Writer) : Writer :=
  match count, l with
  | None, [] => WriteNullBulkString w
  | Some _, [] => WriteNullArray w
  | None, _ => bulks (popped fromLeft 1 l) w
  | Some n, _ => bulks (popped fromLeft (Z.to_nat n) l) (WriteArray (Z.min n (len l)) w)
  end.
Definition pop_count (count : option Z) : Z := match count with Some n => n | None => 1 end.

Lemma finishes_bulks es st (P : Ctx → Prop) : healthy (st_ctx st) → P (st_ctx st) →
  finishes (for_each es (λ e, write (WriteBulkString (el_bytes e)))) st (bulks (el_bytes <$> es) (st_w st)) P.
Proof.
  intros Hh HP. unfold bulks.
  replace (foldl _ (st_w st) (el_bytes <$> es)) with (foldl (λ w e, WriteBulkString (el_bytes e) w) (st_w st) es).
  - by apply (finishes_for_each_write (λ e, WriteBulkString (el_bytes e))).
  - generalize (st_w st). induction es as [|e es IH]; intros w; [done|]. cbn. apply IH.
Qed.

Lemma take_clip {A B} n (l : list A) (l' : list B) : length l = length l' →
  take (Z.to_nat (Z.min n (len l'))) l = take (Z.to_nat n) l.
Proof.
  intros Hl. unfold len. destruct (decide (n <= Z.of_nat (length l'))) as [Hle|Hgt].
  - by rewrite Z.min_l by lia.
  - rewrite Z.min_r by lia. by rewrite !take_ge by lia.
Qed.

Lemma length_from_end fromLeft es : length (from_end fromLeft es) = length es.
Proof. destruct fromLeft; [done|]. apply length_rev. Qed.

Lemma len_nonempty {A} (l : list A) : l ≠ [] → (len l =? 0) = false.
Proof. intros Hl. apply Z.eqb_neq. destruct l; [done|]. unfold len. cbn. lia. Qed.

Lemma popped_from_end fromLeft n es : el_bytes <$> take n (from_end fromLeft es) = popped fromLeft n (el_bytes <$> es).
Proof. unfold popped. by rewrite fmap_take, from_end_bytes. Qed.

Lemma pop_spec fromLeft key count st l : healthy (st_ctx st) → is_list (st_ctx st) key l →
  0 <= pop_count count →
  finishes (pop_runner fromLeft key (pop_count count) (bool_decide (is_Some count))) st
    (pop_reply fromLeft count l (st_w st))
    (only_list (st_ctx st) key (remaining fromLeft (Z.to_nat (pop_count count)) l)).
Proof.
  intros Hh Hx Hc. unfold pop_runner. eapply finishes_list; [done|exact Hx|].
  intros s es c1 Hh1 Hl1 Hx1 Hf1 Hb1 Hw He Ho. cbv beta. rewrite Hw, He, Ho.
  assert (Hlen : len es = len l) by (unfold len; by rewrite <- Hb1, length_fmap).
  destruct (decide (es = [])) as [->|Hne].
  { subst l. rewrite orb_true_r. apply finishes_reply; [done| |].
    - by destruct count.
    - replace (remaining _ _ _) with (@nil bytes) by (destruct fromLeft; cbn; by rewrite ?drop_nil).
      by apply only_list_same. }
  destruct Hx as [Hraw Htyped]. pose proof Hl1 as (Hs1 & _). 
  destruct (nonempty_typed c1 key es Hx1 Hne) as [Hlive Ht1]; [by rewrite Hs1|].
  rewrite <- Hs1, Hlive, (len_nonempty es Hne). cbn [negb orb].
  destruct (picks_from_end fromLeft (Z.to_nat (pop_count count)) es) as (rm & rest & Hp & Hperm & Hrest).
  rewrite (take_clip _ _ es) by apply length_from_end. rewrite Hb1 in Hrest.
  eapply finishes_bind; [by apply (steps_remove_elements key es rm rest)|].
  cbn [st_ctx st_w st_held]. rewrite Hrest. intros c2 Hh2 Ho2.
  assert (Hlne : l ≠ []) by (intros ->; by destruct es).
  destruct count as [n|]; cbn [pop_count] in *.
  - rewrite bool_decide_eq_true_2 by eauto. rewrite andb_false_r. apply finishes_write_bind.
    unfold pop_reply. destruct l as [|x l]; [done|]. rewrite <- Hb1 at 1. rewrite <- popped_from_end, Hlen.
    apply (finishes_bulks _ (mkSt _ _ _)); [done|]. by eapply only_list_later.
  - rewrite bool_decide_eq_false_2 by (by intros []). cbn [negb andb Z.eqb Pos.eqb].
    destruct (from_end fromLeft es) as [|e es'] eqn:Ee.
    { exfalso. apply Hne. apply length_zero_iff_nil. by rewrite <- (length_from_end fromLeft), Ee. }
    apply (finishes_or_panic _ e); [done|]. unfold pop_reply. destruct l as [|x l]; [done|].
    rewrite <- Hb1, <- popped_from_end, Ee. cbn.
    apply finishes_write; [done|done|]. rewrite Hb1. by eapply only_list_later.
Qed.
(** ** Reads *)

Lemma llen_spec key st l : healthy (st_ctx st) → is_list (st_ctx st) key l →
  finishes (llen_runner key) st
    ((if is_live (view (st_ctx st) key) then WriteInteger (len l) else WriteZero) (st_w st)) (later (st_ctx st)).
Proof.
  intros Hh Hx. unfold llen_runner. eapply finishes_list; [done|exact Hx|].
  intros s es c1 Hh1 Hl1 Hx1 Hf1 Hb1 Hw He Ho. cbv beta. rewrite Hw, He, Ho.
  destruct (is_live _); cbn [negb]; [|by apply finishes_reply].
  apply finishes_write; [done| |done]. unfold len. by rewrite <- Hb1, length_fmap.
Qed.

Definition range_reply (xs : list bytes) (w : Writer) : Writer := bulks xs (WriteArray (len xs) w).

Lemma lrange_spec key start stop st l : healthy (st_ctx st) → is_list (st_ctx st) key l →
  finishes (lrange_runner key start stop) st (range_reply (range_of l start stop) (st_w st)) (later (st_ctx st)).
Proof.
  intros Hh Hx. unfold lrange_runner. eapply finishes_list; [done|exact Hx|].
  intros s es c1 Hh1 Hl1 Hx1 Hf1 Hb1 Hw He Ho. cbv beta. rewrite Hw, He, Ho.
  destruct (decide (es = [])) as [->|Hne].
  { subst l. destruct (is_live _); by apply finishes_reply. }
  destruct Hx as [_ Htyped]. pose proof Hl1 as (Hs1 & _).
  destruct (nonempty_typed c1 key es Hx1 Hne) as [Hlive _]; [by rewrite Hs1|].
  rewrite <- Hs1, Hlive, (len_nonempty es Hne). cbn [negb]. rewrite <- Hb1, <- range_of_fmap, <- inside_clamped.
  assert (Hlo : 0 <= clamp_start (len es) start) by (unfold clamp_start; repeat split_if; lia).
  assert (Hhi : clamp_stop (len es) stop < len es) by (unfold clamp_stop; repeat split_if; lia).
  destruct (_ <? _) eqn:E; reflect_bools.
  - apply finishes_reply; [done| |done]. rewrite inside_take_drop by done.
    by replace (Z.to_nat (clamp_stop _ _ - _ + 1)) with 0%nat by lia.
  - eapply finishes_or_panic; [by apply slice_inside|]. apply finishes_write_bind.
    unfold range_reply. replace (len (el_bytes <$> _)) with (len (inside (clamp_start (len es) start) (clamp_stop (len es) stop) 0 es))
      by (unfold len; by rewrite length_fmap).
    by apply (finishes_bulks _ (mkSt _ _ _)).
Qed.

(** The element at an index, negative ones counted from the end. *)
Definition index_of {A} (l : list A) (index : Z) : option A :=
  let i := norm_index (len l) index in
  if (i <? 0) || (len l <=? i) then None else l !! Z.to_nat i.

Lemma index_of_fmap {A B} (f : A → B) l index : index_of (f <$> l) index = f <$> index_of l index.
Proof.
  unfold index_of. assert (Hl : len (f <$> l) = len l) by (unfold len; by rewrite length_fmap).
  rewrite Hl. destruct (_ || _); [done|]. apply list_lookup_fmap.
Qed.

Lemma index_of_lookup {A} (l : list A) index :
  let i := norm_index (len l) index in
  (i <? 0) || (len l <=? i) = false → ∃ x, l !! Z.to_nat i = Some x ∧ index_of l index = Some x.
Proof.
  cbv zeta. intros E. unfold index_of. rewrite E. reflect_bools.
  destruct (lookup_lt_is_Some_2 l (Z.to_nat (norm_index (len l) index))) as [x Hx]; [unfold len in *; lia|].
  eauto.
Qed.

Lemma lindex_spec key index st l : healthy (st_ctx st) → is_list (st_ctx st) key l →
  finishes (lindex_runner key index) st
    (match index_of l index with Some x => WriteBulkString x | None => WriteNullBulkString end (st_w st))
    (later (st_ctx st)).
Proof.
  intros Hh Hx. unfold lindex_runner. eapply finishes_list; [done|exact Hx|].
  intros s es c1 Hh1 Hl1 Hx1 Hf1 Hb1 Hw He Ho. cbv beta. rewrite Hw, He, Ho, <- Hb1, index_of_fmap.
  destruct (is_live _) eqn:El; cbn [negb].
  - destruct (_ || _) eqn:E.
    + unfold index_of. rewrite E. by apply finishes_reply.
    + destruct (index_of_lookup _ _ E) as (e & He1 & ->). eapply finishes_or_panic; [exact He1|].
      by apply finishes_write.
  - destruct Hl1 as (Hs1 & ? & ?). rewrite <- Hs1 in El. rewrite (holds_dead _ _ Hx1 El). 
    replace (index_of [] index) with (@None Element); [by apply finishes_reply|].
    unfold index_of. by destruct (_ || _).
Qed.

(** ** LTRIM *)

Lemma ltrim_spec key start stop st l : healthy (st_ctx st) → is_list (st_ctx st) key l →
  finishes (ltrim_runner key start stop) st (WriteOK (st_w st))
    (only_list (st_ctx st) key (range_of l start stop)).
Proof.
  intros Hh Hx. unfold ltrim_runner. eapply finishes_list; [done|exact Hx|].
  intros s es c1 Hh1 Hl1 Hx1 Hf1 Hb1 Hw He Ho. cbv beta. rewrite Hw, He, Ho.
  destruct (decide (es = [])) as [->|Hne].
  { subst l. destruct (is_live _); (apply finishes_reply; [done|done|]); by apply only_list_same. }
  pose proof Hx as [_ Htyped]. pose proof Hl1 as (Hs1 & _).
  destruct (nonempty_typed c1 key es Hx1 Hne) as [Hlive Ht1]; [by rewrite Hs1|].
  rewrite <- Hs1, Hlive. cbn [negb].
  pose proof (picks_outside (clamp_start (len es) start) (clamp_stop (len es) stop) 0 es) as Hp.
  rewrite inside_clamped in Hp. destruct (len _ =? 0) eqn:E; reflect_bools.
  - apply finishes_reply; [done|done|]. unfold len in E.
    destruct (outside _ _ _ _) as [|e es'] eqn:Eo in Hp, E; [|by cbn in E].
    assert (Hall : es = range_of es start stop) by (by apply picks_nil_all).
    replace (range_of l start stop) with l; [by apply only_list_same|].
    by rewrite <- Hb1, <- range_of_fmap, <- Hall.
  - eapply finishes_bind; [by apply (steps_remove_elements key es _ _ _ (ks_tips s) (mkSt c1 _ _) Hh1 Hx1 Hf1 Ht1 Hp)|].
    cbn [st_ctx st_w st_held]. intros c2 Hh2 Ho2. apply finishes_write; [done|done|].
    rewrite range_of_fmap, Hb1 in Ho2. by eapply only_list_later.
Qed.
(** ** LSET, LINSERT *)

Lemma holds_live_NoDup c key es : holds (view c key) es → NoDup (el_Id <$> es).
Proof.
  unfold holds. destruct (is_live _); [|intros ->; constructor].
  destruct (view c key) as [r|]; [|done]. by intros (_ & _ & ?).
Qed.

(** An insertion into a live list, as [ordered_insert] has it. *)
Lemma steps_ordered key p ref id v es es' st : healthy (st_ctx st) → holds (view (st_ctx st) key) es →
  is_live (view (st_ctx st) key) = true → list_typed (view (st_ctx st) key) →
  ordered_insert p ref (mkElement id v) es = Some es' → NoDup (el_Id <$> es') →
  steps (emit (mkEffect key (ordered_effect p ref id v)) []) st tt
    (λ c', holds (view c' key) es' ∧ list_typed (view c' key) ∧ frame (st_ctx st) key c').
Proof.
  intros Hh Hx Hl Ht Hi Hnd. unfold holds in Hx. rewrite Hl in Hx.
  destruct (view (st_ctx st) key) as [r|] eqn:Ev; [|done]. destruct Hx as (Hc & He & _).
  eapply steps_weaken.
  - apply (steps_effect key _ (Some (mkReducedAt INSERT_OP ORDERED (re_TypeTag r) None ∅ es' (re_ExpiresAt r) ∅))); [done|].
    rewrite Ev. unfold ordered_effect, reduce. cbn. simpl in Hl. by rewrite Hl, Hc, He, Hi.
  - cbv beta. intros c' (Hv & Hf & _). rewrite Hv. split; [done|]. split; [|done]. split; [done|apply Ht].
Qed.

Lemma ids_insert_same (es : list Element) (i : nat) e e' : es !! i = Some e → el_Id e' = el_Id e →
  el_Id <$> <[i := e']> es = el_Id <$> es.
Proof.
  intros Hi He. rewrite list_fmap_insert, He. apply list_insert_id. by rewrite list_lookup_fmap, Hi.
Qed.

Lemma fresh_same_ids c es es' : el_Id <$> es' = el_Id <$> es → fresh c es → fresh c es'.
Proof.
  intros Hids Hf e He. assert (el_Id e ∈ el_Id <$> es) as (e1 & -> & He1)%list_elem_of_fmap.
  { rewrite <- Hids. by apply list_elem_of_fmap_2. }
  by apply Hf.
Qed.

Lemma lset_spec key index value st l x : healthy (st_ctx st) → is_list (st_ctx st) key l →
  index_of l index = Some x →
  finishes (lset_runner key index value) st (WriteOK (st_w st))
    (only_list (st_ctx st) key (<[Z.to_nat (norm_index (len l) index) := value]> l)).
Proof.
  intros Hh Hx Hi. unfold lset_runner. eapply finishes_list; [done|exact Hx|].
  intros s es c1 Hh1 Hl1 Hx1 Hf1 Hb1 Hw He Ho. cbv beta. rewrite Hw, He, Ho.
  assert (Hlen : len es = len l) by (unfold len; by rewrite <- Hb1, length_fmap).
  rewrite <- Hb1, index_of_fmap in Hi. destruct (index_of es index) as [e|] eqn:Ei; [|done].
  assert (Hne : es ≠ []) by (intros ->; unfold index_of in Ei; by destruct (_ || _)).
  destruct Hx as [_ Htyped]. pose proof Hl1 as (Hs1 & _).
  destruct (nonempty_typed c1 key es Hx1 Hne) as [Hlive Ht1]; [by rewrite Hs1|].
  rewrite <- Hs1, Hlive. cbn [negb]. unfold index_of in Ei. destruct (_ || _); [done|].
  eapply finishes_or_panic; [exact Ei|].
  eapply finishes_bind; [by apply steps_begin_read|]. cbn [st_ctx st_w st_held]. intros c2 Hh2 Hl2.
  pose proof Hl2 as (Hs2 & Hc2 & _). rewrite <- Hs2 in Hx1, Hlive, Ht1.
  set (i := Z.to_nat (norm_index (len es) index)) in *.
  set (e' := mkElement (el_Id e) (Raw value)).
  assert (Hids : el_Id <$> <[i := e']> es = el_Id <$> es) by by apply ids_insert_same with e.
  pose proof (holds_live_NoDup _ _ _ Hx1) as Hnd.
  eapply finishes_bind; [apply (steps_ordered key PLACE_SELF [] (el_Id e) (Raw value) es (<[i := e']> es) (mkSt c2 _ _)); [done..| |]|].
  - unfold ordered_insert. cbn [el_Id]. rewrite (find_id_Some es i e Hnd Ei). by rewrite bool_decide_eq_true_2.
  - by rewrite Hids.
  - cbn [st_ctx st_w st_held]. intros c3 Hh3 (Hx3 & Ht3 & Hf3). apply finishes_write; [done|done|].
    assert (Hfr : frame (st_ctx st) key c3).
    { eapply frame_trans; [|exact Hf3]. apply later_frame. by eapply later_trans. }
    split; [|done]. split; [|auto]. exists (<[i := e']> es). split_and!; [done| |].
    + apply (fresh_later c1); [cbn [st_ctx]; destruct Hf3; lia|]. by apply (fresh_same_ids c1 es).
    + rewrite list_fmap_insert. unfold el_bytes at 1. cbn [el_Value e']. rewrite law_raw, Hb1.
      unfold i. by rewrite Hlen.
Qed.

Lemma lset_refused key index value st l : healthy (st_ctx st) → is_list (st_ctx st) key l →
  index_of l index = None →
  finishes (lset_runner key index value) st
    ((if is_live (view (st_ctx st) key) then WriteOutOfRange else WriteError (str "ERR no such key")) (st_w st))
    (later (st_ctx st)).
Proof.
  intros Hh Hx Hi. unfold lset_runner. eapply finishes_list; [done|exact Hx|].
  intros s es c1 Hh1 Hl1 Hx1 Hf1 Hb1 Hw He Ho. cbv beta. rewrite Hw, He, Ho.
  rewrite <- Hb1, index_of_fmap in Hi.
  destruct (is_live _); cbn [negb]; [|by apply finishes_reply].
  destruct (_ || _) eqn:E; [by apply finishes_reply|].
  destruct (index_of_lookup es index E) as (e & _ & Hie). by rewrite Hie in Hi.
Qed.

(** [x] next to the first occurrence of [pivot]. *)
Fixpoint insert_near (before : bool) (pivot x : bytes) (l : list bytes) : option (list bytes) :=
  match l with
  | [] => None
  | y :: l' =>
    if decide (y = pivot) then Some (if before then x :: y :: l' else y :: x :: l')
    else cons y <$> insert_near before pivot x l'
  end.

Lemma insert_near_spec before pivot x es : 
  match insert_near before pivot x (el_bytes <$> es) with
  | Some l' => ∃ i e, es !! i = Some e ∧ pivot_id pivot es = el_Id e ∧
      let k := if before then i else S i in
      l' = take k (el_bytes <$> es) ++ x :: drop k (el_bytes <$> es)
  | None => pivot_id pivot es = []
  end.
Proof.
  induction es as [|e es IH]; [done|]. cbn. unfold beq at 1. unfold beq at 1. case_bool_decide as E.
  - rewrite decide_True by done. exists 0%nat, e. split_and!; [done|done|]. by destruct before.
  - rewrite decide_False by done. destruct (insert_near before pivot x (el_bytes <$> es)) as [l'|]; cbn.
    + destruct IH as (i & e' & Hi & Hp & ->). exists (S i), e'. split_and!; [done|done|]. by destruct before.
    + done.
Qed.
(** An element inserted in the middle. *)
Lemma ids_insert_at (es : list Element) k e : el_Id e ∉ el_Id <$> es → NoDup (el_Id <$> es) →
  NoDup (el_Id <$> take k es ++ e :: drop k es).
Proof.
  intros Hid Hnd. assert (Hp : el_Id <$> take k es ++ e :: drop k es ≡ₚ el_Id e :: (el_Id <$> es)).
  { rewrite <- (take_drop k es) at 3. rewrite !fmap_app, fmap_cons. by rewrite Permutation_middle. }
  rewrite Hp. by constructor.
Qed.

Lemma fresh_insert_at c (es : list Element) k e : fresh c es → fresh c [e] → fresh c (take k es ++ e :: drop k es).
Proof.
  intros Hf He x Hx. assert (x = e ∨ x ∈ es) as [->|?]; [|apply He; set_solver|by apply Hf].
  rewrite <- (take_drop k es). set_solver.
Qed.

Lemma pivot_id_ne c pivot es e : fresh c es → e ∈ es → pivot_id pivot es = el_Id e → pivot_id pivot es ≠ [].
Proof. intros Hf He ->. by apply Hf. Qed.

Lemma linsert_spec key before pivot x st l : healthy (st_ctx st) → is_list (st_ctx st) key l →
  room (st_ctx st) ≠ 0%nat →
  finishes (linsert_runner key before pivot x) st
    ((if negb (is_live (view (st_ctx st) key)) then WriteZero
      else match insert_near before pivot x l with
           | Some l' => WriteInteger (len l') | None => WriteInteger (-1) end) (st_w st))
    (only_list (st_ctx st) key (match insert_near before pivot x l with Some l' => l' | None => l end)).
Proof.
  intros Hh Hx Hr. unfold linsert_runner. eapply finishes_list; [done|exact Hx|].
  intros s es c1 Hh1 Hl1 Hx1 Hf1 Hb1 Hw He Ho. cbv beta. rewrite Hw, He, Ho.
  pose proof Hl1 as (Hs1 & Hc1 & Hr1).
  destruct (is_live (view (st_ctx st) key)) eqn:El; cbn [negb].
  2:{ rewrite <- Hs1 in El. rewrite (holds_dead _ _ Hx1 El) in Hb1. subst l.
      apply finishes_reply; [done|done|]. by apply only_list_same. }
  pose proof (insert_near_spec before pivot x es) as Hn. rewrite Hb1 in Hn.
  destruct (insert_near before pivot x l) as [l'|] eqn:En.
  2:{ rewrite Hn. apply finishes_reply; [done|done|]. by apply only_list_same. }
  destruct Hn as (i & e & Hi & Hp & Hl'). set (k := if before then i else S i) in *. cbv zeta in Hl'.
  assert (Hpne : beq (pivot_id pivot es) [] = false).
  { unfold beq. apply bool_decide_eq_false_2. eapply pivot_id_ne; [done| |done]. by eapply list_elem_of_lookup_2. }
  rewrite Hpne. destruct Hx as [_ Htyped]. pose proof (holds_live_NoDup _ _ _ Hx1) as Hnd.
  eapply finishes_bind; [by apply steps_begin_read|]. cbn [st_ctx st_w st_held]. intros c2 Hh2 (Hs2 & Hc2 & Hr2).
  destruct (steps_new_id (mkSt c2 (st_w st) (st_held st)) es Hh2) as (id & Hid & Hsid); cbn [st_ctx] in *; [lia|by eapply fresh_later|].
  set (e' := mkElement id (Raw x)).
  eapply (finishes_bind _ _ _ tt (λ c', holds (view c' key) (take k es ++ e' :: drop k es) ∧
     list_typed (view c' key) ∧ fresh c' (take k es ++ e' :: drop k es) ∧ frame c2 key c')).
  { unfold emitListInsertAt. eapply steps_bind; [exact Hsid|]. cbn [st_ctx st_w st_held].
    intros c3 Hh3 (Hf3 & Hs3 & Hc3 & _).
    assert (Hv3 : view c3 key = view (st_ctx st) key) by by rewrite Hs3, Hs2, Hs1.
    eapply steps_weaken; [apply (steps_ordered key _ _ id (Raw x) es (take k es ++ e' :: drop k es) (mkSt c3 _ _)); cbn [st_ctx]|].
    - done.
    - by rewrite Hv3, <- Hs1.
    - by rewrite Hv3.
    - rewrite Hv3. auto.
    - unfold ordered_insert. cbn [el_Id]. rewrite find_id_None by done.
      rewrite Hp, (find_id_Some es i e Hnd Hi). by destruct before.
    - by apply ids_insert_at.
    - cbn [st_ctx]. intros c4 (Hx4 & Ht4 & Hf4). split_and!; [done|done| |].
      + apply fresh_insert_at; [|apply (fresh_later c3); [apply Hf4|apply Hf3]].
        eapply fresh_later; [|exact Hf1]. destruct Hf4. lia.
      + eapply frame_trans; [|exact Hf4]. split; [auto|done]. }
  cbv beta. intros c5 Hh5 (Hx5 & Ht5 & Hf5 & Hfr5). apply finishes_write; [done| |].
  - f_equal. subst l'. rewrite <- Hb1. unfold len. rewrite length_app. cbn.
    rewrite length_take, length_drop, length_fmap. lia.
  - split.
    + split; [|auto]. exists (take k es ++ e' :: drop k es). split_and!; [done|done|].
      subst l'. rewrite <- Hb1, fmap_app, fmap_cons, fmap_take, fmap_drop.
      unfold el_bytes at 2. cbn [el_Value e']. by rewrite law_raw.
    + eapply frame_trans; [|exact Hfr5]. split; [|lia]. intros k' _. by rewrite Hs2, Hs1.
Qed.

(** ** LREM *)

(** The list without the first [n] occurrences of [x]. *)
Fixpoint remove_first (n : nat) (x : bytes) (l : list bytes) : list bytes :=
  match n, l with
  | S n', y :: l' => if decide (y = x) then remove_first n' x l' else y :: remove_first n x l'
  | _, _ => l
  end.

Definition lrem_ref (count : Z) (x : bytes) (l : list bytes) : list bytes :=
  if 0 <? count then remove_first (Z.to_nat count) x l
  else if count <? 0 then rev (remove_first (Z.to_nat (- count)) x (rev l))
  else filter (λ y, y ≠ x) l.

Lemma picks_collect x limit n es : n < limit →
  ∃ rest, picks es (collect_matches x limit n es) rest ∧
    el_bytes <$> rest = remove_first (Z.to_nat (limit - n)) x (el_bytes <$> es).
Proof.
  revert n. induction es as [|e es IH]; intros n Hn.
  { exists []. split; [constructor|]. by destruct (Z.to_nat _). }
  cbn [collect_matches]. rewrite fmap_cons.
  replace (Z.to_nat (limit - n)) with (S (Z.to_nat (limit - (n + 1)))) by lia. cbn [remove_first].
  unfold beq. destruct (decide (el_bytes e = x)) as [E|E].
  - rewrite bool_decide_eq_true_2 by done. destruct (limit <=? n + 1) eqn:El; reflect_bools.
    + exists es. split; [apply picks_in, picks_none|].
      replace (Z.to_nat (limit - (n + 1))) with 0%nat by lia. by destruct (el_bytes <$> es).
    + destruct (IH (n + 1)) as (rest & Hp & Hr); [lia|]. exists rest. auto with go.
  - rewrite bool_decide_eq_false_2 by done. destruct (IH n Hn) as (rest & Hp & Hr).
    exists (e :: rest). split; [by constructor|]. rewrite fmap_cons, Hr.
    by replace (Z.to_nat (limit - n)) with (S (Z.to_nat (limit - (n + 1)))) by lia.
Qed.

Lemma picks_matches count x es : is_i64 count → count ≠ MinInt64 →
  ∃ rm rest, picks es rm rest ∧ lrem_matches count x es ≡ₚ rm ∧
    el_bytes <$> rest = lrem_ref count x (el_bytes <$> es).
Proof.
  intros Hc Hm. unfold lrem_matches, lrem_ref. destruct (0 <? count) eqn:E1; reflect_bools.
  { destruct (picks_collect x count 0 es) as (rest & Hp & Hr); [lia|].
    rewrite Z.sub_0_r in Hr. eauto. }
  destruct (count <? 0) eqn:E2; reflect_bools.
  - rewrite i64_id by zlia.
    destruct (picks_collect x (- count) 0 (rev es)) as (rest & Hp & Hr); [lia|].
    apply picks_rev in Hp. rewrite rev_involutive in Hp. eexists _, _. split_and!; [exact Hp|apply Permutation_rev|].
    by rewrite fmap_rev, Hr, Z.sub_0_r, fmap_rev.
  - exists (filter (λ e, beq (el_bytes e) x = true) es), (filter (λ e, el_bytes e ≠ x) es).
    split_and!; [|done|].
    + clear. induction es as [|e es IH]; [constructor|]. rewrite !filter_cons.
      destruct (decide (el_bytes e = x)) as [E|E].
      * rewrite decide_True by by apply bool_decide_eq_true_2. rewrite decide_False by auto. by constructor.
      * rewrite decide_False by (unfold beq; by rewrite bool_decide_eq_true). rewrite decide_True by done. by constructor.
    + clear. induction es as [|e es IH]; [done|]. rewrite fmap_cons, !filter_cons.
      case_decide; [|done]. rewrite fmap_cons. by f_equal.
Qed.

Lemma lrem_spec key count x st l : healthy (st_ctx st) → is_list (st_ctx st) key l →
  is_i64 count → count ≠ MinInt64 →
  finishes (lrem_runner key count x) st (WriteInteger (len l - len (lrem_ref count x l)) (st_w st))
    (only_list (st_ctx st) key (lrem_ref count x l)).
Proof.
  intros Hh Hx Hc Hm. unfold lrem_runner. eapply finishes_list; [done|exact Hx|].
  intros s es c1 Hh1 Hl1 Hx1 Hf1 Hb1 Hw He Ho. cbv beta. rewrite Hw, He, Ho.
  destruct (picks_matches count x es Hc Hm) as (rm & rest & Hp & Hperm & Hr). rewrite Hb1 in Hr.
  pose proof Hl1 as (Hs1 & _).
  assert (Hlen : len l - len (lrem_ref count x l) = len (lrem_matches count x es)).
  { rewrite <- Hr. apply Permutation_length in Hperm. apply picks_length in Hp.
    unfold len. rewrite <- Hb1, !length_fmap. lia. }
  rewrite Hlen. destruct (len (lrem_matches count x es) =? 0) eqn:E; reflect_bools.
  - assert (rm = []) as ->.
    { apply Permutation_nil_r. rewrite <- Hperm. unfold len in E. destruct (lrem_matches count x es); [done|]. cbn in E. lia. }
    apply picks_nil_all in Hp. subst rest. rewrite E. replace (lrem_ref count x l) with l by by rewrite <- Hr.
    destruct (negb _); (apply finishes_reply; [done|done|]); by apply only_list_same.
  - assert (Hne : es ≠ []) by (intros ->; inversion Hp; subst; by apply Permutation_nil_r in Hperm; rewrite Hperm in E).
    destruct Hx as [_ Htyped].
    destruct (nonempty_typed c1 key es Hx1 Hne) as [Hlive Ht1]; [by rewrite Hs1|].
    rewrite <- Hs1, Hlive. cbn [negb].
    eapply finishes_bind; [by apply (steps_remove_elements key es rm rest _ _ (mkSt c1 _ _))|].
    cbn [st_ctx st_w st_held]. rewrite Hr. intros c2 Hh2 Ho2. apply finishes_write; [done|done|].
    by eapply only_list_later.
Qed.
End ListCommands.

(** * LPOS, LMPOP, LMOVE and the list commands over several keys *)


(** ** LPOS *)

(** MAXLEN limits the comparisons. *)
Definition limited {A} (maxlen : Z) (l : list A) : list A :=
  if 0 <? maxlen then take (Z.to_nat maxlen) l else l.

(** The positions of [x] met in the direction of the search, past the first
    ones RANK skips, as many as COUNT asks for: all for 0, one without COUNT. *)
Definition lpos_ref (x : bytes) (o : PosOpts) (l : list bytes) : list Z :=
  let visited := limited (po_maxlen o) (if 0 <? po_rank o then indexed l else rev (indexed l)) in
  let hits := drop (Z.to_nat (Z.abs (po_rank o) - 1)) (fst <$> filter (λ p, p.2 = x) visited) in
  if po_count o <? 0 then take 1 hits
  else if po_count o =? 0 then hits else take (Z.to_nat (po_count o)) hits.

Section Moves.
Context `{ClockLaws}.

Lemma scan_pos_spec x maxlen needed cmp skip nm (idx : list (Z * Element)) :
  0 <= cmp → 0 <= skip → nm < needed →
  scan_pos x maxlen needed cmp skip nm idx =
  take (Z.to_nat (needed - nm)) (drop (Z.to_nat skip)
    (fst <$> filter (λ p, el_bytes p.2 = x)
       (if 0 <? maxlen then take (Z.to_nat (maxlen - cmp)) idx else idx))).
Proof.
  revert cmp skip nm. induction idx as [|[i e] idx IH]; intros cmp skip nm Hc Hs Hn; cbn [scan_pos].
  { replace (if 0 <? maxlen then _ else _) with (@nil (Z * Element)) by (by destruct (0 <? maxlen); rewrite ?take_nil).
    cbn. by rewrite drop_nil, take_nil. }
  destruct ((0 <? maxlen) && (maxlen <=? cmp)) eqn:Em; reflect_bools.
  { destruct (0 <? maxlen) eqn:E0; reflect_bools; [|lia].
    replace (Z.to_nat (maxlen - cmp)) with 0%nat by lia. cbn. by rewrite drop_nil, take_nil. }
  assert (Hv : (if 0 <? maxlen then take (Z.to_nat (maxlen - cmp)) ((i, e) :: idx) else (i, e) :: idx) =
               (i, e) :: (if 0 <? maxlen then take (Z.to_nat (maxlen - (cmp + 1))) idx else idx)).
  { destruct (0 <? maxlen) eqn:E0; [|done]. cbn in Em. reflect_bools.
    by replace (Z.to_nat (maxlen - cmp)) with (S (Z.to_nat (maxlen - (cmp + 1)))) by lia. }
  rewrite Hv, filter_cons. cbn [snd]. unfold beq. destruct (decide (el_bytes e = x)) as [E|E].
  - rewrite bool_decide_eq_true_2 by done. rewrite fmap_cons. cbn [fst].
    destruct (0 <? skip) eqn:Es; reflect_bools.
    + rewrite IH by lia. by replace (Z.to_nat skip) with (S (Z.to_nat (skip - 1))) by lia.
    + replace (Z.to_nat skip) with 0%nat by lia. rewrite drop_0.
      replace (Z.to_nat (needed - nm)) with (S (Z.to_nat (needed - (nm + 1)))) by lia. cbn [take].
      destruct (needed <=? nm + 1) eqn:Ed; reflect_bools.
      * by replace (Z.to_nat (needed - (nm + 1))) with 0%nat by lia.
      * rewrite IH by lia. by replace (Z.to_nat skip) with 0%nat by lia.
  - rewrite bool_decide_eq_false_2 by done. by apply IH; lia.
Qed.

Lemma indexed_fmap {A B} (f : A → B) (l : list A) : indexed (f <$> l) = (λ p, (p.1, f p.2)) <$> indexed l.
Proof.
  unfold indexed. apply list_eq. intros i. rewrite list_lookup_fmap, !list_lookup_imap, list_lookup_fmap.
  by destruct (l !! i).
Qed.

Lemma length_indexed {A} (l : list A) : length (indexed l) = length l.
Proof. apply length_imap. Qed.

Lemma hits_fmap x (idx : list (Z * Element)) :
  fst <$> filter (λ p, p.2 = x) ((λ p, (p.1, el_bytes p.2)) <$> idx) =
  fst <$> filter (λ p, el_bytes p.2 = x) idx.
Proof.
  induction idx as [|[i e] idx IH]; [done|]. rewrite fmap_cons, !filter_cons. cbn [fst snd].
  case_decide; cbn; by rewrite IH.
Qed.

Lemma lpos_matches_spec x o es : es ≠ [] → po_rank o ≠ 0 →
  lpos_matches x o es = lpos_ref x o (el_bytes <$> es).
Proof.
  intros Hne Hr. unfold lpos_matches, lpos_ref.
  assert (Hlen : 0 < len es) by (destruct es; [done|]; unfold len; cbn; lia).
  set (dir := if 0 <? po_rank o then indexed es else rev (indexed es)).
  assert (Hd : (if 0 <? po_rank o then indexed (el_bytes <$> es) else rev (indexed (el_bytes <$> es))) =
               (λ p, (p.1, el_bytes p.2)) <$> dir).
  { unfold dir. rewrite indexed_fmap. destruct (0 <? po_rank o); [done|]. by rewrite fmap_rev. }
  assert (Hskip : (if 0 <? po_rank o then po_rank o - 1 else - po_rank o - 1) = Z.abs (po_rank o) - 1).
  { destruct (0 <? po_rank o) eqn:E; reflect_bools; lia. }
  rewrite Hskip, Hd.
  assert (Hlim : limited (po_maxlen o) ((λ p, (p.1, el_bytes p.2)) <$> dir) =
                 (λ p, (p.1, el_bytes p.2)) <$> limited (po_maxlen o) dir).
  { unfold limited. destruct (0 <? po_maxlen o); [|done]. by rewrite fmap_take. }
  rewrite Hlim, hits_fmap. set (needed := if po_count o <? 0 then 1 else _).
  assert (Hneed : 0 < needed) by (unfold needed; repeat split_if; lia).
  rewrite scan_pos_spec by lia. rewrite !Z.sub_0_r. fold (limited (po_maxlen o) dir).
  unfold needed. destruct (po_count o <? 0); [done|]. destruct (po_count o =? 0); [|done].
  apply take_ge. rewrite length_drop, length_fmap.
  assert (length (filter (λ p, el_bytes p.2 = x) (limited (po_maxlen o) dir)) <= length es)%nat; [|unfold len; lia].
  etrans; [apply length_filter|]. unfold limited, dir.
  assert (Hdl : length dir = length es) by (unfold dir; destruct (0 <? po_rank o); rewrite ?length_rev; apply length_indexed).
  destruct (0 <? po_maxlen o); [rewrite length_take|]; unfold dir in Hdl; lia.
Qed.

Definition lpos_reply (o : PosOpts) (ps : list Z) (w : Writer) : Writer :=
  if 0 <=? po_count o then foldl (λ w p, WriteInteger p w) (WriteArray (len ps) w) ps
  else match ps with [] => WriteNullBulkString w | p :: _ => WriteInteger p w end.

Lemma lpos_spec key x o st l : healthy (st_ctx st) → is_list (st_ctx st) key l → po_rank o ≠ 0 →
  finishes (lpos_runner key x o) st (lpos_reply o (lpos_ref x o l) (st_w st)) (later (st_ctx st)).
Proof.
  intros Hh Hx Hr. unfold lpos_runner. eapply finishes_list; [done|exact Hx|].
  intros s es c1 Hh1 Hl1 Hx1 Hf1 Hb1 Hw He Ho. cbv beta. rewrite Hw, He, Ho.
  destruct (decide (es = [])) as [->|Hne].
  { subst l. assert (Hnil : lpos_ref x o (el_bytes <$> []) = []).
    { unfold lpos_ref, limited. cbn. destruct (0 <? po_rank o), (0 <? po_maxlen o); rewrite ?take_nil; cbn;
        rewrite ?drop_nil, ?take_nil; by destruct (po_count o <? 0), (po_count o =? 0). }
    rewrite Hnil. assert (Hrep : lpos_reply o [] (st_w st) = no_pos o (st_w st)).
    { unfold lpos_reply, no_pos. by destruct (0 <=? po_count o). }
    rewrite Hrep. destruct (is_live _); by apply finishes_reply. }
  destruct Hx as [_ Htyped]. pose proof Hl1 as (Hs1 & _).
  destruct (nonempty_typed c1 key es Hx1 Hne) as [Hlive _]; [by rewrite Hs1|].
  rewrite <- Hs1, Hlive, (len_nonempty es Hne). cbn [negb].
  rewrite (lpos_matches_spec x o es Hne Hr), Hb1. unfold lpos_reply. destruct (0 <=? po_count o).
  - apply finishes_write_bind. by apply (finishes_for_each_write (λ p, WriteInteger p) _ (mkSt _ _ _)).
  - destruct (lpos_ref x o l); by apply finishes_write.
Qed.
(** ** Several keys *)

Lemma is_list_nil_elems c key es : holds (view c key) es → el_bytes <$> es = [] → es = [].
Proof. by destruct es. Qed.

Lemma steps_check_types keys st : healthy (st_ctx st) →
  Forall (λ k, ∃ l, is_list (st_ctx st) k l) keys →
  steps (check_list_types keys) st tt (later (st_ctx st)).
Proof.
  revert st. induction keys as [|key keys IH]; intros st Hh Hk.
  { apply steps_ret; [done|]. by split_and!. }
  apply Forall_cons in Hk as [[l Hl] Hk]. cbn [check_list_types].
  destruct Hl as [(es & Hs & Hfr & Hb) Ht]. destruct (steps_get_later key st Hh) as [tips (c' & E & Hh' & Hl')].
  destruct (classify_list_is _ key es tips Hs Ht) as (Hw & _ & _).
  assert (Hk' : Forall (λ k, ∃ l, is_list c' k l) keys).
  { eapply Forall_impl; [exact Hk|]. intros k [l' ?]. exists l'. by eapply later_is_list. }
  destruct (IH (mkSt c' (st_w st) (st_held st)) Hh' Hk') as (c2 & E2 & Hh2 & Hl2).
  exists c2. unfold getListSnapshot, mbind, M_bind. rewrite E. cbn [fst snd]. unfold mret, M_ret.
  rewrite Hw, andb_false_r. rewrite E2. split_and!; [done|done|]. by eapply later_trans.
Qed.

(** A key of another type among them: refused, nothing touched. *)
Lemma check_types_refused keys st : healthy (st_ctx st) →
  Forall (λ k, (∃ l, is_list (st_ctx st) k l) ∨ not_list (view (st_ctx st) k)) keys →
  Exists (λ k, not_list (view (st_ctx st) k)) keys →
  ∃ c', check_list_types keys st = (Return, mkSt c' (WriteWrongType (st_w st)) (st_held st)) ∧
    healthy c' ∧ later (st_ctx st) c'.
Proof.
  revert st. induction keys as [|key keys IH]; intros st Hh Hk Hex; [by apply Exists_nil in Hex|].
  apply Forall_cons in Hk as [Hk Hks]. cbn [check_list_types].
  destruct (steps_get_later key st Hh) as [tips (c' & E & Hh' & Hl')].
  unfold getListSnapshot, mbind, M_bind. rewrite E. cbn [fst snd]. unfold mret, M_ret.
  destruct Hk as [[l [(es & Hs & Hfr & Hb) Ht]]|Hn].
  - destruct (classify_list_is _ key es tips Hs Ht) as (Hw & _ & _). rewrite Hw, andb_false_r.
    destruct (IH (mkSt c' (st_w st) (st_held st)) Hh') as (c2 & E2 & Hh2 & Hl2).
    + eapply Forall_impl; [exact Hks|]. pose proof Hl' as (Hs' & _). cbn [st_ctx]. intros k [[l' ?]|?].
      * left. exists l'. by eapply later_is_list.
      * right. by rewrite Hs'.
    + pose proof Hl' as (Hs' & _). apply Exists_cons in Hex as [Hn|Hex].
      * exfalso. unfold holds in Hs. destruct (view (st_ctx st) key) as [r|]; [|done].
        destruct Hn as (Hop & Ho & _). cbn in Hs, Ht. rewrite Hop in Hs, Ht. cbn in Hs, Ht.
        destruct Hs as (Hc & _). destruct (Ht eq_refl) as [_ ?]. by apply Ho.
      * eapply Exists_impl; [exact Hex|]. cbn [st_ctx]. intros k. by rewrite Hs'.
    + exists c2. rewrite E2. split_and!; [done|done|]. by eapply later_trans.
  - destruct (classify_list_other _ tips Hn) as [He Hw]. rewrite He, Hw. cbn.
    exists c'. by split_and!.
Qed.

Definition mpop_reply (key : bytes) (fromLeft : bool) (count : Z) (l : list bytes) (w : Writer) : Writer :=
  bulks (popped fromLeft (Z.to_nat count) l)
    (WriteArray (Z.min count (len l)) (WriteBulkStringStr key (WriteArray 2 w))).

(** Popping passes over the keys that hold nothing. *)
Lemma pop_first_spec fromLeft count pre key post st l : healthy (st_ctx st) →
  Forall (λ k, is_list (st_ctx st) k []) pre → is_list (st_ctx st) key l → l ≠ [] →
  finishes (pop_first fromLeft count (pre ++ key :: post)) st
    (mpop_reply key fromLeft count l (st_w st))
    (only_list (st_ctx st) key (remaining fromLeft (Z.to_nat count) l)).
Proof.
  revert st. induction pre as [|k pre IH]; intros st Hh Hpre Hx Hne.
  - cbn [app pop_first]. eapply finishes_list; [done|exact Hx|].
    intros s es c1 Hh1 Hl1 Hx1 Hf1 Hb1 Hw He Ho. cbv beta. rewrite He, Ho.
    assert (Hlen : len es = len l) by (unfold len; by rewrite <- Hb1, length_fmap).
    assert (Hee : es ≠ []) by (intros ->; by rewrite <- Hb1 in Hne).
    destruct Hx as [_ Htyped]. pose proof Hl1 as (Hs1 & _).
    destruct (nonempty_typed c1 key es Hx1 Hee) as [Hlive Ht1]; [by rewrite Hs1|].
    rewrite <- Hs1, Hlive, (len_nonempty es Hee). cbn [negb orb].
    destruct (picks_from_end fromLeft (Z.to_nat count) es) as (rm & rest & Hp & Hperm & Hrest).
    rewrite (take_clip _ _ es) by apply length_from_end. rewrite Hb1 in Hrest.
    eapply finishes_bind; [by apply (steps_remove_elements key es rm rest)|].
    cbn [st_ctx st_w st_held]. rewrite Hrest. intros c2 Hh2 Ho2. do 3 apply finishes_write_bind.
    unfold mpop_reply. rewrite <- Hb1 at 1. rewrite <- popped_from_end, <- Hlen.
    apply (finishes_bulks _ (mkSt _ _ _)); [done|]. by eapply only_list_later.
  - apply Forall_cons in Hpre as [Hk Hpre]. cbn [app pop_first]. eapply finishes_list; [done|exact Hk|].
    intros s es c1 Hh1 Hl1 Hx1 Hf1 Hb1 Hw He Ho. cbv beta. rewrite Ho.
    rewrite (is_list_nil_elems _ _ _ Hx1 Hb1), orb_true_r.
    destruct (IH (mkSt c1 (st_w st) (st_held st)) Hh1) as (o & c2 & E & Ho2 & Hh2 & HQ); [|by eapply later_is_list|done|].
    + eapply Forall_impl; [exact Hpre|]. intros k'. by apply later_is_list.
    + exists o, c2. split_and!; [done..|]. by eapply only_list_later.
Qed.

Lemma pop_first_none fromLeft count keys st : healthy (st_ctx st) →
  Forall (λ k, is_list (st_ctx st) k []) keys →
  finishes (pop_first fromLeft count keys) st (WriteNullArray (st_w st)) (later (st_ctx st)).
Proof.
  revert st. induction keys as [|k keys IH]; intros st Hh Hk.
  { apply finishes_write; [done|done|]. by split_and!. }
  apply Forall_cons in Hk as [Hk Hks]. cbn [pop_first]. eapply finishes_list; [done|exact Hk|].
  intros s es c1 Hh1 Hl1 Hx1 Hf1 Hb1 Hw He Ho. cbv beta. rewrite Ho.
  rewrite (is_list_nil_elems _ _ _ Hx1 Hb1), orb_true_r.
  destruct (IH (mkSt c1 (st_w st) (st_held st)) Hh1) as (o & c2 & E & Ho2 & Hh2 & HQ).
  + eapply Forall_impl; [exact Hks|]. intros k'. by apply later_is_list.
  + exists o, c2. split_and!; [done..|]. by eapply later_trans.
Qed.

(** ** LMOVE *)

Definition end_of (left : bool) : Placement := if left then PLACE_HEAD else PLACE_TAIL.

(** The two lists after the move of [x]; one list when the keys are the same.  The
    destination is tagged as a list when it was, or was a key never written; a
    move writes no tag itself. *)
Definition moved_list (c : Ctx) (src dst : bytes) (popLeft pushLeft : bool) (x : bytes) (l m : list bytes)
    (c' : Ctx) : Prop :=
  raw_list c' dst (push (end_of pushLeft) x (if decide (src = dst) then remaining popLeft 1 l else m)) ∧
  is_live (view c' dst) = true ∧ (list_typed (view c dst) → list_typed (view c' dst)) ∧
  (src ≠ dst → is_list c' src (remaining popLeft 1 l)) ∧
  (∀ k, k ≠ src → k ≠ dst → view c' k = view c k) ∧ clock c <= clock c'.

Lemma later_typed c c' key : later c c' → list_typed (view c key) → list_typed (view c' key).
Proof. intros (Hs & _). by rewrite Hs. Qed.

(** The destination as the move finds it. *)
Lemma steps_dst_check src dst m st : healthy (st_ctx st) → is_list (st_ctx st) dst m →
  ∃ tips, steps (if beq src dst then mret (false, []) else d ← getListSnapshot dst; mret (ks_wrongType d, ks_tips d))
    st (false, tips) (later (st_ctx st)).
Proof.
  intros Hh Hm. unfold beq. case_bool_decide.
  { exists []. apply steps_ret; [done|]. by split_and!. }
  destruct Hm as [(es & Hs & Hfr & Hb) Ht]. destruct (steps_get_later dst st Hh) as [tips (c' & E & Hh' & Hl')].
  destruct (classify_list_is _ dst es tips Hs Ht) as (Hw & _ & _).
  exists (ks_tips (classify_list (view (st_ctx st) dst) tips)), c'.
  unfold getListSnapshot, mbind, M_bind. rewrite E. cbn [fst snd]. unfold mret, M_ret. by rewrite Hw.
Qed.

Lemma steps_dst_noop (b : bool) dst tips st : healthy (st_ctx st) →
  steps (if b then emit (mkEffect dst Effect_Noop) tips else mret tt) st tt (later (st_ctx st)).
Proof.
  intros Hh. destruct b; [|apply steps_ret; [done|by split_and!]].
  eapply steps_weaken; [by apply (steps_effect dst _ (view (st_ctx st) dst))|]. cbv beta.
  intros c' (Hv & [Hf ?] & ?). split_and!; [|done|done]. intros k.
  destruct (decide (k = dst)) as [->|]; auto.
Qed.

Lemma doLMove_spec src dst popLeft pushLeft st l m x : healthy (st_ctx st) →
  is_list (st_ctx st) src l → is_list (st_ctx st) dst m →
  room (st_ctx st) ≠ 0%nat → popped popLeft 1 l = [x] →
  steps (doLMove src dst popLeft pushLeft) st (Moved x)
    (moved_list (st_ctx st) src dst popLeft pushLeft x l m).
Proof.
  intros Hh Hx Hm Hr Hpop. unfold doLMove.
  pose proof Hx as [(es & Hs & Hfr & Hb) Ht]. destruct (steps_get_later src st Hh) as [tips (c1 & E & Hh1 & Hl1)].
  destruct (classify_list_is _ src es tips Hs Ht) as (Hw & He & Ho).
  eapply (steps_bind _ _ _ (classify_list (view (st_ctx st) src) tips) (later (st_ctx st))).
  { exists c1. unfold getListSnapshot, mbind, M_bind. by rewrite E. }
  clear c1 E Hh1 Hl1. cbn [st_ctx st_w st_held]. intros c1 Hh1 Hl1.
  rewrite <- Hb, <- popped_from_end in Hpop.
  destruct (from_end popLeft es) as [|e es'] eqn:Ee; [done|]. injection Hpop as Hx'.
  assert (Hne : es ≠ []) by (intros ->; by destruct popLeft).
  destruct (nonempty_typed _ src es Hs Hne Ht) as [Hlive Htyped].
  rewrite He, Hw, Ho, Ee, Hlive. cbn [negb].
  destruct (steps_dst_check src dst m (mkSt c1 (st_w st) (st_held st)) Hh1) as [dt Hdt]; [by eapply later_is_list|].
  eapply steps_bind; [exact Hdt|]. cbn [st_ctx st_w st_held]. intros c2 Hh2 Hl2.
  eapply steps_bind; [by apply steps_begin_read|]. cbn [st_ctx st_w st_held]. intros c3 Hh3 Hl3.
  eapply steps_bind; [by apply steps_dst_noop|]. cbn [st_ctx st_w st_held]. intros c4 Hh4 Hl4.
  assert (Hl : later (st_ctx st) c4) by eauto using later_trans. clear Hl1 Hl2 Hl3 Hl4.
  pose proof Hl as (Hs4 & Hc4 & Hr4).
  destruct (picks_from_end popLeft 1 es) as (rm & rest & Hp & Hperm & Hrest).
  rewrite Ee in Hperm. cbn in Hperm. rewrite Hb in Hrest.
  destruct (steps_remove_picked src es rm rest [e] (mkSt c4 (st_w st) (st_held st))) as (c5 & E5 & Hh5 & Ho5 & Hx5 & Ht5 & Hr5);
    cbn [st_ctx] in *; [done|by rewrite Hs4|by eapply fresh_later|by rewrite Hs4|done|done|].
  eapply (steps_bind _ _ _ tt (λ c, c = c5)).
  { exists c5. cbn [for_each] in E5. unfold mbind, M_bind in E5. cbn [st_ctx st_w st_held] in *.
    by destruct (emitListRemove _ _ _) as [[[]| | |] s5]. }
  cbn [st_ctx st_w st_held]. intros c ? ->. rewrite Hrest in Ho5. destruct Ho5 as [Hi5 [Hf5 Hc5]].
  rewrite Hx'. set (md := if decide (src = dst) then remaining popLeft 1 l else m).
  assert (Hd5 : raw_list c5 dst md ∧ (list_typed (view (st_ctx st) dst) → list_typed (view c5 dst))).
  { unfold md. destruct (decide (src = dst)) as [<-|Hd]; [split; [apply Hi5|done]|].
    rewrite Hf5 by congruence. split; [|by rewrite Hs4].
    destruct Hm as [(es2 & Hs2 & Hfr2 & Hb2) _]. exists es2. rewrite Hf5, Hs4 by congruence.
    split_and!; [done| |done]. eapply fresh_later; [|done]. lia. }
  destruct Hd5 as [Hd5 Htd5].
  eapply steps_bind; [apply (steps_push dst (end_of pushLeft) x md (mkSt c5 _ _)); [done|cbn [st_ctx]; lia|done|]|].
  { destruct pushLeft; cbn; auto. }
  cbn [st_ctx st_w st_held]. intros c6 Hh6 (Hx6 & Hl6 & Ht6 & [Hf6 Hc6] & _). apply steps_ret; [done|].
  cbn [st_ctx]. split_and!; [done|done|auto|..|lia].
  - intros Hd. destruct Hi5 as [(es5 & Hs5 & Hfr5 & Hb5) Htl5]. split; [|by rewrite Hf6].
    exists es5. rewrite Hf6 by done. split_and!; [done| |done]. by eapply fresh_later.
  - intros k Hk1 Hk2. rewrite Hf6, Hf5 by done. apply Hs4.
Qed.

(** A destination of another type stops the move before it begins. *)
Lemma doLMove_refused src dst popLeft pushLeft st l x : healthy (st_ctx st) → src ≠ dst →
  is_list (st_ctx st) src l → not_list (view (st_ctx st) dst) → popped popLeft 1 l = [x] →
  steps (doLMove src dst popLeft pushLeft) st (MoveRefused wrong_type_message) (later (st_ctx st)).
Proof.
  intros Hh Hne [(es & Hs & Hfr & Hb) Ht] Hn Hpop. unfold doLMove.
  destruct (steps_get_later src st Hh) as [tips (c1 & E & Hh1 & Hl1)].
  destruct (classify_list_is _ src es tips Hs Ht) as (Hw & He & Ho).
  eapply (steps_bind _ _ _ (classify_list (view (st_ctx st) src) tips) (later (st_ctx st))).
  { exists c1. unfold getListSnapshot, mbind, M_bind. by rewrite E. }
  clear c1 E Hh1 Hl1. cbn [st_ctx st_w st_held]. intros c1 Hh1 Hl1.
  rewrite <- Hb, <- popped_from_end in Hpop.
  destruct (from_end popLeft es) as [|e es'] eqn:Ee; [done|].
  assert (Hne' : es ≠ []) by (intros ->; by destruct popLeft).
  destruct (nonempty_typed _ src es Hs Hne' Ht) as [Hlive _].
  rewrite He, Hw, Ho, Ee, Hlive. cbn [negb]. unfold beq. rewrite bool_decide_eq_false_2 by done.
  destruct (steps_get_later dst (mkSt c1 (st_w st) (st_held st)) Hh1) as [dt (c2 & E & Hh2 & Hl2)]. cbn [st_ctx] in *.
  destruct (classify_list_other (view c1 dst) dt) as [_ Hwd]; [destruct Hl1 as [Hs1 _]; by rewrite Hs1|].
  exists c2. unfold getListSnapshot, mbind, M_bind. rewrite E. cbn [fst snd]. unfold mret, M_ret. rewrite Hwd.
  split_and!; [done|done|by eapply later_trans].
Qed.
End Moves.
