(* ===== verification/ListLaws.v ===== *)
(** * The list commands, from request to effect

    Each command as its handler accepts it: what it replies and what list the
    key stands for afterwards, on lists, on missing keys and on keys of another
    type. *)

From S2P Require Import Prelude GoBytes Strconv Commands Writer Engine Runs Lists ListProps ListTheorems.

Local Open Scope Z_scope.

Section Laws.
Context `{ClockLaws}.

Lemma WriteInteger_0 w : WriteInteger 0 w = WriteZero w.
Proof. done. Qed.

Lemma later_refused key st (f : KeySnap → M unit) :
  healthy (st_ctx st) → not_list (view (st_ctx st) key) →
  (∀ s, ks_exists s = true → ks_wrongType s = true → f s = reply WriteWrongType) →
  finishes (getListSnapshot key ≫= f) st (WriteWrongType (st_w st)) (later (st_ctx st)).
Proof. intros Hh Hn Hf. by apply finishes_not_list. Qed.

(** Closes the case of a key of another type. *)
Ltac refuse := apply later_refused; [done|done|];
  let s := fresh "s" in let He := fresh in let Hw := fresh in
  intros s He Hw; cbv beta; by rewrite ?He, ?Hw.

Definition handle_push (fromLeft : bool) : list bytes → Prep := if fromLeft then handleLPush else handleRPush.
Definition handle_pushx (fromLeft : bool) : list bytes → Prep := if fromLeft then handleLPushX else handleRPushX.

(** LPUSH and RPUSH put the elements at their end of the list one after
    the other, so LPUSH reverses them, create a missing list, and answer the new
    length; LPUSHX and RPUSHX do the same to an existing list and answer 0
    otherwise; other keys are left alone and a key of another type is refused. *)
Theorem list_push_correct (fromLeft : bool) (key x : bytes) (xs : list bytes) (st : St) :
  healthy (st_ctx st) → (length (x :: xs) <= room (st_ctx st))%nat →
  ∃ runner runnerX,
    handle_push fromLeft (key :: x :: xs) = Accept [key] runner ∧
    handle_pushx fromLeft (key :: x :: xs) = Accept [key] runnerX ∧
    (∀ l, is_list (st_ctx st) key l →
       let l' := if fromLeft then rev (x :: xs) ++ l else l ++ x :: xs in
       finishes runner st (WriteInteger (len l') (st_w st)) (only_list (st_ctx st) key l') ∧
       if is_live (view (st_ctx st) key)
       then finishes runnerX st (WriteInteger (len l') (st_w st)) (only_list (st_ctx st) key l')
       else finishes runnerX st (WriteInteger 0 (st_w st)) (only_list (st_ctx st) key l)) ∧
    (not_list (view (st_ctx st) key) →
       finishes runner st (WriteWrongType (st_w st)) (later (st_ctx st)) ∧
       finishes runnerX st (WriteWrongType (st_w st)) (later (st_ctx st))).
Proof.
  intros Hh Hr. exists (push_runner (end_of fromLeft) key (x :: xs)), (pushx_runner (end_of fromLeft) key (x :: xs)).
  assert (Hp : end_of fromLeft = PLACE_HEAD ∨ end_of fromLeft = PLACE_TAIL) by (destruct fromLeft; cbn; auto).
  split_and!; [by destruct fromLeft..| |].
  - intros l Hl l'. assert (Hl' : push_all (end_of fromLeft) (x :: xs) l = l') by by destruct fromLeft.
    assert (Hlen : len l + len (x :: xs) = len l').
    { unfold l', len. destruct fromLeft; rewrite length_app, ?length_rev; lia. }
    pose proof (push_spec _ key (x :: xs) st l Hh Hl Hp ltac:(done) Hr) as H1'.
    pose proof (pushx_spec _ key (x :: xs) st l Hh Hl Hp Hr) as H2'.
    rewrite Hl', Hlen in H1', H2'. by destruct (is_live _).
  - intros Hn. split; refuse.
Qed.

Definition handle_pop_of (fromLeft : bool) : list bytes → Prep := if fromLeft then handleLPop else handleRPop.

(** LPOP and RPOP reply the elements at their end of the list, in order
    from that end, and leave the others; a missing list has nothing to pop. *)
Theorem list_pop_correct (fromLeft : bool) (key : bytes) (count : option (bytes * Z)) (st : St) :
  healthy (st_ctx st) →
  match count with Some (a, n) => ParseInt64 a = Some n ∧ 0 <= n | None => True end →
  ∃ runner,
    handle_pop_of fromLeft (key :: match count with Some (a, _) => [a] | None => [] end) = Accept [key] runner ∧
    (∀ l, is_list (st_ctx st) key l →
       finishes runner st (pop_reply fromLeft (snd <$> count) l (st_w st))
         (only_list (st_ctx st) key (remaining fromLeft (Z.to_nat (pop_count (snd <$> count))) l))) ∧
    (not_list (view (st_ctx st) key) → finishes runner st (WriteWrongType (st_w st)) (later (st_ctx st))).
Proof.
  intros Hh Hc.
  exists (pop_runner fromLeft key (pop_count (snd <$> count)) (bool_decide (is_Some (snd <$> count)))).
  split_and!.
  - destruct count as [[a n]|]; [|by destruct fromLeft]. destruct Hc as [Ha Hn].
    assert (Hlt : (n <? 0) = false) by (apply Z.ltb_ge; lia).
    destruct fromLeft; cbn; by rewrite Ha, Hlt.
  - intros l Hl. apply pop_spec; [done|done|]. destruct count as [[a n]|]; cbn; [by destruct Hc|lia].
  - intros Hn. refuse.
Qed.

(** LRANGE replies the elements between two positions, negative ones
    counted from the end and both cut to the list, and LTRIM keeps exactly
    those, whatever the two integers. *)
Theorem lrange_ltrim_correct (key a b : bytes) (start stop : Z) (st : St) :
  healthy (st_ctx st) → ParseInt64 a = Some start → ParseInt64 b = Some stop →
  ∃ range trim,
    handleLRange [key; a; b] = Accept [key] range ∧ handleLTrim [key; a; b] = Accept [key] trim ∧
    (∀ l, is_list (st_ctx st) key l →
       finishes range st (range_reply (range_of l start stop) (st_w st)) (later (st_ctx st)) ∧
       finishes trim st (WriteOK (st_w st)) (only_list (st_ctx st) key (range_of l start stop))) ∧
    (not_list (view (st_ctx st) key) →
       finishes range st (WriteWrongType (st_w st)) (later (st_ctx st)) ∧
       finishes trim st (WriteWrongType (st_w st)) (later (st_ctx st))).
Proof.
  intros Hh Ha Hb. exists (lrange_runner key start stop), (ltrim_runner key start stop).
  split_and!; [cbn; by rewrite Ha, Hb..| |].
  - intros l Hl. split; [by apply lrange_spec|by apply ltrim_spec].
  - intros Hn. split; refuse.
Qed.

(** LINDEX replies the element at an index and LSET replaces it, negative
    indices counted from the end; beyond the list the one answers null and the
    other an error. *)
Theorem lindex_lset_correct (key a value : bytes) (index : Z) (st : St) :
  healthy (st_ctx st) → ParseInt64 a = Some index →
  ∃ get set,
    handleLIndex [key; a] = Accept [key] get ∧ handleLSet [key; a; value] = Accept [key] set ∧
    (∀ l, is_list (st_ctx st) key l →
       match index_of l index with
       | Some x =>
         finishes get st (WriteBulkString x (st_w st)) (later (st_ctx st)) ∧
         finishes set st (WriteOK (st_w st))
           (only_list (st_ctx st) key (<[Z.to_nat (norm_index (len l) index) := value]> l))
       | None =>
         finishes get st (WriteNullBulkString (st_w st)) (later (st_ctx st)) ∧
         finishes set st
           ((if is_live (view (st_ctx st) key) then WriteOutOfRange else WriteError (str "ERR no such key")) (st_w st))
           (later (st_ctx st))
       end) ∧
    (not_list (view (st_ctx st) key) →
       finishes get st (WriteWrongType (st_w st)) (later (st_ctx st)) ∧
       finishes set st (WriteWrongType (st_w st)) (later (st_ctx st))).
Proof.
  intros Hh Ha. exists (lindex_runner key index), (lset_runner key index value).
  split_and!; [cbn; by rewrite Ha..| |].
  - intros l Hl. pose proof (lindex_spec key index st l Hh Hl) as Hg.
    destruct (index_of l index) as [x|] eqn:E; (split; [done|]).
    + by apply (lset_spec key index value st l x).
    + by apply (lset_refused key index value st l).
  - intros Hn. split; refuse.
Qed.

(** LREM removes the first occurrences of an element, the last ones for a
    negative count, all for zero, and answers how many went. *)
Theorem lrem_correct (key a x : bytes) (count : Z) (st : St) :
  healthy (st_ctx st) → ParseInt64 a = Some count → is_i64 count → count ≠ MinInt64 →
  ∃ runner, handleLRem [key; a; x] = Accept [key] runner ∧
    (∀ l, is_list (st_ctx st) key l →
       finishes runner st (WriteInteger (len l - len (lrem_ref count x l)) (st_w st))
         (only_list (st_ctx st) key (lrem_ref count x l))) ∧
    (not_list (view (st_ctx st) key) → finishes runner st (WriteWrongType (st_w st)) (later (st_ctx st))).
Proof.
  intros Hh Ha Hc Hm. exists (lrem_runner key count x). split_and!; [cbn; by rewrite Ha| |].
  - intros l Hl. by apply lrem_spec.
  - intros Hn. refuse.
Qed.

(** With the least 64-bit count the negation wraps, and one element is
    removed where the last [2^63] were asked for. *)
Theorem lrem_least_count_removes_one (x : bytes) (es : list Element) :
  lrem_matches MinInt64 x es = collect_matches x MinInt64 0 (rev es) ∧
  (length (lrem_matches MinInt64 x es) <= 1)%nat.
Proof.
  assert (He : lrem_matches MinInt64 x es = collect_matches x MinInt64 0 (rev es)) by done.
  split; [done|]. rewrite He. generalize (rev es). intros l.
  induction l as [|e l IH]; [cbn; lia|]. cbn [collect_matches]. change (MinInt64 <=? 0 + 1) with true; destruct (beq _ _); [cbn; lia|done].
Qed.

(** LINSERT puts an element next to the first occurrence of another one
    and answers the new length, or -1 without one. *)
Theorem linsert_correct (key position pivot x : bytes) (before : bool) (st : St) :
  healthy (st_ctx st) → room (st_ctx st) ≠ 0%nat →
  ToUpper position = (if before then str "BEFORE" else str "AFTER") →
  ∃ runner, handleLInsert [key; position; pivot; x] = Accept [key] runner ∧
    (∀ l, is_list (st_ctx st) key l →
       finishes runner st
         ((if negb (is_live (view (st_ctx st) key)) then WriteZero
           else match insert_near before pivot x l with
                | Some l' => WriteInteger (len l') | None => WriteInteger (-1) end) (st_w st))
         (only_list (st_ctx st) key (match insert_near before pivot x l with Some l' => l' | None => l end))) ∧
    (not_list (view (st_ctx st) key) → finishes runner st (WriteWrongType (st_w st)) (later (st_ctx st))).
Proof.
  intros Hh Hr Hp. exists (linsert_runner key before pivot x). split_and!.
  - cbn. rewrite Hp. by destruct before.
  - intros l Hl. by apply linsert_spec.
  - intros Hn. refuse.
Qed.

Lemma parse_lpos_rank o args o' : po_rank o ≠ 0 → parse_lpos o args = Ok o' → po_rank o' ≠ 0.
Proof.
  remember (length args) as n eqn:En. revert o args En.
  induction (lt_wf n) as [n _ IH]. intros o args -> Hr.
  destruct args as [|opt rest]; cbn [parse_lpos]; [by intros [= <-]|].
  assert (Hrec : ∀ o1 a rest', rest = a :: rest' → po_rank o1 ≠ 0 → parse_lpos o1 rest' = Ok o' → po_rank o' ≠ 0).
  { intros o1 a rest' -> Ho1. eapply IH; [|done|done]. cbn. lia. }
  destruct (beq (ToUpper opt) (str "RANK")).
  { destruct rest as [|a rest']; [done|]. destruct (ParseInt64 a) as [r|]; [|done].
    destruct (r =? 0) eqn:E; [done|]. destruct (r =? MinInt64); [done|]. reflect_bools. by eapply Hrec. }
  destruct (beq (ToUpper opt) (str "COUNT")).
  { destruct rest as [|a rest']; [done|]. destruct (ParseInt64 a) as [r|]; [|done].
    destruct (r <? 0); [done|]. by eapply Hrec. }
  destruct (beq (ToUpper opt) (str "MAXLEN")); [|done].
  destruct rest as [|a rest']; [done|]. destruct (ParseInt64 a) as [r|]; [|done].
  destruct (r <? 0); [done|]. by eapply Hrec.
Qed.

(** LPOS replies the positions of an element met in the direction RANK
    chooses, within MAXLEN comparisons, past the matches RANK skips, as many as
    COUNT asks for. *)
Theorem lpos_correct (key x : bytes) (opts : list bytes) (o : PosOpts) (st : St) :
  healthy (st_ctx st) → parse_lpos (mkPosOpts 1 (-1) 0) opts = Ok o →
  ∃ runner, handleLPos (key :: x :: opts) = Accept [key] runner ∧
    (∀ l, is_list (st_ctx st) key l →
       finishes runner st (lpos_reply o (lpos_ref x o l) (st_w st)) (later (st_ctx st))) ∧
    (not_list (view (st_ctx st) key) → finishes runner st (WriteWrongType (st_w st)) (later (st_ctx st))).
Proof.
  intros Hh Ho. exists (lpos_runner key x o). split_and!; [cbn; by rewrite Ho| |].
  - intros l Hl. apply lpos_spec; [done|done|]. by eapply parse_lpos_rank; [|exact Ho].
  - intros Hn. refuse.
Qed.

(** LMPOP pops up to COUNT elements of the first of its keys that holds
    any, replying the key and the elements; null when none does; and nothing is
    popped when one of the keys is of another type. *)
Theorem lmpop_correct (args keys : list bytes) (fromLeft : bool) (count : Z) (st : St) :
  healthy (st_ctx st) → 3 <= len args → parse_mpop 0 args = MPop keys fromLeft count →
  ∃ runner, handleLMPop args = Accept keys runner ∧
    (∀ pre key post l, keys = pre ++ key :: post →
       Forall (λ k, ∃ l, is_list (st_ctx st) k l) keys →
       Forall (λ k, is_list (st_ctx st) k []) pre → is_list (st_ctx st) key l → l ≠ [] →
       finishes runner st (mpop_reply key fromLeft count l (st_w st))
         (only_list (st_ctx st) key (remaining fromLeft (Z.to_nat count) l))) ∧
    (Forall (λ k, is_list (st_ctx st) k []) keys →
       finishes runner st (WriteNullArray (st_w st)) (later (st_ctx st))) ∧
    (Forall (λ k, (∃ l, is_list (st_ctx st) k l) ∨ not_list (view (st_ctx st) k)) keys →
     Exists (λ k, not_list (view (st_ctx st) k)) keys →
       finishes runner st (WriteWrongType (st_w st)) (later (st_ctx st))).
Proof.
  intros Hh Hlen Hp. exists (lmpop_runner keys fromLeft count).
  split_and!.
  - unfold handleLMPop. destruct (len args <? 3) eqn:E; reflect_bools; [lia|]. by rewrite Hp.
  - intros pre key post l -> Hall Hpre Hl Hne. eapply finishes_bind; [by apply steps_check_types|].
    cbn [st_ctx st_w st_held]. intros c1 Hh1 Hl1.
    destruct (pop_first_spec fromLeft count pre key post (mkSt c1 (st_w st) (st_held st)) l Hh1)
      as (o & c2 & E & Ho & Hh2 & HQ); [|by eapply later_is_list|done|].
    + eapply Forall_impl; [exact Hpre|]. intros k. by apply later_is_list.
    + exists o, c2. split_and!; [done..|]. by eapply only_list_later.
  - intros Hall. eapply finishes_bind; [apply steps_check_types; [done|]|].
    { eapply Forall_impl; [exact Hall|]. intros k Hk. by exists []. }
    cbn [st_ctx st_w st_held]. intros c1 Hh1 Hl1.
    destruct (pop_first_none fromLeft count keys (mkSt c1 (st_w st) (st_held st)) Hh1) as (o & c2 & E & Ho & Hh2 & HQ).
    + eapply Forall_impl; [exact Hall|]. intros k. by apply later_is_list.
    + exists o, c2. split_and!; [done..|]. by eapply later_trans.
  - intros Hall Hex. destruct (check_types_refused keys st Hh Hall Hex) as (c1 & E & Hh1 & Hl1).
    exists Return, c1. unfold lmpop_runner, mbind, M_bind. rewrite E. auto.
Qed.

(** A numkeys of [2^63-1] or [2^63-2] passes the check, which wraps, and the
    allocation of the keys panics. *)
Theorem lmpop_panics (a k d : bytes) (more : list bytes) (n : Z) :
  ParseInt64 a = Some n → MaxInt64 - 1 <= n <= MaxInt64 → handleLMPop (a :: k :: d :: more) = Crash.
Proof.
  intros Ha Hn. unfold handleLMPop. destruct (len _ <? 3) eqn:E; reflect_bools.
  { rewrite !len_cons in E. unfold len in E. lia. }
  unfold parse_mpop. rewrite Ha. destruct (n <? 1) eqn:E1; reflect_bools; [zlia|].
  assert (Hw : i64 (n + 2 + 0) < 0).
  { unfold i64. replace (n + 2 + 0 + 2 ^ 63) with ((n + 2 - 2 ^ 63) + 1 * 2 ^ 64) by lia.
    rewrite Z_mod_plus_full, Z.mod_small; zlia. }
  destruct (_ <? i64 _) eqn:E2; reflect_bools; [unfold len in E2; lia|].
  assert (Hm : make_strings n = false).
  { unfold make_strings. destruct (n * 16 <=? 2 ^ 48) eqn:E3; reflect_bools; [zlia|]. by rewrite andb_false_r. }
  by rewrite Hm.
Qed.

(** C14: LMOVE and RPOPLPUSH take one element from an end of the source and put
    it at an end of the destination, which may be the same list, a missing key or a
    deleted one, as one effect: the elements of both keys are those they had, less
    the one taken and with the one put, and other keys are untouched.  A source that
    is empty changes nothing, nor does a source or a destination of another type,
    which is refused.  The clock has a reading left for the id of the element
    ([room]).  A move writes no type tag: its destination is a list
    afterwards when it was one or was never written; which tag the engine gives to a
    key that was deleted before is left open. *)
Theorem lmove_correct (src dst from to : bytes) (popLeft pushLeft : bool) (st : St) :
  healthy (st_ctx st) → parse_direction from = Some popLeft → parse_direction to = Some pushLeft →
  ∃ runner, handleLMove [src; dst; from; to] = Accept [src; dst] runner ∧
    (popLeft = false → pushLeft = true → handleRPopLPush [src; dst] = Accept [src; dst] runner) ∧
    (∀ l m x, is_list (st_ctx st) src l → is_list (st_ctx st) dst m →
       room (st_ctx st) ≠ 0%nat → popped popLeft 1 l = [x] →
       finishes runner st (WriteBulkString x (st_w st))
         (moved_list (st_ctx st) src dst popLeft pushLeft x l m)) ∧
    (is_list (st_ctx st) src [] → finishes runner st (WriteNullBulkString (st_w st)) (later (st_ctx st))) ∧
    (not_list (view (st_ctx st) src) →
       finishes runner st (WriteError wrong_type_message (st_w st)) (later (st_ctx st))) ∧
    (∀ l x, src ≠ dst → is_list (st_ctx st) src l → popped popLeft 1 l = [x] → not_list (view (st_ctx st) dst) →
       finishes runner st (WriteError wrong_type_message (st_w st)) (later (st_ctx st))).
Proof.
  intros Hh Hf Ht. exists (lmove_runner src dst popLeft pushLeft). split_and!.
  - cbn. by rewrite Hf, Ht.
  - by intros -> ->.
  - intros l m x Hl Hm Hr Hp. eapply finishes_bind; [by apply (doLMove_spec src dst popLeft pushLeft st l m x)|].
    intros c1 Hh1 Hm1. by apply finishes_write.
  - intros [(es & Hs & Hfr & Hb) Hty]. assert (es = []) as -> by by destruct es.
    destruct (steps_get_later src st Hh) as [tips (c1 & E & Hh1 & Hl1)].
    destruct (classify_list_is _ src [] tips Hs Hty) as (Hw & He & Ho).
    exists (Next tt), c1. unfold lmove_runner, doLMove, getListSnapshot, mbind, M_bind. rewrite E. cbn [fst snd].
    unfold mret, M_ret. rewrite Hw, He, Ho. destruct (is_live _); cbn; [destruct popLeft; cbn|]; auto.
  - intros Hn. destruct (steps_get_later src st Hh) as [tips (c1 & E & Hh1 & Hl1)].
    destruct (classify_list_other _ tips Hn) as [He Hw].
    exists (Next tt), c1. unfold lmove_runner, doLMove, getListSnapshot, mbind, M_bind. rewrite E. cbn [fst snd].
    unfold mret, M_ret. rewrite Hw, He. cbn. auto.
  - intros l x Hne Hl Hp Hn. eapply finishes_bind; [by apply (doLMove_refused src dst popLeft pushLeft st l x)|].
    intros c1 Hh1 Hl1. by apply finishes_write.
Qed.
End Laws.

(** ** Examples

    The list "l" of a, b, a, written by node 3, on node 7 of the reference
    engine. *)
Module ListExample.
Import RefEngine.

Definition elem (i : Z) (s : string) : Element := mkElement (EncodeElementID i 3) (Raw (str s)).
Definition aba : list Element := [elem 1 "a"; elem 2 "b"; elem 3 "a"].
Definition start : St :=
  mkSt (holding {[ str "l" := mkReduced INSERT_OP ORDERED TYPE_LIST None ∅ aba ]}) (NewWriter []) [].
Definition values : list bytes := [str "a"; str "b"; str "a"].

Lemma start_healthy : healthy (st_ctx start).
Proof. exact I. Qed.

Lemma start_room : (1000 <= room (st_ctx start))%nat.
Proof. change (1000 <= Z.to_nat (2 ^ 63 - 1 - Z.max (-1) (-1)))%nat. lia. Qed.

Lemma other_node i t : EncodeElementID i 3 ≠ EncodeElementID t 7.
Proof.
  intros He. unfold EncodeElementID in He. apply app_inj_1 in He as [_ He]; [|by rewrite !length_le_put64].
  apply le_put64_inj in He; [done|apply u64_range..].
Qed.

Lemma fresh_elems c es : Forall (λ e, ∃ i, el_Id e = EncodeElementID i 3) es → fresh c es.
Proof.
  rewrite Forall_forall. intros He e [i Hi]%He. rewrite Hi. split; [apply EncodeElementID_ne|].
  intros t _ _. apply other_node.
Qed.

Lemma l_is_list : is_list (st_ctx start) (str "l") values.
Proof.
  split.
  - exists aba. split_and!; [|apply fresh_elems; repeat constructor; by eexists|reflexivity].
    split; [reflexivity|split; [reflexivity|]]. apply (bool_decide_unpack (NoDup (el_Id <$> aba))). vm_compute. exact I.
  - intros _. split; [reflexivity|by left].
Qed.

Lemma m_is_list : is_list (st_ctx start) (str "m") [].
Proof. split; [|done]. exists []. split_and!; [reflexivity| |reflexivity]. intros e He. by apply not_elem_of_nil in He. Qed.

Lemma list_push_correct_witness :
  ∃ runner, handleLPush [str "l"; str "x"; str "y"] = Accept [str "l"] runner ∧
    finishes runner start (WriteInteger 5 (st_w start))
      (only_list (st_ctx start) (str "l") [str "y"; str "x"; str "a"; str "b"; str "a"]).
Proof.
  destruct (list_push_correct true (str "l") (str "x") [str "y"] start start_healthy) as (r & rx & Hr & _ & Hl & _).
  - pose proof start_room. cbn [length]. lia.
  - exists r. split; [exact Hr|]. destruct (Hl _ l_is_list) as [Hf _]. exact Hf.
Defined.

Lemma list_pop_correct_witness :
  ∃ runner, handleRPop [str "l"; str "2"] = Accept [str "l"] runner ∧
    finishes runner start (bulks [str "a"; str "b"] (WriteArray 2 (st_w start)))
      (only_list (st_ctx start) (str "l") [str "a"]).
Proof.
  destruct (list_pop_correct false (str "l") (Some (str "2", 2)) start start_healthy) as (r & Hr & Hl & _).
  - split; [reflexivity|lia].
  - exists r. split; [exact Hr|]. exact (Hl _ l_is_list).
Defined.

Lemma lrange_ltrim_correct_witness :
  ∃ range trim, handleLRange [str "l"; str "1"; str "-1"] = Accept [str "l"] range ∧
    handleLTrim [str "l"; str "1"; str "-1"] = Accept [str "l"] trim ∧
    finishes range start (range_reply [str "b"; str "a"] (st_w start)) (later (st_ctx start)) ∧
    finishes trim start (WriteOK (st_w start)) (only_list (st_ctx start) (str "l") [str "b"; str "a"]).
Proof.
  destruct (lrange_ltrim_correct (str "l") (str "1") (str "-1") 1 (-1) start start_healthy eq_refl eq_refl)
    as (r & t & Hr & Ht & Hl & _).
  exists r, t. split; [exact Hr|]. split; [exact Ht|]. exact (Hl _ l_is_list).
Defined.

Lemma lindex_lset_correct_witness :
  ∃ get set, handleLIndex [str "l"; str "-2"] = Accept [str "l"] get ∧
    handleLSet [str "l"; str "-2"; str "x"] = Accept [str "l"] set ∧
    finishes get start (WriteBulkString (str "b") (st_w start)) (later (st_ctx start)) ∧
    finishes set start (WriteOK (st_w start))
      (only_list (st_ctx start) (str "l") [str "a"; str "x"; str "a"]).
Proof.
  destruct (lindex_lset_correct (str "l") (str "-2") (str "x") (-2) start start_healthy eq_refl)
    as (g & t & Hg & Ht & Hl & _).
  exists g, t. split; [exact Hg|]. split; [exact Ht|]. exact (Hl _ l_is_list).
Defined.

Lemma lrem_correct_witness :
  ∃ runner, handleLRem [str "l"; str "-1"; str "a"] = Accept [str "l"] runner ∧
    finishes runner start (WriteInteger 1 (st_w start))
      (only_list (st_ctx start) (str "l") [str "a"; str "b"]).
Proof.
  destruct (lrem_correct (str "l") (str "-1") (str "a") (-1) start start_healthy eq_refl) as (r & Hr & Hl & _).
  - zlia.
  - zlia.
  - exists r. split; [exact Hr|]. exact (Hl _ l_is_list).
Defined.

Lemma linsert_correct_witness :
  ∃ runner, handleLInsert [str "l"; str "before"; str "b"; str "x"] = Accept [str "l"] runner ∧
    finishes runner start (WriteInteger 4 (st_w start))
      (only_list (st_ctx start) (str "l") [str "a"; str "x"; str "b"; str "a"]).
Proof.
  destruct (linsert_correct (str "l") (str "before") (str "b") (str "x") true start start_healthy) as (r & Hr & Hl & _).
  - pose proof start_room. lia.
  - reflexivity.
  - exists r. split; [exact Hr|]. exact (Hl _ l_is_list).
Defined.

Lemma lpos_correct_witness :
  ∃ runner, handleLPos [str "l"; str "a"; str "RANK"; str "-1"; str "COUNT"; str "0"] = Accept [str "l"] runner ∧
    finishes runner start (WriteInteger 0 (WriteInteger 2 (WriteArray 2 (st_w start)))) (later (st_ctx start)).
Proof.
  destruct (lpos_correct (str "l") (str "a") [str "RANK"; str "-1"; str "COUNT"; str "0"] (mkPosOpts (-1) 0 0)
    start start_healthy eq_refl) as (r & Hr & Hl & _).
  exists r. split; [exact Hr|]. exact (Hl _ l_is_list).
Defined.

Lemma lmpop_correct_witness :
  ∃ runner, handleLMPop [str "2"; str "m"; str "l"; str "left"] = Accept [str "m"; str "l"] runner ∧
    finishes runner start
      (bulks [str "a"] (WriteArray 1 (WriteBulkStringStr (str "l") (WriteArray 2 (st_w start)))))
      (only_list (st_ctx start) (str "l") [str "b"; str "a"]).
Proof.
  destruct (lmpop_correct [str "2"; str "m"; str "l"; str "left"] [str "m"; str "l"] true 1 start start_healthy)
    as (r & Hr & Hl & _).
  - unfold len. cbn. lia.
  - reflexivity.
  - exists r. split; [exact Hr|].
    apply (Hl [str "m"] (str "l") [] values).
    + reflexivity.
    + constructor; [exists []; exact m_is_list|]. constructor; [exists values; exact l_is_list|constructor].
    + constructor; [exact m_is_list|constructor].
    + exact l_is_list.
    + discriminate.
Defined.

Lemma lmove_correct_witness :
  ∃ runner, handleLMove [str "l"; str "m"; str "right"; str "left"] = Accept [str "l"; str "m"] runner ∧
    finishes runner start (WriteBulkString (str "a") (st_w start))
      (moved_list (st_ctx start) (str "l") (str "m") false true (str "a") values []).
Proof.
  destruct (lmove_correct (str "l") (str "m") (str "right") (str "left") false true start start_healthy eq_refl eq_refl)
    as (r & Hr & _ & Hl & _).
  exists r. split; [exact Hr|]. apply (Hl values []).
  - exact l_is_list.
  - exact m_is_list.
  - pose proof start_room. lia.
  - reflexivity.
Defined.

Lemma lmpop_panics_witness :
  handleLMPop [FormatInt MaxInt64; str "k"; str "LEFT"] = Crash.
Proof. apply (lmpop_panics (FormatInt MaxInt64) (str "k") (str "LEFT") [] MaxInt64); [reflexivity|zlia]. Defined.
End ListExample.
