(* ===== verification/Blocking.v ===== *)
(** * The registry of blocked clients

    src/redis/shared/blocking.go ([Topic], [SubscriptionManager],
    [Registration]) and the blocking state of src/redis/shared/handler_interface.go
    ([Connection.Block], [Unblock]).

    Waiters are pointers into a store; a topic is the queue of a key's hash,
    whose removed entries stay as nil.  The operations are given whole, and
    again as the steps in which other goroutines may interleave: what one mutex
    or one atomic variable protects is one step. *)

From S2P Require Import Prelude GoBytes.

Local Open Scope Z_scope.

(** A waiter with the flag of its registration.  [w_ch]: a signal is pending in
    the channel, which holds one. *)
Record Waiter := mkWaiter {
  w_ch : bool;
  w_alive : bool;
  w_channels : list bytes;
  w_unblockOnNoKey : bool;
  r_canceled : bool
}.

Definition set_ch (b : bool) (w : Waiter) : Waiter :=
  mkWaiter b (w_alive w) (w_channels w) (w_unblockOnNoKey w) (r_canceled w).
Definition set_alive (b : bool) (w : Waiter) : Waiter :=
  mkWaiter (w_ch w) b (w_channels w) (w_unblockOnNoKey w) (r_canceled w).
Definition set_canceled (b : bool) (w : Waiter) : Waiter :=
  mkWaiter (w_ch w) (w_alive w) (w_channels w) (w_unblockOnNoKey w) b.

(** The queue of a topic: pointers, nil where a waiter was removed. *)
Abbreviation Queue := (list (option nat)).

Record SubscriptionManager := mkSM {
  sm_store : gmap nat Waiter;
  sm_next : nat;
  sm_topics : gmap Z Queue
}.

Definition NewSubscriptionManager : SubscriptionManager := mkSM ∅ 0 ∅.

Definition upd (f : Waiter → Waiter) (p : nat) (m : SubscriptionManager) : SubscriptionManager :=
  mkSM (alter f p (sm_store m)) (sm_next m) (sm_topics m).
Definition set_topic (h : Z) (q : Queue) (m : SubscriptionManager) : SubscriptionManager :=
  mkSM (sm_store m) (sm_next m) (<[h := q]> (sm_topics m)).

(** [w != nil && w.alive.Load()]. *)
Definition live_entry (m : SubscriptionManager) (e : option nat) : bool :=
  match e with
  | Some p => match sm_store m !! p with Some w => w_alive w | None => false end
  | None => false
  end.

(** The first entry of a queue that is a live waiter. *)
Fixpoint oldest (m : SubscriptionManager) (q : Queue) : option nat :=
  match q with
  | [] => None
  | e :: q' => if live_entry m e then e else oldest m q'
  end.

(** ** Topics *)

Definition notifyOldest (m : SubscriptionManager) (q : Queue) : bool * SubscriptionManager :=
  match oldest m q with
  | Some p => (true, upd (set_ch true) p m)
  | None => (false, m)
  end.

Fixpoint notifyAll (m : SubscriptionManager) (q : Queue) : SubscriptionManager :=
  match q with
  | [] => m
  | e :: q' =>
    notifyAll (match e with
               | Some p => if live_entry m e then upd (set_ch true) p m else m
               | None => m
               end) q'
  end.

Definition hasActiveWaiters (m : SubscriptionManager) (q : Queue) : bool := existsb (live_entry m) q.

(** [remove]: the first entry that is [p] becomes nil. *)
Fixpoint remove_waiter (p : nat) (q : Queue) : Queue :=
  match q with
  | [] => []
  | e :: q' => if bool_decide (e = Some p) then None :: q' else e :: remove_waiter p q'
  end.

(** ** The manager *)
Section Manager.
Context `{Xxh3}.

(** [getTopic]: the queue of [hash], created when there is none. *)
Definition getTopic (hash : Z) (m : SubscriptionManager) : Queue * SubscriptionManager :=
  match sm_topics m !! hash with
  | Some q => (q, m)
  | None => ([], set_topic hash [] m)
  end.

Definition Notify (channel : bytes) (m : SubscriptionManager) : bool * SubscriptionManager :=
  match sm_topics m !! xxh3_Hash channel with
  | None => (false, m)
  | Some q => notifyOldest m q
  end.

Definition NotifyAllWaiters (channel : bytes) (m : SubscriptionManager) : SubscriptionManager :=
  match sm_topics m !! xxh3_Hash channel with
  | None => m
  | Some q => notifyAll m q
  end.

(** [NotifyAll] and the counts visit every topic; the order does not matter to
    what they compute. *)
Definition NotifyAll (m : SubscriptionManager) : SubscriptionManager :=
  foldl (λ m hq, notifyAll m hq.2) m (map_to_list (sm_topics m)).

Definition BlockingKeyCount (m : SubscriptionManager) : Z :=
  len (filter (λ hq, hasActiveWaiters m hq.2 = true) (map_to_list (sm_topics m))).

(** The channels of one live waiter entered into [seenKeys]; those that hold the
    separator of internal subkeys are skipped. *)
Definition internal_channel (ch : bytes) : bool := bool_decide (1 ∈ ch).

Definition see_channel (noKey : bool) (seen : gmap Z bool) (ch : bytes) : gmap Z bool :=
  if internal_channel ch then seen
  else match seen !! xxh3_Hash ch with
  | Some hasNoKey => if noKey && negb hasNoKey then <[xxh3_Hash ch := true]> seen else seen
  | None => <[xxh3_Hash ch := noKey]> seen
  end.

Definition see_entry (m : SubscriptionManager) (seen : gmap Z bool) (e : option nat) : gmap Z bool :=
  match e with
  | Some p =>
    match sm_store m !! p with
    | Some w => if w_alive w then foldl (see_channel (w_unblockOnNoKey w)) seen (w_channels w) else seen
    | None => seen
    end
  | None => seen
  end.

Definition seen_keys (m : SubscriptionManager) : gmap Z bool :=
  foldl (λ seen hq, foldl (see_entry m) seen hq.2) ∅ (map_to_list (sm_topics m)).

Definition BlockingKeyCounts (m : SubscriptionManager) : Z * Z :=
  let seen := seen_keys m in
  (Z.of_nat (size seen), len (filter (λ kv, kv.2 = true) (map_to_list seen))).

(** One turn of the registration loop. *)
Definition append_waiter (p : nat) (ch : bytes) (m : SubscriptionManager) : SubscriptionManager :=
  let '(q, m') := getTopic (xxh3_Hash ch) m in
  set_topic (xxh3_Hash ch) (q ++ [Some p]) m'.

Definition new_waiter (unblockOnNoKey : bool) (channels : list bytes) (m : SubscriptionManager) :
    nat * SubscriptionManager :=
  (sm_next m, mkSM (<[sm_next m := mkWaiter false true channels unblockOnNoKey false]> (sm_store m))
                (S (sm_next m)) (sm_topics m)).

(** The registration, by the pointer to its waiter; [None] is [ErrNoChannels]. *)
Definition RegisterWithOptions (unblockOnNoKey : bool) (channels : list bytes) (m : SubscriptionManager) :
    option nat * SubscriptionManager :=
  match channels with
  | [] => (None, m)
  | _ =>
    let '(p, m1) := new_waiter unblockOnNoKey channels m in
    (Some p, foldl (λ m ch, append_waiter p ch m) m1 channels)
  end.
Definition Register := RegisterWithOptions false.
Definition RegisterWithNoKey := RegisterWithOptions true.

Definition IsOldestWaiter (p : nat) (channel : bytes) (m : SubscriptionManager) : bool :=
  match sm_topics m !! xxh3_Hash channel with
  | None => true
  | Some q =>
    match oldest m q with
    | Some p' => bool_decide (p' = p)
    | None => true
    end
  end.

Definition remove_from (p : nat) (ch : bytes) (m : SubscriptionManager) : SubscriptionManager :=
  match sm_topics m !! xxh3_Hash ch with
  | Some q => set_topic (xxh3_Hash ch) (remove_waiter p q) m
  | None => m
  end.

Definition canceled (p : nat) (m : SubscriptionManager) : bool :=
  match sm_store m !! p with Some w => r_canceled w | None => true end.
Definition channels_of (p : nat) (m : SubscriptionManager) : list bytes :=
  match sm_store m !! p with Some w => w_channels w | None => [] end.

Definition Cancel (p : nat) (m : SubscriptionManager) : SubscriptionManager :=
  if canceled p m then m
  else foldl (λ m ch, remove_from p ch m) (upd (set_alive false) p (upd (set_canceled true) p m)) (channels_of p m).

Definition CancelAndRenotify (p : nat) (m : SubscriptionManager) : SubscriptionManager :=
  foldl (λ m ch, snd (Notify ch m)) (Cancel p m) (channels_of p m).

(** [Wait]: [done] says the context has ended, [pick] which branch the select
    takes when both are ready. *)
Inductive WaitResult : Type := Woken | WaitEnded | StillBlocked.

Definition Wait (p : nat) (done pick : bool) (m : SubscriptionManager) : WaitResult * SubscriptionManager :=
  if canceled p m then (WaitEnded, m)
  else
    let pending := match sm_store m !! p with Some w => w_ch w | None => false end in
    if pending && (negb done || pick) then (Woken, upd (set_ch false) p m)
    else if done then (WaitEnded, Cancel p m)
    else (StillBlocked, m).

(** ** Interleavings

    Where the goroutine of a registration is. *)
Inductive Phase : Type :=
  | Registering (rest : list bytes)
  | Registered
  | Swapped
  | Removing (rest : list bytes).

Record System := mkSys { s_m : SubscriptionManager; s_phase : gmap nat Phase }.

Definition at_phase (s : System) (p : nat) (ph : Phase) : Prop := s_phase s !! p = Some ph.

Inductive step : System → System → Prop :=
  | step_new s noKey ch chs m' p :
      new_waiter noKey (ch :: chs) (s_m s) = (p, m') →
      step s (mkSys m' (<[p := Registering (ch :: chs)]> (s_phase s)))
  | step_append s p ch rest :
      at_phase s p (Registering (ch :: rest)) →
      step s (mkSys (append_waiter p ch (s_m s)) (<[p := Registering rest]> (s_phase s)))
  | step_registered s p :
      at_phase s p (Registering []) →
      step s (mkSys (s_m s) (<[p := Registered]> (s_phase s)))
  | step_swap s p :
      at_phase s p Registered →
      step s (mkSys (upd (set_canceled true) p (s_m s)) (<[p := Swapped]> (s_phase s)))
  | step_dead s p :
      at_phase s p Swapped →
      step s (mkSys (upd (set_alive false) p (s_m s)) (<[p := Removing (channels_of p (s_m s))]> (s_phase s)))
  | step_remove s p ch rest :
      at_phase s p (Removing (ch :: rest)) →
      step s (mkSys (remove_from p ch (s_m s)) (<[p := Removing rest]> (s_phase s)))
  | step_receive s p :
      at_phase s p Registered →
      step s (mkSys (upd (set_ch false) p (s_m s)) (s_phase s))
  | step_notify s ch : step s (mkSys (snd (Notify ch (s_m s))) (s_phase s))
  | step_notify_all s ch : step s (mkSys (NotifyAllWaiters ch (s_m s)) (s_phase s)).

Definition init_sys : System := mkSys NewSubscriptionManager ∅.
Definition reachable (s : System) : Prop := rtc step init_sys s.
End Manager.

(** ** A blocked connection

    [Block], its cleanup and [Unblock], one step for each access to the shared
    fields: the atomic flag, or the two fields the mutex protects. *)
Module BlockState.
Record BConn := mkBConn {
  b_blocked : bool;
  b_unblockCancel : option nat;
  b_unblockError : bool;
  (** The contexts cancelled so far. *)
  b_cancelled : list nat
}.

(** The goroutine of the connection: running, having stored the cancel function
    of block [n], blocked in it, having cancelled its contexts at the end,
    having cleared the flag again. *)
Inductive Client : Type :=
  | Running | Arming (n : nat) | InBlock (n : nat) | Ending (n : nat) | Disarming (n : nat).

(** A goroutine in [Unblock]: it has seen the flag set, or it has taken the
    cancel function it will call. *)
Inductive Unblocker : Type := Idle | SawBlocked (withError : bool) | Taken (cancel : option nat).

Record BSys := mkBSys { bs_conn : BConn; bs_client : Client; bs_other : Unblocker; bs_next : nat }.

Inductive bstep : BSys → BSys → Prop :=
  | b_arm c o n :
      bstep (mkBSys c Running o n)
        (mkBSys (mkBConn (b_blocked c) (Some n) false (b_cancelled c)) (Arming n) o (S n))
  | b_set c k o n :
      bstep (mkBSys c (Arming k) o n)
        (mkBSys (mkBConn true (b_unblockCancel c) (b_unblockError c) (b_cancelled c)) (InBlock k) o n)
  | b_end c k o n :
      bstep (mkBSys c (InBlock k) o n)
        (mkBSys (mkBConn (b_blocked c) (b_unblockCancel c) (b_unblockError c) (k :: b_cancelled c)) (Ending k) o n)
  | b_clear c k o n :
      bstep (mkBSys c (Ending k) o n)
        (mkBSys (mkBConn false (b_unblockCancel c) (b_unblockError c) (b_cancelled c)) (Disarming k) o n)
  | b_disarm c k o n :
      bstep (mkBSys c (Disarming k) o n)
        (mkBSys (mkBConn (b_blocked c) None (b_unblockError c) (b_cancelled c)) Running o n)
  | b_see c cl e n : b_blocked c = true → bstep (mkBSys c cl Idle n) (mkBSys c cl (SawBlocked e) n)
  | b_take c cl e n :
      bstep (mkBSys c cl (SawBlocked e) n)
        (mkBSys (mkBConn (b_blocked c) (b_unblockCancel c)
                   (match b_unblockCancel c with Some _ => e | None => b_unblockError c end) (b_cancelled c))
           cl (Taken (b_unblockCancel c)) n)
  | b_cancel c cl k n :
      bstep (mkBSys c cl (Taken k) n)
        (mkBSys (mkBConn (b_blocked c) (b_unblockCancel c) (b_unblockError c)
                   (match k with Some k => k :: b_cancelled c | None => b_cancelled c end)) cl Idle n).

Definition binit : BSys := mkBSys (mkBConn false None false []) Running Idle 0.
End BlockState.
