(* ===== verification/BlockingProps.v ===== *)
(** * The registry of blocked clients is fair

    Invariants of every interleaving of registrations, cancellations and
    notifications, first come first served among the waiters of a key, and what
    the whole operations do. *)

From S2P Require Import Prelude GoBytes Blocking.

Local Open Scope Z_scope.

(** ** Queues *)

Definition occurrences (p : nat) (q : Queue) : nat := length (filter (λ e, e = Some p) q).

Lemma occurrences_app p q q' : occurrences p (q ++ q') = (occurrences p q + occurrences p q')%nat.
Proof. unfold occurrences. by rewrite filter_app, length_app. Qed.

Lemma occurrences_pos p q : Some p ∈ q ↔ (0 < occurrences p q)%nat.
Proof.
  unfold occurrences. split.
  - intros Hin. assert (Hf : Some p ∈ filter (λ e, e = Some p) q) by by apply list_elem_of_filter.
    destruct (filter _ q); [by apply not_elem_of_nil in Hf|]. cbn. lia.
  - intros Hlen. destruct (filter (λ e, e = Some p) q) as [|e l] eqn:E; [cbn in Hlen; lia|].
    assert (He : e ∈ filter (λ e, e = Some p) q) by (rewrite E; left). apply list_elem_of_filter in He as [-> ?]. done.
Qed.

Lemma occurrences_remove p q : occurrences p (remove_waiter p q) = Nat.pred (occurrences p q).
Proof.
  induction q as [|e q IH]; [done|]. unfold occurrences in *. cbn [remove_waiter].
  case_bool_decide as E; rewrite !filter_cons.
  - rewrite decide_False by done. by rewrite decide_True.
  - by rewrite !decide_False.
Qed.

Lemma occurrences_remove_ne p p' q : p' ≠ p → occurrences p' (remove_waiter p q) = occurrences p' q.
Proof.
  intros Hne. induction q as [|e q IH]; [done|]. unfold occurrences in *. cbn [remove_waiter].
  case_bool_decide as E; rewrite !filter_cons; [|by case_decide; cbn; rewrite IH].
  rewrite decide_False by done. by rewrite decide_False by congruence.
Qed.

Lemma length_remove_waiter p q : length (remove_waiter p q) = length q.
Proof. induction q as [|e q IH]; [done|]. cbn. case_bool_decide; cbn; by rewrite ?IH. Qed.

(** The first live waiter of a queue. *)
Lemma oldest_app m q q' p : oldest m q = Some p → oldest m (q ++ q') = Some p.
Proof. induction q as [|e q IH]; [done|]. cbn. by destruct (live_entry m e). Qed.

Lemma oldest_ext m m' q : (∀ e, e ∈ q → live_entry m' e = live_entry m e) → oldest m' q = oldest m q.
Proof.
  induction q as [|e q IH]; intros Hq; [done|]. cbn. rewrite Hq by left.
  destruct (live_entry m e); [done|]. apply IH. intros e' ?. apply Hq. by right.
Qed.

Lemma oldest_live m q p : oldest m q = Some p → live_entry m (Some p) = true ∧ Some p ∈ q.
Proof.
  induction q as [|e q IH]; [done|]. cbn. destruct (live_entry m e) eqn:E.
  - intros ->. split; [done|left].
  - intros [? ?]%IH. split; [done|by right].
Qed.

(** Entries may only die before the oldest. *)
Lemma oldest_shrink m m' q p : (∀ e, live_entry m' e = true → e ∈ q → live_entry m e = true) →
  oldest m q = Some p → live_entry m' (Some p) = true → oldest m' q = Some p.
Proof.
  intros Hd. induction q as [|e q IH]; [done|]. cbn [oldest]. destruct (live_entry m e) eqn:E.
  - by intros -> ->.
  - intros Ho Hp. destruct (live_entry m' e) eqn:E'; [|apply IH; [|done|done]].
    + rewrite Hd in E; [done|done|left].
    + intros e' ? ?. apply Hd; [done|by right].
Qed.

Lemma oldest_remove m q p' : live_entry m (Some p') = false → oldest m (remove_waiter p' q) = oldest m q.
Proof.
  intros Hd. induction q as [|e q IH]; [done|]. cbn [remove_waiter]. case_bool_decide as E; cbn [oldest live_entry].
  - by rewrite E, Hd.
  - by rewrite IH.
Qed.

Section Registry.
Context `{Xxh3}.

Definition queue_of (m : SubscriptionManager) (h : Z) : Queue :=
  match sm_topics m !! h with Some q => q | None => [] end.
(** How many of the channels hash to [h]. *)
Definition hashed (h : Z) (chs : list bytes) : nat := length (filter (λ ch, xxh3_Hash ch = h) chs).

Lemma hashed_cons h ch chs :
  hashed h (ch :: chs) = ((if decide (xxh3_Hash ch = h) then 1 else 0) + hashed h chs)%nat.
Proof. unfold hashed. rewrite filter_cons. by case_decide. Qed.

Lemma queue_append p ch m h :
  queue_of (append_waiter p ch m) h =
  if decide (h = xxh3_Hash ch) then queue_of m h ++ [Some p] else queue_of m h.
Proof.
  unfold append_waiter, getTopic, queue_of, set_topic.
  destruct (sm_topics m !! xxh3_Hash ch) as [q|] eqn:E; cbn; case_decide as Eh; subst;
    rewrite ?lookup_insert_eq, ?E; try done; by rewrite !lookup_insert_ne by done.
Qed.

Lemma queue_remove p ch m h :
  queue_of (remove_from p ch m) h =
  if decide (h = xxh3_Hash ch) then remove_waiter p (queue_of m h) else queue_of m h.
Proof.
  unfold remove_from, queue_of, set_topic.
  destruct (sm_topics m !! xxh3_Hash ch) as [q|] eqn:E; cbn; case_decide as Eh; subst;
    rewrite ?lookup_insert_eq, ?E; try done; by rewrite !lookup_insert_ne by done.
Qed.

Lemma store_append p ch m : sm_store (append_waiter p ch m) = sm_store m ∧ sm_next (append_waiter p ch m) = sm_next m.
Proof. unfold append_waiter, getTopic. by destruct (sm_topics m !! _). Qed.
Lemma store_remove p ch m : sm_store (remove_from p ch m) = sm_store m ∧ sm_next (remove_from p ch m) = sm_next m.
Proof. unfold remove_from. by destruct (sm_topics m !! _). Qed.

(** Notifications change nothing but pending signals. *)
Definition signals_only (m m' : SubscriptionManager) : Prop :=
  sm_topics m' = sm_topics m ∧ sm_next m' = sm_next m ∧
  ∀ p, set_ch false <$> sm_store m' !! p = set_ch false <$> sm_store m !! p.

Lemma signals_refl m : signals_only m m.
Proof. done. Qed.
Lemma signals_trans m m' m'' : signals_only m m' → signals_only m' m'' → signals_only m m''.
Proof. intros (?&?&Hs) (?&?&Hs'). split_and!; [congruence..|]. intros p. by rewrite Hs', Hs. Qed.
Lemma signals_upd b p m : signals_only m (upd (set_ch b) p m).
Proof.
  split_and!; [done..|]. intros p'. cbn. destruct (decide (p' = p)) as [->|].
  - rewrite lookup_alter_eq. by destruct (sm_store m !! p).
  - by rewrite lookup_alter_ne by done.
Qed.
Lemma signals_notifyOldest m q : signals_only m (snd (notifyOldest m q)).
Proof. unfold notifyOldest. destruct (oldest m q); [apply signals_upd|done]. Qed.
Lemma signals_Notify ch m : signals_only m (snd (Notify ch m)).
Proof. unfold Notify. destruct (sm_topics m !! _); [apply signals_notifyOldest|done]. Qed.
Lemma signals_notifyAll m q : signals_only m (notifyAll m q).
Proof.
  revert m. induction q as [|e q IH]; intros m; [done|]. cbn.
  eapply signals_trans; [|apply IH]. destruct e as [p|]; [|done]. destruct (live_entry _ _); [apply signals_upd|done].
Qed.

Lemma signals_live m m' e : signals_only m m' → live_entry m' e = live_entry m e.
Proof.
  intros (_ & _ & Hs). destruct e as [p|]; [|done]. cbn. specialize (Hs p).
  destruct (sm_store m !! p) as [w|], (sm_store m' !! p) as [w'|]; try done. by injection Hs.
Qed.

(** ** The invariant *)

Definition alive_in (ph : Phase) : bool := match ph with Removing _ => false | _ => true end.
Definition canceled_in (ph : Phase) : bool := match ph with Registering _ | Registered => false | _ => true end.
(** The channels whose queues hold the waiter. *)
Definition queued_in (ph : Phase) (chs : list bytes) (h : Z) (n : nat) : Prop :=
  match ph with
  | Registering rest => (n + hashed h rest)%nat = hashed h chs
  | Registered | Swapped => n = hashed h chs
  | Removing rest => n = hashed h rest
  end.

Definition waiter_ok (s : System) (p : nat) : Prop :=
  match sm_store (s_m s) !! p, s_phase s !! p with
  | Some w, Some ph =>
    (p < sm_next (s_m s))%nat ∧ w_alive w = alive_in ph ∧ r_canceled w = canceled_in ph ∧
    ∀ h, queued_in ph (w_channels w) h (occurrences p (queue_of (s_m s) h))
  | None, None => ∀ h, occurrences p (queue_of (s_m s) h) = 0%nat
  | _, _ => False
  end.
Definition sys_ok (s : System) : Prop := ∀ p, waiter_ok s p.

Lemma ok_phase s p ph : sys_ok s → at_phase s p ph → ∃ w, sm_store (s_m s) !! p = Some w.
Proof. intros Hok Hp. specialize (Hok p). unfold waiter_ok in Hok. rewrite Hp in Hok. destruct (_ !! p); [eauto|done]. Qed.

Lemma occurrences_append_ne p p' ch m h : p' ≠ p →
  occurrences p' (queue_of (append_waiter p ch m) h) = occurrences p' (queue_of m h).
Proof.
  intros Hne. rewrite queue_append. case_decide; [|done]. rewrite occurrences_app. unfold occurrences at 2.
  rewrite filter_cons_False by congruence. cbn. lia.
Qed.

Lemma occurrences_remove_from_ne p p' ch m h : p' ≠ p →
  occurrences p' (queue_of (remove_from p ch m) h) = occurrences p' (queue_of m h).
Proof. intros Hne. rewrite queue_remove. case_decide; [|done]. by apply occurrences_remove_ne. Qed.

(** A step that changes one waiter's flags and phase. *)
Lemma flags_ok s p f w ph ph' : sys_ok s → at_phase s p ph → sm_store (s_m s) !! p = Some w →
  (w_alive w = alive_in ph → r_canceled w = canceled_in ph →
     w_alive (f w) = alive_in ph' ∧ r_canceled (f w) = canceled_in ph') →
  w_channels (f w) = w_channels w →
  (∀ h n, queued_in ph (w_channels w) h n → queued_in ph' (w_channels w) h n) →
  sys_ok (mkSys (upd f p (s_m s)) (<[p := ph']> (s_phase s))).
Proof.
  intros Hok Hph Hw Hf Hc Hq p'. specialize (Hok p'). unfold waiter_ok in *. cbn.
  destruct (decide (p' = p)) as [->|Hne].
  - rewrite lookup_alter_eq, lookup_insert_eq, Hw. rewrite Hw, Hph in Hok. cbn.
    destruct Hok as (? & Ha & Hr & Ho). destruct (Hf Ha Hr). rewrite Hc. split_and!; [done..|]. intros h. by apply Hq.
  - by rewrite lookup_alter_ne, lookup_insert_ne.
Qed.

Lemma signals_ok s m' : sys_ok s → signals_only (s_m s) m' → sys_ok (mkSys m' (s_phase s)).
Proof.
  intros Hok (Ht & Hn & Hs) p. specialize (Hok p). specialize (Hs p). unfold waiter_ok, queue_of in *. cbn. rewrite Ht, Hn.
  destruct (sm_store m' !! p) as [w'|], (sm_store (s_m s) !! p) as [w|]; [|done..].
  injection Hs as Ha Hc _ Hr. by rewrite Ha, Hc, Hr.
Qed.

Lemma step_ok s s' : sys_ok s → step s s' → sys_ok s'.
Proof.
  intros Hok Hst p'. pose proof (Hok p') as Hp'. unfold waiter_ok in *.
  destruct Hst as [s noKey ch chs m' p En|s p ch rest Hph|s p Hph|s p Hph|s p Hph|s p ch rest Hph|s p Hph|s ch|s ch].
  - injection En as <- <-. cbn. pose proof (Hok (sm_next (s_m s))) as Hn. unfold waiter_ok in Hn.
    assert (Hfresh : sm_store (s_m s) !! sm_next (s_m s) = None).
    { destruct (sm_store (s_m s) !! sm_next (s_m s)) as [w|]; [|done]. destruct (s_phase s !! sm_next (s_m s)); [lia|done]. }
    rewrite Hfresh in Hn. destruct (s_phase s !! sm_next (s_m s)) eqn:Ep; [done|].
    destruct (decide (p' = sm_next (s_m s))) as [->|Hne].
    + rewrite !lookup_insert_eq. split_and!; [lia|done|done|]. intros h. cbn [queued_in w_channels].
      change (occurrences (sm_next (s_m s)) (queue_of (s_m s) h) + hashed h (ch :: chs) = hashed h (ch :: chs))%nat.
      by rewrite Hn.
    + rewrite !lookup_insert_ne by done. destruct (sm_store _ !! p'), (s_phase s !! p'); [|done..].
      destruct Hp' as (? & ? & ? & ?). split_and!; [lia|done..].
  - destruct (store_append p ch (s_m s)) as [Hst Hnx]. cbn [s_m s_phase]. rewrite Hst, Hnx.
    destruct (ok_phase s p _ Hok Hph) as [w Hw].
    destruct (decide (p' = p)) as [->|Hne].
    + rewrite lookup_insert_eq, Hw in *. rewrite Hph in Hp'. destruct Hp' as (? & ? & ? & Hq).
      split_and!; [done..|]. intros h. specialize (Hq h). cbn [queued_in] in *. rewrite queue_append.
      rewrite hashed_cons in Hq. destruct (decide (h = xxh3_Hash ch)) as [->|Hh].
      * rewrite decide_True in Hq by done. rewrite occurrences_app. unfold occurrences at 2.
        rewrite filter_cons_True by done. cbn. lia.
      * rewrite decide_False in Hq by done. lia.
    + rewrite lookup_insert_ne by done. destruct (sm_store _ !! p'), (s_phase s !! p'); [|done..|].
      * destruct Hp' as (? & ? & ? & Hq). split_and!; [done..|]. intros h. by rewrite occurrences_append_ne.
      * intros h. by rewrite occurrences_append_ne.
  - cbn. destruct (decide (p' = p)) as [->|Hne]; [|by rewrite lookup_insert_ne].
    rewrite lookup_insert_eq. rewrite Hph in Hp'. destruct (sm_store _ !! p); [|done].
    destruct Hp' as (? & ? & ? & Hq). split_and!; [done..|]. intros h. specialize (Hq h). cbn in *. lia.
  - destruct (ok_phase s p _ Hok Hph) as [w Hw].
    by apply (flags_ok s p (set_canceled true) w Registered Swapped Hok Hph Hw).
  - destruct (ok_phase s p _ Hok Hph) as [w Hw]. unfold channels_of. rewrite Hw.
    by apply (flags_ok s p (set_alive false) w Swapped (Removing (w_channels w)) Hok Hph Hw).
  - destruct (store_remove p ch (s_m s)) as [Hst Hnx]. cbn [s_m s_phase]. rewrite Hst, Hnx.
    destruct (ok_phase s p _ Hok Hph) as [w Hw].
    destruct (decide (p' = p)) as [->|Hne].
    + rewrite lookup_insert_eq, Hw in *. rewrite Hph in Hp'. destruct Hp' as (? & ? & ? & Hq).
      split_and!; [done..|]. intros h. specialize (Hq h). cbn [queued_in] in *. rewrite queue_remove.
      rewrite hashed_cons in Hq. destruct (decide (h = xxh3_Hash ch)) as [->|Hh].
      * rewrite decide_True in Hq by done. rewrite occurrences_remove. lia.
      * rewrite decide_False in Hq by done. lia.
    + rewrite lookup_insert_ne by done. destruct (sm_store _ !! p'), (s_phase s !! p'); [|done..|].
      * destruct Hp' as (? & ? & ? & Hq). split_and!; [done..|]. intros h. by rewrite occurrences_remove_from_ne.
      * intros h. by rewrite occurrences_remove_from_ne.
  - apply (signals_ok s _ Hok). apply signals_upd.
  - apply (signals_ok s _ Hok). apply signals_Notify.
  - apply (signals_ok s _ Hok). unfold NotifyAllWaiters. destruct (sm_topics _ !! _); [apply signals_notifyAll|done].
Qed.

Lemma init_ok : sys_ok init_sys.
Proof.
  intros p. unfold waiter_ok. cbn. rewrite !lookup_empty. intros h. unfold queue_of. cbn. by rewrite lookup_empty.
Qed.

Lemma steps_ok s s' : sys_ok s → rtc step s s' → sys_ok s'.
Proof. intros Hok Hr. induction Hr as [|s1 s2 s3 Hst _ IH]; [done|]. apply IH. by eapply step_ok. Qed.

Lemma reachable_ok s : reachable s → sys_ok s.
Proof. apply steps_ok, init_ok. Qed.

(** ** First come, first served *)

(** A waiter stays in the store, and never comes to life again. *)
Lemma step_alive s s' p w : sys_ok s → step s s' → sm_store (s_m s) !! p = Some w →
  ∃ w', sm_store (s_m s') !! p = Some w' ∧ (w_alive w' = true → w_alive w = true).
Proof.
  intros Hok Hst Hw.
  assert (Hsig : ∀ m', signals_only (s_m s) m' →
    ∃ w', sm_store m' !! p = Some w' ∧ (w_alive w' = true → w_alive w = true)).
  { intros m' (_ & _ & Hs). specialize (Hs p). rewrite Hw in Hs. destruct (sm_store m' !! p) as [w'|]; [|done].
    injection Hs as Ha _ _ _. exists w'. by rewrite Ha. }
  assert (Hupd : ∀ p1 f, (∀ w, w_alive (f w) = true → w_alive w = true) →
    ∃ w', alter f p1 (sm_store (s_m s)) !! p = Some w' ∧ (w_alive w' = true → w_alive w = true)).
  { intros p1 f Hf. destruct (decide (p = p1)) as [->|Hne].
    - exists (f w). rewrite lookup_alter_eq, Hw. auto.
    - exists w. by rewrite lookup_alter_ne. }
  destruct Hst as [s noKey ch chs m' p1 En|s p1 ch rest Hph|s p1 Hph|s p1 Hph|s p1 Hph|s p1 ch rest Hph|s p1 Hph|s ch|s ch];
    cbn [s_m].
  - injection En as <- <-. cbn. destruct (decide (p = sm_next (s_m s))) as [->|Hne].
    + exfalso. specialize (Hok (sm_next (s_m s))). unfold waiter_ok in Hok. rewrite Hw in Hok.
      destruct (s_phase s !! sm_next (s_m s)); [lia|done].
    + exists w. by rewrite lookup_insert_ne.
  - destruct (store_append p1 ch (s_m s)) as [-> _]. eauto.
  - eauto.
  - by apply Hupd.
  - by apply Hupd.
  - destruct (store_remove p1 ch (s_m s)) as [-> _]. eauto.
  - apply Hsig, signals_upd.
  - apply Hsig, signals_Notify.
  - apply Hsig. unfold NotifyAllWaiters. destruct (sm_topics _ !! _); [apply signals_notifyAll|done].
Qed.

Lemma steps_alive s s' p w : sys_ok s → rtc step s s' → sm_store (s_m s) !! p = Some w →
  ∃ w', sm_store (s_m s') !! p = Some w' ∧ (w_alive w' = true → w_alive w = true).
Proof.
  intros Hok Hr. revert w Hok. induction Hr as [s|s1 s2 s3 Hst _ IH]; intros w Hok Hw; [eauto|].
  destruct (step_alive _ _ _ _ Hok Hst Hw) as (w2 & Hw2 & Ha2).
  destruct (IH w2 (step_ok _ _ Hok Hst) Hw2) as (w3 & Hw3 & Ha3). eauto.
Qed.

(** Entries of a queue are in the store. *)
Lemma entry_in_store s h p : sys_ok s → Some p ∈ queue_of (s_m s) h → is_Some (sm_store (s_m s) !! p).
Proof.
  intros Hok Hin. specialize (Hok p). unfold waiter_ok in Hok.
  destruct (sm_store (s_m s) !! p); [eauto|]. destruct (s_phase s !! p); [done|].
  apply occurrences_pos in Hin. rewrite Hok in Hin. lia.
Qed.

Lemma step_oldest s s' h p : sys_ok s → step s s' →
  oldest (s_m s) (queue_of (s_m s) h) = Some p →
  oldest (s_m s') (queue_of (s_m s') h) = Some p ∨ live_entry (s_m s') (Some p) = false.
Proof.
  intros Hok Hst Ho. destruct (oldest_live _ _ _ Ho) as [Hl Hin].
  assert (Hsig : ∀ m', signals_only (s_m s) m' → oldest m' (queue_of m' h) = Some p).
  { intros m' Hs. unfold queue_of. rewrite (proj1 Hs). rewrite <- Ho. apply oldest_ext. intros e _. by apply signals_live. }
  destruct Hst as [s noKey ch chs m' p1 En|s p1 ch rest Hph|s p1 Hph|s p1 Hph|s p1 Hph|s p1 ch rest Hph|s p1 Hph|s ch|s ch].
  - left. injection En as <- <-. cbn [s_m]. change (queue_of _ h) with (queue_of (s_m s) h) at 1. rewrite <- Ho.
    apply oldest_ext. intros [p2|] He; [|done]. cbn.
    assert (Hne : p2 ≠ sm_next (s_m s)).
    { intros ->. destruct (entry_in_store s h _ Hok He) as [w Hw]. specialize (Hok (sm_next (s_m s))).
      unfold waiter_ok in Hok. rewrite Hw in Hok. destruct (s_phase s !! sm_next (s_m s)); [lia|done]. }
    by rewrite lookup_insert_ne.
  - left. cbn [s_m]. assert (He : ∀ q, oldest (append_waiter p1 ch (s_m s)) q = oldest (s_m s) q).
    { intros q. apply oldest_ext. intros [p2|] _; [|done]. cbn. by rewrite (proj1 (store_append p1 ch (s_m s))). }
    rewrite He, queue_append. case_decide; [by apply oldest_app|done].
  - by left.
  - left. cbn [s_m]. change (queue_of _ h) with (queue_of (s_m s) h). rewrite <- Ho. apply oldest_ext.
    intros [p2|] _; [|done]. cbn. destruct (decide (p2 = p1)) as [->|]; [|by rewrite lookup_alter_ne].
    rewrite lookup_alter_eq. by destruct (sm_store (s_m s) !! p1).
  - cbn [s_m]. change (queue_of _ h) with (queue_of (s_m s) h).
    destruct (live_entry (upd (set_alive false) p1 (s_m s)) (Some p)) eqn:El; [left|by right].
    eapply oldest_shrink; [|exact Ho|done]. intros [p2|] He _; [|done]. cbn in He |- *.
    destruct (decide (p2 = p1)) as [->|]; [|by rewrite lookup_alter_ne in He].
    rewrite lookup_alter_eq in He. by destruct (sm_store (s_m s) !! p1).
  - left. cbn [s_m]. assert (He : ∀ q, oldest (remove_from p1 ch (s_m s)) q = oldest (s_m s) q).
    { intros q. apply oldest_ext. intros [p2|] _; [|done]. cbn. by rewrite (proj1 (store_remove p1 ch (s_m s))). }
    rewrite He, queue_remove. case_decide; [|done]. rewrite oldest_remove; [done|].
    destruct (ok_phase s p1 _ Hok Hph) as [w Hw]. specialize (Hok p1). unfold waiter_ok in Hok. cbn.
    rewrite Hw, Hph in Hok. rewrite Hw. apply Hok.
  - left. apply Hsig, signals_upd.
  - left. apply Hsig, signals_Notify.
  - left. apply Hsig. unfold NotifyAllWaiters. destruct (sm_topics _ !! _); [apply signals_notifyAll|done].
Qed.

Lemma steps_oldest s s' h p : sys_ok s → rtc step s s' →
  oldest (s_m s) (queue_of (s_m s) h) = Some p →
  oldest (s_m s') (queue_of (s_m s') h) = Some p ∨ live_entry (s_m s') (Some p) = false.
Proof.
  intros Hok Hr. revert Hok. induction Hr as [s|s1 s2 s3 Hst Hr IH]; intros Hok Ho; [by left|].
  pose proof (step_ok _ _ Hok Hst) as Hok2.
  destruct (step_oldest _ _ _ _ Hok Hst Ho) as [Ho2|Hd2]; [by apply IH|]. right.
  destruct (oldest_live _ _ _ Ho) as [_ Hin]. destruct (entry_in_store _ _ _ Hok Hin) as [w Hw].
  destruct (step_alive _ _ _ _ Hok Hst Hw) as (w2 & Hw2 & _).
  destruct (steps_alive _ _ _ _ Hok2 Hr Hw2) as (w3 & Hw3 & Ha3).
  cbn in Hd2 |- *. rewrite Hw2 in Hd2. rewrite Hw3. destruct (w_alive w3); [|done]. by rewrite Ha3 in Hd2.
Qed.
(** ** The whole operations are interleavings of the steps *)

Lemma append_steps p chs m ph :
  ph !! p = Some (Registering chs) →
  rtc step (mkSys m ph) (mkSys (foldl (λ m ch, append_waiter p ch m) m chs) (<[p := Registered]> ph)).
Proof.
  revert m ph. induction chs as [|ch chs IH]; intros m ph Hp; cbn [foldl].
  - by apply rtc_once, (step_registered (mkSys m ph)).
  - eapply rtc_l; [by apply (step_append (mkSys m ph) p ch chs)|]. cbn [s_m s_phase].
    replace (<[p := Registered]> ph) with (<[p := Registered]> (<[p := Registering chs]> ph)) by by rewrite insert_insert_eq.
    apply IH. by rewrite lookup_insert_eq.
Qed.

Lemma register_steps noKey ch chs m ph p m' :
  RegisterWithOptions noKey (ch :: chs) m = (Some p, m') →
  rtc step (mkSys m ph) (mkSys m' (<[p := Registered]> ph)).
Proof.
  unfold RegisterWithOptions. destruct (new_waiter noKey (ch :: chs) m) as [p1 m1] eqn:E. intros [= <- <-].
  eapply rtc_l; [by apply (step_new (mkSys m ph) noKey ch chs m1 p1)|]. cbn [s_m s_phase].
  replace (<[p1 := Registered]> ph) with (<[p1 := Registered]> (<[p1 := Registering (ch :: chs)]> ph))
    by by rewrite insert_insert_eq.
  apply (append_steps p1 (ch :: chs)). by rewrite lookup_insert_eq.
Qed.

Lemma remove_steps p chs m ph :
  ph !! p = Some (Removing chs) →
  rtc step (mkSys m ph) (mkSys (foldl (λ m ch, remove_from p ch m) m chs) (<[p := Removing []]> ph)).
Proof.
  revert m ph. induction chs as [|ch chs IH]; intros m ph Hp; cbn [foldl].
  - by rewrite insert_id.
  - eapply rtc_l; [by apply (step_remove (mkSys m ph) p ch chs)|]. cbn [s_m s_phase].
    replace (<[p := Removing []]> ph) with (<[p := Removing []]> (<[p := Removing chs]> ph)) by by rewrite insert_insert_eq.
    apply IH. by rewrite lookup_insert_eq.
Qed.

Lemma registered_not_canceled s p : sys_ok s → at_phase s p Registered → canceled p (s_m s) = false.
Proof.
  intros Hok Hp. destruct (ok_phase s p _ Hok Hp) as [w Hw]. specialize (Hok p). unfold waiter_ok in Hok.
  rewrite Hw, Hp in Hok. unfold canceled. rewrite Hw. apply Hok.
Qed.

Lemma cancel_steps s p : sys_ok s → at_phase s p Registered →
  rtc step s (mkSys (Cancel p (s_m s)) (<[p := Removing []]> (s_phase s))).
Proof.
  intros Hok Hp. unfold Cancel. rewrite (registered_not_canceled s p Hok Hp).
  eapply rtc_l; [by apply step_swap|]. eapply rtc_l; [apply step_dead; apply lookup_insert_eq|]. cbn [s_m s_phase].
  rewrite insert_insert_eq.
  replace (channels_of p (upd (set_canceled true) p (s_m s))) with (channels_of p (s_m s)).
  2:{ unfold channels_of. cbn. rewrite lookup_alter_eq. by destruct (sm_store (s_m s) !! p). }
  replace (<[p := Removing []]> (s_phase s)) with
    (<[p := Removing []]> (<[p := Removing (channels_of p (s_m s))]> (s_phase s))) by by rewrite insert_insert_eq.
  apply remove_steps. by rewrite lookup_insert_eq.
Qed.

(** ** What the operations do *)

(** C30: in every interleaving of registrations, cancellations and
    notifications, a registered client is queued on each of its keys, and one
    whose cancellation is complete on none, its signals ignored for good. *)
Theorem registry_invariant (s : System) (p : nat) (w : Waiter) :
  reachable s → sm_store (s_m s) !! p = Some w →
  (at_phase s p Registered → w_alive w = true ∧ ∀ ch, ch ∈ w_channels w → Some p ∈ queue_of (s_m s) (xxh3_Hash ch)) ∧
  (at_phase s p (Removing []) → w_alive w = false ∧ ∀ h, Some p ∉ queue_of (s_m s) h).
Proof.
  intros Hr Hw. pose proof (reachable_ok s Hr p) as Hok. unfold waiter_ok in Hok. rewrite Hw in Hok.
  split; intros Hp; rewrite Hp in Hok; destruct Hok as (_ & Ha & _ & Hq); (split; [done|]).
  - intros ch Hch. apply occurrences_pos. specialize (Hq (xxh3_Hash ch)). cbn in Hq. rewrite Hq.
    unfold hashed. assert (Hin : ch ∈ filter (λ c, xxh3_Hash c = xxh3_Hash ch) (w_channels w)) by by apply list_elem_of_filter.
    destruct (filter _ _); [by apply not_elem_of_nil in Hin|]. cbn. lia.
  - intros h Hin. apply occurrences_pos in Hin. specialize (Hq h). cbn in Hq. unfold hashed in Hq. cbn in Hq. lia.
Qed.

(** C11: first come, first served: once a client is the oldest live waiter of
    a key it stays the only one the key serves, whatever other clients do, until
    it is cancelled. *)
Theorem oldest_waiter_first (s s' : System) (ch : bytes) (p p' : nat) :
  reachable s → rtc step s s' →
  Some p ∈ queue_of (s_m s) (xxh3_Hash ch) → IsOldestWaiter p ch (s_m s) = true →
  live_entry (s_m s') (Some p) = true →
  IsOldestWaiter p ch (s_m s') = true ∧ (IsOldestWaiter p' ch (s_m s') = true → p' = p).
Proof.
  intros Hr Hs Hin Ho Hl. pose proof (reachable_ok s Hr) as Hok.
  assert (Hl0 : live_entry (s_m s) (Some p) = true).
  { destruct (entry_in_store _ _ _ Hok Hin) as [w Hw]. destruct (steps_alive _ _ _ _ Hok Hs Hw) as (w' & Hw' & Ha).
    cbn in Hl |- *. rewrite Hw' in Hl. rewrite Hw. auto. }
  assert (Ho' : oldest (s_m s) (queue_of (s_m s) (xxh3_Hash ch)) = Some p).
  { unfold IsOldestWaiter, queue_of in *. destruct (sm_topics (s_m s) !! xxh3_Hash ch) as [q|]; [|by apply not_elem_of_nil in Hin].
    destruct (oldest (s_m s) q) as [p1|] eqn:E; [by apply bool_decide_eq_true in Ho as ->|].
    exfalso. clear -Hin Hl0 E. induction q as [|e q IH]; [by apply not_elem_of_nil in Hin|]. cbn [oldest] in E.
    destruct (live_entry (s_m s) e) eqn:El; [subst e; done|]. apply elem_of_cons in Hin as [<-|Hin]; [by rewrite Hl0 in El|auto]. }
  destruct (steps_oldest _ _ _ _ Hok Hs Ho') as [Hn|Hd]; [|by rewrite Hl in Hd].
  unfold IsOldestWaiter, queue_of in *. destruct (sm_topics (s_m s') !! xxh3_Hash ch) as [q|]; [|done].
  rewrite Hn. split; [by apply bool_decide_eq_true_2|]. intros Hb. by apply bool_decide_eq_true in Hb.
Qed.

(** [Notify] signals the oldest live waiter of the key and touches nothing
    else; it answers false exactly when the key has no live waiter. *)
Theorem Notify_correct (ch : bytes) (m : SubscriptionManager) :
  let q := queue_of m (xxh3_Hash ch) in
  match oldest m q with
  | Some p => ∃ w, sm_store m !! p = Some w ∧
      Notify ch m = (true, mkSM (<[p := set_ch true w]> (sm_store m)) (sm_next m) (sm_topics m))
  | None => Notify ch m = (false, m) ∧ ∀ e, e ∈ q → live_entry m e = false
  end.
Proof.
  cbv zeta. unfold Notify, notifyOldest, queue_of. destruct (sm_topics m !! _) as [q|]; cbn.
  - destruct (oldest m q) as [p|] eqn:E.
    + destruct (oldest_live _ _ _ E) as [Hl _]. cbn in Hl. destruct (sm_store m !! p) as [w|] eqn:Ew; [|done].
      exists w. split; [done|]. unfold upd. by rewrite (alter_alt_Some _ _ _ w).
    + split; [done|]. intros e He. induction q as [|e' q IH]; [by apply not_elem_of_nil in He|].
      cbn [oldest] in E. destruct (live_entry m e') eqn:El; [by subst e'|].
      apply elem_of_cons in He as [->|He]; auto.
  - split; [done|]. intros e He. by apply not_elem_of_nil in He.
Qed.
Lemma store_removes p chs m : sm_store (foldl (λ m ch, remove_from p ch m) m chs) = sm_store m.
Proof.
  revert m. induction chs as [|ch chs IH]; intros m; [done|]. cbn. rewrite IH. apply store_remove.
Qed.

Lemma store_Cancel p m w : sm_store m !! p = Some w → r_canceled w = false →
  sm_store (Cancel p m) = <[p := set_alive false (set_canceled true w)]> (sm_store m).
Proof.
  intros Hw Hc. unfold Cancel, canceled. rewrite Hw, Hc, store_removes. cbn.
  rewrite (alter_alt_Some (set_canceled true) _ _ w) by done.
  rewrite (alter_alt_Some _ _ _ (set_canceled true w)) by apply lookup_insert_eq. by rewrite insert_insert_eq.
Qed.

Lemma occurrences_Cancel_ne p p' chs m h : p' ≠ p →
  occurrences p' (queue_of (foldl (λ m ch, remove_from p ch m) m chs) h) = occurrences p' (queue_of m h).
Proof.
  intros Hne. revert m. induction chs as [|ch chs IH]; intros m; [done|]. cbn. rewrite IH.
  by apply occurrences_remove_from_ne.
Qed.

Lemma Cancel_facts s p w : sys_ok s → at_phase s p Registered → sm_store (s_m s) !! p = Some w →
  (∀ h, Some p ∉ queue_of (Cancel p (s_m s)) h) ∧
  sm_store (Cancel p (s_m s)) = <[p := set_alive false (set_canceled true w)]> (sm_store (s_m s)).
Proof.
  intros Hok Hp Hw. pose proof (registered_not_canceled s p Hok Hp) as Hc. unfold canceled in Hc. rewrite Hw in Hc.
  pose proof (store_Cancel p (s_m s) w Hw Hc) as Hs. split; [|done].
  pose proof (steps_ok _ _ Hok (cancel_steps s p Hok Hp) p) as Hok'. unfold waiter_ok in Hok'. cbn [s_m s_phase] in Hok'.
  rewrite Hs, lookup_insert_eq, lookup_insert_eq in Hok'. destruct Hok' as (_ & _ & _ & Hq).
  intros h Hin. apply occurrences_pos in Hin. specialize (Hq h). cbn in Hq. unfold hashed in Hq. cbn in Hq. lia.
Qed.

(** [Cancel] takes the waiter, and only it, out of every queue and makes
    it dead, and a second call does nothing; whatever interleaving led there. *)
Theorem Cancel_correct (s : System) (p : nat) (w : Waiter) :
  reachable s → at_phase s p Registered → sm_store (s_m s) !! p = Some w →
  let m' := Cancel p (s_m s) in
  (∀ h, Some p ∉ queue_of m' h) ∧
  (∀ p' h, p' ≠ p → occurrences p' (queue_of m' h) = occurrences p' (queue_of (s_m s) h)) ∧
  sm_store m' = <[p := set_alive false (set_canceled true w)]> (sm_store (s_m s)) ∧
  Cancel p m' = m' ∧ reachable (mkSys m' (<[p := Removing []]> (s_phase s))).
Proof.
  intros Hr Hp Hw m'. pose proof (reachable_ok s Hr) as Hok.
  destruct (Cancel_facts s p w Hok Hp Hw) as [Hq Hs]. fold m' in Hq, Hs.
  split_and!; [done| |done| |].
  - intros p' h Hne. unfold m', Cancel. by rewrite (registered_not_canceled s p Hok Hp), occurrences_Cancel_ne.
  - unfold Cancel at 1, canceled. rewrite Hs. by rewrite lookup_insert_eq.
  - unfold reachable. etrans; [exact Hr|]. by apply cancel_steps.
Qed.

Definition pending (m : SubscriptionManager) (p : nat) : bool :=
  match sm_store m !! p with Some w => w_ch w | None => false end.

Lemma pending_upd p p' m : pending m p = true → pending (upd (set_ch true) p' m) p = true.
Proof.
  unfold pending. cbn. destruct (decide (p = p')) as [->|].
  - rewrite lookup_alter_eq. by destruct (sm_store m !! p').
  - by rewrite lookup_alter_ne.
Qed.

Lemma pending_Notify ch m p : pending m p = true → pending (snd (Notify ch m)) p = true.
Proof.
  unfold Notify, notifyOldest. destruct (sm_topics m !! _) as [q|]; [|done].
  destruct (oldest m q); [apply pending_upd|done].
Qed.

Lemma Notify_pending ch m p : oldest m (queue_of m (xxh3_Hash ch)) = Some p → pending (snd (Notify ch m)) p = true.
Proof.
  intros Ho. destruct (oldest_live _ _ _ Ho) as [Hl _]. cbn in Hl. unfold Notify, notifyOldest, queue_of in *.
  destruct (sm_topics m !! _) as [q|]; [|done]. rewrite Ho. unfold pending. cbn. rewrite lookup_alter_eq.
  by destruct (sm_store m !! p).
Qed.

Lemma renotify_all chs m : let m' := foldl (λ m ch, snd (Notify ch m)) m chs in
  signals_only m m' ∧ (∀ p, pending m p = true → pending m' p = true) ∧
  ∀ ch p, ch ∈ chs → oldest m' (queue_of m' (xxh3_Hash ch)) = Some p → pending m' p = true.
Proof.
  cbv zeta. revert m. induction chs as [|ch chs IH]; intros m; cbn [foldl].
  { split_and!; [done|done|]. intros ch p Hin. by apply not_elem_of_nil in Hin. }
  destruct (IH (snd (Notify ch m))) as (Hs & Hp & Ho). split_and!.
  - eapply signals_trans; [apply signals_Notify|exact Hs].
  - intros p Hpm. by apply Hp, pending_Notify.
  - intros ch' p [->|Hin]%elem_of_cons Hold; [|by eapply Ho]. apply Hp, Notify_pending.
    assert (Hall : signals_only m (foldl (λ m ch, snd (Notify ch m)) (snd (Notify ch m)) chs)).
    { eapply signals_trans; [apply signals_Notify|exact Hs]. }
    rewrite <- Hold. unfold queue_of. rewrite (proj1 Hall). symmetry. apply oldest_ext. intros e _. by apply signals_live.
Qed.

(** C31: a client that gives up with [CancelAndRenotify] leaves a signal with
    the next live client of each of its keys. *)
Theorem CancelAndRenotify_wakes (s : System) (p : nat) (ch : bytes) (next : nat) :
  reachable s → at_phase s p Registered → ch ∈ channels_of p (s_m s) →
  let m' := CancelAndRenotify p (s_m s) in
  oldest m' (queue_of m' (xxh3_Hash ch)) = Some next → next ≠ p ∧ pending m' next = true.
Proof.
  intros Hr Hp Hch m' Ho.
  destruct (renotify_all (channels_of p (s_m s)) (Cancel p (s_m s))) as (Hs & _ & Hw). split; [|by eapply Hw].
  intros ->. pose proof (reachable_ok s Hr) as Hok. destruct (ok_phase s p _ Hok Hp) as [w Hsw].
  destruct (Cancel_facts s p w Hok Hp Hsw) as [Hq _]. destruct (oldest_live _ _ _ Ho) as [_ Hin].
  apply (Hq (xxh3_Hash ch)). unfold m', CancelAndRenotify, queue_of in Hin. by rewrite (proj1 Hs) in Hin.
Qed.

(** The queue of a key never gets shorter: the nil entries of removed waiters
    are not compacted. *)
Theorem queues_never_shrink (s s' : System) (h : Z) :
  rtc step s s' → (length (queue_of (s_m s) h) <= length (queue_of (s_m s') h))%nat.
Proof.
  induction 1 as [|s1 s2 s3 Hst _ IH]; [done|]. etrans; [|exact IH]. clear IH.
  assert (Hsig : ∀ m', signals_only (s_m s1) m' → (length (queue_of (s_m s1) h) <= length (queue_of m' h))%nat).
  { intros m' Hs. unfold queue_of. by rewrite (proj1 Hs). }
  destruct Hst as [s noKey ch chs m' p1 En|s p1 ch rest Hph|s p1 Hph|s p1 Hph|s p1 Hph|s p1 ch rest Hph|s p1 Hph|s ch|s ch];
    cbn [s_m].
  - by injection En as <- <-.
  - rewrite queue_append. case_decide; [rewrite length_app; lia|done].
  - done.
  - done.
  - done.
  - rewrite queue_remove. case_decide; [by rewrite length_remove_waiter|done].
  - apply Hsig, signals_upd.
  - apply Hsig, signals_Notify.
  - apply Hsig. unfold NotifyAllWaiters. destruct (sm_topics _ !! _); [apply signals_notifyAll|done].
Qed.
End Registry.

(** ** A signal that is lost

    Two clients wait for a key and two elements arrive: both signals go to the
    older client, which takes one element and leaves with [Cancel]; the younger
    one is then the oldest waiter of a key that has data, with no signal. *)
Module LostWakeup.
#[export] Instance byte_sum : Xxh3 := λ b, foldr Z.add 0 b.
Definition k : bytes := str "k".
Definition m0 := snd (Register [k] (snd (Register [k] NewSubscriptionManager))).
Definition m1 := snd (Notify k (snd (Notify k m0))).
Definition m2 := Cancel 0 (snd (Wait 0 false false m1)).

Example second_client_not_woken :
  fst (Register [k] NewSubscriptionManager) = Some 0%nat ∧
  fst (Register [k] (snd (Register [k] NewSubscriptionManager))) = Some 1%nat ∧
  fst (Notify k m0) = true ∧ fst (Notify k (snd (Notify k m0))) = true ∧
  fst (Wait 0 false false m1) = Woken ∧
  IsOldestWaiter 1 k m2 = true ∧ live_entry m2 (Some 1%nat) = true ∧
  fst (Wait 1 false false m2) = StillBlocked.
Proof. vm_compute. split_and!; reflexivity. Qed.
End LostWakeup.

(** ** Blocking and unblocking a connection *)
Import BlockState.

(** What the phases of the connection's goroutine say of the shared fields. *)
Definition bsys_ok (s : BSys) : Prop :=
  match bs_client s with
  | Running => b_blocked (bs_conn s) = false ∧ b_unblockCancel (bs_conn s) = None
  | Arming k => b_blocked (bs_conn s) = false ∧ b_unblockCancel (bs_conn s) = Some k
  | InBlock k => b_blocked (bs_conn s) = true ∧ b_unblockCancel (bs_conn s) = Some k
  | Ending k => b_blocked (bs_conn s) = true ∧ b_unblockCancel (bs_conn s) = Some k
  | Disarming k => b_blocked (bs_conn s) = false ∧ b_unblockCancel (bs_conn s) = Some k
  end.

Lemma bstep_ok s s' : bsys_ok s → bstep s s' → bsys_ok s'.
Proof.
  intros Hok Hst. destruct Hst; unfold bsys_ok in *; cbn in *;
    repeat match goal with cl : Client |- _ => destruct cl end; naive_solver.
Qed.

(** Whatever Block, its cleanup and CLIENT UNBLOCK interleave to, the
    blocked flag is only ever seen set while a cancel function is stored; so an
    unblock that takes one during the block cancels that block's context. *)
Theorem blocked_has_cancel (s : BSys) :
  rtc bstep binit s → b_blocked (bs_conn s) = true →
  ∃ k, b_unblockCancel (bs_conn s) = Some k ∧ (bs_client s = InBlock k ∨ bs_client s = Ending k).
Proof.
  intros Hr Hb. assert (Hok : bsys_ok s).
  { assert (Hi : bsys_ok binit) by done. induction Hr as [|s1 s2 s3 Hst _ IH]; [done|].
    apply IH; [done|]. by eapply bstep_ok. }
  unfold bsys_ok in Hok. destruct (bs_client s) as [|k|k|k|k]; destruct Hok as [Hf Hc]; rewrite Hf in Hb; try done; eauto.
Qed.

(** ** Examples: two clients waiting for "k" *)
Module RegistryExample.
Import LostWakeup.

Definition phases : gmap nat Phase := <[1%nat := Registered]> (<[0%nat := Registered]> ∅).
Definition both : System := mkSys m0 phases.
Definition w0 : Waiter := mkWaiter false true [k] false false.

Lemma both_reachable : reachable both.
Proof.
  unfold reachable, init_sys. etrans.
  - apply (register_steps false k [] NewSubscriptionManager ∅ 0 (snd (Register [k] NewSubscriptionManager))).
    reflexivity.
  - apply (register_steps false k [] (snd (Register [k] NewSubscriptionManager)) _ 1 m0). reflexivity.
Qed.

Lemma registry_invariant_witness :
  w_alive w0 = true ∧ ∀ ch, ch ∈ w_channels w0 → Some 0%nat ∈ queue_of (s_m both) (xxh3_Hash ch).
Proof.
  destruct (registry_invariant both 0 w0 both_reachable) as [Hr _]; [vm_compute; reflexivity|].
  apply Hr. vm_compute. reflexivity.
Defined.

Lemma oldest_waiter_first_witness :
  IsOldestWaiter 0 k (s_m both) = true ∧ (IsOldestWaiter 1 k (s_m both) = true → 1%nat = 0%nat).
Proof.
  apply (oldest_waiter_first both both k 0 1 both_reachable).
  - apply rtc_refl.
  - apply (bool_decide_unpack (Some 0%nat ∈ queue_of (s_m both) (xxh3_Hash k))). vm_compute. exact I.
  - vm_compute. reflexivity.
  - vm_compute. reflexivity.
Defined.

Lemma Cancel_correct_witness :
  ∀ h, Some 0%nat ∉ queue_of (Cancel 0 (s_m both)) h.
Proof.
  destruct (Cancel_correct both 0 w0 both_reachable) as [Hq _].
  - vm_compute. reflexivity.
  - vm_compute. reflexivity.
  - exact Hq.
Defined.

Lemma CancelAndRenotify_wakes_witness :
  1%nat ≠ 0%nat ∧ pending (CancelAndRenotify 0 (s_m both)) 1 = true.
Proof.
  apply (CancelAndRenotify_wakes both 0 k 1 both_reachable).
  - vm_compute. reflexivity.
  - left.
  - vm_compute. reflexivity.
Defined.

Lemma blocked_has_cancel_witness :
  ∃ n, b_unblockCancel (mkBConn true (Some 0%nat) false []) = Some n ∧
    (InBlock 0 = InBlock n ∨ InBlock 0 = Ending n).
Proof.
  apply (blocked_has_cancel (mkBSys (mkBConn true (Some 0%nat) false []) (InBlock 0) Idle 1)).
  - eapply rtc_l; [apply b_arm|]. eapply rtc_l; [apply b_set|]. apply rtc_refl.
  - reflexivity.
Defined.
End RegistryExample.
