(* ===== verification/ListBlocking.v ===== *)
(** * The blocking list commands

    src/redis/list/blocking.go over the registry of blocked clients, and the
    timeouts of src/redis/shared/timeout.go.

    A blocking command tries, waits for a signal, and tries again; what the
    rest of the server does while it waits is given from outside, as the engine
    context and the registry each [Wait] returns to. *)

From Stdlib Require Import SpecFloat.
From S2P Require Import Prelude GoBytes Strconv Floats Commands Writer Engine Lists Blocking.

Local Open Scope Z_scope.

(** ** Timeouts *)

(** [strconv.ParseUint] with base 0: the base is that of the prefix, and
    underscores may separate digits. *)
Definition lower_letter (c : Z) : Z := Z.lor c 32.

Definition digit_value (c : Z) : option Z :=
  if (48 <=? c) && (c <=? 57) then Some (c - 48)
  else if (97 <=? lower_letter c) && (lower_letter c <=? 122) then Some (lower_letter c - 97 + 10)
  else None.

Fixpoint parse_digits (base n : Z) (s : bytes) : option Z :=
  match s with
  | [] => Some n
  | c :: s' =>
    if c =? 95 then parse_digits base n s'
    else match digit_value c with
    | None => None
    | Some d =>
      if base <=? d then None
      else if MaxUint64 <? n * base + d then None
      else parse_digits base (n * base + d) s'
    end
  end.

Definition split_base (s : bytes) : Z * bytes :=
  match s with
  | 48 :: c :: d :: rest =>
    if lower_letter c =? 98 then (2, d :: rest)
    else if lower_letter c =? 111 then (8, d :: rest)
    else if lower_letter c =? 120 then (16, d :: rest)
    else (8, c :: d :: rest)
  | 48 :: rest => (8, rest)
  | _ => (10, s)
  end.

(** [underscoreOK]: [i] is what was seen last. *)
Inductive Seen : Type := SeenStart | SeenDigit | SeenUnderscore | SeenOther.

Fixpoint underscore_scan (hex : bool) (i : Seen) (s : bytes) : bool :=
  match s with
  | [] => match i with SeenUnderscore => false | _ => true end
  | c :: s' =>
    if ((48 <=? c) && (c <=? 57)) || (hex && (97 <=? lower_letter c) && (lower_letter c <=? 102))
    then underscore_scan hex SeenDigit s'
    else if c =? 95 then match i with SeenDigit => underscore_scan hex SeenUnderscore s' | _ => false end
    else match i with SeenUnderscore => false | _ => underscore_scan hex SeenOther s' end
  end.

Definition underscoreOK (s : bytes) : bool :=
  let s := match s with c :: s' => if (c =? 45) || (c =? 43) then s' else s | [] => s end in
  match s with
  | 48 :: c :: rest =>
    if (lower_letter c =? 98) || (lower_letter c =? 111) || (lower_letter c =? 120)
    then underscore_scan (lower_letter c =? 120) SeenDigit rest
    else underscore_scan false SeenStart s
  | _ => underscore_scan false SeenStart s
  end.

Definition ParseUint0 (s : bytes) : option Z :=
  match s with
  | [] => None
  | _ =>
    let '(base, digits) := split_base s in
    match parse_digits base 0 digits with
    | None => None
    | Some n => if bool_decide (95 ∈ digits) && negb (underscoreOK s) then None else Some n
    end
  end.

Definition ParseInt0 (s : bytes) : option Z :=
  match s with
  | [] => None
  | c :: s' =>
    let neg := c =? 45 in
    match ParseUint0 (if neg || (c =? 43) then s' else s) with
    | None => None
    | Some un =>
      if negb neg && (2 ^ 63 <=? un) then None
      else if neg && (2 ^ 63 <? un) then None
      else Some (if neg then - un else un)
    end
  end.

(** [float64(1<<62) / float64(time.Second)]. *)
Definition max_timeout : spec_float := float_div (float64_of (2 ^ 62)) (float64_of 1000000000).

Definition bad_timeout : bytes := str "ERR timeout is not a float or out of range".

Section ListBlocking.
Context `{Engine} `{!Clock} `{Xxh3} `{ParseFloat}.

Definition ParseBlockingTimeout (s : bytes) : result bytes spec_float :=
  let parsed :=
    match parse_float s with
    | Some t => Some t
    | None =>
      match ParseInt0 s with
      | Some n => Some (float64_of n)
      | None => float64_of <$> ParseUint0 s
      end
    end in
  match parsed with
  | None => Err bad_timeout
  | Some t =>
    match t with
    | S754_nan | S754_infinity _ => Err bad_timeout
    | _ =>
      if SFltb t (S754_zero false) then Err (str "ERR timeout is negative")
      else if SFltb max_timeout t then Err (str "ERR timeout is out of range")
      else Ok t
    end
  end.

(** ** One attempt *)

(** [tryPop], for the registration [p] of registry [m]. *)
Definition tryPop (m : SubscriptionManager) (p : nat) (left : bool) (key : bytes) : M (option bytes) :=
  if negb (IsOldestWaiter p key m) then mret None
  else
    s ← getListSnapshot key;
    if negb (ks_exists s) || ks_wrongType s then mret None
    else match from_end left (ordered_elements s) with
    | [] => mret None
    | elem :: _ =>
      _ ← begin_read key (ks_tips s);
      _ ← emitListRemove key (el_Id elem);
      mret (Some (el_bytes elem))
    end.

(** [tryMultiPop]. *)
Definition tryMultiPop (m : SubscriptionManager) (p : nat) (left : bool) (count : Z) (key : bytes) :
    M (option (list bytes)) :=
  if negb (IsOldestWaiter p key m) then mret None
  else
    s ← getListSnapshot key;
    if negb (ks_exists s) || ks_wrongType s || (len (ordered_elements s) =? 0) then mret None
    else
      let elements := ordered_elements s in
      let n := Z.min count (len elements) in
      let popped := take (Z.to_nat n) (from_end left elements) in
      _ ← remove_elements key (ks_tips s) popped;
      mret (Some (el_bytes <$> popped)).

(** What an attempt comes to: a reply, having taken something or having been
    refused, or nothing yet. *)
Inductive Attempt : Type :=
  | Served (r : Writer → Writer)
  | Rejected (r : Writer → Writer)
  | NotYet.

(** The keys in order, until one serves. *)
Fixpoint try_keys {A} (try : bytes → M (option A)) (r : bytes → A → Writer → Writer) (keys : list bytes) :
    M Attempt :=
  match keys with
  | [] => mret NotYet
  | key :: keys' =>
    x ← try key;
    match x with
    | Some a => mret (Served (r key a))
    | None => try_keys try r keys'
    end
  end.

Definition pop_pair (key elem : bytes) (w : Writer) : Writer :=
  WriteBulkString elem (WriteBulkString key (WriteArray 2 w)).
Definition mpop_pair (key : bytes) (elems : list bytes) (w : Writer) : Writer :=
  foldl (λ w e, WriteBulkString e w) (WriteArray (len elems) (WriteBulkStringStr key (WriteArray 2 w))) elems.

Definition attempt_pop (left : bool) (keys : list bytes) (p : nat) (m : SubscriptionManager) : M Attempt :=
  try_keys (tryPop m p left) pop_pair keys.
Definition attempt_mpop (left : bool) (count : Z) (keys : list bytes) (p : nat) (m : SubscriptionManager) : M Attempt :=
  try_keys (tryMultiPop m p left count) mpop_pair keys.
Definition attempt_move (source destination : bytes) (popLeft pushLeft : bool) (p : nat) (m : SubscriptionManager) :
    M Attempt :=
  r ← doLMove source destination popLeft pushLeft;
  mret (match r with
        | Moved elem => Served (WriteBulkString elem)
        | MoveRefused errMsg => Rejected (WriteError errMsg)
        | NothingToMove => NotYet
        end).

(** ** The wait loop *)

(** How [reg.Wait] returns, with what the engine and the registry have become:
    woken, or ended by the timeout, by CLIENT UNBLOCK (with its error flag) or by
    the connection. *)
Inductive WaitEvent : Type :=
  | EvWoken (c : Ctx) (m : SubscriptionManager)
  | EvEnded (c : Ctx) (m : SubscriptionManager) (unblockError : bool).

(** The command has returned, or is still waiting after the events given. *)
Inductive BlockEnd : Type := Returned | Waiting | Stopped.

Definition unblocked : bytes := str "UNBLOCKED client unblocked via CLIENT UNBLOCK".

Fixpoint block_loop (attempt : nat → SubscriptionManager → M Attempt) (timedOut : Writer → Writer) (p : nat)
    (events : list WaitEvent) (m : SubscriptionManager) (st : St) : BlockEnd * SubscriptionManager * St :=
  match attempt p m st with
  | (Next (Served r), st') => (Returned, Cancel p m, mkSt (st_ctx st') (r (st_w st')) (st_held st'))
  | (Next (Rejected r), st') => (Returned, CancelAndRenotify p m, mkSt (st_ctx st') (r (st_w st')) (st_held st'))
  | (Next NotYet, st') =>
    match events with
    | [] => (Waiting, m, st')
    | EvWoken c m' :: events' =>
      block_loop attempt timedOut p events' m' (mkSt c (st_w st') (st_held st'))
    | EvEnded c m' unblockError :: _ =>
      (Returned, Cancel p m',
       mkSt c ((if unblockError then WriteError unblocked else timedOut) (st_w st')) (st_held st'))
    end
  | (Return, st') => (Returned, Cancel p m, st')
  | (_, st') => (Stopped, m, st')
  end.

(** Registers for the keys and enters the loop. *)
Definition block_on (attempt : nat → SubscriptionManager → M Attempt) (timedOut : Writer → Writer)
    (keys : list bytes) (events : list WaitEvent) (m : SubscriptionManager) (st : St) :
    BlockEnd * SubscriptionManager * St :=
  match Register keys m with
  | (None, m') =>
    (Returned, m', mkSt (st_ctx st) (WriteError (str "ERR register called with zero channels") (st_w st)) (st_held st))
  | (Some p, m') => block_loop attempt timedOut p events m' st
  end.

(** A part that runs before the wait: what it replies ends the command. *)
Definition before_block {A} (pre : M A) (next : A → SubscriptionManager → St → BlockEnd * SubscriptionManager * St)
    (m : SubscriptionManager) (st : St) : BlockEnd * SubscriptionManager * St :=
  match pre st with
  | (Next a, st') => next a m st'
  | (Return, st') => (Returned, m, st')
  | (_, st') => (Stopped, m, st')
  end.

(** In a script: the one-shot variant is prepared, and its runner dropped. *)
Definition drop_runner (pr : Prep) : M unit :=
  match pr with
  | Refuse _ f => write f
  | Accept _ _ => mret tt
  | Crash => or_panic None
  end.

Definition or_reply {A} (r : result bytes A) : M A :=
  match r with Ok a => mret a | Err msg => reply (WriteError msg) end.

(** ** The commands *)

Definition handleBlockingPop (left inScript : bool) (args : list bytes) (events : list WaitEvent) :
    SubscriptionManager → St → BlockEnd * SubscriptionManager * St :=
  before_block
    (if len args <? 2
     then reply (WriteWrongNumArguments (if left then str "blpop" else str "brpop"))
     else
       timeoutArg ← or_panic (last args);
       _ ← or_reply (ParseBlockingTimeout timeoutArg);
       let keys := take (length args - 1) args in
       _ ← check_list_types keys;
       if inScript then _ ← drop_runner (handleLPopNonBlocking left args); exit
       else mret keys)
    (λ keys, block_on (attempt_pop left keys) WriteNullArray keys events).
Definition handleBLPop := handleBlockingPop true.
Definition handleBRPop := handleBlockingPop false.

Definition handleBLMPop (inScript : bool) (args : list bytes) (events : list WaitEvent) :
    SubscriptionManager → St → BlockEnd * SubscriptionManager * St :=
  before_block
    (if inScript then _ ← drop_runner (handleBLMPopNonBlocking args); exit
     else match args with
     | t :: ((_ :: _ :: _ :: _) as rest) =>
       _ ← or_reply (ParseBlockingTimeout t);
       match parse_mpop 1 rest with
       | MPopRefuse _ f => reply f
       | MPopPanic => or_panic None
       | MPop keys fromLeft count =>
         _ ← check_list_types keys;
         mret (keys, fromLeft, count)
       end
     | _ => reply (WriteWrongNumArguments (str "blmpop"))
     end)
    (λ '(keys, fromLeft, count), block_on (attempt_mpop fromLeft count keys) WriteNullArray keys events).

Definition handleBLMove (inScript : bool) (args : list bytes) (events : list WaitEvent) :
    SubscriptionManager → St → BlockEnd * SubscriptionManager * St :=
  before_block
    (if inScript then _ ← drop_runner (handleBLMoveNonBlocking args); exit
     else match args with
     | [source; destination; from; to; t] =>
       _ ← or_reply (ParseBlockingTimeout t);
       match parse_direction from, parse_direction to with
       | Some popLeft, Some pushLeft => mret (source, destination, popLeft, pushLeft)
       | _, _ => reply syntax_error
       end
     | _ => reply (WriteWrongNumArguments (str "blmove"))
     end)
    (λ '(source, destination, popLeft, pushLeft),
       block_on (attempt_move source destination popLeft pushLeft) WriteNullBulkString [source] events).

Definition handleBRPopLPush (inScript : bool) (args : list bytes) (events : list WaitEvent) :
    SubscriptionManager → St → BlockEnd * SubscriptionManager * St :=
  before_block
    (if inScript then _ ← drop_runner (handleBRPopLPushNonBlocking args); exit
     else match args with
     | [source; destination; t] =>
       _ ← or_reply (ParseBlockingTimeout t);
       mret (source, destination)
     | _ => reply (WriteWrongNumArguments (str "brpoplpush"))
     end)
    (λ '(source, destination),
       block_on (attempt_move source destination false true) WriteNullBulkString [source] events).
End ListBlocking.
