(* ===== verification/ListBlockingProps.v ===== *)
(** * What the blocking list commands do *)

From Stdlib Require Import SpecFloat.
From S2P Require Import Prelude GoBytes Strconv Floats Commands Writer Engine Runs Lists ListProps ListTheorems ListLaws Blocking BlockingProps ListBlocking.

Local Open Scope Z_scope.

Section BlockingLaws.
Context `{ClockLaws} `{Xxh3} `{ParseFloat}.

(** A key that serves the client: it is the oldest waiter and there is an
    element; and one that does not: another client is first, or the key holds
    nothing or something that is no list. *)
Definition serves (m : SubscriptionManager) (p : nat) (c : Ctx) (key : bytes) (l : list bytes) : Prop :=
  IsOldestWaiter p key m = true ∧ is_list c key l ∧ l ≠ [].
Definition passes (m : SubscriptionManager) (p : nat) (c : Ctx) (key : bytes) : Prop :=
  IsOldestWaiter p key m = false ∨ is_list c key [] ∨ not_list (view c key).


Lemma later_not_list c c' key : later c c' → not_list (view c key) → not_list (view c' key).
Proof. intros (Hs & _). by rewrite Hs. Qed.

Lemma later_passes m p c c' key : later c c' → passes m p c key → passes m p c' key.
Proof.
  intros Hl [?|[?|?]]; [by left|right; left; by eapply later_is_list|right; right; by eapply later_not_list].
Qed.

Lemma later_serves m p c c' key l : later c c' → serves m p c key l → serves m p c' key l.
Proof. intros Hl (? & ? & ?). split_and!; [done|by eapply later_is_list|done]. Qed.

Lemma tryPop_passes m p fromLeft key st : healthy (st_ctx st) → passes m p (st_ctx st) key →
  steps (tryPop m p fromLeft key) st None (later (st_ctx st)).
Proof.
  intros Hh Hp. unfold tryPop. destruct (IsOldestWaiter p key m) eqn:Eo; cbn [negb].
  2:{ apply steps_ret; [done|apply later_refl]. }
  destruct Hp as [?|Hp]; [by rewrite Eo in *|].
  destruct (steps_get_later key st Hh) as [tips (c1 & E & Hh1 & Hl1)]. exists c1.
  unfold getListSnapshot, mbind, M_bind. rewrite E. cbn [fst snd]. unfold mret, M_ret.
  destruct Hp as [[(es & Hs & Hfr & Hb) Hty]|Hn].
  - assert (es = []) as -> by by destruct es.
    destruct (classify_list_is _ key [] tips Hs Hty) as (Hw & He & Ho). rewrite Hw, He, Ho.
    destruct (is_live _); cbn; [destruct fromLeft; cbn|]; auto.
  - destruct (classify_list_other _ tips Hn) as [He Hw]. rewrite He, Hw. cbn. auto.
Qed.

Lemma tryPop_serves m p fromLeft key l st : healthy (st_ctx st) → serves m p (st_ctx st) key l →
  ∃ x, popped fromLeft 1 l = [x] ∧
    steps (tryPop m p fromLeft key) st (Some x) (only_list (st_ctx st) key (remaining fromLeft 1 l)).
Proof.
  intros Hh (Ho & [(es & Hs & Hfr & Hb) Hty] & Hne). unfold tryPop. rewrite Ho. cbn [negb].
  assert (Hee : es ≠ []) by (intros ->; by rewrite <- Hb in Hne).
  destruct (from_end fromLeft es) as [|e es'] eqn:Ee.
  { exfalso. apply Hee, length_zero_iff_nil. by rewrite <- (length_from_end fromLeft), Ee. }
  exists (el_bytes e). split; [by rewrite <- Hb, <- popped_from_end, Ee|].
  destruct (steps_get_later key st Hh) as [tips (c1 & E & Hh1 & Hl1)].
  destruct (classify_list_is _ key es tips Hs Hty) as (Hw & He & Hoe).
  destruct (nonempty_typed _ key es Hs Hee Hty) as [Hlive Htyped].
  eapply (steps_bind _ _ _ (classify_list (view (st_ctx st) key) tips) (later (st_ctx st))).
  { exists c1. unfold getListSnapshot, mbind, M_bind. by rewrite E. }
  clear c1 E Hh1 Hl1. cbn [st_ctx st_w st_held]. intros c1 Hh1 Hl1. rewrite He, Hw, Hoe, Ee, Hlive. cbn [negb orb].
  eapply steps_bind; [by apply steps_begin_read|]. cbn [st_ctx st_w st_held]. intros c2 Hh2 Hl2.
  assert (Hl : later (st_ctx st) c2) by eauto using later_trans. pose proof Hl as (Hs2 & Hc2 & _).
  destruct (picks_from_end fromLeft 1 es) as (rm & rest & Hp & Hperm & Hrest).
  rewrite Ee in Hperm. cbn in Hperm. rewrite Hb in Hrest.
  destruct (steps_remove_picked key es rm rest [e] (mkSt c2 (st_w st) (st_held st))) as (c3 & E3 & Hh3 & Ho3 & _);
    cbn [st_ctx] in *; [done|by rewrite Hs2|by eapply fresh_later|by rewrite Hs2|done|done|].
  eapply (steps_bind _ _ _ tt (λ c, c = c3)).
  { exists c3. cbn [for_each] in E3. unfold mbind, M_bind in E3. cbn [st_ctx st_w st_held] in *.
    by destruct (emitListRemove _ _ _) as [[[]| | |] s5]. }
  cbn [st_ctx st_w st_held]. intros c ? ->. apply steps_ret; [done|]. cbn [st_ctx]. rewrite Hrest in Ho3.
  by eapply only_list_later.
Qed.

Lemma attempt_pop_none fromLeft keys p m st : healthy (st_ctx st) → Forall (passes m p (st_ctx st)) keys →
  steps (attempt_pop fromLeft keys p m) st NotYet (later (st_ctx st)).
Proof.
  unfold attempt_pop. revert st. induction keys as [|key keys IH]; intros st Hh Hk; cbn [try_keys].
  { apply steps_ret; [done|apply later_refl]. }
  apply Forall_cons in Hk as [Hk Hks]. eapply steps_bind; [by apply tryPop_passes|].
  cbn [st_ctx st_w st_held]. intros c1 Hh1 Hl1. eapply steps_weaken; [apply (IH (mkSt c1 _ _)); [done|]|].
  - eapply Forall_impl; [exact Hks|]. intros k. by apply later_passes.
  - cbn [st_ctx]. intros c2 Hl2. by eapply later_trans.
Qed.

Lemma attempt_pop_served fromLeft pre key post p m l st : healthy (st_ctx st) →
  Forall (passes m p (st_ctx st)) pre → serves m p (st_ctx st) key l →
  ∃ x, popped fromLeft 1 l = [x] ∧
    steps (attempt_pop fromLeft (pre ++ key :: post) p m) st (Served (pop_pair key x))
      (only_list (st_ctx st) key (remaining fromLeft 1 l)).
Proof.
  unfold attempt_pop. revert st. induction pre as [|k pre IH]; intros st Hh Hk Hs; cbn [app try_keys].
  - destruct (tryPop_serves m p fromLeft key l st Hh Hs) as (x & Hx & Hst). exists x. split; [done|].
    eapply steps_bind; [exact Hst|]. cbn [st_ctx st_w st_held]. intros c1 Hh1 Ho. by apply steps_ret.
  - apply Forall_cons in Hk as [Hk Hks].
    destruct (tryPop_passes m p fromLeft k st Hh Hk) as (c1 & E & Hh1 & Hl1).
    destruct (IH (mkSt c1 (st_w st) (st_held st)) Hh1) as (x & Hx & (c2 & E2 & Hh2 & Ho2)).
    + eapply Forall_impl; [exact Hks|]. intros k'. by apply later_passes.
    + by eapply later_serves.
    + exists x. split; [done|]. exists c2. unfold mbind, M_bind. rewrite E, E2.
      split_and!; [done|done|]. by eapply only_list_later.
Qed.

(** The waits that end in vain: woken, and still no key serves. *)
Definition in_vain (p : nat) (keys : list bytes) (ev : WaitEvent) : Prop :=
  match ev with
  | EvWoken c m => healthy c ∧ Forall (passes m p c) keys
  | EvEnded _ _ _ => False
  end.

Lemma loop_in_vain fromLeft keys p events more m st : healthy (st_ctx st) →
  Forall (passes m p (st_ctx st)) keys → Forall (in_vain p keys) events →
  ∃ c m', healthy c ∧
    (∀ ev rest, more = ev :: rest →
      block_loop (attempt_pop fromLeft keys) WriteNullArray p (events ++ more) m st =
      match ev with
      | EvWoken c1 m1 => block_loop (attempt_pop fromLeft keys) WriteNullArray p rest m1 (mkSt c1 (st_w st) (st_held st))
      | EvEnded c1 m1 e => (Returned, Cancel p m1, mkSt c1 ((if e then WriteError unblocked else WriteNullArray) (st_w st)) (st_held st))
      end) ∧
    (more = [] → block_loop (attempt_pop fromLeft keys) WriteNullArray p (events ++ more) m st =
                 (Waiting, m', mkSt c (st_w st) (st_held st))).
Proof.
  revert m st. induction events as [|ev events IH]; intros m st Hh Hk Hev.
  - destruct (attempt_pop_none fromLeft keys p m st Hh Hk) as (c1 & E & Hh1 & Hl1).
    exists c1, m. split; [done|]. split.
    + intros ev rest ->. cbn [app block_loop]. rewrite E. by destruct ev.
    + intros ->. cbn [app block_loop]. by rewrite E.
  - apply Forall_cons in Hev as [He Hev]. destruct ev as [c1 m1|]; [|done]. destruct He as [Hh1 Hk1].
    destruct (attempt_pop_none fromLeft keys p m st Hh Hk) as (c0 & E & _ & _).
    destruct (IH m1 (mkSt c1 (st_w st) (st_held st)) Hh1 Hk1 Hev) as (c & m' & Hc & H1' & H2').
    exists c, m'. split; [done|]. cbn [app block_loop]. rewrite E. cbn [st_w st_held]. done.
Qed.

(** Past the checks: the keys registered, the loop entered. *)
Lemma handleBlockingPop_enters fromLeft k ks t f events m p m' st :
  healthy (st_ctx st) → ParseBlockingTimeout t = Ok f →
  Forall (λ k, ∃ l, is_list (st_ctx st) k l) (k :: ks) → Register (k :: ks) m = (Some p, m') →
  ∃ c, healthy c ∧ later (st_ctx st) c ∧
    handleBlockingPop fromLeft false ((k :: ks) ++ [t]) events m st =
    block_loop (attempt_pop fromLeft (k :: ks)) WriteNullArray p events m' (mkSt c (st_w st) (st_held st)).
Proof.
  intros Hh Ht Hty Hreg. destruct (steps_check_types (k :: ks) st Hh Hty) as (c & E & Hhc & Hl).
  exists c. split; [done|]. split; [done|]. unfold handleBlockingPop, before_block.
  assert (Hlen : (len ((k :: ks) ++ [t]) <? 2) = false).
  { apply Z.ltb_ge. unfold len. rewrite length_app. cbn. lia. }
  assert (Htake : take (length ((k :: ks) ++ [t]) - 1) ((k :: ks) ++ [t]) = k :: ks).
  { rewrite length_app, Nat.add_sub. apply take_app_length. }
  rewrite Hlen, Htake, last_snoc. unfold mbind, M_bind, or_panic, or_reply. rewrite Ht. unfold mret, M_ret.
  rewrite E. unfold block_on. by rewrite Hreg.
Qed.

(** C13: BLPOP and BRPOP serve the client from the first of its keys that has
    an element and on which no client waits longer, at once or after any number
    of wake-ups in vain; the element is popped, the reply names the key, and the
    client leaves the queues.  A timeout replies null and CLIENT UNBLOCK ERROR an
    error, with nothing popped. *)
Theorem blocking_pop_correct (fromLeft : bool) (k t : bytes) (ks : list bytes) (f : spec_float)
    (vain : list WaitEvent) (m m' : SubscriptionManager) (p : nat) (st : St) :
  healthy (st_ctx st) → ParseBlockingTimeout t = Ok f →
  Forall (λ k, ∃ l, is_list (st_ctx st) k l) (k :: ks) → Register (k :: ks) m = (Some p, m') →
  let run events := handleBlockingPop fromLeft false ((k :: ks) ++ [t]) events m st in
  (∀ pre key post l events, k :: ks = pre ++ key :: post →
     Forall (passes m' p (st_ctx st)) pre → serves m' p (st_ctx st) key l →
     ∃ x c', popped fromLeft 1 l = [x] ∧
       run events = (Returned, Cancel p m', mkSt c' (pop_pair key x (st_w st)) (st_held st)) ∧
       healthy c' ∧ only_list (st_ctx st) key (remaining fromLeft 1 l) c') ∧
  (Forall (passes m' p (st_ctx st)) (k :: ks) → Forall (in_vain p (k :: ks)) vain →
     (∀ pre key post l c1 m1 events, k :: ks = pre ++ key :: post → healthy c1 →
        Forall (passes m1 p c1) pre → serves m1 p c1 key l →
        ∃ x c', popped fromLeft 1 l = [x] ∧
          run (vain ++ EvWoken c1 m1 :: events) = (Returned, Cancel p m1, mkSt c' (pop_pair key x (st_w st)) (st_held st)) ∧
          healthy c' ∧ only_list c1 key (remaining fromLeft 1 l) c') ∧
     (∀ c1 m1 e events,
        run (vain ++ EvEnded c1 m1 e :: events) =
        (Returned, Cancel p m1, mkSt c1 ((if e then WriteError unblocked else WriteNullArray) (st_w st)) (st_held st))) ∧
     ∃ c1 m1, run vain = (Waiting, m1, mkSt c1 (st_w st) (st_held st))).
Proof.
  intros Hh Ht Hty Hreg run.
  assert (Hserve : ∀ pre key post l c1 m1 events, k :: ks = pre ++ key :: post → healthy c1 →
    Forall (passes m1 p c1) pre → serves m1 p c1 key l →
    ∃ x c', popped fromLeft 1 l = [x] ∧
      block_loop (attempt_pop fromLeft (k :: ks)) WriteNullArray p events m1 (mkSt c1 (st_w st) (st_held st)) =
        (Returned, Cancel p m1, mkSt c' (pop_pair key x (st_w st)) (st_held st)) ∧
      healthy c' ∧ only_list c1 key (remaining fromLeft 1 l) c').
  { intros pre key post l c1 m1 events Hks Hh1 Hpre Hs. rewrite Hks.
    destruct (attempt_pop_served fromLeft pre key post p m1 l (mkSt c1 (st_w st) (st_held st)) Hh1 Hpre Hs)
      as (x & Hx & (c' & E & Hh' & Ho)).
    exists x, c'. split; [done|]. split; [|done]. by destruct events; cbn [block_loop]; rewrite E. }
  split.
  - intros pre key post l events Hks Hpre Hs.
    destruct (handleBlockingPop_enters fromLeft k ks t f events m p m' st Hh Ht Hty Hreg) as (c & Hhc & Hl & E).
    destruct (Hserve pre key post l c m' events Hks Hhc) as (x & c' & Hx & E' & Hh' & Ho).
    + eapply Forall_impl; [exact Hpre|]. intros k'. by apply later_passes.
    + by eapply later_serves.
    + exists x, c'. split; [done|]. split; [unfold run; by rewrite E, E'|]. split; [done|]. by eapply only_list_later.
  - intros Hall Hvain.
    assert (Hrun : ∀ more, ∃ c m1, healthy c ∧
      (∀ ev rest, more = ev :: rest → run (vain ++ more) =
        match ev with
        | EvWoken c1 m1 => block_loop (attempt_pop fromLeft (k :: ks)) WriteNullArray p rest m1 (mkSt c1 (st_w st) (st_held st))
        | EvEnded c1 m1 e => (Returned, Cancel p m1, mkSt c1 ((if e then WriteError unblocked else WriteNullArray) (st_w st)) (st_held st))
        end) ∧
      (more = [] → run (vain ++ more) = (Waiting, m1, mkSt c (st_w st) (st_held st)))).
    { intros more.
      destruct (handleBlockingPop_enters fromLeft k ks t f (vain ++ more) m p m' st Hh Ht Hty Hreg) as (c & Hhc & Hl & E).
      unfold run. rewrite E. apply (loop_in_vain fromLeft (k :: ks) p vain more m' (mkSt c _ _)); [done| |done].
      eapply Forall_impl; [exact Hall|]. intros k'. by apply later_passes. }
    split; [|split].
    + intros pre key post l c1 m1 events Hks Hh1 Hpre Hs.
      destruct (Hrun (EvWoken c1 m1 :: events)) as (c & m2 & _ & H1' & _). rewrite (H1' _ _ eq_refl). by eapply Hserve.
    + intros c1 m1 e events. destruct (Hrun (EvEnded c1 m1 e :: events)) as (c & m2 & _ & H1' & _).
      by rewrite (H1' _ _ eq_refl).
    + destruct (Hrun []) as (c & m2 & _ & _ & H2'). exists c, m2. rewrite <- (app_nil_r vain). by apply H2'.
Qed.

(** Called by a script, BLPOP and BRPOP pop nothing and reply nothing, whatever
    the lists hold: the runner of the one-shot variant is not called. *)
Theorem blocking_pop_in_script (fromLeft : bool) (k t : bytes) (ks : list bytes) (f : spec_float)
    (events : list WaitEvent) (m : SubscriptionManager) (st : St) :
  healthy (st_ctx st) → ParseBlockingTimeout t = Ok f →
  Forall (λ k, ∃ l, is_list (st_ctx st) k l) (k :: ks) →
  ∃ c, handleBlockingPop fromLeft true ((k :: ks) ++ [t]) events m st =
       (Returned, m, mkSt c (st_w st) (st_held st)) ∧ later (st_ctx st) c.
Proof.
  intros Hh Ht Hty. destruct (steps_check_types (k :: ks) st Hh Hty) as (c & E & Hhc & Hl).
  exists c. split; [|done]. unfold handleBlockingPop, before_block.
  assert (Hlen : (len ((k :: ks) ++ [t]) <? 2) = false).
  { apply Z.ltb_ge. unfold len. rewrite length_app. cbn. lia. }
  assert (Htake : take (length ((k :: ks) ++ [t]) - 1) ((k :: ks) ++ [t]) = k :: ks).
  { rewrite length_app, Nat.add_sub. apply take_app_length. }
  unfold handleLPopNonBlocking. rewrite Hlen, Htake, last_snoc.
  unfold mbind, M_bind, or_panic, or_reply. rewrite Ht. unfold mret, M_ret. by rewrite E.
Qed.
End BlockingLaws.

(** ** Example: BLPOP m l 0 on an empty "m" and the list "l" *)
Module ListBlockingExample.
Import RefEngine ListLaws.ListExample BlockingProps.LostWakeup.
#[local] Instance no_float : ParseFloat := λ _, None.

Definition registered := snd (Register [str "m"; str "l"] NewSubscriptionManager).

Lemma m_passes : Forall (passes registered 0 (st_ctx start)) [str "m"].
Proof. constructor; [|constructor]. right. left. exact m_is_list. Qed.

Lemma l_serves : serves registered 0 (st_ctx start) (str "l") values.
Proof. split; [vm_compute; reflexivity|]. split; [exact l_is_list|discriminate]. Qed.

Lemma both_lists : Forall (λ k, ∃ l, is_list (st_ctx start) k l) [str "m"; str "l"].
Proof. constructor; [exists []; exact m_is_list|]. constructor; [exists values; exact l_is_list|constructor]. Qed.

Lemma blocking_pop_correct_witness :
  ∃ x c', popped true 1 values = [x] ∧
    handleBLPop false [str "m"; str "l"; str "0"] [] NewSubscriptionManager start =
      (Returned, Cancel 0 registered, mkSt c' (pop_pair (str "l") x (st_w start)) []) ∧
    healthy c' ∧ only_list (st_ctx start) (str "l") (remaining true 1 values) c'.
Proof.
  destruct (blocking_pop_correct true (str "m") (str "0") [str "l"] (S754_zero false) []
    NewSubscriptionManager registered 0 start start_healthy) as [Hnow _].
  - vm_compute. reflexivity.
  - exact both_lists.
  - vm_compute. reflexivity.
  - apply (Hnow [str "m"] (str "l") [] values [] eq_refl m_passes l_serves).
Defined.
End ListBlockingExample.
