(* ===== verification/ZsetBlocking.v ===== *)
(** * The blocking sorted-set commands

    src/redis/zset/blocking.go: BZPOPMIN, BZPOPMAX and BZMPOP, on the registry of
    blocked clients and the wait loop of ListBlocking. *)

From Stdlib Require Import SpecFloat.
From S2P Require Import Prelude GoBytes Strconv Floats Commands Writer Engine Sets Strings Hashes Lists Blocking ListBlocking Zsets ZsetRanges.

Local Open Scope Z_scope.

Section ZsetBlocking.
Context `{Engine} `{!Clock} `{Xxh3} `{ParseFloat} `{FormatG} `{RangeOrder}.

(** ** One attempt *)

(** [tryZMPop], for the registration [p] of registry [m]: up to [count] entries,
    and [tryZPop] the one entry. *)
Definition tryZMPop (m : SubscriptionManager) (p : nat) (popMin : bool) (count : Z) (key : bytes) :
    M (option (list ZSetEntry)) :=
  if negb (IsOldestWaiter p key m) then mret None
  else
    s ← getZSetSnapshot key;
    if negb (ks_exists s) || ks_wrongType s then mret None
    else
      let sorted := zsetSortedMembers (ks_snap s) in
      if len sorted =? 0 then mret None
      else
        let entries := popped_entries popMin count sorted in
        _ ← pop_entries key (ks_tips s) entries;
        mret (Some entries).

Definition tryZPop (m : SubscriptionManager) (p : nat) (popMin : bool) (key : bytes) : M (option ZSetEntry) :=
  if negb (IsOldestWaiter p key m) then mret None
  else
    s ← getZSetSnapshot key;
    if negb (ks_exists s) || ks_wrongType s then mret None
    else
      let sorted := zsetSortedMembers (ks_snap s) in
      match (if popMin then head sorted else last sorted) with
      | None => mret None
      | Some entry =>
        _ ← pop_entries key (ks_tips s) [entry];
        mret (Some entry)
      end.

Definition bzpop_reply (key : bytes) (e : ZSetEntry) (w : Writer) : Writer :=
  WriteScore (ze_Score e) (WriteBulkStringStr (ze_Member e) (WriteBulkStringStr key (WriteArray 3 w))).

Definition attempt_zpop (popMin : bool) (keys : list bytes) (p : nat) (m : SubscriptionManager) : M Attempt :=
  try_keys (tryZPop m p popMin) bzpop_reply keys.
Definition attempt_zmpop (popMin : bool) (count : Z) (keys : list bytes) (p : nat) (m : SubscriptionManager) : M Attempt :=
  try_keys (tryZMPop m p popMin count) mpop_reply keys.

(** A key of another type is refused before the wait. *)
Fixpoint check_zset_types (keys : list bytes) : M unit :=
  match keys with
  | [] => mret tt
  | key :: keys' =>
    s ← getZSetSnapshot key;
    if ks_exists s && ks_wrongType s then reply WriteWrongType else check_zset_types keys'
  end.

(** ** In a transaction or a script *)

Fixpoint zpop_first (popMin : bool) (keys : list bytes) : M unit :=
  match keys with
  | [] => write WriteNullArray
  | key :: keys' =>
    s ← getZSetSnapshot key;
    if negb (ks_exists s) then zpop_first popMin keys'
    else if ks_wrongType s then reply WriteWrongType
    else
      let sorted := zsetSortedMembers (ks_snap s) in
      match (if popMin then head sorted else last sorted) with
      | None => zpop_first popMin keys'
      | Some entry =>
        _ ← pop_entries key (ks_tips s) [entry];
        write (bzpop_reply key entry)
      end
  end.

Definition handleZPopNonBlocking (popMin : bool) (cmdName : bytes) (args : list bytes) : Prep :=
  if len args <? 2 then Refuse [] (WriteWrongNumArguments cmdName)
  else
    let keys := take (length args - 1) args in
    Accept keys (zpop_first popMin keys).
Definition handleBZPopMinNonBlocking : list bytes → Prep := handleZPopNonBlocking true (str "bzpopmin").
Definition handleBZPopMaxNonBlocking : list bytes → Prep := handleZPopNonBlocking false (str "bzpopmax").

Definition handleBZMPopNonBlocking (args : list bytes) : Prep :=
  match args with
  | _ :: ((_ :: _ :: _ :: _) as rest) =>
    match parse_zmpop 1 rest with
    | ZMPop keys popMin count => Accept keys (zmpop_first popMin count keys)
    | ZMPopRefuse keys f => Refuse keys f
    | ZMPopPanic => Crash
    end
  | _ => Refuse [] (WriteWrongNumArguments (str "bzmpop"))
  end.

(** In a script the one-shot variant is prepared and run. *)
Definition run_prep (pr : Prep) : M unit :=
  match pr with
  | Refuse _ f => write f
  | Accept _ runner => runner
  | Crash => or_panic None
  end.

(** ** The commands *)

Definition handleBlockingZPop (popMin inScript : bool) (args : list bytes) (events : list WaitEvent) :
    SubscriptionManager → St → BlockEnd * SubscriptionManager * St :=
  before_block
    (if len args <? 2
     then reply (WriteWrongNumArguments (if popMin then str "bzpopmin" else str "bzpopmax"))
     else
       timeoutArg ← or_panic (last args);
       _ ← or_reply (ParseBlockingTimeout timeoutArg);
       let keys := take (length args - 1) args in
       _ ← check_zset_types keys;
       if inScript
       then _ ← run_prep (if popMin then handleBZPopMinNonBlocking args else handleBZPopMaxNonBlocking args); exit
       else mret keys)
    (λ keys, block_on (attempt_zpop popMin keys) WriteNullArray keys events).
Definition handleBZPopMin := handleBlockingZPop true.
Definition handleBZPopMax := handleBlockingZPop false.

Definition handleBZMPop (inScript : bool) (args : list bytes) (events : list WaitEvent) :
    SubscriptionManager → St → BlockEnd * SubscriptionManager * St :=
  before_block
    (if inScript then _ ← run_prep (handleBZMPopNonBlocking args); exit
     else match args with
     | t :: ((_ :: _ :: _ :: _) as rest) =>
       _ ← or_reply (ParseBlockingTimeout t);
       match parse_zmpop 1 rest with
       | ZMPopRefuse _ f => reply f
       | ZMPopPanic => or_panic None
       | ZMPop keys popMin count =>
         _ ← check_zset_types keys;
         mret (keys, popMin, count)
       end
     | _ => reply (WriteWrongNumArguments (str "bzmpop"))
     end)
    (λ '(keys, popMin, count), block_on (attempt_zmpop popMin count keys) WriteNullArray keys events).
End ZsetBlocking.
