(* ===== verification/StreamIds.v ===== *)
(** * SHA-256 and stream ids

    [crypto/sha256] of the standard library, which XADD's IDMPAUTO names its
    entries with: the compression function of FIPS 180-4 on 32-bit words, and
    the digest of a message. *)

From S2P Require Import Prelude GoBytes Strconv.

Local Open Scope Z_scope.

Definition w32 (z : Z) : Z := z `mod` 2 ^ 32.
Definition rotr (n x : Z) : Z := Z.lor (Z.shiftr x n) (w32 (Z.shiftl x (32 - n))).
Definition not32 (x : Z) : Z := Z.lxor x (2 ^ 32 - 1).

(** The round constants and the initial state. *)
Definition sha_K : list Z :=
  [1116352408; 1899447441; 3049323471; 3921009573; 961987163; 1508970993;
   2453635748; 2870763221; 3624381080; 310598401; 607225278; 1426881987;
   1925078388; 2162078206; 2614888103; 3248222580; 3835390401; 4022224774;
   264347078; 604807628; 770255983; 1249150122; 1555081692; 1996064986;
   2554220882; 2821834349; 2952996808; 3210313671; 3336571891; 3584528711;
   113926993; 338241895; 666307205; 773529912; 1294757372; 1396182291;
   1695183700; 1986661051; 2177026350; 2456956037; 2730485921; 2820302411;
   3259730800; 3345764771; 3516065817; 3600352804; 4094571909; 275423344;
   430227734; 506948616; 659060556; 883997877; 958139571; 1322822218;
   1537002063; 1747873779; 1955562222; 2024104815; 2227730452; 2361852424;
   2428436474; 2756734187; 3204031479; 3329325298].
Definition sha_H0 : list Z :=
  [1779033703; 3144134277; 1013904242; 2773480762;
   1359893119; 2600822924; 528734635; 1541459225].

Definition Ch (x y z : Z) : Z := Z.lxor (Z.land x y) (Z.land (not32 x) z).
Definition Maj (x y z : Z) : Z := Z.lxor (Z.lxor (Z.land x y) (Z.land x z)) (Z.land y z).
Definition Sigma0 (x : Z) : Z := Z.lxor (Z.lxor (rotr 2 x) (rotr 13 x)) (rotr 22 x).
Definition Sigma1 (x : Z) : Z := Z.lxor (Z.lxor (rotr 6 x) (rotr 11 x)) (rotr 25 x).
Definition sigma0 (x : Z) : Z := Z.lxor (Z.lxor (rotr 7 x) (rotr 18 x)) (Z.shiftr x 3).
Definition sigma1 (x : Z) : Z := Z.lxor (Z.lxor (rotr 17 x) (rotr 19 x)) (Z.shiftr x 10).

(** The words of a block, extended to one for each round. *)
Fixpoint block_words (n : nat) (b : bytes) : list Z :=
  match n with
  | O => []
  | S n' => be_get (take 4 b) :: block_words n' (drop 4 b)
  end.
Fixpoint schedule (n : nat) (w : list Z) : list Z :=
  match n with
  | O => w
  | S n' =>
    let t := length w in
    let at_ i := nth (t - i) w 0 in
    schedule n' (w ++ [w32 (sigma1 (at_ 2%nat) + at_ 7%nat + sigma0 (at_ 15%nat) + at_ 16%nat)])
  end.

(** One round on the state a, b, …, h. *)
Definition sha_round (s : list Z) (kw : Z * Z) : list Z :=
  match s with
  | [a; b; c; d; e; f; g; h] =>
    let t1 := h + Sigma1 e + Ch e f g + fst kw + snd kw in
    let t2 := Sigma0 a + Maj a b c in
    [w32 (t1 + t2); a; b; c; w32 (d + t1); e; f; g]
  | _ => s
  end.
Definition sha_block (s : list Z) (b : bytes) : list Z :=
  zip_with (λ x y, w32 (x + y)) s (foldl sha_round s (zip sha_K (schedule 48 (block_words 16 b)))).

(** A one bit, zeros and the length in bits fill the last block. *)
Definition sha_pad (m : bytes) : bytes :=
  m ++ 128 :: replicate (Z.to_nat ((55 - len m) `mod` 64)) 0 ++ be_put 8 (u64 (8 * len m)).
Fixpoint sha_blocks (n : nat) (s : list Z) (b : bytes) : list Z :=
  match n with
  | O => s
  | S n' => sha_blocks n' (sha_block s (take 64 b)) (drop 64 b)
  end.
Definition sha256_Sum (m : bytes) : bytes :=
  let b := sha_pad m in
  x ← sha_blocks (Z.to_nat (len b / 64)) sha_H0 b; be_put 4 x.

(** The test vectors of the standard. *)
Example sha256_abc : hex_encode (sha256_Sum (str "abc")) =
  str "ba7816bf8f01cfea414140de5dae2223b00361a396177a9cb410ff61f20015ad".
Proof. vm_compute. reflexivity. Qed.
Example sha256_empty : hex_encode (sha256_Sum []) =
  str "e3b0c44298fc1c149afbf4c8996fb92427ae41e4649b934ca495991b7852b855".
Proof. vm_compute. reflexivity. Qed.
Example sha256_two_blocks : hex_encode (sha256_Sum (str "abcdbcdecdefdefgefghfghighijhijkijkljklmklmnlmnomnopnopq")) =
  str "248d6a61d20638b8e5c026930c3e6039a33ce45964ff2167f6ecedd419db06c1".
Proof. vm_compute. reflexivity. Qed.

(** * Stream identifiers and the encodings of stream data

    src/redis/shared/streams.go: [StreamID] with its parsers, its text and its
    order; src/redis/stream/core.go: the byte encodings of entry ids, fields,
    groups, consumers and pending entries.  The encodings are read back as they
    were written, and the order of encoded ids is the order of ids. *)


(** ** Identifiers *)

Record StreamID := mkSID { sid_Ms : Z; sid_Seq : Z }.
#[global] Instance StreamID_eq_dec : EqDecision StreamID.
Proof. solve_decision. Defined.

Definition MinStreamID : StreamID := mkSID 0 0.
Definition MaxStreamID : StreamID := mkSID MaxUint64 MaxUint64.

(** An id, whether it is exclusive, whether it is special; [None] is the error. *)
Definition ParseStreamID (s : bytes) : option (StreamID * bool * bool) :=
  match s with
  | [] => None
  | c :: s' =>
    let exclusive := c =? 40 in
    let s := if exclusive then s' else s in
    if exclusive && (len s =? 0) then None
    else if beq s (str "*") || beq s (str "$") || beq s (str ">") then Some (mkSID 0 0, false, true)
    else if beq s (str "-") then Some (MinStreamID, exclusive, true)
    else if beq s (str "+") then Some (MaxStreamID, exclusive, true)
    else
      let '(msPart, seqPart) := split2 s 45 in
      match ParseUint msPart with
      | None => None
      | Some ms =>
        match seqPart with
        | None => Some (mkSID ms 0, exclusive, false)
        | Some p =>
          if beq p (str "*") then Some (mkSID ms 0, false, true)
          else match ParseUint p with
          | None => None
          | Some seq => Some (mkSID ms seq, exclusive, false)
          end
        end
      end
  end.

(** The bound of a range: a missing sequence number is the lowest at the start
    and the highest at the end. *)
Definition ParseStreamIDForRange (s : bytes) (isEnd : bool) : option (StreamID * bool) :=
  match s with
  | [] => None
  | c :: s' =>
    let exclusive := c =? 40 in
    let s := if exclusive then s' else s in
    if exclusive && (len s =? 0) then None
    else if beq s (str "-") then (if exclusive then None else Some (MinStreamID, exclusive))
    else if beq s (str "+") then (if exclusive then None else Some (MaxStreamID, exclusive))
    else
      let '(msPart, seqPart) := split2 s 45 in
      match ParseUint msPart with
      | None => None
      | Some ms =>
        match (match seqPart with Some p => ParseUint p | None => Some (if isEnd then MaxUint64 else 0) end) with
        | None => None
        | Some seq =>
          if exclusive && (ms =? 0) && (seq =? 0) then None
          else if exclusive && negb isEnd && (ms =? MaxUint64) && (seq =? MaxUint64) then None
          else Some (mkSID ms seq, exclusive)
        end
      end
  end.

Definition StreamID_String (id : StreamID) : bytes :=
  FormatUint (sid_Ms id) ++ str "-" ++ FormatUint (sid_Seq id).
Definition StreamID_Key (id : StreamID) : bytes := be_put 8 (sid_Ms id) ++ be_put 8 (sid_Seq id).

Definition StreamID_Compare (id other : StreamID) : Z :=
  if sid_Ms id <? sid_Ms other then -1
  else if sid_Ms other <? sid_Ms id then 1
  else if sid_Seq id <? sid_Seq other then -1
  else if sid_Seq other <? sid_Seq id then 1
  else 0.

Definition StreamID_IsZero (id : StreamID) : bool := (sid_Ms id =? 0) && (sid_Seq id =? 0).

(** ** Encodings *)

(** [binary.LittleEndian]. *)
Definition le_put (n : nat) (z : Z) : bytes := rev (be_put n z).
Definition le_get (b : bytes) : Z := be_get (rev b).

Definition encodeStreamElementID (id : StreamID) : bytes := be_put 8 (sid_Ms id) ++ be_put 8 (sid_Seq id).
Definition decodeStreamElementID (id : bytes) : StreamID :=
  if negb (len id =? 16) then mkSID 0 0
  else mkSID (be_get (take 8 id)) (be_get (take 8 (drop 8 id))).

Definition u32 (z : Z) : Z := z `mod` 2 ^ 32.

Definition encodeStreamFields (fields : list bytes) : bytes :=
  le_put 4 (u32 (len fields)) ++ (f ← fields; le_put 4 (u32 (len f)) ++ f).

(** The fields not found before the bytes end are nil. *)
Fixpoint decode_fields (count : nat) (raw : bytes) : list bytes :=
  match count with
  | O => []
  | S count' =>
    if len raw <? 4 then replicate count []
    else
      let fLen := le_get (take 4 raw) in
      let rest := drop 4 raw in
      if len rest <? fLen then replicate count []
      else take (Z.to_nat fLen) rest :: decode_fields count' (drop (Z.to_nat fLen) rest)
  end.
Definition decodeStreamFields (raw : bytes) : list bytes :=
  if len raw <? 4 then [] else decode_fields (Z.to_nat (le_get (take 4 raw))) (drop 4 raw).

(** The last id delivered, the number of entries read, the time of creation. *)
Record GroupMeta := mkGroupMeta { gm_LastDelivered : StreamID; gm_EntriesRead : Z; gm_CreatedAt : Z }.

Definition encodeGroupMeta (m : GroupMeta) : bytes :=
  encodeStreamElementID (gm_LastDelivered m) ++ le_put 8 (u64 (gm_EntriesRead m)) ++ le_put 8 (u64 (gm_CreatedAt m)).
Definition decodeGroupMeta (raw : bytes) : GroupMeta :=
  if len raw <? 32 then mkGroupMeta (mkSID 0 0) 0 0
  else mkGroupMeta (mkSID (be_get (take 8 raw)) (be_get (take 8 (drop 8 raw))))
         (i64 (le_get (take 8 (drop 16 raw)))) (i64 (le_get (take 8 (drop 24 raw)))).

Definition encodeConsumerMeta (seenTime activeTime : Z) : bytes :=
  le_put 8 (u64 seenTime) ++ le_put 8 (u64 activeTime).
Definition decodeConsumerMeta (raw : bytes) : Z * Z :=
  if len raw <? 16 then (0, 0)
  else (i64 (le_get (take 8 raw)), i64 (le_get (take 8 (drop 8 raw)))).

(** Owner, time of the last delivery, number of deliveries. *)
Definition encodePELEntry (consumer : bytes) (deliveryTime deliveryCount : Z) : bytes :=
  le_put 4 (u32 (len consumer)) ++ consumer ++ le_put 8 (u64 deliveryTime) ++ le_put 8 (u64 deliveryCount).
Definition decodePELEntry (raw : bytes) : bytes * Z * Z :=
  if len raw <? 4 then ([], 0, 0)
  else
    let nameLen := le_get (take 4 raw) in
    if len raw <? 4 + nameLen + 16 then ([], 0, 0)
    else
      let rest := drop (Z.to_nat nameLen) (drop 4 raw) in
      (take (Z.to_nat nameLen) (drop 4 raw), i64 (le_get (take 8 rest)), i64 (le_get (take 8 (drop 8 rest)))).

(** ** The order of identifiers *)

Definition is_sid (id : StreamID) : Prop := is_u64 (sid_Ms id) ∧ is_u64 (sid_Seq id).
#[global] Instance is_sid_dec id : Decision (is_sid id).
Proof. unfold is_sid. apply _. Defined.

Definition sid_lt (a b : StreamID) : Prop :=
  sid_Ms a < sid_Ms b ∨ sid_Ms a = sid_Ms b ∧ sid_Seq a < sid_Seq b.
#[global] Instance sid_lt_dec a b : Decision (sid_lt a b).
Proof. unfold sid_lt. apply _. Defined.

Lemma Compare_cases a b :
  StreamID_Compare a b = -1 ∧ sid_lt a b ∨ StreamID_Compare a b = 0 ∧ a = b ∨ StreamID_Compare a b = 1 ∧ sid_lt b a.
Proof.
  unfold StreamID_Compare, sid_lt. destruct a as [m s], b as [m' s']. cbn [sid_Ms sid_Seq].
  destruct (Z.ltb_spec m m'), (Z.ltb_spec m' m), (Z.ltb_spec s s'), (Z.ltb_spec s' s); try lia.
  right. left. split; [done|]. f_equal; lia.
Qed.

Lemma sid_lt_irrefl a : ¬ sid_lt a a.
Proof. unfold sid_lt. lia. Qed.
Lemma sid_lt_trans a b c : sid_lt a b → sid_lt b c → sid_lt a c.
Proof. unfold sid_lt. lia. Qed.

Lemma Compare_lt a b : StreamID_Compare a b < 0 ↔ sid_lt a b.
Proof.
  destruct (Compare_cases a b) as [[-> H]|[[-> ->]|[-> H]]]; [by split|split; [lia|intros Hl; by apply sid_lt_irrefl in Hl]|].
  split; [lia|]. intros Hl. destruct (sid_lt_irrefl a). by eapply sid_lt_trans.
Qed.
Lemma Compare_gt a b : 0 < StreamID_Compare a b ↔ sid_lt b a.
Proof.
  destruct (Compare_cases a b) as [[-> H]|[[-> ->]|[-> H]]]; [|split; [lia|intros Hl; by apply sid_lt_irrefl in Hl]|by split].
  split; [lia|]. intros Hl. destruct (sid_lt_irrefl a). by eapply sid_lt_trans.
Qed.
Lemma Compare_eq a b : StreamID_Compare a b = 0 ↔ a = b.
Proof.
  destruct (Compare_cases a b) as [[-> H]|[[-> ->]|[-> H]]]; [split; [done|intros ->; by apply sid_lt_irrefl in H]|by split|].
  split; [done|intros ->; by apply sid_lt_irrefl in H].
Qed.

(** ** Round trips *)

#[local] Opaque be_put.

Lemma length_le_put n z : length (le_put n z) = n.
Proof. unfold le_put. by rewrite length_rev, length_be_put. Qed.
Lemma le_get_put n z : 0 <= z < 256 ^ Z.of_nat n → le_get (le_put n z) = z.
Proof. unfold le_get, le_put. rewrite rev_involutive. apply be_get_put. Qed.
Lemma be_get_put8 u : is_u64 u → be_get (be_put 8 u) = u.
Proof. intros Hu. apply be_get_put. change (256 ^ Z.of_nat 8) with (2 ^ 64). zlia. Qed.
Lemma le_get_put8 u : is_u64 u → le_get (le_put 8 u) = u.
Proof. intros Hu. apply le_get_put. change (256 ^ Z.of_nat 8) with (2 ^ 64). zlia. Qed.
Lemma le_get_put4 z : 0 <= z < 2 ^ 32 → le_get (le_put 4 (u32 z)) = z.
Proof. intros Hz. unfold u32. rewrite Z.mod_small by done. apply le_get_put. done. Qed.
Lemma i64_u64 z : is_i64 z → i64 (u64 z) = z.
Proof. intros Hz. unfold i64, u64. rewrite Zplus_mod_idemp_l. by apply i64_id. Qed.

Lemma take_put {A} n (a b : list A) : length a = n → take n (a ++ b) = a ∧ drop n (a ++ b) = b.
Proof. intros Hn. by rewrite take_app_length', drop_app_length'. Qed.
Lemma take_be n z b : take n (be_put n z ++ b) = be_put n z ∧ drop n (be_put n z ++ b) = b.
Proof. apply take_put, length_be_put. Qed.
Lemma take_le n z b : take n (le_put n z ++ b) = le_put n z ∧ drop n (le_put n z ++ b) = b.
Proof. apply take_put, length_le_put. Qed.

Lemma encode_length id : length (encodeStreamElementID id) = 16%nat.
Proof. unfold encodeStreamElementID. by rewrite length_app, !length_be_put. Qed.

Lemma decode_encode_id id : is_sid id → decodeStreamElementID (encodeStreamElementID id) = id.
Proof.
  intros [Hm Hs]. unfold decodeStreamElementID, len. rewrite encode_length. change (negb _) with false. cbv iota.
  unfold encodeStreamElementID. destruct (take_be 8 (sid_Ms id) (be_put 8 (sid_Seq id))) as [-> ->].
  rewrite take_ge by (by rewrite length_be_put). rewrite !be_get_put8 by done. by destruct id.
Qed.

Lemma encode_id_inj a b : is_sid a → is_sid b → encodeStreamElementID a = encodeStreamElementID b → a = b.
Proof. intros Ha Hb E. by rewrite <- (decode_encode_id a Ha), <- (decode_encode_id b Hb), E. Qed.

Lemma decoded_is_sid b : byte_ok b → is_sid (decodeStreamElementID b).
Proof.
  intros Hb. unfold decodeStreamElementID. destruct (len b =? 16); cbn [negb]; [|by split].
  assert (H8 : ∀ l, byte_ok l → is_u64 (be_get (take 8 l))).
  { intros l Hl. assert (Hk : byte_ok (take 8 l)) by (by apply Forall_take). pose proof (be_get_bound _ Hk) as Hbd.
    assert (Hle : (length (take 8 l) <= 8)%nat) by (rewrite length_take; lia).
    assert (256 ^ Z.of_nat (length (take 8 l)) <= 256 ^ 8) by (apply Z.pow_le_mono_r; lia).
    change (256 ^ 8) with (2 ^ 64) in *. zlia. }
  split; cbn [sid_Ms sid_Seq]; apply H8; [done|by apply Forall_drop].
Qed.

(** The bytes of an id read in order are the order of ids: a sorted list of keys
    is a sorted list of entries. *)
Lemma encoded_order a b : is_sid a → is_sid b →
  blt (encodeStreamElementID a) (encodeStreamElementID b) = true ↔ sid_lt a b.
Proof.
  intros [Ha Ha'] [Hb Hb']. unfold encodeStreamElementID, sid_lt.
  assert (Hlt : ∀ x y, is_u64 x → is_u64 y → blt (be_put 8 x) (be_put 8 y) = true ↔ x < y).
  { intros x y Hx Hy. apply be_put_lt_iff; change (256 ^ Z.of_nat 8) with (2 ^ 64); zlia. }
  destruct (Z.lt_trichotomy (sid_Ms a) (sid_Ms b)) as [Hl|[He|Hl]].
  - split; [by left|]. intros _. apply blt_app_head; [by rewrite !length_be_put|by apply Hlt].
  - rewrite He, blt_app_same, Hlt by done. lia.
  - split; [|lia]. intros Hx. assert (Hy : blt (be_put 8 (sid_Ms b) ++ be_put 8 (sid_Seq b)) (be_put 8 (sid_Ms a) ++ be_put 8 (sid_Seq a)) = true).
    { apply blt_app_head; [by rewrite !length_be_put|by apply Hlt]. }
    apply blt_asym in Hy. congruence.
Qed.

Lemma decode_fields_encoded fields rest : Forall (λ f : bytes, len f < 2 ^ 32) fields →
  decode_fields (length fields) ((f ← fields; le_put 4 (u32 (len f)) ++ f) ++ rest) = fields.
Proof.
  induction fields as [|f fields IH]; intros Hl; [done|]. apply Forall_cons in Hl as [Hf Hl].
  cbn [length decode_fields mbind list_bind]. rewrite <- !app_assoc.
  pose proof (len_nonneg f) as H0. set (tl := mbind _ fields ++ rest).
  destruct (take_le 4 (u32 (len f)) (f ++ tl)) as [Ht Hd]. rewrite Ht, Hd, le_get_put4 by lia.
  rewrite (proj2 (Z.ltb_ge _ _)). 2: { unfold len. rewrite length_app, length_le_put. lia. }
  rewrite (proj2 (Z.ltb_ge _ _)). 2: { rewrite len_app. pose proof (len_nonneg tl). lia. }
  assert (Hn : length f = Z.to_nat (len f)) by (unfold len; lia).
  destruct (take_put _ f tl Hn) as [-> ->]. f_equal. by apply IH.
Qed.

(** Field lists come back as they were written. *)
Lemma decode_encode_fields fields : len fields < 2 ^ 32 → Forall (λ f : bytes, len f < 2 ^ 32) fields →
  decodeStreamFields (encodeStreamFields fields) = fields.
Proof.
  intros Hn Hl. unfold decodeStreamFields, encodeStreamFields. pose proof (len_nonneg fields).
  match goal with |- context [ le_put 4 (u32 (len fields)) ++ ?t ] => destruct (take_le 4 (u32 (len fields)) t) as [Ht Hd]; rewrite Ht, Hd end.
  rewrite le_get_put4 by lia. rewrite (proj2 (Z.ltb_ge _ _)). 2: { unfold len. rewrite length_app, length_le_put. lia. }
  replace (Z.to_nat (len fields)) with (length fields) by (unfold len; lia).
  rewrite <- (app_nil_r (mbind _ fields)). by apply decode_fields_encoded.
Qed.

Lemma drop_16 {A} (l : list A) : drop 16 l = drop 8 (drop 8 l).
Proof. by rewrite drop_drop. Qed.
Lemma drop_24 {A} (l : list A) : drop 24 l = drop 8 (drop 8 (drop 8 l)).
Proof. by rewrite !drop_drop. Qed.

Lemma decode_encode_group m : is_sid (gm_LastDelivered m) → is_i64 (gm_EntriesRead m) → is_i64 (gm_CreatedAt m) →
  decodeGroupMeta (encodeGroupMeta m) = m.
Proof.
  intros [Hm Hs] He Hc. unfold decodeGroupMeta. rewrite (proj2 (Z.ltb_ge _ _)).
  2: { unfold encodeGroupMeta, len. rewrite !length_app, encode_length, !length_le_put. lia. }
  unfold encodeGroupMeta, encodeStreamElementID. rewrite <- !app_assoc.
  match goal with |- context [ be_put 8 (sid_Ms ?i) ++ ?t ] => destruct (take_be 8 (sid_Ms i) t) as [Ht Hd] end.
  rewrite Ht, drop_16, drop_24, !Hd.
  match goal with |- context [ be_put 8 (sid_Seq ?i) ++ ?t ] => destruct (take_be 8 (sid_Seq i) t) as [Ht2 Hd2] end. rewrite Ht2, !Hd2.
  match goal with |- context [ le_put 8 ?z ++ ?t ] => destruct (take_le 8 z t) as [Ht3 Hd3] end. rewrite Ht3, !Hd3.
  rewrite take_ge by (by rewrite length_le_put). rewrite !be_get_put8, !le_get_put8, !i64_u64 by (try done; by auto with go).
  destruct m as [[? ?] ? ?]. done.
Qed.

Lemma decode_encode_consumer seen active : is_i64 seen → is_i64 active →
  decodeConsumerMeta (encodeConsumerMeta seen active) = (seen, active).
Proof.
  intros Hs Ha. unfold decodeConsumerMeta, encodeConsumerMeta. destruct (take_le 8 (u64 seen) (le_put 8 (u64 active))) as [-> ->].
  rewrite (proj2 (Z.ltb_ge _ _)). 2: { unfold len. rewrite length_app, !length_le_put. lia. }
  rewrite take_ge by (by rewrite length_le_put). rewrite !le_get_put8, !i64_u64 by (try done; by auto with go). done.
Qed.

Lemma decode_encode_pending consumer time count : len consumer < 2 ^ 32 → is_i64 time → is_i64 count →
  decodePELEntry (encodePELEntry consumer time count) = (consumer, time, count).
Proof.
  intros Hn Ht Hc. unfold decodePELEntry, encodePELEntry. pose proof (len_nonneg consumer) as H0.
  match goal with |- context [ le_put 4 ?z ++ ?t ] => destruct (take_le 4 z t) as [-> ->] end.
  rewrite le_get_put4 by lia. rewrite !(proj2 (Z.ltb_ge _ _)).
  2-3: unfold len in *; rewrite !length_app, !length_le_put; lia.
  assert (Hl : length consumer = Z.to_nat (len consumer)) by (unfold len; lia).
  destruct (take_put _ consumer (le_put 8 (u64 time) ++ le_put 8 (u64 count)) Hl) as [-> ->].
  destruct (take_le 8 (u64 time) (le_put 8 (u64 count))) as [-> ->].
  rewrite take_ge by (by rewrite length_le_put). rewrite !le_get_put8, !i64_u64 by (try done; by auto with go). done.
Qed.

(** ** Text *)

Lemma format_no_dash n : 0 <= n → 45 ∉ FormatUint n.
Proof. intros Hn. apply all_digits_no_sep; [by apply FormatUint_spec|lia]. Qed.

Lemma format_head n : 0 <= n → ∃ c s, FormatUint n = c :: s ∧ 48 <= c <= 57 ∧ all_digits s = true.
Proof.
  intros Hn. destruct (FormatUint_spec n Hn) as (Hd & _ & Hl). destruct (FormatUint n) as [|c s]; [done|].
  exists c, s. split; [done|]. by apply all_digits_cons in Hd.
Qed.

Lemma split_id_text id : is_sid id →
  split2 (StreamID_String id) 45 = (FormatUint (sid_Ms id), Some (FormatUint (sid_Seq id))).
Proof. intros [Hm _]. unfold StreamID_String. apply (split2_app _ 45). apply format_no_dash. zlia. Qed.

(** A text that starts with a digit and has more than one character is none of
    the special forms. *)
Lemma not_special c s : 48 <= c <= 57 →
  (c =? 40) = false ∧ Forall (λ t, beq (c :: s) (str t) = false) ["*"; "$"; ">"; "-"; "+"]%string.
Proof.
  intros Hc. split; [lia|]. repeat (apply Forall_cons; split); [..|by apply Forall_nil];
    apply bool_decide_eq_false_2; intros E; apply (f_equal head) in E; cbn in E; injection E as E; lia.
Qed.

Lemma not_star n : 0 <= n → beq (FormatUint n) (str "*") = false.
Proof.
  intros Hn. destruct (format_head n Hn) as (c & s & -> & Hc & _). by destruct (not_special c s Hc) as [_ (-> & _)%Forall_cons].
Qed.

(** The text of an id is read back as that id by both parsers, a text without a
    sequence number as the first or the last id of its millisecond, and the keys
    entries are stored under are in the order of their ids. *)
Theorem stream_id_roundtrip (id other : StreamID) (isEnd : bool) :
  is_sid id → is_sid other →
  ParseStreamID (StreamID_String id) = Some (id, false, false) ∧
  ParseStreamIDForRange (StreamID_String id) isEnd = Some (id, false) ∧
  ParseStreamIDForRange (FormatUint (sid_Ms id)) isEnd = Some (mkSID (sid_Ms id) (if isEnd then MaxUint64 else 0), false) ∧
  decodeStreamElementID (StreamID_Key id) = id ∧
  (blt (StreamID_Key id) (StreamID_Key other) = true ↔ StreamID_Compare id other < 0).
Proof.
  intros [Hm Hs] Ho. assert (0 <= sid_Ms id ∧ 0 <= sid_Seq id) as [H0 H1] by zlia.
  pose proof (split_id_text id (conj Hm Hs)) as Hsp. destruct (format_head _ H0) as (c & s & Ef & Hc & Hds).
  assert (Et : StreamID_String id = c :: (s ++ str "-" ++ FormatUint (sid_Seq id))) by (unfold StreamID_String; by rewrite Ef).
  assert (Hp : ∀ n, is_u64 n → ParseUint (FormatUint n) = Some n) by apply ParseUint_FormatUint.
  split; [|split; [|split; [|split; [by apply decode_encode_id|rewrite Compare_lt; by apply encoded_order]]]].
  - rewrite Et in Hsp |- *. destruct (not_special c (s ++ str "-" ++ FormatUint (sid_Seq id)) Hc) as [E40 Hn].
    repeat (apply Forall_cons in Hn as [? Hn]). unfold ParseStreamID. rewrite E40. cbn [andb]. rewrite !H, !H2, !H3, !H4, !H5. cbn [orb].
    rewrite Hsp, Hp by done. rewrite (not_star _ H1), Hp by done. by destruct id.
  - rewrite Et in Hsp |- *. destruct (not_special c (s ++ str "-" ++ FormatUint (sid_Seq id)) Hc) as [E40 Hn].
    repeat (apply Forall_cons in Hn as [? Hn]). unfold ParseStreamIDForRange. rewrite E40. cbn [andb]. rewrite !H4, !H5.
    rewrite Hsp, !Hp by done. by destruct id.
  - pose proof (split2_none _ _ (format_no_dash _ H0)) as Hs1. pose proof (Hp _ Hm) as Hpm. rewrite Ef in Hs1, Hpm |- *.
    destruct (not_special c s Hc) as [E40 Hn]. repeat (apply Forall_cons in Hn as [? Hn]).
    unfold ParseStreamIDForRange. rewrite E40. cbn [andb]. rewrite !H4, !H5, Hs1, Hpm. done.
Qed.

Module StreamIdExample.
Lemma stream_id_roundtrip_witness :
  ParseStreamID (str "1700000000000-7") = Some (mkSID 1700000000000 7, false, false) ∧
  blt (StreamID_Key (mkSID 1700000000000 7)) (StreamID_Key (mkSID 1700000000000 255)) = true.
Proof.
  destruct (stream_id_roundtrip (mkSID 1700000000000 7) (mkSID 1700000000000 255) true) as (Hp & _ & _ & _ & Hk);
    [apply (bool_decide_unpack _); by vm_compute..|].
  split; [exact Hp|]. by apply Hk.
Defined.
End StreamIdExample.
