(* ===== verification/Streams.v ===== *)
(** * Streams: snapshots, effects, metadata, ranges and trimming

    src/redis/stream/core.go, and [trimEntries] of handlers.go.  A stream is an
    ordered collection of entries; its groups, pending lists, producers and
    settings are keyed collections under keys named after the stream.

    The clock is read several times by a command; the readings, in milliseconds,
    are a parameter.  So are the removed ids of a snapshot ([NetRemoves]), which
    only this module looks at, and the configured node size. *)

From S2P Require Import Prelude GoBytes Strconv Commands Writer Engine Sets Strings Hashes StreamIds.

Local Open Scope Z_scope.

(** [time.Now().UnixMilli()], the [i]-th reading of a command. *)
Class StreamClock := now_ms : nat → Z.
(** [GetStreamNodeMaxEntries]: a setting of the server. *)
Class NodeMaxEntries := GetStreamNodeMaxEntries : Z.
(** The [NetRemoves] of the snapshot [GetSnapshot] answers for a key. *)
Class NetRemoves `{Engine} := net_removes : bytes → Ctx → list bytes.

(** ** Keys *)

Definition producerKey (stream producer : bytes) : bytes := stream ++ 1 :: str "p" ++ 1 :: producer.
Definition groupKey (stream group : bytes) : bytes := stream ++ 1 :: str "g" ++ 1 :: group.
Definition pelKey (stream group : bytes) : bytes := stream ++ 1 :: str "pel" ++ 1 :: group.
Definition cfgKey (stream : bytes) : bytes := stream ++ 1 :: str "cfg".
Definition registryName : bytes := str "__registry__".

(** ** Data *)

Record StreamEntry := mkStreamEntry { se_ID : StreamID; se_Fields : list bytes }.
Record PendingEntry := mkPending { pe_ID : StreamID; pe_Consumer : bytes; pe_DeliveryTime : Z; pe_DeliveryCount : Z }.

Inductive RefMode : Type := RefModeKeepRef | RefModeDelRef | RefModeAcked.
#[global] Instance RefMode_eq_dec : EqDecision RefMode.
Proof. solve_decision. Defined.

Record TrimOptions := mkTrim {
  to_MaxLen : Z; to_MinID : option StreamID; to_Approx : bool; to_Limit : Z; to_NodeSize : Z;
  to_RefMode : RefMode; to_HasMaxLen : bool; to_HasExplicitLimit : bool
}.
Definition no_trim : TrimOptions := mkTrim 0 None false 0 0 RefModeKeepRef false false.

Definition sid_le (a b : StreamID) : Prop := StreamID_Compare b a < 0 → False.
#[global] Instance sid_le_dec a b : Decision (sid_le a b).
Proof. unfold sid_le. destruct (decide (StreamID_Compare b a < 0)); [right; auto|left; done]. Defined.
Definition entry_before (a b : StreamEntry) : Prop := sid_le (se_ID a) (se_ID b).
#[global] Instance entry_before_dec a b : Decision (entry_before a b) := sid_le_dec _ _.
Definition pending_before (a b : PendingEntry) : Prop := sid_le (pe_ID a) (pe_ID b).
#[global] Instance pending_before_dec a b : Decision (pending_before a b) := sid_le_dec _ _.

(** ** Ranges *)

(** [n]: how many entries are found already. *)
Fixpoint range_loop (entries : list StreamEntry) (start end_ : StreamID) (startExcl endExcl : bool) (count n : Z) :
    list StreamEntry :=
  match entries with
  | [] => []
  | e :: es =>
    let found := e :: (if (0 <? count) && (count <=? n + 1) then []
                       else range_loop es start end_ startExcl endExcl count (n + 1)) in
    let cmpStart := StreamID_Compare (se_ID e) start in
    if (if startExcl then cmpStart <=? 0 else cmpStart <? 0)
    then range_loop es start end_ startExcl endExcl count n
    else
      let cmpEnd := StreamID_Compare (se_ID e) end_ in
      if endExcl then
        if 0 <=? cmpEnd then range_loop es start end_ startExcl endExcl count n else found
      else if 0 <? cmpEnd then [] else found
  end.
Definition rangeEntries (entries : list StreamEntry) (start end_ : StreamID) (startExcl endExcl : bool) (count : Z) :
    list StreamEntry :=
  range_loop entries start end_ startExcl endExcl count 0.

Fixpoint range_loop_reverse (entries : list StreamEntry) (start end_ : StreamID) (startExcl endExcl : bool) (count n : Z) :
    list StreamEntry :=
  match entries with
  | [] => []
  | e :: es =>
    let found := e :: (if (0 <? count) && (count <=? n + 1) then []
                       else range_loop_reverse es start end_ startExcl endExcl count (n + 1)) in
    let cmpEnd := StreamID_Compare (se_ID e) end_ in
    if (if endExcl then 0 <=? cmpEnd else 0 <? cmpEnd)
    then range_loop_reverse es start end_ startExcl endExcl count n
    else
      let cmpStart := StreamID_Compare (se_ID e) start in
      if startExcl then
        if cmpStart <=? 0 then range_loop_reverse es start end_ startExcl endExcl count n else found
      else if cmpStart <? 0 then [] else found
  end.
Definition rangeEntriesReverse (entries : list StreamEntry) (start end_ : StreamID) (startExcl endExcl : bool) (count : Z) :
    list StreamEntry :=
  range_loop_reverse (reverse entries) start end_ startExcl endExcl count 0.

Definition streamFirstID (entries : list StreamEntry) : StreamID :=
  match entries with [] => mkSID 0 0 | e :: _ => se_ID e end.
Definition streamLastID (entries : list StreamEntry) : StreamID :=
  match last entries with None => mkSID 0 0 | Some e => se_ID e end.

Section Streams.
Context `{Engine} `{!NetRemoves} `{RangeOrder} `{StreamClock} `{NodeMaxEntries}.

(** ** Snapshots *)

(** The snapshot of a stream key with the removed ids that come with it. *)
Record StreamSnap := mkStreamSnap { ss_key : KeySnap; ss_removes : list bytes }.

Definition classify_stream (snap : option ReducedEffect) (tips : list Tip) : KeySnap :=
  match snap with
  | None => mkKeySnap None tips false false
  | Some r =>
    if bool_decide (re_Op r = REMOVE_OP) then mkKeySnap None tips false false
    else if bool_decide (re_Collection r = ORDERED) then mkKeySnap snap tips true false
    else if bool_decide (re_Collection r = SCALAR) && bool_decide (re_TypeTag r = TYPE_STREAM)
    then mkKeySnap snap tips true false
    else if bool_decide (re_Collection r = KEYED) && bool_decide (re_TypeTag r = TYPE_STREAM)
    then mkKeySnap snap tips true false
    else mkKeySnap None tips true true
  end.

Definition getStreamSnapshot (key : bytes) : M StreamSnap := λ st,
  let removes := net_removes key (st_ctx st) in
  ('(snap, tips) ← get_snapshot key;
   mret (mkStreamSnap (classify_stream snap tips) removes)) st.

Definition getGroupSnapshot (streamKey group : bytes) : M (option ReducedEffect) :=
  '(snap, _) ← get_snapshot (groupKey streamKey group); mret snap.
Definition getPELSnapshot (streamKey group : bytes) : M (option ReducedEffect) :=
  '(snap, _) ← get_snapshot (pelKey streamKey group); mret snap.

Definition groupElement : bytes := str "__group__".
Definition has_group (snap : option ReducedEffect) : bool := has_member snap groupElement.
Definition groupExists (streamKey groupName : bytes) : M bool :=
  '(snap, _) ← get_snapshot (groupKey streamKey groupName); mret (has_group snap).
Definition getGroupMeta (snap : option ReducedEffect) : GroupMeta :=
  match net_adds snap !! groupElement with
  | None => mkGroupMeta (mkSID 0 0) 0 0
  | Some v => decodeGroupMeta (Decompress v)
  end.

(** The consumers of a group, by name. *)
Definition consumerElement (consumer : bytes) : bytes := str "c" ++ [0] ++ consumer.
Definition consumer_name (id : bytes) : option bytes :=
  match id with
  | 99 :: 0 :: ((_ :: _) as name) => Some name
  | _ => None
  end.
Definition getConsumersFromGroup (snap : option ReducedEffect) : gmap bytes Value :=
  list_to_map (omap (λ '(id, v), (λ name, (name, v)) <$> consumer_name id) (map_to_list (net_adds snap))).

Definition names_in (snap : option ReducedEffect) : list bytes := range_keys (dom (net_adds snap)).
Definition listGroupNames (streamKey : bytes) : M (list bytes) :=
  '(snap, _) ← get_snapshot (groupKey streamKey registryName);
  mret (sort_Strings (names_in snap)).
Definition listProducerNames (streamKey : bytes) : M (list bytes) :=
  '(snap, _) ← get_snapshot (producerKey streamKey registryName);
  mret (names_in snap).

(** ** Effects *)

Definition stream_remove (id : bytes) : EffectKind :=
  Effect_Data (mkData REMOVE_OP MERGE_NONE ORDERED PLACE_NONE [] id None).

Definition emitStreamInsert (key : bytes) (id : StreamID) (fields : list bytes) : M unit :=
  emit (mkEffect key (ordered_effect PLACE_TAIL [] (encodeStreamElementID id) (Raw (encodeStreamFields fields)))) [].
Definition emitStreamRemove (key : bytes) (id : StreamID) : M unit :=
  emit (mkEffect key (stream_remove (encodeStreamElementID id))) [].
Definition emitStreamTypeTag (key : bytes) : M unit :=
  emit (mkEffect key (Effect_Meta (tag_meta TYPE_STREAM))) [].

Definition emitGroupInsert (streamKey groupName metaRaw : bytes) : M unit :=
  emit (mkEffect (groupKey streamKey groupName) (keyed_insert groupElement (Raw metaRaw))) [].
Definition emitGroupRemove (streamKey groupName : bytes) : M unit :=
  emit (mkEffect (groupKey streamKey groupName) delete_effect) [].
Definition emitConsumerInsert (streamKey group consumer metaRaw : bytes) : M unit :=
  emit (mkEffect (groupKey streamKey group) (keyed_insert (consumerElement consumer) (Raw metaRaw))) [].
Definition emitConsumerRemove (streamKey group consumer : bytes) : M unit :=
  emit (mkEffect (groupKey streamKey group) (keyed_remove (consumerElement consumer))) [].
Definition emitPELInsert (streamKey group : bytes) (id : StreamID) (pelRaw : bytes) : M unit :=
  emit (mkEffect (pelKey streamKey group) (keyed_insert (encodeStreamElementID id) (Raw pelRaw))) [].
Definition emitPELKeyRemove (streamKey group : bytes) : M unit :=
  emit (mkEffect (pelKey streamKey group) delete_effect) [].
Definition emitPELRemove (streamKey group : bytes) (id : StreamID) : M unit :=
  emit (mkEffect (pelKey streamKey group) (keyed_remove (encodeStreamElementID id))) [].
Definition emitGroupRegistryInsert (streamKey groupName : bytes) : M unit :=
  emit (mkEffect (groupKey streamKey registryName) (keyed_insert groupName (Raw [1]))) [].
Definition emitGroupRegistryRemove (streamKey groupName : bytes) : M unit :=
  emit (mkEffect (groupKey streamKey registryName) (keyed_remove groupName)) [].
Definition emitProducerRegistryInsert (streamKey producer : bytes) : M unit :=
  emit (mkEffect (producerKey streamKey registryName) (keyed_insert producer (Raw [1]))) [].
Definition emitCfgSet (streamKey field : bytes) (value : Z) : M unit :=
  emit (mkEffect (cfgKey streamKey) (keyed_insert field (Raw (le_put 8 (u64 value))))) [].

(** ** Entries and metadata *)

Definition metaElement : bytes := str "__meta__".

Definition element_entry (id : bytes) (v : Value) : option StreamEntry :=
  if negb (len id =? 16) then None
  else Some (mkStreamEntry (decodeStreamElementID id) (decodeStreamFields (Decompress v))).

(** The elements in order, or, in the old layout, those of the map sorted by id. *)
Definition snapshotToEntries (snap : option ReducedEffect) : list StreamEntry :=
  match snap with
  | None => []
  | Some r =>
    if bool_decide (re_Collection r = ORDERED) && (0 <? len (re_OrderedElements r))
    then omap (λ e, element_entry (el_Id e) (el_Value e)) (re_OrderedElements r)
    else merge_sort entry_before
      (omap (λ id, if beq id metaElement then None else v ← re_NetAdds r !! id; element_entry id v) (range_keys (dom (re_NetAdds r))))
  end.

Record StreamMeta := mkStreamMeta { sm_LastID : StreamID; sm_EntriesAdded : Z; sm_MaxDeletedID : StreamID; sm_found : bool }.
Definition no_meta : StreamMeta := mkStreamMeta (mkSID 0 0) 0 (mkSID 0 0) false.

(** The highest of the removed ids. *)
Definition max_removed (removes : list bytes) : StreamID :=
  foldl (λ maxDeleted id,
    if len id =? 16 then
      let d := decodeStreamElementID id in if 0 <? StreamID_Compare d maxDeleted then d else maxDeleted
    else maxDeleted) (mkSID 0 0) removes.

Definition ordered_meta (r : ReducedEffect) (removes : list bytes) : StreamMeta :=
  let '(lastID, found) :=
    match last (re_OrderedElements r) with
    | None => (mkSID 0 0, false)
    | Some e => (if len (el_Id e) =? 16 then decodeStreamElementID (el_Id e) else mkSID 0 0, true)
    end in
  let maxDeleted := max_removed removes in
  let '(lastID, found) := if 0 <? StreamID_Compare maxDeleted lastID then (maxDeleted, true) else (lastID, found) in
  mkStreamMeta lastID (len (re_OrderedElements r)) maxDeleted (found || (0 <? len removes)).

Definition decode_meta (raw : bytes) : StreamMeta :=
  mkStreamMeta (mkSID (be_get (take 8 raw)) (be_get (take 8 (drop 8 raw)))) (i64 (le_get (take 8 (drop 16 raw))))
    (mkSID (be_get (take 8 (drop 24 raw))) (be_get (take 8 (drop 32 raw)))) true.

Definition streamMetadata (snap : option ReducedEffect) (removes : list bytes) : StreamMeta :=
  match snap with
  | None => no_meta
  | Some r =>
    match re_Collection r with
    | KEYED =>
      match re_NetAdds r !! metaElement with
      | Some v => if 40 <=? len (Decompress v) then decode_meta (Decompress v) else no_meta
      | None => no_meta
      end
    | ORDERED => ordered_meta r removes
    | SCALAR => no_meta
    end
  end.

Definition streamLen (snap : option ReducedEffect) : Z :=
  match snap with
  | None => 0
  | Some r =>
    if bool_decide (re_Collection r = ORDERED) then len (re_OrderedElements r)
    else Z.of_nat (size (re_NetAdds r)) - (if bool_decide (is_Some (re_NetAdds r !! metaElement)) then 1 else 0)
  end.

Definition snap_meta (s : StreamSnap) : StreamMeta := streamMetadata (ks_snap (ss_key s)) (ss_removes s).
Definition snap_entries (s : StreamSnap) : list StreamEntry := snapshotToEntries (ks_snap (ss_key s)).

(** ** New ids *)

(** The last id, from the entries when the metadata has none. *)
Definition last_known (s : StreamSnap) : StreamID :=
  let lastID := sm_LastID (snap_meta s) in
  if StreamID_IsZero lastID then streamLastID (snap_entries s) else lastID.

Definition generateStreamID (now : Z) (s : StreamSnap) : StreamID :=
  let lastID := last_known s in
  let now := u64 now in
  if sid_Ms lastID <? now then mkSID now 0
  else if now =? sid_Ms lastID then
    if sid_Seq lastID =? MaxUint64 then mkSID (u64 (now + 1)) 0 else mkSID now (sid_Seq lastID + 1)
  else if sid_Seq lastID =? MaxUint64 then mkSID (u64 (sid_Ms lastID + 1)) 0
  else mkSID (sid_Ms lastID) (sid_Seq lastID + 1).

(** [None]: the id would be too small. *)
Definition generateStreamIDWithMs (s : StreamSnap) (ms : Z) : option StreamID :=
  let lastID := last_known s in
  if sid_Ms lastID <? ms then Some (mkSID ms 0)
  else if ms =? sid_Ms lastID then Some (mkSID ms (u64 (sid_Seq lastID + 1)))
  else None.

(** ** Pending lists *)

Definition pending_of (id : StreamID) (v : Value) : PendingEntry :=
  let '(consumer, time, count) := decodePELEntry (Decompress v) in mkPending id consumer time count.

Definition pelToEntries (pelSnap : option ReducedEffect) : list PendingEntry :=
  merge_sort pending_before
    (omap (λ id, if negb (len id =? 16) then None else pending_of (decodeStreamElementID id) <$> net_adds pelSnap !! id)
       (names_in pelSnap)).

Definition consumerPendingCount (pelSnap : option ReducedEffect) (consumer : bytes) : Z :=
  Z.of_nat (size (filter (λ '(_, v), fst (fst (decodePELEntry (Decompress v))) = consumer) (net_adds pelSnap))).

(** ** Settings and counters *)

Definition getConfigCounter (streamKey field : bytes) (fallback : Z) : M Z :=
  '(snap, _) ← get_snapshot (cfgKey streamKey);
  mret (match net_adds snap !! field with
        | Some v => if len (Decompress v) =? 8 then i64 (le_get (Decompress v)) else fallback
        | None => fallback
        end).

Definition getStreamEntriesAdded (streamKey : bytes) : M Z := getConfigCounter streamKey (str "entries-added") (-1).
Definition incrementStreamEntriesAdded (streamKey : bytes) : M unit :=
  current ← getStreamEntriesAdded streamKey;
  emitCfgSet streamKey (str "entries-added") (i64 (Z.max current 0 + 1)).
Definition setStreamEntriesAdded (streamKey : bytes) (value : Z) : M unit :=
  emitCfgSet streamKey (str "entries-added") value.
Definition getIdmpGeneration (streamKey : bytes) : M Z := getConfigCounter streamKey (str "idmp-generation") 0.
Definition getIidsAdded (streamKey : bytes) : M Z := getConfigCounter streamKey (str "iids-added") 0.
Definition incrementIidsAdded (streamKey : bytes) : M unit :=
  current ← getIidsAdded streamKey;
  emitCfgSet streamKey (str "iids-added") (i64 (current + 1)).
Definition getIidsDuplicates (streamKey : bytes) : M Z := getConfigCounter streamKey (str "iids-duplicates") 0.
Definition incrementIidsDuplicates (streamKey : bytes) : M unit :=
  current ← getIidsDuplicates streamKey;
  emitCfgSet streamKey (str "iids-duplicates") (i64 (current + 1)).
Definition clearAllProducerKeys (streamKey : bytes) : M unit :=
  gen ← getIdmpGeneration streamKey;
  emitCfgSet streamKey (str "idmp-generation") (i64 (gen + 1)).

(** The duration in seconds, the size, and whether the duration was set. *)
Definition getStreamConfig (streamKey : bytes) : M (Z * Z * bool) :=
  '(snap, _) ← get_snapshot (cfgKey streamKey);
  let setting field :=
    match net_adds snap !! field with
    | Some v => if len (Decompress v) =? 8 then Some (i64 (le_get (Decompress v))) else None
    | None => None
    end in
  mret (default 100 (setting (str "idmp-duration")), default 100 (setting (str "idmp-maxsize")),
        bool_decide (is_Some (setting (str "idmp-duration")))).

(** ** Producers *)

(** What is stored for a producer's sequence id: entry id, time, generation. *)
Definition encode_seq (entryID : StreamID) (now gen : Z) : bytes :=
  encodeStreamElementID entryID ++ le_put 8 (u64 now) ++ le_put 8 (u64 gen).

(** The other recorded ids of the current generation, with the entries they
    stand for. *)
Definition current_seqs (snap : option ReducedEffect) (seq : bytes) (gen : Z) : list (bytes * StreamID) :=
  omap (λ s,
    v ← net_adds snap !! s;
    let r := Decompress v in
    if beq s seq then None
    else if (if 32 <=? len r then negb (i64 (le_get (take 8 (drop 24 r))) =? gen) else negb (gen =? 0)) then None
    else Some (s, if 16 <=? len r then decodeStreamElementID (take 16 r) else mkSID 0 0)) (names_in snap).

Definition seq_before (a b : bytes * StreamID) : Prop := sid_le (snd a) (snd b).
#[global] Instance seq_before_dec a b : Decision (seq_before a b) := sid_le_dec _ _.

(** The oldest are evicted when there are too many beside the new one. *)
Definition evicted_seqs (maxsize : Z) (entries : list (bytes * StreamID)) : list bytes :=
  if len entries <? maxsize then []
  else fst <$> take (Z.to_nat (len entries - maxsize + 1)) (merge_sort seq_before entries).

Definition emitProducerSeqWithConfig (now : Z) (streamKey producer seq : bytes) (entryID : StreamID) (gen maxsize : Z) :
    M unit :=
  let pKey := producerKey streamKey producer in
  _ ← emit (mkEffect pKey (keyed_insert seq (Raw (encode_seq entryID now gen)))) [];
  _ ← (if 0 <? maxsize then
         '(snap, _) ← get_snapshot pKey;
         for_each (evicted_seqs maxsize (current_seqs snap seq gen)) (λ s, emit (mkEffect pKey (keyed_remove s)) [])
       else mret tt);
  emitProducerRegistryInsert streamKey producer.

Definition emitProducerSeq (now : Z) (streamKey producer seq : bytes) (entryID : StreamID) : M unit :=
  gen ← getIdmpGeneration streamKey;
  c ← getStreamConfig streamKey;
  let '(_, maxsize, _) := c in
  emitProducerSeqWithConfig now streamKey producer seq entryID gen maxsize.

(** What is recorded for a sequence id, unless it is stale or has expired. *)
Definition recorded_id (now gen duration : Z) (snap : option ReducedEffect) (seq : bytes) : option StreamID :=
  v ← net_adds snap !! seq;
  let raw := Decompress v in
  if len raw <? 16 then None
  else if (32 <=? len raw) && negb (i64 (le_get (take 8 (drop 24 raw))) =? gen) then None
  else if (24 <=? len raw) && (0 <? duration) &&
          (i64 (duration * 1000) <? i64 (now - i64 (le_get (take 8 (drop 16 raw))))) then None
  else Some (decodeStreamElementID (take 16 raw)).

Definition lookupProducerSeqWithConfig (now : Z) (streamKey producer seq : bytes) (gen duration : Z) : M (option StreamID) :=
  '(snap, _) ← get_snapshot (producerKey streamKey producer);
  mret (recorded_id now gen duration snap seq).
Definition lookupProducerSeq (now : Z) (streamKey producer seq : bytes) : M (option StreamID) :=
  gen ← getIdmpGeneration streamKey;
  c ← getStreamConfig streamKey;
  let '(duration, _, explicit) := c in
  lookupProducerSeqWithConfig now streamKey producer seq gen (if (explicit : bool) then duration else 0).

(** ** Trimming *)

(** May an entry be trimmed: with ACKED, every group has had it and none waits
    for it. *)
Fixpoint acked_by (key : bytes) (id : StreamID) (groups : list bytes) : M bool :=
  match groups with
  | [] => mret true
  | g :: gs =>
    gSnap ← getGroupSnapshot key g;
    if 0 <? StreamID_Compare id (gm_LastDelivered (getGroupMeta gSnap)) then mret false
    else
      pelSnap ← getPELSnapshot key g;
      if has_member pelSnap (encodeStreamElementID id) then mret false else acked_by key id gs
  end.
Definition canTrim (key : bytes) (mode : RefMode) (id : StreamID) : M bool :=
  if negb (bool_decide (mode = RefModeAcked)) then mret true
  else groups ← listGroupNames key; acked_by key id groups.

(** With DELREF the entry leaves the pending lists too. *)
Definition drop_pending (key : bytes) (id : StreamID) (groups : list bytes) : M unit :=
  for_each groups (λ g,
    pelSnap ← getPELSnapshot key g;
    if has_member pelSnap (encodeStreamElementID id) then emitPELRemove key g id else mret tt).
Definition handleTrim (key : bytes) (mode : RefMode) (id : StreamID) : M unit :=
  if negb (bool_decide (mode = RefModeDelRef)) then mret tt
  else groups ← listGroupNames key; drop_pending key id groups.

Definition trim_one (key : bytes) (mode : RefMode) (id : StreamID) : M unit :=
  _ ← emitStreamRemove key id;
  handleTrim key mode id.

Fixpoint trim_minid (key : bytes) (mode : RefMode) (limit : Z) (minID : StreamID) (trimCount : Z)
    (entries : list StreamEntry) : M Z :=
  match entries with
  | [] => mret trimCount
  | e :: es =>
    if limit <=? trimCount then mret trimCount
    else if 0 <=? StreamID_Compare (se_ID e) minID then mret trimCount
    else
      ok ← canTrim key mode (se_ID e);
      if negb ok then trim_minid key mode limit minID trimCount es
      else
        _ ← trim_one key mode (se_ID e);
        trim_minid key mode limit minID (trimCount + 1) es
  end.

Fixpoint trim_maxlen (key : bytes) (mode : RefMode) (minID : option StreamID) (toTrim trimmedHere : Z)
    (entries : list StreamEntry) : M unit :=
  match entries with
  | [] => mret tt
  | e :: es =>
    if toTrim <=? trimmedHere then mret tt
    else
      ok ← canTrim key mode (se_ID e);
      if negb ok then trim_maxlen key mode minID toTrim trimmedHere es
      else if (match minID with Some m => StreamID_Compare (se_ID e) m <? 0 | None => false end)
      then trim_maxlen key mode minID toTrim trimmedHere es
      else
        _ ← trim_one key mode (se_ID e);
        trim_maxlen key mode minID toTrim (trimmedHere + 1) es
  end.

(** The most entries one trim removes. *)
Definition trim_limit (o : TrimOptions) (n : Z) : Z :=
  if negb (to_Limit o =? 0) then to_Limit o
  else if to_Approx o && (0 <? to_NodeSize o) then i64 (100 * to_NodeSize o)
  else n.

(** How many entries MAXLEN removes of [currentLen], [trimCount] having gone;
    with ~ the length is rounded up to whole nodes. *)
Definition effective_maxlen (o : TrimOptions) : Z :=
  if to_Approx o && (0 <? to_NodeSize o)
  then i64 (Z.quot (i64 (to_MaxLen o + to_NodeSize o - 1)) (to_NodeSize o) * to_NodeSize o)
  else to_MaxLen o.
Definition to_trim (o : TrimOptions) (limit trimCount currentLen : Z) : Z :=
  let toTrim := i64 (currentLen - effective_maxlen o) in
  if 0 <? toTrim then
    let toTrim := if limit - trimCount <? toTrim then limit - trimCount else toTrim in
    if to_Approx o && to_HasExplicitLimit o && (0 <? to_NodeSize o)
    then Z.quot toTrim (to_NodeSize o) * to_NodeSize o
    else toTrim
  else toTrim.

Definition trimEntries (key : bytes) (entries : list StreamEntry) (o : TrimOptions) : M unit :=
  if len entries =? 0 then mret tt
  else
    let limit := trim_limit o (len entries) in
    trimCount ← (match to_MinID o with
                 | Some minID => trim_minid key (to_RefMode o) limit minID 0 entries
                 | None => mret 0
                 end);
    if to_HasMaxLen o then
      let toTrim := to_trim o limit trimCount (len entries - trimCount) in
      if 0 <? toTrim then trim_maxlen key (to_RefMode o) (to_MinID o) toTrim 0 entries else mret tt
    else mret tt.

(** ** Savepoints *)

(** [savepoint := TakeSavepoint()] with the deferred [RestoreSavepoint]: unless
    the runner reaches its end, what it did to the context is undone. *)
Definition with_savepoint {A} (m : M A) : M A := λ st,
  match m st with
  | (Next a, st') => (Next a, st')
  | (o, st') => (o, mkSt (RestoreSavepoint (TakeSavepoint (st_ctx st)) (st_ctx st')) (st_w st') (st_held st'))
  end.
End Streams.
