(* ===== verification/StreamCommands.v ===== *)
(** * Stream commands: XADD, XLEN, ranges, deletion, XSETID, XIDMPRECORD, XCFGSET

    src/redis/stream/handlers.go, less XREAD, XTRIM and XINFO, which have files
    of their own.  The order in which [sort.Slice] leaves equal fields is not
    specified and a parameter. *)

From S2P Require Import Prelude GoBytes Strconv Commands Writer Engine Sets Strings Hashes Lists StreamIds Streams.

Local Open Scope Z_scope.

(** [sort.Slice] on field-value pairs, by field. *)
Class PairSort := sort_pairs : list (bytes * bytes) → list (bytes * bytes).

Definition bad_id : bytes := str "ERR Invalid stream ID specified as stream command argument".
Definition too_small : bytes := str "ERR The ID specified in XADD is equal or smaller than the target stream top item".

(** ** Replies *)

Definition writeStreamEntry (w : Writer) (e : StreamEntry) : Writer :=
  foldl (λ w f, WriteBulkString f w)
    (WriteArray (len (se_Fields e)) (WriteBulkStringStr (StreamID_String (se_ID e)) (WriteArray 2 w)))
    (se_Fields e).
Definition writeStreamEntries (entries : list StreamEntry) (w : Writer) : Writer :=
  foldl writeStreamEntry (WriteArray (len entries) w) entries.

(** ** Options *)

Definition ref_mode (opt : bytes) : option RefMode :=
  if beq opt (str "KEEPREF") then Some RefModeKeepRef
  else if beq opt (str "DELREF") then Some RefModeDelRef
  else if beq opt (str "ACKED") then Some RefModeAcked
  else None.

Definition set_mode (m : RefMode) (o : TrimOptions) : TrimOptions :=
  mkTrim (to_MaxLen o) (to_MinID o) (to_Approx o) (to_Limit o) (to_NodeSize o) m (to_HasMaxLen o) (to_HasExplicitLimit o).
Definition set_approx (o : TrimOptions) : TrimOptions :=
  mkTrim (to_MaxLen o) (to_MinID o) true (to_Limit o) (to_NodeSize o) (to_RefMode o) (to_HasMaxLen o) (to_HasExplicitLimit o).
Definition set_maxlen (n : Z) (o : TrimOptions) : TrimOptions :=
  mkTrim n (to_MinID o) (to_Approx o) (to_Limit o) (to_NodeSize o) (to_RefMode o) true (to_HasExplicitLimit o).
Definition set_minid (id : StreamID) (o : TrimOptions) : TrimOptions :=
  mkTrim (to_MaxLen o) (Some id) (to_Approx o) (to_Limit o) (to_NodeSize o) (to_RefMode o) (to_HasMaxLen o) (to_HasExplicitLimit o).
Definition set_limit (n : Z) (o : TrimOptions) : TrimOptions :=
  mkTrim (to_MaxLen o) (to_MinID o) (to_Approx o) n (to_NodeSize o) (to_RefMode o) (to_HasMaxLen o) true.
Definition set_node_size (n : Z) (o : TrimOptions) : TrimOptions :=
  mkTrim (to_MaxLen o) (to_MinID o) (to_Approx o) (to_Limit o) n (to_RefMode o) (to_HasMaxLen o) (to_HasExplicitLimit o).

(** A number that may not be negative. *)
Definition parse_count (s : bytes) : option Z :=
  match Atoi s with Some n => if n <? 0 then None else Some n | None => None end.

(** What follows MAXLEN or MINID: = or ~, and the threshold. *)
Definition trim_mark (args : list bytes) (o : TrimOptions) : TrimOptions * list bytes :=
  match args with
  | a :: rest =>
    if beq a (str "=") then (o, rest)
    else if beq a (str "~") then (set_approx o, rest)
    else (o, args)
  | [] => (o, [])
  end.
Definition trim_threshold (maxlen : bool) (args : list bytes) (o : TrimOptions) :
    result (Writer → Writer) (TrimOptions * list bytes) :=
  let '(o, args) := trim_mark args o in
  match args with
  | [] => Err syntax_error
  | a :: rest =>
    if maxlen then
      match parse_count a with
      | None => Err (WriteError not_an_integer)
      | Some n => Ok (set_maxlen n o, rest)
      end
    else
      match ParseStreamID a with
      | None => Err (WriteError bad_id)
      | Some (id, _, _) => Ok (set_minid id o, rest)
      end
  end.

(** A LIMIT, when there is one. *)
Definition trim_limit_opt (args : list bytes) (o : TrimOptions) : result (Writer → Writer) (TrimOptions * list bytes) :=
  match args with
  | a :: rest =>
    if beq (ToUpper a) (str "LIMIT") then
      match rest with
      | [] => Err syntax_error
      | n :: rest' =>
        match parse_count n with
        | None => Err (WriteError not_an_integer)
        | Some n => Ok (set_limit n o, rest')
        end
      end
    else Ok (o, args)
  | [] => Ok (o, [])
  end.

Record XAddOpts := mkXAdd {
  xa_noMkStream : bool; xa_trim : TrimOptions; xa_producer : bytes; xa_iid : bytes; xa_auto : bool; xa_idmp : bool
}.
Definition no_xadd_opts : XAddOpts := mkXAdd false no_trim [] [] false false.
Definition xa_with_trim (t : TrimOptions) (o : XAddOpts) : XAddOpts :=
  mkXAdd (xa_noMkStream o) t (xa_producer o) (xa_iid o) (xa_auto o) (xa_idmp o).

Definition idmp_twice : bytes := str "ERR IDMP/IDMPAUTO specified multiple times".

(** IDMP and IDMPAUTO: the producer, and the sequence id of the former. *)
Definition xadd_idmp (args : list bytes) (o : XAddOpts) : result (Writer → Writer) (XAddOpts * list bytes) :=
  if xa_idmp o then Err (WriteError idmp_twice)
  else match args with
  | [] => Err syntax_error
  | p :: rest =>
    if len p =? 0 then Err (WriteError (str "ERR IDMP requires a non-empty producer ID"))
    else match rest with
    | [] => Err syntax_error
    | iid :: rest' =>
      if len iid =? 0 then Err (WriteError (str "ERR IDMP requires a non-empty idempotent ID"))
      else Ok (mkXAdd (xa_noMkStream o) (xa_trim o) p iid (xa_auto o) true, rest')
    end
  end.
Definition xadd_idmpauto (args : list bytes) (o : XAddOpts) : result (Writer → Writer) (XAddOpts * list bytes) :=
  if xa_idmp o then Err (WriteError idmp_twice)
  else match args with
  | [] => Err syntax_error
  | p :: rest =>
    if len p =? 0 then Err (WriteError (str "ERR IDMPAUTO requires a non-empty producer ID"))
    else Ok (mkXAdd (xa_noMkStream o) (xa_trim o) p (xa_iid o) true true, rest)
  end.
Definition xadd_threshold (maxlen : bool) (args : list bytes) (o : XAddOpts) :
    result (Writer → Writer) (XAddOpts * list bytes) :=
  match trim_threshold maxlen args (xa_trim o) with
  | Err f => Err f
  | Ok (t, rest) =>
    match trim_limit_opt rest t with
    | Err f => Err f
    | Ok (t, rest) => Ok (xa_with_trim t o, rest)
    end
  end.

(** One option with its arguments; [None] is where the options end. *)
Definition xadd_option (opt : bytes) (rest : list bytes) (o : XAddOpts) :
    option (result (Writer → Writer) (XAddOpts * list bytes)) :=
  if beq opt (str "NOMKSTREAM")
  then Some (Ok (mkXAdd true (xa_trim o) (xa_producer o) (xa_iid o) (xa_auto o) (xa_idmp o), rest))
  else match ref_mode opt with
  | Some m => Some (Ok (xa_with_trim (set_mode m (xa_trim o)) o, rest))
  | None =>
    if beq opt (str "IDMP") then Some (xadd_idmp rest o)
    else if beq opt (str "IDMPAUTO") then Some (xadd_idmpauto rest o)
    else if beq opt (str "MAXLEN") then Some (xadd_threshold true rest o)
    else if beq opt (str "MINID") then Some (xadd_threshold false rest o)
    else None
  end.

(** The loop; every turn uses up an argument, so as much fuel as there are
    arguments is enough. *)
Fixpoint xadd_opts (fuel : nat) (args : list bytes) (o : XAddOpts) : result (Writer → Writer) (XAddOpts * list bytes) :=
  match fuel, args with
  | S fuel', a :: rest =>
    match xadd_option (ToUpper a) rest o with
    | None => Ok (o, args)
    | Some (Err f) => Err f
    | Some (Ok (o', rest')) => xadd_opts fuel' rest' o'
    end
  | _, _ => Ok (o, args)
  end.

Fixpoint field_pairs (fields : list bytes) : list (bytes * bytes) :=
  match fields with
  | f :: v :: rest => (f, v) :: field_pairs rest
  | _ => []
  end.

(** The ids of a command that takes only whole ids; [None] when one is not. *)
Definition parse_ids (args : list bytes) : option (list StreamID) :=
  mapM (λ a, match ParseStreamID a with Some (id, _, false) => Some id | _ => None end) args.

(** The settings XCFGSET gives: the duration, the size. *)
Definition leading_zero (s : bytes) : bool :=
  match s with c :: _ :: _ => c =? 48 | _ => false end.
Fixpoint xcfg_opts (args : list bytes) (cfg : option Z * option Z) : result bytes (option Z * option Z) :=
  match args with
  | [] => Ok cfg
  | [_] => Err (str "ERR syntax error")
  | a :: v :: rest =>
    let opt := ToUpper a in
    match Atoi v with
    | None => Err not_an_integer
    | Some val =>
      if leading_zero v then Err not_an_integer
      else if beq opt (str "IDMP-DURATION") then
        if (val <? 1) || (86400 <? val) then Err (str "ERR IDMP-DURATION must be between 1 and 86400")
        else xcfg_opts rest (Some val, snd cfg)
      else if beq opt (str "IDMP-MAXSIZE") then
        if (val <? 1) || (10000 <? val) then Err (str "ERR IDMP-MAXSIZE must be between 1 and 10000")
        else xcfg_opts rest (fst cfg, Some val)
      else Err (str "ERR syntax error")
    end
  end.

(** The options of XSETID: the number of entries added, the highest id deleted. *)
Fixpoint xsetid_opts (args : list bytes) (o : option Z * option StreamID) : result (Writer → Writer) (option Z * option StreamID) :=
  match args with
  | [] => Ok o
  | a :: rest =>
    let opt := ToUpper a in
    if beq opt (str "ENTRIESADDED") then
      match rest with
      | [] => Err syntax_error
      | n :: rest' =>
        match Atoi n with
        | None => Err (WriteError not_an_integer)
        | Some ea =>
          if ea <? 0 then Err (WriteError (str "ERR entries_added must be positive"))
          else xsetid_opts rest' (Some ea, snd o)
        end
      end
    else if beq opt (str "MAXDELETEDID") then
      match rest with
      | [] => Err syntax_error
      | i :: rest' =>
        match ParseStreamID i with
        | Some (id, _, false) => xsetid_opts rest' (fst o, Some id)
        | _ => Err (WriteError bad_id)
        end
      end
    else Err syntax_error
  end.

Section StreamCommands.
Context `{Engine} `{!NetRemoves} `{RangeOrder} `{StreamClock} `{NodeMaxEntries} `{PairSort}.

Definition streamExists (s : StreamSnap) : bool := ks_exists (ss_key s).
Definition streamWrongType (s : StreamSnap) : bool := ks_wrongType (ss_key s).
Definition streamTips (s : StreamSnap) : list Tip := ks_tips (ss_key s).

(** What the reading commands share. *)
Definition read_stream (key : bytes) (missing : Writer → Writer) (found : StreamSnap → M unit) : M unit :=
  s ← getStreamSnapshot key;
  if negb (streamExists s) then reply missing
  else if streamWrongType s then reply WriteWrongType
  else found s.

(** ** XADD *)

(** IDMPAUTO names an entry by its fields and values, in the order of the
    fields. *)
Definition auto_iid (fields : list bytes) : bytes :=
  hex_encode (sha256_Sum ('(f, v) ← sort_pairs (field_pairs fields); f ++ [0] ++ v ++ [0])).

(** The id of the new entry. *)
Definition xadd_id (s : StreamSnap) (idStr : bytes) : M StreamID :=
  if beq idStr (str "*") then
    let id := generateStreamID (now_ms 1) s in
    if StreamID_IsZero id then reply (WriteError too_small) else mret id
  else match ParseStreamID idStr with
  | None => reply (WriteError bad_id)
  | Some (id, _, isSpecial) =>
    if isSpecial then
      if (2 <? len idStr) && beq (drop (length idStr - 2) idStr) (str "-*") then
        match generateStreamIDWithMs s (sid_Ms id) with
        | None => reply (WriteError too_small)
        | Some id => mret id
        end
      else reply (WriteError bad_id)
    else mret id
  end.

(** The generation, the duration and the size that IDMP goes by. *)
Definition idmp_config (o : XAddOpts) (key : bytes) : M (Z * Z * Z) :=
  if xa_idmp o then
    gen ← getIdmpGeneration key;
    c ← getStreamConfig key;
    let '(duration, maxsize, explicit) := c in
    mret (gen, (if (explicit : bool) then duration else 0), maxsize)
  else mret (0, 0, 0).

(** The entry and what is recorded with it. *)
Definition xadd_emit (key : bytes) (o : XAddOpts) (iid : bytes) (fields : list bytes) (s : StreamSnap)
    (gen maxsize : Z) (id : StreamID) : M unit :=
  _ ← begin_tx;
  _ ← (if 0 <? len (streamTips s) then emit (mkEffect key Effect_Noop) (streamTips s) else mret tt);
  _ ← emitStreamInsert key id fields;
  _ ← incrementStreamEntriesAdded key;
  _ ← (if negb (streamExists s) then emitStreamTypeTag key else mret tt);
  _ ← (if xa_idmp o && negb (len iid =? 0) then
         _ ← emitProducerSeqWithConfig (now_ms 2) key (xa_producer o) iid id gen maxsize;
         incrementIidsAdded key
       else mret tt);
  if to_HasMaxLen (xa_trim o) || bool_decide (is_Some (to_MinID (xa_trim o)))
  then trimEntries key (snap_entries s ++ [mkStreamEntry id fields]) (set_node_size GetStreamNodeMaxEntries (xa_trim o))
  else mret tt.

(** An entry that was not recorded before. *)
Definition xadd_new (key : bytes) (o : XAddOpts) (idStr iid : bytes) (fields : list bytes) (s : StreamSnap) (gen maxsize : Z) :
    M unit :=
  id ← xadd_id s idStr;
  if StreamID_Compare id (last_known s) <=? 0 then reply (WriteError too_small)
  else if StreamID_IsZero id
  then reply (WriteError (str "ERR The ID specified in XADD must be greater than 0-0"))
  else
    _ ← xadd_emit key o iid fields s gen maxsize id;
    write (WriteBulkStringStr (StreamID_String id)).

Definition xadd_body (key : bytes) (o : XAddOpts) (idStr iid : bytes) (fields : list bytes) : M unit :=
  s ← getStreamSnapshot key;
  if streamExists s && streamWrongType s then reply WriteWrongType
  else if xa_noMkStream o && negb (streamExists s) then reply WriteNullBulkString
  else
    c ← idmp_config o key;
    let '(gen, duration, maxsize) := c in
    existing ← (if xa_idmp o && negb (len iid =? 0) && streamExists s
                then lookupProducerSeqWithConfig (now_ms 0) key (xa_producer o) iid gen duration
                else mret None);
    match existing with
    | Some existingID =>
      _ ← incrementIidsDuplicates key;
      write (WriteBulkStringStr (StreamID_String existingID))
    | None => xadd_new key o idStr iid fields s gen maxsize
    end.
Definition xadd_runner (key : bytes) (o : XAddOpts) (idStr iid : bytes) (fields : list bytes) : M unit :=
  with_savepoint (xadd_body key o idStr iid fields).

Definition handleXAdd (args : list bytes) : Prep :=
  match args with
  | key :: ((_ :: _ :: _ :: _) as rest) =>
    match xadd_opts (length rest) rest no_xadd_opts with
    | Err f => Refuse [key] f
    | Ok (_, []) => Refuse [key] syntax_error
    | Ok (o, idStr :: fields) =>
      if xa_idmp o && negb (beq idStr (str "*")) then
        Refuse [key] (WriteError (match ParseStreamID idStr with
                                  | None => bad_id
                                  | Some _ => str "ERR IDMP/IDMPAUTO can be used only with auto-generated IDs"
                                  end))
      else if (len fields =? 0) || negb (len fields mod 2 =? 0)
      then Refuse [key] (WriteWrongNumArguments (str "xadd"))
      else
        let iid := if xa_auto o then auto_iid fields else xa_iid o in
        Accept [key] (xadd_runner key o idStr iid fields)
    end
  | _ => Refuse [] (WriteWrongNumArguments (str "xadd"))
  end.

(** ** XLEN, XRANGE, XREVRANGE *)

Definition handleXLen (args : list bytes) : Prep :=
  match args with
  | [key] =>
    Accept [key] (read_stream key (WriteInteger 0) (λ s, write (WriteInteger (streamLen (ks_snap (ss_key s))))))
  | _ => Refuse [] (WriteWrongNumArguments (str "xlen"))
  end.

(** The COUNT after the bounds; arguments after it are not looked at. *)
Definition range_count (args : list bytes) : result (Writer → Writer) Z :=
  match args with
  | a :: n :: _ =>
    if beq (ToUpper a) (str "COUNT") then
      match parse_count n with Some c => Ok c | None => Err (WriteError not_an_integer) end
    else Err syntax_error
  | _ => Ok 0
  end.

Definition xrange_prep (key startStr endStr : bytes) (opts : list bytes)
    (range : list StreamEntry → StreamID → StreamID → bool → bool → Z → list StreamEntry) : Prep :=
  match range_count opts with
  | Err f => Refuse [key] f
  | Ok count =>
    match ParseStreamIDForRange startStr false, ParseStreamIDForRange endStr true with
    | Some (start, startExcl), Some (end_, endExcl) =>
      Accept [key] (read_stream key (WriteArray 0) (λ s,
        write (writeStreamEntries (range (snap_entries s) start end_ startExcl endExcl count))))
    | _, _ => Refuse [key] (WriteError bad_id)
    end
  end.
Definition handleXRange (args : list bytes) : Prep :=
  match args with
  | key :: startStr :: endStr :: opts => xrange_prep key startStr endStr opts rangeEntries
  | _ => Refuse [] (WriteWrongNumArguments (str "xrange"))
  end.
Definition handleXRevRange (args : list bytes) : Prep :=
  match args with
  | key :: endStr :: startStr :: opts => xrange_prep key startStr endStr opts rangeEntriesReverse
  | _ => Refuse [] (WriteWrongNumArguments (str "xrevrange"))
  end.

(** ** XDEL, XDELEX *)

Definition in_stream (entries : list StreamEntry) (id : StreamID) : bool :=
  existsb (λ e, beq (encodeStreamElementID (se_ID e)) (encodeStreamElementID id)) entries.

(** The second removal leaves a tombstone. *)
Definition remove_twice (key : bytes) (id : StreamID) : M unit :=
  _ ← emitStreamRemove key id;
  emitStreamRemove key id.

Definition xdel_runner (key : bytes) (ids : list StreamID) : M unit :=
  read_stream key (WriteInteger 0) (λ s,
    let toDelete := filter (λ id, in_stream (snap_entries s) id = true) ids in
    let deleted := len toDelete in
    if deleted =? 0 then reply (WriteInteger 0)
    else
      _ ← begin_read key (streamTips s);
      _ ← for_each toDelete (remove_twice key);
      write (WriteInteger deleted)).

Definition handleXDel (args : list bytes) : Prep :=
  match args with
  | key :: ((_ :: _) as rest) =>
    match parse_ids rest with
    | None => Refuse [key] (WriteError bad_id)
    | Some ids => Accept [key] (xdel_runner key ids)
    end
  | _ => Refuse [] (WriteWrongNumArguments (str "xdel"))
  end.

Definition xdelex_one (key : bytes) (refMode : RefMode) (entries : list StreamEntry) (id : StreamID) : M Z :=
  if negb (in_stream entries id) then mret (-1)
  else
    canDelete ← canTrim key refMode id;
    if negb canDelete then mret 2
    else
      _ ← emitStreamRemove key id;
      _ ← handleTrim key refMode id;
      mret 1.
Fixpoint xdelex_loop (key : bytes) (refMode : RefMode) (entries : list StreamEntry) (ids : list StreamID) : M (list Z) :=
  match ids with
  | [] => mret []
  | id :: ids' =>
    r ← xdelex_one key refMode entries id;
    rs ← xdelex_loop key refMode entries ids';
    mret (r :: rs)
  end.

Definition write_codes (codes : list Z) (w : Writer) : Writer :=
  foldl (λ w n, WriteInteger n w) (WriteArray (len codes) w) codes.

Definition xdelex_runner (key : bytes) (refMode : RefMode) (ids : list StreamID) : M unit :=
  with_savepoint (
    read_stream key (write_codes (replicate (length ids) (-1))) (λ s,
      _ ← begin_read key (streamTips s);
      results ← xdelex_loop key refMode (snap_entries s) ids;
      write (write_codes results))).

(** The mode and what follows IDS; [i] is the index of [args] in the command. *)
Definition ids_block (i : Z) (args : list bytes) : result (Writer → Writer) (list StreamID) :=
  match args with
  | a :: n :: rest =>
    if negb (beq (ToUpper a) (str "IDS")) then Err syntax_error
    else match Atoi n with
    | None => Err (WriteError (str "ERR Number of IDs must be a positive integer"))
    | Some numIds =>
      if numIds <? 1 then Err (WriteError (str "ERR Number of IDs must be a positive integer"))
      else
        let total := i + 2 + len rest in
        let want := i64 (i + 2 + numIds) in
        if negb (want =? total) then
          Err (if total <? want then WriteError (str "ERR The `numids` parameter must match the number of arguments")
               else syntax_error)
        else match parse_ids rest with
        | None => Err (WriteError bad_id)
        | Some ids => Ok ids
        end
    end
  | _ => Err syntax_error
  end.

Definition handleXDelEx (args : list bytes) : Prep :=
  match args with
  | key :: ((opt :: ((_ :: _ :: _) as rest)) as all) =>
    let parsed :=
      match ref_mode (ToUpper opt) with
      | Some m => match ids_block 2 rest with Ok ids => Ok (m, ids) | Err f => Err f end
      | None =>
        if beq (ToUpper opt) (str "IDS")
        then match ids_block 1 all with Ok ids => Ok (RefModeKeepRef, ids) | Err f => Err f end
        else Err syntax_error
      end in
    match parsed with
    | Err f => Refuse [key] f
    | Ok (mode, ids) => Accept [key] (xdelex_runner key mode ids)
    end
  | _ => Refuse [] (WriteWrongNumArguments (str "xdelex"))
  end.

(** ** XSETID *)

(** An entry is put in and taken out again, which leaves its tombstone. *)
Definition sentinel (key : bytes) (id : StreamID) : M unit :=
  _ ← emitStreamInsert key id [];
  remove_twice key id.

(** [None]: the ids and the number given fit the stream. *)
Definition xsetid_error (lastID : StreamID) (entriesAdded : option Z) (maxDeleted : option StreamID)
    (curMaxDeletedID : StreamID) (entries : list StreamEntry) : option bytes :=
  if StreamID_Compare lastID curMaxDeletedID <? 0
  then Some (str "ERR The ID specified in XSETID is smaller than current max_deleted_entry_id")
  else if (match maxDeleted with Some m => 0 <? StreamID_Compare m lastID | None => false end)
  then Some (str "ERR The ID specified in XSETID is smaller than the provided max_deleted_entry_id")
  else match last entries with
  | None => None
  | Some top =>
    if StreamID_Compare lastID (se_ID top) <? 0
    then Some (str "ERR The ID specified in XSETID is smaller than the target stream top item")
    else if (match entriesAdded with Some n => n <? len entries | None => false end)
    then Some (str "ERR The entries_added specified in XSETID is smaller than the target stream length")
    else None
  end.

Definition xsetid_runner (key : bytes) (lastID : StreamID) (entriesAdded : option Z) (maxDeleted : option StreamID) : M unit :=
  read_stream key (WriteError (str "ERR no such key")) (λ s,
    let curMaxDeletedID := sm_MaxDeletedID (snap_meta s) in
    let curLastID := last_known s in
    match xsetid_error lastID entriesAdded maxDeleted curMaxDeletedID (snap_entries s) with
    | Some msg => reply (WriteError msg)
    | None =>
      _ ← begin_tx;
      _ ← (if 0 <? len (streamTips s) then emit (mkEffect key Effect_Noop) (streamTips s) else mret tt);
      _ ← (if 0 <? StreamID_Compare lastID curLastID then sentinel key lastID else mret tt);
      _ ← (match maxDeleted with
           | Some m => if 0 <? StreamID_Compare m curMaxDeletedID then sentinel key m else mret tt
           | None => mret tt
           end);
      _ ← (match entriesAdded with Some n => setStreamEntriesAdded key n | None => mret tt end);
      write WriteOK
    end).

Definition handleXSetId (args : list bytes) : Prep :=
  match args with
  | key :: lastIDStr :: opts =>
    match ParseStreamID lastIDStr with
    | Some (lastID, _, false) =>
      match xsetid_opts opts (None, None) with
      | Err f => Refuse [key] f
      | Ok (ea, md) => Accept [key] (xsetid_runner key lastID ea md)
      end
    | _ => Refuse [key] (WriteError bad_id)
    end
  | _ => Refuse [] (WriteWrongNumArguments (str "xsetid"))
  end.

(** ** XIDMPRECORD, XCFGSET *)

Definition xidmprecord_runner (key producer iid : bytes) (id : StreamID) : M unit :=
  read_stream key (WriteError (str "ERR no such key")) (λ s,
    if negb (existsb (λ e, StreamID_Compare (se_ID e) id =? 0) (snap_entries s))
    then reply (WriteError (str "ERR No such message in stream"))
    else
      existing ← lookupProducerSeq (now_ms 0) key producer iid;
      match existing with
      | Some existingID =>
        reply (if negb (StreamID_Compare existingID id =? 0)
               then WriteError (str "ERR IID already exists for this producer with a different stream ID")
               else WriteOK)
      | None =>
        _ ← begin_tx;
        _ ← emitProducerSeq (now_ms 1) key producer iid id;
        _ ← incrementIidsAdded key;
        write WriteOK
      end).

Definition handleXIdmpRecord (args : list bytes) : Prep :=
  match args with
  | [key; producer; iid; idStr] =>
    if len producer =? 0 then Refuse [] (WriteError (str "ERR producer ID must be non-empty"))
    else if len iid =? 0 then Refuse [] (WriteError (str "ERR idempotent ID must be non-empty"))
    else match ParseStreamID idStr with
    | None => Refuse [] (WriteError bad_id)
    | Some (id, _, _) => Accept [key] (xidmprecord_runner key producer iid id)
    end
  | _ => Refuse [] (WriteWrongNumArguments (str "xidmprecord"))
  end.

Definition xcfg_duration : bytes := str "idmp-duration".
Definition xcfg_maxsize : bytes := str "idmp-maxsize".

(** The settings given, in the order [range] visits the map. *)
Definition cfg_fields (duration maxsize : option Z) : list (bytes * Z) :=
  let m : gmap bytes Z := list_to_map
    (match duration with Some v => [(xcfg_duration, v)] | None => [] end ++
     match maxsize with Some v => [(xcfg_maxsize, v)] | None => [] end) in
  omap (λ f, pair f <$> m !! f) (range_keys (dom m)).

Definition differs (v : option Z) (old : Z) : bool :=
  match v with Some v => negb (v =? old) | None => false end.

Definition xcfgset_runner (key : bytes) (duration maxsize : option Z) : M unit :=
  with_savepoint (
    read_stream key (WriteError (str "ERR no such key")) (λ _,
      c ← getStreamConfig key;
      let '(oldDuration, oldMaxsize, _) := c in
      let changed := differs duration oldDuration || differs maxsize oldMaxsize in
      _ ← for_each (cfg_fields duration maxsize) (λ '(field, val), emitCfgSet key field val);
      _ ← (if changed then clearAllProducerKeys key else mret tt);
      write WriteOK)).

Definition handleXCfgSet (args : list bytes) : Prep :=
  match args with
  | [] => Refuse [] (WriteWrongNumArguments (str "xcfgset"))
  | [key] => Refuse [key] (WriteError (str "ERR At least one parameter (IDMP-DURATION or IDMP-MAXSIZE) is required"))
  | key :: opts =>
    match xcfg_opts opts (None, None) with
    | Err msg => Refuse [key] (WriteError msg)
    | Ok (duration, maxsize) => Accept [key] (xcfgset_runner key duration maxsize)
    end
  end.
End StreamCommands.
