(* ===== verification/StreamReads.v ===== *)
(** * Stream values, XTRIM and the blocking reads

    [StreamValue] of src/redis/shared/streams.go with its [ForEach] and [Trim],
    and XTRIM of src/redis/stream/handlers.go, which rebuilds a stream value from
    the snapshot to find out what to remove.

    The ordered index ([keytrie.KeyIndex]) belongs to the engine package and is a
    parameter: a set of keys visited in lexicographic order. *)

From Stdlib Require Import SpecFloat.
From S2P Require Import Prelude GoBytes Strconv Floats Commands Writer Engine Sets Strings Hashes Lists Blocking ListBlocking StreamIds Streams StreamCommands.

Local Open Scope Z_scope.

(** The calls of the index, with the empty prefix. *)
Class KeyTrie := {
  KeyIndex : Type;
  TrieTips : Type;
  keytrie_New : KeyIndex;
  trie_Insert : bytes → KeyIndex → KeyIndex;
  trie_Contains : bytes → KeyIndex → TrieTips;
  trie_Delete : bytes → TrieTips → KeyIndex → KeyIndex;
  trie_Size : KeyIndex → Z;
  trie_First : KeyIndex → option bytes;
  trie_Next : bytes → KeyIndex → option bytes
}.

#[global] Instance StreamID_countable : Countable StreamID.
Proof.
  refine (inj_countable' (λ i, (sid_Ms i, sid_Seq i)) (λ p, mkSID (fst p) (snd p)) _).
  intros []; done.
Defined.

Record Consumer := mkConsumer { co_Name : bytes; co_SeenTime : Z; co_PendingCount : Z; co_ActiveTime : Z }.
Record ConsumerGroup := mkConsumerGroup {
  cg_Name : bytes; cg_LastDeliveredID : StreamID; cg_EntriesRead : Z;
  cg_Pending : gmap StreamID PendingEntry; cg_Consumers : gmap bytes Consumer; cg_MaxPending : Z; cg_CreatedAt : Z
}.

Section StreamTrim.
Context `{KeyTrie}.

Record StreamValue := mkStreamValue {
  sv_Index : KeyIndex; sv_Entries : gmap bytes StreamEntry;
  sv_LastID : StreamID; sv_FirstID : StreamID; sv_EntriesAdded : Z; sv_MaxDeletedID : StreamID;
  sv_Groups : gmap bytes ConsumerGroup; sv_cachedSize : Z; sv_cachedSerializedSize : Z
}.

Definition NewStreamValue : StreamValue :=
  mkStreamValue keytrie_New ∅ (mkSID 0 0) (mkSID 0 0) 0 (mkSID 0 0) ∅ 0 0.

Definition NewConsumerGroup (now : Z) (name : bytes) (lastDeliveredID : StreamID) : ConsumerGroup :=
  mkConsumerGroup name lastDeliveredID (-1) ∅ ∅ 0 now.

Definition GetOrCreateConsumer (now : Z) (name : bytes) (g : ConsumerGroup) : Consumer * ConsumerGroup :=
  let c := match cg_Consumers g !! name with
           | Some c => mkConsumer (co_Name c) now (co_PendingCount c) (co_ActiveTime c)
           | None => mkConsumer name now 0 0
           end in
  (c, mkConsumerGroup (cg_Name g) (cg_LastDeliveredID g) (cg_EntriesRead g) (cg_Pending g)
        (<[name := c]> (cg_Consumers g)) (cg_MaxPending g) (cg_CreatedAt g)).

Definition entrySize (e : StreamEntry) : Z :=
  foldl (λ size f, size + (len f + 24)) 64 (se_Fields e).
Definition entrySerializedSize (idKey : bytes) (e : StreamEntry) : Z :=
  foldl (λ size f, size + (4 + len f)) (4 + len idKey + 16 + 4) (se_Fields e).

(** [ForEach] with a function that never stops: the entries visited.  As many
    turns as the index has keys are enough. *)
Fixpoint visit (fuel : nat) (s : StreamValue) (cur : option bytes) : list StreamEntry :=
  match fuel, cur with
  | S fuel', Some k =>
    match sv_Entries s !! k with
    | Some e => e :: visit fuel' s (trie_Next k (sv_Index s))
    | None => visit fuel' s (trie_Next k (sv_Index s))
    end
  | _, _ => []
  end.
Definition index_fuel (s : StreamValue) : nat := Z.to_nat (trie_Size (sv_Index s)).
Definition ForEach (s : StreamValue) : list StreamEntry :=
  if trie_Size (sv_Index s) =? 0 then []
  else visit (index_fuel s) s (trie_First (sv_Index s)).

(** ** Trim *)

(** May an entry go: with ACKED every group has had it and acknowledged it. *)
Definition canTrim_value (mode : RefMode) (groups : gmap bytes ConsumerGroup) (id : StreamID) : bool :=
  if bool_decide (mode = RefModeAcked) then
    forallb (λ '(_, g), negb (0 <? StreamID_Compare id (cg_LastDeliveredID g)) &&
                        negb (bool_decide (is_Some (cg_Pending g !! id)))) (map_to_list groups)
  else true.

(** With DELREF the entry leaves the pending lists. *)
Definition unref (id : StreamID) (g : ConsumerGroup) : ConsumerGroup :=
  match cg_Pending g !! id with
  | None => g
  | Some pe =>
    mkConsumerGroup (cg_Name g) (cg_LastDeliveredID g) (cg_EntriesRead g) (delete id (cg_Pending g))
      (alter (λ c, mkConsumer (co_Name c) (co_SeenTime c) (co_PendingCount c - 1) (co_ActiveTime c))
         (pe_Consumer pe) (cg_Consumers g))
      (cg_MaxPending g) (cg_CreatedAt g)
  end.
Definition handleTrim_value (mode : RefMode) (groups : gmap bytes ConsumerGroup) (id : StreamID) :
    gmap bytes ConsumerGroup :=
  if bool_decide (mode = RefModeDelRef) then unref id <$> groups else groups.

(** The keys from [cur] on that are marked, [n] of them already, until [most]
    are or [stop] says so; with the groups after it. *)
Fixpoint mark (fuel : nat) (s : StreamValue) (mode : RefMode) (stop : bytes → bool) (most n : Z)
    (cur : option bytes) (groups : gmap bytes ConsumerGroup) : list bytes * gmap bytes ConsumerGroup :=
  match fuel, cur with
  | S fuel', Some k =>
    if most <=? n then ([], groups)
    else if stop k then ([], groups)
    else
      let next := trie_Next k (sv_Index s) in
      match sv_Entries s !! k with
      | None => mark fuel' s mode stop most n next groups
      | Some e =>
        if negb (canTrim_value mode groups (se_ID e)) then mark fuel' s mode stop most n next groups
        else
          let '(keys, groups') := mark fuel' s mode stop most (n + 1) next (handleTrim_value mode groups (se_ID e)) in
          (k :: keys, groups')
      end
  | _, _ => ([], groups)
  end.

(** The key [n] places on. *)
Fixpoint skip (n : nat) (s : StreamValue) (cur : option bytes) : option bytes :=
  match n, cur with
  | S n', Some k => skip n' s (trie_Next k (sv_Index s))
  | _, _ => cur
  end.

Definition with_groups (g : gmap bytes ConsumerGroup) (s : StreamValue) : StreamValue :=
  mkStreamValue (sv_Index s) (sv_Entries s) (sv_LastID s) (sv_FirstID s) (sv_EntriesAdded s) (sv_MaxDeletedID s) g
    (sv_cachedSize s) (sv_cachedSerializedSize s).
Definition with_first (id : StreamID) (s : StreamValue) : StreamValue :=
  mkStreamValue (sv_Index s) (sv_Entries s) (sv_LastID s) id (sv_EntriesAdded s) (sv_MaxDeletedID s) (sv_Groups s)
    (sv_cachedSize s) (sv_cachedSerializedSize s).

Definition remove_key (s : StreamValue) (key : bytes) : StreamValue :=
  let '(size, serialized) :=
    match sv_Entries s !! key with
    | Some e => (entrySize e, entrySerializedSize key e)
    | None => (0, 0)
    end in
  mkStreamValue (trie_Delete key (trie_Contains key (sv_Index s)) (sv_Index s)) (delete key (sv_Entries s))
    (sv_LastID s) (sv_FirstID s) (sv_EntriesAdded s) (sv_MaxDeletedID s) (sv_Groups s)
    (sv_cachedSize s - size) (sv_cachedSerializedSize s - serialized).

Definition update_first (s : StreamValue) : StreamValue :=
  if 0 <? trie_Size (sv_Index s) then
    match (k ← trie_First (sv_Index s); sv_Entries s !! k) with
    | Some e => with_first (se_ID e) s
    | None => s
    end
  else with_first (mkSID 0 0) s.

(** The keys that are to go, those below MINID and those over MAXLEN. *)
Definition mark_minid (o : TrimOptions) (limit : Z) (s : StreamValue) : list bytes * gmap bytes ConsumerGroup :=
  match to_MinID o with
  | None => ([], sv_Groups s)
  | Some m =>
    mark (index_fuel s) s (to_RefMode o) (λ k, negb (blt k (StreamID_Key m))) limit 0 (trie_First (sv_Index s)) (sv_Groups s)
  end.
Definition mark_maxlen (o : TrimOptions) (limit trimCount : Z) (s : StreamValue) (groups : gmap bytes ConsumerGroup) :
    list bytes * gmap bytes ConsumerGroup :=
  if to_HasMaxLen o then
    mark (index_fuel s) s (to_RefMode o) (λ _, false) (to_trim o limit trimCount (trie_Size (sv_Index s) - trimCount)) 0
      (skip (Z.to_nat trimCount) s (trie_First (sv_Index s))) groups
  else ([], groups).

Definition Trim (o : TrimOptions) (s : StreamValue) : Z * StreamValue :=
  if trie_Size (sv_Index s) =? 0 then (0, s)
  else
    let limit := trim_limit o (trie_Size (sv_Index s)) in
    let '(keys1, groups1) := mark_minid o limit s in
    let '(keys2, groups2) := mark_maxlen o limit (len keys1) s groups1 in
    let keysToTrim := keys1 ++ keys2 in
    let s := with_groups groups2 s in
    if len keysToTrim =? 0 then (0, s)
    else (len keysToTrim, update_first (foldl remove_key s keysToTrim)).

(** ** XTRIM *)

Context `{Engine} `{!NetRemoves} `{RangeOrder} `{NodeMaxEntries}.

Definition entriesToStreamValue (entries : list StreamEntry) (meta : StreamMeta) : StreamValue :=
  mkStreamValue (foldl (λ t e, trie_Insert (StreamID_Key (se_ID e)) t) keytrie_New entries)
    (foldl (λ m e, <[StreamID_Key (se_ID e) := e]> m) ∅ entries)
    (sm_LastID meta) (streamFirstID entries) (sm_EntriesAdded meta) (sm_MaxDeletedID meta) ∅ 0 0.

(** The pending list as this command reads it: the owner is taken to start at
    the 25th byte. *)
Definition loaded_pending (pelSnap : option ReducedEffect) : gmap StreamID PendingEntry :=
  list_to_map (omap (λ '(elemID, v),
    let raw := Decompress v in
    if (len elemID =? 16) && (24 <=? len raw)
    then Some (decodeStreamElementID elemID, mkPending (decodeStreamElementID elemID) (drop 24 raw) 0 0)
    else None) (map_to_list (net_adds pelSnap))).

Fixpoint load_groups (key : bytes) (names : list bytes) (groups : gmap bytes ConsumerGroup) :
    M (gmap bytes ConsumerGroup) :=
  match names with
  | [] => mret groups
  | gName :: names' =>
    gSnap ← getGroupSnapshot key gName;
    let meta := getGroupMeta gSnap in
    pelSnap ← getPELSnapshot key gName;
    load_groups key names' (<[gName := mkConsumerGroup gName (gm_LastDelivered meta) (gm_EntriesRead meta)
                                       (loaded_pending pelSnap) ∅ 0 0]> groups)
  end.
Definition populateStreamGroups (key : bytes) (sv : StreamValue) : M StreamValue :=
  names ← listGroupNames key;
  groups ← load_groups key names (sv_Groups sv);
  mret (with_groups groups sv).

(** The entries whose keys the stream value no longer holds. *)
Definition gone (entries : list StreamEntry) (sv : StreamValue) : list StreamEntry :=
  filter (λ e, StreamID_Key (se_ID e) ∉ ((λ r, StreamID_Key (se_ID r)) <$> ForEach sv)) entries.

Definition drop_gone (key : bytes) (trimmed : list StreamEntry) (g : bytes) : M unit :=
  pelSnap ← getPELSnapshot key g;
  for_each trimmed (λ e,
    if has_member pelSnap (encodeStreamElementID (se_ID e)) then emitPELRemove key g (se_ID e) else mret tt).

Definition xtrim_runner (key : bytes) (o : TrimOptions) : M unit :=
  with_savepoint (
    read_stream key (WriteInteger 0) (λ s,
      let entries := snap_entries s in
      let o := set_node_size GetStreamNodeMaxEntries o in
      _ ← begin_read key (streamTips s);
      let sv := entriesToStreamValue entries (snap_meta s) in
      sv ← (if bool_decide (to_RefMode o = RefModeAcked) || bool_decide (to_RefMode o = RefModeDelRef)
            then populateStreamGroups key sv else mret sv);
      let '(trimmed, sv') := Trim o sv in
      _ ← (if 0 <? trimmed then
             _ ← for_each (gone entries sv') (λ e, emitStreamRemove key (se_ID e));
             if bool_decide (to_RefMode o = RefModeDelRef) then
               groups ← listGroupNames key;
               for_each groups (drop_gone key (gone entries sv'))
             else mret tt
           else mret tt);
      write (WriteInteger trimmed))).

(** LIMIT goes with ~ only. *)
Definition xtrim_limit (args : list bytes) (o : TrimOptions) : result (Writer → Writer) (TrimOptions * list bytes) :=
  match args with
  | a :: _ :: _ =>
    if beq (ToUpper a) (str "LIMIT") && negb (to_Approx o)
    then Err (WriteError (str "ERR syntax error, LIMIT cannot be used without the special ~ option"))
    else trim_limit_opt args o
  | _ => trim_limit_opt args o
  end.
Definition xtrim_mode (args : list bytes) (o : TrimOptions) : option TrimOptions :=
  match args with
  | [] => Some o
  | [a] => (λ m, set_mode m o) <$> ref_mode (ToUpper a)
  | _ => None
  end.

(** The strategy, its threshold, LIMIT and the treatment of references. *)
Definition parse_xtrim (strategy : bytes) (rest : list bytes) : result (Writer → Writer) TrimOptions :=
  let strategy := ToUpper strategy in
  if negb (beq strategy (str "MAXLEN") || beq strategy (str "MINID"))
  then Err (WriteError (str "ERR syntax error, MAXLEN or MINID must be specified"))
  else match trim_threshold (beq strategy (str "MAXLEN")) rest no_trim with
  | Err f => Err f
  | Ok (o, rest) =>
    match xtrim_limit rest o with
    | Err f => Err f
    | Ok (o, rest) =>
      match xtrim_mode rest o with
      | None => Err syntax_error
      | Some o => Ok o
      end
    end
  end.

Definition handleXTrim (args : list bytes) : Prep :=
  match args with
  | key :: strategy :: ((_ :: _) as rest) =>
    match parse_xtrim strategy rest with
    | Err f => Refuse [key] f
    | Ok o => Accept [key] (xtrim_runner key o)
    end
  | _ => Refuse [] (WriteWrongNumArguments (str "xtrim"))
  end.
End StreamTrim.

(** * XREAD

    [handleXRead] and [handleXReadNonBlocking] of src/redis/stream/handlers.go:
    the entries after an id in several streams, waiting for one when asked to,
    on the registry of blocked clients and the wait loop of ListBlocking. *)


(** Where the reading of a stream starts: after an id, after the last id ($), or
    with the last entry (+). *)
Inductive ReadFrom : Type :=
  | AfterID (id : StreamID)
  | AfterLastID
  | LastEntry.

Definition parse_from (idStr : bytes) : option ReadFrom :=
  if beq idStr (str "$") then Some AfterLastID
  else if beq idStr (str "+") then Some LastEntry
  else match ParseStreamID idStr with
  | None => None
  | Some (id, _, isSpecial) => if isSpecial && negb (beq idStr (str "-")) then None else Some (AfterID id)
  end.

(** The keys with their ids: the first half of the arguments and the second. *)
Definition unbalanced (cmd : bytes) : bytes :=
  str "ERR Unbalanced '" ++ cmd ++
  str "' list of streams: for each stream key an ID, '+', or '$' must be specified.".
Definition stream_args (args : list bytes) : result bytes (list (bytes * ReadFrom)) :=
  if (len args <? 2) || negb (len args mod 2 =? 0) then Err (unbalanced (str "xread"))
  else
    let n := (length args / 2)%nat in
    match mapM parse_from (drop n args) with
    | None => Err bad_id
    | Some froms => Ok (zip (take n args) froms)
    end.

Record StreamResult := mkStreamResult { sr_key : bytes; sr_entries : list StreamEntry }.
Definition writeXReadResults (results : list StreamResult) (w : Writer) : Writer :=
  foldl (λ w r, writeStreamEntries (sr_entries r) (WriteBulkStringStr (sr_key r) (WriteArray 2 w)))
    (WriteArray (len results) w) results.

Section StreamReads.
Context `{Engine} `{!NetRemoves} `{RangeOrder} `{Xxh3} `{ParseFloat}.

(** The count, whether to block, and what follows STREAMS.  A negative time is
    refused, but not where the time is only skipped. *)
Fixpoint xread_opts (checkBlock : bool) (args : list bytes) (count : Z) (block : bool) :
    result (Writer → Writer) (Z * bool * list bytes) :=
  match args with
  | [] => Err syntax_error
  | a :: rest =>
    let opt := ToUpper a in
    if beq opt (str "COUNT") then
      match rest with
      | [] => Err syntax_error
      | n :: rest' =>
        match parse_count n with
        | None => Err (WriteError not_an_integer)
        | Some c => xread_opts checkBlock rest' c block
        end
      end
    else if beq opt (str "BLOCK") then
      match rest with
      | [] => Err syntax_error
      | t :: rest' =>
        match parse_float t with
        | None => Err (WriteError not_an_integer)
        | Some b =>
          if checkBlock && SFltb b (S754_zero false) then Err (WriteError not_an_integer)
          else xread_opts checkBlock rest' count true
        end
      end
    else if beq opt (str "STREAMS") then Ok (count, block, rest)
    else if beq opt (str "CLAIM")
    then Err (WriteError (str "ERR The CLAIM option is only supported when using the GROUP option"))
    else Err syntax_error
  end.

Definition parse_xread (checkBlock : bool) (args : list bytes) :
    result (Writer → Writer) (Z * bool * list (bytes * ReadFrom)) :=
  if len args <? 3 then Err (WriteWrongNumArguments (str "xread"))
  else match xread_opts checkBlock args 0 false with
  | Err f => Err f
  | Ok (count, block, rest) =>
    match stream_args rest with
    | Err msg => Err (WriteError msg)
    | Ok streams => Ok (count, block, streams)
    end
  end.

(** The last id of a stream, from its entries when no metadata was found. *)
Definition last_read (s : StreamSnap) : StreamID :=
  let m := snap_meta s in
  if sm_found m then sm_LastID m else streamLastID (snap_entries s).

Definition read_one (count : Z) (s : StreamSnap) (from : ReadFrom) : list StreamEntry :=
  let entries := snap_entries s in
  match from with
  | LastEntry => drop (length entries - 1) entries
  | AfterLastID => rangeEntries entries (last_read s) MaxStreamID true false count
  | AfterID id => rangeEntries entries id MaxStreamID true false count
  end.

Fixpoint tryReadStreams (count : Z) (streams : list (bytes * ReadFrom)) : M (list StreamResult) :=
  match streams with
  | [] => mret []
  | (sKey, from) :: streams' =>
    s ← getStreamSnapshot sKey;
    if negb (streamExists s) || streamWrongType s then tryReadStreams count streams'
    else
      let found := read_one count s from in
      results ← tryReadStreams count streams';
      mret (if 0 <? len found then mkStreamResult sKey found :: results else results)
  end.

Definition read_now (count : Z) (streams : list (bytes * ReadFrom)) : M unit :=
  results ← tryReadStreams count streams;
  if len results =? 0 then reply WriteNullArray else write (writeXReadResults results).

Definition handleXReadNonBlocking (args : list bytes) : Prep :=
  match parse_xread false args with
  | Err f => Refuse [] f
  | Ok (count, _, streams) => Accept (fst <$> streams) (read_now count streams)
  end.

(** Before the wait, $ becomes the last id there is. *)
Fixpoint resolve_last (streams : list (bytes * ReadFrom)) : M (list (bytes * ReadFrom)) :=
  match streams with
  | [] => mret []
  | (sKey, from) :: streams' =>
    from' ← (match from with
             | AfterLastID =>
               s ← getStreamSnapshot sKey;
               mret (AfterID (if streamExists s then last_read s else mkSID 0 0))
             | _ => mret from
             end);
    rest ← resolve_last streams';
    mret ((sKey, from') :: rest)
  end.

Definition attempt_read (count : Z) (streams : list (bytes * ReadFrom)) (p : nat) (m : SubscriptionManager) : M Attempt :=
  results ← tryReadStreams count streams;
  mret (if 0 <? len results then Served (writeXReadResults results) else NotYet).

(** Registers for the keys, of which there is one at least, and enters the wait
    loop.  [noKey]: a key that goes away wakes the client too. *)
Definition block_streams (noKey : bool) (attempt : nat → SubscriptionManager → M Attempt) (keys : list bytes)
    (events : list WaitEvent) (m : SubscriptionManager) (st : St) : BlockEnd * SubscriptionManager * St :=
  match RegisterWithOptions noKey keys m with
  | (None, m') => (Stopped, m', st)
  | (Some p, m') => block_loop attempt WriteNullArray p events m' st
  end.

Definition handleXRead (inScript : bool) (args : list bytes) (events : list WaitEvent) :
    SubscriptionManager → St → BlockEnd * SubscriptionManager * St :=
  before_block
    (if inScript then _ ← drop_runner (handleXReadNonBlocking args); exit
     else match parse_xread true args with
     | Err f => reply f
     | Ok (count, block, streams) =>
       if negb block then _ ← read_now count streams; exit
       else
         streams' ← resolve_last streams;
         mret (count, streams')
     end)
    (λ '(count, streams), block_streams false (attempt_read count streams) (fst <$> streams) events).
End StreamReads.
