(* ===== verification/StreamGroups.v ===== *)
(** * Consumer groups

    src/redis/stream/groups.go: XGROUP, XACK, XPENDING, XREADGROUP (with CLAIM and
    its blocking form), XACKDEL, XCLAIM and XAUTOCLAIM.

    Whether the map of elements of a snapshot is nil or only empty matters in one
    place, the history form of XREADGROUP, and is a parameter. *)

From Stdlib Require Import SpecFloat.
From S2P Require Import Prelude GoBytes Strconv Floats Commands Writer Engine Sets Strings Hashes Lists Blocking ListBlocking StreamIds Streams StreamCommands StreamReads.

Local Open Scope Z_scope.

(** [snap == nil || snap.NetAdds == nil]. *)
Class NilAdds := nil_adds : option ReducedEffect → bool.

(** ** Arguments *)

Definition bad_entriesread : bytes := str "ERR value for ENTRIESREAD must be positive or -1".

(** The options of XGROUP CREATE ([mk]) and XGROUP SETID: MKSTREAM, and the
    number of entries read, -1 when it is not given. *)
Fixpoint xgroup_opts (mk : bool) (args : list bytes) (o : bool * Z) : result (Writer → Writer) (bool * Z) :=
  match args with
  | [] => Ok o
  | a :: rest =>
    let opt := ToUpper a in
    if mk && beq opt (str "MKSTREAM") then xgroup_opts mk rest (true, snd o)
    else if beq opt (str "ENTRIESREAD") then
      match rest with
      | [] => Err syntax_error
      | n :: rest' =>
        match Atoi n with
        | None => Err (WriteError not_an_integer)
        | Some er =>
          if er <? -1 then Err (WriteError bad_entriesread)
          else xgroup_opts mk rest' (fst o, er)
        end
      end
    else Err syntax_error
  end.

Inductive GroupFrom : Type :=
  | NewOnly
  | History (id : StreamID).

Definition parse_group_from (idStr : bytes) : option GroupFrom :=
  if beq idStr (str ">") then Some NewOnly
  else match ParseStreamID idStr with
  | None => None
  | Some (id, _, isSpecial) =>
    if isSpecial && negb (beq idStr (str "0")) && negb (beq idStr (str "0-0")) then None else Some (History id)
  end.

Definition group_stream_args (args : list bytes) : result bytes (list (bytes * GroupFrom)) :=
  if (len args <? 2) || negb (len args mod 2 =? 0)
  then Err (str "ERR Unbalanced 'xreadgroup' list of streams: for each stream key an ID or '>' must be specified.")
  else
    let n := (length args / 2)%nat in
    match mapM parse_group_from (drop n args) with
    | None => Err bad_id
    | Some froms => Ok (zip (take n args) froms)
    end.

Record ReadGroupOpts := mkRG { rg_count : Z; rg_block : bool; rg_claim : option Z; rg_noAck : bool }.

Definition bad_min_idle : bytes := str "ERR min-idle-time is not an integer or out of range".
Definition parse_claim (s : bytes) : result bytes Z :=
  match s with
  | 43 :: _ => Err bad_min_idle
  | _ =>
    if beq s (str "-0") then Err bad_min_idle
    else match Atoi s with
    | None => Err bad_min_idle
    | Some n => if n <? 0 then Err (str "ERR min-idle-time must be a positive integer") else Ok n
    end
  end.
Definition parse_block (s : bytes) : result bytes unit :=
  match Atoi s with
  | None => Err (str "ERR timeout is not an integer or out of range")
  | Some b => if b <? 0 then Err (str "ERR timeout is negative") else Ok tt
  end.

(** The options before STREAMS; where the command does not wait ([checked] is
    false) the values of BLOCK and CLAIM are skipped. *)
Fixpoint xreadgroup_opts (checked : bool) (args : list bytes) (o : ReadGroupOpts) :
    result (Writer → Writer) (ReadGroupOpts * list bytes) :=
  match args with
  | [] => Err syntax_error
  | a :: rest =>
    let opt := ToUpper a in
    let '(mkRG count block claim noAck) := o in
    if beq opt (str "COUNT") then
      match rest with
      | [] => Err syntax_error
      | n :: rest' =>
        match parse_count n with
        | None => Err (WriteError not_an_integer)
        | Some c => xreadgroup_opts checked rest' (mkRG c block claim noAck)
        end
      end
    else if beq opt (str "BLOCK") then
      match rest with
      | [] => Err syntax_error
      | t :: rest' =>
        if checked then
          match parse_block t with
          | Err msg => Err (WriteError msg)
          | Ok _ => xreadgroup_opts checked rest' (mkRG count true claim noAck)
          end
        else xreadgroup_opts checked rest' o
      end
    else if beq opt (str "CLAIM") then
      match rest with
      | [] => Err syntax_error
      | t :: rest' =>
        if checked then
          match parse_claim t with
          | Err msg => Err (WriteError msg)
          | Ok n => xreadgroup_opts checked rest' (mkRG count block (Some n) noAck)
          end
        else xreadgroup_opts checked rest' o
      end
    else if beq opt (str "NOACK") then xreadgroup_opts checked rest (mkRG count block claim true)
    else if beq opt (str "STREAMS") then Ok (o, rest)
    else Err syntax_error
  end.

Record ReadGroup := mkReadGroup { rd_group : bytes; rd_consumer : bytes; rd_opts : ReadGroupOpts; rd_streams : list (bytes * GroupFrom) }.
Definition parse_xreadgroup (checked : bool) (args : list bytes) : result (Writer → Writer) ReadGroup :=
  match args with
  | a :: group :: consumer :: ((_ :: _ :: _ :: _) as rest) =>
    if negb (beq (ToUpper a) (str "GROUP")) then Err syntax_error
    else match xreadgroup_opts checked rest (mkRG 0 false None false) with
    | Err f => Err f
    | Ok (o, rest') =>
      match group_stream_args rest' with
      | Err msg => Err (WriteError msg)
      | Ok streams => Ok (mkReadGroup group consumer o streams)
      end
    end
  | _ => Err (WriteWrongNumArguments (str "xreadgroup"))
  end.

Record ClaimOpts := mkClaim {
  cl_ids : list StreamID; cl_force : bool; cl_justID : bool; cl_idle : Z; cl_time : Z; cl_retry : Z
}.
Fixpoint xclaim_opts (args : list bytes) (o : ClaimOpts) : result (Writer → Writer) ClaimOpts :=
  match args with
  | [] => Ok o
  | a :: rest =>
    let opt := ToUpper a in
    let '(mkClaim ids force justID idle time retry) := o in
    if beq opt (str "IDLE") then
      match rest with
      | [] => Err syntax_error
      | n :: rest' =>
        match Atoi n with
        | None => Err (WriteError not_an_integer)
        | Some v => xclaim_opts rest' (mkClaim ids force justID v time retry)
        end
      end
    else if beq opt (str "TIME") then
      match rest with
      | [] => Err syntax_error
      | n :: rest' =>
        match Atoi n with
        | None => Err (WriteError not_an_integer)
        | Some v => xclaim_opts rest' (mkClaim ids force justID idle v retry)
        end
      end
    else if beq opt (str "RETRYCOUNT") then
      match rest with
      | [] => Err syntax_error
      | n :: rest' =>
        match Atoi n with
        | None => Err (WriteError not_an_integer)
        | Some v => xclaim_opts rest' (mkClaim ids force justID idle time v)
        end
      end
    else if beq opt (str "FORCE") then xclaim_opts rest (mkClaim ids true justID idle time retry)
    else if beq opt (str "JUSTID") then xclaim_opts rest (mkClaim ids force true idle time retry)
    else if beq opt (str "LASTID") then
      match rest with [] => Err syntax_error | _ :: rest' => xclaim_opts rest' o end
    else match ParseStreamID a with
    | Some (id, _, false) => xclaim_opts rest (mkClaim (ids ++ [id]) force justID idle time retry)
    | _ => Err (WriteError bad_id)
    end
  end.

Fixpoint xautoclaim_opts (args : list bytes) (o : Z * bool) : result (Writer → Writer) (Z * bool) :=
  match args with
  | [] => Ok o
  | a :: rest =>
    let opt := ToUpper a in
    if beq opt (str "COUNT") then
      match rest with
      | [] => Err syntax_error
      | n :: rest' =>
        match Atoi n with
        | Some c =>
          if (c <? 1) || (2 ^ 31 - 1 <? c) then Err (WriteError (str "ERR COUNT must be > 0"))
          else xautoclaim_opts rest' (c, snd o)
        | None => Err (WriteError (str "ERR COUNT must be > 0"))
        end
      end
    else if beq opt (str "JUSTID") then xautoclaim_opts rest (fst o, true)
    else Err syntax_error
  end.

Section StreamGroups.
Context `{Engine} `{!NetRemoves} `{RangeOrder} `{StreamClock} `{NilAdds} `{Xxh3}.

Definition nogroup (groupName key : bytes) : bytes :=
  str "NOGROUP No such consumer group '" ++ groupName ++ str "' for key name '" ++ key ++ str "'".

(** The stream and then its group must be there. *)
Definition with_group (key groupName : bytes) (missing noGroup : Writer → Writer) (found : StreamSnap → M unit) : M unit :=
  read_stream key missing (λ s,
    hasGroup ← groupExists key groupName;
    if negb hasGroup then reply noGroup else found s).

(** ** XGROUP *)

(** The id a group starts after; [dash]: where - is the lowest id. *)
Definition group_id (dash : bool) (s : StreamSnap) (idStr : bytes) : option StreamID :=
  if beq idStr (str "$") then Some (if streamExists s then last_read s else mkSID 0 0)
  else if beq idStr (str "0") || beq idStr (str "0-0") || (dash && beq idStr (str "-")) then Some (mkSID 0 0)
  else match ParseStreamID idStr with
  | Some (id, _, false) => Some id
  | _ => None
  end.

(** How many entries were added to the stream. *)
Definition entries_added (key : bytes) (s : StreamSnap) : M Z :=
  cfgEA ← getStreamEntriesAdded key;
  mret (if 0 <=? cfgEA then cfgEA else sm_EntriesAdded (snap_meta s)).

Definition key_must_exist : bytes := str "ERR The XGROUP subcommand requires the key to exist.".
Definition mkstream_hint : bytes :=
  str " Note that for CREATE you may want to use the MKSTREAM option to create an empty stream automatically.".

(** An ordered collection without elements. *)
Definition empty_stream : EffectKind :=
  Effect_Data (mkData INSERT_OP LAST_WRITE_WINS ORDERED PLACE_NONE [] [] None).

Definition xgroup_create_runner (key groupName idStr : bytes) (mkStream : bool) (entriesRead : Z) : M unit :=
  s ← getStreamSnapshot key;
  if streamExists s && streamWrongType s then reply WriteWrongType
  else match group_id false s idStr with
  | None => reply (WriteError bad_id)
  | Some lastDeliveredID =>
    _ ← (if negb (streamExists s) then
           if negb mkStream then reply (WriteError (key_must_exist ++ mkstream_hint))
           else
             _ ← emitStreamTypeTag key;
             _ ← emit (mkEffect key empty_stream) [];
             setStreamEntriesAdded key 0
         else mret tt);
    hasGroup ← groupExists key groupName;
    if (hasGroup : bool) then reply (WriteError (str "BUSYGROUP Consumer Group name already exists"))
    else
      er ← (if (0 <=? entriesRead) && streamExists s
            then ea ← entries_added key s; mret (if ea <? entriesRead then ea else entriesRead)
            else mret entriesRead);
      _ ← emitGroupInsert key groupName (encodeGroupMeta (mkGroupMeta lastDeliveredID er (now_ms 0)));
      _ ← emitGroupRegistryInsert key groupName;
      write (WriteSimpleString (str "OK"))
  end.
Definition handleXGroupCreate (args : list bytes) : Prep :=
  match args with
  | _ :: key :: groupName :: idStr :: opts =>
    match xgroup_opts true opts (false, -1) with
    | Err f => Refuse [key] f
    | Ok (mkStream, entriesRead) => Accept [key] (xgroup_create_runner key groupName idStr mkStream entriesRead)
    end
  | _ => Refuse [] (WriteWrongNumArguments (str "xgroup|create"))
  end.

Definition xgroup_destroy_runner (key groupName : bytes) : M unit :=
  with_group key groupName (WriteInteger 0) (WriteInteger 0) (λ _,
    _ ← emitGroupRemove key groupName;
    _ ← emitPELKeyRemove key groupName;
    _ ← emitGroupRegistryRemove key groupName;
    write (WriteInteger 1)).
Definition handleXGroupDestroy (args : list bytes) : Prep :=
  match args with
  | _ :: key :: groupName :: _ => Accept [key] (xgroup_destroy_runner key groupName)
  | _ => Refuse [] (WriteWrongNumArguments (str "xgroup|destroy"))
  end.

Definition xgroup_createconsumer_runner (key groupName consumerName : bytes) : M unit :=
  with_group key groupName (WriteError key_must_exist) (WriteError (nogroup groupName key)) (λ _,
    gSnap ← getGroupSnapshot key groupName;
    if bool_decide (is_Some (getConsumersFromGroup gSnap !! consumerName)) then reply (WriteInteger 0)
    else
      _ ← emitConsumerInsert key groupName consumerName (encodeConsumerMeta (now_ms 0) 0);
      write (WriteInteger 1)).
Definition handleXGroupCreateConsumer (args : list bytes) : Prep :=
  match args with
  | _ :: key :: groupName :: consumerName :: _ => Accept [key] (xgroup_createconsumer_runner key groupName consumerName)
  | _ => Refuse [] (WriteWrongNumArguments (str "xgroup|createconsumer"))
  end.

(** The pending entries of a consumer, in the order the map is visited. *)
Definition owned (pelSnap : option ReducedEffect) (consumerName : bytes) : list StreamID :=
  omap (λ elemID,
    v ← net_adds pelSnap !! elemID;
    if beq (fst (fst (decodePELEntry (Decompress v)))) consumerName && (len elemID =? 16)
    then Some (decodeStreamElementID elemID) else None) (names_in pelSnap).

Definition xgroup_delconsumer_runner (key groupName consumerName : bytes) : M unit :=
  with_savepoint (
    with_group key groupName (WriteError key_must_exist) (WriteError (nogroup groupName key)) (λ _,
      pelSnap ← getPELSnapshot key groupName;
      let pendingCount := consumerPendingCount pelSnap consumerName in
      _ ← for_each (owned pelSnap consumerName) (emitPELRemove key groupName);
      _ ← emitConsumerRemove key groupName consumerName;
      write (WriteInteger pendingCount))).
Definition handleXGroupDelConsumer (args : list bytes) : Prep :=
  match args with
  | _ :: key :: groupName :: consumerName :: _ => Accept [key] (xgroup_delconsumer_runner key groupName consumerName)
  | _ => Refuse [] (WriteWrongNumArguments (str "xgroup|delconsumer"))
  end.

Definition xgroup_setid_runner (key groupName idStr : bytes) (entriesRead : Z) : M unit :=
  with_group key groupName (WriteError key_must_exist) (WriteError (nogroup groupName key)) (λ s,
    match group_id true s idStr with
    | None => reply (WriteError bad_id)
    | Some lastDeliveredID =>
      gSnap ← getGroupSnapshot key groupName;
      let existing := getGroupMeta gSnap in
      er ← (if 0 <=? entriesRead
            then ea ← entries_added key s; mret (if ea <? entriesRead then ea else entriesRead)
            else mret (gm_EntriesRead existing));
      _ ← emitGroupInsert key groupName (encodeGroupMeta (mkGroupMeta lastDeliveredID er (gm_CreatedAt existing)));
      write (WriteSimpleString (str "OK"))
    end).
Definition handleXGroupSetID (args : list bytes) : Prep :=
  match args with
  | _ :: key :: groupName :: idStr :: opts =>
    match xgroup_opts false opts (false, -1) with
    | Err f => Refuse [key] f
    | Ok (_, entriesRead) => Accept [key] (xgroup_setid_runner key groupName idStr entriesRead)
    end
  | _ => Refuse [] (WriteWrongNumArguments (str "xgroup|setid"))
  end.

Definition xgroup_help : list bytes :=
  [str "XGROUP <subcommand> [<arg> [value] [opt] ...]. Subcommands are:";
   str "CREATE <key> <groupname> <id|$> [option]";
   str "    Create a new consumer group. Options are:";
   str "    * MKSTREAM";
   str "      Create the empty stream if it does not exist.";
   str "    * ENTRIESREAD entries_read";
   str "      Set the group's current ID.";
   str "SETID <key> <groupname> <id|$> [ENTRIESREAD entries_read]";
   str "    Set the current group ID.";
   str "DESTROY <key> <groupname>";
   str "    Remove the specified group.";
   str "CREATECONSUMER <key> <groupname> <consumername>";
   str "    Create a consumer named <consumername> in the group.";
   str "DELCONSUMER <key> <groupname> <consumername>";
   str "    Remove the specified consumer.";
   str "HELP";
   str "    Print this help."].
Definition write_lines (lines : list bytes) (w : Writer) : Writer :=
  foldl (λ w l, WriteBulkStringStr l w) (WriteArray (len lines) w) lines.

Definition handleXGroup (args : list bytes) : Prep :=
  match args with
  | [] => Refuse [] (WriteWrongNumArguments (str "xgroup"))
  | a :: rest =>
    let subCmd := ToUpper a in
    if beq subCmd (str "CREATE") then handleXGroupCreate args
    else if beq subCmd (str "DESTROY") then handleXGroupDestroy args
    else if beq subCmd (str "CREATECONSUMER") then handleXGroupCreateConsumer args
    else if beq subCmd (str "DELCONSUMER") then handleXGroupDelConsumer args
    else if beq subCmd (str "SETID") then handleXGroupSetID args
    else if beq subCmd (str "HELP") then
      if 0 <? len rest then Refuse [] (WriteError (str "ERR wrong number of arguments for 'xgroup|help' command"))
      else Accept [] (write (write_lines xgroup_help))
    else Refuse [] (WriteError (str "ERR unknown subcommand '" ++ subCmd ++ str "'. Try XGROUP HELP."))
  end.

(** ** XACK, XACKDEL *)

(** The acknowledgement of the ids pending in the snapshot, and their number. *)
Fixpoint ack_loop (key groupName : bytes) (pelSnap : option ReducedEffect) (ids : list StreamID) (acked : Z) : M Z :=
  match ids with
  | [] => mret acked
  | id :: ids' =>
    if has_member pelSnap (encodeStreamElementID id) then
      _ ← emitPELRemove key groupName id;
      ack_loop key groupName pelSnap ids' (acked + 1)
    else ack_loop key groupName pelSnap ids' acked
  end.
Definition xack_runner (key groupName : bytes) (ids : list StreamID) : M unit :=
  with_group key groupName (WriteInteger 0) (WriteError (nogroup groupName key)) (λ _,
    pelSnap ← getPELSnapshot key groupName;
    acked ← ack_loop key groupName pelSnap ids 0;
    write (WriteInteger acked)).
Definition handleXAck (args : list bytes) : Prep :=
  match args with
  | key :: groupName :: ((_ :: _) as rest) =>
    match parse_ids rest with
    | None => Refuse [key] (WriteError bad_id)
    | Some ids => Accept [key] (xack_runner key groupName ids)
    end
  | _ => Refuse [] (WriteWrongNumArguments (str "xack"))
  end.

(** Is the entry pending in another of the groups. *)
Fixpoint pending_elsewhere (key groupName : bytes) (id : StreamID) (groups : list bytes) : M bool :=
  match groups with
  | [] => mret false
  | g :: gs =>
    if beq g groupName then pending_elsewhere key groupName id gs
    else
      otherPEL ← getPELSnapshot key g;
      if has_member otherPEL (encodeStreamElementID id) then mret true else pending_elsewhere key groupName id gs
  end.

Definition xackdel_one (key groupName : bytes) (refMode : RefMode) (pelSnap : option ReducedEffect) (id : StreamID) : M Z :=
  if negb (has_member pelSnap (encodeStreamElementID id)) then mret (-1)
  else
    _ ← emitPELRemove key groupName id;
    match refMode with
    | RefModeKeepRef => _ ← emitStreamRemove key id; mret 1
    | RefModeDelRef =>
      groups ← listGroupNames key;
      _ ← for_each groups (λ g, if beq g groupName then mret tt else emitPELRemove key g id);
      _ ← emitStreamRemove key id;
      mret 1
    | RefModeAcked =>
      groups ← listGroupNames key;
      elsewhere ← pending_elsewhere key groupName id groups;
      if (elsewhere : bool) then mret 2
      else _ ← emitStreamRemove key id; mret 1
    end.
Fixpoint xackdel_loop (key groupName : bytes) (refMode : RefMode) (pelSnap : option ReducedEffect) (ids : list StreamID) :
    M (list Z) :=
  match ids with
  | [] => mret []
  | id :: ids' =>
    r ← xackdel_one key groupName refMode pelSnap id;
    rs ← xackdel_loop key groupName refMode pelSnap ids';
    mret (r :: rs)
  end.
Definition xackdel_runner (key groupName : bytes) (refMode : RefMode) (ids : list StreamID) : M unit :=
  let absent := write_codes (replicate (length ids) (-1)) in
  with_savepoint (
    with_group key groupName absent absent (λ _,
      pelSnap ← getPELSnapshot key groupName;
      results ← xackdel_loop key groupName refMode pelSnap ids;
      write (write_codes results))).
Definition handleXAckDel (args : list bytes) : Prep :=
  match args with
  | key :: groupName :: ((opt :: ((_ :: _ :: _) as rest)) as all) =>
    let parsed :=
      match ref_mode (ToUpper opt) with
      | Some m => match ids_block 3 rest with Ok ids => Ok (m, ids) | Err f => Err f end
      | None =>
        if beq (ToUpper opt) (str "IDS")
        then match ids_block 2 all with Ok ids => Ok (RefModeKeepRef, ids) | Err f => Err f end
        else Err syntax_error
      end in
    match parsed with
    | Err f => Refuse [key] f
    | Ok (mode, ids) => Accept [key] (xackdel_runner key groupName mode ids)
    end
  | _ => Refuse [] (WriteWrongNumArguments (str "xackdel"))
  end.
End StreamGroups.
