(* ===== verification/StreamDelivery.v ===== *)
(** * Delivery to consumers

    src/redis/stream/groups.go: XPENDING, XREADGROUP with its CLAIM option and its
    blocking form, XCLAIM and XAUTOCLAIM. *)

From Stdlib Require Import SpecFloat.
From S2P Require Import Prelude GoBytes Strconv Floats Commands Writer Engine Sets Strings Hashes Lists Blocking ListBlocking StreamIds Streams StreamCommands StreamReads StreamGroups.

Local Open Scope Z_scope.

Record ClaimEntry := mkClaimEntry { ce_entry : StreamEntry; ce_idleTime : Z; ce_deliveryCount : Z }.
Record StreamResultWithClaim := mkClaimResult { src_key : bytes; src_entries : list ClaimEntry }.

(** ** Replies *)

Definition writeClaimEntry (w : Writer) (ce : ClaimEntry) : Writer :=
  let e := ce_entry ce in
  let w := WriteArray (len (se_Fields e)) (WriteBulkStringStr (StreamID_String (se_ID e)) (WriteArray 4 w)) in
  let w := foldl (λ w f, WriteBulkString f w) w (se_Fields e) in
  WriteInteger (ce_deliveryCount ce) (WriteInteger (ce_idleTime ce) w).
Definition writeStreamEntriesWithClaim (entries : list ClaimEntry) (w : Writer) : Writer :=
  foldl writeClaimEntry (WriteArray (len entries) w) entries.
Definition writeXReadResultsWithClaim (results : list StreamResultWithClaim) (w : Writer) : Writer :=
  foldl (λ w r, writeStreamEntriesWithClaim (src_entries r) (WriteBulkStringStr (src_key r) (WriteArray 2 w)))
    (WriteArray (len results) w) results.

(** Every stream is in the reply; of two results for one key the later counts. *)
Definition writeXReadGroupHistoryResults (results : list StreamResult) (streamKeys : list bytes) (w : Writer) : Writer :=
  let resultMap : gmap bytes StreamResult := foldl (λ m r, <[sr_key r := r]> m) ∅ results in
  foldl (λ w sk,
    let w := WriteBulkStringStr sk (WriteArray 2 w) in
    match resultMap !! sk with
    | Some r => if 0 <? len (sr_entries r) then writeStreamEntries (sr_entries r) w else WriteArray 0 w
    | None => WriteArray 0 w
    end) (WriteArray (len streamKeys) w) streamKeys.

Definition write_ids (ids : list StreamID) (w : Writer) : Writer :=
  foldl (λ w id, WriteBulkStringStr (StreamID_String id) w) (WriteArray (len ids) w) ids.

(** What XCLAIM and XAUTOCLAIM answer for the entries claimed. *)
Definition write_claimed (justID : bool) (claimed : list StreamEntry) : Writer → Writer :=
  if justID then write_ids (se_ID <$> claimed) else writeStreamEntries claimed.

(** *** XPENDING *)

Definition count_consumers (pel : list PendingEntry) : gmap bytes Z :=
  foldl (λ m pe, <[pe_Consumer pe := default 0 (m !! pe_Consumer pe) + 1]> m) ∅ pel.

(** Is a pending entry in the range, idle long enough and the consumer's. *)
Definition pending_wanted (now : Z) (consumer : bytes) (start end_ : StreamID) (startExcl endExcl : bool) (minIdle : Z)
    (pe : PendingEntry) : bool :=
  let cmpStart := StreamID_Compare (pe_ID pe) start in
  let cmpEnd := StreamID_Compare (pe_ID pe) end_ in
  negb (negb (len consumer =? 0) && negb (beq (pe_Consumer pe) consumer)) &&
  negb (if startExcl then cmpStart <=? 0 else cmpStart <? 0) &&
  negb (if endExcl then 0 <=? cmpEnd else 0 <? cmpEnd) &&
  negb ((0 <=? minIdle) && (i64 (now - pe_DeliveryTime pe) <? minIdle)).

(** [n]: how many are found already. *)
Fixpoint pending_loop (wanted : PendingEntry → bool) (count n : Z) (pel : list PendingEntry) : list PendingEntry :=
  match pel with
  | [] => []
  | pe :: pel' =>
    if wanted pe then pe :: (if (0 <? count) && (count <=? n + 1) then [] else pending_loop wanted count (n + 1) pel')
    else pending_loop wanted count n pel'
  end.

Definition write_pending (now : Z) (pel : list PendingEntry) (w : Writer) : Writer :=
  foldl (λ w pe,
    WriteInteger (pe_DeliveryCount pe) (WriteInteger (i64 (now - pe_DeliveryTime pe))
      (WriteBulkStringStr (pe_Consumer pe) (WriteBulkStringStr (StreamID_String (pe_ID pe)) (WriteArray 4 w)))))
    (WriteArray (len pel) w) pel.

Definition find_entry (entries : list StreamEntry) (id : StreamID) : option StreamEntry :=
  snd <$> list_find (λ e, StreamID_Compare (se_ID e) id = 0) entries.

Section StreamDelivery.
Context `{Engine} `{!NetRemoves} `{RangeOrder} `{StreamClock} `{NilAdds} `{Xxh3}.

Definition writePendingSummary (pel : list PendingEntry) (w : Writer) : Writer :=
  match pel with
  | [] => WriteNullArray (WriteNullBulkString (WriteNullBulkString (WriteInteger 0 (WriteArray 4 w))))
  | first :: _ =>
    let counts := count_consumers pel in
    let names := sort_Strings (range_keys (dom counts)) in
    let w := WriteInteger (len pel) (WriteArray 4 w) in
    let w := WriteBulkStringStr (StreamID_String (pe_ID first)) w in
    let w := WriteBulkStringStr (StreamID_String (pe_ID (default first (last pel)))) w in
    foldl (λ w name,
      WriteBulkStringStr (FormatInt (default 0 (counts !! name))) (WriteBulkStringStr name (WriteArray 2 w)))
      (WriteArray (len names) w) names
  end.

Definition xpending_range (pel : list PendingEntry) (minIdle : Z) (args : list bytes) : M unit :=
  match args with
  | startStr :: endStr :: countStr :: rest =>
    match ParseStreamIDForRange startStr false, ParseStreamIDForRange endStr true with
    | Some (start, startExcl), Some (end_, endExcl) =>
      match parse_count countStr with
      | None => reply (WriteError not_an_integer)
      | Some count =>
        let consumerFilter := default [] (head rest) in
        let now := now_ms 0 in
        write (write_pending now
          (pending_loop (pending_wanted now consumerFilter start end_ startExcl endExcl minIdle) count 0 pel))
      end
    | _, _ => reply (WriteError bad_id)
    end
  | _ => reply syntax_error
  end.
Definition xpending_runner (key groupName : bytes) (args : list bytes) : M unit :=
  with_group key groupName (WriteError (str "ERR no such key")) (WriteError (nogroup groupName key)) (λ _,
    pelSnap ← getPELSnapshot key groupName;
    let pel := pelToEntries pelSnap in
    match args with
    | [] => write (writePendingSummary pel)
    | a :: rest =>
      if beq (ToUpper a) (str "IDLE") then
        match rest with
        | [] => reply syntax_error
        | n :: rest' =>
          match parse_count n with
          | None => reply (WriteError (str "ERR Invalid min-idle-time argument for XPENDING"))
          | Some mi => xpending_range pel mi rest'
          end
        end
      else xpending_range pel (-1) args
    end).
Definition handleXPending (args : list bytes) : Prep :=
  match args with
  | key :: groupName :: rest => Accept [key] (xpending_runner key groupName rest)
  | _ => Refuse [] (WriteWrongNumArguments (str "xpending"))
  end.

(** ** XREADGROUP *)

(** The group moves on to the last of the entries it is given. *)
Definition advance_group (key groupName : bytes) (meta : GroupMeta) (filtered : list StreamEntry) : M unit :=
  let read := gm_EntriesRead meta in
  emitGroupInsert key groupName (encodeGroupMeta
    (mkGroupMeta (streamLastID filtered) (if 0 <=? read then i64 (read + len filtered) else len filtered) (gm_CreatedAt meta))).
Definition record_pending (key groupName consumerName : bytes) (now : Z) (noAck : bool) (filtered : list StreamEntry) : M unit :=
  if noAck then mret tt
  else for_each filtered (λ e, emitPELInsert key groupName (se_ID e) (encodePELEntry consumerName now 1)).

Definition read_new (key groupName consumerName : bytes) (count : Z) (noAck : bool) (now : Z) (s : StreamSnap)
    (gSnap : option ReducedEffect) : M (list StreamEntry) :=
  let meta := getGroupMeta gSnap in
  let filtered := rangeEntries (snap_entries s) (gm_LastDelivered meta) MaxStreamID true false count in
  if 0 <? len filtered then
    _ ← advance_group key groupName meta filtered;
    _ ← emitConsumerInsert key groupName consumerName (encodeConsumerMeta now now);
    _ ← record_pending key groupName consumerName now noAck filtered;
    mret filtered
  else mret [].

(** The consumer's own pending entries after an id; those deleted from the stream
    are given without fields.  [n]: how many are found already. *)
Fixpoint history (entries : list StreamEntry) (consumerName : bytes) (startID : StreamID) (count n : Z)
    (pel : list PendingEntry) : list StreamEntry :=
  match pel with
  | [] => []
  | pe :: pel' =>
    if negb (beq (pe_Consumer pe) consumerName) then history entries consumerName startID count n pel'
    else if StreamID_Compare (pe_ID pe) startID <=? 0 then history entries consumerName startID count n pel'
    else
      default (mkStreamEntry (pe_ID pe) []) (find_entry entries (pe_ID pe)) ::
      (if (0 <? count) && (count <=? n + 1) then [] else history entries consumerName startID count (n + 1) pel')
  end.

Definition read_history (key groupName consumerName : bytes) (count now : Z) (startID : StreamID) (s : StreamSnap)
    (gSnap : option ReducedEffect) : M (list StreamEntry) :=
  pelSnap ← getPELSnapshot key groupName;
  if nil_adds pelSnap then mret []
  else
    let found := history (snap_entries s) consumerName startID count 0 (pelToEntries pelSnap) in
    let active := match getConsumersFromGroup gSnap !! consumerName with
                  | Some v => snd (decodeConsumerMeta (Decompress v))
                  | None => 0
                  end in
    _ ← emitConsumerInsert key groupName consumerName (encodeConsumerMeta now active);
    mret found.

(** One stream after the other; a stream of another type or without the group
    refuses the whole read.  [j] numbers the streams. *)
Fixpoint readgroup_loop (rd : ReadGroup) (noGroup : Writer → Writer) (j : nat) (streams : list (bytes * GroupFrom)) :
    M (list StreamResult) :=
  match streams with
  | [] => mret []
  | (sKey, from) :: streams' =>
    s ← getStreamSnapshot sKey;
    if streamWrongType s then reply WriteWrongType
    else
      gSnap ← getGroupSnapshot sKey (rd_group rd);
      if negb (streamExists s) || negb (has_group gSnap) then reply noGroup
      else
        found ← (match from with
                 | NewOnly => read_new sKey (rd_group rd) (rd_consumer rd) (rg_count (rd_opts rd)) (rg_noAck (rd_opts rd)) (now_ms j) s gSnap
                 | History id => read_history sKey (rd_group rd) (rd_consumer rd) (rg_count (rd_opts rd)) (now_ms j) id s gSnap
                 end);
        results ← readgroup_loop rd noGroup (S j) streams';
        mret (if 0 <? len found then mkStreamResult sKey found :: results else results)
  end.

Definition stream_keys (rd : ReadGroup) : list bytes := fst <$> rd_streams rd.
Definition first_key (rd : ReadGroup) : bytes := default [] (head (stream_keys rd)).

(** A read that is refused is undone. *)
Definition doXReadGroup (rd : ReadGroup) : M (list StreamResult) :=
  with_savepoint (readgroup_loop rd (WriteError (nogroup (rd_group rd) (first_key rd))) 0 (rd_streams rd)).

Definition readgroup_now (rd : ReadGroup) : M unit :=
  results ← doXReadGroup rd;
  if len results =? 0 then reply WriteNullArray else write (writeXReadResults results).

Definition handleXReadGroupNonBlocking (args : list bytes) : Prep :=
  match parse_xreadgroup false args with
  | Err f => Refuse [] f
  | Ok rd => Accept (stream_keys rd) (readgroup_now rd)
  end.

(** *** CLAIM *)

(** The pending entries idle for long enough change hands, up to [remaining] of
    them; the count in the reply is the one before. *)
Fixpoint claim_loop (key groupName consumerName : bytes) (now minIdle remaining : Z) (entries : list StreamEntry)
    (pel : list PendingEntry) : M (list ClaimEntry * Z) :=
  match pel with
  | [] => mret ([], remaining)
  | pe :: pel' =>
    if remaining <=? 0 then mret ([], remaining)
    else
      let idle := i64 (now - pe_DeliveryTime pe) in
      if idle <? minIdle then claim_loop key groupName consumerName now minIdle remaining entries pel'
      else match find_entry entries (pe_ID pe) with
      | None => claim_loop key groupName consumerName now minIdle remaining entries pel'
      | Some e =>
        _ ← emitPELInsert key groupName (pe_ID pe) (encodePELEntry consumerName now (i64 (pe_DeliveryCount pe + 1)));
        rest ← claim_loop key groupName consumerName now minIdle (remaining - 1) entries pel';
        let '(claimed, remaining') := rest in
        mret (mkClaimEntry e idle (pe_DeliveryCount pe) :: claimed, remaining')
      end
  end.

(** Then new entries, as many as are left. *)
Definition claim_new (key groupName consumerName : bytes) (now remaining : Z) (noAck : bool) (entries : list StreamEntry)
    (gSnap : option ReducedEffect) : M (list ClaimEntry) :=
  let meta := getGroupMeta gSnap in
  let filtered := rangeEntries entries (gm_LastDelivered meta) MaxStreamID true false remaining in
  if 0 <? len filtered then
    _ ← advance_group key groupName meta filtered;
    _ ← record_pending key groupName consumerName now noAck filtered;
    mret ((λ e, mkClaimEntry e 0 0) <$> filtered)
  else mret [].

Definition claim_stream (rd : ReadGroup) (minIdle : Z) (now : Z) (sKey : bytes) (s : StreamSnap)
    (gSnap : option ReducedEffect) : M (list ClaimEntry) :=
  let entries := snap_entries s in
  let remaining := if rg_count (rd_opts rd) <=? 0 then 100 else rg_count (rd_opts rd) in
  pelSnap ← getPELSnapshot sKey (rd_group rd);
  c ← claim_loop sKey (rd_group rd) (rd_consumer rd) now minIdle remaining entries (pelToEntries pelSnap);
  let '(claimed, remaining) := c in
  new ← (if 0 <? remaining
         then claim_new sKey (rd_group rd) (rd_consumer rd) now remaining (rg_noAck (rd_opts rd)) entries gSnap
         else mret []);
  mret (claimed ++ new).

Fixpoint readclaim_loop (rd : ReadGroup) (minIdle : Z) (noGroup : Writer → Writer) (j : nat)
    (streams : list (bytes * GroupFrom)) : M (list StreamResultWithClaim) :=
  match streams with
  | [] => mret []
  | (sKey, from) :: streams' =>
    s ← getStreamSnapshot sKey;
    if streamWrongType s then reply WriteWrongType
    else
      gSnap ← getGroupSnapshot sKey (rd_group rd);
      if negb (streamExists s) || negb (has_group gSnap) then reply noGroup
      else
        claimed ← (match from with
                   | NewOnly => claim_stream rd minIdle (now_ms j) sKey s gSnap
                   | History _ => mret []
                   end);
        _ ← (if 0 <? len claimed
             then emitConsumerInsert sKey (rd_group rd) (rd_consumer rd) (encodeConsumerMeta (now_ms j) (now_ms j))
             else mret tt);
        results ← readclaim_loop rd minIdle noGroup (S j) streams';
        mret (if 0 <? len claimed then mkClaimResult sKey claimed :: results else results)
  end.

Definition doXReadGroupClaim (rd : ReadGroup) (minIdle : Z) : M (list StreamResultWithClaim) :=
  with_savepoint (readclaim_loop rd minIdle
    (WriteError (str "NOGROUP No such key '" ++ first_key rd ++ str "' or consumer group '" ++ rd_group rd ++
                 str "' in XREADGROUP with GROUP option")) 0 (rd_streams rd)).

(** *** Waiting *)

Definition attempt_group (rd : ReadGroup) (p : nat) (m : SubscriptionManager) : M Attempt :=
  results ← doXReadGroup rd;
  mret (if 0 <? len results then Served (writeXReadResults results) else NotYet).

(** When nothing can be claimed the pending lists are read, to set a timer for
    the first entry to come of age; its going off is one of the events. *)
Definition attempt_claim (rd : ReadGroup) (minIdle : Z) (p : nat) (m : SubscriptionManager) : M Attempt :=
  results ← doXReadGroupClaim rd minIdle;
  if 0 <? len results then mret (Served (writeXReadResultsWithClaim results))
  else
    _ ← for_each (stream_keys rd) (λ sKey, _ ← getPELSnapshot sKey (rd_group rd); mret tt);
    mret NotYet.

(** The stream keys and the keys of the group, whose removal wakes the client. *)
Definition watched_keys (rd : ReadGroup) : list bytes :=
  k ← stream_keys rd; [k; groupKey k (rd_group rd)].

Definition has_new (rd : ReadGroup) : bool :=
  existsb (λ '(_, from), match from with NewOnly => true | History _ => false end) (rd_streams rd).

(** What is left to wait for: entries, or entries to claim. *)
Inductive GroupWait : Type :=
  | WaitNew (rd : ReadGroup)
  | WaitClaim (rd : ReadGroup) (minIdle : Z).

Definition start_readgroup (rd : ReadGroup) : M GroupWait :=
  let o := rd_opts rd in
  match rg_claim o, has_new rd with
  | Some minIdle, true =>
    if negb (rg_block o) then
      results ← doXReadGroupClaim rd minIdle;
      if len results =? 0 then reply WriteNullArray else reply (writeXReadResultsWithClaim results)
    else mret (WaitClaim rd minIdle)
  | _, _ =>
    if negb (rg_block o) then _ ← readgroup_now rd; exit
    else if negb (has_new rd) then
      results ← doXReadGroup rd;
      reply (writeXReadGroupHistoryResults results (stream_keys rd))
    else mret (WaitNew rd)
  end.

Definition handleXReadGroup (inScript : bool) (args : list bytes) (events : list WaitEvent) :
    SubscriptionManager → St → BlockEnd * SubscriptionManager * St :=
  before_block
    (if inScript then _ ← drop_runner (handleXReadGroupNonBlocking args); exit
     else match parse_xreadgroup true args with
     | Err f => reply f
     | Ok rd => start_readgroup rd
     end)
    (λ wait,
       match wait with
       | WaitNew rd => block_streams true (attempt_group rd) (watched_keys rd) events
       | WaitClaim rd minIdle => block_streams true (attempt_claim rd minIdle) (watched_keys rd) events
       end).

(** ** XCLAIM, XAUTOCLAIM *)

Definition claim_time (o : ClaimOpts) (now : Z) : Z :=
  if 0 <=? cl_time o then cl_time o
  else if 0 <=? cl_idle o then i64 (now - cl_idle o)
  else now.
Definition claim_count (o : ClaimOpts) (pe : option PendingEntry) : Z :=
  if 0 <=? cl_retry o then cl_retry o
  else match pe with
  | Some pe => if cl_justID o then pe_DeliveryCount pe else i64 (pe_DeliveryCount pe + 1)
  | None => 1
  end.

Fixpoint xclaim_loop (key groupName consumerName : bytes) (o : ClaimOpts) (minIdle now : Z)
    (pelSnap : option ReducedEffect) (entries : list StreamEntry) (ids : list StreamID) : M (list StreamEntry) :=
  match ids with
  | [] => mret []
  | id :: ids' =>
    let pe := pending_of id <$> net_adds pelSnap !! encodeStreamElementID id in
    let skip :=
      match pe with
      | None => negb (cl_force o)
      | Some pe => (0 <? minIdle) && (i64 (now - pe_DeliveryTime pe) <? minIdle)
      end in
    if skip then xclaim_loop key groupName consumerName o minIdle now pelSnap entries ids'
    else
      _ ← emitPELInsert key groupName id (encodePELEntry consumerName (claim_time o now) (claim_count o pe));
      rest ← xclaim_loop key groupName consumerName o minIdle now pelSnap entries ids';
      mret (match find_entry entries id with Some e => e :: rest | None => rest end)
  end.

Definition xclaim_runner (key groupName consumerName : bytes) (minIdle : Z) (o : ClaimOpts) : M unit :=
  with_savepoint (
    _ ← begin_tx;
    with_group key groupName (WriteArray 0) (WriteError (nogroup groupName key)) (λ s,
      pelSnap ← getPELSnapshot key groupName;
      let now := now_ms 0 in
      claimed ← xclaim_loop key groupName consumerName o minIdle now pelSnap (snap_entries s) (cl_ids o);
      _ ← emitConsumerInsert key groupName consumerName (encodeConsumerMeta now now);
      write (write_claimed (cl_justID o) claimed))).
Definition handleXClaim (args : list bytes) : Prep :=
  match args with
  | key :: groupName :: consumerName :: minIdleStr :: ((_ :: _) as rest) =>
    match parse_count minIdleStr with
    | None => Refuse [key] (WriteError (str "ERR Invalid min-idle-time argument for XCLAIM"))
    | Some minIdle =>
      match xclaim_opts rest (mkClaim [] false false (-1) (-1) (-1)) with
      | Err f => Refuse [key] f
      | Ok o => Accept [key] (xclaim_runner key groupName consumerName minIdle o)
      end
    end
  | _ => Refuse [] (WriteWrongNumArguments (str "xclaim"))
  end.

(** The entries claimed, the ids no longer in the stream, and where to go on. *)
Record AutoClaimed := mkAuto { ac_cursor : StreamID; ac_claimed : list StreamEntry; ac_deleted : list StreamID }.

Fixpoint xautoclaim_loop (key groupName consumerName : bytes) (minIdle now : Z) (startID : StreamID) (count n : Z)
    (entries : list StreamEntry) (pel : list PendingEntry) : M AutoClaimed :=
  match pel with
  | [] => mret (mkAuto (mkSID 0 0) [] [])
  | pe :: pel' =>
    if StreamID_Compare (pe_ID pe) startID <? 0
    then xautoclaim_loop key groupName consumerName minIdle now startID count n entries pel'
    else if count <=? n then mret (mkAuto (pe_ID pe) [] [])
    else if i64 (now - pe_DeliveryTime pe) <? minIdle
    then xautoclaim_loop key groupName consumerName minIdle now startID count (n + 1) entries pel'
    else match find_entry entries (pe_ID pe) with
    | None =>
      _ ← emitPELRemove key groupName (pe_ID pe);
      r ← xautoclaim_loop key groupName consumerName minIdle now startID count (n + 1) entries pel';
      mret (mkAuto (ac_cursor r) (ac_claimed r) (pe_ID pe :: ac_deleted r))
    | Some e =>
      _ ← emitPELInsert key groupName (pe_ID pe) (encodePELEntry consumerName now (i64 (pe_DeliveryCount pe + 1)));
      r ← xautoclaim_loop key groupName consumerName minIdle now startID count (n + 1) entries pel';
      mret (mkAuto (ac_cursor r) (e :: ac_claimed r) (ac_deleted r))
    end
  end.

Definition write_autoclaimed (justID : bool) (r : AutoClaimed) (w : Writer) : Writer :=
  write_ids (ac_deleted r) (write_claimed justID (ac_claimed r)
    (WriteBulkStringStr (StreamID_String (ac_cursor r)) (WriteArray 3 w))).

Definition xautoclaim_runner (key groupName consumerName : bytes) (minIdle : Z) (startID : StreamID) (count : Z)
    (justID : bool) : M unit :=
  with_savepoint (
    _ ← begin_tx;
    with_group key groupName
      (λ w, WriteArray 0 (WriteArray 0 (WriteBulkStringStr (str "0-0") (WriteArray 3 w))))
      (WriteError (nogroup groupName key)) (λ s,
      pelSnap ← getPELSnapshot key groupName;
      let now := now_ms 0 in
      r ← xautoclaim_loop key groupName consumerName minIdle now startID count 0 (snap_entries s) (pelToEntries pelSnap);
      _ ← emitConsumerInsert key groupName consumerName (encodeConsumerMeta now now);
      write (write_autoclaimed justID r))).
Definition handleXAutoClaim (args : list bytes) : Prep :=
  match args with
  | key :: groupName :: consumerName :: minIdleStr :: startStr :: opts =>
    match parse_count minIdleStr with
    | None => Refuse [key] (WriteError (str "ERR Invalid min-idle-time argument for XAUTOCLAIM"))
    | Some minIdle =>
      match ParseStreamID startStr with
      | None => Refuse [key] (WriteError bad_id)
      | Some (startID, _, _) =>
        match xautoclaim_opts opts (100, false) with
        | Err f => Refuse [key] f
        | Ok (count, justID) => Accept [key] (xautoclaim_runner key groupName consumerName minIdle startID count justID)
        end
      end
    end
  | _ => Refuse [] (WriteWrongNumArguments (str "xautoclaim"))
  end.
End StreamDelivery.
