(* ===== verification/StreamInfo.v ===== *)
(** * XINFO

    src/redis/stream/handlers.go: XINFO STREAM, GROUPS, CONSUMERS and HELP.  A
    reply that ends in an error half way is taken back to the error alone. *)

From S2P Require Import Prelude GoBytes Strconv Commands Writer Engine Sets Strings Hashes Lists StreamIds Streams StreamCommands StreamReads StreamGroups.

Local Open Scope Z_scope.

(** A named number, a named text. *)
Definition info_int (name : bytes) (n : Z) (w : Writer) : Writer := WriteInteger n (WriteBulkStringStr name w).
Definition info_str (name s : bytes) (w : Writer) : Writer := WriteBulkStringStr s (WriteBulkStringStr name w).

(** What XINFO STREAM reports. *)
Record StreamInfo := mkStreamInfo {
  si_entries : list StreamEntry; si_lastID : StreamID; si_entriesAdded : Z; si_maxDeletedID : StreamID; si_firstID : StreamID;
  si_producers : Z; si_iidsTracked : Z; si_iidsAdded : Z; si_iidsDuplicates : Z; si_duration : Z; si_maxsize : Z
}.

Definition write_head (i : StreamInfo) (w : Writer) : Writer :=
  let w := info_int (str "length") (len (si_entries i)) w in
  let w := info_int (str "radix-tree-keys") (Z.quot (len (si_entries i)) 4) w in
  let w := info_int (str "radix-tree-nodes") 2 w in
  let w := info_str (str "last-generated-id") (StreamID_String (si_lastID i)) w in
  let w := info_str (str "max-deleted-entry-id") (StreamID_String (si_maxDeletedID i)) w in
  let w := info_int (str "entries-added") (si_entriesAdded i) w in
  info_str (str "recorded-first-entry-id") (StreamID_String (si_firstID i)) w.
Definition write_idmp (i : StreamInfo) (w : Writer) : Writer :=
  let w := info_int (str "pids-tracked") (si_producers i) w in
  let w := info_int (str "iids-tracked") (si_iidsTracked i) w in
  let w := info_int (str "iids-added") (si_iidsAdded i) w in
  let w := info_int (str "iids-duplicates") (si_iidsDuplicates i) w in
  let w := info_int (str "idmp-duration") (si_duration i) w in
  info_int (str "idmp-maxsize") (si_maxsize i) w.
Definition write_entry_or_null (e : option StreamEntry) (w : Writer) : Writer :=
  match e with Some e => writeStreamEntry w e | None => WriteNullArray w end.

Definition writeXInfoStreamBasic (i : StreamInfo) (groupCount : Z) (w : Writer) : Writer :=
  let w := write_head i (WriteArray 32 w) in
  let w := info_int (str "groups") groupCount w in
  let w := write_idmp i w in
  let w := write_entry_or_null (head (si_entries i)) (WriteBulkStringStr (str "first-entry") w) in
  write_entry_or_null (last (si_entries i)) (WriteBulkStringStr (str "last-entry") w).

(** No more than the count given, 0 for all. *)
Definition shown {A} (count : Z) (l : list A) : list A :=
  if (0 <? count) && (count <? len l) then take (Z.to_nat count) l else l.

Definition write_lag (entriesRead entriesAdded streamLength : Z) (w : Writer) : Writer :=
  let w := WriteBulkStringStr (str "entries-read") w in
  let w := if 0 <=? entriesRead then WriteInteger entriesRead w else WriteNullBulkString w in
  info_int (str "lag") (if 0 <=? entriesRead then Z.max (i64 (entriesAdded - entriesRead)) 0 else streamLength) w.

(** The options of XINFO STREAM: FULL, and the count. *)
Fixpoint xinfo_opts (args : list bytes) (o : bool * Z) : result (Writer → Writer) (bool * Z) :=
  match args with
  | [] => Ok o
  | a :: rest =>
    let opt := ToUpper a in
    if beq opt (str "FULL") then xinfo_opts rest (true, snd o)
    else if beq opt (str "COUNT") then
      match rest with
      | [] => Err syntax_error
      | n :: rest' =>
        match parse_count n with
        | None => Err (WriteError not_an_integer)
        | Some c => xinfo_opts rest' (fst o, c)
        end
      end
    else Err syntax_error
  end.

Section StreamInfo.
Context `{Engine} `{!NetRemoves} `{RangeOrder} `{StreamClock}.

Definition writeXInfoConsumerFull (pel : list PendingEntry) (consumers : gmap bytes Value) (count : Z) (w : Writer)
    (name : bytes) : Writer :=
  let '(seen, active) := match consumers !! name with
                         | Some v => decodeConsumerMeta (Decompress v)
                         | None => (0, 0)
                         end in
  let w := info_str (str "name") name (WriteArray 10 w) in
  let w := info_int (str "seen-time") seen w in
  let w := info_int (str "active-time") active w in
  let own := filter (λ pe, pe_Consumer pe = name) pel in
  let w := info_int (str "pel-count") (len own) w in
  let display := shown count own in
  foldl (λ w pe,
    WriteInteger (pe_DeliveryCount pe) (WriteInteger (pe_DeliveryTime pe)
      (WriteBulkStringStr (StreamID_String (pe_ID pe)) (WriteArray 3 w))))
    (WriteArray (len display) (WriteBulkStringStr (str "pending") w)) display.

Definition consumer_names (consumers : gmap bytes Value) : list bytes := sort_Strings (range_keys (dom consumers)).

Definition group_full (groupName : bytes) (meta : GroupMeta) (pel : list PendingEntry) (consumers : gmap bytes Value)
    (entriesAdded streamLength count : Z) (w : Writer) : Writer :=
  let w := info_str (str "name") groupName (WriteArray 14 w) in
  let w := info_str (str "last-delivered-id") (StreamID_String (gm_LastDelivered meta)) w in
  let w := write_lag (gm_EntriesRead meta) entriesAdded streamLength w in
  let w := info_int (str "pel-count") (len pel) w in
  let display := shown count pel in
  let w := foldl (λ w pe,
    WriteInteger (pe_DeliveryCount pe) (WriteInteger (pe_DeliveryTime pe)
      (WriteBulkStringStr (pe_Consumer pe) (WriteBulkStringStr (StreamID_String (pe_ID pe)) (WriteArray 4 w)))))
    (WriteArray (len display) (WriteBulkStringStr (str "pending") w)) display in
  let names := consumer_names consumers in
  foldl (writeXInfoConsumerFull pel consumers count)
    (WriteArray (len names) (WriteBulkStringStr (str "consumers") w)) names.

Definition writeXInfoGroupFull (key : bytes) (entriesAdded streamLength count : Z) (groupName : bytes) : M unit :=
  gSnap ← getGroupSnapshot key groupName;
  pelSnap ← getPELSnapshot key groupName;
  write (group_full groupName (getGroupMeta gSnap) (pelToEntries pelSnap) (getConsumersFromGroup gSnap)
           entriesAdded streamLength count).

Definition writeXInfoStreamFull (i : StreamInfo) (count : Z) (key : bytes) (groupNames : list bytes) : M unit :=
  _ ← write (λ w,
    let w := write_head i (WriteArray 30 w) in
    let display := shown count (si_entries i) in
    let w := foldl writeStreamEntry (WriteArray (len display) (WriteBulkStringStr (str "entries") w)) display in
    let w := write_idmp i w in
    WriteArray (len groupNames) (WriteBulkStringStr (str "groups") w));
  for_each groupNames (writeXInfoGroupFull key (si_entriesAdded i) (len (si_entries i)) count).

(** [defer w.DiscardPartialReply(w.Buffer().Len(), w.ErrorCount())]. *)
Definition discard_partial (m : M unit) : M unit := λ st,
  let '(o, st') := m st in
  (o, mkSt (st_ctx st') (snd (DiscardPartialReply (len (w_buf (st_w st))) (w_errorCount (st_w st)) (st_w st'))) (st_held st')).

(** The sequence ids of the current generation a producer has. *)
Definition tracked (gen : Z) (snap : option ReducedEffect) : Z :=
  Z.of_nat (size (filter (λ '(_, v),
    let r := Decompress v in
    (if 32 <=? len r then i64 (le_get (take 8 (drop 24 r))) =? gen
     else (16 <=? len r) && (gen =? 0)) = true) (net_adds snap))).
Fixpoint count_producers (key : bytes) (gen : Z) (names : list bytes) (n iids : Z) : M (Z * Z) :=
  match names with
  | [] => mret (n, iids)
  | pName :: names' =>
    '(snap, _) ← get_snapshot (producerKey key pName);
    let count := tracked gen snap in
    count_producers key gen names' (if 0 <? count then n + 1 else n) (iids + count)
  end.

Definition no_such_key : Writer → Writer := WriteError (str "ERR no such key").

Definition handleXInfoStream (args : list bytes) : M unit :=
  discard_partial (
    match args with
    | _ :: key :: opts =>
      match xinfo_opts opts (false, 10) with
      | Err f => reply f
      | Ok (full, count) =>
        read_stream key no_such_key (λ s,
          let entries := snap_entries s in
          entriesAdded ← entries_added key s;
          groupNames ← listGroupNames key;
          producerNames ← listProducerNames key;
          gen ← getIdmpGeneration key;
          p ← count_producers key gen producerNames 0 0;
          c ← getStreamConfig key;
          iidsAdded ← getIidsAdded key;
          iidsDuplicates ← getIidsDuplicates key;
          let '(duration, maxsize, _) := c in
          let i := mkStreamInfo entries (last_known s) entriesAdded (sm_MaxDeletedID (snap_meta s))
                     (streamFirstID entries) (fst p) (snd p) iidsAdded iidsDuplicates duration maxsize in
          if full then writeXInfoStreamFull i count key groupNames
          else write (writeXInfoStreamBasic i (len groupNames)))
      end
    | _ => reply (WriteError (str "ERR wrong number of arguments for 'xinfo|stream' command"))
    end).

Definition group_line (name : bytes) (meta : GroupMeta) (consumers pending entriesAdded streamLength : Z) (w : Writer) : Writer :=
  let w := info_str (str "name") name (WriteArray 12 w) in
  let w := info_int (str "consumers") consumers w in
  let w := info_int (str "pending") pending w in
  let w := info_str (str "last-delivered-id") (StreamID_String (gm_LastDelivered meta)) w in
  write_lag (gm_EntriesRead meta) entriesAdded streamLength w.

Definition handleXInfoGroups (args : list bytes) : M unit :=
  discard_partial (
    match args with
    | _ :: key :: _ =>
      read_stream key no_such_key (λ s,
        entriesAdded ← entries_added key s;
        groupNames ← listGroupNames key;
        if len groupNames =? 0 then reply (WriteArray 0)
        else
          _ ← write (WriteArray (len groupNames));
          for_each groupNames (λ name,
            gSnap ← getGroupSnapshot key name;
            pelSnap ← getPELSnapshot key name;
            write (group_line name (getGroupMeta gSnap) (Z.of_nat (size (getConsumersFromGroup gSnap)))
                     (Z.of_nat (size (net_adds pelSnap))) entriesAdded (len (snap_entries s)))))
    | _ => reply (WriteError (str "ERR wrong number of arguments for 'xinfo|groups' command"))
    end).

Definition consumer_line (now : Z) (consumers : gmap bytes Value) (pelSnap : option ReducedEffect) (w : Writer) (name : bytes) :
    Writer :=
  let '(seen, active) := match consumers !! name with
                         | Some v => decodeConsumerMeta (Decompress v)
                         | None => (0, 0)
                         end in
  let w := info_str (str "name") name (WriteArray 8 w) in
  let w := info_int (str "pending") (consumerPendingCount pelSnap name) w in
  let w := info_int (str "idle") (Z.max (i64 (now - seen)) 0) w in
  info_int (str "inactive") (if active =? 0 then -1 else Z.max (i64 (now - active)) 0) w.

Definition handleXInfoConsumers (args : list bytes) : M unit :=
  match args with
  | _ :: key :: groupName :: _ =>
    with_group key groupName no_such_key (WriteError (nogroup groupName key)) (λ _,
      gSnap ← getGroupSnapshot key groupName;
      let consumers := getConsumersFromGroup gSnap in
      pelSnap ← getPELSnapshot key groupName;
      if (size consumers =? 0)%nat then reply (WriteArray 0)
      else
        let names := consumer_names consumers in
        write (λ w, foldl (consumer_line (now_ms 0) consumers pelSnap) (WriteArray (len names) w) names))
  | _ => reply (WriteError (str "ERR wrong number of arguments for 'xinfo|consumers' command"))
  end.

Definition xinfo_help : list bytes :=
  [str "XINFO <subcommand> [<arg> [value] [opt] ...]. Subcommands are:";
   str "CONSUMERS <key> <groupname>";
   str "    Show consumers of <groupname>.";
   str "GROUPS <key>";
   str "    Show the stream consumer groups.";
   str "STREAM <key> [FULL [COUNT <count>]]";
   str "    Show information about the stream.";
   str "HELP";
   str "    Print this help."].

Definition xinfo_runner (subCmd : bytes) (args : list bytes) : M unit :=
  if beq subCmd (str "STREAM") then handleXInfoStream args
  else if beq subCmd (str "GROUPS") then handleXInfoGroups args
  else if beq subCmd (str "CONSUMERS") then handleXInfoConsumers args
  else if beq subCmd (str "HELP") then
    if 1 <? len args then reply (WriteError (str "ERR wrong number of arguments for 'xinfo|help' command"))
    else write (write_lines xinfo_help)
  else write (WriteError (str "ERR unknown subcommand '" ++ default [] (head args) ++ str "'. Try XINFO HELP.")).

Definition handleXInfo (args : list bytes) : Prep :=
  match args with
  | [] => Refuse [] (WriteError (str "ERR wrong number of arguments for 'xinfo' command"))
  | a :: rest =>
    let subCmd := ToUpper a in
    if beq subCmd (str "STREAM") || beq subCmd (str "GROUPS") || beq subCmd (str "CONSUMERS") then
      match rest with
      | [] => Refuse [] (WriteError (str "ERR wrong number of arguments for 'xinfo|" ++ a ++ str "' command"))
      | key :: _ => Accept [key] (xinfo_runner subCmd args)
      end
    else Accept [] (xinfo_runner subCmd args)
  end.
End StreamInfo.
