(* ===== verification/StreamProps.v ===== *)
(** * What the stream commands do to a stream

    The entries a key stands for, the last id of a stream, the laws of the engine
    that only streams need, and the steps of the stream commands. *)

From S2P Require Import Prelude GoBytes Strconv Floats Commands Writer Engine Runs Sets Strings Hashes HashTheorems Lists ListProps StreamIds Streams StreamCommands.

Local Open Scope Z_scope.

(** ** Laws

    A savepoint restored shows what it showed when it was taken.  The removal of
    an entry leaves the others in order, and the key its tag; whether the key of
    a stream left without entries is still there is not said; a removal makes no
    key. *)
Class StreamLaws `{EngineLaws} := {
  law_restore c c' : healthy c → healthy c' →
    healthy (RestoreSavepoint (TakeSavepoint c) c') ∧
    ∀ k, view (RestoreSavepoint (TakeSavepoint c) c') k = view c k;
  law_stream_remove k id tips c r : healthy c → view c k = Some r → is_live (view c k) = true →
    re_Collection r = ORDERED →
    let left := filter (λ e, el_Id e ≠ id) (re_OrderedElements r) in
    view (snd (Emit (mkEffect k (stream_remove id)) tips c)) k =
      Some (mkReducedAt INSERT_OP ORDERED (re_TypeTag r) None ∅ left (re_ExpiresAt r) ∅) ∨
    left = [] ∧ is_live (view (snd (Emit (mkEffect k (stream_remove id)) tips c)) k) = false;
  law_stream_remove_dead k id tips c : healthy c → is_live (view c k) = false →
    is_live (view (snd (Emit (mkEffect k (stream_remove id)) tips c)) k) = false
}.

(** ** The last id and the next one *)

Definition sid_max (a b : StreamID) : StreamID := if bool_decide (sid_lt a b) then b else a.

Definition sid_next (a : StreamID) : StreamID :=
  if sid_Seq a =? MaxUint64 then mkSID (u64 (sid_Ms a + 1)) 0 else mkSID (sid_Ms a) (sid_Seq a + 1).

(** The id an entry gets by itself: the time, or the id after the last one. *)
Definition auto_id (now : Z) (last : StreamID) : StreamID :=
  if sid_Ms last <? u64 now then mkSID (u64 now) 0 else sid_next last.

(** The id XADD gives; [None] when the argument is no id. *)
Definition wanted_id (now : Z) (last : StreamID) (idStr : bytes) : option StreamID :=
  if beq idStr (str "*") then Some (auto_id now last)
  else match ParseStreamID idStr with
  | Some (id, _, false) => Some id
  | Some (id, _, true) =>
    if (2 <? len idStr) && beq (drop (length idStr - 2) idStr) (str "-*")
    then Some (mkSID (sid_Ms id) (if sid_Ms id =? sid_Ms last then u64 (sid_Seq last + 1) else 0))
    else None
  | None => None
  end.

Lemma sid_lt_total a b : sid_lt a b ∨ a = b ∨ sid_lt b a.
Proof. destruct (Compare_cases a b) as [[_ ?]|[[_ ?]|[_ ?]]]; auto. Qed.

Lemma sid_lt_asym a b : sid_lt a b → ¬ sid_lt b a.
Proof. intros Ha Hb. by apply (sid_lt_irrefl a), (sid_lt_trans _ b). Qed.

Lemma sid_lt_next a : is_sid a → a ≠ MaxStreamID → sid_lt a (sid_next a) ∧ is_sid (sid_next a).
Proof.
  destruct a as [ms seq]. unfold is_sid, is_u64, sid_next, sid_lt, MaxStreamID. cbn [sid_Ms sid_Seq]. intros [Hm Hs] Hne.
  destruct (Z.eqb_spec seq MaxUint64) as [->|Hn]; cbn [sid_Ms sid_Seq]; [|unfold MaxUint64 in *; lia].
  assert (ms ≠ MaxUint64) by (intros ->; done).
  unfold u64. rewrite Z.mod_small by (unfold MaxUint64 in *; lia). unfold MaxUint64 in *. lia.
Qed.

(** The id an entry gets by itself comes after the last one, and not before the
    time. *)
Lemma auto_id_later now last : is_sid last → last ≠ MaxStreamID →
  sid_lt last (auto_id now last) ∧ is_sid (auto_id now last).
Proof.
  intros Hl Hne. unfold auto_id. destruct (Z.ltb_spec (sid_Ms last) (u64 now)); [|by apply sid_lt_next].
  split; [left; done|]. split; [|done]. pose proof (Z.mod_pos_bound now (2 ^ 64)).
  unfold is_u64, u64, MaxUint64. cbn [sid_Ms]. lia.
Qed.

Lemma auto_id_zero now last : is_sid last → StreamID_IsZero (auto_id now last) = true → last = MaxStreamID.
Proof.
  intros Hl Hz. destruct (decide (last = MaxStreamID)) as [|Hne]; [done|].
  destruct (auto_id_later now last Hl Hne) as [Hlt Hs]. destruct (auto_id now last) as [ms seq].
  unfold StreamID_IsZero in Hz. unfold is_sid, is_u64, sid_lt in *. cbn in *. lia.
Qed.

Lemma auto_id_max now : auto_id now MaxStreamID = mkSID 0 0.
Proof.
  unfold auto_id, MaxStreamID. cbn [sid_Ms]. destruct (Z.ltb_spec MaxUint64 (u64 now)) as [Hlt|]; [|done].
  unfold u64 in Hlt. pose proof (Z.mod_pos_bound now (2 ^ 64)). unfold MaxUint64 in Hlt. lia.
Qed.

(** ** Ranges

    A range of a list of entries in order is a filter of it. *)

Definition in_range (start end_ : StreamID) (startExcl endExcl : bool) (e : StreamEntry) : bool :=
  (if startExcl then bool_decide (sid_lt start (se_ID e)) else negb (bool_decide (sid_lt (se_ID e) start))) &&
  (if endExcl then bool_decide (sid_lt (se_ID e) end_) else negb (bool_decide (sid_lt end_ (se_ID e)))).

(** The first [count] of a list, all of it for zero. *)
Definition upto {A} (count : Z) (l : list A) : list A := if 0 <? count then take (Z.to_nat count) l else l.

Definition sorted_ids (l : list StreamEntry) : Prop := StronglySorted sid_lt (se_ID <$> l).

Lemma sorted_cons e l : sorted_ids (e :: l) → sorted_ids l ∧ Forall (λ x, sid_lt (se_ID e) (se_ID x)) l.
Proof.
  unfold sorted_ids. rewrite fmap_cons. intros [Hs Hf]%StronglySorted_inv. split; [done|]. by rewrite Forall_fmap in Hf.
Qed.

Lemma in_range_start s e (sx ex : bool) x : (if sx then StreamID_Compare (se_ID x) s <=? 0 else StreamID_Compare (se_ID x) s <? 0) = true →
  in_range s e sx ex x = false.
Proof.
  unfold in_range. pose proof (sid_lt_irrefl s) as Hi. destruct sx.
  - rewrite Z.leb_le. intros Hc. rewrite bool_decide_eq_false_2; [done|]. intros Hlt. apply Compare_gt in Hlt. lia.
  - rewrite Z.ltb_lt. intros Hc%Compare_lt. by rewrite bool_decide_eq_true_2.
Qed.

Lemma in_range_in s e (sx ex : bool) x : (if sx then StreamID_Compare (se_ID x) s <=? 0 else StreamID_Compare (se_ID x) s <? 0) = false →
  (if ex then 0 <=? StreamID_Compare (se_ID x) e else 0 <? StreamID_Compare (se_ID x) e) = false → in_range s e sx ex x = true.
Proof.
  unfold in_range. intros H1 H2. apply andb_true_iff. split.
  - destruct sx; [apply Z.leb_gt in H1; apply bool_decide_eq_true_2; by apply Compare_gt|].
    apply Z.ltb_ge in H1. rewrite bool_decide_eq_false_2; [done|]. intros Hlt%Compare_lt. lia.
  - destruct ex; [apply Z.leb_gt in H2; apply bool_decide_eq_true_2; by apply Compare_lt|].
    apply Z.ltb_ge in H2. rewrite bool_decide_eq_false_2; [done|]. intros Hlt%Compare_gt. lia.
Qed.

Lemma in_range_end s e (sx ex : bool) x : (if ex then 0 <=? StreamID_Compare (se_ID x) e else 0 <? StreamID_Compare (se_ID x) e) = true →
  in_range s e sx ex x = false.
Proof.
  unfold in_range. intros Hc. rewrite andb_comm. destruct ex.
  - apply Z.leb_le in Hc. rewrite bool_decide_eq_false_2; [done|]. intros Hlt%Compare_lt. lia.
  - apply Z.ltb_lt, Compare_gt in Hc. by rewrite bool_decide_eq_true_2.
Qed.

(** Past the end nothing more is found. *)
Lemma in_range_past s e sx x y : 0 < StreamID_Compare (se_ID x) e → sid_lt (se_ID x) (se_ID y) → in_range s e sx false y = false.
Proof.
  intros Hc%Compare_gt Hlt. apply in_range_end, Z.ltb_lt, Compare_gt. by apply (sid_lt_trans _ (se_ID x)).
Qed.
Lemma in_range_before s e ex x y : StreamID_Compare (se_ID x) s < 0 → sid_lt (se_ID y) (se_ID x) → in_range s e false ex y = false.
Proof.
  intros Hc%Compare_lt Hlt. apply in_range_start, Z.ltb_lt, Compare_lt. by apply (sid_lt_trans _ (se_ID x)).
Qed.

(** What is left of a range after [n] of [count] entries. *)
Definition left_of (count n : Z) : Z := if 0 <? count then count - n else 0.

Lemma upto_cons {A} count n (x : A) l : 0 <= n → (0 < count → n < count) →
  upto (left_of count n) (x :: l) =
  x :: (if (0 <? count) && (count <=? n + 1) then [] else upto (left_of count (n + 1)) l).
Proof.
  intros Hn Hc. unfold upto, left_of. destruct (Z.ltb_spec 0 count) as [Hp|]; cbn [andb]; [|done].
  specialize (Hc Hp). destruct (Z.ltb_spec 0 (count - n)); [|lia].
  replace (Z.to_nat (count - n)) with (S (Z.to_nat (count - (n + 1)))) by lia. cbn [take]. f_equal.
  destruct (Z.leb_spec count (n + 1)); [by replace (Z.to_nat (count - (n + 1))) with 0%nat by lia|].
  by destruct (Z.ltb_spec 0 (count - (n + 1))); [|lia].
Qed.

Lemma upto_nil {A} count : upto count (@nil A) = [].
Proof. unfold upto. destruct (0 <? count); [by rewrite take_nil|done]. Qed.

Lemma range_loop_spec s e sx ex count l n : sorted_ids l → 0 <= n → (0 < count → n < count) →
  range_loop l s e sx ex count n = upto (left_of count n) (filter (λ x, in_range s e sx ex x = true) l).
Proof.
  revert n. induction l as [|x l IH]; intros n Hs Hn Hc; [by rewrite filter_nil, upto_nil|].
  apply sorted_cons in Hs as [Hs Hx]. cbn [range_loop].
  assert (Hgo : in_range s e sx ex x = true →
    x :: (if (0 <? count) && (count <=? n + 1) then [] else range_loop l s e sx ex count (n + 1)) =
    upto (left_of count n) (filter (λ x, in_range s e sx ex x = true) (x :: l))).
  { intros Hin. rewrite filter_cons_True, upto_cons by done. f_equal.
    destruct ((0 <? count) && (count <=? n + 1)) eqn:E; [done|]. apply IH; [done|lia|].
    intros Hp. apply andb_false_iff in E as [E|E]; lia. }
  assert (Hskip : in_range s e sx ex x = false →
    range_loop l s e sx ex count n = upto (left_of count n) (filter (λ x, in_range s e sx ex x = true) (x :: l))).
  { intros Hout. rewrite filter_cons_False by (by rewrite Hout). by apply IH. }
  destruct (if sx then _ else _) eqn:E1; [by apply Hskip, in_range_start|].
  destruct ex.
  - destruct (0 <=? StreamID_Compare (se_ID x) e) eqn:E2; [by apply Hskip, in_range_end|by apply Hgo, in_range_in].
  - destruct (0 <? StreamID_Compare (se_ID x) e) eqn:E2; [|by apply Hgo, in_range_in].
    rewrite filter_cons_False, filter_none, upto_nil; [done| |by rewrite in_range_end].
    intros y Hy. rewrite (in_range_past s e sx x y); [done|lia|]. rewrite Forall_forall in Hx. by apply Hx.
Qed.

Lemma rangeEntries_spec l s e sx ex count : sorted_ids l → 0 <= count →
  rangeEntries l s e sx ex count = upto count (filter (λ x, in_range s e sx ex x = true) l).
Proof.
  intros Hs Hc. unfold rangeEntries. rewrite range_loop_spec by (done || lia). f_equal. unfold left_of.
  destruct (Z.ltb_spec 0 count); lia.
Qed.

(** The entries latest first. *)
Definition sorted_down (l : list StreamEntry) : Prop := StronglySorted (flip sid_lt) (se_ID <$> l).

Lemma sorted_reverse l : sorted_ids l → sorted_down (reverse l).
Proof.
  unfold sorted_ids, sorted_down. induction l as [|x l IH]; [constructor|]. intros Hs. apply sorted_cons in Hs as [Hs Hx].
  rewrite reverse_cons, fmap_app. apply StronglySorted_app_2; [|by apply IH|by repeat constructor].
  intros a b Ha Hb. apply list_elem_of_fmap in Ha as (y & -> & Hy). rewrite elem_of_reverse in Hy.
  cbn in Hb. apply list_elem_of_singleton in Hb as ->. rewrite Forall_forall in Hx. exact (Hx y Hy).
Qed.

Lemma range_loop_reverse_spec s e sx ex count l n : sorted_down l → 0 <= n → (0 < count → n < count) →
  range_loop_reverse l s e sx ex count n = upto (left_of count n) (filter (λ x, in_range s e sx ex x = true) l).
Proof.
  revert n. induction l as [|x l IH]; intros n Hs Hn Hc; [by rewrite filter_nil, upto_nil|].
  unfold sorted_down in Hs. rewrite fmap_cons in Hs. apply StronglySorted_inv in Hs as [Hs Hx].
  rewrite Forall_fmap in Hx. cbn [range_loop_reverse].
  assert (Hgo : in_range s e sx ex x = true →
    x :: (if (0 <? count) && (count <=? n + 1) then [] else range_loop_reverse l s e sx ex count (n + 1)) =
    upto (left_of count n) (filter (λ x, in_range s e sx ex x = true) (x :: l))).
  { intros Hin. rewrite filter_cons_True, upto_cons by done. f_equal.
    destruct ((0 <? count) && (count <=? n + 1)) eqn:E; [done|]. apply IH; [done|lia|].
    intros Hp. apply andb_false_iff in E as [E|E]; lia. }
  assert (Hskip : in_range s e sx ex x = false →
    range_loop_reverse l s e sx ex count n = upto (left_of count n) (filter (λ x, in_range s e sx ex x = true) (x :: l))).
  { intros Hout. rewrite filter_cons_False by (by rewrite Hout). by apply IH. }
  destruct (if ex then _ else _) eqn:E1; [by apply Hskip, in_range_end|].
  destruct sx.
  - destruct (StreamID_Compare (se_ID x) s <=? 0) eqn:E2; [by apply Hskip, in_range_start|by apply Hgo, in_range_in].
  - destruct (StreamID_Compare (se_ID x) s <? 0) eqn:E2; [|by apply Hgo, in_range_in].
    rewrite filter_cons_False, filter_none, upto_nil; [done| |by rewrite in_range_start].
    intros y Hy. rewrite (in_range_before s e ex x y); [done|lia|]. rewrite Forall_forall in Hx. exact (Hx y Hy).
Qed.

Lemma rangeEntriesReverse_spec l s e sx ex count : sorted_ids l → 0 <= count →
  rangeEntriesReverse l s e sx ex count = upto count (reverse (filter (λ x, in_range s e sx ex x = true) l)).
Proof.
  intros Hs Hc. unfold rangeEntriesReverse. rewrite range_loop_reverse_spec by (by apply sorted_reverse || lia).
  rewrite filter_reverse. f_equal. unfold left_of. destruct (Z.ltb_spec 0 count); lia.
Qed.

(** ** The stream a key stands for *)
Section StreamRuns.
Context `{StreamLaws} `{!NetRemoves} `{RangeOrder}.

(** An element of the collection and the entry it stores. *)
Definition stores (el : Element) (e : StreamEntry) : Prop :=
  el_Id el = encodeStreamElementID (se_ID e) ∧ decodeStreamFields (Decompress (el_Value el)) = se_Fields e ∧
  is_sid (se_ID e).

(** The entries [l], in the order of their ids, whatever the tag; none when the
    key is dead. *)
Definition raw_stream (v : option ReducedEffect) (l : list StreamEntry) : Prop :=
  if is_live v then
    match v with
    | Some r => re_Collection r = ORDERED ∧ re_NetAdds r = ∅ ∧ Forall2 stores (re_OrderedElements r) l ∧ sorted_ids l
    | None => False
    end
  else l = [].
Definition is_stream (v : option ReducedEffect) (l : list StreamEntry) : Prop :=
  raw_stream v l ∧ (is_live v = true → re_TypeTag <$> v = Some TYPE_STREAM).

(** A live key of another type. *)
Definition not_stream (v : option ReducedEffect) : Prop :=
  match v with
  | Some r => re_Op r = INSERT_OP ∧ re_Collection r ≠ ORDERED ∧ re_TypeTag r ≠ TYPE_STREAM
  | None => False
  end.

(** The last id: that of the last entry or of a later one that was removed. *)
Definition last_id (c : Ctx) (key : bytes) (l : list StreamEntry) : StreamID :=
  if is_live (view c key) then sid_max (streamLastID l) (max_removed (net_removes key c)) else mkSID 0 0.

Lemma raw_stream_live v l : is_live v = true → raw_stream v l →
  ∃ r, v = Some r ∧ re_Collection r = ORDERED ∧ re_NetAdds r = ∅ ∧ Forall2 stores (re_OrderedElements r) l ∧ sorted_ids l.
Proof. destruct v as [r|]; [|done]. unfold raw_stream. intros ->. by exists r. Qed.

Lemma raw_stream_dead v l : is_live v = false → raw_stream v l → l = [].
Proof. unfold raw_stream. by intros ->. Qed.

Lemma stores_entry el e : stores el e → element_entry (el_Id el) (el_Value el) = Some e.
Proof.
  intros (Hid & Hf & Hs). unfold element_entry, len. rewrite Hid, encode_length, decode_encode_id, Hf by done.
  by destruct e.
Qed.

Lemma stores_all els l : Forall2 stores els l → omap (λ e, element_entry (el_Id e) (el_Value e)) els = l.
Proof. induction 1 as [|el e els l Hs _ IH]; [done|]. cbn. by rewrite (stores_entry _ _ Hs), IH. Qed.

Lemma stores_last els l : Forall2 stores els l →
  match last els with
  | None => l = []
  | Some el => ∃ e, last l = Some e ∧ stores el e
  end.
Proof.
  intros Hf. destruct els as [|el els _] using rev_ind; [by apply Forall2_nil_inv_l in Hf|].
  apply Forall2_app_inv_l in Hf as (l1 & l2 & _ & Hl & ->). rewrite last_snoc.
  apply Forall2_cons_inv_l in Hl as (e & l3 & He & Hl & ->). apply Forall2_nil_inv_l in Hl as ->.
  exists e. by rewrite last_snoc.
Qed.

(** What a handler sees of a stream. *)
Record sees_stream (s : StreamSnap) (c : Ctx) (key : bytes) (l : list StreamEntry) : Prop := {
  ss_type : streamWrongType s = false;
  ss_there : streamExists s = is_live (view c key);
  ss_list : snap_entries s = l;
  ss_len : streamLen (ks_snap (ss_key s)) = len l;
  ss_last : last_known s = last_id c key l
}.

Lemma omap_none {A B} (f : A → option B) l : (∀ x, f x = None) → omap f l = [].
Proof. intros Hf. induction l as [|x l IH]; [done|]. cbn. by rewrite Hf. Qed.

Lemma snapshot_entries r l : re_Collection r = ORDERED → re_NetAdds r = ∅ → Forall2 stores (re_OrderedElements r) l →
  snapshotToEntries (Some r) = l.
Proof.
  intros Hc Hn Hl. unfold snapshotToEntries. rewrite bool_decide_eq_true_2 by done. cbn [andb].
  destruct (Z.ltb_spec 0 (len (re_OrderedElements r))) as [|Hz]; [by apply stores_all|].
  destruct (re_OrderedElements r) eqn:E; [|unfold len in Hz; cbn in Hz; lia].
  apply Forall2_nil_inv_l in Hl as ->. rewrite Hn, omap_none; [done|]. intros id.
  destruct (beq id metaElement); [done|]. by rewrite lookup_empty.
Qed.

Lemma IsZero_eq a : StreamID_IsZero a = true → a = mkSID 0 0.
Proof. destruct a as [m s]. unfold StreamID_IsZero. cbn [sid_Ms sid_Seq]. intros Hz. f_equal; lia. Qed.

Lemma sid_max_zero a b : is_sid a → is_sid b → StreamID_IsZero (sid_max a b) = true → a = mkSID 0 0.
Proof.
  destruct a as [m s], b as [m' s']. unfold sid_max, StreamID_IsZero, is_sid, is_u64. cbn [sid_Ms sid_Seq]. intros Ha Hb.
  case_bool_decide as Hlt; unfold sid_lt in Hlt; cbn [sid_Ms sid_Seq] in *; intros Hz; f_equal; lia.
Qed.

Lemma last_stored els l : Forall2 stores els l → is_sid (streamLastID l) ∧
  match last els with
  | None => mkSID 0 0
  | Some el => if len (el_Id el) =? 16 then decodeStreamElementID (el_Id el) else mkSID 0 0
  end = streamLastID l.
Proof.
  intros Hf. apply stores_last in Hf. unfold streamLastID. destruct (last els) as [el|]; [|by subst l].
  destruct Hf as (e & -> & Hid & _ & Hs). split; [done|]. unfold len. rewrite Hid, encode_length. cbn. by apply decode_encode_id.
Qed.

(** The removed ids are those of entries. *)
Definition removed_ids (rs : list bytes) : Prop := Forall (λ id, byte_ok id) rs.

Lemma max_removed_sid rs : removed_ids rs → is_sid (max_removed rs).
Proof.
  intros Hr. unfold max_removed. assert (Hz : is_sid (mkSID 0 0)) by done. revert Hz. generalize (mkSID 0 0) as m.
  induction Hr as [|id rs Hid _ IH]; intros m Hm; [done|]. cbn. apply IH.
  destruct (len id =? 16); [|done]. destruct (0 <? _); [by apply decoded_is_sid|done].
Qed.

Lemma last_known_ordered r tips removes l : re_Collection r = ORDERED → re_NetAdds r = ∅ → Forall2 stores (re_OrderedElements r) l →
  removed_ids removes →
  last_known (mkStreamSnap (mkKeySnap (Some r) tips true false) removes) = sid_max (streamLastID l) (max_removed removes).
Proof.
  intros Hc Hn Hl Hr. destruct (last_stored _ _ Hl) as [Hs Hlast]. pose proof (max_removed_sid _ Hr) as Hm.
  unfold last_known, snap_meta, snap_entries. cbn [ss_key ks_snap ss_removes]. rewrite (snapshot_entries r l) by done.
  assert (E : sm_LastID (streamMetadata (Some r) removes) = sid_max (streamLastID l) (max_removed removes)).
  { unfold streamMetadata, ordered_meta. rewrite Hc. unfold sid_max. rewrite <- Hlast.
    destruct (last (re_OrderedElements r)) as [el|]; cbn [sm_LastID];
      match goal with |- context [0 <? StreamID_Compare ?a ?b] => destruct (Z.ltb_spec 0 (StreamID_Compare a b)) as [Hgt|Hle] end;
      cbn [sm_LastID]; try (rewrite bool_decide_eq_true_2; [done|by apply Compare_gt]);
      rewrite bool_decide_eq_false_2; [done|intros Hgt%Compare_gt; lia|done|intros Hgt%Compare_gt; lia]. }
  rewrite E. destruct (StreamID_IsZero (sid_max _ _)) eqn:Ez; [|done].
  by rewrite (IsZero_eq _ Ez), (sid_max_zero _ _ Hs Hm Ez).
Qed.

Lemma classify_sees_stream c key tips l : is_stream (view c key) l → removed_ids (net_removes key c) →
  sees_stream (mkStreamSnap (classify_stream (view c key) tips) (net_removes key c)) c key l.
Proof.
  intros [Hl _] Hr. unfold classify_stream, last_id. destruct (is_live (view c key)) eqn:El.
  - destruct (raw_stream_live _ _ El Hl) as (r & Ev & Hc & Hn & Hf & Hs). rewrite Ev in El |- *.
    rewrite is_live_remove in El. destruct (bool_decide_reflect (re_Op r = REMOVE_OP)); [done|].
    rewrite bool_decide_eq_true_2 by done. split; cbn [ss_key]; try done.
    + rewrite Ev, is_live_remove, bool_decide_eq_false_2 by done. done.
    + by apply snapshot_entries.
    + unfold streamLen. cbn [ks_snap]. rewrite bool_decide_eq_true_2 by done.
      unfold len. by rewrite (Forall2_length _ _ _ Hf).
    + rewrite (last_known_ordered r _ _ l) by done. unfold last_id. by rewrite Ev, is_live_remove, bool_decide_eq_false_2.
  - rewrite (raw_stream_dead _ _ El Hl).
    assert (E : classify_stream (view c key) tips = mkKeySnap None tips false false).
    { unfold classify_stream. destruct (view c key) as [r|]; [|done]. rewrite is_live_remove in El.
      by destruct (bool_decide (re_Op r = REMOVE_OP)). }
    fold (classify_stream (view c key) tips). rewrite E. split; try done. unfold last_id. by rewrite El.
Qed.

Lemma classify_not_stream v tips removes : not_stream v →
  let s := mkStreamSnap (classify_stream v tips) removes in streamExists s = true ∧ streamWrongType s = true.
Proof.
  unfold classify_stream. destruct v as [r|]; [|done]. intros (Hop & Hk & Ht).
  rewrite bool_decide_eq_false_2 by (rewrite Hop; done). rewrite bool_decide_eq_false_2 by done.
  rewrite (bool_decide_eq_false_2 (re_TypeTag r = TYPE_STREAM)) by done. by rewrite !andb_false_r.
Qed.

Lemma steps_stream_snapshot key st : healthy (st_ctx st) →
  ∃ tips, steps (getStreamSnapshot key) st
    (mkStreamSnap (classify_stream (view (st_ctx st) key) tips) (net_removes key (st_ctx st))) (same (st_ctx st)).
Proof.
  intros Hh. destruct (steps_get key st Hh) as [tips Hg]. exists tips.
  assert (Hb : steps ('(snap, tips) ← get_snapshot key; mret (mkStreamSnap (classify_stream snap tips) (net_removes key (st_ctx st)))) st
    (mkStreamSnap (classify_stream (view (st_ctx st) key) tips) (net_removes key (st_ctx st))) (same (st_ctx st))).
  { eapply steps_bind; [exact Hg|]. cbv beta iota. intros c' Hh' Hs. by apply (steps_ret _ (mkSt c' _ _)). }
  exact Hb.
Qed.

(** A command that reads a stream, and one that finds another type. *)
Lemma finishes_read_stream key missing found st l w Q : healthy (st_ctx st) →
  is_stream (view (st_ctx st) key) l → removed_ids (net_removes key (st_ctx st)) →
  (is_live (view (st_ctx st) key) = false → missing (st_w st) = w ∧ ∀ c', same (st_ctx st) c' → Q c') →
  (∀ s c', sees_stream s (st_ctx st) key l → healthy c' → same (st_ctx st) c' →
     is_live (view (st_ctx st) key) = true → finishes (found s) (mkSt c' (st_w st) (st_held st)) w Q) →
  finishes (read_stream key missing found) st w Q.
Proof.
  intros Hh Hx Hr Hm Hf. destruct (steps_stream_snapshot key st Hh) as [tips Hg]. unfold read_stream.
  eapply finishes_bind; [exact Hg|]. cbv beta. intros c' Hh' Hs.
  pose proof (classify_sees_stream _ _ tips _ Hx Hr) as Hse. rewrite (ss_there _ _ _ _ Hse), (ss_type _ _ _ _ Hse).
  destruct (is_live (view (st_ctx st) key)) eqn:El; cbn [negb]; [by apply Hf|].
  destruct (Hm eq_refl) as [Hw HQ]. apply finishes_reply; [done|exact Hw|by apply HQ].
Qed.

Lemma finishes_read_not_stream key missing found st : healthy (st_ctx st) → not_stream (view (st_ctx st) key) →
  finishes (read_stream key missing found) st (WriteWrongType (st_w st)) (same (st_ctx st)).
Proof.
  intros Hh Hx. destruct (steps_stream_snapshot key st Hh) as [tips Hg]. unfold read_stream.
  eapply finishes_bind; [exact Hg|]. cbv beta. intros c' Hh' Hs.
  destruct (classify_not_stream _ tips (net_removes key (st_ctx st)) Hx) as [-> ->]. by apply finishes_reply.
Qed.

Lemma steps_begin_same key tips st : healthy (st_ctx st) → steps (begin_read key tips) st tt (same (st_ctx st)).
Proof.
  intros Hh. eapply steps_bind; [by apply steps_begin|]. cbv beta. intros c1 Hh1 Hs1.
  eapply steps_weaken; [by apply (steps_noop key tips (mkSt c1 _ _))|]. cbn [st_ctx]. intros c2. by apply same_trans.
Qed.

(** ** Runs under a savepoint *)

(** [m] ends with outcome [o], having written [w]. *)
Definition ends_as (o : Outcome unit) (m : M unit) (st : St) (w : Writer) (P : Ctx → Prop) : Prop :=
  ∃ c', m st = (o, mkSt c' w (st_held st)) ∧ healthy c' ∧ P c'.

Lemma ends_as_bind {A} o (m : M A) (f : A → M unit) st a P w Q :
  steps m st a P →
  (∀ c', healthy c' → P c' → ends_as o (f a) (mkSt c' (st_w st) (st_held st)) w Q) →
  ends_as o (m ≫= f) st w Q.
Proof. intros (c' & E & Hh & HP) Hf. unfold ends_as, mbind, M_bind. rewrite E. by apply Hf. Qed.

Lemma ends_as_write f st w (P : Ctx → Prop) : healthy (st_ctx st) → f (st_w st) = w → P (st_ctx st) →
  ends_as (Next tt) (write f) st w P.
Proof. intros Hh <- HP. eexists. split; [reflexivity|]. auto. Qed.

Lemma ends_as_reply f st w (P : Ctx → Prop) : healthy (st_ctx st) → f (st_w st) = w → P (st_ctx st) →
  ends_as Return (reply f) st w P.
Proof. intros Hh <- HP. eexists. split; [reflexivity|]. auto. Qed.

Lemma ends_as_reply_bind {A} g (f : A → M unit) st w (P : Ctx → Prop) :
  healthy (st_ctx st) → g (st_w st) = w → P (st_ctx st) → ends_as Return (reply g ≫= f) st w P.
Proof. intros Hh <- HP. eexists. split; [reflexivity|]. auto. Qed.

(** What is kept when the run reaches its end, and undone when it does not. *)
Lemma finishes_saved m st w P : ends_as (Next tt) m st w P → finishes (with_savepoint m) st w P.
Proof.
  intros (c' & E & Hh & HP). exists (Next tt), c'. unfold with_savepoint. rewrite E. by split_and!; [|left| |].
Qed.

Lemma finishes_undone m st w P : healthy (st_ctx st) → ends_as Return m st w P →
  finishes (with_savepoint m) st w (same (st_ctx st)).
Proof.
  intros Hc (c' & E & Hh & _). destruct (law_restore _ _ Hc Hh) as [Hr Hv].
  exists Return, (RestoreSavepoint (TakeSavepoint (st_ctx st)) c'). unfold with_savepoint. rewrite E.
  by split_and!; [|right| |].
Qed.

(** A command that reads a stream and may have to undo what it did. *)
Lemma ends_as_read_stream out key missing found st l w Q : healthy (st_ctx st) →
  is_stream (view (st_ctx st) key) l → removed_ids (net_removes key (st_ctx st)) → is_live (view (st_ctx st) key) = true →
  (∀ s c', sees_stream s (st_ctx st) key l → healthy c' → same (st_ctx st) c' →
     ends_as out (found s) (mkSt c' (st_w st) (st_held st)) w Q) →
  ends_as out (read_stream key missing found) st w Q.
Proof.
  intros Hh Hx Hr El Hf. destruct (steps_stream_snapshot key st Hh) as [tips Hg]. unfold read_stream.
  eapply ends_as_bind; [exact Hg|]. cbv beta. intros c' Hh' Hs.
  pose proof (classify_sees_stream _ _ tips _ Hx Hr) as Hse. rewrite (ss_there _ _ _ _ Hse), (ss_type _ _ _ _ Hse), El.
  by apply Hf.
Qed.

Lemma finishes_read_missing key missing found st l : healthy (st_ctx st) →
  is_stream (view (st_ctx st) key) l → removed_ids (net_removes key (st_ctx st)) → is_live (view (st_ctx st) key) = false →
  finishes (with_savepoint (read_stream key missing found)) st (missing (st_w st)) (same (st_ctx st)).
Proof.
  intros Hh Hx Hr El. eapply finishes_undone; [done|]. destruct (steps_stream_snapshot key st Hh) as [tips Hg].
  unfold read_stream. eapply ends_as_bind; [exact Hg|]. cbv beta. intros c' Hh' Hs.
  pose proof (classify_sees_stream _ _ tips _ Hx Hr) as Hse. rewrite (ss_there _ _ _ _ Hse), El.
  by apply ends_as_reply.
Qed.

(** ** Side collections

    The groups, pending lists and settings of a stream: keyed collections, a dead
    one without elements. *)
Definition keyed (v : option ReducedEffect) (m : gmap bytes Value) : Prop :=
  net_adds v = m ∧ ∃ e, is_hash v m e.

(** From [c], [key] has become the collection [m] and nothing else changed. *)
Definition set_to (c : Ctx) (key : bytes) (m : gmap bytes Value) (c' : Ctx) : Prop :=
  keyed (view c' key) m ∧ others c key c'.

Lemma steps_keyed_get key st m : healthy (st_ctx st) → keyed (view (st_ctx st) key) m →
  ∃ snap tips, steps (get_snapshot key) st (snap, tips) (same (st_ctx st)) ∧ net_adds snap = m.
Proof.
  intros Hh [Hm _]. destruct (steps_get key st Hh) as [tips Hg]. by exists (view (st_ctx st) key), tips.
Qed.

Lemma steps_keyed_insert key f b st m : healthy (st_ctx st) → keyed (view (st_ctx st) key) m →
  steps (emit (mkEffect key (keyed_insert f (Raw b))) []) st tt (set_to (st_ctx st) key (<[f := Raw b]> m)).
Proof.
  intros Hh [_ [e Hx]]. eapply steps_weaken; [exact (steps_hash_insert key f b st m e Hh Hx)|].
  intros c' (e' & [Hg Hl _ _ Ho]). split; [|done]. destruct (is_hash_live _ _ _ Hl Hg) as (r & Hv & _ & Hm & _).
  split; [by rewrite Hv|by exists e'].
Qed.

Lemma steps_keyed_remove key f st m : healthy (st_ctx st) → keyed (view (st_ctx st) key) m → is_Some (m !! f) →
  steps (emit (mkEffect key (keyed_remove f)) []) st tt (set_to (st_ctx st) key (delete f m)).
Proof.
  intros Hh [_ [e Hx]] Hf. destruct (is_live (view (st_ctx st) key)) eqn:El.
  2: { destruct (is_hash_dead _ _ _ El Hx) as [-> _]. rewrite lookup_empty in Hf. by destruct Hf. }
  destruct (is_hash_live _ _ _ El Hx) as (r & Hr & Hk & <- & <-).
  eapply steps_weaken; [apply (steps_reduce key (keyed_remove f) [] st
    (if bool_decide (delete f (re_NetAdds r) = ∅) && bool_decide (re_Scalar r = None) then None
     else Some (mkReducedAt INSERT_OP KEYED (re_TypeTag r) (re_Scalar r) (delete f (re_NetAdds r)) []
                  (re_ExpiresAt r) (delete f (re_FieldExpires r)))) Hh)|].
  { rewrite Hr in *. unfold keyed_remove, reduce. cbn [de_Collection de_Op de_Id]. rewrite El, Hk. cbn [negb].
    by destruct (_ && _). }
  cbv beta. intros c' [Hv Ho]. split; [|done].
  destruct (bool_decide_reflect (delete f (re_NetAdds r) = ∅)) as [He|He]; [destruct (bool_decide_reflect (re_Scalar r = None))|];
    cbn [andb] in Hv; rewrite Hv; (split; [by rewrite ?He|]); rewrite ?He; by eexists.
Qed.
End StreamRuns.
