(* ===== verification/StreamTheorems.v ===== *)
(** * Adding to a stream and reading ranges of it

    XADD gives the new entry an id above all earlier ones and puts it at the end;
    XLEN, XRANGE and XREVRANGE answer with what is there. *)

From S2P Require Import Prelude GoBytes Strconv Floats Commands Writer Engine Runs Sets Strings Hashes HashTheorems Lists ListProps StreamIds Streams StreamCommands StreamProps.

Local Open Scope Z_scope.

Section StreamTheorems.
Context `{StreamLaws} `{!NetRemoves} `{RangeOrder} `{StreamClock} `{NodeMaxEntries} `{PairSort}.

(** ** One new entry *)

(** The fields of an entry are numbered and measured in 32 bits. *)
Definition fields_ok (fields : list bytes) : Prop := len fields < 2 ^ 32 ∧ Forall (λ f : bytes, len f < 2 ^ 32) fields.

Lemma cfgKey_ne key : cfgKey key ≠ key.
Proof.
  intros E. apply (f_equal length) in E. unfold cfgKey in E. rewrite length_app in E. cbn in E. lia.
Qed.

Lemma sorted_snoc l e : sorted_ids l → (∀ x, x ∈ l → sid_lt (se_ID x) (se_ID e)) → sorted_ids (l ++ [e]).
Proof.
  intros Hs Hlt. unfold sorted_ids. rewrite fmap_app. apply StronglySorted_app_2; [|done|by repeat constructor].
  intros a b Ha Hb. apply list_elem_of_fmap in Ha as (x & -> & Hx). cbn in Hb. apply list_elem_of_singleton in Hb as ->.
  by apply Hlt.
Qed.

(** The last entry has the highest id. *)
Lemma last_highest l x : sorted_ids l → x ∈ l → x = default x (last l) ∨ sid_lt (se_ID x) (streamLastID l).
Proof.
  intros Hs Hx. destruct l as [|e l _] using rev_ind; [by apply elem_of_nil in Hx|].
  unfold streamLastID. rewrite last_snoc. cbn. apply elem_of_app in Hx as [Hx|Hx]; [right|left; set_solver].
  unfold sorted_ids in Hs. rewrite fmap_app in Hs. eapply StronglySorted_app_1_elem_of; [exact Hs| |].
  - by apply list_elem_of_fmap_2.
  - cbn. set_solver.
Qed.

Lemma sid_max_le a b : ¬ sid_lt (sid_max a b) a.
Proof. unfold sid_max. case_bool_decide as Hlt; [by apply sid_lt_asym|apply sid_lt_irrefl]. Qed.

Lemma last_id_above c key l e id : raw_stream (view c key) l → e ∈ l → sid_lt (last_id c key l) id → sid_lt (se_ID e) id.
Proof.
  intros Hr He Hid. unfold last_id in Hid. destruct (is_live (view c key)) eqn:El.
  2: { rewrite (raw_stream_dead _ _ El Hr) in He. by apply elem_of_nil in He. }
  destruct (raw_stream_live _ _ El Hr) as (r & _ & _ & _ & _ & Hs).
  assert (Hle : ¬ sid_lt (sid_max (streamLastID l) (max_removed (net_removes key c))) (se_ID e)).
  { destruct (last_highest l e Hs He) as [E|Hlt].
    - unfold streamLastID in *. destruct (last l) as [y|] eqn:Ey; [|apply last_None in Ey; subst; by apply elem_of_nil in He].
      cbn in E. subst y. apply sid_max_le.
    - intros Hgt. by apply (sid_max_le (streamLastID l) (max_removed (net_removes key c))), (sid_lt_trans _ (se_ID e)). }
  destruct (sid_lt_total (se_ID e) (sid_max (streamLastID l) (max_removed (net_removes key c)))) as [Hlt|[->|Hgt]].
  - by apply (sid_lt_trans _ _ _ Hlt).
  - done.
  - done.
Qed.

(** The entry is put at the end. *)
Lemma steps_stream_insert key id fields st l : healthy (st_ctx st) → raw_stream (view (st_ctx st) key) l →
  is_sid id → fields_ok fields → (∀ e, e ∈ l → sid_lt (se_ID e) id) →
  steps (emitStreamInsert key id fields) st tt (λ c',
    raw_stream (view c' key) (l ++ [mkStreamEntry id fields]) ∧ is_live (view c' key) = true ∧
    (is_live (view (st_ctx st) key) = true → re_TypeTag <$> view c' key = re_TypeTag <$> view (st_ctx st) key) ∧
    others (st_ctx st) key c').
Proof.
  intros Hh Hr Hid [Hn Hfl] Hlt.
  set (el := mkElement (encodeStreamElementID id) (Raw (encodeStreamFields fields))).
  assert (Hst : stores el (mkStreamEntry id fields)).
  { split_and!; cbn; [done| |done]. rewrite law_raw. by apply decode_encode_fields. }
  destruct (is_live (view (st_ctx st) key)) eqn:El.
  - destruct (raw_stream_live _ _ El Hr) as (r & Hv & Hc & Hna & Hf & Hs).
    eapply steps_weaken; [eapply (steps_reduce key _ [] st
      (Some (mkReducedAt INSERT_OP ORDERED (re_TypeTag r) None ∅ (re_OrderedElements r ++ [el]) (re_ExpiresAt r) ∅)) Hh)|].
    + rewrite Hv in El |- *. unfold ordered_effect, reduce. cbn [de_Collection de_Op de_Merge de_Value de_Id de_Placement de_Reference].
      rewrite El, Hc. cbn [negb]. unfold ordered_insert. cbn [el_Id]. rewrite find_id_None; [done|].
      intros Hin. apply list_elem_of_fmap in Hin as (x & Hx & Hxl).
      destruct (proj1 (list_elem_of_lookup _ _) Hxl) as [i Hi]. destruct (Forall2_lookup_l _ _ _ _ _ Hf Hi) as (e & Hel & Hse & _ & Hes).
      rewrite Hse in Hx. apply encode_id_inj in Hx; [|done|done]. subst id.
      apply (sid_lt_irrefl (se_ID e)), Hlt, list_elem_of_lookup_2 with i. done.
    + cbv beta. intros c' [Hv' Ho]. rewrite Hv'. split_and!; [|done|by rewrite Hv|done].
      unfold raw_stream. cbn [is_live re_Op re_Collection re_NetAdds re_OrderedElements]. split_and!; [done|done| |by apply sorted_snoc].
      apply Forall2_app; [done|]. by constructor.
  - rewrite (raw_stream_dead _ _ El Hr) in *. eapply steps_weaken; [by apply steps_emit|]. cbv beta. intros c' [Hv' Ho].
    destruct (law_revive_ordered key PLACE_TAIL (encodeStreamElementID id) (Raw (encodeStreamFields fields)) [] _ Hh El) as [tag Ht];
      [by right|]. rewrite Ht in Hv'. rewrite Hv'. split_and!; [|done|done|done].
    unfold raw_stream. cbn [is_live re_Op re_Collection re_NetAdds re_OrderedElements]. split_and!; [done|done| |].
    + cbn. constructor; [exact Hst|constructor].
    + unfold sorted_ids. cbn. by repeat constructor.
Qed.

(** The tag of a stream that is new. *)
Lemma steps_stream_tag key st l : healthy (st_ctx st) → raw_stream (view (st_ctx st) key) l →
  is_live (view (st_ctx st) key) = true →
  steps (emitStreamTypeTag key) st tt (λ c', is_stream (view c' key) l ∧ is_live (view c' key) = true ∧ others (st_ctx st) key c').
Proof.
  intros Hh Hr El. destruct (raw_stream_live _ _ El Hr) as (r & Hv & Hc & Hna & Hf & Hs).
  eapply steps_weaken; [eapply (steps_reduce key _ [] st (Some (set_tag TYPE_STREAM r)) Hh)|].
  - rewrite Hv. done.
  - cbv beta. intros c' [Hv' Ho]. rewrite Hv in El.
    assert (Hl : is_live (view c' key) = true) by (rewrite Hv'; exact El). split_and!; [|done|done].
    split; [|by rewrite Hv']. unfold raw_stream. rewrite Hl, Hv'. done.
Qed.

(** *** The counter of entries added *)

Definition counter (m : gmap bytes Value) (field : bytes) (fallback : Z) : Z :=
  match m !! field with
  | Some v => if len (Decompress v) =? 8 then i64 (le_get (Decompress v)) else fallback
  | None => fallback
  end.
Definition entries_field : bytes := str "entries-added".

Lemma steps_counter key field fallback st m : healthy (st_ctx st) → keyed (view (st_ctx st) (cfgKey key)) m →
  steps (getConfigCounter key field fallback) st (counter m field fallback) (same (st_ctx st)).
Proof.
  intros Hh Hk. destruct (steps_keyed_get (cfgKey key) st m Hh Hk) as (snap & tips & Hg & Hm).
  eapply steps_bind; [exact Hg|]. cbv beta iota. intros c' Hh' Hs. rewrite Hm. by apply (steps_ret _ (mkSt c' _ _)).
Qed.

Lemma counter_set m field z fallback : is_i64 z → counter (<[field := Raw (le_put 8 (u64 z))]> m) field fallback = z.
Proof.
  intros Hz. unfold counter. rewrite lookup_insert_eq, law_raw. unfold len. rewrite length_le_put. cbn [Z.of_nat].
  change (Z.of_nat 8 =? 8) with true. cbv iota. rewrite le_get_put8, i64_u64; [done|done|].
  unfold is_u64, u64, MaxUint64. pose proof (Z.mod_pos_bound z (2 ^ 64)). lia.
Qed.

(** One more entry is counted; a stream not counted before starts at one. *)
Lemma steps_count_entry key st m : healthy (st_ctx st) → keyed (view (st_ctx st) (cfgKey key)) m →
  steps (incrementStreamEntriesAdded key) st tt (λ c',
    (∃ m', keyed (view c' (cfgKey key)) m' ∧
       counter m' entries_field (-1) = i64 (Z.max (counter m entries_field (-1)) 0 + 1) ∧
       ∀ f, f ≠ entries_field → m' !! f = m !! f) ∧
    others (st_ctx st) (cfgKey key) c').
Proof.
  intros Hh Hk. eapply steps_bind; [exact (steps_counter key entries_field (-1) st m Hh Hk)|]. cbv beta.
  intros c1 Hh1 Hs1. eapply steps_weaken.
  { apply (steps_keyed_insert (cfgKey key) entries_field _ (mkSt c1 _ _) m); [done|]. cbn [st_ctx]. by rewrite Hs1. }
  cbn [st_ctx]. intros c2 [Hk2 Ho2]. split.
  - eexists. split; [exact Hk2|]. split; [apply counter_set, i64_range|].
    intros f Hf. by rewrite lookup_insert_ne.
  - intros k Hne. rewrite Ho2 by done. apply Hs1.
Qed.

(** ** XADD *)

Lemma ParseStreamID_sid s id ex sp : ParseStreamID s = Some (id, ex, sp) → is_sid id.
Proof.
  unfold ParseStreamID. destruct s as [|c s']; [done|]. destruct (_ && _); [done|].
  destruct (_ || _); [by intros [= <-]|]. destruct (beq _ (str "-")); [by intros [= <-]|].
  destruct (beq _ (str "+")); [by intros [= <-]|]. destruct (split2 _ 45) as [msPart seqPart].
  destruct (ParseUint msPart) as [ms|] eqn:Em; [|done]. apply ParseUint_range in Em.
  destruct seqPart as [p|]; [|by intros [= <-]]. destruct (beq p (str "*")); [by intros [= <-]|].
  destruct (ParseUint p) as [seq|] eqn:Es; [|done]. apply ParseUint_range in Es. by intros [= <-].
Qed.

Lemma wanted_sid now last idStr id : is_sid last → wanted_id now last idStr = Some id → is_sid id.
Proof.
  intros Hl. unfold wanted_id. destruct (beq idStr (str "*")).
  { intros [= <-]. destruct (decide (last = MaxStreamID)) as [->|Hne]; [by rewrite auto_id_max|by apply auto_id_later]. }
  destruct (ParseStreamID idStr) as [[[i ex] [|]]|] eqn:E; [| |done]; apply ParseStreamID_sid in E.
  - destruct (_ && _); [|done]. intros [= <-]. split; [apply E|]. cbn [sid_Seq]. destruct (_ =? _); [|done].
    unfold is_u64, u64, MaxUint64. pose proof (Z.mod_pos_bound (sid_Seq last + 1) (2 ^ 64)). lia.
  - by intros [= <-].
Qed.

Lemma generate_auto now s : generateStreamID now s = auto_id now (last_known s).
Proof.
  unfold generateStreamID, auto_id, sid_next. set (last := last_known s).
  destruct (Z.ltb_spec (sid_Ms last) (u64 now)); [done|]. destruct (Z.eqb_spec (u64 now) (sid_Ms last)) as [->|]; [|done].
  by destruct (sid_Seq last =? MaxUint64).
Qed.

(** The id is the wanted one, or is refused at once for not being above the last. *)
Lemma xadd_id_eq s idStr : is_sid (last_known s) →
  match wanted_id (now_ms 1) (last_known s) idStr with
  | None => xadd_id s idStr = reply (WriteError bad_id)
  | Some id => xadd_id s idStr = mret id ∨ ¬ sid_lt (last_known s) id ∧ xadd_id s idStr = reply (WriteError too_small)
  end.
Proof.
  intros Hl. unfold wanted_id, xadd_id. destruct (beq idStr (str "*")).
  { rewrite generate_auto. cbv zeta. destruct (StreamID_IsZero _) eqn:Ez; [right|by left]. split; [|done].
    rewrite (IsZero_eq _ Ez). destruct (last_known s) as [ms seq]. unfold is_sid, is_u64, sid_lt in *. cbn [sid_Ms sid_Seq] in *. lia. }
  destruct (ParseStreamID idStr) as [[[i ex] [|]]|] eqn:E; [|by left|done].
  destruct (_ && _); [|done]. unfold generateStreamIDWithMs. destruct i as [ms seq]. cbn [sid_Ms].
  destruct (Z.ltb_spec (sid_Ms (last_known s)) ms) as [Hlt|Hge].
  - left. destruct (Z.eqb_spec ms (sid_Ms (last_known s))); [lia|done].
  - destruct (Z.eqb_spec ms (sid_Ms (last_known s))) as [->|Hne]; [by left|right]. split; [|done].
    unfold sid_lt. cbn [sid_Ms sid_Seq]. lia.
Qed.

(** After XADD: the entry at the end of the stream and counted, nothing else
    changed. *)
Record added (c : Ctx) (key : bytes) (l : list StreamEntry) (m : gmap bytes Value) (e : StreamEntry) (c' : Ctx) : Prop := {
  added_stream : is_stream (view c' key) (l ++ [e]);
  added_count : ∃ m', keyed (view c' (cfgKey key)) m' ∧
    counter m' entries_field (-1) = i64 (Z.max (counter m entries_field (-1)) 0 + 1) ∧
    ∀ f, f ≠ entries_field → m' !! f = m !! f;
  added_others : ∀ k, k ≠ key → k ≠ cfgKey key → view c' k = view c k
}.

Definition untrimmed (o : XAddOpts) : Prop := to_HasMaxLen (xa_trim o) = false ∧ to_MinID (xa_trim o) = None.

Lemma steps_maybe_noop key (tips : list Tip) st : healthy (st_ctx st) →
  steps (if 0 <? len tips then emit (mkEffect key Effect_Noop) tips else mret tt) st tt (same (st_ctx st)).
Proof. intros Hh. destruct (0 <? len tips); [by apply steps_noop|by apply steps_ret]. Qed.

Lemma steps_xadd_emit key o iid fields s gen maxsize id st l m : healthy (st_ctx st) →
  xa_idmp o = false → untrimmed o → streamExists s = is_live (view (st_ctx st) key) →
  is_stream (view (st_ctx st) key) l → keyed (view (st_ctx st) (cfgKey key)) m → is_sid id → fields_ok fields →
  (∀ e, e ∈ l → sid_lt (se_ID e) id) →
  steps (xadd_emit key o iid fields s gen maxsize id) st tt (added (st_ctx st) key l m (mkStreamEntry id fields)).
Proof.
  intros Hh Hi [Ht1 Ht2] He [Hl Htag] Hm Hid Hf Hlt. unfold xadd_emit. rewrite Hi, Ht1, Ht2. cbn [andb orb].
  rewrite (bool_decide_eq_false_2 (is_Some None)) by (intros [? ?]; done).
  eapply steps_bind; [by apply steps_begin|]. cbv beta. intros c1 Hh1 Hs1.
  eapply steps_bind; [by apply steps_maybe_noop|]. cbn [st_ctx st_w st_held]. intros c2 Hh2 Hs2.
  pose proof (same_trans _ _ _ Hs1 Hs2) as Hs12.
  eapply steps_bind.
  { apply (steps_stream_insert key id fields (mkSt c2 _ _) l); [done| |done|done|done]. cbn [st_ctx]. by rewrite Hs12. }
  cbn [st_ctx st_w st_held]. intros c3 Hh3 (Hr3 & Hl3 & Ht3 & Ho3).
  assert (Hm3 : keyed (view c3 (cfgKey key)) m) by (rewrite Ho3, Hs12 by apply cfgKey_ne; done).
  eapply steps_bind; [by apply (steps_count_entry key (mkSt c3 _ _) m)|]. cbn [st_ctx st_w st_held]. intros c4 Hh4 [Hc4 Ho4].
  assert (Hk4 : view c4 key = view c3 key) by (apply Ho4; intros E; by apply (cfgKey_ne key)).
  eapply (steps_bind _ _ _ tt (λ c, is_stream (view c key) (l ++ [mkStreamEntry id fields]) ∧ others c4 key c)).
  { rewrite He. destruct (is_live (view (st_ctx st) key)) eqn:El; cbn [negb].
    - apply (steps_ret _ (mkSt c4 _ _)); [done|]. cbn [st_ctx]. split; [|done]. rewrite Hk4. split; [done|].
      intros _. rewrite Ht3; rewrite Hs12; auto.
    - eapply steps_weaken; [apply (steps_stream_tag key (mkSt c4 _ _) (l ++ [mkStreamEntry id fields])); [done|..]; cbn [st_ctx]; by rewrite Hk4|].
      cbn [st_ctx]. by intros c5 (? & _ & ?). }
  cbn [st_ctx st_w st_held]. intros c5 Hh5 [Hs5 Ho5]. eapply steps_bind; [by apply (steps_ret tt (mkSt c5 _ _) (eq c5))|].
  cbn [st_ctx st_w st_held]. intros c6 _ <-. apply (steps_ret _ (mkSt c5 _ _)); [done|]. cbn [st_ctx]. split; [done| |].
  - destruct Hc4 as (m' & Hm' & Hc & Hf'). exists m'. split_and!; [|done|done]. by rewrite Ho5 by apply cfgKey_ne.
  - intros k Hk1 Hk2. rewrite Ho5, Ho4, Ho3, Hs12 by done. done.
Qed.

Lemma last_id_sid c key l : raw_stream (view c key) l → removed_ids (net_removes key c) → is_sid (last_id c key l).
Proof.
  intros Hr Hrm. unfold last_id. destruct (is_live (view c key)) eqn:El; [|done].
  destruct (raw_stream_live _ _ El Hr) as (r & _ & _ & _ & Hf & _). destruct (last_stored _ _ Hf) as [Hs _].
  unfold sid_max. case_bool_decide; [by apply max_removed_sid|done].
Qed.

(** What the entry comes to, once the stream has been read. *)
Lemma xadd_new_spec key o idStr iid fields s st c0 l m : healthy (st_ctx st) → same c0 (st_ctx st) →
  sees_stream s c0 key l → xa_idmp o = false → untrimmed o → is_stream (view c0 key) l → is_sid (last_known s) →
  keyed (view c0 (cfgKey key)) m → fields_ok fields →
  let run := xadd_new key o idStr iid fields s 0 0 in
  match wanted_id (now_ms 1) (last_known s) idStr with
  | None => ends_as Return run st (WriteError bad_id (st_w st)) (same c0)
  | Some id =>
    if bool_decide (sid_lt (last_known s) id)
    then ends_as (Next tt) run st (WriteBulkStringStr (StreamID_String id) (st_w st)) (added c0 key l m (mkStreamEntry id fields))
    else ends_as Return run st (WriteError too_small (st_w st)) (same c0)
  end.
Proof.
  intros Hh Hsame Hse Hi Ht Hl Hsid Hm Hf run. pose proof (xadd_id_eq s idStr Hsid) as Hx.
  destruct (wanted_id (now_ms 1) (last_known s) idStr) as [id|] eqn:Ew; unfold run, xadd_new.
  2: { rewrite Hx. by apply ends_as_reply_bind. }
  pose proof (wanted_sid _ _ _ _ Hsid Ew) as Hid. destruct Hx as [Hx|[Hn Hx]].
  2: { rewrite bool_decide_eq_false_2 by done. rewrite Hx. by apply ends_as_reply_bind. }
  rewrite Hx. change (mret id ≫= ?f) with (f id). cbv beta.
  destruct (bool_decide_reflect (sid_lt (last_known s) id)) as [Hlt|Hlt].
  2: { destruct (Z.leb_spec (StreamID_Compare id (last_known s)) 0) as [|Hgt]; [by apply ends_as_reply|].
       by apply Compare_gt in Hgt. }
  destruct (Z.leb_spec (StreamID_Compare id (last_known s)) 0) as [Hle|_]; [apply Compare_gt in Hlt; lia|].
  destruct (StreamID_IsZero id) eqn:Ez.
  { rewrite (IsZero_eq _ Ez) in Hlt. destruct (last_known s) as [ms seq]. unfold is_sid, is_u64, sid_lt in *.
    cbn [sid_Ms sid_Seq] in *. lia. }
  eapply ends_as_bind.
  { apply (steps_xadd_emit key o iid fields s 0 0 id st l m); try done.
    - rewrite Hsame. apply (ss_there _ _ _ _ Hse).
    - by rewrite Hsame.
    - by rewrite Hsame.
    - intros e He. apply (last_id_above c0 key l e id (proj1 Hl) He). by rewrite <- (ss_last _ _ _ _ Hse). }
  cbv beta. intros c' Hh' [Ha1 Ha2 Ha3]. apply ends_as_write; [done|done|]. split; [done|done|].
  intros k Hk1 Hk2. cbn [st_ctx]. rewrite Ha3 by done. apply Hsame.
Qed.

(** Up to there, without IDMP. *)
Lemma xadd_body_reads key o idStr iid fields st l : healthy (st_ctx st) → xa_idmp o = false →
  (xa_noMkStream o = true → is_live (view (st_ctx st) key) = true) →
  is_stream (view (st_ctx st) key) l → removed_ids (net_removes key (st_ctx st)) →
  ∃ s, sees_stream s (st_ctx st) key l ∧ ∀ out w Q,
    (∀ c', healthy c' → same (st_ctx st) c' →
       ends_as out (xadd_new key o idStr iid fields s 0 0) (mkSt c' (st_w st) (st_held st)) w Q) →
    ends_as out (xadd_body key o idStr iid fields) st w Q.
Proof.
  intros Hh Hi Hmk Hl Hr. destruct (steps_stream_snapshot key st Hh) as [tips Hg].
  pose proof (classify_sees_stream _ _ tips _ Hl Hr) as Hse. set (s := mkStreamSnap _ _) in Hg, Hse.
  exists s. split; [done|]. intros out w Q Hgo. unfold xadd_body. eapply ends_as_bind; [exact Hg|]. cbv beta.
  intros c' Hh' Hs. rewrite (ss_type _ _ _ _ Hse), andb_false_r.
  assert (E : xa_noMkStream o && negb (streamExists s) = false).
  { destruct (xa_noMkStream o); [|done]. by rewrite (ss_there _ _ _ _ Hse), Hmk. }
  rewrite E. unfold idmp_config. rewrite Hi. cbn [andb]. by apply Hgo.
Qed.

Lemma xadd_runner_spec key o idStr iid fields st l m : healthy (st_ctx st) →
  xa_idmp o = false → untrimmed o → (xa_noMkStream o = true → is_live (view (st_ctx st) key) = true) →
  is_stream (view (st_ctx st) key) l → removed_ids (net_removes key (st_ctx st)) →
  keyed (view (st_ctx st) (cfgKey key)) m → fields_ok fields →
  let last := last_id (st_ctx st) key l in
  let run := xadd_runner key o idStr iid fields in
  match wanted_id (now_ms 1) last idStr with
  | None => finishes run st (WriteError bad_id (st_w st)) (same (st_ctx st))
  | Some id =>
    if bool_decide (sid_lt last id)
    then finishes run st (WriteBulkStringStr (StreamID_String id) (st_w st))
           (added (st_ctx st) key l m (mkStreamEntry id fields))
    else finishes run st (WriteError too_small (st_w st)) (same (st_ctx st))
  end.
Proof.
  intros Hh Hi Ht Hmk Hl Hr Hm Hf last run. unfold run, xadd_runner.
  destruct (xadd_body_reads key o idStr iid fields st l Hh Hi Hmk Hl Hr) as (s & Hse & Hgo).
  assert (Es : last_known s = last) by apply (ss_last _ _ _ _ Hse).
  assert (Hsid : is_sid (last_known s)) by (rewrite Es; apply last_id_sid; [apply Hl|done]).
  pose proof (λ c' Hh' Hs', xadd_new_spec key o idStr iid fields s (mkSt c' (st_w st) (st_held st)) (st_ctx st) l m
    Hh' Hs' Hse Hi Ht Hl Hsid Hm Hf) as Hn. cbv zeta in Hn. cbn [st_w] in Hn. rewrite Es in Hn.
  destruct (wanted_id (now_ms 1) last idStr) as [id|]; [destruct (bool_decide (sid_lt last id))|].
  - apply finishes_saved, Hgo. done.
  - eapply finishes_undone; [done|]. by apply Hgo.
  - eapply finishes_undone; [done|]. by apply Hgo.
Qed.

(** An argument that is not the name of an option. *)
Definition no_option (a : bytes) : Prop := ∀ rest o, xadd_option (ToUpper a) rest o = None.

Lemma no_option_dec a : xadd_option (ToUpper a) [] no_xadd_opts = None → no_option a.
Proof.
  unfold no_option, xadd_option. intros Ha rest o. destruct (beq (ToUpper a) (str "NOMKSTREAM")); [done|].
  destruct (ref_mode (ToUpper a)); [done|].
  destruct (beq (ToUpper a) (str "IDMP")); [done|]. destruct (beq (ToUpper a) (str "IDMPAUTO")); [done|].
  destruct (beq (ToUpper a) (str "MAXLEN")); [done|]. by destruct (beq (ToUpper a) (str "MINID")).
Qed.

Lemma handleXAdd_plain key idStr fields : no_option idStr → (2 <= length fields)%nat → len fields mod 2 = 0 →
  handleXAdd (key :: idStr :: fields) = Accept [key] (xadd_runner key no_xadd_opts idStr [] fields).
Proof.
  intros Hn Hl He. destruct fields as [|f [|v rest]]; [cbn in Hl; lia..|]. unfold handleXAdd.
  change (length (idStr :: f :: v :: rest)) with (S (length (f :: v :: rest))). cbn [xadd_opts]. rewrite Hn.
  change (xa_idmp no_xadd_opts) with false. cbn [andb]. rewrite He.
  destruct (Z.eqb_spec (len (f :: v :: rest)) 0) as [E|_]; [unfold len in E; cbn in E; lia|]. done.
Qed.

(** C36: XADD without options adds the entry under the id asked for, or one of its
    own: the reply is the id, which lies above every id the stream has had; the
    entry comes at the end and is counted; no other key changes.  An id that is
    not above the last one is refused, so is an argument that is no id, and then
    nothing changes. *)
Theorem xadd_correct (key idStr : bytes) (fields : list bytes) (st : St) (l : list StreamEntry) (m : gmap bytes Value) :
  healthy (st_ctx st) → is_stream (view (st_ctx st) key) l → removed_ids (net_removes key (st_ctx st)) →
  keyed (view (st_ctx st) (cfgKey key)) m → no_option idStr → (2 <= length fields)%nat → len fields mod 2 = 0 →
  fields_ok fields →
  let last := last_id (st_ctx st) key l in
  ∃ run, handleXAdd (key :: idStr :: fields) = Accept [key] run ∧
    match wanted_id (now_ms 1) last idStr with
    | None => finishes run st (WriteError bad_id (st_w st)) (same (st_ctx st))
    | Some id =>
      if bool_decide (sid_lt last id)
      then finishes run st (WriteBulkStringStr (StreamID_String id) (st_w st))
             (added (st_ctx st) key l m (mkStreamEntry id fields))
      else finishes run st (WriteError too_small (st_w st)) (same (st_ctx st))
    end ∧
    (last ≠ MaxStreamID → ∀ id, wanted_id (now_ms 1) last (str "*") = Some id → sid_lt last id).
Proof.
  intros Hh Hl Hr Hm Hn Hlen Heven Hf last. eexists. split; [by apply handleXAdd_plain|]. split.
  - by apply (xadd_runner_spec key no_xadd_opts idStr [] fields st l m).
  - intros Hne id [= <-]. apply auto_id_later; [|done]. apply last_id_sid; [apply Hl|done].
Qed.

(** ** Ranges *)

Lemma range_count_nonneg opts count : range_count opts = Ok count → 0 <= count.
Proof.
  unfold range_count, parse_count. destruct opts as [|a [|n opts]]; [by intros [= <-]|by intros [= <-]|].
  destruct (beq _ _); [|done]. destruct (Atoi n) as [c|]; [|done]. destruct (Z.ltb_spec c 0); [done|]. by intros [= <-].
Qed.

Lemma finishes_xrange key (start end_ : StreamID) (sx ex : bool) count opts range st l found : healthy (st_ctx st) →
  is_stream (view (st_ctx st) key) l → removed_ids (net_removes key (st_ctx st)) →
  range_count opts = Ok count → range l start end_ sx ex count = found →
  (l = [] → found = []) →
  finishes (read_stream key (WriteArray 0) (λ s, write (writeStreamEntries (range (snap_entries s) start end_ sx ex count))))
    st (writeStreamEntries found (st_w st)) (same (st_ctx st)).
Proof.
  intros Hh Hl Hr Hc Hf Hz. eapply finishes_read_stream; [done|exact Hl|done| |].
  - intros El. rewrite Hz; [done|]. by apply (raw_stream_dead _ _ El (proj1 Hl)).
  - intros s c' Hse Hh' Hs _. apply finishes_write; [done| |done]. by rewrite (ss_list _ _ _ _ Hse), Hf.
Qed.

(** XRANGE answers with the entries whose ids lie between the bounds, each
    bound in or out of the range as it was given, in the order of their ids and no
    more than COUNT of them; XREVRANGE with the same entries from the other end;
    XLEN with the number of all entries.  None of them changes a key. *)
Theorem xrange_correct (key startStr endStr : bytes) (opts : list bytes) (start end_ : StreamID) (sx ex : bool) (count : Z)
    (st : St) (l : list StreamEntry) :
  healthy (st_ctx st) → is_stream (view (st_ctx st) key) l → removed_ids (net_removes key (st_ctx st)) →
  ParseStreamIDForRange startStr false = Some (start, sx) → ParseStreamIDForRange endStr true = Some (end_, ex) →
  range_count opts = Ok count →
  let found := filter (λ e, in_range start end_ sx ex e = true) l in
  ∃ run rev_run len_run,
    handleXRange (key :: startStr :: endStr :: opts) = Accept [key] run ∧
    handleXRevRange (key :: endStr :: startStr :: opts) = Accept [key] rev_run ∧
    handleXLen [key] = Accept [key] len_run ∧
    finishes run st (writeStreamEntries (upto count found) (st_w st)) (same (st_ctx st)) ∧
    finishes rev_run st (writeStreamEntries (upto count (reverse found)) (st_w st)) (same (st_ctx st)) ∧
    finishes len_run st (WriteInteger (len l) (st_w st)) (same (st_ctx st)).
Proof.
  intros Hh Hl Hr Hs He Hc found. pose proof (range_count_nonneg _ _ Hc) as Hc0.
  assert (Hsort : sorted_ids l).
  { destruct (is_live (view (st_ctx st) key)) eqn:El; [|rewrite (raw_stream_dead _ _ El (proj1 Hl)); constructor].
    by destruct (raw_stream_live _ _ El (proj1 Hl)) as (r & _ & _ & _ & _ & ?). }
  unfold handleXRange, handleXRevRange, xrange_prep. rewrite Hc, Hs, He. eexists _, _, _. split_and!; try reflexivity.
  - eapply finishes_xrange; [done|exact Hl|done|done|by apply rangeEntries_spec|]. intros ->. apply upto_nil.
  - eapply finishes_xrange; [done|exact Hl|done|done|by apply rangeEntriesReverse_spec|]. intros ->. apply upto_nil.
  - eapply finishes_read_stream; [done|exact Hl|done| |].
    + intros El. by rewrite (raw_stream_dead _ _ El (proj1 Hl)).
    + intros s c' Hse Hh' Hsm _. apply finishes_write; [done| |done]. by rewrite (ss_len _ _ _ _ Hse).
Qed.
End StreamTheorems.

(** * Deleting from a stream

    XDEL, and what XADD trims. *)


(** The entries but those of the ids. *)
Definition without_ids (ids : list StreamID) (l : list StreamEntry) : list StreamEntry :=
  filter (λ e, se_ID e ∉ ids) l.

Lemma without_ids_nil l : without_ids [] l = l.
Proof. apply filter_id. intros e _. apply not_elem_of_nil. Qed.

Lemma without_ids_cons id ids l : without_ids ids (without_ids [id] l) = without_ids (id :: ids) l.
Proof.
  unfold without_ids. induction l as [|e l IH]; [done|].
  destruct (decide (se_ID e ∈ [id])) as [Hin|Hout].
  - rewrite filter_cons_False by (intros Hn; by apply Hn). rewrite (filter_cons_False _ e l) by (intros Hn; set_solver). done.
  - rewrite filter_cons_True by done. destruct (decide (se_ID e ∈ ids)).
    + rewrite !filter_cons_False by set_solver. done.
    + rewrite !filter_cons_True by set_solver. by rewrite IH.
Qed.

Lemma without_ids_twice id l : without_ids [id] (without_ids [id] l) = without_ids [id] l.
Proof.
  rewrite without_ids_cons. unfold without_ids. apply list_filter_iff. intros e. set_solver.
Qed.

Lemma sorted_filter P `{!∀ e, Decision (P e)} l : sorted_ids l → sorted_ids (filter P l).
Proof.
  unfold sorted_ids. induction l as [|e l IH]; [done|]. intros Hs. apply sorted_cons in Hs as [Hs Hx].
  rewrite filter_cons. destruct (decide (P e)); [|by apply IH]. rewrite fmap_cons. constructor; [by apply IH|].
  rewrite Forall_fmap, Forall_forall in *. intros x Hin. apply list_elem_of_filter in Hin as [_ Hin]. by apply Hx.
Qed.

Section StreamDeletes.
Context `{StreamLaws} `{!NetRemoves} `{RangeOrder} `{StreamClock} `{NodeMaxEntries} `{PairSort}.

Lemma stores_without els l id : Forall2 stores els l → is_sid id →
  Forall2 stores (filter (λ e, el_Id e ≠ encodeStreamElementID id) els) (without_ids [id] l).
Proof.
  unfold without_ids. intros Hf Hid. induction Hf as [|el e els l Hs Hf IH]; [constructor|]. destruct Hs as (Ei & Ed & Es).
  destruct (decide (se_ID e = id)) as [E|Hne].
  - rewrite !filter_cons_False; [done|set_solver|]. rewrite Ei, E. intros Hn. by apply Hn.
  - rewrite !filter_cons_True; [by constructor|set_solver|]. rewrite Ei. intros Hc. apply Hne. by apply encode_id_inj.
Qed.

(** After it the key is the stream [l] and nothing else has changed. *)
Definition stream_set (c : Ctx) (key : bytes) (l : list StreamEntry) (c' : Ctx) : Prop :=
  is_stream (view c' key) l ∧ others c key c'.

Lemma stream_set_trans c key l c' l' c'' : stream_set c key l c' → stream_set c' key l' c'' → stream_set c key l' c''.
Proof. intros [_ Ho] [Hl' Ho']. split; [done|by eapply others_trans]. Qed.

Lemma steps_stream_remove key id st l : healthy (st_ctx st) → is_stream (view (st_ctx st) key) l → is_sid id →
  steps (emitStreamRemove key id) st tt (stream_set (st_ctx st) key (without_ids [id] l)).
Proof.
  intros Hh [Hl Ht] Hid. eapply steps_weaken; [by apply steps_emit|]. cbv beta. intros c' [Hv Ho]. split; [|done].
  destruct (is_live (view (st_ctx st) key)) eqn:El.
  - destruct (raw_stream_live _ _ El Hl) as (r & Er & Hc & Hna & Hf & Hs).
    pose proof (stores_without _ _ _ Hf Hid) as Hf'. pose proof (sorted_filter (λ e, se_ID e ∉ [id]) l Hs) as Hs'.
    destruct (law_stream_remove key (encodeStreamElementID id) [] _ r Hh Er El Hc) as [Hw|[Hempty Hdead]].
    + rewrite Hw in Hv. rewrite Hv. split; [done|]. intros _. specialize (Ht eq_refl). rewrite Er in Ht.
      cbn in Ht |- *. by injection Ht as ->.
    + rewrite Hempty in Hf'. apply Forall2_nil_inv_l in Hf' as ->. unfold is_stream, raw_stream. rewrite Hv, Hdead. done.
  - rewrite (raw_stream_dead _ _ El Hl). pose proof (law_stream_remove_dead key (encodeStreamElementID id) [] _ Hh El) as Hd.
    unfold is_stream, raw_stream. rewrite Hv, Hd. done.
Qed.

Lemma steps_remove_twice key id st l : healthy (st_ctx st) → is_stream (view (st_ctx st) key) l → is_sid id →
  steps (remove_twice key id) st tt (stream_set (st_ctx st) key (without_ids [id] l)).
Proof.
  intros Hh Hl Hid. eapply steps_bind; [by apply steps_stream_remove|]. cbn [st_ctx st_w st_held]. intros c1 Hh1 H1'.
  eapply steps_weaken; [apply (steps_stream_remove key id (mkSt c1 _ _)); [done|apply H1'|done]|].
  cbn [st_ctx]. intros c2 H2'. rewrite without_ids_twice in H2'. by eapply stream_set_trans.
Qed.

(** A step that takes one id out, over a list of ids. *)
Lemma steps_remove_ids key (f : StreamID → M unit) ids st l :
  (∀ id st l, id ∈ ids → healthy (st_ctx st) → is_stream (view (st_ctx st) key) l →
     steps (f id) st tt (stream_set (st_ctx st) key (without_ids [id] l))) →
  healthy (st_ctx st) → is_stream (view (st_ctx st) key) l →
  steps (for_each ids f) st tt (stream_set (st_ctx st) key (without_ids ids l)).
Proof.
  revert st l. induction ids as [|id ids IH]; intros st l Hf Hh Hl.
  - rewrite without_ids_nil. by apply steps_ret.
  - cbn [for_each]. eapply steps_bind; [by apply Hf; [left|..]|]. cbv beta. intros c1 Hh1 H1'.
    eapply steps_weaken; [apply (IH (mkSt c1 _ _)); [|done|apply H1']|].
    + intros id' st' l' Hin. apply Hf. by right.
    + cbn [st_ctx]. intros c2 H2'. rewrite without_ids_cons in H2'. by eapply stream_set_trans.
Qed.

(** ** XDEL *)

Lemma in_stream_spec l id : Forall (λ e, is_sid (se_ID e)) l → is_sid id → in_stream l id = true ↔ id ∈ se_ID <$> l.
Proof.
  intros Hl Hid. unfold in_stream. rewrite existsb_exists, list_elem_of_fmap. rewrite Forall_forall in Hl. split.
  - intros (e & He & Hb). apply list_elem_of_In in He. exists e. split; [|done].
    apply beq_true in Hb. symmetry. apply encode_id_inj; [by apply Hl|done|done].
  - intros (e & -> & He). exists e. split; [by apply list_elem_of_In|]. apply beq_refl.
Qed.

Lemma raw_stream_sids v l : raw_stream v l → Forall (λ e, is_sid (se_ID e)) l.
Proof.
  unfold raw_stream. destruct (is_live v); [|by intros ->]. destruct v as [r|]; [|done]. intros (_ & _ & Hf & _).
  induction Hf as [|el e els l (_ & _ & Hs) _ IH]; by constructor.
Qed.

Lemma parse_ids_sid args ids : parse_ids args = Some ids → Forall is_sid ids.
Proof.
  unfold parse_ids. revert ids. induction args as [|a args IH]; intros ids; cbn; [by intros [= <-]|].
  destruct (ParseStreamID a) as [[[id ex] [|]]|] eqn:E; [done| |done]. cbn.
  destruct (mapM _ args) as [rest|]; [|done]. cbn. intros [= <-]. constructor; [by eapply ParseStreamID_sid|by apply IH].
Qed.

Lemma without_present ids (l : list StreamEntry) :
  without_ids (filter (λ id, id ∈ se_ID <$> l) ids) l = without_ids ids l.
Proof.
  apply filter_ext_in. intros e He. rewrite list_elem_of_filter.
  assert (se_ID e ∈ se_ID <$> l) by (by apply list_elem_of_fmap_2). tauto.
Qed.

(** XDEL takes out of the stream exactly the entries whose ids are named and
    leaves the others in their order; it answers with how many of its arguments
    name an entry, and touches no other key. *)
Theorem xdel_correct (key : bytes) (args : list bytes) (ids : list StreamID) (st : St) (l : list StreamEntry) :
  healthy (st_ctx st) → is_stream (view (st_ctx st) key) l → removed_ids (net_removes key (st_ctx st)) →
  args ≠ [] → parse_ids args = Some ids →
  ∃ run, handleXDel (key :: args) = Accept [key] run ∧
    finishes run st (WriteInteger (len (filter (λ id, id ∈ se_ID <$> l) ids)) (st_w st))
      (stream_set (st_ctx st) key (without_ids ids l)).
Proof.
  intros Hh Hl Hr Hne Hp. exists (xdel_runner key ids). split.
  { unfold handleXDel. destruct args as [|a args]; [done|]. by rewrite Hp. }
  pose proof (parse_ids_sid _ _ Hp) as Hids. pose proof (raw_stream_sids _ _ (proj1 Hl)) as Hsids.
  assert (Hfilter : filter (λ id, in_stream l id = true) ids = filter (λ id, id ∈ se_ID <$> l) ids).
  { clear Hp. induction Hids as [|id ids Hid _ IH]; [done|]. rewrite !filter_cons, IH.
    pose proof (in_stream_spec l id Hsids Hid) as Hi. by destruct (decide (in_stream l id = true)), (decide (id ∈ se_ID <$> l)); try tauto. }
  eapply finishes_read_stream; [done|exact Hl|done| |].
  { intros El. pose proof (raw_stream_dead _ _ El (proj1 Hl)) as ->.
    assert (E : filter (λ id : StreamID, id ∈ se_ID <$> []) ids = []).
    { apply filter_none. intros id _. by apply not_elem_of_nil. }
    rewrite E. split; [done|]. intros c' Hs. split; [|by apply others_same]. rewrite Hs.
    exact Hl. }
  intros s c' Hse Hh' Hs El. rewrite (ss_list _ _ _ _ Hse), Hfilter. cbv zeta.
  set (gone := filter (λ id, id ∈ se_ID <$> l) ids). rewrite <- (without_present ids l). fold gone.
  destruct (Z.eqb_spec (len gone) 0) as [E0|_].
  { assert (Hg : gone = []) by (destruct gone; [done|unfold len in E0; cbn in E0; lia]). rewrite E0, Hg.
    apply finishes_reply; [done|done|]. rewrite without_ids_nil. split; [by rewrite Hs|by apply others_same]. }
  eapply finishes_bind; [by apply steps_begin_same|]. cbn [st_ctx st_w st_held]. intros c2 Hh2 Hs2.
  pose proof (same_trans _ _ _ Hs Hs2) as Hs12.
  eapply finishes_bind.
  { apply (steps_remove_ids key (remove_twice key) gone (mkSt c2 _ _) l); [|done|by cbn [st_ctx]; rewrite Hs12].
    intros id st' l' Hin Hh3 Hl3. apply steps_remove_twice; [done|done|]. rewrite Forall_forall in Hids.
    apply Hids. by apply list_elem_of_filter in Hin as [_ ?]. }
  cbn [st_ctx st_w st_held]. intros c3 Hh3 [Hl3 Ho3]. apply finishes_write; [done|done|]. split; [done|].
  eapply others_trans; [by apply others_same|done].
Qed.
End StreamDeletes.
