(* ===== verification/StreamXTrim.v ===== *)
(** * Trimming

    What MAXLEN and MINID remove, in XADD, which goes through the entries, and in
    XTRIM, which rebuilds a stream value with its ordered index: both take the
    same number of entries from the front. *)

From S2P Require Import Prelude GoBytes Strconv Floats Commands Writer Engine Runs Sets Strings Hashes HashTheorems Lists ListProps StreamIds Streams StreamCommands StreamReads StreamProps StreamTheorems.

Local Open Scope Z_scope.

(** ** How many entries go *)

Definition below (m : StreamID) (l : list StreamEntry) : list StreamEntry := filter (λ e, sid_lt (se_ID e) m) l.

(** One strategy is given, MINID or MAXLEN. *)
Definition one_strategy (o : TrimOptions) : Prop := to_MinID o = None ∨ to_HasMaxLen o = false.

Definition trim_number (o : TrimOptions) (l : list StreamEntry) : Z :=
  let limit := trim_limit o (len l) in
  match to_MinID o with
  | Some m => Z.max 0 (Z.min limit (len (below m l)))
  | None => if to_HasMaxLen o then Z.min (len l) (Z.max 0 (to_trim o limit 0 (len l))) else 0
  end.

Lemma below_le m l : len (below m l) <= len l.
Proof. unfold len, below. pose proof (length_filter (λ e, sid_lt (se_ID e) m) l). lia. Qed.

Lemma trim_number_range o l : 0 <= trim_number o l <= len l.
Proof.
  unfold trim_number. assert (0 <= len l) by (unfold len; lia).
  destruct (to_MinID o) as [m|]; [|destruct (to_HasMaxLen o); lia].
  pose proof (below_le m l). assert (0 <= len (below m l)) by (unfold len; lia). lia.
Qed.

(** Exact trimming: all but the newest [MaxLen] entries, or all below the id. *)
Lemma trim_number_exact_maxlen o l : to_MinID o = None → to_HasMaxLen o = true → to_Approx o = false → to_Limit o = 0 →
  0 <= to_MaxLen o → is_i64 (len l) → is_i64 (to_MaxLen o) → trim_number o l = Z.max 0 (len l - to_MaxLen o).
Proof.
  intros Hm Hx Ha Hlim H0 Hl Hmx. unfold trim_number, to_trim, trim_limit, effective_maxlen. rewrite Hm, Hx, Ha, Hlim.
  cbn [negb andb Z.eqb]. rewrite i64_id by (unfold is_i64, MinInt64, MaxInt64 in *; unfold len in *; lia).
  unfold len in *. destruct (Z.ltb_spec 0 (Z.of_nat (length l) - to_MaxLen o)); [|lia].
  destruct (Z.ltb_spec (Z.of_nat (length l) - 0) (Z.of_nat (length l) - to_MaxLen o)); lia.
Qed.

Lemma trim_number_exact_minid o l m : to_MinID o = Some m → to_Approx o = false → to_Limit o = 0 →
  trim_number o l = len (below m l).
Proof.
  intros Hm Ha Hlim. unfold trim_number, trim_limit. rewrite Hm, Ha, Hlim. cbn [negb andb Z.eqb].
  pose proof (below_le m l). assert (0 <= len (below m l)) by (unfold len; lia). lia.
Qed.

(** With ~ no more than exact trimming removes, as long as the length rounded up to
    whole nodes stays in range. *)
Lemma trim_number_approx o l : to_MinID o = None → to_HasMaxLen o = true → 0 < to_NodeSize o → 0 <= to_Limit o →
  0 <= to_MaxLen o → is_i64 (to_MaxLen o + to_NodeSize o) → is_i64 (len l) →
  trim_number o l <= Z.max 0 (len l - to_MaxLen o).
Proof.
  intros Hm Hx Hn Hlim H0 Hr Hl. unfold trim_number, to_trim, effective_maxlen. rewrite Hm, Hx.
  set (M := to_MaxLen o) in *. set (N := to_NodeSize o) in *. assert (0 <= len l) by (unfold len; lia).
  set (limit := trim_limit o (len l)).
  assert (He : ∀ eff, M <= eff → is_i64 (len l - eff) →
    let t := i64 (len l - eff) in
    let t' := if 0 <? t then let t1 := if limit - 0 <? t then limit - 0 else t in
                if to_Approx o && to_HasExplicitLimit o && (0 <? N) then Z.quot t1 N * N else t1
              else t in Z.min (len l) (Z.max 0 t') <= Z.max 0 (len l - M)).
  { intros eff Heff Hi. cbv zeta. rewrite i64_id by done. destruct (Z.ltb_spec 0 (len l - eff)); [|lia].
    set (t1 := if limit - 0 <? len l - eff then limit - 0 else len l - eff).
    assert (t1 <= len l - eff) by (unfold t1; destruct (Z.ltb_spec (limit - 0) (len l - eff)); lia).
    destruct (_ && _); [|lia]. destruct (Z.le_gt_cases 0 t1).
    - rewrite Z.quot_div_nonneg by lia. pose proof (Z.mul_div_le t1 N Hn). lia.
    - assert (Z.quot t1 N <= 0); [|nia]. rewrite <- (Z.opp_involutive t1), Z.quot_opp_l by lia.
      pose proof (Z.quot_pos (- t1) N ltac:(lia) Hn). lia. }
  unfold is_i64, MinInt64, MaxInt64 in *. destruct (to_Approx o) eqn:Ea; cbn [andb] in *.
  - destruct (Z.ltb_spec 0 N); [|lia]. rewrite (i64_id (M + N - 1)) by (unfold is_i64, MinInt64, MaxInt64; lia).
    rewrite Z.quot_div_nonneg by lia. pose proof (Z.mul_div_le (M + N - 1) N Hn).
    pose proof (Z.div_mod (M + N - 1) N ltac:(lia)). pose proof (Z.mod_pos_bound (M + N - 1) N Hn).
    rewrite (i64_id (_ / N * N)) by (unfold is_i64, MinInt64, MaxInt64; nia).
    apply He; [nia|]. nia.
  - apply He; lia.
Qed.

(** ** Taking entries from the front *)

Lemma below_cons_in m e l : sid_lt (se_ID e) m → below m (e :: l) = e :: below m l.
Proof. intros Hlt. unfold below. by rewrite filter_cons_True. Qed.

Lemma below_cons_out m e l : sorted_ids (e :: l) → ¬ sid_lt (se_ID e) m → below m (e :: l) = [].
Proof.
  intros [Hs Hx]%sorted_cons Hn. unfold below. rewrite filter_cons_False by done.
  induction l as [|x l IH]; [done|]. apply Forall_cons in Hx as [Hx1 Hx2]. rewrite filter_cons_False; [|].
  - apply sorted_cons in Hs as [Hs _]. by apply IH.
  - intros Hlt. by apply Hn, (sid_lt_trans _ (se_ID x)).
Qed.

Lemma below_prefix m l : sorted_ids l → below m l = take (length (below m l)) l.
Proof.
  induction l as [|e l IH]; intros Hs; [done|]. destruct (decide (sid_lt (se_ID e) m)) as [Hlt|Hn].
  - rewrite below_cons_in by done. cbn [length take]. f_equal. apply IH. by apply sorted_cons in Hs as [? _].
  - by rewrite below_cons_out.
Qed.

(** In a sorted list the ids differ, so removing those of a prefix leaves the rest. *)
Lemma without_take n l : sorted_ids l → without_ids (se_ID <$> take n l) l = drop n l.
Proof.
  revert n. induction l as [|e l IH]; intros n Hs; [by rewrite take_nil, drop_nil|].
  apply sorted_cons in Hs as [Hs Hx]. destruct n as [|n]; [by rewrite without_ids_nil|].
  cbn [take drop]. rewrite fmap_cons. rewrite <- (IH n Hs). unfold without_ids.
  rewrite filter_cons_False by (intros Hn; apply Hn; by left).
  rewrite Forall_forall in Hx.
  assert (Hne : ∀ x, x ∈ l → se_ID x ≠ se_ID e) by (intros x Hin E; apply (sid_lt_irrefl (se_ID e)); rewrite <- E at 2; by apply Hx).
  apply filter_ext_in. intros x Hx'. rewrite not_elem_of_cons. specialize (Hne x Hx'). tauto.
Qed.

Section StreamTrimProps.
Context `{StreamLaws} `{!NetRemoves} `{RangeOrder} `{StreamClock} `{NodeMaxEntries} `{PairSort}.

Definition trim_each (key : bytes) (l : list StreamEntry) : M unit :=
  for_each l (λ e, trim_one key RefModeKeepRef (se_ID e)).

(** Where references are kept the loops remove a prefix. *)
Lemma trim_minid_eq key limit m k entries st : sorted_ids entries →
  trim_minid key RefModeKeepRef limit m k entries st =
  (_ ← trim_each key (take (Z.to_nat (limit - k)) (below m entries));
   mret (k + len (take (Z.to_nat (limit - k)) (below m entries)))) st.
Proof.
  revert k st. induction entries as [|e es IH]; intros k st Hs.
  { cbn. rewrite take_nil. unfold mbind, M_bind. cbn. by rewrite Z.add_0_r. }
  cbn [trim_minid]. destruct (Z.leb_spec limit k).
  { replace (Z.to_nat (limit - k)) with 0%nat by lia. cbn. unfold mbind, M_bind. cbn. by rewrite Z.add_0_r. }
  destruct (Z.leb_spec 0 (StreamID_Compare (se_ID e) m)) as [Hge|Hlt].
  { rewrite below_cons_out; [|done|intros Hlt%Compare_lt; lia]. rewrite take_nil. cbn. unfold mbind, M_bind. cbn. by rewrite Z.add_0_r. }
  apply Compare_lt in Hlt. rewrite below_cons_in by done. apply sorted_cons in Hs as [Hs _].
  replace (Z.to_nat (limit - k)) with (S (Z.to_nat (limit - (k + 1)))) by lia. cbn [take].
  change (canTrim key RefModeKeepRef (se_ID e)) with (mret true : M bool).
  change ((mret true : M bool) ≫= ?f) with (f true). cbv beta. cbn [negb]. unfold trim_each. cbn [for_each].
  unfold mbind, M_bind. destruct (trim_one key RefModeKeepRef (se_ID e) st) as [[[]| | |] st'] eqn:E; try done.
  rewrite IH by done. unfold trim_each, mbind, M_bind. unfold len. cbn [length].
  destruct (for_each _ _ st') as [[[]| | |] st'']; try done. unfold mret, M_ret. do 2 f_equal. lia.
Qed.

Lemma trim_maxlen_eq key toTrim k entries st :
  trim_maxlen key RefModeKeepRef None toTrim k entries st = trim_each key (take (Z.to_nat (toTrim - k)) entries) st.
Proof.
  revert k st. induction entries as [|e es IH]; intros k st; [by rewrite take_nil|].
  cbn [trim_maxlen]. destruct (Z.leb_spec toTrim k); [by replace (Z.to_nat (toTrim - k)) with 0%nat by lia|].
  replace (Z.to_nat (toTrim - k)) with (S (Z.to_nat (toTrim - (k + 1)))) by lia. cbn [take].
  change (canTrim key RefModeKeepRef (se_ID e)) with (mret true : M bool).
  change ((mret true : M bool) ≫= ?f) with (f true). cbv beta. cbn [negb]. unfold trim_each. cbn [for_each].
  unfold mbind, M_bind. destruct (trim_one key RefModeKeepRef (se_ID e) st) as [[[]| | |] st'] eqn:E; [by apply IH|done..].
Qed.

Lemma for_each_fmap {A B} (g : A → B) (f : B → M unit) l : for_each l (λ x, f (g x)) = for_each (g <$> l) f.
Proof. induction l as [|x l IH]; [done|]. cbn. by rewrite IH. Qed.

Lemma steps_trim_each key n st l : healthy (st_ctx st) → is_stream (view (st_ctx st) key) l → sorted_ids l →
  steps (trim_each key (take n l)) st tt (stream_set (st_ctx st) key (drop n l)).
Proof.
  intros Hh Hl Hs. unfold trim_each. rewrite (for_each_fmap se_ID (trim_one key RefModeKeepRef)).
  rewrite <- (without_take n l Hs). apply steps_remove_ids; [|done|done].
  intros id st' l' Hin Hh' Hl'. pose proof (raw_stream_sids _ _ (proj1 Hl)) as Hsid. rewrite Forall_forall in Hsid.
  apply list_elem_of_fmap in Hin as (e & -> & He). eapply steps_bind.
  { apply steps_stream_remove; [done|done|]. apply Hsid. eapply elem_of_submseteq; [exact He|].
    apply sublist_submseteq, sublist_take. }
  cbv beta. intros c' Hc' Hset. by apply (steps_ret tt (mkSt c' _ _)).
Qed.

Lemma is_stream_sorted v l : is_stream v l → sorted_ids l.
Proof.
  intros [Hr _]. unfold raw_stream in Hr. destruct (is_live v); [|subst; constructor]. destruct v; [|done]. apply Hr.
Qed.

(** What XADD trims. *)
Lemma steps_trimEntries key o st l : healthy (st_ctx st) → is_stream (view (st_ctx st) key) l →
  to_RefMode o = RefModeKeepRef → one_strategy o →
  steps (trimEntries key l o) st tt (stream_set (st_ctx st) key (drop (Z.to_nat (trim_number o l)) l)).
Proof.
  intros Hh Hl Hm Hone. pose proof (is_stream_sorted _ _ Hl) as Hs.
  assert (Hid : steps (mret tt : M unit) st tt (stream_set (st_ctx st) key l)) by (apply steps_ret; [done|by split]).
  unfold trimEntries, trim_number. rewrite Hm. destruct (Z.eqb_spec (len l) 0) as [E0|Hne].
  { assert (E : l = []) by (destruct l; [done|unfold len in E0; cbn in E0; lia]). subst l. by rewrite drop_nil. }
  cbv zeta. set (limit := trim_limit o (len l)). destruct (to_MinID o) as [m|] eqn:Em.
  - destruct Hone as [Hc|Hx]; [congruence|]. rewrite Hx.
    eapply (steps_bind _ _ _ _ (stream_set (st_ctx st) key (drop (Z.to_nat (Z.max 0 (Z.min limit (len (below m l))))) l))).
    + unfold steps. rewrite trim_minid_eq by done. rewrite Z.sub_0_r, (below_prefix m l Hs), take_take.
      replace (Z.to_nat limit `min` length (below m l))%nat with (Z.to_nat (Z.max 0 (Z.min limit (len (take (length (below m l)) l))))).
      2: { rewrite <- (below_prefix m l Hs). unfold len. lia. }
      eapply steps_bind; [by apply steps_trim_each|]. cbv beta. intros c' Hc' Hset. by apply (steps_ret _ (mkSt c' _ _)).
    + cbv beta. intros c' Hc' Hset. by apply (steps_ret _ (mkSt c' _ _)).
  - change (mret 0 ≫= ?f) with (f 0). cbv beta. destruct (to_HasMaxLen o); [|done].
    rewrite Z.sub_0_r. set (t := to_trim o limit 0 (len l)). destruct (Z.ltb_spec 0 t) as [Ht|Ht].
    + unfold steps. rewrite trim_maxlen_eq, Z.sub_0_r.
      assert (E : take (Z.to_nat t) l = take (Z.to_nat (Z.min (len l) (Z.max 0 t))) l).
      { destruct (Z.le_gt_cases t (len l)); [by rewrite Z.min_r, Z.max_r by lia|].
        rewrite Z.min_l by lia. unfold len in *. rewrite !take_ge by lia. done. }
      rewrite E. by apply steps_trim_each.
    + replace (Z.to_nat (Z.min (len l) (Z.max 0 t))) with 0%nat by (unfold len in *; lia). done.
Qed.
End StreamTrimProps.

(** * XTRIM

    The ordered index of a stream value as its keys in order, [Trim] on it, and
    the command.  The index is the engine's; what is relied on is that it is a set
    of keys walked in lexicographic order. *)


Definition bytes_lt (a b : bytes) : Prop := blt a b = true.
#[global] Instance bytes_lt_dec a b : Decision (bytes_lt a b) := decide (blt a b = true).

Class KeyTrieLaws `{KeyTrie} := {
  trie_keys : KeyIndex → list bytes;
  law_trie_sorted t : StronglySorted bytes_lt (trie_keys t);
  law_trie_new : trie_keys keytrie_New = [];
  law_trie_insert k t x : x ∈ trie_keys (trie_Insert k t) ↔ x = k ∨ x ∈ trie_keys t;
  law_trie_delete k t x : x ∈ trie_keys (trie_Delete k (trie_Contains k t) t) ↔ x ≠ k ∧ x ∈ trie_keys t;
  law_trie_size t : trie_Size t = len (trie_keys t);
  law_trie_first t : trie_First t = head (trie_keys t);
  law_trie_next k t : trie_Next k t = head (filter (bytes_lt k) (trie_keys t))
}.

(** ** Sorted lists of keys *)

Lemma bytes_lt_irrefl a : ¬ bytes_lt a a.
Proof. unfold bytes_lt. by rewrite blt_irrefl. Qed.
Lemma bytes_lt_asym a b : bytes_lt a b → ¬ bytes_lt b a.
Proof. unfold bytes_lt. intros Hab%blt_asym. by rewrite Hab. Qed.

(** Sorted lists with the same keys are the same. *)
Lemma sorted_keys_unique l1 l2 : StronglySorted bytes_lt l1 → StronglySorted bytes_lt l2 → (∀ x, x ∈ l1 ↔ x ∈ l2) → l1 = l2.
Proof.
  revert l2. induction l1 as [|a l1 IH]; intros [|b l2] H1 H2 Hin; [done| | |].
  - exfalso. apply (not_elem_of_nil b), Hin. by left.
  - exfalso. apply (not_elem_of_nil a), Hin. by left.
  - apply StronglySorted_inv in H1 as [H1 F1]. apply StronglySorted_inv in H2 as [H2 F2]. rewrite Forall_forall in F1, F2.
    assert (E : a = b).
    { assert (Ha : a ∈ b :: l2) by (apply Hin; by left). assert (Hb : b ∈ a :: l1) by (apply Hin; by left).
      apply elem_of_cons in Ha as [?|Ha]; [done|]. apply elem_of_cons in Hb as [?|Hb]; [done|].
      exfalso. apply (bytes_lt_asym a b); auto. }
    subst b. f_equal. apply IH; [done|done|]. intros x. specialize (Hin x). rewrite !elem_of_cons in Hin. split; intros Hx.
    + destruct (proj1 Hin (or_intror Hx)) as [->|]; [|done]. by apply F1, bytes_lt_irrefl in Hx.
    + destruct (proj2 Hin (or_intror Hx)) as [->|]; [|done]. by apply F2, bytes_lt_irrefl in Hx.
Qed.

(** The key after one of a sorted list. *)
Lemma next_in pre k suf : StronglySorted bytes_lt (pre ++ k :: suf) → filter (bytes_lt k) (pre ++ k :: suf) = suf.
Proof.
  induction pre as [|a pre IH]; rewrite ?app_nil_l, <- ?app_comm_cons; intros Hs.
  - apply StronglySorted_inv in Hs as [Hs Hf]. rewrite filter_cons_False by apply bytes_lt_irrefl.
    clear Hs. induction Hf as [|x l Hx _ IHf]; [done|]. by rewrite filter_cons_True, IHf.
  - apply StronglySorted_inv in Hs as [Hs Hf]. rewrite filter_cons_False; [by apply IH|].
    rewrite Forall_forall in Hf. apply bytes_lt_asym, Hf. set_solver.
Qed.

(** ** Stream values *)
Section XTrim.
Context `{KeyTrieLaws}.

(** A stream value that holds the entries [l]. *)
Record stands_for (s : StreamValue) (l : list StreamEntry) : Prop := {
  sf_sorted : sorted_ids l;
  sf_sids : Forall (λ e, is_sid (se_ID e)) l;
  sf_index : trie_keys (sv_Index s) = (λ e, StreamID_Key (se_ID e)) <$> l;
  sf_entries e : e ∈ l → sv_Entries s !! StreamID_Key (se_ID e) = Some e
}.

Lemma keys_sorted l : sorted_ids l → Forall (λ e, is_sid (se_ID e)) l → StronglySorted bytes_lt ((λ e, StreamID_Key (se_ID e)) <$> l).
Proof.
  intros Hs Hf. induction l as [|e l IH]; [constructor|]. apply sorted_cons in Hs as [Hs Hx]. apply Forall_cons in Hf as [He Hf].
  rewrite fmap_cons. constructor; [by apply IH|]. rewrite Forall_fmap, Forall_forall in *. intros x Hin.
  apply (encoded_order (se_ID e) (se_ID x)); [done|by apply Hf|by apply Hx].
Qed.

Lemma sf_size s l : stands_for s l → trie_Size (sv_Index s) = len l.
Proof. intros Hs. rewrite law_trie_size, (sf_index _ _ Hs). unfold len. by rewrite length_fmap. Qed.

Lemma sf_next s pre e suf : stands_for s (pre ++ e :: suf) →
  trie_Next (StreamID_Key (se_ID e)) (sv_Index s) = head ((λ x, StreamID_Key (se_ID x)) <$> suf).
Proof.
  intros Hs. rewrite law_trie_next. pose proof (law_trie_sorted (sv_Index s)) as Hk. rewrite (sf_index _ _ Hs) in *.
  rewrite fmap_app, fmap_cons in *. by rewrite next_in.
Qed.

(** [ForEach] visits the entries in order. *)
Lemma visit_spec s l pre suf fuel : stands_for s l → l = pre ++ suf → (length suf <= fuel)%nat →
  visit fuel s (head ((λ e, StreamID_Key (se_ID e)) <$> suf)) = suf.
Proof.
  intros Hs. revert pre fuel. induction suf as [|e suf IH]; intros pre fuel Hl Hf; [by destruct fuel|].
  destruct fuel as [|fuel]; [cbn in Hf; lia|]. cbn [fmap list_fmap head visit].
  rewrite (sf_entries _ _ Hs) by (subst l; set_solver). f_equal. subst l. rewrite (sf_next s pre e suf) by done.
  apply (IH (pre ++ [e])); [by rewrite <- app_assoc|cbn in Hf; lia].
Qed.

Lemma ForEach_spec s l : stands_for s l → ForEach s = l.
Proof.
  intros Hs. unfold ForEach, index_fuel. rewrite (sf_size s l Hs). destruct (Z.eqb_spec (len l) 0) as [E|_].
  { destruct l; [done|unfold len in E; cbn in E; lia]. }
  rewrite law_trie_first, (sf_index _ _ Hs). apply (visit_spec s l []); [done|done|]. unfold len. lia.
Qed.

(** The keys that are marked: those up to where [stop] says so, [most] of them. *)
Fixpoint until (stop : bytes → bool) (l : list StreamEntry) : list StreamEntry :=
  match l with
  | [] => []
  | e :: l' => if stop (StreamID_Key (se_ID e)) then [] else e :: until stop l'
  end.

Lemma mark_spec s l pre suf fuel stop most n groups : stands_for s l → l = pre ++ suf → (length suf <= fuel)%nat →
  mark fuel s RefModeKeepRef stop most n (head ((λ e, StreamID_Key (se_ID e)) <$> suf)) groups =
  ((λ e, StreamID_Key (se_ID e)) <$> take (Z.to_nat (most - n)) (until stop suf), groups).
Proof.
  intros Hs. revert pre fuel n. induction suf as [|e suf IH]; intros pre fuel n Hl Hf;
    [cbn [until]; rewrite take_nil; by destruct fuel|].
  destruct fuel as [|fuel]; [cbn in Hf; lia|]. cbn [fmap list_fmap head mark until].
  destruct (Z.leb_spec most n); [by replace (Z.to_nat (most - n)) with 0%nat by lia|].
  destruct (stop (StreamID_Key (se_ID e))) eqn:Est; [by rewrite take_nil|].
  rewrite (sf_entries _ _ Hs) by (subst l; set_solver).
  change (canTrim_value RefModeKeepRef groups (se_ID e)) with true. cbn [negb].
  change (handleTrim_value RefModeKeepRef groups (se_ID e)) with groups.
  subst l. rewrite (sf_next s pre e suf) by done. rewrite (IH (pre ++ [e])); [|by rewrite <- app_assoc|cbn in Hf; lia].
  replace (Z.to_nat (most - n)) with (S (Z.to_nat (most - (n + 1)))) by lia. done.
Qed.

Lemma until_never l : until (λ _, false) l = l.
Proof. induction l as [|e l IH]; [done|]. cbn. by rewrite IH. Qed.

Lemma until_below m l : sorted_ids l → Forall (λ e, is_sid (se_ID e)) l → is_sid m →
  until (λ k, negb (blt k (StreamID_Key m))) l = below m l.
Proof.
  intros Hs Hf Hm. induction l as [|e l IH]; [done|]. pose proof Hs as Hs0. apply sorted_cons in Hs as [Hs _].
  apply Forall_cons in Hf as [He Hf]. cbn [until].
  pose proof (encoded_order (se_ID e) m He Hm) as Ho. change (encodeStreamElementID (se_ID e)) with (StreamID_Key (se_ID e)) in Ho.
  change (encodeStreamElementID m) with (StreamID_Key m) in Ho.
  destruct (blt (StreamID_Key (se_ID e)) (StreamID_Key m)); cbn [negb].
  - rewrite below_cons_in by tauto. by rewrite IH.
  - rewrite below_cons_out; [done|done|]. intros Hlt. destruct Ho as [_ Ho]. by specialize (Ho Hlt).
Qed.

(** The trimmed keys out of the index and of the map. *)
Lemma remove_key_spec s key l : stands_for s l → key ∈ ((λ e, StreamID_Key (se_ID e)) <$> l) →
  stands_for (remove_key s key) (filter (λ e, StreamID_Key (se_ID e) ≠ key) l).
Proof.
  intros Hs Hk. unfold remove_key. set (sizes := match sv_Entries s !! key with Some e => _ | None => _ end). destruct sizes as [a b].
  pose proof (sorted_filter (λ e, StreamID_Key (se_ID e) ≠ key) l (sf_sorted _ _ Hs)) as Hsort.
  assert (Hsids : Forall (λ e, is_sid (se_ID e)) (filter (λ e, StreamID_Key (se_ID e) ≠ key) l)).
  { pose proof (sf_sids _ _ Hs) as Hf. rewrite Forall_forall in *. intros x [_ Hx]%list_elem_of_filter. by apply Hf. }
  split; [done|done| |]; cbn [sv_Index sv_Entries].
  - apply sorted_keys_unique; [apply law_trie_sorted|by apply keys_sorted|]. intros x.
    rewrite law_trie_delete, (sf_index _ _ Hs), !list_elem_of_fmap. split.
    + intros [Hne (e & -> & He)]. exists e. split; [done|]. by apply list_elem_of_filter.
    + intros (e & -> & [Hne He]%list_elem_of_filter). split; [done|by exists e].
  - intros e [Hne He]%list_elem_of_filter. rewrite lookup_delete_ne by done. by apply (sf_entries _ _ Hs).
Qed.

Lemma key_inj l e e' : Forall (λ e, is_sid (se_ID e)) l → e ∈ l → e' ∈ l → StreamID_Key (se_ID e) = StreamID_Key (se_ID e') → se_ID e = se_ID e'.
Proof. rewrite Forall_forall. intros Hf He He' E. by apply encode_id_inj; [apply Hf..|]. Qed.

Lemma filter_key l e : sorted_ids (e :: l) → Forall (λ e, is_sid (se_ID e)) (e :: l) →
  filter (λ x, StreamID_Key (se_ID x) ≠ StreamID_Key (se_ID e)) (e :: l) = l.
Proof.
  intros [_ Hx]%sorted_cons Hf. rewrite filter_cons_False by (intros Hn; by apply Hn).
  assert (Hne : ∀ x, x ∈ l → StreamID_Key (se_ID x) ≠ StreamID_Key (se_ID e)).
  { intros x Hin E. apply (key_inj (e :: l)) in E; [|done|by right|by left]. rewrite Forall_forall in Hx.
    apply (sid_lt_irrefl (se_ID e)). rewrite <- E at 2. by apply Hx. }
  clear Hx Hf. induction l as [|x l IH]; [done|]. rewrite filter_cons_True by (apply Hne; by left). f_equal.
  apply IH. intros y Hy. apply Hne. by right.
Qed.

Lemma remove_keys_spec s l n : stands_for s l →
  stands_for (foldl remove_key s ((λ e, StreamID_Key (se_ID e)) <$> take n l)) (drop n l).
Proof.
  revert s l. induction n as [|n IH]; intros s l Hs; [done|]. destruct l as [|e l]; [done|].
  cbn [take drop fmap list_fmap foldl]. apply IH.
  rewrite <- (filter_key l e); [|apply (sf_sorted _ _ Hs)|apply (sf_sids _ _ Hs)].
  apply remove_key_spec; [done|]. apply list_elem_of_fmap. exists e. split; [done|by left].
Qed.

Lemma stands_for_groups s l g : stands_for s l → stands_for (with_groups g s) l.
Proof. intros [? ? ? ?]. by split. Qed.
Lemma stands_for_first s l : stands_for s l → stands_for (update_first s) l.
Proof.
  intros [? ? ? ?]. unfold update_first. destruct (0 <? _); [|by split]. destruct (_ ≫= _); by split.
Qed.

(** [Trim] takes [trim_number] entries from the front. *)
Lemma Trim_spec o s l : stands_for s l → to_RefMode o = RefModeKeepRef → one_strategy o →
  (∀ m, to_MinID o = Some m → is_sid m) →
  fst (Trim o s) = trim_number o l ∧ stands_for (snd (Trim o s)) (drop (Z.to_nat (trim_number o l)) l).
Proof.
  intros Hs Hm Hone Hsid. set (n := Z.to_nat (trim_number o l)). pose proof (trim_number_range o l) as Hr.
  unfold Trim. rewrite (sf_size s l Hs). destruct (Z.eqb_spec (len l) 0) as [E0|Hne].
  { assert (E : l = []) by (destruct l; [done|unfold len in E0; cbn in E0; lia]). subst l. rewrite drop_nil.
    split; [cbn in *; lia|done]. }
  assert (Hkeys : ∃ k1 k2, mark_minid o (trim_limit o (len l)) s = (k1, sv_Groups s) ∧
    mark_maxlen o (trim_limit o (len l)) (len k1) s (sv_Groups s) = (k2, sv_Groups s) ∧
    k1 ++ k2 = (λ e, StreamID_Key (se_ID e)) <$> take n l).
  { unfold mark_minid, mark_maxlen, index_fuel, n, trim_number. rewrite Hm, law_trie_first, (sf_index _ _ Hs), (sf_size s l Hs).
    destruct (to_MinID o) as [m|] eqn:Em.
    - destruct Hone as [?|Hx]; [congruence|]. rewrite Hx. rewrite (mark_spec s l []) by (done || unfold len; lia).
      rewrite until_below by (apply Hs || by apply Hsid). eexists _, _. split_and!; [done|done|]. rewrite app_nil_r, Z.sub_0_r.
      rewrite (below_prefix m l (sf_sorted _ _ Hs)), take_take. do 2 f_equal.
      rewrite <- (below_prefix m l (sf_sorted _ _ Hs)). unfold len. lia.
    - exists []. change (len []) with 0. destruct (to_HasMaxLen o); [|by exists []].
      eexists. split; [done|]. cbn [skip]. change (Z.to_nat 0) with 0%nat. cbn [skip]. rewrite (mark_spec s l []) by (done || unfold len; lia).
      rewrite until_never, Z.sub_0_r, Z.sub_0_r. split; [done|]. rewrite app_nil_l.
      set (t := to_trim o (trim_limit o (len l)) 0 (len l)). destruct (Z.le_gt_cases t (len l)).
      + do 2 f_equal. lia.
      + rewrite Z.min_l by lia. unfold len in *. by rewrite !take_ge by lia. }
  destruct Hkeys as (k1 & k2 & -> & -> & Hk). rewrite Hk.
  assert (Hlen : len ((λ e, StreamID_Key (se_ID e)) <$> take n l) = trim_number o l).
  { unfold len in *. rewrite length_fmap, length_take. lia. }
  rewrite Hlen. destruct (Z.eqb_spec (trim_number o l) 0) as [E|].
  - cbn [fst snd]. split; [done|]. unfold n. rewrite E. by apply stands_for_groups.
  - cbn [fst snd]. split; [done|]. by apply stands_for_first, remove_keys_spec, stands_for_groups.
Qed.

(** *** The value made from a snapshot *)

Lemma inserted_keys l t x : x ∈ trie_keys (foldl (λ t e, trie_Insert (StreamID_Key (se_ID e)) t) t l) ↔
  x ∈ ((λ e, StreamID_Key (se_ID e)) <$> l) ∨ x ∈ trie_keys t.
Proof.
  revert t. induction l as [|e l IH]; intros t; cbn [foldl fmap list_fmap].
  - split; [by right|]. intros [Hx|?]; [by apply not_elem_of_nil in Hx|done].
  - rewrite IH, law_trie_insert, elem_of_cons. tauto.
Qed.

Lemma inserted_entries (l : list StreamEntry) (m : gmap bytes StreamEntry) e : sorted_ids l → Forall (λ e, is_sid (se_ID e)) l →
  e ∈ l ∨ m !! StreamID_Key (se_ID e) = Some e ∧ StreamID_Key (se_ID e) ∉ ((λ e, StreamID_Key (se_ID e)) <$> l) →
  foldl (λ m e, <[StreamID_Key (se_ID e) := e]> m) m l !! StreamID_Key (se_ID e) = Some e.
Proof.
  revert m. induction l as [|x l IH]; intros m Hs Hf He; cbn [foldl]; [by destruct He as [He|[? _]]; [apply not_elem_of_nil in He|]|].
  pose proof (keys_sorted _ Hs Hf) as Hk. apply sorted_cons in Hs as [Hs _]. pose proof Hf as Hf0. apply Forall_cons in Hf as [_ Hf].
  rewrite fmap_cons in Hk. apply StronglySorted_inv in Hk as [_ Hk]. rewrite Forall_forall in Hk.
  apply IH; [done|done|]. destruct He as [[->|He]%elem_of_cons|[Hm Hn]].
  - right. split; [by rewrite lookup_insert_eq|]. intros Hin. by apply Hk, bytes_lt_irrefl in Hin.
  - by left.
  - rewrite fmap_cons, not_elem_of_cons in Hn. destruct Hn as [Hne Hn]. right. split; [by rewrite lookup_insert_ne|done].
Qed.

Lemma entriesToStreamValue_spec l meta : sorted_ids l → Forall (λ e, is_sid (se_ID e)) l →
  stands_for (entriesToStreamValue l meta) l.
Proof.
  intros Hs Hf. split; [done|done| |]; cbn [entriesToStreamValue sv_Index sv_Entries].
  - apply sorted_keys_unique; [apply law_trie_sorted|by apply keys_sorted|]. intros x.
    rewrite inserted_keys, law_trie_new. split; [|by left]. intros [?|Hx]; [done|by apply not_elem_of_nil in Hx].
  - intros e He. apply inserted_entries; auto.
Qed.

Lemma gone_spec l n sv : sorted_ids l → Forall (λ e, is_sid (se_ID e)) l → stands_for sv (drop n l) → gone l sv = take n l.
Proof.
  intros Hs Hf Hsv. unfold gone. rewrite (ForEach_spec _ _ Hsv). clear sv Hsv.
  rewrite <- (take_drop n l) at 1. rewrite filter_app.
  assert (Hk := keys_sorted _ Hs Hf). rewrite <- (take_drop n l) in Hk. rewrite fmap_app in Hk.
  assert (H1 : filter (λ e, StreamID_Key (se_ID e) ∉ ((λ r, StreamID_Key (se_ID r)) <$> drop n l)) (take n l) = take n l).
  { apply filter_id. intros e He Hin. eapply (bytes_lt_irrefl (StreamID_Key (se_ID e))), StronglySorted_app_1_elem_of; [exact Hk| |exact Hin].
    apply list_elem_of_fmap. by exists e. }
  assert (H2 : filter (λ e, StreamID_Key (se_ID e) ∉ ((λ r, StreamID_Key (se_ID r)) <$> drop n l)) (drop n l) = []).
  { apply filter_none. intros e He Hn. apply Hn. apply list_elem_of_fmap. by exists e. }
  by rewrite H1, H2, app_nil_r.
Qed.

(** ** The command *)
Context `{StreamLaws} `{!NetRemoves} `{RangeOrder} `{NodeMaxEntries}.

Lemma Atoi_range a n : Atoi a = Some n → is_i64 n.
Proof.
  unfold Atoi, ParseInt_val. destruct (split_sign a) as [neg ds]. destruct ((0 <? len ds) && all_digits ds) eqn:E; [|by intros [=]].
  apply andb_true_iff in E as [_ Hd]. pose proof (dval_nonneg ds Hd). destruct neg.
  - destruct (Z.leb_spec (dval ds) (MaxInt64 + 1)) as [Hle|Hgt]; intros [=]; zlia.
  - destruct (Z.leb_spec (dval ds) MaxInt64) as [Hle|Hgt]; intros [=]; zlia.
Qed.

Lemma parse_count_range a n : parse_count a = Some n → is_i64 n ∧ 0 <= n.
Proof.
  unfold parse_count. destruct (Atoi a) as [x|] eqn:E; [|done]. destruct (Z.ltb_spec x 0); [done|]. intros [= <-].
  split; [by eapply Atoi_range|done].
Qed.

(** What the arguments of XTRIM come to. *)
Record well_formed (o : TrimOptions) : Prop := {
  wf_one : one_strategy o;
  wf_minid m : to_MinID o = Some m → is_sid m;
  wf_given : to_MinID o = None → to_HasMaxLen o = true;
  wf_maxlen : is_i64 (to_MaxLen o) ∧ 0 <= to_MaxLen o;
  wf_limit : 0 <= to_Limit o;
  wf_exact : to_Approx o = false → to_Limit o = 0
}.

Lemma threshold_ok b args o rest : trim_threshold b args no_trim = Ok (o, rest) → well_formed o ∧ to_Limit o = 0.
Proof.
  unfold trim_threshold. destruct (trim_mark args no_trim) as [o1 args1] eqn:Em.
  assert (Ho : o1 = no_trim ∨ o1 = set_approx no_trim).
  { unfold trim_mark in Em. destruct args as [|a args]; [simplify_eq; by left|].
    destruct (beq a (str "=")); [simplify_eq; by left|]. destruct (beq a (str "~")); simplify_eq; auto. }
  destruct args1 as [|a rest']; [done|]. destruct b.
  - destruct (parse_count a) as [n|] eqn:E; [|done]. apply parse_count_range in E as [Hn H0']. intros [= <- <-].
    destruct Ho as [-> | ->]; (split; [|done]); split; cbn; try done; by left.
  - destruct (ParseStreamID a) as [[[id ex] sp]|] eqn:E; [|done]. apply ParseStreamID_sid in E. intros [= <- <-].
    destruct Ho as [-> | ->]; (split; [|done]); split; cbn; try done; try (by right); by intros m [= <-].
Qed.

Lemma set_mode_ok m o : well_formed o → well_formed (set_mode m o).
Proof. by intros [? ? ? ? ? ?]. Qed.

Lemma parse_xtrim_ok strategy rest o : parse_xtrim strategy rest = Ok o → well_formed o.
Proof.
  unfold parse_xtrim. destruct (negb _); [done|]. destruct (trim_threshold _ _ _) as [[o1 rest1]|f] eqn:E1; [|done].
  apply threshold_ok in E1 as [Hw Hl]. destruct (xtrim_limit rest1 o1) as [[o2 rest2]|f] eqn:E2; [|done].
  assert (Hw2 : well_formed o2).
  { unfold xtrim_limit, trim_limit_opt in E2. destruct rest1 as [|a [|n rest']]; [by simplify_eq|by destruct (beq _ _); simplify_eq|].
    destruct (beq (ToUpper a) (str "LIMIT")); cbn [andb] in E2; [|by simplify_eq].
    destruct (to_Approx o1) eqn:Ea; cbn [negb] in E2; [|done]. destruct (parse_count n) as [x|] eqn:En; [|done].
    apply parse_count_range in En as [_ Hx]. injection E2 as <- <-. destruct Hw as [? ? ? ? ? ?]. split; try done.
    cbn. congruence. }
  unfold xtrim_mode. destruct rest2 as [|a [|b rest2]]; [by intros [= <-]| |done].
  destruct (ref_mode (ToUpper a)); [|done]. intros [= <-]. by apply set_mode_ok.
Qed.

Lemma well_formed_node n o : well_formed o → well_formed (set_node_size n o).
Proof. by intros [? ? ? ? ? ?]. Qed.

Lemma steps_remove_entries key n st l : healthy (st_ctx st) → is_stream (view (st_ctx st) key) l →
  steps (for_each (take n l) (λ e, emitStreamRemove key (se_ID e))) st tt (stream_set (st_ctx st) key (drop n l)).
Proof.
  intros Hh Hl. pose proof (is_stream_sorted _ _ Hl) as Hs. rewrite (for_each_fmap se_ID (emitStreamRemove key)).
  rewrite <- (without_take n l Hs). apply steps_remove_ids; [|done|done].
  intros id st' l' Hin Hh' Hl'. apply steps_stream_remove; [done|done|].
  pose proof (raw_stream_sids _ _ (proj1 Hl)) as Hsid. rewrite Forall_forall in Hsid.
  apply list_elem_of_fmap in Hin as (e & -> & He). apply Hsid. eapply elem_of_submseteq; [exact He|].
  apply sublist_submseteq, sublist_take.
Qed.

Lemma xtrim_runner_spec key o st l : healthy (st_ctx st) → is_stream (view (st_ctx st) key) l →
  removed_ids (net_removes key (st_ctx st)) → well_formed o → to_RefMode o = RefModeKeepRef →
  let k := trim_number (set_node_size GetStreamNodeMaxEntries o) l in
  finishes (xtrim_runner key o) st (WriteInteger k (st_w st)) (stream_set (st_ctx st) key (drop (Z.to_nat k) l)).
Proof.
  intros Hh Hl Hr Hw Hm k. set (o' := set_node_size GetStreamNodeMaxEntries o). pose proof (well_formed_node GetStreamNodeMaxEntries o Hw) as Hw'.
  destruct (is_live (view (st_ctx st) key)) eqn:El.
  2: { pose proof (raw_stream_dead _ _ El (proj1 Hl)) as E. subst l. pose proof (trim_number_range o' []) as Hk.
       assert (Ek : k = 0) by (unfold k; fold o'; change (len []) with 0 in Hk; lia). rewrite Ek.
       eapply finishes_weaken; [by eapply finishes_read_missing|]. intros c' Hs. split; [by rewrite Hs|by apply others_same]. }
  pose proof (is_stream_sorted _ _ Hl) as Hsort. pose proof (raw_stream_sids _ _ (proj1 Hl)) as Hsids.
  apply finishes_saved. eapply ends_as_read_stream; [done|exact Hl|done|done|]. intros s c' Hse Hh' Hs. cbv zeta.
  rewrite (ss_list _ _ _ _ Hse). fold o'. change (to_RefMode o') with (to_RefMode o). rewrite Hm.
  change (bool_decide (RefModeKeepRef = RefModeAcked) || bool_decide (RefModeKeepRef = RefModeDelRef)) with false.
  eapply ends_as_bind; [by apply steps_begin_same|]. cbn [st_ctx st_w st_held]. intros c1 Hh1 Hs1.
  pose proof (same_trans _ _ _ Hs Hs1) as Hs01. change (mret ?x ≫= ?f) with (f x). cbv beta iota.
  pose proof (entriesToStreamValue_spec l (snap_meta s) Hsort Hsids) as Hsv.
  destruct (Trim_spec o' _ l Hsv Hm (wf_one _ Hw') (wf_minid _ Hw')) as [Ht Hsv']. fold o' in k. fold k in Ht, Hsv'.
  destruct (Trim o' _) as [trimmed sv']. cbn [fst snd] in Ht, Hsv'. subst trimmed. rewrite (gone_spec l _ sv') by done.
  eapply (ends_as_bind _ _ _ _ tt (stream_set c1 key (drop (Z.to_nat k) l))).
  - destruct (Z.ltb_spec 0 k) as [Hk|Hk].
    + change (bool_decide (RefModeKeepRef = RefModeDelRef)) with false.
      eapply steps_bind; [apply (steps_remove_entries key _ (mkSt c1 _ _)); [done|by cbn [st_ctx]; rewrite Hs01]|].
      cbn [st_ctx st_w st_held]. intros c2 Hh2 Hset. by apply (steps_ret _ (mkSt c2 _ _)).
    + replace (Z.to_nat k) with 0%nat by lia. apply (steps_ret _ (mkSt c1 _ _)); [done|]. cbn [st_ctx].
      split; [by rewrite Hs01|done].
  - cbn [st_ctx st_w st_held]. intros c2 Hh2 [Hl2 Ho2]. apply ends_as_write; [done|done|]. split; [done|].
    eapply others_trans; [by apply others_same|done].
Qed.

(** What is left once the entries below an id are gone. *)
Lemma drop_below m l : sorted_ids l → drop (length (below m l)) l = filter (λ e, ¬ sid_lt (se_ID e) m) l.
Proof.
  induction l as [|e l IH]; intros Hs; [done|]. destruct (decide (sid_lt (se_ID e) m)) as [Hlt|Hn].
  - rewrite below_cons_in, filter_cons_False by tauto. cbn [length drop]. apply IH. by apply sorted_cons in Hs as [? _].
  - rewrite below_cons_out by done. cbn [length drop]. symmetry. apply filter_id. intros x Hx Hlt.
    assert (Hb : x ∈ below m (e :: l)) by (by apply list_elem_of_filter). rewrite below_cons_out in Hb by done.
    by apply not_elem_of_nil in Hb.
Qed.

(** Trimming by id never takes an entry that is not below it. *)
Lemma trimmed_below o l m : sorted_ids l → to_MinID o = Some m → ∀ e, e ∈ take (Z.to_nat (trim_number o l)) l → sid_lt (se_ID e) m.
Proof.
  intros Hs Hm e He. assert (Hb : e ∈ below m l).
  { rewrite (below_prefix m l Hs). eapply elem_of_submseteq; [exact He|]. apply sublist_submseteq.
    assert (Hle : (Z.to_nat (trim_number o l) <= length (below m l))%nat) by (unfold trim_number; rewrite Hm; unfold len; lia).
    replace (take (Z.to_nat (trim_number o l)) l) with (take (Z.to_nat (trim_number o l)) (take (length (below m l)) l))
      by (rewrite take_take; f_equal; lia). apply sublist_take. }
  by apply list_elem_of_filter in Hb as [? _].
Qed.

(** XTRIM with references kept removes the oldest entries and only them: it
    answers with their number and leaves the rest as they were.  Without ~ the
    newest MAXLEN entries are left, or those not below MINID.  With ~ it never
    takes more: no entry at or above MINID, and never below MAXLEN entries as long
    as MAXLEN rounded up to whole nodes is in range.  No other key changes. *)
Theorem xtrim_correct (key strategy : bytes) (rest : list bytes) (o : TrimOptions) (st : St) (l : list StreamEntry) :
  healthy (st_ctx st) → is_stream (view (st_ctx st) key) l → removed_ids (net_removes key (st_ctx st)) →
  is_i64 (len l) → rest ≠ [] → parse_xtrim strategy rest = Ok o → to_RefMode o = RefModeKeepRef →
  ∃ run k, handleXTrim (key :: strategy :: rest) = Accept [key] run ∧ 0 <= k <= len l ∧
    finishes run st (WriteInteger k (st_w st)) (stream_set (st_ctx st) key (drop (Z.to_nat k) l)) ∧
    (to_MinID o = None → to_Approx o = false → k = Z.max 0 (len l - to_MaxLen o)) ∧
    (∀ m, to_MinID o = Some m → to_Approx o = false →
       drop (Z.to_nat k) l = filter (λ e, ¬ sid_lt (se_ID e) m) l) ∧
    (to_MinID o = None → 0 < GetStreamNodeMaxEntries → is_i64 (to_MaxLen o + GetStreamNodeMaxEntries) →
       Z.min (len l) (to_MaxLen o) <= len (drop (Z.to_nat k) l)) ∧
    (∀ m, to_MinID o = Some m → ∀ e, e ∈ take (Z.to_nat k) l → sid_lt (se_ID e) m).
Proof.
  intros Hh Hl Hr Hi Hne Hp Hm. pose proof (parse_xtrim_ok _ _ _ Hp) as Hw0. pose proof (is_stream_sorted _ _ Hl) as Hs.
  set (o' := set_node_size GetStreamNodeMaxEntries o). exists (xtrim_runner key o), (trim_number o' l).
  assert (Hw : well_formed o') by (by apply well_formed_node).
  split; [unfold handleXTrim; destruct rest; [done|]; by rewrite Hp|]. pose proof (trim_number_range o' l) as Hk.
  split; [done|]. split; [by apply xtrim_runner_spec|]. destruct (wf_maxlen _ Hw) as [Hx H0']. split_and!.
  - intros Em Ea. apply (trim_number_exact_maxlen o' l); auto; [by apply (wf_given o' Hw)|by apply (wf_exact o' Hw)].
  - intros m Em Ea. rewrite (trim_number_exact_minid o' l m) by (auto; by apply (wf_exact o' Hw)).
    unfold len. rewrite Nat2Z.id. by apply drop_below.
  - intros Em Hn Hir. assert (Ht : trim_number o' l <= Z.max 0 (len l - to_MaxLen o)).
    { apply (trim_number_approx o' l); auto; [by apply (wf_given o' Hw)|by apply (wf_limit o' Hw)]. }
    unfold len in *. rewrite length_drop. lia.
  - intros m Em. by apply trimmed_below.
Qed.
End XTrim.
