(* ===== verification/StreamGroupProps.v ===== *)
(** * Consumer groups: delivery and acknowledgement

    What XREADGROUP gives a consumer and records of it, and what XACK takes off
    the record. *)

From S2P Require Import Prelude GoBytes Strconv Floats Commands Writer Engine Runs Sets Strings Hashes HashTheorems Lists ListProps Blocking ListBlocking StreamIds Streams StreamCommands StreamReads StreamGroups StreamDelivery StreamProps StreamTheorems StreamXTrim.

Local Open Scope Z_scope.

(** ** Keys *)

Lemma groupKey_ne key g : groupKey key g ≠ key.
Proof. intros E. apply (f_equal length) in E. unfold groupKey in E. rewrite length_app in E. cbn in E. lia. Qed.
Lemma pelKey_ne key g : pelKey key g ≠ key.
Proof. intros E. apply (f_equal length) in E. unfold pelKey in E. rewrite length_app in E. cbn in E. lia. Qed.
Lemma pelKey_groupKey key g h : pelKey key g ≠ groupKey key h.
Proof. unfold pelKey, groupKey. by intros [=]%app_inv_head. Qed.

(** The ids after another are those of the range that leaves it out and has no end. *)
Lemma range_after l last : Forall (λ e, is_sid (se_ID e)) l →
  filter (λ e, in_range last MaxStreamID true false e = true) l = filter (λ e, sid_lt last (se_ID e)) l.
Proof.
  intros Hf. apply filter_ext_in. intros e He. rewrite Forall_forall in Hf. specialize (Hf e He).
  unfold in_range. rewrite (bool_decide_eq_false_2 (sid_lt MaxStreamID (se_ID e))).
  - cbn [negb]. rewrite andb_true_r. apply bool_decide_eq_true.
  - destruct (se_ID e) as [ms seq]. unfold is_sid, is_u64, sid_lt, MaxStreamID in *. cbn in *. lia.
Qed.

Lemma upto_sids count l : Forall (λ e, is_sid (se_ID e)) l → Forall (λ e, is_sid (se_ID e)) (upto count l).
Proof. intros Hf. unfold upto. destruct (0 <? count); [by apply Forall_take|done]. Qed.

Lemma streamLastID_sid l : Forall (λ e, is_sid (se_ID e)) l → is_sid (streamLastID l).
Proof.
  intros Hf. unfold streamLastID. destruct (last l) as [e|] eqn:E; [|done].
  rewrite Forall_forall in Hf. apply Hf. apply last_Some in E as [l' ->]. apply elem_of_app. right. by left.
Qed.

Section StreamGroupProps.
Context `{StreamLaws} `{!NetRemoves} `{RangeOrder} `{StreamClock} `{NilAdds} `{Xxh3}.

(** The state of a group, and what is recorded of an entry that is pending: its
    owner, the time of its last delivery and the number of deliveries. *)
Definition group_state (gm : gmap bytes Value) : option GroupMeta := decodeGroupMeta ∘ Decompress <$> gm !! groupElement.
Definition pending (pm : gmap bytes Value) (id : StreamID) : option (bytes * Z * Z) :=
  decodePELEntry ∘ Decompress <$> pm !! encodeStreamElementID id.

Lemma steps_keyed_snap key st m : healthy (st_ctx st) → keyed (view (st_ctx st) key) m →
  ∃ snap, steps ('(snap, _) ← get_snapshot key; mret snap) st snap (same (st_ctx st)) ∧ net_adds snap = m.
Proof.
  intros Hh Hk. destruct (steps_keyed_get key st m Hh Hk) as (snap & tips & Hg & Hm). exists snap. split; [|done].
  eapply steps_bind; [exact Hg|]. cbv beta iota. intros c' Hh' Hs. by apply (steps_ret _ (mkSt c' _ _)).
Qed.

Lemma has_member_adds snap m x : net_adds snap = m → has_member snap x = bool_decide (is_Some (m !! x)).
Proof. intros <-. by destruct snap. Qed.

Lemma set_to_trans c key m c' m' c'' : set_to c key m c' → set_to c' key m' c'' → set_to c key m' c''.
Proof. intros [_ Ho] [Hm Ho']. split; [done|by eapply others_trans]. Qed.

(** ** XACK *)

(** The record without the ids. *)
Definition acked (ids : list StreamID) (pm : gmap bytes Value) : gmap bytes Value :=
  foldl (λ pm id, delete (encodeStreamElementID id) pm) pm ids.

Lemma pending_acked ids pm id : Forall is_sid ids → is_sid id →
  pending (acked ids pm) id = if bool_decide (id ∈ ids) then None else pending pm id.
Proof.
  intros Hids Hid. revert pm. induction Hids as [|x ids Hx _ IH]; intros pm; [done|]. change (acked (x :: ids) pm) with (acked ids (delete (encodeStreamElementID x) pm)).
  rewrite IH. unfold pending. destruct (decide (id = x)) as [->|Hne].
  - rewrite lookup_delete_eq, (bool_decide_eq_true_2 (x ∈ x :: ids)) by (by left). by destruct (bool_decide (x ∈ ids)).
  - rewrite lookup_delete_ne by (intros E; by apply Hne, encode_id_inj). rewrite (bool_decide_ext (id ∈ x :: ids) (id ∈ ids)); [done|]. rewrite elem_of_cons. tauto.
Qed.

Lemma steps_ack_loop key g snap pm0 ids n st pm : healthy (st_ctx st) → net_adds snap = pm0 → Forall is_sid ids → NoDup ids →
  keyed (view (st_ctx st) (pelKey key g)) pm → (∀ id, id ∈ ids → pm !! encodeStreamElementID id = pm0 !! encodeStreamElementID id) →
  steps (ack_loop key g snap ids n) st (n + len (filter (λ id, is_Some (pending pm0 id)) ids))
    (set_to (st_ctx st) (pelKey key g) (acked ids pm)).
Proof.
  intros Hh Hs Hids Hd. revert n st pm Hh. induction Hids as [|id ids Hid Hids IH]; intros n st pm Hh Hk Hsame; cbn [ack_loop].
  { rewrite Z.add_0_r. apply steps_ret; [done|]. by split. }
  apply NoDup_cons in Hd as [Hnin Hd]. rewrite (has_member_adds _ _ _ Hs).
  assert (Hp : is_Some (pending pm0 id) ↔ is_Some (pm0 !! encodeStreamElementID id)) by (unfold pending; apply fmap_is_Some).
  assert (Hrest : ∀ x, x ∈ ids → delete (encodeStreamElementID id) pm !! encodeStreamElementID x = pm0 !! encodeStreamElementID x).
  { intros x Hx. rewrite Forall_forall in Hids. rewrite lookup_delete_ne; [by apply Hsame; right|].
    intros E. apply encode_id_inj in E; [by subst x|done|by apply Hids]. }
  destruct (bool_decide_reflect (is_Some (pm0 !! encodeStreamElementID id))) as [Hin|Hout].
  - rewrite filter_cons_True by (by apply Hp). rewrite len_cons, Z.add_assoc.
    eapply steps_bind; [apply (steps_keyed_remove _ _ st pm Hh Hk); by rewrite Hsame by (by left)|]. cbv beta.
    intros c' Hh' Hset. eapply steps_weaken.
    { apply (IH Hd (n + 1) (mkSt c' _ _) (delete (encodeStreamElementID id) pm)); [done|apply Hset|done]. }
    cbn [st_ctx]. intros c'' Hset'. by eapply set_to_trans.
  - rewrite filter_cons_False by (by rewrite Hp). change (acked (id :: ids) pm) with (acked ids (delete (encodeStreamElementID id) pm)). rewrite delete_id.
    + apply (IH Hd); [done|done|]. intros x Hx. apply Hsame. by right.
    + rewrite Hsame by (by left). by apply eq_None_not_Some.
Qed.

Lemma finishes_with_group key g missing noGroup found st l gm w Q : healthy (st_ctx st) →
  is_stream (view (st_ctx st) key) l → removed_ids (net_removes key (st_ctx st)) → is_live (view (st_ctx st) key) = true →
  keyed (view (st_ctx st) (groupKey key g)) gm →
  (∀ s c', sees_stream s (st_ctx st) key l → healthy c' → same (st_ctx st) c' → is_Some (gm !! groupElement) →
     finishes (found s) (mkSt c' (st_w st) (st_held st)) w Q) →
  (gm !! groupElement = None → noGroup (st_w st) = w ∧ ∀ c', same (st_ctx st) c' → Q c') →
  finishes (with_group key g missing noGroup found) st w Q.
Proof.
  intros Hh Hl Hr El Hg Hf Hn. unfold with_group. eapply finishes_read_stream; [done|exact Hl|done|by rewrite El|].
  intros s c' Hse Hh' Hs _. destruct (steps_keyed_get (groupKey key g) (mkSt c' (st_w st) (st_held st)) gm) as (snap & tips & Hget & Hm);
    [done|by cbn [st_ctx]; rewrite Hs|].
  eapply finishes_bind.
  { eapply steps_bind; [exact Hget|]. cbv beta iota. cbn [st_ctx st_w st_held]. intros c2 Hh2 Hs2.
    apply (steps_ret (has_group snap) (mkSt c2 _ _) (same (st_ctx st))); [done|by eapply same_trans]. }
  cbn [st_ctx st_w st_held]. intros c2 Hh2 Hs2. unfold has_group. rewrite (has_member_adds _ _ _ Hm).
  destruct (bool_decide_reflect (is_Some (gm !! groupElement))) as [Hin|Hout]; cbn [negb]; [by apply Hf|].
  apply eq_None_not_Some in Hout. destruct (Hn Hout) as [Hw HQ]. by apply finishes_reply; [|exact Hw|apply HQ].
Qed.

(** XACK takes exactly the named entries off the group's record of pending
    entries and answers with how many of them were on it; who holds the others
    does not change, and no other key does.  Without the group it answers that
    there is none and changes nothing. *)
Theorem xack_correct (key g : bytes) (args : list bytes) (ids : list StreamID) (st : St) (l : list StreamEntry)
    (gm pm : gmap bytes Value) :
  healthy (st_ctx st) → is_stream (view (st_ctx st) key) l → is_live (view (st_ctx st) key) = true →
  removed_ids (net_removes key (st_ctx st)) →
  keyed (view (st_ctx st) (groupKey key g)) gm → keyed (view (st_ctx st) (pelKey key g)) pm →
  args ≠ [] → parse_ids args = Some ids → NoDup ids →
  ∃ run, handleXAck (key :: g :: args) = Accept [key] run ∧
    match group_state gm with
    | None => finishes run st (WriteError (nogroup g key) (st_w st)) (same (st_ctx st))
    | Some _ =>
      finishes run st (WriteInteger (len (filter (λ id, is_Some (pending pm id)) ids)) (st_w st))
        (λ c', others (st_ctx st) (pelKey key g) c' ∧
           ∃ pm', keyed (view c' (pelKey key g)) pm' ∧
             ∀ id, is_sid id → pending pm' id = if bool_decide (id ∈ ids) then None else pending pm id)
    end.
Proof.
  intros Hh Hl El Hr Hg Hp Hne Hids Hd. exists (xack_runner key g ids). split.
  { unfold handleXAck. destruct args as [|a args]; [done|]. by rewrite Hids. }
  pose proof (parse_ids_sid _ _ Hids) as Hsid. unfold group_state, xack_runner. destruct (gm !! groupElement) as [v|] eqn:Ev; cbn [fmap option_fmap option_map].
  2: { eapply finishes_with_group; [done|exact Hl|done|done|exact Hg| |done]. intros s c' _ _ _ [v Hv]. congruence. }
  eapply finishes_with_group; [done|exact Hl|done|done|exact Hg| |by rewrite Ev]. intros s c' Hse Hh' Hs _.
  destruct (steps_keyed_snap (pelKey key g) (mkSt c' (st_w st) (st_held st)) pm) as (snap & Hsnap & Hm); [done|by cbn [st_ctx]; rewrite Hs|].
  eapply finishes_bind; [exact Hsnap|]. cbn [st_ctx st_w st_held]. intros c2 Hh2 Hs2. pose proof (same_trans _ _ _ Hs Hs2) as Hs02.
  eapply finishes_bind.
  { apply (steps_ack_loop key g snap pm ids 0 (mkSt c2 _ _) pm); [done|done|done|done|by cbn [st_ctx]; rewrite Hs02|done]. }
  cbn [st_ctx st_w st_held]. intros c3 Hh3 [Hk3 Ho3]. apply finishes_write; [done|done|]. cbn [st_ctx]. split.
  - eapply others_trans; [by apply others_same|done].
  - exists (acked ids pm). split; [done|]. intros id Hid. by apply pending_acked.
Qed.

(** ** XREADGROUP *)

Lemma steps_saved {A} (m : M A) st a P : steps m st a P → steps (with_savepoint m) st a P.
Proof. intros (c' & E & Hh & HP). exists c'. unfold with_savepoint. by rewrite E. Qed.

(** The record with the entries given out. *)
Definition recorded (raw : bytes) (l : list StreamEntry) (pm : gmap bytes Value) : gmap bytes Value :=
  foldl (λ pm e, <[encodeStreamElementID (se_ID e) := Raw raw]> pm) pm l.

Lemma pending_recorded consumer time n l pm id : Forall (λ e, is_sid (se_ID e)) l → is_sid id →
  len consumer < 2 ^ 32 → is_i64 time → is_i64 n →
  pending (recorded (encodePELEntry consumer time n) l pm) id =
  if bool_decide (id ∈ se_ID <$> l) then Some (consumer, time, n) else pending pm id.
Proof.
  intros Hl Hid Hc Ht Hn. revert pm. induction Hl as [|e l He _ IH]; intros pm; [done|].
  change (recorded ?r (e :: l) pm) with (recorded r l (<[encodeStreamElementID (se_ID e) := Raw r]> pm)). rewrite IH, fmap_cons.
  unfold pending. destruct (decide (id = se_ID e)) as [->|Hne].
  - rewrite lookup_insert_eq, (bool_decide_eq_true_2 (se_ID e ∈ se_ID e :: _)) by (by left). unfold compose. cbn [fmap option_fmap option_map].
    rewrite law_raw, decode_encode_pending by done. by destruct (bool_decide _).
  - rewrite lookup_insert_ne by (intros E; apply Hne; symmetry; by apply encode_id_inj).
    rewrite (bool_decide_ext (id ∈ se_ID e :: (se_ID <$> l)) (id ∈ se_ID <$> l)); [done|]. rewrite elem_of_cons. tauto.
Qed.

Lemma steps_record key g raw l st pm : healthy (st_ctx st) → keyed (view (st_ctx st) (pelKey key g)) pm →
  steps (for_each l (λ e, emitPELInsert key g (se_ID e) raw)) st tt (set_to (st_ctx st) (pelKey key g) (recorded raw l pm)).
Proof.
  revert st pm. induction l as [|e l IH]; intros st pm Hh Hk; cbn [for_each]; [by apply steps_ret; [|split]|].
  eapply steps_bind; [exact (steps_keyed_insert _ _ _ st pm Hh Hk)|]. cbv beta. intros c' Hh' Hset.
  eapply steps_weaken; [apply (IH (mkSt c' _ _)); [done|apply Hset]|]. cbn [st_ctx]. intros c'' Hset'. by eapply set_to_trans.
Qed.

(** The state a group moves to when it has given out [new]. *)
Definition moved_on (meta : GroupMeta) (new : list StreamEntry) : GroupMeta :=
  mkGroupMeta (streamLastID new)
    (if 0 <=? gm_EntriesRead meta then i64 (gm_EntriesRead meta + len new) else len new) (gm_CreatedAt meta).

(** What a read of new entries leaves behind. *)
Record gave_out (c : Ctx) (key g consumer : bytes) (now : Z) (noAck : bool) (meta : GroupMeta) (new : list StreamEntry)
    (gm pm : gmap bytes Value) (c' : Ctx) : Prop := {
  go_group : keyed (view c' (groupKey key g))
    (<[consumerElement consumer := Raw (encodeConsumerMeta now now)]>
       (<[groupElement := Raw (encodeGroupMeta (moved_on meta new))]> gm));
  go_pending : keyed (view c' (pelKey key g))
    (if noAck then pm else recorded (encodePELEntry consumer now 1) new pm);
  go_others k : k ≠ groupKey key g → k ≠ pelKey key g → view c' k = view c k
}.

Lemma steps_read_new key g consumer count noAck now s gSnap st l gm pm : healthy (st_ctx st) → snap_entries s = l →
  sorted_ids l → Forall (λ e, is_sid (se_ID e)) l → 0 <= count → net_adds gSnap = gm →
  keyed (view (st_ctx st) (groupKey key g)) gm → keyed (view (st_ctx st) (pelKey key g)) pm →
  let meta := getGroupMeta gSnap in
  let new := upto count (filter (λ e, sid_lt (gm_LastDelivered meta) (se_ID e)) l) in
  steps (read_new key g consumer count noAck now s gSnap) st new
    (λ c', if 0 <? len new then gave_out (st_ctx st) key g consumer now noAck meta new gm pm c' else same (st_ctx st) c').
Proof.
  intros Hh Hl Hs Hf Hc Hm Hg Hp meta new. unfold read_new. fold meta. rewrite Hl, rangeEntries_spec, range_after by done.
  fold new. cbv zeta. destruct (Z.ltb_spec 0 (len new)) as [|Hz].
  2: { destruct new; [|unfold len in Hz; cbn in Hz; lia]. by apply steps_ret. }
  eapply steps_bind; [exact (steps_keyed_insert _ _ _ st gm Hh Hg)|]. cbv beta. intros c1 Hh1 [Hk1 Ho1].
  eapply steps_bind; [exact (steps_keyed_insert _ _ _ (mkSt c1 _ _) _ Hh1 Hk1)|]. cbn [st_ctx st_w st_held]. intros c2 Hh2 [Hk2 Ho2].
  assert (Ho12 : others (st_ctx st) (groupKey key g) c2) by (by eapply others_trans).
  assert (Hp2 : keyed (view c2 (pelKey key g)) pm) by (rewrite Ho12 by apply pelKey_groupKey; done).
  eapply (steps_bind _ _ _ tt (set_to c2 (pelKey key g) (if noAck then pm else recorded (encodePELEntry consumer now 1) new pm))).
  { destruct noAck; [by apply (steps_ret _ (mkSt c2 _ _)); [|split]|]. by apply (steps_record key g _ new (mkSt c2 _ _) pm). }
  cbn [st_ctx st_w st_held]. intros c3 Hh3 [Hk3 Ho3]. apply (steps_ret _ (mkSt c3 _ _)); [done|]. cbn [st_ctx]. split; [|done|].
  - rewrite Ho3 by (intros E; by apply (pelKey_groupKey key g g)). exact Hk2.
  - intros k Hk Hk'. by rewrite Ho3, Ho12.
Qed.
Lemma xreadgroup_opts_count checked args o o' rest : 0 <= rg_count o → xreadgroup_opts checked args o = Ok (o', rest) →
  0 <= rg_count o'.
Proof.
  remember (length args) as n eqn:En. assert (Hn : (length args <= n)%nat) by lia. clear En. revert args o Hn.
  induction n as [|n IH]; intros [|a args] o Hn Hc; cbn [length] in Hn; try lia; try done.
  cbn [xreadgroup_opts]. destruct o as [count block claim noAck]. cbn [rg_count] in Hc.
  destruct (beq (ToUpper a) (str "COUNT")).
  { destruct args as [|x args]; [done|]. cbn [length] in Hn. unfold parse_count. destruct (Atoi x) as [c|]; [|done].
    destruct (Z.ltb_spec c 0); [done|]. apply IH; [lia|done]. }
  destruct (beq (ToUpper a) (str "BLOCK")).
  { destruct args as [|x args]; [done|]. cbn [length] in Hn. destruct checked; [destruct (parse_block x); [|done]|]; (apply IH; [lia|done]). }
  destruct (beq (ToUpper a) (str "CLAIM")).
  { destruct args as [|x args]; [done|]. cbn [length] in Hn. destruct checked; [destruct (parse_claim x); [|done]|]; (apply IH; [lia|done]). }
  destruct (beq (ToUpper a) (str "NOACK")); [apply IH; [lia|done]|].
  destruct (beq (ToUpper a) (str "STREAMS")); [by intros [= <- <-]|done].
Qed.

Lemma parse_xreadgroup_count checked args rd : parse_xreadgroup checked args = Ok rd → 0 <= rg_count (rd_opts rd).
Proof.
  unfold parse_xreadgroup. destruct args as [|a [|g [|c [|x [|y [|z rest]]]]]]; try done. destruct (negb _); [done|].
  destruct (xreadgroup_opts _ _ _) as [[o rest']|] eqn:E; [|done]. apply xreadgroup_opts_count in E; [|done].
  destruct (group_stream_args rest'); [|done]. by intros [= <-].
Qed.

Lemma steps_readgroup_one rd noGroup key st l gm pm : healthy (st_ctx st) →
  is_stream (view (st_ctx st) key) l → is_live (view (st_ctx st) key) = true → removed_ids (net_removes key (st_ctx st)) →
  keyed (view (st_ctx st) (groupKey key (rd_group rd))) gm → keyed (view (st_ctx st) (pelKey key (rd_group rd))) pm →
  is_Some (gm !! groupElement) → 0 <= rg_count (rd_opts rd) →
  ∃ meta, group_state gm = Some meta ∧
    let new := upto (rg_count (rd_opts rd)) (filter (λ e, sid_lt (gm_LastDelivered meta) (se_ID e)) l) in
    steps (readgroup_loop rd noGroup 0 [(key, NewOnly)]) st (if 0 <? len new then [mkStreamResult key new] else [])
      (λ c', if 0 <? len new
             then gave_out (st_ctx st) key (rd_group rd) (rd_consumer rd) (now_ms 0) (rg_noAck (rd_opts rd)) meta new gm pm c'
             else same (st_ctx st) c').
Proof.
  intros Hh Hl El Hr Hg Hp [v Hv] Hc. exists (decodeGroupMeta (Decompress v)). unfold group_state. rewrite Hv.
  split; [done|]. cbv zeta. set (new := upto _ _). cbn [readgroup_loop].
  destruct (steps_stream_snapshot key st Hh) as [tips Hsnap]. pose proof (classify_sees_stream _ _ tips _ Hl Hr) as Hse.
  eapply steps_bind; [exact Hsnap|]. cbv beta. intros c1 Hh1 Hs1. rewrite (ss_type _ _ _ _ Hse), (ss_there _ _ _ _ Hse), El.
  destruct (steps_keyed_snap (groupKey key (rd_group rd)) (mkSt c1 (st_w st) (st_held st)) gm) as (snap & Hsn & Hm); [done|by cbn [st_ctx]; rewrite Hs1|].
  eapply steps_bind; [exact Hsn|]. cbn [st_ctx st_w st_held]. intros c2 Hh2 Hs2. pose proof (same_trans _ _ _ Hs1 Hs2) as Hs02.
  unfold has_group. rewrite (has_member_adds _ _ _ Hm), Hv. cbn [negb orb]. rewrite bool_decide_eq_true_2 by done. cbn [negb].
  assert (Em : getGroupMeta snap = decodeGroupMeta (Decompress v)) by (unfold getGroupMeta; by rewrite Hm, Hv).
  eapply steps_bind.
  { apply (steps_read_new key (rd_group rd) (rd_consumer rd) _ _ (now_ms 0) _ snap (mkSt c2 _ _) l gm pm); try done.
    - apply (ss_list _ _ _ _ Hse).
    - by eapply is_stream_sorted.
    - by apply (raw_stream_sids _ _ (proj1 Hl)).
    - cbn [st_ctx]. by rewrite Hs02.
    - cbn [st_ctx]. by rewrite Hs02. }
  rewrite Em. fold new. cbn [st_ctx st_w st_held]. intros c3 Hh3 HP. eapply steps_bind; [by apply (steps_ret [] (mkSt c3 _ _) (eq c3))|].
  cbn [st_ctx st_w st_held]. intros c4 _ <-. apply (steps_ret _ (mkSt c3 _ _)); [done|]. cbn [st_ctx].
  destruct (0 <? len new); [|by eapply same_trans]. destruct HP as [H1' H2' H3']. split; [done|done|]. intros k Hk Hk'.
  by rewrite H3', Hs02.
Qed.
(** What can be read back of a group that has given out entries. *)
Lemma gave_out_state meta new gm consumer now : is_sid (streamLastID new) → is_i64 (len new) → is_i64 (gm_CreatedAt meta) →
  group_state (<[consumerElement consumer := Raw (encodeConsumerMeta now now)]>
    (<[groupElement := Raw (encodeGroupMeta (moved_on meta new))]> gm)) = Some (moved_on meta new).
Proof.
  intros Hs Hl Hc. unfold group_state. rewrite lookup_insert_ne by (by intros [=]). rewrite lookup_insert_eq.
  unfold compose. cbn [fmap option_fmap option_map]. rewrite law_raw, decode_encode_group; [done|done| |done].
  unfold moved_on. cbn [gm_EntriesRead]. destruct (0 <=? _); [apply i64_range|done].
Qed.

Lemma decoded_created raw : is_i64 (gm_CreatedAt (decodeGroupMeta raw)).
Proof. unfold decodeGroupMeta. destruct (len raw <? 32); [done|]. apply i64_range. Qed.

Lemma upto_last {A} count (l : list A) : (length (upto count l) <= length l)%nat.
Proof. unfold upto. destruct (0 <? count); [rewrite length_take; lia|lia]. Qed.

End StreamGroupProps.
