(* ===== verification/StreamExamples.v ===== *)
(** * The stream commands on concrete streams

    The laws on the reference engine, concrete runs of the theorems on streams,
    and the inputs on which the commands depart from what they mean to do. *)

From S2P Require Import Prelude GoBytes Strconv Floats Commands Writer Engine Runs Sets Strings Hashes HashTheorems Lists ListProps Blocking ListBlocking StreamIds Streams StreamCommands StreamReads StreamGroups StreamDelivery StreamProps StreamTheorems StreamXTrim StreamGroupProps.

Local Open Scope Z_scope.

Module StreamRun.
Import RefEngine.

#[export] Instance no_removes : @NetRemoves ref_engine := λ _ _, [].
#[export] Instance names_order : RangeOrder := λ X, elements X.
#[export] Instance clock_5 : StreamClock := λ _, 5.
#[export] Instance nodes_of_100 : NodeMaxEntries := 100.
#[export] Instance pairs_as_given : PairSort := id.
#[export] Instance empty_is_nil : NilAdds := λ snap, bool_decide (net_adds snap = ∅).
#[export] Instance hash_len : Xxh3 := λ b, len b.

#[export] Instance ref_stream_laws : StreamLaws.
Proof.
  split.
  - done.
  - intros k id tips c r _ Hr Hl Hc left. left. unfold view, ref_laws in *. cbv beta in Hr, Hl. unfold Emit, ref_engine, ref_emit.
    cbn [snd fst ef_Key ef_Kind]. rewrite lookup_partial_alter_eq. unfold ref_reduce, reduce, stream_remove.
    cbn [de_Collection de_Op de_Merge de_Value de_Id de_Placement]. rewrite Hr in Hl |- *. rewrite Hl.
    cbn [andb negb]. rewrite bool_decide_eq_false_2 by done. cbn [negb]. by rewrite bool_decide_eq_true_2.
  - intros k id tips c _ Hl. unfold view, ref_laws in *. cbv beta in Hl. unfold Emit, ref_engine, ref_emit.
    cbn [snd fst ef_Key ef_Kind]. rewrite lookup_partial_alter_eq. unfold ref_reduce, reduce, stream_remove.
    cbn [de_Collection de_Op de_Merge de_Value de_Id de_Placement]. destruct (c.1 !! k) as [r|]; [|done].
    rewrite Hl. cbn [andb negb]. exact Hl.
Qed.

(** ** The index as a set of keys *)

Definition set_keys (X : gset bytes) : list bytes := sort_Strings (elements X).
#[export] Instance set_trie : KeyTrie := {|
  KeyIndex := gset bytes; TrieTips := unit; keytrie_New := ∅;
  trie_Insert := λ k X, {[ k ]} ∪ X; trie_Contains := λ _ _, tt; trie_Delete := λ k _ X, X ∖ {[ k ]};
  trie_Size := λ X, len (set_keys X); trie_First := λ X, head (set_keys X);
  trie_Next := λ k X, head (filter (bytes_lt k) (set_keys X))
|}.

Lemma sorted_distinct l : Sorted str_le l → NoDup l → StronglySorted bytes_lt l.
Proof.
  intros Hs. apply Sorted_StronglySorted in Hs.
  2: { intros a b c Ha Hb. unfold str_le in *. destruct (blt c a) eqn:E; [|done]. destruct (blt_total a b) as [Hab|[->|Hba]]; [|congruence|congruence].
       rewrite (blt_trans c a b E Hab) in Hb. done. }
  induction Hs as [|a l Hs IH Hf]; intros Hd; [constructor|]. apply NoDup_cons in Hd as [Hn Hd]. constructor; [by apply IH|].
  rewrite Forall_forall in *. intros b Hb. specialize (Hf b Hb). unfold str_le, bytes_lt in *.
  destruct (blt_total a b) as [?|[->|?]]; [done|done|congruence].
Qed.

Lemma elem_of_set_keys x X : x ∈ set_keys X ↔ x ∈ X.
Proof. unfold set_keys, sort_Strings. by rewrite merge_sort_Permutation, elem_of_elements. Qed.

#[export] Instance set_trie_laws : KeyTrieLaws.
Proof.
  refine {| trie_keys := set_keys |}; intros; try done.
  - apply sorted_distinct.
    + apply Sorted_merge_sort, str_le_total.
    + unfold set_keys, sort_Strings. rewrite merge_sort_Permutation. apply NoDup_elements.
  - rewrite !elem_of_set_keys. cbn. set_solver.
  - rewrite !elem_of_set_keys. cbn. set_solver.
Qed.

(** ** Runs

    The stream "s" of three entries; its group "g" has given out the first, to
    "alice". *)

Definition entry (ms seq : Z) : StreamEntry := mkStreamEntry (mkSID ms seq) [str "a"; str "1"].
Definition stored (e : StreamEntry) : Element := mkElement (encodeStreamElementID (se_ID e)) (Raw (encodeStreamFields (se_Fields e))).
Definition three : list StreamEntry := [entry 1 0; entry 1 1; entry 2 0].
Definition group_g : gmap bytes Value := {[ groupElement := Raw (encodeGroupMeta (mkGroupMeta (mkSID 1 0) 1 4)) ]}.
Definition pending_g : gmap bytes Value := {[ encodeStreamElementID (mkSID 1 0) := Raw (encodePELEntry (str "alice") 4 1) ]}.
Definition keyed_set (m : gmap bytes Value) : ReducedEffect := mkReduced INSERT_OP KEYED TYPE_UNSPECIFIED None m [].
Definition streams : St := mkSt (holding
  {[ str "s" := mkReduced INSERT_OP ORDERED TYPE_STREAM None ∅ (stored <$> three);
     groupKey (str "s") (str "g") := keyed_set group_g;
     pelKey (str "s") (str "g") := keyed_set pending_g ]}) (NewWriter []) [].

Lemma streams_healthy : healthy (st_ctx streams).
Proof. exact I. Qed.
Lemma no_removed key : removed_ids (net_removes key (st_ctx streams)).
Proof. constructor. Qed.
Lemma s_is_stream : is_stream (view (st_ctx streams) (str "s")) three.
Proof.
  split; [|done].
  change (ORDERED = ORDERED ∧ (∅ : gmap bytes Value) = ∅ ∧ Forall2 stores (stored <$> three) three ∧ sorted_ids three).
  split_and!; [done|done| |].
  - repeat constructor; try (by vm_compute). all: cbn; unfold is_u64, MaxUint64; lia.
  - apply (bool_decide_unpack (StronglySorted sid_lt (se_ID <$> three))). by vm_compute.
Qed.
Lemma g_keyed : keyed (view (st_ctx streams) (groupKey (str "s") (str "g"))) group_g.
Proof. split; [by vm_compute|]. exists ∅. by vm_compute. Qed.
Lemma pel_keyed : keyed (view (st_ctx streams) (pelKey (str "s") (str "g"))) pending_g.
Proof. split; [by vm_compute|]. exists ∅. by vm_compute. Qed.
Lemma cfg_keyed : keyed (view (st_ctx streams) (cfgKey (str "s"))) ∅.
Proof. split; [by vm_compute|]. exists ∅. by vm_compute. Qed.

Lemma xadd_correct_witness :
  ∃ run, handleXAdd [str "s"; str "*"; str "b"; str "2"] = Accept [str "s"] run ∧
    finishes run streams (WriteBulkStringStr (str "5-0") (NewWriter []))
      (added (st_ctx streams) (str "s") three ∅ (mkStreamEntry (mkSID 5 0) [str "b"; str "2"])).
Proof.
  destruct (xadd_correct (str "s") (str "*") [str "b"; str "2"] streams three ∅ streams_healthy s_is_stream
    (no_removed _) cfg_keyed) as (run & Hp & Hr & _).
  - by apply no_option_dec.
  - cbn. lia.
  - done.
  - split; [done|]. by repeat constructor.
  - exists run. split; [exact Hp|exact Hr].
Defined.

Lemma xrange_correct_witness :
  ∃ run, handleXRange [str "s"; str "(1-0"; str "+"; str "COUNT"; str "1"] = Accept [str "s"] run ∧
    finishes run streams (writeStreamEntries [entry 1 1] (NewWriter [])) (same (st_ctx streams)).
Proof.
  destruct (xrange_correct (str "s") (str "(1-0") (str "+") [str "COUNT"; str "1"] (mkSID 1 0) MaxStreamID true false 1
    streams three streams_healthy s_is_stream (no_removed _) eq_refl eq_refl eq_refl)
    as (run & _ & _ & Hp & _ & _ & Hr & _).
  exists run. split; [exact Hp|exact Hr].
Defined.

Lemma xdel_correct_witness :
  ∃ run, handleXDel [str "s"; str "1-1"; str "9-9"] = Accept [str "s"] run ∧
    finishes run streams (WriteInteger 1 (NewWriter [])) (stream_set (st_ctx streams) (str "s") [entry 1 0; entry 2 0]).
Proof.
  exact (xdel_correct (str "s") [str "1-1"; str "9-9"] [mkSID 1 1; mkSID 9 9] streams three streams_healthy s_is_stream
    (no_removed _) ltac:(done) eq_refl).
Defined.

Lemma xtrim_correct_witness :
  ∃ run k, handleXTrim [str "s"; str "MAXLEN"; str "2"] = Accept [str "s"] run ∧
    finishes run streams (WriteInteger k (NewWriter [])) (stream_set (st_ctx streams) (str "s") (drop (Z.to_nat k) three)) ∧ k = 1.
Proof.
  destruct (xtrim_correct (str "s") (str "MAXLEN") [str "2"] (mkTrim 2 None false 0 0 RefModeKeepRef true false) streams three
    streams_healthy s_is_stream (no_removed _) ltac:(done) ltac:(done) eq_refl eq_refl) as (run & k & Hp & _ & Hr & Hk & _).
  exists run, k. split; [exact Hp|]. split; [exact Hr|]. exact (Hk eq_refl eq_refl).
Defined.

Lemma xack_correct_witness :
  ∃ run, handleXAck [str "s"; str "g"; str "1-0"; str "2-0"] = Accept [str "s"] run ∧
    finishes run streams (WriteInteger 1 (NewWriter []))
      (λ c', others (st_ctx streams) (pelKey (str "s") (str "g")) c' ∧
         ∃ pm', keyed (view c' (pelKey (str "s") (str "g"))) pm' ∧
           ∀ id, is_sid id → pending pm' id =
             if bool_decide (id ∈ [mkSID 1 0; mkSID 2 0]) then None else pending pending_g id).
Proof.
  apply (xack_correct (str "s") (str "g") [str "1-0"; str "2-0"] [mkSID 1 0; mkSID 2 0] streams three group_g pending_g
    streams_healthy s_is_stream eq_refl (no_removed _) g_keyed pel_keyed ltac:(done) eq_refl).
  apply (bool_decide_unpack _). by vm_compute.
Defined.

End StreamRun.

(** ** Departures *)

Module StreamFacts.
Import RefEngine StreamRun.

Definition run_on (st : St) (p : Prep) : bytes * Ctx :=
  match p with
  | Accept _ run => let st' := snd (run st) in (w_buf (st_w st'), st_ctx st')
  | Refuse _ f => (w_buf (f (st_w st)), st_ctx st)
  | Crash => ([], st_ctx st)
  end.
(** The number of entries of "s" and what is pending in "g", after a run. *)
Definition left_in (c : Ctx) : nat :=
  match view c (str "s") with Some r => length (re_OrderedElements r) | None => 0 end.
Definition held_by (c : Ctx) (id : StreamID) : option (bytes * Z * Z) :=
  pending (net_adds (view c (pelKey (str "s") (str "g")))) id.

(** The same stream, its first entry pending with the consumer named. *)
Definition pending_with (consumer : bytes) : St := mkSt (holding
  {[ str "s" := mkReduced INSERT_OP ORDERED TYPE_STREAM None ∅ (stored <$> three);
     groupKey (str "s") registryName := keyed_set {[ str "g" := Raw [1] ]};
     groupKey (str "s") (str "g") := keyed_set group_g;
     pelKey (str "s") (str "g") := keyed_set {[ encodeStreamElementID (mkSID 1 0) := Raw (encodePELEntry consumer 4 1) ]} ]})
  (NewWriter []) [].

(** XTRIM ACKED keeps the entry "alice" has not acknowledged, and trims it when it
    is "bob" who has it: of a name under four bytes the record is passed over. *)
Example xtrim_acked_short_name :
  left_in (snd (run_on (pending_with (str "alice")) (handleXTrim [str "s"; str "MAXLEN"; str "0"; str "ACKED"]))) = 3%nat ∧
  left_in (snd (run_on (pending_with (str "bob")) (handleXTrim [str "s"; str "MAXLEN"; str "0"; str "ACKED"]))) = 2%nat ∧
  held_by (snd (run_on (pending_with (str "bob")) (handleXTrim [str "s"; str "MAXLEN"; str "0"; str "ACKED"]))) (mkSID 1 0) =
    Some (str "bob", 4, 1).
Proof. by vm_compute. Qed.

(** XTRIM MAXLEN ~ with a length near the largest integer empties the stream: the
    length rounded up to whole nodes wraps. *)
Example approx_maxlen_wraps :
  left_in (snd (run_on streams (handleXTrim [str "s"; str "MAXLEN"; str "~"; str "9223372036854775807"]))) = 0%nat ∧
  left_in (snd (run_on streams (handleXTrim [str "s"; str "MAXLEN"; str "9223372036854775807"]))) = 3%nat.
Proof. by vm_compute. Qed.

(** JUSTID leaves the number of deliveries alone in XCLAIM and raises it in
    XAUTOCLAIM. *)
Example justid_counts :
  held_by (snd (run_on streams (handleXClaim [str "s"; str "g"; str "bob"; str "0"; str "1-0"; str "JUSTID"]))) (mkSID 1 0) =
    Some (str "bob", 5, 1) ∧
  held_by (snd (run_on streams (handleXAutoClaim [str "s"; str "g"; str "bob"; str "0"; str "0-0"; str "JUSTID"]))) (mkSID 1 0) =
    Some (str "bob", 5, 2).
Proof. by vm_compute. Qed.

(** XDEL counts an id named twice two times, and takes one entry. *)
Example xdel_counts_twice :
  fst (run_on streams (handleXDel [str "s"; str "1-1"; str "1-1"])) = str ":2" ++ [13; 10] ∧
  left_in (snd (run_on streams (handleXDel [str "s"; str "1-1"; str "1-1"]))) = 2%nat.
Proof. by vm_compute. Qed.

(** The group named as the registry shares its key, and the keys of two streams'
    groups can be the same. *)
Lemma group_keys_collide (a b c : bytes) :
  groupKey a (b ++ 1 :: str "g" ++ 1 :: c) = groupKey (a ++ 1 :: str "g" ++ 1 :: b) c.
Proof. unfold groupKey. rewrite <- !app_assoc. cbn [app]. by rewrite <- !app_assoc. Qed.

(** An id of zero is never above the last one, so XADD gives it the error about
    the top item; the error of its own that follows is never given. *)
Lemma zero_id_too_small (id last : StreamID) : is_sid last → 0 < StreamID_Compare id last → StreamID_IsZero id = false.
Proof.
  intros Hl Hc%Compare_gt. destruct (StreamID_IsZero id) eqn:E; [|done]. apply IsZero_eq in E. subst id.
  destruct last as [ms seq]. unfold is_sid, is_u64, sid_lt in *. cbn [sid_Ms sid_Seq] in *. lia.
Qed.

(** XREADGROUP in a script reads nothing and answers nothing. *)
Lemma xreadgroup_in_script (args : list bytes) (rd : ReadGroup) (events : list WaitEvent) (sub : SubscriptionManager) (st : St) :
  parse_xreadgroup false args = Ok rd → handleXReadGroup true args events sub st = (Returned, sub, st).
Proof. intros Hp. unfold handleXReadGroup, before_block, handleXReadGroupNonBlocking. rewrite Hp. done. Qed.
End StreamFacts.
