(* ===== verification/PubSub.v ===== *)
(** * Publish and subscribe

    src/redis/pubsub/manager.go and handlers.go, shared/pubsub_client.go and
    shared/pubsub_cluster.go.  A client in pub/sub mode is an object with
    identity, here a number into the heap of clients.  The glob matcher, the
    order in which Go visits a map and the router to the other nodes are
    parameters. *)

From S2P Require Import Prelude GoBytes Strconv Floats Commands Writer Engine Sets Strings Hashes.

Local Open Scope Z_scope.

(** [keytrie.MatchGlob(channel, pattern)]. *)
Class ChannelGlob := MatchGlob : bytes → bytes → bool.

(** The order in which the subscribers of a channel are visited. *)
Class ClientOrder := range_clients : gset nat → list nat.
Class ClientOrderLaws `{ClientOrder} := range_clients_perm X : range_clients X ≡ₚ elements X.

(** ** Messages and clients *)

Record PubSubMessage := mkMessage {
  msg_Type : bytes; msg_Pattern : bytes; msg_Channel : bytes; msg_Payload : bytes; msg_Count : Z
}.
Definition messageTypeMessage : bytes := str "message".
Definition messageTypePMessage : bytes := str "pmessage".
Definition messageTypeSubscribe : bytes := str "subscribe".
Definition messageTypeUnsubscribe : bytes := str "unsubscribe".
Definition messageTypePSubscribe : bytes := str "psubscribe".
Definition messageTypePUnsubscribe : bytes := str "punsubscribe".

Definition PubsubMsgChanSize : Z := 1000.

Record PubSubClient := mkClient {
  pc_msgChan : list PubSubMessage;
  pc_protocol : ProtocolVersion;
  pc_droppedMessages : Z;
  pc_closed : bool;
  pc_busy : bool
}.
Definition NewPubSubClient (p : ProtocolVersion) : PubSubClient := mkClient [] p 0 false false.

(** A message that finds the channel full is dropped and counted. *)
Definition Send (msg : PubSubMessage) (c : PubSubClient) : bool * PubSubClient :=
  let '(mkClient msgs p dropped closed busy) := c in
  if closed then (false, c)
  else if len msgs <? PubsubMsgChanSize then (true, mkClient (msgs ++ [msg]) p dropped closed busy)
  else (false, mkClient msgs p (i64 (dropped + 1)) closed busy).
Definition SetBusy (busy : bool) (c : PubSubClient) : PubSubClient :=
  mkClient (pc_msgChan c) (pc_protocol c) (pc_droppedMessages c) (pc_closed c) busy.
Definition IsBusy (c : PubSubClient) : bool := pc_busy c.
Definition Close (c : PubSubClient) : PubSubClient :=
  mkClient (pc_msgChan c) (pc_protocol c) (pc_droppedMessages c) true (pc_busy c).

(** ** The tables *)

Record Manager := mkManager {
  m_channels : gmap bytes (gset nat);
  m_patterns : gmap bytes (gset nat);
  m_clientChannels : gmap nat (gset bytes);
  m_clientPatterns : gmap nat (gset bytes)
}.
Definition NewManager : Manager := mkManager ∅ ∅ ∅ ∅.

(** The subscribers by name, and the names by subscriber. *)
Definition Table : Type := gmap bytes (gset nat) * gmap nat (gset bytes).

(** Also: is it the first subscriber. *)
Definition table_add (client : nat) (name : bytes) (t : Table) : bool * Table :=
  let '(subs, index) := t in
  (bool_decide (subs !! name = None),
   (<[name := {[ client ]} ∪ default ∅ (subs !! name)]> subs,
    <[client := {[ name ]} ∪ default ∅ (index !! client)]> index)).

(** Out of the subscribers; the name goes with the last of them. *)
Definition leave_name (client : nat) (name : bytes) (subs : gmap bytes (gset nat)) : bool * gmap bytes (gset nat) :=
  match subs !! name with
  | Some s =>
    let s := s ∖ {[ client ]} in
    if bool_decide (s = ∅) then (true, delete name subs) else (false, <[name := s]> subs)
  | None => (false, subs)
  end.
(** Also: was it the last subscriber. *)
Definition table_remove (client : nat) (name : bytes) (t : Table) : bool * Table :=
  let '(subs, index) := t in
  let '(gone, subs) := leave_name client name subs in
  (gone, (subs, match index !! client with
                | Some names => <[client := names ∖ {[ name ]}]> index
                | None => index
                end)).

Definition names_of (index : gmap nat (gset bytes)) (client : nat) : gset bytes := default ∅ (index !! client).
Definition table_size (t : Table) (client : nat) : Z := Z.of_nat (size (names_of (snd t) client)).

(** One name after the other, with the count after each and those for which
    [change] says so.  [other]: the subscriptions of the other kind. *)
Fixpoint change_all (change : bytes → Table → bool * Table) (client : nat) (other : Z) (names : list bytes) (t : Table) :
    list Z * list bytes * Table :=
  match names with
  | [] => ([], [], t)
  | name :: names' =>
    let '(b, t) := change name t in
    let count := table_size t client + other in
    let '(counts, changed, t) := change_all change client other names' t in
    (count :: counts, if (b : bool) then name :: changed else changed, t)
  end.

Definition chan_table (m : Manager) : Table := (m_channels m, m_clientChannels m).
Definition pat_table (m : Manager) : Table := (m_patterns m, m_clientPatterns m).
Definition with_channels (t : Table) (m : Manager) : Manager :=
  mkManager (fst t) (m_patterns m) (snd t) (m_clientPatterns m).
Definition with_patterns (t : Table) (m : Manager) : Manager :=
  mkManager (m_channels m) (fst t) (m_clientChannels m) (snd t).

Definition SubscriptionCount (client : nat) (m : Manager) : Z :=
  table_size (chan_table m) client + table_size (pat_table m) client.

(** ** Announcements *)

(** The router to the other nodes: what it answers.  The process has none when it
    stands alone. *)
Record PubSubClusterRouter := mkRouter {
  RouteMessage : bytes → bytes → Z;
  ClusterChannels : bytes → list bytes;
  ClusterNumSub : list bytes → gmap bytes Z;
  ClusterPatterns : list bytes
}.

(** Its calls that tell the other nodes. *)
Inductive Announcement : Type :=
  | AnnounceSub (name : bytes) (isPattern : bool)
  | AnnounceUnsub (name : bytes) (isPattern : bool).

(** The names that got their first subscriber, or lost their last. *)
Record Transition := mkTransition { tr_channels : list bytes; tr_patterns : list bytes; tr_unsubscribe : bool }.

(** The calls made of the router, in order; none without a router. *)
Definition announceTransitions (router : option PubSubClusterRouter) (channels patterns : list bytes) (unsubscribe : bool) : list Announcement :=
  match router with
  | None => []
  | Some _ =>
    let announce := if unsubscribe then AnnounceUnsub else AnnounceSub in
    ((λ ch, announce ch false) <$> channels) ++ ((λ p, announce p true) <$> patterns)
  end.
Definition announcements (router : option PubSubClusterRouter) (t : Transition) : list Announcement :=
  announceTransitions router (tr_channels t) (tr_patterns t) (tr_unsubscribe t).

Section PubSub.
Context `{ChannelGlob} `{RangeOrder} `{ClientOrder}.

(** ** What is done under the lock

    Each returns the new tables, the reply, and the transitions to announce once
    the lock is free. *)

Definition Subscribe_locked (client : nat) (channels : list bytes) (m : Manager) : list Z * Transition * Manager :=
  let '(counts, firstTime, t) :=
    change_all (table_add client) client (table_size (pat_table m) client) channels (chan_table m) in
  (counts, mkTransition firstTime [] false, with_channels t m).
Definition PSubscribe_locked (client : nat) (patterns : list bytes) (m : Manager) : list Z * Transition * Manager :=
  let '(counts, firstTime, t) :=
    change_all (table_add client) client (table_size (chan_table m) client) patterns (pat_table m) in
  (counts, mkTransition [] firstTime false, with_patterns t m).

(** All of the client's when no name is given. *)
Definition names_or_all (client : nat) (names : list bytes) (t : Table) : list bytes :=
  match names with [] => range_keys (names_of (snd t) client) | _ => names end.

Definition Unsubscribe_locked (client : nat) (channels : list bytes) (m : Manager) :
    list bytes * list Z * Transition * Manager :=
  match names_or_all client channels (chan_table m) with
  | [] => ([], [0], mkTransition [] [] true, m)
  | names =>
    let '(counts, lastGone, t) :=
      change_all (table_remove client) client (table_size (pat_table m) client) names (chan_table m) in
    (names, counts, mkTransition lastGone [] true, with_channels t m)
  end.
Definition PUnsubscribe_locked (client : nat) (patterns : list bytes) (m : Manager) :
    list bytes * list Z * Transition * Manager :=
  match names_or_all client patterns (pat_table m) with
  | [] => ([], [0], mkTransition [] [] true, m)
  | names =>
    let '(counts, lastGone, t) :=
      change_all (table_remove client) client (table_size (chan_table m) client) names (pat_table m) in
    (names, counts, mkTransition [] lastGone true, with_patterns t m)
  end.

(** A client is taken out of every name it is in. *)
Fixpoint leave_all (client : nat) (names : list bytes) (subs : gmap bytes (gset nat)) : list bytes * gmap bytes (gset nat) :=
  match names with
  | [] => ([], subs)
  | name :: names' =>
    let '(gone, subs) := leave_name client name subs in
    let '(lastGone, subs) := leave_all client names' subs in
    (if (gone : bool) then name :: lastGone else lastGone, subs)
  end.
Definition clear_table (client : nat) (t : Table) : list bytes * Table :=
  match snd t !! client with
  | None => ([], t)
  | Some names =>
    let '(lastGone, subs) := leave_all client (range_keys names) (fst t) in
    (lastGone, (subs, delete client (snd t)))
  end.
Definition Cleanup_locked (client : nat) (m : Manager) : Transition * Manager :=
  let '(lastGoneChans, tc) := clear_table client (chan_table m) in
  let '(lastGonePats, tp) := clear_table client (pat_table m) in
  (mkTransition lastGoneChans lastGonePats true, mkManager (fst tc) (fst tp) (snd tc) (snd tp)).

(** ** The broker

    The tables, the heap of clients, what was announced, in order, and the router
    registered with the process, if any. *)
Record Broker := mkBroker {
  b_manager : Manager; b_clients : gmap nat PubSubClient; b_announced : list Announcement; b_router : option PubSubClusterRouter
}.
Definition announce (t : Transition) (b : Broker) : Broker :=
  mkBroker (b_manager b) (b_clients b) (b_announced b ++ announcements (b_router b) t) (b_router b).
Definition with_manager (m : Manager) (b : Broker) : Broker := mkBroker m (b_clients b) (b_announced b) (b_router b).
Definition with_clients (clients : gmap nat PubSubClient) (b : Broker) : Broker := mkBroker (b_manager b) clients (b_announced b) (b_router b).
Definition with_client (client : nat) (f : PubSubClient → PubSubClient) (b : Broker) : Broker :=
  with_clients (alter f client (b_clients b)) b.

(** The calls, each run to its end: the tables are changed under the lock and the
    transitions announced after it is released.  How the calls of several connections
    interleave between the two is the step relation of PubSubTheorems. *)
Definition Subscribe (client : nat) (channels : list bytes) (b : Broker) : list Z * Broker :=
  let '(counts, t, m) := Subscribe_locked client channels (b_manager b) in
  (counts, announce t (with_manager m b)).
Definition PSubscribe (client : nat) (patterns : list bytes) (b : Broker) : list Z * Broker :=
  let '(counts, t, m) := PSubscribe_locked client patterns (b_manager b) in
  (counts, announce t (with_manager m b)).
Definition Unsubscribe (client : nat) (channels : list bytes) (b : Broker) : list bytes * list Z * Broker :=
  let '(names, counts, t, m) := Unsubscribe_locked client channels (b_manager b) in
  (names, counts, announce t (with_manager m b)).
Definition PUnsubscribe (client : nat) (patterns : list bytes) (b : Broker) : list bytes * list Z * Broker :=
  let '(names, counts, t, m) := PUnsubscribe_locked client patterns (b_manager b) in
  (names, counts, announce t (with_manager m b)).
Definition Cleanup (client : nat) (b : Broker) : Broker :=
  let '(t, m) := Cleanup_locked client (b_manager b) in
  with_client client Close (announce t (with_manager m b)).

(** ** Delivery *)

Fixpoint send_all (msg : PubSubMessage) (targets : list nat) (clients : gmap nat PubSubClient) : Z * gmap nat PubSubClient :=
  match targets with
  | [] => (0, clients)
  | c :: targets' =>
    let '(ok, clients) :=
      match clients !! c with
      | Some cl => let '(ok, cl) := Send msg cl in (ok, <[c := cl]> clients)
      | None => (false, clients)
      end in
    let '(n, clients) := send_all msg targets' clients in
    ((if (ok : bool) then 1 else 0) + n, clients)
  end.

Definition channel_message (channel message : bytes) : PubSubMessage := mkMessage messageTypeMessage [] channel message 0.
Definition pattern_message (pattern channel message : bytes) : PubSubMessage :=
  mkMessage messageTypePMessage pattern channel message 0.

Fixpoint send_patterns (channel message : bytes) (patterns : list bytes) (subs : gmap bytes (gset nat))
    (clients : gmap nat PubSubClient) : Z * gmap nat PubSubClient :=
  match patterns with
  | [] => (0, clients)
  | p :: patterns' =>
    let '(n, clients) :=
      if MatchGlob channel p then send_all (pattern_message p channel message) (range_clients (default ∅ (subs !! p))) clients
      else (0, clients) in
    let '(n', clients) := send_patterns channel message patterns' subs clients in
    (n + n', clients)
  end.

Definition deliverLocal (channel message : bytes) (b : Broker) : Z * Broker :=
  let m := b_manager b in
  let '(n, clients) := send_all (channel_message channel message) (range_clients (default ∅ (m_channels m !! channel))) (b_clients b) in
  let '(n', clients) := send_patterns channel message (range_keys (dom (m_patterns m))) (m_patterns m) clients in
  (n + n', with_clients clients b).
Definition DeliverLocal (channel message : bytes) (b : Broker) : Broker := snd (deliverLocal channel message b).

Definition Publish (channel message : bytes) (b : Broker) : Z * Broker :=
  let '(count, b) := deliverLocal channel message b in
  (count + match b_router b with Some r => RouteMessage r channel message | None => 0 end, b).

(** ** Queries *)

Definition LocalSubsSnapshot (m : Manager) : list bytes * list bytes :=
  (range_keys (dom (m_channels m)), range_keys (dom (m_patterns m))).

Definition Channels (router : option PubSubClusterRouter) (pattern : bytes) (m : Manager) : list bytes :=
  let seen := filter (λ ch, pattern = [] ∨ MatchGlob ch pattern = true) (dom (m_channels m)) in
  let seen := match router with Some r => seen ∪ list_to_set (ClusterChannels r pattern) | None => seen end in
  sort_Strings (range_keys seen).

Definition NumSub (router : option PubSubClusterRouter) (channels : list bytes) (m : Manager) : gmap bytes Z :=
  let local : gmap bytes Z :=
    foldl (λ res ch, <[ch := match m_channels m !! ch with Some s => Z.of_nat (size s) | None => 0 end]> res) ∅ channels in
  match router with
  | None => local
  | Some r => map_fold (λ ch n res, <[ch := default 0 (res !! ch) + n]> res) local (ClusterNumSub r channels)
  end.

Definition NumPat (router : option PubSubClusterRouter) (m : Manager) : Z :=
  let seen := dom (m_patterns m) in
  Z.of_nat (size (match router with Some r => seen ∪ list_to_set (ClusterPatterns r) | None => seen end)).

(** ** Replies *)

Definition push_head (protocol : ProtocolVersion) (n : Z) : Writer → Writer :=
  match protocol with RESP3 => WritePush n | RESP2 => WriteArray n end.
Definition push_name (name : bytes) : Writer → Writer :=
  match name with [] => WriteNullBulkString | _ => WriteBulkStringStr name end.

Definition FormatPubSubMessage (msg : PubSubMessage) (protocol : ProtocolVersion) : bytes :=
  let w := SetProtocol protocol (NewWriter []) in
  let ty := msg_Type msg in
  w_buf (
    if beq ty messageTypeMessage then
      WriteBulkString (msg_Payload msg) (WriteBulkStringStr (msg_Channel msg)
        (WriteBulkStringStr messageTypeMessage (push_head protocol 3 w)))
    else if beq ty messageTypePMessage then
      WriteBulkString (msg_Payload msg) (WriteBulkStringStr (msg_Channel msg) (WriteBulkStringStr (msg_Pattern msg)
        (WriteBulkStringStr messageTypePMessage (push_head protocol 4 w))))
    else if beq ty messageTypeSubscribe || beq ty messageTypeUnsubscribe then
      WriteInteger (msg_Count msg) (push_name (msg_Channel msg) (WriteBulkStringStr ty (push_head protocol 3 w)))
    else if beq ty messageTypePSubscribe || beq ty messageTypePUnsubscribe then
      WriteInteger (msg_Count msg) (push_name (msg_Pattern msg) (WriteBulkStringStr ty (push_head protocol 3 w)))
    else w).

(** ** Handlers

    The broker, the connection's client if it is in pub/sub mode, its protocol
    and the reply. *)
Record PSt := mkPSt { ps_broker : Broker; ps_client : option nat; ps_protocol : ProtocolVersion; ps_w : Writer }.

Definition say (ty name : bytes) (isPattern : bool) (count : Z) (p : ProtocolVersion) (w : Writer) : Writer :=
  WriteRaw (FormatPubSubMessage
    (mkMessage ty (if isPattern then name else []) (if isPattern then [] else name) [] count) p) w.
Fixpoint say_all (ty : bytes) (isPattern : bool) (names : list bytes) (counts : list Z) (p : ProtocolVersion) (w : Writer) : Writer :=
  match names, counts with
  | name :: names', count :: counts' => say_all ty isPattern names' counts' p (say ty name isPattern count p w)
  | _, _ => w
  end.

(** A new client object when the connection has none. *)
Definition enter (s : PSt) : nat * Broker :=
  match ps_client s with
  | Some c => (c, ps_broker s)
  | None =>
    let c := fresh (dom (b_clients (ps_broker s))) in
    (c, with_clients (<[c := NewPubSubClient (ps_protocol s)]> (b_clients (ps_broker s))) (ps_broker s))
  end.

Definition subscribe_with (ty : bytes) (isPattern : bool) (op : nat → list bytes → Broker → list Z * Broker)
    (args : list bytes) (s : PSt) : PSt :=
  match args with
  | [] => mkPSt (ps_broker s) (ps_client s) (ps_protocol s) (WriteWrongNumArguments ty (ps_w s))
  | _ =>
    let '(c, b) := enter s in
    let '(counts, b) := op c args b in
    mkPSt b (Some c) (ps_protocol s) (say_all ty isPattern args counts (ps_protocol s) (ps_w s))
  end.
Definition handleSubscribe : list bytes → PSt → PSt := subscribe_with messageTypeSubscribe false Subscribe.
Definition handlePSubscribe : list bytes → PSt → PSt := subscribe_with messageTypePSubscribe true PSubscribe.

(** Out of pub/sub mode when nothing is left. *)
Definition exit_mode (c : nat) (s : PSt) : PSt :=
  if SubscriptionCount c (b_manager (ps_broker s)) =? 0
  then mkPSt (Cleanup c (ps_broker s)) None (ps_protocol s) (ps_w s)
  else s.
Definition unsubscribe_with (ty : bytes) (isPattern : bool) (op : nat → list bytes → Broker → list bytes * list Z * Broker)
    (args : list bytes) (s : PSt) : PSt :=
  let p := ps_protocol s in
  match ps_client s with
  | None =>
    let w := match args with
             | [] => say ty [] isPattern 0 p (ps_w s)
             | _ => say_all ty isPattern args (replicate (length args) 0) p (ps_w s)
             end in
    mkPSt (ps_broker s) None p w
  | Some c =>
    let '(names, counts, b) := op c args (ps_broker s) in
    let w := match names with
             | [] => say ty [] isPattern (SubscriptionCount c (b_manager b)) p (ps_w s)
             | _ => say_all ty isPattern names counts p (ps_w s)
             end in
    exit_mode c (mkPSt b (Some c) p w)
  end.
Definition handleUnsubscribe : list bytes → PSt → PSt := unsubscribe_with messageTypeUnsubscribe false Unsubscribe.
Definition handlePUnsubscribe : list bytes → PSt → PSt := unsubscribe_with messageTypePUnsubscribe true PUnsubscribe.

Definition handlePublish (args : list bytes) (s : PSt) : PSt :=
  match args with
  | [channel; message] =>
    let '(count, b) := Publish channel message (ps_broker s) in
    mkPSt b (ps_client s) (ps_protocol s) (WriteInteger count (ps_w s))
  | _ => mkPSt (ps_broker s) (ps_client s) (ps_protocol s) (WriteWrongNumArguments (str "publish") (ps_w s))
  end.

Definition handlePubSubChannels (router : option PubSubClusterRouter) (args : list bytes) (m : Manager) (w : Writer) : Writer :=
  let channels := Channels router (default [] (head args)) m in
  foldl (λ w ch, WriteBulkStringStr ch w) (WriteArray (len channels) w) channels.
Definition handlePubSubNumSub (router : option PubSubClusterRouter) (channels : list bytes) (m : Manager) (w : Writer) : Writer :=
  match channels with
  | [] => WriteArray 0 w
  | _ =>
    let counts := NumSub router channels m in
    foldl (λ w ch, WriteInteger (default 0 (counts !! ch)) (WriteBulkStringStr ch w)) (WriteArray (len channels * 2) w) channels
  end.
Definition handlePubSubNumPat (router : option PubSubClusterRouter) (m : Manager) (w : Writer) : Writer :=
  WriteInteger (NumPat router m) w.
Definition pubsub_help : list bytes :=
  [str "PUBSUB <subcommand> [<arg> [value] [opt] ...]";
   str "CHANNELS [<pattern>]";
   str "    Return the currently active channels matching a <pattern> (default: '*').";
   str "NUMSUB [<channel> ...]";
   str "    Return the number of subscribers for the specified channels, excluding";
   str "    pattern subscriptions.";
   str "NUMPAT";
   str "    Return the number of unique patterns that are subscribed to.";
   str "HELP";
   str "    Print this help."].
Definition handlePubSubHelp (w : Writer) : Writer :=
  foldl (λ w l, WriteBulkStringStr l w) (WriteArray (len pubsub_help) w) pubsub_help.

(** [strings.ToUpper] of the subcommand. *)
Definition handlePubSub `{UnicodeCase} (router : option PubSubClusterRouter) (args : list bytes) (m : Manager) (w : Writer) : Writer :=
  match args with
  | [] => WriteWrongNumArguments (str "pubsub") w
  | a :: rest =>
    let subCommand := strings_ToUpper a in
    if beq subCommand (str "CHANNELS") then handlePubSubChannels router rest m w
    else if beq subCommand (str "NUMSUB") then handlePubSubNumSub router rest m w
    else if beq subCommand (str "NUMPAT") then handlePubSubNumPat router m w
    else if beq subCommand (str "HELP") then handlePubSubHelp w
    else WriteError (str "ERR Unknown PUBSUB subcommand '" ++ subCommand ++ str "'") w
  end.
End PubSub.
