(* ===== verification/PubSubProps.v ===== *)
(** * Publish and subscribe: the tables, delivery and what is announced

    The tables agree in both directions and hold no name without a subscriber;
    what is announced to the other nodes is what is subscribed to here; a message
    reaches each subscriber once for its channel and once for each of its
    patterns that match. *)

From S2P Require Import Prelude GoBytes Strconv Floats Commands Writer Engine Sets SetProps Strings Hashes PubSub.

Local Open Scope Z_scope.

(** ** Tables *)

Record table_ok (t : Table) : Prop := {
  tk_agree client name : client ∈ default ∅ (fst t !! name) ↔ name ∈ names_of (snd t) client;
  tk_live name s : fst t !! name = Some s → s ≠ ∅
}.

Lemma names_insert index c X c' : names_of (<[c := X]> index) c' = if bool_decide (c' = c) then X else names_of index c'.
Proof.
  unfold names_of. case_bool_decide as E; [by subst; rewrite lookup_insert_eq|by rewrite lookup_insert_ne].
Qed.

Lemma members_insert (subs : gmap bytes (gset nat)) n X n' :
  default ∅ (<[n := X]> subs !! n') = if bool_decide (n' = n) then X else default ∅ (subs !! n').
Proof. case_bool_decide as E; [by subst; rewrite lookup_insert_eq|by rewrite lookup_insert_ne]. Qed.

(** What one subscription adds. *)
Lemma table_add_spec client name t : table_ok t →
  let '(first, t') := table_add client name t in
  table_ok t' ∧ (∀ c, names_of (snd t') c = if bool_decide (c = client) then {[ name ]} ∪ names_of (snd t) c else names_of (snd t) c) ∧
  dom (fst t') = {[ name ]} ∪ dom (fst t) ∧ (first = true ↔ name ∉ dom (fst t)).
Proof.
  destruct t as [subs index]. intros [Ha Hl]. unfold table_add. cbn [fst snd] in *. split_and!.
  - split; cbn [fst snd].
    + intros c n. rewrite members_insert, names_insert. specialize (Ha c n) as Hc. specialize (Ha client n) as Hc1.
      unfold names_of in *. repeat case_bool_decide; subst; set_solver.
    + intros n s. destruct (decide (n = name)) as [->|Hne]; [rewrite lookup_insert_eq|rewrite lookup_insert_ne by done; apply Hl].
      intros [= <-]. set_solver.
  - intros c. rewrite names_insert. case_bool_decide; [by subst|done].
  - by rewrite dom_insert_L.
  - by rewrite bool_decide_eq_true, not_elem_of_dom.
Qed.

Lemma leave_spec client name subs : (∀ n s, subs !! n = Some s → s ≠ ∅) →
  let '(gone, subs') := leave_name client name subs in
  (∀ n, default ∅ (subs' !! n) = if bool_decide (n = name) then default ∅ (subs !! n) ∖ {[ client ]} else default ∅ (subs !! n)) ∧
  (∀ n s, subs' !! n = Some s → s ≠ ∅) ∧
  dom subs' = dom subs ∖ (if gone then {[ name ]} else ∅) ∧ (gone = true → name ∈ dom subs).
Proof.
  intros Hl. unfold leave_name. destruct (subs !! name) as [s|] eqn:E.
  2: { split_and!; [|done|set_solver|done]. intros n. case_bool_decide; [|done]. subst n. rewrite E. set_solver. }
  assert (Hd : name ∈ dom subs) by (apply elem_of_dom; by eexists).
  case_bool_decide as Hs.
  - split_and!; [| |by rewrite dom_delete_L|done].
    + intros n. case_bool_decide as En; [subst; by rewrite lookup_delete_eq, E|by rewrite lookup_delete_ne].
    + intros n s' [_ Hn]%lookup_delete_Some. by apply (Hl n).
  - split_and!; [| |rewrite dom_insert_L; set_solver|done].
    + intros n. rewrite members_insert. case_bool_decide; [subst; by rewrite E|done].
    + intros n s' Hn. destruct (decide (n = name)) as [->|Hne]; [|rewrite lookup_insert_ne in Hn by done; by apply (Hl n)].
      rewrite lookup_insert_eq in Hn. by injection Hn as <-.
Qed.

(** What one departure takes away. *)
Lemma table_remove_spec client name t : table_ok t →
  let '(gone, t') := table_remove client name t in
  table_ok t' ∧ (∀ c, names_of (snd t') c = if bool_decide (c = client) then names_of (snd t) c ∖ {[ name ]} else names_of (snd t) c) ∧
  dom (fst t') = dom (fst t) ∖ (if gone then {[ name ]} else ∅) ∧ (gone = true → name ∈ dom (fst t)).
Proof.
  destruct t as [subs index]. intros [Ha Hl]. unfold table_remove. cbn [fst snd] in *.
  pose proof (leave_spec client name subs Hl) as Hs. destruct (leave_name client name subs) as [gone subs'].
  destruct Hs as (Hm & Hl' & Hd & Hg). cbn [fst snd].
  set (index' := match index !! client with Some names => _ | None => index end).
  assert (Hn : ∀ c, names_of index' c = if bool_decide (c = client) then names_of index c ∖ {[ name ]} else names_of index c).
  { intros c. unfold index'. destruct (index !! client) as [ns|] eqn:E.
    - rewrite names_insert. case_bool_decide; [subst; unfold names_of; by rewrite E|done].
    - case_bool_decide; [subst; unfold names_of; rewrite E; set_solver|done]. }
  split_and!; [|done|done|done]. split; cbn [fst snd]; [|done].
  intros c n. rewrite Hm, Hn. specialize (Ha c n). repeat case_bool_decide; subst; set_solver.
Qed.

(** ** Several names *)

Lemma change_all_add client other names t : table_ok t →
  let '(counts, firsts, t') := change_all (table_add client) client other names t in
  table_ok t' ∧
  (∀ c, names_of (snd t') c = if bool_decide (c = client) then list_to_set names ∪ names_of (snd t) c else names_of (snd t) c) ∧
  dom (fst t') = dom (fst t) ∪ list_to_set firsts ∧ length counts = length names ∧
  (∀ i name, names !! i = Some name →
     counts !! i = Some (Z.of_nat (size (list_to_set (take (S i) names) ∪ names_of (snd t) client)) + other)).
Proof.
  revert t. induction names as [|name names IH]; intros t Ht; cbn [change_all].
  { split_and!; [done| |set_solver|done|done]. intros c. case_bool_decide; [|done]. set_solver. }
  pose proof (table_add_spec client name t Ht) as Ha. destruct (table_add client name t) as [first t1].
  destruct Ha as (Ht1 & Hn1 & Hd1 & Hf). specialize (IH t1 Ht1).
  destruct (change_all _ _ _ names t1) as [[counts firsts] t']. destruct IH as (Ht' & Hn' & Hd' & Hlen & Hc).
  split_and!; [done| | |cbn; by rewrite Hlen|].
  - intros c. rewrite Hn', Hn1. case_bool_decide; [|done]. set_solver.
  - rewrite Hd', Hd1. destruct first; [set_solver|].
    assert (name ∈ dom (fst t)) by (destruct (decide (name ∈ dom (fst t))) as [|Hx]; [done|by apply Hf in Hx]). set_solver.
  - intros [|i] n.
    + intros _. cbn [lookup list_lookup take]. unfold table_size. rewrite Hn1, bool_decide_eq_true_2 by done.
      do 3 f_equal. apply (f_equal size). cbn [take]. rewrite take_0. set_solver.
    + change ((?x :: ?l) !! S i) with (l !! i). cbn [take]. intros Hi. rewrite (Hc i n Hi), Hn1, bool_decide_eq_true_2 by done. do 3 f_equal. apply (f_equal size). set_solver.
Qed.

Lemma change_all_remove client other names t : table_ok t →
  let '(counts, gone, t') := change_all (table_remove client) client other names t in
  table_ok t' ∧
  (∀ c, names_of (snd t') c = if bool_decide (c = client) then names_of (snd t) c ∖ list_to_set names else names_of (snd t) c) ∧
  dom (fst t') = dom (fst t) ∖ list_to_set gone ∧ length counts = length names ∧
  (∀ i name, names !! i = Some name →
     counts !! i = Some (Z.of_nat (size (names_of (snd t) client ∖ list_to_set (take (S i) names))) + other)).
Proof.
  revert t. induction names as [|name names IH]; intros t Ht; cbn [change_all].
  { split_and!; [done| |set_solver|done|done]. intros c. case_bool_decide; [|done]. set_solver. }
  pose proof (table_remove_spec client name t Ht) as Ha. destruct (table_remove client name t) as [g t1].
  destruct Ha as (Ht1 & Hn1 & Hd1 & Hf). specialize (IH t1 Ht1).
  destruct (change_all _ _ _ names t1) as [[counts gone] t']. destruct IH as (Ht' & Hn' & Hd' & Hlen & Hc).
  split_and!; [done| | |cbn; by rewrite Hlen|].
  - intros c. rewrite Hn', Hn1. case_bool_decide; [|done]. set_solver.
  - rewrite Hd', Hd1. destruct g; set_solver.
  - intros [|i] n.
    + intros _. cbn [lookup list_lookup take]. unfold table_size. rewrite Hn1, bool_decide_eq_true_2 by done.
      do 3 f_equal. apply (f_equal size). rewrite take_0. set_solver.
    + change ((?x :: ?l) !! S i) with (l !! i). cbn [take]. intros Hi. rewrite (Hc i n Hi), Hn1, bool_decide_eq_true_2 by done. do 3 f_equal. apply (f_equal size). set_solver.
Qed.

(** ** Announcements *)

(** What the other nodes take to be subscribed to here, after the announcements
    made. *)
Definition hear (isPattern : bool) (X : gset bytes) (a : Announcement) : gset bytes :=
  match a with
  | AnnounceSub name p => if bool_decide (p = isPattern) then {[ name ]} ∪ X else X
  | AnnounceUnsub name p => if bool_decide (p = isPattern) then X ∖ {[ name ]} else X
  end.
Definition heard (isPattern : bool) (l : list Announcement) : gset bytes := foldl (hear isPattern) ∅ l.

Lemma hear_subs isPattern p names X :
  foldl (hear isPattern) X ((λ n, AnnounceSub n p) <$> names) = if bool_decide (p = isPattern) then X ∪ list_to_set names else X.
Proof.
  revert X. induction names as [|n names IH]; intros X; cbn [fmap list_fmap foldl]; [case_bool_decide; set_solver|].
  rewrite IH. unfold hear. case_bool_decide; [set_solver|done].
Qed.
Lemma hear_unsubs isPattern p names X :
  foldl (hear isPattern) X ((λ n, AnnounceUnsub n p) <$> names) = if bool_decide (p = isPattern) then X ∖ list_to_set names else X.
Proof.
  revert X. induction names as [|n names IH]; intros X; cbn [fmap list_fmap foldl]; [case_bool_decide; set_solver|].
  rewrite IH. unfold hear. case_bool_decide; [set_solver|done].
Qed.

(** What a transition does to a set of names. *)
Definition tr_names (isPattern : bool) (t : Transition) : list bytes := if isPattern then tr_patterns t else tr_channels t.
Definition transit (isPattern : bool) (t : Transition) (X : gset bytes) : gset bytes :=
  if tr_unsubscribe t then X ∖ list_to_set (tr_names isPattern t) else X ∪ list_to_set (tr_names isPattern t).
Lemma heard_announcements isPattern l r t : heard isPattern (l ++ announcements (Some r) t) = transit isPattern t (heard isPattern l).
Proof.
  unfold heard, announcements, announceTransitions, transit, tr_names. rewrite !foldl_app. destruct (tr_unsubscribe t); rewrite ?hear_subs, ?hear_unsubs; by destruct isPattern.
Qed.

Section PubSubProps.
Context `{ChannelGlob} `{RangeOrderLaws} `{ClientOrderLaws}.

Record manager_ok (m : Manager) : Prop := {
  mo_channels : table_ok (chan_table m);
  mo_patterns : table_ok (pat_table m)
}.
Definition chans (m : Manager) (c : nat) : gset bytes := names_of (m_clientChannels m) c.
Definition pats (m : Manager) (c : nat) : gset bytes := names_of (m_clientPatterns m) c.

Lemma leave_all_spec client names subs : (∀ n s, subs !! n = Some s → s ≠ ∅) →
  let '(gone, subs') := leave_all client names subs in
  (∀ n, default ∅ (subs' !! n) = if bool_decide (n ∈ names) then default ∅ (subs !! n) ∖ {[ client ]} else default ∅ (subs !! n)) ∧
  (∀ n s, subs' !! n = Some s → s ≠ ∅) ∧ dom subs' = dom subs ∖ list_to_set gone.
Proof.
  revert subs. induction names as [|name names IH]; intros subs Hl; cbn [leave_all].
  { split_and!; [|done|set_solver]. intros n. rewrite bool_decide_eq_false_2; [done|apply not_elem_of_nil]. }
  pose proof (leave_spec client name subs Hl) as Hs. destruct (leave_name client name subs) as [g subs1].
  destruct Hs as (Hm & Hl1 & Hd & _). specialize (IH subs1 Hl1). destruct (leave_all client names subs1) as [gone subs'].
  destruct IH as (Hm' & Hl' & Hd'). split_and!; [|done|rewrite Hd', Hd; destruct g; set_solver].
  intros n. rewrite Hm', Hm. repeat case_bool_decide; set_solver.
Qed.

Lemma clear_table_spec client t : table_ok t →
  let '(gone, t') := clear_table client t in
  table_ok t' ∧ (∀ c, names_of (snd t') c = if bool_decide (c = client) then ∅ else names_of (snd t) c) ∧
  dom (fst t') = dom (fst t) ∖ list_to_set gone.
Proof.
  intros Ht. pose proof Ht as [Ha Hl]. unfold clear_table. destruct t as [subs index]. cbn [fst snd] in *.
  destruct (index !! client) as [names|] eqn:E.
  2: { split_and!; [done| |set_solver]. intros c. case_bool_decide; [subst; unfold names_of; cbn [snd]; by rewrite E|done]. }
  pose proof (leave_all_spec client (range_keys names) subs Hl) as Hs.
  destruct (leave_all client (range_keys names) subs) as [gone subs']. destruct Hs as (Hm & Hl' & Hd). cbn [fst snd].
  assert (Hn : ∀ c, names_of (delete client index) c = if bool_decide (c = client) then ∅ else names_of index c).
  { intros c. unfold names_of. case_bool_decide; [subst; by rewrite lookup_delete_eq|by rewrite lookup_delete_ne]. }
  split_and!; [|done|done]. split; cbn [fst snd]; [|done]. intros c n. rewrite Hm, Hn.
  specialize (Ha c n). rewrite (bool_decide_ext _ _ (elem_of_range_keys n names)).
  destruct (decide (c = client)) as [->|Hne].
  - rewrite (bool_decide_eq_true_2 (client = client)) by done. unfold names_of in Ha. rewrite E in Ha. cbn in Ha.
    case_bool_decide; set_solver.
  - rewrite (bool_decide_eq_false_2 (c = client)) by done. case_bool_decide; set_solver.
Qed.

(** ** The operations on the tables *)

(** The names with a subscriber. *)
Definition active (isPattern : bool) (m : Manager) : gset bytes := dom (if isPattern then m_patterns m else m_channels m).

(** From [m] to [m'] the names of [client] become [C] and [P], nobody else's
    change, and [t] says which names became active or ceased to be. *)
Record changes (client : nat) (C P : gset bytes) (m : Manager) (t : Transition) (m' : Manager) : Prop := {
  ch_ok : manager_ok m';
  ch_names c : chans m' c = (if bool_decide (c = client) then C else chans m c) ∧
               pats m' c = (if bool_decide (c = client) then P else pats m c);
  ch_active isPattern : active isPattern m' = transit isPattern t (active isPattern m)
}.

Lemma changes_channels client other (add : bool) names m : manager_ok m →
  let change := if add then table_add client else table_remove client in
  let '(counts, changed, t') := change_all change client other names (chan_table m) in
  changes client (if add then list_to_set names ∪ chans m client else chans m client ∖ list_to_set names) (pats m client)
    m (mkTransition changed [] (negb add)) (with_channels t' m).
Proof.
  intros [Hc Hp]. cbv zeta. pose proof (change_all_add client other names _ Hc) as Ha. pose proof (change_all_remove client other names _ Hc) as Hr.
  destruct add; [clear Hr; rename Ha into Hx|clear Ha; rename Hr into Hx]; destruct (change_all _ _ _ _ _) as [[counts changed] t']; destruct Hx as (Ht & Hn & Hd & _);
    (split; [by split; [destruct t'|]| |]).
  1, 3: intros c; unfold chans, pats; cbn [m_clientChannels m_clientPatterns with_channels]; rewrite Hn; by split; case_bool_decide; subst.
  all: intros [|]; unfold active, transit; cbn [m_channels m_patterns with_channels tr_unsubscribe negb tr_names tr_channels tr_patterns]; [set_solver|by rewrite Hd].
Qed.
Lemma changes_patterns client other (add : bool) names m : manager_ok m →
  let change := if add then table_add client else table_remove client in
  let '(counts, changed, t') := change_all change client other names (pat_table m) in
  changes client (chans m client) (if add then list_to_set names ∪ pats m client else pats m client ∖ list_to_set names)
    m (mkTransition [] changed (negb add)) (with_patterns t' m).
Proof.
  intros [Hc Hp]. cbv zeta. pose proof (change_all_add client other names _ Hp) as Ha. pose proof (change_all_remove client other names _ Hp) as Hr.
  destruct add; [clear Hr; rename Ha into Hx|clear Ha; rename Hr into Hx]; destruct (change_all _ _ _ _ _) as [[counts changed] t']; destruct Hx as (Ht & Hn & Hd & _);
    (split; [by split; [|destruct t']| |]).
  1, 3: intros c; unfold chans, pats; cbn [m_clientChannels m_clientPatterns with_patterns]; rewrite Hn; by split; case_bool_decide; subst.
  all: intros [|]; unfold active, transit; cbn [m_channels m_patterns with_patterns tr_unsubscribe negb tr_names tr_channels tr_patterns]; [by rewrite Hd|set_solver].
Qed.

Lemma Subscribe_changes client names m : manager_ok m →
  let '(_, t, m') := Subscribe_locked client names m in
  changes client (list_to_set names ∪ chans m client) (pats m client) m t m'.
Proof.
  intros Hm. unfold Subscribe_locked. pose proof (changes_channels client (table_size (pat_table m) client) true names m Hm) as Hx. cbv zeta in Hx.
  by destruct (change_all _ _ _ _ _) as [[counts firsts] t'].
Qed.
Lemma PSubscribe_changes client names m : manager_ok m →
  let '(_, t, m') := PSubscribe_locked client names m in
  changes client (chans m client) (list_to_set names ∪ pats m client) m t m'.
Proof.
  intros Hm. unfold PSubscribe_locked. pose proof (changes_patterns client (table_size (chan_table m) client) true names m Hm) as Hx. cbv zeta in Hx.
  by destruct (change_all _ _ _ _ _) as [[counts firsts] t'].
Qed.

(** What is taken away: the names given, or all. *)
Definition less (names : list bytes) (X : gset bytes) : gset bytes := match names with [] => ∅ | _ => X ∖ list_to_set names end.

Lemma less_all client names t : names_of (snd t) client ∖ list_to_set (names_or_all client names t) = less names (names_of (snd t) client).
Proof.
  unfold names_or_all, less. destruct names; [|done]. apply set_eq. intros x.
  rewrite elem_of_difference, elem_of_list_to_set, elem_of_range_keys. set_solver.
Qed.

Lemma changes_nothing client m C P : manager_ok m → C = chans m client → P = pats m client →
  changes client C P m (mkTransition [] [] true) m.
Proof.
  intros Hm -> ->. split; [done| |].
  - intros c. by split; case_bool_decide; subst.
  - intros [|]; unfold transit; cbn; set_solver.
Qed.

Lemma Unsubscribe_changes client names m : manager_ok m →
  let '(_, _, t, m') := Unsubscribe_locked client names m in
  changes client (less names (chans m client)) (pats m client) m t m'.
Proof.
  intros Hm. unfold Unsubscribe_locked. pose proof (less_all client names (chan_table m)) as Hless. cbn [snd chan_table] in Hless.
  destruct (names_or_all client names (chan_table m)) as [|n ns] eqn:En.
  { apply changes_nothing; [done| |done]. unfold chans. rewrite <- Hless. set_solver. }
  rewrite <- En in Hless |- *. clear En n ns. fold (chans m client) in Hless.
  pose proof (changes_channels client (table_size (pat_table m) client) false (names_or_all client names (chan_table m)) m Hm) as Hx. cbv zeta in Hx.
  destruct (change_all _ _ _ _ _) as [[counts gone] t']. by rewrite <- Hless.
Qed.
Lemma PUnsubscribe_changes client names m : manager_ok m →
  let '(_, _, t, m') := PUnsubscribe_locked client names m in
  changes client (chans m client) (less names (pats m client)) m t m'.
Proof.
  intros Hm. unfold PUnsubscribe_locked. pose proof (less_all client names (pat_table m)) as Hless. cbn [snd pat_table] in Hless.
  destruct (names_or_all client names (pat_table m)) as [|n ns] eqn:En.
  { apply changes_nothing; [done|done|]. unfold pats. rewrite <- Hless. set_solver. }
  rewrite <- En in Hless |- *. clear En n ns. fold (pats m client) in Hless.
  pose proof (changes_patterns client (table_size (chan_table m) client) false (names_or_all client names (pat_table m)) m Hm) as Hx. cbv zeta in Hx.
  destruct (change_all _ _ _ _ _) as [[counts gone] t']. by rewrite <- Hless.
Qed.

Lemma Cleanup_changes client m : manager_ok m → let '(t, m') := Cleanup_locked client m in changes client ∅ ∅ m t m'.
Proof.
  intros [Hc Hp]. unfold Cleanup_locked. pose proof (clear_table_spec client _ Hc) as Ha.
  destruct (clear_table client (chan_table m)) as [gc tc]. destruct Ha as (Htc & Hnc & Hdc).
  pose proof (clear_table_spec client _ Hp) as Ha. destruct (clear_table client (pat_table m)) as [gp tp].
  destruct Ha as (Htp & Hnp & Hdp). split.
  - by split; [destruct tc|destruct tp].
  - intros c. unfold chans, pats. cbn [m_clientChannels m_clientPatterns]. by rewrite Hnc, Hnp.
  - intros [|]; unfold active, transit; cbn [m_channels m_patterns tr_unsubscribe tr_names tr_channels tr_patterns]; done.
Qed.

(** ** Delivery *)

Lemma deliverLocal_manager channel message b :
  b_manager (snd (deliverLocal channel message b)) = b_manager b ∧ b_announced (snd (deliverLocal channel message b)) = b_announced b.
Proof. unfold deliverLocal. destruct (send_all _ _ _) as [n cl]. by destruct (send_patterns _ _ _ _ _) as [n' cl']. Qed.

(** A client after several messages have been sent to it. *)
Definition receive (msgs : list PubSubMessage) (cl : PubSubClient) : PubSubClient := foldl (λ cl msg, snd (Send msg cl)) cl msgs.
Lemma receive_app l l' cl : receive l' (receive l cl) = receive (l ++ l') cl.
Proof. unfold receive. by rewrite foldl_app. Qed.

(** Of these messages, those that find the client open and the channel with room. *)
Definition taken_in (msgs : list PubSubMessage) (cl : PubSubClient) : list PubSubMessage :=
  if pc_closed cl then [] else take (Z.to_nat (PubsubMsgChanSize - len (pc_msgChan cl))) msgs.

Lemma Send_fields msg cl : pc_closed (snd (Send msg cl)) = pc_closed cl ∧ pc_protocol (snd (Send msg cl)) = pc_protocol cl ∧ pc_busy (snd (Send msg cl)) = pc_busy cl.
Proof. destruct cl as [msgs p d closed busy]. unfold Send. destruct closed; [done|]. by destruct (len msgs <? PubsubMsgChanSize). Qed.
Lemma receive_spec msgs cl :
  pc_msgChan (receive msgs cl) = pc_msgChan cl ++ taken_in msgs cl ∧ pc_closed (receive msgs cl) = pc_closed cl ∧
  pc_protocol (receive msgs cl) = pc_protocol cl ∧ pc_busy (receive msgs cl) = pc_busy cl.
Proof.
  revert cl. induction msgs as [|msg msgs IH]; intros cl.
  { cbn [receive foldl]. unfold taken_in. rewrite take_nil. by destruct (pc_closed cl); rewrite app_nil_r. }
  change (receive (msg :: msgs) cl) with (receive msgs (snd (Send msg cl))). destruct (IH (snd (Send msg cl))) as (-> & -> & -> & ->). destruct (Send_fields msg cl) as (Hc & -> & ->).
  split_and!; [|done..]. unfold taken_in. rewrite Hc. clear IH Hc. destruct cl as [q p d closed busy]. unfold Send. cbn [pc_closed pc_msgChan]. destruct closed; [done|].
  destruct (Z.ltb_spec (len q) PubsubMsgChanSize) as [Hl|Hl]; cbn [snd pc_msgChan].
  - rewrite <- app_assoc. f_equal. unfold len in *. rewrite length_app. cbn [length].
    replace (Z.to_nat (PubsubMsgChanSize - Z.of_nat (length q))) with (S (Z.to_nat (PubsubMsgChanSize - Z.of_nat (length q + 1)))) by lia. done.
  - replace (Z.to_nat (PubsubMsgChanSize - len q)) with 0%nat by lia. done.
Qed.

(** The messages waiting at all the clients. *)
Definition waiting (clients : gmap nat PubSubClient) : Z := map_fold (λ _ cl n, len (pc_msgChan cl) + n) 0 clients.
Lemma waiting_insert clients c cl : waiting (<[c := cl]> clients) = len (pc_msgChan cl) + waiting (delete c clients).
Proof. unfold waiting. rewrite <- insert_delete_eq. rewrite map_fold_insert_L; [done|lia|apply lookup_delete_eq]. Qed.
Lemma waiting_change clients c cl cl' : clients !! c = Some cl →
  waiting (<[c := cl']> clients) = waiting clients + (len (pc_msgChan cl') - len (pc_msgChan cl)).
Proof. intros Hc. rewrite waiting_insert. rewrite <- (insert_id clients c cl Hc) at 2. rewrite waiting_insert. lia. Qed.
Lemma Send_count msg cl : len (pc_msgChan (snd (Send msg cl))) - len (pc_msgChan cl) = if fst (Send msg cl) then 1 else 0.
Proof.
  destruct cl as [q p d closed busy]. unfold Send. destruct closed; cbn; [lia|]. destruct (len q <? PubsubMsgChanSize); cbn; [|lia]. unfold len. rewrite length_app. cbn. lia.
Qed.

Lemma send_all_spec msg targets clients : NoDup targets →
  fst (send_all msg targets clients) = waiting (snd (send_all msg targets clients)) - waiting clients ∧
  ∀ c, snd (send_all msg targets clients) !! c = receive (if bool_decide (c ∈ targets) then [msg] else []) <$> clients !! c.
Proof.
  intros Hd. revert clients. induction Hd as [|c targets Hn Hd IH]; intros clients; cbn [send_all].
  { split; [cbn; lia|]. intros c. rewrite bool_decide_eq_false_2 by apply not_elem_of_nil. cbn [snd]. by rewrite option_fmap_id. }
  assert (Hother : ∀ c', c' ≠ c → bool_decide (c' ∈ c :: targets) = bool_decide (c' ∈ targets)).
  { intros c' Hne. apply bool_decide_ext. rewrite elem_of_cons. tauto. }
  destruct (clients !! c) as [cl|] eqn:Hc.
  - pose proof (Send_count msg cl) as Hk. destruct (Send msg cl) as [ok cl'] eqn:Es. cbn [fst snd] in Hk.
    specialize (IH (<[c := cl']> clients)). destruct (send_all msg targets _) as [n clients']. destruct IH as [Hf Hs]. cbn [fst snd] in *.
    split; [rewrite (waiting_change _ _ _ _ Hc) in Hf; lia|]. intros c'. rewrite Hs. destruct (decide (c' = c)) as [->|Hne].
    + rewrite lookup_insert_eq, Hc, (bool_decide_eq_false_2 (c ∈ targets)), (bool_decide_eq_true_2 (c ∈ c :: targets)) by (done || by left). cbn. by rewrite Es.
    + by rewrite lookup_insert_ne, Hother.
  - specialize (IH clients). destruct (send_all msg targets clients) as [n clients']. destruct IH as [Hf Hs]. cbn [fst snd] in *.
    split; [lia|]. intros c'. rewrite Hs. destruct (decide (c' = c)) as [->|Hne]; [by rewrite Hc|by rewrite Hother].
Qed.

(** The messages a client gets for the patterns, in the order they are visited. *)
Definition pattern_msgs (channel message : bytes) (subs : gmap bytes (gset nat)) (c : nat) (patterns : list bytes) : list PubSubMessage :=
  (λ p, pattern_message p channel message) <$>
    filter (λ p, MatchGlob channel p = true ∧ c ∈ default ∅ (subs !! p)) patterns.
Lemma range_clients_props X : NoDup (range_clients X) ∧ len (range_clients X) = Z.of_nat (size X) ∧ ∀ c, c ∈ range_clients X ↔ c ∈ X.
Proof.
  split_and!.
  - rewrite (range_clients_perm X). apply NoDup_elements.
  - unfold len. by rewrite (range_clients_perm X).
  - intros c. by rewrite (range_clients_perm X), elem_of_elements.
Qed.

Lemma pattern_msgs_cons channel message subs c p ps :
  pattern_msgs channel message subs c (p :: ps) =
  (if bool_decide (MatchGlob channel p = true ∧ c ∈ default ∅ (subs !! p)) then [pattern_message p channel message] else []) ++
  pattern_msgs channel message subs c ps.
Proof.
  unfold pattern_msgs. case_bool_decide as Hp; [by rewrite filter_cons_True|by rewrite filter_cons_False].
Qed.

Lemma send_patterns_spec channel message subs patterns clients :
  fst (send_patterns channel message patterns subs clients) = waiting (snd (send_patterns channel message patterns subs clients)) - waiting clients ∧
  ∀ c, snd (send_patterns channel message patterns subs clients) !! c =
    receive (pattern_msgs channel message subs c patterns) <$> clients !! c.
Proof.
  revert clients. induction patterns as [|p ps IH]; intros clients; cbn [send_patterns].
  { split; [cbn; lia|]. intros c. cbn [snd]. by destruct (clients !! c). }
  destruct (MatchGlob channel p) eqn:Em.
  2: { specialize (IH clients). destruct (send_patterns channel message ps subs clients) as [n cl']. cbn [fst snd] in *. destruct IH as [Hf Hs].
       split; [by rewrite Hf|]. intros c. rewrite Hs, pattern_msgs_cons, bool_decide_eq_false_2 by (intros [? _]; congruence). done. }
  destruct (range_clients_props (default ∅ (subs !! p))) as (Hd & Hsz & Hin).
  destruct (send_all_spec (pattern_message p channel message) (range_clients (default ∅ (subs !! p))) clients Hd) as [Hf1 Hs1].
  destruct (send_all _ _ clients) as [n1 clients1]. cbn [fst snd] in Hf1, Hs1. specialize (IH clients1).
  destruct (send_patterns channel message ps subs clients1) as [n cl']. cbn [fst snd] in *. destruct IH as [Hf Hs].
  split; [lia|]. intros c. rewrite Hs, Hs1, pattern_msgs_cons.
  rewrite (bool_decide_ext (MatchGlob channel p = true ∧ c ∈ default ∅ (subs !! p)) (c ∈ range_clients (default ∅ (subs !! p)))) by (rewrite Hin, Em; tauto).
  destruct (clients !! c) as [cl|]; [|done]. cbn. by rewrite receive_app.
Qed.
End PubSubProps.
