(* ===== verification/Dispatch.v ===== *)
(** * Command dispatch and transactions

    src/redis/handler.go ([ExecuteInto], MULTI/EXEC/DISCARD/WATCH, the
    connection commands), src/redis/command_execution.go and the registry of
    src/redis/shared/registry.go: what one command does to its connection, the
    ACL manager, the engine context and the reply buffer.

    The server is modelled with the effects engine present (both contexts of
    the connection exist).  Tracing, debug logging, latency and command
    statistics are left out: they write nothing any of this reads. *)

From S2P Require Import Prelude GoBytes Strconv Floats Commands Writer Protocol Acl Engine Bitmap Sets Lists Strings Keys Hashes HashTtl Zsets ZsetRanges ZsetOps ZsetBlocking Streams StreamCommands StreamReads StreamGroups StreamDelivery StreamInfo.

Local Open Scope Z_scope.

(** ** The engine calls of the dispatcher *)

Class TxEngine `{Engine} := {
  (** [Context.Flush]: the error, whether it is [ErrTxnAborted], its text. *)
  Flush : Ctx → option (bool * bytes) * Ctx;
  Abort : Ctx → Ctx;
  Watch : bytes → Ctx → option bytes * Ctx;
  ClearWatches : Ctx → Ctx;
  CheckWatches : Ctx → bool * Ctx;
  ForwardingEnabled : bool;
  (** Name, arguments, keys, user: the leader's raw reply, if forwarded. *)
  Forward : bytes → list bytes → list bytes → bytes → option bytes;
  ForwardExec : list (bytes * list bytes * list bytes) → list bytes → bytes → option bytes;
  ClusterSafetyKey : bytes;
  KeySafetyKey : bytes
}.

(** ** Connections *)
Section Dispatch.
Context `{TxEngine} `{Bcrypt}.

Record QueuedCommand := mkQueued {
  q_Type : CommandType;
  q_Args : list bytes;
  q_Keys : list bytes;
  q_Runner : M unit
}.

Record Connection := mkConn {
  c_User : option ACLUser;
  c_Username : bytes;
  c_Protocol : ProtocolVersion;
  c_ClientName : bytes;
  c_RemoteAddr : bytes;
  c_InTransaction : bool;
  c_SSITransaction : bool;
  c_TxnAborted : bool;
  c_QueuedCmds : list QueuedCommand;
  c_BufferedResults : list bytes;
  c_InScript : bool;
  c_InPubSubMode : bool
}.

Definition set_user (u : option ACLUser) (name : bytes) (c : Connection) : Connection :=
  mkConn u name (c_Protocol c) (c_ClientName c) (c_RemoteAddr c) (c_InTransaction c)
    (c_SSITransaction c) (c_TxnAborted c) (c_QueuedCmds c) (c_BufferedResults c) (c_InScript c)
    (c_InPubSubMode c).
Definition set_client (p : ProtocolVersion) (name : bytes) (c : Connection) : Connection :=
  mkConn (c_User c) (c_Username c) p name (c_RemoteAddr c) (c_InTransaction c)
    (c_SSITransaction c) (c_TxnAborted c) (c_QueuedCmds c) (c_BufferedResults c) (c_InScript c)
    (c_InPubSubMode c).
Definition set_txn (inTxn ssi aborted : bool) (q : list QueuedCommand) (b : list bytes)
    (c : Connection) : Connection :=
  mkConn (c_User c) (c_Username c) (c_Protocol c) (c_ClientName c) (c_RemoteAddr c) inTxn ssi
    aborted q b (c_InScript c) (c_InPubSubMode c).

Definition ResetTransaction (c : Connection) : Connection := set_txn false false false [] [] c.
Definition set_aborted (c : Connection) : Connection :=
  set_txn (c_InTransaction c) (c_SSITransaction c) true (c_QueuedCmds c) (c_BufferedResults c) c.

(** ** The state of one command *)

(** The ACL manager, the connection, its two engine contexts, the reply
    writer, the key locks the goroutine holds. *)
Record HSt := mkHSt {
  h_acl : ACLManager;
  h_conn : Connection;
  h_ctx : Ctx;
  h_roctx : Ctx;
  h_w : Writer;
  h_held : list Z
}.

Definition HM (A : Type) : Type := HSt → Outcome A * HSt.
#[global] Instance HM_ret : MRet HM := λ A a s, (Next a, s).
#[global] Instance HM_bind : MBind HM := λ A B f m s,
  match m s with
  | (Next a, s') => f a s'
  | (Return, s') => (Return, s')
  | (Panic, s') => (Panic, s')
  | (Deadlock, s') => (Deadlock, s')
  end.

Definition get : HM HSt := λ s, (Next s, s).
Definition get_conn : HM Connection := λ s, (Next (h_conn s), s).
Definition mod_conn (f : Connection → Connection) : HM unit := λ s,
  (Next tt, mkHSt (h_acl s) (f (h_conn s)) (h_ctx s) (h_roctx s) (h_w s) (h_held s)).
Definition mod_acl (f : ACLManager → ACLManager) : HM unit := λ s,
  (Next tt, mkHSt (f (h_acl s)) (h_conn s) (h_ctx s) (h_roctx s) (h_w s) (h_held s)).
Definition mod_w (f : Writer → Writer) : HM unit := λ s,
  (Next tt, mkHSt (h_acl s) (h_conn s) (h_ctx s) (h_roctx s) (f (h_w s)) (h_held s)).
Definition leave {A} : HM A := λ s, (Return, s).
Definition panic {A} : HM A := λ s, (Panic, s).
(** [w.WriteX(...); return]. *)
Definition answer {A} (f : Writer → Writer) : HM A := mod_w f ≫= λ _, leave.

(** [cmd.Context] is the read-only context when [ro] holds. *)
Definition ctx_of (ro : bool) (s : HSt) : Ctx := if ro then h_roctx s else h_ctx s.
Definition set_ctx (ro : bool) (c : Ctx) (s : HSt) : HSt :=
  mkHSt (h_acl s) (h_conn s) (if ro then h_ctx s else c) (if ro then c else h_roctx s) (h_w s) (h_held s).
Definition mod_ctx (ro : bool) (f : Ctx → Ctx) : HM unit := λ s,
  (Next tt, set_ctx ro (f (ctx_of ro s)) s).
Definition call_ctx {A} (ro : bool) (f : Ctx → A * Ctx) : HM A := λ s,
  let '(a, c) := f (ctx_of ro s) in (Next a, set_ctx ro c s).

(** [runner()]: an early return of the closure is not one of the caller. *)
Definition call_runner (ro : bool) (m : M unit) : HM unit := λ s,
  let '(o, st) := m (mkSt (ctx_of ro s) (h_w s) (h_held s)) in
  let s' := mkHSt (h_acl s) (h_conn s) (if ro then h_ctx s else st_ctx st)
              (if ro then st_ctx st else h_roctx s) (st_w st) (st_held st) in
  (match o with Return => Next tt | o => o end, s').

(** A handler method that ends by an early return does not end its caller. *)
Definition call (m : HM unit) : HM unit := λ s,
  let '(o, s') := m s in (match o with Return => Next tt | o => o end, s').

(** ** The registry *)

Record CommandEntry := mkEntry {
  ce_Handler : option (list bytes → Prep);
  ce_ConnHandler : option (bool → list bytes → HM unit);
  ce_TxnPrepare : option (list bytes → Prep);
  ce_Keys : option (list bytes → list bytes);
  ce_Write : bool;
  ce_NoAuth : bool;
  ce_NoQueue : bool;
  ce_PubSub : bool
}.

Definition KeysAllButLast (args : list bytes) : list bytes :=
  if len args <? 2 then [] else take (length args - 1) args.
Definition KeysNumkeysAtOffset (args : list bytes) (offset : nat) : list bytes :=
  match args !! offset with
  | None => []
  | Some a =>
    match ParseInt64 a with
    | None => []
    | Some numKeys =>
      if numKeys <=? 0 then []
      else
        let rest := drop (S offset) args in
        if len rest <? numKeys then [] else take (Z.to_nat numKeys) rest
    end
  end.
Definition KeysFirstTwo (args : list bytes) : list bytes :=
  match args with a :: b :: _ => [a; b] | _ => [] end.
Definition KeysFirst (args : list bytes) : list bytes :=
  match args with a :: _ => [a] | [] => [] end.
Definition KeysAll (args : list bytes) : list bytes := args.
Fixpoint every_other (args : list bytes) : list bytes :=
  match args with
  | [] => []
  | a :: rest => a :: match rest with [] => [] | _ :: rest' => every_other rest' end
  end.
Definition KeysMSetStyle (args : list bytes) : list bytes :=
  if len args <? 2 then [] else every_other args.

(** [strings.EqualFold(arg, "STREAMS")], as in [is_withscore]. *)
Definition is_streams (arg : bytes) : bool := beq (ascii_lower (fold_long_s arg)) (str "streams").
(** The keys after the first argument that reads STREAMS. *)
Fixpoint after_streams (args : list bytes) : option (list bytes) :=
  match args with
  | [] => None
  | a :: rest => if is_streams a then Some rest else after_streams rest
  end.
Definition KeysAfterStreams (args : list bytes) : list bytes :=
  match after_streams args with
  | None => []
  | Some remaining =>
    if (len remaining =? 0) || negb (len remaining mod 2 =? 0) then []
    else take (length remaining / 2) remaining
  end.

(** ** Data commands *)

Definition isScriptCommand (c : CommandType) : bool :=
  match c with
  | CmdEval | CmdEvalSha | CmdEvalRO | CmdEvalShaRO | CmdFcall | CmdFcallRO => true
  | _ => false
  end.

(** The commands [runDataCommand] protects. *)
Definition is_data_write (entry : CommandEntry) (cmd : CommandType) : bool :=
  negb (negb (ce_Write entry) || bool_decide (ce_Keys entry = None) || isScriptCommand cmd).

(** [runDataCommand]: the run of a write command that replied an error is
    undone, the partial reply with it.  Once for runners, which see the engine
    context and the writer only, and once for connection handlers. *)
Definition runDataCommand (protect : bool) (run : M unit) : M unit := λ st,
  if negb protect then run st
  else
    let savepoint := TakeSavepoint (st_ctx st) in
    let '(o, st') := run st in
    match o with
    | Panic => (Panic, st')
    | Deadlock => (Deadlock, st')
    | _ =>
      let '(discarded, w') := DiscardPartialReply (len (w_buf (st_w st))) (w_errorCount (st_w st)) (st_w st') in
      (Next tt, mkSt (if discarded : bool then RestoreSavepoint savepoint (st_ctx st') else st_ctx st')
                  w' (st_held st'))
    end.

Definition runDataCommand_conn (protect ro : bool) (run : HM unit) : HM unit :=
  if negb protect then call run
  else
    s ← get;
    let savepoint := TakeSavepoint (ctx_of ro s) in
    _ ← call run;
    s' ← get;
    let '(discarded, w') := DiscardPartialReply (len (w_buf (h_w s))) (w_errorCount (h_w s)) (h_w s') in
    _ ← mod_w (λ _, w');
    if discarded : bool then mod_ctx ro (RestoreSavepoint savepoint) else mret tt.

(** ** Key checks *)

Definition noperm_command (c : CommandType) : bytes :=
  str "NOPERM this user has no permissions to run the '" ++ CommandString c ++ str "' command".
Definition noperm_key (key : bytes) : bytes :=
  str "NOPERM this user has no permissions to access key '" ++ key ++ str "'".

(** The per-key ACL loop: the first key denied is logged and answered. *)
Fixpoint check_keys (now : Z) (cmd : CommandType) (isWrite : bool) (keys : list bytes) : HM unit :=
  match keys with
  | [] => mret tt
  | key :: keys' =>
    c ← get_conn;
    match c_User c with
    | None => mret tt
    | Some _ =>
      match CheckKey (c_User c) key isWrite with
      | Some _ =>
        _ ← mod_acl (LogDenied now (str "key") key (CommandString cmd) (c_Username c) (c_RemoteAddr c));
        answer (WriteError (noperm_key key))
      | None => check_keys now cmd isWrite keys'
      end
    end
  end.

(** Internal keys other than the two safety policies may not be written. *)
Definition internal_key (key : bytes) : bool :=
  has_prefix key (str "__swytch:") && negb (beq key ClusterSafetyKey) && negb (beq key KeySafetyKey).
Definition no_internal (key : bytes) : Writer → Writer :=
  WriteError (str "ERR cannot write to internal key '" ++ key ++ str "'").

Fixpoint check_internal (keys : list bytes) : HM unit :=
  match keys with
  | [] => mret tt
  | key :: keys' => if internal_key key then answer (no_internal key) else check_internal keys'
  end.

(** ** Transactions *)

Definition ssiCommandAllowed (c : CommandType) : bool :=
  match c with
  | CmdFlushDB | CmdFlushAll | CmdPublish | CmdSubscribe | CmdUnsubscribe | CmdPSubscribe
  | CmdPUnsubscribe | CmdKeys | CmdScan | CmdRandomKey | CmdDBSize => false
  | _ => true
  end.

Definition abort_with (f : Writer → Writer) : HM unit :=
  _ ← mod_conn set_aborted; answer f.

(** The key loop of the SSI branch. *)
Fixpoint ssi_check_keys (now : Z) (cmd : CommandType) (isWrite : bool) (keys : list bytes) : HM unit :=
  match keys with
  | [] => mret tt
  | key :: keys' =>
    c ← get_conn;
    _ ← (match c_User c with
         | None => mret tt
         | Some _ =>
           match CheckKey (c_User c) key isWrite with
           | Some _ =>
             _ ← mod_conn set_aborted;
             _ ← mod_acl (LogDenied now (str "key") key (CommandString cmd) (c_Username c) (c_RemoteAddr c));
             answer (WriteError (noperm_key key))
           | None => mret tt
           end
         end);
    if isWrite && internal_key key then abort_with (no_internal key)
    else ssi_check_keys now cmd isWrite keys'
  end.

Definition push_queued (q : QueuedCommand) (c : Connection) : Connection :=
  set_txn (c_InTransaction c) (c_SSITransaction c) (c_TxnAborted c) (c_QueuedCmds c ++ [q])
    (c_BufferedResults c) c.
Definition push_result (r : bytes) (c : Connection) : Connection :=
  set_txn (c_InTransaction c) (c_SSITransaction c) (c_TxnAborted c) (c_QueuedCmds c)
    (c_BufferedResults c ++ [r]) c.

(** [queueCommand]; the commands of a transaction use the write context. *)
Definition queueCommand (lookup : CommandType → option CommandEntry) (now : Z) (cmd : Command) :
    HM unit :=
  let ty := cmd_Type cmd in
  c ← get_conn;
  if c_SSITransaction c && negb (ssiCommandAllowed ty) then
    abort_with (WriteError (str "ERR command '" ++ CommandString ty ++
                  str "' cannot be used inside an SSI transaction"))
  else match lookup ty with
  | None =>
    abort_with (WriteError (str "ERR unknown command '" ++ CommandString ty ++ str "'"))
  | Some entry =>
    let prepare := match ce_TxnPrepare entry with Some p => Some p | None => ce_Handler entry end in
    match prepare with
    | None =>
      abort_with (WriteError (str "ERR command '" ++ CommandString ty ++
                    str "' cannot be used inside a transaction"))
    | Some p =>
      match p (cmd_Args cmd) with
      | Crash => panic
      | Refuse _ f => abort_with f
      | Accept keys prepared =>
        let runner := runDataCommand (is_data_write entry ty) prepared in
        if c_SSITransaction c then
          let keys := match ce_Keys entry with Some k => keys ++ k (cmd_Args cmd) | None => keys end in
          _ ← ssi_check_keys now ty (ce_Write entry) keys;
          s ← get;
          _ ← call_runner false runner;
          s' ← get;
          if c_InScript (h_conn s') then mret tt
          else mod_conn (push_result (drop (length (w_buf (h_w s))) (w_buf (h_w s'))))
        else
          _ ← mod_conn (push_queued (mkQueued ty (cmd_Args cmd) keys runner));
          mod_w WriteQueued
      end
    end
  end.

Definition handleMulti (ssi : bool) (args : list bytes) : HM unit :=
  if negb (len args =? 0) then answer (WriteWrongNumArguments (str "multi"))
  else
    c ← get_conn;
    if c_InTransaction c then answer (WriteError (str "ERR MULTI calls can not be nested"))
    else
      _ ← (if ssi then mod_ctx false BeginTx else mret tt);
      _ ← mod_conn (λ c, set_txn true (c_SSITransaction c || ssi) false (c_QueuedCmds c)
                          (c_BufferedResults c) c);
      mod_w WriteOK.

Definition handleDiscard (args : list bytes) : HM unit :=
  if negb (len args =? 0) then answer (WriteWrongNumArguments (str "discard"))
  else
    c ← get_conn;
    if negb (c_InTransaction c) then answer (WriteError (str "ERR DISCARD without MULTI"))
    else
      _ ← mod_ctx false Abort;
      _ ← mod_conn ResetTransaction;
      mod_w WriteOK.

Fixpoint watch_all (keys : list bytes) : HM unit :=
  match keys with
  | [] => mret tt
  | key :: keys' =>
    e ← call_ctx false (Watch key);
    match e with
    | Some msg => _ ← mod_ctx false ClearWatches; answer (WriteError msg)
    | None => watch_all keys'
    end
  end.

Definition handleWatch (args : list bytes) : HM unit :=
  if len args =? 0 then answer (WriteWrongNumArguments (str "watch"))
  else
    c ← get_conn;
    if c_InTransaction c then answer (WriteError (str "ERR WATCH inside MULTI is not allowed"))
    else _ ← watch_all args; mod_w WriteOK.

Definition handleUnwatch (args : list bytes) : HM unit :=
  if negb (len args =? 0) then answer (WriteWrongNumArguments (str "unwatch"))
  else _ ← mod_ctx false ClearWatches; mod_w WriteOK.

(** [Abort], reset, error. *)
Definition exec_abort (msg : bytes) : HM unit :=
  _ ← mod_ctx false Abort;
  _ ← mod_conn ResetTransaction;
  answer (WriteError msg).

Fixpoint run_queued (qs : list QueuedCommand) : HM unit :=
  match qs with
  | [] => mret tt
  | q :: qs' => _ ← call_runner false (q_Runner q); run_queued qs'
  end.

Fixpoint write_raws (rs : list bytes) (w : Writer) : Writer :=
  match rs with
  | [] => w
  | r :: rs' => write_raws rs' (WriteRaw r w)
  end.

Definition handleExec (timedOut : bool) (args : list bytes) : HM unit :=
  if negb (len args =? 0) then answer (WriteWrongNumArguments (str "exec"))
  else
    c ← get_conn;
    if negb (c_InTransaction c) then answer (WriteError (str "ERR EXEC without MULTI"))
    else if c_TxnAborted c then
      exec_abort (if timedOut
        then str "EXECABORT Transaction discarded because of previous errors. BUSY Redis is busy running a script."
        else str "EXECABORT Transaction discarded because of previous errors.")
    else if timedOut then
      exec_abort (str "EXECABORT Transaction discarded because of: BUSY Redis is busy running a script. You can only call SCRIPT KILL or SHUTDOWN NOSAVE.")
    else
      let fwd := if negb (c_SSITransaction c) && ForwardingEnabled
                 then ForwardExec ((λ q, (CommandString (q_Type q), q_Args q, q_Keys q)) <$> c_QueuedCmds c)
                        [] (c_Username c)
                 else None in
      match fwd with
      | Some result =>
        _ ← mod_conn ResetTransaction;
        _ ← mod_ctx false ClearWatches;
        answer (WriteRaw result)
      | None =>
        _ ← mod_ctx false BeginTx;
        ok ← call_ctx false CheckWatches;
        if negb ok then
          _ ← mod_ctx false Abort;
          _ ← mod_conn ResetTransaction;
          answer WriteNullArray
        else if c_SSITransaction c then
          _ ← mod_w (WriteArray (len (c_BufferedResults c)));
          _ ← mod_w (write_raws (c_BufferedResults c));
          mod_conn ResetTransaction
        else
          _ ← mod_w (WriteArray (len (c_QueuedCmds c)));
          _ ← run_queued (c_QueuedCmds c);
          mod_conn ResetTransaction
      end.

(** ** Connection commands *)

Definition handlePing (args : list bytes) : Writer → Writer :=
  match args with
  | [] => WritePong
  | [a] => WriteBulkString a
  | _ => WriteWrongNumArguments (str "ping")
  end.

Definition handlePingPubSub (args : list bytes) (c : Connection) (w : Writer) : Writer :=
  if bool_decide (c_Protocol c = RESP3) then handlePing args w
  else
    let w := WriteBulkStringStr (str "pong") (WriteArray 2 w) in
    match args with
    | a :: _ => WriteBulkString a w
    | [] => WriteBulkStringStr [] w
    end.

Definition handleEcho (args : list bytes) : Writer → Writer :=
  match args with
  | [a] => WriteBulkString a
  | _ => WriteWrongNumArguments (str "echo")
  end.

Definition handleSelect (args : list bytes) : Writer → Writer :=
  match args with
  | [a] =>
    match ParseInt64 a with
    | Some 0 => WriteOK
    | _ => WriteError (str "ERR DB index is out of range")
    end
  | _ => WriteWrongNumArguments (str "select")
  end.

(** [Authenticate] and what follows it in AUTH and HELLO. *)
Definition authenticate (now : Z) (username password : bytes) : HM unit :=
  s ← get;
  match Authenticate username password (h_acl s) with
  | Err _ =>
    _ ← mod_conn (set_user None []);
    _ ← mod_acl (LogDenied now (str "auth") (str "toplevel") [] username (c_RemoteAddr (h_conn s)));
    answer (WriteError (str "WRONGPASS invalid username-password pair or user is disabled"))
  | Ok user => mod_conn (set_user (Some user) (Name user))
  end.

Definition handleAuth (now : Z) (args : list bytes) : HM unit :=
  match args with
  | [password] => _ ← authenticate now defaultUsername password; mod_w WriteOK
  | [username; password] => _ ← authenticate now username password; mod_w WriteOK
  | _ => answer (WriteWrongNumArguments (str "auth"))
  end.

(** The optional arguments of HELLO. *)
Fixpoint hello_options (now : Z) (args : list bytes) : HM unit :=
  match args with
  | [] => mret tt
  | a :: rest =>
    let arg := ToUpper a in
    if beq arg (str "AUTH") then
      match rest with
      | username :: password :: rest' =>
        _ ← authenticate now username password; hello_options now rest'
      | _ => answer (WriteWrongNumArguments (str "hello"))
      end
    else if beq arg (str "SETNAME") then
      match rest with
      | name :: rest' =>
        _ ← mod_conn (λ c, set_client (c_Protocol c) name c); hello_options now rest'
      | [] => answer (WriteWrongNumArguments (str "hello"))
      end
    else hello_options now rest
  end.

Definition redisCompatVersion : bytes := str "8.4.0".

Definition hello_reply (p : ProtocolVersion) (w : Writer) : Writer :=
  let w := SetProtocol p w in
  let w := WriteMap 7 w in
  let w := WriteBulkStringStr (str "swytch") (WriteBulkStringStr (str "server") w) in
  let w := WriteBulkStringStr redisCompatVersion (WriteBulkStringStr (str "version") w) in
  let w := WriteInteger (match p with RESP2 => 2 | RESP3 => 3 end)
             (WriteBulkStringStr (str "proto") w) in
  let w := WriteInteger 1 (WriteBulkStringStr (str "id") w) in
  let w := WriteBulkStringStr (str "standalone") (WriteBulkStringStr (str "mode") w) in
  let w := WriteBulkStringStr (str "master") (WriteBulkStringStr (str "role") w) in
  WriteArray 0 (WriteBulkStringStr (str "modules") w).

Definition handleHello (now : Z) (args : list bytes) : HM unit :=
  let noproto : HM (ProtocolVersion * list bytes) :=
    answer (WriteError (str "NOPROTO unsupported protocol version")) in
  '(version, rest) ←
    (match args with
     | [] => mret (RESP2, [])
     | a :: rest =>
       match ParseInt64 a with
       | Some 2 => mret (RESP2, rest)
       | Some 3 => mret (RESP3, rest)
       | _ => noproto
       end
     end);
  _ ← hello_options now rest;
  s ← get;
  _ ← (match c_User (h_conn s) with
       | None =>
         match AuthenticateDefault (h_acl s) with
         | Some u => mod_conn (set_user (Some u) (Name u))
         | None => mret tt
         end
       | Some _ => mret tt
       end);
  _ ← mod_conn (λ c, set_client version (c_ClientName c) c);
  mod_w (hello_reply version).

(** ** [ExecuteInto] *)

(** [maxTxnRetries]. *)
Definition maxTxnRetries : nat := 10.

Definition tryagain (msg : bytes) : Writer → Writer := WriteError (str "TRYAGAIN " ++ msg).

(** The retry loop: run, flush the context outside a transaction, run again
    while the flush reports an aborted transaction and attempts are left.  An
    aborted EXEC is not run again: its queue is gone. *)
Fixpoint run_attempts (left : nat) (isExec ro : bool) (run : HM unit) : HM unit :=
  s ← get;
  let savedLen := len (w_buf (h_w s)) in
  _ ← run;
  c ← get_conn;
  if c_InTransaction c then mret tt
  else
    e ← call_ctx ro Flush;
    match e with
    | None => mret tt
    | Some (aborted, msg) =>
      match aborted, left with
      | true, S left' =>
        _ ← mod_w (buf_truncate savedLen);
        if isExec then mod_w WriteNullArray else run_attempts left' isExec ro run
      | _, _ => _ ← mod_w (buf_truncate savedLen); mod_w (tryagain msg)
      end
    end.

(** Authentication: a connection without a user becomes the default user's if
    it may log in without a password. *)
Definition ensure_user (entry : option CommandEntry) : HM unit :=
  s ← get;
  match c_User (h_conn s) with
  | Some _ => mret tt
  | None =>
    if match entry with Some e => ce_NoAuth e | None => false end then mret tt
    else match AuthenticateDefault (h_acl s) with
    | Some u => mod_conn (set_user (Some u) (Name u))
    | None => answer WriteNoAuth
    end
  end.

Definition check_command (now : Z) (ty : CommandType) : HM unit :=
  c ← get_conn;
  if match c_User c with None => true | Some _ => false end ||
     bool_decide (ty = CmdAuth) || bool_decide (ty = CmdQuit) then mret tt
  else match CheckCommand (c_User c) ty with
  | None => mret tt
  | Some _ =>
    _ ← (if c_SSITransaction c then mod_conn set_aborted else mret tt);
    _ ← mod_acl (LogDenied now (str "command") (str "toplevel") (CommandString ty) (c_Username c) (c_RemoteAddr c));
    answer (WriteError (noperm_command ty))
  end.

Definition check_pubsub (entry : option CommandEntry) : HM unit :=
  c ← get_conn;
  if c_InPubSubMode c && negb (bool_decide (c_Protocol c = RESP3)) &&
     negb (match entry with Some e => ce_PubSub e | None => false end)
  then answer (WriteError (str "ERR only (P|S)SUBSCRIBE / (P|S)UNSUBSCRIBE / PING / QUIT are allowed in this context"))
  else mret tt.

Definition busy_allowed (cmd : Command) : bool :=
  match cmd_Type cmd with
  | CmdScript | CmdFunction =>
    match cmd_Args cmd with a :: _ => beq (ToUpper a) (str "KILL") | [] => false end
  | CmdShutdown | CmdMulti | CmdExec | CmdDiscard => true
  | _ => false
  end.

Definition check_busy (timedOut : bool) (cmd : Command) : HM unit :=
  if timedOut && negb (busy_allowed cmd) then
    _ ← mod_w (WriteError (str "BUSY Redis is busy running a script. You can only call SCRIPT KILL or SHUTDOWN NOSAVE."));
    _ ← mod_conn (λ c, if c_InTransaction c then set_aborted c else c);
    leave
  else mret tt.

Definition unknown_command (cmd : Command) : HM unit :=
  match cmd_Args cmd with
  | [] => answer (WriteError (str "ERR unknown command"))
  | _ => answer (WriteUnknownCommand (CommandString (cmd_Type cmd)) (cmd_Args cmd))
  end.

(** The lock of the first key, taken around the run outside transactions. *)
Definition lock_first (entry : CommandEntry) (args : list bytes) (m : HM unit) : HM unit := λ s,
  let keys := match ce_Keys entry with Some k => k args | None => [] end in
  match keys with
  | k :: _ =>
    if c_InTransaction (h_conn s) then m s
    else
      let l := GetLock k in
      if bool_decide (l ∈ h_held s) then (Deadlock, s)
      else
        let '(o, s') := m (mkHSt (h_acl s) (h_conn s) (h_ctx s) (h_roctx s) (h_w s) (l :: h_held s)) in
        (o, mkHSt (h_acl s') (h_conn s') (h_ctx s') (h_roctx s') (h_w s') (tail (h_held s')))
  | [] => m s
  end.

(** The standard path: validate, check the keys, forward, lock, run. *)
Definition run_standard (now : Z) (entry : CommandEntry) (handler : list bytes → Prep) (ro : bool)
    (cmd : Command) : HM unit :=
  match handler (cmd_Args cmd) with
  | Crash => panic
  | Refuse _ f => mod_w f
  | Accept keys runner =>
    _ ← check_keys now (cmd_Type cmd) (ce_Write entry) keys;
    _ ← (if ce_Write entry then check_internal keys else mret tt);
    c ← get_conn;
    let fwd := match ce_Keys entry with
               | Some k =>
                 let fwdKeys := k (cmd_Args cmd) in
                 if ForwardingEnabled && ce_Write entry && negb (len fwdKeys =? 0)
                 then Forward (CommandString (cmd_Type cmd)) (cmd_Args cmd) fwdKeys (c_Username c)
                 else None
               | None => None
               end in
    match fwd with
    | Some result => answer (WriteRaw result)
    | None =>
      lock_first entry (cmd_Args cmd)
        (run_attempts maxTxnRetries false ro
           (call_runner ro (runDataCommand (is_data_write entry (cmd_Type cmd)) runner)))
    end
  end.

Definition dispatch (lookup : CommandType → option CommandEntry) (timedOut : bool) (now : Z)
    (cmd : Command) : HM unit :=
  let ty := cmd_Type cmd in
  let entry := lookup ty in
  _ ← ensure_user entry;
  _ ← check_command now ty;
  _ ← check_pubsub entry;
  _ ← check_busy timedOut cmd;
  c ← get_conn;
  let ro := match entry with
            | Some e => negb (ce_Write e) && negb (ce_NoQueue e) && negb (c_InTransaction c)
            | None => false
            end in
  let noQueue := match entry with Some e => ce_NoQueue e | None => false end in
  if c_InTransaction c && negb noQueue then
    if bool_decide (ty = CmdUnknown) then
      _ ← mod_conn set_aborted; unknown_command cmd
    else queueCommand lookup now cmd
  else match entry with
  | None => unknown_command cmd
  | Some e =>
    match ce_ConnHandler e with
    | Some ch =>
      _ ← (match ce_Keys e with
           | Some k => check_keys now ty (ce_Write e) (k (cmd_Args cmd))
           | None => mret tt
           end);
      run_attempts maxTxnRetries (bool_decide (ty = CmdExec)) ro
        (runDataCommand_conn (is_data_write e ty) ro (ch ro (cmd_Args cmd)))
    | None =>
      match ce_Handler e with
      | Some handler => run_standard now e handler ro cmd
      | None => panic
      end
    end
  end.

(** ** The registered commands

    The connection and transaction commands of handler.go and the bitmap
    module; [other] stands for the entries of the modules not modelled. *)

Definition no_entry : CommandEntry := mkEntry None None None None false false false false.
Definition handler_entry (h : list bytes → Prep) : CommandEntry :=
  mkEntry (Some h) None None None false false false false.
Definition write_entry (h : list bytes → Prep) (keys : list bytes → list bytes) : CommandEntry :=
  mkEntry (Some h) None None (Some keys) true false false false.
Definition conn_entry (ch : list bytes → HM unit) (noAuth noQueue pubSub : bool) : CommandEntry :=
  mkEntry None (Some (λ _, ch)) None None false noAuth noQueue pubSub.
Definition simple_runner (f : list bytes → Writer → Writer) (args : list bytes) : Prep :=
  Accept [] (write (f args)).

Definition registerConnectionCommands (now : Z) (ty : CommandType) : option CommandEntry :=
  match ty with
  | CmdPing =>
    Some (mkEntry None
      (Some (λ _ args, c ← get_conn;
               if c_InPubSubMode c then mod_w (handlePingPubSub args c) else mod_w (handlePing args)))
      (Some (simple_runner handlePing)) None false false false true)
  | CmdEcho => Some (handler_entry (simple_runner handleEcho))
  | CmdAuth => Some (conn_entry (handleAuth now) true false false)
  | CmdSelect =>
    Some (mkEntry None (Some (λ _ args, mod_w (handleSelect args))) (Some (simple_runner handleSelect))
            None false false false false)
  | CmdQuit => Some (conn_entry (λ _, mret tt) true true true)
  | CmdHello => Some (conn_entry (handleHello now) true false false)
  | CmdNoop => Some (conn_entry (λ _, mret tt) false false false)
  | _ => None
  end.

Definition registerTransactionCommands (ssi timedOut : bool) (ty : CommandType) : option CommandEntry :=
  match ty with
  | CmdMulti => Some (conn_entry (handleMulti ssi) false true false)
  | CmdExec => Some (conn_entry (handleExec timedOut) false true false)
  | CmdDiscard => Some (conn_entry handleDiscard false true false)
  | CmdWatch => Some (conn_entry handleWatch false true false)
  | CmdUnwatch => Some (conn_entry handleUnwatch false true false)
  | _ => None
  end.

Definition register_bitmap `{UnicodeCase} (ty : CommandType) : option CommandEntry :=
  match ty with
  | CmdGetBit => Some (handler_entry handleGetBit)
  | CmdBitCount => Some (handler_entry handleBitCount)
  | CmdBitPos => Some (handler_entry handleBitPos)
  | CmdBitFieldRO => Some (handler_entry handleBitFieldRO)
  | CmdSetBit => Some (write_entry handleSetBit KeysFirst)
  | CmdBitOp => Some (write_entry handleBitOp KeysAll)
  | CmdBitField => Some (write_entry handleBitField KeysFirst)
  | _ => None
  end.

(** The set commands, for the registry below to take as [other]. *)
Definition register_set `{RangeOrder} `{Rand} (ty : CommandType) : option CommandEntry :=
  match ty with
  | CmdSCard => Some (handler_entry handleSCard)
  | CmdSIsMember => Some (handler_entry handleSIsMember)
  | CmdSMIsMember => Some (handler_entry handleSMIsMember)
  | CmdSMembers => Some (handler_entry handleSMembers)
  | CmdSRandMember => Some (handler_entry handleSRandMember)
  | CmdSInter => Some (handler_entry handleSInter)
  | CmdSInterCard => Some (handler_entry handleSInterCard)
  | CmdSUnion => Some (handler_entry handleSUnion)
  | CmdSDiff => Some (handler_entry handleSDiff)
  | CmdSAdd => Some (write_entry handleSAdd KeysFirst)
  | CmdSRem => Some (write_entry handleSRem KeysFirst)
  | CmdSPop => Some (write_entry handleSPop KeysFirst)
  | CmdSMove => Some (write_entry handleSMove KeysFirstTwo)
  | CmdSInterStore => Some (write_entry handleSInterStore KeysAll)
  | CmdSUnionStore => Some (write_entry handleSUnionStore KeysAll)
  | CmdSDiffStore => Some (write_entry handleSDiffStore KeysAll)
  | _ => None
  end.

(** The hash commands. *)
Definition register_hash `{UnicodeCase} `{RangeOrder} `{Rand} `{ParseFloat} `{FormatFloat} `{GlobMatch} `{!WallClock}
    (ty : CommandType) : option CommandEntry :=
  match ty with
  | CmdHGet => Some (handler_entry handleHGet)
  | CmdHSet => Some (write_entry handleHSet KeysFirst)
  | CmdHSetNX => Some (write_entry handleHSetNX KeysFirst)
  | CmdHDel => Some (write_entry handleHDel KeysFirst)
  | CmdHExists => Some (handler_entry handleHExists)
  | CmdHGetAll => Some (handler_entry handleHGetAll)
  | CmdHKeys => Some (handler_entry handleHKeys)
  | CmdHVals => Some (handler_entry handleHVals)
  | CmdHLen => Some (handler_entry handleHLen)
  | CmdHMGet => Some (handler_entry handleHMGet)
  | CmdHMSet => Some (write_entry handleHMSet KeysFirst)
  | CmdHIncrBy => Some (write_entry handleHIncrBy KeysFirst)
  | CmdHIncrByFloat => Some (write_entry handleHIncrByFloat KeysFirst)
  | CmdHStrLen => Some (handler_entry handleHStrLen)
  | CmdHRandField => Some (handler_entry handleHRandField)
  | CmdHScan => Some (handler_entry handleHScan)
  | CmdHGetDel => Some (write_entry handleHGetDel KeysFirst)
  | CmdHExpire => Some (write_entry handleHExpire KeysFirst)
  | CmdHPExpire => Some (write_entry handleHPExpire KeysFirst)
  | CmdHExpireAt => Some (write_entry handleHExpireAt KeysFirst)
  | CmdHPExpireAt => Some (write_entry handleHPExpireAt KeysFirst)
  | CmdHTTL => Some (handler_entry handleHTTL)
  | CmdHPTTL => Some (handler_entry handleHPTTL)
  | CmdHExpireTime => Some (handler_entry handleHExpireTime)
  | CmdHPExpireTime => Some (handler_entry handleHPExpireTime)
  | CmdHPersist => Some (write_entry handleHPersist KeysFirst)
  | CmdHSetEx => Some (write_entry handleHSetEx KeysFirst)
  | CmdHGetEx => Some (write_entry handleHGetEx KeysFirst)
  | _ => None
  end.

(** The string, key and expiry commands.  [protoMaxBulkLen] is the server's
    limit on one bulk string. *)
Definition register_str `{RangeOrder} `{Xxh3} `{ParseFloat} `{FormatFloat} `{!WallClock}
    (protoMaxBulkLen : Z) (ty : CommandType) : option CommandEntry :=
  match ty with
  | CmdGet => Some (handler_entry handleGet)
  | CmdMGet => Some (handler_entry handleMGet)
  | CmdStrLen => Some (handler_entry handleStrLen)
  | CmdGetRange => Some (handler_entry handleGetRange)
  | CmdSubstr => Some (handler_entry handleGetRange)
  | CmdLcs => Some (handler_entry handleLcs)
  | CmdDigest => Some (handler_entry handleDigest)
  | CmdSet => Some (write_entry handleSet KeysFirst)
  | CmdSetNX => Some (write_entry handleSetNX KeysFirst)
  | CmdSetEX => Some (write_entry handleSetEX KeysFirst)
  | CmdPSetEX => Some (write_entry handlePSetEX KeysFirst)
  | CmdGetSet => Some (write_entry handleGetSet KeysFirst)
  | CmdGetDel => Some (write_entry handleGetDel KeysFirst)
  | CmdGetEx => Some (write_entry handleGetEx KeysFirst)
  | CmdMSet => Some (write_entry handleMSet KeysMSetStyle)
  | CmdMSetNX => Some (write_entry handleMSetNX KeysMSetStyle)
  | CmdMSetEX => Some (write_entry handleMSetEX KeysMSetStyle)
  | CmdSetRange => Some (write_entry (handleSetRange protoMaxBulkLen) KeysFirst)
  | CmdAppend => Some (write_entry handleAppend KeysFirst)
  | CmdIncr => Some (write_entry handleIncr KeysFirst)
  | CmdDecr => Some (write_entry handleDecr KeysFirst)
  | CmdIncrBy => Some (write_entry handleIncrBy KeysFirst)
  | CmdDecrBy => Some (write_entry handleDecrBy KeysFirst)
  | CmdIncrByFloat => Some (write_entry handleIncrByFloat KeysFirst)
  | CmdDel => Some (write_entry (handleDel (CommandString CmdDel)) KeysAll)
  | CmdUnlink => Some (write_entry (handleDel (CommandString CmdUnlink)) KeysAll)
  | CmdDelEx => Some (write_entry handleDelEx KeysAll)
  | CmdExists => Some (handler_entry handleExists)
  | CmdRename => Some (write_entry handleRename KeysFirstTwo)
  | CmdRenameNX => Some (write_entry handleRenameNX KeysFirstTwo)
  | CmdCopy => Some (write_entry handleCopy KeysFirstTwo)
  | CmdMove => Some (write_entry handleMove KeysFirst)
  | CmdType => Some (handler_entry handleType)
  | CmdExpire => Some (write_entry handleExpire KeysFirst)
  | CmdExpireAt => Some (write_entry handleExpireAt KeysFirst)
  | CmdPExpire => Some (write_entry handlePExpire KeysFirst)
  | CmdPExpireAt => Some (write_entry handlePExpireAt KeysFirst)
  | CmdTTL => Some (handler_entry handleTTL)
  | CmdPTTL => Some (handler_entry handlePTTL)
  | CmdExpireTime => Some (handler_entry handleExpireTime)
  | CmdPExpireTime => Some (handler_entry handlePExpireTime)
  | CmdPersist => Some (write_entry handlePersist KeysFirst)
  | _ => None
  end.

(** The list commands.  The blocking ones suspend their connection and are
    given as [blocking]; inside a transaction they make one attempt. *)
Definition blocking_entry (ch : list bytes → HM unit) (prep : list bytes → Prep)
    (keys : list bytes → list bytes) : CommandEntry :=
  mkEntry None (Some (λ _, ch)) (Some prep) (Some keys) true false false false.

Definition register_list `{!Clock} (blocking : CommandType → list bytes → HM unit) (ty : CommandType) :
    option CommandEntry :=
  match ty with
  | CmdLPush => Some (write_entry handleLPush KeysFirst)
  | CmdLPushX => Some (write_entry handleLPushX KeysFirst)
  | CmdRPush => Some (write_entry handleRPush KeysFirst)
  | CmdRPushX => Some (write_entry handleRPushX KeysFirst)
  | CmdLPop => Some (write_entry handleLPop KeysFirst)
  | CmdRPop => Some (write_entry handleRPop KeysFirst)
  | CmdLMPop => Some (write_entry handleLMPop (λ args, KeysNumkeysAtOffset args 0))
  | CmdLLen => Some (handler_entry handleLLen)
  | CmdLRange => Some (handler_entry handleLRange)
  | CmdLIndex => Some (handler_entry handleLIndex)
  | CmdLSet => Some (write_entry handleLSet KeysFirst)
  | CmdLRem => Some (write_entry handleLRem KeysFirst)
  | CmdLTrim => Some (write_entry handleLTrim KeysFirst)
  | CmdLInsert => Some (write_entry handleLInsert KeysFirst)
  | CmdLPos => Some (handler_entry handleLPos)
  | CmdLMove => Some (write_entry handleLMove KeysFirstTwo)
  | CmdRPopLPush => Some (write_entry handleRPopLPush KeysFirstTwo)
  | CmdBLPop => Some (blocking_entry (blocking ty) (handleLPopNonBlocking true) KeysAllButLast)
  | CmdBRPop => Some (blocking_entry (blocking ty) (handleLPopNonBlocking false) KeysAllButLast)
  | CmdBLMPop => Some (blocking_entry (blocking ty) handleBLMPopNonBlocking (λ args, KeysNumkeysAtOffset args 1))
  | CmdBLMove => Some (blocking_entry (blocking ty) handleBLMoveNonBlocking KeysFirstTwo)
  | CmdBRPopLPush => Some (blocking_entry (blocking ty) handleBRPopLPushNonBlocking KeysFirstTwo)
  | _ => None
  end.

Definition register_zset `{!Clock} `{Xxh3} `{ParseFloat} `{FormatG} `{RangeOrder} `{Rand}
    (blocking : CommandType → list bytes → HM unit) (ty : CommandType) : option CommandEntry :=
  match ty with
  | CmdZScore => Some (handler_entry handleZScore)
  | CmdZMScore => Some (handler_entry handleZMScore)
  | CmdZCard => Some (handler_entry handleZCard)
  | CmdZRank => Some (handler_entry handleZRank)
  | CmdZRevRank => Some (handler_entry handleZRevRank)
  | CmdZRange => Some (handler_entry handleZRange)
  | CmdZRevRange => Some (handler_entry handleZRevRange)
  | CmdZRangeByScore => Some (handler_entry handleZRangeByScore)
  | CmdZRevRangeByScore => Some (handler_entry handleZRevRangeByScore)
  | CmdZCount => Some (handler_entry handleZCount)
  | CmdZLexCount => Some (handler_entry handleZLexCount)
  | CmdZRangeByLex => Some (handler_entry handleZRangeByLex)
  | CmdZRevRangeByLex => Some (handler_entry handleZRevRangeByLex)
  | CmdZRandMember => Some (handler_entry handleZRandMember)
  | CmdZUnion => Some (handler_entry handleZUnion)
  | CmdZInter => Some (handler_entry handleZInter)
  | CmdZInterCard => Some (handler_entry handleZInterCard)
  | CmdZDiff => Some (handler_entry handleZDiff)
  | CmdZAdd => Some (write_entry handleZAdd KeysFirst)
  | CmdZRem => Some (write_entry handleZRem KeysFirst)
  | CmdZIncrBy => Some (write_entry handleZIncrBy KeysFirst)
  | CmdZPopMin => Some (write_entry handleZPopMin KeysFirst)
  | CmdZPopMax => Some (write_entry handleZPopMax KeysFirst)
  | CmdZMPop => Some (write_entry handleZMPop (λ args, KeysNumkeysAtOffset args 0))
  | CmdZRemRangeByScore => Some (write_entry handleZRemRangeByScore KeysFirst)
  | CmdZRemRangeByRank => Some (write_entry handleZRemRangeByRank KeysFirst)
  | CmdZRemRangeByLex => Some (write_entry handleZRemRangeByLex KeysFirst)
  | CmdZUnionStore => Some (write_entry handleZUnionStore KeysFirst)
  | CmdZInterStore => Some (write_entry handleZInterStore KeysFirst)
  | CmdZDiffStore => Some (write_entry handleZDiffStore KeysFirst)
  | CmdZRangeStore => Some (write_entry handleZRangeStore KeysFirstTwo)
  | CmdBZPopMin => Some (blocking_entry (blocking ty) handleBZPopMinNonBlocking KeysAllButLast)
  | CmdBZPopMax => Some (blocking_entry (blocking ty) handleBZPopMaxNonBlocking KeysAllButLast)
  | CmdBZMPop => Some (blocking_entry (blocking ty) handleBZMPopNonBlocking (λ args, KeysNumkeysAtOffset args 1))
  | _ => None
  end.

(** The stream commands; XREAD does not count as a write. *)
Definition register_stream `{!NetRemoves} `{RangeOrder} `{StreamClock} `{NodeMaxEntries} `{PairSort} `{KeyTrie} `{NilAdds}
    `{ParseFloat} (blocking : CommandType → list bytes → HM unit) (ty : CommandType) : option CommandEntry :=
  match ty with
  | CmdXAdd => Some (write_entry handleXAdd KeysFirst)
  | CmdXLen => Some (handler_entry handleXLen)
  | CmdXRange => Some (handler_entry handleXRange)
  | CmdXRevRange => Some (handler_entry handleXRevRange)
  | CmdXGroup => Some (write_entry handleXGroup KeysFirst)
  | CmdXAck => Some (write_entry handleXAck KeysFirst)
  | CmdXPending => Some (handler_entry handleXPending)
  | CmdXTrim => Some (write_entry handleXTrim KeysFirst)
  | CmdXDel => Some (write_entry handleXDel KeysFirst)
  | CmdXInfo => Some (handler_entry handleXInfo)
  | CmdXSetId => Some (write_entry handleXSetId KeysFirst)
  | CmdXDelEx => Some (write_entry handleXDelEx KeysFirst)
  | CmdXAckDel => Some (write_entry handleXAckDel KeysFirst)
  | CmdXClaim => Some (write_entry handleXClaim KeysFirst)
  | CmdXAutoClaim => Some (write_entry handleXAutoClaim KeysFirst)
  | CmdXIdmpRecord => Some (write_entry handleXIdmpRecord KeysFirst)
  | CmdXCfgSet => Some (write_entry handleXCfgSet KeysFirst)
  | CmdXRead =>
    Some (mkEntry None (Some (λ _, blocking ty)) (Some handleXReadNonBlocking) (Some KeysAfterStreams) false false false false)
  | CmdXReadGroup => Some (blocking_entry (blocking ty) handleXReadGroupNonBlocking KeysAfterStreams)
  | _ => None
  end.

(** The commands of pub/sub mode; what they do is PubSub.v's. *)
Definition register_pubsub (conn : CommandType → list bytes → HM unit) (prep : CommandType → list bytes → Prep)
    (ty : CommandType) : option CommandEntry :=
  match ty with
  | CmdSubscribe | CmdUnsubscribe | CmdPSubscribe | CmdPUnsubscribe =>
    Some (mkEntry None (Some (λ _, conn ty)) (Some (prep ty)) None false false false true)
  | CmdPublish => Some (handler_entry (prep ty))
  | CmdPubSub => Some (conn_entry (conn ty) false false false)
  | _ => None
  end.

Definition initRegistry `{UnicodeCase} (ssi timedOut : bool) (now : Z)
    (other : CommandType → option CommandEntry) (ty : CommandType) : option CommandEntry :=
  match register_bitmap ty with
  | Some e => Some e
  | None =>
    match registerTransactionCommands ssi timedOut ty with
    | Some e => Some e
    | None =>
      match registerConnectionCommands now ty with
      | Some e => Some e
      | None => other ty
      end
    end
  end.

(** The reply is staged in a buffer of its own and appended at the end. *)
Definition with_buf (b : bytes) (w : Writer) : Writer :=
  mkWriter b (w_protocol w) (w_stats w) (w_wroteError w) (w_errorCount w) (w_errorStart w) (w_errorEnd w).

Definition ExecuteInto (lookup : CommandType → option CommandEntry) (timedOut : bool) (now : Z)
    (cmd : Command) : HM unit := λ s,
  let origBuf := w_buf (h_w s) in
  let '(o, s') := dispatch lookup timedOut now cmd
                    (mkHSt (h_acl s) (h_conn s) (h_ctx s) (h_roctx s)
                       (ResetErrorFlag (with_buf [] (h_w s))) (h_held s)) in
  (match o with Return => Next tt | o => o end,
   mkHSt (h_acl s') (h_conn s') (h_ctx s') (h_roctx s')
     (with_buf (origBuf ++ w_buf (h_w s')) (h_w s')) (h_held s')).
End Dispatch.
