(* ===== verification/DispatchProps.v ===== *)
(** * What dispatch guarantees

    Authorisation of commands and keys, transactions as queues executed at
    EXEC, and the places where the code departs from what its comments
    promise.  The invariant on the transaction state is in TxnInvariant. *)

From S2P Require Import Prelude GoBytes Strconv Commands Writer Protocol Acl Engine Bitmap StreamGroups Dispatch.

Local Open Scope Z_scope.

Section Props.
Context `{TxEngine} `{Bcrypt}.
Context (lookup : CommandType → option CommandEntry).

(** A connection that may run command [ty]: logged in and permitted, not
    subscribed. *)
Record may_run (c : Connection) (u : ACLUser) (ty : CommandType) : Prop := mkMayRun {
  mr_user : c_User c = Some u;
  mr_cmd : CheckCommand (Some u) ty = None;
  mr_pubsub : c_InPubSubMode c = false
}.

Definition ro_for (e : CommandEntry) : bool := negb (ce_Write e) && negb (ce_NoQueue e).

(** ** Passing the checks *)

Lemma ensure_user_pass e s u : c_User (h_conn s) = Some u → ensure_user e s = (Next tt, s).
Proof. intros Hu. unfold ensure_user, mbind, HM_bind, get. by rewrite Hu. Qed.

Lemma check_command_pass now ty s u :
  c_User (h_conn s) = Some u → CheckCommand (Some u) ty = None →
  check_command now ty s = (Next tt, s).
Proof.
  intros Hu Hc. unfold check_command, mbind, HM_bind, get_conn. rewrite Hu, Hc.
  by destruct (_ || _).
Qed.

Lemma check_pubsub_pass e s : c_InPubSubMode (h_conn s) = false → check_pubsub e s = (Next tt, s).
Proof. intros Hp. unfold check_pubsub, mbind, HM_bind, get_conn. by rewrite Hp. Qed.

(** Once past the checks, what is left of [dispatch]. *)
Definition after_checks (now : Z) (cmd : Command) : HM unit :=
  let ty := cmd_Type cmd in
  let entry := lookup ty in
  c ← get_conn;
  let ro := match entry with
            | Some e => negb (ce_Write e) && negb (ce_NoQueue e) && negb (c_InTransaction c)
            | None => false
            end in
  let noQueue := match entry with Some e => ce_NoQueue e | None => false end in
  if c_InTransaction c && negb noQueue then
    if bool_decide (ty = CmdUnknown) then
      _ ← mod_conn set_aborted; unknown_command cmd
    else queueCommand lookup now cmd
  else match entry with
  | None => unknown_command cmd
  | Some e =>
    match ce_ConnHandler e with
    | Some ch =>
      _ ← (match ce_Keys e with
           | Some k => check_keys now ty (ce_Write e) (k (cmd_Args cmd))
           | None => mret tt
           end);
      run_attempts maxTxnRetries (bool_decide (ty = CmdExec)) ro
        (runDataCommand_conn (is_data_write e ty) ro (ch ro (cmd_Args cmd)))
    | None =>
      match ce_Handler e with
      | Some handler => run_standard now e handler ro cmd
      | None => λ s, (Panic, s)
      end
    end
  end.

Lemma dispatch_checks now cmd s u :
  may_run (h_conn s) u (cmd_Type cmd) →
  dispatch lookup false now cmd s = after_checks now cmd s.
Proof.
  intros [Hu Hc Hp]. unfold dispatch. unfold mbind at 1, HM_bind at 1.
  rewrite (ensure_user_pass _ s u Hu). unfold mbind at 1, HM_bind at 1.
  rewrite (check_command_pass now _ s u Hu Hc). unfold mbind at 1, HM_bind at 1.
  rewrite check_pubsub_pass by done. reflexivity.
Qed.

(** ** Key checks *)

Lemma check_keys_pass now ty isWrite keys s u :
  c_User (h_conn s) = Some u → Forall (λ k, CheckKey (Some u) k isWrite = None) keys →
  check_keys now ty isWrite keys s = (Next tt, s).
Proof.
  intros Hu Hk. induction keys as [|k keys IH]; [done|]. apply Forall_cons in Hk as [Hk Hks].
  cbn [check_keys]. unfold mbind, HM_bind, get_conn. rewrite Hu, Hk. by apply IH.
Qed.

(** A denied key stops the command: an error reply and a log entry, nothing
    else. *)
Lemma check_keys_denied now ty isWrite keys s u :
  c_User (h_conn s) = Some u → Exists (λ k, CheckKey (Some u) k isWrite ≠ None) keys →
  ∃ k acl', k ∈ keys ∧ CheckKey (Some u) k isWrite ≠ None ∧
    check_keys now ty isWrite keys s
    = (Return, mkHSt acl' (h_conn s) (h_ctx s) (h_roctx s) (WriteError (noperm_key k) (h_w s)) (h_held s)).
Proof.
  intros Hu. induction keys as [|k keys IH]; intros Hex; [by inversion Hex|].
  cbn [check_keys]. unfold mbind at 1, HM_bind at 1, get_conn at 1. rewrite Hu.
  destruct (CheckKey (Some u) k isWrite) eqn:Ek.
  - exists k. eexists. split; [by left|]. split; [by rewrite Ek|]. reflexivity.
  - destruct IH as (k' & acl' & Hin & Hd & Heq).
    { inversion Hex; subst; [by rewrite Ek in *|done]. }
    exists k', acl'. split; [by right|]. split; done.
Qed.

(** The reply buffer of [ExecuteInto]: what the command staged is appended. *)
Definition staged (w : Writer) : Writer := ResetErrorFlag (with_buf [] w).
Definition commit (orig w : Writer) : Writer := with_buf (w_buf orig ++ w_buf w) w.
Definition start (s : HSt) : HSt :=
  mkHSt (h_acl s) (h_conn s) (h_ctx s) (h_roctx s) (staged (h_w s)) (h_held s).

Lemma ExecuteInto_eq timedOut now cmd s :
  ExecuteInto lookup timedOut now cmd s =
    let '(o, s') := dispatch lookup timedOut now cmd (start s) in
    (match o with Return => Next tt | o => o end,
     mkHSt (h_acl s') (h_conn s') (h_ctx s') (h_roctx s') (commit (h_w s) (h_w s')) (h_held s')).
Proof. reflexivity. Qed.

(** A standard command outside a transaction. *)
Record standard (cmd : Command) (c : Connection) (e : CommandEntry) (keys : list bytes)
    (runner : M unit) : Prop := mkStandard {
  sd_idle : c_InTransaction c = false;
  sd_entry : lookup (cmd_Type cmd) = Some e;
  sd_conn : ce_ConnHandler e = None;
  sd_prep : ∃ h, ce_Handler e = Some h ∧ h (cmd_Args cmd) = Accept keys runner
}.

(** It runs after the key checks. *)
Lemma dispatch_standard now cmd s u e keys runner :
  may_run (h_conn s) u (cmd_Type cmd) → standard cmd (h_conn s) e keys runner →
  ∃ h, h (cmd_Args cmd) = Accept keys runner ∧
  dispatch lookup false now cmd s = run_standard now e h (ro_for e) cmd s.
Proof.
  intros Hmr [Ht He Hch (h & Hh & Hacc)]. exists h. split; [done|].
  rewrite (dispatch_checks now cmd s u) by done.
  unfold after_checks. unfold mbind at 1, HM_bind at 1, get_conn at 1.
  rewrite Ht, He, Hch, Hh. cbn [andb negb]. by rewrite andb_true_r.
Qed.

(** The keys [ExecuteInto] checks: those a standard handler asks for, those the
    registered extractor finds for a connection handler. *)
Definition checked_keys (e : CommandEntry) (args : list bytes) : list bytes :=
  match ce_ConnHandler e with
  | Some _ => match ce_Keys e with Some k => k args | None => [] end
  | None => match ce_Handler e with
            | Some h => match h args with Accept keys _ => keys | _ => [] end
            | None => []
            end
  end.

Lemma standard_keys cmd c e keys runner : standard cmd c e keys runner → checked_keys e (cmd_Args cmd) = keys.
Proof. intros [_ _ Hch (h & Hh & Ha)]. unfold checked_keys. by rewrite Hch, Hh, Ha. Qed.
Lemma denied_key_no_effect now cmd s u e :
  may_run (h_conn s) u (cmd_Type cmd) → c_InTransaction (h_conn s) = false → lookup (cmd_Type cmd) = Some e →
  Exists (λ k, CheckKey (Some u) k (ce_Write e) ≠ None) (checked_keys e (cmd_Args cmd)) →
  ∃ k acl', k ∈ checked_keys e (cmd_Args cmd) ∧
    ExecuteInto lookup false now cmd s
    = (Next tt, mkHSt acl' (h_conn s) (h_ctx s) (h_roctx s)
                  (commit (h_w s) (WriteError (noperm_key k) (staged (h_w s)))) (h_held s)).
Proof.
  intros Hmr Ht He Hdeny. rewrite ExecuteInto_eq, (dispatch_checks now cmd (start s) u) by done.
  destruct (check_keys_denied now (cmd_Type cmd) (ce_Write e) _ (start s) u ltac:(by destruct Hmr) Hdeny) as (k & acl' & Hin & _ & Heq).
  unfold after_checks, checked_keys in *. unfold mbind at 1, HM_bind at 1, get_conn at 1. cbn [start h_conn]. rewrite Ht, He. cbn [andb].
  destruct (ce_ConnHandler e) as [ch|].
  - destruct (ce_Keys e); [|by apply elem_of_nil in Hin]. unfold mbind at 1, HM_bind at 1. rewrite Heq. by exists k, acl'.
  - destruct (ce_Handler e) as [h|]; [|by apply elem_of_nil in Hin]. unfold run_standard.
    destruct (h (cmd_Args cmd)) as [? ?|keys runner|] eqn:Eh; [by apply elem_of_nil in Hin| |by apply elem_of_nil in Hin]. unfold mbind at 1, HM_bind at 1. rewrite Heq. by exists k, acl'.
Qed.

Lemma denied_command_no_effect now cmd s u : c_User (h_conn s) = Some u → c_SSITransaction (h_conn s) = false →
  cmd_Type cmd ≠ CmdAuth → cmd_Type cmd ≠ CmdQuit → CheckCommand (Some u) (cmd_Type cmd) ≠ None →
  ∃ acl', ExecuteInto lookup false now cmd s
    = (Next tt, mkHSt acl' (h_conn s) (h_ctx s) (h_roctx s)
                  (commit (h_w s) (WriteError (noperm_command (cmd_Type cmd)) (staged (h_w s)))) (h_held s)).
Proof.
  intros Hu Hs Hna Hnq Hc. destruct (CheckCommand (Some u) (cmd_Type cmd)) eqn:Ec; [|done].
  eexists. rewrite ExecuteInto_eq. unfold dispatch. unfold mbind at 1, HM_bind at 1.
  rewrite (ensure_user_pass _ (start s) u Hu).
  unfold mbind at 1, HM_bind at 1. unfold check_command. unfold mbind at 1, HM_bind at 1, get_conn at 1.
  cbn [start h_conn]. rewrite Hu, Ec, !bool_decide_eq_false_2 by done. cbn [orb]. rewrite Hs. reflexivity.
Qed.

(** C3: A command that fails a permission check does nothing.  Outside a
    transaction and outside subscription mode, when the connection's user may not
    run the command (AUTH and QUIT are never checked), or may not access one of the
    keys that [ExecuteInto] checks for it, the engine contexts, the connection and
    the locks stay as they were, and the reply is a single NOPERM error.  The keys
    checked are [checked_keys]: those a standard handler asks for, those the key
    extractor of the registry finds for a connection handler.  Nothing is said of
    a key the extractor overlooks: [consumer_named_streams] (XREADGROUP) and
    [sort_keys_missed] (SORT) are commands that reach one. *)
Theorem no_permission_no_effect (now : Z) (cmd : Command) (s : HSt) (u : ACLUser) :
  c_User (h_conn s) = Some u → c_InPubSubMode (h_conn s) = false →
  c_SSITransaction (h_conn s) = false → c_InTransaction (h_conn s) = false →
  cmd_Type cmd ≠ CmdAuth → cmd_Type cmd ≠ CmdQuit →
  CheckCommand (Some u) (cmd_Type cmd) ≠ None ∨
  (∃ e, lookup (cmd_Type cmd) = Some e ∧
     Exists (λ k, CheckKey (Some u) k (ce_Write e) ≠ None) (checked_keys e (cmd_Args cmd))) →
  ∃ acl' msg,
    ExecuteInto lookup false now cmd s
    = (Next tt, mkHSt acl' (h_conn s) (h_ctx s) (h_roctx s)
                  (commit (h_w s) (WriteError msg (staged (h_w s)))) (h_held s)) ∧
    (msg = noperm_command (cmd_Type cmd) ∨
     ∃ e k, lookup (cmd_Type cmd) = Some e ∧ k ∈ checked_keys e (cmd_Args cmd) ∧ msg = noperm_key k).
Proof.
  intros Hu Hp Hs Ht Hna Hnq Hdeny.
  destruct (CheckCommand (Some u) (cmd_Type cmd)) eqn:Ec.
  - destruct (denied_command_no_effect now cmd s u) as [acl' ->]; [done..|by rewrite Ec|].
    exists acl', (noperm_command (cmd_Type cmd)). split; [done|by left].
  - destruct Hdeny as [[]|(e & He & Hdeny)]; [done|].
    destruct (denied_key_no_effect now cmd s u e) as (k & acl' & Hin & ->); [done..|].
    exists acl', (noperm_key k). split; [done|]. right. by exists e, k.
Qed.

(** ** Transactions *)

(** Commands of one connection, one after the other. *)
Fixpoint exec_seq (timedOut : bool) (now : Z) (cmds : list Command) : HM unit :=
  match cmds with
  | [] => mret tt
  | cmd :: cmds' => _ ← ExecuteInto lookup timedOut now cmd; exec_seq timedOut now cmds'
  end.

Lemma exec_seq_app timedOut now l1 l2 s :
  exec_seq timedOut now (l1 ++ l2) s =
  (_ ← exec_seq timedOut now l1; exec_seq timedOut now l2) s.
Proof.
  revert s. induction l1 as [|c l1 IH]; intros s; [done|]. cbn [app exec_seq].
  unfold mbind, HM_bind in *. destruct (ExecuteInto _ _ _ _ s) as [[] s']; by rewrite ?IH.
Qed.

(** Runners in order, from one state to the next. *)
Fixpoint run_list (ms : list (M unit)) (st : St) : Outcome unit * St :=
  match ms with
  | [] => (Next tt, st)
  | m :: ms' =>
    match m st with
    | (Next _, st') | (Return, st') => run_list ms' st'
    | (Panic, st') => (Panic, st')
    | (Deadlock, st') => (Deadlock, st')
    end
  end.

(** A command with its registry entry and what its validation returned. *)
Record Prepared := mkPrepared {
  p_cmd : Command;
  p_entry : CommandEntry;
  p_keys : list bytes;
  p_runner : M unit
}.

Definition prepare_of (e : CommandEntry) : option (list bytes → Prep) :=
  match ce_TxnPrepare e with Some p => Some p | None => ce_Handler e end.

Record queueable (p : Prepared) : Prop := mkQueueable {
  qa_entry : lookup (cmd_Type (p_cmd p)) = Some (p_entry p);
  qa_queue : ce_NoQueue (p_entry p) = false;
  qa_known : cmd_Type (p_cmd p) ≠ CmdUnknown;
  qa_prep : ∃ f, prepare_of (p_entry p) = Some f ∧
            f (cmd_Args (p_cmd p)) = Accept (p_keys p) (p_runner p)
}.

Definition protected (p : Prepared) : M unit :=
  runDataCommand (is_data_write (p_entry p) (cmd_Type (p_cmd p))) (p_runner p).
Definition queued (p : Prepared) : QueuedCommand :=
  mkQueued (cmd_Type (p_cmd p)) (cmd_Args (p_cmd p)) (p_keys p) (protected p).

(** Queueing touches neither the engine contexts nor the ACL log. *)
Lemma ExecuteInto_queue now p s u :
  may_run (h_conn s) u (cmd_Type (p_cmd p)) → queueable p →
  c_InTransaction (h_conn s) = true → c_SSITransaction (h_conn s) = false →
  ExecuteInto lookup false now (p_cmd p) s
  = (Next tt, mkHSt (h_acl s) (push_queued (queued p) (h_conn s)) (h_ctx s) (h_roctx s)
       (commit (h_w s) (WriteQueued (staged (h_w s)))) (h_held s)).
Proof.
  intros Hmr [He Hq Hk (f & Hf & Hacc)] Ht Hs. rewrite ExecuteInto_eq.
  rewrite (dispatch_checks now (p_cmd p) (start s) u) by done.
  unfold after_checks. unfold mbind at 1, HM_bind at 1, get_conn at 1. cbn [start h_conn].
  rewrite Ht, He, Hq, bool_decide_eq_false_2 by done. cbn [andb negb].
  unfold queueCommand. cbn zeta. unfold mbind at 1, HM_bind at 1, get_conn at 1. cbn [h_conn].
  cbn [start h_conn]. rewrite Hs, He. cbn [andb]. unfold prepare_of in Hf. rewrite Hf, Hacc. reflexivity.
Qed.

Definition queue_conn (ps : list Prepared) (c : Connection) : Connection :=
  set_txn (c_InTransaction c) (c_SSITransaction c) (c_TxnAborted c) (c_QueuedCmds c ++ (queued <$> ps))
    (c_BufferedResults c) c.

(** A writer whose buffer grew and whose error flag was reset. *)
Definition appended (b : bytes) (w : Writer) : Writer := with_buf (w_buf w ++ b) (ResetErrorFlag w).

Lemma queue_all now ps s u :
  Forall (λ p, may_run (h_conn s) u (cmd_Type (p_cmd p)) ∧ queueable p) ps →
  c_InTransaction (h_conn s) = true → c_SSITransaction (h_conn s) = false →
  w_wroteError (h_w s) = false →
  exec_seq false now (p_cmd <$> ps) s
  = (Next tt, mkHSt (h_acl s) (queue_conn ps (h_conn s)) (h_ctx s) (h_roctx s)
       (appended (concat ((λ _, respQueued) <$> ps)) (h_w s)) (h_held s)).
Proof.
  revert s. induction ps as [|p ps IH]; intros s Hps Ht Hs Hwe.
  - cbn [fmap list_fmap exec_seq concat]. unfold queue_conn, appended.
    destruct s as [acl c ctx ro w held], c, w. cbn in *. rewrite Hwe, !app_nil_r. reflexivity.
  - apply Forall_cons in Hps as [[Hmr Hq] Hps]. cbn [fmap list_fmap exec_seq].
    unfold mbind at 1, HM_bind at 1. rewrite (ExecuteInto_queue now p s u Hmr Hq Ht Hs).
    rewrite IH; cbn [h_conn h_acl h_ctx h_roctx h_w h_held]; [|..|done|done|done].
    + f_equal. f_equal.
      * unfold queue_conn, push_queued. cbn. by rewrite <-app_assoc.
      * unfold appended, commit. destruct (h_w s). cbn. by rewrite <-app_assoc.
    + eapply Forall_impl; [exact Hps|]. intros q [[] ?]. by split.
Qed.

(** The registered transaction commands. *)
Definition has_txn_commands : Prop :=
  lookup CmdMulti = Some (conn_entry (handleMulti false) false true false) ∧
  lookup CmdExec = Some (conn_entry (handleExec false) false true false).

Definition the_cmd (ty : CommandType) : Command := mkCommand ty [] [].

(** A connection outside a transaction. *)
Definition idle (c : Connection) : Prop :=
  c_InTransaction c = false ∧ c_SSITransaction c = false ∧ c_TxnAborted c = false ∧
  c_QueuedCmds c = [] ∧ c_BufferedResults c = [].

Lemma ExecuteInto_multi now s u :
  has_txn_commands → may_run (h_conn s) u CmdMulti → idle (h_conn s) →
  ExecuteInto lookup false now (the_cmd CmdMulti) s
  = (Next tt, mkHSt (h_acl s) (set_txn true false false [] [] (h_conn s)) (h_ctx s) (h_roctx s)
       (appended respOK (h_w s)) (h_held s)).
Proof.
  intros [Hm _] Hmr (Ht & Hs & Ha & Hq & Hb). rewrite ExecuteInto_eq.
  rewrite (dispatch_checks now (the_cmd CmdMulti) (start s) u) by done.
  unfold after_checks. unfold mbind at 1, HM_bind at 1, get_conn at 1.
  cbn [start h_conn the_cmd cmd_Type]. rewrite Ht, Hm. cbn.
  destruct s as [acl [] ctx ro [] held]. cbn in *. subst. reflexivity.
Qed.

Lemma call_queue qs st acl c ro :
  run_queued qs (mkHSt acl c (st_ctx st) ro (st_w st) (st_held st)) =
  (let '(o, st') := run_list (q_Runner <$> qs) st in
   (o, mkHSt acl c (st_ctx st') ro (st_w st') (st_held st'))).
Proof.
  revert st. induction qs as [|q qs IH]; intros st; [done|].
  cbn [run_queued fmap list_fmap run_list]. unfold mbind, HM_bind, call_runner.
  cbn [ctx_of h_ctx h_w h_held]. destruct st as [x w held]. cbn [st_ctx st_w st_held].
  destruct (q_Runner q _) as [[] st']; cbn [h_acl h_conn h_roctx]; [apply IH|apply IH|done|done].
Qed.

Lemma idle_eq c : idle c → set_txn false false false [] [] c = c.
Proof. intros (Ht & Hs & Ha & Hq & Hb). destruct c. cbn in *. by subst. Qed.

(** EXEC on a queue: begin, check the watches, run in order, reset, flush. *)
Lemma ExecuteInto_exec now s u qs ctx1 st' ctx2 :
  has_txn_commands → may_run (h_conn s) u CmdExec → ForwardingEnabled = false →
  c_InTransaction (h_conn s) = true → c_SSITransaction (h_conn s) = false →
  c_TxnAborted (h_conn s) = false → c_QueuedCmds (h_conn s) = qs →
  CheckWatches (BeginTx (h_ctx s)) = (true, ctx1) →
  run_list (q_Runner <$> qs) (mkSt ctx1 (WriteArray (len qs) (staged (h_w s))) (h_held s)) = (Next tt, st') →
  Flush (st_ctx st') = (None, ctx2) →
  ExecuteInto lookup false now (the_cmd CmdExec) s
  = (Next tt, mkHSt (h_acl s) (ResetTransaction (h_conn s)) ctx2 (h_roctx s)
       (commit (h_w s) (st_w st')) (st_held st')).
Proof.
  intros [_ Hx] Hmr Hfwd Ht Hs Ha Hq Hcw Hrun Hfl. rewrite ExecuteInto_eq.
  rewrite (dispatch_checks now (the_cmd CmdExec) (start s) u) by done.
  unfold after_checks. cbn zeta. unfold mbind at 1, HM_bind at 1, get_conn at 1.
  cbn [start h_conn the_cmd cmd_Type]. rewrite Ht, Hx.
  cbn [conn_entry ce_NoQueue negb andb ce_ConnHandler ce_Keys cmd_Args ce_Write].
  unfold mbind at 1, HM_bind at 1, mret at 1, HM_ret at 1.
  assert (Hexec : runDataCommand_conn (is_data_write (conn_entry (handleExec false) false true false) CmdExec)
      false (handleExec false []) (start s)
    = (Next tt, mkHSt (h_acl s) (ResetTransaction (h_conn s)) (st_ctx st') (h_roctx s) (st_w st') (st_held st'))).
  { unfold runDataCommand_conn, call, handleExec.
    cbn [is_data_write conn_entry ce_Write negb orb].
    change (negb (len (@nil bytes) =? 0)) with false. cbn match.
    unfold mbind at 1, HM_bind at 1, get_conn at 1. cbn [start h_conn]. rewrite Ht, Ha, Hs, Hfwd.
    cbn [negb andb]. unfold mbind at 1, HM_bind at 1, mod_ctx at 1.
    unfold mbind at 1, HM_bind at 1, call_ctx at 1. cbn [ctx_of set_ctx h_ctx start]. rewrite Hcw.
    cbn [negb]. unfold mbind at 1, HM_bind at 1, mod_w at 1.
    unfold mbind at 1, HM_bind at 1.
    cbn [set_ctx start h_acl h_conn h_ctx h_roctx h_w h_held]. rewrite Hq.
    pose proof (call_queue qs (mkSt ctx1 (WriteArray (len qs) (staged (h_w s))) (h_held s))
      (h_acl s) (h_conn s) (h_roctx s)) as Hcq. cbn [st_ctx st_w st_held] in Hcq.
    rewrite Hcq, Hrun. reflexivity. }
  unfold maxTxnRetries. cbn [run_attempts]. unfold mbind at 1, HM_bind at 1, get at 1.
  unfold mbind at 1, HM_bind at 1. fold (start s). change (cmd_Args (the_cmd CmdExec)) with (@nil bytes). rewrite Hexec.
  unfold mbind at 1, HM_bind at 1, get_conn at 1. cbn [h_conn ResetTransaction set_txn c_InTransaction].
  unfold mbind at 1, HM_bind at 1, call_ctx at 1. cbn [ctx_of h_ctx]. rewrite Hfl. reflexivity.
Qed.

Lemma multi_exec_spec (now : Z) (ps : list Prepared) (s : HSt) (u : ACLUser)
    (ctx1 ctx2 : Ctx) (st' : St) :
  has_txn_commands → ForwardingEnabled = false → idle (h_conn s) →
  may_run (h_conn s) u CmdMulti → may_run (h_conn s) u CmdExec →
  Forall (λ p, may_run (h_conn s) u (cmd_Type (p_cmd p)) ∧ queueable p) ps →
  CheckWatches (BeginTx (h_ctx s)) = (true, ctx1) →
  run_list (protected <$> ps) (mkSt ctx1 (WriteArray (len ps) (staged (h_w s))) (h_held s)) = (Next tt, st') →
  Flush (st_ctx st') = (None, ctx2) →
  ∃ w', exec_seq false now (the_cmd CmdMulti :: (p_cmd <$> ps) ++ [the_cmd CmdExec]) s
        = (Next tt, mkHSt (h_acl s) (h_conn s) ctx2 (h_roctx s) w' (st_held st')) ∧
    w_buf w' = w_buf (h_w s) ++ respOK ++ concat ((λ _, respQueued) <$> ps) ++ w_buf (st_w st').
Proof.
  intros Hreg Hfwd Hidle Hm Hx Hps Hcw Hrun Hfl.
  eexists. cbn [exec_seq]. unfold mbind at 1, HM_bind at 1.
  rewrite (ExecuteInto_multi now s u) by done. rewrite exec_seq_app. unfold mbind at 1, HM_bind at 1.
  rewrite (queue_all now ps _ u); cbn [h_conn h_acl h_ctx h_roctx h_w h_held]; [|..|done|done|done].
  2: { eapply Forall_impl; [exact Hps|]. intros p [[] ?]. by split. }
  cbn [exec_seq]. unfold mbind at 1, HM_bind at 1.
  rewrite (ExecuteInto_exec now _ u (queued <$> ps) ctx1 st' ctx2);
    cbn [h_conn h_acl h_ctx h_roctx h_w h_held]; try done.
  - split.
    + unfold mret, HM_ret. f_equal. f_equal.
      transitivity (set_txn false false false [] [] (h_conn s)); [reflexivity|by apply idle_eq].
    + unfold commit, appended. destruct (h_w s). cbn. by rewrite <-!app_assoc.
  - by destruct Hx.
  - rewrite <-list_fmap_compose. unfold len. rewrite length_fmap.
    replace (staged (appended _ (appended _ (h_w s)))) with (staged (h_w s)) by (by destruct (h_w s)).
    exact Hrun.
Qed.

(** C40: Key permissions are not checked in a transaction.  A command on a key
    its user may not access does nothing when sent alone, but between MULTI and
    EXEC it is queued without a key check and EXEC runs it (the queued keys are
    recorded for a check at EXEC that is never made). *)
Theorem multi_runs_denied_keys (now : Z) (p : Prepared) (s : HSt) (u : ACLUser)
    (ctx1 ctx2 : Ctx) (st' : St) :
  has_txn_commands → ForwardingEnabled = false → idle (h_conn s) →
  may_run (h_conn s) u CmdMulti → may_run (h_conn s) u CmdExec →
  may_run (h_conn s) u (cmd_Type (p_cmd p)) → queueable p →
  standard (p_cmd p) (h_conn s) (p_entry p) (p_keys p) (p_runner p) →
  Exists (λ k, CheckKey (Some u) k (ce_Write (p_entry p)) ≠ None) (p_keys p) →
  CheckWatches (BeginTx (h_ctx s)) = (true, ctx1) →
  run_list [protected p] (mkSt ctx1 (WriteArray 1 (staged (h_w s))) (h_held s)) = (Next tt, st') →
  Flush (st_ctx st') = (None, ctx2) →
  (∃ acl' w', exec_seq false now [p_cmd p] s
     = (Next tt, mkHSt acl' (h_conn s) (h_ctx s) (h_roctx s) w' (h_held s))) ∧
  (∃ w', exec_seq false now [the_cmd CmdMulti; p_cmd p; the_cmd CmdExec] s
     = (Next tt, mkHSt (h_acl s) (h_conn s) ctx2 (h_roctx s) w' (st_held st'))).
Proof.
  intros Hreg Hfwd Hidle Hm Hx Hp Hq Hstd Hdeny Hcw Hrun Hfl. split.
  - destruct (denied_key_no_effect now (p_cmd p) s u (p_entry p)) as (k & acl' & _ & E); [done|by destruct Hstd..|by rewrite (standard_keys _ _ _ _ _ Hstd)|].
    cbn [exec_seq]. unfold mbind at 1, HM_bind at 1. rewrite E. by eexists _, _.
  - destruct (multi_exec_spec now [p] s u ctx1 ctx2 st') as (w' & E & _); [done|done|done|done|done| |done|done|done|by exists w'].
    constructor; [by split|constructor].
Qed.

(** BITFIELD never answers.  Registered with its first argument as its key,
    it runs under that key's lock, and its runner takes the same lock again:
    outside a transaction a permitted BITFIELD with at least one subcommand
    blocks for ever. *)
Theorem bitfield_deadlocks `{UnicodeCase} (now : Z) (name key : bytes) (rest : list bytes) (s : HSt)
    (u : ACLUser) (sc : subCommand) (scs : list subCommand) :
  lookup CmdBitField = Some (write_entry handleBitField KeysFirst) → ForwardingEnabled = false →
  may_run (h_conn s) u CmdBitField → c_InTransaction (h_conn s) = false →
  CheckKey (Some u) key true = None → internal_key key = false → GetLock key ∉ h_held s →
  parse_subcommands overflowWrap rest = Ok (sc :: scs) →
  fst (ExecuteInto lookup false now (mkCommand CmdBitField (key :: rest) name) s) = Deadlock.
Proof.
  intros Hl Hfwd Hmr Ht Hk Hint Hlock Hparse.
  assert (Hh : handleBitField (key :: rest) = Accept [key] (bitfield_runner key (sc :: scs)))
    by (unfold handleBitField; by rewrite Hparse).
  set (cmd := mkCommand CmdBitField (key :: rest) name).
  destruct (dispatch_standard now cmd (start s) u (write_entry handleBitField KeysFirst)
    [key] (bitfield_runner key (sc :: scs)) Hmr) as (h & Hacc & Hd).
  { constructor; [done..|]. by exists handleBitField. }
  rewrite ExecuteInto_eq. rewrite Hd. unfold run_standard. rewrite Hacc.
  unfold mbind at 1, HM_bind at 1.
  rewrite (check_keys_pass _ _ _ [key] (start s) u) by (try (by destruct Hmr); by constructor).
  cbn [write_entry ce_Write]. unfold mbind at 1, HM_bind at 1.
  change (check_internal [key]) with (if internal_key key then answer (no_internal key) else check_internal []).
  rewrite Hint. cbn [check_internal]. unfold mret at 1, HM_ret at 1.
  unfold mbind at 1, HM_bind at 1, get_conn at 1. cbn [ce_Keys write_entry]. cbv zeta.
  rewrite Hfwd. cbn [andb]. unfold lock_first. cbn [ce_Keys write_entry cmd cmd_Args KeysFirst start h_conn h_held].
  rewrite Ht, bool_decide_eq_false_2 by done.
  unfold maxTxnRetries. cbn [run_attempts]. unfold mbind at 1, HM_bind at 1, get at 1.
  unfold mbind at 1, HM_bind at 1. unfold call_runner at 1, runDataCommand at 1.
  assert (Hw : is_data_write (write_entry handleBitField KeysFirst) CmdBitField = true) by reflexivity.
  cbn [cmd_Type cmd]. rewrite Hw. cbn [negb].
  unfold bitfield_runner, with_lock. cbn [st_held h_held].
  rewrite bool_decide_eq_true_2 by (by left). reflexivity.
Qed.
End Props.

(** ** Witnesses

    The reference engine as a transactional one, a user who may run every
    command but access no key, and one who may access them all. *)
Module DispatchExample.
Import RefEngine.

#[global] Instance ref_tx : TxEngine := {|
  Flush := λ c, (None, c);
  Abort := λ c, c;
  Watch := λ _ c, (None, c);
  ClearWatches := λ c, c;
  CheckWatches := λ c, (true, c);
  ForwardingEnabled := false;
  Forward := λ _ _ _ _, None;
  ForwardExec := λ _ _ _, None;
  ClusterSafetyKey := str "__swytch:cluster";
  KeySafetyKey := str "__swytch:key"
|}.
#[global] Instance ref_bcrypt : Bcrypt :=
  {| GenerateFromPassword := λ _ p, Some p; CompareHashAndPassword := beq |}.
#[global] Instance ref_case : UnicodeCase :=
  {| unicode_lower := id; unicode_upper := id; unicode_fields := λ _, []; unicode_trim := id |}.

Definition user (allKeys : bool) : ACLUser :=
  mkACLUser (str "bob") true [] true true ∅ ∅ ∅ allKeys [] true [] [].
Definition conn (allKeys : bool) : Connection :=
  mkConn (Some (user allKeys)) (str "bob") RESP2 [] (str "127.0.0.1:9") false false false [] [] false false.
Definition state (allKeys : bool) : HSt :=
  mkHSt NewACLManager (conn allKeys) (holding ∅) (holding ∅)
    (NewWriter []) [].
Definition registry : CommandType → option CommandEntry := initRegistry false false 0 (λ _, None).

Definition setbit : Command := mkCommand CmdSetBit [str "secret"; FormatInt 7; FormatInt 1] (str "setbit").
Definition p_setbit : Prepared :=
  mkPrepared setbit (write_entry handleSetBit KeysFirst) [str "secret"]
    (setbit_runner (str "secret") 7 1).

Lemma may_run_all allKeys ty : may_run (conn allKeys) (user allKeys) ty.
Proof. by constructor. Qed.

Lemma setbit_queueable : queueable registry p_setbit.
Proof. constructor; [done..|]. by exists handleSetBit. Qed.

Lemma setbit_standard allKeys :
  standard registry setbit (conn allKeys) (write_entry handleSetBit KeysFirst) [str "secret"]
    (setbit_runner (str "secret") 7 1).
Proof. constructor; [done..|]. by exists handleSetBit. Qed.

Lemma secret_denied : Exists (λ k, CheckKey (Some (user false)) k true ≠ None) [str "secret"].
Proof. constructor. discriminate. Qed.

Lemma no_permission_no_effect_witness :
  ∃ acl' msg,
    ExecuteInto registry false 0 setbit (state false)
    = (Next tt, mkHSt acl' (conn false) (holding ∅) (holding ∅)
         (commit (NewWriter []) (WriteError msg (staged (NewWriter [])))) []) ∧
    (msg = noperm_command CmdSetBit ∨
     ∃ e k, registry CmdSetBit = Some e ∧ k ∈ checked_keys e (cmd_Args setbit) ∧ msg = noperm_key k).
Proof.
  apply (no_permission_no_effect registry 0 setbit (state false) (user false)).
  - reflexivity.
  - reflexivity.
  - reflexivity.
  - reflexivity.
  - discriminate.
  - discriminate.
  - right. exists (write_entry handleSetBit KeysFirst). split; [reflexivity|exact secret_denied].
Defined.

(** The engine and writer after the queued SETBIT. *)
Definition before_setbit : St :=
  mkSt (holding ∅) (WriteArray 1 (staged (NewWriter []))) [].
Definition after_setbit : St := snd (run_list [protected p_setbit] before_setbit).

Lemma after_setbit_run : run_list [protected p_setbit] before_setbit = (Next tt, after_setbit).
Proof.
  assert (Hn : fst (run_list [protected p_setbit] before_setbit) = Next tt) by (vm_compute; reflexivity).
  unfold after_setbit. destruct (run_list _ _) as [o st]. cbn in *. by rewrite Hn.
Qed.


Lemma multi_runs_denied_keys_witness :
  (∃ acl' w', exec_seq registry false 0 [setbit] (state false)
     = (Next tt, mkHSt acl' (conn false) (holding ∅) (holding ∅) w' [])) ∧
  (∃ w', exec_seq registry false 0 [the_cmd CmdMulti; setbit; the_cmd CmdExec] (state false)
     = (Next tt, mkHSt NewACLManager (conn false) (st_ctx after_setbit) (holding ∅) w' [])).
Proof.
  apply (multi_runs_denied_keys registry 0 p_setbit (state false) (user false) (holding ∅)
    (st_ctx after_setbit) after_setbit).
  - split; reflexivity.
  - reflexivity.
  - repeat split.
  - exact (may_run_all false CmdMulti).
  - exact (may_run_all false CmdExec).
  - exact (may_run_all false CmdSetBit).
  - exact setbit_queueable.
  - exact (setbit_standard false).
  - exact secret_denied.
  - reflexivity.
  - exact after_setbit_run.
  - reflexivity.
Defined.

(** The bypassed write is visible: bit 7 of the key is set. *)
Example denied_write_is_stored :
  reconstructBitmapBytes (view (st_ctx after_setbit) (str "secret"))
  = Some [1].
Proof. vm_compute. reflexivity. Qed.

Lemma bitfield_deadlocks_witness :
  fst (ExecuteInto registry false 0
         (mkCommand CmdBitField [str "k"; str "GET"; str "u8"; str "0"] (str "bitfield")) (state true))
  = Deadlock.
Proof.
  apply (bitfield_deadlocks registry 0 (str "bitfield") (str "k") [str "GET"; str "u8"; str "0"]
    (state true) (user true) (mkSub bitfieldGet false 8 0 0 overflowWrap false) []).
  - reflexivity.
  - reflexivity.
  - exact (may_run_all true CmdBitField).
  - reflexivity.
  - reflexivity.
  - vm_compute. reflexivity.
  - by apply not_elem_of_nil.
  - vm_compute. reflexivity.
Defined.
End DispatchExample.

(** ** The keys of stream commands *)

(** The keys of a read are looked for after the first argument that reads STREAMS,
    which may be the consumer's name: then no key is checked, and the stream is
    read. *)
Lemma consumer_named_streams (g key : bytes) : is_streams g = false →
  let args := [str "GROUP"; g; str "streams"; str "STREAMS"; key; str ">"] in
  KeysAfterStreams args = [] ∧
  parse_xreadgroup true args = Ok (mkReadGroup g (str "streams") (mkRG 0 false None false) [(key, NewOnly)]).
Proof.
  intros Hg args. split; [|by vm_compute]. unfold args, KeysAfterStreams. cbn [after_streams].
  change (is_streams (str "GROUP")) with false. rewrite Hg. by vm_compute.
Qed.

(** XGROUP is registered with its first argument as its key, the subcommand. *)
Lemma xgroup_key_is_subcommand (key g id : bytes) : KeysFirst [str "CREATE"; key; g; id] = [str "CREATE"].
Proof. done. Qed.
