(* ===== verification/TxnInvariant.v ===== *)
(** * The transaction state of a connection

    An invariant of every command: outside MULTI nothing is left over from an
    earlier transaction, and results are buffered, not queued, in SSI mode. *)

From S2P Require Import Prelude GoBytes Strconv Commands Writer Protocol Acl Engine Bitmap Sets Floats Strings Keys Hashes HashTtl Streams StreamCommands StreamReads StreamGroups Dispatch DispatchProps.

Local Open Scope Z_scope.

Section Invariant.
Context `{TxEngine} `{Bcrypt}.

Record txn_ok (c : Connection) : Prop := mkTxnOk {
  tx_idle : c_InTransaction c = false → idle c;
  tx_ssi : c_SSITransaction c = true → c_QueuedCmds c = [];
  tx_plain : c_SSITransaction c = false → c_BufferedResults c = []
}.

(** [m], from a connection satisfying [P], gives a result and a connection
    satisfying [R]; if it stops early the invariant holds. *)
Definition hoare {A} (P : Connection → Prop) (m : HM A) (R : A → Connection → Prop) : Prop :=
  ∀ s, P (h_conn s) →
    match m s with
    | (Next a, s') => R a (h_conn s')
    | (_, s') => txn_ok (h_conn s')
    end.

(** The common case: the invariant is kept. *)
Definition keeps {A} (m : HM A) : Prop := hoare txn_ok m (λ _, txn_ok).
(** [m] does not touch the connection. *)
Definition frames {A} (m : HM A) : Prop := ∀ P, (∀ c, P c → txn_ok c) → hoare P m (λ _, P).

Lemma hoare_bind {A B} P (m : HM A) R (f : A → HM B) Q :
  hoare P m R → (∀ a, hoare (R a) (f a) Q) → hoare P (m ≫= f) Q.
Proof.
  intros Hm Hf s HP. specialize (Hm s HP). unfold mbind, HM_bind.
  destruct (m s) as [[a| | |] s']; [|done..]. by apply Hf.
Qed.

Lemma hoare_get_conn {B} P (f : Connection → HM B) Q :
  (∀ c, P c → hoare (λ c', c' = c) (f c) Q) → hoare P (get_conn ≫= f) Q.
Proof. intros Hf s HP. unfold mbind, HM_bind, get_conn. by apply (Hf (h_conn s) HP s). Qed.

Lemma hoare_get {B} P (f : HSt → HM B) Q :
  (∀ s c, h_conn s = c → P c → hoare (λ c', c' = c) (f s) Q) → hoare P (get ≫= f) Q.
Proof. intros Hf s HP. unfold mbind, HM_bind, get. by apply (Hf s (h_conn s) eq_refl HP s). Qed.

Lemma hoare_weaken {A} (P P' : Connection → Prop) (m : HM A) (R R' : A → Connection → Prop) :
  hoare P' m R' → (∀ c, P c → P' c) → (∀ a c, R' a c → R a c) → hoare P m R.
Proof.
  intros Hm HP HR s Hs. specialize (Hm s (HP _ Hs)). destruct (m s) as [[a| | |] s']; auto.
Qed.

Lemma hoare_mod_conn P f R : (∀ c, P c → R tt (f c)) → hoare P (mod_conn f) R.
Proof. intros Hf s HP. by apply Hf. Qed.
Lemma hoare_ret {A} P (a : A) R : (∀ c, P c → R a c) → hoare P (mret a) R.
Proof. intros HR s HP. by apply HR. Qed.
Lemma hoare_mod_w P f R : (∀ c, P c → R tt c) → hoare P (mod_w f) R.
Proof. intros HR s HP. by apply HR. Qed.
Lemma hoare_mod_acl P f R : (∀ c, P c → R tt c) → hoare P (mod_acl f) R.
Proof. intros HR s HP. by apply HR. Qed.
Lemma hoare_mod_ctx P ro f R : (∀ c, P c → R tt c) → hoare P (mod_ctx ro f) R.
Proof. intros HR s HP. by apply HR. Qed.
Lemma hoare_call_ctx {A} P ro (f : Ctx → A * Ctx) R :
  (∀ a c, P c → R a c) → hoare P (call_ctx ro f) R.
Proof. intros HR s HP. unfold call_ctx. destruct (f _) as [a x]. by apply HR. Qed.
Lemma hoare_answer {A} P f (R : A → Connection → Prop) :
  (∀ c, P c → txn_ok c) → hoare P (answer f) R.
Proof. intros HP s Hs. by apply HP. Qed.
Lemma hoare_leave {A} P (R : A → Connection → Prop) : (∀ c, P c → txn_ok c) → hoare P leave R.
Proof. intros HP s Hs. by apply HP. Qed.

Lemma hoare_call_runner P ro m R :
  (∀ c, P c → R tt c) → (∀ c, P c → txn_ok c) → hoare P (call_runner ro m) R.
Proof.
  intros HR HP s Hs. unfold call_runner. destruct (m _) as [[[]| | |] st]; cbn; auto.
Qed.

Lemma hoare_call P m R :
  hoare P m R → (∀ c, txn_ok c → R tt c) → hoare P (call m) R.
Proof.
  intros Hm HR s Hs. specialize (Hm s Hs). unfold call.
  destruct (m s) as [[[]| | |] s']; auto.
Qed.

Lemma hoare_case_nextless {A} (P : Connection → Prop) (R : A → Connection → Prop) (o : Outcome A) :
  (∀ a, o ≠ Next a) → (∀ c, P c → txn_ok c) → hoare P (λ s, (o, s)) R.
Proof. intros Ho HP s Hs. destruct o; [by edestruct Ho|by apply HP..]. Qed.

(** ** Updates of the connection *)

Lemma txn_ok_user u n c : txn_ok c → txn_ok (set_user u n c).
Proof. by intros [Hi Hs Hp]; constructor. Qed.
Lemma txn_ok_client p n c : txn_ok c → txn_ok (set_client p n c).
Proof. by intros [Hi Hs Hp]; constructor. Qed.
Lemma txn_ok_reset c : txn_ok (ResetTransaction c).
Proof. by constructor. Qed.

Lemma txn_ok_aborted c : txn_ok c → c_InTransaction c = true → txn_ok (set_aborted c).
Proof.
  intros [Hi Hs Hp] Ht. constructor; cbn; [by rewrite Ht|done..].
Qed.

Lemma txn_ok_ssi_in c : txn_ok c → c_SSITransaction c = true → c_InTransaction c = true.
Proof.
  intros [Hi _ _] Hs. destruct (c_InTransaction c); [done|].
  destruct (Hi eq_refl) as (_ & Hs' & _). congruence.
Qed.

Lemma txn_ok_push_queued q c :
  txn_ok c → c_InTransaction c = true → c_SSITransaction c = false → txn_ok (push_queued q c).
Proof. intros [Hi Hs Hp] Ht Hss. constructor; cbn; [by rewrite Ht|by rewrite Hss|done]. Qed.

Lemma txn_ok_push_result r c :
  txn_ok c → c_SSITransaction c = true → txn_ok (push_result r c).
Proof.
  intros Hok Hss. pose proof (txn_ok_ssi_in c Hok Hss) as Ht. destruct Hok as [Hi Hs Hp].
  constructor; cbn; [by rewrite Ht|done|by rewrite Hss].
Qed.

(** ** The steps of a command *)

(** Introduce a connection known to be another one. *)
Ltac hsub := let c := fresh "c" in let E := fresh "E" in intros c E; cbv beta in E |- *; subst c.

Lemma check_keys_frame now ty isWrite keys c :
  txn_ok c → hoare (λ c', c' = c) (check_keys now ty isWrite keys) (λ _ c', c' = c).
Proof.
  intros Hok. induction keys as [|k keys IH]; [by apply hoare_ret|]. cbn [check_keys].
  apply hoare_get_conn. intros c0 ->. destruct (c_User c); [|by apply hoare_ret].
  destruct (CheckKey _ k isWrite); [|exact IH].
  eapply hoare_bind; [by apply (hoare_mod_acl _ _ (λ _ c', c' = c))|]. intros [].
  apply hoare_answer. by hsub.
Qed.

Lemma check_internal_frame keys c :
  txn_ok c → hoare (λ c', c' = c) (check_internal keys) (λ _ c', c' = c).
Proof.
  intros Hok. induction keys as [|k keys IH]; [by apply hoare_ret|]. cbn [check_internal].
  destruct (internal_key k); [|exact IH]. apply hoare_answer. by hsub.
Qed.

Lemma ensure_user_keeps e : keeps (ensure_user e).
Proof.
  apply hoare_get. intros s c0 Hs Hok. rewrite Hs. destruct (c_User c0); [by apply hoare_ret; hsub|].
  destruct (match e with Some _ => _ | None => _ end); [by apply hoare_ret; hsub|].
  destruct (AuthenticateDefault _).
  - apply hoare_mod_conn. hsub. by apply txn_ok_user.
  - apply hoare_answer. by hsub.
Qed.

Lemma check_command_keeps now ty : keeps (check_command now ty).
Proof.
  apply hoare_get_conn. intros c Hok. destruct (_ || _); [by apply hoare_ret; hsub|].
  destruct (CheckCommand _ _); [|by apply hoare_ret; hsub].
  eapply (hoare_bind _ _ (λ _, txn_ok)).
  - destruct (c_SSITransaction c) eqn:Es.
    + apply hoare_mod_conn. hsub. apply txn_ok_aborted; [done|by apply txn_ok_ssi_in].
    + apply hoare_ret. by hsub.
  - intros []. eapply hoare_bind; [by apply (hoare_mod_acl _ _ (λ _, txn_ok))|]. intros [].
    by apply hoare_answer.
Qed.

Lemma check_pubsub_keeps e : keeps (check_pubsub e).
Proof.
  apply hoare_get_conn. intros c Hok. destruct (_ && _).
  - apply hoare_answer. by hsub.
  - apply hoare_ret. by hsub.
Qed.

Lemma check_busy_keeps timedOut cmd : keeps (check_busy timedOut cmd).
Proof.
  unfold check_busy. destruct (_ && _); [|by apply hoare_ret].
  eapply hoare_bind; [by apply (hoare_mod_w _ _ (λ _, txn_ok))|]. intros [].
  eapply (hoare_bind _ _ (λ _, txn_ok)); [|intros []; by apply hoare_leave].
  apply hoare_mod_conn. intros c Hok. destruct (c_InTransaction c) eqn:Et; [by apply txn_ok_aborted|done].
Qed.

Lemma abort_with_keeps f : hoare (λ c, txn_ok c ∧ c_InTransaction c = true) (abort_with f) (λ _, txn_ok).
Proof.
  eapply (hoare_bind _ _ (λ _, txn_ok)); [|intros []; by apply hoare_answer].
  apply hoare_mod_conn. intros c [Hok Ht]. by apply txn_ok_aborted.
Qed.

Lemma ssi_check_keys_frame now ty isWrite keys c :
  txn_ok c → c_InTransaction c = true →
  hoare (λ c', c' = c) (ssi_check_keys now ty isWrite keys) (λ _ c', c' = c).
Proof.
  intros Hok Ht. induction keys as [|k keys IH]; [by apply hoare_ret|]. cbn [ssi_check_keys].
  apply hoare_get_conn. intros c0 ->.
  eapply (hoare_bind _ _ (λ _ c', c' = c)).
  - destruct (c_User c); [|by apply hoare_ret]. destruct (CheckKey _ k isWrite); [|by apply hoare_ret].
    eapply (hoare_bind _ _ (λ _, txn_ok)).
    + apply hoare_mod_conn. hsub. by apply txn_ok_aborted.
    + intros []. eapply hoare_bind; [by apply (hoare_mod_acl _ _ (λ _, txn_ok))|]. intros [].
      by apply hoare_answer.
  - intros []. destruct (_ && _); [|exact IH].
    eapply (hoare_bind _ _ (λ _, txn_ok)).
    + apply hoare_mod_conn. hsub. by apply txn_ok_aborted.
    + intros []. by apply hoare_answer.
Qed.

Lemma queueCommand_keeps lookup now cmd :
  hoare (λ c, txn_ok c ∧ c_InTransaction c = true) (queueCommand lookup now cmd) (λ _, txn_ok).
Proof.
  apply hoare_get_conn. intros c [Hok Ht].
  assert (Habort : ∀ f, hoare (λ c', c' = c) (abort_with f) (λ _, txn_ok)).
  { intros f. eapply hoare_weaken; [apply abort_with_keeps| |done]. by hsub. }
  destruct (_ && _); [apply Habort|]. destruct (lookup _) as [e|]; [|apply Habort].
  destruct (match ce_TxnPrepare e with Some _ => _ | None => _ end) as [p|]; [|apply Habort].
  cbv beta iota zeta. destruct (p (cmd_Args cmd)) as [keys f|keys run|]; [apply Habort| |by apply hoare_case_nextless; [|hsub]].
  destruct (c_SSITransaction c) eqn:Es.
  - eapply hoare_bind; [by apply ssi_check_keys_frame|]. intros [].
    apply hoare_get. intros s c1 Hs ->.
    eapply hoare_bind; [apply (hoare_call_runner _ _ _ (λ _ c', c' = c)); [done|by hsub]|].
    intros []. apply hoare_get. intros s' c1 Hs' ->. rewrite Hs'. destruct (c_InScript c).
    + apply hoare_ret. by hsub.
    + apply hoare_mod_conn. hsub. by apply txn_ok_push_result.
  - eapply (hoare_bind _ _ (λ _, txn_ok)); [|intros []; by apply hoare_mod_w].
    apply hoare_mod_conn. hsub. by apply txn_ok_push_queued.
Qed.

(** ** Transaction commands *)

(** The argument check every one of them starts with. *)
Lemma keeps_if (b : bool) (m1 m2 : HM unit) : keeps m1 → keeps m2 → keeps (if b then m1 else m2).
Proof. by destruct b. Qed.

Lemma keeps_exact (m : HM unit) :
  (∀ c, txn_ok c → hoare (λ c', c' = c) m (λ _, txn_ok)) → keeps m.
Proof. intros Hm s Hok. by apply (Hm (h_conn s) Hok). Qed.

Lemma answer_keeps f : keeps (answer (A := unit) f).
Proof. by apply hoare_answer. Qed.

Lemma handleMulti_keeps ssi args : keeps (handleMulti ssi args).
Proof.
  apply keeps_if; [apply answer_keeps|]. apply hoare_get_conn. intros c Hok.
  destruct (c_InTransaction c) eqn:Et; [apply hoare_answer; by hsub|].
  destruct (tx_idle c Hok Et) as (_ & Hs & _ & Hq & Hb).
  eapply (hoare_bind _ _ (λ _ c', c' = c)); [by destruct ssi; [apply hoare_mod_ctx|apply hoare_ret]|].
  intros []. eapply (hoare_bind _ _ (λ _, txn_ok)); [|intros []; by apply hoare_mod_w].
  apply hoare_mod_conn. hsub. constructor; cbn; by rewrite ?Hq, ?Hb.
Qed.

Lemma reset_then_keeps (m : HM unit) : keeps m → keeps (_ ← mod_conn ResetTransaction; m).
Proof.
  intros Hm. eapply (hoare_bind _ _ (λ _, txn_ok)); [|by intros []].
  apply hoare_mod_conn. intros c _. apply txn_ok_reset.
Qed.

Lemma ctx_then_keeps ro f (m : HM unit) : keeps m → keeps (_ ← mod_ctx ro f; m).
Proof.
  intros Hm. eapply (hoare_bind _ _ (λ _, txn_ok)); [by apply hoare_mod_ctx|by intros []].
Qed.

Lemma handleDiscard_keeps args : keeps (handleDiscard args).
Proof.
  apply keeps_if; [apply answer_keeps|]. apply hoare_get_conn. intros c Hok.
  apply (hoare_weaken _ txn_ok _ _ (λ _, txn_ok)); [|by hsub|done]. apply keeps_if; [apply answer_keeps|].
  apply ctx_then_keeps, reset_then_keeps. by apply hoare_mod_w.
Qed.

Lemma watch_all_keeps keys : keeps (watch_all keys).
Proof.
  induction keys as [|k keys IH]; [by apply hoare_ret|]. cbn [watch_all].
  eapply (hoare_bind _ _ (λ _, txn_ok)); [by apply hoare_call_ctx|]. intros [msg|]; [|exact IH].
  apply ctx_then_keeps, answer_keeps.
Qed.

Lemma handleWatch_keeps args : keeps (handleWatch args).
Proof.
  apply keeps_if; [apply answer_keeps|]. apply hoare_get_conn. intros c Hok.
  apply (hoare_weaken _ txn_ok _ _ (λ _, txn_ok)); [|by hsub|done]. apply keeps_if; [apply answer_keeps|].
  eapply (hoare_bind _ _ (λ _, txn_ok)); [apply watch_all_keeps|]. intros []. by apply hoare_mod_w.
Qed.

Lemma handleUnwatch_keeps args : keeps (handleUnwatch args).
Proof.
  apply keeps_if; [apply answer_keeps|]. apply ctx_then_keeps. by apply hoare_mod_w.
Qed.

Lemma run_queued_keeps qs : keeps (run_queued qs).
Proof.
  induction qs as [|q qs IH]; [by apply hoare_ret|]. cbn [run_queued].
  eapply (hoare_bind _ _ (λ _, txn_ok)); [by apply hoare_call_runner|by intros []].
Qed.

Lemma exec_abort_keeps msg : keeps (exec_abort msg).
Proof. apply ctx_then_keeps, reset_then_keeps, answer_keeps. Qed.

Lemma mod_w_then_keeps f (m : HM unit) : keeps m → keeps (_ ← mod_w f; m).
Proof. intros Hm. eapply (hoare_bind _ _ (λ _, txn_ok)); [by apply hoare_mod_w|by intros []]. Qed.

Lemma reset_only_keeps : keeps (mod_conn ResetTransaction).
Proof. apply hoare_mod_conn. intros c _. apply txn_ok_reset. Qed.

Lemma handleExec_keeps timedOut args : keeps (handleExec timedOut args).
Proof.
  apply keeps_if; [apply answer_keeps|]. apply hoare_get_conn. intros c Hok.
  apply (hoare_weaken _ txn_ok _ _ (λ _, txn_ok)); [|by hsub|done].
  apply keeps_if; [apply answer_keeps|]. apply keeps_if; [apply exec_abort_keeps|].
  apply keeps_if; [apply exec_abort_keeps|]. cbv zeta.
  match goal with |- keeps (match ?x with Some _ => _ | None => _ end) => destruct x as [result|] end.
  - apply reset_then_keeps, ctx_then_keeps, answer_keeps.
  - apply ctx_then_keeps. eapply (hoare_bind _ _ (λ _, txn_ok)); [by apply hoare_call_ctx|]. intros ok.
    apply keeps_if; [apply ctx_then_keeps, reset_then_keeps, answer_keeps|].
    apply keeps_if; apply mod_w_then_keeps.
    + apply mod_w_then_keeps, reset_only_keeps.
    + eapply (hoare_bind _ _ (λ _, txn_ok)); [apply run_queued_keeps|]. intros []. apply reset_only_keeps.
Qed.

(** ** Connection commands *)

Lemma authenticate_keeps now u p : keeps (authenticate now u p).
Proof.
  apply hoare_get. intros s c Hs Hok. destruct (Authenticate u p (h_acl s)) as [usr|e].
  - apply hoare_mod_conn. hsub. by apply txn_ok_user.
  - eapply (hoare_bind _ _ (λ _, txn_ok)); [apply hoare_mod_conn; hsub; by apply txn_ok_user|].
    intros []. eapply (hoare_bind _ _ (λ _, txn_ok)); [by apply hoare_mod_acl|]. intros [].
    apply answer_keeps.
Qed.

Lemma auth_then_keeps now u p (m : HM unit) : keeps m → keeps (_ ← authenticate now u p; m).
Proof. intros Hm. eapply (hoare_bind _ _ (λ _, txn_ok)); [apply authenticate_keeps|by intros []]. Qed.

Lemma handleAuth_keeps now args : keeps (handleAuth now args).
Proof.
  destruct args as [|a [|b [|]]]; try apply answer_keeps; apply auth_then_keeps; by apply hoare_mod_w.
Qed.

Lemma hello_options_keeps now args : keeps (hello_options now args).
Proof.
  induction args as [args IH] using (induction_ltof1 _ length); unfold ltof in IH.
  destruct args as [|a rest]; [by apply hoare_ret|]. cbn [hello_options]. cbv zeta.
  destruct (beq (ToUpper a) (str "AUTH")).
  - destruct rest as [|u [|p rest]]; try apply answer_keeps.
    apply auth_then_keeps, IH. cbn; lia.
  - destruct (beq (ToUpper a) (str "SETNAME")); [|apply IH; cbn; lia].
    destruct rest as [|n rest]; [apply answer_keeps|].
    eapply (hoare_bind _ _ (λ _, txn_ok)).
    + apply hoare_mod_conn. intros c Hok. by apply txn_ok_client.
    + intros []. apply IH. cbn; lia.
Qed.

Lemma handleHello_keeps now args : keeps (handleHello now args).
Proof.
  eapply (hoare_bind _ _ (λ _, txn_ok)).
  { destruct args as [|a rest]; [by apply hoare_ret|].
    destruct (ParseInt64 a) as [[|[[]|[]|]|]|]; try (by apply hoare_answer); by apply hoare_ret. }
  intros [v rest]. eapply (hoare_bind _ _ (λ _, txn_ok)); [apply hello_options_keeps|]. intros [].
  apply hoare_get. intros s c Hs Hok. rewrite Hs.
  eapply (hoare_bind _ _ (λ _, txn_ok)).
  { destruct (c_User c); [apply hoare_ret; by hsub|]. destruct (AuthenticateDefault _).
    - apply hoare_mod_conn. hsub. by apply txn_ok_user.
    - apply hoare_ret. by hsub. }
  intros []. eapply (hoare_bind _ _ (λ _, txn_ok)).
  - apply hoare_mod_conn. intros c' Hok'. by apply txn_ok_client.
  - intros []. by apply hoare_mod_w.
Qed.

(** ** Dispatch *)

Lemma run_attempts_keeps left isExec ro (run : HM unit) : keeps run → keeps (run_attempts left isExec ro run).
Proof.
  intros Hrun. induction left as [|left IH]; cbn [run_attempts];
    (apply hoare_get; intros s c Hs Hok;
     apply (hoare_weaken _ txn_ok _ _ (λ _, txn_ok)); [|by hsub|done];
     eapply (hoare_bind _ _ (λ _, txn_ok)); [exact Hrun|]; intros [];
     apply hoare_get_conn; intros c' Hok';
     apply (hoare_weaken _ txn_ok _ _ (λ _, txn_ok)); [|by hsub|done];
     apply keeps_if; [by apply hoare_ret|];
     eapply (hoare_bind _ _ (λ _, txn_ok)); [by apply hoare_call_ctx|];
     intros [[[] msg]|]; [| |by apply hoare_ret]; apply mod_w_then_keeps;
     try (by apply hoare_mod_w)).
  apply keeps_if; [by apply hoare_mod_w|exact IH].
Qed.

Lemma runDataCommand_conn_keeps protect ro (run : HM unit) :
  keeps run → keeps (runDataCommand_conn protect ro run).
Proof.
  intros Hrun. assert (Hcall : keeps (call run)) by (by apply hoare_call).
  apply keeps_if; [exact Hcall|]. apply hoare_get. intros s c Hs Hok.
  apply (hoare_weaken _ txn_ok _ _ (λ _, txn_ok)); [|by hsub|done].
  eapply (hoare_bind _ _ (λ _, txn_ok)); [exact Hcall|]. intros [].
  apply hoare_get. intros s' c' Hs' Hok'.
  apply (hoare_weaken _ txn_ok _ _ (λ _, txn_ok)); [|by hsub|done].
  destruct (DiscardPartialReply _ _ _) as [d w']. apply mod_w_then_keeps.
  apply keeps_if; [by apply hoare_mod_ctx|by apply hoare_ret].
Qed.

Lemma lock_first_keeps e args m : keeps m → keeps (lock_first e args m).
Proof.
  intros Hm s Hok. unfold lock_first.
  destruct (match ce_Keys e with Some k => k args | None => [] end) as [|k ks]; [by apply Hm|].
  destruct (c_InTransaction (h_conn s)); [by apply Hm|].
  destruct (bool_decide _); [done|].
  pose proof (Hm (mkHSt (h_acl s) (h_conn s) (h_ctx s) (h_roctx s) (h_w s) (GetLock k :: h_held s)) Hok) as Hm'.
  destruct (m _) as [[] s']; exact Hm'.
Qed.

Lemma run_standard_keeps now e h ro cmd : keeps (run_standard now e h ro cmd).
Proof.
  unfold run_standard. destruct (h (cmd_Args cmd)) as [keys f|keys runner|]; [by apply hoare_mod_w| |by apply hoare_case_nextless].
  apply keeps_exact.
  intros c Hok. eapply hoare_bind; [by apply check_keys_frame|]. intros [].
    eapply (hoare_bind _ _ (λ _ c', c' = c)).
    { destruct (ce_Write e); [by apply check_internal_frame|by apply hoare_ret]. }
    intros []. apply hoare_get_conn. intros c0 ->. cbv zeta.
    apply (hoare_weaken _ txn_ok _ _ (λ _, txn_ok)); [|by hsub|done].
    match goal with |- hoare _ (match ?x with Some _ => _ | None => _ end) _ => destruct x as [result|] end.
    - apply answer_keeps.
    - apply lock_first_keeps, run_attempts_keeps. by apply hoare_call_runner.
Qed.

(** Entries whose connection handlers keep the invariant. *)
Definition entry_ok (e : CommandEntry) : Prop :=
  ∀ ch ro args, ce_ConnHandler e = Some ch → keeps (ch ro args).
Definition registry_ok (lookup : CommandType → option CommandEntry) : Prop :=
  ∀ ty e, lookup ty = Some e → entry_ok e.

Lemma unknown_command_keeps cmd : keeps (unknown_command cmd).
Proof. unfold unknown_command. destruct (cmd_Args cmd); apply answer_keeps. Qed.

Lemma dispatch_keeps lookup timedOut now cmd : registry_ok lookup → keeps (dispatch lookup timedOut now cmd).
Proof.
  intros Hreg. unfold dispatch. cbv zeta.
  eapply (hoare_bind _ _ (λ _, txn_ok)); [apply ensure_user_keeps|intros []].
  eapply (hoare_bind _ _ (λ _, txn_ok)); [apply check_command_keeps|intros []].
  eapply (hoare_bind _ _ (λ _, txn_ok)); [apply check_pubsub_keeps|intros []].
  eapply (hoare_bind _ _ (λ _, txn_ok)); [apply check_busy_keeps|intros []].
  apply hoare_get_conn. intros c Hok.
  match goal with |- hoare _ (if ?b then _ else _) _ => destruct b eqn:Eq end.
  - apply andb_true_iff in Eq as [Et _]. destruct (bool_decide _).
    + eapply (hoare_bind _ _ (λ _, txn_ok)); [|intros []; apply unknown_command_keeps].
      apply hoare_mod_conn. hsub. by apply txn_ok_aborted.
    + eapply hoare_weaken; [apply queueCommand_keeps| |done]. by hsub.
  - apply (hoare_weaken _ txn_ok _ _ (λ _, txn_ok)); [|by hsub|done].
    destruct (lookup (cmd_Type cmd)) as [e|] eqn:Ee; [|apply unknown_command_keeps].
    destruct (ce_ConnHandler e) as [ch|] eqn:Ech.
    + eapply (hoare_bind _ _ (λ _, txn_ok)).
      { destruct (ce_Keys e); [|by apply hoare_ret]. apply keeps_exact. intros c' Hc'.
        eapply hoare_weaken; [by apply check_keys_frame|done|]. intros _ c'' ->. done. }
      intros []. apply run_attempts_keeps, runDataCommand_conn_keeps. by apply (Hreg _ _ Ee).
    + destruct (ce_Handler e); [apply run_standard_keeps|]. by apply hoare_case_nextless.
Qed.

Lemma ExecuteInto_keeps lookup timedOut now cmd :
  registry_ok lookup → keeps (ExecuteInto lookup timedOut now cmd).
Proof.
  intros Hreg s Hok. rewrite ExecuteInto_eq.
  pose proof (dispatch_keeps lookup timedOut now cmd Hreg (start s) Hok) as Hd.
  destruct (dispatch _ _ _ _ _) as [[] s']; exact Hd.
Qed.

Lemma conn_entry_ok ch a q p : (∀ args, keeps (ch args)) → entry_ok (conn_entry ch a q p).
Proof. intros Hch ch' ro args [= <-]. apply Hch. Qed.
Lemma no_conn_ok e : ce_ConnHandler e = None → entry_ok e.
Proof. intros He ch ro args Hch. congruence. Qed.

Lemma initRegistry_ok `{UnicodeCase} ssi timedOut now other :
  registry_ok other → registry_ok (initRegistry ssi timedOut now other).
Proof.
  intros Ho ty e. unfold initRegistry.
  destruct (register_bitmap ty) as [e'|] eqn:E1.
  { intros [= <-]. apply no_conn_ok. destruct ty; cbn in E1; simplify_eq; done. }
  destruct (registerTransactionCommands ssi timedOut ty) as [e'|] eqn:E2.
  { intros [= <-]. destruct ty; cbn in E2; simplify_eq; apply conn_entry_ok; intros args.
    - apply handleMulti_keeps.
    - apply handleExec_keeps.
    - apply handleDiscard_keeps.
    - apply handleWatch_keeps.
    - apply handleUnwatch_keeps. }
  destruct (registerConnectionCommands now ty) as [e'|] eqn:E3; [|apply Ho].
  intros [= <-]. destruct ty; cbn in E3; simplify_eq; try by apply no_conn_ok.
  all: intros ch ro args [= <-].
  all: first [apply handleAuth_keeps | apply handleHello_keeps | by apply hoare_ret | by apply hoare_mod_w | idtac].
  apply hoare_get_conn. intros c Hok. destruct (c_InPubSubMode c); apply hoare_mod_w; by hsub.
Qed.

(** The set, string, key and hash commands may be part of the registry. *)
Lemma register_str_ok `{RangeOrder} `{Xxh3} `{ParseFloat} `{FormatFloat} `{!WallClock} limit :
  registry_ok (register_str limit).
Proof. intros ty e Hr. apply no_conn_ok. destruct ty; cbn in Hr; simplify_eq; done. Qed.
(** The keys MSETEX is registered with are the number of keys and the values:
    they are what it is locked and forwarded by, and checked against the
    permissions in an SSI transaction. *)
Lemma msetex_keys_misread `{RangeOrder} `{Xxh3} `{ParseFloat} `{FormatFloat} `{!WallClock} limit key value :
  ∃ h keys runner, register_str limit CmdMSetEX = Some (write_entry h keys) ∧
    h [str "1"; key; value] = Accept [key] runner ∧ keys [str "1"; key; value] = [str "1"; value].
Proof. do 3 eexists. split; [reflexivity|]. split; reflexivity. Qed.
Lemma register_hash_ok `{UnicodeCase} `{RangeOrder} `{Rand} `{ParseFloat} `{FormatFloat} `{GlobMatch} `{!WallClock} :
  registry_ok register_hash.
Proof. intros ty e Hr. apply no_conn_ok. destruct ty; cbn in Hr; simplify_eq; done. Qed.
(** The list and sorted-set commands too, when what stands for their blocking
    forms respects it. *)
Lemma blocking_entry_ok ch prep keys : (∀ args, keeps (ch args)) → entry_ok (blocking_entry ch prep keys).
Proof. intros Hch ch' ro args [= <-]. apply Hch. Qed.
Lemma register_list_ok `{!Clock} blocking : (∀ ty args, keeps (blocking ty args)) → registry_ok (register_list blocking).
Proof.
  intros Hb ty e Hr. destruct ty; cbn in Hr; simplify_eq; first [by apply no_conn_ok|apply blocking_entry_ok; apply Hb].
Qed.
Lemma register_zset_ok `{!Clock} `{Xxh3} `{ParseFloat} `{FormatG} `{RangeOrder} `{Rand} blocking :
  (∀ ty args, keeps (blocking ty args)) → registry_ok (register_zset blocking).
Proof.
  intros Hb ty e Hr. destruct ty; cbn in Hr; simplify_eq; first [by apply no_conn_ok|apply blocking_entry_ok; apply Hb].
Qed.
Lemma register_stream_ok `{!NetRemoves} `{RangeOrder} `{StreamClock} `{NodeMaxEntries} `{PairSort} `{KeyTrie} `{NilAdds}
    `{ParseFloat} blocking :
  (∀ ty args, keeps (blocking ty args)) → registry_ok (register_stream blocking).
Proof.
  intros Hb ty e Hr. destruct ty; cbn in Hr; simplify_eq;
    first [by apply no_conn_ok|apply blocking_entry_ok; apply Hb|intros ch ro args [= <-]; apply Hb].
Qed.
Lemma register_set_ok `{RangeOrder} `{Rand} : registry_ok register_set.
Proof. intros ty e Hr. apply no_conn_ok. destruct ty; cbn in Hr; simplify_eq; done. Qed.

(** C9: The transaction state of a connection is always consistent.  Whatever
    commands a connection sends, to whatever registry whose other connection
    handlers respect it, in both transaction modes: outside MULTI no queued
    command, buffered result, SSI flag or abort flag is left over, so that a new
    MULTI starts clean; results are buffered only in SSI mode and commands
    queued only outside it.  This holds after errors, failed runs and panics
    too. *)
Theorem txn_state_invariant `{UnicodeCase} (ssi timedOut : bool) (now : Z)
    (other : CommandType → option CommandEntry) (cmds : list Command) (s : HSt) :
  registry_ok other → txn_ok (h_conn s) →
  txn_ok (h_conn (snd (exec_seq (initRegistry ssi timedOut now other) timedOut now cmds s))).
Proof.
  intros Ho. revert s. induction cmds as [|cmd cmds IH]; intros s Hok; [done|].
  cbn [exec_seq]. unfold mbind, HM_bind.
  pose proof (ExecuteInto_keeps (initRegistry ssi timedOut now other) timedOut now cmd
    (initRegistry_ok ssi timedOut now other Ho) s Hok) as Hk.
  destruct (ExecuteInto _ _ _ _ s) as [[] s']; [by apply IH|done..].
Qed.
End Invariant.

(** ** Witness *)
Module TxnExample.
Import RefEngine DispatchExample.

Lemma txn_state_invariant_witness :
  txn_ok (h_conn (snd (exec_seq (initRegistry false false 0 (λ _, None)) false 0
    [the_cmd CmdMulti; setbit; the_cmd CmdMulti; the_cmd CmdDiscard; the_cmd CmdExec] (state true)))).
Proof.
  apply (txn_state_invariant false false 0 (λ _, None)
    [the_cmd CmdMulti; setbit; the_cmd CmdMulti; the_cmd CmdDiscard; the_cmd CmdExec] (state true)).
  - discriminate.
  - constructor; repeat split.
Defined.
End TxnExample.
