(* ===== verification/ConnLoop.v ===== *)
(** * The executor loop of a connection

    src/redis/server.go, [handleConnection]: the loop that takes the results of
    the reader goroutine, executes the commands, writes the replies through a
    buffered writer and decides when to flush it, together with the delivery of
    pub/sub messages to the connection.

    The loop is written against an interface: what it asks of the command handler
    and of the connection object ([ConnHost]), and what the socket does with the
    bytes it is given ([Socket]).  Dispatch.v and PubSub.v give hosts. *)

From S2P Require Import Prelude GoBytes Commands Writer Protocol Sets PubSub Dispatch.

Local Open Scope Z_scope.

(** ** The buffered writer

    [bufio.Writer].  [sock_write sent p]: how many bytes of [p] the connection
    takes after the bytes [sent]; fewer than all of them is an error. *)
Class Socket := sock_write : bytes → bytes → nat.

(** A connection that takes everything. *)
Class ReliableSocket `{Socket} := sock_takes_all sent p : (length p <= sock_write sent p)%nat.

(** The size of the buffer, what is in it, what the connection took, and the
    error, which stays. *)
Record Bufio := mkBufio { bw_size : nat; bw_buf : bytes; bw_sent : bytes; bw_err : bool }.
Definition DefaultBufSize : nat := Z.to_nat 32768.
Definition NewWriterSize (size : nat) : Bufio := mkBufio size [] [] false.

Section Buffered.
Context `{Socket}.

(** The connection is given [p] and keeps what it does not take. *)
Definition conn_Write (size : nat) (p sent : bytes) : bool * Bufio :=
  let n := sock_write sent p in
  if (n <? length p)%nat then (false, mkBufio size (drop n p) (sent ++ take n p) true)
  else (true, mkBufio size [] (sent ++ p) false).

Definition Flush (b : Bufio) : bool * Bufio :=
  if bw_err b then (false, b)
  else match bw_buf b with
       | [] => (true, b)
       | buf => conn_Write (bw_size b) buf (bw_sent b)
       end.

(** A write that does not fit fills the buffer and flushes it; what then does not
    fit into the empty buffer goes out directly. *)
Definition write_rest (p : bytes) (b : Bufio) : bool * Bufio :=
  if (length p <=? bw_size b)%nat then (true, mkBufio (bw_size b) p (bw_sent b) false)
  else
    let '(ok, b') := conn_Write (bw_size b) p (bw_sent b) in
    (ok, if ok then b' else mkBufio (bw_size b) [] (bw_sent b') true).
Definition bufio_Write (p : bytes) (b : Bufio) : bool * Bufio :=
  if bw_err b then (false, b)
  else
    let avail := (bw_size b - length (bw_buf b))%nat in
    if (length p <=? avail)%nat then (true, mkBufio (bw_size b) (bw_buf b ++ p) (bw_sent b) false)
    else match bw_buf b with
         | [] => write_rest p b
         | buf =>
           let '(ok, b') := Flush (mkBufio (bw_size b) (buf ++ take avail p) (bw_sent b) false) in
           if ok then write_rest (drop avail p) b' else (false, b')
         end.
End Buffered.

(** ** What the loop needs *)

(** [host_exec]: [ExecuteInto(cmd, w, conn)], [None] when it does not return;
    [conn.Protocol], [conn.PubSubClient] and the broker. *)
Class ConnHost (X : Type) := {
  host_exec : Command → Writer → X → option (Writer * X);
  host_protocol : X → ProtocolVersion;
  host_client : X → option nat;
  host_broker : X → Broker;
  host_update : option nat → Broker → X → X
}.

Definition isBlockingCommand (cmd : CommandType) : bool :=
  match cmd with
  | CmdBLPop | CmdBRPop | CmdBLMPop | CmdBLMove | CmdBRPopLPush | CmdBZPopMin | CmdBZPopMax | CmdBZMPop => true
  | _ => false
  end.

(** ** The state of the loop

    The host, the reply writer, the output, [pendingWrites],
    [pubsubDeliveryStarted], whether the cleanup function is set, and the delivery
    goroutines that were started, each with its client and protocol. *)
Record LSt (X : Type) := mkLSt {
  ls_x : X; ls_w : Writer; ls_out : Bufio; ls_pending : bool;
  ls_started : bool; ls_cleanup : bool; ls_async : list (nat * ProtocolVersion)
}.
Arguments mkLSt {X}. Arguments ls_x {X}. Arguments ls_w {X}. Arguments ls_out {X}. Arguments ls_pending {X}.
Arguments ls_started {X}. Arguments ls_cleanup {X}. Arguments ls_async {X}.

(** After a result: go on, leave the loop, or never come back from the command. *)
Inductive After (X : Type) : Type := GoOn (s : LSt X) | Leave (s : LSt X) | Stuck (s : LSt X).
Arguments GoOn {X}. Arguments Leave {X}. Arguments Stuck {X}.

Section Loop.
Context {X : Type} `{ConnHost X} `{Socket} `{RangeOrder}.

Definition set_out (out : Bufio) (pending : bool) (s : LSt X) : LSt X :=
  mkLSt (ls_x s) (ls_w s) out pending (ls_started s) (ls_cleanup s) (ls_async s).
Definition set_xw (x : X) (w : Writer) (s : LSt X) : LSt X :=
  mkLSt x w (ls_out s) (ls_pending s) (ls_started s) (ls_cleanup s) (ls_async s).

(** Flush, after which nothing is pending; a failed flush leaves it so. *)
Definition flush_all (s : LSt X) : bool * LSt X :=
  let '(ok, out) := Flush (ls_out s) in
  (ok, set_out out (if ok then false else ls_pending s) s).
Definition flush_if (cond : bool) (s : LSt X) : bool * LSt X :=
  if ls_pending s && cond then flush_all s else (true, s).

Definition busy_client (busy : bool) (x : X) : X :=
  match host_client x with
  | Some c => host_update (Some c) (with_client c (SetBusy busy) (host_broker x)) x
  | None => x
  end.

(** The client's queue without its first [n] messages. *)
Definition take_messages (n : nat) (cl : PubSubClient) : PubSubClient :=
  mkClient (drop n (pc_msgChan cl)) (pc_protocol cl) (pc_droppedMessages cl) (pc_closed cl) (pc_busy cl).
(** The messages that wait, one write each: how many were taken. *)
Fixpoint write_messages (protocol : ProtocolVersion) (msgs : list PubSubMessage) (out : Bufio) : bool * nat * Bufio :=
  match msgs with
  | [] => (true, 0%nat, out)
  | msg :: msgs' =>
    let '(ok, out) := bufio_Write (FormatPubSubMessage msg protocol) out in
    if ok then let '(ok, n, out) := write_messages protocol msgs' out in (ok, S n, out)
    else (false, 1%nat, out)
  end.
Definition client_queue (x : X) : option (nat * list PubSubMessage) :=
  c ← host_client x; cl ← b_clients (host_broker x) !! c; Some (c, pc_msgChan cl).
(** What waits for a client that reads messages inline. *)
Definition inline_queue (x : X) : list PubSubMessage :=
  match host_protocol x, client_queue x with RESP3, Some (_, msgs) => msgs | _, _ => [] end.
Definition take_inline (n : nat) (x : X) : X :=
  match host_client x with
  | Some c => host_update (Some c) (with_client c (take_messages n) (host_broker x)) x
  | None => x
  end.
Definition deliver_inline (s : LSt X) : bool * LSt X :=
  match inline_queue (ls_x s) with
  | [] => (true, s)
  | msgs =>
    let '(ok, n, out) := write_messages (host_protocol (ls_x s)) msgs (ls_out s) in
    (ok, set_out out (ls_pending s || (1 <? n)%nat || ok) (set_xw (take_inline n (ls_x s)) (ls_w s) s))
  end.

(** Entering pub/sub mode sets the cleanup and, but for RESP3, starts a delivery
    goroutine; leaving it forgets the cleanup. *)
Definition follow_mode (s : LSt X) : LSt X :=
  match host_client (ls_x s) with
  | Some c =>
    if ls_started s then s
    else mkLSt (ls_x s) (ls_w s) (ls_out s) (ls_pending s) true true
           (if bool_decide (host_protocol (ls_x s) = RESP3) then ls_async s
            else ls_async s ++ [(c, host_protocol (ls_x s))])
  | None =>
    if ls_started s then mkLSt (ls_x s) (ls_w s) (ls_out s) (ls_pending s) false false (ls_async s) else s
  end.

(** The reply, the messages, and the flush when no more is buffered. *)
Definition write_reply (s : LSt X) : bool * LSt X :=
  match w_buf (ls_w s) with
  | [] => (true, s)
  | reply =>
    let '(ok, out) := bufio_Write reply (ls_out s) in
    (ok, set_out out (ok || ls_pending s) s)
  end.
Definition not_busy (s : LSt X) : LSt X := set_xw (busy_client false (ls_x s)) (ls_w s) s.
Definition after_command (moreBuffered : bool) (s : LSt X) : After X :=
  let '(ok, s) := write_reply s in
  if negb ok then Leave (not_busy s)
  else
    let '(ok, s) := deliver_inline s in
    if negb ok then Leave (not_busy s)
    else
      let '(ok, s) := flush_if (negb moreBuffered) (follow_mode (not_busy s)) in
      if ok then GoOn s else Leave s.

Definition run_command (cmd : Command) (moreBuffered : bool) (s : LSt X) : After X :=
  let '(ok, s) := flush_if (isBlockingCommand (cmd_Type cmd)) s in
  if negb ok then Leave s
  else
    let x := busy_client true (ls_x s) in
    let w := SetProtocol (host_protocol x) (with_buf [] (ls_w s)) in
    match host_exec cmd w x with
    | None => Stuck (set_xw x w s)
    | Some (w, x) => after_command moreBuffered (set_xw x w s)
    end.

Definition run_protocol_error (msg : bytes) (s : LSt X) : After X :=
  let '(ok, s) := flush_if true s in
  if negb ok then Leave s
  else
    let w := WriteError msg (with_buf [] (ls_w s)) in
    let '(_, out) := bufio_Write (w_buf w) (ls_out s) in
    let '(_, out) := Flush out in
    GoOn (set_out out (ls_pending s) (set_xw (ls_x s) w s)).

Definition run_result (r : readResult) (moreBuffered : bool) (s : LSt X) : After X :=
  match r with
  | RProtocolErr msg => run_protocol_error msg s
  | RQuit => Leave (snd (flush_if true s))
  | RCommand cmd => run_command cmd moreBuffered s
  end.

(** [for result := range cmdChan]; the reader has closed the channel at the end
    of the list. *)
Fixpoint run_loop (rs : list (readResult * bool)) (s : LSt X) : After X :=
  match rs with
  | [] => Leave s
  | (r, moreBuffered) :: rs' =>
    match run_result r moreBuffered s with
    | GoOn s => run_loop rs' s
    | a => a
    end
  end.

(** Once the loop is left, the subscriptions go. *)
Definition close_connection (s : LSt X) : LSt X :=
  if ls_cleanup s then
    match host_client (ls_x s) with
    | Some c => set_xw (host_update None (Cleanup c (host_broker (ls_x s))) (ls_x s)) (ls_w s) s
    | None => s
    end
  else s.

(** One round of a delivery goroutine: a message that waits for its client is
    written and flushed.  A failed write ends the goroutine, and once the client is
    closed it may end at any time. *)
Definition deliver_async (c : nat) (protocol : ProtocolVersion) (s : LSt X) : option (LSt X) :=
  cl ← b_clients (host_broker (ls_x s)) !! c;
  match pc_msgChan cl with
  | [] => None
  | msg :: _ =>
    let '(ok, out) := bufio_Write (FormatPubSubMessage msg protocol) (ls_out s) in
    let out := if ok then snd (Flush out) else out in
    let x := host_update (host_client (ls_x s)) (with_client c (take_messages 1) (host_broker (ls_x s))) (ls_x s) in
    Some (mkLSt x (ls_w s) out (ls_pending s) (ls_started s) (ls_cleanup s)
            (if ok then ls_async s else filter (λ g, g ≠ (c, protocol)) (ls_async s)))
  end.
End Loop.
