(* ===== verification/ConnTheorems.v ===== *)
(** * The executor loop: what the client receives

    Over every interleaving of the loop with the delivery goroutines, and whatever
    the connection does, the client receives whole replies and whole messages one
    after the other, cut off only where the connection fails; on a connection that
    does not fail it has received all of them whenever the reader has nothing
    more. *)

From S2P Require Import Prelude GoBytes Commands Writer Protocol Sets PubSub Dispatch ConnLoop.

Local Open Scope Z_scope.

(** ** The buffered writer *)

(** [b'] is [b] after an attempt to write [p]: an error stays, without one
    everything is sent or in the buffer, and what is sent is never anything
    else. *)
Record wrote (p : bytes) (b b' : Bufio) : Prop := {
  wr_stays : bw_err b = true → bw_err b' = true ∧ bw_sent b' = bw_sent b;
  wr_all : bw_err b' = false → bw_err b = false ∧ bw_sent b' ++ bw_buf b' = bw_sent b ++ bw_buf b ++ p;
  wr_prefix : bw_sent b' `prefix_of` bw_sent b ++ bw_buf b ++ p;
  wr_more : bw_sent b `prefix_of` bw_sent b'
}.

Lemma wrote_nil b : wrote [] b b.
Proof. split; [done|by rewrite app_nil_r|by eexists|done]. Qed.

Lemma wrote_trans p q b b1 b2 : wrote p b b1 → wrote q b1 b2 → wrote (p ++ q) b b2.
Proof.
  intros [S1 A1 P1 M1] [S2 A2 P2 M2]. split.
  - intros E. destruct (S1 E) as [E1 ->%symmetry]. destruct (S2 E1) as [E2 E2']. by rewrite E2'.
  - intros E. destruct (A2 E) as [E1 Q2]. destruct (A1 E1) as [E0 Q1]. split; [done|].
    rewrite Q2, app_assoc, Q1. by rewrite <- !app_assoc.
  - destruct (bw_err b1) eqn:E1.
    + destruct (S2 eq_refl) as [_ ->]. etrans; [exact P1|]. rewrite !app_assoc. by eexists.
    + destruct (A1 eq_refl) as [_ Q1]. etrans; [exact P2|]. rewrite app_assoc, Q1. by rewrite <- !app_assoc.
  - by etrans.
Qed.

(** What comes after an error is not written. *)
Lemma wrote_error p q b b' : wrote p b b' → bw_err b' = true → wrote (p ++ q) b b'.
Proof.
  intros [S1 A1 P1 M1] E. split; [done|congruence| |done]. etrans; [exact P1|]. rewrite !app_assoc. by eexists.
Qed.

Section Buffered.
Context `{Socket}.

(** After an operation that says whether it failed. *)
Definition op_ok (p : bytes) (b : Bufio) (r : bool * Bufio) : Prop :=
  wrote p b (snd r) ∧ bw_err (snd r) = negb (fst r).

Lemma conn_Write_ok size p sent : op_ok p (mkBufio size [] sent false) (conn_Write size p sent) ∧
  op_ok [] (mkBufio size p sent false) (conn_Write size p sent).
Proof.
  unfold conn_Write. destruct (Nat.ltb_spec (sock_write sent p) (length p)); split; (split; [|done]); split; cbn; try done;
    rewrite ?app_nil_r; first [apply prefix_app, prefix_take|by apply prefix_app_r|done|by intros].
Qed.

Lemma Flush_ok b : op_ok [] b (Flush b).
Proof.
  unfold Flush. destruct b as [size buf sent err]; cbn. destruct err; [split; [apply wrote_nil|done]|].
  destruct buf as [|x buf]; [split; [apply wrote_nil|done]|]. by apply conn_Write_ok.
Qed.

Lemma Flush_empty b : fst (Flush b) = true → bw_buf (snd (Flush b)) = [].
Proof.
  unfold Flush. destruct b as [size buf sent err]; cbn. destruct err; [done|]. destruct buf as [|x buf]; [done|].
  unfold conn_Write. by case_match.
Qed.

Lemma write_rest_ok p b : bw_err b = false → bw_buf b = [] → op_ok p b (write_rest p b).
Proof.
  destruct b as [size buf sent err]. cbn. intros -> ->. unfold write_rest. cbn [bw_size bw_sent].
  destruct (length p <=? size)%nat.
  - split; [|done]. split; cbn; try done. by eexists.
  - destruct (conn_Write_ok size p sent) as [[[Hs Ha Hp Hm] He] _]. destruct (conn_Write size p sent) as [[] b']; cbn in *; [by split|].
    split; [|done]. split; cbn; done.
Qed.

Lemma append_ok p b : bw_err b = false → op_ok p b (true, mkBufio (bw_size b) (bw_buf b ++ p) (bw_sent b) false).
Proof. intros E. split; [|done]. split; cbn; try done; [congruence|by eexists]. Qed.

Lemma op_ok_seq p q b b1 (r : bool * Bufio) : op_ok p b (true, b1) → op_ok q b1 r → op_ok (p ++ q) b r.
Proof. intros [W1 _] [W2 E]. split; [by eapply wrote_trans|done]. Qed.

Lemma bufio_Write_ok p b : op_ok p b (bufio_Write p b).
Proof.
  unfold bufio_Write. destruct (bw_err b) eqn:E.
  { split; [|done]. split; cbn; [done|congruence|by eexists|done]. }
  destruct (length p <=? _)%nat; [by apply append_ok|]. destruct (bw_buf b) as [|x buf] eqn:Eb; [by apply write_rest_ok|].
  set (n := (_ - _)%nat). set (b1 := mkBufio _ _ _ _).
  assert (Q1 : op_ok (take n p) b (true, b1)).
  { subst b1. rewrite <- Eb. by apply append_ok. }
  pose proof (Flush_ok b1) as Q2. pose proof (Flush_empty b1) as Q3. destruct (Flush b1) as [ok b2]. cbn [fst snd] in Q3.
  assert (Q4 : op_ok (take n p) b (ok, b2)).
  { rewrite <- (app_nil_r (take n p)). by eapply op_ok_seq. }
  rewrite <- (take_drop n p) at 1. destruct ok.
  - eapply op_ok_seq; [exact Q4|]. apply write_rest_ok; [apply Q4|by apply Q3].
  - destruct Q4 as [W4 E4]. split; [by apply wrote_error|done].
Qed.

(** A connection that takes everything never fails. *)
Lemma reliable_Flush `{!ReliableSocket} b : bw_err b = false → fst (Flush b) = true.
Proof.
  unfold Flush. intros ->. destruct (bw_buf b) as [|x buf]; [done|]. unfold conn_Write.
  destruct (Nat.ltb_spec (sock_write (bw_sent b) (x :: buf)) (length (x :: buf))) as [Hl|]; [|done].
  pose proof (sock_takes_all (bw_sent b) (x :: buf)). lia.
Qed.
Lemma reliable_rest `{!ReliableSocket} p b : fst (write_rest p b) = true.
Proof.
  unfold write_rest. destruct (length p <=? _)%nat; [done|]. unfold conn_Write.
  destruct (Nat.ltb_spec (sock_write (bw_sent b) p) (length p)) as [Hl|]; [|done]. pose proof (sock_takes_all (bw_sent b) p). lia.
Qed.
Lemma reliable_Write `{!ReliableSocket} p b : bw_err b = false → fst (bufio_Write p b) = true.
Proof.
  unfold bufio_Write. intros ->. destruct (length p <=? _)%nat; [done|]. destruct (bw_buf b) as [|x buf]; [apply reliable_rest|].
  set (b1 := mkBufio _ _ _ _). pose proof (reliable_Flush b1 eq_refl) as Q. destruct (Flush b1) as [[] b2]; [apply reliable_rest|done].
Qed.
End Buffered.

(** ** One result *)

Section Results.
Context {X : Type} `{ConnHost X} `{Socket} `{RangeOrder}.

Definition state_of (a : After X) : LSt X := match a with GoOn s | Leave s | Stuck s => s end.
Definition goes_on (a : After X) : bool := match a with GoOn _ => true | _ => false end.

(** The messages that wait are gone. *)
Definition drained (x : X) : X :=
  match inline_queue x with [] => x | msgs => take_inline (length msgs) x end.
Definition inline_output (x : X) : bytes := concat ((λ m, FormatPubSubMessage m (host_protocol x)) <$> inline_queue x).

(** A command on its own: its reply and the messages after it, the writer and the
    host it leaves. *)
Definition answer_of (cmd : Command) (w : Writer) (x : X) : option (bytes * Writer * X) :=
  let x := busy_client true x in
  '(w', x') ← host_exec cmd (SetProtocol (host_protocol x) (with_buf [] w)) x;
  Some (w_buf w' ++ inline_output x', w', busy_client false (drained x')).
Definition error_answer (msg : bytes) (w : Writer) : Writer := WriteError msg (with_buf [] w).

Definition output_of (r : readResult) (s : LSt X) : bytes :=
  match r with
  | RProtocolErr msg => w_buf (error_answer msg (ls_w s))
  | RQuit => []
  | RCommand cmd => match answer_of cmd (ls_w s) (ls_x s) with Some (out, _, _) => out | None => [] end
  end.

(** After a part of the loop that says whether it failed. *)
Definition part_ok (p : bytes) (s : LSt X) (r : bool * LSt X) : Prop :=
  wrote p (ls_out s) (ls_out (snd r)) ∧ (bw_err (ls_out s) = false → bw_err (ls_out (snd r)) = negb (fst r)).

Lemma part_done (p : bytes) (s : LSt X) (r : bool * LSt X) : op_ok p (ls_out s) (fst r, ls_out (snd r)) → part_ok p s r.
Proof. intros [W E]. by split. Qed.
Lemma part_nothing (s : LSt X) : part_ok [] s (true, s).
Proof. split; [apply wrote_nil|done]. Qed.
Lemma part_failed p (s s' : LSt X) : part_ok p s (false, s') → bw_err (ls_out s') = true.
Proof. intros [W E]. destruct (bw_err (ls_out s)) eqn:Es; [by apply (wr_stays _ _ _ W)|by apply E]. Qed.

Lemma flush_if_ok cond (s : LSt X) : part_ok [] s (flush_if cond s).
Proof.
  unfold flush_if. destruct (ls_pending s && cond); [|apply part_nothing]. apply part_done. unfold flush_all.
  pose proof (Flush_ok (ls_out s)) as Q. by destruct (Flush (ls_out s)).
Qed.

Lemma flush_if_keeps cond (s : LSt X) : ls_x (snd (flush_if cond s)) = ls_x s ∧ ls_w (snd (flush_if cond s)) = ls_w s.
Proof. unfold flush_if, flush_all. destruct (_ && _); [|done]. by destruct (Flush (ls_out s)). Qed.

Lemma write_messages_ok protocol msgs out :
  let r := write_messages protocol msgs out in
  wrote (concat ((λ m, FormatPubSubMessage m protocol) <$> msgs)) out (snd r) ∧
  (bw_err out = false → bw_err (snd r) = negb (fst (fst r))) ∧
  (fst (fst r) = true → snd (fst r) = length msgs).
Proof.
  revert out. induction msgs as [|m msgs IH]; intros out; cbn [write_messages]; [split_and!; [apply wrote_nil|done|done]|].
  change (concat ((λ m0, FormatPubSubMessage m0 protocol) <$> m :: msgs)) with
    (FormatPubSubMessage m protocol ++ concat ((λ m0, FormatPubSubMessage m0 protocol) <$> msgs)).
  destruct (bufio_Write_ok (FormatPubSubMessage m protocol) out) as [W E]. destruct (bufio_Write _ out) as [ok out1]. cbn [fst snd] in W, E.
  destruct ok.
  - specialize (IH out1). destruct (write_messages protocol msgs out1) as [[ok n] out2]. cbn [fst snd negb] in *.
    destruct IH as (W2 & E2 & N2). split_and!; [by eapply wrote_trans|intros _; by apply E2|]. intros Ht. by rewrite (N2 Ht).
  - cbn [fst snd]. split_and!; [by apply wrote_error|done|done].
Qed.

Lemma deliver_inline_ok (s : LSt X) :
  let r := deliver_inline s in
  part_ok (inline_output (ls_x s)) s r ∧ ls_w (snd r) = ls_w s ∧
  (fst r = true → ls_x (snd r) = drained (ls_x s) ∧ ls_pending (snd r) = ls_pending s || negb (bool_decide (inline_queue (ls_x s) = []))).
Proof.
  unfold deliver_inline, inline_output, drained.
  pose proof (write_messages_ok (host_protocol (ls_x s)) (inline_queue (ls_x s)) (ls_out s)) as Q.
  destruct (inline_queue (ls_x s)) as [|m msgs]; cbn [fst snd].
  { split_and!; [apply part_nothing|done|]. intros _. by rewrite orb_false_r. }
  destruct (write_messages _ (m :: msgs) _) as [[ok n] out]. destruct Q as (W & E & N). cbn [fst snd] in *.
  split_and!; [by split|done|]. intros ->. rewrite (N eq_refl). cbn. by rewrite !orb_true_r.
Qed.

Lemma write_reply_ok (s : LSt X) :
  let r := write_reply s in
  part_ok (w_buf (ls_w s)) s r ∧ ls_x (snd r) = ls_x s ∧ ls_w (snd r) = ls_w s ∧
  (fst r = true → ls_pending (snd r) = ls_pending s || negb (bool_decide (w_buf (ls_w s) = []))).
Proof.
  unfold write_reply. destruct (w_buf (ls_w s)) as [|c reply]; cbn [fst snd].
  { split_and!; [apply part_nothing|done|done|]. intros _. by rewrite orb_false_r. }
  destruct (bufio_Write_ok (c :: reply) (ls_out s)) as [W E]. destruct (bufio_Write _ _) as [ok out]. cbn [fst snd] in *.
  split_and!; [by split|done|done|]. intros ->. cbn. by rewrite orb_true_r.
Qed.

Lemma follow_mode_keeps (s : LSt X) : ls_out (follow_mode s) = ls_out s ∧ ls_x (follow_mode s) = ls_x s ∧ ls_w (follow_mode s) = ls_w s ∧
  ls_pending (follow_mode s) = ls_pending s.
Proof. unfold follow_mode. repeat case_match; done. Qed.

Lemma after_command_wrote more (s : LSt X) :
  wrote (w_buf (ls_w s) ++ inline_output (ls_x s)) (ls_out s) (ls_out (state_of (after_command more s))).
Proof.
  unfold after_command. destruct (write_reply_ok s) as (Q1 & X1 & _). destruct (write_reply s) as [[] s1]; cbn [negb].
  2:{ apply wrote_error; [apply Q1|exact (part_failed _ _ _ Q1)]. }
  cbn [fst snd] in *. rewrite <- X1. destruct (deliver_inline_ok s1) as (Q2 & _). destruct Q1 as [W1 _], Q2 as [W2 _].
  destruct (deliver_inline s1) as [[] s2]; cbn [fst snd negb] in *.
  2:{ exact (wrote_trans _ _ _ _ _ W1 W2). }
  pose proof (flush_if_ok (negb more) (follow_mode (not_busy s2))) as [W3 _].
  rewrite (proj1 (follow_mode_keeps _)) in W3. cbn in W3.
  assert (W : wrote ((w_buf (ls_w s) ++ inline_output (ls_x s1)) ++ []) (ls_out s) (ls_out (snd (flush_if (negb more) (follow_mode (not_busy s2)))))).
  { eapply wrote_trans; [by eapply wrote_trans|exact W3]. }
  rewrite app_nil_r in W. by destruct (flush_if _ _) as [[] s3].
Qed.

Lemma run_result_wrote r more (s : LSt X) : wrote (output_of r s) (ls_out s) (ls_out (state_of (run_result r more s))).
Proof.
  destruct r as [cmd|msg|]; cbn [run_result output_of].
  - unfold run_command, answer_of. pose proof (flush_if_ok (isBlockingCommand (cmd_Type cmd)) s) as Q. pose proof Q as [W _].
    destruct (flush_if_keeps (isBlockingCommand (cmd_Type cmd)) s) as [<- <-].
    destruct (flush_if _ s) as [[] s1]; cbn [fst snd negb] in *.
    2:{ cbn. destruct (host_exec _ _ _) as [[w' x']|]; [|done]. apply (wrote_error []); [done|exact (part_failed _ _ _ Q)]. }
    destruct (host_exec _ _ _) as [[w' x']|]; cbn; [|done].
    apply (wrote_trans [] _ _ _ _ W), (after_command_wrote more (set_xw x' w' s1)).
  - unfold run_protocol_error, error_answer. pose proof (flush_if_ok true s) as Q. pose proof Q as [W _]. destruct (flush_if_keeps true s) as [_ <-].
    destruct (flush_if true s) as [[] s1]; cbn [fst snd negb] in *; [|apply (wrote_error []); [done|exact (part_failed _ _ _ Q)]].
    destruct (bufio_Write_ok (w_buf (WriteError msg (with_buf [] (ls_w s1)))) (ls_out s1)) as [W1 _].
    destruct (bufio_Write _ _) as [ok1 out1]. destruct (Flush_ok out1) as [W2 _]. destruct (Flush out1) as [ok2 out2]. cbn [state_of ls_out set_out fst snd] in *.
    rewrite <- (app_nil_r (w_buf _)). apply (wrote_trans [] _ _ _ _ W). by eapply wrote_trans.
  - apply flush_if_ok.
Qed.
End Results.

(** * The executor loop: the theorems

    The order and the completeness of what a client receives, the composition with
    the parser, and the runs in which something that was written does not reach the
    client. *)


Section Theorems.
Context {X : Type} `{ConnHost X} `{Socket} `{RangeOrder}.

(** ** Interleavings *)

(** A step of a connection with what it writes: a result the loop takes, while it
    runs, or a round of one of its delivery goroutines. *)
Inductive conn_step : LSt X * bool → bytes → LSt X * bool → Prop :=
  | StepResult r more s :
      conn_step (s, true) (output_of r s) (state_of (run_result r more s), goes_on (run_result r more s))
  | StepAsync c p s s' running cl msg rest : (c, p) ∈ ls_async s →
      b_clients (host_broker (ls_x s)) !! c = Some cl → pc_msgChan cl = msg :: rest →
      deliver_async c p s = Some s' →
      conn_step (s, running) (FormatPubSubMessage msg p) (s', running).

Inductive conn_steps : LSt X * bool → list bytes → LSt X * bool → Prop :=
  | steps_refl sb : conn_steps sb [] sb
  | steps_cons sb1 out sb2 outs sb3 : conn_step sb1 out sb2 → conn_steps sb2 outs sb3 → conn_steps sb1 (out :: outs) sb3.

Lemma step_wrote sb out sb' : conn_step sb out sb' → wrote out (ls_out (fst sb)) (ls_out (fst sb')).
Proof.
  intros [r more s|c p s s' running cl msg rest Hin Hc Hq Hd]; cbn [fst]; [apply run_result_wrote|].
  unfold deliver_async in Hd. rewrite Hc in Hd. cbn [mbind option_bind] in Hd. rewrite Hq in Hd.
  destruct (bufio_Write_ok (FormatPubSubMessage msg p) (ls_out s)) as [W E]. destruct (bufio_Write _ _) as [ok out1]. cbn [fst snd] in *.
  injection Hd as <-. cbn [ls_out]. destruct ok; [|done].
  rewrite <- (app_nil_r (FormatPubSubMessage msg p)). eapply wrote_trans; [exact W|apply Flush_ok].
Qed.

(** C29: Whatever the loop and the delivery goroutines do and however the connection
    fails, what the client has received is a prefix of whole replies and messages
    one after the other in the order they were produced; without a failure the
    rest is in the buffer. *)
Theorem conn_output_whole (s s' : LSt X) (running : bool) (outs : list bytes) :
  conn_steps (s, true) outs (s', running) →
  let all := bw_sent (ls_out s) ++ bw_buf (ls_out s) ++ concat outs in
  bw_sent (ls_out s') `prefix_of` all ∧ bw_sent (ls_out s) `prefix_of` bw_sent (ls_out s') ∧
  (bw_err (ls_out s') = false → bw_sent (ls_out s') ++ bw_buf (ls_out s') = all).
Proof.
  intros Hs. assert (W : wrote (concat outs) (ls_out s) (ls_out s')).
  { change s with (fst (s, true)). change s' with (fst (s', running)). revert Hs. generalize (s, true), (s', running). intros sb sb'.
    induction 1 as [sb|sb1 out sb2 outs sb3 Hst _ IH]; [apply wrote_nil|]. cbn [concat].
    eapply wrote_trans; [by apply step_wrote|done]. }
  destruct W as [_ Ha Hp Hm]. split_and!; [done|done|]. intros E. by destruct (Ha E).
Qed.

(** ** Everything arrives *)

(** No error, and when nothing is pending nothing is in the buffer. *)
Definition settled_out (s : LSt X) : Prop :=
  bw_err (ls_out s) = false ∧ (ls_pending s = false → bw_buf (ls_out s) = []).

Lemma wrote_nothing b b' : wrote [] b b' → bw_err b' = false → bw_buf b = [] → bw_buf b' = [].
Proof.
  intros [_ Ha _ [l Hm]] E Eb. destruct (Ha E) as [_ Q]. rewrite Eb, !app_nil_r, Hm, <- app_assoc in Q.
  apply (f_equal length) in Q. rewrite !length_app in Q. apply nil_length_inv. lia.
Qed.

(** A part that writes marks the output as pending when it wrote anything. *)
Lemma part_settled p (s : LSt X) r : part_ok p s r → fst r = true → settled_out s →
  (ls_pending (snd r) = false → ls_pending s = false ∧ p = []) → settled_out (snd r).
Proof.
  intros [W E] Ht [Es Ps] Hp. specialize (E Es). rewrite Ht in E. split; [done|]. intros Hf. destruct (Hp Hf) as [Hp' ->].
  eapply wrote_nothing; [exact W|done|by apply Ps].
Qed.

Lemma pending_or (a : bool) {A} (l : list A) `{!Decision (l = [])} : a || negb (bool_decide (l = [])) = false → a = false ∧ l = [].
Proof. intros [-> Hl%negb_false_iff]%orb_false_iff. by apply bool_decide_eq_true in Hl. Qed.

Context `{!ReliableSocket}.

Lemma flush_if_reliable cond (s : LSt X) : settled_out s →
  fst (flush_if cond s) = true ∧ settled_out (snd (flush_if cond s)) ∧ (cond = true → bw_buf (ls_out (snd (flush_if cond s))) = []).
Proof.
  intros [E P]. unfold flush_if. destruct (ls_pending s && cond) eqn:Ec.
  - unfold flush_all. pose proof (reliable_Flush (ls_out s) E) as Q1. pose proof (Flush_empty (ls_out s)) as Q2.
    destruct (Flush_ok (ls_out s)) as [_ Q3]. destruct (Flush (ls_out s)) as [ok out]. cbn [fst snd] in *. subst ok.
    split_and!; [done|split; [done|intros _; by apply Q2]|intros _; by apply Q2].
  - split_and!; [done|by split|]. intros ->. rewrite andb_true_r in Ec. by apply P.
Qed.

Lemma write_messages_reliable protocol msgs out : bw_err out = false → fst (fst (write_messages protocol msgs out)) = true.
Proof.
  revert out. induction msgs as [|m msgs IH]; intros out E; cbn [write_messages]; [done|].
  pose proof (reliable_Write (FormatPubSubMessage m protocol) out E) as Q1. destruct (bufio_Write_ok (FormatPubSubMessage m protocol) out) as [_ Q2].
  destruct (bufio_Write _ out) as [ok out1]. cbn [fst snd] in *. subst ok. specialize (IH out1 Q2). by destruct (write_messages _ _ _) as [[? ?] ?].
Qed.

Lemma write_reply_reliable (s : LSt X) : bw_err (ls_out s) = false → fst (write_reply s) = true.
Proof.
  intros E. unfold write_reply. destruct (w_buf (ls_w s)) as [|c l]; [done|]. pose proof (reliable_Write (c :: l) _ E). by destruct (bufio_Write _ _).
Qed.
Lemma deliver_inline_reliable (s : LSt X) : bw_err (ls_out s) = false → fst (deliver_inline s) = true.
Proof.
  intros E. unfold deliver_inline. destruct (inline_queue (ls_x s)) as [|m msgs]; [done|].
  pose proof (write_messages_reliable (host_protocol (ls_x s)) (m :: msgs) _ E). by destruct (write_messages _ _ _) as [[? ?] ?].
Qed.

Lemma after_command_reliable more (s : LSt X) : settled_out s →
  ∃ s', after_command more s = GoOn s' ∧ settled_out s' ∧ (more = false → bw_buf (ls_out s') = []) ∧
    ls_x s' = busy_client false (drained (ls_x s)) ∧ ls_w s' = ls_w s.
Proof.
  intros Hs. unfold after_command. destruct (write_reply_ok s) as (Q1 & X1 & V1 & P1). pose proof (write_reply_reliable s (proj1 Hs)) as F1.
  assert (S1 : settled_out (snd (write_reply s))).
  { eapply part_settled; [done|done|done|]. rewrite (P1 F1). apply pending_or. }
  destruct (write_reply s) as [ok s1]. cbn [fst snd] in *. subst ok. cbn [negb]. clear Q1 P1.
  destruct (deliver_inline_ok s1) as (Q2 & V2 & P2). pose proof (deliver_inline_reliable s1 (proj1 S1)) as F2. destruct (P2 F2) as [X2 P2'].
  assert (S2 : settled_out (snd (deliver_inline s1))).
  { eapply part_settled; [done|done|done|]. rewrite P2'. intros [Hp Hq]%orb_false_iff. split; [done|].
    apply negb_false_iff, bool_decide_eq_true in Hq. unfold inline_output. by rewrite Hq. }
  destruct (deliver_inline s1) as [ok s2]. cbn [fst snd] in *. subst ok. cbn [negb].
  destruct (follow_mode_keeps (not_busy s2)) as (Ko & Kx & Kw & Kp). set (s3 := follow_mode (not_busy s2)) in *.
  assert (S3 : settled_out s3). { split; rewrite Ko; [exact (proj1 S2)|]. rewrite Kp. exact (proj2 S2). }
  destruct (flush_if_reliable (negb more) s3 S3) as (F4 & S4 & B4). destruct (flush_if_keeps (negb more) s3) as [X4 V4].
  destruct (flush_if (negb more) s3) as [ok s4]. cbn [fst snd] in *. subst ok. exists s4. split_and!; [done|done| | |].
  - intros ->. by apply B4.
  - rewrite X4, Kx. cbn. by rewrite X2, X1.
  - rewrite V4, Kw. cbn. by rewrite V2, V1.
Qed.

(** The results one after the other, each command on its own. *)
Fixpoint answers (rs : list readResult) (w : Writer) (x : X) : option (bytes * X) :=
  match rs with
  | [] | RQuit :: _ => Some ([], x)
  | RProtocolErr msg :: rs' =>
    let w := error_answer msg w in
    '(out, x') ← answers rs' w x; Some (w_buf w ++ out, x')
  | RCommand cmd :: rs' =>
    '(out1, w, x) ← answer_of cmd w x;
    '(out, x') ← answers rs' w x; Some (out1 ++ out, x')
  end.

(** The reader has nothing more after the last command. *)
Fixpoint complete (rs : list (readResult * bool)) : Prop :=
  match rs with
  | [] | (RQuit, _) :: _ => True
  | [(RCommand _, more)] => more = false
  | _ :: rs' => complete rs'
  end.

Lemma complete_tail r more r' rs : r ≠ RQuit → complete ((r, more) :: r' :: rs) → complete (r' :: rs).
Proof. by destruct r, r'. Qed.

(** The parts of [run_loop] that matter afterwards. *)
Definition arrives (out : bytes) (x : X) (s s' : LSt X) : Prop :=
  bw_sent (ls_out s') = bw_sent (ls_out s) ++ bw_buf (ls_out s) ++ out ∧ ls_x s' = x ∧ bw_buf (ls_out s') = [] ∧ bw_err (ls_out s') = false.

Lemma run_command_reliable cmd more (s : LSt X) out w x : settled_out s → answer_of cmd (ls_w s) (ls_x s) = Some (out, w, x) →
  ∃ s', run_command cmd more s = GoOn s' ∧ settled_out s' ∧ (more = false → bw_buf (ls_out s') = []) ∧ ls_x s' = x ∧ ls_w s' = w.
Proof.
  intros Hs Ha. unfold run_command. destruct (flush_if_reliable (isBlockingCommand (cmd_Type cmd)) s Hs) as (F1 & S1 & _).
  destruct (flush_if_keeps (isBlockingCommand (cmd_Type cmd)) s) as [X1 V1]. destruct (flush_if _ s) as [ok s1]. cbn [fst snd] in *. subst ok.
  cbn [negb]. rewrite X1, V1. unfold answer_of in Ha. cbv zeta in *. destruct (host_exec _ _ _) as [[w' x']|]; cbn in Ha; [|done]. injection Ha as <- <- <-.
  destruct (after_command_reliable more (set_xw x' w' s1)) as (s' & -> & S2 & B2 & X2 & V2); [done|]. by exists s'.
Qed.

Lemma run_protocol_error_reliable msg (s : LSt X) : settled_out s →
  ∃ s', run_protocol_error msg s = GoOn s' ∧ settled_out s' ∧ bw_buf (ls_out s') = [] ∧ ls_x s' = ls_x s ∧ ls_w s' = error_answer msg (ls_w s).
Proof.
  intros Hs. unfold run_protocol_error. destruct (flush_if_reliable true s Hs) as (F1 & S1 & _).
  destruct (flush_if_keeps true s) as [X1 V1]. destruct (flush_if _ s) as [ok s1]. cbn [fst snd] in *. subst ok. cbn [negb].
  set (reply := w_buf _). pose proof (reliable_Write reply (ls_out s1) (proj1 S1)) as F2. destruct (bufio_Write_ok reply (ls_out s1)) as [_ E2].
  destruct (bufio_Write reply (ls_out s1)) as [ok out]. cbn [fst snd] in *. subst ok. pose proof (reliable_Flush out E2) as F3.
  destruct (Flush_ok out) as [_ E3]. pose proof (Flush_empty out F3) as B3. destruct (Flush out) as [ok out']. cbn [fst snd] in *. subst ok.
  eexists. split; [done|]. cbn. rewrite X1, V1. split_and!; [by split|done|done|done].
Qed.

Lemma go_on_arrives r more (s s' : LSt X) : run_result r more s = GoOn s' → bw_err (ls_out s') = false →
  bw_sent (ls_out s') ++ bw_buf (ls_out s') = bw_sent (ls_out s) ++ bw_buf (ls_out s) ++ output_of r s.
Proof. intros E Ee. pose proof (run_result_wrote r more s) as [_ Ha _ _]. rewrite E in Ha. by apply Ha. Qed.

Lemma run_loop_reliable rs (s : LSt X) out x : settled_out s → (rs = [] → bw_buf (ls_out s) = []) → complete rs →
  answers (fst <$> rs) (ls_w s) (ls_x s) = Some (out, x) → ∃ s', run_loop rs s = Leave s' ∧ arrives out x s s'.
Proof.
  revert s out. induction rs as [|[r more] rs IH]; intros s out Hs Hb Hc Ha.
  { cbn in Ha. injection Ha as <- <-. exists s. split; [done|]. unfold arrives. rewrite (Hb eq_refl), !app_nil_r. split_and!; [done..|apply Hs]. }
  assert (Htail : r ≠ RQuit → complete rs). { destruct rs as [|[r' more'] rs]; [done|]. intros Hr. by eapply complete_tail. }
  assert (Hstep : ∀ s1 out2, run_result r more s = GoOn s1 → settled_out s1 → (rs = [] → bw_buf (ls_out s1) = []) → r ≠ RQuit →
    answers (fst <$> rs) (ls_w s1) (ls_x s1) = Some (out2, x) → out = output_of r s ++ out2 → ∃ s', run_loop ((r, more) :: rs) s = Leave s' ∧ arrives out x s s').
  { intros s1 out2 E S1 B1 Hr Ha2 ->. destruct (IH s1 out2 S1 B1 (Htail Hr) Ha2) as (s' & Er & Hsent & Hx & Hb' & He'). exists s'. cbn [run_loop]. rewrite E.
    split; [done|]. split_and!; [|done|done|done]. rewrite Hsent, app_assoc, (go_on_arrives _ _ _ _ E (proj1 S1)). by rewrite <- !app_assoc. }
  destruct r as [cmd|msg|].
  - cbn in Ha. destruct (answer_of cmd (ls_w s) (ls_x s)) as [[[out1 w1] x1]|] eqn:E1; [|done]. cbn in Ha.
    destruct (run_command_reliable cmd more s out1 w1 x1 Hs E1) as (s1 & E & S1 & B1 & X1 & V1).
    destruct (answers (fst <$> rs) w1 x1) as [[out2 x2]|] eqn:E2; [|done]. cbn in Ha. injection Ha as <- <-.
    eapply Hstep; [exact E|done| |done|by rewrite V1, X1|cbn [output_of]; by rewrite E1]. intros ->. by apply B1.
  - cbn in Ha. destruct (run_protocol_error_reliable msg s Hs) as (s1 & E & S1 & B1 & X1 & V1).
    destruct (answers (fst <$> rs) _ _) as [[out2 x2]|] eqn:E2; [|done]. cbn in Ha. injection Ha as <- <-.
    eapply Hstep; [exact E|done|done|done|by rewrite V1, X1|done].
  - cbn in Ha. injection Ha as <- <-. destruct (flush_if_reliable true s Hs) as (F1 & S1 & B1). destruct (flush_if_keeps true s) as [X1 _].
    exists (snd (flush_if true s)). split; [done|]. specialize (B1 eq_refl). destruct (flush_if_ok true s) as [[_ Hall _ _] _].
    destruct (Hall (proj1 S1)) as [_ Q]. rewrite B1, !app_nil_r in Q. split_and!; [by rewrite app_nil_r|done|done|apply S1].
Qed.

(** ** Commands that wait *)

(** A command the loop knows to block waits with every earlier reply sent; one it
    does not know, as XREAD and XREADGROUP, waits with them in the buffer. *)
Lemma waiting_command cmd more (s : LSt X) : settled_out s → answer_of cmd (ls_w s) (ls_x s) = None →
  ∃ s', run_command cmd more s = Stuck s' ∧
    if isBlockingCommand (cmd_Type cmd) then bw_buf (ls_out s') = [] else ls_out s' = ls_out s.
Proof.
  intros Hs Ha. unfold run_command. destruct (flush_if_reliable (isBlockingCommand (cmd_Type cmd)) s Hs) as (F1 & S1 & B1).
  destruct (flush_if_keeps (isBlockingCommand (cmd_Type cmd)) s) as [X1 V1].
  assert (Hno : isBlockingCommand (cmd_Type cmd) = false → snd (flush_if (isBlockingCommand (cmd_Type cmd)) s) = s).
  { intros ->. unfold flush_if. by rewrite andb_false_r. }
  destruct (flush_if _ s) as [ok s1]. cbn [fst snd] in *. subst ok. cbn [negb]. rewrite X1, V1. unfold answer_of in Ha. cbv zeta in *.
  destruct (host_exec _ _ _) as [[w' x']|]; [done|]. eexists. split; [done|]. destruct (isBlockingCommand (cmd_Type cmd)); cbn; [by apply B1|].
  by rewrite Hno.
Qed.

Lemma xread_holds_replies cmd more (s : LSt X) : cmd_Type cmd = CmdXRead ∨ cmd_Type cmd = CmdXReadGroup → settled_out s →
  answer_of cmd (ls_w s) (ls_x s) = None → ∃ s', run_command cmd more s = Stuck s' ∧ ls_out s' = ls_out s.
Proof.
  intros Hc Hs Ha. destruct (waiting_command cmd more s Hs Ha) as (s' & E & Q). exists s'. split; [done|].
  by destruct Hc as [Hc|Hc]; rewrite Hc in Q.
Qed.

(** ** The pipeline *)

(** C7: On a connection that does not fail, a client that sends a pipeline of
    requests receives the replies to the commands they denote, all of them and in
    their order, each followed by the messages that then waited: the parser, the
    reader and the executor loop together do what executing the commands one by
    one does, however the requests were cut into packets. *)
Theorem pipeline_served (reqs : list (list bytes)) (mores : list bool) (s : LSt X) (out : bytes) (x : X) :
  Forall sendable reqs → settled_out s → bw_buf (ls_out s) = [] →
  let stream := concat (request <$> reqs) in
  let results := until_quit (denotes <$> reqs) in
  length mores = length results → complete (zip results mores) →
  answers results (ls_w s) (ls_x s) = Some (out, x) →
  ∃ s', read_loop (S (length stream)) stream = Some results ∧ run_loop (zip results mores) s = Leave s' ∧
    bw_sent (ls_out s') = bw_sent (ls_out s) ++ out ∧ ls_x s' = x.
Proof.
  intros Hreqs Hs Hb stream results Hl Hc Ha. pose proof (fst_zip results mores) as Hz.
  destruct (run_loop_reliable (zip results mores) s out x Hs (λ _, Hb) Hc) as (s' & Er & Hsent & Hx & _).
  { rewrite Hz by lia. done. }
  exists s'. split_and!; [|done|by rewrite Hsent, Hb|done].
  apply read_loop_requests; [done|]. pose proof (length_requests reqs). unfold stream. lia.
Qed.
End Theorems.
