(* ===== verification/PubSubTheorems.v ===== *)
(** * Publish and subscribe: the theorems

    The invariants over every interleaving of the calls, what a published message
    does, what the subscription commands do and answer, and the interleaving in
    which the other nodes are told the wrong thing. *)

From S2P Require Import Prelude GoBytes Strconv Floats Commands Writer Engine Sets SetProps Strings Hashes PubSub PubSubProps.

Local Open Scope Z_scope.

Section PubSubTheorems.
Context `{ChannelGlob} `{RangeOrderLaws} `{ClientOrderLaws}.

(** ** Reachable brokers

    The calls of several connections interleave.  What a call does under the lock
    is one step; it leaves the call outstanding, with the announcements it has still
    to make of the router and, for a connection that ends, the client to close. *)
Record Outstanding := mkOutstanding { oc_announce : list Announcement; oc_close : option nat }.
Record Run := mkRun { r_broker : Broker; r_calls : list Outstanding }.

(** A call has left the lock. *)
Definition begun (t : Transition) (m : Manager) (close : option nat) (r : Run) : Run :=
  mkRun (with_manager m (r_broker r)) (mkOutstanding (announcements (b_router (r_broker r)) t) close :: r_calls r).

(** [RunNew]: a connection enters pub/sub mode; [RunRead]: its goroutine takes
    messages off its channel.  [RunDeliver] is PUBLISH and what comes from another
    node. *)
Inductive run_step (r : Run) : Run → Prop :=
  | RunNew c p : b_clients (r_broker r) !! c = None →
      run_step r (mkRun (with_clients (<[c := NewPubSubClient p]> (b_clients (r_broker r))) (r_broker r)) (r_calls r))
  | RunSubscribe c names counts t m : Subscribe_locked c names (b_manager (r_broker r)) = (counts, t, m) → run_step r (begun t m None r)
  | RunPSubscribe c names counts t m : PSubscribe_locked c names (b_manager (r_broker r)) = (counts, t, m) → run_step r (begun t m None r)
  | RunUnsubscribe c names gone counts t m : Unsubscribe_locked c names (b_manager (r_broker r)) = (gone, counts, t, m) → run_step r (begun t m None r)
  | RunPUnsubscribe c names gone counts t m : PUnsubscribe_locked c names (b_manager (r_broker r)) = (gone, counts, t, m) → run_step r (begun t m None r)
  | RunCleanup c t m : Cleanup_locked c (b_manager (r_broker r)) = (t, m) → run_step r (begun t m (Some c) r)
  | RunAnnounce before a rest close after : r_calls r = before ++ mkOutstanding (a :: rest) close :: after →
      run_step r (mkRun (mkBroker (b_manager (r_broker r)) (b_clients (r_broker r)) (b_announced (r_broker r) ++ [a]) (b_router (r_broker r)))
                    (before ++ mkOutstanding rest close :: after))
  | RunReturn before after : r_calls r = before ++ mkOutstanding [] None :: after → run_step r (mkRun (r_broker r) (before ++ after))
  | RunClose before c after : r_calls r = before ++ mkOutstanding [] (Some c) :: after →
      run_step r (mkRun (with_client c Close (r_broker r)) (before ++ after))
  | RunDeliver channel message : run_step r (mkRun (snd (deliverLocal channel message (r_broker r))) (r_calls r))
  | RunRead c cl msgs : b_clients (r_broker r) !! c = Some cl → msgs `suffix_of` pc_msgChan cl →
      run_step r (mkRun (with_clients (<[c := mkClient msgs (pc_protocol cl) (pc_droppedMessages cl) (pc_closed cl) (pc_busy cl)]> (b_clients (r_broker r))) (r_broker r))
                    (r_calls r)).

(** No two calls are outstanding at a time. *)
Definition serial_step (r r' : Run) : Prop := run_step r r' ∧ (length (r_calls r') <= 1)%nat.

Definition start_run (router : option PubSubClusterRouter) : Run := mkRun (mkBroker NewManager ∅ [] router) [].

(** No message channel is ever over its size. *)
Definition queues_ok (clients : gmap nat PubSubClient) : Prop :=
  map_Forall (λ _ cl, len (pc_msgChan cl) <= PubsubMsgChanSize) clients.

(** With any interleaving. *)
Record run_ok (router : option PubSubClusterRouter) (r : Run) : Prop := {
  ro_router : b_router (r_broker r) = router;
  ro_manager : manager_ok (b_manager (r_broker r));
  ro_queues : queues_ok (b_clients (r_broker r));
  ro_alone : router = None → b_announced (r_broker r) = [] ∧ Forall (λ o, oc_announce o = []) (r_calls r)
}.
(** With one call at a time: what was announced and is still to be. *)
Definition told (r : Run) : list Announcement := b_announced (r_broker r) ++ concat (oc_announce <$> r_calls r).
Definition run_told (r : Run) : Prop := ∀ isPattern, heard isPattern (told r) = active isPattern (b_manager (r_broker r)).

Lemma NewManager_ok : manager_ok NewManager.
Proof. split; (split; [|done]); intros c n; unfold names_of; cbn; set_solver. Qed.
Lemma start_ok router : run_ok router (start_run router) ∧ run_told (start_run router).
Proof. split; [split; [done|apply NewManager_ok|done|by split]|]. by intros []. Qed.

Lemma Send_ok msg cl : len (pc_msgChan cl) <= PubsubMsgChanSize → len (pc_msgChan (snd (Send msg cl))) <= PubsubMsgChanSize.
Proof.
  destruct cl as [msgs p d closed busy]. unfold Send. cbn [pc_msgChan]. intros Hl. destruct closed; [done|].
  destruct (Z.ltb_spec (len msgs) PubsubMsgChanSize); [|done]. cbn. unfold len in *. rewrite length_app. cbn. lia.
Qed.

Lemma send_all_ok msg targets clients : queues_ok clients → queues_ok (snd (send_all msg targets clients)).
Proof.
  revert clients. induction targets as [|c targets IH]; intros clients Hq; cbn [send_all]; [done|].
  destruct (clients !! c) as [cl|] eqn:E.
  - pose proof (Send_ok msg cl (Hq c cl E)) as Hs. destruct (Send msg cl) as [ok cl']. specialize (IH (<[c := cl']> clients)).
    destruct (send_all msg targets (<[c := cl']> clients)) as [n cs]. apply IH. by apply map_Forall_insert_2.
  - specialize (IH clients Hq). by destruct (send_all msg targets clients).
Qed.

Lemma send_patterns_ok channel message ps subs clients : queues_ok clients →
  queues_ok (snd (send_patterns channel message ps subs clients)).
Proof.
  revert clients. induction ps as [|p ps IH]; intros clients Hq; cbn [send_patterns]; [done|].
  set (r := if MatchGlob channel p then _ else _). assert (Hr : queues_ok (snd r)).
  { unfold r. destruct (MatchGlob channel p); [by apply send_all_ok|done]. }
  destruct r as [n cs]. specialize (IH cs Hr). by destruct (send_patterns channel message ps subs cs).
Qed.

Lemma deliver_ok channel message b : queues_ok (b_clients b) → queues_ok (b_clients (snd (deliverLocal channel message b))).
Proof.
  intros Hq. unfold deliverLocal.
  pose proof (send_all_ok (channel_message channel message) (range_clients (default ∅ (m_channels (b_manager b) !! channel))) _ Hq) as Q1.
  destruct (send_all _ _ _) as [n cs]. pose proof (send_patterns_ok channel message (range_keys (dom (m_patterns (b_manager b))))
    (m_patterns (b_manager b)) cs Q1) as Q2. by destruct (send_patterns _ _ _ _ _) as [n' cs'].
Qed.
Lemma deliver_keeps channel message b : let b' := snd (deliverLocal channel message b) in
  b_manager b' = b_manager b ∧ b_announced b' = b_announced b ∧ b_router b' = b_router b.
Proof. unfold deliverLocal. destruct (send_all _ _ _). by destruct (send_patterns _ _ _ _ _). Qed.

(** A call that has left the lock. *)
Lemma begun_ok router c C P t m close r : run_ok router r → changes c C P (b_manager (r_broker r)) t m → run_ok router (begun t m close r).
Proof.
  intros [Hr Hm Hq Ha] [Hm' _ _]. split; [done|done|done|]. intros Hn. destruct (Ha Hn) as [Hb Hc]. split; [done|]. constructor; [|done]. cbn. by rewrite Hr, Hn.
Qed.
Lemma begun_told router c C P t m close r : is_Some router → run_ok router r → run_told r → changes c C P (b_manager (r_broker r)) t m →
  (length (r_calls (begun t m close r)) <= 1)%nat → run_told (begun t m close r).
Proof.
  intros [rt ->] [Hr _ _ _] Ht [_ _ Hx] Hl p. specialize (Ht p). destruct r as [b calls]. cbn [r_broker r_calls begun length] in *.
  assert (calls = []) as -> by (destruct calls; [done|cbn in Hl; lia]). unfold told in *. cbn [r_broker r_calls begun with_manager b_manager b_announced fmap list_fmap concat oc_announce] in *.
  rewrite Hr, app_nil_r in *. by rewrite heard_announcements, Ht, Hx.
Qed.

Lemma run_step_ok router r r' : run_step r r' → run_ok router r → run_ok router r'.
Proof.
  intros Hs Hr. pose proof Hr as [Hb Hm Hq Ha].
  destruct Hs as [c p Hc|c names counts t m E|c names counts t m E|c names gone counts t m E|c names gone counts t m E|c t m E|before a rest close after E|before after E|before c after E|ch msg|c cl msgs Hc Hsuf].
  - split; [done|done|by apply map_Forall_insert_2|done].
  - pose proof (Subscribe_changes c names _ Hm) as Hx. rewrite E in Hx. by eapply begun_ok.
  - pose proof (PSubscribe_changes c names _ Hm) as Hx. rewrite E in Hx. by eapply begun_ok.
  - pose proof (Unsubscribe_changes c names _ Hm) as Hx. rewrite E in Hx. by eapply begun_ok.
  - pose proof (PUnsubscribe_changes c names _ Hm) as Hx. rewrite E in Hx. by eapply begun_ok.
  - pose proof (Cleanup_changes c _ Hm) as Hx. rewrite E in Hx. by eapply begun_ok.
  - split; [done|done|done|]. intros Hn. destruct (Ha Hn) as [_ Hf]. rewrite E, Forall_app, Forall_cons in Hf. by destruct Hf as (_ & Hf & _).
  - split; [done|done|done|]. intros Hn. destruct (Ha Hn) as [Hb' Hf]. split; [done|]. rewrite E, Forall_app, Forall_cons in Hf. apply Forall_app. by destruct Hf as (? & _ & ?).
  - split; [done|done| |].
    + intros i cl. cbn [r_broker with_client with_clients b_clients]. rewrite lookup_alter_Some. intros [(-> & cl' & Hcl' & ->)|[_ Hcl']]; exact (Hq _ _ Hcl').
    + intros Hn. destruct (Ha Hn) as [Hb' Hf]. split; [done|]. rewrite E, Forall_app, Forall_cons in Hf. apply Forall_app. by destruct Hf as (? & _ & ?).
  - destruct (deliver_keeps ch msg (r_broker r)) as (K1 & K2 & K3). split; cbn [r_broker r_calls]; [by rewrite K3|by rewrite K1|by apply deliver_ok|by rewrite K2].
  - split; [done|done| |done]. apply map_Forall_insert_2; [|done]. cbn. destruct Hsuf as [l Hsuf]. specialize (Hq c cl Hc). cbn in Hq.
    rewrite Hsuf in Hq. unfold len in *. rewrite length_app in Hq. lia.
Qed.

Lemma run_step_told router r r' : is_Some router → run_step r r' → (length (r_calls r') <= 1)%nat → run_ok router r → run_told r → run_told r'.
Proof.
  intros Hrt Hs Hl Hr Ht. pose proof Hr as [Hb Hm Hq Ha].
  destruct Hs as [c p Hc|c names counts t m E|c names counts t m E|c names gone counts t m E|c names gone counts t m E|c t m E|before a rest close after E|before after E|before c after E|ch msg|c cl msgs Hc Hsuf].
  - exact Ht.
  - pose proof (Subscribe_changes c names _ Hm) as Hx. rewrite E in Hx. by eapply begun_told.
  - pose proof (PSubscribe_changes c names _ Hm) as Hx. rewrite E in Hx. by eapply begun_told.
  - pose proof (Unsubscribe_changes c names _ Hm) as Hx. rewrite E in Hx. by eapply begun_told.
  - pose proof (PUnsubscribe_changes c names _ Hm) as Hx. rewrite E in Hx. by eapply begun_told.
  - pose proof (Cleanup_changes c _ Hm) as Hx. rewrite E in Hx. by eapply begun_told.
  - intros p. specialize (Ht p). unfold told in *. cbn [r_broker r_calls b_announced b_manager] in *. rewrite E in Ht.
    rewrite length_app in Hl. cbn [length r_calls] in Hl. destruct before as [|]; [|cbn in Hl; lia]. cbn in Ht |- *. by rewrite <- app_assoc.
  - intros p. specialize (Ht p). unfold told in *. cbn [r_broker r_calls] in *. rewrite E in Ht. by rewrite fmap_app, concat_app in *.
  - intros p. specialize (Ht p). unfold told in *. cbn [r_broker r_calls] in *. rewrite E in Ht. by rewrite fmap_app, concat_app in *.
  - destruct (deliver_keeps ch msg (r_broker r)) as (K1 & K2 & K3). intros p. specialize (Ht p). unfold told in *. cbn [r_broker r_calls]. by rewrite K1, K2.
  - exact Ht.
Qed.

(** A call that is not disturbed runs to its end: its announcements are made and,
    after those of [Cleanup], the client is closed. *)
Lemma call_returns l b : rtc serial_step (mkRun b [mkOutstanding l None]) (mkRun (mkBroker (b_manager b) (b_clients b) (b_announced b ++ l) (b_router b)) []).
Proof.
  revert b. induction l as [|a l IH]; intros b.
  - rewrite app_nil_r. destruct b. apply rtc_once. split; [|cbn; lia]. by apply (RunReturn (mkRun _ _) [] []).
  - eapply rtc_l; [split; [by apply (RunAnnounce (mkRun _ _) [] a l None [])|cbn; lia]|]. cbn [app r_broker].
    specialize (IH (mkBroker (b_manager b) (b_clients b) (b_announced b ++ [a]) (b_router b))). cbn [b_manager b_clients b_announced b_router] in IH. by rewrite <- app_assoc in IH.
Qed.
Lemma Subscribe_runs c names b : rtc serial_step (mkRun b []) (mkRun (snd (Subscribe c names b)) []).
Proof.
  unfold Subscribe. destruct (Subscribe_locked c names (b_manager b)) as [[counts t] m] eqn:E.
  eapply rtc_l; [split; [by apply (RunSubscribe (mkRun b []) c names counts t m)|cbn; lia]|]. apply (call_returns _ (with_manager m b)).
Qed.
Lemma PSubscribe_runs c names b : rtc serial_step (mkRun b []) (mkRun (snd (PSubscribe c names b)) []).
Proof.
  unfold PSubscribe. destruct (PSubscribe_locked c names (b_manager b)) as [[counts t] m] eqn:E.
  eapply rtc_l; [split; [by apply (RunPSubscribe (mkRun b []) c names counts t m)|cbn; lia]|]. apply (call_returns _ (with_manager m b)).
Qed.
Lemma serial_runs r r' : rtc serial_step r r' → rtc run_step r r'.
Proof. intros Hr. induction Hr as [|x y z [Hs _] _ IH]; [done|]. by eapply rtc_l. Qed.

(** C37: After any interleaving of the calls of any connections, in which a call's
    change of the tables and each of its announcements are separate steps, the
    tables agree: a client is among the subscribers of a name exactly when the name
    is among the client's, no name is kept without a subscriber, and no client has
    more than a thousand messages waiting.  A process without a router announces
    nothing.  With one, when no two calls were under way at a time and none is now,
    the other nodes have been told exactly the names with a subscriber; when calls
    overlap they may not have been ([announcements_cross]). *)
Theorem pubsub_invariant (router : option PubSubClusterRouter) (r : Run) : rtc run_step (start_run router) r →
  let b := r_broker r in
  let m := b_manager b in
  (∀ c ch, c ∈ default ∅ (m_channels m !! ch) ↔ ch ∈ chans m c) ∧
  (∀ c p, c ∈ default ∅ (m_patterns m !! p) ↔ p ∈ pats m c) ∧
  (∀ n s, m_channels m !! n = Some s ∨ m_patterns m !! n = Some s → s ≠ ∅) ∧
  queues_ok (b_clients b) ∧
  (router = None → b_announced b = []) ∧
  (is_Some router → rtc serial_step (start_run router) r → r_calls r = [] →
     heard false (b_announced b) = dom (m_channels m) ∧ heard true (b_announced b) = dom (m_patterns m)).
Proof.
  intros Hr. assert (Hok : run_ok router r).
  { refine (rtc_ind_r (run_ok router) _ (proj1 (start_ok router)) _ r Hr). intros y z _ Hs. by apply run_step_ok. }
  pose proof Hok as [_ [[Ha Hl] [Ha' Hl']] Hq Hn]. cbv zeta. split_and!; [done|done| |done|by intros [? _]%Hn|].
  - intros n s [Hns|Hns]; [by eapply Hl|by eapply Hl'].
  - intros Hrt Hser Hc.
    assert (Ht : run_ok router r ∧ run_told r).
    { refine (rtc_ind_r (λ r, run_ok router r ∧ run_told r) _ (start_ok router) _ r Hser). intros y z _ [Hs Hlen] [Hy Hty].
      split; [by eapply run_step_ok|by eapply run_step_told]. }
    destruct Ht as [_ Ht]. unfold run_told, told in Ht. rewrite Hc in Ht. cbn in Ht. pose proof (Ht false) as Hc0. pose proof (Ht true) as Hp0.
    by rewrite app_nil_r in Hc0, Hp0.
Qed.

(** ** PUBLISH *)

Lemma range_patterns c m : manager_ok m →
  filter (λ p, c ∈ default ∅ (m_patterns m !! p)) (range_keys (dom (m_patterns m))) ≡ₚ elements (pats m c).
Proof.
  intros [_ [Ha Hl]]. apply NoDup_Permutation.
  - apply NoDup_filter. rewrite range_keys_perm. apply NoDup_elements.
  - apply NoDup_elements.
  - intros p. rewrite list_elem_of_filter, elem_of_range_keys, elem_of_elements. specialize (Ha c p). cbn in Ha. unfold pats.
    rewrite <- Ha. split; [tauto|]. intros Hin. split; [done|]. apply elem_of_dom.
    destruct (m_patterns m !! p); [by eexists|set_solver].
Qed.

(** The messages a subscriber of [m] is due for a message on [channel]: one for the
    channel, and one for each of the patterns that match, in the order [ps]. *)
Definition due (m : Manager) (channel message : bytes) (ps : list bytes) (c : nat) : list PubSubMessage :=
  (if bool_decide (channel ∈ chans m c) then [channel_message channel message] else []) ++ ((λ p, pattern_message p channel message) <$> ps).

(** C38: PUBLISH sends the message once to each client subscribed to the channel, and
    once more, with the pattern, for each of the client's patterns that match, in
    some order; nobody else gets anything and the subscriptions stay.  Of the
    messages a client is sent it takes in those that find it open and its channel
    below the thousand; the others are dropped.  The answer is the number of messages
    taken in by the clients here plus, with a router, the number of other nodes the
    router sent the message to. *)
Theorem publish_correct (channel message : bytes) (b : Broker) : manager_ok (b_manager b) →
  let m := b_manager b in
  let '(count, b') := Publish channel message b in
  b_manager b' = m ∧ b_announced b' = b_announced b ∧
  count = waiting (b_clients b') - waiting (b_clients b) + match b_router b with Some r => RouteMessage r channel message | None => 0 end ∧
  (∀ c, ∃ ps, ps ≡ₚ filter (λ p, MatchGlob channel p = true) (elements (pats m c)) ∧
     b_clients b' !! c = receive (due m channel message ps c) <$> b_clients b !! c) ∧
  (∀ msgs cl, pc_msgChan (receive msgs cl) = pc_msgChan cl ++
     if pc_closed cl then [] else take (Z.to_nat (PubsubMsgChanSize - len (pc_msgChan cl))) msgs).
Proof.
  intros Hm m. fold m in Hm. unfold Publish, deliverLocal. fold m.
  destruct (range_clients_props (default ∅ (m_channels m !! channel))) as (Hd & Hsz & Hin).
  assert (Hagree : ∀ c, c ∈ range_clients (default ∅ (m_channels m !! channel)) ↔ channel ∈ chans m c).
  { intros c. rewrite Hin. destruct Hm as [[Ha _] _]. exact (Ha c channel). }
  destruct (send_all_spec (channel_message channel message) _ (b_clients b) Hd) as [Hf1 Hs1].
  destruct (send_all _ _ (b_clients b)) as [n cs]. cbn [fst snd] in Hf1, Hs1.
  destruct (send_patterns_spec channel message (m_patterns m) (range_keys (dom (m_patterns m))) cs) as [Hf2 Hs2].
  destruct (send_patterns _ _ _ _ cs) as [n' cs']. cbn [fst snd] in Hf2, Hs2. cbn [b_manager b_announced b_clients b_router with_clients].
  split_and!; [done|done|lia| |by intros msgs cl; apply receive_spec].
  intros c. exists (filter (λ p, MatchGlob channel p = true ∧ c ∈ default ∅ (m_patterns m !! p)) (range_keys (dom (m_patterns m)))). split.
  - rewrite <- (range_patterns c m Hm), list_filter_filter. done.
  - rewrite Hs2, Hs1, (bool_decide_ext _ _ (Hagree c)). destruct (b_clients b !! c) as [cl|]; [|done]. cbn [fmap option_fmap option_map].
    by rewrite receive_app.
Qed.

(** ** The commands *)

Lemma enter_manager s : b_manager (snd (enter s)) = b_manager (ps_broker s).
Proof. unfold enter. by destruct (ps_client s). Qed.

(** SUBSCRIBE puts the connection into pub/sub mode and adds the channels to
    its client's and to no other's; it confirms each channel in turn with the
    number of channels and patterns the client has then. *)
Theorem subscribe_correct (args : list bytes) (s : PSt) :
  manager_ok (b_manager (ps_broker s)) → args ≠ [] →
  let m := b_manager (ps_broker s) in
  ∃ c counts, let s' := handleSubscribe args s in
    let m' := b_manager (ps_broker s') in
    ps_client s' = Some c ∧ (∀ c0, ps_client s = Some c0 → c = c0) ∧
    ps_w s' = say_all messageTypeSubscribe false args counts (ps_protocol s) (ps_w s) ∧
    manager_ok m' ∧ chans m' c = list_to_set args ∪ chans m c ∧ pats m' c = pats m c ∧
    (∀ c', c' ≠ c → chans m' c' = chans m c' ∧ pats m' c' = pats m c') ∧
    length counts = length args ∧
    ∀ i ch, args !! i = Some ch →
      counts !! i = Some (Z.of_nat (size (list_to_set (take (S i) args) ∪ chans m c)) + Z.of_nat (size (pats m c))).
Proof.
  intros Hm Hne m. unfold handleSubscribe, subscribe_with. destruct args as [|a args]; [done|]. set (names := a :: args).
  pose proof (enter_manager s) as He. assert (Hc : ∀ c0, ps_client s = Some c0 → fst (enter s) = c0).
  { intros c0 E. unfold enter. by rewrite E. }
  destruct (enter s) as [c b]. cbn [fst snd] in He, Hc. rewrite <- He in Hm.
  pose proof (Subscribe_changes c names _ Hm) as Hx.
  pose proof (change_all_add c (table_size (pat_table (b_manager b)) c) names _ (mo_channels _ Hm)) as Ha.
  unfold Subscribe, Subscribe_locked in *. destruct (change_all _ _ _ _ _) as [[counts firsts] t]. destruct Ha as (_ & _ & _ & Hlen & Hcounts). destruct Hx as [Hok Hn _].
  exists c, counts. cbn [ps_client ps_w ps_broker announce with_manager b_manager].
  rewrite He in *. destruct (Hn c) as [Hn1 Hn2]. rewrite bool_decide_eq_true_2 in Hn1, Hn2 by done.
  split_and!; [done|by intros c0 E; apply Hc|done|done|done|done| |done|exact Hcounts].
  intros c' Hne'. destruct (Hn c') as [-> ->]. by rewrite bool_decide_eq_false_2.
Qed.

Lemma count_zero c m : (SubscriptionCount c m =? 0) = bool_decide (chans m c ∪ pats m c = ∅).
Proof.
  unfold SubscriptionCount, table_size. cbn [snd chan_table pat_table]. fold (chans m c) (pats m c).
  case_bool_decide as E.
  - assert (chans m c = ∅ ∧ pats m c = ∅) as [-> ->] by set_solver. done.
  - apply Z.eqb_neq. intros Hz. apply E. assert (size (chans m c) = 0%nat ∧ size (pats m c) = 0%nat) as [Hc Hp] by lia.
    apply size_empty_inv in Hc. apply size_empty_inv in Hp. set_solver.
Qed.

(** UNSUBSCRIBE takes the channels named, or all of them, from the client and
    leaves its patterns and every other client alone; the connection leaves
    pub/sub mode exactly when no channel and no pattern is left. *)
Theorem unsubscribe_correct (args : list bytes) (s : PSt) (c : nat) :
  manager_ok (b_manager (ps_broker s)) → ps_client s = Some c →
  let m := b_manager (ps_broker s) in
  let s' := handleUnsubscribe args s in
  let m' := b_manager (ps_broker s') in
  manager_ok m' ∧ chans m' c = less args (chans m c) ∧ pats m' c = pats m c ∧
  (∀ c', c' ≠ c → chans m' c' = chans m c' ∧ pats m' c' = pats m c') ∧
  ps_client s' = if bool_decide (chans m' c ∪ pats m' c = ∅) then None else Some c.
Proof.
  intros Hm Hc m. unfold handleUnsubscribe, unsubscribe_with. rewrite Hc.
  pose proof (Unsubscribe_changes c args _ Hm) as Hx. fold m in Hx. unfold Unsubscribe. fold m.
  destruct (Unsubscribe_locked c args m) as [[[names counts] t] m1]. destruct Hx as [Hok Hn _]. set (b := announce t (with_manager m1 (ps_broker s))).
  change m1 with (b_manager b) in Hok, Hn. clearbody b. clear m1.
  destruct (Hn c) as [Hn1 Hn2]. rewrite bool_decide_eq_true_2 in Hn1, Hn2 by done.
  assert (Hothers : ∀ c', c' ≠ c → chans (b_manager b) c' = chans m c' ∧ pats (b_manager b) c' = pats m c').
  { intros c' Hne'. destruct (Hn c') as [-> ->]. by rewrite bool_decide_eq_false_2. }
  unfold exit_mode. cbn [ps_broker ps_protocol ps_w]. rewrite count_zero. case_bool_decide as E; cbn [ps_broker ps_client].
  - assert (chans (b_manager b) c = ∅ ∧ pats (b_manager b) c = ∅) as [Ec Ep] by set_solver.
    pose proof (Cleanup_changes c _ Hok) as Hx. unfold Cleanup. destruct (Cleanup_locked c (b_manager b)) as [t' m2]. destruct Hx as [Hok' Hn' _].
    cbn [b_manager with_client with_clients announce with_manager]. destruct (Hn' c) as [Hc1 Hc2]. rewrite bool_decide_eq_true_2 in Hc1, Hc2 by done.
    split_and!; [done|by rewrite Hc1, <- Hn1|by rewrite Hc2, <- Hn2| |].
    + intros c' Hne'. destruct (Hn' c') as [-> ->]. rewrite bool_decide_eq_false_2 by done. by apply Hothers.
    + rewrite bool_decide_eq_true_2; [done|]. rewrite Hc1, Hc2. set_solver.
  - split_and!; [done|done|done|done|]. by rewrite bool_decide_eq_false_2.
Qed.
End PubSubTheorems.

(** * Publish and subscribe: runs

    Two connections, one channel and one pattern: the theorems applied to them,
    and the run in which two announcements cross. *)


Module PubSubRun.

(** The star alone matches. *)
#[export] Instance star_glob : ChannelGlob := λ ch p, beq ch p || beq p (str "*").
#[export] Instance names_in_order : RangeOrder := λ X, elements X.
#[export] Instance clients_in_order : ClientOrder := λ X, elements X.
#[export] Instance names_in_order_laws : RangeOrderLaws.
Proof. intros X. reflexivity. Qed.
#[export] Instance clients_in_order_laws : ClientOrderLaws.
Proof. intros X. reflexivity. Qed.

Definition news : bytes := str "news".
Definition fresh_client : PubSubClient := NewPubSubClient RESP2.
(** A router that knows of one other node. *)
Definition one_peer : PubSubClusterRouter := mkRouter (λ _ _, 1) (λ _, []) (λ _, ∅) [].
(** Client 0 on the channel and the pattern, client 1 on the channel. *)
Definition b0 : Broker := mkBroker NewManager (<[0%nat := fresh_client]> (<[1%nat := fresh_client]> ∅)) [] (Some one_peer).
Definition b1 : Broker := snd (PSubscribe 0 [str "*"] (snd (Subscribe 1 [news] (snd (Subscribe 0 [news] b0))))).
Definition conn0 : PSt := mkPSt b1 (Some 0%nat) RESP2 (NewWriter []).

Lemma b1_run : rtc serial_step (start_run (Some one_peer)) (mkRun b1 []).
Proof.
  eapply rtc_l; [split; [by apply (RunNew (start_run (Some one_peer)) 1 RESP2)|cbn; lia]|].
  eapply rtc_l; [split; [by apply (RunNew (mkRun _ _) 0 RESP2)|cbn; lia]|].
  etrans; [apply (Subscribe_runs 0 [news])|].
  etrans; [apply (Subscribe_runs 1 [news])|].
  apply (PSubscribe_runs 0 [str "*"]).
Qed.

Lemma b1_ok : manager_ok (b_manager b1).
Proof.
  destruct (rtc_ind_r (run_ok (Some one_peer)) (start_run (Some one_peer)) (proj1 (start_ok _)) (λ y z _ Hs Hy, run_step_ok _ y z Hs Hy) _ (serial_runs _ _ b1_run)). done.
Qed.

Lemma pubsub_invariant_witness : heard false (b_announced b1) = {[ news ]} ∧ heard true (b_announced b1) = {[ str "*" ]}.
Proof.
  destruct (pubsub_invariant (Some one_peer) (mkRun b1 []) (serial_runs _ _ b1_run)) as (_ & _ & _ & _ & _ & Ht).
  destruct (Ht ltac:(by eexists) b1_run eq_refl) as [Hc Hp]. cbn [r_broker] in Hc, Hp. rewrite Hc, Hp. by vm_compute.
Defined.

(** Client 0 gets the message twice, client 1 once, and one other node gets it. *)
Lemma publish_correct_witness :
  fst (Publish news (str "hi") b1) = 4 ∧ b_manager (snd (Publish news (str "hi") b1)) = b_manager b1 ∧
  ∃ ps, ps ≡ₚ [str "*"] ∧ b_clients (snd (Publish news (str "hi") b1)) !! 0%nat = receive (due (b_manager b1) news (str "hi") ps 0) <$> b_clients b1 !! 0%nat.
Proof.
  pose proof (publish_correct news (str "hi") b1 b1_ok) as Hp. cbv zeta in Hp. split; [by vm_compute|].
  destruct (Publish news (str "hi") b1) as [count b']. destruct Hp as (Hm & _ & _ & Hc & _). cbn [fst snd]. split; [exact Hm|].
  destruct (Hc 0%nat) as (ps & Hps & E). exists ps. split; [|exact E]. rewrite Hps. by vm_compute.
Defined.

Lemma subscribe_correct_witness :
  ∃ counts, ps_w (handleSubscribe [str "a"; news; str "a"] conn0) =
    say_all messageTypeSubscribe false [str "a"; news; str "a"] counts RESP2 (NewWriter []) ∧ counts !! 2%nat = Some 3.
Proof.
  destruct (subscribe_correct [str "a"; news; str "a"] conn0 b1_ok) as (c & counts & Hc & H0 & Hw & _ & _ & _ & _ & _ & Hn); [done|].
  exists counts. split; [exact Hw|]. rewrite (Hn 2%nat (str "a") eq_refl). rewrite (H0 0%nat eq_refl). by vm_compute.
Defined.

(** The pattern keeps the connection in pub/sub mode. *)
Lemma unsubscribe_correct_witness : ps_client (handleUnsubscribe [] conn0) = Some 0%nat.
Proof.
  destruct (unsubscribe_correct [] conn0 0 b1_ok eq_refl) as (_ & Hc & Hp & _ & ->). rewrite Hc, Hp. by vm_compute.
Defined.

(** ** Announcements out of order *)

Definition m1 : Manager := snd (Subscribe_locked 1 [news] NewManager).
Definition m2 : Manager := snd (Unsubscribe_locked 1 [news] m1).
Definition m3 : Manager := snd (Subscribe_locked 2 [news] m2).
Definition told_wrong : Broker := mkBroker m3 ∅ [AnnounceSub news false; AnnounceSub news false; AnnounceUnsub news false] (Some one_peer).

(** A connection leaves a channel as the last one, another one joins, and their
    announcements cross: when all calls have returned the other nodes take the
    channel for unsubscribed while it has a subscriber, and route nothing to it. *)
Lemma announcements_cross : rtc run_step (start_run (Some one_peer)) (mkRun told_wrong []) ∧
  m_channels (b_manager told_wrong) !! news = Some {[ 2%nat ]} ∧ news ∉ heard false (b_announced told_wrong).
Proof.
  split_and!; [|by vm_compute|by vm_compute].
  eapply rtc_l; [by eapply (RunSubscribe (start_run (Some one_peer)) 1 [news])|].
  eapply rtc_l; [by apply (RunAnnounce (mkRun _ _) [] (AnnounceSub news false) [] None [])|].
  eapply rtc_l; [by apply (RunReturn (mkRun _ _) [] [])|].
  eapply rtc_l; [by eapply (RunUnsubscribe (mkRun _ _) 1 [news])|].
  eapply rtc_l; [by eapply (RunSubscribe (mkRun _ _) 2 [news])|].
  eapply rtc_l; [by apply (RunAnnounce (mkRun _ _) [] (AnnounceSub news false) [] None [mkOutstanding [AnnounceUnsub news false] None])|].
  eapply rtc_l; [by apply (RunReturn (mkRun _ _) [] [mkOutstanding [AnnounceUnsub news false] None])|].
  eapply rtc_l; [by apply (RunAnnounce (mkRun _ _) [] (AnnounceUnsub news false) [] None [])|].
  apply rtc_once. by apply (RunReturn (mkRun _ _) [] []).
Qed.
End PubSubRun.
