(* ===== verification/ConnExamples.v ===== *)
(** * The executor loop: hosts and runs

    The dispatcher of Dispatch.v as a host of the loop, a host with the pub/sub
    commands, and connections that show the theorems and what the loop holds
    back. *)

From S2P Require Import Prelude GoBytes Strconv Floats Commands Writer Engine Protocol Sets Strings Hashes PubSub PubSubTheorems Dispatch ConnLoop ConnTheorems.

Local Open Scope Z_scope.

(** ** The dispatcher as a host *)

Section DispatchHost.
Context `{TxEngine} `{Bcrypt}.

(** A connection of Dispatch.v with its client object and the broker. *)
Record Served := mkServed { sv_h : HSt; sv_client : option nat; sv_broker : Broker }.

Definition serve (lookup : CommandType → option CommandEntry) (timedOut : bool) (now : Z) (cmd : Command) (w : Writer) (x : Served) :
    option (Writer * Served) :=
  let h := sv_h x in
  match ExecuteInto lookup timedOut now cmd (mkHSt (h_acl h) (h_conn h) (h_ctx h) (h_roctx h) w (h_held h)) with
  | (Next _, h') => Some (h_w h', mkServed h' (sv_client x) (sv_broker x))
  | _ => None
  end.

Definition dispatch_host (lookup : CommandType → option CommandEntry) (timedOut : bool) (now : Z) : ConnHost Served := {|
  host_exec := serve lookup timedOut now;
  host_protocol x := c_Protocol (h_conn (sv_h x));
  host_client := sv_client;
  host_broker := sv_broker;
  host_update c b x := mkServed (sv_h x) c b |}.
End DispatchHost.

(** ** Pub/sub connections *)

Module ConnRun.
Import PubSubRun.

#[export] Instance open_socket : Socket := λ _ p, length p.
#[export] Instance open_socket_reliable : ReliableSocket.
Proof. intros sent p. unfold sock_write, open_socket. lia. Qed.

(** The pub/sub commands and PING; XREAD waits. *)
Definition pub_exec (cmd : Command) (w : Writer) (s : PSt) : option (Writer * PSt) :=
  let s := mkPSt (ps_broker s) (ps_client s) (ps_protocol s) w in
  let s' := match cmd_Type cmd with
            | CmdSubscribe => Some (handleSubscribe (cmd_Args cmd) s)
            | CmdUnsubscribe => Some (handleUnsubscribe (cmd_Args cmd) s)
            | CmdPublish => Some (handlePublish (cmd_Args cmd) s)
            | CmdPing => Some (mkPSt (ps_broker s) (ps_client s) (ps_protocol s) (handlePing (cmd_Args cmd) w))
            | _ => None
            end in
  s' ← s'; Some (ps_w s', s').
#[export] Instance pub_host : ConnHost PSt := {|
  host_exec := pub_exec;
  host_protocol := ps_protocol;
  host_client := ps_client;
  host_broker := ps_broker;
  host_update c b s := mkPSt b c (ps_protocol s) (ps_w s) |}.

Definition empty_broker : Broker := mkBroker NewManager ∅ [] None.
Definition start (p : ProtocolVersion) : LSt PSt :=
  mkLSt (mkPSt empty_broker None p (NewWriter [])) (NewWriter []) (NewWriterSize 64) false false false [].

Lemma start_settled p : settled_out (start p).
Proof. by split. Qed.

(** A RESP3 client that publishes to itself: the confirmation, the count, then the
    message. *)
Definition self_publish : list (list bytes) := [[str "SUBSCRIBE"; news]; [str "PUBLISH"; news; str "hi"]; [str "PING"]].

Lemma pipeline_served_witness :
  ∃ s', run_loop (zip (until_quit (denotes <$> self_publish)) [true; true; false]) (start RESP3) = Leave s' ∧
    bw_sent (ls_out s') = str ">3" ++ crlf ++ str "$9" ++ crlf ++ str "subscribe" ++ crlf ++ str "$4" ++ crlf ++ news ++ crlf ++ str ":1" ++ crlf ++
      str ":1" ++ crlf ++ str ">3" ++ crlf ++ str "$7" ++ crlf ++ str "message" ++ crlf ++ str "$4" ++ crlf ++ news ++ crlf ++
      str "$2" ++ crlf ++ str "hi" ++ crlf ++ str "+PONG" ++ crlf.
Proof.
  destruct (answers (until_quit (denotes <$> self_publish)) (ls_w (start RESP3)) (ls_x (start RESP3))) as [[out x]|] eqn:E; [|by vm_compute in E].
  destruct (pipeline_served self_publish [true; true; false] (start RESP3) out x) as (s' & _ & Er & Hs & _);
    [by apply (bool_decide_unpack _); vm_compute|apply start_settled|done|by vm_compute|by vm_compute|exact E|].
  exists s'. split; [exact Er|]. rewrite Hs. vm_compute in E. injection E as <- _. by vm_compute.
Defined.

(** ** What is held back *)

(** A subscriber after its SUBSCRIBE, and the message another connection
    publishes. *)
Definition subscribed (p : ProtocolVersion) : LSt PSt :=
  state_of (run_loop [(RCommand (denotes [str "SUBSCRIBE"; news]), false)] (start p)).
Definition hears (s : LSt PSt) : LSt PSt :=
  set_xw (host_update (ps_client (ls_x s)) (snd (Publish news (str "hi") (ps_broker (ls_x s)))) (ls_x s)) (ls_w s) s.

Definition hi : PubSubMessage := channel_message news (str "hi").

(** A RESP2 subscriber has a goroutine that sends it the message. *)
Lemma conn_output_whole_witness :
  ∃ s', conn_steps (hears (subscribed RESP2), true) [FormatPubSubMessage hi RESP2] (s', true) ∧
    bw_sent (ls_out s') ++ bw_buf (ls_out s') = bw_sent (ls_out (subscribed RESP2)) ++ FormatPubSubMessage hi RESP2.
Proof.
  destruct (deliver_async 0%nat RESP2 (hears (subscribed RESP2))) as [s'|] eqn:E; [|by vm_compute in E].
  assert (Hs : conn_steps (hears (subscribed RESP2), true) [FormatPubSubMessage hi RESP2] (s', true)).
  { econstructor; [|constructor]. eapply (StepAsync 0%nat RESP2); [|by vm_compute|reflexivity|exact E].
    apply (bool_decide_unpack _). by vm_compute. }
  exists s'. split; [exact Hs|]. destruct (conn_output_whole _ _ _ _ Hs) as (_ & _ & ->); [by vm_compute|].
  vm_compute in E. injection E as <-. done.
Defined.

(** A RESP3 subscriber that sends nothing has none: the message waits in its queue
    until its next command. *)
Lemma idle_resp3_subscriber_waits :
  let s := hears (subscribed RESP3) in
  ls_async s = [] ∧ inline_queue (ls_x s) = [hi] ∧ bw_buf (ls_out s) = [] ∧
  ∀ out s', ¬ ∃ c p cl msg rest, (c, p) ∈ ls_async s ∧ b_clients (host_broker (ls_x s)) !! c = Some cl ∧
    pc_msgChan cl = msg :: rest ∧ out = FormatPubSubMessage msg p ∧ deliver_async c p s = Some s'.
Proof.
  intros s. assert (E : ls_async s = []) by (by vm_compute). split_and!; [done|by vm_compute|by vm_compute|].
  intros out s' (c & p & cl & msg & rest & Hin & _). rewrite E in Hin. by apply not_elem_of_nil in Hin.
Qed.

(** One that then says HELLO 2 gets no message after any command either: inline
    delivery is over and no goroutine is started. *)
Definition downgraded : LSt PSt :=
  let s := subscribed RESP3 in
  hears (set_xw (mkPSt (ps_broker (ls_x s)) (ps_client (ls_x s)) RESP2 (ps_w (ls_x s))) (ls_w s) s).
Lemma downgraded_subscriber_starves :
  let s := state_of (run_loop [(RCommand (denotes [str "PING"]), false)] downgraded) in
  ls_async s = [] ∧ client_queue (ls_x s) = Some (0%nat, [hi]) ∧ ls_started s = true.
Proof. by vm_compute. Qed.

(** A reply stays in the buffer while only part of the next request has come. *)
Lemma partial_request_holds_reply :
  let s := state_of (run_loop [(RCommand (denotes [str "PING"]), true)] (start RESP2)) in
  bw_sent (ls_out s) = [] ∧ bw_buf (ls_out s) = str "+PONG" ++ crlf.
Proof. by vm_compute. Qed.
End ConnRun.
