(* ===== verification/JsonText.v ===== *)
(** * JSON documents and their text

    src/redis/json/value.go, parse.go and serialize.go: the ordered document
    model, the parser over the token stream of encoding/json, and the compact and
    the pretty printer.  The tokens of [json.Decoder] are modelled; reading and
    printing doubles are parameters. *)

From Stdlib Require Import SpecFloat.
From S2P Require Import Prelude GoBytes Strconv Floats.

Local Open Scope Z_scope.

(** ** Documents *)

Unset Elimination Schemes.
Inductive JValue : Type :=
  | VNull
  | VBool (b : bool)
  | VInt (i : Z)
  | VFloat (f : spec_float)
  | VString (s : bytes)
  | VArray (l : list JValue)
  | VObject (ms : list (bytes * JValue)).
Set Elimination Schemes.

Section JValueInd.
Variable P : JValue → Prop.
Hypothesis Hnull : P VNull.
Hypothesis Hbool : ∀ b, P (VBool b).
Hypothesis Hint : ∀ i, P (VInt i).
Hypothesis Hfloat : ∀ f, P (VFloat f).
Hypothesis Hstring : ∀ s, P (VString s).
Hypothesis Harray : ∀ l, Forall P l → P (VArray l).
Hypothesis Hobject : ∀ ms, Forall (λ m, P (snd m)) ms → P (VObject ms).

Fixpoint JValue_ind (v : JValue) : P v :=
  match v with
  | VNull => Hnull
  | VBool b => Hbool b
  | VInt i => Hint i
  | VFloat f => Hfloat f
  | VString s => Hstring s
  | VArray l =>
    Harray l ((fix go l := match l return Forall P l with
                           | [] => Forall_nil_2 P
                           | v :: l => Forall_cons_2 P v l (JValue_ind v) (go l)
                           end) l)
  | VObject ms =>
    Hobject ms ((fix go ms := match ms return Forall (λ m, P (snd m)) ms with
                              | [] => Forall_nil_2 _
                              | m :: ms => Forall_cons_2 _ m ms (JValue_ind (snd m)) (go ms)
                              end) ms)
  end.
End JValueInd.

Definition TypeName (v : JValue) : bytes :=
  match v with
  | VNull => str "null" | VBool _ => str "boolean" | VInt _ => str "integer" | VFloat _ => str "number"
  | VString _ => str "string" | VArray _ => str "array" | VObject _ => str "object"
  end.

Definition IsContainer (v : JValue) : bool := match v with VArray _ | VObject _ => true | _ => false end.

(** *** Members, in insertion order *)

Abbreviation Members := (list (bytes * JValue)).
Definition objIndex (key : bytes) (ms : Members) : option nat := fst <$> list_find (λ m, fst m = key) ms.
Definition objGet (key : bytes) (ms : Members) : option JValue := snd ∘ snd <$> list_find (λ m, fst m = key) ms.
Definition objSet (key : bytes) (v : JValue) (ms : Members) : Members :=
  match objIndex key ms with Some i => <[i := (key, v)]> ms | None => ms ++ [(key, v)] end.
Definition objDelete (key : bytes) (ms : Members) : Members :=
  match objIndex key ms with Some i => delete i ms | None => ms end.

(** ** Printing *)

Definition hex_digits_of (c : Z) : bytes := [hex_digit (Z.shiftr c 4); hex_digit (Z.land c 15)].
Definition escape_byte (c : Z) : bytes :=
  if c =? 34 then [92; 34]
  else if c =? 92 then [92; 92]
  else if c =? 10 then [92; 110]
  else if c =? 13 then [92; 114]
  else if c =? 9 then [92; 116]
  else if c =? 8 then [92; 98]
  else if c =? 12 then [92; 102]
  else if c <? 32 then [92; 117; 48; 48] ++ hex_digits_of c
  else [c].
Definition appendString (s : bytes) : bytes := 34 :: (s ≫= escape_byte) ++ [34].

Section Printing.
Context `{FormatG}.

Fixpoint Serialize (v : JValue) : bytes :=
  match v with
  | VNull => str "null"
  | VBool b => if b then str "true" else str "false"
  | VInt i => FormatInt i
  | VFloat f => format_g f
  | VString s => appendString s
  | VArray l => 91 :: join [44] (Serialize <$> l) ++ [93]
  | VObject ms => 123 :: join [44] ((λ m, appendString (fst m) ++ 58 :: Serialize (snd m)) <$> ms) ++ [125]
  end.

Record PrintOpts := mkPrint { po_Indent : bytes; po_Newline : bytes; po_Space : bytes }.

Definition appendIndent (indent : bytes) (depth : nat) : bytes := concat (replicate depth indent).
Fixpoint appendPretty (o : PrintOpts) (depth : nat) (v : JValue) : bytes :=
  let line := po_Newline o ++ appendIndent (po_Indent o) (S depth) in
  let last := po_Newline o ++ appendIndent (po_Indent o) depth in
  match v with
  | VArray [] => str "[]"
  | VArray l => 91 :: join [44] ((λ e, line ++ appendPretty o (S depth) e) <$> l) ++ last ++ [93]
  | VObject [] => str "{}"
  | VObject ms =>
    123 :: join [44] ((λ m, line ++ appendString (fst m) ++ 58 :: po_Space o ++ appendPretty o (S depth) (snd m)) <$> ms) ++ last ++ [125]
  | v => Serialize v
  end.
Definition SerializePretty (o : PrintOpts) (v : JValue) : bytes :=
  if beq (po_Indent o) [] && beq (po_Newline o) [] && beq (po_Space o) [] then Serialize v else appendPretty o 0 v.
End Printing.

(** ** Tokens

    [json.Decoder] with [UseNumber]: what is still to be read, the state of the
    token stream, and the states of the containers around it. *)

Inductive TokenState : Type :=
  | tokenTopValue | tokenArrayStart | tokenArrayValue | tokenArrayComma
  | tokenObjectStart | tokenObjectKey | tokenObjectColon | tokenObjectValue | tokenObjectComma.
#[global] Instance TokenState_eq_dec : EqDecision TokenState.
Proof. solve_decision. Defined.

Record Decoder := mkDec { d_in : bytes; d_state : TokenState; d_stack : list TokenState }.

Inductive Token : Type :=
  | TDelim (c : Z)
  | TNumber (s : bytes)
  | TString (s : bytes)
  | TBool (b : bool)
  | TNull.

Definition json_space (c : Z) : bool := (c =? 32) || (c =? 9) || (c =? 13) || (c =? 10).
Fixpoint skip_space (s : bytes) : bytes :=
  match s with c :: s' => if json_space c then skip_space s' else s | [] => [] end.

(** *** Scalars *)

Definition is_hex (c : Z) : bool := is_digit c || ((97 <=? c) && (c <=? 102)) || ((65 <=? c) && (c <=? 70)).
Definition hex_val (c : Z) : Z := if is_digit c then c - 48 else if 97 <=? c then c - 87 else c - 55.
(** The letters after a backslash, but for [u]. *)
Definition is_escape (c : Z) : bool :=
  (c =? 34) || (c =? 92) || (c =? 47) || (c =? 98) || (c =? 102) || (c =? 110) || (c =? 114) || (c =? 116).
Definition unescape (c : Z) : Z :=
  if c =? 98 then 8 else if c =? 102 then 12 else if c =? 110 then 10 else if c =? 114 then 13 else if c =? 116 then 9 else c.

(** The body of a string up to its closing quote, and what follows. *)
Fixpoint scan_string (s : bytes) : option (bytes * bytes) :=
  match s with
  | [] => None
  | c :: s1 =>
    if c =? 34 then Some ([], s1)
    else if c =? 92 then
      match s1 with
      | [] => None
      | e :: s2 =>
        if e =? 117 then
          match s2 with
          | h1 :: h2 :: h3 :: h4 :: s3 =>
            if is_hex h1 && is_hex h2 && is_hex h3 && is_hex h4
            then prod_map (app [92; 117; h1; h2; h3; h4]) id <$> scan_string s3 else None
          | _ => None
          end
        else if is_escape e then prod_map (app [92; e]) id <$> scan_string s2 else None
      end
    else if c <? 32 then None
    else prod_map (cons c) id <$> scan_string s1
  end.

(** [utf8.EncodeRune], for the runes an escape can give. *)
Definition RuneError : bytes := [239; 191; 189].
Definition EncodeRune (r : Z) : bytes :=
  if r <? 128 then [r]
  else if r <? 2048 then [192 + r / 64; 128 + r mod 64]
  else if (55296 <=? r) && (r <? 57344) then RuneError
  else if r <? 65536 then [224 + r / 4096; 128 + r / 64 mod 64; 128 + r mod 64]
  else [240 + r / 262144; 128 + r / 4096 mod 64; 128 + r / 64 mod 64; 128 + r mod 64].

(** The well-formed sequences of two, three and four bytes. *)
Definition is_cont (c : Z) : bool := (128 <=? c) && (c <=? 191).
Definition utf8_2 (c c1 : Z) : bool := (194 <=? c) && (c <=? 223) && is_cont c1.
Definition utf8_3 (c c1 c2 : Z) : bool :=
  (224 <=? c) && (c <=? 239) && is_cont c1 && is_cont c2 &&
  negb ((c =? 224) && (c1 <? 160)) && negb ((c =? 237) && (160 <=? c1)).
Definition utf8_4 (c c1 c2 c3 : Z) : bool :=
  (240 <=? c) && (c <=? 244) && is_cont c1 && is_cont c2 && is_cont c3 &&
  negb ((c =? 240) && (c1 <? 144)) && negb ((c =? 244) && (144 <=? c1)).

Definition hex4 (h1 h2 h3 h4 : Z) : Z := ((hex_val h1 * 16 + hex_val h2) * 16 + hex_val h3) * 16 + hex_val h4.
Definition high_surrogate (r : Z) : bool := (55296 <=? r) && (r <? 56320).
Definition low_surrogate (r : Z) : bool := (56320 <=? r) && (r <? 57344).
Definition surrogate_pair (r1 r2 : Z) : Z := (r1 - 55296) * 1024 + (r2 - 56320) + 65536.

(** The string a body denotes: escapes are resolved, a pair of surrogates is one
    rune, and what is not well-formed UTF-8 becomes the replacement rune. *)
Fixpoint unquote_body (s : bytes) : bytes :=
  match s with
  | [] => []
  | c :: s1 =>
    if c =? 92 then
      match s1 with
      | e :: s2 =>
        if e =? 117 then
          match s2 with
          | h1 :: h2 :: h3 :: h4 :: s3 =>
            let r := hex4 h1 h2 h3 h4 in
            match s3 with
            | b :: u :: h5 :: h6 :: h7 :: h8 :: s4 =>
              let r' := hex4 h5 h6 h7 h8 in
              if high_surrogate r && (b =? 92) && (u =? 117) && low_surrogate r'
              then EncodeRune (surrogate_pair r r') ++ unquote_body s4
              else EncodeRune r ++ unquote_body s3
            | _ => EncodeRune r ++ unquote_body s3
            end
          | _ => []
          end
        else unescape e :: unquote_body s2
      | [] => []
      end
    else if c <? 128 then c :: unquote_body s1
    else
      let bad := RuneError ++ unquote_body s1 in
      match s1 with
      | c1 :: s2 =>
        if utf8_2 c c1 then [c; c1] ++ unquote_body s2
        else match s2 with
        | c2 :: s3 =>
          if utf8_3 c c1 c2 then [c; c1; c2] ++ unquote_body s3
          else match s3 with
          | c3 :: s4 => if utf8_4 c c1 c2 c3 then [c; c1; c2; c3] ++ unquote_body s4 else bad
          | [] => bad
          end
        | [] => bad
        end
      | [] => bad
      end
  end.

Fixpoint span_digits (s : bytes) : bytes * bytes :=
  match s with
  | c :: s' => if is_digit c then prod_map (cons c) id (span_digits s') else ([], s)
  | [] => ([], [])
  end.
(** At least one digit. *)
Definition digits1 (s : bytes) : option (bytes * bytes) :=
  match span_digits s with ([], _) => None | r => Some r end.

(** The sign, the integer part without leading zeros, the fraction, the exponent. *)
Definition scan_int (s : bytes) : option (bytes * bytes) :=
  match s with
  | c :: s' => if c =? 48 then Some ([48], s') else digits1 s
  | [] => None
  end.
Definition scan_frac (s : bytes) : option (bytes * bytes) :=
  match s with
  | c :: s' => if c =? 46 then prod_map (cons 46) id <$> digits1 s' else Some ([], s)
  | [] => Some ([], [])
  end.
Definition scan_exp (s : bytes) : option (bytes * bytes) :=
  match s with
  | c :: s' =>
    if (c =? 101) || (c =? 69) then
      match s' with
      | g :: s'' => if (g =? 43) || (g =? 45) then prod_map (app [c; g]) id <$> digits1 s'' else prod_map (cons c) id <$> digits1 s'
      | [] => None
      end
    else Some ([], s)
  | [] => Some ([], [])
  end.
Definition scan_number (s : bytes) : option (bytes * bytes) :=
  let '(sign, s) := match s with c :: s' => if c =? 45 then ([45], s') else ([], s) | [] => ([], []) end in
  '(a, s) ← scan_int s;
  '(b, s) ← scan_frac s;
  '(e, s) ← scan_exp s;
  Some (sign ++ a ++ b ++ e, s).

(** [dec.Decode] on a value that is not a container. *)
Definition scan_word (w : bytes) (t : Token) (s : bytes) : option (Token * bytes) :=
  if has_prefix s w then Some (t, drop (length w) s) else None.
Definition scan_scalar (s : bytes) : option (Token * bytes) :=
  match s with
  | [] => None
  | c :: s' =>
    if c =? 34 then '(body, r) ← scan_string s'; Some (TString (unquote_body body), r)
    else if (c =? 45) || is_digit c then '(n, r) ← scan_number s; Some (TNumber n, r)
    else if c =? 116 then scan_word (str "true") (TBool true) s
    else if c =? 102 then scan_word (str "false") (TBool false) s
    else if c =? 110 then scan_word (str "null") TNull s
    else None
  end.

Definition tokenValueAllowed (st : TokenState) : bool :=
  match st with tokenTopValue | tokenArrayStart | tokenArrayValue | tokenObjectValue => true | _ => false end.
Definition tokenValueEnd (st : TokenState) : TokenState :=
  match st with
  | tokenArrayStart | tokenArrayValue => tokenArrayComma
  | tokenObjectValue => tokenObjectComma
  | st => st
  end.

Definition open_container (c : Z) (st : TokenState) (d : Decoder) (s' : bytes) : option (Token * Decoder) :=
  if tokenValueAllowed (d_state d) then Some (TDelim c, mkDec s' st (d_state d :: d_stack d)) else None.
Definition close_container (c : Z) (ok : bool) (d : Decoder) (s' : bytes) : option (Token * Decoder) :=
  match ok, d_stack d with
  | true, st :: stack => Some (TDelim c, mkDec s' (tokenValueEnd st) stack)
  | _, _ => None
  end.

(** Anything but a colon or a comma. *)
Definition token_at (c : Z) (s' : bytes) (d : Decoder) : option (Token * Decoder) :=
  let st := d_state d in
  if c =? 91 then open_container c tokenArrayStart d s'
  else if c =? 93 then close_container c (bool_decide (st = tokenArrayStart ∨ st = tokenArrayComma)) d s'
  else if c =? 123 then open_container c tokenObjectStart d s'
  else if c =? 125 then close_container c (bool_decide (st = tokenObjectStart ∨ st = tokenObjectComma)) d s'
  else if (c =? 34) && bool_decide (st = tokenObjectStart ∨ st = tokenObjectKey) then
    '(body, r) ← scan_string s'; Some (TString (unquote_body body), mkDec r tokenObjectColon (d_stack d))
  else if tokenValueAllowed st then
    '(t, r) ← scan_scalar (c :: s'); Some (t, mkDec r (tokenValueEnd st) (d_stack d))
  else None.

(** The next token; [None] is an error or the end.  After a separator the state
    allows no other one, so two rounds are enough. *)
Fixpoint token_loop (fuel : nat) (d : Decoder) : option (Token * Decoder) :=
  match fuel, skip_space (d_in d) with
  | S fuel', c :: s' =>
    if c =? 58 then
      if bool_decide (d_state d = tokenObjectColon) then token_loop fuel' (mkDec s' tokenObjectValue (d_stack d)) else None
    else if c =? 44 then
      match d_state d with
      | tokenArrayComma => token_loop fuel' (mkDec s' tokenArrayValue (d_stack d))
      | tokenObjectComma => token_loop fuel' (mkDec s' tokenObjectKey (d_stack d))
      | _ => None
      end
    else token_at c s' d
  | _, _ => None
  end.
Definition dec_Token (d : Decoder) : option (Token * Decoder) := token_loop 2 d.

(** Is there another element before the closing bracket. *)
Definition dec_More (d : Decoder) : bool :=
  match skip_space (d_in d) with c :: _ => negb ((c =? 93) || (c =? 125)) | [] => false end.

(** ** Parsing *)

Section Parsing.
Context `{ParseFloat}.

Definition parse_number (s : bytes) : option JValue :=
  match Atoi s with
  | Some i => Some (VInt i)
  | None => VFloat <$> parse_float s
  end.

(** A repeated member takes the last value at the place of the first. *)
Definition add_member (key : bytes) (v : JValue) (ms : Members) : Members := objSet key v ms.

(** One unit of fuel for a value and one for each member or element. *)
Fixpoint parseValue (fuel : nat) (d : Decoder) : option (JValue * Decoder) :=
  match fuel with
  | O => None
  | S fuel' =>
    '(tok, d) ← dec_Token d;
    match tok with
    | TDelim c =>
      if c =? 123 then parse_members fuel' [] d
      else if c =? 91 then parse_elements fuel' [] d
      else None
    | TNumber s => v ← parse_number s; Some (v, d)
    | TString s => Some (VString s, d)
    | TBool b => Some (VBool b, d)
    | TNull => Some (VNull, d)
    end
  end
with parse_members (fuel : nat) (ms : Members) (d : Decoder) : option (JValue * Decoder) :=
  match fuel with
  | O => None
  | S fuel' =>
    if dec_More d then
      '(tok, d) ← dec_Token d;
      match tok with
      | TString key => '(v, d) ← parseValue fuel' d; parse_members fuel' (add_member key v ms) d
      | _ => None
      end
    else '(_, d) ← dec_Token d; Some (VObject ms, d)
  end
with parse_elements (fuel : nat) (l : list JValue) (d : Decoder) : option (JValue * Decoder) :=
  match fuel with
  | O => None
  | S fuel' =>
    if dec_More d then '(v, d) ← parseValue fuel' d; parse_elements fuel' (l ++ [v]) d
    else '(_, d) ← dec_Token d; Some (VArray l, d)
  end.

Definition parse_fuel (data : bytes) : nat := 2 * length data + 2.
Definition Parse (data : bytes) : option JValue :=
  '(v, d) ← parseValue (parse_fuel data) (mkDec data tokenTopValue []);
  match skip_space (d_in d) with [] => Some v | _ => None end.
End Parsing.
