(* ===== verification/JsonTextProps.v ===== *)
(** * JSON text: printing and parsing are inverse

    A document that is printed and parsed again is the same document, but for
    doubles whose shortest form is an integer, which come back as integers. *)

From Stdlib Require Import SpecFloat.
From S2P Require Import Prelude GoBytes Strconv Floats JsonText.

Local Open Scope Z_scope.
Set Warnings "-register-all".

(** ** Strings *)

Inductive valid_utf8 : bytes → Prop :=
  | u_nil : valid_utf8 []
  | u_ascii c s : 0 <= c < 128 → valid_utf8 s → valid_utf8 (c :: s)
  | u_two c c1 s : utf8_2 c c1 = true → valid_utf8 s → valid_utf8 (c :: c1 :: s)
  | u_three c c1 c2 s : utf8_3 c c1 c2 = true → valid_utf8 s → valid_utf8 (c :: c1 :: c2 :: s)
  | u_four c c1 c2 c3 s : utf8_4 c c1 c2 c3 = true → valid_utf8 s → valid_utf8 (c :: c1 :: c2 :: c3 :: s).

Definition escape (s : bytes) : bytes := s ≫= escape_byte.

Lemma escape_cons c s : escape (c :: s) = escape_byte c ++ escape s.
Proof. done. Qed.

(** A byte is a control character, one of the two that get a backslash, or
    itself. *)
Lemma escape_byte_cases c : 0 <= c →
  (escape_byte c = [c] ∧ 32 <= c ∧ c ≠ 34 ∧ c ≠ 92) ∨
  (∃ e, escape_byte c = [92; e] ∧ is_escape e = true ∧ e ≠ 117 ∧ unescape e = c) ∨
  (∃ h1 h2, escape_byte c = [92; 117; 48; 48; h1; h2] ∧ is_hex h1 = true ∧ is_hex h2 = true ∧ hex4 48 48 h1 h2 = c ∧ c < 32).
Proof.
  intros Hc. unfold escape_byte. destruct (Z.eqb_spec c 34) as [->|]; [right; left; by exists 34|].
  destruct (Z.eqb_spec c 92) as [->|]; [right; left; by exists 92|]. destruct (Z.eqb_spec c 10) as [->|]; [right; left; by exists 110|].
  destruct (Z.eqb_spec c 13) as [->|]; [right; left; by exists 114|]. destruct (Z.eqb_spec c 9) as [->|]; [right; left; by exists 116|].
  destruct (Z.eqb_spec c 8) as [->|]; [right; left; by exists 98|]. destruct (Z.eqb_spec c 12) as [->|]; [right; left; by exists 102|].
  destruct (Z.ltb_spec c 32) as [Hl|Hl]; [|left; by split_and!].
  right; right. eexists _, _. split; [reflexivity|].
  assert (Hall : Forall (λ c, is_hex (hex_digit (Z.shiftr c 4)) = true ∧ is_hex (hex_digit (Z.land c 15)) = true ∧
    hex4 48 48 (hex_digit (Z.shiftr c 4)) (hex_digit (Z.land c 15)) = c) (seqZ 0 32)).
  { apply (bool_decide_unpack _). by vm_compute. }
  rewrite Forall_forall in Hall. destruct (Hall c) as (? & ? & ?); [apply elem_of_seqZ; lia|]. by split_and!.
Qed.

Lemma valid_bytes s : valid_utf8 s → Forall (λ c, 0 <= c) s.
Proof.
  assert (Hc : ∀ c, is_cont c = true → 0 <= c). { unfold is_cont. intros c. lia. }
  induction 1 as [|c s Hr _ IH|c c1 s H2 _ IH|c c1 c2 s H3 _ IH|c c1 c2 c3 s H4 _ IH]; [done|by constructor; [lia|]|..];
    unfold utf8_2, utf8_3, utf8_4 in *; rewrite !andb_true_iff in *; destruct_and!; repeat constructor; auto; lia.
Qed.

Lemma scan_escaped s rest : Forall (λ c, 0 <= c) s → scan_string (escape s ++ 34 :: rest) = Some (escape s, rest).
Proof.
  induction 1 as [|c s Hc _ IH]; [done|]. rewrite escape_cons, <- app_assoc.
  destruct (escape_byte_cases c Hc) as [(-> & H1 & H2 & H3)|[(e & -> & He & Hu & _)|(h1 & h2 & -> & Hh1 & Hh2 & _)]].
  - cbn [app scan_string]. rewrite (proj2 (Z.eqb_neq c 34)), (proj2 (Z.eqb_neq c 92)), (proj2 (Z.ltb_ge c 32)) by lia. by rewrite IH.
  - cbn [app scan_string]. rewrite (proj2 (Z.eqb_neq e 117)) by done. change (92 =? 34) with false. change (92 =? 92) with true.
    cbv iota. by rewrite He, IH.
  - cbn [app scan_string]. change (92 =? 34) with false. change (92 =? 92) with true. change (117 =? 117) with true. cbv iota.
    rewrite Hh1, Hh2, IH. done.
Qed.

Lemma unquote_u h1 h2 h3 h4 s : high_surrogate (hex4 h1 h2 h3 h4) = false →
  unquote_body (92 :: 117 :: h1 :: h2 :: h3 :: h4 :: s) = EncodeRune (hex4 h1 h2 h3 h4) ++ unquote_body s.
Proof.
  intros Hs. cbn [unquote_body]. change (92 =? 92) with true. change (117 =? 117) with true. cbv iota zeta. rewrite Hs. cbn [andb].
  repeat case_match; done.
Qed.

Lemma unquote_raw c s : c <> 92 → c < 128 → unquote_body (c :: s) = c :: unquote_body s.
Proof. intros H1 H2. cbn [unquote_body]. by rewrite (proj2 (Z.eqb_neq c 92)), (proj2 (Z.ltb_lt c 128)) by lia. Qed.

Lemma unquote_ascii c s : 0 <= c < 128 → unquote_body (escape_byte c ++ s) = c :: unquote_body s.
Proof.
  intros Hc. destruct (escape_byte_cases c) as [(-> & H1 & H2 & H3)|[(e & -> & He & Hu & <-)|(h1 & h2 & -> & Hh1 & Hh2 & Hx & Hl)]]; [lia|..].
  - apply unquote_raw; lia.
  - cbn [app unquote_body]. change (92 =? 92) with true. cbv iota. by rewrite (proj2 (Z.eqb_neq e 117)) by done.
  - cbn [app]. rewrite unquote_u, Hx.
    + unfold EncodeRune. by rewrite (proj2 (Z.ltb_lt c 128)) by lia.
    + rewrite Hx. unfold high_surrogate. lia.
Qed.

Lemma escape_high c : 128 <= c → escape_byte c = [c].
Proof. intros Hc. destruct (escape_byte_cases c) as [(-> & _)|[(e & _ & He & _ & Hu)|(h1 & h2 & _ & _ & _ & _ & Hl)]]; [lia|done| |lia].
  unfold is_escape in He. unfold unescape in Hu. repeat case_match; lia.
Qed.

Lemma unquote_escape s : valid_utf8 s → unquote_body (escape s) = s.
Proof.
  assert (Hk : ∀ c, is_cont c = true → 128 <= c). { unfold is_cont. intros c. lia. }
  induction 1 as [|c s Hr _ IH|c c1 s H2 _ IH|c c1 c2 s H3 _ IH|c c1 c2 c3 s H4 _ IH]; [done|by rewrite escape_cons, unquote_ascii, IH by done|..];
    rewrite !escape_cons.
  - pose proof H2 as H2'. unfold utf8_2 in H2'. rewrite !andb_true_iff in H2'. destruct_and!. rewrite !escape_high by (auto; lia).
    cbn [app unquote_body]. rewrite (proj2 (Z.eqb_neq c 92)), (proj2 (Z.ltb_ge c 128)), H2 by lia. cbn. by rewrite IH.
  - assert (Hn : utf8_2 c c1 = false). { unfold utf8_2, utf8_3 in *. lia. }
    pose proof H3 as H3'. unfold utf8_3 in H3'. rewrite !andb_true_iff in H3'. destruct_and!. rewrite !escape_high by (auto; lia).
    cbn [app unquote_body]. rewrite (proj2 (Z.eqb_neq c 92)), (proj2 (Z.ltb_ge c 128)), Hn, H3 by lia. cbn. by rewrite IH.
  - assert (utf8_2 c c1 = false ∧ utf8_3 c c1 c2 = false) as [Hn2 Hn3] by (unfold utf8_2, utf8_3, utf8_4 in *; lia).
    pose proof H4 as H4'. unfold utf8_4 in H4'. rewrite !andb_true_iff in H4'. destruct_and!. rewrite !escape_high by (auto; lia).
    cbn [app unquote_body]. rewrite (proj2 (Z.eqb_neq c 92)), (proj2 (Z.ltb_ge c 128)), Hn2, Hn3, H4 by lia. cbn. by rewrite IH.
Qed.

(** ** Numbers *)

(** What may follow a number: nothing that would be a part of it. *)
Definition ends_number (rest : bytes) : bool :=
  match rest with c :: _ => negb (is_digit c || (c =? 46) || (c =? 101) || (c =? 69)) | [] => true end.

Lemma ends_number_cons c rest : ends_number (c :: rest) = true → is_digit c = false ∧ c ≠ 46 ∧ c ≠ 101 ∧ c ≠ 69.
Proof. cbn. rewrite negb_true_iff, !orb_false_iff. intros [[[-> ?] ?] ?]. lia. Qed.

Lemma span_digits_app s a b rest : span_digits s = (a, b) → ends_number rest = true → span_digits (s ++ rest) = (a, b ++ rest).
Proof.
  revert a. induction s as [|c s IH]; intros a Hs Hr; cbn [span_digits app] in *.
  - injection Hs as <- <-. destruct rest as [|c rest]; [done|]. destruct (ends_number_cons _ _ Hr) as (Hd & _). cbn. by rewrite Hd.
  - destruct (is_digit c); [|by injection Hs as <- <-]. destruct (span_digits s) as [a' b']. cbn in Hs. injection Hs as <- <-.
    by rewrite (IH a' eq_refl Hr).
Qed.

Lemma digits1_app s a b rest : digits1 s = Some (a, b) → ends_number rest = true → digits1 (s ++ rest) = Some (a, b ++ rest).
Proof.
  unfold digits1. intros Hs Hr. destruct (span_digits s) as [a' b'] eqn:E. rewrite (span_digits_app _ _ _ _ E Hr). destruct a'; [done|]. by injection Hs as <- <-.
Qed.

Lemma scan_number_app s rest : scan_number s = Some (s, []) → ends_number rest = true → scan_number (s ++ rest) = Some (s, rest).
Proof.
  intros Hs Hr. unfold scan_number in *. destruct s as [|c s0]; [done|]. cbn [app].
  set (g := if c =? 45 then ([45], s0) else ([], c :: s0)) in Hs.
  assert (Eg : (if c =? 45 then ([45], s0 ++ rest) else ([], c :: s0 ++ rest)) = (fst g, snd g ++ rest)).
  { unfold g. by destruct (c =? 45). }
  rewrite Eg. destruct g as [sign s]. cbn [fst snd]. clear Eg. cbn [mbind option_bind] in *.
  destruct (scan_int s) as [[a s1]|] eqn:E1; [|done]. cbn in Hs. destruct (scan_frac s1) as [[b s2]|] eqn:E2; [|done]. cbn in Hs.
  destruct (scan_exp s2) as [[e s3]|] eqn:E3; [|done]. cbn in Hs. injection Hs as Hs ->.
  assert (F1 : scan_int (s ++ rest) = Some (a, s1 ++ rest)).
  { unfold scan_int in *. destruct s as [|d s]; [done|]. cbn [app]. destruct (d =? 48); [by injection E1 as <- <-|]. by apply (digits1_app (d :: s)). }
  assert (F2 : scan_frac (s1 ++ rest) = Some (b, s2 ++ rest)).
  { unfold scan_frac in *. destruct s1 as [|d s1].
    - injection E2 as <- <-. destruct rest as [|d rest]; [done|]. destruct (ends_number_cons _ _ Hr) as (_ & Hd & _). cbn. by rewrite (proj2 (Z.eqb_neq d 46)).
    - cbn [app]. destruct (d =? 46); [|by injection E2 as <- <-]. destruct (digits1 s1) as [[a' b']|] eqn:Ed; [|done]. cbn in E2. injection E2 as <- <-.
      by rewrite (digits1_app _ _ _ _ Ed Hr). }
  assert (F3 : scan_exp (s2 ++ rest) = Some (e, rest)).
  { unfold scan_exp in *. destruct s2 as [|d s2].
    - injection E3 as <-. destruct rest as [|d rest]; [done|]. destruct (ends_number_cons _ _ Hr) as (_ & _ & H1 & H2). cbn.
      by rewrite (proj2 (Z.eqb_neq d 101)), (proj2 (Z.eqb_neq d 69)).
    - cbn [app]. destruct ((d =? 101) || (d =? 69)); [|done]. destruct s2 as [|k s2]; [done|]. cbn [app].
      destruct ((k =? 43) || (k =? 45)).
      + destruct (digits1 s2) as [[a' b']|] eqn:Ed; [|done]. cbn in E3. injection E3 as <- ->. by rewrite (digits1_app _ _ _ _ Ed Hr).
      + destruct (digits1 (k :: s2)) as [[a' b']|] eqn:Ed; [|done]. cbn in E3. injection E3 as <- ->.
        change (k :: s2 ++ rest) with ((k :: s2) ++ rest). by rewrite (digits1_app _ _ _ _ Ed Hr). }
  rewrite F1. cbn. rewrite F2. cbn. rewrite F3. cbn. by rewrite Hs.
Qed.

Lemma span_digits_all s : all_digits s = true → span_digits s = (s, []).
Proof. induction s as [|c s IH]; [done|]. cbn. intros [-> Hs]%andb_true_iff. by rewrite (IH Hs). Qed.

(** No leading zero. *)
Lemma format_digits_head fuel n : 0 < n → (0 < fuel)%nat → n < 2 ^ Z.of_nat fuel → ∃ c s, format_digits fuel n = c :: s ∧ c ≠ 48.
Proof.
  revert n. induction fuel as [|fuel IH]; intros n Hn Hf Hb; [lia|]. cbn [format_digits]. destruct (Z.ltb_spec n 10); [by exists (n + 48), []; split; [|lia]|].
  assert (2 ^ Z.of_nat (S fuel) = 2 ^ Z.of_nat fuel * 2) by (rewrite Nat2Z.inj_succ, Z.pow_succ_r; lia).
  destruct (IH (n / 10)) as (c & s & -> & Hc).
  - apply Z.div_str_pos. lia.
  - destruct fuel; [cbn in *; lia|lia].
  - apply Z.div_lt_upper_bound; lia.
  - by exists c, (s ++ [n `mod` 10 + 48]).
Qed.

Lemma scan_digits_int n : 0 <= n → scan_int (FormatUint n) = Some (FormatUint n, []).
Proof.
  intros Hn. destruct (FormatUint_spec n Hn) as (Hd & Hv & Hne). destruct (decide (n = 0)) as [->|Hz]; [done|].
  destruct (format_digits_head (S (Z.to_nat (Z.log2 n))) n) as (c & s & E & Hc); [lia|lia| |].
  { rewrite Nat2Z.inj_succ, Z2Nat.id by apply Z.log2_nonneg. apply Z.log2_spec. lia. }
  fold (FormatUint n) in E. rewrite E in *. unfold scan_int. rewrite (proj2 (Z.eqb_neq c 48)) by done. unfold digits1. by rewrite span_digits_all.
Qed.

Lemma scan_FormatInt i : scan_number (FormatInt i) = Some (FormatInt i, []).
Proof.
  unfold FormatInt. destruct (Z.ltb_spec i 0) as [Hi|Hi].
  - unfold scan_number. change (45 =? 45) with true. cbv iota. rewrite scan_digits_int by lia. cbn. by rewrite !app_nil_r.
  - pose proof (scan_digits_int i Hi) as Hs. destruct (FormatUint_spec i Hi) as (Hd & _ & Hne). unfold scan_number.
    destruct (FormatUint i) as [|c s]; [done|]. apply all_digits_cons in Hd as [Hc _]. rewrite (proj2 (Z.eqb_neq c 45)) by lia.
    cbn [mbind option_bind]. rewrite Hs. cbn. by rewrite !app_nil_r.
Qed.

Lemma Atoi_FormatInt i : is_i64 i → Atoi (FormatInt i) = Some i.
Proof.
  intros Hi. unfold Atoi, ParseInt_val, FormatInt. destruct (Z.ltb_spec i 0) as [Hn|Hn].
  - cbn [split_sign]. change (45 =? 45) with true. cbv iota. destruct (FormatUint_spec (- i)) as (-> & -> & Hne); [lia|].
    destruct (FormatUint (- i)) as [|c s]; [done|]. rewrite len_cons. pose proof (len_nonneg s). rewrite (proj2 (Z.ltb_lt 0 _)) by lia. cbn [andb].
    rewrite (proj2 (Z.leb_le (- i) _)) by zlia. f_equal. lia.
  - destruct (FormatUint_spec i) as (Hd & Hv & Hne); [lia|]. rewrite split_sign_digits, Hd, Hv by done.
    destruct (FormatUint i) as [|c s]; [done|]. rewrite len_cons. pose proof (len_nonneg s). rewrite (proj2 (Z.ltb_lt 0 _)) by lia. cbn [andb].
    by rewrite (proj2 (Z.leb_le i _)) by zlia.
Qed.

(** ** Documents *)

Definition finite (f : spec_float) : bool := match f with S754_zero _ | S754_finite _ _ _ => true | _ => false end.

(** The shortest form of a double is a number of JSON and reads back as the
    double. *)
Class FloatText `{ParseFloat} `{FormatG} := {
  float_text_number f : finite f = true → scan_number (format_g f) = Some (format_g f, []);
  float_text_value f : is_double f → finite f = true → parse_float (format_g f) = Some f
}.

(** Integers of 64 bits, finite doubles, well-formed strings, no member twice. *)
Inductive json_ok : JValue → Prop :=
  | ok_null : json_ok VNull
  | ok_bool b : json_ok (VBool b)
  | ok_int i : is_i64 i → json_ok (VInt i)
  | ok_float f : is_double f → finite f = true → json_ok (VFloat f)
  | ok_string s : valid_utf8 s → json_ok (VString s)
  | ok_array l : Forall json_ok l → json_ok (VArray l)
  | ok_object ms : NoDup (fst <$> ms) → Forall (λ m, valid_utf8 (fst m)) ms → Forall (λ m, json_ok (snd m)) ms → json_ok (VObject ms).

Section RoundTrip.
Context `{FloatText}.

(** What a document is after it was printed: a double whose text is an integer is
    that integer. *)
Fixpoint canon (v : JValue) : JValue :=
  match v with
  | VFloat f => match Atoi (format_g f) with Some i => VInt i | None => VFloat f end
  | VArray l => VArray (canon <$> l)
  | VObject ms => VObject (prod_map id canon <$> ms)
  | v => v
  end.

(** The texts after the first one, with their commas. *)
Definition tails (texts : list bytes) : bytes := concat ((λ t, 44 :: t) <$> texts).
Lemma join_tails t texts : join [44] (t :: texts) = t ++ tails texts.
Proof.
  revert t. induction texts as [|u texts IH]; intros t; [by rewrite app_nil_r|].
  change (join [44] (t :: u :: texts)) with (t ++ [44] ++ join [44] (u :: texts)). by rewrite IH.
Qed.

Lemma scan_number_head s r rest : scan_number (s ++ rest) = Some (s, r) → s ≠ [] → ∃ c s', s = c :: s' ∧ ((c =? 45) || is_digit c) = true.
Proof.
  intros Hs Hne. destruct s as [|c s]; [done|]. exists c, s. split; [done|]. unfold scan_number in Hs. cbn [app] in Hs.
  destruct (c =? 45) eqn:E; [done|]. cbn [orb]. cbn [mbind option_bind] in Hs. unfold scan_int in Hs.
  destruct (Z.eqb_spec c 48) as [->|Hc]; [done|]. unfold digits1 in Hs. cbn [span_digits] in Hs. by destruct (is_digit c).
Qed.

(** The token of a scalar. *)
Lemma scan_scalar_number t rest : scan_number t = Some (t, []) → t ≠ [] → ends_number rest = true →
  scan_scalar (t ++ rest) = Some (TNumber t, rest).
Proof.
  intros Hs Hne Hr. pose proof (scan_number_app t rest Hs Hr) as Ha. destruct (scan_number_head t rest rest Ha Hne) as (c & s & -> & Hc).
  cbn [app] in *. unfold scan_scalar. assert (c ≠ 34) by (intros ->; done). rewrite (proj2 (Z.eqb_neq c 34)), Hc by done. by rewrite Ha.
Qed.

Lemma scan_scalar_string s rest : valid_utf8 s → scan_scalar (appendString s ++ rest) = Some (TString s, rest).
Proof.
  intros Hs. unfold appendString. fold (escape s). cbn [app]. unfold scan_scalar. change (34 =? 34) with true. cbv iota.
  rewrite <- app_assoc. cbn [app]. rewrite scan_escaped by by apply valid_bytes. cbn. by rewrite unquote_escape.
Qed.

Definition scalar_value (v : JValue) : option Token :=
  match v with
  | VNull => Some TNull | VBool b => Some (TBool b) | VInt i => Some (TNumber (FormatInt i)) | VFloat f => Some (TNumber (format_g f))
  | VString s => Some (TString s) | _ => None
  end.

Lemma number_not_nil t : scan_number t = Some (t, []) → t ≠ [].
Proof. by intros Hs ->. Qed.

Lemma scan_scalar_ser v t rest : json_ok v → scalar_value v = Some t → ends_number rest = true → scan_scalar (Serialize v ++ rest) = Some (t, rest).
Proof.
  intros Hv Ht Hr. destruct Hv as [|b|i Hi|f Hf1 Hf2|s Hs|l Hl|ms Hd Hk Hms]; cbn in Ht; injection Ht as <- || done; cbn [Serialize].
  - done.
  - by destruct b.
  - apply scan_scalar_number; [apply scan_FormatInt|apply number_not_nil, scan_FormatInt|done].
  - pose proof (float_text_number f Hf2) as Hn. apply scan_scalar_number; [done|by apply number_not_nil|done].
  - by apply scan_scalar_string.
Qed.

(** The first byte of a text is neither a space nor a separator nor a closing
    bracket. *)
Definition starts (c : Z) : bool :=
  negb (json_space c || (c =? 58) || (c =? 44) || (c =? 93) || (c =? 125)).

Lemma starts_digit c : ((c =? 45) || is_digit c) = true → starts c = true.
Proof. unfold is_digit, starts, json_space. lia. Qed.

Lemma number_starts t : scan_number t = Some (t, []) → ∃ c s, t = c :: s ∧ starts c = true.
Proof.
  intros Ht. pose proof (number_not_nil t Ht). destruct (scan_number_head t [] []) as (c & s & -> & Hc); [by rewrite app_nil_r|done|].
  exists c, s. split; [done|]. by apply starts_digit.
Qed.

Lemma ser_starts v : json_ok v → ∃ c s, Serialize v = c :: s ∧ starts c = true.
Proof.
  destruct 1 as [|[]|i Hi|f Hf1 Hf2|s Hs|l Hl|ms Hd Hk Hms]; try (by eexists _, _).
  - apply number_starts, scan_FormatInt.
  - by apply number_starts, float_text_number.
Qed.

Lemma token_loop_starts k d c s : starts c = true → d_in d = c :: s → token_loop (S k) d = token_at c s d.
Proof.
  unfold starts. rewrite negb_true_iff, !orb_false_iff. intros [[[[Hs H58] H44] _] _] E. cbn [token_loop]. rewrite E. cbn [skip_space]. rewrite Hs.
  by rewrite H58, H44.
Qed.

Lemma dec_More_starts d c s : d_in d = c :: s → starts c = true → dec_More d = true.
Proof.
  intros E. unfold starts. rewrite negb_true_iff, !orb_false_iff. intros [[[[Hs _] _] H93] H125]. unfold dec_More. rewrite E. cbn [skip_space].
  by rewrite Hs, H93, H125.
Qed.

Lemma json_space_seps : json_space 44 = false ∧ json_space 93 = false ∧ json_space 125 = false ∧ json_space 58 = false ∧ json_space 34 = false.
Proof. done. Qed.

Lemma parse_scalar_token v t : json_ok v → scalar_value v = Some t → ∀ fuel d d', dec_Token d = Some (t, d') → parseValue (S fuel) d = Some (canon v, d').
Proof.
  intros Hv Ht fuel d d' Hd. cbn [parseValue]. rewrite Hd. cbn [mbind option_bind].
  destruct Hv as [|b|i Hi|f Hf1 Hf2|s Hs|l Hl|ms Hn Hk Hms]; cbn in Ht; injection Ht as <- || done; try done.
  - unfold parse_number. by rewrite Atoi_FormatInt.
  - unfold parse_number. cbn [canon]. destruct (Atoi (format_g f)); [done|]. by rewrite float_text_value.
Qed.

(** A text is parsed where a value is allowed, whatever comes before it that the
    token stream skips. *)
Definition parses (v : JValue) : Prop := ∀ d k st stack rest fuel,
  dec_Token d = token_loop (S k) (mkDec (Serialize v ++ rest) st stack) → tokenValueAllowed st = true → ends_number rest = true →
  (2 * length (Serialize v) < fuel)%nat → parseValue fuel d = Some (canon v, mkDec rest (tokenValueEnd st) stack).

Lemma token_at_scalar v t c s st stack rest : json_ok v → scalar_value v = Some t → Serialize v = c :: s → starts c = true →
  tokenValueAllowed st = true → ends_number rest = true →
  token_at c (s ++ rest) (mkDec (Serialize v ++ rest) st stack) = Some (t, mkDec rest (tokenValueEnd st) stack).
Proof.
  intros Hv Ht E Hs Ha Hr. pose proof (scan_scalar_ser v t rest Hv Ht Hr) as Hsc. unfold token_at. cbn [d_state d_stack].
  assert (Hb : (c =? 91) = false ∧ (c =? 93) = false ∧ (c =? 123) = false ∧ (c =? 125) = false).
  { rewrite E in Hsc. cbn [app] in Hsc. rewrite !Z.eqb_neq. split_and!; intros ->; done. }
  destruct Hb as (-> & -> & -> & ->).
  rewrite (bool_decide_eq_false_2 (st = tokenObjectStart ∨ st = tokenObjectKey)) by (intros [->| ->]; done). rewrite andb_false_r, Ha.
  change (c :: s ++ rest) with ((c :: s) ++ rest). by rewrite <- E, Hsc.
Qed.

Lemma parses_scalar v t : json_ok v → scalar_value v = Some t → parses v.
Proof.
  intros Hv Ht d k st stack rest fuel Hd Ha Hr Hf. destruct (ser_starts v Hv) as (c & s & E & Hs). destruct fuel as [|fuel]; [lia|].
  eapply parse_scalar_token; [done|exact Ht|]. rewrite Hd, (token_loop_starts k _ c (s ++ rest)) by (done || by cbn; rewrite E).
  by apply token_at_scalar.
Qed.

(** *** Arrays *)

Lemma tails_cons t texts : tails (t :: texts) = 44 :: t ++ tails texts.
Proof. done. Qed.

Lemma close_array d rest st stack : d = mkDec (93 :: rest) tokenArrayComma (st :: stack) ∨ d = mkDec (93 :: rest) tokenArrayStart (st :: stack) →
  dec_More d = false ∧ dec_Token d = Some (TDelim 93, mkDec rest (tokenValueEnd st) stack).
Proof. by intros [->| ->]. Qed.

Lemma elements_tail l acc st stack rest fuel : Forall json_ok l → Forall parses l →
  (2 * length (tails (Serialize <$> l)) + 2 <= fuel)%nat →
  parse_elements fuel acc (mkDec (tails (Serialize <$> l) ++ 93 :: rest) tokenArrayComma (st :: stack)) =
    Some (VArray (acc ++ (canon <$> l)), mkDec rest (tokenValueEnd st) stack).
Proof.
  intros Hok Hp. revert acc fuel. induction l as [|v l IH]; intros acc fuel Hf; destruct fuel as [|fuel]; try lia; cbn [parse_elements].
  - destruct (close_array (mkDec (93 :: rest) tokenArrayComma (st :: stack)) rest st stack) as [Hm Ht]; [by left|].
    cbn [fmap list_fmap tails concat app]. rewrite Hm, Ht. cbn. by rewrite app_nil_r.
  - apply Forall_cons in Hok as [Hv Hok]. apply Forall_cons in Hp as [Hpv Hp]. rewrite fmap_cons in Hf |- *. rewrite tails_cons in Hf |- *. cbn [app].
    change (dec_More (mkDec (44 :: _) tokenArrayComma (st :: stack))) with true. cbv iota. cbn [length] in Hf. rewrite length_app in Hf.
    rewrite <- app_assoc.
    rewrite (Hpv _ 0%nat tokenArrayValue (st :: stack) (tails (Serialize <$> l) ++ 93 :: rest) fuel); [|done|done|by destruct l|lia].
    cbn [mbind option_bind tokenValueEnd]. rewrite IH by (done || lia). by rewrite <- app_assoc.
Qed.

Lemma parses_array l : Forall json_ok l → Forall parses l → parses (VArray l).
Proof.
  intros Hok Hp d k st stack rest fuel Hd Ha Hr Hf. destruct fuel as [|fuel]; [lia|]. cbn [Serialize app] in Hd. cbn [parseValue].
  assert (Ht : dec_Token d = Some (TDelim 91, mkDec ((join [44] (Serialize <$> l) ++ [93]) ++ rest) tokenArrayStart (st :: stack))).
  { rewrite Hd, (token_loop_starts k _ 91 ((join [44] (Serialize <$> l) ++ [93]) ++ rest)) by done. unfold token_at, open_container. cbn [d_state d_stack]. by rewrite Ha. }
  rewrite Ht. cbn [mbind option_bind]. change (91 =? 123) with false. change (91 =? 91) with true. cbv iota. rewrite <- app_assoc. cbn [app].
  cbn [Serialize length] in Hf. rewrite length_app in Hf. cbn [length] in Hf. destruct l as [|v l].
  - destruct fuel as [|fuel]; [lia|]. cbn [parse_elements fmap list_fmap join app].
    destruct (close_array (mkDec (93 :: rest) tokenArrayStart (st :: stack)) rest st stack) as [-> ->]; [by right|]. done.
  - rewrite fmap_cons, join_tails in Hf |- *. rewrite length_app in Hf. apply Forall_cons in Hok as [Hv Hok]. apply Forall_cons in Hp as [Hpv Hp].
    destruct fuel as [|fuel]; [lia|]. cbn [parse_elements]. rewrite <- app_assoc. destruct (ser_starts v Hv) as (c & s & E & Hs).
    rewrite (dec_More_starts _ c (s ++ tails (Serialize <$> l) ++ 93 :: rest)) by (done || by cbn [d_in]; rewrite E).
    rewrite (Hpv _ 1%nat tokenArrayStart (st :: stack) (tails (Serialize <$> l) ++ 93 :: rest) fuel); [|done|done|by destruct l|lia].
    cbn [mbind option_bind tokenValueEnd app]. rewrite elements_tail by (done || lia). done.
Qed.

(** *** Objects *)

Definition member_text (m : bytes * JValue) : bytes := appendString (fst m) ++ 58 :: Serialize (snd m).

Lemma objSet_new key v ms : key ∉ (fst <$> ms) → objSet key v ms = ms ++ [(key, v)].
Proof.
  intros Hk. unfold objSet, objIndex. destruct (list_find _ ms) as [[i m]|] eqn:E; [|done]. apply list_find_Some in E as (Hi & Hm & _).
  exfalso. apply Hk. rewrite <- Hm. apply list_elem_of_fmap_2. by eapply list_elem_of_lookup_2.
Qed.

(** The token of a key, and the value that follows its colon. *)
Lemma key_token d k st stack key s : dec_Token d = token_loop (S k) (mkDec (appendString key ++ s) st stack) → st = tokenObjectStart ∨ st = tokenObjectKey →
  valid_utf8 key → dec_Token d = Some (TString key, mkDec s tokenObjectColon stack).
Proof.
  intros Hd Hst Hk. rewrite Hd. unfold appendString. cbn [app]. rewrite (token_loop_starts k _ 34 ((escape key ++ [34]) ++ s)) by done.
  unfold token_at. cbn [d_state d_stack]. rewrite (bool_decide_eq_true_2 _ Hst). change (34 =? 34) with true. cbn [andb].
  change (34 =? 91) with false. change (34 =? 93) with false. change (34 =? 123) with false. change (34 =? 125) with false. cbv iota.
  rewrite <- app_assoc. cbn [app]. rewrite scan_escaped by by apply valid_bytes. cbn. by rewrite unquote_escape.
Qed.

Lemma close_object d rest st stack : d = mkDec (125 :: rest) tokenObjectComma (st :: stack) ∨ d = mkDec (125 :: rest) tokenObjectStart (st :: stack) →
  dec_More d = false ∧ dec_Token d = Some (TDelim 125, mkDec rest (tokenValueEnd st) stack).
Proof. by intros [->| ->]. Qed.

Lemma members_tail ms acc st stack rest fuel : NoDup (fst <$> acc ++ ms) → Forall (λ m, valid_utf8 (fst m)) ms →
  Forall (λ m, parses (snd m)) ms → (2 * length (tails (member_text <$> ms)) + 2 <= fuel)%nat →
  parse_members fuel (prod_map id canon <$> acc) (mkDec (tails (member_text <$> ms) ++ 125 :: rest) tokenObjectComma (st :: stack)) =
    Some (VObject (prod_map id canon <$> acc ++ ms), mkDec rest (tokenValueEnd st) stack).
Proof.
  intros Hd Hk Hp. revert acc Hd fuel. induction ms as [|[key v] ms IH]; intros acc Hd fuel Hf; destruct fuel as [|fuel]; try lia; cbn [parse_members].
  - destruct (close_object (mkDec (125 :: rest) tokenObjectComma (st :: stack)) rest st stack) as [Hm Ht]; [by left|].
    cbn [fmap list_fmap tails concat app]. rewrite Hm, Ht. cbn. by rewrite app_nil_r.
  - apply Forall_cons in Hk as [Hkey Hk]. apply Forall_cons in Hp as [Hpv Hp]. cbn [fst snd] in *. rewrite fmap_cons in Hf |- *. rewrite tails_cons in Hf |- *.
    cbn [app]. change (dec_More (mkDec (44 :: _) tokenObjectComma (st :: stack))) with true. cbv iota.
    unfold member_text in Hf at 1 |- * at 1. cbn [fst snd length] in Hf |- *. rewrite !length_app in Hf. cbn [length] in Hf. rewrite <- !app_assoc. cbn [app].
    rewrite (key_token _ 0%nat tokenObjectKey (st :: stack) key (58 :: Serialize v ++ tails (member_text <$> ms) ++ 125 :: rest)); [|done|by right|done].
    cbn [mbind option_bind].
    rewrite (Hpv _ 0%nat tokenObjectValue (st :: stack) (tails (member_text <$> ms) ++ 125 :: rest) fuel); [|done|done|by destruct ms|lia].
    cbn [mbind option_bind tokenValueEnd]. unfold add_member. rewrite objSet_new.
    + assert (Hd' : NoDup (fst <$> (acc ++ [(key, v)]) ++ ms)) by by rewrite <- app_assoc.
      specialize (IH Hk Hp (acc ++ [(key, v)]) Hd' fuel). rewrite fmap_app in IH. cbn in IH.
      rewrite <- app_assoc in IH. cbn in IH. apply IH. lia.
    + rewrite <- list_fmap_compose. rewrite fmap_app in Hd. apply NoDup_app in Hd as (_ & Hd & _). intros Hin. apply (Hd key); [exact Hin|by left].
Qed.

Lemma parses_object ms : NoDup (fst <$> ms) → Forall (λ m, valid_utf8 (fst m)) ms → Forall (λ m, parses (snd m)) ms → parses (VObject ms).
Proof.
  intros Hd Hk Hp d k st stack rest fuel Ht Ha Hr Hf. destruct fuel as [|fuel]; [lia|]. cbn [Serialize app] in Ht. fold member_text in Ht. cbn [parseValue].
  assert (Ht' : dec_Token d = Some (TDelim 123, mkDec ((join [44] (member_text <$> ms) ++ [125]) ++ rest) tokenObjectStart (st :: stack))).
  { rewrite Ht, (token_loop_starts k _ 123 ((join [44] (member_text <$> ms) ++ [125]) ++ rest)) by done. unfold token_at, open_container. cbn [d_state d_stack]. by rewrite Ha. }
  rewrite Ht'. cbn [mbind option_bind]. change (123 =? 123) with true. cbv iota. rewrite <- app_assoc. cbn [app].
  cbn [Serialize length] in Hf. fold member_text in Hf. rewrite length_app in Hf. cbn [length] in Hf. destruct ms as [|[key v] ms].
  - destruct fuel as [|fuel]; [lia|]. cbn [parse_members fmap list_fmap join app].
    destruct (close_object (mkDec (125 :: rest) tokenObjectStart (st :: stack)) rest st stack) as [-> ->]; [by right|]. done.
  - rewrite fmap_cons, join_tails in Hf |- *. rewrite length_app in Hf. apply Forall_cons in Hk as [Hkey Hk]. apply Forall_cons in Hp as [Hpv Hp]. cbn [fst snd] in *.
    destruct fuel as [|fuel]; [lia|]. cbn [parse_members]. change (member_text (key, v)) with (appendString key ++ 58 :: Serialize v) in Hf |- *. rewrite !length_app in Hf. cbn [length] in Hf.
    rewrite <- !app_assoc. cbn [app].
    change (dec_More (mkDec (appendString key ++ _) tokenObjectStart (st :: stack))) with true. cbv iota.
    rewrite (key_token _ 1%nat tokenObjectStart (st :: stack) key (58 :: Serialize v ++ tails (member_text <$> ms) ++ 125 :: rest)); [|done|by left|done].
    cbn [mbind option_bind].
    rewrite (Hpv _ 0%nat tokenObjectValue (st :: stack) (tails (member_text <$> ms) ++ 125 :: rest) fuel); [|done|done|by destruct ms|lia].
    cbn [mbind option_bind tokenValueEnd]. unfold add_member. rewrite objSet_new by set_solver.
    pose proof (members_tail ms [(key, v)] st stack rest fuel Hd Hk Hp) as Hm. cbn in Hm. apply Hm. lia.
Qed.

Lemma ser_parses v : json_ok v → parses v.
Proof.
  induction v as [| | | | |l IH|ms IH] using JValue_ind; intros Hv; try (by eapply parses_scalar).
  - inversion Hv as [| | | | |l' Hl|]; subst. apply parses_array; [done|]. apply Forall_forall. intros v Hin. rewrite Forall_forall in IH, Hl. auto.
  - inversion Hv as [| | | | | |ms' Hd Hk Hms]; subst. apply parses_object; [done|done|]. apply Forall_forall. intros m Hin. rewrite Forall_forall in IH, Hms. auto.
Qed.

Lemma Parse_Serialize (v : JValue) : json_ok v → Parse (Serialize v) = Some (canon v).
Proof.
  intros Hv. unfold Parse, parse_fuel.
  rewrite (ser_parses v Hv (mkDec (Serialize v) tokenTopValue []) 1%nat tokenTopValue [] [] (2 * length (Serialize v) + 2)%nat); [done| |done|done|lia].
  by rewrite app_nil_r.
Qed.

(** C21: A document that is printed and parsed again is the document, with every
    member and element in its place; only a double whose shortest text is an
    integer has become that integer. *)
Theorem json_roundtrip (v : JValue) : json_ok v → Parse (Serialize v) = Some (canon v).
Proof. apply Parse_Serialize. Qed.
End RoundTrip.

(** ** The fuel is enough

    Every token takes at least a byte, so the fuel of [Parse] never runs out:
    more of it gives the same answer, on any input. *)

Lemma skip_space_length s : (length (skip_space s) <= length s)%nat.
Proof. induction s as [|c s IH]; [done|]. cbn [skip_space]. destruct (json_space c); cbn [length]; lia. Qed.

Lemma scan_string_length s b r : scan_string s = Some (b, r) → (length r < length s)%nat.
Proof.
  remember (length s) as n eqn:Hn. revert s b r Hn. induction (lt_wf n) as [n _ IH]. intros s b r -> E.
  destruct s as [|c s1]; [done|]. cbn [scan_string] in E. cbn [length]. destruct (c =? 34); [injection E as _ <-; lia|].
  assert (Hrec : ∀ (f : bytes → bytes) s', (length s' <= length s1)%nat → prod_map f id <$> scan_string s' = Some (b, r) → (length r < S (length s1))%nat).
  { intros f s' Hle H'. destruct (scan_string s') as [[b' r']|] eqn:E'; [|done]. injection H' as _ <-.
    assert (length r' < length s')%nat by (eapply IH; [|done|done]; cbn [length]; lia). lia. }
  destruct (c =? 92); [|destruct (c <? 32); [done|by eapply Hrec; [|exact E]]].
  destruct s1 as [|e s2]; [done|]. destruct (e =? 117).
  - destruct s2 as [|h1 [|h2 [|h3 [|h4 s3]]]]; try done. destruct (is_hex h1 && _ && _ && _); [|done]. eapply Hrec; [|exact E]. cbn [length]. lia.
  - destruct (is_escape e); [|done]. eapply Hrec; [|exact E]. cbn [length]. lia.
Qed.

Lemma span_digits_split s a r : span_digits s = (a, r) → s = a ++ r.
Proof.
  revert a r. induction s as [|c s IH]; intros a r E; cbn [span_digits] in E; [by injection E as <- <-|].
  destruct (is_digit c); [|by injection E as <- <-]. destruct (span_digits s) as [a' r']. injection E as <- <-. by rewrite (IH a' r').
Qed.
Lemma digits1_length s a r : digits1 s = Some (a, r) → (length r < length s)%nat.
Proof.
  unfold digits1. destruct (span_digits s) as [[|c a'] r'] eqn:E; [done|]. intros [= <- <-].
  apply span_digits_split in E as ->. rewrite length_app. cbn [length]. lia.
Qed.
Lemma scan_frac_length s b r : scan_frac s = Some (b, r) → (length r <= length s)%nat.
Proof.
  unfold scan_frac. destruct s as [|c s']; [by intros [= _ <-]|]. destruct (c =? 46); [|by intros [= _ <-]].
  destruct (digits1 s') as [[a' r']|] eqn:E; [|done]. intros [= _ <-]. apply digits1_length in E. cbn [length]. lia.
Qed.
Lemma scan_exp_length s b r : scan_exp s = Some (b, r) → (length r <= length s)%nat.
Proof.
  unfold scan_exp. destruct s as [|c s']; [by intros [= _ <-]|]. destruct (_ || _); [|by intros [= _ <-]]. destruct s' as [|g s'']; [done|].
  destruct (_ || _); [destruct (digits1 s'') as [[a' r']|] eqn:E|destruct (digits1 (g :: s'')) as [[a' r']|] eqn:E]; try done;
    intros [= _ <-]; apply digits1_length in E; cbn [length] in *; lia.
Qed.
Lemma scan_number_length s b r : scan_number s = Some (b, r) → (length r < length s)%nat.
Proof.
  unfold scan_number. set (q := match s with c :: s' => if c =? 45 then ([45], s') else ([], s) | [] => ([], []) end).
  assert (Hq : (length q.2 <= length s)%nat). { subst q. destruct s as [|c s']; [done|]. destruct (c =? 45); cbn [snd length]; lia. }
  destruct q as [sign s0]. cbn [snd] in Hq.
  destruct (scan_int s0) as [[a s1]|] eqn:E1; [|done]. cbn [mbind option_bind].
  destruct (scan_frac s1) as [[b' s2]|] eqn:E2; [|done]. cbn [mbind option_bind].
  destruct (scan_exp s2) as [[e s3]|] eqn:E3; [|done]. cbn [mbind option_bind]. intros [= _ <-].
  apply scan_frac_length in E2. apply scan_exp_length in E3. unfold scan_int in E1. destruct s0 as [|c s0]; [done|].
  destruct (c =? 48); [injection E1 as _ <-; cbn [length] in *; lia|]. apply digits1_length in E1. lia.
Qed.
Lemma scan_scalar_length s t r : scan_scalar s = Some (t, r) → (length r < length s)%nat.
Proof.
  unfold scan_scalar. destruct s as [|c s']; [done|].
  assert (Hw : ∀ w tok, (0 < length w)%nat → scan_word w tok (c :: s') = Some (t, r) → (length r < length (c :: s'))%nat).
  { intros w tok Hw. unfold scan_word. destruct (has_prefix _ _); [|done]. intros [= _ <-]. rewrite length_drop. cbn [length]. lia. }
  destruct (c =? 34); [destruct (scan_string s') as [[b r']|] eqn:E; [|done]; intros [= _ <-]; apply scan_string_length in E; cbn [length]; lia|].
  destruct (_ || _); [destruct (scan_number (c :: s')) as [[b r']|] eqn:E; [|done]; intros [= _ <-]; by apply scan_number_length in E|].
  repeat (destruct (_ =? _); [apply Hw; cbn; lia|]). done.
Qed.

Lemma token_at_length c s' d t d' : token_at c s' d = Some (t, d') → (length (d_in d') < S (length s'))%nat.
Proof.
  unfold token_at, open_container, close_container.
  destruct (c =? 91); [destruct (tokenValueAllowed _); [|done]; intros [= _ <-]; cbn; lia|].
  destruct (c =? 93); [destruct (bool_decide _), (d_stack d); try done; intros [= _ <-]; cbn; lia|].
  destruct (c =? 123); [destruct (tokenValueAllowed _); [|done]; intros [= _ <-]; cbn; lia|].
  destruct (c =? 125); [destruct (bool_decide _), (d_stack d); try done; intros [= _ <-]; cbn; lia|].
  destruct (_ && _); [destruct (scan_string s') as [[b r]|] eqn:E; [|done]; intros [= _ <-]; apply scan_string_length in E; cbn; lia|].
  destruct (tokenValueAllowed _); [|done]. destruct (scan_scalar (c :: s')) as [[t' r]|] eqn:E; [|done]. intros [= _ <-].
  apply scan_scalar_length in E. cbn in *. lia.
Qed.
Lemma dec_Token_length d t d' : dec_Token d = Some (t, d') → (length (d_in d') < length (d_in d))%nat.
Proof.
  unfold dec_Token. generalize 2%nat as fuel. intros fuel. revert d. induction fuel as [|fuel IH]; intros d; [done|]. cbn [token_loop].
  pose proof (skip_space_length (d_in d)) as Hs. destruct (skip_space (d_in d)) as [|c s']; [done|]. cbn [length] in Hs.
  assert (Hrec : ∀ st stk, token_loop fuel (mkDec s' st stk) = Some (t, d') → (length (d_in d') < length (d_in d))%nat).
  { intros st stk E. apply IH in E. cbn [d_in] in E. lia. }
  destruct (c =? 58); [destruct (bool_decide _); [apply Hrec|done]|].
  destruct (c =? 44); [destruct (d_state d); try done; apply Hrec|].
  intros E. apply token_at_length in E. lia.
Qed.

Section Fuel.
Context `{ParseFloat}.

(** A parse consumes the input. *)
Lemma parse_length fuel :
  (∀ d v d', parseValue fuel d = Some (v, d') → (length (d_in d') < length (d_in d))%nat) ∧
  (∀ ms d v d', parse_members fuel ms d = Some (v, d') → (length (d_in d') < length (d_in d))%nat) ∧
  (∀ l d v d', parse_elements fuel l d = Some (v, d') → (length (d_in d') < length (d_in d))%nat).
Proof.
  induction fuel as [|fuel (IHv & IHm & IHl)]; [done|]. split_and!.
  - intros d v d' E. cbn [parseValue] in E. destruct (dec_Token d) as [[t d1]|] eqn:Et; [|done]. apply dec_Token_length in Et. cbn [mbind option_bind] in E.
    destruct t as [c|s|s|b|]; try (injection E as _ <-; lia).
    + destruct (c =? 123); [apply IHm in E; lia|]. destruct (c =? 91); [apply IHl in E; lia|done].
    + destruct (parse_number s) as [w|]; [|done]. injection E as _ <-. lia.
  - intros ms d v d' E. cbn [parse_members] in E. destruct (dec_More d); (destruct (dec_Token d) as [[t d1]|] eqn:Et; [|done]); apply dec_Token_length in Et; cbn [mbind option_bind] in E.
    + destruct t as [c|s|s|b|]; try done. destruct (parseValue fuel d1) as [[w d2]|] eqn:Ev; [|done]. apply IHv in Ev. apply IHm in E. lia.
    + injection E as _ <-. lia.
  - intros l d v d' E. cbn [parse_elements] in E. destruct (dec_More d).
    + destruct (parseValue fuel d) as [[w d2]|] eqn:Ev; [|done]. apply IHv in Ev. apply IHl in E. lia.
    + destruct (dec_Token d) as [[t d1]|] eqn:Et; [|done]. apply dec_Token_length in Et. injection E as _ <-. lia.
Qed.

Lemma parse_fuel_more fuel :
  (∀ d, (2 * length (d_in d) < fuel)%nat → parseValue (S fuel) d = parseValue fuel d) ∧
  (∀ ms d, (2 * length (d_in d) + 1 < fuel)%nat → parse_members (S fuel) ms d = parse_members fuel ms d) ∧
  (∀ l d, (2 * length (d_in d) + 1 < fuel)%nat → parse_elements (S fuel) l d = parse_elements fuel l d).
Proof.
  induction fuel as [|fuel (IHv & IHm & IHl)]; [split_and!; lia|]. pose proof (parse_length fuel) as (Hv & _ & _). split_and!.
  - intros d Hf. cbn [parseValue]. destruct (dec_Token d) as [[t d1]|] eqn:Et; [|done]. apply dec_Token_length in Et. cbn [mbind option_bind].
    destruct t as [c|s|s|b|]; try done. destruct (c =? 123); [apply IHm; lia|]. destruct (c =? 91); [apply IHl; lia|done].
  - intros ms d Hf. cbn [parse_members]. destruct (dec_More d); [|done]. destruct (dec_Token d) as [[t d1]|] eqn:Et; [|done]. apply dec_Token_length in Et. cbn [mbind option_bind].
    destruct t as [c|s|s|b|]; try done. rewrite IHv by lia.
    destruct (parseValue fuel d1) as [[w d2]|] eqn:Ev; [|done]. apply Hv in Ev. cbn [mbind option_bind]. apply IHm. lia.
  - intros l d Hf. cbn [parse_elements]. destruct (dec_More d); [|done]. rewrite IHv by lia.
    destruct (parseValue fuel d) as [[w d2]|] eqn:Ev; [|done]. apply Hv in Ev. cbn [mbind option_bind]. apply IHl. lia.
Qed.

Theorem Parse_fuel_enough data fuel : (parse_fuel data <= fuel)%nat →
  parseValue fuel (mkDec data tokenTopValue []) = parseValue (parse_fuel data) (mkDec data tokenTopValue []).
Proof.
  induction 1 as [|fuel Hle IH]; [done|]. rewrite (proj1 (parse_fuel_more fuel)); [done|]. unfold parse_fuel in Hle. cbn [d_in]. lia.
Qed.
End Fuel.
