(* ===== verification/JsonPath.v ===== *)
(** * JSON paths

    src/redis/json/path.go and filter.go: the grammar of paths and of filter
    expressions, and the matches of a path in a document.  A position in the text
    is what is left of it.  Regular expressions are a parameter, as are reading
    and printing doubles. *)

From Stdlib Require Import SpecFloat.
From S2P Require Import Prelude GoBytes Strconv Floats JsonText.

Local Open Scope Z_scope.

(** [regexp.Compile(pattern)], [None] for an error, then [MatchString]. *)
Class Regexp := regexp_compile : bytes → option (bytes → bool).

(** ** Segments

    A step is a segment of one fixed location; the paths of matches and the
    operands of filters have no others. *)

Inductive step : Type := segKey (key : bytes) | segIndex (idx : Z).
#[global] Instance step_eq_dec : EqDecision step.
Proof. solve_decision. Defined.

(** The bounds that are given. *)
Record sliceSpec := mkSlice { sl_start : option Z; sl_end : option Z; sl_step : option Z }.

(** The literals and the paths into the current element; a comparison with [=~]
    keeps its pattern. *)
Inductive operand : Type := pathOperand (segs : list step) | litOperand (v : JValue).
Inductive predicate : Type :=
  | orPred (l r : predicate)
  | andPred (l r : predicate)
  | existsPred (o : operand)
  | cmpPred (op : bytes) (l r : operand) (re : option bytes).

Inductive segment : Type :=
  | concrete (s : step)
  | segWildcard
  | segSlice (sl : sliceSpec)
  | segUnion (sels : list step)
  | segRecursive
  | segFilter (p : predicate).

Record Path := mkPath { p_JSONPath : bool; p_segs : list segment }.
Definition IsRoot (p : Path) : bool := match p_segs p with [] => true | _ => false end.
Definition isConcrete (p : Path) : bool := forallb (λ s, match s with concrete _ => true | _ => false end) (p_segs p).

(** ** The grammar *)

Fixpoint split_at (stop : Z → bool) (s : bytes) : bytes * bytes :=
  match s with
  | c :: s' => if stop c then ([], s) else prod_map (cons c) id (split_at stop s')
  | [] => ([], [])
  end.

Definition parseName (s : bytes) : option (segment * bytes) :=
  let '(name, rest) := split_at (λ c, (c =? 46) || (c =? 91)) s in
  if beq name [] then None
  else if beq name (str "*") then Some (segWildcard, rest)
  else Some (concrete (segKey name), rest).

Definition is_quote (c : Z) : bool := (c =? 39) || (c =? 34).

(** Up to the closing bracket outside quotes. *)
Fixpoint scan_inner (quote : option Z) (s : bytes) : option (bytes * bytes) :=
  match s with
  | [] => None
  | c :: s' =>
    match quote with
    | Some q => prod_map (cons c) id <$> scan_inner (if c =? q then None else quote) s'
    | None =>
      if c =? 93 then Some ([], s')
      else prod_map (cons c) id <$> scan_inner (if is_quote c then Some c else None) s'
    end
  end.
Definition scanBracketInner (s : bytes) : option (bytes * bytes) := scan_inner None s.

(** The pieces between the occurrences of [c] outside quotes. *)
Fixpoint split_top (quote : option Z) (c : Z) (t : bytes) : bytes * list bytes :=
  match t with
  | [] => ([], [])
  | x :: t' =>
    let quote' := match quote with
                  | Some q => if x =? q then None else quote
                  | None => if is_quote x then Some x else None
                  end in
    if bool_decide (quote = None) && negb (is_quote x) && (x =? c)
    then let '(p, ps) := split_top None c t' in ([], p :: ps)
    else let '(p, ps) := split_top quote' c t' in (x :: p, ps)
  end.
Definition splitTopLevel (t : bytes) (c : Z) : list bytes := let '(p, ps) := split_top None c t in p :: ps.
Definition hasTopLevel (t : bytes) (c : Z) : bool := negb (bool_decide (snd (split_top None c t) = [])).

Definition unquote (t : bytes) : option bytes :=
  match t, last t with
  | q :: body, Some q' => if is_quote q && (q =? q') && (2 <=? len t) then Some (removelast body) else None
  | _, _ => None
  end.

(** [strings.Split(t, ":")]. *)
Fixpoint split_all (c : Z) (t : bytes) : bytes * list bytes :=
  match t with
  | [] => ([], [])
  | x :: t' => let '(p, ps) := split_all c t' in if x =? c then ([], p :: ps) else (x :: p, ps)
  end.

Section Grammar.
Context `{UnicodeCase} `{ParseFloat} `{Regexp}.

(** A bound that is not given stays absent. *)
Definition parse_bound (raw : bytes) : option (option Z) :=
  let raw := TrimSpace raw in
  if beq raw [] then Some None else Some <$> Atoi raw.
Definition parseSlice (t : bytes) : option sliceSpec :=
  match split_all 58 t with
  | (a, ps) =>
    match ps with
    | [] => a ← parse_bound a; Some (mkSlice a None None)
    | [b] => a ← parse_bound a; b ← parse_bound b; Some (mkSlice a b None)
    | [b; c] => a ← parse_bound a; b ← parse_bound b; c ← parse_bound c; Some (mkSlice a b c)
    | _ => None
    end
  end.

Definition parse_selector (raw : bytes) : option step :=
  let raw := TrimSpace raw in
  match unquote raw with
  | Some k => Some (segKey k)
  | None => segIndex <$> Atoi raw
  end.
Definition parseUnion (t : bytes) : option (list step) := mapM parse_selector (splitTopLevel t 44).

Definition classifyBracket (inner : bytes) : option segment :=
  let t := TrimSpace inner in
  if beq t (str "*") then Some segWildcard
  else if hasTopLevel t 58 then segSlice <$> parseSlice t
  else if hasTopLevel t 44 then segUnion <$> parseUnion t
  else match unquote t with
  | Some k => Some (concrete (segKey k))
  | None => concrete ∘ segIndex <$> Atoi t
  end.

(** *** Filter expressions *)

Definition is_blank (c : Z) : bool := (c =? 32) || (c =? 9).
Fixpoint skip_blanks (s : bytes) : bytes := match s with c :: s' => if is_blank c then skip_blanks s' else s | [] => [] end.
Definition consume (tok : bytes) (s : bytes) : option bytes :=
  let s := skip_blanks s in if has_prefix s tok then Some (drop (length tok) s) else None.

Definition filter_ops : list bytes := [str "=="; str "!="; str "<="; str ">="; str "=~"; str "<"; str ">"].
(** The operator, empty when there is none, and what follows. *)
Definition parseOp (s : bytes) : bytes * bytes :=
  let s := skip_blanks s in
  match list_find (λ op, has_prefix s op = true) filter_ops with
  | Some (_, op) => (op, drop (length op) s)
  | None => ([], s)
  end.

Definition isFilterDelim (c : Z) : bool :=
  bool_decide (c ∈ [46; 91; 93; 32; 9; 61; 33; 60; 62; 38; 124; 41; 126]).

Fixpoint parse_steps (fuel : nat) (s : bytes) : option (list step * bytes) :=
  match fuel, s with
  | S fuel', c :: s' =>
    if c =? 46 then
      let '(name, rest) := split_at isFilterDelim s' in
      if beq name [] then None
      else prod_map (cons (segKey name)) id <$> parse_steps fuel' rest
    else if c =? 91 then
      '(inner, rest) ← scanBracketInner s';
      match classifyBracket inner with
      | Some (concrete st) => prod_map (cons st) id <$> parse_steps fuel' rest
      | _ => None
      end
    else Some ([], s)
  | _, _ => Some ([], s)
  end.

(** The body of a literal up to its quote, with whether anything is escaped. *)
Fixpoint scan_literal (q : Z) (s : bytes) : option (bytes * bool * bytes) :=
  match s with
  | [] => None
  | c :: s' =>
    if c =? q then Some ([], false, s')
    else if c =? 92 then
      match s' with
      | e :: s'' => '(body, _, rest) ← scan_literal q s''; Some (c :: e :: body, true, rest)
      | [] => None
      end
    else '(body, esc, rest) ← scan_literal q s'; Some (c :: body, esc, rest)
  end.
(** A single-quoted body as the body of a JSON string. *)
Fixpoint requote (body : bytes) : bytes :=
  match body with
  | [] => []
  | c :: body' =>
    if c =? 92 then
      match body' with
      | e :: body'' => (if e =? 39 then [39] else [92; e]) ++ requote body''
      | [] => [92]
      end
    else if c =? 34 then [92; 34] ++ requote body'
    else c :: requote body'
  end.
Definition decodeFilterString (body : bytes) (q : Z) : option bytes :=
  let body := if q =? 39 then requote body else body in
  match scan_string (body ++ [34]) with
  | Some (b, []) => Some (unquote_body b)
  | _ => None
  end.
Definition parseStringLiteral (q : Z) (s : bytes) : option (operand * bytes) :=
  '(body, escaped, rest) ← scan_literal q s;
  if (escaped : bool) then t ← decodeFilterString body q; Some (litOperand (VString t), rest)
  else Some (litOperand (VString body), rest).

Definition is_number_byte (c : Z) : bool := is_digit c || bool_decide (c ∈ [46; 45; 43; 101; 69]).
Definition parseNumberLiteral (s : bytes) : option (operand * bytes) :=
  let '(tok, rest) := split_at (λ c, negb (is_number_byte c)) s in
  v ← parse_number tok; Some (litOperand v, rest).

Definition parseOperand (s : bytes) : option (operand * bytes) :=
  let s := skip_blanks s in
  match s with
  | [] => None
  | c :: s' =>
    if c =? 64 then prod_map pathOperand id <$> parse_steps (length s) s'
    else if is_quote c then parseStringLiteral c s'
    else if (c =? 45) || (c =? 43) || is_digit c then parseNumberLiteral s
    else if has_prefix s (str "true") then Some (litOperand (VBool true), drop 4 s)
    else if has_prefix s (str "false") then Some (litOperand (VBool false), drop 5 s)
    else if has_prefix s (str "null") then Some (litOperand VNull, drop 4 s)
    else None
  end.

Definition comparison (op : bytes) (l r : operand) : option predicate :=
  if beq op (str "=~") then
    match r with
    | litOperand (VString p) => match regexp_compile p with Some _ => Some (cmpPred op l r (Some p)) | None => None end
    | _ => None
    end
  else Some (cmpPred op l r None).

(** Each call takes a unit of fuel; every second one has consumed a byte. *)
Fixpoint parseOr (fuel : nat) (s : bytes) : option (predicate * bytes) :=
  match fuel with
  | O => None
  | S fuel' => '(l, s) ← parseAnd fuel' s; more_or fuel' l s
  end
with more_or (fuel : nat) (l : predicate) (s : bytes) : option (predicate * bytes) :=
  match fuel with
  | O => None
  | S fuel' =>
    match consume (str "||") s with
    | Some s => '(r, s) ← parseAnd fuel' s; more_or fuel' (orPred l r) s
    | None => Some (l, s)
    end
  end
with parseAnd (fuel : nat) (s : bytes) : option (predicate * bytes) :=
  match fuel with
  | O => None
  | S fuel' => '(l, s) ← parseTerm fuel' s; more_and fuel' l s
  end
with more_and (fuel : nat) (l : predicate) (s : bytes) : option (predicate * bytes) :=
  match fuel with
  | O => None
  | S fuel' =>
    match consume (str "&&") s with
    | Some s => '(r, s) ← parseTerm fuel' s; more_and fuel' (andPred l r) s
    | None => Some (l, s)
    end
  end
with parseTerm (fuel : nat) (s : bytes) : option (predicate * bytes) :=
  match fuel with
  | O => None
  | S fuel' =>
    let s := skip_blanks s in
    match s with
    | 40 :: s' =>
      '(p, s) ← parseOr fuel' s';
      s ← consume (str ")") s; Some (p, s)
    | _ =>
      '(l, s) ← parseOperand s;
      let '(op, s) := parseOp s in
      if beq op [] then Some (existsPred l, s)
      else '(r, s) ← parseOperand s; p ← comparison op l r; Some (p, s)
    end
  end.

Definition parseFilter (s : bytes) : option predicate :=
  '(p, rest) ← parseOr (4 * length s + 8) s;
  match skip_blanks rest with [] => Some p | _ => None end.

(** From behind a parenthesis to the one that closes it, outside quotes. *)
Fixpoint scan_parens (depth : nat) (quote : option Z) (s : bytes) : option (bytes * bytes) :=
  match s with
  | [] => None
  | c :: s' =>
    match quote with
    | Some q =>
      match s' with
      | e :: s'' =>
        if c =? 92 then prod_map (app [c; e]) id <$> scan_parens depth quote s''
        else prod_map (cons c) id <$> scan_parens depth (if c =? q then None else quote) s'
      | [] => None
      end
    | None =>
      if c =? 41 then
        match depth with
        | S (S d) => prod_map (cons c) id <$> scan_parens (S d) None s'
        | _ => Some ([], s')
        end
      else prod_map (cons c) id <$>
             scan_parens (if c =? 40 then S depth else depth) (if is_quote c then Some c else None) s'
    end
  end.
Definition parseFilterBracket (s : bytes) : option (segment * bytes) :=
  match s with
  | 63 :: 40 :: s' =>
    '(body, rest) ← scan_parens 1 None s';
    match rest with
    | 93 :: rest => p ← parseFilter body; Some (segFilter p, rest)
    | _ => None
    end
  | _ => None
  end.

Definition parseBracket (s : bytes) : option (segment * bytes) :=
  match s with
  | [] => None
  | 63 :: _ => parseFilterBracket s
  | _ => '(inner, rest) ← scanBracketInner s; seg ← classifyBracket inner; Some (seg, rest)
  end.

(** A name or a bracket. *)
Definition parse_one (s : bytes) : option (segment * bytes) :=
  match s with 91 :: s' => parseBracket s' | _ => parseName s end.
Fixpoint parse_segs (fuel : nat) (s : bytes) : option (list segment) :=
  match fuel with
  | O => match s with [] => Some [] | _ => None end
  | S fuel' =>
    match s with
    | [] => Some []
    | 46 :: 46 :: s' => '(seg, rest) ← parse_one s'; ([segRecursive; seg] ++.) <$> parse_segs fuel' rest
    | [46] => Some []
    | 46 :: s' => '(seg, rest) ← parse_one s'; cons seg <$> parse_segs fuel' rest
    | _ => '(seg, rest) ← parse_one s; cons seg <$> parse_segs fuel' rest
    end
  end.
Definition ParsePath (s : bytes) : option Path :=
  match s with
  | 36 :: s' => mkPath true <$> parse_segs (length s') s'
  | _ => mkPath false <$> parse_segs (length s) s
  end.
End Grammar.

(** ** Matches *)

Definition normIndex (idx n : Z) : option Z :=
  let idx := if idx <? 0 then idx + n else idx in
  if (idx <? 0) || (n <=? idx) then None else Some idx.

(** [i += step] on 64 bits.  A step that wraps comes back at most once for every
    two elements, so twice the length and a few rounds are enough. *)
Fixpoint count_up (fuel : nat) (i stop step : Z) : list Z :=
  match fuel with
  | O => []
  | S fuel' => if i <? stop then i :: count_up fuel' (i64 (i + step)) stop step else []
  end.
Fixpoint count_down (fuel : nat) (i stop step n : Z) : list Z :=
  match fuel with
  | O => []
  | S fuel' =>
    if stop <? i then
      (if (0 <=? i) && (i <? n) then [i] else []) ++ count_down fuel' (i64 (i + step)) stop step n
    else []
  end.
Definition clamp (v lo hi : Z) : Z := if v <? lo then lo else if hi <? v then hi else v.
(** A given bound counts from the end when negative. *)
Definition slice_bound (b : option Z) (default n lo hi : Z) : Z :=
  match b with Some v => clamp (if v <? 0 then v + n else v) lo hi | None => default end.
Definition sliceIndices (s : sliceSpec) (n : Z) : list Z :=
  let step := default 1 (sl_step s) in
  let fuel := Z.to_nat (2 * n + 8) in
  if step =? 0 then []
  else if 0 <? step then count_up fuel (slice_bound (sl_start s) 0 n 0 n) (slice_bound (sl_end s) n n 0 n) step
  else count_down fuel (slice_bound (sl_start s) (n - 1) n (-1) (n - 1)) (slice_bound (sl_end s) (-1) n (-1) (n - 1)) step n.

(** [v.Arr[i]], which panics out of range. *)
Definition arr_at (l : list JValue) (i : Z) : option JValue := if i <? 0 then None else l !! Z.to_nat i.

(** One step into a value; the index of the step a match reports is not
    negative. *)
Definition follow (s : step) (v : JValue) : option (step * JValue) :=
  match s, v with
  | segKey k, VObject ms => (λ cv, (segKey k, cv)) <$> objGet k ms
  | segIndex i, VArray l => j ← normIndex i (len l); cv ← arr_at l j; Some (segIndex j, cv)
  | _, _ => None
  end.
Definition children (v : JValue) : list (step * JValue) :=
  match v with
  | VObject ms => (λ m, (segKey (fst m), snd m)) <$> ms
  | VArray l => imap (λ i e, (segIndex (Z.of_nat i), e)) l
  | _ => []
  end.

Definition isNumber (v : JValue) : bool := match v with VInt _ | VFloat _ => true | _ => false end.
Definition numAsFloat (v : JValue) : spec_float :=
  match v with VInt i => float64_of i | VFloat f => f | _ => S754_zero false end.

Section Resolve.
Context `{FormatG} `{Regexp}.

Definition valueEqual (a b : JValue) : bool := beq (Serialize a) (Serialize b).

Definition compareValues (op : bytes) (l r : JValue) : bool :=
  if beq op (str "==") then valueEqual l r
  else if beq op (str "!=") then negb (valueEqual l r)
  else if isNumber l && isNumber r then
    let a := numAsFloat l in
    let b := numAsFloat r in
    if beq op (str "<") then SFltb a b
    else if beq op (str "<=") then SFleb a b
    else if beq op (str ">") then SFltb b a
    else if beq op (str ">=") then SFleb b a
    else false
  else match l, r with
  | VString a, VString b =>
    if beq op (str "<") then blt a b
    else if beq op (str "<=") then negb (blt b a)
    else if beq op (str ">") then blt b a
    else if beq op (str ">=") then negb (blt a b)
    else false
  | _, _ => false
  end.

Fixpoint follow_all (segs : list step) (v : JValue) : option JValue :=
  match segs with
  | [] => Some v
  | s :: segs' => '(_, cv) ← follow s v; follow_all segs' cv
  end.
Definition operand_value (o : operand) (cur : JValue) : option JValue :=
  match o with pathOperand segs => follow_all segs cur | litOperand v => Some v end.

Fixpoint test (p : predicate) (cur : JValue) : bool :=
  match p with
  | orPred l r => test l cur || test r cur
  | andPred l r => test l cur && test r cur
  | existsPred o =>
    match operand_value o cur with
    | Some (VBool b) => b
    | None | Some VNull => false
    | Some _ => true
    end
  | cmpPred op l r re =>
    let lv := operand_value l cur in
    let rv := operand_value r cur in
    if beq op (str "=~") then
      match lv, re with
      | Some (VString s), Some p => match regexp_compile p with Some m => m s | None => false end
      | _, _ => false
      end
    else match lv, rv with
    | Some lv, Some rv => compareValues op lv rv
    | None, None => false
    | _, _ => beq op (str "!=")
    end
  end.

(** A location and its value. *)
Definition Match : Type := JValue * list step.

(** The matches of each in turn; [None]: an index is out of range. *)
Fixpoint gather {A} (l : list (option (list A))) : option (list A) :=
  match l with
  | [] => Some []
  | o :: l' => a ← o; b ← gather l'; Some (a ++ b)
  end.

(** At the node and then at every node below it, in order. *)
Fixpoint walk (go : JValue → list step → option (list Match)) (v : JValue) (c : list step) : option (list Match) :=
  here ← go v c;
  below ← match v with
          | VObject ms => gather ((λ m, walk go (snd m) (c ++ [segKey (fst m)])) <$> ms)
          | VArray l =>
            (fix elements (i : nat) (l : list JValue) : option (list Match) :=
               match l with
               | [] => Some []
               | e :: l' => a ← walk go e (c ++ [segIndex (Z.of_nat i)]); b ← elements (S i) l'; Some (a ++ b)
               end) 0%nat l
          | _ => Some []
          end;
  Some (here ++ below).

Fixpoint resolve_from (segs : list segment) (v : JValue) (c : list step) : option (list Match) :=
  match segs with
  | [] => Some [(v, c)]
  | s :: rest =>
    let into (x : step * JValue) := resolve_from rest (snd x) (c ++ [fst x]) in
    match s with
    | concrete st => gather (into <$> option_list (follow st v))
    | segWildcard => gather (into <$> children v)
    | segSlice sl =>
      match v with
      | VArray l => gather ((λ i, cv ← arr_at l i; into (segIndex i, cv)) <$> sliceIndices sl (len l))
      | _ => Some []
      end
    | segUnion sels => gather (into <$> omap (λ st, follow st v) sels)
    | segRecursive => walk (resolve_from rest) v c
    | segFilter p => gather (into <$> filter (λ x, test p (snd x) = true) (children v))
    end
  end.

(** A missing document has no matches. *)
Definition resolveMatches (p : Path) (root : option JValue) : option (list Match) :=
  match root with Some v => resolve_from (p_segs p) v [] | None => Some [] end.
Definition resolve (p : Path) (root : option JValue) : option (list JValue) := (λ l : list Match, fst <$> l) <$> resolveMatches p root.
End Resolve.
