(* ===== verification/JsonTree.v ===== *)
(** * JSON documents in the engine's partitions

    src/redis/json/tree.go and access.go: every container of a document is a
    partition of its own, named by a virtual id, whose ordered elements are the
    members; scalars are text in the element that refers to them.  The messages
    with virtual ids and child references, and the calls that carry them, are
    [JsonEngine]; what the commands rely on is [DocLaws]. *)

From Stdlib Require Import SpecFloat.
From S2P Require Import Prelude GoBytes Strconv Floats Commands Writer Engine Lists JsonText JsonPath.

Local Open Scope Z_scope.

(** ** Messages *)

(** The variants of the value oneof these commands use. *)
Inductive RefValue : Type := RawText (b : bytes) | Child (vid : bytes).

Record NodeData := mkNodeData {
  nd_Op : EffectOp;
  nd_Merge : MergeRule;
  nd_Collection : CollectionKind;
  nd_Placement : Placement;
  nd_Reference : bytes;
  nd_Id : bytes;
  nd_Value : option RefValue
}.
Inductive NodeKind : Type := Node_Data (d : NodeData) | Node_Meta (tag : ValueType) | Node_Noop.
Record NodeEffect := mkNodeEffect { ne_Key : bytes; ne_Virtual : bytes; ne_Kind : NodeKind }.

(** An element of a partition, a partition, and the state of a key: its root
    partition and those it is made of besides. *)
Record NodeElement := mkNodeElement { nl_Id : bytes; nl_Value : RefValue }.
Record Node := mkNode { nr_TypeTag : ValueType; nr_OrderedElements : list NodeElement; nr_Scalar : option bytes }.
Record Document := mkDocument { do_Op : EffectOp; do_Root : Node; do_Partitions : gmap bytes Node }.

(** [GetSnapshot] and [Emit] on such messages. *)
Class JsonEngine `{Engine} := {
  GetDocument : bytes → Ctx → result bytes (option Document * list Tip) * Ctx;
  EmitNode : NodeEffect → list Tip → Ctx → option bytes * Ctx
}.

(** ** Effects *)

Record elemRef := mkRef { er_childVid : bytes; er_scalar : bytes }.
Definition scalarRef (text : bytes) : elemRef := mkRef [] text.
Definition containerRef (vid : bytes) : elemRef := mkRef vid [].
Definition setRefValue (r : elemRef) : RefValue :=
  match er_childVid r with [] => RawText (er_scalar r) | vid => Child vid end.

Definition metaEffect (key vid : bytes) (tag : ValueType) : NodeEffect := mkNodeEffect key vid (Node_Meta tag).
Definition scalarEffect (key vid raw : bytes) : NodeEffect :=
  mkNodeEffect key vid (Node_Data (mkNodeData INSERT_OP LAST_WRITE_WINS SCALAR PLACE_NONE [] [] (Some (RawText raw)))).
Definition insert_data (p : Placement) (reference id : bytes) (r : elemRef) : NodeKind :=
  Node_Data (mkNodeData INSERT_OP LAST_WRITE_WINS ORDERED p reference id (Some (setRefValue r))).
Definition remove_data (id : bytes) : NodeKind := Node_Data (mkNodeData REMOVE_OP MERGE_NONE ORDERED PLACE_SELF [] id None).
Definition delete_data : NodeKind := Node_Data (mkNodeData REMOVE_OP MERGE_NONE SCALAR PLACE_NONE [] [] None).
Definition orderedInsertEffect (key vid id : bytes) (r : elemRef) : NodeEffect :=
  mkNodeEffect key vid (insert_data PLACE_TAIL [] id r).
Definition orderedSelfEffect (key vid id : bytes) (r : elemRef) : NodeEffect :=
  mkNodeEffect key vid (insert_data PLACE_SELF [] id r).
Definition orderedInsertBeforeEffect (key vid id refID : bytes) (r : elemRef) : NodeEffect :=
  mkNodeEffect key vid (insert_data PLACE_BEFORE refID id r).
Definition orderedRemoveEffect (key vid id : bytes) : NodeEffect := mkNodeEffect key vid (remove_data id).
Definition keyDelEffect (key : bytes) : NodeEffect := mkNodeEffect key [] delete_data.

(** ** Reading *)

(** The partition named [vid]; the root is the one without a name. *)
Definition nodeAt (root : Document) (vid : bytes) : option Node :=
  match vid with [] => Some (do_Root root) | _ => do_Partitions root !! vid end.

Section Reading.
Context `{ParseFloat}.

(** The values the elements give; those without one are left out. *)
Fixpoint decode_all {A B} (f : A → option (option B)) (l : list A) : option (list B) :=
  match l with
  | [] => Some []
  | x :: l' => o ← f x; r ← decode_all f l'; Some (option_list o ++ r)
  end.

(** The value of an element, [rec] for the partition it refers to. *)
Definition decode_ref (rec : bytes → option (option JValue)) (e : NodeElement) : option (option JValue) :=
  match nl_Value e with
  | Child (c :: vid) => rec (c :: vid)
  | Child [] => Some None
  | RawText raw => Some (if beq raw [] then None else Parse raw)
  end.

(** A document deeper than it has partitions contains itself: the recursion does
    not end and the stack overflows, [None].  Inside, [None] is a nil value. *)
Fixpoint assemble_at (fuel : nat) (root : Document) (vid : bytes) : option (option JValue) :=
  match fuel with
  | O => None
  | S fuel' =>
    let decodeRef := decode_ref (assemble_at fuel' root) in
    match nodeAt root vid with
    | None => Some None
    | Some p =>
      match nr_TypeTag p with
      | TYPE_JSON_OBJECT =>
        ms ← decode_all (λ e, (λ o : option JValue, pair (nl_Id e) <$> o) <$> decodeRef e) (nr_OrderedElements p);
        Some (Some (VObject ms))
      | TYPE_JSON_ARRAY =>
        l ← decode_all decodeRef (nr_OrderedElements p);
        Some (Some (VArray l))
      | _ => Some (nr_Scalar p ≫= Parse)
      end
    end
  end.
Definition assemble_fuel (root : Document) : nat := S (S (size (do_Partitions root))).
Definition assemble (root : Document) (vid : bytes) : option (option JValue) := assemble_at (assemble_fuel root) root vid.
Definition decodeRef (root : Document) (e : NodeElement) : option (option JValue) := decode_ref (assemble root) e.
(** [assemble(root, "")], nil for a nil root. *)
Definition assemble_root (root : option Document) : option (option JValue) :=
  match root with Some d => assemble d [] | None => Some None end.
End Reading.

Definition isJSONNode (t : ValueType) : bool :=
  bool_decide (t = TYPE_JSON) || bool_decide (t = TYPE_JSON_OBJECT) || bool_decide (t = TYPE_JSON_ARRAY).

(** *** Elements *)

Definition elementByKey (p : Node) (key : bytes) : option NodeElement :=
  snd <$> list_find (λ e, nl_Id e = key) (nr_OrderedElements p).
Definition elementByIndex (p : Node) (idx : Z) : option NodeElement :=
  let n := len (nr_OrderedElements p) in
  let idx := if idx <? 0 then idx + n else idx in
  if (idx <? 0) || (n <=? idx) then None else nr_OrderedElements p !! Z.to_nat idx.
Definition containerChildVid (e : NodeElement) : option bytes :=
  match nl_Value e with Child (c :: vid) => Some (c :: vid) | _ => None end.

(** The element a step names in a partition of the right kind. *)
Definition element_at (p : Node) (s : step) : option NodeElement :=
  match s with
  | segKey k => if bool_decide (nr_TypeTag p = TYPE_JSON_OBJECT) then elementByKey p k else None
  | segIndex i => if bool_decide (nr_TypeTag p = TYPE_JSON_ARRAY) then elementByIndex p i else None
  end.
Fixpoint walk_from (root : Document) (vid : bytes) (p : Node) (segs : list segment) : option (bytes * Node) :=
  match segs with
  | [] => Some (vid, p)
  | concrete s :: segs' =>
    e ← element_at p s;
    vid' ← containerChildVid e;
    p' ← nodeAt root vid';
    walk_from root vid' p' segs'
  | _ :: _ => None
  end.
Definition walkToParent (root : Document) (segs : list segment) : option (bytes * Node) :=
  walk_from root [] (do_Root root) segs.

Section Tree.
Context `{JsonEngine} `{!Clock}.

(** What [getJSONSnapshot] returns. *)
Record DocSnap := mkDocSnap { ds_root : option Document; ds_tips : list Tip; ds_exists : bool; ds_wrongType : bool }.

Definition classify_doc (snap : option Document) (tips : list Tip) : DocSnap :=
  match snap with
  | None => mkDocSnap None tips false false
  | Some d =>
    if bool_decide (do_Op d = REMOVE_OP) then mkDocSnap None tips false false
    else if negb (isJSONNode (nr_TypeTag (do_Root d))) then mkDocSnap None tips true true
    else mkDocSnap snap tips true false
  end.

(** [GetSnapshot] with its error written; [getJSONSnapshot] the same way. *)
Definition get_document (k : bytes) : M (option Document * list Tip) := λ st,
  match GetDocument k (st_ctx st) with
  | (Ok r, c) => (Next r, mkSt c (st_w st) (st_held st))
  | (Err e, c) => (Return, mkSt c (WriteError e (st_w st)) (st_held st))
  end.
Definition getJSONSnapshot (key : bytes) : M DocSnap :=
  '(snap, tips) ← get_document key;
  mret (classify_doc snap tips).

(** ** Writing

    Every caller answers the error of an emit with it and returns. *)
Definition emit_node (e : NodeEffect) (tips : list Tip) : M unit := λ st,
  match EmitNode e tips (st_ctx st) with
  | (None, c) => (Next tt, mkSt c (st_w st) (st_held st))
  | (Some e, c) => (Return, mkSt c (WriteError e (st_w st)) (st_held st))
  end.

(** [newVid]. *)
Definition newVid : M bytes := new_element_id.

(** What is done through an [emitFn]: the tips go with the first effect
    ([tipEmitter]); a plain emitter has none. *)
Definition EM (A : Type) : Type := list Tip → M (A * list Tip).
#[export] Instance EM_ret : MRet EM := λ A a tips, mret (a, tips).
#[export] Instance EM_bind : MBind EM := λ A B f m tips, '(a, tips) ← m tips; f a tips.

Definition em_emit (e : NodeEffect) : EM unit := λ tips, emit_node e tips ≫= λ _, mret (tt, []).
Definition em_new : EM bytes := λ tips, newVid ≫= λ v, mret (v, tips).
Definition em_each {A} (f : A → EM unit) : list A → EM unit :=
  fix go l := match l with [] => mret tt | x :: l' => f x ≫= λ _, go l' end.

Section Encode.
Context `{FormatG}.
Variable key : bytes.

Fixpoint encodeContainer (vid : bytes) (v : JValue) : EM unit :=
  let encodeRef (v : JValue) : EM elemRef :=
    if IsContainer v then
      childVid ← em_new;
      _ ← encodeContainer childVid v;
      mret (containerRef childVid)
    else mret (scalarRef (Serialize v)) in
  match v with
  | VObject ms =>
    _ ← em_emit (metaEffect key vid TYPE_JSON_OBJECT);
    em_each (λ m, ref ← encodeRef (snd m); em_emit (orderedInsertEffect key vid (fst m) ref)) ms
  | VArray l =>
    _ ← em_emit (metaEffect key vid TYPE_JSON_ARRAY);
    em_each (λ e, ref ← encodeRef e; id ← em_new; em_emit (orderedInsertEffect key vid id ref)) l
  | _ => em_emit (metaEffect key vid TYPE_JSON_ARRAY)
  end.
Definition encodeRef (v : JValue) : EM elemRef :=
  if IsContainer v then
    childVid ← em_new;
    _ ← encodeContainer childVid v;
    mret (containerRef childVid)
  else mret (scalarRef (Serialize v)).
Definition encodeRoot (v : JValue) : EM unit :=
  if IsContainer v then encodeContainer [] v
  else _ ← em_emit (metaEffect key [] TYPE_JSON); em_emit (scalarEffect key [] (Serialize v)).

(** The last step of a write: [applied], or not addressable. *)
Definition set_in_parent (parentVid : bytes) (parent : Node) (s : step) (v : JValue) : EM bool :=
  match s with
  | segKey k =>
    if negb (bool_decide (nr_TypeTag parent = TYPE_JSON_OBJECT)) then mret false
    else
      ref ← encodeRef v;
      _ ← match elementByKey parent k with
          | Some _ => em_emit (orderedSelfEffect key parentVid k ref)
          | None => em_emit (orderedInsertEffect key parentVid k ref)
          end;
      mret true
  | segIndex i =>
    if negb (bool_decide (nr_TypeTag parent = TYPE_JSON_ARRAY)) then mret false
    else match elementByIndex parent i with
    | None => mret false
    | Some e =>
      ref ← encodeRef v;
      _ ← em_emit (orderedSelfEffect key parentVid (nl_Id e) ref);
      mret true
    end
  end.

(** [root] is nil only where the key does not exist, and then the path is the
    root in every call. *)
Definition setValueAtPath (root : option Document) (segs : list segment) (v : JValue) (keyExists : bool) : EM bool :=
  match last segs with
  | None =>
    _ ← (if keyExists then em_emit (keyDelEffect key) else mret tt);
    _ ← encodeRoot v;
    mret true
  | Some lst =>
    match root ≫= λ d, walkToParent d (removelast segs) with
    | None => mret false
    | Some (parentVid, parent) =>
      match lst with
      | concrete s => set_in_parent parentVid parent s v
      | _ => mret false
      end
    end
  end.
End Encode.

(** A match: its value and its single location. *)
Definition first_only {A} (p : Path) (l : list A) : list A := if p_JSONPath p then l else take 1 l.
Definition writeTargets `{ParseFloat} `{FormatG} `{Regexp} (root : option Document) (p : Path) : option (list Match) :=
  doc ← assemble_root root;
  ms ← resolveMatches p doc;
  Some (first_only p ms).
End Tree.
