(* ===== verification/JsonCommands.v ===== *)
(** * JSON commands

    src/redis/json/core.go, number.go, array.go, obj.go, str.go, toggle.go,
    resp.go, debug.go and register.go, with the command drivers of access.go. *)

From Stdlib Require Import SpecFloat.
From S2P Require Import Prelude GoBytes Strconv Floats Commands Writer Engine Lists Dispatch JsonText JsonPath JsonTree.

Local Open Scope Z_scope.

(** [math.Pow]. *)
Class MathPow := math_Pow : spec_float → spec_float → spec_float.

(** ** Values *)

Definition is_null (v : JValue) : bool := match v with VNull => true | _ => false end.

(** A merge patch (RFC 7396). *)
Fixpoint mergePatch (target : option JValue) (patch : JValue) : JValue :=
  match patch with
  | VObject ms =>
    VObject (fold_left (λ out m,
               if is_null (snd m) then objDelete (fst m) out
               else objSet (fst m) (mergePatch (objGet (fst m) out) (snd m)) out)
               ms (match target with Some (VObject t) => t | _ => [] end))
  | v => v
  end.

Definition clearValue (v : JValue) : option JValue :=
  match v with
  | VObject _ => Some (VObject [])
  | VArray _ => Some (VArray [])
  | VInt _ => Some (VInt 0)
  | VFloat _ => Some (VFloat (S754_zero false))
  | VNull | VBool _ | VString _ => None
  end.

(** [base ** exp] for a non-negative exponent; 64 bits are 64 rounds. *)
Fixpoint intPow_loop (fuel : nat) (result base exp : Z) : Z :=
  match fuel with
  | O => result
  | S fuel' =>
    if 0 <? exp then
      intPow_loop fuel' (if Z.land exp 1 =? 1 then i64 (result * base) else result) (i64 (base * base)) (Z.shiftr exp 1)
    else result
  end.
Definition intPow (base exp : Z) : Z := intPow_loop 64 1 base exp.

(** The operations, ['+'], ['*'] and ['^']. *)
Inductive NumOp : Type := NumAdd | NumMult | NumPow.

Definition applyNumOp `{MathPow} (op : NumOp) (cur by_ : JValue) : result bytes JValue :=
  match cur, by_ with
  | VInt a, VInt b =>
    match op with
    | NumAdd => Ok (VInt (i64 (a + b)))
    | NumMult => Ok (VInt (i64 (a * b)))
    | NumPow => if b <? 0 then Err (str "ERR numeric overflow") else Ok (VInt (intPow a b))
    end
  | _, _ =>
    let a := numAsFloat cur in
    let b := numAsFloat by_ in
    Ok (VFloat (match op with NumAdd => float_add a b | NumMult => float_mul a b | NumPow => math_Pow a b end))
  end.

Definition scalarFootprint : Z := 8.
Fixpoint jsonSizeOf (v : JValue) : Z :=
  match v with
  | VString s => scalarFootprint + len s
  | VArray l => fold_left (λ size e, size + jsonSizeOf e) l scalarFootprint
  | VObject ms => fold_left (λ size m, size + (scalarFootprint + len (fst m) + jsonSizeOf (snd m))) ms scalarFootprint
  | VNull | VBool _ | VInt _ | VFloat _ => scalarFootprint
  end.

Section Printed.
Context `{FormatG}.

Fixpoint writeRESPValue (v : JValue) (w : Writer) : Writer :=
  match v with
  | VNull => WriteNullBulkString w
  | VBool b => WriteSimpleString (if b then str "true" else str "false") w
  | VInt i => WriteInteger i w
  | VFloat f => WriteBulkString (Serialize (VFloat f)) w
  | VString s => WriteBulkStringStr s w
  | VArray l => fold_left (λ w e, writeRESPValue e w) l (WriteSimpleString (str "[") (WriteArray (len l + 1) w))
  | VObject ms =>
    fold_left (λ w m, writeRESPValue (snd m) (WriteBulkStringStr (fst m) w)) ms
      (WriteSimpleString (str "{") (WriteArray (len ms * 2 + 1) w))
  end.

(** The first place of [needle] from [start] to before [stop]. *)
Definition arrIndexOf (arr : list JValue) (needle : JValue) (start stop : Z) : Z :=
  let n := len arr in
  let s := if start <? 0 then Z.max 0 (start + n) else start in
  let e := if stop =? 0 then n else if stop <? 0 then stop + n else stop in
  let e := Z.min e n in
  match list_find (λ v, beq (Serialize v) (Serialize needle) = true) (drop (Z.to_nat s) (take (Z.to_nat e) arr)) with
  | Some (i, _) => s + Z.of_nat i
  | None => -1
  end.

(** [Serialize] of a value that may be nil. *)
Definition serialize_nil (o : option JValue) : bytes := match o with Some v => Serialize v | None => str "null" end.
End Printed.

(** ** Replies *)

Definition bad_path : bytes := str "ERR invalid path".
Definition bad_json : bytes := str "ERR invalid JSON".
Definition no_key : bytes := str "ERR could not perform this operation on a key that doesn't exist".
Definition errPathNotSet : bytes := str "ERR JSON path could not be set".
Definition not_at_root : bytes := str "ERR new objects must be created at the root".
Definition no_path (pathStr : bytes) : bytes := str "ERR Path '" ++ pathStr ++ str "' does not exist".
Definition expected_type (expected : bytes) (v : JValue) : bytes :=
  str "ERR wrong type of path value - expected " ++ expected ++ str " but found " ++ TypeName v.
Definition notArrayErr (v : JValue) : bytes := expected_type (str "an array") v.
Definition writeWrongType : Writer → Writer := WriteError (str "Existing key has wrong Redis type").

Section Commands.
Context `{JsonEngine} `{!Clock} `{UnicodeCase} `{ParseFloat} `{FormatG} `{Regexp} `{MathPow}.

Definition parse_path (s : bytes) : M Path :=
  match ParsePath s with Some p => mret p | None => reply (WriteError bad_path) end.
Definition parse_json (s : bytes) : M JValue :=
  match Parse s with Some v => mret v | None => reply (WriteError bad_json) end.
(** An argument that is optional. *)
Definition arg_or (default : bytes) (o : option bytes) : bytes := match o with Some a => a | None => default end.

(** The values at a path of the document read. *)
Definition values_at (s : DocSnap) (p : Path) : M (list JValue) :=
  or_panic (doc ← assemble_root (ds_root s); resolve p doc).
Definition targets_of (s : DocSnap) (p : Path) : M (list Match) := or_panic (writeTargets (ds_root s) p).
Definition match_segs (m : Match) : list segment := concrete <$> snd m.

(** A step through an emitter: with the tips of the read on its first effect, or
    a plain one. *)
Definition with_tips {A} (tips : list Tip) (m : EM A) : M A := '(a, _) ← m tips; mret a.
Definition plain {A} (m : EM A) : M A := with_tips [] m.
(** [BeginTx] and the read recorded by a no-op with its tips. *)
Definition begin_doc (key : bytes) (tips : list Tip) : M unit :=
  _ ← begin_tx;
  emit_node (mkNodeEffect key [] Node_Noop) tips.
(** In the transaction, the values at their places. *)
Definition apply_writes (key : bytes) (s : DocSnap) (writes : list (list segment * JValue)) : M unit :=
  _ ← begin_doc key (ds_tips s);
  for_each writes (λ w,
    applied ← plain (setValueAtPath key (ds_root s) (fst w) (snd w) (ds_exists s));
    if (applied : bool) then mret tt else reply (WriteError errPathNotSet)).

(** ** JSON.SET, JSON.MERGE *)

(** Every place in turn, until one cannot be written. *)
Fixpoint set_all (key : bytes) (s : DocSnap) (ws : list (list segment * JValue)) : EM bool :=
  match ws with
  | [] => mret true
  | (segs, v) :: ws' =>
    applied ← setValueAtPath key (ds_root s) segs v (ds_exists s);
    if (applied : bool) then set_all key s ws' else mret false
  end.
Definition reply_applied (applied : bool) : M unit := write (if applied then WriteOK else WriteNullBulkString).

Definition set_runner (key path value : bytes) (nx xx : bool) : M unit :=
  path ← parse_path path;
  newVal ← parse_json value;
  s ← getJSONSnapshot key;
  if ds_wrongType s then reply writeWrongType
  else
    targetExists ← (if ds_exists s && negb (IsRoot path)
                    then vs ← values_at s path; mret (0 <? len vs)
                    else mret (ds_exists s));
    if nx && (targetExists : bool) then reply WriteNullBulkString
    else if xx && negb (targetExists : bool) then reply WriteNullBulkString
    else if negb (ds_exists s) && negb (IsRoot path) then reply (WriteError not_at_root)
    else if isConcrete path then
      applied ← with_tips (ds_tips s) (setValueAtPath key (ds_root s) (p_segs path) newVal (ds_exists s));
      reply_applied applied
    else
      ts ← targets_of s path;
      applied ← with_tips (ds_tips s) (set_all key s ((λ t, (match_segs t, newVal)) <$> ts));
      reply_applied applied.

Definition handleJSONSet (args : list bytes) : Prep :=
  match args with
  | [key; path; value] => Accept [key] (set_runner key path value false false)
  | [key; path; value; opt] =>
    let opt := strings_ToUpper opt in
    if beq opt (str "NX") then Accept [key] (set_runner key path value true false)
    else if beq opt (str "XX") then Accept [key] (set_runner key path value false true)
    else Refuse [] WriteSyntaxError
  | _ => Refuse [] (WriteWrongNumArguments (str "json.set"))
  end.

Definition merge_runner (key path value : bytes) : M unit :=
  path ← parse_path path;
  patch ← parse_json value;
  s ← getJSONSnapshot key;
  if ds_wrongType s then reply writeWrongType
  else if negb (ds_exists s) && negb (IsRoot path) then reply (WriteError not_at_root)
  else if isConcrete path then
    cur ← (if ds_exists s then vs ← values_at s path; mret (head vs) else mret None);
    applied ← with_tips (ds_tips s)
                (setValueAtPath key (ds_root s) (p_segs path) (mergePatch cur patch) (ds_exists s));
    reply_applied applied
  else
    ts ← targets_of s path;
    applied ← with_tips (ds_tips s) (set_all key s ((λ t, (match_segs t, mergePatch (Some (fst t)) patch)) <$> ts));
    reply_applied applied.
Definition handleJSONMerge (args : list bytes) : Prep :=
  match args with
  | [key; path; value] => Accept [key] (merge_runner key path value)
  | _ => Refuse [] (WriteWrongNumArguments (str "json.merge"))
  end.

(** ** JSON.MSET *)

Fixpoint triplets (args : list bytes) : list (bytes * bytes * bytes) :=
  match args with k :: p :: v :: rest => (k, p, v) :: triplets rest | _ => [] end.

Record mset_item := mkItem { it_key : bytes; it_path : Path; it_val : JValue; it_snap : DocSnap }.
Fixpoint mset_items (ts : list (bytes * bytes * bytes)) : M (list mset_item) :=
  match ts with
  | [] => mret []
  | (key, path, value) :: ts' =>
    path ← parse_path path;
    val ← parse_json value;
    s ← getJSONSnapshot key;
    if ds_wrongType s then reply writeWrongType
    else if negb (ds_exists s) && negb (IsRoot path) then reply (WriteError not_at_root)
    else items ← mset_items ts'; mret (mkItem key path val s :: items)
  end.
Definition mset_runner (ts : list (bytes * bytes * bytes)) : M unit :=
  items ← mset_items ts;
  _ ← begin_tx;
  _ ← for_each items (λ it,
        let s := it_snap it in
        _ ← emit_node (mkNodeEffect (it_key it) [] Node_Noop) (ds_tips s);
        applied ← plain (setValueAtPath (it_key it) (ds_root s) (p_segs (it_path it)) (it_val it) (ds_exists s));
        if (applied : bool) then mret tt else reply (WriteError errPathNotSet));
  write WriteOK.
Definition handleJSONMSet (args : list bytes) : Prep :=
  if (len args <? 3) || negb (len args mod 3 =? 0) then Refuse [] (WriteWrongNumArguments (str "json.mset"))
  else Accept ((λ t, fst (fst t)) <$> triplets args) (mset_runner (triplets args)).

(** ** JSON.GET, JSON.MGET *)

Fixpoint get_options (args : list bytes) (o : PrintOpts) (paths : list bytes) : option (PrintOpts * list bytes) :=
  match args with
  | [] => Some (o, paths)
  | a :: rest =>
    let u := strings_ToUpper a in
    if beq u (str "INDENT") then
      match rest with v :: rest' => get_options rest' (mkPrint v (po_Newline o) (po_Space o)) paths | [] => None end
    else if beq u (str "NEWLINE") then
      match rest with v :: rest' => get_options rest' (mkPrint (po_Indent o) v (po_Space o)) paths | [] => None end
    else if beq u (str "SPACE") then
      match rest with v :: rest' => get_options rest' (mkPrint (po_Indent o) (po_Newline o) v) paths | [] => None end
    else get_options rest o (paths ++ [a])
  end.

(** Outside, [None] is a panic; inside, a missing value or a bad path. *)
Definition getValue (doc : option JValue) (ps : bytes) : option (option JValue) :=
  match ParsePath ps with
  | None => Some None
  | Some p =>
    vs ← resolve p doc;
    Some (if p_JSONPath p then Some (VArray vs) else head vs)
  end.
Definition getOne (doc : option JValue) (ps : bytes) (o : PrintOpts) : option (option bytes) :=
  (λ r : option JValue, SerializePretty o <$> r) <$> getValue doc ps.

Fixpoint get_many (anyJSONPath : bool) (doc : option JValue) (ps : list (bytes * Path)) (obj : Members) : M Members :=
  match ps with
  | [] => mret obj
  | (name, p) :: ps' =>
    vs ← or_panic (resolve p doc);
    if anyJSONPath then get_many anyJSONPath doc ps' (objSet name (VArray vs) obj)
    else match vs with
    | [] => reply (WriteError (no_path name))
    | v :: _ => get_many anyJSONPath doc ps' (objSet name v obj)
    end
  end.
Definition get_runner (key : bytes) (args : list bytes) : M unit :=
  match get_options args (mkPrint [] [] []) [] with
  | None => reply WriteSyntaxError
  | Some (opts, paths) =>
    let paths := match paths with [] => [str "$"] | _ => paths end in
    s ← getJSONSnapshot key;
    if negb (ds_exists s) then reply WriteNullBulkString
    else if ds_wrongType s then reply writeWrongType
    else
      doc ← or_panic (assemble_root (ds_root s));
      match paths with
      | [ps] =>
        out ← or_panic (getOne doc ps opts);
        match out with
        | Some out => write (WriteBulkString out)
        | None => reply (WriteError (no_path ps))
        end
      | _ =>
        match mapM ParsePath paths with
        | None => reply (WriteError bad_path)
        | Some parsed =>
          obj ← get_many (existsb p_JSONPath parsed) doc (zip paths parsed) [];
          write (WriteBulkString (SerializePretty opts (VObject obj)))
        end
      end
  end.
Definition handleJSONGet (args : list bytes) : Prep :=
  match args with
  | key :: rest => Accept [key] (get_runner key rest)
  | [] => Refuse [] (WriteWrongNumArguments (str "json.get"))
  end.

(** An error of the read is the reply for its key. *)
Definition mget_one (path key : bytes) : M unit := λ st,
  match GetDocument key (st_ctx st) with
  | (Err e, c) => (Next tt, mkSt c (WriteError e (st_w st)) (st_held st))
  | (Ok (snap, tips), c) =>
    (let s := classify_doc snap tips in
     if negb (ds_exists s) || ds_wrongType s then write WriteNullBulkString
     else
       doc ← or_panic (assemble_root (ds_root s));
       v ← or_panic (getValue doc path);
       write (match v with Some v => WriteBulkString (Serialize v) | None => WriteNullBulkString end))
      (mkSt c (st_w st) (st_held st))
  end.
Definition handleJSONMGet (args : list bytes) : Prep :=
  match last args with
  | Some path =>
    let keys := removelast args in
    if len args <? 2 then Refuse [] (WriteWrongNumArguments (str "json.mget"))
    else Accept keys (_ ← write (WriteArray (len keys)); for_each keys (mget_one path))
  | None => Refuse [] (WriteWrongNumArguments (str "json.mget"))
  end.

(** ** JSON.DEL, JSON.CLEAR, JSON.TYPE *)

(** The partition and the id of the element at a location. *)
Definition removal (d : Document) (t : list step) : option (bytes * bytes) :=
  '(parentVid, parent) ← walkToParent d (concrete <$> removelast t);
  lst ← last t;
  match lst with
  | segKey k => if bool_decide (is_Some (element_at parent lst)) then Some (parentVid, k) else None
  | segIndex i => e ← element_at parent lst; Some (parentVid, nl_Id e)
  end.
Fixpoint del_targets (key : bytes) (d : Document) (ts : list (list step)) (count : Z) : EM Z :=
  match ts with
  | [] => mret count
  | t :: ts' =>
    match removal d t with
    | None => del_targets key d ts' count
    | Some (vid, id) => _ ← em_emit (orderedRemoveEffect key vid id); del_targets key d ts' (count + 1)
    end
  end.
Definition del_runner (key pathStr : bytes) : M unit :=
  path ← parse_path pathStr;
  s ← getJSONSnapshot key;
  if negb (ds_exists s) then reply (WriteInteger 0)
  else if ds_wrongType s then reply writeWrongType
  else if IsRoot path then
    _ ← with_tips (ds_tips s) (em_emit (keyDelEffect key));
    write (WriteInteger 1)
  else
    ts ← targets_of s path;
    count ← match ds_root s with
            | Some d => with_tips (ds_tips s) (del_targets key d (snd <$> ts) 0)
            | None => mret 0
            end;
    write (WriteInteger count).
(** A key and an optional path. *)
Definition key_path (name dflt : bytes) (runner : bytes → bytes → M unit) (args : list bytes) : Prep :=
  match args with
  | [key] => Accept [key] (runner key dflt)
  | [key; path] => Accept [key] (runner key path)
  | _ => Refuse [] (WriteWrongNumArguments name)
  end.
Definition handleJSONDel : list bytes → Prep := key_path (str "json.del") (str "$") del_runner.

Fixpoint clear_targets (key : bytes) (s : DocSnap) (ts : list Match) (count : Z) : EM Z :=
  match ts with
  | [] => mret count
  | t :: ts' =>
    match clearValue (fst t) with
    | None => clear_targets key s ts' count
    | Some v =>
      applied ← setValueAtPath key (ds_root s) (match_segs t) v (ds_exists s);
      clear_targets key s ts' (if (applied : bool) then count + 1 else count)
    end
  end.
Definition clear_runner (key pathStr : bytes) : M unit :=
  path ← parse_path pathStr;
  s ← getJSONSnapshot key;
  if negb (ds_exists s) then reply (WriteInteger 0)
  else if ds_wrongType s then reply writeWrongType
  else
    ts ← targets_of s path;
    count ← with_tips (ds_tips s) (clear_targets key s ts 0);
    write (WriteInteger count).
Definition handleJSONClear : list bytes → Prep := key_path (str "json.clear") (str "$") clear_runner.

Definition type_runner (key pathStr : bytes) : M unit :=
  path ← parse_path pathStr;
  s ← getJSONSnapshot key;
  if negb (ds_exists s) then reply WriteNullBulkString
  else if ds_wrongType s then reply writeWrongType
  else
    vs ← values_at s path;
    if p_JSONPath path then
      _ ← write (WriteArray (len vs));
      for_each vs (λ v, write (WriteBulkString (TypeName v)))
    else match vs with
    | [] => reply WriteNullBulkString
    | v :: _ => write (WriteBulkString (TypeName v))
    end.
Definition handleJSONType : list bytes → Prep := key_path (str "json.type") (str "$") type_runner.

(** ** Drivers *)

Definition write_int_or_null (o : option Z) : M unit :=
  write (match o with Some n => WriteInteger n | None => WriteNullBulkString end).

Definition jsonReadInt (expected : bytes) (fn : JValue → option Z) (key pathStr : bytes) : M unit :=
  path ← parse_path pathStr;
  s ← getJSONSnapshot key;
  if negb (ds_exists s) then reply WriteNullBulkString
  else if ds_wrongType s then reply writeWrongType
  else
    vs ← values_at s path;
    if p_JSONPath path then
      _ ← write (WriteArray (len vs));
      for_each vs (λ v, write_int_or_null (fn v))
    else match vs with
    | [] => reply (WriteError (no_path pathStr))
    | v :: _ =>
      match fn v with
      | Some n => write (WriteInteger n)
      | None => reply (WriteError (expected_type expected v))
      end
    end.

Definition scalarIntWrite (expected : bytes) (fn : JValue → option (JValue * Z)) (key pathStr : bytes) : M unit :=
  path ← parse_path pathStr;
  s ← getJSONSnapshot key;
  if ds_wrongType s then reply writeWrongType
  else if negb (ds_exists s) then reply (WriteError no_key)
  else
    targets ← targets_of s path;
    let writes := omap (λ t : Match, (λ r : JValue * Z, (match_segs t, fst r)) <$> fn (fst t)) targets in
    _ ← match writes with [] => mret tt | _ => apply_writes key s writes end;
    if p_JSONPath path then
      _ ← write (WriteArray (len targets));
      for_each targets (λ t, write_int_or_null (snd <$> fn (fst t)))
    else match targets with
    | [] => reply (WriteError (no_path pathStr))
    | t :: _ =>
      match fn (fst t) with
      | Some (_, n) => write (WriteInteger n)
      | None => reply (WriteError (expected_type expected (fst t)))
      end
    end.

(** ** Strings, booleans, objects *)

Definition str_len (v : JValue) : option Z := match v with VString s => Some (len s) | _ => None end.
Definition handleJSONStrLen : list bytes → Prep :=
  key_path (str "json.strlen") (str "$") (jsonReadInt (str "a string") str_len).

Definition append_to (suffix : bytes) (v : JValue) : option (JValue * Z) :=
  match v with VString s => Some (VString (s ++ suffix), len (s ++ suffix)) | _ => None end.
Definition strappend_runner (key pathStr valArg : bytes) : M unit :=
  match Parse valArg with
  | Some (VString suffix) => scalarIntWrite (str "a string") (append_to suffix) key pathStr
  | _ => reply (WriteError (str "ERR value is not a string"))
  end.
Definition handleJSONStrAppend (args : list bytes) : Prep :=
  match args with
  | [key; value] => Accept [key] (strappend_runner key (str "$") value)
  | [key; path; value] => Accept [key] (strappend_runner key path value)
  | _ => Refuse [] (WriteWrongNumArguments (str "json.strappend"))
  end.

Definition toggled (v : JValue) : option (JValue * Z) :=
  match v with VBool b => Some (VBool (negb b), if negb b then 1 else 0) | _ => None end.
Definition handleJSONToggle (args : list bytes) : Prep :=
  match args with
  | [key; path] => Accept [key] (scalarIntWrite (str "a boolean") toggled key path)
  | _ => Refuse [] (WriteWrongNumArguments (str "json.toggle"))
  end.

Definition obj_len (v : JValue) : option Z := match v with VObject ms => Some (len ms) | _ => None end.
Definition handleJSONObjLen : list bytes → Prep :=
  key_path (str "json.objlen") (str "$") (jsonReadInt (str "an object") obj_len).

Definition writeObjKeys (ms : Members) : M unit :=
  _ ← write (WriteArray (len ms));
  for_each ms (λ m, write (WriteBulkString (fst m))).
Definition objkeys_runner (key pathStr : bytes) : M unit :=
  path ← parse_path pathStr;
  s ← getJSONSnapshot key;
  if negb (ds_exists s) then reply WriteNullArray
  else if ds_wrongType s then reply writeWrongType
  else
    vs ← values_at s path;
    if p_JSONPath path then
      _ ← write (WriteArray (len vs));
      for_each vs (λ v, match v with VObject ms => writeObjKeys ms | _ => write WriteNullArray end)
    else match vs with
    | [] => reply (WriteError (no_path pathStr))
    | VObject ms :: _ => writeObjKeys ms
    | v :: _ => reply (WriteError (expected_type (str "an object") v))
    end.
Definition handleJSONObjKeys : list bytes → Prep := key_path (str "json.objkeys") (str "$") objkeys_runner.

(** ** Numbers *)

(** The new number of each match, null for what is none; and what to write. *)
Fixpoint num_results (op : NumOp) (by_ : JValue) (ts : list Match) : result bytes (list JValue * list (list segment * JValue)) :=
  match ts with
  | [] => Ok ([], [])
  | t :: ts' =>
    if isNumber (fst t) then
      match applyNumOp op (fst t) by_ with
      | Err e => Err e
      | Ok nv =>
        match num_results op by_ ts' with
        | Err e => Err e
        | Ok (out, writes) => Ok (nv :: out, (match_segs t, nv) :: writes)
        end
      end
    else match num_results op by_ ts' with
    | Err e => Err e
    | Ok (out, writes) => Ok (VNull :: out, writes)
    end
  end.
Definition num_runner (op : NumOp) (key pathStr number : bytes) : M unit :=
  path ← parse_path pathStr;
  match Parse number with
  | Some by_ =>
    if negb (isNumber by_) then reply (WriteError (str "ERR value is not a number"))
    else
      s ← getJSONSnapshot key;
      if ds_wrongType s then reply writeWrongType
      else if negb (ds_exists s) then reply (WriteError no_key)
      else
        targets ← targets_of s path;
        match num_results op by_ targets with
        | Err e => reply (WriteError e)
        | Ok (out, writes) =>
          if p_JSONPath path then
            _ ← match writes with [] => mret tt | _ => apply_writes key s writes end;
            write (WriteBulkString (Serialize (VArray out)))
          else match targets with
          | [] => reply (WriteError (no_path pathStr))
          | t :: _ =>
            if negb (isNumber (fst t)) then reply (WriteError (expected_type (str "a number") (fst t)))
            else
              _ ← apply_writes key s writes;
              write (WriteBulkString (serialize_nil (head out)))
          end
        end
  | None => reply (WriteError (str "ERR value is not a number"))
  end.
Definition numBy (op : NumOp) (name : bytes) (args : list bytes) : Prep :=
  match args with
  | [key; path; number] => Accept [key] (num_runner op key path number)
  | _ => Refuse [] (WriteWrongNumArguments name)
  end.
Definition handleJSONNumIncrBy : list bytes → Prep := numBy NumAdd (str "json.numincrby").
Definition handleJSONNumMultBy : list bytes → Prep := numBy NumMult (str "json.nummultby").
Definition handleJSONNumPowBy : list bytes → Prep := numBy NumPow (str "json.numpowby").
(** ** Arrays *)

(** A match, with its partition when it is an array. *)
Record arrTarget := mkArrTarget { at_val : JValue; at_node : option (bytes * Node) }.
Definition arr_target (d : Document) (m : Match) : arrTarget :=
  mkArrTarget (fst m)
    match fst m with
    | VArray _ =>
      '(vid, node) ← walkToParent d (match_segs m);
      if bool_decide (nr_TypeTag node = TYPE_JSON_ARRAY) then Some (vid, node) else None
    | _ => None
    end.
Definition resolveArrays (root : option Document) (p : Path) : option (list arrTarget) :=
  match root with
  | None => Some []
  | Some d => fmap (M:=list) (arr_target d) <$> writeTargets root p
  end.

Definition arr_len (v : JValue) : option Z := match v with VArray l => Some (len l) | _ => None end.
Definition handleJSONArrLen : list bytes → Prep :=
  key_path (str "json.arrlen") (str "$") (jsonReadInt (str "an array") arr_len).

Definition index_in (needle : JValue) (start stop : Z) (v : JValue) : option Z :=
  match v with VArray l => Some (arrIndexOf l needle start stop) | _ => None end.
(** An integer argument, zero when it is not given. *)
Definition int_arg (o : option bytes) : M Z :=
  match o with
  | None => mret 0
  | Some a => match ParseInt64 a with Some n => mret n | None => reply WriteNotInteger end
  end.
Definition arrindex_runner (key pathStr value : bytes) (startArg stopArg : option bytes) : M unit :=
  needle ← parse_json value;
  start ← int_arg startArg;
  stop ← int_arg stopArg;
  jsonReadInt (str "an array") (index_in needle start stop) key pathStr.
Definition handleJSONArrIndex (args : list bytes) : Prep :=
  match args with
  | [key; path; value] => Accept [key] (arrindex_runner key path value None None)
  | [key; path; value; start] => Accept [key] (arrindex_runner key path value (Some start) None)
  | [key; path; value; start; stop] => Accept [key] (arrindex_runner key path value (Some start) (Some stop))
  | _ => Refuse [] (WriteWrongNumArguments (str "json.arrindex"))
  end.

(** What to emit and the reply; an error comes before anything is emitted. *)
Definition arrIntOp : Type := bytes → Node → result bytes (EM unit * Z).

(** [None] for a match that is not an array. *)
Fixpoint plan_all (op : arrIntOp) (ts : list arrTarget) : result bytes (list (option (EM unit * Z))) :=
  match ts with
  | [] => Ok []
  | t :: ts' =>
    match at_node t with
    | None => match plan_all op ts' with Ok ps => Ok (None :: ps) | Err e => Err e end
    | Some (vid, node) =>
      match op vid node with
      | Err e => Err e
      | Ok p => match plan_all op ts' with Ok ps => Ok (Some p :: ps) | Err e => Err e end
      end
    end
  end.
Definition write_arrays (key pathStr : bytes) (path : Path) (s : DocSnap) (op : arrIntOp) : M unit :=
  targets ← or_panic (resolveArrays (ds_root s) path);
  match plan_all op targets with
  | Err e => reply (WriteError e)
  | Ok plans =>
    let applies := fst <$> omap id plans in
    _ ← match applies with
        | [] => mret tt
        | _ => _ ← begin_doc key (ds_tips s); for_each applies plain
        end;
    if p_JSONPath path then
      _ ← write (WriteArray (len targets));
      for_each plans (λ p, write_int_or_null (snd <$> p))
    else match targets, plans with
    | t :: _, Some (_, n) :: _ => write (WriteInteger n)
    | t :: _, _ => reply (WriteError (notArrayErr (at_val t)))
    | [], _ => reply (WriteError (no_path pathStr))
    end
  end.
Definition arrayWriteInt (key pathStr : bytes) (op : arrIntOp) : M unit :=
  path ← parse_path pathStr;
  s ← getJSONSnapshot key;
  if ds_wrongType s then reply writeWrongType
  else if negb (ds_exists s) then reply (WriteError no_key)
  else write_arrays key pathStr path s op.

Definition parseValues (args : list bytes) : M (list JValue) :=
  match mapM Parse args with Some vs => mret vs | None => reply (WriteError bad_json) end.

(** The values in new elements at the end, or before the element [refID]. *)
Definition insert_values (key vid : bytes) (refID : option bytes) (vals : list JValue) : EM unit :=
  em_each (λ v,
    ref ← encodeRef key v;
    id ← em_new;
    em_emit (match refID with
             | None => orderedInsertEffect key vid id ref
             | Some r => orderedInsertBeforeEffect key vid id r ref
             end)) vals.

Definition append_op (key : bytes) (vals : list JValue) : arrIntOp := λ vid node,
  Ok (insert_values key vid None vals, len (nr_OrderedElements node) + len vals).
Definition handleJSONArrAppend (args : list bytes) : Prep :=
  match args with
  | key :: path :: v :: vs =>
    Accept [key] (vals ← parseValues (v :: vs); arrayWriteInt key path (append_op key vals))
  | _ => Refuse [] (WriteWrongNumArguments (str "json.arrappend"))
  end.

Definition insert_op (key : bytes) (idx : Z) (vals : list JValue) : arrIntOp := λ vid node,
  let n := len (nr_OrderedElements node) in
  let i := if idx <? 0 then idx + n else idx in
  if (i <? 0) || (n <? i) then Err (str "ERR index out of range")
  else Ok (insert_values key vid (nl_Id <$> nr_OrderedElements node !! Z.to_nat i) vals, n + len vals).
Definition arrinsert_runner (key path index : bytes) (values : list bytes) : M unit :=
  match ParseInt64 index with
  | None => reply WriteNotInteger
  | Some idx => vals ← parseValues values; arrayWriteInt key path (insert_op key idx vals)
  end.
Definition handleJSONArrInsert (args : list bytes) : Prep :=
  match args with
  | key :: path :: index :: v :: vs => Accept [key] (arrinsert_runner key path index (v :: vs))
  | _ => Refuse [] (WriteWrongNumArguments (str "json.arrinsert"))
  end.

(** The bounds of a trim on [n] elements, and whether nothing is kept. *)
Definition trim_bounds (start stop n : Z) : Z * Z :=
  let s := if start <? 0 then Z.max 0 (start + n) else start in
  let e := if stop <? 0 then stop + n else stop in
  (s, if n <=? e then n - 1 else e).
Definition trim_op (key : bytes) (start stop : Z) : arrIntOp := λ vid node,
  let els := nr_OrderedElements node in
  let n := len els in
  let '(s, e) := trim_bounds start stop n in
  let remove ids := em_each (λ id, em_emit (orderedRemoveEffect key vid id)) ids in
  if (n =? 0) || (n <=? s) || (e <? s) then Ok (remove (nl_Id <$> els), 0)
  else Ok (remove (nl_Id <$> take (Z.to_nat s) els ++ drop (Z.to_nat (e + 1)) els), e - s + 1).
Definition arrtrim_runner (key path startArg stopArg : bytes) : M unit :=
  match ParseInt64 startArg, ParseInt64 stopArg with
  | Some start, Some stop => arrayWriteInt key path (trim_op key start stop)
  | _, _ => reply WriteNotInteger
  end.
Definition handleJSONArrTrim (args : list bytes) : Prep :=
  match args with
  | [key; path; start; stop] => Accept [key] (arrtrim_runner key path start stop)
  | _ => Refuse [] (WriteWrongNumArguments (str "json.arrtrim"))
  end.

(** The element at an index rounded to the ends; none in an empty array. *)
Definition popAt (index : Z) (node : Node) : option NodeElement :=
  let els := nr_OrderedElements node in
  let n := len els in
  let i := if index <? 0 then index + n else index in
  let i := if i <? 0 then 0 else i in
  let i := if n <=? i then n - 1 else i in
  if n =? 0 then None else els !! Z.to_nat i.

(** A popped element: its value, its partition and its id. *)
Record popped := mkPopped { pp_val : option JValue; pp_vid : bytes; pp_id : bytes }.
(** [Some None]: not an array, or an empty one. *)
Definition pop_target (d : option Document) (index : Z) (t : arrTarget) : option (option popped) :=
  match d, at_node t with
  | Some d, Some (vid, node) =>
    match popAt index node with
    | Some e => v ← decodeRef d e; Some (Some (mkPopped v vid (nl_Id e)))
    | None => Some None
    end
  | _, _ => Some None
  end.
Definition write_popped (o : option popped) : M unit :=
  write (match o with Some p => WriteBulkString (serialize_nil (pp_val p)) | None => WriteNullBulkString end).
Definition arrpop_runner (key pathStr : bytes) (indexArg : option bytes) : M unit :=
  index ← match indexArg with None => mret (-1) | Some _ => int_arg indexArg end;
  path ← parse_path pathStr;
  s ← getJSONSnapshot key;
  if ds_wrongType s then reply writeWrongType
  else if negb (ds_exists s) then reply (WriteError no_key)
  else
    targets ← or_panic (resolveArrays (ds_root s) path);
    pops ← or_panic (mapM (pop_target (ds_root s) index) targets);
    _ ← match omap id pops with
        | [] => mret tt
        | ps => _ ← begin_doc key (ds_tips s);
                for_each ps (λ p, emit_node (orderedRemoveEffect key (pp_vid p) (pp_id p)) [])
        end;
    if p_JSONPath path then
      _ ← write (WriteArray (len targets));
      for_each pops write_popped
    else match targets, pops with
    | t :: _, p :: _ =>
      match at_node t with
      | None => reply (WriteError (notArrayErr (at_val t)))
      | Some _ => write_popped p
      end
    | _, _ => reply (WriteError (no_path pathStr))
    end.
Definition handleJSONArrPop (args : list bytes) : Prep :=
  match args with
  | [key] => Accept [key] (arrpop_runner key (str "$") None)
  | [key; path] => Accept [key] (arrpop_runner key path None)
  | [key; path; index] => Accept [key] (arrpop_runner key path (Some index))
  | _ => Refuse [] (WriteWrongNumArguments (str "json.arrpop"))
  end.

(** ** JSON.RESP, JSON.DEBUG *)

Definition resp_runner (key pathStr : bytes) : M unit :=
  path ← parse_path pathStr;
  s ← getJSONSnapshot key;
  if negb (ds_exists s) then reply WriteNullBulkString
  else if ds_wrongType s then reply writeWrongType
  else
    vs ← values_at s path;
    if p_JSONPath path then
      _ ← write (WriteArray (len vs));
      for_each vs (λ v, write (writeRESPValue v))
    else match vs with
    | [] => reply (WriteError (no_path pathStr))
    | v :: _ => write (writeRESPValue v)
    end.
Definition handleJSONResp : list bytes → Prep := key_path (str "json.resp") (str ".") resp_runner.

Definition memory_runner (key pathStr : bytes) : M unit :=
  path ← parse_path pathStr;
  s ← getJSONSnapshot key;
  if ds_wrongType s then reply writeWrongType
  else if negb (ds_exists s) then reply (if p_JSONPath path then WriteArray 0 else WriteInteger 0)
  else
    vs ← values_at s path;
    if p_JSONPath path then
      _ ← write (WriteArray (len vs));
      for_each vs (λ v, write (WriteInteger (jsonSizeOf v)))
    else match vs with
    | [] => reply (WriteError (no_path pathStr))
    | v :: _ => write (WriteInteger (jsonSizeOf v))
    end.
Definition help_runner : M unit :=
  _ ← write (WriteArray 2);
  _ ← write (WriteBulkStringStr (str "MEMORY <key> [path] - reports memory usage"));
  write (WriteBulkStringStr (str "HELP                - this message")).
Definition handleJSONDebug (args : list bytes) : Prep :=
  match args with
  | [] => Refuse [] (WriteWrongNumArguments (str "json.debug"))
  | sub :: rest =>
    let sub := strings_ToUpper sub in
    if beq sub (str "HELP") then Accept [] help_runner
    else if beq sub (str "MEMORY") then key_path (str "json.debug") (str ".") memory_runner rest
    else Refuse [] (WriteError (str "ERR unknown subcommand - try `JSON.DEBUG HELP`"))
  end.

(** ** Registration *)

Definition keysJSONMSet (args : list bytes) : list bytes := (λ t, fst (fst t)) <$> triplets args.
(** [strings.EqualFold(arg, "MEMORY")]: no character outside ASCII folds to one of
    these letters. *)
Definition keysJSONDebug (args : list bytes) : list bytes :=
  match args with
  | sub :: key :: _ => if beq (ascii_lower sub) (str "memory") then [key] else []
  | _ => []
  end.
Definition keyed_read (h : list bytes → Prep) (keys : list bytes → list bytes) : CommandEntry :=
  mkEntry (Some h) None None (Some keys) false false false false.
Definition register_json (ty : CommandType) : option CommandEntry :=
  match ty with
  | CmdJSONGet => Some (keyed_read handleJSONGet KeysFirst)
  | CmdJSONMGet => Some (keyed_read handleJSONMGet KeysAllButLast)
  | CmdJSONType => Some (keyed_read handleJSONType KeysFirst)
  | CmdJSONArrLen => Some (keyed_read handleJSONArrLen KeysFirst)
  | CmdJSONArrIndex => Some (keyed_read handleJSONArrIndex KeysFirst)
  | CmdJSONStrLen => Some (keyed_read handleJSONStrLen KeysFirst)
  | CmdJSONObjKeys => Some (keyed_read handleJSONObjKeys KeysFirst)
  | CmdJSONObjLen => Some (keyed_read handleJSONObjLen KeysFirst)
  | CmdJSONResp => Some (keyed_read handleJSONResp KeysFirst)
  | CmdJSONDebug => Some (keyed_read handleJSONDebug keysJSONDebug)
  | CmdJSONSet => Some (write_entry handleJSONSet KeysFirst)
  | CmdJSONMSet => Some (write_entry handleJSONMSet keysJSONMSet)
  | CmdJSONMerge => Some (write_entry handleJSONMerge KeysFirst)
  | CmdJSONDel => Some (write_entry handleJSONDel KeysFirst)
  | CmdJSONForget => Some (write_entry handleJSONDel KeysFirst)
  | CmdJSONClear => Some (write_entry handleJSONClear KeysFirst)
  | CmdJSONNumIncrBy => Some (write_entry handleJSONNumIncrBy KeysFirst)
  | CmdJSONNumMultBy => Some (write_entry handleJSONNumMultBy KeysFirst)
  | CmdJSONNumPowBy => Some (write_entry handleJSONNumPowBy KeysFirst)
  | CmdJSONArrAppend => Some (write_entry handleJSONArrAppend KeysFirst)
  | CmdJSONArrInsert => Some (write_entry handleJSONArrInsert KeysFirst)
  | CmdJSONArrPop => Some (write_entry handleJSONArrPop KeysFirst)
  | CmdJSONArrTrim => Some (write_entry handleJSONArrTrim KeysFirst)
  | CmdJSONStrAppend => Some (write_entry handleJSONStrAppend KeysFirst)
  | CmdJSONToggle => Some (write_entry handleJSONToggle KeysFirst)
  | _ => None
  end.
End Commands.
