(* ===== verification/JsonTreeProps.v ===== *)
(** * Documents and their partitions

    What the JSON commands rely on ([DocLaws]), and that the partitions of a key
    always form a tree: every container of the document is one partition, none is
    referred to twice, and reading the tree back gives the document.  A document
    encoded is the document read, and the element updates of the commands are
    updates of the document at a location. *)

From Stdlib Require Import SpecFloat.
From S2P Require Import Prelude GoBytes Strconv Floats Commands Writer Engine Lists ListProps JsonText JsonTextProps JsonPath JsonTree.

Local Open Scope Z_scope.
Set Warnings "-register-all".

(** ** The state of a key *)

(** The root partition, none when the key is dead, and the other ones. *)
Record DocState := mkDocState { dc_root : option Node; dc_parts : gmap bytes Node }.

Definition node_get (ds : DocState) (vid : bytes) : option Node :=
  match vid with [] => dc_root ds | _ => dc_parts ds !! vid end.
Definition node_set (ds : DocState) (vid : bytes) (n : Node) : DocState :=
  match vid with [] => mkDocState (Some n) (dc_parts ds) | _ => mkDocState (dc_root ds) (<[vid := n]> (dc_parts ds)) end.

(** What a snapshot shows. *)
Definition shows (ds : DocState) (snap : option Document) : Prop :=
  match dc_root ds with
  | Some n => snap = Some (mkDocument INSERT_OP n (dc_parts ds))
  | None => snap = None ∨ ∃ d, snap = Some d ∧ do_Op d = REMOVE_OP
  end.

Definition is_node_container (n : Node) : bool :=
  bool_decide (nr_TypeTag n = TYPE_JSON_OBJECT ∨ nr_TypeTag n = TYPE_JSON_ARRAY).
Definition find_element (id : bytes) (l : list NodeElement) : option nat := fst <$> list_find (λ e, nl_Id e = id) l.
(** At the end or before another element under a new id, or in its place. *)
Definition insert_element (p : Placement) (ref : bytes) (e : NodeElement) (l : list NodeElement) : option (list NodeElement) :=
  match p, find_element (nl_Id e) l with
  | PLACE_SELF, Some i => Some (<[i := e]> l)
  | PLACE_TAIL, None => Some (l ++ [e])
  | PLACE_BEFORE, None => (λ i, take i l ++ e :: drop i l) <$> find_element ref l
  | _, _ => None
  end.
Definition reduce_data (n : Node) (d : NodeData) : option Node :=
  match nd_Collection d, nd_Op d, nd_Merge d, nd_Value d with
  | SCALAR, INSERT_OP, LAST_WRITE_WINS, Some (RawText raw) =>
    if bool_decide (nr_TypeTag n = TYPE_JSON) then Some (mkNode TYPE_JSON [] (Some raw)) else None
  | ORDERED, INSERT_OP, LAST_WRITE_WINS, Some v =>
    if is_node_container n then
      (λ l, mkNode (nr_TypeTag n) l (nr_Scalar n)) <$>
        insert_element (nd_Placement d) (nd_Reference d) (mkNodeElement (nd_Id d) v) (nr_OrderedElements n)
    else None
  | ORDERED, REMOVE_OP, _, _ =>
    if is_node_container n then
      Some (mkNode (nr_TypeTag n) (filter (λ e, nl_Id e ≠ nd_Id d) (nr_OrderedElements n)) (nr_Scalar n))
    else None
  | _, _, _, _ => None
  end.
(** A tag makes an empty partition, of a key that lives or is made by it; data
    changes a partition, and one that is emptied stays.  [None]: not relied on. *)
Definition reduce_node (ds : DocState) (vid : bytes) (k : NodeKind) : option DocState :=
  match k, node_get ds vid with
  | Node_Noop, _ => Some ds
  | Node_Meta tag, None =>
    if bool_decide (vid = [] ∨ is_Some (dc_root ds)) then Some (node_set ds vid (mkNode tag [] None)) else None
  | Node_Data d, Some n => node_set ds vid <$> reduce_data n d
  | _, _ => None
  end.

(** ** Laws *)

(** A context that answers, what each key holds, and the clock of [ClockLaws].  A
    deleted key keeps no partition it did not have. *)
Class DocLaws `{JsonEngine} `{!Clock} := {
  doc_ok : Ctx → Prop;
  docs : Ctx → bytes → DocState;
  doc_clock : Ctx → Z;
  doc_room : Ctx → nat;
  law_doc_get k c : doc_ok c →
    ∃ snap tips c', GetDocument k c = (Ok (snap, tips), c') ∧ doc_ok c' ∧ shows (docs c k) snap ∧
      (∀ k', docs c' k' = docs c k') ∧ doc_clock c <= doc_clock c' ∧ (doc_room c <= doc_room c')%nat;
  law_doc_emit e tips c : doc_ok c →
    ∃ c', EmitNode e tips c = (None, c') ∧ doc_ok c' ∧ (∀ k, k ≠ ne_Key e → docs c' k = docs c k) ∧
      (∀ ds, reduce_node (docs c (ne_Key e)) (ne_Virtual e) (ne_Kind e) = Some ds → docs c' (ne_Key e) = ds) ∧
      doc_clock c <= doc_clock c' ∧ (doc_room c <= doc_room c')%nat;
  law_doc_delete k tips c : doc_ok c →
    let ds := docs (snd (EmitNode (keyDelEffect k) tips c)) k in
    dc_root ds = None ∧ dc_parts ds ⊆ dc_parts (docs c k);
  law_doc_begin c : doc_ok c →
    doc_ok (BeginTx c) ∧ (∀ k, docs (BeginTx c) k = docs c k) ∧ doc_clock c <= doc_clock (BeginTx c) ∧
    (doc_room c <= doc_room (BeginTx c))%nat;
  law_doc_now c : doc_ok c → doc_room c ≠ 0%nat →
    ∃ t c', HlcClock_Now c = (t, c') ∧ doc_ok c' ∧ (∀ k, docs c' k = docs c k) ∧
      0 <= t < 2 ^ 63 ∧ doc_clock c < t <= doc_clock c' ∧ (Nat.pred (doc_room c) <= doc_room c')%nat
}.

(** ** Trees of partitions *)

Unset Elimination Schemes.
Inductive DTree : Type :=
  | DLeaf (raw : bytes)
  | DNode (vid : bytes) (obj : bool) (kids : list (bytes * DTree)).
Set Elimination Schemes.

Section DTreeInd.
Variable P : DTree → Prop.
Hypothesis Hleaf : ∀ raw, P (DLeaf raw).
Hypothesis Hnode : ∀ vid obj kids, Forall (λ k, P (snd k)) kids → P (DNode vid obj kids).
Fixpoint DTree_ind (t : DTree) : P t :=
  match t with
  | DLeaf raw => Hleaf raw
  | DNode vid obj kids =>
    Hnode vid obj kids ((fix go l := match l return Forall (λ k, P (snd k)) l with
                                     | [] => Forall_nil_2 _
                                     | k :: l => Forall_cons_2 _ k l (DTree_ind (snd k)) (go l)
                                     end) kids)
  end.
End DTreeInd.

Abbreviation Kids := (list (bytes * DTree)).
Definition ref_of (t : DTree) : RefValue := match t with DLeaf raw => RawText raw | DNode vid _ _ => Child vid end.
Definition element_of (k : bytes * DTree) : NodeElement := mkNodeElement (fst k) (ref_of (snd k)).
Definition node_tag (obj : bool) : ValueType := if obj then TYPE_JSON_OBJECT else TYPE_JSON_ARRAY.
Definition node_of (obj : bool) (kids : Kids) : Node := mkNode (node_tag obj) (element_of <$> kids) None.

(** The names of the partitions of a tree. *)
Fixpoint vids (t : DTree) : list bytes :=
  match t with
  | DLeaf _ => []
  | DNode vid _ kids => vid :: concat ((λ k, vids (snd k)) <$> kids)
  end.
Lemma elem_of_vids vid v obj kids : vid ∈ vids (DNode v obj kids) ↔ vid = v ∨ ∃ k, k ∈ kids ∧ vid ∈ vids (snd k).
Proof.
  cbn [vids]. rewrite elem_of_cons. f_equiv. induction kids as [|k kids IH]; cbn.
  - split; [by intros ?%elem_of_nil|]. intros (k & ?%elem_of_nil & _). done.
  - rewrite elem_of_app, IH. split.
    + intros [?|(k' & ? & ?)]; [exists k; split; [by left|done]|exists k'; split; [by right|done]].
    + intros (k' & [->|?]%elem_of_cons & ?); [by left|right; by exists k'].
Qed.
Definition kids_vids (kids : Kids) : list bytes := concat ((λ k, vids (snd k)) <$> kids).
Fixpoint depth (t : DTree) : nat :=
  match t with
  | DLeaf _ => O
  | DNode _ _ kids => S (max_list ((λ k, depth (snd k)) <$> kids))
  end.

Section Trees.
Context `{ParseFloat}.

(** The document a tree stands for. *)
Fixpoint tvalue (t : DTree) : JValue :=
  match t with
  | DLeaf raw => default VNull (Parse raw)
  | DNode _ true kids => VObject ((λ k, (fst k, tvalue (snd k))) <$> kids)
  | DNode _ false kids => VArray ((λ k, tvalue (snd k)) <$> kids)
  end.

(** The tree is laid out in the partitions of a key; [old] holds of the ids drawn
    so far. *)
Inductive laid (old : bytes → Prop) (ds : DocState) : DTree → Prop :=
  | laid_leaf raw v : raw ≠ [] → Parse raw = Some v → IsContainer v = false → laid old ds (DLeaf raw)
  | laid_node vid obj kids :
      node_get ds vid = Some (node_of obj kids) → NoDup (fst <$> kids) →
      (obj = false → Forall old (fst <$> kids)) → Forall (λ k, laid old ds (snd k)) kids →
      laid old ds (DNode vid obj kids).

Lemma laid_frame old ds ds' t :
  (∀ vid, vid ∈ vids t → node_get ds' vid = node_get ds vid) → laid old ds t → laid old ds' t.
Proof.
  induction t as [raw|vid obj kids IH] using DTree_ind; intros Hf Hl; inversion Hl as [? v|? ? ? Hn Hd Ho Hk]; subst; [by econstructor|].
  constructor; [|done|done|].
  - rewrite Hf; [done|]. by left.
  - rewrite Forall_forall in *. intros k Hin. apply IH; [done| |by apply Hk]. intros w Hw. apply Hf. apply elem_of_vids. right. by exists k.
Qed.

Lemma laid_mono (old old' : bytes → Prop) ds t : (∀ id, old id → old' id) → laid old ds t → laid old' ds t.
Proof.
  intros Hi. induction t as [raw|vid obj kids IH] using DTree_ind; intros Hl; inversion Hl as [? v|? ? ? Hn Hd Ho Hk]; subst; [by econstructor|].
  constructor; [done|done| |].
  - intros E. eapply Forall_impl; [by apply Ho|done].
  - rewrite Forall_forall in *. intros k Hin. auto.
Qed.

Lemma laid_dom old ds t vid : laid old ds t → vid ∈ vids t → is_Some (node_get ds vid).
Proof.
  induction t as [raw|v obj kids IH] using DTree_ind; intros Hl; inversion Hl as [? w|? ? ? Hn Hd Ho Hk]; subst; [by intros ?%elem_of_nil|].
  intros [->|(k & Hin & Hv)]%elem_of_vids; [by eexists|]. rewrite Forall_forall in *. by apply (IH k); [|apply Hk|].
Qed.

(** ** Reading a tree *)

Definition doc_of (ds : DocState) (n : Node) : Document := mkDocument INSERT_OP n (dc_parts ds).
Lemma nodeAt_get ds n vid : dc_root ds = Some n → nodeAt (doc_of ds n) vid = node_get ds vid.
Proof. intros E. by destruct vid. Qed.

Lemma decode_all_kids {B} (f : NodeElement → option (option B)) (g : bytes * DTree → B) kids :
  (∀ k, k ∈ kids → f (element_of k) = Some (Some (g k))) → decode_all f (element_of <$> kids) = Some (g <$> kids).
Proof.
  induction kids as [|k kids IH]; intros Hf; [done|]. cbn. rewrite Hf by by left. cbn.
  rewrite IH; [done|]. intros k' Hk'. apply Hf. by right.
Qed.

Lemma assemble_node old ds n fuel vid obj kids : dc_root ds = Some n → laid old ds (DNode vid obj kids) →
  (∀ k, k ∈ kids → decode_ref (assemble_at fuel (doc_of ds n)) (element_of k) = Some (Some (tvalue (snd k)))) →
  assemble_at (S fuel) (doc_of ds n) vid = Some (Some (tvalue (DNode vid obj kids))).
Proof.
  intros Hr Hl Hk. inversion Hl as [|? ? ? Hn]; subst. cbn [assemble_at]. rewrite nodeAt_get, Hn by done. destruct obj; cbn [nr_TypeTag node_of node_tag nr_OrderedElements tvalue].
  - by rewrite (decode_all_kids _ (λ k, (fst k, tvalue (snd k)))) by (intros k Hin; by rewrite Hk).
  - by rewrite (decode_all_kids _ (λ k, tvalue (snd k))) by done.
Qed.

Lemma depth_kid k vid obj kids fuel : k ∈ kids → (depth (DNode vid obj kids) <= S fuel)%nat → (depth (snd k) <= fuel)%nat.
Proof.
  intros Hin Hd. cbn [depth] in Hd. assert (depth (snd k) ∈ (λ k, depth (snd k)) <$> kids) as Hm by by apply (list_elem_of_fmap_2 (λ k, depth (snd k))).
  apply max_list_elem_of_le in Hm. lia.
Qed.

Lemma decode_tree old ds n t : dc_root ds = Some n → laid old ds t → [] ∉ vids t →
  ∀ id fuel, (depth t <= fuel)%nat → decode_ref (assemble_at fuel (doc_of ds n)) (element_of (id, t)) = Some (Some (tvalue t)).
Proof.
  intros Hr. induction t as [raw|vid obj kids IH] using DTree_ind; intros Hl Hv id fuel Hd.
  - inversion Hl as [? v Hne Hp|]; subst. unfold decode_ref. cbn [element_of nl_Value ref_of snd tvalue]. rewrite Hp. by destruct raw.
  - destruct fuel as [|fuel]; [cbn in Hd; lia|]. rewrite elem_of_vids in Hv. destruct vid as [|c vid]; [naive_solver|].
    apply (assemble_node old); [done|done|]. intros k Hk. inversion Hl as [|? ? ? _ _ _ Hks]; subst. rewrite Forall_forall in *.
    destruct k as [id' t']. apply (IH _ Hk); [by apply (Hks _ Hk)|naive_solver|by apply (depth_kid (id', t') _ _ _ _ Hk Hd)].
Qed.

Lemma depth_le t : (depth t <= length (vids t))%nat.
Proof.
  induction t as [raw|vid obj kids IH] using DTree_ind; [done|]. cbn. apply le_n_S. induction kids as [|k kids IHk]; [done|].
  apply Forall_cons in IH as [Hk IH]. cbn. rewrite length_app. specialize (IHk IH). lia.
Qed.

(** The tree of a root partition: its depth is bounded by the partitions there are. *)
Lemma root_depth old ds obj kids : laid old ds (DNode [] obj kids) → NoDup (vids (DNode [] obj kids)) →
  (depth (DNode [] obj kids) <= S (size (dc_parts ds)))%nat.
Proof.
  intros Hl Hd. etrans; [apply depth_le|]. cbn [vids length] in *. apply le_n_S. apply NoDup_cons in Hd as [Hn Hd].
  rewrite <- size_dom. rewrite <- (size_list_to_set (C:=gset bytes)) by done. apply subseteq_size. intros vid Hv.
  rewrite elem_of_list_to_set in Hv. apply elem_of_dom. assert (is_Some (node_get ds vid)) as Hs.
  { apply (laid_dom old _ _ _ Hl). by right. }
  destruct vid; [done|exact Hs].
Qed.

(** What a key holds. *)
Definition represents (old : bytes → Prop) (ds : DocState) (v : JValue) : Prop :=
  (∃ raw, dc_root ds = Some (mkNode TYPE_JSON [] (Some raw)) ∧ Parse raw = Some v ∧ IsContainer v = false) ∨
  (∃ obj kids, laid old ds (DNode [] obj kids) ∧ NoDup (vids (DNode [] obj kids)) ∧ tvalue (DNode [] obj kids) = v).

Lemma root_kids_inner (obj : bool) kids k : NoDup (vids (DNode [] obj kids)) → k ∈ kids → [] ∉ vids (snd k).
Proof.
  cbn [vids]. intros [Hn _]%NoDup_cons Hk Hv. apply Hn. apply list_elem_of_In, in_concat. exists (vids (snd k)).
  rewrite <- !list_elem_of_In. split; [|done]. by apply (list_elem_of_fmap_2 (λ k, vids (snd k))).
Qed.

Lemma assemble_represents old ds n v : dc_root ds = Some n → represents old ds v → assemble (doc_of ds n) [] = Some (Some v).
Proof.
  intros Hr [(raw & Hn & Hp & _)|(obj & kids & Hl & Hd & <-)].
  - rewrite Hn in Hr. injection Hr as <-. unfold assemble, assemble_fuel. cbn [assemble_at nodeAt doc_of do_Root nr_TypeTag nr_Scalar mbind option_bind]. by rewrite Hp.
  - unfold assemble, assemble_fuel. apply (assemble_node old); [done|done|]. intros [id t] Hk. apply (decode_tree old); [done| | |].
    + inversion Hl as [|? ? ? _ _ _ Hks]; subst. rewrite Forall_forall in Hks. by apply (Hks _ Hk).
    + by apply (root_kids_inner obj kids (id, t)).
    + apply (depth_kid (id, t) [] obj kids); [done|]. pose proof (root_depth old ds obj kids Hl Hd). cbn [do_Partitions doc_of] in *. lia.
Qed.
End Trees.

Lemma node_get_set ds vid n w : node_get (node_set ds vid n) w = if decide (w = vid) then Some n else node_get ds w.
Proof.
  destruct (decide (w = vid)) as [->|Hne].
  - destruct vid; [done|]. apply lookup_insert_eq.
  - destruct vid, w; try done. cbn. by rewrite lookup_insert_ne.
Qed.
Lemma node_get_set_eq ds vid n : node_get (node_set ds vid n) vid = Some n.
Proof. rewrite node_get_set. by destruct (decide _). Qed.
Lemma node_get_set_ne ds vid n w : w ≠ vid → node_get (node_set ds vid n) w = node_get ds w.
Proof. rewrite node_get_set. by destruct (decide _). Qed.

Lemma find_element_kids id kids : find_element id (element_of <$> kids) = fst <$> list_find (λ k, fst k = id) kids.
Proof. unfold find_element. rewrite list_find_fmap. unfold compose. cbn. by destruct (list_find _ kids). Qed.
Lemma find_element_new id (kids : Kids) : id ∉ fst <$> kids → find_element id (element_of <$> kids) = None.
Proof.
  intros Hn. rewrite find_element_kids. apply fmap_None, list_find_None, Forall_forall. intros k Hk <-. apply Hn. by apply list_elem_of_fmap_2.
Qed.
Lemma is_container_node obj kids : is_node_container (node_of obj kids) = true.
Proof. apply bool_decide_eq_true_2. destruct obj; [by left|by right]. Qed.

(** ** Steps through an emitter *)
Section Steps.
Context `{DocLaws}.

Definition older (c : Ctx) (id : bytes) : Prop :=
  id ≠ [] ∧ ∀ t, doc_clock c < t → 0 <= t < 2 ^ 63 → id ≠ EncodeElementID t EffectsNodeID.
Lemma older_mono c c' id : doc_clock c <= doc_clock c' → older c id → older c' id.
Proof. intros Hc [Hne Ho]. split; [done|]. intros t Ht. apply Ho. lia. Qed.

(** [m] returns, whatever the tips, writing nothing. *)
Definition esteps {A} (m : EM A) (st : St) (Q : A → Ctx → Prop) : Prop :=
  ∀ tips, ∃ a tips' c', m tips st = (Next (a, tips'), mkSt c' (st_w st) (st_held st)) ∧ doc_ok c' ∧ Q a c'.

Lemma esteps_ret {A} (a : A) st (Q : A → Ctx → Prop) : doc_ok (st_ctx st) → Q a (st_ctx st) → esteps (mret a) st Q.
Proof. intros Hh HQ tips. exists a, tips, (st_ctx st). by destruct st. Qed.
Lemma esteps_bind {A B} (m : EM A) (f : A → EM B) st Q R : esteps m st Q →
  (∀ a c', doc_ok c' → Q a c' → esteps (f a) (mkSt c' (st_w st) (st_held st)) R) → esteps (m ≫= f) st R.
Proof.
  intros Hm Hf tips. destruct (Hm tips) as (a & tips' & c' & E & Hh & HQ). destruct (Hf a c' Hh HQ tips') as (b & tips'' & c'' & E' & Hh' & HR).
  exists b, tips'', c''. split; [|done]. unfold mbind, EM_bind. unfold mbind, M_bind. rewrite E. exact E'.
Qed.
Lemma esteps_weaken {A} (m : EM A) st (Q R : A → Ctx → Prop) : esteps m st Q → (∀ a c', Q a c' → R a c') → esteps m st R.
Proof. intros Hm Hi tips. destruct (Hm tips) as (a & tips' & c' & E & Hh & HQ). exists a, tips', c'. auto. Qed.

Lemma em_assoc {A B C} (m : EM A) (f : A → EM B) (g : B → EM C) tips st : ((m ≫= f) ≫= g) tips st = (m ≫= λ a, f a ≫= g) tips st.
Proof. unfold mbind, EM_bind. unfold mbind, M_bind. destruct (m tips st) as [[[a tips']| | |] st']; try done. Qed.
Lemma esteps_assoc {A B C} (m : EM A) (f : A → EM B) (g : B → EM C) st Q : esteps ((m ≫= f) ≫= g) st Q → esteps (m ≫= λ a, f a ≫= g) st Q.
Proof. intros Hm tips. destruct (Hm tips) as (a & tips' & c' & E & Hr). exists a, tips', c'. by rewrite <- em_assoc. Qed.

Variable key : bytes.

(** Other keys untouched, the clock not set back, at most [n] readings taken. *)
Definition goes (c : Ctx) (n : nat) (c' : Ctx) : Prop :=
  (∀ k, k ≠ key → docs c' k = docs c k) ∧ doc_clock c <= doc_clock c' ∧ (doc_room c <= n + doc_room c')%nat.
Lemma goes_refl c : goes c 0 c.
Proof. by split_and!. Qed.
Lemma goes_trans c c' c'' n m : goes c n c' → goes c' m c'' → goes c (n + m) c''.
Proof. intros (Hd & ? & ?) (Hd' & ? & ?). split_and!; [|lia..]. intros k Hk. by rewrite Hd', Hd. Qed.
Lemma goes_le c c' n m : (n <= m)%nat → goes c n c' → goes c m c'.
Proof. intros Hn (Hd & ? & ?). split_and!; [done|lia..]. Qed.

Lemma esteps_new st : doc_ok (st_ctx st) → doc_room (st_ctx st) ≠ 0%nat →
  esteps em_new st (λ vid c', (∀ id, older (st_ctx st) id → id ≠ vid) ∧ older c' vid ∧
    docs c' key = docs (st_ctx st) key ∧ goes (st_ctx st) 1 c').
Proof.
  intros Hh Hr tips. destruct (law_doc_now _ Hh Hr) as (t & c' & E & Hh' & Hv & Ht & Hc & Hrm).
  exists (EncodeElementID t EffectsNodeID), tips, c'. unfold em_new, newVid, new_element_id, NextHLC, mbind, M_bind. rewrite E.
  split_and!; [done|done| | |done|].
  - intros id [_ Ho] ->. by apply (Ho t); [lia|done|].
  - split; [apply EncodeElementID_ne|]. intros t' Hlt Ht' Heq. apply EncodeElementID_inj in Heq; lia.
  - split_and!; [done|lia..].
Qed.

Lemma emit_node_step e tips st ds : doc_ok (st_ctx st) → ne_Key e = key → reduce_node (docs (st_ctx st) key) (ne_Virtual e) (ne_Kind e) = Some ds →
  ∃ c', emit_node e tips st = (Next tt, mkSt c' (st_w st) (st_held st)) ∧ doc_ok c' ∧ docs c' key = ds ∧ goes (st_ctx st) 0 c'.
Proof.
  intros Hh Hk Hr. destruct (law_doc_emit e tips _ Hh) as (c' & E & Hh' & Ho & Hd & Hc & Hrm). exists c'. unfold emit_node. rewrite E, Hk in *.
  split_and!; [done|done|by apply Hd|]. by split_and!.
Qed.
Lemma esteps_emit e st ds : doc_ok (st_ctx st) → ne_Key e = key → reduce_node (docs (st_ctx st) key) (ne_Virtual e) (ne_Kind e) = Some ds →
  esteps (em_emit e) st (λ _ c', docs c' key = ds ∧ goes (st_ctx st) 0 c').
Proof.
  intros Hh Hk Hr tips. destruct (emit_node_step e tips st ds Hh Hk Hr) as (c' & E & Hh' & Hd & Hg). exists tt, [], c'.
  unfold em_emit, mbind, M_bind. by rewrite E.
Qed.
End Steps.

(** ** Encoding *)

(** The readings of the clock an encoding takes. *)
Fixpoint cost (v : JValue) : nat :=
  let cref (v : JValue) : nat := if IsContainer v then S (cost v) else O in
  match v with
  | VObject ms => foldr (λ m n, (cref (snd m) + n)%nat) O ms
  | VArray l => foldr (λ e n, (S (cref e) + n)%nat) O l
  | _ => O
  end.
Definition cref (v : JValue) : nat := if IsContainer v then S (cost v) else O.

Section Encoding.
Context `{DocLaws} `{FloatText}.
Variable key : bytes.

(** Every partition of the key bears an old name. *)
Definition parts_old (c : Ctx) : Prop := ∀ w, w ≠ [] → is_Some (node_get (docs c key) w) → older c w.

(** A tree has grown where nothing was. *)
Definition grown (c : Ctx) (n : nat) (t : DTree) (c' : Ctx) : Prop :=
  laid (older c') (docs c' key) t ∧ NoDup (vids t) ∧ (∀ w, w ∈ vids t → node_get (docs c key) w = None) ∧
  (∀ w, w ∉ vids t → node_get (docs c' key) w = node_get (docs c key) w) ∧ goes key c n c' ∧ parts_old c'.

Lemma kids_laid old ds vid obj kids k : laid old ds (DNode vid obj kids) → k ∈ kids → laid old ds (snd k).
Proof. intros Hl Hk. inversion Hl as [|? ? ? _ _ _ Hks]; subst. rewrite Forall_forall in Hks. auto. Qed.
Lemma vids_kids_ne vid obj kids k w : NoDup (vids (DNode vid obj kids)) → k ∈ kids → w ∈ vids (snd k) → w ≠ vid.
Proof.
  intros Hd Hk Hw ->. assert (Hv : vid ∈ kids_vids kids).
  { apply list_elem_of_In, in_concat. exists (vids (snd k)). rewrite <- !list_elem_of_In. split; [|done]. by apply (list_elem_of_fmap_2 (λ k, vids (snd k))). }
  cbn [vids] in Hd. by apply NoDup_cons in Hd as [? _].
Qed.

(** A new partition. *)
Lemma esteps_meta vid obj st : doc_ok (st_ctx st) → node_get (docs (st_ctx st) key) vid = None →
  vid = [] ∨ is_Some (dc_root (docs (st_ctx st) key)) → (vid ≠ [] → older (st_ctx st) vid) → parts_old (st_ctx st) →
  esteps (em_emit (metaEffect key vid (node_tag obj))) st (λ _ c', grown (st_ctx st) 0 (DNode vid obj []) c').
Proof.
  intros Hh Hn Hl Ho Hp. eapply esteps_weaken.
  { apply (esteps_emit key _ _ (node_set (docs (st_ctx st) key) vid (node_of obj []))); [done|done|]. cbn [ne_Virtual ne_Kind metaEffect reduce_node].
    rewrite Hn. by rewrite bool_decide_eq_true_2. }
  cbv beta. intros _ c' [Hd Hg]. split_and!; [| | | |done|].
  - constructor; [by rewrite Hd, node_get_set_eq|constructor|by constructor|by constructor].
  - apply NoDup_singleton.
  - by intros w ->%list_elem_of_singleton.
  - intros w Hw. rewrite Hd. apply node_get_set_ne. intros ->. apply Hw. by left.
  - intros w Hne Hs. destruct Hg as (_ & Hc & _). apply (older_mono (st_ctx st)); [done|]. rewrite Hd, node_get_set in Hs.
    destruct (decide (w = vid)) as [->|]; [by apply Ho|by apply Hp].
Qed.

(** The partition [vid] was given the elements [final]; [new] are those whose
    trees have grown since. *)
Definition planted (vid : bytes) (obj : bool) (c : Ctx) (n : nat) (new final : Kids) (c' : Ctx) : Prop :=
  node_get (docs c' key) vid = Some (node_of obj final) ∧ Forall (λ k, laid (older c') (docs c' key) (snd k)) new ∧
  NoDup (vid :: kids_vids new) ∧ (∀ w, w ∈ kids_vids new → node_get (docs c key) w = None) ∧
  (∀ w, w ≠ vid → w ∉ kids_vids new → node_get (docs c' key) w = node_get (docs c key) w) ∧ goes key c n c' ∧ parts_old c'.

Lemma elem_of_kids_vids w kids : w ∈ kids_vids kids ↔ ∃ k, k ∈ kids ∧ w ∈ vids (snd k).
Proof.
  unfold kids_vids. rewrite list_elem_of_In, in_concat. split.
  - intros (l & Hl & Hw). rewrite <- list_elem_of_In in Hl. rewrite <- list_elem_of_In in Hw. apply list_elem_of_fmap in Hl as (k & -> & Hk). by exists k.
  - intros (k & Hk & Hw). exists (vids (snd k)). rewrite <- !list_elem_of_In. split; [|done]. by apply (list_elem_of_fmap_2 (λ k, vids (snd k))).
Qed.

Lemma planted_refl vid obj c kids : node_get (docs c key) vid = Some (node_of obj kids) → parts_old c → planted vid obj c 0 [] kids c.
Proof. intros Hn Hp. split_and!; [done|done|apply NoDup_singleton|by intros w ?%elem_of_nil|done|apply goes_refl|done]. Qed.

Lemma planted_node vid obj c c1 c2 n m new final final' : planted vid obj c n new final c1 →
  docs c2 key = node_set (docs c1 key) vid (node_of obj final') → goes key c1 m c2 → planted vid obj c (n + m) new final' c2.
Proof.
  intros (Hv & Hl & Hd & Hn & Hf & Hg & Hp) Hd2 Hg2. pose proof Hg2 as (_ & Hc & _). apply NoDup_cons in Hd as Hd'. destruct Hd' as [Hvn _].
  split_and!; [by rewrite Hd2, node_get_set_eq| |done|done| |by eapply goes_trans|].
  - rewrite Forall_forall in *. intros k Hk. apply (laid_mono (older c1)); [by intros x; apply older_mono|]. apply (laid_frame _ (docs c1 key)); [|by apply Hl].
    intros w Hw. rewrite Hd2. apply node_get_set_ne. intros ->. apply Hvn, elem_of_kids_vids. by exists k.
  - intros w Hw Hw'. rewrite Hd2, node_get_set_ne by done. by apply Hf.
  - intros w Hne Hs. apply (older_mono c1); [done|]. apply Hp; [done|]. rewrite Hd2, node_get_set in Hs. by destruct (decide (w = vid)) as [->|]; [rewrite Hv|].
Qed.

(** A tree grown beside them, still to be referred to. *)
Lemma planted_grown vid obj c c1 c2 n m new final id t : planted vid obj c n new final c1 → grown c1 m t c2 →
  planted vid obj c (n + m) (new ++ [(id, t)]) final c2.
Proof.
  intros (Hv & Hl & Hd & Hn & Hf & Hg & Hp) (Hl2 & Hd2 & Hn2 & Hf2 & Hg2 & Hp2). pose proof Hg2 as (_ & Hc & _).
  assert (Hdis : ∀ w, is_Some (node_get (docs c1 key) w) → w ∉ vids t) by (intros w [x Hx] Hw; by rewrite (Hn2 w Hw) in Hx).
  assert (Hnew : ∀ w, w ∈ kids_vids new → w ∉ vids t).
  { intros w (k & Hk & Hw)%elem_of_kids_vids. apply Hdis. rewrite Forall_forall in Hl. by apply (laid_dom _ _ _ _ (Hl k Hk)). }
  assert (Hvt : vid ∉ vids t) by (apply Hdis; by rewrite Hv).
  assert (Hkv : kids_vids (new ++ [(id, t)]) = kids_vids new ++ vids t) by (unfold kids_vids; rewrite fmap_app, concat_app; cbn; by rewrite app_nil_r).
  unfold planted. rewrite Hkv. split_and!.
  - by rewrite Hf2.
  - apply Forall_app. split; [|by constructor]. rewrite Forall_forall in *. intros k Hk. apply (laid_mono (older c1)); [by intros x; apply older_mono|].
    apply (laid_frame _ (docs c1 key)); [|by apply Hl]. intros w Hw. apply Hf2, Hnew, elem_of_kids_vids. by exists k.
  - rewrite app_comm_cons. apply NoDup_app. split_and!; [done| |done]. intros w [->|Hw]%elem_of_cons; [done|by apply Hnew].
  - intros w [Hw|Hw]%elem_of_app; [by apply Hn|]. rewrite <- Hf; [by apply Hn2|by intros ->|]. intros Hw'. by apply (Hnew w).
  - intros w Hw [Hw1 Hw2]%not_elem_of_app. by rewrite Hf2, Hf.
  - by eapply goes_trans.
  - done.
Qed.

Lemma planted_root vid obj c n new final c' : planted vid obj c n new final c' → vid = [] ∨ is_Some (dc_root (docs c key)) → is_Some (dc_root (docs c' key)).
Proof.
  intros (Hv & Hl & _ & _ & Hf & _) Hr. change (is_Some (node_get (docs c' key) [])).
  destruct (decide ([] = vid)) as [<-|Hne]; [by rewrite Hv|]. destruct (decide ([] ∈ kids_vids new)) as [(k & Hk & Hw)%elem_of_kids_vids|Hni].
  - rewrite Forall_forall in Hl. by apply (laid_dom _ _ _ _ (Hl k Hk)).
  - rewrite Hf by done. destruct Hr as [->|Hr]; [done|exact Hr].
Qed.

(** Trees planted in a new partition: one tree has grown. *)
Lemma grown_planted vid obj c c1 c2 n m new : grown c n (DNode vid obj []) c1 → planted vid obj c1 m new new c2 →
  NoDup (fst <$> new) → (obj = false → Forall (older c2) (fst <$> new)) → grown c (n + m) (DNode vid obj new) c2.
Proof.
  intros (Hl1 & Hd1 & Hn1 & Hf1 & Hg1 & Hp1) (Hv & Hl & Hd & Hn & Hf & Hg & Hp) Hnd Hold. unfold grown. change (vids (DNode vid obj new)) with (vid :: kids_vids new).
  assert (Hvs : ∀ w, w ∉ vids (DNode vid obj []) ↔ w ≠ vid) by (intros w; cbn; by rewrite list_elem_of_singleton).
  split_and!; [by constructor|done| | |by eapply goes_trans|done].
  - intros w [->|Hw]%elem_of_cons; [by apply Hn1; left|]. destruct (decide (w = vid)) as [->|Hne]; [by apply Hn1; left|].
    rewrite <- Hf1; [by apply Hn|by apply Hvs].
  - intros w [Hw Hw']%not_elem_of_cons. rewrite Hf by done. by apply Hf1, Hvs.
Qed.

Lemma grown_later c n t c' m c'' : grown c n t c' → docs c'' key = docs c' key → goes key c' m c'' → grown c (n + m) t c''.
Proof.
  intros (Hl & Hd & Hn & Hf & Hg & Hp) He Hg'. pose proof Hg' as (_ & Hc & _). split_and!; [|done|done| |by eapply goes_trans|].
  - rewrite He. apply (laid_mono (older c')); [|done]. intros x. by apply older_mono.
  - intros w Hw. rewrite He. by apply Hf.
  - intros w Hne Hs. apply (older_mono c'); [done|]. apply Hp; [done|]. by rewrite <- He.
Qed.

Lemma grown_root c n t c' : grown c n t c' → [] ∈ vids t ∨ is_Some (dc_root (docs c key)) → is_Some (dc_root (docs c' key)).
Proof.
  intros (Hl & _ & _ & Hf & _). destruct (decide ([] ∈ vids t)) as [Hin|Hni]; [intros _; by apply (laid_dom _ _ _ _ Hl Hin)|].
  intros [?|Hs]; [done|]. change (is_Some (node_get (docs c' key) [])). by rewrite Hf.
Qed.

(** An insertion at the end, or before the element [refID]. *)
Definition insert_effect (vid : bytes) (refID : option bytes) (id : bytes) (ref : elemRef) : NodeEffect :=
  match refID with
  | None => orderedInsertEffect key vid id ref
  | Some r => orderedInsertBeforeEffect key vid id r ref
  end.
(** The place [refID] names: what comes after it. *)
Definition placed (refID : option bytes) (post : Kids) : Prop :=
  match refID, post with None, [] => True | Some r, (r', _) :: _ => r = r' | _, _ => False end.

Lemma list_find_middle id t (pre post : Kids) : id ∉ fst <$> pre → list_find (λ k, fst k = id) (pre ++ (id, t) :: post) = Some (length pre, (id, t)).
Proof.
  intros Hn. apply list_find_Some. split_and!; [|done|].
  - rewrite lookup_app_r by done. by rewrite Nat.sub_diag.
  - intros j k Hk Hj <-. rewrite lookup_app_l in Hk by done. apply Hn. apply list_elem_of_lookup_2 in Hk. by apply list_elem_of_fmap_2.
Qed.

Lemma reduce_insert ds vid obj pre post refID id ref t : node_get ds vid = Some (node_of obj (pre ++ post)) → id ∉ fst <$> (pre ++ post) →
  NoDup (fst <$> (pre ++ post)) → placed refID post → setRefValue ref = ref_of t →
  reduce_node ds (ne_Virtual (insert_effect vid refID id ref)) (ne_Kind (insert_effect vid refID id ref)) =
    Some (node_set ds vid (node_of obj (pre ++ (id, t) :: post))).
Proof.
  intros Hn Hid Hnd Hpl Hr. unfold insert_effect, placed in *.
  destruct refID as [r|], post as [|[r' t'] post]; try done; unfold reduce_node; cbn [ne_Virtual ne_Kind orderedInsertEffect orderedInsertBeforeEffect insert_data];
    rewrite Hn; unfold reduce_data; cbn [nd_Collection nd_Op nd_Merge nd_Value]; rewrite is_container_node;
    unfold insert_element; cbn [nd_Placement nd_Reference nd_Id nl_Id node_of nr_OrderedElements]; rewrite find_element_new by done.
  - subst r'. rewrite find_element_kids, list_find_middle.
    + cbn [fmap option_fmap option_map fst nr_TypeTag nr_Scalar]. rewrite Hr. unfold node_of. do 3 f_equal. rewrite !fmap_app, !fmap_cons.
      rewrite take_app_length', drop_app_length' by by rewrite length_fmap. done.
    + rewrite fmap_app, fmap_cons in Hnd. apply NoDup_app in Hnd as (_ & Hnd & _). intros Hin. apply (Hnd r); [done|by left].
  - rewrite app_nil_r in *. cbn. rewrite Hr. unfold node_of. by rewrite fmap_app.
Qed.

Definition encodes (v : JValue) : Prop := ∀ vid st, IsContainer v = true → json_ok v → doc_ok (st_ctx st) →
  node_get (docs (st_ctx st) key) vid = None → vid = [] ∨ is_Some (dc_root (docs (st_ctx st) key)) → (vid ≠ [] → older (st_ctx st) vid) →
  parts_old (st_ctx st) → (cost v <= doc_room (st_ctx st))%nat →
  esteps (encodeContainer key vid v) st (λ _ c', ∃ obj kids, grown (st_ctx st) (cost v) (DNode vid obj kids) c' ∧ tvalue (DNode vid obj kids) = canon v).

Lemma encodeRef_grown v st : encodes v → json_ok v → doc_ok (st_ctx st) → is_Some (dc_root (docs (st_ctx st) key)) → parts_old (st_ctx st) →
  (cref v <= doc_room (st_ctx st))%nat →
  esteps (encodeRef key v) st (λ ref c', ∃ t, grown (st_ctx st) (cref v) t c' ∧ setRefValue ref = ref_of t ∧ tvalue t = canon v).
Proof.
  intros He Hv Hh Hr Hp Hroom. unfold encodeRef, cref in *. destruct (IsContainer v) eqn:Ec.
  - eapply esteps_bind; [by apply (esteps_new key); [|lia]|]. cbv beta. intros vid c1 Hh1 (Hnew & Hold & Hd & Hg).
    assert (Hne : vid ≠ []) by apply Hold. assert (Hnone : node_get (docs c1 key) vid = None).
    { rewrite Hd. destruct (node_get (docs (st_ctx st) key) vid) eqn:E; [|done]. exfalso. apply (Hnew vid); [|done]. apply Hp; [done|by rewrite E]. }
    assert (Hp1 : parts_old c1).
    { intros w Hw Hs. destruct Hg as (_ & Hc & _). apply (older_mono (st_ctx st)); [done|]. apply Hp; [done|]. by rewrite <- Hd. }
    pose proof Hg as (_ & _ & Hrm). eapply esteps_bind; [apply (He vid (mkSt c1 _ _)); cbn [st_ctx]; [done|done|done|done|by right; rewrite Hd|done|done|lia]|].
    cbn [st_ctx st_w st_held]. intros _ c2 Hh2 (obj & kids & Hgr & Hval). apply esteps_ret; [done|]. exists (DNode vid obj kids). cbn [st_ctx]. split_and!; [|by destruct vid|done].
    destruct Hgr as (Hl & Hnd & Hn & Hf & Hg2 & Hp2). split_and!; [done|done| | | |done].
    + intros w Hw. rewrite <- Hd. by apply Hn.
    + intros w Hw. rewrite <- Hd. by apply Hf.
    + by apply (goes_trans key _ c1 c2 1 (cost v)).
  - apply esteps_ret; [done|]. exists (DLeaf (Serialize v)). pose proof (Parse_Serialize v Hv) as HP. split_and!; [|done|].
    + split_and!; [|constructor|by intros w ?%elem_of_nil|done|apply goes_refl|done]. econstructor; [|exact HP|].
      * destruct (ser_starts v Hv) as (c & s & -> & _). done.
      * destruct v as [| | |f| | |]; try done. cbn. by destruct (Atoi (format_g f)).
    + cbn [tvalue]. by rewrite HP.
Qed.

Lemma encodeContainer_object vid ms : encodeContainer key vid (VObject ms) =
  (em_emit (metaEffect key vid TYPE_JSON_OBJECT) ≫= λ _,
   em_each (λ m, encodeRef key (snd m) ≫= λ ref, em_emit (orderedInsertEffect key vid (fst m) ref)) ms).
Proof. done. Qed.
Lemma encodeContainer_array vid l : encodeContainer key vid (VArray l) =
  (em_emit (metaEffect key vid TYPE_JSON_ARRAY) ≫= λ _,
   em_each (λ e, encodeRef key e ≫= λ ref, em_new ≫= λ id, em_emit (orderedInsertEffect key vid id ref)) l).
Proof. done. Qed.

(** One element: its tree grows, then it is inserted. *)
Lemma esteps_insert vid obj c n new pre post refID id ref t m c1 st :
  planted vid obj c n new (pre ++ post) c1 → grown c1 m t (st_ctx st) → doc_ok (st_ctx st) → setRefValue ref = ref_of t →
  id ∉ fst <$> (pre ++ post) → NoDup (fst <$> (pre ++ post)) → placed refID post →
  esteps (em_emit (insert_effect vid refID id ref)) st
    (λ _ c', planted vid obj c (n + m) (new ++ [(id, t)]) (pre ++ (id, t) :: post) c' ∧ doc_clock (st_ctx st) <= doc_clock c' ∧ (doc_room (st_ctx st) <= doc_room c')%nat).
Proof.
  intros Hp Hg Hh Hr Hid Hnd Hpl. pose proof (planted_grown vid obj _ _ _ _ _ _ _ id t Hp Hg) as Hp2. pose proof Hp2 as (Hv & _).
  eapply esteps_weaken.
  { apply (esteps_emit key); [done|by destruct refID|]. by apply (reduce_insert _ vid obj pre post refID id ref t Hv Hid Hnd Hpl Hr). }
  cbv beta. intros _ c' [Hd Hg']. split; [|by destruct Hg' as (_ & ? & ?)].
  pose proof (planted_node vid obj c (st_ctx st) c' (n + m) 0 _ _ _ Hp2 Hd Hg') as Hf. by rewrite Nat.add_0_r in Hf.
Qed.

Lemma nodup_app_cons (A : list bytes) x B : NoDup (A ++ x :: B) ↔ (x ∉ A ++ B) ∧ NoDup (A ++ B).
Proof.
  assert (Hp : (A ++ x :: B) ≡ₚ (x :: (A ++ B))) by by rewrite Permutation_middle. rewrite Hp. apply NoDup_cons.
Qed.

(** The members of an object, in turn. *)
Lemma encode_members vid c n new pre ms st : planted vid true c n new pre (st_ctx st) → vid = [] ∨ is_Some (dc_root (docs c key)) →
  Forall (λ m, encodes (snd m)) ms → Forall (λ m, json_ok (snd m)) ms → NoDup ((fst <$> pre) ++ (fst <$> ms)) → doc_ok (st_ctx st) →
  (foldr (λ m n, (cref (snd m) + n)%nat) O ms <= doc_room (st_ctx st))%nat →
  esteps (em_each (λ m, encodeRef key (snd m) ≫= λ ref, em_emit (orderedInsertEffect key vid (fst m) ref)) ms) st
    (λ _ c', ∃ ks, planted vid true c (n + foldr (λ m n, (cref (snd m) + n)%nat) O ms) (new ++ ks) (pre ++ ks) c' ∧
                   (λ k, (fst k, tvalue (snd k))) <$> ks = prod_map id canon <$> ms).
Proof.
  revert n new pre st. induction ms as [|[name v] ms IH]; intros n new pre st Hp Hr He Hv Hnd Hh Hroom.
  { apply esteps_ret; [done|]. exists []. cbn. by rewrite Nat.add_0_r, !app_nil_r. }
  apply Forall_cons in He as [He1 He]. apply Forall_cons in Hv as [Hv1 Hv]. cbn [foldr fst snd] in *. rewrite fmap_cons in Hnd. cbn [fst] in Hnd.
  apply nodup_app_cons in Hnd as Hnd'. destruct Hnd' as [Hname Hnd']. pose proof (planted_root _ _ _ _ _ _ _ Hp Hr) as Hroot. pose proof Hp as (_ & _ & _ & _ & _ & _ & Hold).
  change (em_each ?f ((name, v) :: ms)) with (f (name, v) ≫= λ _, em_each f ms).
  eapply (esteps_bind _ _ _ (λ _ c2, ∃ t c1, planted vid true c (n + cref v) (new ++ [(name, t)]) (pre ++ [(name, t)]) c2 ∧ tvalue t = canon v ∧
             grown (st_ctx st) (cref v) t c1 ∧ (doc_room c1 <= doc_room c2)%nat)).
  { eapply esteps_bind; [apply (encodeRef_grown v st); [done|done|done|done|done|lia]|]. cbv beta. intros ref c1 Hh1 (t & Hg & Hrf & Hval).
    eapply esteps_weaken; [apply (esteps_insert vid true c n new pre [] None name ref t (cref v) (st_ctx st) (mkSt c1 _ _)); cbn [st_ctx]; rewrite ?app_nil_r; try done|].
    - intros Hin. apply Hname, elem_of_app. by left.
    - by apply NoDup_app in Hnd' as (? & _ & _).
    - cbn [st_ctx]. intros _ c2 (Hp2 & Hc & Hrm). by exists t, c1. }
  cbv beta. cbn [st_w st_held]. intros _ c2 Hh2 (t & c1 & Hp2 & Hval & Hg & Hrm).
  assert (Hroom2 : (foldr (λ m n, (cref (snd m) + n)%nat) O ms <= doc_room c2)%nat) by (destruct Hg as (_ & _ & _ & _ & (_ & _ & ?) & _); cbn [st_ctx] in *; lia).
  eapply esteps_weaken; [apply (IH _ _ _ (mkSt c2 _ _) Hp2); [done|done|done| |done|done]|].
  - rewrite fmap_app. cbn. by rewrite <- app_assoc.
  - intros _ c3 (ks & Hp3 & Hvals). exists ((name, t) :: ks). rewrite <- !app_assoc in Hp3. cbn [app] in Hp3. rewrite Nat.add_assoc. split; [done|].
    rewrite !fmap_cons, Hvals. cbn. by rewrite Hval.
Qed.

(** New elements of an array, in turn. *)
Definition insert_many (vid : bytes) (refID : option bytes) (l : list JValue) : EM unit :=
  em_each (λ v, encodeRef key v ≫= λ ref, em_new ≫= λ id, em_emit (insert_effect vid refID id ref)) l.
Definition elements_cost (l : list JValue) : nat := foldr (λ v n, (S (cref v) + n)%nat) O l.
(** The ids of an array: no two the same, all drawn before. *)
Definition ids_ok (c : Ctx) (kids : Kids) : Prop := NoDup (fst <$> kids) ∧ Forall (older c) (fst <$> kids).

Lemma ids_ok_later c c' kids : doc_clock c <= doc_clock c' → ids_ok c kids → ids_ok c' kids.
Proof. intros Hc [Hn Ho]. split; [done|]. eapply Forall_impl; [exact Ho|]. intros x. by apply older_mono. Qed.
Lemma ids_ok_insert c pre post id t : ids_ok c (pre ++ post) → id ∉ fst <$> (pre ++ post) → older c id → ids_ok c (pre ++ (id, t) :: post).
Proof.
  unfold ids_ok. rewrite !fmap_app, fmap_cons. cbn [fst]. intros [Hn Ho] Hid Hold. split; [by apply nodup_app_cons|].
  apply Forall_app in Ho as [? ?]. apply Forall_app. split; [done|by constructor].
Qed.

Lemma esteps_element vid c n new pre post refID v st : planted vid false c n new (pre ++ post) (st_ctx st) →
  is_Some (dc_root (docs (st_ctx st) key)) → encodes v → json_ok v → ids_ok (st_ctx st) (pre ++ post) → placed refID post →
  doc_ok (st_ctx st) → (S (cref v) <= doc_room (st_ctx st))%nat →
  esteps (encodeRef key v ≫= λ ref, em_new ≫= λ id, em_emit (insert_effect vid refID id ref)) st
    (λ _ c', ∃ id t, planted vid false c (n + S (cref v)) (new ++ [(id, t)]) (pre ++ (id, t) :: post) c' ∧ tvalue t = canon v ∧
                     ids_ok c' (pre ++ (id, t) :: post) ∧ (doc_room (st_ctx st) <= S (cref v) + doc_room c')%nat).
Proof.
  intros Hp Hroot He Hv Hids Hpl Hh Hroom. pose proof Hp as (_ & _ & _ & _ & _ & _ & Hold).
  eapply esteps_bind; [apply (encodeRef_grown v st); [done|done|done|done|done|lia]|]. cbv beta. intros ref c1 Hh1 (t & Hg & Hrf & Hval).
  pose proof Hg as (_ & _ & _ & _ & (_ & Hc1 & Hr1) & _).
  eapply esteps_bind; [apply (esteps_new key (mkSt c1 _ _)); cbn [st_ctx]; [done|lia]|]. cbn [st_ctx st_w st_held]. intros id c2 Hh2 (Hne & Ho2 & Hd2 & Hg2).
  pose proof Hg2 as (_ & Hc2 & Hr2). pose proof (grown_later _ _ _ _ _ _ Hg Hd2 Hg2) as Hg'. rewrite Nat.add_1_r in Hg'.
  assert (Hid : id ∉ fst <$> (pre ++ post)).
  { intros Hin. destruct Hids as [_ Ho]. rewrite Forall_forall in Ho. apply (Hne id); [|done]. apply (older_mono (st_ctx st)); [done|]. by apply Ho. }
  eapply esteps_weaken; [apply (esteps_insert vid false c n new pre post refID id ref t (S (cref v)) (st_ctx st) (mkSt c2 (st_w st) (st_held st))); cbn [st_ctx]; [done|exact Hg'|done|done|done|apply Hids|done]|].
  cbn [st_ctx]. intros _ c3 (Hp3 & Hc3 & Hr3). exists id, t. split_and!; [done|done| |lia].
  apply ids_ok_insert; [apply (ids_ok_later (st_ctx st)); [lia|done]|done|by apply (older_mono c2)].
Qed.

Lemma encode_elements vid c n new pre post refID l st : planted vid false c n new (pre ++ post) (st_ctx st) →
  vid = [] ∨ is_Some (dc_root (docs c key)) → Forall encodes l → Forall json_ok l → ids_ok (st_ctx st) (pre ++ post) → placed refID post →
  doc_ok (st_ctx st) → (elements_cost l <= doc_room (st_ctx st))%nat →
  esteps (insert_many vid refID l) st
    (λ _ c', ∃ ks, planted vid false c (n + elements_cost l) (new ++ ks) (pre ++ ks ++ post) c' ∧ (λ k, tvalue (snd k)) <$> ks = canon <$> l ∧
                   ids_ok c' (pre ++ ks ++ post)).
Proof.
  revert n new pre st. induction l as [|v l IH]; intros n new pre st Hp Hr He Hv Hids Hpl Hh Hroom.
  { apply esteps_ret; [done|]. exists []. cbn. by rewrite Nat.add_0_r, app_nil_r. }
  apply Forall_cons in He as [He1 He]. apply Forall_cons in Hv as [Hv1 Hv]. unfold elements_cost in *. cbn [foldr] in *.
  unfold insert_many. change (em_each ?f (v :: l)) with (f v ≫= λ _, em_each f l). fold (insert_many vid refID l).
  eapply esteps_bind; [apply (esteps_element vid c n new pre post refID v st); [done|by eapply planted_root|done|done|done|done|done|lia]|].
  cbv beta. intros _ c2 Hh2 (id & t & Hp2 & Hval & Hids2 & Hr2).
  assert (Hpp : ∀ x (q : Kids), pre ++ x :: q = (pre ++ [x]) ++ q) by (intros; by rewrite <- app_assoc). rewrite Hpp in Hp2, Hids2.
  eapply esteps_weaken; [apply (IH _ _ (pre ++ [(id, t)]) (mkSt c2 _ _) Hp2); cbn [st_ctx]; [done|done|done|done|done|done|lia]|].
  intros _ c3 (ks & Hp3 & Hvals & Hids3). exists ((id, t) :: ks). rewrite <- Hpp in Hp3, Hids3. rewrite <- (app_assoc new) in Hp3.
  split_and!; [|by rewrite !fmap_cons, Hvals, <- Hval|done]. replace (n + (S (cref v) + foldr (λ v n, S (cref v) + n) 0 l))%nat with (n + S (cref v) + foldr (λ v n, S (cref v) + n) 0 l)%nat by lia. done.
Qed.

(** Every container: its partitions form a tree of its value. *)
Lemma encodes_all v : encodes v.
Proof.
  induction v as [| | | | |l IH|ms IH] using JValue_ind; intros vid st Hc Hv Hh Hn Hr Ho Hp Hroom; try done.
  - inversion Hv as [| | | | |l' Hl|]; subst. rewrite encodeContainer_array.
    eapply esteps_bind; [by apply (esteps_meta vid false st)|]. cbv beta. intros _ c1 Hh1 Hg. pose proof Hg as (Hl1 & _ & _ & _ & (_ & _ & Hr1) & Hp1).
    inversion Hl1 as [|? ? ? Hnode]; subst. assert (Hroot : vid = [] ∨ is_Some (dc_root (docs c1 key))) by (destruct Hr as [->|Hr]; [by left|right; apply (grown_root _ _ _ _ Hg); by right]).
    change (em_each _ l) with (insert_many vid None l). change (cost (VArray l)) with (elements_cost l) in *.
    eapply esteps_weaken; [apply (encode_elements vid c1 0 [] [] [] None l (mkSt c1 _ _)); cbn [st_ctx]; [by apply planted_refl|done|done|done| |done|done|lia]|].
    { split; [constructor|by constructor]. }
    intros _ c2 (ks & Hp2 & Hvals & Hids). cbn [app] in Hp2, Hids. rewrite app_nil_r in Hp2, Hids. exists false, ks. destruct Hids. split.
    + by apply (grown_planted vid false _ c1 c2 0).
    + cbn [tvalue canon]. by rewrite Hvals.
  - inversion Hv as [| | | | | |ms' Hd Hk Hms]; subst. rewrite encodeContainer_object.
    eapply esteps_bind; [by apply (esteps_meta vid true st)|]. cbv beta. intros _ c1 Hh1 Hg. pose proof Hg as (Hl1 & _ & _ & _ & (_ & _ & Hr1) & Hp1).
    inversion Hl1 as [|? ? ? Hnode]; subst. assert (Hroot : vid = [] ∨ is_Some (dc_root (docs c1 key))) by (destruct Hr as [->|Hr]; [by left|right; apply (grown_root _ _ _ _ Hg); by right]).
    change (cost (VObject ms)) with (foldr (λ m n, (cref (snd m) + n)%nat) O ms) in *.
    eapply esteps_weaken; [apply (encode_members vid c1 0 [] [] ms (mkSt c1 _ _)); cbn [st_ctx]; [by apply planted_refl|done|done|done|done|done|lia]|].
    intros _ c2 (ks & Hp2 & Hvals). cbn [app] in Hp2. exists true, ks. split.
    + apply (grown_planted vid true _ c1 c2 0); [done|done| |done]. assert (Hf : fst <$> ks = fst <$> ms); [|by rewrite Hf].
      transitivity (fst <$> ((λ k, (fst k, tvalue (snd k))) <$> ks)); [by rewrite <- list_fmap_compose|]. rewrite Hvals, <- list_fmap_compose. done.
    + cbn [tvalue canon]. by rewrite Hvals.
Qed.
End Encoding.

(** ** Locations *)

(** One step into a value replaced, or a member added. *)
Definition set_step (s : step) (x v : JValue) : option JValue :=
  match s, v with
  | segKey k, VObject ms => Some (VObject (objSet k x ms))
  | segIndex i, VArray l => (λ j, VArray (<[Z.to_nat j := x]> l)) <$> normIndex i (len l)
  | _, _ => None
  end.
(** The value at a location, changed by [f]. *)
Fixpoint update_at (f : JValue → option JValue) (steps : list step) (v : JValue) : option JValue :=
  match steps with
  | [] => f v
  | s :: steps' => '(_, cv) ← follow s v; cv' ← update_at f steps' cv; set_step s cv' v
  end.
(** The value at a location, put there; what leads to it has to be there. *)
Definition set_at (steps : list step) (x v : JValue) : option JValue :=
  match last steps with None => Some x | Some s => update_at (set_step s x) (removelast steps) v end.

Definition kid_index (s : step) (obj : bool) (kids : Kids) : option nat :=
  match s, obj with
  | segKey k, true => fst <$> list_find (λ x, fst x = k) kids
  | segIndex i, false => Z.to_nat <$> normIndex i (len kids)
  | _, _ => None
  end.
Fixpoint sub_at (steps : list step) (t : DTree) : option DTree :=
  match steps, t with
  | [], _ => Some t
  | s :: steps', DNode _ obj kids => j ← kid_index s obj kids; k ← kids !! j; sub_at steps' (snd k)
  | _ :: _, DLeaf _ => None
  end.
Fixpoint replace_at (steps : list step) (u t : DTree) : DTree :=
  match steps, t with
  | [], _ => u
  | s :: steps', DNode vid obj kids =>
    match kid_index s obj kids with
    | Some j => DNode vid obj (alter (λ k, (fst k, replace_at steps' u (snd k))) j kids)
    | None => t
    end
  | _ :: _, DLeaf _ => t
  end.

Section Locations.
Context `{ParseFloat}.

Lemma kid_index_range s obj kids j : kid_index s obj kids = Some j → (j < length kids)%nat.
Proof.
  unfold kid_index. destruct s, obj; try done.
  - destruct (list_find _ kids) as [[i k]|] eqn:E; [|done]. intros [= <-]. apply list_find_Some in E as (E & _). by apply lookup_lt_Some in E.
  - unfold normIndex. destruct (_ || _) eqn:E; [done|]. intros [= <-]. apply orb_false_iff in E as [?%Z.ltb_ge ?%Z.leb_gt]. unfold len in *. lia.
Qed.
Lemma kid_index_key k kids j id u : kid_index (segKey k) true kids = Some j → kids !! j = Some (id, u) → id = k.
Proof.
  unfold kid_index. destruct (list_find _ kids) as [[i x]|] eqn:E; [|done]. intros Hj Hu. injection Hj as Hj. cbn [fst] in Hj. subst j. apply list_find_Some in E as (E & Hk & _).
  rewrite E in Hu. by injection Hu as ->.
Qed.

Lemma element_at_kids s obj kids : element_at (node_of obj kids) s = element_of <$> (kid_index s obj kids ≫= λ j, kids !! j).
Proof.
  unfold element_at, kid_index, elementByKey, elementByIndex. cbn [node_of nr_TypeTag nr_OrderedElements]. destruct s as [k|i], obj; try done.
  - rewrite bool_decide_eq_true_2 by done. rewrite list_find_fmap. unfold compose. cbn. destruct (list_find _ kids) as [[j x]|] eqn:E; [|done].
    cbn [prod_map fst snd fmap option_fmap option_map mbind option_bind]. apply list_find_Some in E as (E & _). by rewrite E.
  - rewrite bool_decide_eq_true_2 by done. unfold len. rewrite length_fmap. fold (len kids). unfold normIndex.
    destruct ((if i <? 0 then i + len kids else i) <? 0) eqn:E1; [done|]. destruct (len kids <=? (if i <? 0 then i + len kids else i)) eqn:E2; [done|].
    cbn. by rewrite list_lookup_fmap.
Qed.

Lemma follow_kids s vid obj kids : snd <$> follow s (tvalue (DNode vid obj kids)) = (λ k, tvalue (snd k)) <$> (kid_index s obj kids ≫= λ j, kids !! j).
Proof.
  unfold follow, kid_index. destruct s as [k|i], obj; cbn [tvalue]; try done.
  - unfold objGet. rewrite list_find_fmap. unfold compose. cbn. destruct (list_find _ kids) as [[j x]|] eqn:E; [|done].
    cbn [prod_map fst snd fmap option_fmap option_map mbind option_bind]. apply list_find_Some in E as (E & _). by rewrite E.
  - unfold len. rewrite length_fmap. fold (len kids). destruct (normIndex i (len kids)) as [j|] eqn:E; [|done]. cbn. unfold arr_at.
    unfold normIndex in E. destruct (_ || _) eqn:E1; [done|]. injection E as <-. apply orb_false_iff in E1 as [-> _].
    rewrite list_lookup_fmap. by destruct (kids !! _).
Qed.

Lemma set_kid s vid obj kids j id u u' : kid_index s obj kids = Some j → kids !! j = Some (id, u) →
  set_step s (tvalue u') (tvalue (DNode vid obj kids)) = Some (tvalue (DNode vid obj (<[j := (id, u')]> kids))).
Proof.
  intros Hj Hk. destruct s as [k|i], obj; try done; cbn [tvalue set_step].
  - pose proof (kid_index_key k kids j id u Hj Hk) as ->. unfold objSet, objIndex. rewrite list_find_fmap. unfold compose. cbn [fst]. unfold kid_index in Hj.
    destruct (list_find _ kids) as [[j' x]|]; [|done]. injection Hj as <-. cbn. by rewrite list_fmap_insert.
  - unfold len. rewrite length_fmap. fold (len kids). unfold kid_index in Hj. destruct (normIndex i (len kids)) as [j'|]; [|done]. injection Hj as <-.
    cbn. by rewrite list_fmap_insert.
Qed.

Lemma replace_step s steps vid obj kids j id u u' : kid_index s obj kids = Some j → kids !! j = Some (id, u) →
  replace_at (s :: steps) u' (DNode vid obj kids) = DNode vid obj (<[j := (id, replace_at steps u' u)]> kids).
Proof. intros Hj Hk. cbn. rewrite Hj. f_equal. apply list_eq. intros i. destruct (decide (i = j)) as [->|Hne].
  - rewrite list_lookup_alter_eq, Hk, list_lookup_insert_eq; [done|]. by eapply lookup_lt_Some.
  - by rewrite list_lookup_alter_ne, list_lookup_insert_ne by done.
Qed.

(** A change of a partition is the change of the document at its location. *)
Lemma update_tree f steps t u u' : sub_at steps t = Some u → f (tvalue u) = Some (tvalue u') →
  update_at f steps (tvalue t) = Some (tvalue (replace_at steps u' t)).
Proof.
  revert t. induction steps as [|s steps IH]; intros t Hs Hf; [by injection Hs as ->|]. destruct t as [raw|vid obj kids]; [done|]. cbn [sub_at] in Hs.
  destruct (kid_index s obj kids) as [j|] eqn:Ej; [|done]. cbn in Hs. destruct (kids !! j) as [[id k]|] eqn:Ek; [|done]. cbn in Hs.
  pose proof (follow_kids s vid obj kids) as Hfo. rewrite Ej in Hfo. cbn in Hfo. rewrite Ek in Hfo. cbn in Hfo. cbn [update_at].
  destruct (follow s _) as [[s' cv]|]; [|done]. cbn in Hfo. injection Hfo as ->. cbn [mbind option_bind]. rewrite (IH k Hs Hf). cbn [mbind option_bind].
  rewrite (replace_step s steps vid obj kids j id k u' Ej Ek). by apply (set_kid s vid obj kids j id k).
Qed.

Lemma laid_leaf_value old ds raw : laid old ds (DLeaf raw) → ∃ v, tvalue (DLeaf raw) = v ∧ IsContainer v = false.
Proof. intros Hl. inversion Hl as [? v Hne Hp Hc|]; subst. exists v. cbn [tvalue]. by rewrite Hp. Qed.
Lemma scalar_follow v s : IsContainer v = false → follow s v = None.
Proof. by destruct v, s. Qed.
Lemma scalar_set_step v s x : IsContainer v = false → set_step s x v = None.
Proof. by destruct v, s. Qed.

Lemma update_none old ds f steps t : laid old ds t → match sub_at steps t with None => True | Some u => f (tvalue u) = None end →
  update_at f steps (tvalue t) = None.
Proof.
  revert t. induction steps as [|s steps IH]; intros t Hl Hu; [done|]. cbn [update_at]. destruct t as [raw|vid obj kids].
  { destruct (laid_leaf_value _ _ _ Hl) as (v & -> & Hc). by rewrite scalar_follow. }
  pose proof (follow_kids s vid obj kids) as Hfo. destruct (follow s _) as [[s' cv]|]; [|done]. cbn [fmap option_fmap option_map snd] in Hfo. cbn [sub_at] in Hu.
  destruct (kid_index s obj kids) as [j|]; [|done]. cbn [mbind option_bind] in Hfo, Hu |- *. destruct (kids !! j) as [[id k]|] eqn:Ek; [|done].
  cbn [fmap option_fmap option_map snd mbind option_bind] in Hfo, Hu. injection Hfo as ->. rewrite IH; [done| |done].
  inversion Hl as [|? ? ? _ _ _ Hks]; subst. rewrite Forall_forall in Hks. apply (Hks (id, k)). by apply list_elem_of_lookup_2 in Ek.
Qed.

(** The walk to a partition is the walk in the tree. *)
Lemma walk_tree old ds n steps vid obj kids : dc_root ds = Some n → laid old ds (DNode vid obj kids) → (∀ k, k ∈ kids → [] ∉ vids (snd k)) →
  walk_from (doc_of ds n) vid (node_of obj kids) (concrete <$> steps) =
    match sub_at steps (DNode vid obj kids) with Some (DNode v o ks) => Some (v, node_of o ks) | _ => None end.
Proof.
  intros Hr. revert vid obj kids. induction steps as [|s steps IH]; intros vid obj kids Hl Hi; [done|]. cbn [fmap list_fmap walk_from sub_at].
  rewrite element_at_kids. destruct (kid_index s obj kids) as [j|]; [|done]. cbn [mbind option_bind]. destruct (kids !! j) as [[id k]|] eqn:Ek; [|done].
  apply list_elem_of_lookup_2 in Ek. assert (Hlk : laid old ds k).
  { inversion Hl as [|? ? ? _ _ _ Hks]; subst. rewrite Forall_forall in Hks. by apply (Hks (id, k)). }
  specialize (Hi (id, k) Ek). cbn [snd fmap option_fmap option_map mbind option_bind] in *. unfold containerChildVid. cbn [element_of nl_Value snd].
  destruct k as [raw|v o ks]; cbn [ref_of]; [by destruct steps|]. rewrite elem_of_vids in Hi. destruct v as [|c v]; [naive_solver|].
  cbn [mbind option_bind]. rewrite nodeAt_get by done. inversion Hlk as [|? ? ? Hn]; subst. rewrite Hn. cbn [mbind option_bind]. apply IH; [done|]. naive_solver.
Qed.

(** *** A partition replaced *)

Lemma kids_split (kids : Kids) j k : kids !! j = Some k → kids = take j kids ++ k :: drop (S j) kids.
Proof. intros Hk. symmetry. by apply take_drop_middle. Qed.
Lemma kids_vids_app a b : kids_vids (a ++ b) = kids_vids a ++ kids_vids b.
Proof. unfold kids_vids. by rewrite fmap_app, concat_app. Qed.
Lemma kids_vids_cons k kids : kids_vids (k :: kids) = vids (snd k) ++ kids_vids kids.
Proof. done. Qed.

Lemma vids_replace steps t u : sub_at steps t = Some u →
  ∃ A B, vids t = A ++ vids u ++ B ∧ ∀ u', vids (replace_at steps u' t) = A ++ vids u' ++ B.
Proof.
  revert t. induction steps as [|s steps IH]; intros t Hs.
  { injection Hs as ->. exists [], []. split; [by rewrite app_nil_r|]. intros u'. by rewrite app_nil_r. }
  destruct t as [raw|vid obj kids]; [done|]. cbn [sub_at] in Hs. destruct (kid_index s obj kids) as [j|] eqn:Ej; [|done]. cbn [mbind option_bind] in Hs.
  destruct (kids !! j) as [[id k]|] eqn:Ek; [|done]. cbn [mbind option_bind snd] in Hs. destruct (IH k Hs) as (A & B & Hv & Hv').
  exists (vid :: kids_vids (take j kids) ++ A), (B ++ kids_vids (drop (S j) kids)). split.
  - change (vids (DNode vid obj kids)) with (vid :: kids_vids kids). rewrite (kids_split kids j _ Ek) at 1. rewrite kids_vids_app, kids_vids_cons. cbn [snd].
    rewrite Hv. cbn [app]. by rewrite <- !app_assoc.
  - intros u'. rewrite (replace_step s steps vid obj kids j id k u' Ej Ek). change (vids (DNode vid obj ?x)) with (vid :: kids_vids x).
    rewrite insert_take_drop by by eapply lookup_lt_Some. rewrite kids_vids_app, kids_vids_cons. cbn [snd]. rewrite Hv'. cbn [app]. by rewrite <- !app_assoc.
Qed.

Lemma sub_vids steps t u w : sub_at steps t = Some u → w ∈ vids u → w ∈ vids t.
Proof. intros Hs Hw. destruct (vids_replace steps t u Hs) as (A & B & -> & _). rewrite !elem_of_app. auto. Qed.

Lemma kids_disjoint (kids : Kids) i j k k' w : NoDup (kids_vids kids) → kids !! i = Some k → kids !! j = Some k' → i ≠ j →
  w ∈ vids (snd k) → w ∉ vids (snd k').
Proof.
  revert i j. induction kids as [|x kids IH]; intros i j Hnd Hi Hj Hne Hw Hw'; [done|]. rewrite kids_vids_cons in Hnd. apply NoDup_app in Hnd as (_ & Hd & Hnd).
  assert (Hk : ∀ i k, kids !! i = Some k → w ∈ vids (snd k) → w ∈ kids_vids kids).
  { intros i' k0 Hk0 Hw0. rewrite (kids_split kids i' k0 Hk0), kids_vids_app, kids_vids_cons, !elem_of_app. auto. }
  destruct i as [|i], j as [|j]; cbn in Hi, Hj; simplify_eq; [|by apply (Hd w); [|by eapply Hk]..|].
  - by apply (Hd w); [|by eapply Hk].
  - by eapply (IH i j); eauto.
Qed.

Lemma laid_replace (old old' : bytes → Prop) ds ds' steps t u u' : laid old ds t → NoDup (vids t) → sub_at steps t = Some u → ref_of u' = ref_of u →
  laid old' ds' u' → (∀ w, w ∈ vids t → w ∉ vids u → node_get ds' w = node_get ds w) → (∀ id, old id → old' id) →
  laid old' ds' (replace_at steps u' t).
Proof.
  intros Hl Hnd Hs Hr Hu Hf Ho. revert t Hl Hnd Hs Hf. induction steps as [|s steps IH]; intros t Hl Hnd Hs Hf; [done|].
  destruct t as [raw|vid obj kids]; [done|]. cbn [sub_at] in Hs. destruct (kid_index s obj kids) as [j|] eqn:Ej; [|done]. cbn [mbind option_bind] in Hs.
  destruct (kids !! j) as [[id k]|] eqn:Ek; [|done]. cbn [mbind option_bind snd] in Hs. rewrite (replace_step s steps vid obj kids j id k u' Ej Ek).
  change (vids (DNode vid obj kids)) with (vid :: kids_vids kids) in *. apply NoDup_cons in Hnd as [Hvn Hnd].
  assert (Hin : ∀ i x w, kids !! i = Some x → w ∈ vids (snd x) → w ∈ kids_vids kids).
  { intros i x w Hx Hw. rewrite (kids_split kids i x Hx), kids_vids_app, kids_vids_cons, !elem_of_app. auto. }
  assert (Hsub : ∀ w, w ∈ vids u → w ∈ vids k) by (intros w; by apply sub_vids with steps).
  assert (Hndk : NoDup (vids k)).
  { rewrite (kids_split kids j _ Ek), kids_vids_app, kids_vids_cons in Hnd. by apply NoDup_app in Hnd as (_ & _ & (? & _ & _)%NoDup_app). }
  inversion Hl as [|? ? ? Hn Hni Hold Hks]; subst.
  assert (Hids : fst <$> <[j := (id, replace_at steps u' k)]> kids = fst <$> kids).
  { rewrite list_fmap_insert. apply list_insert_id. by rewrite list_lookup_fmap, Ek. }
  assert (Href : ref_of (replace_at steps u' k) = ref_of k).
  { destruct steps as [|s' steps]; [injection Hs as ->; exact Hr|]. destruct k as [raw|v o ks]; [done|]. cbn. by destruct (kid_index s' o ks). }
  constructor.
  - rewrite Hf; [|by left|intros Hv; apply Hvn; eapply Hin; [exact Ek|by apply Hsub]]. rewrite Hn. f_equal. unfold node_of. f_equal.
    rewrite list_fmap_insert. symmetry. apply list_insert_id. rewrite list_lookup_fmap, Ek. cbn. unfold element_of. cbn [fst snd]. by rewrite Href.
  - by rewrite Hids.
  - intros E. rewrite Hids. eapply Forall_impl; [by apply Hold|done].
  - rewrite Forall_lookup in Hks |- *. intros i x Hx. destruct (decide (i = j)) as [->|Hij].
    + rewrite list_lookup_insert_eq in Hx by by eapply lookup_lt_Some. injection Hx as <-. cbn [snd]. apply IH; [by apply (Hks j (id, k))|done|done|].
      intros w Hw Hw'. apply Hf; [right; by eapply Hin|done].
    + rewrite list_lookup_insert_ne in Hx by done. apply (laid_mono old); [done|]. apply (laid_frame _ ds); [|by apply (Hks i)].
      intros w Hw. apply Hf; [right; by eapply Hin|]. intros Hw'. by apply (kids_disjoint kids i j x (id, k) w); [| | | | |apply Hsub].
Qed.
End Locations.

Lemma nodup_kids_vids (ks : Kids) : NoDup (fst <$> ks) → (∀ k, k ∈ ks → NoDup (vids (snd k))) →
  (∀ k k' w, k ∈ ks → k' ∈ ks → k ≠ k' → w ∈ vids (snd k) → w ∉ vids (snd k')) → NoDup (kids_vids ks).
Proof.
  induction ks as [|k ks IH]; intros Hn Hv Hd; [constructor|]. rewrite fmap_cons in Hn. apply NoDup_cons in Hn as [Hk Hn]. rewrite kids_vids_cons.
  apply NoDup_app. split_and!; [by apply Hv; left| |apply IH; [done|by intros x Hx; apply Hv; right|by intros x y w Hx Hy; apply Hd; right]].
  intros w Hw (k' & Hk' & Hw')%elem_of_kids_vids. apply (Hd k k' w); [by left|by right| |done|done]. intros ->. apply Hk. by apply list_elem_of_fmap_2.
Qed.
Lemma kids_nodup (ks : Kids) k : NoDup (kids_vids ks) → k ∈ ks → NoDup (vids (snd k)).
Proof.
  intros Hn [i Hi]%list_elem_of_lookup. rewrite (kids_split ks i k Hi), kids_vids_app, kids_vids_cons in Hn. by apply NoDup_app in Hn as (_ & _ & (? & _ & _)%NoDup_app).
Qed.
Lemma kids_apart (ks : Kids) k k' w : NoDup (kids_vids ks) → k ∈ ks → k' ∈ ks → k ≠ k' → w ∈ vids (snd k) → w ∉ vids (snd k').
Proof.
  intros Hn [i Hi]%list_elem_of_lookup [j Hj]%list_elem_of_lookup Hne. apply (kids_disjoint ks i j); [done|done|done|]. intros ->. congruence.
Qed.

(** ** What a key holds, before and after *)
Section Documents.
Context `{DocLaws} `{FloatText}.
Variable key : bytes.

(** The key holds the document [v]; the key is dead. *)
Definition doc_at (c : Ctx) (v : JValue) : Prop := represents (older c) (docs c key) v ∧ parts_old key c.
Definition dead (c : Ctx) : Prop := dc_root (docs c key) = None ∧ parts_old key c.

Section Update.
Variables (steps : list step) (obj0 obj : bool) (kids0 kids new final : Kids) (vid : bytes) (c c' : Ctx) (n : nat).
Let T := DNode [] obj0 kids0.
Hypothesis Hlaid : laid (older c) (docs c key) T.
Hypothesis Hnodup : NoDup (vids T).
Hypothesis Hsub : sub_at steps T = Some (DNode vid obj kids).
Hypothesis Hplanted : planted key vid obj c n new final c'.
Hypothesis Hfinal : ∀ k, k ∈ final → k ∈ kids ∨ k ∈ new.
Hypothesis Hids : NoDup (fst <$> final).
Hypothesis Hold : obj = false → Forall (older c') (fst <$> final).

Lemma new_outside w : w ∈ kids_vids new → w ∉ vids T.
Proof using Hlaid Hplanted.
  intros Hw Hw'. destruct Hplanted as (_ & _ & _ & Hn & _). apply (laid_dom _ _ _ _ Hlaid) in Hw' as [x Hx]. by rewrite (Hn w Hw) in Hx.
Qed.
Lemma sub_nodup : NoDup (vid :: kids_vids kids).
Proof using Hnodup Hsub.
  destruct (vids_replace steps T _ Hsub) as (A & B & Hv & _). rewrite Hv in Hnodup. by apply NoDup_app in Hnodup as (_ & _ & (? & _ & _)%NoDup_app).
Qed.
Lemma kids_inside w : w ∈ kids_vids kids → w ∈ vids T.
Proof using Hsub. intros Hw. eapply sub_vids; [exact Hsub|]. by right. Qed.
Lemma final_vids w : w ∈ kids_vids final → w ∈ kids_vids kids ∨ w ∈ kids_vids new.
Proof using Hfinal.
  intros (k & Hk & Hw)%elem_of_kids_vids. destruct (Hfinal k Hk); [left|right]; apply elem_of_kids_vids; by exists k.
Qed.

Lemma final_nodup : NoDup (vid :: kids_vids final).
Proof using Hlaid Hnodup Hsub Hplanted Hfinal Hids.
  pose proof sub_nodup as [Hv Hk]%NoDup_cons. pose proof Hplanted as (_ & _ & [Hvn Hn]%NoDup_cons & _). constructor.
  { intros [?|?]%final_vids; done. }
  apply nodup_kids_vids; [done| |].
  - intros k [Hin|Hin]%Hfinal; by apply (kids_nodup _ k) in Hin.
  - intros k k' w Hk1 Hk2 Hne Hw Hw'.
    assert (Hx : ∀ x y, x ∈ kids → y ∈ new → w ∈ vids (snd x) → w ∈ vids (snd y) → False).
    { intros x y Hx Hy Hwx Hwy. apply (new_outside w); [apply elem_of_kids_vids; by exists y|]. apply kids_inside, elem_of_kids_vids. by exists x. }
    destruct (Hfinal k Hk1) as [?|?], (Hfinal k' Hk2) as [?|?]; [by apply (kids_apart kids k k' w)|by eapply Hx|by apply (Hx k' k)|by apply (kids_apart new k k' w)].
Qed.

Lemma final_laid : laid (older c') (docs c' key) (DNode vid obj final).
Proof using Hlaid Hnodup Hsub Hplanted Hfinal Hids Hold.
  destruct Hplanted as (Hv & Hl & [Hvn _]%NoDup_cons & _ & Hf & (_ & Hc & _) & _). pose proof sub_nodup as [Hvk _]%NoDup_cons.
  assert (Hlu : laid (older c) (docs c key) (DNode vid obj kids)).
  { clear -Hlaid Hsub. revert Hlaid Hsub. generalize T. clear T. induction steps as [|s ss IH]; intros t Hl Hs; [by injection Hs as ->|].
    destruct t as [raw|v o ks]; [done|]. cbn [sub_at] in Hs. destruct (kid_index s o ks) as [j|]; [|done]. cbn [mbind option_bind] in Hs.
    destruct (ks !! j) as [k|] eqn:Ek; [|done]. apply (IH (snd k)); [|done]. apply (kids_laid _ _ v o ks); [done|]. by apply list_elem_of_lookup_2 in Ek. }
  constructor; [done|done|done|]. rewrite Forall_forall in Hl |- *. intros k [Hk|Hk]%Hfinal; [|by apply Hl].
  apply (laid_mono (older c)); [by intros x; apply older_mono|]. apply (laid_frame _ (docs c key)); [|by apply (kids_laid _ _ vid obj kids)].
  intros w Hw. assert (Hwk : w ∈ kids_vids kids) by (apply elem_of_kids_vids; by exists k). apply Hf; [by intros ->|]. intros Hwn. apply (new_outside w Hwn). by apply kids_inside.
Qed.

(** The partition changed, the document changed there. *)
Lemma planted_doc : doc_at c' (tvalue (replace_at steps (DNode vid obj final) T)).
Proof using Hlaid Hnodup Hsub Hplanted Hfinal Hids Hold.
  pose proof Hplanted as (_ & _ & _ & _ & Hf & (_ & Hc & _) & Hp). split; [|done]. right. destruct (vids_replace steps T _ Hsub) as (A & B & Hv & Hv').
  assert (Hl : laid (older c') (docs c' key) (replace_at steps (DNode vid obj final) T)).
  { apply (laid_replace (older c) _ (docs c key) _ steps T (DNode vid obj kids)); [done|done|done|done|exact final_laid| |by intros id; apply older_mono].
    intros w Hw Hw'. apply Hf; [intros ->; apply Hw'; by left|]. intros Hwn. by apply (new_outside w Hwn). }
  assert (Hnd : NoDup (vids (replace_at steps (DNode vid obj final) T))).
  { rewrite Hv'. pose proof Hnodup as Hnd0. rewrite Hv in Hnd0. apply NoDup_app in Hnd0 as (HA & HAB & (_ & HUB & HB)%NoDup_app).
    assert (Hu : ∀ w, w ∈ vids (DNode vid obj final) → w ∈ vids (DNode vid obj kids) ∨ w ∈ kids_vids new).
    { intros w [->|[?|?]%final_vids]%elem_of_cons; [left; by left|left; by right|by right]. }
    assert (Hout : ∀ w, w ∈ A ++ B → w ∉ kids_vids new).
    { intros w Hw Hwn. apply (new_outside w Hwn). rewrite Hv, !elem_of_app. rewrite elem_of_app in Hw. tauto. }
    apply NoDup_app. split_and!; [done| |apply NoDup_app; split_and!; [exact final_nodup| |done]].
    - intros w Hw. rewrite elem_of_app. intros [Hw'|Hw']; [|by apply (HAB w Hw); rewrite elem_of_app; right].
      destruct (Hu w Hw') as [?|?]; [by apply (HAB w Hw); rewrite elem_of_app; left|]. by apply (Hout w); [rewrite elem_of_app; left|].
    - intros w Hw' Hw. destruct (Hu w Hw') as [?|?]; [by apply (HUB w)|]. by apply (Hout w); [rewrite elem_of_app; right|]. }
  destruct steps as [|s ss]; cbn [replace_at T] in Hl, Hnd |- *.
  - injection Hsub as <- <- <-. by exists obj0, final.
  - subst T. cbn [replace_at] in *. destruct (kid_index s obj0 kids0) as [j|]; by eexists obj0, _.
Qed.
End Update.
End Documents.
