(* ===== verification/JsonTheorems.v ===== *)
(** * What the JSON commands do

    The commands that write a document, against functions on documents: a
    document set and read back, a value set, merged, removed or changed at a
    location, elements appended, inserted, trimmed and popped, numbers, strings
    and booleans changed in place; and the indexes a slice selects.  The last two
    modules are an engine that satisfies the laws and runs on it. *)

From Stdlib Require Import SpecFloat Zpow_facts.
From S2P Require Import Prelude GoBytes Strconv Floats Commands Writer Engine Lists ListProps JsonText JsonTextProps JsonPath JsonTree JsonTreeProps JsonCommands.

Local Open Scope Z_scope.

(** ** Slices *)

(** [count] indices from [start] by [step]. *)
Definition arithmetic (start step count : Z) : list Z := (λ k, start + step * k) <$> seqZ 0 count.

Lemma arithmetic_cons start step count : 0 < count → arithmetic start step count = start :: arithmetic (start + step) step (count - 1).
Proof.
  intros Hc. unfold arithmetic. rewrite seqZ_cons by lia. cbn [fmap list_fmap]. f_equal; [lia|].
  replace (Z.succ 0) with (0 + 1) by lia. rewrite <- (fmap_add_seqZ 1 0 (Z.pred count)) at 1. rewrite <- list_fmap_compose.
  replace (Z.pred count) with (count - 1) by lia. apply list_fmap_ext. intros _ k _. cbn. lia.
Qed.
Lemma arithmetic_nil start step count : count <= 0 → arithmetic start step count = [].
Proof. intros Hc. unfold arithmetic. by rewrite seqZ_nil. Qed.

Lemma count_up_spec fuel i stop step : 0 < step → - 2 ^ 63 <= i → stop + step <= 2 ^ 63 → (Z.to_nat (stop - i) <= fuel)%nat →
  count_up fuel i stop step = arithmetic i step ((stop - i + step - 1) / step).
Proof.
  intros Hs. revert i. induction fuel as [|fuel IH]; intros i Hi Ho Hf; cbn [count_up].
  - rewrite arithmetic_nil; [done|]. assert ((stop - i + step - 1) / step < 1) by (apply Z.div_lt_upper_bound; lia). lia.
  - destruct (Z.ltb_spec i stop).
    + rewrite arithmetic_cons by (assert (1 <= (stop - i + step - 1) / step) by (apply Z.div_le_lower_bound; lia); lia).
      rewrite i64_id by (unfold is_i64, MinInt64, MaxInt64; lia). rewrite IH by lia. do 2 f_equal.
      replace (stop - i + step - 1) with (stop - (i + step) + step - 1 + 1 * step) by lia. rewrite Z.div_add by lia. lia.
    + rewrite arithmetic_nil; [done|]. assert ((stop - i + step - 1) / step < 1) by (apply Z.div_lt_upper_bound; lia). lia.
Qed.

Lemma count_down_spec fuel i stop step n : step < 0 → -1 <= stop → i < n → n <= 2 ^ 63 → - 2 ^ 63 <= stop + step → (Z.to_nat (i - stop) <= fuel)%nat →
  count_down fuel i stop step n = arithmetic i step ((i - stop - step - 1) / - step).
Proof.
  intros Hs Hstop. revert i. induction fuel as [|fuel IH]; intros i Hi Hn Ho Hf; cbn [count_down].
  - rewrite arithmetic_nil; [done|]. assert ((i - stop - step - 1) / - step < 1) by (apply Z.div_lt_upper_bound; lia). lia.
  - destruct (Z.ltb_spec stop i).
    + rewrite (proj2 (Z.leb_le 0 i)), (proj2 (Z.ltb_lt i n)) by lia. cbn [andb app].
      rewrite arithmetic_cons by (assert (1 <= (i - stop - step - 1) / - step) by (apply Z.div_le_lower_bound; lia); lia).
      rewrite i64_id by (unfold is_i64, MinInt64, MaxInt64; lia). rewrite IH by lia. do 2 f_equal.
      replace (i - stop - step - 1) with (i + step - stop - step - 1 + 1 * - step) by lia. rewrite Z.div_add by lia. lia.
    + rewrite arithmetic_nil; [done|]. assert ((i - stop - step - 1) / - step < 1) by (apply Z.div_lt_upper_bound; lia). lia.
Qed.

Lemma slice_bound_range b default n lo hi : lo <= hi → lo <= default <= hi → lo <= slice_bound b default n lo hi <= hi.
Proof. intros Hle Hd. unfold slice_bound, clamp. destruct b as [v|]; [|done]. generalize (if v <? 0 then v + n else v). intros u. destruct (Z.ltb_spec u lo); [lia|]. destruct (Z.ltb_spec hi u); lia. Qed.

(** As long as an index and a step stay in 64 bits, a slice selects the
    arithmetic sequence from its first bound to before its second, upwards or
    downwards, and every index selected is one of the array. *)
Theorem slice_selects s n : let step := default 1 (sl_step s) in 0 <= n → n + Z.abs step < 2 ^ 63 →
  sliceIndices s n =
    (let start := slice_bound (sl_start s) 0 n 0 n in let stop := slice_bound (sl_end s) n n 0 n in
     let first := slice_bound (sl_start s) (n - 1) n (-1) (n - 1) in let lst := slice_bound (sl_end s) (-1) n (-1) (n - 1) in
     if decide (0 < step) then arithmetic start step ((stop - start + step - 1) / step)
     else if decide (step < 0) then arithmetic first step ((first - lst - step - 1) / - step)
     else []) ∧
  Forall (λ i, 0 <= i < n) (sliceIndices s n).
Proof.
  cbv zeta. unfold sliceIndices. set (step := default 1 (sl_step s)). intros Hn Ho.
  pose proof (slice_bound_range (sl_start s) 0 n 0 n ltac:(lia) ltac:(lia)) as H1. pose proof (slice_bound_range (sl_end s) n n 0 n ltac:(lia) ltac:(lia)) as H2.
  pose proof (slice_bound_range (sl_start s) (n - 1) n (-1) (n - 1) ltac:(lia) ltac:(lia)) as H3. pose proof (slice_bound_range (sl_end s) (-1) n (-1) (n - 1) ltac:(lia) ltac:(lia)) as H4.
  revert H1 H2 H3 H4. generalize (slice_bound (sl_start s) 0 n 0 n) (slice_bound (sl_end s) n n 0 n) (slice_bound (sl_start s) (n - 1) n (-1) (n - 1)) (slice_bound (sl_end s) (-1) n (-1) (n - 1)).
  intros a b a' b' H1 H2 H3 H4. destruct (Z.eqb_spec step 0) as [Hz|Hz]; [rewrite !decide_False by lia; by split|].
  destruct (Z.ltb_spec 0 step) as [Hp|Hp].
  - rewrite decide_True by lia. rewrite count_up_spec by lia. split; [done|]. unfold arithmetic. apply Forall_fmap, Forall_forall. intros k Hk. apply elem_of_seqZ in Hk. cbn [compose].
    assert (step * k < b - a); [|nia]. assert (step * (k + 1) <= step * ((b - a + step - 1) / step)) by nia. pose proof (Z.mul_div_le (b - a + step - 1) step). lia.
  - rewrite decide_False, decide_True by lia. rewrite count_down_spec by lia. split; [done|]. unfold arithmetic. apply Forall_fmap, Forall_forall. intros k Hk. apply elem_of_seqZ in Hk. cbn [compose].
    assert (- step * k < a' - b'); [|nia]. assert (- step * (k + 1) <= - step * ((a' - b' - step - 1) / - step)) by nia. pose proof (Z.mul_div_le (a' - b' - step - 1) (- step)). lia.
Qed.

(** ** One partition *)
Section Partition.
Context `{DocLaws} `{FloatText}.
Variable key : bytes.

Lemma find_element_at kids j id u : NoDup (fst <$> kids) → kids !! j = Some (id, u) → find_element id (element_of <$> kids) = Some j.
Proof.
  intros Hnd Hj. rewrite find_element_kids, (kids_split kids j _ Hj) in *. rewrite list_find_middle.
  - cbn. rewrite length_take. apply lookup_lt_Some in Hj. f_equal. lia.
  - rewrite fmap_app, fmap_cons in Hnd. apply NoDup_app in Hnd as (_ & Hnd & _). intros Hin. apply (Hnd id); [done|by left].
Qed.

Lemma reduce_self ds vid obj kids j id u ref t : node_get ds vid = Some (node_of obj kids) → NoDup (fst <$> kids) → kids !! j = Some (id, u) →
  setRefValue ref = ref_of t → reduce_node ds vid (insert_data PLACE_SELF [] id ref) = Some (node_set ds vid (node_of obj (<[j := (id, t)]> kids))).
Proof.
  intros Hn Hnd Hj Hr. unfold reduce_node, insert_data. rewrite Hn. unfold reduce_data. cbn [nd_Collection nd_Op nd_Merge nd_Value]. rewrite is_container_node.
  unfold insert_element. cbn [nd_Placement nd_Id nl_Id node_of nr_OrderedElements]. rewrite (find_element_at kids j id u) by done.
  cbn [fmap option_fmap option_map nr_TypeTag nr_Scalar]. rewrite Hr. unfold node_of. by rewrite list_fmap_insert.
Qed.

Lemma filter_elements id (kids : Kids) : filter (λ e, nl_Id e ≠ id) (element_of <$> kids) = element_of <$> filter (λ k, fst k ≠ id) kids.
Proof.
  induction kids as [|k kids IH]; [done|]. rewrite fmap_cons, !filter_cons. cbn [element_of nl_Id]. destruct (decide (fst k ≠ id)); by rewrite IH.
Qed.
Lemma reduce_remove ds vid obj kids id : node_get ds vid = Some (node_of obj kids) →
  reduce_node ds vid (remove_data id) = Some (node_set ds vid (node_of obj (filter (λ k, fst k ≠ id) kids))).
Proof.
  intros Hn. unfold reduce_node, remove_data. rewrite Hn. unfold reduce_data. cbn [nd_Collection nd_Op nd_Merge nd_Value]. rewrite is_container_node.
  cbn [fmap option_fmap option_map nr_TypeTag nr_Scalar node_of nr_OrderedElements nd_Id]. unfold node_of. do 3 f_equal. by rewrite filter_elements.
Qed.

(** ** A value put at a location *)

(** The tree of a key, and one of its partitions. *)
Definition tree_at (c : Ctx) (obj0 : bool) (kids0 : Kids) : Prop :=
  laid (older c) (docs c key) (DNode [] obj0 kids0) ∧ NoDup (vids (DNode [] obj0 kids0)) ∧ parts_old key c.

Lemma sub_laid old ds steps t u : laid old ds t → sub_at steps t = Some u → laid old ds u.
Proof.
  revert t. induction steps as [|s ss IH]; intros t Hl Hs; [by injection Hs as ->|].
  destruct t as [raw|v o ks]; [done|]. cbn [sub_at] in Hs. destruct (kid_index s o ks) as [j|]; [|done]. cbn [mbind option_bind] in Hs.
  destruct (ks !! j) as [k|] eqn:Ek; [|done]. apply (IH (snd k)); [|done]. apply (kids_laid _ _ v o ks); [done|]. by apply list_elem_of_lookup_2 in Ek.
Qed.

Lemma tree_root c obj0 kids0 : tree_at c obj0 kids0 → is_Some (dc_root (docs c key)).
Proof. intros (Hl & _ & _). inversion Hl as [|? ? ? Hn]; subst. by eexists. Qed.

Lemma tree_part c obj0 kids0 steps vid obj kids : tree_at c obj0 kids0 → sub_at steps (DNode [] obj0 kids0) = Some (DNode vid obj kids) →
  node_get (docs c key) vid = Some (node_of obj kids) ∧ NoDup (fst <$> kids) ∧ (obj = false → Forall (older c) (fst <$> kids)) ∧ planted key vid obj c 0 [] kids c.
Proof.
  intros (Hl & Hd & Hp) Hs. pose proof (sub_laid _ _ _ _ _ Hl Hs) as Hlu. inversion Hlu as [|? ? ? Hn Hnd Ho _]; subst. split_and!; [done..|]. by apply planted_refl.
Qed.

Lemma kids_insert_sub (kids : Kids) j x k : k ∈ <[j := x]> kids → k ∈ kids ∨ k ∈ [x].
Proof.
  intros [i Hi]%list_elem_of_lookup. destruct (decide (i = j)) as [->|Hne].
  - apply list_lookup_insert_Some in Hi as [(_ & <- & _)|[? _]]; [right; by left|done].
  - rewrite list_lookup_insert_ne in Hi by done. left. by apply list_elem_of_lookup_2 in Hi.
Qed.

(** An element replaced. *)
Lemma replace_element c obj0 kids0 steps vid obj kids j id u w st : tree_at c obj0 kids0 → st_ctx st = c →
  sub_at steps (DNode [] obj0 kids0) = Some (DNode vid obj kids) → kids !! j = Some (id, u) → json_ok w → doc_ok c → (cref w <= doc_room c)%nat →
  esteps (encodeRef key w ≫= λ ref, em_emit (orderedSelfEffect key vid id ref)) st
    (λ _ c', ∃ t, tvalue t = canon w ∧ doc_at key c' (tvalue (replace_at steps (DNode vid obj (<[j := (id, t)]> kids)) (DNode [] obj0 kids0))) ∧ goes key c (cref w) c').
Proof.
  intros Ht Hst Hs Hj Hw Hh Hroom. destruct (tree_part c obj0 kids0 steps vid obj kids Ht Hs) as (Hn & Hnd & Ho & Hp). subst c.
  pose proof (tree_root _ _ _ Ht) as Hroot. destruct Ht as (Hl & Hd & Hpo).
  eapply esteps_bind; [apply (encodeRef_grown key w st); [apply encodes_all|done..]|]. cbv beta. intros ref c1 Hh1 (t & Hg & Hr & Hval).
  pose proof (planted_grown key vid obj _ _ _ _ _ _ _ id t Hp Hg) as Hp1. pose proof Hp1 as (Hn1 & _).
  eapply esteps_weaken; [eapply (esteps_emit key (orderedSelfEffect key vid id ref) (mkSt c1 (st_w st) (st_held st))); [done|done|by apply (reduce_self _ vid obj kids j id u ref t)]|].
  cbn [st_ctx]. intros _ c2 [Hd2 Hg2]. exists t. split; [done|]. pose proof (planted_node key vid obj _ _ _ _ _ _ _ _ Hp1 Hd2 Hg2) as Hp2.
  assert (Hids : fst <$> <[j := (id, t)]> kids = fst <$> kids) by (rewrite list_fmap_insert; apply list_insert_id; by rewrite list_lookup_fmap, Hj).
  assert (Hgo : goes key (st_ctx st) (cref w) c2) by (destruct Hp2 as (_ & _ & _ & _ & _ & Hgo & _); by rewrite Nat.add_0_r in Hgo). split; [|done].
  eapply (planted_doc key steps obj0 obj kids0 kids); [exact Hl|exact Hd|exact Hs|exact Hp2| |by rewrite Hids|].
  - intros k Hk. by apply (kids_insert_sub kids j).
  - intros E. rewrite Hids. destruct Hgo as (_ & Hc & _). eapply Forall_impl; [by apply Ho|]. intros x. by apply older_mono.
Qed.

(** A member added. *)
Lemma add_member_element c obj0 kids0 steps vid kids k w st : tree_at c obj0 kids0 → st_ctx st = c →
  sub_at steps (DNode [] obj0 kids0) = Some (DNode vid true kids) → k ∉ fst <$> kids → json_ok w → doc_ok c → (cref w <= doc_room c)%nat →
  esteps (encodeRef key w ≫= λ ref, em_emit (orderedInsertEffect key vid k ref)) st
    (λ _ c', ∃ t, tvalue t = canon w ∧ doc_at key c' (tvalue (replace_at steps (DNode vid true (kids ++ [(k, t)])) (DNode [] obj0 kids0))) ∧ goes key c (cref w) c').
Proof.
  intros Ht Hst Hs Hk Hw Hh Hroom. destruct (tree_part c obj0 kids0 steps vid true kids Ht Hs) as (Hn & Hnd & Ho & Hp). subst c.
  pose proof (tree_root _ _ _ Ht) as Hroot. destruct Ht as (Hl & Hd & Hpo).
  eapply esteps_bind; [apply (encodeRef_grown key w st); [apply encodes_all|done..]|]. cbv beta. intros ref c1 Hh1 (t & Hg & Hr & Hval).
  eapply esteps_weaken; [apply (esteps_insert key vid true (st_ctx st) 0 [] kids [] None k ref t (cref w) (st_ctx st) (mkSt c1 (st_w st) (st_held st))); cbn [st_ctx]; rewrite ?app_nil_r; done|].
  cbn [st_ctx app Nat.add]. intros _ c2 (Hp2 & _ & _). exists t. pose proof Hp2 as (_ & _ & _ & _ & _ & Hgo & _). split; [done|]. split; [|done].
  eapply (planted_doc key steps obj0 true kids0 kids); [exact Hl|exact Hd|exact Hs|exact Hp2| | |done].
  - intros x [?|?]%elem_of_app; auto.
  - rewrite fmap_app. apply NoDup_app. split_and!; [done| |apply NoDup_singleton]. cbn. by intros x Hx ->%list_elem_of_singleton.
Qed.

Lemma kid_index_some s obj kids j : kid_index s obj kids = Some j → ∃ id u, kids !! j = Some (id, u).
Proof. intros Hj. apply kid_index_range in Hj. destruct (kids !! j) as [[id u]|] eqn:E; [by exists id, u|]. apply lookup_ge_None in E. lia. Qed.

Lemma kid_index_new k kids : kid_index (segKey k) true kids = None → k ∉ fst <$> kids.
Proof.
  cbn. destruct (list_find _ kids) as [[i x]|] eqn:E; [done|]. intros _ (y & -> & Hy)%list_elem_of_fmap. apply list_find_None in E. rewrite Forall_forall in E. by apply (E y).
Qed.
Lemma set_new_key k vid kids t : kid_index (segKey k) true kids = None →
  set_step (segKey k) (tvalue t) (tvalue (DNode vid true kids)) = Some (tvalue (DNode vid true (kids ++ [(k, t)]))).
Proof.
  intros Hk. cbn [set_step tvalue]. rewrite objSet_new; [by rewrite fmap_app|]. rewrite <- list_fmap_compose. by apply kid_index_new in Hk.
Qed.
Lemma set_no_index i vid obj kids x : kid_index (segIndex i) obj kids = None → set_step (segIndex i) x (tvalue (DNode vid obj kids)) = None.
Proof.
  destruct obj; [done|]. cbn [kid_index tvalue set_step]. unfold len. rewrite length_fmap. fold (len kids). by destruct (normIndex i (len kids)).
Qed.

(** The last step of a write. *)
Definition placed_at (steps : list step) (s : step) (w : JValue) (vid : bytes) (obj : bool) (kids : Kids) (T : DTree) (c : Ctx) (applied : bool) (c' : Ctx) : Prop :=
  match set_step s (canon w) (tvalue (DNode vid obj kids)) with
  | Some x => applied = true ∧ ∃ u, tvalue u = x ∧ doc_at key c' (tvalue (replace_at steps u T))
  | None => applied = false ∧ c' = c
  end ∧ goes key c (cref w) c'.

Lemma elementByKey_kids k kids : elementByKey (node_of true kids) k = element_of <$> (kid_index (segKey k) true kids ≫= λ j, kids !! j).
Proof. rewrite <- element_at_kids. cbn. done. Qed.
Lemma elementByIndex_kids i kids : elementByIndex (node_of false kids) i = element_of <$> (kid_index (segIndex i) false kids ≫= λ j, kids !! j).
Proof. rewrite <- element_at_kids. cbn. done. Qed.

Lemma set_in_parent_spec c obj0 kids0 steps vid obj kids s w st : tree_at c obj0 kids0 → st_ctx st = c →
  sub_at steps (DNode [] obj0 kids0) = Some (DNode vid obj kids) → json_ok w → doc_ok c → (cref w <= doc_room c)%nat →
  esteps (set_in_parent key vid (node_of obj kids) s w) st (placed_at steps s w vid obj kids (DNode [] obj0 kids0) c).
Proof.
  intros Ht Hst Hs Hw Hh Hroom. unfold placed_at. destruct (kid_index s obj kids) as [j|] eqn:Ej.
  - destruct (kid_index_some s obj kids j Ej) as (id & u & Ek).
    assert (Hset : esteps ((encodeRef key w ≫= λ ref, em_emit (orderedSelfEffect key vid id ref)) ≫= λ _, mret true) st
                     (placed_at steps s w vid obj kids (DNode [] obj0 kids0) c)).
    { eapply esteps_bind; [by apply (replace_element c obj0 kids0 steps vid obj kids j id u w st)|]. cbv beta. intros _ c' Hh' (t & Hval & Hd & Hg).
      apply esteps_ret; [done|]. unfold placed_at. rewrite <- Hval, (set_kid s vid obj kids j id u t Ej Ek). split; [|done]. split; [done|]. by eexists. }
    apply esteps_assoc in Hset. unfold set_in_parent.
    destruct s as [k|i], obj; try done; cbn [node_of nr_TypeTag node_tag]; rewrite bool_decide_eq_true_2 by done; cbn [negb].
    + rewrite elementByKey_kids, Ej. cbn [mbind option_bind]. rewrite Ek. cbn [fmap option_fmap option_map]. pose proof (kid_index_key k kids j id u Ej Ek) as ->. exact Hset.
    + rewrite elementByIndex_kids, Ej. cbn [mbind option_bind]. rewrite Ek. exact Hset.
  - unfold set_in_parent. destruct s as [k|i].
    + destruct obj; cbn [node_of nr_TypeTag node_tag].
      * rewrite bool_decide_eq_true_2 by done. cbn [negb]. rewrite elementByKey_kids, Ej. cbn [mbind option_bind fmap option_fmap option_map].
        apply esteps_assoc. eapply esteps_bind; [by apply (add_member_element c obj0 kids0 steps vid kids k w st); [| | |apply kid_index_new| | |]|].
        cbv beta. intros _ c' Hh' (t & Hval & Hd & Hg). apply esteps_ret; [done|]. rewrite <- Hval, (set_new_key k vid kids t Ej). split; [|done]. split; [done|]. by eexists.
      * rewrite bool_decide_eq_false_2 by done. apply esteps_ret; [by rewrite Hst|]. cbn [set_step tvalue]. rewrite Hst. split; [done|]. eapply goes_le; [|apply goes_refl]. lia.
    + assert (E : set_in_parent key vid (node_of obj kids) (segIndex i) w = mret false).
      { unfold set_in_parent. destruct obj; cbn [node_of nr_TypeTag node_tag]; [by rewrite bool_decide_eq_false_2|]. rewrite bool_decide_eq_true_2 by done. cbn [negb].
        by rewrite elementByIndex_kids, Ej. }
      fold (set_in_parent key vid (node_of obj kids) (segIndex i) w). rewrite E. apply esteps_ret; [by rewrite Hst|]. rewrite set_no_index by done. rewrite Hst. split; [done|].
      eapply goes_le; [|apply goes_refl]. lia.
Qed.

(** *** The root *)

Lemma esteps_delete st : doc_ok (st_ctx st) → parts_old key (st_ctx st) →
  esteps (em_emit (keyDelEffect key)) st (λ _ c', dead key c' ∧ goes key (st_ctx st) 0 c').
Proof.
  intros Hh Hp tips. destruct (law_doc_emit (keyDelEffect key) tips _ Hh) as (c' & E & Hh' & Ho & _ & Hc & Hrm).
  pose proof (law_doc_delete key tips (st_ctx st) Hh) as Hdel. rewrite E in Hdel. cbn [snd] in Hdel. destruct Hdel as [Hr Hs].
  exists tt, [], c'. unfold em_emit, emit_node, mbind, M_bind. rewrite E. split; [done|]. split; [done|]. split; [split; [done|]|by split_and!].
  intros w Hne [x Hx]. apply (older_mono (st_ctx st)); [done|]. apply Hp; [done|]. destruct w; [done|]. eexists. by eapply lookup_weaken.
Qed.

Lemma encodeRoot_spec w st : dead key (st_ctx st) → json_ok w → doc_ok (st_ctx st) → (cref w <= doc_room (st_ctx st))%nat →
  esteps (encodeRoot key w) st (λ _ c', doc_at key c' (canon w) ∧ goes key (st_ctx st) (cref w) c').
Proof.
  intros [Hd Hp] Hw Hh Hroom. unfold encodeRoot, cref in *. destruct (IsContainer w) eqn:Ec.
  - eapply esteps_weaken; [apply (encodes_all key w [] st); [done|done|done|done|by left|done|done|lia]|]. cbv beta. intros _ c' (obj & kids & (Hl & Hnd & _ & _ & Hg & Hpo) & Hv).
    split; [|by eapply goes_le; [|done]; lia]. split; [|done]. right. by exists obj, kids.
  - eapply esteps_bind.
    { eapply (esteps_emit key (metaEffect key [] TYPE_JSON)); [done|done|]. cbn [ne_Virtual ne_Kind metaEffect reduce_node node_get]. rewrite Hd. by rewrite bool_decide_eq_true_2 by by left. }
    cbv beta. intros _ c1 Hh1 [Hd1 Hg1].
    eapply esteps_weaken.
    { eapply (esteps_emit key (scalarEffect key [] (Serialize w)) (mkSt c1 _ _)); [done|done|]. cbn [st_ctx ne_Virtual ne_Kind scalarEffect]. rewrite Hd1. reflexivity. }
    cbn [st_ctx]. intros _ c2 [Hd2 Hg2]. pose proof (goes_trans key _ _ _ _ _ Hg1 Hg2) as Hg. split; [|done]. split.
    + left. exists (Serialize w). rewrite Hd2. split; [done|]. split; [by apply Parse_Serialize|]. destruct w as [| | |f| | |]; try done. cbn. by destruct (Atoi (format_g f)).
    + intros x Hne Hs. destruct Hg as (_ & Hc & _). apply (older_mono (st_ctx st)); [done|]. apply Hp; [done|]. rewrite Hd2 in Hs. by destruct x.
Qed.

(** *** Any location *)

(** The document after a write, or the context as it was. *)
Definition written (v : JValue) (o : option JValue) (c : Ctx) (n : nat) (applied : bool) (c' : Ctx) : Prop :=
  match o with Some v' => applied = true ∧ doc_at key c' v' | None => applied = false ∧ c' = c end ∧ goes key c n c'.

Lemma not_written v w st (m : EM bool) : m = mret false → doc_ok (st_ctx st) → esteps m st (written v None (st_ctx st) (cref w)).
Proof. intros -> Hh. apply esteps_ret; [done|]. split; [done|]. eapply goes_le; [|apply goes_refl]. lia. Qed.

Lemma update_scalar f steps v : IsContainer v = false → (∀ x, IsContainer x = false → f x = None) → update_at f steps v = None.
Proof. intros Hc Hf. destruct steps as [|s steps]; cbn [update_at]; [by apply Hf|]. by rewrite scalar_follow. Qed.

Lemma setValueAtPath_spec v steps w st n : doc_at key (st_ctx st) v → dc_root (docs (st_ctx st) key) = Some n → json_ok w →
  doc_ok (st_ctx st) → (cref w <= doc_room (st_ctx st))%nat →
  esteps (setValueAtPath key (Some (doc_of (docs (st_ctx st) key) n)) (concrete <$> steps) w true) st
    (written v (set_at steps (canon w) v) (st_ctx st) (cref w)).
Proof.
  intros [Hr Hp] Hn Hw Hh Hroom. unfold setValueAtPath, set_at. destruct steps as [|s0 steps0] using rev_ind; [|clear IHsteps0; rename s0 into s].
  - cbn [fmap list_fmap last]. eapply esteps_bind; [by apply esteps_delete|]. cbv beta. intros _ c1 Hh1 [Hd1 Hg1]. pose proof Hg1 as (_ & _ & Hrm).
    eapply esteps_bind; [apply (encodeRoot_spec w (mkSt c1 _ _)); cbn [st_ctx]; [done|done|done|lia]|]. cbn [st_ctx]. intros _ c2 Hh2 [Hd2 Hg2].
    apply esteps_ret; [done|]. split; [done|]. by apply (goes_trans key _ _ _ 0 (cref w) Hg1).
  - rewrite fmap_app. cbn [fmap list_fmap]. rewrite !last_snoc, !removelast_last. cbn [mbind option_bind]. destruct Hr as [(raw & Hroot & Hp1 & Hc)|(obj & kids & Hl & Hd & Hv)].
    + rewrite update_scalar by (try done; intros x; by apply scalar_set_step). rewrite Hn in Hroot. injection Hroot as ->. apply not_written; [|done].
      unfold walkToParent. destruct steps0 as [|s1 steps]; cbn [fmap list_fmap walk_from do_Root doc_of]; [by destruct s|]. by destruct s1.
    + subst v. assert (Hn' : n = node_of obj kids) by (inversion Hl as [|? ? ? Hx]; subst; cbn in Hx; congruence).
      unfold walkToParent. cbn [do_Root doc_of]. rewrite Hn'. rewrite <- Hn' at 1. rewrite (walk_tree (older (st_ctx st)) _ _ steps0 [] obj kids); [|done|done|by intros k Hk; apply (root_kids_inner obj kids k)].
      destruct (sub_at steps0 (DNode [] obj kids)) as [[raw|vid o ks]|] eqn:Es.
      * rewrite (update_none _ _ _ _ _ Hl); [by apply not_written|]. rewrite Es. destruct (laid_leaf_value _ _ _ (sub_laid _ _ _ _ _ Hl Es)) as (x & -> & Hx). by apply scalar_set_step.
      * eapply esteps_weaken; [apply (set_in_parent_spec (st_ctx st) obj kids steps0 vid o ks s w st); done|]. intros applied c' [Hm Hg]. split; [|done].
        destruct (set_step s (canon w) (tvalue (DNode vid o ks))) as [x|] eqn:Ex.
        -- destruct Hm as [-> (u & <- & Hdoc)]. rewrite (update_tree _ steps0 _ _ u Es Ex). done.
        -- rewrite (update_none _ _ _ _ _ Hl); [done|]. by rewrite Es.
      * rewrite (update_none _ _ _ _ _ Hl); [by apply not_written|]. by rewrite Es.
Qed.
End Partition.

(** ** Concrete paths *)

(** The single location of a concrete path, as a match reports it, and its value. *)
Fixpoint locate (steps : list step) (v : JValue) : option (list step * JValue) :=
  match steps with
  | [] => Some ([], v)
  | s :: steps' => '(s', cv) ← follow s v; '(l, x) ← locate steps' cv; Some (s' :: l, x)
  end.

Lemma normIndex_idem i n j : normIndex i n = Some j → normIndex j n = Some j ∧ 0 <= j < n.
Proof.
  unfold normIndex. destruct (_ || _) eqn:E; [done|]. intros [= Hj]. rewrite Hj in E. apply orb_false_iff in E as [E1%Z.ltb_ge E2%Z.leb_gt].
  rewrite (proj2 (Z.ltb_ge j 0)) by lia. rewrite (proj2 (Z.ltb_ge j 0)), (proj2 (Z.leb_gt n j)) by lia. by split.
Qed.
Lemma follow_norm s v s' cv : follow s v = Some (s', cv) → follow s' v = Some (s', cv) ∧ ∀ x, set_step s' x v = set_step s x v.
Proof.
  destruct s as [k|i], v as [| | | | |l|ms]; try done; cbn.
  - destruct (objGet k ms) eqn:E; [|done]. intros [= <- <-]. cbn. by rewrite E.
  - destruct (normIndex i (len l)) as [j|] eqn:E; [|done]. cbn. destruct (arr_at l j) eqn:Ea; [|done]. intros [= <- <-]. cbn.
    destruct (normIndex_idem _ _ _ E) as [-> _]. cbn. by rewrite Ea.
Qed.

Lemma locate_update f steps v l x : locate steps v = Some (l, x) → update_at f l v = update_at f steps v.
Proof.
  revert v l. induction steps as [|s steps IH]; intros v l Hl; [by injection Hl as <- _|]. cbn [locate] in Hl. destruct (follow s v) as [[s' cv]|] eqn:Ef; [|done].
  cbn [mbind option_bind] in Hl. destruct (locate steps cv) as [[l' x']|] eqn:El; [|done]. injection Hl as <- ->. destruct (follow_norm _ _ _ _ Ef) as [Hf Hs].
  cbn [update_at]. rewrite Ef, Hf. cbn [mbind option_bind]. rewrite (IH cv l' El). destruct (update_at f steps cv); [|done]. cbn. apply Hs.
Qed.
Lemma locate_set w steps v l x : locate steps v = Some (l, x) → set_at steps w v = update_at (λ _, Some w) steps v.
Proof.
  revert v l. induction steps as [|s steps IH]; intros v l Hl; [done|]. cbn [locate] in Hl. destruct (follow s v) as [[s' cv]|] eqn:Ef; [|done].
  cbn [mbind option_bind] in Hl. destruct (locate steps cv) as [[l' x']|] eqn:El; [|done]. injection Hl as _ ->. specialize (IH cv l' El). cbn [update_at]. rewrite Ef. cbn [mbind option_bind].
  destruct steps as [|s1 steps1]; [done|]. rewrite <- IH. unfold set_at. change (last (s :: s1 :: steps1)) with (last (s1 :: steps1)).
  change (removelast (s :: s1 :: steps1)) with (s :: removelast (s1 :: steps1)). destruct (last (s1 :: steps1)) as [ls|] eqn:Els; [|by apply last_None in Els].
  cbn [update_at]. by rewrite Ef.
Qed.
Lemma locate_idem steps v l x : locate steps v = Some (l, x) → locate l v = Some (l, x).
Proof.
  revert v l. induction steps as [|s steps IH]; intros v l Hl; [by injection Hl as <- ->|]. cbn [locate] in Hl. destruct (follow s v) as [[s' cv]|] eqn:Ef; [|done].
  cbn [mbind option_bind] in Hl. destruct (locate steps cv) as [[l' x']|] eqn:El; [|done]. injection Hl as <- ->. destruct (follow_norm _ _ _ _ Ef) as [Hf _].
  cbn [locate]. rewrite Hf. cbn [mbind option_bind]. by rewrite (IH cv l' El).
Qed.
Lemma locate_set_at w steps v l x : locate steps v = Some (l, x) → set_at l w v = set_at steps w v.
Proof.
  intros Hl. rewrite (locate_set w steps v l x Hl), (locate_set w l v l x); [by apply locate_update with x|by eapply locate_idem].
Qed.
Lemma locate_follow steps v : follow_all steps v = snd <$> locate steps v.
Proof.
  revert v. induction steps as [|s steps IH]; intros v; [done|]. cbn. destruct (follow s v) as [[s' cv]|]; [|done]. cbn. rewrite IH. by destruct (locate steps cv) as [[l x]|].
Qed.

Section Concrete.
Context `{FormatG} `{Regexp}.

Lemma resolve_locate steps v c : resolve_from (concrete <$> steps) v c = Some (match locate steps v with Some (l, x) => [(x, c ++ l)] | None => [] end).
Proof.
  revert v c. induction steps as [|s steps IH]; intros v c; [by cbn; rewrite app_nil_r|]. rewrite fmap_cons. cbn [resolve_from locate].
  destruct (follow s v) as [[s' cv]|]; [|done]. 
  change (gather _) with (a ← resolve_from (concrete <$> steps) cv (c ++ [s']); b ← Some []; Some (a ++ b)).
  rewrite (IH cv (c ++ [s'])). cbn [mbind option_bind]. destruct (locate steps cv) as [[l x]|]; cbn; [|done]. by rewrite <- app_assoc.
Qed.
Lemma resolveMatches_concrete p steps v : p_segs p = concrete <$> steps →
  resolveMatches p (Some v) = Some (match locate steps v with Some (l, x) => [(x, l)] | None => [] end).
Proof. intros Hp. unfold resolveMatches. rewrite Hp, resolve_locate. by destruct (locate steps v) as [[l x]|]. Qed.
Lemma resolve_concrete p steps v : p_segs p = concrete <$> steps → resolve p (Some v) = Some (option_list (follow_all steps v)).
Proof. intros Hp. unfold resolve. rewrite (resolveMatches_concrete p steps v Hp), locate_follow. by destruct (locate steps v) as [[l x]|]. Qed.
End Concrete.

(** *** Reading what was set *)

Lemma objGet_objSet k x ms : objGet k (objSet k x ms) = Some x.
Proof.
  unfold objGet, objSet, objIndex. destruct (list_find _ ms) as [[i m]|] eqn:E; cbn [fmap option_fmap option_map fst].
  - apply list_find_Some in E as (Hi & Hk & Hj). assert (Hf : list_find (λ m, fst m = k) (<[i := (k, x)]> ms) = Some (i, (k, x))); [|by rewrite Hf].
    apply list_find_Some. split_and!; [|done|].
    + apply list_lookup_insert_eq. by eapply lookup_lt_Some.
    + intros j y Hy Hlt. rewrite list_lookup_insert_ne in Hy by lia. by apply (Hj j y).
  - rewrite list_find_app_r by done. cbn. by destruct (decide (k = k)).
Qed.

Lemma follow_set s x v v' : set_step s x v = Some v' → snd <$> follow s v' = Some x.
Proof.
  destruct s as [k|i], v as [| | | | |l|ms]; try done; cbn.
  - intros [= <-]. cbn. by rewrite objGet_objSet.
  - destruct (normIndex i (len l)) as [j|] eqn:E; [|done]. intros [= <-]. cbn. unfold len. rewrite length_insert. fold (len l). rewrite E. cbn. unfold arr_at.
    destruct (normIndex_idem _ _ _ E) as [_ Hj]. rewrite (proj2 (Z.ltb_ge j 0)) by lia. rewrite list_lookup_insert_eq; [done|]. unfold len in Hj. lia.
Qed.
(** What was put at a location is what is found there. *)
Lemma follow_set_at steps x v v' : set_at steps x v = Some v' → follow_all steps v' = Some x.
Proof.
  unfold set_at. destruct steps as [|ls init] using rev_ind; [by intros [= <-]|]. clear IHinit. rewrite last_snoc, removelast_last.
  revert v v'. induction init as [|s init IH]; intros v v'; cbn [update_at app follow_all].
  - intros Hs. apply follow_set in Hs. destruct (follow ls v') as [[s' cv]|]; [|done]. by injection Hs as ->.
  - destruct (follow s v) as [[s' cv]|]; [|done]. cbn [mbind option_bind]. destruct (update_at _ init cv) as [cv'|] eqn:Eu; [|done]. cbn [mbind option_bind]. intros Hs.
    apply follow_set in Hs. destruct (follow s v') as [[s'' cv'']|]; [|done]. injection Hs as ->. cbn. by eapply IH.
Qed.

(** ** Runs of commands *)
Section Runs.
Context `{DocLaws}.

(** [m] goes on with a value; [m] ends, having written [w]. *)
Definition dsteps {A} (m : M A) (st : St) (Q : A → Ctx → Prop) : Prop :=
  ∃ a c', m st = (Next a, mkSt c' (st_w st) (st_held st)) ∧ doc_ok c' ∧ Q a c'.
Definition answers (m : M unit) (st : St) (w : Writer) (P : Ctx → Prop) : Prop :=
  ∃ o c', m st = (o, mkSt c' w (st_held st)) ∧ (o = Next tt ∨ o = Return) ∧ doc_ok c' ∧ P c'.

Lemma dsteps_ret {A} (a : A) st (Q : A → Ctx → Prop) : doc_ok (st_ctx st) → Q a (st_ctx st) → dsteps (mret a) st Q.
Proof. intros Hh HQ. exists a, (st_ctx st). by destruct st. Qed.
Lemma dsteps_bind {A B} (m : M A) (f : A → M B) st Q R : dsteps m st Q →
  (∀ a c', doc_ok c' → Q a c' → dsteps (f a) (mkSt c' (st_w st) (st_held st)) R) → dsteps (m ≫= f) st R.
Proof. intros (a & c' & E & Hh & HQ) Hf. destruct (Hf a c' Hh HQ) as (b & c'' & E' & Hr). exists b, c''. unfold mbind, M_bind. by rewrite E. Qed.
Lemma answers_bind {A} (m : M A) (f : A → M unit) st Q w P : dsteps m st Q →
  (∀ a c', doc_ok c' → Q a c' → answers (f a) (mkSt c' (st_w st) (st_held st)) w P) → answers (m ≫= f) st w P.
Proof. intros (a & c' & E & Hh & HQ) Hf. destruct (Hf a c' Hh HQ) as (o & c'' & E' & Hr). exists o, c''. unfold mbind, M_bind. by rewrite E. Qed.
Lemma answers_write f st w (P : Ctx → Prop) : doc_ok (st_ctx st) → f (st_w st) = w → P (st_ctx st) → answers (write f) st w P.
Proof. intros Hh <- HP. exists (Next tt), (st_ctx st). by auto. Qed.
Lemma answers_reply f st w (P : Ctx → Prop) : doc_ok (st_ctx st) → f (st_w st) = w → P (st_ctx st) → answers (reply f) st w P.
Proof. intros Hh <- HP. exists Return, (st_ctx st). by auto. Qed.
Lemma answers_weaken m st w (P Q : Ctx → Prop) : answers m st w P → (∀ c, P c → Q c) → answers m st w Q.
Proof. intros (o & c & E & Ho & Hh & HP) HQ. exists o, c. auto. Qed.
Lemma answers_write_bind g f st w P : answers (f tt) (mkSt (st_ctx st) (g (st_w st)) (st_held st)) w P → answers (write g ≫= f) st w P.
Proof. done. Qed.
Lemma dsteps_or_panic {A} (o : option A) a st : doc_ok (st_ctx st) → o = Some a → dsteps (or_panic o) st (λ x c', x = a ∧ c' = st_ctx st).
Proof. intros Hh ->. exists a, (st_ctx st). by destruct st. Qed.
Lemma dsteps_with_tips {A} (tips : list Tip) (m : EM A) st Q : esteps m st Q → dsteps (with_tips tips m) st Q.
Proof. intros Hm. destruct (Hm tips) as (a & tips' & c' & E & Hh & HQ). exists a, c'. unfold with_tips, mbind, M_bind. by rewrite E. Qed.

(** Nothing changed. *)
Definition kept (c c' : Ctx) : Prop := (∀ k, docs c' k = docs c k) ∧ doc_clock c <= doc_clock c' ∧ (doc_room c <= doc_room c')%nat.
Lemma kept_refl c : kept c c.
Proof. by split_and!. Qed.
Lemma kept_trans c c' c'' : kept c c' → kept c' c'' → kept c c''.
Proof. intros (Hd & ? & ?) (Hd' & ? & ?). split_and!; [|lia..]. intros k. by rewrite Hd', Hd. Qed.

Context `{ParseFloat}.
Variable key : bytes.

Lemma kept_parts c c' : kept c c' → parts_old key c → parts_old key c'.
Proof. intros (Hd & Hc & _) Hp w Hne Hs. apply (older_mono c); [done|]. apply Hp; [done|]. by rewrite <- Hd. Qed.
Lemma kept_doc c c' v : kept c c' → doc_at key c v → doc_at key c' v.
Proof.
  intros Hk [Hr Hp]. split; [|by eapply kept_parts]. destruct Hk as (Hd & Hc & _). unfold represents in *. rewrite Hd. destruct Hr as [?|(obj & kids & Hl & Hr)]; [by left|].
  right. exists obj, kids. split; [|done]. apply (laid_mono (older c)); [|done]. intros x. by apply older_mono.
Qed.
Lemma kept_goes c c' c'' n : kept c c' → goes key c' n c'' → goes key c n c''.
Proof. intros (Hd & ? & ?) (Hd' & ? & ?). split_and!; [|lia..]. intros k Hk. by rewrite Hd', Hd. Qed.

Lemma represents_root old ds v : represents old ds v → ∃ n, dc_root ds = Some n ∧ isJSONNode (nr_TypeTag n) = true.
Proof.
  intros [(raw & Hr & _)|(obj & kids & Hl & _)]; [by eexists|]. inversion Hl as [|? ? ? Hn]; subst. cbn in Hn. eexists. split; [done|]. by destruct obj.
Qed.

(** Reading a key that holds a document, and one that is dead. *)
Lemma read_doc v st : doc_ok (st_ctx st) → doc_at key (st_ctx st) v →
  dsteps (getJSONSnapshot key) st (λ s c', kept (st_ctx st) c' ∧ doc_at key c' v ∧
    ∃ n tips, dc_root (docs c' key) = Some n ∧ s = mkDocSnap (Some (doc_of (docs c' key) n)) tips true false).
Proof.
  intros Hh Hd. destruct (law_doc_get key _ Hh) as (snap & tips & c' & E & Hh' & Hs & Hdocs & Hc & Hr). pose proof (conj Hdocs (conj Hc Hr) : kept (st_ctx st) c') as Hk.
  pose proof (kept_doc _ _ _ Hk Hd) as Hd'. destruct Hd as [Hrep _]. destruct (represents_root _ _ _ Hrep) as (n & Hn & Hj). unfold shows in Hs. rewrite Hn in Hs. subst snap.
  eexists _, c'. unfold getJSONSnapshot, get_document, mbind, M_bind. rewrite E. split; [reflexivity|]. split; [done|]. split; [done|]. split; [done|].
  exists n, tips. rewrite Hdocs. split; [done|]. unfold classify_doc. cbn. by rewrite Hj.
Qed.
Lemma read_dead st : doc_ok (st_ctx st) → dead key (st_ctx st) →
  dsteps (getJSONSnapshot key) st (λ s c', kept (st_ctx st) c' ∧ dead key c' ∧ ∃ tips, s = mkDocSnap None tips false false).
Proof.
  intros Hh [Hd Hp]. destruct (law_doc_get key _ Hh) as (snap & tips & c' & E & Hh' & Hs & Hdocs & Hc & Hr). pose proof (conj Hdocs (conj Hc Hr) : kept (st_ctx st) c') as Hk.
  unfold shows in Hs. rewrite Hd in Hs. eexists _, c'. unfold getJSONSnapshot, get_document, mbind, M_bind. rewrite E. split; [reflexivity|]. split; [done|]. split; [done|].
  split; [split; [by rewrite Hdocs|by eapply kept_parts]|]. exists tips. destruct Hs as [->|(d & -> & Hop)]; [done|]. cbn. by rewrite Hop.
Qed.

Context `{FormatG} `{Regexp}.
Lemma values_of v n tips p vs st : doc_ok (st_ctx st) → doc_at key (st_ctx st) v → dc_root (docs (st_ctx st) key) = Some n → resolve p (Some v) = Some vs →
  dsteps (values_at (mkDocSnap (Some (doc_of (docs (st_ctx st) key) n)) tips true false) p) st (λ x c', x = vs ∧ c' = st_ctx st).
Proof.
  intros Hh [Hr _] Hn Hv. apply dsteps_or_panic; [done|]. cbn [ds_root assemble_root]. by rewrite (assemble_represents _ _ _ _ Hn Hr).
Qed.
Lemma targets_of_doc v n tips p ms st : doc_ok (st_ctx st) → doc_at key (st_ctx st) v → dc_root (docs (st_ctx st) key) = Some n → resolveMatches p (Some v) = Some ms →
  dsteps (targets_of (mkDocSnap (Some (doc_of (docs (st_ctx st) key) n)) tips true false) p) st (λ x c', x = first_only p ms ∧ c' = st_ctx st).
Proof.
  intros Hh [Hr _] Hn Hv. apply dsteps_or_panic; [done|]. unfold writeTargets. cbn [ds_root assemble_root]. rewrite (assemble_represents _ _ _ _ Hn Hr).
  cbn [mbind option_bind]. by rewrite Hv.
Qed.
End Runs.

(** ** JSON.SET, JSON.GET, JSON.MERGE *)
Section Commands.
Context `{DocLaws} `{FloatText} `{UnicodeCase} `{Regexp} `{MathPow}.
Variable key : bytes.

(** Afterwards the key holds [v], the other keys what they held. *)
Definition leaves (c : Ctx) (v : JValue) (c' : Ctx) : Prop := doc_at key c' v ∧ ∀ k, k ≠ key → docs c' k = docs c k.
Lemma kept_leaves c c' v : doc_at key c' v → kept c c' → leaves c v c'.
Proof. intros Hd (Hk & _). split; [done|]. intros k _. apply Hk. Qed.
Lemma goes_leaves c c' c'' n v : doc_at key c'' v → kept c c' → goes key c' n c'' → leaves c v c''.
Proof. intros Hd (Hk & _) (Hg & _). split; [done|]. intros k Hne. by rewrite Hg, Hk. Qed.

Lemma parse_path_step s p st : doc_ok (st_ctx st) → ParsePath s = Some p → dsteps (parse_path s) st (λ x c', x = p ∧ c' = st_ctx st).
Proof. intros Hh E. unfold parse_path. rewrite E. by apply dsteps_ret. Qed.
Lemma parse_json_step s v st : doc_ok (st_ctx st) → Parse s = Some v → dsteps (parse_json s) st (λ x c', x = v ∧ c' = st_ctx st).
Proof. intros Hh E. unfold parse_json. rewrite E. by apply dsteps_ret. Qed.

Lemma isConcrete_steps jp steps : isConcrete (mkPath jp (concrete <$> steps)) = true.
Proof. unfold isConcrete. cbn [p_segs]. induction steps as [|s steps IH]; [done|]. exact IH. Qed.
Lemma is_root_steps jp steps : IsRoot (mkPath jp (concrete <$> steps)) = bool_decide (steps = []).
Proof. by destruct steps. Qed.

(** What NX and XX refuse: a location that is there, or is not. *)
Definition refused (nx xx : bool) (present : bool) : bool := (nx && present) || (xx && negb present).
Definition present (steps : list step) (v : JValue) : bool := bool_decide (is_Some (follow_all steps v)).

Lemma set_exists jp steps v n tips st : doc_ok (st_ctx st) → doc_at key (st_ctx st) v → dc_root (docs (st_ctx st) key) = Some n →
  let s := mkDocSnap (Some (doc_of (docs (st_ctx st) key) n)) tips true false in
  let path := mkPath jp (concrete <$> steps) in
  dsteps (if ds_exists s && negb (IsRoot path) then vs ← values_at s path; mret (0 <? len vs) else mret (ds_exists s)) st
    (λ b c', b = present steps v ∧ c' = st_ctx st).
Proof.
  intros Hh Hd Hn s path. unfold path. rewrite is_root_steps. unfold present. cbn [ds_exists s andb]. case_bool_decide as Hs; cbn [negb].
  { subst steps. by apply dsteps_ret. }
  eapply dsteps_bind; [apply (values_of key v n tips _ (option_list (follow_all steps v)) st Hh Hd Hn); by apply resolve_concrete|].
  cbv beta. intros vs c' Hh' [-> ->]. apply dsteps_ret; [done|]. split; [|done]. destruct (follow_all steps v); [by rewrite bool_decide_eq_true_2|]. rewrite bool_decide_eq_false_2; [done|]. by intros [? ?].
Qed.

Lemma set_runner_doc path text jp steps w v nx xx st :
  doc_ok (st_ctx st) → doc_at key (st_ctx st) v → ParsePath path = Some (mkPath jp (concrete <$> steps)) → Parse text = Some w → json_ok w →
  (cref w <= doc_room (st_ctx st))%nat →
  let o := if refused nx xx (present steps v) then None else set_at steps (canon w) v in
  answers (set_runner key path text nx xx) st
    (match o with Some _ => WriteOK | None => WriteNullBulkString end (st_w st)) (leaves (st_ctx st) (default v o)).
Proof.
  intros Hh Hd Hpp Hpt Hw Hroom o. unfold set_runner.
  eapply answers_bind; [by apply parse_path_step|]. cbv beta. intros p c0 _ [-> ->]. cbn [st_w st_held].
  eapply answers_bind; [by apply parse_json_step|]. cbv beta. intros w' c0 _ [-> ->]. cbn [st_w st_held st_ctx].
  eapply answers_bind; [by apply (read_doc key v (mkSt (st_ctx st) _ _))|]. cbn [st_w st_held st_ctx]. intros s c1 Hh1 (Hk & Hd1 & n & tips & Hn & ->). cbn [ds_wrongType].
  eapply answers_bind; [by apply (set_exists jp steps v n tips (mkSt c1 _ _))|]. cbn [st_w st_held st_ctx]. intros b c1' _ [-> ->]. unfold refused in o.
  destruct (nx && present steps v); cbn [orb] in o; [apply answers_reply; [done|done|by apply kept_leaves]|].
  destruct (xx && negb (present steps v)); [apply answers_reply; [done|done|by apply kept_leaves]|].
  cbn [ds_exists negb andb ds_root ds_tips]. rewrite isConcrete_steps. destruct Hk as (Hk1 & Hk2 & Hk3).
  eapply answers_bind; [apply dsteps_with_tips, (setValueAtPath_spec key v steps w (mkSt c1 _ _)); cbn [st_ctx]; try done; lia|].
  cbn [st_w st_held st_ctx p_segs]. intros applied c2 Hh2 [Hm Hg]. unfold o.
  destruct (set_at steps (canon w) v) as [v'|]; destruct Hm as [-> Hd2]; (apply answers_write; [done|done|]).
  - by apply (goes_leaves _ c1 _ (cref w)).
  - subst c2. by apply kept_leaves.
Qed.

(** The options of JSON.SET, and what each stands for. *)
Definition set_option (opt : list bytes) : option (bool * bool) :=
  match opt with
  | [] => Some (false, false)
  | [o] => if beq (strings_ToUpper o) (str "NX") then Some (true, false) else if beq (strings_ToUpper o) (str "XX") then Some (false, true) else None
  | _ => None
  end.
Lemma handleJSONSet_accepts path text opt nx xx : set_option opt = Some (nx, xx) →
  handleJSONSet (key :: path :: text :: opt) = Accept [key] (set_runner key path text nx xx).
Proof.
  destruct opt as [|o [|? ?]]; unfold set_option, handleJSONSet; [by intros [= <- <-]| |done]. cbv zeta.
  destruct (beq (strings_ToUpper o) (str "NX")); [by intros [= <- <-]|]. destruct (beq (strings_ToUpper o) (str "XX")); [by intros [= <- <-]|done].
Qed.

(** C4: JSON.SET on a key that holds a document, with a path of keys and indexes,
    replaces or adds the value at that location and nothing else of the document,
    and answers OK; where NX or XX refuse, or the location cannot be made (what
    leads to it is missing or of another kind, an index out of range), it answers
    null and the document is as before.  No other key changes. *)
Theorem json_set_at path text opt nx xx jp steps w v st :
  doc_ok (st_ctx st) → doc_at key (st_ctx st) v → set_option opt = Some (nx, xx) → ParsePath path = Some (mkPath jp (concrete <$> steps)) →
  Parse text = Some w → json_ok w → (cref w <= doc_room (st_ctx st))%nat →
  let o := if refused nx xx (present steps v) then None else set_at steps (canon w) v in
  ∃ runner, handleJSONSet (key :: path :: text :: opt) = Accept [key] runner ∧
    answers runner st (match o with Some _ => WriteOK | None => WriteNullBulkString end (st_w st)) (leaves (st_ctx st) (default v o)).
Proof. intros Hh Hd Ho Hpp Hpt Hw Hroom o. eexists. split; [by apply handleJSONSet_accepts|]. by apply (set_runner_doc path text jp). Qed.

Lemma set_runner_dead path text jp w st :
  doc_ok (st_ctx st) → dead key (st_ctx st) → ParsePath path = Some (mkPath jp []) → Parse text = Some w → json_ok w → (cref w <= doc_room (st_ctx st))%nat →
  answers (set_runner key path text false false) st (WriteOK (st_w st)) (leaves (st_ctx st) (canon w)).
Proof.
  intros Hh Hd Hpp Hpt Hw Hroom. unfold set_runner.
  eapply answers_bind; [by apply parse_path_step|]. cbv beta. intros p c0 _ [-> ->]. cbn [st_w st_held].
  eapply answers_bind; [by apply parse_json_step|]. cbv beta. intros w' c0 _ [-> ->]. cbn [st_w st_held st_ctx].
  eapply answers_bind; [by apply (read_dead key (mkSt (st_ctx st) _ _))|]. cbn [st_w st_held st_ctx]. intros s c1 Hh1 (Hk & Hd1 & tips & ->). cbn [ds_wrongType ds_exists andb negb ds_root ds_tips].
  eapply answers_bind; [by apply (dsteps_ret false (mkSt c1 _ _) (λ b c', b = false ∧ c' = c1))|]. cbn [st_w st_held st_ctx]. intros b c1' _ [-> ->]. cbn [andb IsRoot p_segs negb isConcrete forallb].
  pose proof Hk as (_ & _ & Hk3).
  eapply answers_bind; [apply dsteps_with_tips; unfold setValueAtPath; cbn [last]|].
  { eapply esteps_bind; [by apply (esteps_ret tt (mkSt c1 _ _) (λ _ c', c' = c1))|]. cbn [st_w st_held st_ctx]. intros _ c2 _ ->.
    eapply esteps_bind; [apply (encodeRoot_spec key w (mkSt c1 _ _)); cbn [st_ctx]; try done; lia|]. cbn [st_w st_held st_ctx]. intros _ c2 Hh2 Hq.
    apply (esteps_ret true (mkSt c2 _ _) (λ b c', b = true ∧ doc_at key c' (canon w) ∧ goes key c1 (cref w) c')); [done|]. by split. }
  cbn [st_w st_held st_ctx]. intros applied c2 Hh2 (-> & Hd2 & Hg). apply answers_write; [done|done|]. by apply (goes_leaves _ c1 _ (cref w)).
Qed.

(** A single path, which is none of the printing options. *)
Definition plain_path (path : bytes) : Prop := get_options [path] (mkPrint [] [] []) [] = Some (mkPrint [] [] [], [path]).

Lemma get_runner_doc path p v vs st : doc_ok (st_ctx st) → doc_at key (st_ctx st) v → plain_path path → ParsePath path = Some p → resolve p (Some v) = Some vs →
  answers (get_runner key [path]) st
    (match (if p_JSONPath p then Some (VArray vs) else head vs) with Some x => WriteBulkString (Serialize x) | None => WriteError (no_path path) end (st_w st))
    (leaves (st_ctx st) v).
Proof.
  intros Hh Hd Hpl Hpp Hv. unfold get_runner. rewrite Hpl.
  eapply answers_bind; [by apply (read_doc key v st)|]. cbv beta. intros s c1 Hh1 (Hk & Hd1 & n & tips & Hn & ->). cbn [ds_exists ds_wrongType negb ds_root assemble_root].
  destruct Hd1 as [Hr Hpo]. rewrite (assemble_represents _ _ _ _ Hn Hr).
  eapply answers_bind; [by apply (dsteps_or_panic _ (Some v) (mkSt c1 _ _))|]. cbn [st_w st_held st_ctx]. intros doc c2 _ [-> ->].
  assert (Hg : getOne (Some v) path (mkPrint [] [] []) = Some (Serialize <$> (if p_JSONPath p then Some (VArray vs) else head vs))).
  { unfold getOne, getValue. rewrite Hpp, Hv. cbn [mbind option_bind fmap option_fmap option_map]. by destruct (if p_JSONPath p then _ else _). }
  eapply answers_bind; [by apply (dsteps_or_panic _ _ (mkSt c1 _ _) Hh1 Hg)|]. cbn [st_w st_held st_ctx]. intros out c2 _ [-> ->].
  destruct (if p_JSONPath p then _ else _) as [x|]; cbn [fmap option_fmap option_map]; [apply answers_write|apply answers_reply]; try done; by apply kept_leaves.
Qed.

(** C6: What JSON.SET put at a location is what JSON.GET of the same path answers:
    the value as it prints, in an array for a JSONPath.  It holds for a key that
    was missing or deleted, where the path is the root, and for a key with a
    document wherever the value can be placed; numbers, member order and nested
    containers included, through the partitions the document is kept in. *)
Theorem json_set_get path text jp steps w v st :
  doc_ok (st_ctx st) → ParsePath path = Some (mkPath jp (concrete <$> steps)) → plain_path path → Parse text = Some w → json_ok w →
  (cref w <= doc_room (st_ctx st))%nat →
  (dead key (st_ctx st) ∧ steps = []) ∨ (doc_at key (st_ctx st) v ∧ is_Some (set_at steps (canon w) v)) →
  ∃ set get, handleJSONSet [key; path; text] = Accept [key] set ∧ handleJSONGet [key; path] = Accept [key] get ∧
    st_w (run get (run set st)) =
      WriteBulkString (Serialize (if jp then VArray [canon w] else canon w)) (WriteOK (st_w st)).
Proof.
  intros Hh Hpp Hpl Hpt Hw Hroom Hcase. eexists _, _. split; [done|]. split; [done|].
  assert (∃ v', answers (set_runner key path text false false) st (WriteOK (st_w st)) (leaves (st_ctx st) v') ∧ follow_all steps v' = Some (canon w)) as (v' & Hset & Hf).
  { destruct Hcase as [[Hd ->]|[Hd [v' Hs]]]; [exists (canon w); split; [by apply (set_runner_dead path text jp)|done]|].
    exists v'. split; [|by eapply follow_set_at]. pose proof (set_runner_doc path text jp steps w v false false st Hh Hd Hpp Hpt Hw Hroom) as Ha.
    cbn [refused andb orb] in Ha. by rewrite Hs in Ha. }
  destruct Hset as (o & c' & E & _ & Hh' & Hd' & _). unfold run at 2. rewrite E. cbn [snd].
  assert (Hres : resolve (mkPath jp (concrete <$> steps)) (Some v') = Some [canon w]) by (rewrite (resolve_concrete _ steps) by done; by rewrite Hf).
  destruct (get_runner_doc path _ v' _ (mkSt c' (WriteOK (st_w st)) (st_held st)) Hh' Hd' Hpl Hpp Hres) as (o2 & c2 & E2 & _). unfold run. rewrite E2. cbn [snd st_w p_JSONPath head].
  by destruct jp.
Qed.
(** *** JSON.MERGE *)

Lemma member_find k ms i m : list_find (λ m : bytes * JValue, fst m = k) ms = Some (i, m) → ms !! i = Some m ∧ fst m = k.
Proof. rewrite list_find_Some. tauto. Qed.
Lemma objGet_In k ms x : objGet k ms = Some x → (k, x) ∈ ms.
Proof.
  unfold objGet. destruct (list_find _ ms) as [[i m]|] eqn:E; [|done]. intros [= <-]. apply member_find in E as [Hi <-]. destruct m. by eapply list_elem_of_lookup_2.
Qed.
Lemma objSet_ok k x ms : valid_utf8 k → json_ok x → json_ok (VObject ms) → json_ok (VObject (objSet k x ms)).
Proof.
  intros Hk Hx Hms. inversion Hms as [| | | | | |ms' Hd Hu Ho]; subst. unfold objSet, objIndex. destruct (list_find _ ms) as [[i m]|] eqn:E; cbn [fmap option_fmap option_map fst].
  - apply member_find in E as [Hi Hf]. constructor.
    + rewrite list_fmap_insert. cbn [fst]. by rewrite list_insert_id by (rewrite list_lookup_fmap, Hi; cbn; by rewrite Hf).
    + by apply Forall_insert.
    + by apply Forall_insert.
  - apply list_find_None in E. constructor; [|apply Forall_app; split; [done|by constructor]..]. rewrite fmap_app. apply NoDup_app. split_and!; [done| |apply NoDup_singleton].
    intros y (m & -> & Hm)%list_elem_of_fmap Hy%list_elem_of_singleton. rewrite Forall_forall in E. by apply (E m).
Qed.
Lemma objDelete_ok k ms : json_ok (VObject ms) → json_ok (VObject (objDelete k ms)).
Proof.
  intros Hms. inversion Hms as [| | | | | |ms' Hd Hu Ho]; subst. unfold objDelete. destruct (objIndex k ms) as [i|]; [|done]. pose proof (sublist_delete ms i) as Hs.
  constructor; [eapply sublist_NoDup; [exact Hd|by apply fmap_sublist]|by apply (Forall_delete _ ms i)|by apply (Forall_delete _ ms i)].
Qed.
Lemma mergePatch_ok p t : json_ok p → (∀ x, t = Some x → json_ok x) → json_ok (mergePatch t p).
Proof.
  revert t. induction p as [| | | | | |ms IH] using JValue_ind; intros t Hp Ht; try done. cbn [mergePatch]. inversion Hp as [| | | | | |ms' _ Hu Ho]; subst. clear Hp.
  assert (Hb : json_ok (VObject (match t with Some (VObject t) => t | _ => [] end))).
  { destruct t as [[| | | | | |tm]|]; [..|by apply Ht|]; by repeat constructor. }
  revert Hb. generalize (match t with Some (VObject t) => t | _ => [] end). induction ms as [|[k x] ms IHms]; intros out Hout; [done|].
  apply Forall_cons in IH as [IHx IH]. apply Forall_cons in Hu as [Hk Hu]. apply Forall_cons in Ho as [Hx Ho]. cbn [fold_left fst snd] in *.
  apply IHms; [done|done|done|]. destruct (is_null x); [by apply objDelete_ok|]. apply objSet_ok; [done| |done]. apply IHx; [done|]. intros y Hy%objGet_In.
  inversion Hout as [| | | | | |? _ _ Hv]; subst. rewrite Forall_forall in Hv. by apply (Hv (k, y)).
Qed.


Lemma objGet_cons k m ms : objGet k (m :: ms) = if decide (fst m = k) then Some (snd m) else objGet k ms.
Proof. unfold objGet. cbn [list_find]. destruct (decide (fst m = k)); [done|]. by destruct (list_find _ ms) as [[i m']|]. Qed.
Lemma objSet_cons k x m ms : objSet k x (m :: ms) = if decide (fst m = k) then (k, x) :: ms else m :: objSet k x ms.
Proof. unfold objSet, objIndex. cbn [list_find]. destruct (decide (fst m = k)); [done|]. by destruct (list_find _ ms) as [[i m']|]. Qed.
Lemma objDelete_cons k m ms : objDelete k (m :: ms) = if decide (fst m = k) then ms else m :: objDelete k ms.
Proof. unfold objDelete, objIndex. cbn [list_find]. destruct (decide (fst m = k)); [done|]. by destruct (list_find _ ms) as [[i m']|]. Qed.
Lemma objGet_None k ms : k ∉ fst <$> ms → objGet k ms = None.
Proof. induction ms as [|m ms IH]; [done|]. rewrite fmap_cons, not_elem_of_cons, objGet_cons. intros [Hne Hn]. rewrite decide_False by done. auto. Qed.
Lemma objGet_objSet_ne k k' x ms : k' ≠ k → objGet k (objSet k' x ms) = objGet k ms.
Proof.
  intros Hne. induction ms as [|m ms IH]; [unfold objGet; cbn; by rewrite decide_False|]. rewrite objSet_cons. destruct (decide (fst m = k')) as [E|E]; rewrite !objGet_cons; cbn [fst snd].
  - by rewrite !decide_False by congruence.
  - by rewrite IH.
Qed.
Lemma objGet_objDelete k k' ms : NoDup (fst <$> ms) → objGet k (objDelete k' ms) = if decide (k' = k) then None else objGet k ms.
Proof.
  induction ms as [|m ms IH]; [by destruct (decide (k' = k))|]. rewrite fmap_cons, NoDup_cons, objDelete_cons. intros [Hn Hd]. destruct (decide (fst m = k')) as [E|E].
  - subst k'. rewrite objGet_cons. destruct (decide (fst m = k)) as [<-|]; [by apply objGet_None|done].
  - rewrite !objGet_cons, IH by done. destruct (decide (k' = k)); [|done]. by rewrite decide_False by congruence.
Qed.

(** Member by member: what the patch does not name stays, a null takes the member
    away, and any other value is merged into it. *)
Definition merged_member (old new : option JValue) : option JValue :=
  match new with None => old | Some VNull => None | Some p => Some (mergePatch old p) end.

Lemma merge_members ms out k : json_ok (VObject out) → NoDup (fst <$> ms) → Forall (λ m, valid_utf8 (fst m)) ms → Forall (λ m, json_ok (snd m)) ms →
  objGet k (fold_left (λ out m, if is_null (snd m) then objDelete (fst m) out else objSet (fst m) (mergePatch (objGet (fst m) out) (snd m)) out) ms out) =
    merged_member (objGet k out) (objGet k ms).
Proof.
  revert out. induction ms as [|[k' x] ms IH]; intros out Hout Hd Hu Ho; [done|]. rewrite fmap_cons, NoDup_cons in Hd. destruct Hd as [Hn Hd].
  apply Forall_cons in Hu as [Hk Hu]. apply Forall_cons in Ho as [Hx Ho]. cbn [fold_left fst snd] in *. rewrite objGet_cons. cbn [fst snd].
  assert (Hout' : ∀ y, objGet k' out = Some y → json_ok y).
  { intros y Hy%objGet_In. inversion Hout as [| | | | | |? _ _ Hv]; subst. rewrite Forall_forall in Hv. by apply (Hv (k', y)). }
  rewrite IH; [|destruct (is_null x); [by apply objDelete_ok|apply objSet_ok; [done|by apply mergePatch_ok|done]]|done|done|done].
  destruct (decide (k' = k)) as [->|Hne].
  - rewrite (objGet_None k ms) by done. destruct x; cbn [is_null merged_member]; try apply objGet_objSet. inversion Hout; subst. rewrite objGet_objDelete by done. by rewrite decide_True.
  - destruct (is_null x); [|by rewrite objGet_objSet_ne]. inversion Hout; subst. rewrite objGet_objDelete by done. by rewrite decide_False.
Qed.
Theorem mergePatch_members t ms k : json_ok (VObject ms) → (∀ x, t = Some x → json_ok x) → ∃ out, mergePatch t (VObject ms) = VObject out ∧
  objGet k out = merged_member (match t with Some (VObject t) => objGet k t | _ => None end) (objGet k ms).
Proof.
  intros Hms Ht. inversion Hms as [| | | | | |ms' Hd Hu Ho]; subst. eexists. split; [reflexivity|]. rewrite merge_members; [|destruct t as [[| | | | | |tm]|]; [..|by apply Ht|]; by repeat constructor|done|done|done].
  by destruct t as [[| | | | | |tm]|].
Qed.

Lemma follow_ok s v s' x : follow s v = Some (s', x) → json_ok v → json_ok x.
Proof.
  intros Hf Hv. destruct s as [k|i], v as [| | | | |l|ms]; try done; cbn [follow] in Hf.
  - destruct (objGet k ms) as [y|] eqn:E; [|done]. injection Hf as _ <-. inversion Hv as [| | | | | |? _ _ Ho]; subst. rewrite Forall_forall in Ho. apply (Ho (k, y)), objGet_In, E.
  - destruct (normIndex i (len l)) as [j|]; [|done]. cbn [mbind option_bind] in Hf. unfold arr_at in Hf. destruct (j <? 0); [done|]. destruct (l !! Z.to_nat j) as [y|] eqn:E; [|done].
    injection Hf as _ <-. inversion Hv as [| | | | |? Hl|]; subst. by eapply Forall_lookup_1.
Qed.
Lemma follow_all_ok steps v x : follow_all steps v = Some x → json_ok v → json_ok x.
Proof.
  revert v. induction steps as [|s steps IH]; intros v Hf Hv; [by injection Hf as <-|]. cbn [follow_all] in Hf. destruct (follow s v) as [[s' cv]|] eqn:E; [|done].
  eapply IH; [exact Hf|by eapply follow_ok].
Qed.

(** JSON.MERGE at a path of keys and indexes puts the merge of the patch with what
    is there, and nothing else changes; where nothing can be put the answer is
    null. *)
Theorem json_merge_at path text jp steps patch v st :
  doc_ok (st_ctx st) → doc_at key (st_ctx st) v → json_ok v → ParsePath path = Some (mkPath jp (concrete <$> steps)) → Parse text = Some patch → json_ok patch →
  let w := mergePatch (follow_all steps v) patch in (cref w <= doc_room (st_ctx st))%nat →
  ∃ runner, handleJSONMerge [key; path; text] = Accept [key] runner ∧
    answers runner st (match set_at steps (canon w) v with Some _ => WriteOK | None => WriteNullBulkString end (st_w st))
      (leaves (st_ctx st) (default v (set_at steps (canon w) v))).
Proof.
  intros Hh Hd Hok Hpp Hpt Hp w Hroom. eexists. split; [done|]. unfold merge_runner.
  eapply answers_bind; [by apply parse_path_step|]. cbv beta. intros p c0 _ [-> ->]. cbn [st_w st_held].
  eapply answers_bind; [by apply parse_json_step|]. cbv beta. intros w' c0 _ [-> ->]. cbn [st_w st_held st_ctx].
  eapply answers_bind; [by apply (read_doc key v (mkSt (st_ctx st) _ _))|]. cbn [st_w st_held st_ctx]. intros s c1 Hh1 (Hk & Hd1 & n & tips & Hn & ->).
  cbn [ds_wrongType ds_exists negb andb ds_root ds_tips]. rewrite isConcrete_steps. destruct Hk as (Hk1 & Hk2 & Hk3).
  eapply answers_bind.
  { eapply dsteps_bind; [apply (values_of key v n tips _ (option_list (follow_all steps v)) (mkSt c1 _ _) Hh1 Hd1 Hn); by apply resolve_concrete|].
    cbn [st_w st_held st_ctx]. intros vs c' _ [-> ->]. by apply (dsteps_ret _ (mkSt c1 _ _) (λ x c', x = follow_all steps v ∧ c' = c1)); [|by destruct (follow_all steps v)]. }
  cbn [st_w st_held st_ctx]. intros cur c' _ [-> ->]. fold w.
  assert (Hw : json_ok w) by (apply mergePatch_ok; [done|]; intros x Hx; by eapply follow_all_ok).
  eapply answers_bind; [apply dsteps_with_tips, (setValueAtPath_spec key v steps w (mkSt c1 _ _)); cbn [st_ctx]; try done; lia|].
  cbn [st_w st_held st_ctx p_segs]. intros applied c2 Hh2 [Hm Hg].
  destruct (set_at steps (canon w) v) as [v'|]; destruct Hm as [-> Hd2]; (apply answers_write; [done|done|]).
  - by apply (goes_leaves _ c1 _ (cref w)).
  - subst c2. by apply kept_leaves.
Qed.
End Commands.

(** ** Arrays *)

Section Located.
Context `{ParseFloat}.

Lemma locate_sub old ds l t x : laid old ds t → locate l (tvalue t) = Some (l, x) → ∃ u, sub_at l t = Some u ∧ tvalue u = x.
Proof.
  revert t. induction l as [|s l IH]; intros t Hl Hloc; [injection Hloc as <-; by exists t|]. cbn [locate] in Hloc.
  destruct (follow s (tvalue t)) as [[s' cv]|] eqn:Ef; [|done]. cbn [mbind option_bind] in Hloc. destruct (locate l cv) as [[l' x']|] eqn:El; [|done].
  injection Hloc as <- <- ->. destruct t as [raw|vid obj kids].
  { destruct (laid_leaf_value _ _ _ Hl) as (v & Hv & Hc). rewrite Hv, scalar_follow in Ef by done. done. }
  pose proof (follow_kids s' vid obj kids) as Hf. rewrite Ef in Hf. cbn [fmap option_fmap option_map snd sub_at] in Hf |- *.
  destruct (kid_index s' obj kids) as [j|]; [|done]. cbn [mbind option_bind] in Hf |- *. destruct (kids !! j) as [k|] eqn:Ek; [|done].
  cbn [fmap option_fmap option_map mbind option_bind] in Hf |- *. injection Hf as ->. apply IH; [|done]. apply (kids_laid _ _ vid obj kids); [done|]. by apply list_elem_of_lookup_2 in Ek.
Qed.

Lemma sub_array old ds l t u xs : laid old ds t → sub_at l t = Some u → tvalue u = VArray xs →
  ∃ vid kids, u = DNode vid false kids ∧ (λ k, tvalue (snd k)) <$> kids = xs.
Proof.
  intros Hl Hs Hv. pose proof (sub_laid _ _ _ _ _ Hl Hs) as Hlu. destruct u as [raw|vid [|] kids]; [|done|].
  - destruct (laid_leaf_value _ _ _ Hlu) as (v & Hv' & Hc). by rewrite Hv in Hv'; subst.
  - injection Hv as <-. by exists vid, kids.
Qed.
End Located.

Section Arrays.
Context `{DocLaws} `{FloatText} `{UnicodeCase} `{Regexp} `{MathPow}.
Variable key : bytes.

Lemma array_tree c v steps l xs : doc_at key c v → locate steps v = Some (l, VArray xs) →
  ∃ obj0 kids0 vid kids, tree_at key c obj0 kids0 ∧ tvalue (DNode [] obj0 kids0) = v ∧ sub_at l (DNode [] obj0 kids0) = Some (DNode vid false kids) ∧
    (λ k, tvalue (snd k)) <$> kids = xs.
Proof.
  intros [Hr Hp] Hloc. apply locate_idem in Hloc. destruct Hr as [(raw & _ & Hpr & Hc)|(obj & kids & Hl & Hd & Hv)].
  - destruct l as [|s l]; cbn in Hloc; [injection Hloc as ->; done|]. by rewrite scalar_follow in Hloc.
  - subst v. destruct (locate_sub _ _ _ _ _ Hl Hloc) as (u & Hs & Hu). destruct (sub_array _ _ _ _ _ _ Hl Hs Hu) as (vid & ks & -> & Hks).
    by exists obj, kids, vid, ks.
Qed.

(** What an operation does to the elements of an array, with its reply; the steps
    of [apply] lay it out in the partition. *)
Definition applies (c : Ctx) (n : nat) (m : EM unit) (vid : bytes) (kids : Kids) (xs : list JValue) : Prop :=
  ∀ st, st_ctx st = c → doc_ok c → is_Some (dc_root (docs c key)) → node_get (docs c key) vid = Some (node_of false kids) → ids_ok c kids → parts_old key c →
    (n <= doc_room c)%nat →
    esteps m st (λ _ c', ∃ new final, planted key vid false c n new final c' ∧ (∀ k, k ∈ final → k ∈ kids ∨ k ∈ new) ∧ ids_ok c' final ∧
                          (λ k, tvalue (snd k)) <$> final = xs).
Definition implements (op : arrIntOp) (n : nat) (f : list JValue → result bytes (list JValue * Z)) : Prop :=
  ∀ vid kids, match op vid (node_of false kids), f ((λ k, tvalue (snd k)) <$> kids) with
              | Ok (m, r), Ok (xs, r') => r = r' ∧ ∀ c, applies c n m vid kids xs
              | Err e, Err e' => e = e'
              | _, _ => False
              end.

Lemma applies_doc c n m obj0 kids0 l vid kids xs st : tree_at key c obj0 kids0 → sub_at l (DNode [] obj0 kids0) = Some (DNode vid false kids) →
  applies c n m vid kids xs → st_ctx st = c → doc_ok c → (n <= doc_room c)%nat →
  esteps m st (λ _ c', (∃ v', update_at (λ _, Some (VArray xs)) l (tvalue (DNode [] obj0 kids0)) = Some v' ∧ doc_at key c' v') ∧ goes key c n c').
Proof.
  intros Ht Hs Ha Hst Hh Hroom. destruct (tree_part key c obj0 kids0 l vid false kids Ht Hs) as (Hn & Hnd & Ho & _). pose proof (tree_root key _ _ _ Ht) as Hroot.
  destruct Ht as (Hl & Hd & Hp). eapply esteps_weaken; [apply (Ha st Hst Hh Hroot Hn); [by split; [|apply Ho]|done|done]|]. cbv beta.
  intros _ c' (new & final & Hpl & Hf & [Hi1 Hi2] & Hxs). split; [|by destruct Hpl as (_ & _ & _ & _ & _ & ? & _)].
  exists (tvalue (replace_at l (DNode vid false final) (DNode [] obj0 kids0))). split.
  - apply (update_tree _ l _ _ (DNode vid false final) Hs). cbn [tvalue]. by rewrite Hxs.
  - by eapply (planted_doc key l obj0 false kids0 kids).
Qed.

(** Appending and inserting. *)
Definition append_spec (vals xs : list JValue) : result bytes (list JValue * Z) := Ok (xs ++ vals, len xs + len vals).
Definition insert_spec (idx : Z) (vals xs : list JValue) : result bytes (list JValue * Z) :=
  let i := if idx <? 0 then idx + len xs else idx in
  if (i <? 0) || (len xs <? i) then Err (str "ERR index out of range")
  else Ok (take (Z.to_nat i) xs ++ vals ++ drop (Z.to_nat i) xs, len xs + len vals).

Lemma applies_insert c vid pre post refID vals : Forall json_ok vals → placed refID post →
  applies c (elements_cost vals) (insert_values key vid refID vals) vid (pre ++ post)
    (((λ k, tvalue (snd k)) <$> pre) ++ (canon <$> vals) ++ ((λ k, tvalue (snd k)) <$> post)).
Proof.
  intros Hv Hpl st Hst Hh Hroot Hn Hids Hp Hroom. subst c. change (insert_values key vid refID vals) with (insert_many key vid refID vals).
  eapply esteps_weaken; [apply (encode_elements key vid (st_ctx st) 0 [] pre post refID vals st); try done|].
  - by apply planted_refl.
  - by right.
  - apply Forall_forall. intros v _. apply encodes_all.
  - cbv beta. intros _ c' (ks & Hp2 & Hvals & Hids2). exists ks, (pre ++ ks ++ post). split; [done|]. split_and!; [|done|].
    + intros k. rewrite !elem_of_app. tauto.
    + by rewrite !fmap_app, Hvals.
Qed.
Lemma len_elements kids : len (nr_OrderedElements (node_of false kids)) = len ((λ k : bytes * DTree, tvalue (snd k)) <$> kids).
Proof. unfold len. cbn [node_of nr_OrderedElements]. by rewrite !length_fmap. Qed.

Lemma append_implements vals : Forall json_ok vals → implements (append_op key vals) (elements_cost vals) (append_spec (canon <$> vals)).
Proof.
  intros Hv vid kids. unfold append_op, append_spec. rewrite len_elements. split; [unfold len; by rewrite !length_fmap|].
  intros c. pose proof (applies_insert c vid kids [] None vals Hv I) as Ha. by rewrite !app_nil_r in Ha.
Qed.
Lemma insert_implements idx vals : Forall json_ok vals → implements (insert_op key idx vals) (elements_cost vals) (insert_spec idx (canon <$> vals)).
Proof.
  intros Hv vid kids. unfold insert_op, insert_spec. rewrite len_elements. set (n := len _). set (i := if idx <? 0 then idx + n else idx).
  destruct ((i <? 0) || (n <? i)) eqn:Ei; [done|]. split; [unfold len; by rewrite length_fmap|]. intros c. apply orb_false_iff in Ei as [Hi%Z.ltb_ge Hin%Z.ltb_ge].
  rewrite <- fmap_take, <- fmap_drop. rewrite <- (take_drop (Z.to_nat i) kids) at 2. apply applies_insert; [done|]. cbn [node_of nr_OrderedElements]. rewrite list_lookup_fmap.
  destruct (kids !! Z.to_nat i) as [[id t]|] eqn:Ek; cbn [fmap option_fmap option_map].
  - by rewrite (drop_S _ _ _ Ek).
  - apply lookup_ge_None in Ek. by rewrite drop_ge.
Qed.

(** Removing. *)
Lemma remove_each vid c n ids final st : planted key vid false c n [] final (st_ctx st) → doc_ok (st_ctx st) →
  esteps (em_each (λ id, em_emit (orderedRemoveEffect key vid id)) ids) st (λ _ c', planted key vid false c n [] (filter (λ k, fst k ∉ ids) final) c').
Proof.
  revert final st. induction ids as [|id ids IH]; intros final st Hp Hh.
  { apply esteps_ret; [done|]. rewrite filter_id; [done|]. intros; apply not_elem_of_nil. }
  change (em_each ?f (id :: ids)) with (f id ≫= λ _, em_each f ids). pose proof Hp as (Hn & _).
  eapply esteps_bind; [eapply (esteps_emit key (orderedRemoveEffect key vid id) st); [done|done|by apply reduce_remove]|]. cbv beta. intros _ c1 Hh1 [Hd1 Hg1].
  pose proof (planted_node key vid false _ _ _ _ _ _ _ _ Hp Hd1 Hg1) as Hp1. rewrite Nat.add_0_r in Hp1.
  eapply esteps_weaken; [apply (IH _ (mkSt c1 _ _) Hp1 Hh1)|]. cbv beta. intros _ c2. rewrite list_filter_filter. intros Hp2.
  erewrite list_filter_iff; [exact Hp2|]. intros k. cbv beta. rewrite not_elem_of_cons. tauto.
Qed.
Lemma applies_remove c vid kids ids : applies c 0 (em_each (λ id, em_emit (orderedRemoveEffect key vid id)) ids) vid kids
  ((λ k, tvalue (snd k)) <$> filter (λ k, fst k ∉ ids) kids).
Proof.
  intros st Hst Hh Hroot Hn Hids Hp Hroom. subst c. eapply esteps_weaken; [apply (remove_each vid (st_ctx st) 0 ids kids st); [by apply planted_refl|done]|].
  cbv beta. intros _ c' Hp'. exists [], (filter (λ k, fst k ∉ ids) kids). split; [done|]. pose proof Hp' as (_ & _ & _ & _ & _ & (_ & Hc & _) & _). split; [|split; [split|done]].
  - intros k Hk. left. by apply list_elem_of_filter in Hk as [_ ?].
  - destruct Hids as [Hids _]. eapply sublist_NoDup; [exact Hids|]. apply fmap_sublist, sublist_filter.
  - destruct Hids as [_ Ho]. apply Forall_forall. intros id (k & -> & Hk)%list_elem_of_fmap. apply (older_mono (st_ctx st)); [done|]. rewrite Forall_forall in Ho. apply Ho.
    apply list_elem_of_fmap_2. by apply list_elem_of_filter in Hk as [_ ?].
Qed.

Lemma filter_middle (A B C : Kids) : NoDup (fst <$> (A ++ B ++ C)) → filter (λ k, fst k ∉ fst <$> (A ++ C)) (A ++ B ++ C) = B.
Proof.
  rewrite !fmap_app. intros (HA & HAB & (HB & HBC & HC)%NoDup_app)%NoDup_app. rewrite !filter_app.
  assert (Hnil : ∀ X : Kids, (∀ x, x ∈ X → fst x ∈ (fst <$> A) ++ (fst <$> C)) → filter (λ k, fst k ∉ (fst <$> A) ++ (fst <$> C)) X = []).
  { intros X HX. induction X as [|x X IH]; [done|]. rewrite filter_cons_False; [apply IH; intros y Hy; apply HX; by right|]. intros Hn. apply Hn, HX. by left. }
  rewrite (Hnil A), (Hnil C), app_nil_r; [| |].
  - cbn. apply filter_id. intros x Hx. rewrite elem_of_app. intros [Hin|Hin].
    + apply (HAB _ Hin). rewrite elem_of_app. left. by apply list_elem_of_fmap_2.
    + apply (HBC (fst x)); [by apply list_elem_of_fmap_2|done].
  - intros x Hx. rewrite elem_of_app. right. by apply list_elem_of_fmap_2.
  - intros x Hx. rewrite elem_of_app. left. by apply list_elem_of_fmap_2.
Qed.

Definition trim_spec (start stop : Z) (xs : list JValue) : result bytes (list JValue * Z) :=
  let '(s, e) := trim_bounds start stop (len xs) in
  if (len xs =? 0) || (len xs <=? s) || (e <? s) then Ok ([], 0)
  else Ok (drop (Z.to_nat s) (take (Z.to_nat (e + 1)) xs), e - s + 1).

Lemma trim_implements start stop : implements (trim_op key start stop) 0 (trim_spec start stop).
Proof.
  intros vid kids. unfold trim_op, trim_spec. rewrite len_elements. set (n := len _). destruct (trim_bounds start stop n) as [s e] eqn:Eb.
  destruct ((n =? 0) || (n <=? s) || (e <? s)) eqn:E; (split; [done|]); intros c st Hst Hh Hroot Hn Hids Hp Hroom.
  - assert (Hf : (λ k : bytes * DTree, tvalue (snd k)) <$> filter (λ k, fst k ∉ nl_Id <$> nr_OrderedElements (node_of false kids)) kids = []).
    { pose proof (filter_middle kids [] []) as Hm. rewrite !app_nil_r in Hm. cbn [node_of nr_OrderedElements]. rewrite <- list_fmap_compose. change (nl_Id ∘ element_of) with (fst (A:=bytes) (B:=DTree)).
      rewrite Hm; [done|]. apply Hids. }
    rewrite <- Hf. by apply (applies_remove c vid kids).
  - rewrite !orb_false_iff in E. destruct E as [[E1%Z.eqb_neq E2%Z.leb_gt] E3%Z.ltb_ge].
    assert (Hs : 0 <= s /\ e < n) by (unfold trim_bounds in Eb; injection Eb as <- <-; destruct (Z.ltb_spec start 0), (Z.leb_spec n (if stop <? 0 then stop + n else stop)); lia).
    assert (Hsplit : kids = take (Z.to_nat s) kids ++ drop (Z.to_nat s) (take (Z.to_nat (e + 1)) kids) ++ drop (Z.to_nat (e + 1)) kids).
    { rewrite <- (take_drop (Z.to_nat (e + 1)) kids) at 1. rewrite <- (take_drop (Z.to_nat s) (take (Z.to_nat (e + 1)) kids)) at 1. rewrite take_take, Nat.min_l by lia. by rewrite <- app_assoc. }
    assert (Hf : (λ k : bytes * DTree, tvalue (snd k)) <$> filter (λ k, fst k ∉ nl_Id <$> (take (Z.to_nat s) (nr_OrderedElements (node_of false kids)) ++ drop (Z.to_nat (e + 1)) (nr_OrderedElements (node_of false kids)))) kids =
                 drop (Z.to_nat s) (take (Z.to_nat (e + 1)) ((λ k : bytes * DTree, tvalue (snd k)) <$> kids))).
    { cbn [node_of nr_OrderedElements]. rewrite <- !fmap_take, <- !fmap_drop, <- fmap_app, <- list_fmap_compose. change (nl_Id ∘ element_of) with (fst (A:=bytes) (B:=DTree)).
      f_equal. pose proof (filter_middle (take (Z.to_nat s) kids) (drop (Z.to_nat s) (take (Z.to_nat (e + 1)) kids)) (drop (Z.to_nat (e + 1)) kids)) as Hm.
      rewrite <- Hsplit in Hm. apply Hm, Hids. }
    rewrite <- Hf. by apply (applies_remove c vid kids).
Qed.

(** *** The command *)

Lemma kept_tree c c' obj0 kids0 : kept c c' → tree_at key c obj0 kids0 → tree_at key c' obj0 kids0.
Proof.
  intros Hk (Hl & Hd & Hp). split_and!; [|done|by eapply kept_parts]. destruct Hk as (Hdocs & Hc & _). rewrite Hdocs. apply (laid_mono (older c)); [|done]. intros x. by apply older_mono.
Qed.
Lemma begin_doc_step tips st : doc_ok (st_ctx st) → dsteps (begin_doc key tips) st (λ _ c', kept (st_ctx st) c').
Proof.
  intros Hh. destruct (law_doc_begin _ Hh) as (Hh1 & Hd1 & Hc1 & Hr1).
  destruct (emit_node_step key (mkNodeEffect key [] Node_Noop) tips (mkSt (BeginTx (st_ctx st)) (st_w st) (st_held st)) (docs (BeginTx (st_ctx st)) key) Hh1 eq_refl) as (c' & E & Hh' & Hd' & Ho & Hc & Hr).
  { cbn [ne_Virtual ne_Kind st_ctx reduce_node]. by destruct (node_get (docs (BeginTx (st_ctx st)) key) []). }
  exists tt, c'. unfold begin_doc, begin_tx, mbind, M_bind. cbn [st_ctx st_w st_held] in *. rewrite E. split; [done|]. split; [done|]. split_and!; [|lia..].
  intros k. rewrite <- Hd1. destruct (decide (k = key)) as [->|Hne]; [done|by apply Ho].
Qed.
Lemma walk_doc c n obj0 kids0 l : tree_at key c obj0 kids0 → dc_root (docs c key) = Some n →
  walkToParent (doc_of (docs c key) n) (concrete <$> l) = match sub_at l (DNode [] obj0 kids0) with Some (DNode v o k) => Some (v, node_of o k) | _ => None end.
Proof.
  intros (Hl & Hd & _) Hn. assert (Hn' : n = node_of obj0 kids0) by (inversion Hl as [|? ? ? Hx]; subst; cbn in Hx; congruence).
  unfold walkToParent. cbn [do_Root doc_of]. rewrite Hn' at 2. apply (walk_tree (older c)); [done|done|]. intros k Hk. by apply (root_kids_inner obj0 kids0 k).
Qed.

(** The one target of a concrete path. *)
Lemma resolve_one c n p steps v : doc_at key c v → dc_root (docs c key) = Some n → p_segs p = concrete <$> steps →
  resolveArrays (Some (doc_of (docs c key) n)) p = Some (match locate steps v with Some (l, x) => [arr_target (doc_of (docs c key) n) (x, l)] | None => [] end).
Proof.
  intros [Hr _] Hn Hp. unfold resolveArrays, writeTargets. cbn [assemble_root]. rewrite (assemble_represents _ _ _ _ Hn Hr). cbn [mbind option_bind].
  rewrite (resolveMatches_concrete p steps v Hp). cbn [mbind option_bind fmap option_fmap option_map]. unfold first_only. destruct (locate steps v) as [[l x]|]; by destruct (p_JSONPath p).
Qed.

(** The reply of an array command on one location: the result of an array, what a
    value of another type gets, or nothing there. *)
Definition one_reply (jp : bool) (path : bytes) (x : option JValue) (r : Writer → Writer) : Writer → Writer :=
  match x with
  | None => if jp then WriteArray 0 else WriteError (no_path path)
  | Some (VArray _) => if jp then r ∘ WriteArray 1 else r
  | Some x => if jp then WriteNullBulkString ∘ WriteArray 1 else WriteError (notArrayErr x)
  end.
(** The document and the reply a run leaves. *)
Definition array_outcome (f : list JValue → result bytes (list JValue * Z)) (jp : bool) (path : bytes) (steps : list step) (v : JValue) : (Writer → Writer) * JValue :=
  match follow_all steps v with
  | Some (VArray xs) =>
    match f xs with
    | Ok (xs', r) => (one_reply jp path (Some (VArray xs)) (WriteInteger r), default v (update_at (λ _, Some (VArray xs')) steps v))
    | Err e => (WriteError e, v)
    end
  | x => (one_reply jp path x id, v)
  end.


Lemma answers_each_none {A} (x : option A) (f : A → option Z) st w (P : Ctx → Prop) : doc_ok (st_ctx st) → P (st_ctx st) →
  w = match x with Some a => match f a with Some r => WriteInteger r | None => WriteNullBulkString end (st_w st) | None => st_w st end →
  answers (for_each (option_list x) (λ a, write_int_or_null (f a))) st w P.
Proof. intros Hh HP ->. destruct x as [a|]; (exists (Next tt), (st_ctx st)); destruct st; cbn; [destruct (f a)|]; by auto. Qed.

Lemma write_arrays_spec op n f path jp steps v st m tips : doc_ok (st_ctx st) → doc_at key (st_ctx st) v → dc_root (docs (st_ctx st) key) = Some m →
  implements op n f → (n <= doc_room (st_ctx st))%nat →
  let '(w, v') := array_outcome f jp path steps v in
  answers (write_arrays key path (mkPath jp (concrete <$> steps)) (mkDocSnap (Some (doc_of (docs (st_ctx st) key) m)) tips true false) op) st
    (w (st_w st)) (leaves key (st_ctx st) v').
Proof.
  intros Hh Hd Hn Him Hroom. unfold array_outcome, write_arrays. rewrite locate_follow. cbn [ds_root p_JSONPath ds_tips].
  assert (Hsame : leaves key (st_ctx st) v (st_ctx st)) by (apply kept_leaves; [done|apply kept_refl]).
  pose proof (resolve_one _ m (mkPath jp (concrete <$> steps)) steps v Hd Hn eq_refl) as Hres. rewrite Hres. clear Hres.
  destruct (locate steps v) as [[l x]|] eqn:El; cbn [fmap option_fmap option_map snd].
  2: { destruct jp; [by exists (Next tt), (st_ctx st); destruct st; auto|by exists Return, (st_ctx st); destruct st; auto]. }
  assert (Hother : (∀ xs, x ≠ VArray xs) → arr_target (doc_of (docs (st_ctx st) key) m) (x, l) = mkArrTarget x None) by (intros Hx; by destruct x; try done; exfalso; eapply Hx).
  destruct x as [|b|i|g|s0|xs|ms];
    try (rewrite Hother by done; destruct jp; [by exists (Next tt), (st_ctx st); destruct st; auto|by exists Return, (st_ctx st); destruct st; auto]). clear Hother.
  destruct (array_tree _ v steps l xs Hd El) as (obj0 & kids0 & vid & kids & Ht & Hv & Hs & Hxs). specialize (Him vid kids). rewrite Hxs in Him.
  assert (Htar : arr_target (doc_of (docs (st_ctx st) key) m) (VArray xs, l) = mkArrTarget (VArray xs) (Some (vid, node_of false kids))).
  { unfold arr_target, match_segs. cbn [fst snd]. by rewrite (walk_doc _ _ _ _ _ Ht Hn), Hs. }
  rewrite Htar. clear Htar.
  destruct (op vid (node_of false kids)) as [[ap r]|e] eqn:Eop, (f xs) as [[xs' r']|e']; try done; eapply answers_bind; try (by apply dsteps_or_panic);
    cbv beta; intros ts c0 _ [-> ->]; cbn [plan_all at_node]; rewrite Eop; [|subst e'; by apply answers_reply]. destruct Him as [-> Ha].
  cbn [omap list_omap id fmap list_fmap fst].
  eapply answers_bind.
  { eapply dsteps_bind; [by apply begin_doc_step|]. cbn [st_ctx st_w st_held]. intros _ c1 Hh1 Hk. pose proof Hk as (_ & _ & Hr1). cbn [for_each].
    eapply dsteps_bind; [apply dsteps_with_tips, (applies_doc c1 n ap obj0 kids0 l vid kids xs' (mkSt c1 _ _)); cbn [st_ctx]; [by eapply kept_tree|done|done|done|done|lia]|].
    cbn [st_ctx st_w st_held]. intros _ c2 Hh2 [Hv2 Hg2].
    apply (dsteps_ret tt (mkSt c2 _ _) (λ _ c', ∃ v', update_at (λ _, Some (VArray xs')) l v = Some v' ∧ leaves key (st_ctx st) v' c')); [done|].
    destruct Hv2 as (v' & Hu & Hd2). rewrite Hv in Hu. exists v'. split; [done|]. by apply (goes_leaves key _ c1 _ n). }
  cbn [st_ctx st_w st_held]. intros _ c2 Hh2 (v' & Hu & Hl2). rewrite (locate_update _ _ _ _ _ El) in Hu. rewrite Hu. cbn [default from_option id one_reply].
  destruct jp; [by exists (Next tt), c2; auto|]. by apply answers_write.
Qed.

Lemma arrayWriteInt_spec op n f path jp steps v st : doc_ok (st_ctx st) → doc_at key (st_ctx st) v → ParsePath path = Some (mkPath jp (concrete <$> steps)) →
  implements op n f → (n <= doc_room (st_ctx st))%nat →
  let '(w, v') := array_outcome f jp path steps v in answers (arrayWriteInt key path op) st (w (st_w st)) (leaves key (st_ctx st) v').
Proof.
  intros Hh Hd Hpp Him Hroom. destruct (array_outcome f jp path steps v) as [w v'] eqn:Eo. unfold arrayWriteInt.
  eapply answers_bind; [by apply parse_path_step|]. cbv beta. intros p c0 _ [-> ->]. cbn [st_w st_held].
  eapply answers_bind; [by apply (read_doc key v (mkSt (st_ctx st) _ _))|]. cbn [st_w st_held st_ctx]. intros s c1 Hh1 (Hk & Hd1 & m & tips & Hn & ->).
  cbn [ds_wrongType ds_exists negb]. pose proof Hk as (Hk1 & _ & Hr1).
  pose proof (write_arrays_spec op n f path jp steps v (mkSt c1 (st_w st) (st_held st)) m tips Hh1 Hd1 Hn Him) as Ha. rewrite Eo in Ha. cbn [st_w st_held st_ctx] in Ha.
  destruct Ha as (o & c2 & E & Ho & Hh2 & Hd2 & Hf2); [lia|]. exists o, c2. split_and!; [done|done|done|]. split; [done|]. intros k Hne. by rewrite Hf2, Hk1.
Qed.

Lemma parseValues_step texts vals st : doc_ok (st_ctx st) → mapM Parse texts = Some vals → dsteps (parseValues texts) st (λ x c', x = vals ∧ c' = st_ctx st).
Proof. intros Hh E. unfold parseValues. rewrite E. by apply dsteps_ret. Qed.

(** The command is accepted, and does to the array at the location what [f] says. *)
Definition does (p : Prep) (f : list JValue → result bytes (list JValue * Z)) (jp : bool) (path : bytes) (steps : list step) (v : JValue) (st : St) : Prop :=
  ∃ runner, p = Accept [key] runner ∧
    let '(w, v') := array_outcome f jp path steps v in answers runner st (w (st_w st)) (leaves key (st_ctx st) v').

Lemma does_values p f path jp steps v st texts vals op : doc_ok (st_ctx st) → mapM Parse texts = Some vals →
  p = Accept [key] (vals ← parseValues texts; arrayWriteInt key path (op vals)) →
  (let '(w, v') := array_outcome f jp path steps v in answers (arrayWriteInt key path (op vals)) st (w (st_w st)) (leaves key (st_ctx st) v')) →
  does p f jp path steps v st.
Proof.
  intros Hh Hm -> Ha. eexists. split; [done|]. destruct (array_outcome f jp path steps v) as [w v']. eapply answers_bind; [by apply parseValues_step|].
  cbv beta. intros x c' _ [-> ->]. by destruct st.
Qed.

(** ** JSON.ARRPOP *)

Lemma depth_sub l t u : sub_at l t = Some u → (depth u <= depth t)%nat.
Proof.
  revert t. induction l as [|s l IH]; intros t Hs; [by injection Hs as ->|]. destruct t as [raw|vid obj kids]; [done|]. cbn [sub_at] in Hs.
  destruct (kid_index s obj kids) as [j|]; [|done]. cbn [mbind option_bind] in Hs. destruct (kids !! j) as [k|] eqn:Ek; [|done]. cbn [mbind option_bind] in Hs. apply IH in Hs.
  pose proof (depth_kid k vid obj kids (pred (depth (DNode vid obj kids))) (list_elem_of_lookup_2 _ _ _ Ek)) as Hd. cbn [depth] in *. lia.
Qed.
Lemma sub_kid_inner obj0 kids0 l vid obj kids k : NoDup (vids (DNode [] obj0 kids0)) → sub_at l (DNode [] obj0 kids0) = Some (DNode vid obj kids) → k ∈ kids → [] ∉ vids (snd k).
Proof.
  intros Hd Hs Hk. destruct l as [|s l]; [injection Hs as <- <- <-; by apply (root_kids_inner obj0 kids0)|]. cbn [sub_at] in Hs.
  destruct (kid_index s obj0 kids0) as [j|]; [|done]. cbn [mbind option_bind] in Hs. destruct (kids0 !! j) as [k0|] eqn:Ek; [|done]. cbn [mbind option_bind] in Hs.
  intros Hv. apply (root_kids_inner obj0 kids0 k0 Hd); [by eapply list_elem_of_lookup_2|]. apply (sub_vids _ _ _ _ Hs), elem_of_vids. right. by exists k.
Qed.
Lemma decode_kid c n obj0 kids0 l vid obj kids k : tree_at key c obj0 kids0 → dc_root (docs c key) = Some n → sub_at l (DNode [] obj0 kids0) = Some (DNode vid obj kids) → k ∈ kids →
  decodeRef (doc_of (docs c key) n) (element_of k) = Some (Some (tvalue (snd k))).
Proof.
  intros (Hl & Hd & _) Hn Hs Hk. destruct k as [id t]. unfold decodeRef, assemble, assemble_fuel. apply (decode_tree (older c)); [done| |by eapply (sub_kid_inner _ _ _ _ _ _ (id, t))|].
  - pose proof (sub_laid _ _ _ _ _ Hl Hs) as Hlu. inversion Hlu as [|? ? ? _ _ _ Hks]; subst. rewrite Forall_forall in Hks. by apply (Hks _ Hk).
  - pose proof (root_depth _ _ _ _ Hl Hd). apply depth_sub in Hs. pose proof (depth_kid (id, t) vid obj kids (S (size (dc_parts (docs c key)))) Hk) as Hdk. cbn [do_Partitions doc_of snd] in *. lia.
Qed.

(** The index of the element popped, rounded to the ends. *)
Definition pop_index (index n : Z) : nat := Z.to_nat (Z.min (n - 1) (Z.max 0 (if index <? 0 then index + n else index))).
(** The reply and the document of a pop at one location. *)
Definition pop_outcome (index : Z) (jp : bool) (path : bytes) (steps : list step) (v : JValue) : (Writer → Writer) * JValue :=
  match follow_all steps v with
  | Some (VArray xs) =>
    match xs !! pop_index index (len xs) with
    | Some x => (one_reply jp path (Some (VArray xs)) (WriteBulkString (Serialize x)), default v (update_at (λ _, Some (VArray (delete (pop_index index (len xs)) xs))) steps v))
    | None => (one_reply jp path (Some (VArray xs)) WriteNullBulkString, v)
    end
  | x => (one_reply jp path x id, v)
  end.

Lemma popAt_kids index kids : popAt index (node_of false kids) = element_of <$> (kids !! pop_index index (len ((λ k : bytes * DTree, tvalue (snd k)) <$> kids))).
Proof.
  unfold popAt. rewrite len_elements. set (n := len ((λ k : bytes * DTree, tvalue (snd k)) <$> kids)). assert (Hn : n = Z.of_nat (length kids)) by (unfold n, len; by rewrite length_fmap).
  unfold pop_index. generalize (if index <? 0 then index + n else index). intros i. cbn [node_of nr_OrderedElements]. rewrite list_lookup_fmap.
  destruct (Z.eqb_spec n 0) as [E|E]; [destruct kids; [done|cbn in Hn; lia]|]. do 2 f_equal. destruct (Z.ltb_spec i 0); [destruct (Z.leb_spec n 0)|destruct (Z.leb_spec n i)]; lia.
Qed.
Lemma filter_delete (kids : Kids) j k : NoDup (fst <$> kids) → kids !! j = Some k → filter (λ k', fst k' ∉ [fst k]) kids = delete j kids.
Proof.
  intros Hd Hj. rewrite (delete_take_drop kids j). pose proof (take_drop_middle kids j k Hj) as Hm. rewrite <- Hm in Hd. rewrite <- Hm at 1. clear Hm Hj.
  rewrite fmap_app, fmap_cons in Hd. apply NoDup_app in Hd as (_ & Hpre & [Hpost _]%NoDup_cons). rewrite filter_app, filter_cons_False by set_solver.
  rewrite !filter_id; [done| |]; intros x Hx Hin%list_elem_of_singleton.
  - apply Hpost. rewrite <- Hin. by apply list_elem_of_fmap_2.
  - apply (Hpre (fst x)); [by apply list_elem_of_fmap_2|]. rewrite Hin. by left.
Qed.

(** The element of one partition is removed in a transaction. *)
Lemma pop_one c n obj0 kids0 l vid kids j k tips st : tree_at key c obj0 kids0 → dc_root (docs c key) = Some n → st_ctx st = c → doc_ok c →
  sub_at l (DNode [] obj0 kids0) = Some (DNode vid false kids) → kids !! j = Some k →
  dsteps (_ ← begin_doc key tips; for_each [mkPopped (Some (tvalue (snd k))) vid (fst k)] (λ p, emit_node (orderedRemoveEffect key (pp_vid p) (pp_id p)) [])) st
    (λ _ c', ∃ v', update_at (λ _, Some (VArray (delete j ((λ k, tvalue (snd k)) <$> kids)))) l (tvalue (DNode [] obj0 kids0)) = Some v' ∧ leaves key c v' c').
Proof.
  intros Ht Hn Hst Hh Hs Hj. subst c. eapply dsteps_bind; [by apply begin_doc_step|]. cbn [st_w st_held st_ctx]. intros _ c1 Hh1 Hk. pose proof (kept_tree _ _ _ _ Hk Ht) as Ht1.
  pose proof (tree_part key c1 obj0 kids0 l vid false kids Ht1 Hs) as (_ & Hnd & _).
  pose proof (applies_doc c1 0 _ obj0 kids0 l vid kids _ (mkSt c1 (st_w st) (st_held st)) Ht1 Hs (applies_remove c1 vid kids [fst k]) eq_refl Hh1 ltac:(lia)) as He.
  rewrite (filter_delete kids j k Hnd Hj) in He. destruct (He []) as (a & tips' & c2 & E & Hh2 & (v' & Hv' & Hd2) & Hg).
  exists tt, c2. cbn [em_each] in E. unfold em_emit, mbind, EM_bind in E. unfold mbind, M_bind in E |- *. cbn [for_each pp_vid pp_id].
  unfold mbind, M_bind. destruct (emit_node (orderedRemoveEffect key vid (fst k)) [] (mkSt c1 (st_w st) (st_held st))) as [[ [] | | | ] st'] eqn:Ee; try done. cbn in E |- *.
  assert (st' = mkSt c2 (st_w st) (st_held st)) as -> by (unfold mret, EM_ret, mret, M_ret in E; congruence). split; [done|]. split; [done|]. exists v'. rewrite list_fmap_delete in Hv'. split; [done|]. by apply (goes_leaves key _ c1 _ 0).
Qed.

Lemma dsteps_int index indexArg st : doc_ok (st_ctx st) → match indexArg with None => index = -1 | Some a => ParseInt64 a = Some index end →
  dsteps (match indexArg with None => mret (-1) | Some _ => int_arg indexArg end) st (λ i c', i = index ∧ c' = st_ctx st).
Proof. intros Hh Hi. destruct indexArg as [a|]; [|subst; by apply dsteps_ret]. unfold int_arg. rewrite Hi. by apply dsteps_ret. Qed.
Lemma arrpop_spec index indexArg path jp steps v st : doc_ok (st_ctx st) → doc_at key (st_ctx st) v → ParsePath path = Some (mkPath jp (concrete <$> steps)) →
  match indexArg with None => index = -1 | Some a => ParseInt64 a = Some index end →
  let '(w, v') := pop_outcome index jp path steps v in answers (arrpop_runner key path indexArg) st (w (st_w st)) (leaves key (st_ctx st) v').
Proof.
  intros Hh Hd Hpp Hi. destruct (pop_outcome index jp path steps v) as [w v'] eqn:Eo. unfold arrpop_runner.
  eapply answers_bind; [apply (dsteps_int index indexArg st Hh Hi)|]. cbv beta. intros i c0 _ [-> ->]. cbn [st_w st_held].
  eapply answers_bind; [by apply parse_path_step|]. cbn [st_w st_held st_ctx]. intros p c0 _ [-> ->]. cbn [st_w st_held].
  eapply answers_bind; [by apply (read_doc key v (mkSt (st_ctx st) _ _))|]. cbn [st_w st_held st_ctx]. intros s c1 Hh1 (Hk & Hd1 & m & tips & Hn & ->).
  cbn [ds_wrongType ds_exists negb ds_root ds_tips p_JSONPath]. pose proof Hk as (Hk1 & _ & Hr1). assert (Hsame : leaves key (st_ctx st) v c1) by by apply kept_leaves.
  rewrite (resolve_one _ m (mkPath jp (concrete <$> steps)) steps v Hd1 Hn eq_refl). eapply answers_bind; [by apply dsteps_or_panic|]. cbn [st_w st_held st_ctx]. intros ts c' _ [-> ->].
  unfold pop_outcome in Eo. rewrite locate_follow in Eo. destruct (locate steps v) as [[l x]|] eqn:El; cbn [fmap option_fmap option_map snd] in Eo.
  2: { injection Eo as <- <-. destruct jp; [exists (Next tt), c1; by auto|exists Return, c1; by auto]. }
  assert (Hother : (∀ xs, x ≠ VArray xs) → arr_target (doc_of (docs c1 key) m) (x, l) = mkArrTarget x None) by (intros Hx; by destruct x; try done; exfalso; eapply Hx).
  destruct x as [|b|i|g|s0|xs|ms];
    try (rewrite Hother by done; injection Eo as <- <-; destruct jp; [exists (Next tt), c1; by auto|exists Return, c1; by auto]). clear Hother.
  destruct (array_tree _ v steps l xs Hd1 El) as (obj0 & kids0 & vid & kids & Ht & Hv & Hs & Hxs).
  assert (Htar : arr_target (doc_of (docs c1 key) m) (VArray xs, l) = mkArrTarget (VArray xs) (Some (vid, node_of false kids))).
  { unfold arr_target, match_segs. cbn [fst snd]. by rewrite (walk_doc _ _ _ _ _ Ht Hn), Hs. }
  rewrite Htar. clear Htar. cbn [mapM pop_target at_node at_val]. rewrite popAt_kids, Hxs. set (j := pop_index index (len xs)) in *.
  rewrite <- Hxs in Eo at 1. rewrite list_lookup_fmap in Eo. destruct (kids !! j) as [k|] eqn:Ek; cbn [fmap option_fmap option_map] in Eo |- *.
  - rewrite (decode_kid c1 m obj0 kids0 l vid false kids k Ht Hn Hs) by (by eapply list_elem_of_lookup_2). cbn [mbind option_bind].
    eapply answers_bind; [by apply dsteps_or_panic|]. cbn [st_w st_held st_ctx]. intros ps c' _ [-> ->]. cbn [omap list_omap id element_of nl_Id].
    eapply answers_bind; [by apply (pop_one c1 m obj0 kids0 l vid kids j k tips (mkSt c1 _ _))|]. cbn [st_w st_held st_ctx]. intros _ c2 Hh2 (v2 & Hu & Hd2 & Hf2).
    rewrite Hv, Hxs, (locate_update _ _ _ _ _ El) in Hu. rewrite Hu in Eo. injection Eo as <- <-.
    assert (Hl2 : leaves key (st_ctx st) v2 c2) by (split; [done|]; intros k' Hne; by rewrite Hf2, Hk1). destruct jp; [exists (Next tt), c2; by auto|by apply answers_write].
  - cbn [mbind option_bind]. eapply answers_bind; [by apply dsteps_or_panic|]. cbn [st_w st_held st_ctx]. intros ps c' _ [-> ->]. cbn [omap list_omap id]. injection Eo as <- <-.
    destruct jp; [exists (Next tt), c1; by auto|by apply answers_write].
Qed.

(** The command is accepted, and pops the element at the index. *)
Definition pops (p : Prep) (index : Z) (jp : bool) (path : bytes) (steps : list step) (v : JValue) (st : St) : Prop :=
  ∃ runner, p = Accept [key] runner ∧
    let '(w, v') := pop_outcome index jp path steps v in answers runner st (w (st_w st)) (leaves key (st_ctx st) v').

(** On a path of keys and indexes, JSON.ARRAPPEND, JSON.ARRINSERT,
    JSON.ARRTRIM and JSON.ARRPOP change the array there and nothing else: the
    values are appended, or inserted before the index (negative from the end, the
    length allowed), or all but the range is dropped, or the element at the index,
    rounded to the ends, is taken out; the reply is the new length or the element
    popped, an index out of range is refused before anything is written, what is
    not an array is answered null or by the type error, and no other key changes. *)
Theorem json_array_writes path jp steps v st :
  doc_ok (st_ctx st) → doc_at key (st_ctx st) v → ParsePath path = Some (mkPath jp (concrete <$> steps)) →
  (∀ text texts vals, mapM Parse (text :: texts) = Some vals → Forall json_ok vals → (elements_cost vals <= doc_room (st_ctx st))%nat →
     does (handleJSONArrAppend (key :: path :: text :: texts)) (append_spec (canon <$> vals)) jp path steps v st ∧
     ∀ index idx, ParseInt64 index = Some idx →
       does (handleJSONArrInsert (key :: path :: index :: text :: texts)) (insert_spec idx (canon <$> vals)) jp path steps v st) ∧
  (∀ a b start stop, ParseInt64 a = Some start → ParseInt64 b = Some stop →
     does (handleJSONArrTrim [key; path; a; b]) (trim_spec start stop) jp path steps v st) ∧
  pops (handleJSONArrPop [key; path]) (-1) jp path steps v st ∧
  (∀ a index, ParseInt64 a = Some index → pops (handleJSONArrPop [key; path; a]) index jp path steps v st).
Proof.
  intros Hh Hd Hpp. split; [|split; [|split]].
  - intros text texts vals Hm Hv Hroom. split.
    + eapply (does_values _ _ _ _ _ _ _ _ vals (append_op key)); [done|exact Hm|done|]. by eapply arrayWriteInt_spec; [| | |apply append_implements|].
    + intros index idx Hi. eapply (does_values _ _ _ _ _ _ _ _ vals (insert_op key idx)); [done|exact Hm| |by eapply arrayWriteInt_spec; [| | |apply insert_implements|]].
      cbn [handleJSONArrInsert]. unfold arrinsert_runner. by rewrite Hi.
  - intros a b start stop Ha Hb. eexists. split; [done|]. unfold arrtrim_runner. rewrite Ha, Hb. apply (arrayWriteInt_spec _ 0); [done|done|done|apply trim_implements|lia].
  - eexists. split; [done|]. by apply (arrpop_spec (-1) None).
  - intros a index Ha. eexists. split; [done|]. by apply (arrpop_spec index (Some a)).
Qed.

(** ** JSON.DEL *)

(** One member or element taken out; nothing when it is not there. *)
Definition delete_step (s : step) (v : JValue) : option JValue :=
  match s, v with
  | segKey k, VObject ms => (λ i, VObject (delete i ms)) <$> objIndex k ms
  | segIndex i, VArray l => (λ j, VArray (delete (Z.to_nat j) l)) <$> normIndex i (len l)
  | _, _ => None
  end.
Definition delete_at (steps : list step) (v : JValue) : option JValue :=
  match last steps with Some s => update_at (delete_step s) (removelast steps) v | None => None end.

Lemma delete_kid s vid obj kids j : kid_index s obj kids = Some j → delete_step s (tvalue (DNode vid obj kids)) = Some (tvalue (DNode vid obj (delete j kids))).
Proof.
  destruct s as [k|i], obj; try done; cbn [kid_index tvalue delete_step].
  - unfold objIndex. rewrite list_find_fmap. unfold compose. cbn [fst]. destruct (list_find _ kids) as [[j' x]|]; [|done]. intros [= <-]. cbn [prod_map fst id fmap option_fmap option_map].
    by rewrite list_fmap_delete.
  - unfold len. rewrite length_fmap. fold (len kids). destruct (normIndex i (len kids)) as [j'|]; [|done]. intros [= <-]. cbn [fmap option_fmap option_map]. by rewrite list_fmap_delete.
Qed.
Lemma delete_missing s vid obj kids : kid_index s obj kids = None → delete_step s (tvalue (DNode vid obj kids)) = None.
Proof.
  destruct s as [k|i], obj; try done; cbn [kid_index tvalue delete_step].
  - unfold objIndex. rewrite list_find_fmap. unfold compose. cbn [fst]. by destruct (list_find _ kids) as [[j' x]|].
  - unfold len. rewrite length_fmap. fold (len kids). by destruct (normIndex i (len kids)).
Qed.

Lemma filter_kids_delete (kids : Kids) j id u : NoDup (fst <$> kids) → kids !! j = Some (id, u) → filter (λ k, fst k ≠ id) kids = delete j kids.
Proof.
  intros Hnd Hj. pose proof (kids_split kids j _ Hj) as Hs. rewrite delete_take_drop. rewrite Hs in Hnd at 1. rewrite fmap_app, fmap_cons in Hnd. cbn [fst] in Hnd.
  apply nodup_app_cons in Hnd as [Hid Hnd]. rewrite elem_of_app in Hid. rewrite Hs at 1. rewrite filter_app, filter_cons_False by (cbn; tauto).
  f_equal; apply filter_id; intros x Hx <-; apply Hid; [left|right]; by apply list_elem_of_fmap_2.
Qed.

(** The element at a step of a partition, removed. *)
Lemma remove_element c obj0 kids0 init vid obj kids s j id u st : tree_at key c obj0 kids0 → st_ctx st = c → doc_ok c →
  sub_at init (DNode [] obj0 kids0) = Some (DNode vid obj kids) → kid_index s obj kids = Some j → kids !! j = Some (id, u) →
  esteps (em_emit (orderedRemoveEffect key vid id)) st
    (λ _ c', (∃ v', update_at (delete_step s) init (tvalue (DNode [] obj0 kids0)) = Some v' ∧ doc_at key c' v') ∧ goes key c 0 c').
Proof.
  intros Ht Hst Hh Hs Hj Hk. destruct (tree_part key c obj0 kids0 init vid obj kids Ht Hs) as (Hn & Hnd & Ho & Hp). subst c. destruct Ht as (Hl & Hd & Hpo).
  eapply esteps_weaken; [eapply (esteps_emit key (orderedRemoveEffect key vid id) st); [done|done|by apply reduce_remove]|]. cbv beta. intros _ c' [Hd' Hg].
  pose proof (planted_node key vid obj _ _ _ _ _ _ _ _ Hp Hd' Hg) as Hp'. split; [|done]. rewrite (filter_kids_delete kids j id u Hnd Hk) in Hp'.
  exists (tvalue (replace_at init (DNode vid obj (delete j kids)) (DNode [] obj0 kids0))). split.
  - apply (update_tree _ init _ _ (DNode vid obj (delete j kids)) Hs). by apply delete_kid.
  - pose proof (sublist_delete kids j) as Hsub. eapply (planted_doc key init obj0 obj kids0 kids); [exact Hl|exact Hd|exact Hs|exact Hp'| | |].
    + intros k Hin. left. by eapply elem_of_sublist.
    + eapply sublist_NoDup; [exact Hnd|]. by apply fmap_sublist.
    + intros E. destruct Hg as (_ & Hc & _). apply Forall_forall. intros x Hx. apply (older_mono (st_ctx st)); [done|]. specialize (Ho E). rewrite Forall_forall in Ho. apply Ho.
      eapply elem_of_sublist; [exact Hx|]. by apply fmap_sublist.
Qed.

Lemma first_only_one {A} p (m : A) : first_only p [m] = [m].
Proof. unfold first_only. by destruct (p_JSONPath p). Qed.
Lemma first_only_none {A} p : first_only p ([] : list A) = [].
Proof. unfold first_only. by destruct (p_JSONPath p). Qed.
Lemma locate_snoc init s v : locate (init ++ [s]) v = locate init v ≫= λ '(l, p), follow s p ≫= λ '(s', x), Some (l ++ [s'], x).
Proof.
  revert v. induction init as [|s0 init IH]; intros v; cbn [app locate].
  - cbn. by destruct (follow s v) as [[s' x]|].
  - destruct (follow s0 v) as [[s0' cv]|]; [|done]. cbn [mbind option_bind]. rewrite IH. destruct (locate init cv) as [[l p]|]; [|done]. cbn [mbind option_bind]. by destruct (follow s p) as [[s' x]|].
Qed.
Lemma update_ext f g steps v : match locate steps v with Some (_, p) => f p = g p | None => True end → update_at f steps v = update_at g steps v.
Proof.
  revert v. induction steps as [|s steps IH]; intros v Hp; [done|]. cbn [update_at locate] in *. destruct (follow s v) as [[s' cv]|]; [|done]. cbn [mbind option_bind] in *.
  rewrite (IH cv); [done|]. by destruct (locate steps cv) as [[l p]|].
Qed.
Lemma update_missing f steps v : match locate steps v with Some (_, p) => f p = None | None => True end → update_at f steps v = None.
Proof.
  intros Hp. rewrite (update_ext f (λ _, None)); [|by destruct (locate steps v) as [[l p]|]]. clear. revert v. induction steps as [|s steps IH]; intros v; [done|].
  cbn [update_at]. destruct (follow s v) as [[s' cv]|]; [|done]. cbn [mbind option_bind]. by rewrite IH.
Qed.
Lemma delete_follow s p : match follow s p with Some (s', _) => delete_step s' p = delete_step s p | None => delete_step s p = None end.
Proof.
  destruct s as [k|i], p as [| | | | |l|ms]; try done; cbn [follow delete_step].
  - unfold objGet, objIndex. destruct (list_find _ ms) as [[j x]|] eqn:E; [|done]. cbn [fmap option_fmap option_map delete_step]. unfold objIndex. by rewrite E.
  - destruct (normIndex i (len l)) as [j|] eqn:E; [|done]. destruct (normIndex_idem _ _ _ E) as [Hj Hr]. cbn [mbind option_bind]. unfold arr_at.
    rewrite (proj2 (Z.ltb_ge j 0)) by lia. destruct (l !! Z.to_nat j) eqn:El; [cbn [mbind option_bind delete_step]; by rewrite Hj|]. apply lookup_ge_None in El. unfold len in Hr. lia.
Qed.
Lemma delete_locate init s v : match locate (init ++ [s]) v with Some (l, _) => delete_at l v = delete_at (init ++ [s]) v | None => delete_at (init ++ [s]) v = None end.
Proof.
  rewrite locate_snoc. unfold delete_at at 2 3. rewrite last_snoc, removelast_last. destruct (locate init v) as [[l p]|] eqn:El; cbn [mbind option_bind].
  - pose proof (delete_follow s p) as Hf. destruct (follow s p) as [[s' x]|]; cbn [mbind option_bind].
    + unfold delete_at. rewrite last_snoc, removelast_last. rewrite (locate_update _ _ _ _ _ El). apply update_ext. by rewrite El.
    + apply update_missing. by rewrite El.
  - apply update_missing. by rewrite El.
Qed.

Lemma removal_tree c n obj0 kids0 init s : tree_at key c obj0 kids0 → dc_root (docs c key) = Some n →
  removal (doc_of (docs c key) n) (init ++ [s]) =
    match sub_at init (DNode [] obj0 kids0) with
    | Some (DNode vid obj kids) => (λ k, (vid, fst k)) <$> (kid_index s obj kids ≫= λ j, kids !! j)
    | _ => None
    end.
Proof.
  intros Ht Hn. unfold removal. rewrite removelast_last, (walk_doc _ _ _ _ _ Ht Hn), last_snoc. destruct (sub_at init (DNode [] obj0 kids0)) as [[raw|vid obj kids]|]; [done| |done].
  cbn [mbind option_bind]. rewrite element_at_kids. destruct (kid_index s obj kids) as [j|] eqn:Ej; cbn [mbind option_bind fmap option_fmap option_map].
  - destruct (kid_index_some s obj kids j Ej) as (id & u & Ek). rewrite Ek. cbn [fmap option_fmap option_map element_of nl_Id fst]. destruct s as [k|i]; [|done].
    rewrite bool_decide_eq_true_2 by done. destruct obj; [|done]. by rewrite (kid_index_key k kids j id u Ej Ek).
  - destruct s as [k|i]; [|done]. rewrite bool_decide_eq_false_2; [done|]. by intros [? ?].
Qed.

(** The element at a location of the document, if it is there. *)
Lemma del_one c n v l x st : doc_at key c v → dc_root (docs c key) = Some n → doc_ok c → st_ctx st = c → l ≠ [] → locate l v = Some (l, x) →
  esteps (del_targets key (doc_of (docs c key) n) [l] 0) st
    (λ count c', count = 1 ∧ (∃ v', delete_at l v = Some v' ∧ doc_at key c' v') ∧ goes key c 0 c').
Proof.
  intros [Hr Hp] Hn Hh Hst Hne Hloc. destruct l as [|s init] using rev_ind; [done|]. clear IHinit. rewrite locate_snoc in Hloc.
  destruct (locate init v) as [[l p]|] eqn:El; [|done]. cbn [mbind option_bind] in Hloc. destruct (follow s p) as [[s' x']|] eqn:Ef; [|done]. injection Hloc as Hloc _.
  apply app_inj_tail in Hloc as [-> ->]. destruct Hr as [(raw & _ & Hpr & Hc)|(obj0 & kids0 & Hl & Hd & Hv)].
  { destruct init as [|s0 init]; cbn [locate] in El; [injection El as <-; by rewrite scalar_follow in Ef|by rewrite scalar_follow in El]. }
  subst v. destruct (locate_sub _ _ _ _ _ Hl El) as (u & Hs & Hu). assert (Ht : tree_at key c obj0 kids0) by done. cbn [del_targets]. rewrite (removal_tree _ _ _ _ _ _ Ht Hn), Hs.
  destruct u as [raw|vid obj kids].
  { destruct (laid_leaf_value _ _ _ (sub_laid _ _ _ _ _ Hl Hs)) as (y & Hy & Hc). rewrite <- Hu, Hy, scalar_follow in Ef by done. done. }
  pose proof (follow_kids s vid obj kids) as Hfk. rewrite Hu, Ef in Hfk. destruct (kid_index s obj kids) as [j|] eqn:Ej; [|done]. destruct (kid_index_some s obj kids j Ej) as (id & u & Ek).
  cbn [mbind option_bind]. rewrite Ek. cbn [fmap option_fmap option_map fst].
  eapply esteps_bind; [by apply (remove_element c obj0 kids0 init vid obj kids s j id u st)|]. cbv beta. intros _ c' Hh' [(v' & Hup & Hd') Hg].
  apply esteps_ret; [done|]. split; [done|]. split; [|done]. exists v'. split; [|done]. unfold delete_at. by rewrite last_snoc, removelast_last.
Qed.

(** JSON.DEL on a path of keys and indexes below the root removes the member or
    the element there, and nothing else of the document, and answers 1; when there
    is none it answers 0 and the document is as before.  No other key changes, and
    a container that is emptied stays. *)
Theorem json_del_at path jp steps v st : doc_ok (st_ctx st) → doc_at key (st_ctx st) v → ParsePath path = Some (mkPath jp (concrete <$> steps)) → steps ≠ [] →
  ∃ runner, handleJSONDel [key; path] = Accept [key] runner ∧
    answers runner st (WriteInteger (match delete_at steps v with Some _ => 1 | None => 0 end) (st_w st)) (leaves key (st_ctx st) (default v (delete_at steps v))).
Proof.
  intros Hh Hd Hpp Hne. eexists. split; [done|]. unfold del_runner.
  eapply answers_bind; [by apply parse_path_step|]. cbv beta. intros p c0 _ [-> ->]. cbn [st_w st_held].
  eapply answers_bind; [by apply (read_doc key v (mkSt (st_ctx st) _ _))|]. cbn [st_w st_held st_ctx]. intros s c1 Hh1 (Hk & Hd1 & n & tips & Hn & ->).
  cbn [ds_wrongType ds_exists negb ds_root ds_tips]. rewrite is_root_steps, bool_decide_eq_false_2 by done.
  eapply answers_bind; [eapply (targets_of_doc key v n tips _ _ (mkSt c1 _ _) Hh1 Hd1 Hn); by apply (resolveMatches_concrete _ steps)|]. cbn [st_w st_held st_ctx].
  intros ts c2 _ [-> ->]. destruct steps as [|ls init] using rev_ind; [done|]. clear IHinit. pose proof (delete_locate init ls v) as Hdel.
  destruct (locate (init ++ [ls]) v) as [[l x]|] eqn:El.
  - rewrite first_only_one. rewrite <- Hdel.
    assert (Hl : l ≠ []). { rewrite locate_snoc in El. destruct (locate init v) as [[l0 p]|]; [|done]. cbn [mbind option_bind] in El. destruct (follow ls p) as [[s' x']|]; [|done].
      injection El as <- _. by destruct l0. }
    eapply answers_bind; [apply dsteps_with_tips, (del_one c1 n v l x (mkSt c1 _ _) Hd1 Hn Hh1 eq_refl Hl); by eapply locate_idem|]. cbn [st_w st_held st_ctx].
    intros count c2 Hh2 (-> & (v' & Hv' & Hd2) & Hg). rewrite Hv'. apply answers_write; [done|done|]. by apply (goes_leaves key _ c1 _ 0).
  - rewrite first_only_none, Hdel.
    eapply answers_bind; [apply dsteps_with_tips, (esteps_ret 0 (mkSt c1 _ _) (λ x c', x = 0 ∧ c' = c1)); done|]. cbn [st_w st_held st_ctx].
    intros count c2 _ [-> ->]. apply answers_write; [done|done|]. by apply kept_leaves.
Qed.

(** ** Numbers *)

Lemma i64_mul_l a b : i64 (i64 a * b) = i64 (a * b).
Proof. apply i64_mod_eq. rewrite Zmult_mod, i64_mod, <- Zmult_mod. done. Qed.
Lemma i64_mul_pow a b k : 0 <= k → i64 (a * i64 b ^ k) = i64 (a * b ^ k).
Proof.
  intros Hk. apply i64_mod_eq. rewrite Zmult_mod, (Zmult_mod a (b ^ k)). f_equal. f_equal. rewrite Zpower_mod, i64_mod, <- Zpower_mod by lia. done.
Qed.
Lemma intPow_loop_spec fuel result base exp : is_i64 result → 0 <= exp < 2 ^ Z.of_nat fuel → intPow_loop fuel result base exp = i64 (result * base ^ exp).
Proof.
  revert result base exp. induction fuel as [|fuel IH]; intros result base exp Hr He; cbn [intPow_loop].
  - assert (exp = 0) as -> by (change (2 ^ Z.of_nat 0) with 1 in He; lia). rewrite Z.pow_0_r, Z.mul_1_r. symmetry. by apply i64_id.
  - destruct (Z.ltb_spec 0 exp) as [Hp|Hp].
    + rewrite Nat2Z.inj_succ, Z.pow_succ_r in He by lia. assert (Hs : Z.shiftr exp 1 = exp / 2) by (rewrite Z.shiftr_div_pow2 by lia; done).
      assert (Hd : 0 <= exp / 2 < 2 ^ Z.of_nat fuel) by (split; [apply Z.div_pos; lia|apply Z.div_lt_upper_bound; lia]).
      change 1 with (Z.ones 1) at 1. rewrite Z.land_ones by lia. change (2 ^ 1) with 2. pose proof (Z.div_mod exp 2 ltac:(lia)) as Hdm. pose proof (Z.mod_pos_bound exp 2 ltac:(lia)) as Hm.
      rewrite Hs, IH; [|destruct (_ =? _); [apply i64_range|done]|done]. rewrite i64_mul_pow by lia.
      assert (Hsq : (base * base) ^ (exp / 2) = base ^ (2 * (exp / 2))) by (rewrite Z.pow_mul_r by lia; by rewrite Z.pow_2_r). rewrite Hsq.
      destruct (Z.eqb_spec (exp mod 2) 1) as [E|E].
      * rewrite i64_mul_l. f_equal. rewrite Hdm at 2. rewrite E, Z.pow_add_r, Z.pow_1_r by lia. ring.
      * assert (exp mod 2 = 0) as E0 by lia. rewrite Hdm at 2. by rewrite E0, Z.add_0_r.
    + assert (exp = 0) as -> by lia. rewrite Z.pow_0_r, Z.mul_1_r. symmetry. by apply i64_id.
Qed.
Lemma intPow_spec base exp : is_i64 exp → 0 <= exp → intPow base exp = i64 (base ^ exp).
Proof.
  intros Hi He. unfold intPow. rewrite intPow_loop_spec; [by rewrite Z.mul_1_l|done|]. change (2 ^ Z.of_nat 64) with (2 ^ 64). zlia.
Qed.

(** The result of an operation on two integers, on 64 bits. *)
Definition num_value (op : NumOp) (a b : Z) : Z := i64 (match op with NumAdd => a + b | NumMult => a * b | NumPow => a ^ b end).
Lemma applyNumOp_int op a b : is_i64 b → (op = NumPow → 0 <= b) → applyNumOp op (VInt a) (VInt b) = Ok (VInt (num_value op a b)).
Proof.
  intros Hb Hp. destruct op; cbn [applyNumOp]; [done|done|]. rewrite (proj2 (Z.ltb_ge b 0)) by auto. unfold num_value. by rewrite intPow_spec by auto.
Qed.

Lemma update_some f steps v l p y : locate steps v = Some (l, p) → f p = Some y → is_Some (update_at f steps v).
Proof.
  revert v l. induction steps as [|s steps IH]; intros v l Hl Hf; [injection Hl as _ ->; by eexists|]. cbn [locate] in Hl. destruct (follow s v) as [[s' cv]|] eqn:Ef; [|done].
  cbn [mbind option_bind] in Hl. destruct (locate steps cv) as [[l' x']|] eqn:El; [|done]. injection Hl as _ ->. cbn [update_at]. rewrite Ef. cbn [mbind option_bind].
  destruct (IH cv l' El Hf) as [cv' ->]. cbn [mbind option_bind]. destruct s as [k|i], v as [| | | | |xs|ms]; try done; cbn [set_step].
  cbn [follow] in Ef. destruct (normIndex i (len xs)); [by eexists|done].
Qed.

(** One value written in a transaction where another one is. *)
Lemma apply_write_spec v l x r st n tips : doc_ok (st_ctx st) → doc_at key (st_ctx st) v → dc_root (docs (st_ctx st) key) = Some n → locate l v = Some (l, x) →
  json_ok r → (cref r <= doc_room (st_ctx st))%nat →
  dsteps (apply_writes key (mkDocSnap (Some (doc_of (docs (st_ctx st) key) n)) tips true false) [(concrete <$> l, r)]) st
    (λ _ c', ∃ v', set_at l (canon r) v = Some v' ∧ leaves key (st_ctx st) v' c').
Proof.
  intros Hh Hd Hn Hl Hr Hroom. unfold apply_writes. cbn [ds_tips ds_root ds_exists for_each fst snd].
  eapply dsteps_bind; [by apply begin_doc_step|]. cbn [st_w st_held st_ctx]. intros _ c1 Hh1 Hk. pose proof Hk as (Hk1 & _ & Hk3). rewrite <- Hk1.
  pose proof (setValueAtPath_spec key v l r (mkSt c1 (st_w st) (st_held st)) n (kept_doc key _ _ _ Hk Hd)) as Hs. cbn [st_ctx] in Hs. rewrite Hk1 in Hs. specialize (Hs Hn Hr Hh1).
  destruct (update_some (λ _, Some (canon r)) l v l x (canon r) Hl eq_refl) as [v' Hv']. rewrite <- (locate_set (canon r) l v l x Hl) in Hv'.
  eapply dsteps_bind; [eapply dsteps_bind; [rewrite Hk1; apply (dsteps_with_tips []), Hs; lia|]|].
  - cbn [st_w st_held st_ctx]. intros applied c2 Hh2 [Hm Hg]. rewrite Hv' in Hm. destruct Hm as [-> Hd2].
    apply (dsteps_ret tt (mkSt c2 _ _) (λ _ c', leaves key (st_ctx st) v' c')); [done|]. by apply (goes_leaves key _ c1 _ (cref r)).
  - cbn [st_w st_held st_ctx]. intros _ c2 Hh2 Hl2. apply dsteps_ret; [done|]. by exists v'.
Qed.

(** The reply and the document of an operation with the integer [b] at one location
    that holds no float. *)
Definition num_outcome (op : NumOp) (jp : bool) (path : bytes) (steps : list step) (b : Z) (v : JValue) : option ((Writer → Writer) * JValue) :=
  match follow_all steps v with
  | None => Some (if jp then WriteBulkString (Serialize (VArray [])) else WriteError (no_path path), v)
  | Some (VInt a) =>
    if (match op with NumPow => b <? 0 | _ => false end) then Some (WriteError (str "ERR numeric overflow"), v)
    else
      let r := VInt (num_value op a b) in
      v' ← set_at steps r v; Some (WriteBulkString (Serialize (if jp then VArray [r] else r)), v')
  | Some (VFloat _) => None
  | Some x => Some (if jp then WriteBulkString (Serialize (VArray [VNull])) else WriteError (expected_type (str "a number") x), v)
  end.

(** The operation on an integer found at [l]. *)
Lemma num_at_int op path jp l a b v v' st n tips : doc_ok (st_ctx st) → doc_at key (st_ctx st) v → dc_root (docs (st_ctx st) key) = Some n → locate l v = Some (l, VInt a) →
  set_at l (VInt (num_value op a b)) v = Some v' →
  answers (if p_JSONPath (mkPath jp path) then
      _ ← apply_writes key (mkDocSnap (Some (doc_of (docs (st_ctx st) key) n)) tips true false) [(concrete <$> l, VInt (num_value op a b))];
      write (WriteBulkString (Serialize (VArray [VInt (num_value op a b)])))
    else
      _ ← apply_writes key (mkDocSnap (Some (doc_of (docs (st_ctx st) key) n)) tips true false) [(concrete <$> l, VInt (num_value op a b))];
      write (WriteBulkString (Serialize (VInt (num_value op a b))))) st
    (WriteBulkString (Serialize (if jp then VArray [VInt (num_value op a b)] else VInt (num_value op a b))) (st_w st)) (leaves key (st_ctx st) v').
Proof.
  intros Hh Hd Hn Hl Hv'. pose proof (apply_write_spec v l (VInt a) (VInt (num_value op a b)) st n tips Hh Hd Hn Hl) as Ha.
  assert (Hset : dsteps (apply_writes key (mkDocSnap (Some (doc_of (docs (st_ctx st) key) n)) tips true false) [(concrete <$> l, VInt (num_value op a b))]) st
            (λ _ c', leaves key (st_ctx st) v' c')).
  { destruct Ha as ([] & c2 & E & Hh2 & v2 & Hv2 & Hd2); [constructor; apply i64_range|cbn; lia|]. exists tt, c2. split; [exact E|]. split; [done|].
    cbn [canon] in Hv2. rewrite Hv' in Hv2. by injection Hv2 as <-. }
  destruct jp; cbn [p_JSONPath]; (eapply answers_bind; [exact Hset|]); cbn [st_w st_held st_ctx]; intros _ c2 Hh2 Hl2; by apply answers_write.
Qed.

Lemma num_outcome_some op jp path steps b v : (∀ f, follow_all steps v ≠ Some (VFloat f)) → is_Some (num_outcome op jp path steps b v).
Proof.
  intros Hnf. unfold num_outcome. rewrite locate_follow in *. destruct (locate steps v) as [[l x]|] eqn:El; [|by eexists]. cbn [fmap option_fmap option_map snd] in *.
  destruct x as [| |a|f| | |]; try (by eexists); [|by destruct (Hnf f)]. destruct (match op with NumPow => b <? 0 | _ => false end); [by eexists|].
  rewrite (locate_set _ steps v l _ El). destruct (update_some (λ _, Some (VInt (num_value op a b))) steps v l _ _ El eq_refl) as [v' ->]. by eexists.
Qed.

(** C23: JSON.NUMINCRBY, NUMMULTBY and NUMPOWBY with an integer at a path of keys and
    indexes.  On an integer the number there becomes the sum, the product or the
    power, reduced to 64 bits as the machine does (so it wraps), the reply prints
    it, and nothing else of the document or of another key changes; a negative
    exponent is refused with a numeric overflow and changes nothing.  Where the path
    leads nowhere or to something that is no number nothing changes either, and the
    reply is an error, for a JSONPath an empty array or a null.  Floats in the
    document are not covered. *)
Theorem json_num_at op name path number jp steps b v st : doc_ok (st_ctx st) → doc_at key (st_ctx st) v →
  ParsePath path = Some (mkPath jp (concrete <$> steps)) → Parse number = Some (VInt b) → is_i64 b →
  (∀ f, follow_all steps v ≠ Some (VFloat f)) →
  ∃ runner w v', numBy op name [key; path; number] = Accept [key] runner ∧ num_outcome op jp path steps b v = Some (w, v') ∧
    answers runner st (w (st_w st)) (leaves key (st_ctx st) v').
Proof.
  intros Hh Hd Hpp Hpn Hb Hnf. pose proof (num_outcome_some op jp path steps b v Hnf) as ([w v'] & Ho). exists (num_runner op key path number), w, v'.
  split; [done|]. split; [done|]. unfold num_runner.
  eapply answers_bind; [by apply parse_path_step|]. cbv beta. intros p c0 _ [-> ->]. rewrite Hpn. cbn [isNumber negb st_w st_held].
  eapply answers_bind; [by apply (read_doc key v (mkSt (st_ctx st) _ _))|]. cbn [st_w st_held st_ctx]. intros s c1 Hh1 (Hk & Hd1 & n & tips & Hn & ->).
  cbn [ds_wrongType ds_exists negb]. pose proof (kept_leaves key _ _ _ Hd1 Hk) as Hsame.
  eapply answers_bind; [eapply (targets_of_doc key v n tips _ _ (mkSt c1 _ _) Hh1 Hd1 Hn); by apply (resolveMatches_concrete _ steps)|]. cbn [st_w st_held st_ctx].
  intros ts c2 _ [-> ->]. unfold num_outcome in Ho. rewrite locate_follow in Ho. destruct (locate steps v) as [[l x]|] eqn:El; cbn [fmap option_fmap option_map snd] in Ho.
  2: { rewrite first_only_none. injection Ho as <- <-. cbn [num_results p_JSONPath]. destruct jp; [by apply answers_write|by apply answers_reply]. }
  rewrite first_only_one. destruct x as [| |a|f| | |]; cbn [num_results fst isNumber p_JSONPath negb];
    try (injection Ho as <- <-; destruct jp; [by apply answers_write|by apply answers_reply]); [|done].
  destruct (match op with NumPow => b <? 0 | _ => false end) eqn:Eneg.
  { destruct op; try done. cbn [applyNumOp]. rewrite Eneg. injection Ho as <- <-. by apply answers_reply. }
  rewrite applyNumOp_int; [|done|by intros ->; apply Z.ltb_ge]. destruct (set_at steps _ v) as [v2|] eqn:Es; [|done]. injection Ho as <- <-.
  eapply answers_weaken; [apply (num_at_int op (concrete <$> steps) jp l a b v v2 (mkSt c1 (st_w st) (st_held st)) n tips); try done|].
  - by eapply locate_idem.
  - by rewrite (locate_set_at _ _ _ _ _ El).
  - intros c3 [Hd3 Hf3]. destruct Hk as (Hk1 & _). split; [done|]. intros k Hne. by rewrite Hf3, <- Hk1.
Qed.
(** ** Strings and booleans *)

(** The reply and the document of a write by [fn] at one location. *)
Definition scalar_outcome (expected : bytes) (fn : JValue → option (JValue * Z)) (jp : bool) (path : bytes) (steps : list step) (v : JValue) : (Writer → Writer) * JValue :=
  match follow_all steps v with
  | None => (if jp then WriteArray 0 else WriteError (no_path path), v)
  | Some x =>
    match fn x with
    | None => (if jp then WriteNullBulkString ∘ WriteArray 1 else WriteError (expected_type expected x), v)
    | Some (r, n) => (if jp then WriteInteger n ∘ WriteArray 1 else WriteInteger n, default v (set_at steps r v))
    end
  end.

Lemma scalarIntWrite_spec expected fn path jp steps v st : doc_ok (st_ctx st) → doc_at key (st_ctx st) v → ParsePath path = Some (mkPath jp (concrete <$> steps)) →
  (∀ x r n, follow_all steps v = Some x → fn x = Some (r, n) → json_ok r ∧ IsContainer r = false ∧ canon r = r) →
  let '(w, v') := scalar_outcome expected fn jp path steps v in answers (scalarIntWrite expected fn key path) st (w (st_w st)) (leaves key (st_ctx st) v').
Proof.
  intros Hh Hd Hpp Hfn. unfold scalar_outcome. destruct (scalar_outcome expected fn jp path steps v) as [w0 v0] eqn:Eo. unfold scalar_outcome in Eo. rewrite Eo.
  unfold scalarIntWrite. eapply answers_bind; [by apply parse_path_step|]. cbv beta. intros p c0 _ [-> ->]. cbn [st_w st_held].
  eapply answers_bind; [by apply (read_doc key v (mkSt (st_ctx st) _ _))|]. cbn [st_w st_held st_ctx]. intros s c1 Hh1 (Hk & Hd1 & n & tips & Hn & ->).
  cbn [ds_wrongType ds_exists negb]. pose proof Hk as (Hk1 & _ & Hk3). assert (Hsame : leaves key (st_ctx st) v c1) by by apply kept_leaves.
  eapply answers_bind; [eapply (targets_of_doc key v n tips _ _ (mkSt c1 _ _) Hh1 Hd1 Hn); by apply (resolveMatches_concrete _ steps)|]. cbn [st_w st_held st_ctx].
  intros ts c2 _ [-> ->]. rewrite locate_follow in Eo, Hfn. destruct (locate steps v) as [[l x]|] eqn:El; cbn [fmap option_fmap option_map snd] in Eo, Hfn.
  2: { rewrite first_only_none. injection Eo as <- <-. cbn [omap list_omap p_JSONPath]. destruct jp; [exists (Next tt), c1; by auto|exists Return, c1; by auto]. }
  rewrite first_only_one. cbn [omap list_omap fst p_JSONPath]. destruct (fn x) as [[r m]|] eqn:Ef; cbn [fmap option_fmap option_map fst snd].
  2: { injection Eo as <- <-. destruct jp; cbn [for_each fst]; rewrite ?Ef; [exists (Next tt), c1; cbn; unfold write_int_or_null, mbind, M_bind, write; cbn; rewrite ?Ef; by auto|exists Return, c1; by auto]. }
  injection Eo as <- <-. destruct (Hfn x r m eq_refl Ef) as (Hr & Hc & Hcan).
  eapply answers_bind; [eapply (apply_write_spec v l x r (mkSt c1 _ _) n tips Hh1 Hd1 Hn (locate_idem _ _ _ _ El) Hr); destruct r; cbn in Hc |- *; try done; lia|].
  cbn [st_w st_held st_ctx]. intros _ c2 Hh2 (v2 & Hv2 & Hd2 & Hf2). rewrite (locate_set_at _ _ _ _ _ El), Hcan in Hv2. rewrite Hv2. cbn [default from_option id].
  assert (Hl2 : leaves key (st_ctx st) v2 c2) by (split; [done|]; intros k Hne; by rewrite Hf2, Hk1). destruct jp; cbn [for_each fst]; [|by apply answers_write].
  exists (Next tt), c2. cbn. unfold write_int_or_null, mbind, M_bind, write. cbn. rewrite ?Ef. by auto.
Qed.

Lemma valid_utf8_app s t : valid_utf8 s → valid_utf8 t → valid_utf8 (s ++ t).
Proof. intros Hs Ht. induction Hs; [done|by constructor..]. Qed.

(** JSON.STRAPPEND appends to the string at a path of keys and indexes and answers
    its new length in bytes; JSON.TOGGLE turns the boolean there and answers it as
    0 or 1.  Nothing else of the document or of another key changes, and a value of
    another type is refused. *)
Theorem json_scalar_at path jp steps v st : doc_ok (st_ctx st) → doc_at key (st_ctx st) v → json_ok v → ParsePath path = Some (mkPath jp (concrete <$> steps)) →
  (∀ text suffix, Parse text = Some (VString suffix) → valid_utf8 suffix →
     ∃ runner, handleJSONStrAppend [key; path; text] = Accept [key] runner ∧
       let '(w, v') := scalar_outcome (str "a string") (append_to suffix) jp path steps v in answers runner st (w (st_w st)) (leaves key (st_ctx st) v')) ∧
  ∃ runner, handleJSONToggle [key; path] = Accept [key] runner ∧
    let '(w, v') := scalar_outcome (str "a boolean") toggled jp path steps v in answers runner st (w (st_w st)) (leaves key (st_ctx st) v').
Proof.
  intros Hh Hd Hok Hpp. split.
  - intros text suffix Ht Hs. eexists. split; [done|]. unfold strappend_runner. rewrite Ht. apply scalarIntWrite_spec; [done|done|done|].
    intros x r n Hf Hx. destruct x as [| | | |s| |]; try done. injection Hx as <- <-. split_and!; [|done|done]. constructor.
    pose proof (follow_all_ok _ _ _ Hf Hok) as Ho. inversion Ho; subst. by apply valid_utf8_app.
  - eexists. split; [done|]. apply scalarIntWrite_spec; [done|done|done|]. intros x r n Hf Hx. destruct x; try done. injection Hx as <- <-. by repeat constructor.
Qed.
End Arrays.

(** ** A reference engine for documents

    Keys with their partitions, and a clock that counts; a double is printed as
    the digits of its bits behind "0.". *)
Module DocEngine.
Abbreviation Docs := (gmap bytes DocState).
Definition empty_doc : DocState := mkDocState None ∅.
Definition doc_get (d : Docs) (k : bytes) : DocState := default empty_doc (d !! k).
Definition doc_emit (e : NodeEffect) (ds : DocState) : DocState :=
  match ne_Kind e with
  | Node_Data (mkNodeData REMOVE_OP _ SCALAR _ _ _ _) => mkDocState None (dc_parts ds)
  | k => default ds (reduce_node ds (ne_Virtual e) k)
  end.

#[export] Instance doc_engine : Engine := {|
  Ctx := Docs * Z;
  Tip := unit;
  GetSnapshot := λ _ c, (Ok (None, []), c);
  Emit := λ _ _ c, (None, c);
  GetSnapshots := λ ks c, (Ok ((λ _, None) <$> ks), c);
  BeginTx := id;
  Savepoint := Docs * Z;
  TakeSavepoint := id;
  RestoreSavepoint := λ sp _, sp;
  GetMerge := λ _, LAST_WRITE_WINS;
  Decompress := λ v, match v with Raw b => b | _ => [] end;
  GetLock := λ k, len k
|}.
#[export] Instance doc_json : @JsonEngine doc_engine :=
  @Build_JsonEngine doc_engine
    (λ k (c : Docs * Z), let ds := doc_get c.1 k in (Ok ((λ n, mkDocument INSERT_OP n (dc_parts ds)) <$> dc_root ds, []), c))
    (λ e _ (c : Docs * Z), (None, (<[ne_Key e := doc_emit e (doc_get c.1 (ne_Key e))]> c.1, c.2))).
#[export] Instance doc_clock_inst : @Clock doc_engine :=
  @Build_Clock doc_engine (λ c : Docs * Z, (Z.max 0 (c.2 + 1), (c.1, Z.max 0 (c.2 + 1)))) 7.

Lemma doc_get_insert d k ds k' : doc_get (<[k := ds]> d) k' = if decide (k' = k) then ds else doc_get d k'.
Proof. unfold doc_get. destruct (decide (k' = k)) as [->|Hne]; [by rewrite lookup_insert_eq|by rewrite lookup_insert_ne]. Qed.

#[export] Program Instance doc_laws : @DocLaws doc_engine doc_json doc_clock_inst := {|
  doc_ok := λ _, True;
  docs := λ (c : Docs * Z) k, doc_get c.1 k;
  doc_clock := λ c : Docs * Z, c.2;
  doc_room := λ c : Docs * Z, Z.to_nat (2 ^ 63 - 1 - Z.max (-1) c.2)
|}.
Next Obligation.
  intros k c _. eexists _, _, c. split; [reflexivity|]. split; [done|]. split; [|split; [done|]; split; lia]. unfold shows. destruct (dc_root (doc_get c.1 k)); [done|by left].
Qed.
Next Obligation.
  intros e tips c _. eexists. split; [reflexivity|]. split; [done|]. cbn [fst snd]. split; [intros k Hk; rewrite doc_get_insert; by destruct (decide _)|]. split; [|split; lia].
  intros ds Hr. rewrite doc_get_insert. destruct (decide _); [|done]. unfold doc_emit. destruct (ne_Kind e) as [d|tag|]; [|by rewrite Hr|by rewrite Hr].
  destruct d as [[|] ? [| |] ? ? ? ?]; try by rewrite Hr. exfalso. unfold reduce_node in Hr. by destruct (node_get _ _).
Qed.
Next Obligation. intros k tips c _. cbn. rewrite doc_get_insert. destruct (decide _); [|done]. by split. Qed.
Next Obligation. intros c _. cbn. split; [done|]. split; [done|]. split; lia. Qed.
Next Obligation.
  intros c _ Hr. cbv beta in Hr. eexists _, _. split; [reflexivity|]. destruct c as [d n]. cbn [fst snd] in *. split_and!; [done|done|lia..].
Qed.

#[export] Instance bits_text : FormatG := λ f, 48 :: 46 :: FormatUint (Z.abs (Float64bits f)).
#[export] Instance text_bits : ParseFloat := λ s,
  match s with
  | c :: d :: ds => if (c =? 48) && (d =? 46) && all_digits ds then Some (Float64frombits (dval ds)) else None
  | _ => None
  end.
Lemma bits_nonneg f : is_double f → 0 <= Float64bits f.
Proof.
  unfold is_double. destruct f as [s|s| |s m e]; intros Hf; try (cbn [Float64bits]; destruct s; lia); [done|]. cbn [Float64bits].
  destruct (Z.ltb_spec (Z.pos m) (2 ^ 52)); destruct s; lia.
Qed.
#[export] Instance bits_FloatText : FloatText.
Proof.
  split.
  - intros f _. unfold format_g, bits_text. destruct (FormatUint_spec (Z.abs (Float64bits f))) as (Hd & _ & Hne); [lia|].
    unfold scan_number. cbn [scan_int Z.eqb Pos.eqb mbind option_bind]. unfold scan_frac. cbn [Z.eqb Pos.eqb]. unfold digits1. rewrite span_digits_all by done.
    destruct (FormatUint _) as [|c s]; [done|]. cbn. by rewrite app_nil_r.
  - intros f Hf _. unfold parse_float, text_bits, format_g, bits_text. destruct (FormatUint_spec (Z.abs (Float64bits f))) as (Hd & Hv & _); [lia|].
    rewrite Hd, Hv. cbn [Z.eqb Pos.eqb andb]. rewrite Z.abs_eq by by apply bits_nonneg. by rewrite Float64bits_roundtrip.
Qed.
#[export] Instance ascii_case : UnicodeCase := {| unicode_lower := id; unicode_upper := id; unicode_fields := λ _, []; unicode_trim := id |}.
#[export] Instance no_regexp : Regexp := λ _, None.
#[export] Instance no_pow : MathPow := λ x _, x.

Definition empty : St := mkSt (∅, -1) (NewWriter []) [].
Definition serve (h : list bytes → Prep) (args : list bytes) (st : St) : St :=
  match h args with Accept _ r => run r st | Refuse _ f => mkSt (st_ctx st) (f (st_w st)) (st_held st) | Crash => st end.
Definition text_of (st : St) : bytes := w_buf (st_w st).
End DocEngine.

(** ** Runs on the reference engine *)
Module JsonExample.
Import DocEngine.

Definition k : bytes := str "k".
Definition doc_text : bytes := str "{'a':[1,{'b':true}],'s':7}".
(** Quotes as JSON has them. *)
Definition quoted (s : bytes) : bytes := (λ c, if c =? 39 then 34 else c) <$> s.
Definition doc : JValue := VObject [(str "a", VArray [VInt 1; VObject [(str "b", VBool true)]]); (str "s", VInt 7)].
Definition root_path : Path := mkPath true [].
Definition b_steps : list step := [segKey (str "a"); segIndex 1; segKey (str "b")].

(** A check of documents with ASCII strings and without doubles. *)
Definition ascii_text (s : bytes) : bool := forallb (λ c, (0 <=? c) && (c <? 128)) s.
Fixpoint plain_doc (v : JValue) : bool :=
  match v with
  | VNull | VBool _ => true
  | VInt i => bool_decide (is_i64 i)
  | VFloat _ => false
  | VString s => ascii_text s
  | VArray l => forallb plain_doc l
  | VObject ms => bool_decide (NoDup (fst <$> ms)) && forallb (λ m, ascii_text (fst m) && plain_doc (snd m)) ms
  end.
Lemma ascii_text_valid s : ascii_text s = true → valid_utf8 s.
Proof. induction s as [|c s IH]; [constructor|]. cbn. intros [[?%Z.leb_le ?%Z.ltb_lt]%andb_true_iff ?]%andb_true_iff. constructor; auto. Qed.
Lemma plain_doc_ok v : plain_doc v = true → json_ok v.
Proof.
  induction v as [| | | | |l IH|ms IH] using JValue_ind; cbn [plain_doc]; intros Hv; try (by constructor).
  - constructor. by apply bool_decide_eq_true in Hv.
  - constructor. by apply ascii_text_valid.
  - constructor. rewrite forallb_forall in Hv. rewrite Forall_forall in *. intros x Hx. apply IH; [done|]. apply Hv. by apply list_elem_of_In.
  - apply andb_true_iff in Hv as [Hd%bool_decide_eq_true Hv]. rewrite forallb_forall in Hv. rewrite Forall_forall in IH.
    assert (Hm : ∀ m, m ∈ ms → ascii_text (fst m) = true ∧ plain_doc (snd m) = true) by (intros m Hin; apply andb_true_iff, Hv; by apply list_elem_of_In).
    constructor; [done|..]; apply Forall_forall; intros m Hin; destruct (Hm m Hin); [by apply ascii_text_valid|by apply IH].
Qed.

Lemma room_enough n (c : Ctx) : (snd c < 2 ^ 62)%Z → (n <= 1000)%nat → (n <= doc_room c)%nat.
Proof. cbn. intros. lia. Qed.
Lemma empty_dead key : dead key (st_ctx empty).
Proof. split; [done|]. intros w Hne [x Hx]. destruct w; [done|]. cbn in Hx. done. Qed.

(** The document, set where nothing was. *)
Definition held_doc : St := serve handleJSONSet [k; str "$"; quoted doc_text] empty.
Lemma held_doc_at : doc_at k (st_ctx held_doc) doc.
Proof.
  destruct (set_runner_dead k (str "$") (quoted doc_text) true doc empty) as (o & c' & E & _ & _ & Hd & _).
  - exact I.
  - apply empty_dead.
  - vm_compute. reflexivity.
  - vm_compute. reflexivity.
  - by apply plain_doc_ok.
  - apply room_enough; [vm_compute; reflexivity|]. apply (bool_decide_unpack _). vm_compute. exact I.
  - unfold held_doc, serve. cbn [handleJSONSet]. unfold run. rewrite E. exact Hd.
Qed.

Lemma json_roundtrip_witness : json_ok doc ∧ Parse (Serialize doc) = Some (canon doc).
Proof. split; [by apply plain_doc_ok|]. apply (json_roundtrip doc). by apply plain_doc_ok. Defined.

Lemma json_set_at_witness : ∃ runner, handleJSONSet [k; str "$.a[1].b"; str "[5]"] = Accept [k] runner ∧
  answers runner held_doc (WriteOK (st_w held_doc))
    (leaves k (st_ctx held_doc) (VObject [(str "a", VArray [VInt 1; VObject [(str "b", VArray [VInt 5])]]); (str "s", VInt 7)])).
Proof.
  refine (json_set_at k (str "$.a[1].b") (str "[5]") [] false false true b_steps (VArray [VInt 5]) doc held_doc I held_doc_at _ _ _ _ _).
  - reflexivity.
  - vm_compute. reflexivity.
  - vm_compute. reflexivity.
  - by apply plain_doc_ok.
  - apply room_enough; [vm_compute; reflexivity|]. apply (bool_decide_unpack _). vm_compute. exact I.
Defined.

Lemma json_set_get_witness : ∃ set get, handleJSONSet [k; str ".a[-1].c"; str "null"] = Accept [k] set ∧ handleJSONGet [k; str ".a[-1].c"] = Accept [k] get ∧
  st_w (run get (run set held_doc)) = WriteBulkString (str "null") (WriteOK (st_w held_doc)).
Proof.
  refine (json_set_get k (str ".a[-1].c") (str "null") false [segKey (str "a"); segIndex (-1); segKey (str "c")] VNull doc held_doc I _ _ _ _ _ _).
  - vm_compute. reflexivity.
  - vm_compute. reflexivity.
  - vm_compute. reflexivity.
  - constructor.
  - apply room_enough; [vm_compute; reflexivity|]. apply (bool_decide_unpack _). vm_compute. exact I.
  - right. split; [exact held_doc_at|]. eexists. vm_compute. reflexivity.
Defined.

Lemma json_del_at_witness : ∃ runner, handleJSONDel [k; str "$.a[0]"] = Accept [k] runner ∧
  answers runner held_doc (WriteInteger 1 (st_w held_doc)) (leaves k (st_ctx held_doc) (VObject [(str "a", VArray [VObject [(str "b", VBool true)]]); (str "s", VInt 7)])).
Proof.
  refine (json_del_at k (str "$.a[0]") true [segKey (str "a"); segIndex 0] doc held_doc I held_doc_at _ _).
  - vm_compute. reflexivity.
  - done.
Defined.

Lemma json_num_at_witness : ∃ runner w v', handleJSONNumMultBy [k; str ".s"; str "9223372036854775807"] = Accept [k] runner ∧
  num_outcome NumMult false (str ".s") [segKey (str "s")] 9223372036854775807 doc = Some (w, v') ∧
  answers runner held_doc (w (st_w held_doc)) (leaves k (st_ctx held_doc) v').
Proof.
  refine (json_num_at k NumMult (str "json.nummultby") (str ".s") (str "9223372036854775807") false [segKey (str "s")] 9223372036854775807 doc held_doc I held_doc_at _ _ _ _).
  - vm_compute. reflexivity.
  - vm_compute. reflexivity.
  - apply (bool_decide_unpack _). vm_compute. exact I.
  - intros f. vm_compute. discriminate.
Defined.

Lemma json_array_writes_witness :
  does k (handleJSONArrInsert [k; str "$.a"; str "-1"; str "{}"]) (insert_spec (-1) [VObject []]) true (str "$.a") [segKey (str "a")] doc held_doc ∧
  does k (handleJSONArrTrim [k; str "$.a"; str "-1"; str "9"]) (trim_spec (-1) 9) true (str "$.a") [segKey (str "a")] doc held_doc ∧
  pops k (handleJSONArrPop [k; str "$.a"; str "9"]) 9 true (str "$.a") [segKey (str "a")] doc held_doc.
Proof.
  assert (Hpp : ParsePath (str "$.a") = Some (mkPath true (concrete <$> [segKey (str "a")]))) by (vm_compute; reflexivity).
  assert (Hh : doc_ok (st_ctx held_doc)) by exact I.
  destruct (json_array_writes k (str "$.a") true [segKey (str "a")] doc held_doc Hh held_doc_at Hpp) as (Hins & Htrim & _ & Hpop). split; [|split].
  - refine (proj2 (Hins (str "{}") [] [VObject []] _ _ _) (str "-1") (-1) _).
    + vm_compute. reflexivity.
    + constructor; [by apply plain_doc_ok|constructor].
    + apply room_enough; [vm_compute; reflexivity|]. apply (bool_decide_unpack _). vm_compute. exact I.
    + vm_compute. reflexivity.
  - refine (Htrim _ _ _ _ _ _); vm_compute; reflexivity.
  - refine (Hpop _ _ _). vm_compute. reflexivity.
Defined.

(** ** Where the commands go wrong *)

(** The reply of a command on its own. *)
Definition replied (h : list bytes → Prep) (args : list bytes) (st : St) : bytes :=
  w_buf (st_w (serve h args (mkSt (st_ctx st) (NewWriter []) (st_held st)))).
Definition bulk_reply (b : bytes) : bytes := w_buf (WriteBulkString b (NewWriter [])).

(** A step near the largest integer wraps around in the loop over the slice: an
    index out of range is looked up and the goroutine panics. *)
Definition three : St := serve handleJSONSet [k; str "$"; str "[1,2,3]"] empty.
Theorem json_slice_panics : ∃ runner, handleJSONGet [k; str "$[1:5:9223372036854775807]"] = Accept [k] runner ∧ fst (runner three) = Panic.
Proof. eexists. split; [reflexivity|]. vm_compute. reflexivity. Qed.

(** A path that names an array twice pops one element and reports two. *)
Definition nested : St := serve handleJSONSet [k; str "$"; str "[[1,2]]"] empty.
Theorem json_pop_twice :
  replied handleJSONArrPop [k; str "$[0,0]"] nested = w_buf (WriteBulkArray [str "2"; str "2"] (NewWriter [])) ∧
  replied handleJSONGet [k; str "."] (serve handleJSONArrPop [k; str "$[0,0]"] nested) = bulk_reply (str "[[1]]").
Proof. split; vm_compute; reflexivity. Qed.

(** A product that overflows is stored as the text of an infinity, which is no
    JSON: the member is no longer read, though the command answered with it. *)
#[local] Instance inf_text : FormatG := λ f,
  match f with S754_infinity false => str "+Inf" | S754_infinity true => str "-Inf" | f => bits_text f end.
Definition big : St := serve handleJSONSet [k; str "$"; quoted (str "{'a':0.9214364837600034816}")] empty.
Theorem json_inf_lost :
  replied handleJSONNumMultBy [k; str "$.a"; str "4"] big = bulk_reply (str "[+Inf]") ∧
  replied handleJSONGet [k; str "."] (serve handleJSONNumMultBy [k; str "$.a"; str "4"] big) = bulk_reply (str "{}").
Proof. split; vm_compute; reflexivity. Qed.
End JsonExample.
