(* ===== verification/SqlEncoding.v ===== *)
(** * SQL keys and values

    src/sql/encoding.go and src/sql/keys.go: the storage keys of rows and index
    entries, built from an order-preserving encoding of column values.

    [sqlite.Value] belongs to the SQLite binding; its four accessors are
    parameters, which return the value itself when it has their type
    ([SqliteLaws]).  A float is its IEEE 754 bit pattern
    ([math.Float64bits]). *)

From S2P Require Import Prelude GoBytes Engine.

Local Open Scope Z_scope.

(** ** Values *)

Inductive SqlValue : Type :=
  | VNull
  | VInteger (z : Z)
  | VFloat (bits : Z)
  | VText (s : bytes)
  | VBlob (b : bytes).

#[global] Instance SqlValue_eq_dec : EqDecision SqlValue.
Proof. solve_decision. Defined.

Class Sqlite := {
  Int64 : SqlValue → Z;
  Float : SqlValue → Z;
  Text : SqlValue → bytes;
  Blob : SqlValue → bytes
}.

Class SqliteLaws `{Sqlite} := {
  law_int z : Int64 (VInteger z) = z;
  law_float f : Float (VFloat f) = f;
  law_text s : Text (VText s) = s;
  law_blob b : Blob (VBlob b) = b
}.

Inductive Affinity : Type :=
  affinityInteger | affinityReal | affinityText | affinityBlob | affinityNumeric.

#[global] Instance Affinity_eq_dec : EqDecision Affinity.
Proof. solve_decision. Defined.

(** [strings.Contains]. *)
Fixpoint contains (s sub : bytes) : bool :=
  has_prefix s sub || match s with [] => false | _ :: s' => contains s' sub end.

Definition sqliteAffinity `{UnicodeCase} (declType : bytes) : Affinity :=
  let upper := strings_ToUpper declType in
  if contains upper (str "INT") then affinityInteger
  else if contains upper (str "CHAR") || contains upper (str "CLOB") || contains upper (str "TEXT")
  then affinityText
  else if contains upper (str "BLOB") || beq upper [] then affinityBlob
  else if contains upper (str "REAL") || contains upper (str "FLOA") || contains upper (str "DOUB")
  then affinityReal
  else affinityNumeric.

Section Encoding.
Context `{Sqlite}.

(** [setEncodedValue]: the value of the effect, [None] for NULL. *)
Definition setEncodedValue (v : SqlValue) : option Value :=
  match v with
  | VInteger _ => Some (IntVal (Int64 v))
  | VFloat _ => Some (FloatVal (Float v))
  | VText _ => Some (Raw (Text v))
  | VBlob _ => Some (Raw (Blob v))
  | VNull => None
  end.

Definition decodeValue (eff : option Value) (aff : Affinity) : SqlValue :=
  match eff with
  | None => VNull
  | Some (IntVal n) => VInteger n
  | Some (FloatVal f) => VFloat f
  | Some (Raw b) => if bool_decide (aff = affinityBlob) then VBlob b else VText b
  | Some (Compressed _) => VNull
  end.

(** ** Ordered encodings *)

Definition signBit : Z := 2 ^ 63.

(** Integers: the sign bit flipped.  Floats: the sign bit of a positive one,
    every bit of a negative one. *)
Definition order_int (z : Z) : Z := Z.lxor (u64 z) signBit.
Definition order_float (bits : Z) : Z :=
  if negb (Z.land bits signBit =? 0) then Z.lxor bits MaxUint64 else Z.lxor bits signBit.
Definition unorder_int (u : Z) : Z := i64 (Z.lxor u signBit).
Definition unorder_float (bits : Z) : Z :=
  if negb (Z.land bits signBit =? 0) then Z.lxor bits signBit else Z.lxor bits MaxUint64.

Definition encodeIndexValue (v : SqlValue) (aff : Affinity) : bytes :=
  match aff with
  | affinityInteger => be_put 8 (order_int (Int64 v))
  | affinityReal => be_put 8 (order_float (Float v))
  | affinityText => Text v
  | affinityBlob => Blob v
  | affinityNumeric => Text v
  end.

Fixpoint escape_zeros (raw : bytes) : bytes :=
  match raw with
  | [] => []
  | b :: raw' => (if b =? 0 then [0; 1] else [b]) ++ escape_zeros raw'
  end.
Definition encodeTupleBytes (raw : bytes) : bytes := escape_zeros raw ++ [0; 0].

Fixpoint decodeTupleBytes (buf : bytes) : option (bytes * bytes) :=
  match buf with
  | [] => None
  | b :: buf' =>
    if negb (b =? 0) then
      match decodeTupleBytes buf' with Some (out, rest) => Some (b :: out, rest) | None => None end
    else
      match buf' with
      | [] => None
      | next :: rest =>
        if next =? 0 then Some ([], rest)
        else if next =? 1 then
          match decodeTupleBytes rest with Some (out, rest') => Some (0 :: out, rest') | None => None end
        else None
      end
  end.

Definition encodeTupleComponent (v : SqlValue) (aff : Affinity) : bytes :=
  match aff with
  | affinityInteger | affinityReal => encodeIndexValue v aff
  | affinityText => encodeTupleBytes (Text v)
  | affinityBlob => encodeTupleBytes (Blob v)
  | affinityNumeric => encodeTupleBytes (Text v)
  end.

Definition decodeTupleComponent (buf : bytes) (aff : Affinity) : option (SqlValue * bytes) :=
  match aff with
  | affinityInteger =>
    if len buf <? 8 then None else Some (VInteger (unorder_int (be_get (take 8 buf))), drop 8 buf)
  | affinityReal =>
    if len buf <? 8 then None else Some (VFloat (unorder_float (be_get (take 8 buf))), drop 8 buf)
  | affinityBlob =>
    match decodeTupleBytes buf with Some (raw, rest) => Some (VBlob raw, rest) | None => None end
  | _ =>
    match decodeTupleBytes buf with Some (raw, rest) => Some (VText raw, rest) | None => None end
  end.

(** The concatenation of the components. *)
Fixpoint encode_tuple (vs : list SqlValue) (affs : list Affinity) : bytes :=
  match vs, affs with
  | v :: vs', a :: affs' => encodeTupleComponent v a ++ encode_tuple vs' affs'
  | _, _ => []
  end.

(** ** Primary keys *)

Definition encode_single (v : SqlValue) (aff : Affinity) : bytes :=
  match aff with
  | affinityInteger | affinityReal => encodeIndexValue v aff
  | affinityBlob => Blob v
  | _ => Text v
  end.

(** [None] is the error for lists of different lengths. *)
Definition encodePK (vs : list SqlValue) (affs : list Affinity) : option bytes :=
  if negb (len vs =? len affs) then None
  else match vs, affs with
  | [v], [a] => Some (encode_single v a)
  | _, _ => Some (encode_tuple vs affs)
  end.

Definition decodeSinglePK (pk : bytes) (aff : Affinity) : SqlValue :=
  match aff with
  | affinityInteger => if negb (len pk =? 8) then VText pk else VInteger (unorder_int (be_get pk))
  | affinityReal => if negb (len pk =? 8) then VText pk else VFloat (unorder_float (be_get pk))
  | affinityBlob => VBlob pk
  | _ => VText pk
  end.

(** The tuple walk; a malformed component makes it and the rest NULL. *)
Fixpoint decode_tuple (buf : bytes) (affs : list Affinity) : list SqlValue :=
  match affs with
  | [] => []
  | a :: affs' =>
    match decodeTupleComponent buf a with
    | None => replicate (length affs) VNull
    | Some (v, rest) => v :: decode_tuple rest affs'
    end
  end.

Definition decodePK (pk : bytes) (affs : list Affinity) : list SqlValue :=
  match affs with
  | [a] => [decodeSinglePK pk a]
  | _ => decode_tuple pk affs
  end.

(** ** Index keys *)

(** [None] is the panic of indexing past the affinities. *)
Definition encodeIndexKeyTuple (vs : list SqlValue) (affs : list Affinity) : option bytes :=
  if len affs <? len vs then None
  else match vs, affs with
  | [v], a :: _ => Some (encodeIndexValue v a)
  | _, _ => Some (encode_tuple vs affs)
  end.

Definition encodeIndexKeyPrefix (vs : list SqlValue) (affs : list Affinity) (prefixCount : Z) :
    option bytes :=
  if prefixCount <=? 0 then Some []
  else
    let prefixCount := if len vs <? prefixCount then len vs else prefixCount in
    match vs, affs with
    | v :: _, [a] =>
      if prefixCount =? 1 then Some (encodeIndexValue v a) else None
    | _, _ =>
      if len affs <? prefixCount then None
      else Some (encode_tuple (take (Z.to_nat prefixCount) vs) affs)
    end.
End Encoding.

(** ** Storage keys *)

Definition prefixRow : bytes := str "r".
Definition prefixIndex : bytes := str "i".
Definition prefixSchema : bytes := str "s".
Definition prefixXIndex : bytes := str "x".
Definition prefixView : bytes := str "v".

Definition encodeIDHeader (prefix id : bytes) : bytes :=
  take 1 prefix ++ be_put 4 (len id mod 2 ^ 32) ++ id.

Definition rowKey (tableID pk : bytes) : bytes := encodeIDHeader prefixRow tableID ++ pk.
Definition rowKeyPrefix (tableID : bytes) : bytes := encodeIDHeader prefixRow tableID.
Definition indexKey (indexID encoded : bytes) : bytes := encodeIDHeader prefixIndex indexID ++ encoded.
Definition indexKeyPrefix (indexID : bytes) : bytes := encodeIDHeader prefixIndex indexID.
Definition indexMetaKey (index : bytes) : bytes := prefixXIndex ++ str "/" ++ index.
Definition viewMetaKey (view : bytes) : bytes := prefixView ++ str "/" ++ view.
Definition schemaKey (table : bytes) : bytes := prefixSchema ++ str "/" ++ table.

Definition parseRowKey (key tableID : bytes) : option bytes :=
  let header := rowKeyPrefix tableID in
  if len key <? len header then None
  else if negb (beq (take (length header) key) header) then None
  else Some (drop (length header) key).

Fixpoint escapeGlob (s : bytes) : bytes :=
  match s with
  | [] => []
  | c :: s' =>
    (if (c =? 42) || (c =? 63) || (c =? 91) || (c =? 92) then [92; c] else [c]) ++ escapeGlob s'
  end.

Definition rowKeyPattern (tableID : bytes) : bytes := escapeGlob (rowKeyPrefix tableID) ++ str "*".
Definition indexKeyPattern (indexID : bytes) : bytes := escapeGlob (indexKeyPrefix indexID) ++ str "*".
