(* ===== verification/SqlProps.v ===== *)
(** * Properties of the SQL key encodings

    The primary-key and index encodings of SqlEncoding are decoded back to the
    values they came from, sort bytewise as the tuples of values sort, and are
    cut by a column prefix exactly where the values are; the storage keys of
    different tables and of different kinds never meet. *)

From S2P Require Import Prelude GoBytes Strconv Engine SqlEncoding.

Local Open Scope Z_scope.

(** ** Values and their order *)

(** The magnitude of a double with these 63 low bits, in units of 2^-1074: the
    subnormal and the normal numbers, with infinity above them all. *)
Definition float_mag (m : Z) : Z :=
  let e := m / 2 ^ 52 in let f := m mod 2 ^ 52 in
  if e =? 0 then f else (2 ^ 52 + f) * 2 ^ (e - 1).
Definition float_num (bits : Z) : Z :=
  if bits <? 2 ^ 63 then float_mag bits else - float_mag (bits - 2 ^ 63).
Definition float_nan (bits : Z) : bool := 2047 * 2 ^ 52 <? bits mod 2 ^ 63.

(** A value of the column's own storage class.  SQLite stores NaN as NULL. *)
Definition typed (v : SqlValue) (a : Affinity) : Prop :=
  match a, v with
  | affinityInteger, VInteger z => is_i64 z
  | affinityReal, VFloat f => is_u64 f ∧ float_nan f = false
  | affinityText, VText s | affinityNumeric, VText s => byte_ok s
  | affinityBlob, VBlob b => byte_ok b
  | _, _ => False
  end.

#[global] Instance typed_dec v a : Decision (typed v a).
Proof. destruct a, v; simpl; apply _. Defined.

(** The order of the column's values: numeric, with -0.0 below 0.0, or
    bytewise. *)
Definition value_lt (v w : SqlValue) : Prop :=
  match v, w with
  | VInteger y, VInteger z => y < z
  | VFloat f, VFloat g =>
    float_num f < float_num g ∨ (float_num f = float_num g ∧ f = 2 ^ 63 ∧ g = 0)
  | VText s, VText t | VBlob s, VBlob t => blt s t = true
  | _, _ => False
  end.

(** Tuples compare by their first difference. *)
Fixpoint tuple_lt (vs ws : list SqlValue) : Prop :=
  match vs, ws with
  | v :: vs', w :: ws' => value_lt v w ∨ (v = w ∧ tuple_lt vs' ws')
  | _, _ => False
  end.

(** ** The fixed-width encodings *)

Lemma lxor_sign u : is_u64 u →
  Z.lxor u signBit = if u <? 2 ^ 63 then u + 2 ^ 63 else u - 2 ^ 63.
Proof.
  assert (Hlow : ∀ w, 0 <= w < 2 ^ 63 → Z.lxor w signBit = w + 2 ^ 63).
  { intros w Hw. unfold signBit. symmetry. apply Z.add_nocarry_lxor.
    apply Z.bits_inj'. intros n Hn. rewrite Z.land_spec, Z.bits_0.
    destruct (decide (n = 63)) as [->|].
    - rewrite Z.testbit_odd, Z.shiftr_div_pow2, Z.div_small by lia. done.
    - rewrite Z.pow2_bits_false by lia. apply andb_false_r. }
  intros Hu. unfold is_u64 in Hu. destruct (Z.ltb_spec u (2 ^ 63)) as [Hl|Hl]; [apply Hlow; lia|].
  replace u with ((u - 2 ^ 63) + 2 ^ 63) at 1 by lia.
  rewrite <- (Hlow (u - 2 ^ 63)) by zlia.
  by rewrite Z.lxor_assoc, Z.lxor_nilpotent, Z.lxor_0_r.
Qed.

Lemma lxor_all u : is_u64 u → Z.lxor u MaxUint64 = MaxUint64 - u.
Proof.
  intros Hu. unfold is_u64 in Hu. change MaxUint64 with (Z.ones 64).
  assert (Hb : ∀ n, 64 <= n → Z.testbit u n = false).
  { intros n Hn. destruct (decide (u = 0)) as [->|]; [apply Z.bits_0|].
    apply Z.bits_above_log2; [lia|]. apply Z.lt_le_trans with 64; [|done].
    apply Z.log2_lt_pow2; zlia. }
  rewrite Z.sub_nocarry_ldiff.
  - apply Z.bits_inj'. intros n Hn. rewrite Z.lxor_spec, Z.ldiff_spec, Z.testbit_ones_nonneg by lia.
    destruct (Z.ltb_spec n 64); [by destruct (Z.testbit u n)|]. by rewrite Hb.
  - apply Z.bits_inj'. intros n Hn. rewrite Z.ldiff_spec, Z.bits_0, Z.testbit_ones_nonneg by lia.
    destruct (Z.ltb_spec n 64); [by rewrite andb_false_r|]. by rewrite Hb.
Qed.

Lemma land_sign u : is_u64 u → negb (Z.land u signBit =? 0) = (2 ^ 63 <=? u).
Proof.
  intros Hu. pose proof (lxor_sign u Hu) as Hx. unfold is_u64 in Hu.
  assert (Hs : Z.land u signBit = if Z.testbit u 63 then signBit else 0).
  { unfold signBit. apply Z.bits_inj'. intros n Hn. rewrite Z.land_spec.
    destruct (decide (n = 63)) as [->|].
    - rewrite Z.pow2_bits_true by lia. by destruct (Z.testbit u 63).
    - rewrite Z.pow2_bits_false, andb_false_r by lia.
      destruct (Z.testbit u 63); [by rewrite Z.pow2_bits_false by lia|by rewrite Z.bits_0]. }
  assert (Ht : Z.testbit u 63 = (2 ^ 63 <=? u)).
  { rewrite Z.testbit_odd, Z.shiftr_div_pow2 by lia.
    destruct (Z.leb_spec (2 ^ 63) u).
    - replace (u / 2 ^ 63) with 1; [done|].
      apply Z.div_unique with (u - 2 ^ 63); zlia.
    - by rewrite Z.div_small by lia. }
  rewrite Hs, Ht. by destruct (2 ^ 63 <=? u).
Qed.

Lemma order_int_eq z : is_i64 z → order_int z = z + 2 ^ 63.
Proof.
  intros Hz. unfold order_int. rewrite lxor_sign by apply u64_range.
  unfold u64. unfold is_i64 in Hz. destruct (decide (0 <= z)).
  - rewrite Z.mod_small by zlia. destruct (Z.ltb_spec z (2 ^ 63)); zlia.
  - replace (z `mod` 2 ^ 64) with (z + 2 ^ 64)
      by (apply Z.mod_unique with (-1); zlia).
    destruct (Z.ltb_spec (z + 2 ^ 64) (2 ^ 63)); zlia.
Qed.

Lemma order_float_eq f : is_u64 f →
  order_float f = if f <? 2 ^ 63 then f + 2 ^ 63 else 2 ^ 64 - 1 - f.
Proof.
  intros Hf. unfold order_float. rewrite land_sign by done.
  destruct (Z.leb_spec (2 ^ 63) f), (Z.ltb_spec f (2 ^ 63)); try lia.
  - rewrite lxor_all by done. done.
  - rewrite lxor_sign by done. destruct (Z.ltb_spec f (2 ^ 63)); lia.
Qed.

Lemma order_int_u64 z : is_i64 z → is_u64 (order_int z).
Proof. intros Hz. rewrite order_int_eq by done. zlia. Qed.

Lemma order_float_u64 f : is_u64 f → is_u64 (order_float f).
Proof.
  intros Hf. rewrite order_float_eq by done. destruct (Z.ltb_spec f (2 ^ 63)); zlia.
Qed.

Lemma unorder_order_int z : is_i64 z → unorder_int (order_int z) = z.
Proof.
  intros Hz. unfold unorder_int, order_int.
  rewrite Z.lxor_assoc, Z.lxor_nilpotent, Z.lxor_0_r.
  rewrite <- (i64_id z) at 2 by done. apply i64_mod_eq. unfold u64. apply Zmod_mod.
Qed.

Lemma unorder_order_float f : is_u64 f → unorder_float (order_float f) = f.
Proof.
  intros Hf. unfold unorder_float. rewrite land_sign by by apply order_float_u64.
  rewrite lxor_sign, lxor_all by by apply order_float_u64.
  rewrite order_float_eq by done. change MaxUint64 with (2 ^ 64 - 1).
  destruct (Z.ltb_spec f (2 ^ 63)).
  - destruct (Z.leb_spec (2 ^ 63) (f + 2 ^ 63)), (Z.ltb_spec (f + 2 ^ 63) (2 ^ 63)); zlia.
  - destruct (Z.leb_spec (2 ^ 63) (2 ^ 64 - 1 - f)); zlia.
Qed.

(** ** The order of floats *)

Lemma float_mag_bound m : 0 <= m →
  float_mag m < 2 ^ 52 * 2 ^ (m / 2 ^ 52) ∧ 0 <= float_mag m.
Proof.
  intros Hm. pose proof (Z.mod_pos_bound m (2 ^ 52)) as Hf.
  pose proof (Z.div_pos m (2 ^ 52)) as He. unfold float_mag.
  destruct (Z.eqb_spec (m / 2 ^ 52) 0) as [E|E].
  - rewrite E, Z.pow_0_r. lia.
  - replace (2 ^ (m / 2 ^ 52)) with (2 * 2 ^ (m / 2 ^ 52 - 1))
      by (rewrite <- Z.pow_succ_r by lia; f_equal; lia).
    assert (0 < 2 ^ (m / 2 ^ 52 - 1)) by (apply Z.pow_pos_nonneg; lia). nia.
Qed.

Lemma float_mag_lt m n : 0 <= m → m < n → float_mag m < float_mag n.
Proof.
  intros Hm Hn. pose proof (Z.mod_pos_bound m (2 ^ 52)). pose proof (Z.mod_pos_bound n (2 ^ 52)).
  pose proof (Z_div_mod_eq_full m (2 ^ 52)). pose proof (Z_div_mod_eq_full n (2 ^ 52)).
  pose proof (Z.div_pos m (2 ^ 52)).
  destruct (decide (m / 2 ^ 52 = n / 2 ^ 52)) as [E|E].
  - unfold float_mag. rewrite E. destruct (Z.eqb_spec (n / 2 ^ 52) 0); [lia|].
    apply Z.mul_lt_mono_pos_r; [apply Z.pow_pos_nonneg; lia|lia].
  - assert (m / 2 ^ 52 < n / 2 ^ 52) by (pose proof (Z.div_le_mono m n (2 ^ 52)); lia).
    apply Z.lt_le_trans with (2 ^ 52 * 2 ^ (m / 2 ^ 52)); [by apply float_mag_bound|].
    unfold float_mag at 1. destruct (Z.eqb_spec (n / 2 ^ 52) 0); [lia|].
    apply Z.mul_le_mono_nonneg; [lia|lia|apply Z.pow_nonneg; lia|].
    apply Z.pow_le_mono_r; lia.
Qed.

Lemma float_mag_le m n : 0 <= m → m <= n → float_mag m <= float_mag n.
Proof.
  intros Hm Hn. destruct (decide (m = n)) as [->|]; [done|].
  pose proof (float_mag_lt m n). lia.
Qed.

(** The encoding of floats is monotone for the order of [value_lt]. *)
Lemma order_float_lt f g : is_u64 f → is_u64 g →
  value_lt (VFloat f) (VFloat g) → order_float f < order_float g.
Proof.
  intros Hf Hg. simpl. rewrite !order_float_eq by done. unfold float_num.
  unfold is_u64 in Hf, Hg. pose proof (float_mag_bound f). pose proof (float_mag_bound g).
  pose proof (float_mag_bound (f - 2 ^ 63)). pose proof (float_mag_bound (g - 2 ^ 63)).
  pose proof (float_mag_le g f). pose proof (float_mag_le (f - 2 ^ 63) (g - 2 ^ 63)).
  destruct (Z.ltb_spec f (2 ^ 63)), (Z.ltb_spec g (2 ^ 63)); zlia.
Qed.

Lemma float_mag_pos m : 0 < m → 0 < float_mag m.
Proof. intros Hm. pose proof (float_mag_lt 0 m) as H. change (float_mag 0) with 0 in H. lia. Qed.

(** A negative float is below a positive one. *)
Lemma value_lt_signs f g : is_u64 f → 2 ^ 63 <= f → 0 <= g < 2 ^ 63 →
  value_lt (VFloat f) (VFloat g).
Proof.
  intros Hf Hs Hg. simpl. unfold float_num.
  rewrite (proj2 (Z.ltb_ge f _)), (proj2 (Z.ltb_lt g _)) by lia.
  destruct (float_mag_bound (f - 2 ^ 63)) as [_ Hn]; [lia|].
  destruct (decide (g = 0)) as [->|].
  - destruct (decide (f = 2 ^ 63)) as [->|]; [by right|]. left.
    pose proof (float_mag_pos (f - 2 ^ 63)). change (float_mag 0) with 0. lia.
  - left. pose proof (float_mag_pos g). lia.
Qed.

Lemma value_lt_float_total f g : is_u64 f → is_u64 g →
  value_lt (VFloat f) (VFloat g) ∨ f = g ∨ value_lt (VFloat g) (VFloat f).
Proof.
  intros Hf Hg. destruct (Z.lt_ge_cases f (2 ^ 63)) as [Ef|Ef], (Z.lt_ge_cases g (2 ^ 63)) as [Eg|Eg].
  - simpl. unfold float_num. rewrite !(proj2 (Z.ltb_lt _ _)) by done.
    pose proof (float_mag_lt f g). pose proof (float_mag_lt g f). unfold is_u64 in *. lia.
  - right; right. apply value_lt_signs; [done..|unfold is_u64 in *; lia].
  - left. apply value_lt_signs; [done..|unfold is_u64 in *; lia].
  - simpl. unfold float_num. rewrite !(proj2 (Z.ltb_ge _ _)) by done.
    pose proof (float_mag_lt (f - 2 ^ 63) (g - 2 ^ 63)).
    pose proof (float_mag_lt (g - 2 ^ 63) (f - 2 ^ 63)). lia.
Qed.

(** ** Escaped strings *)

Lemma decode_encode_bytes raw rest :
  decodeTupleBytes (encodeTupleBytes raw ++ rest) = Some (raw, rest).
Proof.
  unfold encodeTupleBytes. induction raw as [|b raw IH]; [done|].
  simpl. destruct (Z.eqb_spec b 0) as [->|Hb]; simpl.
  - by rewrite IH.
  - rewrite <- Z.eqb_neq in Hb. by rewrite Hb; simpl; rewrite IH.
Qed.

Lemma encode_bytes_lt s t x y : byte_ok s → byte_ok t → blt s t = true →
  blt (encodeTupleBytes s ++ x) (encodeTupleBytes t ++ y) = true.
Proof.
  unfold encodeTupleBytes. revert t. induction s as [|b s IH]; intros [|c t] Hs Ht Hlt; try done.
  - apply Forall_cons in Ht as [Hc _]. simpl. destruct (Z.eqb_spec c 0); simpl; [done|].
    assert (0 < c) by zlia. rewrite (proj2 (Z.ltb_lt 0 c)) by done. done.
  - apply Forall_cons in Hs as [Hb Hs], Ht as [Hc Ht].
    apply blt_cons in Hlt as [Hlt|[-> Hlt]].
    + simpl. destruct (Z.eqb_spec b 0), (Z.eqb_spec c 0); simpl; try zlia;
        rewrite (proj2 (Z.ltb_lt _ _)) by zlia; done.
    + specialize (IH t Hs Ht Hlt). simpl.
      rewrite <- !app_assoc, blt_app_same, !app_assoc. done.
Qed.

(** ** Components and tuples *)

Section Tuples.
Context `{SqliteLaws}.

#[local] Opaque be_put.
#[local] Arguments take : simpl never.
#[local] Arguments drop : simpl never.

Ltac by_affinity v a :=
  destruct a, v; simpl in *; try done; rewrite ?law_int, ?law_float, ?law_text, ?law_blob.

Lemma take_drop_8 u rest :
  take 8 (be_put 8 u ++ rest) = be_put 8 u ∧ drop 8 (be_put 8 u ++ rest) = rest ∧
  (len (be_put 8 u ++ rest) <? 8) = false.
Proof.
  split_and!.
  - rewrite take_app_length'; [done|]. by rewrite length_be_put.
  - rewrite drop_app_length'; [done|]. by rewrite length_be_put.
  - rewrite len_app. apply Z.ltb_ge. pose proof (len_nonneg rest).
    unfold len at 1. rewrite length_be_put. lia.
Qed.

Lemma be_get_put_8 u : is_u64 u → be_get (be_put 8 u) = u.
Proof. intros Hu. apply be_get_put. change (256 ^ Z.of_nat 8) with (2 ^ 64). zlia. Qed.

(** A component is read back, and the bytes after it are left alone. *)
Lemma decode_encode_component v a rest : typed v a →
  decodeTupleComponent (encodeTupleComponent v a ++ rest) a = Some (v, rest).
Proof.
  intros Hv. unfold decodeTupleComponent, encodeTupleComponent, encodeIndexValue.
  by_affinity v a; try by rewrite decode_encode_bytes.
  - destruct (take_drop_8 (order_int z) rest) as (-> & -> & ->).
    by rewrite be_get_put_8, unorder_order_int by by try apply order_int_u64.
  - destruct Hv as [Hv _]. destruct (take_drop_8 (order_float bits) rest) as (-> & -> & ->).
    by rewrite be_get_put_8, unorder_order_float by by try apply order_float_u64.
Qed.

Lemma decode_encode_tuple vs affs rest : Forall2 typed vs affs →
  decode_tuple (encode_tuple vs affs ++ rest) affs = vs.
Proof.
  intros Hv. induction Hv as [|v a vs affs Hv _ IH]; [done|].
  simpl. rewrite <- app_assoc, decode_encode_component by done. by rewrite IH.
Qed.

Lemma decode_encode_single v a : typed v a → decodeSinglePK (encode_single v a) a = v.
Proof.
  intros Hv. unfold decodeSinglePK, encode_single, encodeIndexValue.
  by_affinity v a; try done; unfold len; rewrite length_be_put; simpl.
  - by rewrite be_get_put_8, unorder_order_int by by try apply order_int_u64.
  - destruct Hv as [Hv _].
    by rewrite be_get_put_8, unorder_order_float by by try apply order_float_u64.
Qed.

(** The encoded keys of a tuple with a value per column, as one function. *)
Definition encoded (vs : list SqlValue) (affs : list Affinity) : bytes :=
  match vs, affs with
  | [v], [a] => encode_single v a
  | _, _ => encode_tuple vs affs
  end.

Lemma encodePK_encoded {R : SqlValue → Affinity → Prop} vs affs : Forall2 R vs affs → encodePK vs affs = Some (encoded vs affs).
Proof.
  intros Hv. unfold encodePK, encoded, len. rewrite (Forall2_length _ _ _ Hv), Z.eqb_refl. simpl.
  by repeat case_match.
Qed.
Lemma encodeIndexKeyTuple_encoded {R : SqlValue → Affinity → Prop} vs affs : Forall2 R vs affs →
  encodeIndexKeyTuple vs affs = Some (encoded vs affs).
Proof.
  intros Hv. unfold encodeIndexKeyTuple, encoded, len.
  rewrite (Forall2_length _ _ _ Hv), Z.ltb_irrefl.
  destruct Hv as [|v a vs affs Hv Hr]; [done|]. destruct Hr; [|done]. by destruct a.
Qed.

Lemma decodePK_encoded vs affs : Forall2 typed vs affs → decodePK (encoded vs affs) affs = vs.
Proof.
  intros Hv. pose proof (decode_encode_tuple vs affs [] Hv) as Ht. rewrite app_nil_r in Ht.
  destruct Hv as [|v a vs affs Hv Hr]; [done|]. destruct Hr; [|done].
  simpl. by rewrite decode_encode_single.
Qed.

(** *** Order *)

Lemma be_8_lt u w x y : is_u64 u → is_u64 w → u < w →
  blt (be_put 8 u ++ x) (be_put 8 w ++ y) = true.
Proof.
  intros Hu Hw Hlt. apply blt_app_head; [by rewrite !length_be_put|].
  apply be_put_lt; change (256 ^ Z.of_nat 8) with (2 ^ 64); zlia.
Qed.

Lemma value_lt_component v w a x y : typed v a → typed w a → value_lt v w →
  blt (encodeTupleComponent v a ++ x) (encodeTupleComponent w a ++ y) = true.
Proof.
  intros Hv Hw Hlt. unfold encodeTupleComponent, encodeIndexValue.
  by_affinity v a; destruct w; try done; rewrite ?law_int, ?law_float, ?law_text, ?law_blob;
    try by apply encode_bytes_lt.
  - apply be_8_lt; [by apply order_int_u64..|]. rewrite !order_int_eq by done. lia.
  - destruct Hv as [Hv _], Hw as [Hw _].
    apply be_8_lt; [by apply order_float_u64..|]. by apply order_float_lt.
Qed.

Lemma value_lt_single v w a : typed v a → typed w a → value_lt v w →
  blt (encode_single v a) (encode_single w a) = true.
Proof.
  intros Hv Hw Hlt. pose proof (value_lt_component v w a [] [] Hv Hw Hlt) as Hc.
  rewrite !app_nil_r in Hc. destruct a; try done; destruct v, w; simpl in *; try done;
    by rewrite ?law_text, ?law_blob.
Qed.

Lemma value_total v w a : typed v a → typed w a → value_lt v w ∨ v = w ∨ value_lt w v.
Proof.
  intros Hv Hw. destruct a, v, w; simpl in Hv, Hw; try done.
  - simpl. destruct (Z.lt_trichotomy z z0) as [?|[->|?]]; auto.
  - destruct Hv as [Hv _], Hw as [Hw _].
    destruct (value_lt_float_total _ _ Hv Hw) as [?|[->|?]]; auto.
  - simpl. destruct (blt_total s s0) as [?|[->|?]]; auto.
  - simpl. destruct (blt_total b b0) as [?|[->|?]]; auto.
  - simpl. destruct (blt_total s s0) as [?|[->|?]]; auto.
Qed.

Lemma tuple_total vs ws affs : Forall2 typed vs affs → Forall2 typed ws affs →
  tuple_lt vs ws ∨ vs = ws ∨ tuple_lt ws vs.
Proof.
  intros Hv. revert ws. induction Hv as [|v a vs affs Hv _ IH]; intros ws Hw.
  { apply Forall2_nil_inv_r in Hw as ->. auto. }
  apply Forall2_cons_inv_r in Hw as (w & ws' & Hw & Hws & ->).
  destruct (value_total v w a Hv Hw) as [?|[->|?]]; simpl; [auto| |auto].
  destruct (IH ws' Hws) as [?|[->|?]]; auto.
Qed.

Lemma tuple_lt_encode vs ws affs x y : Forall2 typed vs affs → Forall2 typed ws affs →
  tuple_lt vs ws → blt (encode_tuple vs affs ++ x) (encode_tuple ws affs ++ y) = true.
Proof.
  intros Hv. revert ws. induction Hv as [|v a vs affs Hv _ IH]; intros ws Hw Hlt; [done|].
  apply Forall2_cons_inv_r in Hw as (w & ws' & Hw & Hws & ->).
  simpl. rewrite <- !app_assoc. destruct Hlt as [Hlt|[-> Hlt]].
  - by apply value_lt_component.
  - rewrite blt_app_same. by apply IH.
Qed.

Lemma tuple_lt_encoded vs ws affs : Forall2 typed vs affs → Forall2 typed ws affs →
  tuple_lt vs ws → blt (encoded vs affs) (encoded ws affs) = true.
Proof.
  intros Hv Hw Hlt. pose proof (tuple_lt_encode vs ws affs [] [] Hv Hw Hlt) as Ht.
  rewrite !app_nil_r in Ht.
  destruct Hv as [|v a vs affs Hv Hr]; [done|].
  apply Forall2_cons_inv_r in Hw as (w & ws' & Hw & Hws & ->).
  destruct Hr.
  - apply Forall2_nil_inv_r in Hws as ->. simpl in *. destruct Hlt as [Hlt|[_ []]].
    by apply value_lt_single.
  - apply Forall2_cons_inv_r in Hws as (w' & ws'' & _ & _ & ->). done.
Qed.

Lemma tuple_encoded_order vs ws affs : Forall2 typed vs affs → Forall2 typed ws affs →
  blt (encoded vs affs) (encoded ws affs) = true ↔ tuple_lt vs ws.
Proof.
  intros Hv Hw. split; [|by apply tuple_lt_encoded].
  intros Hlt. destruct (tuple_total vs ws affs Hv Hw) as [?|[->|Hgt]]; [done| |].
  - by rewrite blt_irrefl in Hlt.
  - apply blt_asym in Hlt. by rewrite (tuple_lt_encoded ws vs affs) in Hlt.
Qed.

(** *** Column prefixes *)

Lemma encode_tuple_split k vs affs :
  encode_tuple vs affs =
  encode_tuple (take k vs) (take k affs) ++ encode_tuple (drop k vs) (drop k affs).
Proof.
  revert vs affs. induction k as [|k IH]; intros [|v vs] [|a affs]; try done.
  - by destruct (drop (S k) (v :: vs)).
  - change (take (S k) (v :: vs)) with (v :: take k vs).
    change (take (S k) (a :: affs)) with (a :: take k affs).
    change (drop (S k) (v :: vs)) with (drop k vs). change (drop (S k) (a :: affs)) with (drop k affs).
    simpl. by rewrite <- app_assoc, <- IH.
Qed.

Lemma encode_tuple_short ps affs :
  encode_tuple ps affs = encode_tuple ps (take (length ps) affs).
Proof.
  revert affs. induction ps as [|p ps IH]; intros [|a affs]; try done.
  change (take (length (p :: ps)) (a :: affs)) with (a :: take (length ps) affs).
  simpl. by rewrite <- IH.
Qed.

Lemma prefix_tuple_iff vs ps affs :
  Forall2 typed vs affs → Forall2 typed ps (take (length ps) affs) →
  has_prefix (encode_tuple vs affs) (encode_tuple ps affs) = true ↔ take (length ps) vs = ps.
Proof.
  intros Hv Hp. rewrite has_prefix_spec, (encode_tuple_short ps affs).
  rewrite (encode_tuple_split (length ps) vs affs). split.
  - intros [rest E]. apply (f_equal (λ b, decode_tuple b (take (length ps) affs))) in E.
    rewrite !decode_encode_tuple in E; [done..|]. by apply Forall2_take.
  - intros E. rewrite E. by eexists.
Qed.

(** *** Stored columns *)

(** A column value is read back from its effect; NULL is the absent effect. *)
Lemma decodeValue_setEncodedValue v a : typed v a ∨ v = VNull →
  decodeValue (setEncodedValue v) a = v.
Proof. intros [Hv| ->]; [|done]. by by_affinity v a. Qed.

(** *** Values of any class *)

(** What a column keeps of a value: the encodings read it through the accessor of
    the affinity, so an integer in a NUMERIC column counts as its text, and a text
    in an INTEGER column as the integer SQLite makes of it. *)
Definition convert (v : SqlValue) (a : Affinity) : SqlValue :=
  match a with
  | affinityInteger => VInteger (Int64 v)
  | affinityReal => VFloat (Float v)
  | affinityText | affinityNumeric => VText (Text v)
  | affinityBlob => VBlob (Blob v)
  end.
Definition converted (vs : list SqlValue) (affs : list Affinity) : list SqlValue := zip_with convert vs affs.
(** The accessor gives an int64, a double other than NaN, or bytes. *)
Definition fits (v : SqlValue) (a : Affinity) : Prop := typed (convert v a) a.

Lemma convert_typed v a : typed v a → convert v a = v.
Proof. intros Hv. by by_affinity v a. Qed.
Lemma converted_typed vs affs : Forall2 typed vs affs → converted vs affs = vs.
Proof. intros Hv. induction Hv as [|v a vs affs Hv _ IH]; [done|]. unfold converted in *. cbn [zip_with]. by rewrite convert_typed, IH. Qed.
Lemma typed_fits vs affs : Forall2 typed vs affs → Forall2 fits vs affs.
Proof. intros Hv. induction Hv as [|v a vs affs Hv _ IH]; constructor; [|done]. unfold fits. by rewrite convert_typed. Qed.
Lemma fits_converted vs affs : Forall2 fits vs affs → Forall2 typed (converted vs affs) affs.
Proof. intros Hv. by induction Hv; constructor. Qed.

Lemma component_convert v a : encodeTupleComponent (convert v a) a = encodeTupleComponent v a.
Proof. destruct a; cbn; by rewrite ?law_int, ?law_float, ?law_text, ?law_blob. Qed.
Lemma single_convert v a : encode_single (convert v a) a = encode_single v a.
Proof. destruct a; cbn; by rewrite ?law_int, ?law_float, ?law_text, ?law_blob. Qed.
Lemma tuple_convert vs affs : encode_tuple (converted vs affs) affs = encode_tuple vs affs.
Proof.
  unfold converted. revert affs. induction vs as [|v vs IH]; intros [|a affs]; try done.
  cbn [zip_with encode_tuple]. by rewrite component_convert, IH.
Qed.
Lemma encoded_convert vs affs : Forall2 fits vs affs → encoded (converted vs affs) affs = encoded vs affs.
Proof.
  intros Hv. pose proof (tuple_convert vs affs) as Ht. destruct Hv as [|v a vs affs Hv Hr]; [done|]. destruct Hr; [|done].
  unfold converted. cbn [zip_with encoded]. apply single_convert.
Qed.

Lemma decodePK_converted vs affs : Forall2 fits vs affs → decodePK (encoded vs affs) affs = converted vs affs.
Proof. intros Hv. rewrite <- encoded_convert by done. by apply decodePK_encoded, fits_converted. Qed.

(** ** The properties *)

(** C19: the bytes of a primary key, of any number of columns and with values of any
    class in them, are decoded to the values [converted] to the affinities of their
    columns (Int64, Float, Text or Blob of the value), and two tuples share their
    bytes exactly when they are converted to the same one.  Tuples in which every
    column holds a value of its own class are therefore decoded to themselves and
    have bytes of their own.  Others are not: integers in a NUMERIC key come back as
    text, and two texts SQLite reads as the same integer share an INTEGER key
    ([numeric_key_is_text], [integer_key_shared]). *)
Theorem pk_roundtrip vs affs : Forall2 fits vs affs →
  ∃ pk, encodePK vs affs = Some pk ∧ decodePK pk affs = converted vs affs ∧
    (∀ ws, Forall2 fits ws affs → encodePK ws affs = Some pk ↔ converted ws affs = converted vs affs) ∧
    (Forall2 typed vs affs → decodePK pk affs = vs ∧ ∀ ws, Forall2 typed ws affs → encodePK ws affs = Some pk → ws = vs).
Proof.
  intros Hv. exists (encoded vs affs).
  assert (Hs : ∀ ws, Forall2 fits ws affs → encodePK ws affs = Some (encoded vs affs) ↔ converted ws affs = converted vs affs).
  { intros ws Hw. rewrite (encodePK_encoded (R:=fits)) by done. split.
    - intros [= E]. by rewrite <- !decodePK_converted, E.
    - intros E. by rewrite <- (encoded_convert ws), <- (encoded_convert vs), E. }
  split_and!; [by apply (encodePK_encoded (R:=fits))|by apply decodePK_converted|exact Hs|]. intros Ht. split; [by rewrite decodePK_converted, converted_typed|].
  intros ws Hw E. apply Hs in E; [|by apply typed_fits]. by rewrite !converted_typed in E.
Qed.

(** C10: the encodings of primary keys and of index entries sort bytewise as
    their tuples, [converted] to the affinities of their columns, sort column by
    column: integers and reals numerically across the sign, text and blobs bytewise,
    a string before its extensions, and no column influenced by the next.  The
    conversion changes nothing in a column that holds values of its own class.  In a
    NUMERIC column it makes numbers text, so that 10 sorts before 9 there
    ([numeric_sorts_as_text]). *)
Theorem key_order vs ws affs : Forall2 fits vs affs → Forall2 fits ws affs →
  ∃ p q, encodePK vs affs = Some p ∧ encodePK ws affs = Some q ∧
    encodeIndexKeyTuple vs affs = Some p ∧ encodeIndexKeyTuple ws affs = Some q ∧
    (blt p q = true ↔ tuple_lt (converted vs affs) (converted ws affs)) ∧
    (Forall2 typed vs affs → Forall2 typed ws affs → blt p q = true ↔ tuple_lt vs ws).
Proof.
  intros Hv Hw. exists (encoded vs affs), (encoded ws affs).
  assert (Ho : blt (encoded vs affs) (encoded ws affs) = true ↔ tuple_lt (converted vs affs) (converted ws affs)).
  { rewrite <- (encoded_convert vs), <- (encoded_convert ws) by done. apply fits_converted in Hv, Hw. by apply tuple_encoded_order. }
  rewrite !(encodePK_encoded (R:=fits)), !(encodeIndexKeyTuple_encoded (R:=fits)) by done. split_and!; [done..|]. intros Hv' Hw'. by rewrite !converted_typed in Ho.
Qed.

(** In a composite index, the entries whose key starts with the prefix
    encoded for the values of the first columns are exactly the entries of the
    tuples that have these values there. *)
Theorem index_prefix_exact indexID vs ps affs :
  Forall2 typed vs affs → Forall2 typed ps (take (length ps) affs) →
  (2 ≤ length affs)%nat → (1 ≤ length ps)%nat →
  ∃ p key, encodeIndexKeyPrefix ps affs (len ps) = Some p ∧
    encodeIndexKeyTuple vs affs = Some key ∧
    (has_prefix (indexKey indexID key) (indexKeyPrefix indexID ++ p) = true ↔
     take (length ps) vs = ps).
Proof.
  intros Hv Hp Ha Hk.
  assert (Hl : (length ps ≤ length affs)%nat).
  { apply Forall2_length in Hp. rewrite length_take in Hp. lia. }
  exists (encode_tuple ps affs), (encode_tuple vs affs). split_and!.
  - unfold encodeIndexKeyPrefix, len.
    rewrite (proj2 (Z.leb_gt (Z.of_nat (length ps)) 0)) by lia. rewrite Z.ltb_irrefl, Nat2Z.id, firstn_all.
    rewrite (proj2 (Z.ltb_ge (Z.of_nat (length affs)) _)) by lia.
    destruct ps, affs as [|a [|a' affs]]; simpl in *; first [done|lia].
  - rewrite (encodeIndexKeyTuple_encoded (R:=typed)) by done.
    destruct Hv as [|v a vs affs _ Hr]; [done|]. by destruct Hr; [simpl in Ha; lia|].
  - rewrite <- prefix_tuple_iff by done. rewrite !has_prefix_spec. unfold indexKey, indexKeyPrefix.
    split; intros [rest E]; exists rest.
    + rewrite <- app_assoc in E. by apply app_inv_head in E.
    + by rewrite E, !app_assoc.
Qed.
End Tuples.

(** ** Key spaces *)

Lemma encodeIDHeader_inj p id id' x y : len id < 2 ^ 32 → len id' < 2 ^ 32 →
  encodeIDHeader p id ++ x = encodeIDHeader p id' ++ y → id = id' ∧ x = y.
Proof.
  intros Hi Hi' E. unfold encodeIDHeader in E.
  rewrite <- !app_assoc in E. apply app_inv_head in E.
  apply app_inj_1 in E as [E1 E2]; [|by rewrite !length_be_put].
  apply (f_equal be_get) in E1. pose proof (len_nonneg id). pose proof (len_nonneg id').
  rewrite !Z.mod_small, !be_get_put in E1
    by (change (256 ^ Z.of_nat 4) with (2 ^ 32); lia).
  apply app_inj_1 in E2; [done|]. unfold len in E1. lia.
Qed.

Lemma parseRowKey_Some key tableID pk :
  parseRowKey key tableID = Some pk ↔ key = rowKey tableID pk.
Proof.
  unfold parseRowKey, rowKey, rowKeyPrefix. set (h := encodeIDHeader prefixRow tableID). split.
  - destruct (len key <? len h) eqn:El; [done|].
    destruct (beq (take (length h) key) h) eqn:Eh; simpl; [|done].
    intros E. injection E as <-. apply beq_true in Eh.
    rewrite <- (take_drop (length h) key) at 1. by rewrite Eh.
  - intros ->. rewrite len_app, (proj2 (Z.ltb_ge _ _)) by (pose proof (len_nonneg pk); lia).
    by rewrite take_app_length, beq_refl, drop_app_length.
Qed.

(** A row key gives back the primary key it was built from and only for its
    own table, every key a table accepts is one of its row keys, and index
    entries and the schema, index and view metadata are never read as rows. *)
Theorem row_keys_separate tableID (Ht : len tableID < 2 ^ 32) :
  (∀ key pk, parseRowKey key tableID = Some pk ↔ key = rowKey tableID pk) ∧
  (∀ other pk pk', len other < 2 ^ 32 →
     parseRowKey (rowKey other pk) tableID = Some pk' ↔ other = tableID ∧ pk' = pk) ∧
  (∀ indexID e, parseRowKey (indexKey indexID e) tableID = None) ∧
  (∀ name, parseRowKey (schemaKey name) tableID = None ∧
           parseRowKey (indexMetaKey name) tableID = None ∧
           parseRowKey (viewMetaKey name) tableID = None).
Proof.
  split_and!.
  - intros key pk. apply parseRowKey_Some.
  - intros other pk pk' Ho. rewrite parseRowKey_Some. split; [|by intros [-> ->]].
    intros E. apply encodeIDHeader_inj in E as [-> ->]; done.
  - intros indexID e. apply eq_None_not_Some. intros [pk E]. by apply parseRowKey_Some in E.
  - intros name. split_and!; apply eq_None_not_Some; intros [pk E]; by apply parseRowKey_Some in E.
Qed.

(** ** Examples *)

Module SqlExample.

(** SQLite's conversions, for the classes the columns hold; an integer has its
    decimal digits as its text, and a text without digits reads as 0. *)
#[local] Instance own_class : Sqlite := {|
  Int64 v := match v with VInteger z => z | _ => 0 end;
  Float v := match v with VFloat f => f | _ => 0 end;
  Text v := match v with VText s => s | VInteger z => FormatInt z | _ => [] end;
  Blob v := match v with VBlob b => b | _ => [] end
|}.
#[local] Instance own_class_laws : SqliteLaws.
Proof. by split. Qed.

(** -1.5 and 2.0, a negative integer, a string with a zero byte. *)
Definition affs3 : list Affinity := [affinityText; affinityInteger; affinityReal].
Definition row1 : list SqlValue := [VText [97; 0; 98]; VInteger (-7); VFloat 13832806255468478464].
Definition row2 : list SqlValue := [VText [97; 0; 98]; VInteger (-7); VFloat 4611686018427387904].

Lemma row1_typed : Forall2 typed row1 affs3.
Proof. repeat constructor; vm_compute; done. Qed.
Lemma row2_typed : Forall2 typed row2 affs3.
Proof. repeat constructor; vm_compute; done. Qed.

Lemma pk_roundtrip_witness : ∃ pk, encodePK row1 affs3 = Some pk ∧ decodePK pk affs3 = converted row1 affs3 ∧
  (∀ ws, Forall2 fits ws affs3 → encodePK ws affs3 = Some pk ↔ converted ws affs3 = converted row1 affs3) ∧
  (Forall2 typed row1 affs3 → decodePK pk affs3 = row1 ∧ ∀ ws, Forall2 typed ws affs3 → encodePK ws affs3 = Some pk → ws = row1).
Proof. apply (pk_roundtrip row1 affs3). apply typed_fits, row1_typed. Defined.

Lemma key_order_witness : ∃ p q, encodePK row1 affs3 = Some p ∧ encodePK row2 affs3 = Some q ∧
  encodeIndexKeyTuple row1 affs3 = Some p ∧ encodeIndexKeyTuple row2 affs3 = Some q ∧
  (blt p q = true ↔ tuple_lt (converted row1 affs3) (converted row2 affs3)) ∧
  (Forall2 typed row1 affs3 → Forall2 typed row2 affs3 → blt p q = true ↔ tuple_lt row1 row2).
Proof. apply (key_order row1 row2 affs3); apply typed_fits; [exact row1_typed|exact row2_typed]. Defined.

(** In a NUMERIC column the integer 10 is before the integer 9. *)
Theorem numeric_sorts_as_text : ∃ p q, encodeIndexKeyTuple [VInteger 10] [affinityNumeric] = Some p ∧
  encodeIndexKeyTuple [VInteger 9] [affinityNumeric] = Some q ∧ blt p q = true.
Proof. eexists _, _. split_and!; reflexivity. Qed.
(** An integer in a NUMERIC primary key is decoded as text. *)
Theorem numeric_key_is_text : ∃ pk, encodePK [VInteger 10] [affinityNumeric] = Some pk ∧ decodePK pk [affinityNumeric] = [VText (str "10")].
Proof. eexists. split; reflexivity. Qed.
(** Two rows whose INTEGER primary keys are different texts have one row key. *)
Theorem integer_key_shared : ∃ pk, encodePK [VText (str "a")] [affinityInteger] = Some pk ∧ encodePK [VText (str "b")] [affinityInteger] = Some pk.
Proof. eexists. split; reflexivity. Qed.

Lemma index_prefix_exact_witness : ∃ p key,
  encodeIndexKeyPrefix (take 2 row1) affs3 (len (take 2 row1)) = Some p ∧
  encodeIndexKeyTuple row2 affs3 = Some key ∧
  (has_prefix (indexKey [1; 2] key) (indexKeyPrefix [1; 2] ++ p) = true ↔
   take (length (take 2 row1)) row2 = take 2 row1).
Proof.
  apply (index_prefix_exact [1; 2] row2 (take 2 row1) affs3); [exact row2_typed| |simpl; lia..].
  repeat constructor; vm_compute; done.
Defined.

Lemma row_keys_separate_witness :
  parseRowKey (rowKey [1; 2] (str "k")) [1; 2] = Some (str "k").
Proof. destruct (row_keys_separate [1; 2]) as (Hk & _); [vm_compute; done|]. by apply Hk. Defined.

End SqlExample.
