(* ===== verification/StringTheorems.v ===== *)
(** * What the string commands do

    The text a key stands for, and each string command as an operation on it,
    against any engine that satisfies [EngineLaws] and any reading of the
    clock. *)

From Stdlib Require Import SpecFloat.
From S2P Require Import Prelude GoBytes Strconv Floats Commands Writer Engine Runs Bitmap Lcs Strings.

Local Open Scope Z_scope.

(** ** The string at a key *)

(** Nothing; a value of another type; a value that reads as text. *)
Inductive StrState : Type :=
  | Absent
  | Other
  | Text (v : option Value) (e : option Timestamp).

Section StringState.
Context `{EngineLaws} `{Xxh3} `{FormatFloat}.

Definition string_at (s : option ReducedEffect) : option StrState :=
  match classify_string s [] with
  | None => None
  | Some ks =>
    Some (if negb (ks_exists ks) then Absent
          else if ks_wrongType ks then Other
          else Text (ks_snap ks ≫= re_Scalar) (expiry_of (ks_snap ks)))
  end.

(** The bytes a stored value reads as. *)
Definition value_bytes (v : option Value) : bytes :=
  match v with
  | None => []
  | Some v =>
    match v with
    | Raw _ | Compressed _ => Decompress v
    | IntVal n => FormatInt n
    | FloatVal b => format_float (Float64frombits b)
    end
  end.

(** What a handler sees of such a key. *)
Definition shows (ks : KeySnap) (x : StrState) : Prop :=
  match x with
  | Absent => ks_exists ks = false ∧ ks_wrongType ks = false ∧ ks_snap ks = None
  | Other => ks_exists ks = true ∧ ks_wrongType ks = true ∧ ks_snap ks = None
  | Text v e => ks_exists ks = true ∧ ks_wrongType ks = false ∧
      ∃ r, ks_snap ks = Some r ∧ re_Scalar r = v ∧ re_ExpiresAt r = e
  end.

Lemma snapshotToRaw_scalar snap : snapshotToRaw snap = value_bytes (snap ≫= re_Scalar).
Proof. reflexivity. Qed.

(** The tips play no part. *)
Lemma classify_tips s tips ks : classify_string s [] = Some ks →
  classify_string s tips = Some (mkKeySnap (ks_snap ks) tips (ks_exists ks) (ks_wrongType ks)).
Proof.
  unfold classify_string. destruct s as [r|]; [|by intros [= <-]].
  case_bool_decide; [by intros [= <-]|]. destruct (is_plain_string r); [by intros [= <-]|].
  destruct (ReconstructBytes r) as [[d|]|]; cbn; [by intros [= <-]|done|by intros [= <-]].
Qed.

Lemma classify_cases s ks : classify_string s [] = Some ks →
  (ks_exists ks = false ∧ ks_wrongType ks = false ∧ ks_snap ks = None) ∨
  (ks_exists ks = true ∧ ks_wrongType ks = true ∧ ks_snap ks = None) ∨
  (ks_exists ks = true ∧ ks_wrongType ks = false ∧ ∃ r, ks_snap ks = Some r).
Proof.
  unfold classify_string. destruct s as [r|]; [|intros [= <-]; cbn; auto].
  case_bool_decide; [intros [= <-]; cbn; auto|]. destruct (is_plain_string r); [intros [= <-]; cbn; eauto 10|].
  destruct (ReconstructBytes r) as [[d|]|]; cbn; [intros [= <-]; cbn; eauto 10|done|intros [= <-]; cbn; auto].
Qed.

Lemma string_at_shows s x tips : string_at s = Some x →
  ∃ ks, classify_string s tips = Some ks ∧ shows ks x.
Proof.
  unfold string_at. destruct (classify_string s []) as [ks|] eqn:E; [|done]. intros [= <-].
  eexists. split; [by apply classify_tips|]. unfold shows.
  destruct (classify_cases s ks E) as [(He & Hw & Hs)|[(He & Hw & Hs)|(He & Hw & r & Hs)]];
    rewrite ?He, ?Hw, ?Hs; cbn; eauto 10.
Qed.

Lemma steps_string key st x : healthy (st_ctx st) → string_at (view (st_ctx st) key) = Some x →
  ∃ ks, steps (getStringSnapshot key) st ks (same (st_ctx st)) ∧ shows ks x.
Proof.
  intros Hh Hx. destruct (steps_get key st Hh) as [tips Hg].
  destruct (string_at_shows _ _ tips Hx) as (ks & Ek & Hs). exists ks. split; [|done].
  unfold getStringSnapshot. eapply steps_bind; [exact Hg|]. cbv beta iota. intros c' Hh' Hsame.
  rewrite Ek. by apply (steps_ret ks (mkSt c' _ _)).
Qed.

(** *** Which stored states read as text *)

Definition text_tag (t : ValueType) : Prop := t = TYPE_STRING ∨ t = TYPE_UNSPECIFIED.

Lemma string_at_plain tag v adds els e fe : text_tag tag →
  string_at (Some (mkReducedAt INSERT_OP SCALAR tag v adds els e fe)) = Some (Text v e).
Proof. by intros [-> | ->]. Qed.

Lemma string_at_bitmap b e : string_at (Some (mkReducedAt INSERT_OP SCALAR TYPE_BITMAP (Some (Raw b)) ∅ [] e ∅)) =
  Some (Text (Some (Raw b)) e).
Proof. unfold string_at. cbn. by rewrite law_raw. Qed.

Lemma string_at_raw tag b e : text_tag tag ∨ tag = TYPE_BITMAP →
  string_at (Some (mkReducedAt INSERT_OP SCALAR tag (Some (Raw b)) ∅ [] e ∅)) = Some (Text (Some (Raw b)) e).
Proof. intros [Ht| ->]; [by apply string_at_plain|apply string_at_bitmap]. Qed.

(** A key that reads as text has one of these tags. *)
Lemma text_tags r v e : string_at (Some r) = Some (Text v e) →
  re_Op r ≠ REMOVE_OP ∧ (text_tag (re_TypeTag r) ∨ re_TypeTag r = TYPE_BITMAP).
Proof.
  unfold string_at, classify_string. case_bool_decide as Ho; [done|]. intros Hx. split; [done|].
  unfold is_plain_string in Hx. unfold ReconstructBytes in Hx.
  destruct (re_TypeTag r) eqn:Et; cbn in Hx; auto; try (by left; left); try (by left; right);
    by rewrite andb_false_r in Hx.
Qed.

(** The tag of a scalar written over a text is a text's. *)
Lemma former_text s v e tag : string_at s = Some (Text v e) → former_tag s tag →
  text_tag tag ∨ tag = TYPE_BITMAP.
Proof.
  intros Hx [-> | Ht]; [by left; right|]. destruct s as [r|]; [|done]. cbn in Ht.
  injection Ht as <-. by eapply text_tags.
Qed.

(** *** Writing *)

Lemma steps_set key b tips st : healthy (st_ctx st) →
  steps (emitStringSet key b tips) st tt (λ c', others (st_ctx st) key c' ∧
    ∃ tag, view c' key = Some (mkReduced INSERT_OP SCALAR tag (Some (Raw b)) ∅ []) ∧
           former_tag (view (st_ctx st) key) tag).
Proof.
  intros Hh. eapply steps_weaken; [by apply steps_emit|]. cbv beta. intros c' [Hv Ho]. split; [done|].
  destruct (law_overwrite key (Raw b) tips _ Hh) as (tag & Ht & Hf). exists tag. by rewrite Hv.
Qed.

Lemma steps_ttl key e st r : healthy (st_ctx st) → view (st_ctx st) key = Some r →
  steps (emitStringTTL key e) st tt (λ c', view c' key = Some (set_expiry e r) ∧ others (st_ctx st) key c').
Proof. intros Hh Hr. apply steps_reduce; [done|]. by rewrite Hr. Qed.

Lemma steps_string_tag key st r : healthy (st_ctx st) → view (st_ctx st) key = Some r →
  steps (emitStringTypeTag key) st tt
    (λ c', view c' key = Some (set_tag TYPE_STRING r) ∧ others (st_ctx st) key c').
Proof. intros Hh Hr. apply steps_reduce; [done|]. by rewrite Hr. Qed.

Lemma steps_begin_string key tips st : healthy (st_ctx st) →
  steps (begin_string key tips) st tt (same (st_ctx st)).
Proof.
  intros Hh. unfold begin_string. eapply steps_bind; [by apply steps_begin|]. cbv beta. intros c' Hh' Hs.
  eapply steps_weaken; [by apply (steps_noop key tips (mkSt c' _ _))|]. cbn [st_ctx]. intros c'' Hs'.
  by eapply same_trans.
Qed.

Lemma steps_delete_string key tips st : healthy (st_ctx st) →
  steps (emitDeleteKey key tips) st tt (λ c', is_live (view c' key) = false ∧ others (st_ctx st) key c').
Proof.
  intros Hh. eapply steps_weaken; [by apply steps_emit|]. cbv beta. intros c' [Hv Ho]. split; [|done].
  rewrite Hv. by apply law_delete.
Qed.
End StringState.

(** * The string commands against their specification *)


Section StringLaws.
Context `{EngineLaws} `{Xxh3} `{ParseFloat} `{FormatFloat} `{WallClock}.

(** ** Reading *)

Lemma read_string_spec key missing found st x w : healthy (st_ctx st) →
  string_at (view (st_ctx st) key) = Some x →
  (x = Absent → w = missing (st_w st)) →
  (x = Other → w = WriteWrongType (st_w st)) →
  (∀ v e, x = Text v e → ∃ f, found (value_bytes v) = write f ∧ f (st_w st) = w) →
  finishes (read_string key missing found) st w (same (st_ctx st)).
Proof.
  intros Hh Hx Ha Ho Ht. unfold read_string.
  destruct (steps_string key st x Hh Hx) as (ks & Hg & Hs).
  eapply finishes_bind; [exact Hg|]. cbv beta. intros c' Hh' Hsame. destruct x as [| |v e]; cbn in Hs.
  - destruct Hs as (-> & _). cbn. apply finishes_reply; [done|by rewrite Ha|done].
  - destruct Hs as (-> & -> & _). cbn. apply finishes_reply; [done|by rewrite Ho|done].
  - destruct Hs as (-> & -> & r & -> & Hv & _). cbn [negb]. rewrite snapshotToRaw_scalar. cbn [mbind option_bind].
    rewrite Hv. destruct (Ht v e eq_refl) as (f & -> & Hf). by apply finishes_write.
Qed.

(** GET, STRLEN, GETRANGE and DIGEST change nothing and answer from the bytes
    the key's value reads as; a missing key has no bytes (null for GET and
    DIGEST), and a key of another type is refused. *)
Theorem string_reads_correct (key s e : bytes) (start stop : Z) (st : St) (x : StrState) :
  healthy (st_ctx st) → string_at (view (st_ctx st) key) = Some x →
  ParseInt64 s = Some start → ParseInt64 e = Some stop →
  ∃ get strlen getr digest,
    handleGet [key] = Accept [key] get ∧ handleStrLen [key] = Accept [key] strlen ∧
    handleGetRange [key; s; e] = Accept [key] getr ∧ handleDigest [key] = Accept [key] digest ∧
    let answers runner (missing : Writer → Writer) (found : bytes → Writer → Writer) :=
      finishes runner st
        (match x with
         | Absent => missing
         | Other => WriteWrongType
         | Text v _ => found (value_bytes v)
         end (st_w st)) (same (st_ctx st)) in
    answers get WriteNullBulkString WriteBulkString ∧
    answers strlen WriteZero (λ b, WriteInteger (len b)) ∧
    answers getr (WriteBulkString []) (λ b, WriteBulkString (getrange start stop b)) ∧
    answers digest WriteNullBulkString (λ b, WriteBulkString (hash_hex (xxh3_Hash b))).
Proof.
  intros Hh Hx Hs He. cbn [handleGetRange]. rewrite Hs, He. do 4 eexists.
  do 4 (split; [reflexivity|]). cbv zeta.
  split_and!; (eapply read_string_spec; [done|done|by intros ->|by intros ->|]);
    intros v e' ->; eexists; (split; reflexivity).
Qed.

(** A bound of GETRANGE as a position: from the end when it is negative, and
    not before the start. *)
Definition range_index (n i : Z) : Z := Z.max 0 (if i <? 0 then n + i else i).

(** GETRANGE answers the bytes from its first position to its last, both
    included, cut to the string; two negative bounds in the wrong order give
    nothing. *)
Theorem getrange_correct (start stop : Z) (data : bytes) (i : nat) : is_i64 start → is_i64 stop →
  len data <= MaxInt64 →
  getrange start stop data !! i =
  if ((start <? 0) && (stop <? 0) && (stop <? start)) || (range_index (len data) stop <? range_index (len data) start + Z.of_nat i)
  then None else data !! (Z.to_nat (range_index (len data) start + Z.of_nat i)).
Proof.
  unfold is_i64. intros Hs He Hn. pose proof (len_nonneg data) as Hl. unfold getrange.
  destruct ((start <? 0) && (stop <? 0) && (stop <? start)); [done|]. cbn [orb].
  assert (Hi : ∀ j, MinInt64 <= j <= MaxInt64 → (if (if j <? 0 then i64 (len data + j) else j) <? 0 then 0
      else (if j <? 0 then i64 (len data + j) else j)) = range_index (len data) j).
  { intros j Hj. unfold range_index. destruct (Z.ltb_spec j 0) as [Hj0|Hj0].
    - rewrite i64_id by (widths; lia). case_match eqn:E; [apply Z.ltb_lt in E|apply Z.ltb_ge in E]; lia.
    - case_match eqn:E; [apply Z.ltb_lt in E|]; lia. }
  rewrite !Hi by done. set (lo := range_index _ start). set (hi := range_index _ stop).
  assert (0 <= lo ∧ 0 <= hi) as [Hlo Hhi] by (unfold lo, hi, range_index; lia). unfold len in *.
  destruct (Z.leb_spec (Z.of_nat (length data)) hi) as [Hcut|Hcut].
  - destruct (Z.ltb_spec (Z.of_nat (length data) - 1) lo), (Z.leb_spec (Z.of_nat (length data)) lo); cbn [orb]; try lia.
    + symmetry. case_match; [done|]. apply lookup_ge_None_2. lia.
    + destruct (Z.ltb_spec hi (lo + Z.of_nat i)) as [Hb|Hb].
      * apply lookup_ge_None_2. rewrite length_take, length_drop. lia.
      * destruct (decide (i < Z.to_nat (Z.of_nat (length data) - 1 + 1 - lo))%nat) as [Hlt|Hge].
        -- rewrite lookup_take_lt, lookup_drop by done. f_equal. lia.
        -- rewrite lookup_take_ge by lia. symmetry. apply lookup_ge_None_2. lia.
  - destruct (Z.ltb_spec hi lo) as [Hx|Hx]; cbn [orb].
    + by rewrite (proj2 (Z.ltb_lt hi (lo + Z.of_nat i))) by lia.
    + rewrite (proj2 (Z.leb_gt (Z.of_nat (length data)) lo)) by lia. destruct (Z.ltb_spec hi (lo + Z.of_nat i)) as [Hb|Hb].
      * apply lookup_take_ge. lia.
      * rewrite lookup_take_lt, lookup_drop by lia. f_equal. lia.
Qed.

(** ** SET *)

Definition is_absent (x : StrState) : bool := match x with Absent => true | _ => false end.
Definition is_other (x : StrState) : bool := match x with Other => true | _ => false end.
Definition text_is (b : bytes) (x : StrState) : bool :=
  match x with Text v _ => beq (value_bytes v) b | _ => false end.
Definition digest_is (d : bytes) (x : StrState) : bool :=
  match x with Text v _ => digestEquals (xxh3_Hash (value_bytes v)) d | _ => false end.

(** When SET writes: every condition that is asked for holds, a comparison
    never of a value of another type, and GET has a string or nothing to
    answer. *)
Definition set_allowed (o : SetOpts) (x : StrState) : bool :=
  implb (so_nx o) (is_absent x) && implb (so_xx o) (negb (is_absent x)) &&
  implb (so_ifeq o) (text_is (so_compare o) x) &&
  implb (so_ifne o) (negb (is_other x) && negb (text_is (so_compare o) x)) &&
  implb (so_ifdeq o) (isValidHexDigest (so_compare o) && digest_is (so_compare o) x) &&
  implb (so_ifdne o)
    (is_absent x ||
     (negb (is_other x) && isValidHexDigest (so_compare o) && negb (digest_is (so_compare o) x))) &&
  implb (so_get o) (negb (is_other x)).

Definition old_reply (x : StrState) : Writer → Writer :=
  match x with Text v _ => WriteBulkString (value_bytes v) | _ => WriteNullBulkString end.

Definition set_reply (o : SetOpts) (x : StrState) : Writer → Writer :=
  if so_get o then old_reply x else WriteOK.

(** Why it does not. *)
Definition set_refusal (o : SetOpts) (x : StrState) (w : Writer) : Writer :=
  if is_other x && (so_get o || so_ifeq o || so_ifne o || so_ifdeq o || so_ifdne o) then WriteWrongType w
  else
    let w := if (so_ifdeq o || so_ifdne o) && negb (is_absent x) && negb (isValidHexDigest (so_compare o))
             then WriteError bad_digest w
             else if so_get o then w else WriteNullBulkString w in
    if so_get o then old_reply x w else w.

(** The expiry afterwards: the old one with KEEPTTL, else the one asked for. *)
Definition set_expires (o : SetOpts) (x : StrState) : option Timestamp :=
  match x with
  | Text _ e => if so_keepTTL o then e
                else computeExpiresAtMs (so_seconds o) (so_millis o) (so_at o) (so_atMillis o)
  | _ => computeExpiresAtMs (so_seconds o) (so_millis o) (so_at o) (so_atMillis o)
  end.

(** The key is a text with these bytes, the others are unchanged. *)
Definition now_text (c : Ctx) (key b : bytes) (e : option Timestamp) (c' : Ctx) : Prop :=
  string_at (view c' key) = Some (Text (Some (Raw b)) e) ∧ others c key c'.

(** The write, its expiry and its tag. *)
Lemma steps_write_text key b tips x e (tagged : bool) st : healthy (st_ctx st) →
  string_at (view (st_ctx st) key) = Some x → (tagged = false → ∃ v e0, x = Text v e0) →
  steps (_ ← emitStringSet key b tips;
         _ ← (if bool_decide (e ≠ None) then emitStringTTL key e else mret tt);
         if tagged then emitStringTypeTag key else mret tt) st tt (now_text (st_ctx st) key b e).
Proof.
  intros Hh Hx Ht. eapply steps_bind; [by apply steps_set|]. cbv beta.
  intros c1 Hh1 [Ho1 (tag & Hv1 & Hf)].
  eapply (steps_bind _ _ _ _ (λ c2, others (st_ctx st) key c2 ∧
    view c2 key = Some (mkReducedAt INSERT_OP SCALAR tag (Some (Raw b)) ∅ [] e ∅))).
  { case_bool_decide as He.
    - eapply steps_weaken; [by apply (steps_ttl key e (mkSt c1 _ _))|]. cbn [st_ctx].
      intros c2 [Hv2 Ho2]. split; [by eapply others_trans|done].
    - apply (steps_ret tt (mkSt c1 _ _)); [done|]. split; [done|]. destruct e; [|done]. by destruct He. }
  cbv beta. intros c2 Hh2 [Ho2 Hv2]. destruct tagged.
  - eapply steps_weaken; [by apply (steps_string_tag key (mkSt c2 _ _) _ Hh2 Hv2)|]. cbn [st_ctx].
    intros c3 [Hv3 Ho3]. split; [|by eapply others_trans]. rewrite Hv3. apply string_at_plain. by left.
  - destruct (Ht eq_refl) as (v & e0 & ->). apply (steps_ret tt (mkSt c2 _ _)); [done|]. split; [|done].
    cbn [st_ctx]. rewrite Hv2. apply string_at_raw. by eapply former_text.
Qed.

(** Reassociating the steps of a runner. *)
Lemma finishes_steps_assoc {A B} (m : M A) (f : A → M B) (g : B → M unit) st w P :
  finishes ((m ≫= f) ≫= g) st w P → finishes (m ≫= λ a, f a ≫= g) st w P.
Proof.
  unfold finishes, mbind, M_bind. destruct (m st) as [[a| | |] st']; auto.
Qed.

Lemma same_string c c' key x : same c c' → string_at (view c key) = x → string_at (view c' key) = x.
Proof. intros Hs <-. by rewrite Hs. Qed.

Lemma now_text_same c c0 key b e c' : same c0 c → now_text c key b e c' → now_text c0 key b e c'.
Proof. intros Hs [Hx Ho]. split; [done|]. intros k Hk. by rewrite Ho, Hs. Qed.

(** The last part of SET. *)
Definition set_write (key value : bytes) (o : SetOpts) (s : KeySnap) : M unit :=
  _ ← emitStringSet key value (ks_tips s);
  let expiresAt :=
    if so_keepTTL o && ks_exists s && bool_decide (ks_snap s ≠ None) then expiry_of (ks_snap s)
    else computeExpiresAtMs (so_seconds o) (so_millis o) (so_at o) (so_atMillis o) in
  _ ← (if bool_decide (expiresAt ≠ None) then emitStringTTL key expiresAt else mret tt);
  _ ← (if negb (ks_exists s) || ks_wrongType s then emitStringTypeTag key else mret tt);
  if so_get o then mret tt else write WriteOK.

Lemma set_write_spec key value o ks x st : healthy (st_ctx st) →
  string_at (view (st_ctx st) key) = Some x → shows ks x →
  finishes (set_write key value o ks) st (if so_get o then st_w st else WriteOK (st_w st))
    (now_text (st_ctx st) key value (set_expires o x)).
Proof.
  intros Hh Hx Hs. unfold set_write.
  assert (He : (if so_keepTTL o && ks_exists ks && bool_decide (ks_snap ks ≠ None) then expiry_of (ks_snap ks)
    else computeExpiresAtMs (so_seconds o) (so_millis o) (so_at o) (so_atMillis o)) = set_expires o x).
  { destruct x; cbn in Hs.
    - destruct Hs as (-> & _). by rewrite andb_false_r.
    - destruct Hs as (_ & _ & ->). by rewrite andb_false_r.
    - destruct Hs as (-> & _ & r & -> & _ & <-). cbn. by destruct (so_keepTTL o). }
  rewrite He. set (tagged := negb (ks_exists ks) || ks_wrongType ks).
  assert (Ht : tagged = false → ∃ v e0, x = Text v e0).
  { unfold tagged. destruct x; cbn in Hs; [by destruct Hs as (-> & _)|by destruct Hs as (-> & -> & _)|by eauto]. }
  pose proof (steps_write_text key value (ks_tips ks) x (set_expires o x) tagged st Hh Hx Ht) as Hw.
  destruct Hw as (c' & E & Hh' & Hn). unfold finishes, mbind, M_bind in *. cbv beta zeta in *.
  destruct (emitStringSet key value (ks_tips ks) st) as [[[]| | |] s1]; try done.
  destruct ((if bool_decide (set_expires o x ≠ None) then emitStringTTL key (set_expires o x) else mret tt) s1)
    as [[[]| | |] s2]; try done.
  destruct ((if tagged then emitStringTypeTag key else mret tt) s2) as [[[]| | |] s3]; try done.
  injection E as ->. destruct (so_get o); eexists _, c'; (split; [reflexivity|auto]).
Qed.

Lemma deferred_finishes f m st w P : finishes m st w P → finishes (deferred f m) st (f w) P.
Proof. intros (o & c' & E & Ho & Hh & HP). unfold deferred. exists o, c'. rewrite E. auto. Qed.

(** The refusals of the conditions. *)
Definition unmet_reply (o : SetOpts) (x : StrState) (w : Writer) : Writer :=
  if is_other x && (so_ifeq o || so_ifne o || so_ifdeq o || so_ifdne o) then WriteWrongType w
  else if (so_ifdeq o || so_ifdne o) && negb (is_absent x) && negb (isValidHexDigest (so_compare o))
  then WriteError bad_digest w
  else if so_get o then w else WriteNullBulkString w.

(** The six conditions as one verdict: [None] lets the write happen. *)
Definition set_verdict (o : SetOpts) (ks : KeySnap) : M unit :=
  if so_nx o && ks_exists ks then set_unmet o
  else if so_xx o && negb (ks_exists ks) then set_unmet o
  else
    _ ← check_equal o ks;
    _ ← check_not_equal o ks;
    _ ← check_digest_equal o ks;
    check_digest_not_equal o ks.

Lemma unmet_run (o : SetOpts) st :
  set_unmet o st = (@Return unit, mkSt (st_ctx st) (if so_get o then st_w st else WriteNullBulkString (st_w st)) (st_held st)).
Proof. unfold set_unmet. destruct st. by destruct (so_get o). Qed.

Lemma set_body_split key value o ks st w P :
  finishes (set_verdict o ks ≫= λ _, set_write key value o ks) st w P →
  finishes (set_body key value o ks) st w P.
Proof.
  unfold set_body, set_verdict, finishes, mbind, M_bind.
  destruct (so_nx o && ks_exists ks); [by rewrite !unmet_run|].
  destruct (so_xx o && negb (ks_exists ks)); [by rewrite !unmet_run|].
  destruct (check_equal o ks st) as [[[]| | |] s1]; try done.
  destruct (check_not_equal o ks s1) as [[[]| | |] s2]; try done.
  destruct (check_digest_equal o ks s2) as [[[]| | |] s3]; try done.
Qed.

(** Only one condition is asked for. *)
Lemma verdict_spec o ks x st : condCount o <= 1 → shows ks x → (so_get o = true → x ≠ Other) →
  set_verdict o ks st =
  if set_allowed o x then (Next tt, st)
  else (Return, mkSt (st_ctx st) (unmet_reply o x (st_w st)) (st_held st)).
Proof.
  intros Hc Hs Hg. unfold set_verdict, check_equal, check_not_equal, check_digest_equal, check_digest_not_equal,
    set_allowed, unmet_reply, condCount in *.
  destruct x as [| |v e]; cbn [shows] in Hs.
  - destruct Hs as (-> & _). cbn [negb andb orb is_absent is_other text_is digest_is].
    rewrite ?andb_false_r. destruct (so_nx o), (so_xx o), (so_ifeq o), (so_ifne o), (so_ifdeq o), (so_ifdne o);
      cbn in Hc; try lia; cbn [implb andb orb negb]; rewrite ?andb_false_r, ?implb_true_r; try apply unmet_run;
      unfold mbind, M_bind, mret, M_ret; cbv beta iota; by rewrite ?unmet_run.
  - destruct Hs as (-> & -> & _). cbn [negb andb orb is_absent is_other text_is digest_is].
    destruct (so_get o) eqn:Eg; [by destruct Hg|].
    destruct (so_nx o), (so_xx o), (so_ifeq o), (so_ifne o), (so_ifdeq o), (so_ifdne o);
      cbn in Hc; try lia; cbn [implb andb orb negb]; rewrite ?andb_false_r; destruct st; try done;
      rewrite unmet_run, Eg; done.
  - destruct Hs as (-> & -> & r & -> & <- & _).
    change (snapshotToRaw (Some r)) with (value_bytes (re_Scalar r)).
    cbn [negb andb orb is_absent is_other text_is digest_is].
    rewrite !implb_true_r. destruct (so_nx o), (so_xx o), (so_ifeq o), (so_ifne o), (so_ifdeq o), (so_ifdne o);
      cbn in Hc; try lia; cbn [implb andb orb negb]; try apply unmet_run;
      unfold mbind, M_bind, mret, M_ret; try done;
      destruct (beq (value_bytes (re_Scalar r)) (so_compare o)); cbn [negb andb];
      try destruct (isValidHexDigest (so_compare o)); cbn [negb andb];
      try destruct (digestEquals _ (so_compare o)); cbn [negb andb]; cbv beta iota;
      rewrite ?unmet_run; by destruct st.
Qed.

Lemma set_body_spec key value o ks x st : healthy (st_ctx st) →
  string_at (view (st_ctx st) key) = Some x → shows ks x → condCount o <= 1 →
  (so_get o = true → x ≠ Other) →
  if set_allowed o x
  then finishes (set_body key value o ks) st (if so_get o then st_w st else WriteOK (st_w st))
         (now_text (st_ctx st) key value (set_expires o x))
  else finishes (set_body key value o ks) st (unmet_reply o x (st_w st)) (same (st_ctx st)).
Proof.
  intros Hh Hx Hs Hc Hg. pose proof (verdict_spec o ks x st Hc Hs Hg) as Hv.
  destruct (set_allowed o x); apply set_body_split; unfold finishes, mbind, M_bind; rewrite Hv.
  - by apply set_write_spec.
  - exists Return, (st_ctx st). by split_and!; [|right| |].
Qed.

(** C5: SET with any options: it writes exactly when the conditions hold, answers
    OK or the old value, sets the expiry asked for (or keeps the old one) and
    makes the key a string whatever it was; otherwise nothing changes and the
    reply says why.  Other keys are never touched. *)
Theorem set_correct (key value : bytes) (opts : list bytes) (o : SetOpts) (st : St) (x : StrState) :
  healthy (st_ctx st) → string_at (view (st_ctx st) key) = Some x →
  parse_set_opts opts no_opts = Ok o → condCount o <= 1 →
  ∃ runner, handleSet (key :: value :: opts) = Accept [key] runner ∧
    if set_allowed o x
    then finishes runner st (set_reply o x (st_w st)) (now_text (st_ctx st) key value (set_expires o x))
    else finishes runner st (set_refusal o x (st_w st)) (same (st_ctx st)).
Proof.
  intros Hh Hx Hp Hc. exists (set_runner key value o). split.
  { cbn [handleSet]. rewrite Hp. by rewrite (proj2 (Z.ltb_ge 1 (condCount o))). }
  unfold set_runner. destruct (steps_string key st x Hh Hx) as (ks & Hg & Hs).
  destruct Hg as (c1 & E & Hh1 & Hs1).
  assert (Hgo : (so_get o = true → x ≠ Other) →
    if set_allowed o x
    then finishes (set_body key value o ks) (mkSt c1 (st_w st) (st_held st)) (if so_get o then st_w st else WriteOK (st_w st))
           (now_text (st_ctx st) key value (set_expires o x))
    else finishes (set_body key value o ks) (mkSt c1 (st_w st) (st_held st)) (unmet_reply o x (st_w st)) (same (st_ctx st))).
  { intros Hg. pose proof (set_body_spec key value o ks x (mkSt c1 (st_w st) (st_held st)) Hh1) as Hb.
    cbn [st_ctx st_w] in Hb. specialize (Hb (same_string _ _ _ _ Hs1 Hx) Hs Hc Hg).
    destruct (set_allowed o x); (eapply finishes_weaken; [exact Hb|]); intros c2 H2'.
    - by eapply now_text_same.
    - by eapply same_trans. }
  assert (Hrun : ∀ m : KeySnap → M unit, ∀ w P, finishes (m ks) (mkSt c1 (st_w st) (st_held st)) w P →
    finishes (getStringSnapshot key ≫= m) st w P).
  { intros m w P Hm. unfold finishes, mbind, M_bind in *. by rewrite E. }
  unfold set_reply, set_refusal. destruct (so_get o) eqn:Eg.
  - destruct x as [| |v e]; cbn [shows] in Hs.
    + specialize (Hgo ltac:(done)). unfold unmet_reply in Hgo. rewrite Eg in Hgo.
      destruct Hs as (He & Hw & _). cbn [is_other andb old_reply] in *.
      destruct (set_allowed o Absent); apply Hrun; rewrite ?Eg, ?He, ?Hw; cbn [andb]; by apply deferred_finishes.
    + assert (set_allowed o Other = false) as ->.
      { unfold set_allowed. rewrite Eg. cbn [implb negb is_other]. by rewrite andb_false_r. }
      destruct Hs as (He & Hw & _). apply Hrun. rewrite He, Hw. cbn. by apply finishes_reply.
    + specialize (Hgo ltac:(done)). unfold unmet_reply in Hgo. rewrite Eg in Hgo.
      destruct Hs as (He & Hw & r & Hr & Hv & _). cbn [is_other andb old_reply] in *. subst v.
      destruct (set_allowed o _); apply Hrun; rewrite ?Eg, ?He, ?Hw, ?Hr; cbn [andb negb];
        change (snapshotToRaw (Some r)) with (value_bytes (re_Scalar r)); by apply deferred_finishes.
  - specialize (Hgo ltac:(done)). unfold unmet_reply in Hgo. rewrite Eg in Hgo.
    destruct (set_allowed o x); by apply Hrun.
Qed.

(** ** Writes that keep the expiry *)

Definition expiry_at (x : StrState) : option Timestamp := match x with Text _ e => e | _ => None end.

Lemma set_expiry_id r : set_expiry (re_ExpiresAt r) r = r.
Proof. by destruct r. Qed.

(** The expiry and the tag after a write to a key that was [x]. *)
Lemma steps_keep key ks x st r : healthy (st_ctx st) → shows ks x → x ≠ Other →
  view (st_ctx st) key = Some r → (re_ExpiresAt r = None ∨ re_ExpiresAt r = expiry_at x) →
  steps (keep_ttl_and_tag key ks) st tt (λ c', others (st_ctx st) key c' ∧
    view c' key = Some (if is_absent x then set_tag TYPE_STRING r else set_expiry (expiry_at x) r)).
Proof.
  intros Hh Hs Hx Hv He. unfold keep_ttl_and_tag. destruct x as [| |v e]; cbn [shows] in Hs; [|done|].
  - destruct Hs as (-> & _). cbn [andb negb is_absent]. eapply steps_weaken; [by apply steps_string_tag|].
    cbv beta. by intros c' [? ?].
  - destruct Hs as (-> & _ & r0 & -> & _ & Hr0). cbn [andb negb is_absent expiry_at expiry_of mbind option_bind] in *.
    rewrite Hr0. case_bool_decide as Hn.
    + eapply steps_bind; [by apply (steps_ttl key e st r)|]. cbv beta. intros c' Hh' [Hv' Ho].
      by apply (steps_ret tt (mkSt c' _ _)).
    + apply (steps_ret tt st); [done|]. split; [done|]. subst e. rewrite Hn in *.
      rewrite Hv. f_equal. rewrite <- (set_expiry_id r) at 1. f_equal. by destruct He.
Qed.

(** Bytes written over a text or nothing, with the expiry kept. *)
Lemma steps_rewrite key b tips ks x st : healthy (st_ctx st) →
  string_at (view (st_ctx st) key) = Some x → shows ks x → x ≠ Other →
  steps (emitStringSet key b tips ≫= λ _, keep_ttl_and_tag key ks) st tt
    (now_text (st_ctx st) key b (expiry_at x)).
Proof.
  intros Hh Hx Hs Hn. eapply steps_bind; [by apply steps_set|]. cbv beta.
  intros c1 Hh1 [Ho1 (tag & Hv1 & Hf)].
  eapply steps_weaken; [apply (steps_keep key ks x (mkSt c1 _ _) _ Hh1 Hs Hn Hv1); by left|]. cbn [st_ctx].
  intros c2 [Ho2 Hv2]. split; [|by eapply others_trans]. rewrite Hv2.
  destruct x as [| |v e]; [|done|]; cbn [is_absent expiry_at].
  - apply string_at_plain. by left.
  - apply string_at_raw. by eapply former_text.
Qed.

(** The bytes a key holds, none when it is missing. *)
Definition text_bytes (x : StrState) : bytes := match x with Text v _ => value_bytes v | _ => [] end.

Lemma shown_bytes ks x : shows ks x → x ≠ Other →
  (if ks_exists ks then snapshotToRaw (ks_snap ks) else []) = text_bytes x.
Proof.
  intros Hs Hn. destruct x as [| |v e]; [by destruct Hs as (-> & _)|done|].
  by destruct Hs as (-> & _ & r & -> & <- & _).
Qed.

Lemma shown_wrong ks x : shows ks x → ks_wrongType ks = is_other x.
Proof. destruct x; cbn; by intros (_ & -> & _). Qed.
Lemma shown_exists ks x : shows ks x → ks_exists ks = negb (is_absent x).
Proof. destruct x; cbn; by intros (-> & _). Qed.

(** What a write that keeps the expiry ends with. *)
Lemma finishes_rewrite key b tips ks x f c st : healthy (st_ctx st) →
  string_at (view (st_ctx st) key) = Some x → shows ks x → x ≠ Other → same c (st_ctx st) →
  finishes (emitStringSet key b tips ≫= λ _, keep_ttl_and_tag key ks ≫= λ _, write f) st (f (st_w st))
    (now_text c key b (expiry_at x)).
Proof.
  intros Hh Hx Hs Hn Hc. apply finishes_steps_assoc. eapply finishes_bind; [by eapply steps_rewrite|].
  cbv beta. intros c' Hh' Hw. apply finishes_write; [done|done|]. by eapply now_text_same.
Qed.

(** What SETRANGE makes of the old bytes: zero bytes up to the end of the value,
    the value over them. *)
Definition padded (n : Z) (b : bytes) : bytes := b ++ replicate (Z.to_nat (n - len b)) 0.
Definition overwritten (offset : Z) (value b : bytes) : bytes :=
  take (Z.to_nat offset) (padded (offset + len value) b) ++ value ++ drop (Z.to_nat offset + length value) b.

Lemma copy_grown offset value b d : 0 <= offset → grow (offset + len value) b = Some d →
  copy_at offset value d = overwritten offset value b.
Proof.
  intros Ho Hg. assert (d = padded (offset + len value) b) as ->.
  { unfold grow in Hg. unfold padded. destruct (Z.ltb_spec (len b) (offset + len value)) as [Hlt|Hge].
    - unfold go_make in Hg. destruct ((0 <=? _) && _); [|done]. cbn in Hg. injection Hg as <-. f_equal.
      rewrite drop_replicate. f_equal. unfold len in *. lia.
    - injection Hg as <-. replace (Z.to_nat _) with 0%nat by lia. by rewrite app_nil_r. }
  unfold copy_at, overwritten. f_equal. unfold padded, len in *.
  rewrite length_drop, length_app, length_replicate, (firstn_all2 value) by lia. f_equal.
  rewrite drop_app. rewrite (drop_ge (replicate _ _)), app_nil_r; [done|]. rewrite length_replicate. lia.
Qed.

(** APPEND adds its bytes to the string and SETRANGE lays them over it, filling
    a gap with zero bytes; both create a missing string (SETRANGE not for an
    empty value), keep the expiry, answer the new length, and refuse a key of
    another type. *)
Theorem append_setrange_correct (key value off : bytes) (offset limit : Z) (st : St) (x : StrState) :
  healthy (st_ctx st) → string_at (view (st_ctx st) key) = Some x →
  ParseInt64 off = Some offset → 0 <= offset → offset + len value <= limit → limit <= maxAlloc →
  ∃ append setr, handleAppend [key; value] = Accept [key] append ∧
    handleSetRange limit [key; off; value] = Accept [key] setr ∧
    if is_other x then
      finishes append st (WriteWrongType (st_w st)) (same (st_ctx st)) ∧
      finishes setr st (WriteWrongType (st_w st)) (same (st_ctx st))
    else
      (let b := text_bytes x ++ value in
       finishes append st (WriteInteger (len b) (st_w st)) (now_text (st_ctx st) key b (expiry_at x))) ∧
      (let b := overwritten offset value (text_bytes x) in
       if is_absent x && (len value =? 0)
       then finishes setr st (WriteInteger 0 (st_w st)) (same (st_ctx st))
       else finishes setr st (WriteInteger (len b) (st_w st)) (now_text (st_ctx st) key b (expiry_at x))).
Proof.
  intros Hh Hx Hp Ho Hl Hm. exists (append_runner key value), (setrange_runner key offset value).
  split; [done|]. split.
  { cbn [handleSetRange]. rewrite Hp. pose proof (len_nonneg value).
    rewrite i64_id by (unfold maxAlloc in *; widths; lia).
    by rewrite !(proj2 (Z.ltb_ge _ _)) by lia. }
  destruct (steps_string key st x Hh Hx) as (ks & Hg & Hs).
  destruct (is_other x) eqn:Ex.
  { split; (eapply finishes_bind; [exact Hg|]); cbv beta; intros c' Hh' Hsame;
      rewrite ?(shown_exists _ _ Hs), (shown_wrong _ _ Hs), Ex.
    - by apply finishes_reply.
    - destruct x; try done. cbn. by apply finishes_reply. }
  assert (Hn : x ≠ Other) by (intros ->; done).
  split; (eapply finishes_bind; [exact Hg|]) || cbv zeta.
  - cbv beta. intros c' Hh' Hsame. rewrite (shown_wrong _ _ Hs), Ex, (shown_bytes _ _ Hs Hn). cbv zeta.
    apply (finishes_rewrite key _ _ ks x _ (st_ctx st) (mkSt c' _ _)); try done. by eapply same_string.
  - destruct (is_absent x && (len value =? 0)) eqn:Ez; (eapply finishes_bind; [exact Hg|]);
      cbv beta; intros c' Hh' Hsame; rewrite (shown_exists _ _ Hs), negb_involutive, Ez.
    + by apply finishes_reply.
    + rewrite (shown_wrong _ _ Hs), Ex. replace (if negb (is_absent x) then _ else _) with (text_bytes x).
      2:{ rewrite <- (shown_bytes _ _ Hs Hn), (shown_exists _ _ Hs). done. }
      assert (∃ d, grow (offset + len value) (text_bytes x) = Some d) as [d Hd].
      { unfold grow. destruct (Z.ltb_spec (len (text_bytes x)) (offset + len value)); [|by eauto].
        unfold go_make. pose proof (len_nonneg value).
        rewrite (proj2 (Z.leb_le _ _)), (proj2 (Z.leb_le _ _)) by lia. cbn. eauto. }
      eapply finishes_or_panic; [exact Hd|]. cbv zeta. rewrite (copy_grown _ _ _ _ Ho Hd).
      apply (finishes_rewrite key _ _ ks x _ (st_ctx st) (mkSt c' _ _)); try done. by eapply same_string.
Qed.

(** ** Counters *)

(** The integer at a key, with its expiry: nothing is zero, a plain string its
    number. *)
Definition counter (s : option ReducedEffect) (n : Z) (e : option Timestamp) : Prop :=
  (is_live s = false ∧ n = 0 ∧ e = None) ∨
  ∃ r v, s = Some r ∧ re_Op r = INSERT_OP ∧ is_plain_string r = true ∧ re_Scalar r = Some v ∧
         value_int Decompress v = Some n ∧ re_ExpiresAt r = e.

Lemma plain_tag r : is_plain_string r = true → re_Collection r = SCALAR ∧ text_tag (re_TypeTag r).
Proof.
  unfold is_plain_string, text_tag. intros [Hc Ht]%andb_true_iff.
  apply bool_decide_eq_true in Hc. apply orb_true_iff in Ht. rewrite !bool_decide_eq_true in Ht. auto.
Qed.

Lemma dead_absent s : is_live s = false → string_at s = Some Absent.
Proof.
  unfold string_at. destruct s as [r|]; [|done]. rewrite is_live_remove. intros Hl%negb_false_iff%bool_decide_eq_true.
  cbn. by rewrite bool_decide_eq_true_2.
Qed.

Lemma string_at_plain_key r : re_Op r = INSERT_OP → is_plain_string r = true →
  string_at (Some r) = Some (Text (re_Scalar r) (re_ExpiresAt r)).
Proof.
  intros Ho Hp. unfold string_at. cbn. rewrite bool_decide_eq_false_2 by (rewrite Ho; done). by rewrite Hp.
Qed.

Lemma counter_state s n e : counter s n e →
  (is_live s = false ∧ string_at s = Some Absent ∧ n = 0 ∧ e = None) ∨
  (is_live s = true ∧ ∃ v, string_at s = Some (Text (Some v) e) ∧ value_int Decompress v = Some n ∧
     ∃ t, re_TypeTag <$> s = Some t ∧ text_tag t).
Proof.
  intros [(Hl & -> & ->)|(r & v & -> & Ho & Hp & Hv & Hn & <-)].
  - left. split_and!; try done. by apply dead_absent.
  - right. cbn. rewrite bool_decide_eq_true_2 by done. split; [done|]. exists v.
    rewrite (string_at_plain_key r Ho Hp), Hv. split_and!; [done|done|]. exists (re_TypeTag r). split; [done|].
    by apply plain_tag.
Qed.

Lemma counter_scalar s n e : counter s n e → scalar_int Decompress s = Some n.
Proof.
  intros [(Hl & -> & ->)|(r & v & -> & Ho & Hp & Hv & Hn & <-)]; unfold scalar_int.
  - destruct s; [|done]. by rewrite Hl.
  - cbn. rewrite bool_decide_eq_true_2 by done. cbn. destruct (plain_tag r Hp) as [-> _]. by rewrite Hv.
Qed.

(** The check for overflow is exact. *)
Lemma overflow_check n d : is_i64 n → is_i64 d →
  ((0 <? d) && (i64 (n + d) <? n)) || ((d <? 0) && (n <? i64 (n + d))) =
  negb ((MinInt64 <=? n + d) && (n + d <=? MaxInt64)).
Proof.
  intros Hn Hd. assert (Hcases : i64 (n + d) = n + d ∧ is_i64 (n + d) ∨
    i64 (n + d) = n + d - 2 ^ 64 ∧ MaxInt64 < n + d ∨ i64 (n + d) = n + d + 2 ^ 64 ∧ n + d < MinInt64).
  { unfold i64. widths. destruct (decide (n + d < - 2 ^ 63)), (decide (2 ^ 63 - 1 < n + d)); [lia| | |].
    - right; right. split; [|lia]. rewrite <- (Z.mod_unique (n + d + 2 ^ 63) (2 ^ 64) (-1) (n + d + 2 ^ 63 + 2 ^ 64)); lia.
    - right; left. split; [|lia]. rewrite <- (Z.mod_unique (n + d + 2 ^ 63) (2 ^ 64) 1 (n + d + 2 ^ 63 - 2 ^ 64)); lia.
    - left. split; [|lia]. rewrite Z.mod_small; lia. }
  widths. destruct (Z.ltb_spec 0 d), (Z.ltb_spec (i64 (n + d)) n), (Z.ltb_spec d 0), (Z.ltb_spec n (i64 (n + d))),
    (Z.leb_spec (- 2 ^ 63) (n + d)), (Z.leb_spec (n + d) (2 ^ 63 - 1)); cbn; try done; lia.
Qed.

(** C12: INCR, DECR, INCRBY and DECRBY on a number or a missing key: the sum, or an
    error that changes nothing, exactly when it leaves the 64 bits; the key then reads
    as the sum, with its expiry, and other keys are unchanged.  DECRBY negates its
    argument first: it refuses -2^63, which has no negation among the 64-bit
    integers, before the key is read, also where the difference would fit. *)
Theorem incr_correct (key d : bytes) (delta n : Z) (e : option Timestamp) (st : St) :
  healthy (st_ctx st) → counter (view (st_ctx st) key) n e → is_i64 n →
  ParseInt64 d = Some delta → is_i64 delta →
  handleIncr [key] = Accept [key] (incrBy key 1) ∧
  handleDecr [key] = Accept [key] (incrBy key (-1)) ∧
  handleIncrBy [key; d] = Accept [key] (incrBy key delta) ∧
  handleDecrBy [key; d] = (if delta =? MinInt64 then Refuse [] (WriteError (str "ERR value is out of range")) else Accept [key] (incrBy key (- delta))) ∧
  ∀ k, is_i64 k →
    if (MinInt64 <=? n + k) && (n + k <=? MaxInt64)
    then finishes (incrBy key k) st (WriteInteger (n + k) (st_w st))
           (λ c', string_at (view c' key) = Some (Text (Some (IntVal (n + k))) e) ∧ others (st_ctx st) key c')
    else finishes (incrBy key k) st (WriteError overflow_error (st_w st)) (same (st_ctx st)).
Proof.
  intros Hh Hc Hn Hp Hd. split; [done|]. split; [done|].
  split; [cbn [handleIncrBy]; by rewrite Hp|]. split.
  { cbn [handleDecrBy]. by rewrite Hp. }
  intros k Hk. pose proof (overflow_check n k Hn Hk) as Hov.
  assert (∃ x, string_at (view (st_ctx st) key) = Some x ∧ x ≠ Other ∧ expiry_at x = e ∧
    match x with Text (Some v) _ => value_int Decompress v = Some n | Absent => n = 0 | _ => False end) as (x & Hx & Hno & He & Hv).
  { destruct (counter_state _ _ _ Hc) as [(_ & Hs & -> & ->)|(_ & v & Hs & Hv & _)]; rewrite Hs; by eexists. }
  destruct (steps_string key st x Hh Hx) as (ks & Hg & Hs).
  assert (Hint : snapshotToInt (ks_snap ks) = Some n).
  { destruct x as [| |[v|] e0]; cbn [shows] in Hs; try done.
    - destruct Hs as (_ & _ & ->). by rewrite Hv.
    - destruct Hs as (_ & _ & r & -> & Hr & _). unfold snapshotToInt. cbn. rewrite Hr. done. }
  assert (Hw : ks_wrongType ks = false) by (rewrite (shown_wrong _ _ Hs); by destruct x).
  destruct ((MinInt64 <=? n + k) && (n + k <=? MaxInt64)) eqn:Er;
    (eapply finishes_bind; [exact Hg|]); cbv beta; intros c1 Hh1 Hs1; rewrite Hw, Hint; cbv zeta; rewrite Hov; cbn [negb].
  2:{ by apply finishes_reply. }
  apply andb_true_iff in Er as [E1%Z.leb_le E2%Z.leb_le]. rewrite i64_id by done.
  unfold emitIncrInt. eapply finishes_bind; [by apply (steps_emit key _ _ (mkSt c1 _ _))|]. cbn [st_ctx].
  intros c2 Hh2 [Hv2 Ho2].
  assert (Hc1 : counter (view c1 key) n e) by by rewrite Hs1.
  destruct (law_add key n k (ks_tips ks) c1 Hh1 (counter_scalar _ _ _ Hc1)) as (tag & e' & Ha & Ht & He'); [done|].
  rewrite Ha in Hv2. assert (Hx1 : string_at (view c1 key) = Some x) by by eapply same_string.
  eapply finishes_bind; [apply (steps_keep key ks x (mkSt c2 _ _) _ Hh2 Hs Hno Hv2)|]; cbn [st_ctx st_w].
  { destruct He' as [->|[Hl He']]; [by left|]. right. cbn [re_ExpiresAt].
    destruct (counter_state _ _ _ Hc1) as [(Hl' & _)|_]; [congruence|].
    destruct Hc1 as [(Hl' & _)|(r & v & Er & _ & _ & _ & _ & <-)]; [congruence|].
    rewrite Er in He'. cbn in He'. injection He' as <-. by rewrite He. }
  intros c3 Hh3 [Ho3 Hv3]. apply finishes_write; [done|done|]. cbn [st_ctx].
  split; [|by eapply others_trans; [by apply others_same|eapply others_trans]]. rewrite Hv3.
  destruct (counter_state _ _ _ Hc1) as [(Hl & Hs' & _ & ->)|(Hl & v & Hs' & _ & t & Ett & Htt)];
    rewrite Hx1 in Hs'; injection Hs' as ->; cbn [is_absent expiry_at].
  - destruct He' as [->|[Hl' _]]; [|congruence]. apply string_at_plain. by left.
  - rewrite (Ht Hl) in Ett. injection Ett as <-. by apply string_at_plain.
Qed.

(** ** GETSET, GETDEL, GETEX, SETNX, SETEX, PSETEX *)

Lemma finishes_steps_assoc3 {A B C} (m : M A) (f : A → M B) (g : B → M C) (h : C → M unit) st w P :
  finishes ((m ≫= λ a, f a ≫= g) ≫= h) st w P → finishes (m ≫= λ a, f a ≫= λ b, g b ≫= h) st w P.
Proof.
  unfold finishes, mbind, M_bind. destruct (m st) as [[a| | |] st']; auto. destruct (f a st') as [[b| | |] st'']; auto.
Qed.

Lemma steps_write_lasting key b tips x (tagged : bool) st : healthy (st_ctx st) →
  string_at (view (st_ctx st) key) = Some x → (tagged = false → ∃ v e0, x = Text v e0) →
  steps (emitStringSet key b tips ≫= λ _, if tagged then emitStringTypeTag key else mret tt) st tt
    (now_text (st_ctx st) key b None).
Proof.
  intros Hh Hx Ht. pose proof (steps_write_text key b tips x None tagged st Hh Hx Ht) as Hw.
  by rewrite (bool_decide_eq_false_2 (None ≠ None)) in Hw by (intros Hf; by apply Hf).
Qed.

(** SETEX and PSETEX: the string with the expiry, whatever the key was. *)
Lemma finishes_setex key b e x st : healthy (st_ctx st) → string_at (view (st_ctx st) key) = Some x →
  finishes (setex_runner key b (Some e)) st (WriteOK (st_w st)) (now_text (st_ctx st) key b (Some e)).
Proof.
  intros Hh Hx. unfold setex_runner. apply finishes_steps_assoc3.
  pose proof (steps_write_text key b [] x (Some e) true st Hh Hx ltac:(done)) as Hw.
  rewrite (bool_decide_eq_true_2 (Some e ≠ None)) in Hw by done.
  eapply finishes_bind; [exact Hw|]. cbv beta. intros c' Hh' Hn. by apply finishes_write.
Qed.

Lemma shown_reply ks x w : shows ks x → x ≠ Other →
  (if ks_exists ks then WriteBulkString (snapshotToRaw (ks_snap ks)) else WriteNullBulkString) w = old_reply x w.
Proof.
  intros Hs Hn. destruct x as [| |v e]; cbn [shows] in Hs; [by destruct Hs as (-> & _)|done|].
  by destruct Hs as (-> & _ & r & -> & <- & _).
Qed.

Lemma absent_dead s : string_at s = Some Absent → is_live s = false.
Proof.
  unfold string_at. destruct s as [r|]; [|done]. rewrite is_live_remove. cbn.
  destruct (bool_decide (re_Op r = REMOVE_OP)); [done|]. destruct (is_plain_string r); [done|].
  by destruct (ReconstructBytes r) as [[?|]|].
Qed.

Lemma getset_run key value st x : healthy (st_ctx st) → string_at (view (st_ctx st) key) = Some x →
  if is_other x then finishes (getset_runner key value) st (WriteWrongType (st_w st)) (same (st_ctx st))
  else finishes (getset_runner key value) st (old_reply x (st_w st)) (now_text (st_ctx st) key value None).
Proof.
  intros Hh Hx. destruct (steps_string key st x Hh Hx) as (ks & Hg & Hs).
  pose proof (shown_exists _ _ Hs) as Hex. pose proof (shown_wrong _ _ Hs) as Hwr.
  destruct (is_other x) eqn:Eo; (eapply finishes_bind; [exact Hg|]); cbv beta; intros c1 Hh1 Hs1; rewrite Hwr.
  { destruct x; try done. rewrite Hex. cbn. by apply finishes_reply. }
  rewrite andb_false_r. eapply finishes_bind; [by apply (steps_begin_string key _ (mkSt c1 _ _))|].
  cbn [st_ctx st_w st_held]. intros c2 Hh2 Hs2.
  assert (Hsame : same (st_ctx st) c2) by by eapply same_trans.
  apply finishes_steps_assoc. rewrite Hex, negb_involutive.
  eapply finishes_bind; [apply (steps_write_lasting key value [] x (is_absent x) (mkSt c2 _ _) Hh2)|].
  - by eapply same_string.
  - destruct x; try done. eauto.
  - cbn [st_ctx st_w st_held]. intros c3 Hh3 Hn. apply finishes_write; [done| |by eapply now_text_same].
    rewrite <- Hex. apply shown_reply; [done|]. by intros ->.
Qed.

Lemma getdel_run key st x : healthy (st_ctx st) → string_at (view (st_ctx st) key) = Some x →
  if is_other x then finishes (getdel_runner key) st (WriteWrongType (st_w st)) (same (st_ctx st))
  else finishes (getdel_runner key) st (old_reply x (st_w st)) (λ c',
         is_live (view c' key) = false ∧ others (st_ctx st) key c').
Proof.
  intros Hh Hx. destruct (steps_string key st x Hh Hx) as (ks & Hg & Hs).
  pose proof (shown_exists _ _ Hs) as Hex. pose proof (shown_wrong _ _ Hs) as Hwr.
  destruct (is_other x) eqn:Eo; (eapply finishes_bind; [exact Hg|]); cbv beta; intros c1 Hh1 Hs1; rewrite Hwr, Hex, negb_involutive.
  { destruct x; try done. cbn. by apply finishes_reply. }
  assert (Hno : x ≠ Other) by by intros ->. pose proof (shown_reply ks x (st_w st) Hs Hno) as Hr.
  destruct x as [| |v e]; [|done|]; cbn [is_absent] in *.
  - apply finishes_reply; [done|done|]. split; [|by apply others_same]. apply absent_dead. cbn [st_ctx]. by rewrite Hs1.
  - eapply finishes_bind; [by apply (steps_begin_string key _ (mkSt c1 _ _))|]. cbv beta. intros c2 Hh2 Hs2.
    eapply finishes_bind; [by apply (steps_delete_string key _ (mkSt c2 _ _))|]. cbn [st_ctx]. intros c3 Hh3 [Hl Ho].
    rewrite Hex in Hr. apply finishes_write; [done|exact Hr|]. split; [done|].
    eapply others_trans; [|exact Ho]. apply others_same. by eapply same_trans.
Qed.

Lemma setnx_run key value st x : healthy (st_ctx st) → string_at (view (st_ctx st) key) = Some x →
  if is_absent x
  then finishes (setnx_runner key value) st (WriteOne (st_w st)) (now_text (st_ctx st) key value None)
  else finishes (setnx_runner key value) st (WriteZero (st_w st)) (same (st_ctx st)).
Proof.
  intros Hh Hx. destruct (steps_string key st x Hh Hx) as (ks & Hg & Hs). pose proof (shown_exists _ _ Hs) as Hex.
  destruct (is_absent x) eqn:Ea; (eapply finishes_bind; [exact Hg|]); cbv beta; intros c1 Hh1 Hs1; rewrite Hex; cbn [negb].
  2:{ by apply finishes_reply. }
  apply finishes_steps_assoc.
  eapply finishes_bind; [apply (steps_write_lasting key value (ks_tips ks) x true (mkSt c1 _ _) Hh1); [|done]|].
  - by eapply same_string.
  - cbn [st_ctx st_w st_held]. intros c3 Hh3 Hn. apply finishes_write; [done|done|]. by eapply now_text_same.
Qed.

(** GETSET answers the old string and stores the new one, without expiry;
    GETDEL answers it and deletes the key; SETNX stores only where nothing is.
    A key of another type stops the first two, and counts as present for
    SETNX. *)
Theorem getset_getdel_setnx_correct (key value : bytes) (st : St) (x : StrState) :
  healthy (st_ctx st) → string_at (view (st_ctx st) key) = Some x →
  ∃ getset getdel setnx,
    handleGetSet [key; value] = Accept [key] getset ∧ handleGetDel [key] = Accept [key] getdel ∧
    handleSetNX [key; value] = Accept [key] setnx ∧
    (if is_other x
     then finishes getset st (WriteWrongType (st_w st)) (same (st_ctx st)) ∧
          finishes getdel st (WriteWrongType (st_w st)) (same (st_ctx st))
     else finishes getset st (old_reply x (st_w st)) (now_text (st_ctx st) key value None) ∧
          finishes getdel st (old_reply x (st_w st)) (λ c',
            is_live (view c' key) = false ∧ others (st_ctx st) key c')) ∧
    (if is_absent x
     then finishes setnx st (WriteOne (st_w st)) (now_text (st_ctx st) key value None)
     else finishes setnx st (WriteZero (st_w st)) (same (st_ctx st))).
Proof.
  intros Hh Hx. do 3 eexists. do 3 (split; [reflexivity|]).
  pose proof (getset_run key value st x Hh Hx) as H1'. pose proof (getdel_run key st x Hh Hx) as H2'.
  pose proof (setnx_run key value st x Hh Hx) as H3'.
  destruct (is_other x); (split; [by split|]); by destruct (is_absent x).
Qed.

(** ** MSET, MSETNX, MGET *)

(** The last value given for a key. *)
Definition last_value (kvs : list (bytes * bytes)) (k : bytes) : option bytes :=
  foldl (λ acc kv, if decide (fst kv = k) then Some (snd kv) else acc) None kvs.

(** Every key given is the last string given for it, the others are unchanged. *)
Definition stored (kvs : list (bytes * bytes)) (c c' : Ctx) : Prop := ∀ k,
  match last_value kvs k with
  | Some v => string_at (view c' k) = Some (Text (Some (Raw v)) None)
  | None => view c' k = view c k
  end.

Lemma last_value_snoc kvs kv k :
  last_value (kvs ++ [kv]) k = if decide (fst kv = k) then Some (snd kv) else last_value kvs k.
Proof. unfold last_value. by rewrite foldl_app. Qed.

Lemma steps_set_pair kv st : healthy (st_ctx st) →
  steps (set_pair kv) st tt (now_text (st_ctx st) (fst kv) (snd kv) None).
Proof.
  intros Hh. unfold set_pair. eapply steps_bind; [by apply steps_set|]. cbv beta. intros c1 Hh1 [Ho1 (tag & Hv1 & _)].
  eapply steps_weaken; [by apply (steps_string_tag _ (mkSt c1 _ _) _ Hh1 Hv1)|]. cbn [st_ctx]. intros c2 [Hv2 Ho2].
  split; [|by eapply others_trans]. rewrite Hv2. apply string_at_plain. by left.
Qed.

Lemma stored_snoc kvs kv c c1 c2 : stored kvs c c1 → now_text c1 (fst kv) (snd kv) None c2 →
  stored (kvs ++ [kv]) c c2.
Proof.
  intros Hs [Ht Ho] k. rewrite last_value_snoc. case_decide as E; [by subst|]. specialize (Hs k).
  rewrite Ho by done. done.
Qed.

Lemma steps_set_pairs kvs0 kvs c0 st : healthy (st_ctx st) → stored kvs0 c0 (st_ctx st) →
  steps (for_each kvs set_pair) st tt (stored (kvs0 ++ kvs) c0).
Proof.
  revert kvs0 st. induction kvs as [|kv kvs IH]; intros kvs0 st Hh Hs.
  { apply steps_ret; [done|]. by rewrite app_nil_r. }
  cbn [for_each]. eapply steps_bind; [by apply steps_set_pair|]. cbv beta. intros c1 Hh1 Hn.
  eapply steps_weaken; [apply (IH (kvs0 ++ [kv]) (mkSt c1 _ _) Hh1)|].
  - cbn [st_ctx]. by eapply stored_snoc.
  - cbv beta. intros c2. by rewrite <- app_assoc.
Qed.

(** MSET stores every pair, a later one over an earlier one of the same key,
    and touches nothing else. *)
Theorem mset_correct (args : list bytes) (kv : bytes * bytes) (kvs : list (bytes * bytes)) (st : St) :
  healthy (st_ctx st) → pairs args = Some (kv :: kvs) →
  ∃ runner, handleMSet args = Accept (fst <$> kv :: kvs) runner ∧
    finishes runner st (WriteOK (st_w st)) (stored (kv :: kvs) (st_ctx st)).
Proof.
  intros Hh Hp. exists (mset_runner (kv :: kvs)). split; [unfold handleMSet; by rewrite Hp|].
  unfold mset_runner. eapply finishes_bind; [by apply (steps_set_pairs [] _ (st_ctx st))|]. cbv beta.
  intros c' Hh' Hs. by apply finishes_write.
Qed.

Definition is_text (x : StrState) : bool := match x with Text _ _ => true | _ => false end.

Lemma shown_nil ks x : shows ks x → ks_snap ks = None ↔ is_text x = false.
Proof.
  destruct x; cbn; [by intros (_ & _ & ->)|by intros (_ & _ & ->)|]. intros (_ & _ & r & -> & _). done.
Qed.

(** The state of each key, as far as it can be read. *)
Definition readable (c : Ctx) (keys : list bytes) (xs : list StrState) : Prop :=
  Forall2 (λ k x, string_at (view c k) = Some x) keys xs.

Lemma readable_same c c' keys xs : same c c' → readable c keys xs → readable c' keys xs.
Proof. intros Hs Hr. eapply Forall2_impl; [exact Hr|]. cbv beta. intros k x Hx. by rewrite Hs. Qed.

(** The reads of MSETNX stop at the first string. *)
Lemma missing_keys_spec keys xs st : healthy (st_ctx st) → readable (st_ctx st) keys xs →
  if existsb is_text xs
  then ∃ c', missing_keys keys st = (Return, mkSt c' (WriteZero (st_w st)) (st_held st)) ∧ healthy c' ∧ same (st_ctx st) c'
  else ∃ infos, steps (missing_keys keys) st infos (same (st_ctx st)).
Proof.
  intros Hh Hr. revert st Hh Hr. induction keys as [|k keys IH] in xs |- *; intros st Hh Hr.
  { apply Forall2_nil_inv_l in Hr as ->. cbn. exists []. by apply steps_ret. }
  apply Forall2_cons_inv_l in Hr as (x & xs' & Hx & Hr & ->). cbn [existsb missing_keys].
  destruct (steps_string k st x Hh Hx) as (ks & (c1 & E & Hh1 & Hs1) & Hs).
  destruct (is_text x) eqn:Et; cbn [orb].
  - exists c1. split; [|done]. unfold mbind, M_bind. rewrite E.
    destruct (ks_snap ks) eqn:En; [done|]. apply (shown_nil _ _ Hs) in En. congruence.
  - specialize (IH xs' (mkSt c1 (st_w st) (st_held st)) Hh1 (readable_same _ _ _ _ Hs1 Hr)).
    cbn [st_ctx st_w st_held] in IH.
    destruct (existsb is_text xs').
    + destruct IH as (c2 & E2 & Hh2 & Hs2). exists c2. split; [|split; [done|by eapply same_trans]].
      unfold mbind, M_bind. rewrite E, (proj2 (shown_nil _ _ Hs) Et), E2. done.
    + destruct IH as (infos & c2 & E2 & Hh2 & Hs2). exists ((k, ks_tips ks) :: infos), c2.
      unfold mbind, M_bind. rewrite E, (proj2 (shown_nil _ _ Hs) Et), E2. split; [done|split; [done|by eapply same_trans]].
Qed.

Lemma steps_record_reads infos st : healthy (st_ctx st) →
  steps (record_reads infos) st tt (same (st_ctx st)).
Proof.
  unfold record_reads. revert st. induction infos as [|i infos IH]; intros st Hh; [by apply steps_ret|].
  cbn [for_each]. eapply steps_bind; [by apply steps_noop|]. cbv beta. intros c1 Hh1 Hs1.
  eapply steps_weaken; [by apply (IH (mkSt c1 _ _))|]. cbn [st_ctx]. intros c2 Hs2. by eapply same_trans.
Qed.

(** MSETNX is all or nothing: when a key holds a string it stores nothing and
    answers 0, otherwise it stores every pair and answers 1.  A key that holds
    a value of another type does not stop it. *)
Theorem msetnx_correct (args : list bytes) (kv : bytes * bytes) (kvs : list (bytes * bytes))
    (xs : list StrState) (st : St) :
  healthy (st_ctx st) → pairs args = Some (kv :: kvs) → readable (st_ctx st) (fst <$> kv :: kvs) xs →
  ∃ runner, handleMSetNX args = Accept (fst <$> kv :: kvs) runner ∧
    if existsb is_text xs then finishes runner st (WriteZero (st_w st)) (same (st_ctx st))
    else finishes runner st (WriteOne (st_w st)) (stored (kv :: kvs) (st_ctx st)).
Proof.
  intros Hh Hp Hr. exists (msetnx_runner (kv :: kvs)). split; [unfold handleMSetNX; by rewrite Hp|].
  pose proof (missing_keys_spec _ _ st Hh Hr) as Hm. unfold msetnx_runner. destruct (existsb is_text xs).
  - destruct Hm as (c' & E & Hh' & Hs'). exists Return, c'. unfold mbind, M_bind. rewrite E. auto.
  - destruct Hm as (infos & Hm). eapply finishes_bind; [exact Hm|]. cbv beta. intros c1 Hh1 Hs1.
    eapply finishes_bind; [by apply (steps_begin (mkSt c1 _ _))|]. cbn [st_ctx]. intros c2 Hh2 Hs2.
    eapply finishes_bind; [by apply (steps_record_reads infos (mkSt c2 _ _))|]. cbn [st_ctx]. intros c3 Hh3 Hs3.
    eapply finishes_bind; [apply (steps_set_pairs [] (kv :: kvs) (st_ctx st) (mkSt c3 _ _) Hh3)|].
    + intros k. cbn. by rewrite Hs3, Hs2, Hs1.
    + cbv beta. intros c4 Hh4 Hs4. by apply finishes_write.
Qed.

(** One entry of MGET. *)
Definition mget_reply (x : StrState) : Writer → Writer :=
  match x with Text v _ => WriteBulkString (value_bytes v) | _ => WriteNullBulkString end.

(** MGET answers the strings of its keys in their order, null for a key that is
    missing or of another type, and changes nothing. *)
Theorem mget_correct (k : bytes) (ks : list bytes) (xs : list StrState) (st : St) :
  healthy (st_ctx st) → readable (st_ctx st) (k :: ks) xs →
  Forall (λ key, ∀ r, view (st_ctx st) key = Some r → is_live (Some r) = true → re_TypeTag r ≠ TYPE_BITMAP) (k :: ks) →
  ∃ runner, handleMGet (k :: ks) = Accept (k :: ks) runner ∧
    finishes runner st (foldl (λ w x, mget_reply x w) (WriteArray (len (k :: ks)) (st_w st)) xs) (same (st_ctx st)).
Proof.
  intros Hh Hr Hb. exists (mget_runner (k :: ks)). split; [done|]. unfold mget_runner.
  destruct (law_gets (k :: ks) _ Hh) as (c1 & E & Hh1 & Hs1).
  eapply (finishes_bind _ _ _ _ (same (st_ctx st))).
  { exists c1. unfold get_snapshots. rewrite E. done. }
  cbv beta. intros c2 Hh2 Hs2.
  assert (Hm : mapM mget_entry ((λ k, if is_live (view (st_ctx st) k) then view (st_ctx st) k else None) <$> (k :: ks)) =
    Some (mget_reply <$> xs)).
  { clear -Hr Hb. induction Hr as [|key x keys xs Hx Hr IH]; [done|].
    apply Forall_cons in Hb as [Hk Hb]. cbn [fmap list_fmap mapM].
    rewrite (IH Hb). assert (mget_entry (if is_live (view (st_ctx st) key) then view (st_ctx st) key else None) =
      Some (mget_reply x)) as ->; [|done].
    destruct (is_live (view (st_ctx st) key)) eqn:El.
    2:{ rewrite dead_absent in Hx by done. by injection Hx as <-. }
    destruct (view (st_ctx st) key) as [r|] eqn:Ev; [|done]. specialize (Hk r eq_refl El).
    unfold string_at in Hx. unfold classify_string, mget_entry in *. cbn in El, Hx. apply bool_decide_eq_true in El.
    rewrite bool_decide_eq_false_2 in Hx by (rewrite El; done).
    destruct (is_plain_string r); [by injection Hx as <-|].
    unfold ReconstructBytes in *. by destruct (re_TypeTag r); simplify_eq/=. }
  rewrite Hm. eapply finishes_or_panic; [reflexivity|]. apply finishes_write_bind. cbn [st_ctx st_w st_held].
  pose proof (finishes_for_each_write (λ f : Writer → Writer, f) (mget_reply <$> xs)
    (mkSt c2 (WriteArray (len (k :: ks)) (st_w st)) (st_held st)) (same (st_ctx st)) Hh2 Hs2) as Hf.
  cbn [st_ctx st_w st_held] in Hf. rewrite foldl_fmap in Hf. exact Hf.
Qed.

(** ** LCS, SETEX and GETEX *)

(** LCS answers a longest common subsequence of the two strings (a missing key
    is empty), its length, or its ranges. *)
Theorem lcs_command_correct (key1 key2 : bytes) (opts : list bytes) (o : LcsOpts) (x1 x2 : StrState) (st : St) :
  healthy (st_ctx st) → string_at (view (st_ctx st) key1) = Some x1 → string_at (view (st_ctx st) key2) = Some x2 →
  parse_lcs_opts opts (mkLcsOpts false false false 0) = Ok o →
  ∃ runner, handleLcs (key1 :: key2 :: opts) = Accept [key1; key2] runner ∧
    if is_other x1 || is_other x2 then finishes runner st (WriteWrongType (st_w st)) (same (st_ctx st))
    else ∃ r n ms, is_lcs (text_bytes x1) (text_bytes x2) r n ms ∧
           finishes runner st (write_lcs o r n ms (st_w st)) (same (st_ctx st)).
Proof.
  intros Hh Hx1 Hx2 Hp. exists (lcs_runner key1 key2 o). split; [cbn [handleLcs]; by rewrite Hp|].
  destruct (steps_string key1 st x1 Hh Hx1) as (k1 & Hg1 & Hs1). unfold lcs_runner.
  pose proof (shown_wrong _ _ Hs1) as Hw1. destruct (is_other x1) eqn:E1; cbn [orb].
  { eapply finishes_bind; [exact Hg1|]. cbv beta. intros c1 Hh1 Hsa1. rewrite Hw1. by apply finishes_reply. }
  assert (Hn1 : x1 ≠ Other) by by intros ->.
  destruct (is_other x2) eqn:E2; [|destruct (computeLCS_correct (text_bytes x1) (text_bytes x2)) as (r & n & ms & El & Hl);
    exists r, n, ms; split; [done|]];
    (eapply finishes_bind; [exact Hg1|]); cbv beta; intros c1 Hh1 Hsa1; rewrite Hw1;
    destruct (steps_string key2 (mkSt c1 (st_w st) (st_held st)) x2 Hh1 ltac:(by eapply same_string)) as (k2 & Hg2 & Hs2);
    pose proof (shown_wrong _ _ Hs2) as Hw2; (eapply finishes_bind; [exact Hg2|]); cbn [st_ctx st_w st_held];
    intros c2 Hh2 Hsa2; rewrite Hw2, E2.
  - apply finishes_reply; [done|done|]. by eapply same_trans.
  - rewrite (shown_bytes _ _ Hs1 Hn1), (shown_bytes _ _ Hs2) by by intros ->.
    eapply finishes_or_panic; [exact El|]. cbv beta iota. apply finishes_write; [done|done|]. by eapply same_trans.
Qed.

(** The nanoseconds of more seconds than a duration holds are negative for the
    next 292 years' worth: the expiry that the checks let pass then lies in
    the past. *)
Theorem expire_wraps_into_past (now : Timestamp) (seconds : Z) :
  0 <= UnixMilli now <= 10 ^ 15 → 9223372036 < seconds <= 18446744072 →
  validateExpireSeconds now seconds = true ∧
  ∃ t, computeExpiresAtMs seconds 0 0 0 = Some t ∧ t < run_now.
Proof.
  intros Hnow Hs. unfold validateExpireSeconds, computeExpiresAtMs, Duration, maxExpireSeconds.
  rewrite (proj2 (Z.leb_gt seconds 0)), (proj2 (Z.ltb_ge _ seconds)), (proj2 (Z.ltb_lt 0 seconds)) by lia.
  split.
  - apply Z.leb_le. rewrite !i64_id by (widths; lia). widths. lia.
  - eexists. split; [done|]. unfold i64.
    rewrite <- (Z.mod_unique (seconds * 1000000000 + 2 ^ 63) (2 ^ 64) 1 (seconds * 1000000000 + 2 ^ 63 - 2 ^ 64)); lia.
Qed.

(** GETEX answers the string and changes only its expiry: to the time asked
    for, or to none with PERSIST. *)
Lemma getex_run key change st r v e : healthy (st_ctx st) → view (st_ctx st) key = Some r →
  string_at (Some r) = Some (Text v e) →
  finishes (getex_runner key change) st (WriteBulkString (value_bytes v) (st_w st))
    (λ c', view c' key = Some (match change with Some e' => set_expiry e' r | None => r end) ∧
           others (st_ctx st) key c').
Proof.
  intros Hh Hv Hx. destruct (steps_string key st (Text v e) Hh) as (ks & Hg & Hs); [by rewrite Hv|].
  eapply finishes_bind; [exact Hg|]. cbv beta. intros c1 Hh1 Hs1.
  destruct Hs as (-> & -> & r0 & -> & <- & _). cbn [negb]. destruct change as [e'|].
  - eapply (finishes_bind _ _ _ _ (λ c', view c' key = Some (set_expiry e' r) ∧ others (st_ctx st) key c')).
    + eapply steps_bind; [by apply (steps_begin_string key _ (mkSt c1 _ _))|]. cbn [st_ctx]. intros c2 Hh2 Hs2.
      eapply steps_weaken; [apply (steps_ttl key e' (mkSt c2 _ _) r Hh2)|].
      * cbn [st_ctx]. by rewrite Hs2, Hs1.
      * cbn [st_ctx]. intros c3 [Hv3 Ho3]. split; [done|]. eapply others_trans; [|exact Ho3].
        apply others_same. by eapply same_trans.
    + cbv beta. intros c2 Hh2 Hc2. by apply finishes_write.
  - apply finishes_ret_bind, finishes_write; [done|done|]. cbn [st_ctx]. rewrite Hs1. split; [done|by apply others_same].
Qed.
(** What a command does to a key that holds no string: it stops at its arguments,
    or answers WRONGTYPE and changes nothing. *)
Definition refuses (st : St) (h : Prep) : Prop :=
  match h with
  | Refuse _ _ => True
  | Accept _ runner => finishes runner st (WriteWrongType (st_w st)) (same (st_ctx st))
  | Crash => False
  end.

End StringLaws.

(** ** Examples

    A store with a string, a number and a list. *)
Module StringExample.
Import RefEngine.
#[export] Instance hash : Xxh3 := λ b, len b.
#[export] Instance floats : ParseFloat := λ b, float64_of <$> ParseInt64 b.
#[export] Instance floats_out : FormatFloat := λ f, FormatInt (int64_of_float f).
#[export] Instance clock_2001 : WallClock := {| valid_now := λ _, 10 ^ 18; run_now := 10 ^ 18; loop_now := λ _, 10 ^ 18 |}.

Definition text (b : bytes) : ReducedEffect :=
  mkReducedAt INSERT_OP SCALAR TYPE_STRING (Some (Raw b)) ∅ [] (Some (2 * 10 ^ 18)) ∅.
Definition a_list : ReducedEffect :=
  mkReduced INSERT_OP ORDERED TYPE_LIST None ∅ [mkElement [1] (Raw (str "x"))].
Definition store : Ctx :=
  holding {[ str "s" := text (str "hello"); str "n" := text (str "41"); str "l" := a_list ]}.
Definition st : St := mkSt store (NewWriter []) [].
Lemma store_healthy : healthy store.
Proof. exact I. Qed.

Lemma set_correct_witness :
  ∃ runner, handleSet [str "s"; str "bye"; str "keepttl"; str "IFEQ"; str "hello"; str "get"] = Accept [str "s"] runner ∧
    finishes runner st (WriteBulkString (str "hello") (NewWriter []))
      (now_text store (str "s") (str "bye") (Some (2 * 10 ^ 18))).
Proof.
  exact (set_correct (str "s") (str "bye") [str "keepttl"; str "IFEQ"; str "hello"; str "get"]
    (mkSetOpts 0 0 0 0 false false true false false false (str "hello") true true) st
    (Text (Some (Raw (str "hello"))) (Some (2 * 10 ^ 18))) I eq_refl eq_refl ltac:(done)).
Defined.

Lemma incr_correct_witness :
  finishes (incrBy (str "n") 1) st (WriteInteger 42 (NewWriter [])) (λ c',
    string_at (view c' (str "n")) = Some (Text (Some (IntVal 42)) (Some (2 * 10 ^ 18))) ∧ others store (str "n") c').
Proof.
  refine (proj2 (proj2 (proj2 (proj2 (incr_correct (str "n") (str "5") 5 41 (Some (2 * 10 ^ 18)) st I _ _ eq_refl _)))) 1 _).
  - right. eexists _, _. by split_and!.
  - widths; lia.
  - widths; lia.
  - widths; lia.
Defined.

Lemma append_setrange_correct_witness :
  ∃ append setr, handleAppend [str "s"; str "!!"] = Accept [str "s"] append ∧
    handleSetRange 100 [str "s"; str "7"; str "!!"] = Accept [str "s"] setr ∧
    finishes append st (WriteInteger 7 (NewWriter [])) (now_text store (str "s") (str "hello!!") (Some (2 * 10 ^ 18))) ∧
    finishes setr st (WriteInteger 9 (NewWriter []))
      (now_text store (str "s") (str "hello" ++ [0; 0] ++ str "!!") (Some (2 * 10 ^ 18))).
Proof.
  exact (append_setrange_correct (str "s") (str "!!") (str "7") 7 100 st
    (Text (Some (Raw (str "hello"))) (Some (2 * 10 ^ 18))) I eq_refl eq_refl ltac:(done) ltac:(done) ltac:(done)).
Defined.

Lemma getrange_correct_witness : getrange (-3) (-2) (str "hello") !! 1%nat = Some 108.
Proof.
  refine (eq_trans (getrange_correct (-3) (-2) (str "hello") 1 _ _ _) eq_refl); [widths; lia|widths; lia|].
  unfold len; cbn; widths; lia.
Defined.

Lemma msetnx_correct_witness :
  ∃ runner, handleMSetNX [str "l"; str "1"; str "b"; str "2"] = Accept [str "l"; str "b"] runner ∧
    finishes runner st (WriteOne (NewWriter [])) (stored [(str "l", str "1"); (str "b", str "2")] store).
Proof.
  refine (msetnx_correct [str "l"; str "1"; str "b"; str "2"] (str "l", str "1") [(str "b", str "2")]
    [Other; Absent] st I eq_refl _).
  repeat constructor.
Defined.

Lemma expire_wraps_into_past_witness :
  validateExpireSeconds (10 ^ 18) 10000000000 = true ∧
  ∃ t, computeExpiresAtMs 10000000000 0 0 0 = Some t ∧ t < run_now.
Proof. apply (expire_wraps_into_past (10 ^ 18) 10000000000); [by split; vm_compute|lia]. Defined.


Lemma getset_getdel_setnx_correct_witness :
  ∃ getset getdel setnx,
    handleGetSet [str "s"; str "v"] = Accept [str "s"] getset ∧ handleGetDel [str "s"] = Accept [str "s"] getdel ∧
    handleSetNX [str "s"; str "v"] = Accept [str "s"] setnx ∧
    (finishes getset st (WriteBulkString (str "hello") (NewWriter [])) (now_text store (str "s") (str "v") None) ∧
     finishes getdel st (WriteBulkString (str "hello") (NewWriter [])) (λ c',
       is_live (view c' (str "s")) = false ∧ others store (str "s") c')) ∧
    finishes setnx st (WriteZero (NewWriter [])) (same store).
Proof.
  exact (getset_getdel_setnx_correct (str "s") (str "v") st
    (Text (Some (Raw (str "hello"))) (Some (2 * 10 ^ 18))) I eq_refl).
Defined.

(** LCS of two strings, with the ranges of the common parts. *)
Example lcs_example : computeLCS (str "ohmytext") (str "mynewtext") =
  Some (str "mytext", 6, [mkMatch 4 7 5 8 4; mkMatch 2 3 0 1 2]).
Proof. vm_compute. reflexivity. Qed.
End StringExample.
