(* ===== verification/KeyProps.v ===== *)
(** * What the expiry commands do *)

From Stdlib Require Import SpecFloat.
From S2P Require Import Prelude GoBytes Strconv Floats Commands Writer Engine Runs Bitmap Sets Strings StringTheorems Keys.

Local Open Scope Z_scope.

(** ** The conditions *)

(** NX asks for no expiry, XX for one, GT for an earlier or equal one, LT for
    none or a later or equal one. *)
Lemma shouldSetExpire_spec (new : Timestamp) (current : option Timestamp) (o : ExpireOpts) :
  shouldSetExpire new current o = true ↔
  (eo_nx o = true → current = None) ∧ (eo_xx o = true → current ≠ None) ∧
  (eo_gt o = true → ∃ t, current = Some t ∧ t <= new) ∧
  (eo_lt o = true → ∀ t, current = Some t → new <= t).
Proof.
  unfold shouldSetExpire. destruct o as [nx xx gt lt], current as [t|]; cbn [eo_nx eo_xx eo_gt eo_lt is_nil negb].
  - destruct nx, xx, gt, lt; cbn; destruct (Z.ltb_spec new t), (Z.ltb_spec t new); cbn;
      (split; [intros Hf; try done|intros (Hn & Hx & Hg & Hl)]); try done;
      try (split_and!; intros ?; try done; try (by eexists; split; [reflexivity|lia]);
           intros ? [= <-]; lia);
      try (by specialize (Hn eq_refl));
      try (destruct (Hg eq_refl) as (? & [= <-] & ?); lia);
      try (specialize (Hl eq_refl t eq_refl); lia).
  - destruct nx, xx, gt, lt; cbn; (split; [intros Hf; try done|intros (Hn & Hx & Hg & Hl)]); try done;
      try (by split_and!); try (by destruct (Hx eq_refl)); by destruct (Hg eq_refl) as (? & ? & _).
Qed.

Section ExpiryLaws.
Context `{EngineLaws} `{Xxh3} `{WallClock}.

(** ** Setting an expiry *)

Lemma live_view c key r : view c key = Some r → is_live (view c key) = true →
  live_snapshot (view c key) = Some r.
Proof.
  intros Hv Hl. rewrite Hv in *. unfold live_snapshot. rewrite is_live_remove in Hl. by destruct (bool_decide _).
Qed.
Lemma dead_view c key : is_live (view c key) = false → live_snapshot (view c key) = None.
Proof.
  intros Hl. unfold live_snapshot. destruct (view c key) as [r|]; [|done]. rewrite is_live_remove in Hl.
  by destruct (bool_decide _).
Qed.

Lemma steps_any_tips key st : healthy (st_ctx st) →
  ∃ tips, steps (getAnySnapshotWithTips key) st (live_snapshot (view (st_ctx st) key), tips) (same (st_ctx st)).
Proof.
  intros Hh. destruct (steps_get key st Hh) as [tips Hg]. exists tips. eapply steps_bind; [exact Hg|].
  cbv beta iota. intros c' Hh' Hs. by apply (steps_ret _ (mkSt c' _ _)).
Qed.

Lemma steps_any key st : healthy (st_ctx st) →
  steps (getAnySnapshot key) st (live_snapshot (view (st_ctx st) key)) (same (st_ctx st)).
Proof.
  intros Hh. destruct (steps_get key st Hh) as [tips Hg]. eapply steps_bind; [exact Hg|].
  cbv beta iota. intros c' Hh' Hs. by apply (steps_ret _ (mkSt c' _ _)).
Qed.

(** The tail of EXPIRE and PERSIST: the expiry of a key changed inside a
    transaction. *)
Lemma change_expiry key tips e r st c : healthy (st_ctx st) → same c (st_ctx st) → view c key = Some r →
  finishes (_ ← begin_string key tips; _ ← emitStringTTL key e; write WriteOne) st (WriteOne (st_w st))
    (λ c', view c' key = Some (set_expiry e r) ∧ others c key c').
Proof.
  intros Hh Hc Hr. eapply finishes_bind; [by apply steps_begin_string|]. cbv beta. intros c1 Hh1 Hs1.
  eapply finishes_bind; [apply (steps_ttl key e (mkSt c1 _ _) r Hh1)|].
  - cbn [st_ctx]. by rewrite Hs1, Hc.
  - cbn [st_ctx st_w]. intros c2 Hh2 [Hv2 Ho2]. apply finishes_write; [done|done|]. split; [done|].
    eapply others_trans; [|exact Ho2]. apply others_same. by eapply same_trans.
Qed.

Lemma expire_run key (past : bool) new o st : healthy (st_ctx st) →
  match live_snapshot (view (st_ctx st) key) with
  | None => finishes (expire_runner key past new o) st (WriteZero (st_w st)) (same (st_ctx st))
  | Some r =>
    if past
    then finishes (expire_runner key past new o) st (WriteOne (st_w st)) (λ c',
           is_live (view c' key) = false ∧ others (st_ctx st) key c')
    else if shouldSetExpire new (re_ExpiresAt r) o
    then finishes (expire_runner key past new o) st (WriteOne (st_w st)) (λ c',
           view c' key = Some (set_expiry (Some new) r) ∧ others (st_ctx st) key c')
    else finishes (expire_runner key past new o) st (WriteZero (st_w st)) (same (st_ctx st))
  end.
Proof.
  intros Hh. destruct (steps_any_tips key st Hh) as [tips Hg].
  destruct (live_snapshot (view (st_ctx st) key)) as [r|] eqn:El.
  2:{ eapply finishes_bind; [exact Hg|]. cbv beta iota. intros c' Hh' Hs. by apply finishes_reply. }
  assert (Hv : view (st_ctx st) key = Some r).
  { unfold live_snapshot in El. destruct (view (st_ctx st) key) as [r'|]; [|done]. by case_bool_decide. }
  destruct past; [|destruct (shouldSetExpire new (re_ExpiresAt r) o) eqn:Es];
    (eapply finishes_bind; [exact Hg|]); cbv beta iota; intros c1 Hh1 Hs1.
  - eapply finishes_bind; [by apply (steps_delete_string key _ (mkSt c1 _ _))|]. cbn [st_ctx].
    intros c2 Hh2 [Hd Ho]. apply finishes_reply; [done|done|]. split; [done|].
    eapply others_trans; [|exact Ho]. by apply others_same.
  - unfold finalExpire. rewrite Es. cbn [negb]. by apply (change_expiry key tips (Some new) r (mkSt c1 _ _)).
  - unfold finalExpire. rewrite Es. cbn [negb]. by apply finishes_reply.
Qed.

Lemma validate_millis_in_range now n : 0 <= UnixMilli now <= 10 ^ 15 → - 10 ^ 13 <= n <= 10 ^ 13 →
  validateExpireMillisRelative now n = true.
Proof.
  intros Hnow Hn. unfold validateExpireMillisRelative. rewrite (i64_id (MaxInt64 - _)) by (widths; lia).
  rewrite (proj2 (Z.ltb_ge (MaxInt64 - _) n)) by (widths; lia). rewrite andb_false_r.
  destruct (Z.ltb_spec n 0); [|done]. rewrite i64_id by (widths; lia). cbn [andb].
  by rewrite (proj2 (Z.ltb_ge _ _)) by (widths; lia).
Qed.

Lemma validate_seconds_in_range now n : 0 <= UnixMilli now <= 10 ^ 15 → - 10 ^ 10 <= n <= 10 ^ 10 →
  validateExpireSecondsRelative now n = true.
Proof.
  intros Hnow Hn. unfold validateExpireSecondsRelative, maxExpireSeconds.
  rewrite !(proj2 (Z.ltb_ge _ _)) by lia. cbn [orb]. rewrite (i64_id (n * 1000)) by (widths; lia).
  apply (validate_millis_in_range now (n * 1000)); lia.
Qed.

(** A live key and what the expiry commands make of it: a time that has passed
    deletes it, whatever the options; otherwise the expiry is set exactly when
    the options allow it.  [r] is the key's state, [new] the time asked for. *)
Definition expires (st : St) (key : bytes) (r : ReducedEffect) (past : bool) (new : Timestamp) (o : ExpireOpts)
    (runner : M unit) : Prop :=
  if past
  then finishes runner st (WriteOne (st_w st)) (λ c',
         is_live (view c' key) = false ∧ others (st_ctx st) key c')
  else if shouldSetExpire new (re_ExpiresAt r) o
  then finishes runner st (WriteOne (st_w st)) (λ c',
         view c' key = Some (set_expiry (Some new) r) ∧ others (st_ctx st) key c')
  else finishes runner st (WriteZero (st_w st)) (same (st_ctx st)).

(** EXPIRE, PEXPIRE, EXPIREAT and PEXPIREAT on a live key set the expiry the
    command asks for when its options allow it, delete the key when the time has
    passed, and leave its value and every other key alone. *)
Theorem expire_correct (key t : bytes) (opts : list bytes) (n : Z) (o : ExpireOpts) (r : ReducedEffect) (st : St) :
  healthy (st_ctx st) → view (st_ctx st) key = Some r → is_live (Some r) = true →
  ParseInt64 t = Some n → parseExpireOptions opts = Ok o → 0 <= run_now → 0 <= UnixMilli run_now <= 10 ^ 15 →
  0 <= UnixMilli (valid_now 0) <= 10 ^ 15 → - 10 ^ 9 <= n <= 9 * 10 ^ 9 →
  ∃ expire pexpire expireat pexpireat,
    handleExpire (key :: t :: opts) = Accept [key] expire ∧
    handlePExpire (key :: t :: opts) = Accept [key] pexpire ∧
    handleExpireAt (key :: t :: opts) = Accept [key] expireat ∧
    handlePExpireAt (key :: t :: opts) = Accept [key] pexpireat ∧
    expires st key r (n <? 0) (run_now + of_seconds n) o expire ∧
    expires st key r (n <? 0) (of_millis (UnixMilli run_now + n)) o pexpire ∧
    expires st key r (n * 1000 <=? UnixMilli run_now) (of_seconds n) o expireat ∧
    expires st key r (n <=? UnixMilli run_now) (of_millis n) o pexpireat.
Proof.
  intros Hh Hv Hl Hp Ho Hr0 Hr Hvn Hn.
  assert (Hsec : Duration n 1000000000 = of_seconds n) by (unfold Duration, of_seconds; apply i64_id; widths; lia).
  assert (Hm : i64 (n * 1000) = n * 1000) by (apply i64_id; widths; lia).
  assert (Hpm : i64 (UnixMilli run_now + n) = UnixMilli run_now + n) by (apply i64_id; widths; lia).
  assert (Hos : of_millis (n * 1000) = of_seconds n) by (unfold of_millis, of_seconds; lia).
  unfold handleExpire, handlePExpire, handleExpireAt, handlePExpireAt, expire_prep. rewrite Hp, Ho.
  rewrite Hsec, Hm, Hpm, Hos.
  rewrite validate_seconds_in_range, validate_millis_in_range by lia.
  assert (validateExpireAtSecondsRelative n = true) as ->.
  { unfold validateExpireAtSecondsRelative, maxExpireSeconds. by rewrite !(proj2 (Z.ltb_ge _ _)) by lia. }
  cbn [negb]. do 4 eexists. do 4 (split; [reflexivity|]). unfold expires.
  pose proof (live_view (st_ctx st) key r Hv) as Hls. rewrite Hv in Hls. specialize (Hls Hl).
  split_and!; match goal with |- context [expire_runner key ?p ?e o] =>
    pose proof (expire_run key p e o st Hh) as He; by rewrite Hv, Hls in He end.
Qed.

(** ** Reading and clearing it *)

Lemma read_expiry_run key found st : healthy (st_ctx st) →
  finishes (read_expiry key found) st
    (match live_snapshot (view (st_ctx st) key) with
     | None => WriteInteger (-2)
     | Some r => match re_ExpiresAt r with None => WriteInteger (-1) | Some t => found t end
     end (st_w st)) (same (st_ctx st)).
Proof.
  intros Hh. eapply finishes_bind; [by apply steps_any|]. cbv beta. intros c' Hh' Hs.
  destruct (live_snapshot _) as [r|]; [|by apply finishes_reply].
  destruct (re_ExpiresAt r); [by apply finishes_write|by apply finishes_reply].
Qed.

Lemma ttl_reply_millis (later : WallClock) ms : 0 <= @run_now later → ms <= 9 * 10 ^ 12 →
  @ttl_reply later (λ d, Z.quot d 1000000) (of_millis ms) =
  WriteInteger (if @run_now later <? of_millis ms then (of_millis ms - @run_now later) / 1000000 else -2).
Proof.
  intros Hr Hm. unfold ttl_reply, saturate. rewrite Z.min_r by (unfold of_millis in *; widths; lia).
  destruct (Z.ltb_spec (@run_now later) (of_millis ms)) as [Hlt|Hge].
  - rewrite Z.max_r by (widths; lia). rewrite (proj2 (Z.leb_gt _ 0)) by lia. by rewrite Z.quot_div_nonneg by lia.
  - by rewrite (proj2 (Z.leb_le _ 0)) by (widths; lia).
Qed.

(** PEXPIREAT followed by PTTL, whenever PTTL runs: the milliseconds from its
    clock's reading to the time given, rounded down, and -2 once that time is
    reached. *)
Theorem pexpireat_pttl_roundtrip (later : WallClock) (key t : bytes) (ms : Z) (r : ReducedEffect) (st : St) (w : Writer) :
  healthy (st_ctx st) → view (st_ctx st) key = Some r → is_live (Some r) = true →
  ParseInt64 t = Some ms → 0 <= @run_now later → UnixMilli run_now < ms → ms <= 9 * 10 ^ 12 →
  ∃ set get, handlePExpireAt [key; t] = Accept [key] set ∧ @handlePTTL _ later [key] = Accept [key] get ∧
    finishes set st (WriteOne (st_w st)) (λ c',
      finishes get (mkSt c' w (st_held st))
        (WriteInteger (if @run_now later <? of_millis ms then (of_millis ms - @run_now later) / 1000000 else -2) w)
        (same c')).
Proof.
  intros Hh Hv Hl Hp Hr Hms Hm. do 2 eexists. split; [cbn; by rewrite Hp|]. split; [reflexivity|].
  pose proof (expire_run key (ms <=? UnixMilli run_now) (of_millis ms) (mkExpireOpts false false false false) st Hh) as He.
  rewrite (live_view _ _ r Hv) in He by by rewrite Hv.
  rewrite (proj2 (Z.leb_gt _ _) Hms) in *.
  replace (shouldSetExpire (of_millis ms) (re_ExpiresAt r) _) with true in He by by destruct (re_ExpiresAt r).
  destruct He as (o & c' & E & Ho & Hh' & Hv' & _). exists o, c'. split_and!; try done.
  pose proof (read_expiry_run key (@ttl_reply later (λ d, Z.quot d 1000000)) (mkSt c' w (st_held st)) Hh') as Hg.
  cbn [st_ctx st_w] in Hg. rewrite Hv' in Hg. unfold live_snapshot in Hg. cbn [set_expiry re_Op re_ExpiresAt] in Hg.
  rewrite is_live_remove in Hl. destruct (bool_decide (re_Op r = REMOVE_OP)); [done|]. cbn [re_ExpiresAt] in Hg.
  change (re_ExpiresAt (set_expiry _ r)) with (Some (of_millis ms)) in Hg. cbv iota in Hg.
  by rewrite ttl_reply_millis in Hg.
Qed.

(** PERSIST clears the expiry of a key that has one, keeps its value, and
    answers 1; otherwise it answers 0 and changes nothing. *)
Theorem persist_correct (key : bytes) (st : St) : healthy (st_ctx st) →
  ∃ runner, handlePersist [key] = Accept [key] runner ∧
    match live_snapshot (view (st_ctx st) key) with
    | Some r =>
      if is_nil (re_ExpiresAt r) then finishes runner st (WriteZero (st_w st)) (same (st_ctx st))
      else finishes runner st (WriteOne (st_w st)) (λ c',
             view c' key = Some (set_expiry None r) ∧ others (st_ctx st) key c')
    | None => finishes runner st (WriteZero (st_w st)) (same (st_ctx st))
    end.
Proof.
  intros Hh. eexists. split; [reflexivity|]. destruct (steps_any_tips key st Hh) as [tips Hg].
  destruct (live_snapshot (view (st_ctx st) key)) as [r|] eqn:El.
  2:{ eapply finishes_bind; [exact Hg|]. cbv beta iota. intros c' Hh' Hs. by apply finishes_reply. }
  assert (Hv : view (st_ctx st) key = Some r).
  { unfold live_snapshot in El. destruct (view (st_ctx st) key) as [r'|]; [|done]. by case_bool_decide. }
  destruct (re_ExpiresAt r) as [e|] eqn:Ee; cbn [is_nil]; (eapply finishes_bind; [exact Hg|]); cbv beta iota;
    intros c1 Hh1 Hs1; cbn [mbind option_bind]; rewrite Ee.
  - by apply (change_expiry key tips None r (mkSt c1 _ _)).
  - by apply finishes_reply.
Qed.

(** ** Where the code departs from its description *)

(** EXPIRETIME answers milliseconds and PEXPIRETIME seconds: the units are
    exchanged. *)
Theorem expiretime_units_swapped (key : bytes) (ms : Z) (r : ReducedEffect) (st : St) :
  healthy (st_ctx st) → view (st_ctx st) key = Some r → is_live (Some r) = true →
  re_ExpiresAt r = Some (of_millis ms) → is_i64 ms → run_now <= of_millis ms →
  ∃ expiretime pexpiretime,
    handleExpireTime [key] = Accept [key] expiretime ∧ handlePExpireTime [key] = Accept [key] pexpiretime ∧
    finishes expiretime st (WriteInteger ms (st_w st)) (same (st_ctx st)) ∧
    finishes pexpiretime st (WriteInteger (ms / 1000) (st_w st)) (same (st_ctx st)).
Proof.
  intros Hh Hv Hl He Hi Hr. do 2 eexists. do 2 (split; [reflexivity|]).
  pose proof (live_view (st_ctx st) key r Hv) as Hls. rewrite Hv in Hls. specialize (Hls Hl).
  assert (Hu : Time_UnixMilli (of_millis ms) = ms) by (unfold Time_UnixMilli, of_millis; rewrite Z.div_mul by done; by apply i64_id).
  split; [pose proof (read_expiry_run key (time_reply Time_UnixMilli) st Hh) as Hg
         |pose proof (read_expiry_run key (time_reply (λ t, t / 1000000000)) st Hh) as Hg];
    rewrite Hv, Hls, He in Hg; unfold time_reply in Hg; rewrite (proj2 (Z.ltb_ge _ _) Hr) in Hg; [by rewrite Hu in Hg|].
  replace (of_millis ms / 1000000000) with (ms / 1000) in Hg; [done|].
  unfold of_millis. rewrite (Z.mul_comm ms). replace 1000000000 with (1000000 * 1000) by done.
  rewrite <- Z.div_div by lia. by rewrite (Z.mul_comm 1000000), Z.div_mul.
Qed.

(** GT and LT let an equal expiry pass. *)
Theorem equal_expiry_passes (t : Timestamp) :
  shouldSetExpire t (Some t) (mkExpireOpts false false true false) = true ∧
  shouldSetExpire t (Some t) (mkExpireOpts false false false true) = true.
Proof. unfold shouldSetExpire. cbn. by rewrite Z.ltb_irrefl. Qed.
End ExpiryLaws.

(** ** Examples *)
Module ExpiryExample.
Import RefEngine StringExample.

Lemma expire_correct_witness :
  ∃ runner, handleExpire [str "s"; str "100"; str "lt"] = Accept [str "s"] runner ∧
    expires st (str "s") (text (str "hello")) (100 <? 0) (run_now + of_seconds 100)
      (mkExpireOpts false false false true) runner.
Proof.
  destruct (expire_correct (str "s") (str "100") [str "lt"] 100 (mkExpireOpts false false false true)
    (text (str "hello")) st store_healthy eq_refl eq_refl eq_refl eq_refl) as (r & _ & _ & _ & Hr & _ & _ & _ & He & _).
  - done.
  - by split; vm_compute.
  - by split; vm_compute.
  - lia.
  - exists r. split; [exact Hr|exact He].
Defined.

Definition later : WallClock := {| valid_now := λ _, 10 ^ 18 + 3 * 10 ^ 9; run_now := 10 ^ 18 + 3 * 10 ^ 9;
  loop_now := λ _, 10 ^ 18 + 3 * 10 ^ 9 |}.

Lemma pexpireat_pttl_roundtrip_witness :
  ∃ set get, handlePExpireAt [str "s"; str "1000000005000"] = Accept [str "s"] set ∧
    @handlePTTL _ later [str "s"] = Accept [str "s"] get ∧
    finishes set st (WriteOne (NewWriter [])) (λ c',
      finishes get (mkSt c' (NewWriter []) []) (WriteInteger 2000 (NewWriter [])) (same c')).
Proof.
  apply (pexpireat_pttl_roundtrip later (str "s") (str "1000000005000") 1000000005000 (text (str "hello")) st
    (NewWriter []) store_healthy eq_refl eq_refl eq_refl); [by vm_compute|by vm_compute|lia].
Defined.

Lemma expiretime_units_swapped_witness :
  ∃ expiretime pexpiretime,
    handleExpireTime [str "s"] = Accept [str "s"] expiretime ∧
    handlePExpireTime [str "s"] = Accept [str "s"] pexpiretime ∧
    finishes expiretime st (WriteInteger 2000000000000 (NewWriter [])) (same store) ∧
    finishes pexpiretime st (WriteInteger 2000000000 (NewWriter [])) (same store).
Proof.
  apply (expiretime_units_swapped (str "s") 2000000000000 (text (str "hello")) st store_healthy eq_refl eq_refl eq_refl).
  - by split; vm_compute.
  - by vm_compute.
Defined.

Lemma persist_correct_witness :
  ∃ runner, handlePersist [str "s"] = Accept [str "s"] runner ∧
    finishes runner st (WriteOne (NewWriter [])) (λ c',
      view c' (str "s") = Some (set_expiry None (text (str "hello"))) ∧ others store (str "s") c').
Proof. exact (persist_correct (str "s") st store_healthy). Defined.
End ExpiryExample.

(** * What the key commands do *)


Section KeyLaws.
Context `{EngineLaws} `{Xxh3} `{FormatFloat} `{RangeOrder} `{!RangeOrderLaws}.

(** ** The keys of a stream *)

(** The keys named after [key]. *)
Definition sub_of (key k : bytes) : Prop := ∃ s, k = key ++ 1 :: s.
(** Only keys named after [key] have changed. *)
Definition subs_only (key : bytes) (c c' : Ctx) : Prop := ∀ k, ¬ sub_of key k → view c' k = view c k.

Lemma sub_key_sub key part name : sub_of key (sub_key key part name).
Proof. unfold sub_of, sub_key. eauto. Qed.

Lemma not_sub_self key : ¬ sub_of key key.
Proof. intros [s E]. apply (f_equal length) in E. rewrite length_app in E. simpl in E. lia. Qed.

Lemma tries_sub_emit key k kind tips c c0 : sub_of key k → healthy c → subs_only key c0 c →
  tries (try_emit (mkEffect k kind) tips) c tt (subs_only key c0).
Proof.
  intros Hk Hh Hs. eapply tries_weaken; [by apply tries_emit|]. cbv beta. intros c' _ [_ Ho] k' Hk'.
  rewrite Ho; [by apply Hs|]. by intros ->.
Qed.

(** Cleaning up after a stream always works and touches no other key. *)
Lemma tries_cleanup key c : healthy c → tries (cleanupStreamGroups key) c tt (subs_only key c).
Proof.
  intros Hh. unfold cleanupStreamGroups. cbv zeta.
  assert (Hread : ∀ k c1, healthy c1 → subs_only key c c1 →
    ∃ tips, tries (try_get k) c1 (view c1 k, tips) (subs_only key c)).
  { intros k c1 Hh1 Hs1. destruct (tries_get k c1 Hh1) as [tips Hg]. exists tips.
    eapply tries_weaken; [exact Hg|]. cbv beta. intros c2 _ Hs2 k' Hk'. by rewrite Hs2, Hs1. }
  destruct (Hread (group_key key registry_name) c Hh ltac:(done)) as [t1 Hg1].
  eapply tries_bind; [exact Hg1|]. cbv beta iota. intros c1 Hh1 Hs1.
  eapply tries_bind; [apply (tries_each _ _ _ (subs_only key c) Hh1 Hs1)|].
  { intros g c2 _ Hh2 Hs2. eapply tries_bind; [by apply (tries_sub_emit key _ _ _ _ c (sub_key_sub _ _ _))|].
    cbv beta. intros c3 Hh3 Hs3. by apply (tries_sub_emit key _ _ _ _ c (sub_key_sub _ _ _)). }
  cbv beta. intros c2 Hh2 Hs2.
  eapply tries_bind; [by apply (tries_sub_emit key _ _ _ _ c (sub_key_sub _ _ _))|]. cbv beta. intros c3 Hh3 Hs3.
  destruct (Hread (producer_key key registry_name) c3 Hh3 Hs3) as [t3 Hg3].
  eapply tries_bind; [exact Hg3|]. cbv beta iota. intros c4 Hh4 Hs4.
  eapply tries_bind; [apply (tries_each _ _ _ (subs_only key c) Hh4 Hs4)|].
  { intros p c5 _ Hh5 Hs5. by apply (tries_sub_emit key _ _ _ _ c (sub_key_sub _ _ _)). }
  cbv beta. intros c5 Hh5 Hs5.
  eapply tries_bind; [by apply (tries_sub_emit key _ _ _ _ c (sub_key_sub _ _ _))|]. cbv beta. intros c6 Hh6 Hs6.
  destruct (Hread (cfg_key key) c6 Hh6 Hs6) as [t6 Hg6].
  eapply tries_bind; [exact Hg6|]. cbv beta iota. intros c7 Hh7 Hs7.
  apply (tries_each _ _ _ (subs_only key c) Hh7 Hs7). intros id c8 _ Hh8 Hs8.
  apply (tries_sub_emit key _ _ _ _ c); [|done..]. unfold sub_of, cfg_key. eauto.
Qed.

(** ** DEL *)

Lemma tries_any key c : healthy c → ∃ tips, tries (try_any key) c (live_snapshot (view c key), tips) (same c).
Proof.
  intros Hh. destruct (tries_get key c Hh) as [tips Hg]. exists tips. eapply tries_bind; [exact Hg|].
  cbv beta iota. intros c' Hh' Hs. by apply tries_ret.
Qed.

Lemma tries_delete key tips c : healthy c →
  tries (try_delete key tips) c tt (λ c', is_live (view c' key) = false ∧ others c key c').
Proof.
  intros Hh. eapply tries_weaken; [by apply tries_emit|]. cbv beta. intros c' _ [Hv Ho]. split; [|done].
  rewrite Hv. by apply law_delete.
Qed.

Lemma live_snapshot_live s : is_Some (live_snapshot s) ↔ is_live s = true.
Proof.
  unfold live_snapshot. destruct s as [r|]; [|by split; [intros []|]]. rewrite is_live_remove.
  destruct (bool_decide _); cbn; [by split; [intros []|]|]. split; [done|eauto].
Qed.

(** The keys of the list that are live, each once. *)
Definition live_keys (c : Ctx) (gone keys : list bytes) : gset bytes :=
  filter (λ k, is_live (view c k) = true ∧ k ∉ gone) (list_to_set keys).

(** No key is named after another one. *)
Definition unrelated (keys : list bytes) : Prop := ∀ k k', k ∈ keys → k' ∈ keys → ¬ sub_of k k'.

(** What DEL of [keys] has done: the keys are gone, and nothing else is changed
    but what is named after one of them. *)
Definition deleted (keys : list bytes) (c c' : Ctx) : Prop :=
  (∀ k, k ∈ keys → is_live (view c' k) = false) ∧
  (∀ k, k ∉ keys → (∀ k', k' ∈ keys → ¬ sub_of k' k) → view c' k = view c k).

(** One more key. *)
Lemma deleted_step gone key c0 c c' : unrelated (gone ++ [key]) → deleted gone c0 c →
  is_live (view c' key) = false → (∀ k, k ≠ key → ¬ sub_of key k → view c' k = view c k) →
  deleted (gone ++ [key]) c0 c'.
Proof.
  intros Hu [Hd Hk] Hl Ho. split.
  - intros k [Hg|Hg]%elem_of_app; [|by apply list_elem_of_singleton in Hg as ->].
    destruct (decide (k = key)) as [->|Hne]; [done|]. rewrite Ho; [by apply Hd|done|].
    apply Hu; set_solver.
  - intros k [Hn1 Hn2]%not_elem_of_app Hs. rewrite Ho; [apply Hk; [done|]|..].
    + intros k' Hk'. refine (Hs k' _). apply elem_of_app. by left.
    + intros ->. apply Hn2. by apply list_elem_of_singleton.
    + refine (Hs key _). apply elem_of_app. right. by apply list_elem_of_singleton.
Qed.

Lemma live_keys_cons c gone key keys : is_live (view c key) = true → key ∉ gone →
  size (live_keys c gone (key :: keys)) = S (size (live_keys c (gone ++ [key]) keys)).
Proof.
  intros Hl Hg. assert (live_keys c gone (key :: keys) = {[ key ]} ∪ live_keys c (gone ++ [key]) keys) as ->.
  { apply set_eq. intros k. unfold live_keys. rewrite elem_of_union, !elem_of_filter, list_to_set_cons.
    rewrite elem_of_union, elem_of_singleton, not_elem_of_app. destruct (decide (k = key)) as [->|]; set_solver. }
  rewrite size_union; [by rewrite size_singleton|]. apply disjoint_singleton_l. unfold live_keys.
  rewrite elem_of_filter, not_elem_of_app. intros [[_ [_ Hn]] _]. apply Hn. by apply list_elem_of_singleton.
Qed.

Lemma live_keys_skip c gone key keys : is_live (view c key) = false ∨ key ∈ gone →
  live_keys c gone (key :: keys) = live_keys c (gone ++ [key]) keys.
Proof.
  intros Hd. apply set_eq. intros k. unfold live_keys. rewrite !elem_of_filter, list_to_set_cons.
  rewrite elem_of_union, elem_of_singleton, not_elem_of_app. destruct (decide (k = key)) as [->|]; [|set_solver].
  split; [|set_solver]. intros [[Hl Hn] _]. destruct Hd as [Hd|Hd]; [congruence|done].
Qed.

(** The rest of the loop, when [gone] are gone. *)
Lemma del_keys_spec c0 gone keys n c : unrelated (gone ++ keys) → healthy c → deleted gone c0 c →
  tries (del_keys keys n) c (n + Z.of_nat (size (live_keys c0 gone keys))) (deleted (gone ++ keys) c0).
Proof.
  revert gone n c. induction keys as [|key keys IH]; intros gone n c Hu Hh Hd.
  { cbn [del_keys]. assert (live_keys c0 gone [] = ∅) as -> 
      by (apply set_eq; intros k; unfold live_keys; rewrite elem_of_filter, list_to_set_nil; set_solver).
    rewrite size_empty, Z.add_0_r, app_nil_r.
    by apply tries_ret. }
  assert (Hu1 : unrelated (gone ++ [key])) by (intros k k' Hk Hk'; apply Hu; set_solver).
  replace (gone ++ key :: keys) with ((gone ++ [key]) ++ keys) in * by by rewrite <- app_assoc.
  cbn [del_keys]. destruct (tries_any key c Hh) as [tips Hg]. eapply tries_bind; [exact Hg|].
  cbv beta iota. intros c1 Hh1 Hs1.
  assert (Hd1 : deleted gone c0 c1) by (destruct Hd as [Ha Hb]; split; intros k; rewrite Hs1; [apply Ha|apply Hb]).
  destruct (live_snapshot (view c key)) as [r|] eqn:El.
  - assert (Hl : is_live (view c key) = true) by (apply live_snapshot_live; eauto).
    assert (Hng : key ∉ gone) by (intros Hk; apply (proj1 Hd) in Hk; congruence).
    assert (Hl0 : is_live (view c0 key) = true).
    { rewrite <- (proj2 Hd key Hng); [done|]. intros k' Hk'. apply Hu; set_solver. }
    rewrite (live_keys_cons c0 gone key keys Hl0 Hng).
    eapply tries_bind; [by apply tries_cleanup|]. cbv beta. intros c2 Hh2 Hs2.
    eapply tries_bind; [by apply tries_delete|]. cbv beta. intros c3 Hh3 [Hdead Ho3].
    replace (n + Z.of_nat (S _)) with (n + 1 + Z.of_nat (size (live_keys c0 (gone ++ [key]) keys))) by lia.
    apply IH; [done|done|]. eapply deleted_step; [done|exact Hd1|done|]. intros k Hk Hsub. by rewrite Ho3, Hs2.
  - assert (Hl : is_live (view c key) = false).
    { destruct (is_live (view c key)) eqn:E; [|done]. apply live_snapshot_live in E as [? E]. congruence. }
    rewrite live_keys_skip.
    + apply IH; [done|done|]. eapply deleted_step; [done|exact Hd1|by rewrite Hs1|done].
    + destruct (decide (key ∈ gone)) as [|Hng]; [by right|]. left.
      rewrite <- (proj2 Hd key Hng); [done|]. intros k' Hk'. apply Hu; set_solver.
Qed.

(** C27: DEL and UNLINK delete every key given, answer how many of them, counted
    once, were there, and change nothing else but the keys that belong to them
    as streams. *)
Theorem del_correct (cmd k : bytes) (ks : list bytes) (st : St) :
  healthy (st_ctx st) → unrelated (k :: ks) →
  ∃ runner, handleDel cmd (k :: ks) = Accept (k :: ks) runner ∧
    finishes runner st (WriteInteger (Z.of_nat (size (live_keys (st_ctx st) [] (k :: ks)))) (st_w st))
      (deleted (k :: ks) (st_ctx st)).
Proof.
  intros Hh Hu. eexists. split; [reflexivity|].
  eapply finishes_savepointed; [apply (del_keys_spec (st_ctx st) [] (k :: ks) 0); [done|done|]|].
  - split; [intros ? ?%not_elem_of_nil; done|done].
  - cbv beta. intros c' Hh' Hd. by apply finishes_write.
Qed.

(** EXISTS counts every key given that is there, a repeated one repeatedly, and
    changes nothing. *)
Theorem exists_correct (k : bytes) (ks : list bytes) (st : St) : healthy (st_ctx st) →
  ∃ runner, handleExists (k :: ks) = Accept (k :: ks) runner ∧
    finishes runner st
      (WriteInteger (len (filter (λ k, is_live (view (st_ctx st) k) = true) (k :: ks))) (st_w st)) (same (st_ctx st)).
Proof.
  intros Hh. eexists. split; [reflexivity|]. unfold exists_runner.
  assert (Hc : ∀ keys n c, healthy c → same (st_ctx st) c →
    steps (count_existing keys n) (mkSt c (st_w st) (st_held st))
      (n + len (filter (λ k, is_live (view (st_ctx st) k) = true) keys)) (same (st_ctx st))).
  { induction keys as [|key keys IH]; intros n c Hc Hs.
    - cbn [count_existing]. change (len _) with 0. rewrite Z.add_0_r. by apply (steps_ret _ (mkSt c _ _)).
    - cbn [count_existing]. eapply steps_bind; [by apply (steps_any key (mkSt c _ _))|]. cbn [st_ctx st_w st_held].
      intros c1 Hh1 Hs1. rewrite Hs, filter_cons.
      assert (Hs' : same (st_ctx st) c1) by by eapply same_trans.
      destruct (live_snapshot (view (st_ctx st) key)) as [r|] eqn:El.
      + rewrite decide_True by (apply live_snapshot_live; eauto).
        match goal with |- steps _ _ ?z _ => replace z with (n + 1 + len (filter (λ k, is_live (view (st_ctx st) k) = true) keys)) by (unfold len; simpl; lia) end.
        by apply IH.
      + rewrite decide_False; [by apply IH|]. intros E%live_snapshot_live. rewrite El in E. by destruct E. }
  eapply finishes_bind; [destruct st; by apply (Hc (k :: ks) 0)|]. cbv beta. intros c' Hh' Hs.
  by apply finishes_write.
Qed.

(** ** A value at another key *)

(** The keys whose copy is followed here: tagged, and with no expiry on a field
    without name.  A string is last written by SET or another whole write
    (LAST_WRITE_WINS), or is an integer that INCR or DECR last changed
    (ADDITIVE_INT); the fields of a set or hash are last written whole.  Float
    counters (INCRBYFLOAT) and hashes whose last write was HINCRBY or HINCRBYFLOAT,
    which have an additive rule too, are not followed. *)
Record copyable (r : ReducedEffect) : Prop := mkCopyable {
  cp_op : re_Op r = INSERT_OP;
  cp_tag : re_TypeTag r ≠ TYPE_UNSPECIFIED;
  cp_ordered : re_OrderedElements r = [];
  cp_kind :
    (GetMerge r = LAST_WRITE_WINS ∧ re_Collection r = SCALAR ∧ is_Some (re_Scalar r) ∧ re_NetAdds r = ∅ ∧ re_FieldExpires r = ∅) ∨
    (GetMerge r = ADDITIVE_INT ∧ re_Collection r = SCALAR ∧ (∃ n, re_Scalar r = Some (IntVal n) ∧ is_i64 n) ∧
       re_NetAdds r = ∅ ∧ re_FieldExpires r = ∅) ∨
    (GetMerge r = LAST_WRITE_WINS ∧ re_Collection r = KEYED ∧ re_Scalar r = None ∧ re_NetAdds r ≠ ∅);
  cp_fields : dom (re_FieldExpires r) ⊆ dom (re_NetAdds r);
  cp_named : re_FieldExpires r !! [] = None
}.

Lemma range_adds_keys r : (range_adds r).*1 = range_keys (dom (re_NetAdds r)).
Proof.
  unfold range_adds. assert (Hd : ∀ id, id ∈ range_keys (dom (re_NetAdds r)) → is_Some (re_NetAdds r !! id)).
  { intros id Hid. rewrite range_keys_perm in Hid. by apply elem_of_dom, elem_of_elements. }
  induction (range_keys (dom (re_NetAdds r))) as [|id ids IH]; [done|]. cbn.
  destruct (Hd id) as [v Hv]; [by left|]. rewrite Hv. cbn. f_equal. apply IH. intros id' Hid'. apply Hd. by right.
Qed.

Lemma range_adds_nodup r : NoDup (range_adds r).*1.
Proof. rewrite range_adds_keys, range_keys_perm. apply NoDup_elements. Qed.

Lemma range_adds_map r : list_to_map (range_adds r) = re_NetAdds r.
Proof.
  apply map_eq. intros id. apply option_eq. intros v. rewrite <- elem_of_list_to_map by apply range_adds_nodup.
  unfold range_adds. rewrite list_elem_of_omap. split.
  - intros (id' & _ & Hp). destruct (re_NetAdds r !! id') eqn:E; [|done]. cbn in Hp. by simplify_eq.
  - intros Hv. exists id. split; [|by rewrite Hv]. rewrite range_keys_perm. by apply elem_of_elements, elem_of_dom_2 with v.
Qed.

(** The expiries of the fields written so far. *)
Definition fields_of (ids : list bytes) (r : ReducedEffect) : gmap bytes Timestamp :=
  filter (λ kv, kv.1 ∈ ids) (re_FieldExpires r).

Lemma fields_of_snoc ids id r : id ∉ ids →
  fields_of (ids ++ [id]) r = partial_alter (λ _, re_FieldExpires r !! id) id (fields_of ids r).
Proof.
  intros Hn. apply map_eq. intros k. unfold fields_of. destruct (decide (k = id)) as [->|Hne].
  - rewrite lookup_partial_alter_eq. destruct (re_FieldExpires r !! id) as [e|] eqn:E.
    + apply map_lookup_filter_Some. split; [done|]. cbn. set_solver.
    + apply map_lookup_filter_None. by left.
  - rewrite lookup_partial_alter_ne by done. apply option_eq. intros e. rewrite !map_lookup_filter_Some.
    cbn. rewrite elem_of_app, list_elem_of_singleton. naive_solver.
Qed.

Lemma fields_of_none ids id r : id ∉ ids → fields_of ids r !! id = None.
Proof. intros Hn. apply map_lookup_filter_None. right. cbn. auto. Qed.

(** What [emitSnapshotAtKey] has made of the destination after some fields. *)
Definition partly (r : ReducedEffect) (dest : bytes) (c0 : Ctx) (done : list (bytes * Value)) (c : Ctx) : Prop :=
  others c0 dest c ∧
  match done with
  | [] => is_live (view c dest) = false
  | _ => ∃ tag, view c dest = Some (mkReducedAt INSERT_OP KEYED tag None (list_to_map done) [] None
                                      (fields_of done.*1 r))
  end.

Lemma reduce_field tag adds e fe id v : fe !! id = None →
  reduce (Some (mkReducedAt INSERT_OP KEYED tag None adds [] e fe)) (keyed_insert id v) =
  Some (Some (mkReducedAt INSERT_OP KEYED tag None (<[id := v]> adds) [] e fe)).
Proof. intros Hn. cbn. by rewrite Hn. Qed.

Lemma reduce_field_ttl tag adds x fe id e : id ≠ [] → is_Some (adds !! id) →
  reduce (Some (mkReducedAt INSERT_OP KEYED tag None adds [] x fe)) (Effect_Meta (field_ttl_meta id (Some e))) =
  Some (Some (mkReducedAt INSERT_OP KEYED tag None adds [] x (partial_alter (λ _, Some e) id fe))).
Proof. intros Hne Hs. destruct id as [|b id]; [done|]. cbn. by rewrite bool_decide_eq_true_2. Qed.

Lemma tries_element r dest c0 done id v c : copyable r → GetMerge r = LAST_WRITE_WINS → id ∉ done.*1 → healthy c → partly r dest c0 done c →
  tries (emit_element dest r (id, v)) c tt (partly r dest c0 (done ++ [(id, v)])).
Proof.
  intros Hr Hmg Hid Hh [Ho Hp]. unfold emit_element. rewrite Hmg. fold (keyed_insert id v).
  eapply (tries_bind _ _ _ _ (λ c', others c0 dest c' ∧ ∃ tag, view c' dest =
    Some (mkReducedAt INSERT_OP KEYED tag None (list_to_map (done ++ [(id, v)])) [] None (fields_of done.*1 r)))).
  - destruct done as [|p done].
    + eapply tries_weaken; [by apply tries_emit|]. cbv beta. intros c' _ [Hv Ho']. split; [by eapply others_trans|].
      destruct (law_revive dest id v [] c Hh Hp) as [tag Ht]. exists tag. rewrite Hv, Ht. cbn.
      do 2 f_equal. symmetry. apply map_eq. intros k. rewrite lookup_empty. apply fields_of_none. apply not_elem_of_nil.
    + destruct Hp as [tag Hv]. eapply tries_weaken; [apply tries_reduce; [done|]; rewrite Hv; by apply reduce_field, fields_of_none|].
      cbv beta. intros c' _ [Hv' Ho']. split; [by eapply others_trans|]. exists tag. rewrite Hv'. do 2 f_equal.
      symmetry. by apply list_to_map_snoc.
  - cbv beta. intros c1 Hh1 [Ho1 [tag Hv1]].
    assert (Hlast : (list_to_map (done ++ [(id, v)]) : gmap bytes Value) !! id = Some v).
    { rewrite list_to_map_snoc by done. by rewrite lookup_insert_eq. }
    destruct (re_FieldExpires r !! id) as [e|] eqn:Ef.
    + assert (Hne : id ≠ []) by (intros ->; by rewrite (cp_named r Hr) in Ef).
      eapply tries_weaken; [apply tries_reduce; [done|]; rewrite Hv1; by apply reduce_field_ttl; [|eexists]|].
      cbv beta. intros c2 _ [Hv2 Ho2]. split; [by eapply others_trans|].
      destruct (done ++ [(id, v)]) eqn:Ed; [by destruct done|]. rewrite <- Ed in *. exists tag. rewrite Hv2.
      do 2 f_equal. rewrite fmap_app. cbn [fmap list_fmap fst]. by rewrite fields_of_snoc, Ef.
    + apply tries_ret; [done|]. split; [done|]. destruct (done ++ [(id, v)]) eqn:Ed; [by destruct done|].
      rewrite <- Ed in *. exists tag. rewrite Hv1. do 2 f_equal. rewrite fmap_app. cbn [fmap list_fmap fst].
      rewrite fields_of_snoc, Ef by done. symmetry. exact (delete_id _ _ (fields_of_none _ _ r Hid)).
Qed.

Lemma tries_elements r dest c0 done l c : copyable r → GetMerge r = LAST_WRITE_WINS → NoDup (done ++ l).*1 → healthy c → partly r dest c0 done c →
  tries (try_each l (emit_element dest r)) c tt (partly r dest c0 (done ++ l)).
Proof.
  intros Hr Hmg. revert done c. induction l as [|[id v] l IH]; intros done c Hnd Hh Hp.
  { rewrite app_nil_r. by apply tries_ret. }
  cbn [try_each]. eapply tries_bind; [apply tries_element; [done|done| |done|done]|].
  - rewrite fmap_app in Hnd. apply NoDup_app in Hnd as (_ & Hd & _). intros Hin. apply (Hd id Hin). by left.
  - cbv beta. intros c1 Hh1 Hp1. replace (done ++ (id, v) :: l) with ((done ++ [(id, v)]) ++ l) in * by by rewrite <- app_assoc.
    by apply IH.
Qed.

(** The data of the value, before its tag and its expiry. *)
Lemma tries_data r dest c : copyable r → healthy c → is_live (view c dest) = false →
  tries (match re_Collection r with
       | SCALAR =>
         match re_Scalar r with
         | Some v => try_emit (mkEffect dest (Effect_Data
             (mkData INSERT_OP (GetMerge r) SCALAR PLACE_NONE [] [] (Some v)))) []
         | None => mret tt
         end
       | KEYED => try_each (range_adds r) (emit_element dest r)
       | ORDERED => try_each (re_OrderedElements r) (λ el,
           try_emit (mkEffect dest (Effect_Data
             (mkData INSERT_OP (GetMerge r) ORDERED PLACE_NONE [] (el_Id el) (Some (el_Value el))))) [])
       end) c tt
    (λ c', others c dest c' ∧ ∃ tag, view c' dest = Some (set_tag tag (set_expiry None r))).
Proof.
  intros Hr Hh Hl. destruct (cp_kind r Hr) as [(Hmg & Hc & [v Hv] & Ha & Hf)|[(Hmg & Hc & (n & Hv & Hn) & Ha & Hf)|(Hmg & Hc & Hs & Ha)]]; rewrite Hc.
  - rewrite Hv, Hmg. fold (scalar_insert v). eapply tries_weaken; [by apply tries_emit|].
    cbv beta. intros c' _ [Hv' Ho]. split; [done|]. destruct (law_overwrite dest v [] c Hh) as (tag & Ht & _).
    exists tag. rewrite Hv', Ht. unfold set_tag, set_expiry. cbn. by rewrite (cp_op r Hr), Hc, Hv, Ha, Hf, (cp_ordered r Hr).
  - rewrite Hv, Hmg. fold (scalar_add n). eapply tries_weaken; [by apply tries_emit|].
    cbv beta. intros c' _ [Hv' Ho]. split; [done|].
    destruct (law_add dest 0 n [] c Hh) as (tag & e & Ht & _ & He); [unfold scalar_int; destruct (view c dest); [|done]; by rewrite Hl|done|].
    assert (e = None) as -> by (destruct He as [|[Hl' _]]; [done|congruence]).
    exists tag. rewrite Hv', Ht. unfold set_tag, set_expiry. cbn. by rewrite (cp_op r Hr), Hc, Hv, Ha, Hf, (cp_ordered r Hr).
  - eapply tries_weaken; [apply (tries_elements r dest c []); [done|done|apply range_adds_nodup|done|by split]|].
    cbv beta. cbn [app]. intros c' _ [Ho Hp]. split; [done|]. destruct (range_adds r) as [|p l] eqn:El.
    { destruct Ha. rewrite <- (range_adds_map r), El. done. }
    rewrite <- El in Hp. destruct Hp as [tag Hp]. exists tag. rewrite Hp. unfold set_tag, set_expiry. cbn.
    rewrite (cp_op r Hr), Hc, Hs, (cp_ordered r Hr), range_adds_map, range_adds_keys. do 2 f_equal.
    apply map_filter_id. intros k e Hk. cbn. rewrite range_keys_perm. apply elem_of_elements, (cp_fields r Hr).
    by apply elem_of_dom_2 with e.
Qed.

(** [emitSnapshotAtKey] where nothing lives makes the key what it copies. *)
Lemma tries_snapshot r dest c : copyable r → healthy c → is_live (view c dest) = false →
  tries (emitSnapshotAtKey dest r) c tt (λ c', view c' dest = Some r ∧ others c dest c').
Proof.
  intros Hr Hh Hl. unfold emitSnapshotAtKey. eapply tries_bind; [by apply tries_data|]. cbv beta.
  intros c1 Hh1 [Ho1 [tag Hv1]]. rewrite (bool_decide_eq_false_2 (_ = TYPE_UNSPECIFIED)) by exact (cp_tag r Hr). cbn [negb].
  eapply tries_bind; [apply tries_reduce; [done|]; rewrite Hv1; cbn; unfold reduce_meta; cbn;
    rewrite bool_decide_eq_false_2 by exact (cp_tag r Hr); reflexivity|].
  cbv beta. intros c2 Hh2 [Hv2 Ho2]. destruct (re_ExpiresAt r) as [e|] eqn:Ee.
  - eapply tries_weaken; [apply tries_reduce; [done|]; rewrite Hv2; reflexivity|]. cbv beta. intros c3 _ [Hv3 Ho3].
    split; [|by eapply others_trans; [|exact Ho3]; eapply others_trans]. rewrite Hv3. cbn. destruct r. cbn in *. by subst.
  - apply tries_ret; [done|]. split; [|by eapply others_trans]. rewrite Hv2. cbn. destruct r. cbn in *. by subst.
Qed.

(** ** RENAME *)

Lemma tries_record_dest key tips c : healthy c → tries (record_dest key tips) c tt (same c).
Proof. intros Hh. unfold record_dest. destruct (0 <? len tips); [by apply tries_noop|by apply tries_ret]. Qed.

(** Nothing but the two keys has changed: [key] is gone and [newKey] is [r]. *)
Definition moved (key newKey : bytes) (r : ReducedEffect) (c c' : Ctx) : Prop :=
  is_live (view c' key) = false ∧ view c' newKey = Some r ∧
  ∀ k, k ≠ key → k ≠ newKey → view c' k = view c k.

Lemma tries_rename key newKey r tips c : copyable r → healthy c → key ≠ newKey →
  re_TypeTag r ≠ TYPE_STREAM → is_stream (live_snapshot (view c newKey)) = false →
  tries (rename_tx key newKey r tips) c tt (moved key newKey r c).
Proof.
  intros Hr Hh Hne Hst Hds. unfold rename_tx.
  eapply tries_bind; [by apply tries_begin|]. cbv beta. intros c1 Hh1 Hs1.
  eapply tries_bind; [by apply tries_noop|]. cbv beta. intros c2 Hh2 Hs2.
  assert (H2' : same c c2) by by eapply same_trans.
  destruct (tries_any newKey c2 Hh2) as [dt Hg]. eapply tries_bind; [exact Hg|]. cbv beta iota. intros c3 Hh3 Hs3.
  rewrite H2' in *. eapply tries_bind; [by apply tries_record_dest|]. cbv beta. intros c4 Hh4 Hs4.
  assert (H4' : same c c4) by (intros k; by rewrite Hs4, Hs3, H2').
  eapply tries_bind; [by apply tries_delete|]. cbv beta. intros c5 Hh5 [Hd5 Ho5].
  eapply tries_bind; [by apply tries_delete|]. cbv beta. intros c6 Hh6 [Hd6 Ho6].
  eapply tries_bind; [by apply tries_snapshot|]. cbv beta. intros c7 Hh7 [Hv7 Ho7].
  unfold is_stream at 1. rewrite (bool_decide_eq_false_2 (_ = TYPE_STREAM)) by done. rewrite Hds.
  apply tries_ret; [done|]. split; [by rewrite Ho7, Ho6|]. split; [done|].
  intros k Hk Hk'. by rewrite Ho7, Ho6, Ho5, H4'.
Qed.

(** C16: RENAME moves a string, an integer counter, a set or a hash with its tag, its
    expiry and the expiries of its fields to the new name, over whatever was there
    (other than a stream), and touches no other key; onto itself it changes nothing,
    and without the old name it is refused.  The value is one that [copyable]
    admits: a float counter, and a hash that HINCRBY or HINCRBYFLOAT wrote last, have
    an additive merge rule and are not covered, nor are lists and streams. *)
Theorem rename_correct (key newKey : bytes) (st : St) : healthy (st_ctx st) →
  is_stream (live_snapshot (view (st_ctx st) newKey)) = false →
  ∃ runner, handleRename [key; newKey] = Accept [key; newKey] runner ∧
    match live_snapshot (view (st_ctx st) key) with
    | None => finishes runner st (WriteError no_such_key (st_w st)) (same (st_ctx st))
    | Some r => copyable r → re_TypeTag r ≠ TYPE_STREAM →
      finishes runner st (WriteOK (st_w st))
        (if decide (key = newKey) then same (st_ctx st) else moved key newKey r (st_ctx st))
    end.
Proof.
  intros Hh Hds. eexists. split; [reflexivity|]. destruct (steps_any_tips key st Hh) as [tips Hg].
  destruct (live_snapshot (view (st_ctx st) key)) as [r|] eqn:El.
  2:{ eapply finishes_bind; [exact Hg|]. cbv beta iota. intros c' Hh' Hs. by apply finishes_reply. }
  intros Hr Hst. eapply finishes_bind; [exact Hg|]. cbv beta iota. intros c1 Hh1 Hs1.
  unfold beq. case_bool_decide as Hk.
  - rewrite decide_True by done. by apply finishes_reply.
  - rewrite decide_False by done.
    eapply finishes_savepointed; [apply tries_rename; try done; cbn [st_ctx]; by rewrite Hs1|].
    cbv beta. intros c2 Hh2 (Hd & Hv & Ho). apply finishes_write; [done|done|]. split_and!; [done|done|].
    intros k Hk1 Hk2. cbn [st_ctx] in *. by rewrite Ho, Hs1.
Qed.
End KeyLaws.

(** ** Examples *)
Module KeyExample.
Import RefEngine StringExample.
#[export] Instance key_order : RangeOrder := elements.
#[export] Instance key_order_laws : RangeOrderLaws.
Proof. intros X. reflexivity. Qed.

Lemma not_sub_short (k k' : bytes) : (length k' <= length k)%nat → ¬ sub_of k k'.
Proof. intros Hl [s E]. apply (f_equal length) in E. rewrite length_app in E. simpl in E. lia. Qed.

Lemma del_correct_witness :
  ∃ runner, handleDel (str "del") [str "s"; str "x"; str "s"; str "l"] = Accept [str "s"; str "x"; str "s"; str "l"] runner ∧
    finishes runner st (WriteInteger (Z.of_nat (size (live_keys store [] [str "s"; str "x"; str "s"; str "l"]))) (NewWriter []))
      (deleted [str "s"; str "x"; str "s"; str "l"] store).
Proof.
  apply (del_correct (str "del") (str "s") [str "x"; str "s"; str "l"] st store_healthy).
  intros k k' Hk Hk'. apply not_sub_short. rewrite !elem_of_cons in Hk, Hk'.
  destruct Hk as [->|[->|[->|[->|[]%not_elem_of_nil]]]], Hk' as [->|[->|[->|[->|[]%not_elem_of_nil]]]]; done.
Defined.

Lemma rename_correct_witness :
  ∃ runner, handleRename [str "s"; str "l"] = Accept [str "s"; str "l"] runner ∧
    finishes runner st (WriteOK (NewWriter [])) (moved (str "s") (str "l") (text (str "hello")) store).
Proof.
  destruct (rename_correct (str "s") (str "l") st store_healthy eq_refl) as (runner & Hr & Hrun). exists runner. split; [done|].
  change (live_snapshot (view (st_ctx st) (str "s"))) with (Some (text (str "hello"))) in Hrun. cbv iota in Hrun.
  rewrite decide_False in Hrun by done. apply Hrun; [|done].
  constructor; try done. left. by split_and!; [| |eexists| |].
Defined.
End KeyExample.
