(* ===== verification/HashTtlProps.v ===== *)
(** * What the commands on field expiries do *)

From S2P Require Import Prelude GoBytes Strconv Floats Commands Writer Engine Runs Sets SetProps Strings StringTheorems Keys KeyProps Hashes HashTtl HashTheorems.

Local Open Scope Z_scope.

(** The replies of these commands: an array of integers. *)
Definition write_codes (codes : list Z) (w : Writer) : Writer :=
  foldl (λ w n, WriteInteger n w) (WriteArray (len codes) w) codes.

(** The expiries a handler can tell from none: those after the zero time. *)
Definition after_zero (e : gmap bytes Timestamp) : Prop := ∀ f (t : Timestamp), e !! f = Some t → zero_time < t.

Section HashTtlRuns.
Context `{EngineLaws} `{FormatFloat} `{RangeOrderLaws} `{UnicodeCase} `{WallClock}.

(** From [c], the hash [m] has the expiries [e'] and nothing else is different. *)
Record timed (c : Ctx) (key : bytes) (m : gmap bytes Value) (e' : gmap bytes Timestamp) (c' : Ctx) : Prop := {
  timed_hash : is_hash (view c' key) m e';
  timed_attrs : attrs (view c' key) = attrs (view c key);
  timed_others : others c key c'
}.

Lemma timed_trans c key m e m2 e2 c' c'' : timed c key m e c' → timed c' key m2 e2 c'' → timed c key m2 e2 c''.
Proof. intros [Ha Ta Oa] [Hb Tb Ob]. split; [done|by rewrite Tb|by eapply others_trans]. Qed.

Lemma same_timed c c1 key m e c' : same c c1 → timed c1 key m e c' → timed c key m e c'.
Proof. intros Hs [Ha Ta Oa]. split; [done|by rewrite Ta, Hs|]. intros k Hk. by rewrite Oa, Hs. Qed.

Lemma steps_field_meta key f x st m e : healthy (st_ctx st) → is_hash (view (st_ctx st) key) m e →
  is_Some (m !! f) → f ≠ [] →
  steps (emit (mkEffect key (Effect_Meta (field_ttl_meta f x))) []) st tt
    (timed (st_ctx st) key m (partial_alter (λ _, x) f e)).
Proof.
  intros Hh Hx Hf Hne. destruct (is_live (view (st_ctx st) key)) eqn:El.
  2: { destruct (is_hash_dead _ _ _ El Hx) as [-> _]. rewrite lookup_empty in Hf. by destruct Hf. }
  destruct (is_hash_live _ _ _ El Hx) as (r & Hr & Hk & <- & <-).
  assert (Hred : reduce (view (st_ctx st) key) (Effect_Meta (field_ttl_meta f x)) = Some (Some (set_field_expiry f x r))).
  { rewrite Hr. cbn [reduce]. unfold reduce_meta. cbn [field_ttl_meta me_ElementId me_ExpiresAt].
    destruct f; [done|]. by rewrite bool_decide_eq_true_2. }
  eapply steps_weaken; [by apply steps_reduce|]. cbv beta. intros c' [Hv Ho]. split; [|by rewrite Hv, Hr|done].
  rewrite Hv. rewrite Hr in El. unfold is_hash. cbn [is_live set_field_expiry re_Op] in *. by rewrite El.
Qed.

(** ** HEXPIRE and its relatives *)

(** The answer for a field, and the expiries afterwards. *)
Definition settable (o : ExpireOpts) (t : Timestamp) (m : gmap bytes Value) (e : gmap bytes Timestamp) (f : bytes) : bool :=
  bool_decide (is_Some (m !! f)) && negb (field_refused o (default zero_time (e !! f)) t).
Definition expire_code (o : ExpireOpts) (t : Timestamp) (m : gmap bytes Value) (e : gmap bytes Timestamp) (f : bytes) : Z :=
  if bool_decide (is_Some (m !! f)) then Z.b2z (settable o t m e f) else -2.
Definition expires_set (o : ExpireOpts) (t : Timestamp) (m : gmap bytes Value) (e e' : gmap bytes Timestamp)
    (fs : list bytes) : Prop :=
  ∀ f, e' !! f = if bool_decide (f ∈ fs) && settable o t m e f then Some t else e !! f.

Lemma finishes_expire_fields key s v o t fs st m e0 e : healthy (st_ctx st) → sees s v m e0 →
  is_hash (view (st_ctx st) key) m e → [] ∉ fs →
  finishes (expire_fields key (ks_snap s) o t fs) st
    (foldl (λ w f, WriteInteger (expire_code o t m e0 f) w) (st_w st) fs) (λ c',
    ∃ e', timed (st_ctx st) key m e' c' ∧
      ∀ f, e' !! f = if bool_decide (f ∈ fs) && settable o t m e0 f then Some t else e !! f).
Proof.
  intros Hh Hs. revert st e Hh. induction fs as [|f fs IH]; intros st e Hh Hx Hne.
  - apply finishes_ret; [done|done|]. by exists e.
  - cbn [expire_fields foldl]. rewrite (sees_expiry _ _ _ _ Hs).
    assert (Hcode : expire_code o t m e0 f = if bool_decide (is_Some (m !! f)) then Z.b2z (settable o t m e0 f) else -2) by done.
    rewrite Hcode. clear Hcode.
    assert (Hset : settable o t m e0 f = bool_decide (is_Some (m !! f)) && negb (field_refused o (default zero_time (e0 !! f)) t)) by done.
    destruct (m !! f) as [x|] eqn:Ef; cbn [fmap option_fmap option_map].
    + rewrite (bool_decide_eq_true_2 (is_Some (Some x))) in * by eauto. cbn [andb] in Hset.
      destruct (field_refused o (default zero_time (e0 !! f)) t) eqn:Er; cbn [negb] in Hset; rewrite Hset; cbn [Z.b2z].
      * apply finishes_write_bind. eapply finishes_weaken; [apply (IH (mkSt _ _ _) e); [done|done|set_solver]|].
        cbn [st_ctx]. intros c' (e' & Ht & He). exists e'. split; [done|]. intros g. rewrite He.
        destruct (decide (g = f)) as [Hgf|]; [subst g; by rewrite Hset, !andb_false_r|].
        by rewrite (bool_decide_ext (g ∈ f :: fs) (g ∈ fs)) by set_solver.
      * eapply finishes_step_write; [apply (steps_field_meta key f (Some t) st m e); [done|done|by rewrite Ef|set_solver]|].
        cbv beta. intros c' Hh' Ht. eapply finishes_weaken; [apply (IH (mkSt c' _ _) (partial_alter (λ _, Some t) f e)); [done|apply Ht|set_solver]|].
        cbn [st_ctx]. intros c2 (e' & Ht2 & He). exists e'. split; [by eapply timed_trans|]. intros g. rewrite He.
        destruct (decide (g = f)) as [Hgf|].
        -- subst g. rewrite Hset, lookup_partial_alter_eq, (bool_decide_eq_true_2 (f ∈ f :: fs)) by set_solver.
           cbn [andb]. by destruct (bool_decide _).
        -- rewrite lookup_partial_alter_ne by done. by rewrite (bool_decide_ext (g ∈ f :: fs) (g ∈ fs)) by set_solver.
    + apply finishes_write_bind. rewrite (bool_decide_eq_false_2 (is_Some None)) by (by intros []).
      eapply finishes_weaken; [apply (IH (mkSt _ _ _) e); [done|done|set_solver]|].
      cbn [st_ctx]. intros c' (e' & Ht & He). exists e'. split; [done|]. intros g. rewrite He.
      destruct (decide (g = f)) as [Hgf|]; [subst g; rewrite Hset; by rewrite (bool_decide_eq_false_2 (is_Some None)), !andb_false_r by (by intros [])|].
      by rewrite (bool_decide_ext (g ∈ f :: fs) (g ∈ fs)) by set_solver.
Qed.

(** A time that has passed removes the fields. *)
Definition removed_code (m : gmap bytes Value) (f : bytes) : Z := if bool_decide (is_Some (m !! f)) then 2 else -2.

Lemma finishes_expire_now key s v fs st m e0 m1 e : healthy (st_ctx st) → sees s v m e0 → NoDup fs →
  is_hash (view (st_ctx st) key) m1 e → (∀ f, f ∈ fs → m1 !! f = m !! f) →
  finishes (expire_now key (ks_snap s) fs) st
    (foldl (λ w f, WriteInteger (removed_code m f) w) (st_w st) fs) (shrunk (st_ctx st) key (drop_fields fs m1) e).
Proof.
  intros Hh Hs. revert st m1 e Hh. induction fs as [|f fs IH]; intros st m1 e Hh Hnd Hx Heq.
  - apply finishes_ret; [done|done|]. split; [by exists e|done].
  - apply NoDup_cons in Hnd as [Hf Hnd]. cbn [expire_now foldl]. rewrite (sees_expiry _ _ _ _ Hs).
    assert (Hm1 : m1 !! f = m !! f) by (apply Heq; set_solver).
    assert (Hcode : removed_code m f = if bool_decide (is_Some (m !! f)) then 2 else -2) by done. rewrite Hcode. clear Hcode.
    change (drop_fields (f :: fs) m1) with (drop_fields fs (delete f m1)).
    destruct (m !! f) as [x|] eqn:Ef; cbn [fmap option_fmap option_map].
    + eapply finishes_step_write; [apply (steps_hash_remove key f st m1 e); [done|done|by rewrite Hm1]|].
      cbv beta. intros c' Hh' [(e1 & Hx1 & He1) Ho1]. rewrite bool_decide_eq_true_2 by eauto.
      eapply finishes_weaken; [apply (IH (mkSt c' _ _) (delete f m1) e1); [done|done|done|]|].
      * intros g Hg. rewrite lookup_delete_ne by set_solver. apply Heq. set_solver.
      * cbn [st_ctx]. intros c'' Hc. eapply shrunk_trans; [|exact He1|exact Ho1|exact Hc].
        intros g. rewrite drop_fields_lookup. case_decide; [by intros []|done].
    + apply finishes_write_bind. rewrite bool_decide_eq_false_2 by (by intros []). rewrite (delete_id m1) by done.
      apply (IH (mkSt _ _ _) m1 e); [done|done|done|]. intros g Hg. apply Heq. set_solver.
Qed.

Lemma write_codes_fmap {A} (code : A → Z) (l : list A) w :
  write_codes (code <$> l) w = foldl (λ w x, WriteInteger (code x) w) (WriteArray (len l) w) l.
Proof.
  unfold write_codes, len. rewrite length_fmap. generalize (WriteArray (Z.of_nat (length l)) w). clear.
  induction l as [|x l IH]; intros w; [done|]. apply IH.
Qed.

Lemma array_of_codes (code : bytes → Z) (n : Z) (fs : list bytes) w : (∀ f, code f = n) →
  array_of (WriteInteger n) (length fs) w = write_codes (code <$> fs) w.
Proof.
  intros Hc. rewrite write_codes_fmap. unfold array_of, len. generalize (WriteArray (Z.of_nat (length fs)) w). clear -Hc. intros w. revert w.
  induction fs as [|f fs IH]; intros w; [done|]. cbn [length foldl]. rewrite Hc, <- IH. by rewrite Nat.iter_succ_r.
Qed.

(** The run of one of the four commands, with a time that has passed or not. *)
Definition field_expires (st : St) (key : bytes) (m : gmap bytes Value) (e : gmap bytes Timestamp) (fs : list bytes)
    (o : ExpireOpts) (past : bool) (t : Timestamp) (runner : M unit) : Prop :=
  if past
  then finishes runner st (write_codes (removed_code m <$> fs) (st_w st)) (shrunk (st_ctx st) key (drop_fields fs m) e)
  else finishes runner st (write_codes (expire_code o t m e <$> fs) (st_w st)) (λ c',
         ∃ e', timed (st_ctx st) key m e' c' ∧ expires_set o t m e e' fs).

Lemma hexpire_run key fs o past t st m e : healthy (st_ctx st) → is_hash (view (st_ctx st) key) m e →
  NoDup fs → [] ∉ fs → field_expires st key m e fs o past t (hexpire_runner key fs o past t).
Proof.
  intros Hh Hx Hnd Hne. unfold field_expires, hexpire_runner. destruct past; (eapply finishes_read_hash; [done|exact Hx|..]).
  - intros El. destruct (is_hash_dead _ _ _ El Hx) as [-> ->]. split; [by apply array_of_codes|]. intros c' Hs.
    rewrite drop_empty. split; [exists ∅; by rewrite Hs|by apply others_same].
  - intros s c' Hs Hh' Hsame El. apply finishes_write_bind. rewrite write_codes_fmap.
    eapply finishes_weaken; [eapply (finishes_expire_now key s _ fs (mkSt c' _ _) m e m e); [done|exact Hs|done|by rewrite Hsame|done]|].
    cbn [st_ctx]. intros c2. by apply same_shrunk.
  - intros El. destruct (is_hash_dead _ _ _ El Hx) as [-> ->]. split; [by apply array_of_codes|]. intros c' Hs.
    exists ∅. split; [split; [by rewrite Hs|by rewrite Hs|by apply others_same]|].
    intros f. rewrite lookup_empty. unfold settable. rewrite lookup_empty, (bool_decide_eq_false_2 (is_Some None)) by (by intros []).
    by rewrite andb_false_r.
  - intros s c' Hs Hh' Hsame El. apply finishes_write_bind. rewrite write_codes_fmap.
    eapply finishes_weaken; [eapply (finishes_expire_fields key s _ o t fs (mkSt c' _ _) m e e); [done|exact Hs|by rewrite Hsame|done]|].
    cbn [st_ctx]. intros c2 (e' & Ht & He). exists e'. split; [by eapply same_timed|done].
Qed.

(** ** HPERSIST *)

Definition persist_code (m : gmap bytes Value) (e : gmap bytes Timestamp) (f : bytes) : Z :=
  match m !! f, e !! f with None, _ => -2 | Some _, None => -1 | Some _, Some _ => 1 end.

Lemma finishes_persist_fields key s v fs st m e0 e : healthy (st_ctx st) → sees s v m e0 → after_zero e0 →
  is_hash (view (st_ctx st) key) m e → [] ∉ fs →
  finishes (persist_fields key (ks_snap s) fs) st
    (foldl (λ w f, WriteInteger (persist_code m e0 f) w) (st_w st) fs) (λ c',
    ∃ e', timed (st_ctx st) key m e' c' ∧
      ∀ f, e' !! f = if bool_decide (f ∈ fs) && (persist_code m e0 f =? 1) then None else e !! f).
Proof.
  intros Hh Hs Ha. revert st e Hh. induction fs as [|f fs IH]; intros st e Hh Hx Hne.
  - apply finishes_ret; [done|done|]. by exists e.
  - cbn [persist_fields foldl]. rewrite (sees_expiry _ _ _ _ Hs).
    assert (Hcode : persist_code m e0 f = match m !! f, e0 !! f with None, _ => -2 | Some _, None => -1 | Some _, Some _ => 1 end) by done.
    assert (Hskip : persist_code m e0 f ≠ 1 → ∀ g (x : option Timestamp),
      (if bool_decide (g ∈ fs) && (persist_code m e0 g =? 1) then None else x) =
      (if bool_decide (g ∈ f :: fs) && (persist_code m e0 g =? 1) then None else x)).
    { intros Hc g x. destruct (decide (g = f)) as [->|]; [by rewrite (proj2 (Z.eqb_neq _ _) Hc), !andb_false_r|].
      by rewrite (bool_decide_ext (g ∈ f :: fs) (g ∈ fs)) by set_solver. }
    assert (Hgo : ∀ n, persist_code m e0 f = n → n ≠ 1 →
      finishes (_ ← write (WriteInteger n); persist_fields key (ks_snap s) fs) st
        (foldl (λ w f, WriteInteger (persist_code m e0 f) w) (WriteInteger (persist_code m e0 f) (st_w st)) fs) (λ c',
        ∃ e', timed (st_ctx st) key m e' c' ∧
          ∀ g, e' !! g = if bool_decide (g ∈ f :: fs) && (persist_code m e0 g =? 1) then None else e !! g)).
    { intros n <- Hn. apply finishes_write_bind. eapply finishes_weaken; [apply (IH (mkSt _ _ _) e); [done|done|set_solver]|].
      cbn [st_ctx]. intros c' (e' & Ht & He). exists e'. split; [done|]. intros g. rewrite He. by apply Hskip. }
    destruct (m !! f) as [x|] eqn:Ef; cbn [fmap option_fmap option_map]; [|by apply Hgo].
    destruct (e0 !! f) as [t|] eqn:Et; cbn [from_option id]; [|by apply Hgo]. pose proof (Ha _ _ Et).
    rewrite (proj2 (Z.eqb_neq t zero_time)) by lia. rewrite Hcode.
    eapply finishes_step_write; [apply (steps_field_meta key f None st m e); [done|done|by rewrite Ef|set_solver]|].
    cbv beta. intros c' Hh' Ht. eapply finishes_weaken; [apply (IH (mkSt c' _ _) (partial_alter (λ _, None) f e)); [done|apply Ht|set_solver]|].
    cbn [st_ctx]. intros c2 (e' & Ht2 & He). exists e'. split; [by eapply timed_trans|]. intros g. rewrite He.
    destruct (decide (g = f)) as [->|].
    + rewrite Hcode, lookup_partial_alter_eq, (bool_decide_eq_true_2 (f ∈ f :: fs)) by set_solver. by destruct (bool_decide _).
    + rewrite lookup_partial_alter_ne by done. by rewrite (bool_decide_ext (g ∈ f :: fs) (g ∈ fs)) by set_solver.
Qed.

(** ** Reading *)

(** What the reading commands answer, one number for each field: [shown] gets
    the expiry and the clock's reading in that turn. *)
Fixpoint time_codes (shown : Timestamp → Timestamp → Z) (m : gmap bytes Value) (e : gmap bytes Timestamp)
    (fs : list bytes) : list Z :=
  match fs with
  | [] => []
  | f :: fs' =>
    match m !! f, e !! f with
    | None, _ => -2
    | Some _, None => -1
    | Some _, Some t => shown t (loop_now (length fs'))
    end :: time_codes shown m e fs'
  end.

Lemma finishes_field_times shown s v fs st m e (P : Ctx → Prop) : healthy (st_ctx st) → P (st_ctx st) → sees s v m e → after_zero e →
  finishes (field_times (ks_snap s) shown fs) st
    (foldl (λ w n, WriteInteger n w) (st_w st) (time_codes shown m e fs)) P.
Proof.
  intros Hh HP Hs Ha. revert st Hh HP. induction fs as [|f fs IH]; intros st Hh HP; [by apply finishes_ret|].
  cbn [field_times time_codes foldl]. apply finishes_write_bind. rewrite (sees_expiry _ _ _ _ Hs).
  replace (match (λ _ : Value, default zero_time (e !! f)) <$> m !! f with
           | Some t => if t =? zero_time then -1 else shown t (loop_now (length fs)) | None => -2 end)
    with (match m !! f, e !! f with
          | None, _ => -2 | Some _, None => -1 | Some _, Some t => shown t (loop_now (length fs)) end); [by apply (IH (mkSt _ _ _))|].
  destruct (m !! f); cbn [fmap option_fmap option_map]; [|done]. destruct (e !! f) as [t|] eqn:Et; cbn [from_option id]; [|done].
  pose proof (Ha _ _ Et). by rewrite (proj2 (Z.eqb_neq t zero_time)) by lia.
Qed.

Lemma length_time_codes shown m e fs : length (time_codes shown m e fs) = length fs.
Proof. induction fs as [|f fs IH]; [done|]. cbn [time_codes length]. by rewrite IH. Qed.

Lemma times_run shown key fs st m e : healthy (st_ctx st) → is_hash (view (st_ctx st) key) m e → after_zero e →
  finishes (times_runner shown key fs) st (write_codes (time_codes shown m e fs) (st_w st)) (same (st_ctx st)).
Proof.
  intros Hh Hx Ha. eapply reads_hash; [done|exact Hx| |].
  - intros ->. rewrite (array_of_codes (λ _, -2)) by done. f_equal. clear.
    induction fs as [|f fs IH]; [done|]. cbn [time_codes fmap list_fmap]. by rewrite lookup_empty, <- IH.
  - intros s c' Hs Hh' Hsame. apply finishes_write_bind. unfold write_codes, len. rewrite length_time_codes.
    by eapply (finishes_field_times _ _ _ _ (mkSt c' _ _)); [done| |exact Hs|].
Qed.

Lemma parse_one_field kw n f : strings_ToUpper kw = optionFields → ParseInt64 n = Some 1 →
  parseHTTLArgs [kw; n; f] = Ok [f] ∧ parseHExpireArgs [kw; n; f] = Ok (mkExpireOpts false false false false, [f]).
Proof.
  intros Hk Hn. assert (Hc : counted_fields n [f] = Ok ([f], [])) by (unfold counted_fields; by rewrite Hn). split.
  - unfold parseHTTLArgs. rewrite Hk, beq_refl, Hc. done.
  - assert (Hl : ∀ o, leading_flags [kw; n; f] o = Ok (o, [kw; n; f])).
    { intros [nx xx gt lt]. cbn [leading_flags]. rewrite Hk. reflexivity. }
    unfold parseHExpireArgs. by rewrite Hl, Hc.
Qed.

End HashTtlRuns.

Section HashTtlLaws.
Context `{EngineLaws} `{FormatFloat} `{RangeOrderLaws} `{UnicodeCase} `{WallClock}.

(** HEXPIRE, HPEXPIRE, HEXPIREAT and HPEXPIREAT on a hash: a time that has
    passed removes the fields; otherwise the fields that are there and whose
    conditions hold get exactly the expiry asked for, and the reply says which.
    Values, other fields and other keys stay as they were. *)
Theorem hexpire_correct (key t : bytes) (rest fs : list bytes) (n : Z) (o : ExpireOpts) (st : St)
    (m : gmap bytes Value) (e : gmap bytes Timestamp) :
  healthy (st_ctx st) → is_hash (view (st_ctx st) key) m e → ParseInt64 t = Some n →
  (3 <= length rest)%nat → parseHExpireArgs rest = Ok (o, fs) → NoDup fs → [] ∉ fs →
  - 10 ^ 9 <= n <= 9 * 10 ^ 9 →
  ∃ hexpire hpexpire hexpireat hpexpireat,
    handleHExpire (key :: t :: rest) = Accept [key] hexpire ∧
    handleHPExpire (key :: t :: rest) = Accept [key] hpexpire ∧
    handleHExpireAt (key :: t :: rest) = Accept [key] hexpireat ∧
    handleHPExpireAt (key :: t :: rest) = Accept [key] hpexpireat ∧
    field_expires st key m e fs o (n <=? 0) (run_now + of_seconds n) hexpire ∧
    field_expires st key m e fs o (n <=? 0) (run_now + of_millis n) hpexpire ∧
    field_expires st key m e fs o (of_seconds n <? run_now) (of_seconds n) hexpireat ∧
    field_expires st key m e fs o (of_millis n <? run_now) (of_millis n) hpexpireat.
Proof.
  intros Hh Hx Hn Hlen Hp Hnd Hne Hb. destruct rest as [|a [|b [|d rest]]]; cbn [length] in Hlen; [lia..|].
  assert (Hs : Duration n 1000000000 = of_seconds n) by (unfold Duration, of_seconds; apply i64_id; widths; lia).
  assert (Hm : Duration n 1000000 = of_millis n) by (unfold Duration, of_millis; apply i64_id; widths; lia).
  assert (Hu : time_Unix n = of_seconds n).
  { unfold time_Unix, of_seconds. rewrite i64_id by (widths; lia). lia. }
  unfold handleHExpire, handleHPExpire, handleHExpireAt, handleHPExpireAt, hexpire_prep. rewrite Hn, Hp, Hs, Hm, Hu.
  do 4 eexists. do 4 (split; [reflexivity|]). split_and!; by apply hexpire_run.
Qed.

(** HPERSIST on a hash: exactly the named fields that have an expiry lose it,
    and the reply says for each field whether it is missing, had none or lost it. *)
Theorem hpersist_correct (key kw n : bytes) (rest fs : list bytes) (st : St)
    (m : gmap bytes Value) (e : gmap bytes Timestamp) :
  healthy (st_ctx st) → is_hash (view (st_ctx st) key) m e → after_zero e →
  rest ≠ [] → parseHTTLArgs (kw :: n :: rest) = Ok fs → [] ∉ fs →
  ∃ run, handleHPersist (key :: kw :: n :: rest) = Accept [key] run ∧
    finishes run st (write_codes (persist_code m e <$> fs) (st_w st)) (λ c',
      ∃ e', timed (st_ctx st) key m e' c' ∧
        ∀ f, e' !! f = if bool_decide (f ∈ fs ∧ is_Some (m !! f)) then None else e !! f).
Proof.
  intros Hh Hx Ha Hr Hp Hne. destruct rest as [|d rest]; [done|]. eexists.
  split; [unfold handleHPersist, httl_prep; by rewrite Hp|].
  eapply finishes_weaken; [eapply (finishes_read_hash key _ _ st m e _ (λ c', ∃ e', timed (st_ctx st) key m e' c' ∧
    ∀ f, e' !! f = if bool_decide (f ∈ fs) && (persist_code m e f =? 1) then None else e !! f)); [done|exact Hx|..]|].
  - intros El. destruct (is_hash_dead _ _ _ El Hx) as [-> ->]. split; [by apply array_of_codes|]. intros c' Hs.
    exists ∅. split; [split; [by rewrite Hs|by rewrite Hs|by apply others_same]|].
    intros f. by rewrite !lookup_empty, andb_false_r.
  - intros s c' Hs Hh' Hsame El. apply finishes_write_bind. rewrite write_codes_fmap.
    eapply finishes_weaken; [eapply (finishes_persist_fields key s _ fs (mkSt c' _ _) m e e); [done|exact Hs|done|by rewrite Hsame|done]|].
    cbn [st_ctx]. intros c2 (e' & Ht & He). exists e'. split; [by eapply same_timed|done].
  - cbv beta. intros c' (e' & Ht & He). exists e'. split; [done|]. intros f. rewrite He. unfold persist_code.
    destruct (m !! f) eqn:Em.
    + rewrite (bool_decide_ext (f ∈ fs ∧ _) (f ∈ fs)) by (by split; [intros []|]).
      destruct (e !! f); cbn; rewrite ?andb_false_r, ?andb_true_r; [done|]. by destruct (bool_decide _).
    + rewrite (bool_decide_eq_false_2 (f ∈ fs ∧ _)) by (by intros [_ []]). by destruct (e !! f); rewrite andb_false_r.
Qed.

(** HPTTL answers the milliseconds left to the time HPEXPIREAT set, whenever
    it runs, and HPEXPIRETIME answers that time. *)
Theorem hpexpireat_hpttl_roundtrip (later : WallClock) (key kw n f t : bytes) (ms : Z) (v : Value) (st : St) (w : Writer)
    (m : gmap bytes Value) (e : gmap bytes Timestamp) :
  healthy (st_ctx st) → is_hash (view (st_ctx st) key) m e → after_zero e → m !! f = Some v → f ≠ [] →
  strings_ToUpper kw = optionFields → ParseInt64 n = Some 1 →
  ParseInt64 t = Some ms → 0 <= run_now <= of_millis ms → ms <= 9 * 10 ^ 12 → 0 <= @loop_now later 0 <= 9 * 10 ^ 18 →
  ∃ set get time, handleHPExpireAt [key; t; kw; n; f] = Accept [key] set ∧
    @handleHPTTL _ _ later [key; kw; n; f] = Accept [key] get ∧
    handleHPExpireTime [key; kw; n; f] = Accept [key] time ∧
    finishes set st (write_codes [1] (st_w st)) (λ c',
      finishes get (mkSt c' w (st_held st)) (write_codes [Z.quot (of_millis ms - @loop_now later 0) 1000000] w) (same c') ∧
      finishes time (mkSt c' w (st_held st)) (write_codes [ms] w) (same c')).
Proof.
  intros Hh Hx Ha Hf Hne Hk Hn Hp Hr Hm Hl. destruct (parse_one_field kw n f Hk Hn) as [H1' H2'].
  do 3 eexists. split; [unfold handleHPExpireAt, hexpire_prep; by rewrite Hp, H2'|].
  split; [unfold handleHPTTL, httl_prep; by rewrite H1'|]. split; [unfold handleHPExpireTime, httl_prep; by rewrite H1'|].
  pose proof (hexpire_run key [f] (mkExpireOpts false false false false) (of_millis ms <? run_now) (of_millis ms) st m e Hh Hx) as He.
  rewrite (proj2 (Z.ltb_ge _ _)) in * by lia. unfold field_expires in He.
  specialize (He (NoDup_singleton _) ltac:(set_solver)).
  assert (Hset : settable (mkExpireOpts false false false false) (of_millis ms) m e f = true).
  { unfold settable. by rewrite Hf, bool_decide_eq_true_2. }
  cbn [fmap list_fmap] in He. unfold expire_code in He. rewrite Hset, Hf, (bool_decide_eq_true_2 (is_Some (Some v))) in He by eauto.
  destruct He as (oc & c' & E & Ho & Hh' & e' & Ht & He'). exists oc, c'.
  assert (Hf' : e' !! f = Some (of_millis ms)) by (rewrite (He' f), Hset, bool_decide_eq_true_2 by set_solver; done).
  assert (Ha' : after_zero e').
  { intros g x. rewrite (He' g). destruct (_ && _); [|apply Ha]. intros [= <-]. unfold zero_time. lia. }
  assert (Hcodes : ∀ (clock : WallClock) shown, @time_codes clock shown m e' [f] = [shown (of_millis ms) (@loop_now clock 0)]).
  { intros clock shown. cbn [time_codes length]. by rewrite Hf, Hf'. }
  pose proof (@times_run _ _ later remaining_millis key [f] (mkSt c' w (st_held st)) m e' Hh' (timed_hash _ _ _ _ _ Ht) Ha') as Hg.
  pose proof (times_run (λ t _, Time_UnixMilli t) key [f] (mkSt c' w (st_held st)) m e' Hh' (timed_hash _ _ _ _ _ Ht) Ha') as Hg2.
  rewrite Hcodes in Hg, Hg2. unfold remaining_millis, saturate in Hg. unfold Time_UnixMilli in Hg2.
  unfold of_millis in *. rewrite Z.min_r, Z.max_r in Hg by (widths; lia).
  rewrite Z.div_mul, i64_id in Hg2 by (widths; lia). by split_and!.
Qed.
End HashTtlLaws.

(** * The hash commands on concrete hashes

    Concrete runs of the theorems on hashes, and the inputs on which the
    commands depart from what their comments or their relatives say. *)


(** ** Departures *)

Section HashFacts.
Context `{Engine} `{UnicodeCase} `{WallClock} `{FormatFloat}.

(** GT on a field without an expiry sets it, while EXPIRE's GT on a key
    without one refuses: the zero time stands for "no expiry" here. *)
Lemma gt_differs_from_expire (t : Timestamp) : zero_time <= t →
  field_refused (mkExpireOpts false false true false) zero_time t = false ∧
  shouldSetExpire t None (mkExpireOpts false false true false) = false.
Proof. intros Ht. unfold field_refused, shouldSetExpire. cbn [eo_nx eo_xx eo_gt eo_lt andb is_nil negb]. by rewrite (proj2 (Z.ltb_ge t zero_time)). Qed.

(** The expiry of the field with the empty name is the effect that gives the
    whole key an expiry. *)
Lemma empty_field_expires_key (key : bytes) (t : Timestamp) :
  emitHashFieldTTL key [] t = emitStringTTL key (Some t).
Proof. done. Qed.

(** A number of fields near the largest integer passes the length test, whose
    sum wraps, and the allocation panics. *)
Lemma numfields_panics (key f : bytes) :
  handleHGetEx [key; str "FIELDS"; str "9223372036854775807"; f] = Crash ∧
  handleHSetEx [key; str "FIELDS"; str "4611686018427387904"; f; f] = Crash.
Proof. by split. Qed.
End HashFacts.

Module HashExample.
Import RefEngine StringExample ExpiryExample.
#[local] Instance sorted_order : RangeOrder := λ X, elements X.
#[local] Instance sorted_order_laws : RangeOrderLaws.
Proof. by intros X. Qed.
#[local] Instance zero_rand : Rand := λ _ _, 0.
#[local] Instance ascii_case : UnicodeCase := {|
  unicode_lower := id; unicode_upper := id; unicode_fields := λ _, []; unicode_trim := id
|}.
#[local] Instance any_glob : GlobMatch := λ _ _, true.

Definition fields : gmap bytes Value := {[ str "a" := Raw (str "1"); str "b" := Raw (str "40") ]}.
Definition times : gmap bytes Timestamp := {[ str "a" := 2 * 10 ^ 18 ]}.
Definition ab : ReducedEffect := mkReducedAt INSERT_OP KEYED TYPE_HASH None fields [] None times.
Definition hashes : St := mkSt (holding {[ str "h" := ab ]}) (NewWriter []) [].
Lemma hashes_healthy : healthy (st_ctx hashes).
Proof. exact I. Qed.
Lemma h_is_hash : is_hash (view (st_ctx hashes) (str "h")) fields times.
Proof. by vm_compute. Qed.
Lemma k_is_hash : is_hash (view (st_ctx hashes) (str "k")) ∅ ∅.
Proof. by vm_compute. Qed.

Lemma hash_reads_correct_witness :
  ∃ hlen, handleHLen [str "h"] = Accept [str "h"] hlen ∧
    finishes hlen hashes (WriteInteger 2 (NewWriter [])) (same (st_ctx hashes)).
Proof.
  destruct (hash_reads_correct (str "h") (str "a") [] hashes fields times hashes_healthy h_is_hash)
    as (? & ? & hlen & ? & ? & ? & ? & ? & ? & _ & _ & _ & Hp & _ & _ & _ & _ & _ & _ & _ & Hr & _).
  exists hlen. split; [exact Hp|exact Hr].
Defined.

Lemma hset_correct_witness :
  ∃ hset, handleHSet [str "k"; str "f"; str "x"; str "g"; str "y"] = Accept [str "k"] hset ∧
    finishes hset hashes (WriteInteger 2 (NewWriter [])) (λ c', ∃ e',
      grown (st_ctx hashes) (str "k") (put_all [(str "f", str "x"); (str "g", str "y")] ∅) [str "f"; str "g"] ∅ e'
        (λ t, t = TYPE_HASH) c').
Proof.
  destruct (hset_correct (str "k") (str "f") (str "x") [str "f"; str "x"; str "g"; str "y"] (str "f", str "x")
    [(str "g", str "y")] hashes ∅ ∅ hashes_healthy k_is_hash eq_refl) as (hset & _ & _ & Hp & _ & _ & Hr & _).
  exists hset. split; [exact Hp|exact Hr].
Defined.

Lemma hdel_correct_witness :
  ∃ hdel, handleHDel [str "h"; str "a"; str "z"] = Accept [str "h"] hdel ∧
    finishes hdel hashes (WriteInteger 1 (NewWriter []))
      (shrunk (st_ctx hashes) (str "h") (drop_fields [str "a"; str "z"] fields) times).
Proof.
  apply (hdel_correct (str "h") (str "a") [str "z"] hashes fields times hashes_healthy h_is_hash).
  apply (bool_decide_unpack _). by vm_compute.
Defined.

Lemma hincrby_correct_witness :
  ∃ hincrby, handleHIncrBy [str "h"; str "b"; str "2"] = Accept [str "h"] hincrby ∧
    finishes hincrby hashes (WriteInteger 42 (NewWriter [])) (λ c', ∃ e',
      grown (st_ctx hashes) (str "h") (<[str "b" := IntVal 42]> fields) [str "b"] times e' (λ t, t = TYPE_HASH) c').
Proof.
  apply (hincrby_correct (str "h") (str "b") (str "2") 2 40 hashes fields times hashes_healthy h_is_hash eq_refl);
    [by split; vm_compute|reflexivity|by split; vm_compute].
Defined.

Lemma hscan_complete_witness :
  ∃ fs, scans (st_ctx hashes) fields (str "h") (str "*") 1 0 fs ∧ Sorted str_le fs ∧
    fs ≡ₚ filter (λ f, MatchGlobPattern f (str "*") = true) (elements (dom fields)).
Proof.
  apply (hscan_complete (str "h") (str "*") 1 (st_ctx hashes) fields times h_is_hash); [lia|by vm_compute].
Defined.

Lemma hexpire_correct_witness :
  ∃ run, handleHExpire [str "h"; str "100"; str "nx"; str "fields"; str "2"; str "a"; str "b"] = Accept [str "h"] run ∧
    finishes run hashes (write_codes [0; 1] (NewWriter [])) (λ c', ∃ e', timed (st_ctx hashes) (str "h") fields e' c' ∧
      expires_set (mkExpireOpts true false false false) (run_now + of_seconds 100) fields times e' [str "a"; str "b"]).
Proof.
  destruct (hexpire_correct (str "h") (str "100") [str "nx"; str "fields"; str "2"; str "a"; str "b"] [str "a"; str "b"]
    100 (mkExpireOpts true false false false) hashes fields times hashes_healthy h_is_hash eq_refl)
    as (run & _ & _ & _ & Hp & _ & _ & _ & Hr & _).
  - cbn. lia.
  - reflexivity.
  - apply (bool_decide_unpack _). by vm_compute.
  - apply (bool_decide_unpack _). by vm_compute.
  - lia.
  - exists run. split; [exact Hp|exact Hr].
Defined.

Lemma times_after_zero : after_zero times.
Proof. intros f t Ht. unfold times in Ht. apply lookup_singleton_Some in Ht as [_ <-]. by vm_compute. Qed.

Lemma hpexpireat_hpttl_roundtrip_witness :
  ∃ set get time, handleHPExpireAt [str "h"; str "1000000005000"; str "fields"; str "1"; str "b"] = Accept [str "h"] set ∧
    @handleHPTTL _ _ later [str "h"; str "fields"; str "1"; str "b"] = Accept [str "h"] get ∧
    handleHPExpireTime [str "h"; str "fields"; str "1"; str "b"] = Accept [str "h"] time ∧
    finishes set hashes (write_codes [1] (NewWriter [])) (λ c',
      finishes get (mkSt c' (NewWriter []) []) (write_codes [2000] (NewWriter [])) (same c') ∧
      finishes time (mkSt c' (NewWriter []) []) (write_codes [1000000005000] (NewWriter [])) (same c')).
Proof.
  apply (hpexpireat_hpttl_roundtrip later (str "h") (str "fields") (str "1") (str "b") (str "1000000005000")
    1000000005000 (Raw (str "40")) hashes (NewWriter []) fields times hashes_healthy h_is_hash times_after_zero eq_refl);
    [done|reflexivity|reflexivity|reflexivity|by vm_compute|lia|by vm_compute].
Defined.

Lemma hpersist_correct_witness :
  ∃ run, handleHPersist [str "h"; str "fields"; str "2"; str "a"; str "b"] = Accept [str "h"] run ∧
    finishes run hashes (write_codes [1; -1] (NewWriter [])) (λ c', ∃ e', timed (st_ctx hashes) (str "h") fields e' c' ∧
      ∀ f, e' !! f = if bool_decide (f ∈ [str "a"; str "b"] ∧ is_Some (fields !! f)) then None else times !! f).
Proof.
  apply (hpersist_correct (str "h") (str "fields") (str "2") [str "a"; str "b"] [str "a"; str "b"] hashes fields times
    hashes_healthy h_is_hash times_after_zero); [done|reflexivity|].
  apply (bool_decide_unpack _). by vm_compute.
Defined.

(** Repeated fields are counted once for each time they are named. *)
Lemma repeated_fields_counted :
  match handleHSet [str "k"; str "f"; str "a"; str "f"; str "b"], handleHDel [str "h"; str "a"; str "a"] with
  | Accept _ hset, Accept _ hdel => st_w (snd (hset hashes)) = WriteInteger 2 (NewWriter []) ∧
      st_w (snd (hdel hashes)) = WriteInteger 2 (NewWriter [])
  | _, _ => False
  end.
Proof. by vm_compute. Qed.
End HashExample.
