(* ===== verification/ZsetOpProps.v ===== *)
(** * What union, intersection and difference of sorted sets compute

    The scores of the result from those of the sources, and what the STORE
    commands leave at the destination. *)

From Stdlib Require Import SpecFloat.
From S2P Require Import Prelude GoBytes Strconv Floats Commands Writer Engine Runs Sets SetProps Strings StringTheorems Hashes HashTheorems Lists Zsets ZsetOrder ZsetRanges ZsetTheorems ZsetOps ZsetRangeProps.

Local Open Scope Z_scope.

(** ** The scores of a result *)

(** A source: its scores and its weight. *)
Abbreviation source := (gmap bytes spec_float * spec_float)%type.

(** The weighted scores of a member in the sources that have it, in order. *)
Definition weighted_scores (k : bytes) (srcs : list source) : list spec_float :=
  omap (λ src, (λ s, weighted s (snd src)) <$> fst src !! k) srcs.

(** Scores aggregated from left to right. *)
Definition aggregated (agg : Aggregate) (l : list spec_float) : option spec_float :=
  match l with [] => None | x :: l' => Some (foldl (aggregate_scores agg) x l') end.

Definition in_every (k : bytes) (srcs : list source) : Prop := Forall (λ src, is_Some (fst src !! k)) srcs.
#[global] Instance in_every_dec k srcs : Decision (in_every k srcs).
Proof. unfold in_every. apply _. Defined.

(** No weighted score of the source is infinity times zero. *)
Definition defined_products (src : source) : Prop := map_Forall (λ _ s, IsNaN (float_mul s (snd src)) = false) (fst src).

Definition union_result (agg : Aggregate) (srcs : list source) (R : gmap bytes spec_float) : Prop :=
  ∀ k, R !! k = aggregated agg (weighted_scores k srcs).
Definition inter_result (agg : Aggregate) (srcs : list source) (R : gmap bytes spec_float) : Prop :=
  ∀ k, R !! k = if decide (in_every k srcs) then aggregated agg (weighted_scores k srcs) else None.
(** The members of the first set that are in no other. *)
Definition diff_result (X : gmap bytes spec_float) (Xs : list (gmap bytes spec_float)) (R : gmap bytes spec_float) : Prop :=
  ∀ k, R !! k = if decide (Forall (λ Y : gmap bytes spec_float, Y !! k = None) Xs) then X !! k else None.

Definition union_all (agg : Aggregate) (R : gmap bytes spec_float) (srcs : list source) : gmap bytes spec_float :=
  foldl (λ R src, union_with_set agg (snd src) (fst src) R) R srcs.
Definition inter_all (agg : Aggregate) (R : gmap bytes spec_float) (srcs : list source) : gmap bytes spec_float :=
  foldl (λ R src, inter_with_set agg (snd src) (fst src) R) R srcs.

Lemma union_all_lookup agg srcs R k :
  union_all agg R srcs !! k =
  match R !! k with
  | Some x => Some (foldl (aggregate_scores agg) x (weighted_scores k srcs))
  | None => aggregated agg (weighted_scores k srcs)
  end.
Proof.
  revert R. induction srcs as [|[X w] srcs IH]; intros R; [by destruct (R !! k) eqn:E|].
  cbn [union_all foldl weighted_scores omap fst snd]. unfold union_all in IH. rewrite IH. unfold union_with_set.
  rewrite lookup_merge. unfold weighted_scores. cbn [omap list_omap fst snd]. destruct (R !! k), (X !! k); done.
Qed.

Lemma union_all_spec agg srcs : union_result agg srcs (union_all agg ∅ srcs).
Proof. intros k. by rewrite union_all_lookup, lookup_empty. Qed.

Lemma inter_all_lookup agg srcs R k :
  inter_all agg R srcs !! k =
  if decide (in_every k srcs) then (λ x, foldl (aggregate_scores agg) x (weighted_scores k srcs)) <$> R !! k else None.
Proof.
  revert R. induction srcs as [|[X w] srcs IH]; intros R.
  - rewrite decide_True by constructor. cbn. by destruct (R !! k) eqn:E.
  - cbn [inter_all foldl fst snd]. unfold inter_all in IH. rewrite IH. unfold inter_with_set. rewrite lookup_merge.
    unfold weighted_scores. cbn [omap list_omap fst snd].
    destruct (decide (in_every k srcs)) as [Ha|Ha], (decide (in_every k ((X, w) :: srcs))) as [Hb|Hb]; unfold in_every in *;
      rewrite ?Forall_cons in Hb; cbn [fst] in Hb; destruct (R !! k), (X !! k); naive_solver.
Qed.

Lemma inter_all_spec agg X w srcs : defined_products (X, w) →
  inter_result agg ((X, w) :: srcs) (inter_all agg ((λ s, float_mul s w) <$> X) srcs).
Proof.
  intros Hd k. rewrite inter_all_lookup, lookup_fmap. unfold in_every, weighted_scores. cbn [omap list_omap fst snd].
  destruct (decide (Forall _ srcs)) as [Ha|Ha], (decide (Forall _ ((X, w) :: srcs))) as [Hb|Hb];
    rewrite ?Forall_cons in Hb; cbn [fst] in Hb; destruct (X !! k) as [s|] eqn:E; try naive_solver.
  cbn. unfold weighted, zero_nan. pose proof (Hd k s E) as Hs. cbn in Hs. by rewrite Hs.
Qed.

Lemma inter_all_empty agg srcs : inter_all agg ∅ srcs = ∅.
Proof. apply map_eq. intros k. rewrite inter_all_lookup, lookup_empty. by case_decide. Qed.

(** A source without members leaves nothing. *)
Lemma inter_all_missing agg w srcs R src : src = (∅, w) → inter_all agg R (src :: srcs) = ∅.
Proof.
  intros ->. apply map_eq. intros k. rewrite inter_all_lookup, lookup_empty. case_decide as Ha; [|done].
  exfalso. apply Forall_cons in Ha as [Ha _]. cbn in Ha. rewrite lookup_empty in Ha. by destruct Ha.
Qed.

Lemma diff_all_lookup Xs R k :
  foldl (λ R Y, diff_with_set Y R) R Xs !! k = if decide (Forall (λ Y : gmap bytes spec_float, Y !! k = None) Xs) then R !! k else None.
Proof.
  revert R. induction Xs as [|Y Xs IH]; intros R; [by rewrite decide_True by constructor|].
  cbn [foldl]. rewrite IH. unfold diff_with_set.
  destruct (decide (Forall _ Xs)) as [Ha|Ha], (decide (Forall _ (Y :: Xs))) as [Hb|Hb]; rewrite ?Forall_cons in Hb; try naive_solver.
  - rewrite lookup_difference. destruct Hb as [-> _]. done.
  - rewrite lookup_difference. destruct (Y !! k); naive_solver.
Qed.

(** ** Reading the sources *)

(** The scores of a key: of a sorted set its own, of a plain set all one, of a
    missing key none. *)
Definition has_scores (v : option ReducedEffect) (X : gmap bytes spec_float) : Prop :=
  if is_live v then ∃ r, v = Some r ∧ re_Collection r = KEYED ∧
    X = (λ x, if bool_decide (re_TypeTag r = TYPE_SET) then float64_of 1 else GetFloatVal x) <$> re_NetAdds r
  else X = ∅.

Section ZsetOpRuns.
Context `{EngineLaws} `{ParseFloat} `{FormatG} `{RangeOrderLaws}.

Lemma steps_members key st X : healthy (st_ctx st) → has_scores (view (st_ctx st) key) X →
  ∃ o, steps (getMembersWithScoresFromSnapshot key) st o (same (st_ctx st)) ∧ (o = Some X ∨ o = None ∧ X = ∅).
Proof.
  intros Hh Hx. destruct (steps_get key st Hh) as [tips Hg]. unfold has_scores in Hx.
  exists (if is_live (view (st_ctx st) key) then Some X else None). split.
  - eapply steps_bind; [exact Hg|]. cbv beta iota. intros c' Hh' Hs. unfold members_with_scores.
    destruct (view (st_ctx st) key) as [r|]; [|by apply (steps_ret _ (mkSt c' _ _))].
    rewrite is_live_remove in Hx |- *. case_bool_decide as Hop; cbn [negb] in *; [by apply (steps_ret _ (mkSt c' _ _))|].
    destruct Hx as (r' & [= <-] & Hk & ->). rewrite (bool_decide_eq_true_2 (re_Collection r = KEYED)) by done.
    by apply (steps_ret _ (mkSt c' _ _)).
  - destruct (is_live (view (st_ctx st) key)); auto.
Qed.

(** The keys and weights have these sources. *)
Definition have_scores (c : Ctx) (keys : list (bytes * spec_float)) (srcs : list source) : Prop :=
  Forall2 (λ kw src, has_scores (view c (fst kw)) (fst src) ∧ snd kw = snd src) keys srcs.

Lemma have_same c c' keys srcs : same c c' → have_scores c keys srcs → have_scores c' keys srcs.
Proof. intros Hs Hk. eapply Forall2_impl; [exact Hk|]. intros kw src. cbv beta. by rewrite Hs. Qed.

Lemma union_empty agg w R : union_with_set agg w ∅ R = R.
Proof. apply map_eq. intros k. unfold union_with_set. rewrite lookup_merge, lookup_empty. by destruct (R !! k). Qed.

Lemma steps_zunion agg keys srcs st R : healthy (st_ctx st) → have_scores (st_ctx st) keys srcs →
  steps (zunion agg R keys) st (union_all agg R srcs) (same (st_ctx st)).
Proof.
  intros Hh Hk. revert st R srcs Hh Hk. induction keys as [|[key w] keys IH]; intros st R srcs Hh Hk; inversion Hk as [|? [X w'] ? srcs' [Hx Hw] Hk']; subst.
  - by apply steps_ret.
  - cbn in Hx, Hw. subst w'. destruct (steps_members key st X Hh Hx) as (o & Hg & Ho). cbn [zunion]. eapply steps_bind; [exact Hg|].
    cbv beta. intros c' Hh' Hs. cbn [union_all foldl fst snd]. pose proof (have_same _ _ _ _ Hs Hk') as Hk2.
    pose proof (λ R, IH (mkSt c' (st_w st) (st_held st)) R srcs' Hh' Hk2) as Hgo. cbn [st_ctx] in Hgo.
    destruct Ho as [->|[-> ->]]; rewrite ?union_empty; (eapply steps_weaken; [apply Hgo|]); cbv beta; intros c2; by apply same_trans.
Qed.

(** An intersection goes on with its result, or leaves by [missing] when a
    source has no members: then the result is empty. *)
Lemma finishes_zinter_rest agg missing keys srcs st R f w Q : healthy (st_ctx st) → have_scores (st_ctx st) keys srcs →
  (∀ c', healthy c' → same (st_ctx st) c' → finishes (f (inter_all agg R srcs)) (mkSt c' (st_w st) (st_held st)) w Q) →
  (inter_all agg R srcs = ∅ → ∀ c', healthy c' → same (st_ctx st) c' → finishes (missing ≫= f) (mkSt c' (st_w st) (st_held st)) w Q) →
  finishes (zinter_rest missing agg R keys ≫= f) st w Q.
Proof.
  intros Hh Hk. revert st R srcs Hh Hk. induction keys as [|[key wt] keys IH]; intros st R srcs Hh Hk Hf Hm; inversion Hk as [|? [X w'] ? srcs' [Hx Hw] Hk']; subst.
  - pose proof (Hf _ Hh (λ _, eq_refl)) as Hgo. by destruct st.
  - cbn in Hx, Hw. subst w'. destruct (steps_members key st X Hh Hx) as (o & Hg & Ho). cbn [zinter_rest].
    eapply finishes_bind_bind; [exact Hg|]. cbv beta. intros c' Hh' Hs.
    destruct Ho as [->|[-> ->]].
    2: { apply Hm; [by eapply inter_all_missing|done|done]. }
    cbv zeta. change (inter_all agg R ((X, wt) :: srcs')) with (inter_all agg (inter_with_set agg wt X R) srcs') in *.
    case_bool_decide as Hz.
    + apply map_size_empty_inv in Hz. rewrite Hz in *. pose proof (Hf c' Hh' Hs) as Hgo. by rewrite inter_all_empty in Hgo.
    + apply (IH (mkSt c' _ _) _ srcs'); [done|by eapply have_same| |]; cbn [st_ctx st_w st_held].
      * intros c2 Hh2 Hs2. apply Hf; [done|by eapply same_trans].
      * intros He c2 Hh2 Hs2. apply Hm; [done|done|by eapply same_trans].
Qed.

Lemma finishes_zinter agg missing key wt keys X srcs st f w Q : healthy (st_ctx st) →
  has_scores (view (st_ctx st) key) X → have_scores (st_ctx st) keys srcs →
  let R := inter_all agg ((λ s, float_mul s wt) <$> X) srcs in
  (∀ c', healthy c' → same (st_ctx st) c' → finishes (f R) (mkSt c' (st_w st) (st_held st)) w Q) →
  (R = ∅ → ∀ c', healthy c' → same (st_ctx st) c' → finishes (missing ≫= f) (mkSt c' (st_w st) (st_held st)) w Q) →
  finishes (zinter missing agg ((key, wt) :: keys) ≫= f) st w Q.
Proof.
  intros Hh Hx Hk R Hf Hm. destruct (steps_members key st X Hh Hx) as (o & Hg & Ho). unfold zinter.
  eapply finishes_bind_bind; [exact Hg|]. cbv beta. intros c' Hh' Hs. destruct Ho as [->|[-> ->]].
  - apply (finishes_zinter_rest agg missing keys srcs (mkSt c' _ _)); [done|by eapply have_same| |]; cbn [st_ctx st_w st_held].
    + intros c2 Hh2 Hs2. apply Hf; [done|by eapply same_trans].
    + intros He c2 Hh2 Hs2. apply Hm; [done|done|by eapply same_trans].
  - apply Hm; [|done|done]. unfold R. by rewrite fmap_empty, inter_all_empty.
Qed.

Lemma steps_zdiff_rest keys Xs st R : healthy (st_ctx st) → Forall2 (λ k X, has_scores (view (st_ctx st) k) X) keys Xs →
  steps (zdiff_rest R keys) st (foldl (λ R Y, diff_with_set Y R) R Xs) (same (st_ctx st)).
Proof.
  intros Hh Hk. revert st R Hh Hk. generalize dependent Xs. induction keys as [|key keys IH]; intros Xs st R Hh Hk; inversion Hk as [|? X ? Xs' Hx Hk']; subst.
  - by apply steps_ret.
  - destruct (steps_members key st X Hh Hx) as (o & Hg & Ho). cbn [zdiff_rest foldl]. eapply steps_bind; [exact Hg|].
    cbv beta. intros c' Hh' Hs.
    assert (match o with None => R | Some ms => diff_with_set ms R end = diff_with_set X R) as ->.
    { destruct Ho as [->|[-> ->]]; [done|]. unfold diff_with_set. by rewrite (right_id_L ∅ (∖)). }
    eapply steps_weaken; [apply (IH Xs' (mkSt c' _ _)); [done|]|].
    + eapply Forall2_impl; [exact Hk'|]. intros k Y. cbn [st_ctx]. by rewrite Hs.
    + cbn [st_ctx]. intros c2. by apply same_trans.
Qed.

(** ** Storing *)

(** The destination holds exactly [R], as a sorted set without an expiry, or
    nothing when [R] is empty; the other keys are untouched. *)
Record stored (c : Ctx) (dest : bytes) (R : gmap bytes spec_float) (c' : Ctx) : Prop := {
  stored_value : if decide (R = ∅) then is_live (view c' dest) = false
    else ∃ e, is_hash (view c' dest) (float_value <$> R) e ∧ attrs (view c' dest) = Some (TYPE_ZSET, None);
  stored_others : others c dest c'
}.

Definition put_entries (l : list ZSetEntry) (m : gmap bytes Value) : gmap bytes Value :=
  foldl (λ m e, <[ze_Member e := float_value (ze_Score e)]> m) m l.

Lemma put_entries_other l m k : k ∉ (ze_Member <$> l) → put_entries l m !! k = m !! k.
Proof.
  revert m. induction l as [|x l IH]; intros m Hk; [done|]. cbn in Hk. apply not_elem_of_cons in Hk as [Hx Hk].
  cbn [put_entries foldl]. unfold put_entries in IH. by rewrite IH, lookup_insert_ne.
Qed.

Lemma put_entries_in l m k x : NoDup (ze_Member <$> l) → mkEntry k x ∈ l → put_entries l m !! k = Some (float_value x).
Proof.
  revert m. induction l as [|y l IH]; intros m Hnd Hin; [by apply not_elem_of_nil in Hin|]. cbn in Hnd.
  apply NoDup_cons in Hnd as [Hy Hnd]. apply elem_of_cons in Hin as [<-|Hin].
  - change (put_entries (mkEntry k x :: l) m) with (put_entries l (<[k := float_value x]> m)). by rewrite put_entries_other, lookup_insert_eq.
  - by apply IH.
Qed.

(** [l] lists the entries of [R], each once. *)
Definition lists (R : gmap bytes spec_float) (l : list ZSetEntry) : Prop :=
  NoDup (ze_Member <$> l) ∧ ∀ k x, mkEntry k x ∈ l ↔ R !! k = Some x.

Lemma put_entries_all R l : lists R l → put_entries l ∅ = float_value <$> R.
Proof.
  intros [Hnd Hin]. apply map_eq. intros k. rewrite lookup_fmap. destruct (R !! k) as [x|] eqn:E.
  - apply put_entries_in; [done|]. by apply Hin.
  - rewrite put_entries_other; [by rewrite lookup_empty|]. intros ([k' x] & -> & Hx)%list_elem_of_fmap. apply Hin in Hx. cbn in E. congruence.
Qed.

Lemma lists_empty R l : lists R l → l = [] ↔ R = ∅.
Proof.
  intros [_ Hin]. split.
  - intros ->. apply map_eq. intros k. rewrite lookup_empty. apply eq_None_not_Some. intros [x Hx]. apply Hin in Hx. by apply not_elem_of_nil in Hx.
  - intros ->. apply elem_of_nil_inv. intros [k x] Hx. apply Hin in Hx. by rewrite lookup_empty in Hx.
Qed.

Lemma lists_size R l : lists R l → len l = Z.of_nat (size R).
Proof.
  intros [Hnd Hin]. unfold len. f_equal. rewrite <- size_dom, <- (length_fmap ze_Member l), <- (size_list_to_set (C := gset bytes)) by done.
  f_equal. apply set_eq. intros k. rewrite elem_of_list_to_set, elem_of_dom, list_elem_of_fmap. split.
  - intros ([k' x] & -> & Hx). apply Hin in Hx. by exists x.
  - intros [x Hx]. exists (mkEntry k x). by rewrite Hin.
Qed.

Lemma lists_range R : lists R (range_entries R).
Proof.
  split; [|intros k x; apply range_entries_in]. rewrite range_entries_members, range_keys_perm. apply NoDup_elements.
Qed.

Lemma steps_put_entries dest x l st m e : healthy (st_ctx st) → is_hash (view (st_ctx st) dest) m e →
  steps (for_each (x :: l) (λ y, emitZSetInsert dest (ze_Member y) (ze_Score y))) st tt (λ c', ∃ fs e',
    grown (st_ctx st) dest (put_entries (x :: l) m) fs e e' any_tag c').
Proof.
  revert x st m e. induction l as [|y l IH]; intros x st m e Hh Hx.
  - cbn [for_each]. eapply steps_bind; [by apply steps_zset_insert|]. cbv beta. intros c' Hh' [e' Hg].
    apply (steps_ret tt (mkSt c' _ _)); [done|]. by eexists _, e'.
  - cbn [for_each]. eapply steps_bind; [by apply steps_zset_insert|]. cbv beta. intros c' Hh' [e' Hg].
    eapply steps_weaken; [apply (IH y (mkSt c' _ _) (<[ze_Member x := float_value (ze_Score x)]> m) e'); [done|apply Hg]|].
    cbv beta. cbn [st_ctx]. intros c2 (fs & e2 & Hg2). eexists _, e2. by eapply grown_trans.
Qed.

Lemma steps_zset_delete dest st : healthy (st_ctx st) →
  steps (emitZSetDeleteKey dest) st tt (λ c', is_live (view c' dest) = false ∧ others (st_ctx st) dest c').
Proof.
  intros Hh. eapply steps_weaken; [by apply steps_emit|]. cbv beta. intros c' [Hv Ho]. split; [|done].
  rewrite Hv. by apply law_delete.
Qed.

Lemma finishes_store_nothing {A} dest (f : A → M unit) st R : healthy (st_ctx st) → R = ∅ →
  finishes (store_nothing dest ≫= f) st (WriteInteger (Z.of_nat (size R)) (st_w st)) (stored (st_ctx st) dest R).
Proof.
  intros Hh ->. eapply finishes_bind_bind; [by apply steps_zset_delete|]. cbv beta. intros c' Hh' [Hl Ho].
  change (finishes (reply (WriteInteger 0)) (mkSt c' (st_w st) (st_held st)) (WriteInteger (Z.of_nat (size (∅ : gmap bytes spec_float))) (st_w st))
    (stored (st_ctx st) dest ∅)). by apply finishes_reply.
Qed.

Lemma dead_hash v : is_live v = false → is_hash v ∅ ∅.
Proof. unfold is_hash. destruct v; [|done]. by intros ->. Qed.

Lemma finishes_store_entries dest l R st : healthy (st_ctx st) → lists R l →
  finishes (store_entries dest l) st (WriteInteger (Z.of_nat (size R)) (st_w st)) (stored (st_ctx st) dest R).
Proof.
  intros Hh Hl. pose proof (lists_empty _ _ Hl) as He. pose proof (lists_size _ _ Hl) as Hz. unfold store_entries.
  destruct l as [|x l].
  { change (len [] =? 0) with true. cbv iota. apply (finishes_store_nothing dest (λ _ : unit, mret tt) st R) in Hh; [|by apply He].
    destruct Hh as (o & c' & Hrun & Hrest). unfold mbind, M_bind in Hrun. exists o, c'. split; [|exact Hrest].
    destruct (store_nothing dest st) as [[[]| | |] s']; done. }
  rewrite Hz. assert (Hne : R ≠ ∅) by (intros E; by apply He in E). rewrite (proj2 (Z.eqb_neq (Z.of_nat (size R)) 0)).
  2: { intros E. apply Hne, map_size_empty_inv. lia. }
  eapply finishes_bind; [by apply steps_zset_delete|]. cbv beta. intros c2 Hh2 [Hd Ho].
  eapply finishes_bind; [apply (steps_put_entries dest x l (mkSt c2 _ _) ∅ ∅); [done|by apply dead_hash]|].
  cbv beta. cbn [st_ctx st_w st_held]. intros c3 Hh3 (fs & e' & Hg).
  eapply finishes_bind.
  { apply (steps_tag_fresh TYPE_ZSET dest (mkKeySnap None [] false false) (mkSt c3 _ _) c2 (put_entries (x :: l) ∅) fs ∅ e'); [done|done| |exact Hg]. by rewrite Hd. }
  cbv beta. cbn [st_ctx st_w st_held]. intros c4 Hh4 Hg4. apply finishes_write; [done|done|]. rewrite (put_entries_all R) in Hg4 by done.
  split; [|eapply others_trans; [exact Ho|apply Hg4]]. rewrite decide_False by done. exists e'. split; [apply Hg4|].
  pose proof (grown_attrs _ _ _ _ _ _ _ _ Hg4) as Ha. rewrite Hd in Ha. by destruct Ha as (t & -> & Ha).
Qed.

(** A store command whose arguments parse. *)
Lemma handle_store_accepts run cmd dest rest o : parseZStoreArgs cmd rest = OpGood o →
  handle_store run cmd (dest :: rest) = Accept (dest :: so_keys o) (run dest o).
Proof. intros Hp. destruct rest as [|a [|b rest]]; [done..|]. unfold handle_store. by rewrite Hp. Qed.

(** C34: ZUNIONSTORE: the destination becomes exactly the members of any source, each
    with its weighted scores aggregated in the order of the sources, whatever it
    was before and even when it is a source itself; the reply is their number. *)
Theorem zunionstore_correct (dest : bytes) (rest : list bytes) (o : SetOpArgs) (srcs : list source) (st : St) :
  healthy (st_ctx st) → parseZStoreArgs (str "zunionstore") rest = OpGood o → have_scores (st_ctx st) (sources o) srcs →
  ∃ run R, handleZUnionStore (dest :: rest) = Accept (dest :: so_keys o) run ∧ union_result (so_agg o) srcs R ∧
    finishes run st (WriteInteger (Z.of_nat (size R)) (st_w st)) (stored (st_ctx st) dest R).
Proof.
  intros Hh Hp Hk. exists (zunionstore_runner dest o), (union_all (so_agg o) ∅ srcs).
  split; [by apply handle_store_accepts|]. split; [apply union_all_spec|].
  eapply finishes_bind; [by apply steps_zunion|]. cbv beta. intros c' Hh' Hs.
  eapply finishes_weaken; [apply (finishes_store_entries dest _ _ (mkSt c' _ _)); [done|apply lists_range]|].
  cbn [st_ctx]. intros c2 [Hv Ho]. split; [done|]. intros k Hne. by rewrite Ho, Hs.
Qed.

(** ZINTERSTORE: the destination becomes exactly the members every source has,
    each with its weighted scores aggregated; nothing when a source is missing.
    No score of the first source may be an infinity weighted by zero. *)
Theorem zinterstore_correct (dest : bytes) (rest : list bytes) (o : SetOpArgs) (X : gmap bytes spec_float) (w : spec_float) (srcs : list source) (st : St) :
  healthy (st_ctx st) → parseZStoreArgs (str "zinterstore") rest = OpGood o →
  have_scores (st_ctx st) (sources o) ((X, w) :: srcs) → defined_products (X, w) →
  ∃ run R, handleZInterStore (dest :: rest) = Accept (dest :: so_keys o) run ∧ inter_result (so_agg o) ((X, w) :: srcs) R ∧
    finishes run st (WriteInteger (Z.of_nat (size R)) (st_w st)) (stored (st_ctx st) dest R).
Proof.
  intros Hh Hp Hk Hd. exists (zinterstore_runner dest o), (inter_all (so_agg o) ((λ s, float_mul s w) <$> X) srcs).
  split; [by apply handle_store_accepts|]. split; [by apply inter_all_spec|].
  assert (Hsame : ∀ c' R c2, same (st_ctx st) c' → stored c' dest R c2 → stored (st_ctx st) dest R c2).
  { intros c' R c2 Hs [Hv Ho]. split; [done|]. intros k Hne. by rewrite Ho, Hs. }
  inversion Hk as [|[key w'] ? keys' ? [Hx Hw] Hk' Eso]; subst. cbn in Hx, Hw. subst w'. unfold zinterstore_runner. rewrite <- Eso.
  eapply finishes_zinter; [done|exact Hx|exact Hk'| |].
  - intros c' Hh' Hs. eapply finishes_weaken; [apply (finishes_store_entries dest _ _ (mkSt c' _ _)); [done|apply lists_range]|].
    intros c2. by apply Hsame.
  - intros He c' Hh' Hs. eapply finishes_weaken; [apply (finishes_store_nothing dest _ (mkSt c' _ _)); [done|exact He]|].
    intros c2. by apply Hsame.
Qed.

(** ZDIFFSTORE: the destination becomes the members of the first source that no
    other has, with their scores. *)
Theorem zdiffstore_correct (dest key : bytes) (keys : list bytes) (X : gmap bytes spec_float) (Xs : list (gmap bytes spec_float)) (st : St) :
  healthy (st_ctx st) → Forall2 (λ k Y, has_scores (view (st_ctx st) k) Y) (key :: keys) (X :: Xs) →
  ∃ R, diff_result X Xs R ∧
    finishes (zdiffstore_runner dest (key :: keys)) st (WriteInteger (Z.of_nat (size R)) (st_w st)) (stored (st_ctx st) dest R).
Proof.
  intros Hh Hk. apply Forall2_cons in Hk as [Hx Hk]. exists (foldl (λ R Y, diff_with_set Y R) X Xs). split; [intros k; apply diff_all_lookup|].
  destruct (steps_members key st X Hh Hx) as (o & Hg & Ho). unfold zdiffstore_runner, zdiff.
  eapply finishes_bind_bind; [exact Hg|]. cbv beta. intros c' Hh' Hs.
  assert (Hsame : ∀ R c2, stored c' dest R c2 → stored (st_ctx st) dest R c2).
  { intros R c2 [Hv Ho2]. split; [done|]. intros k Hne. by rewrite Ho2, Hs. }
  destruct Ho as [->|[-> ->]].
  - eapply finishes_bind; [apply (steps_zdiff_rest keys Xs (mkSt c' _ _)); [done|]|].
    + eapply Forall2_impl; [exact Hk|]. intros k Y. cbn [st_ctx]. by rewrite Hs.
    + cbv beta. cbn [st_ctx st_w st_held]. intros c2 Hh2 Hs2.
      eapply finishes_weaken; [apply (finishes_store_entries dest _ _ (mkSt c2 _ _)); [done|apply lists_range]|].
      cbn [st_ctx]. intros c3 [Hv Ho2]. apply Hsame. split; [done|]. intros k Hne. by rewrite Ho2, Hs2.
  - eapply finishes_weaken; [apply (finishes_store_nothing dest _ (mkSt c' _ _)); [done|]|intros c2; apply Hsame].
    apply map_eq. intros k. rewrite diff_all_lookup, lookup_empty. by case_decide.
Qed.

(** The first set of an intersection keeps a score that is not a number, where
    a union makes it zero: an infinite score weighted by zero is stored as NaN. *)
Lemma inter_keeps_nan : let inf : gmap bytes spec_float := {[ [97] := S754_infinity false ]} in
  weighted (S754_infinity false) (float64_of 0) = S754_zero false ∧
  inter_all AggMin ((λ s, float_mul s (float64_of 0)) <$> inf) [] = {[ [97] := S754_nan ]}.
Proof. vm_compute. done. Qed.
End ZsetOpRuns.

(** * The sorted-set commands on concrete sets

    Concrete runs of the theorems on sorted sets, and the inputs on which the
    commands depart from what their relatives do. *)


(** ** Departures *)

Section ZsetFacts.
Context `{Engine} `{ParseFloat} `{FormatG} `{RangeOrder}.

(** A number of keys near the largest integer passes the length test, whose sum
    wraps, and the allocation panics. *)
Lemma zset_numkeys_panics (k : bytes) :
  handleZMPop [str "9223372036854775807"; k; str "MIN"] = Crash ∧
  handleZUnion [str "9223372036854775807"; k] = Crash ∧
  handleZInterCard [str "9223372036854775807"; k] = Crash ∧
  handleZDiff [str "9223372036854775807"; k] = Crash ∧
  handleZUnionStore [k; str "9223372036854775807"; k] = Crash.
Proof. done. Qed.
End ZsetFacts.

Module ZsetExample.
Import RefEngine StringExample.
#[local] Instance sorted_order : RangeOrder := λ X, elements X.
#[local] Instance sorted_order_laws : RangeOrderLaws.
Proof. by intros X. Qed.
#[local] Instance zero_rand : Rand := λ _ _, 0.
#[local] Instance whole_format : FormatG := λ f, FormatInt (int64_of_float f).

Definition score (n : Z) : Value := float_value (float64_of n).
Definition abc : gmap bytes Value := {[ str "a" := score 3; str "b" := score 1; str "c" := score 2 ]}.
Definition cd : gmap bytes Value := {[ str "c" := score 10; str "d" := score 20 ]}.
Definition zset (m : gmap bytes Value) : ReducedEffect := mkReduced INSERT_OP KEYED TYPE_ZSET None m [].
Definition zsets : St := mkSt (holding {[ str "z" := zset abc; str "y" := zset cd ]}) (NewWriter []) [].
Lemma zsets_healthy : healthy (st_ctx zsets).
Proof. exact I. Qed.
Lemma z_is_zset : is_hash (view (st_ctx zsets) (str "z")) abc ∅.
Proof. by vm_compute. Qed.
Lemma abc_no_nan : no_nan (scores_of abc).
Proof. apply (bool_decide_unpack _). by vm_compute. Qed.

Lemma zadd_correct_witness :
  ∃ run m', handleZAdd [str "z"; str "GT"; str "CH"; str "2"; str "a"; str "5"; str "d"] = Accept [str "z"] run ∧
    zadd_result (mkZAddOpts false false true false true false) [(float64_of 2, str "a"); (float64_of 5, str "d")] abc m' ∧
    finishes run zsets (WriteInteger 1 (NewWriter []))
      (λ c', ∃ fs e', grown (st_ctx zsets) (str "z") m' fs ∅ e' (λ t, t = TYPE_ZSET) c').
Proof.
  destruct (zadd_correct (str "z") [str "GT"; str "CH"; str "2"; str "a"; str "5"; str "d"] [str "2"; str "a"; str "5"; str "d"]
    (mkZAddOpts false false true false true false) (float64_of 2, str "a") [(float64_of 5, str "d")] zsets abc ∅
    zsets_healthy z_is_zset eq_refl eq_refl eq_refl eq_refl) as (run & Hp & m' & _ & Hr & Hf);
    [cbn; lia|reflexivity|reflexivity|discriminate|].
  exists run, m'. split; [exact Hp|]. split; [|exact Hf].
  apply Hr. apply (bool_decide_unpack _). by vm_compute.
Defined.

(** A new member named twice is counted twice. *)
Lemma zadd_counted_twice :
  match handleZAdd [str "z"; str "1"; str "e"; str "2"; str "e"] with
  | Accept _ run => st_w (snd (run zsets)) = WriteInteger 2 (NewWriter [])
  | _ => False
  end.
Proof. by vm_compute. Qed.

Lemma zrank_correct_witness :
  ∃ zrank zrevrank, handleZRank [str "z"; str "a"] = Accept [str "z"] zrank ∧ handleZRevRank [str "z"; str "a"] = Accept [str "z"] zrevrank ∧
    finishes zrank zsets (WriteInteger 2 (NewWriter [])) (same (st_ctx zsets)) ∧
    finishes zrevrank zsets (WriteInteger 0 (NewWriter [])) (same (st_ctx zsets)).
Proof. exact (zrank_correct (str "z") (str "a") zsets abc ∅ zsets_healthy z_is_zset abc_no_nan). Defined.

Lemma zrange_correct_witness :
  ∃ run l r, handleZRange [str "z"; str "3"; str "(1"; str "byscore"; str "rev"; str "limit"; str "0"; str "1"] = Accept [str "z"] run ∧
    sorted_of (scores_of abc) l ∧
    range_spec (SelScore (float64_of 3) (float64_of 1) false true) (mkRangeOpts true false true false 0 1 true) l r ∧
    finishes run zsets (writeZSetEntries r false (NewWriter [])) (same (st_ctx zsets)).
Proof.
  exact (zrange_correct (str "z") (str "3") (str "(1") [str "byscore"; str "rev"; str "limit"; str "0"; str "1"]
    (mkRangeOpts true false true false 0 1 true) (SelScore (float64_of 3) (float64_of 1) false true) zsets abc ∅
    zsets_healthy z_is_zset abc_no_nan eq_refl eq_refl).
Defined.

Lemma zincrby_correct_witness :
  ∃ run, handleZIncrBy [str "z"; str "4"; str "b"] = Accept [str "z"] run ∧
    finishes run zsets (WriteScore (float64_of 5) (NewWriter [])) (λ c', ∃ e',
      grown (st_ctx zsets) (str "z") (<[str "b" := score 5]> abc) [str "b"] ∅ e' (λ t, t = TYPE_ZSET) c').
Proof.
  refine (zincrby_correct (str "z") (str "4") (str "b") (float64_of 4) zsets abc ∅ zsets_healthy z_is_zset eq_refl eq_refl _ _).
  - by vm_compute.
  - intros v Hv. vm_compute in Hv. injection Hv as <-. by eexists.
Defined.

Lemma zpop_correct_witness :
  ∃ run popped, handleZPopMax [str "z"; str "2"] = Accept [str "z"] run ∧ end_of false 2 (scores_of abc) popped ∧
    finishes run zsets (write_pairs false popped (NewWriter []))
      (shrunk (st_ctx zsets) (str "z") (drop_fields (ze_Member <$> popped) abc) ∅).
Proof. apply (zpop_correct false (str "zpopmax") (str "z") (str "2") 2 zsets abc ∅ zsets_healthy z_is_zset abc_no_nan); [reflexivity|lia]. Defined.

Lemma y_z_scores : have_scores (st_ctx zsets) [(str "z", float64_of 1); (str "y", float64_of 2)]
  [(scores_of abc, float64_of 1); (scores_of cd, float64_of 2)].
Proof. repeat constructor; cbn [fst snd]; (eexists; split_and!; [reflexivity|reflexivity|by vm_compute]). Qed.

Lemma zunionstore_correct_witness :
  ∃ run R, handleZUnionStore [str "d"; str "2"; str "z"; str "y"; str "weights"; str "1"; str "2"] = Accept [str "d"; str "z"; str "y"] run ∧
    union_result AggSum [(scores_of abc, float64_of 1); (scores_of cd, float64_of 2)] R ∧
    finishes run zsets (WriteInteger (Z.of_nat (size R)) (NewWriter [])) (stored (st_ctx zsets) (str "d") R).
Proof.
  exact (zunionstore_correct (str "d") [str "2"; str "z"; str "y"; str "weights"; str "1"; str "2"]
    (mkSetOpArgs [str "z"; str "y"] [float64_of 1; float64_of 2] AggSum false)
    [(scores_of abc, float64_of 1); (scores_of cd, float64_of 2)] zsets zsets_healthy eq_refl y_z_scores).
Defined.

Lemma zinterstore_correct_witness :
  ∃ run R, handleZInterStore [str "z"; str "2"; str "z"; str "y"; str "weights"; str "1"; str "2"] = Accept [str "z"; str "z"; str "y"] run ∧
    inter_result AggSum [(scores_of abc, float64_of 1); (scores_of cd, float64_of 2)] R ∧
    finishes run zsets (WriteInteger (Z.of_nat (size R)) (NewWriter [])) (stored (st_ctx zsets) (str "z") R).
Proof.
  refine (zinterstore_correct (str "z") [str "2"; str "z"; str "y"; str "weights"; str "1"; str "2"]
    (mkSetOpArgs [str "z"; str "y"] [float64_of 1; float64_of 2] AggSum false)
    (scores_of abc) (float64_of 1) [(scores_of cd, float64_of 2)] zsets zsets_healthy eq_refl y_z_scores _).
  apply (bool_decide_unpack _). by vm_compute.
Defined.
End ZsetExample.
