(* ===== verification/HyperLogLog.v ===== *)
(** * HyperLogLog

    The HLL values of src/redis/shared/item.go (the hash, the rank of a hash, the
    registers and the estimate of their cardinality) and the PF commands of
    src/redis/hll/core.go.

    The estimate is computed in binary64 as the code does, operation by
    operation, with the constants Go folds exactly and then rounds; a multiply
    and an add are rounded separately. *)

From Stdlib Require Import SpecFloat.
From S2P Require Import Prelude GoBytes Strconv Floats Commands Writer Engine Acl Dispatch.

Local Open Scope Z_scope.

(** ** The hash *)

Definition rotl64 (n x : Z) : Z := Z.lor (u64 (Z.shiftl x n)) (Z.shiftr x (64 - n)).
Definition mul64 (a b : Z) : Z := u64 (a * b).
Definition add64 (a b : Z) : Z := u64 (a + b).

Definition murmur_c1 : Z := 0x87c37b91114253d5.
Definition murmur_c2 : Z := 0x4cf5ad432745937f.

(** Bytes as a little-endian word. *)
Definition le_get (b : bytes) : Z := foldr (λ c acc, Z.lor c (Z.shiftl acc 8)) 0 b.

Definition mix_k1 (k1 : Z) : Z := mul64 (rotl64 31 (mul64 k1 murmur_c1)) murmur_c2.
Definition mix_k2 (k2 : Z) : Z := mul64 (rotl64 33 (mul64 k2 murmur_c2)) murmur_c1.

(** One block of 16 bytes. *)
Definition hash_block (h : Z * Z) (block : bytes) : Z * Z :=
  let '(h1, h2) := h in
  let h1 := Z.lxor h1 (mix_k1 (le_get (take 8 block))) in
  let h1 := add64 (rotl64 27 h1) h2 in
  let h1 := add64 (mul64 h1 5) 0x52dce729 in
  let h2 := Z.lxor h2 (mix_k2 (le_get (drop 8 block))) in
  let h2 := add64 (rotl64 31 h2) h1 in
  let h2 := add64 (mul64 h2 5) 0x38495ab5 in
  (h1, h2).
Fixpoint hash_blocks (nblocks : nat) (h : Z * Z) (data : bytes) : Z * Z * bytes :=
  match nblocks with
  | O => (h, data)
  | S n => hash_blocks n (hash_block h (take 16 data)) (drop 16 data)
  end.

(** The switch over the length of the tail falls through: from nine bytes on the
    second word is mixed, from one byte on the first. *)
Definition hash_tail (h : Z * Z) (tail : bytes) : Z * Z :=
  let '(h1, h2) := h in
  let h2 := if (8 <? length tail)%nat then Z.lxor h2 (mix_k2 (le_get (drop 8 tail))) else h2 in
  let h1 := if (0 <? length tail)%nat then Z.lxor h1 (mix_k1 (le_get (take 8 tail))) else h1 in
  (h1, h2).

Definition fmix64 (h : Z) : Z :=
  let h := Z.lxor h (Z.shiftr h 33) in
  let h := mul64 h 0xff51afd7ed558ccd in
  let h := Z.lxor h (Z.shiftr h 33) in
  let h := mul64 h 0xc4ceb9fe1a85ec53 in
  Z.lxor h (Z.shiftr h 33).

Definition HLLHash (data : bytes) : Z :=
  let '(h, tail) := hash_blocks (length data / 16) (0, 0) data in
  let '(h1, h2) := hash_tail h tail in
  let length := u64 (len data) in
  let h1 := Z.lxor h1 length in
  let h2 := Z.lxor h2 length in
  let h1 := add64 h1 h2 in
  let h2 := add64 h2 h1 in
  add64 (fmix64 h1) (fmix64 h2).

(** Leading zeros of 64 bits, and one; the loop stops at the first one, which is
    among the 64. *)
Fixpoint rho_loop (fuel : nat) (count bits : Z) : Z :=
  match fuel with
  | O => count
  | S fuel' =>
    if Z.land bits 0x8000000000000000 =? 0 then rho_loop fuel' (u8 (count + 1)) (u64 (Z.shiftl bits 1))
    else count
  end.
Definition HLLRho (bits : Z) : Z := if bits =? 0 then 64 else rho_loop 64 1 bits.

(** ** Registers *)

Definition register_count : nat := Z.to_nat 16384.
Abbreviation Registers := (list Z).
Definition empty_registers : Registers := replicate register_count 0.

Definition hllHashElement (element : bytes) : nat * Z :=
  let hash := HLLHash element in
  (Z.to_nat (Z.land hash 0x3FFF), Z.min (HLLRho (u64 (Z.shiftl hash 14))) 63).

(** [if rho > registers[i] { registers[i] = rho }], and whether it did. *)
Definition raise (regs : Registers) (i : nat) (rho : Z) : bool * Registers :=
  if regs !!! i <? rho then (true, <[i := rho]> regs) else (false, regs).
Definition HLL_Add (element : bytes) (regs : Registers) : bool * Registers :=
  let '(i, rho) := hllHashElement element in raise regs i rho.

Definition HLL_Merge (regs other : Registers) : Registers := zip_with (λ a b, if a <? b then b else a) regs other.

(** ** The estimate *)

Definition float_half : spec_float := Float64frombits 4602678819172646912.
(** [alpha * m * m] with [alpha = 0.7213 / (1 + 1.079/m)], folded by the compiler. *)
Definition alpha_m_m : spec_float := Float64frombits 0x41a714801fbccd72.
(** [(1<<32)/30.0]. *)
Definition large_range : spec_float := Float64frombits 0x41a1111111111111.
Definition ln2 : spec_float := Float64frombits 4604418534313441775.

(** [for x >= 2] and [for x < 0.5]: 2^1100 is above every double and its inverse
    below every positive one. *)
Fixpoint halve (fuel : nat) (x : spec_float) (exp : Z) : spec_float * Z :=
  match fuel with
  | O => (x, exp)
  | S fuel' => if SFleb (float64_of 2) x then halve fuel' (float_div x (float64_of 2)) (exp + 1) else (x, exp)
  end.
Fixpoint twice (fuel : nat) (x : spec_float) (exp : Z) : spec_float * Z :=
  match fuel with
  | O => (x, exp)
  | S fuel' => if SFltb x float_half then twice fuel' (float_mul x (float64_of 2)) (exp - 1) else (x, exp)
  end.
(** [for i := 3; i < 50; i += 2]: 24 rounds. *)
Fixpoint taylor (rounds : nat) (i : Z) (y2 term result : spec_float) : spec_float :=
  match rounds with
  | O => result
  | S rounds' =>
    let term := float_mul term y2 in
    taylor rounds' (i + 2) y2 term (float_add result (float_div term (float64_of i)))
  end.
Definition nativeLog (x : spec_float) : spec_float :=
  if SFleb x (S754_zero false) then Float64frombits 0xffe1ccf385ebc8a0
  else if SFeqb x (float64_of 1) then S754_zero false
  else
    let '(x, exp) := halve 1100 x 0 in
    let '(x, exp) := twice 1100 x exp in
    let y := float_div (float_sub x (float64_of 1)) (float_add x (float64_of 1)) in
    let result := taylor 24 3 (float_mul y y) y y in
    float_add (float_mul result (float64_of 2)) (float_mul (float64_of exp) ln2).

(** [logTable[i]], which panics out of range. *)
Definition logTable (i : Z) : option spec_float :=
  if (i <? 0) || (16384 <? i) then None
  else if i =? 0 then Some (S754_zero false)
  else Some (SFopp (nativeLog (float_div (float64_of i) (float64_of 16384)))).

(** [uint64(1)<<val], zero from 64 on. *)
Definition pow_register (val : Z) : Z := u64 (Z.shiftl 1 val).
Definition harmonic_sum (regs : Registers) : spec_float :=
  fold_left (λ sum val, float_add sum (float_div (float64_of 1) (float64_of (pow_register val)))) regs (S754_zero false).
Definition count_zeros (regs : Registers) : Z := len (filter (λ val, val = 0) regs).

Definition large_estimate (estimate : spec_float) : option spec_float :=
  let two32 := float64_of (2 ^ 32) in
  t ← logTable (int64_of_float (float_mul two32 (float_sub (float64_of 1) (float_div estimate two32))));
  Some (float_mul (SFopp two32) t).

(** [None] is the panic of [logTable]. *)
Definition HLL_Count (regs : Registers) : option Z :=
  let estimate := float_div alpha_m_m (harmonic_sum regs) in
  let zeros := count_zeros regs in
  estimate ←
    (if SFleb estimate (float64_of 40960) then
       if 0 <? zeros then t ← logTable zeros; Some (float_mul (float64_of 16384) t) else Some estimate
     else if SFltb large_range estimate then large_estimate estimate
     else Some estimate);
  if SFltb estimate (S754_zero false) then Some 0
  else Some (int64_of_float (float_add estimate float_half)).

(** ** Commands *)
Section Commands.
Context `{Engine}.

Definition classify_hll (snap : option ReducedEffect) (tips : list Tip) : KeySnap :=
  match snap with
  | None => mkKeySnap None tips false false
  | Some r =>
    if bool_decide (re_Op r = REMOVE_OP) then mkKeySnap None tips false false
    else if bool_decide (re_Collection r = SCALAR) && bool_decide (re_TypeTag r = TYPE_HLL) then mkKeySnap snap tips true false
    else mkKeySnap None tips true true
  end.
Definition getHLLSnapshot (key : bytes) : M KeySnap :=
  '(snap, tips) ← get_snapshot key;
  mret (classify_hll snap tips).

(** The bytes of a snapshot's scalar, none without one. *)
Definition scalar_bytes (snap : option ReducedEffect) : bytes :=
  match snap ≫= re_Scalar with Some v => Decompress v | None => [] end.

(** At most 16384 bytes are copied into an empty array. *)
Definition reconstructHLL (snap : option ReducedEffect) : Registers :=
  let raw := take register_count (scalar_bytes snap) in
  raw ++ drop (length raw) empty_registers.
Definition mergeHLLFromSnap (dst : Registers) (snap : option ReducedEffect) : Registers :=
  let raw := take register_count (scalar_bytes snap) in
  HLL_Merge dst raw ++ drop (length raw) dst.

Definition max_bytes (raw : bytes) : EffectKind :=
  Effect_Data (mkData INSERT_OP MAX_BYTES SCALAR PLACE_NONE [] [] (Some (Raw raw))).
Definition emitHLLScalar (key : bytes) (regs : Registers) (tips : list Tip) : M unit :=
  emit (mkEffect key (max_bytes regs)) tips.
Definition emitHLLTypeTag (key : bytes) : M unit :=
  emit (mkEffect key (Effect_Meta (tag_meta TYPE_HLL))) [].

(** Every element into the registers, and whether one changed. *)
Definition add_elements (elements : list bytes) (regs : Registers) : bool * Registers :=
  fold_left (λ s elem, let '(m, regs) := HLL_Add elem (snd s) in (fst s || m, regs)) elements (false, regs).

Definition pfadd_runner (key : bytes) (elements : list bytes) : M unit :=
  s ← getHLLSnapshot key;
  if ks_wrongType s then reply WriteWrongType
  else
    let '(changed, current) := add_elements elements (reconstructHLL (ks_snap s)) in
    let modified := changed || (match elements with [] => true | _ => false end && negb (ks_exists s)) in
    _ ← (if negb (ks_exists s) then emitHLLTypeTag key else mret tt);
    if modified then
      _ ← emitHLLScalar key current (ks_tips s);
      write (WriteInteger 1)
    else write (WriteInteger 0).
Definition handlePFAdd (args : list bytes) : Prep :=
  match args with
  | key :: elements => Accept [key] (pfadd_runner key elements)
  | [] => Refuse [] (WriteWrongNumArguments (str "pfadd"))
  end.

(** The registers of the keys that exist, merged; a key of another type ends the
    command. *)
Fixpoint merge_keys (keys : list bytes) (merged : Registers) : M Registers :=
  match keys with
  | [] => mret merged
  | key :: keys' =>
    s ← getHLLSnapshot key;
    if ks_exists s && ks_wrongType s then reply WriteWrongType
    else merge_keys keys' (if ks_exists s then mergeHLLFromSnap merged (ks_snap s) else merged)
  end.

Definition pfcount_runner (keys : list bytes) : M unit :=
  match keys with
  | [key] =>
    s ← getHLLSnapshot key;
    if negb (ks_exists s) then reply (WriteInteger 0)
    else if ks_wrongType s then reply WriteWrongType
    else n ← or_panic (HLL_Count (reconstructHLL (ks_snap s))); reply (WriteInteger n)
  | _ =>
    merged ← merge_keys keys empty_registers;
    n ← or_panic (HLL_Count merged);
    write (WriteInteger n)
  end.
Definition handlePFCount (args : list bytes) : Prep :=
  match args with
  | [] => Refuse [] (WriteWrongNumArguments (str "pfcount"))
  | keys => Accept keys (pfcount_runner keys)
  end.

Definition pfmerge_runner (destKey : bytes) (srcKeys : list bytes) : M unit :=
  d ← getHLLSnapshot destKey;
  if ks_exists d && ks_wrongType d then reply WriteWrongType
  else
    merged ← merge_keys srcKeys (reconstructHLL (ks_snap d));
    _ ← (if negb (ks_exists d) then emitHLLTypeTag destKey else mret tt);
    _ ← emitHLLScalar destKey merged (ks_tips d);
    write WriteOK.
Definition handlePFMerge (args : list bytes) : Prep :=
  match args with
  | destKey :: srcKeys => Accept (destKey :: srcKeys) (pfmerge_runner destKey srcKeys)
  | [] => Refuse [] (WriteWrongNumArguments (str "pfmerge"))
  end.

(** The element a number of the self test stands for. *)
Definition test_element (i : Z) : bytes :=
  [u8 (Z.shiftr i 24); u8 (Z.shiftr i 16); u8 (Z.shiftr i 8); u8 i].
Definition test_registers (first count : Z) : Registers :=
  snd (add_elements (test_element <$> seqZ first count) empty_registers).
Definition pfselftest_runner : M unit :=
  let hll := test_registers 0 1000 in
  count ← or_panic (HLL_Count hll);
  if (count <? 900) || (1100 <? count) then reply (WriteError (str "ERR HLL self test failed: count deviation too high"))
  else
    mergedCount ← or_panic (HLL_Count (HLL_Merge hll (test_registers 1000 1000)));
    if (mergedCount <? 1800) || (2200 <? mergedCount)
    then reply (WriteError (str "ERR HLL self test failed: merged count deviation too high"))
    else write WriteOK.
Definition handlePFSelfTest (_ : list bytes) : Prep := Accept [] pfselftest_runner.

Definition write_registers (regs : Registers) : M unit :=
  _ ← write (WriteArray 16384);
  for_each regs (λ reg, write (WriteInteger reg)).
Definition pfdebug_runner (subCmd key : bytes) : M unit :=
  s ← getHLLSnapshot key;
  if negb (ks_exists s) then reply WriteNullBulkString
  else if ks_wrongType s then reply WriteWrongType
  else
    let hll := reconstructHLL (ks_snap s) in
    if beq subCmd (str "GETREG") || beq subCmd (str "DECODE") then write_registers hll
    else if beq subCmd (str "ENCODING") then write (WriteBulkStringStr (str "dense"))
    else if beq subCmd (str "TODENSE") then write (WriteInteger 0)
    else write (WriteError (str "ERR Unknown PFDEBUG subcommand '" ++ subCmd ++ str "'")).
Definition handlePFDebug (args : list bytes) : Prep :=
  match args with
  | sub :: key :: _ => Accept [key] (pfdebug_runner (ascii_upper sub) key)
  | _ => Refuse [] (WriteWrongNumArguments (str "pfdebug"))
  end.

Definition register_hll (ty : CommandType) : option CommandEntry :=
  match ty with
  | CmdPFAdd => Some (write_entry handlePFAdd KeysFirst)
  | CmdPFCount => Some (handler_entry handlePFCount)
  | CmdPFMerge => Some (write_entry handlePFMerge KeysAll)
  | CmdPFSelfTest => Some (handler_entry handlePFSelfTest)
  | CmdPFDebug => Some (handler_entry handlePFDebug)
  | _ => None
  end.
End Commands.
