(* ===== verification/HllProps.v ===== *)
(** * HyperLogLogs as sets of elements

    A register array stands for every set of elements that has it as its least
    upper bound; PFADD adds elements to the set, PFMERGE unites sets, and PFCOUNT
    depends only on the set.  What the engine does with the effects of these
    commands is the class [HllLaws]. *)

From Stdlib Require Import SpecFloat.
From S2P Require Import Prelude GoBytes Strconv Floats Commands Writer Engine Runs Acl Dispatch HyperLogLog.

Local Open Scope Z_scope.

(** ** Ranks *)

Lemma land_top bits : 0 <= bits < 2 ^ 64 → (Z.land bits 0x8000000000000000 =? 0) = (bits <? 2 ^ 63).
Proof.
  intros Hb. change 0x8000000000000000 with (2 ^ 63). destruct (Z.ltb_spec bits (2 ^ 63)) as [Hl|Hl].
  - apply Z.eqb_eq, Z.bits_inj'. intros i Hi. rewrite Z.land_spec, Z.bits_0, Z.pow2_bits_eqb by lia. destruct (Z.eqb_spec 63 i) as [<-|]; [|apply andb_false_r].
    rewrite andb_true_r. apply Z.bits_above_log2; [lia|]. destruct (decide (bits = 0)) as [->|]; [done|]. apply Z.log2_lt_pow2; lia.
  - apply Z.eqb_neq. intros He. assert (Ht : Z.testbit (Z.land bits (2 ^ 63)) 63 = true); [|by rewrite He, Z.bits_0 in Ht].
    rewrite Z.land_spec, Z.pow2_bits_true by lia. rewrite andb_true_r. rewrite Z.testbit_true by lia.
    replace (bits / 2 ^ 63) with 1; [done|]. apply Z.div_unique with (bits - 2 ^ 63); lia.
Qed.

(** The loop counts the zeros above the highest one. *)
Lemma rho_loop_spec fuel count bits : 0 < bits < 2 ^ 64 → 0 <= count → 63 - Z.log2 bits < Z.of_nat fuel → count + 63 - Z.log2 bits < 256 →
  rho_loop fuel count bits = count + 63 - Z.log2 bits.
Proof.
  revert count bits. induction fuel as [|fuel IH]; intros count bits Hb Hc Hf Hu; cbn [rho_loop].
  { assert (Z.log2 bits < 64) by (apply Z.log2_lt_pow2; lia). lia. }
  rewrite land_top by lia. destruct (Z.ltb_spec bits (2 ^ 63)) as [Hl|Hl].
  - assert (Hlog : Z.log2 bits < 63) by (apply Z.log2_lt_pow2; lia). rewrite Z.shiftl_mul_pow2 by lia. change (2 ^ 1) with 2.
    assert (Hl2 : Z.log2 (bits * 2) = Z.log2 bits + 1) by (rewrite (Z.mul_comm bits 2), Z.log2_double by lia; lia).
    unfold u8, u64. rewrite !Z.mod_small by lia. rewrite IH; rewrite ?Hl2; lia.
  - assert (Z.log2 bits = 63) as -> by (apply Z.log2_unique; lia). lia.
Qed.
Theorem HLLRho_correct bits : 0 <= bits < 2 ^ 64 → HLLRho bits = if decide (bits = 0) then 64 else 64 - Z.log2 bits.
Proof.
  intros Hb. unfold HLLRho. destruct (Z.eqb_spec bits 0) as [->|Hne]; [done|]. rewrite decide_False by done.
  pose proof (Z.log2_nonneg bits). rewrite rho_loop_spec; lia.
Qed.

Definition elem_index (x : bytes) : nat := fst (hllHashElement x).
Definition elem_rank (x : bytes) : Z := snd (hllHashElement x).
Lemma elem_index_lt x : (elem_index x < register_count)%nat.
Proof.
  unfold elem_index, hllHashElement, register_count. cbn [fst]. change 0x3FFF with (Z.ones 14). rewrite Z.land_ones by lia.
  pose proof (Z.mod_pos_bound (HLLHash x) (2 ^ 14) ltac:(lia)). lia.
Qed.
Lemma elem_rank_range x : 1 <= elem_rank x <= 63.
Proof.
  unfold elem_rank, hllHashElement. cbn [snd]. set (b := u64 _). assert (Hb : 0 <= b < 2 ^ 64) by (apply Z.mod_pos_bound; lia).
  rewrite HLLRho_correct by done. destruct (decide (b = 0)); [lia|]. pose proof (Z.log2_nonneg b). assert (Z.log2 b < 64) by (apply Z.log2_lt_pow2; lia). lia.
Qed.

(** ** What an array stands for *)

(** Every register is the largest rank of the elements that fall on it, zero where
    there is none. *)
Definition covers (S : gset bytes) (regs : Registers) : Prop :=
  length regs = register_count ∧
  ∀ i r, regs !! i = Some r →
    0 <= r ∧ (∀ x, x ∈ S → elem_index x = i → elem_rank x <= r) ∧ (r = 0 ∨ ∃ x, x ∈ S ∧ elem_index x = i ∧ elem_rank x = r).

(** A set has one array. *)
Lemma covers_unique S a b : covers S a → covers S b → a = b.
Proof.
  intros [Hla Ha] [Hlb Hb]. apply list_eq_same_length with register_count; [done|by rewrite Hla|]. intros i x y _ Hx Hy.
  destruct (Ha i x Hx) as (Hx0 & Hxu & Hxe), (Hb i y Hy) as (Hy0 & Hyu & Hye).
  destruct Hxe as [->|(u & Hu & Hui & <-)], Hye as [->|(w & Hw & Hwi & <-)]; [done|..].
  - pose proof (Hxu w Hw Hwi). lia.
  - pose proof (Hyu u Hu Hui). lia.
  - pose proof (Hxu w Hw Hwi). pose proof (Hyu u Hu Hui). lia.
Qed.
Lemma covers_empty : covers ∅ empty_registers.
Proof.
  split; [apply length_replicate|]. intros i r [-> _]%lookup_replicate. split_and!; [done| |by left]. intros x Hx. by apply not_elem_of_empty in Hx.
Qed.
Lemma covers_bytes S regs : covers S regs → Forall is_u8 regs.
Proof.
  intros [_ Hc]. apply Forall_lookup. intros i r Hr. destruct (Hc i r Hr) as (Hr0 & _ & [->|(x & _ & _ & <-)]); [done|]. pose proof (elem_rank_range x). unfold is_u8. lia.
Qed.

Lemma covers_add S regs x : covers S regs → covers (S ∪ {[x]}) (snd (HLL_Add x regs)) ∧ (fst (HLL_Add x regs) = true ↔ snd (HLL_Add x regs) ≠ regs).
Proof.
  intros [Hl Hc]. unfold HLL_Add. pose proof (elem_index_lt x) as Hi. unfold elem_index in Hi. pose proof (elem_rank_range x) as Hr. unfold elem_rank in Hr.
  assert (Hei : elem_index x = fst (hllHashElement x)) by done. assert (Her : elem_rank x = snd (hllHashElement x)) by done.
  destruct (hllHashElement x) as [i rho]. cbn [fst snd] in *. unfold raise. destruct (lookup_lt_is_Some_2 regs i ltac:(lia)) as [old Hold].
  rewrite (list_lookup_total_correct _ _ _ Hold). destruct (Z.ltb_spec old rho) as [Hlt|Hge]; cbn [fst snd].
  - split; [split; [by rewrite length_insert|]|]; [intros j r Hj|].
    + destruct (decide (j = i)) as [->|Hne].
      * rewrite list_lookup_insert_eq in Hj by lia. injection Hj as <-. destruct (Hc i old Hold) as (_ & Hu & _). split_and!; [lia| |right; exists x; split_and!; [set_solver|done|done]].
        intros y [Hy| ->%elem_of_singleton]%elem_of_union Hyi; [|lia]. pose proof (Hu y Hy Hyi). lia.
      * rewrite list_lookup_insert_ne in Hj by done. destruct (Hc j r Hj) as (H0 & Hu & He). split_and!; [done| |].
        -- intros y [Hy| ->%elem_of_singleton]%elem_of_union Hyi; [by apply Hu|congruence].
        -- destruct He as [->|(y & Hy & ?)]; [by left|right; exists y; set_solver].
    + split; [|done]. intros _ E. assert (Hx : <[i := rho]> regs !! i = Some rho) by (apply list_lookup_insert_eq; lia). rewrite E, Hold in Hx. injection Hx as ->. lia.
  - split; [split; [done|]|done]. intros j r Hj. destruct (Hc j r Hj) as (H0 & Hu & He). split_and!; [done| |].
    + intros y [Hy| ->%elem_of_singleton]%elem_of_union Hyi; [by apply Hu|]. assert (j = i) as -> by congruence. rewrite Hold in Hj. injection Hj as <-. lia.
    + destruct He as [->|(y & Hy & ?)]; [by left|right; exists y; set_solver].
Qed.

(** Registers only grow. *)
Definition below (a b : Registers) : Prop := Forall2 Z.le a b.
Lemma below_antisym a b : below a b → below b a → a = b.
Proof. induction 1 as [|x y a b Hle _ IH]; [done|]. intros Hb. apply Forall2_cons in Hb as [Hle' Hb]. f_equal; [lia|auto]. Qed.
Lemma below_max a b : below a b → zip_with Z.max a b = b.
Proof. induction 1 as [|x y a b Hle _ IH]; [done|]. cbn. rewrite IH. f_equal. lia. Qed.
Lemma covers_below S T a b : S ⊆ T → covers S a → covers T b → below a b.
Proof.
  intros Hst [Hla Ha] [Hlb Hb]. apply Forall2_same_length_lookup. split; [congruence|]. intros i x y Hx Hy.
  destruct (Ha i x Hx) as (_ & _ & [->|(z & Hz & Hzi & <-)]), (Hb i y Hy) as (Hy0 & Hyu & _); [done|]. apply Hyu; [set_solver|done].
Qed.

Lemma add_elements_snoc elems x regs :
  add_elements (elems ++ [x]) regs = let '(m, r) := HLL_Add x (snd (add_elements elems regs)) in (fst (add_elements elems regs) || m, r).
Proof. unfold add_elements. by rewrite fold_left_app. Qed.
Lemma covers_adds S regs elems : covers S regs →
  covers (S ∪ list_to_set elems) (snd (add_elements elems regs)) ∧ fst (add_elements elems regs) = negb (bool_decide (snd (add_elements elems regs) = regs)).
Proof.
  intros Hc. induction elems as [|x elems [IHc IHf]] using rev_ind.
  - cbn. rewrite bool_decide_eq_true_2 by done. split; [|done]. by rewrite union_empty_r_L.
  - rewrite add_elements_snoc. destruct (covers_add _ _ x IHc) as [Hx Hf]. destruct (HLL_Add x _) as [m r]. cbn [fst snd] in *.
    replace (S ∪ list_to_set (elems ++ [x])) with (S ∪ list_to_set elems ∪ {[x]}) by (rewrite list_to_set_app_L, list_to_set_singleton_L; set_solver).
    split; [done|]. rewrite IHf. destruct (decide (r = regs)) as [->|Hne].
    + assert (Heq : snd (add_elements elems regs) = regs).
      { apply below_antisym; [apply (covers_below _ _ _ _ (union_subseteq_l _ _) IHc Hx)|apply (covers_below _ _ _ _ (union_subseteq_l _ _) Hc IHc)]. }
      rewrite Heq in *. rewrite !bool_decide_eq_true_2 by done. cbn. apply not_true_is_false. intros ?%Hf. done.
    + rewrite (bool_decide_eq_false_2 (r = regs)) by done. destruct (decide (snd (add_elements elems regs) = regs)) as [Heq|]; [|by rewrite bool_decide_eq_false_2].
      rewrite bool_decide_eq_true_2 by done. cbn. apply Hf. congruence.
Qed.

Lemma merge_max a b : HLL_Merge a b = zip_with Z.max a b.
Proof. unfold HLL_Merge. revert b. induction a as [|x a IH]; intros [|y b]; [done..|]. cbn. rewrite IH. f_equal. destruct (Z.ltb_spec x y); lia. Qed.
Lemma covers_merge S T a b : covers S a → covers T b → covers (S ∪ T) (HLL_Merge a b).
Proof.
  intros [Hla Ha] [Hlb Hb]. rewrite merge_max. split; [rewrite length_zip_with; lia|]. intros i r Hr. rewrite lookup_zip_with in Hr.
  destruct (a !! i) as [x|] eqn:Hx; [|done]. destruct (b !! i) as [y|] eqn:Hy; [|done]. injection Hr as <-.
  destruct (Ha i x Hx) as (Hx0 & Hxu & Hxe), (Hb i y Hy) as (Hy0 & Hyu & Hye). split_and!; [lia| |].
  - intros z [Hz|Hz]%elem_of_union Hi; [specialize (Hxu z Hz Hi)|specialize (Hyu z Hz Hi)]; lia.
  - destruct (Z.max_spec_le x y) as [[Hle ->]|[Hle ->]]; [destruct Hye as [->|(z & Hz & ?)]|destruct Hxe as [->|(z & Hz & ?)]]; [by left|right; exists z; set_solver|by left|right; exists z; set_solver].
Qed.

(** ** Runs *)

(** The type tag and then the registers make a new key; registers on a key that
    has some leave the larger byte at every place ([MergeRule_MAX_BYTES]), and keep
    the tag. *)
Class HllLaws `{EngineLaws} := {
  law_hll_new k regs tips tips' c : healthy c → is_live (view c k) = false →
    ∃ v e, view (snd (Emit (mkEffect k (max_bytes regs)) tips' (snd (Emit (mkEffect k (Effect_Meta (tag_meta TYPE_HLL))) tips c)))) k =
      Some (mkReducedAt INSERT_OP SCALAR TYPE_HLL (Some v) ∅ [] e ∅) ∧ Decompress v = regs;
  law_hll_max k regs old tips c r : healthy c → view c k = Some r → is_live (view c k) = true → re_Collection r = SCALAR → re_Scalar r = Some old →
    length (Decompress old) = length regs →
    ∃ v e, view (snd (Emit (mkEffect k (max_bytes regs)) tips c)) k = Some (mkReducedAt INSERT_OP SCALAR (re_TypeTag r) (Some v) ∅ [] e ∅) ∧
      Decompress v = zip_with Z.max (Decompress old) regs
}.

Section Runs.
Context `{HllLaws}.

(** The key holds an array; it stands for a set, a missing key for the empty one. *)
Definition hll_at (c : Ctx) (key : bytes) (regs : Registers) : Prop :=
  ∃ v e, view c key = Some (mkReducedAt INSERT_OP SCALAR TYPE_HLL (Some v) ∅ [] e ∅) ∧ Decompress v = regs.
Definition stands (c : Ctx) (key : bytes) (S : gset bytes) : Prop :=
  (is_live (view c key) = false ∧ S = ∅) ∨ ∃ regs, hll_at c key regs ∧ covers S regs.

Lemma stands_same c c' key S : same c c' → stands c key S → stands c' key S.
Proof. intros Hs. unfold stands, hll_at. by rewrite Hs. Qed.


(** The array of a snapshot. *)
Definition snap_regs (s : KeySnap) (S : gset bytes) (live : bool) (regs : Registers) : Prop :=
  ks_wrongType s = false ∧ ks_exists s = live ∧ reconstructHLL (ks_snap s) = regs ∧ covers S regs ∧
  (∀ T dst, covers T dst → (if live then mergeHLLFromSnap dst (ks_snap s) else dst) = HLL_Merge dst regs).

Lemma classify_stands c key S tips : stands c key S →
  ∃ regs, snap_regs (classify_hll (view c key) tips) S (is_live (view c key)) regs ∧ (is_live (view c key) = true → hll_at c key regs).
Proof.
  intros [[Hl ->]|(regs & Hat & Hc)].
  - exists empty_registers. split; [|congruence]. assert (Hk : classify_hll (view c key) tips = mkKeySnap None tips false false).
    { destruct (view c key) as [r|]; [|done]. rewrite is_live_remove in Hl. cbn. by destruct (bool_decide _). }
    rewrite Hk, Hl. split_and!; [done|done| |apply covers_empty|].
    + unfold reconstructHLL. cbn [ks_snap scalar_bytes mbind option_bind]. by rewrite take_nil.
    + intros T dst HT. apply (covers_unique T); [done|]. rewrite <- (union_empty_r_L T). apply covers_merge; [done|apply covers_empty].
  - exists regs. pose proof Hat as (v & e & Hv & Hd). split; [|done]. pose proof (proj1 Hc) as Hlen. rewrite Hv.
    assert (Hraw : take register_count (scalar_bytes (Some (mkReducedAt INSERT_OP SCALAR TYPE_HLL (Some v) ∅ [] e ∅))) = regs).
    { cbn [scalar_bytes mbind option_bind re_Scalar]. rewrite Hd. apply take_ge. lia. }
    assert (Hk : classify_hll (Some (mkReducedAt INSERT_OP SCALAR TYPE_HLL (Some v) ∅ [] e ∅)) tips =
                 mkKeySnap (Some (mkReducedAt INSERT_OP SCALAR TYPE_HLL (Some v) ∅ [] e ∅)) tips true false) by reflexivity.
    rewrite Hk. split_and!; [done|done| |done|].
    + unfold reconstructHLL. cbn [ks_snap]. rewrite Hraw, drop_ge, app_nil_r; [done|]. unfold empty_registers. rewrite length_replicate. lia.
    + intros T dst [HT _]. change (is_live _) with true. cbv iota. unfold mergeHLLFromSnap. cbn [ks_snap]. rewrite Hraw, drop_ge, app_nil_r; [done|lia].
Qed.

Lemma steps_hll key S st : healthy (st_ctx st) → stands (st_ctx st) key S →
  ∃ s regs, steps (getHLLSnapshot key) st s (same (st_ctx st)) ∧ snap_regs s S (is_live (view (st_ctx st) key)) regs ∧ (is_live (view (st_ctx st) key) = true → hll_at (st_ctx st) key regs).
Proof.
  intros Hh Hs. destruct (steps_get key st Hh) as [tips Hg]. destruct (classify_stands _ _ _ tips Hs) as (regs & Hr & Hat). eexists _, regs. split; [|by split].
  eapply steps_bind; [exact Hg|]. cbv beta. intros c' Hh' Hv. by apply steps_ret.
Qed.

(** The effects of a command that leaves larger registers. *)
Lemma steps_store key (regs regs' : Registers) tips (f : unit → M unit) st w P :
  healthy (st_ctx st) → (is_live (view (st_ctx st) key) = true → hll_at (st_ctx st) key regs) → below regs regs' →
  (∀ c', healthy c' → hll_at c' key regs' → others (st_ctx st) key c' → finishes (f tt) (mkSt c' (st_w st) (st_held st)) w P) →
  finishes (_ ← (if negb (is_live (view (st_ctx st) key)) then emitHLLTypeTag key else mret tt); _ ← emitHLLScalar key regs' tips; f tt) st w P.
Proof.
  intros Hh Hat Hb Hf. destruct (is_live (view (st_ctx st) key)) eqn:El; cbn [negb].
  - apply finishes_ret_bind. destruct (Hat eq_refl) as (v & e & Hv & Hd). pose proof (Forall2_length _ _ _ Hb) as Hlen.
    destruct (law_hll_max key regs' v tips _ _ Hh Hv El eq_refl eq_refl) as (v' & e' & Hv' & Hd'); [congruence|].
    eapply finishes_bind; [by apply steps_emit|]. cbv beta. intros c' Hh' [Hk Ho]. apply Hf; [done| |done]. exists v', e'. rewrite Hk, Hv', Hd', Hd. by rewrite below_max.
  - destruct (law_hll_new key regs' [] tips _ Hh El) as (v' & e' & Hv' & Hd').
    unfold emitHLLTypeTag, emitHLLScalar, emit.
    destruct (law_emit (mkEffect key (Effect_Meta (tag_meta TYPE_HLL))) [] _ Hh) as (c1 & E1 & Hh1 & Ho1 & _). rewrite E1 in Hv'. cbn [snd] in Hv'.
    destruct (law_emit (mkEffect key (max_bytes regs')) tips _ Hh1) as (c2 & E2 & Hh2 & Ho2 & _). rewrite E2 in Hv'. cbn [snd] in Hv'.
    unfold finishes, mbind, M_bind. cbn [st_ctx st_w st_held]. rewrite E1. cbn [st_ctx st_w st_held]. rewrite E2. apply Hf; [done|by exists v', e'|].
    intros k Hk. rewrite Ho2, Ho1 by done. done.
Qed.

(** A missing key is written by every PFADD: its first element raises a register. *)
Lemma new_changes (regs regs' : Registers) (x : bytes) (S : gset bytes) : covers ∅ regs → x ∈ S → covers S regs' → regs' ≠ regs.
Proof.
  intros [Hl Hr] Hx [_ Hr'] ->. destruct (lookup_lt_is_Some_2 regs (elem_index x)) as [r Hi]; [rewrite Hl; apply elem_index_lt|].
  destruct (Hr _ _ Hi) as (_ & _ & [->|(y & ?%not_elem_of_empty & _)]); [|done]. destruct (Hr' _ _ Hi) as (_ & Hu & _). specialize (Hu x Hx eq_refl). pose proof (elem_rank_range x). lia.
Qed.
Lemma stands_dead c key S : stands c key S → is_live (view c key) = false → S = ∅.
Proof. intros [[_ ->]|(regs & (v & e & Hv & _) & _)]; [done|]. by rewrite Hv. Qed.

(** C25: PFADD adds elements to the set a key stands for (a missing key stands for
    the empty set): the registers afterwards are those of the larger set, whatever
    the order and number of the additions that led there; it answers 1 when the key
    is new or a register changed and 0 otherwise, and no other key changes. *)
Theorem pfadd_correct key elements S st : healthy (st_ctx st) → stands (st_ctx st) key S →
  ∃ runner regs regs', handlePFAdd (key :: elements) = Accept [key] runner ∧ covers S regs ∧ covers (S ∪ list_to_set elements) regs' ∧
    finishes runner st (WriteInteger (if is_live (view (st_ctx st) key) && bool_decide (regs' = regs) then 0 else 1) (st_w st))
      (λ c', hll_at c' key regs' ∧ others (st_ctx st) key c').
Proof.
  intros Hh Hs. destruct (steps_hll key S st Hh Hs) as (s & regs & (c1 & E1 & Hh1 & Hs1) & (Hw & Hex & Hrec & Hc & _) & Hat).
  destruct (covers_adds S regs elements Hc) as [Hc' Hm]. eexists _, regs, (snd (add_elements elements regs)). split; [done|]. split; [done|]. split; [done|].
  unfold pfadd_runner. eapply finishes_bind; [by exists c1|]. cbv beta. intros c' Hh' Hv'. rewrite Hw, Hex, Hrec.
  set (regs' := snd (add_elements elements regs)) in *. assert (Hadd : add_elements elements regs = (negb (bool_decide (regs' = regs)), regs')) by (rewrite <- Hm; apply surjective_pairing).
  rewrite Hadd. cbv iota beta. pose proof (Hv' key) as Hvk. assert (Hoth : ∀ c2, others c' key c2 → others (st_ctx st) key c2) by (intros c2; apply others_trans; by apply others_same).
  assert (Hmod : is_live (view (st_ctx st) key) = false →
            negb (bool_decide (regs' = regs)) || (match elements with [] => true | _ => false end && negb (is_live (view (st_ctx st) key))) = true).
  { intros Hl. rewrite Hl. destruct elements as [|x elements]; [by rewrite orb_true_r|]. rewrite (stands_dead _ _ _ Hs Hl) in Hc, Hc'.
    rewrite bool_decide_eq_false_2; [done|]. apply (new_changes regs regs' x (∅ ∪ list_to_set (x :: elements)) Hc); [set_solver|exact Hc']. }
  destruct (negb (bool_decide (regs' = regs)) || (match elements with [] => true | _ => false end && negb (is_live (view (st_ctx st) key)))) eqn:Em.
  - rewrite <- Hvk. apply (steps_store key regs regs' _ (λ _, write (WriteInteger 1)) (mkSt c' _ _)); cbn [st_ctx st_w st_held].
    + done.
    + rewrite Hvk. intros Hl. destruct (Hat Hl) as (v & e & Hv & Hd). exists v, e. by rewrite Hvk.
    + eapply covers_below; [|exact Hc|exact Hc']. set_solver.
    + intros c2 Hh2 Hat2 Ho2. apply finishes_write; [done| |by auto]. cbn [st_w]. rewrite Hvk. destruct (is_live (view (st_ctx st) key)); [|done].
      rewrite andb_false_r, orb_false_r in Em. by destruct (bool_decide (regs' = regs)).
  - destruct (is_live (view (st_ctx st) key)) eqn:El; [|by specialize (Hmod eq_refl)]. cbn [negb andb] in *. apply finishes_ret_bind, finishes_write; [done| |].
    + cbn [st_w]. rewrite andb_false_r, orb_false_r in Em. by destruct (bool_decide (regs' = regs)).
    + rewrite andb_false_r, orb_false_r in Em. apply negb_false_iff, bool_decide_eq_true in Em. split; [|by apply others_same]. destruct (Hat eq_refl) as (v & e & Hv & Hd). exists v, e. cbn [st_ctx]. by rewrite Hvk, Em.
Qed.

(** The keys of a command, each standing for a set. *)
Lemma steps_merge_keys keys Ss T dst st : healthy (st_ctx st) → Forall2 (stands (st_ctx st)) keys Ss → covers T dst →
  ∃ regs, steps (merge_keys keys dst) st regs (same (st_ctx st)) ∧ covers (T ∪ ⋃ Ss) regs.
Proof.
  intros Hh Hk. revert T dst st Hh Hk. revert Ss. induction keys as [|key keys IH]; intros Ss T dst st Hh Hk HT.
  - apply Forall2_nil_inv_l in Hk as ->. exists dst. split; [by apply steps_ret|]. cbn. by rewrite union_empty_r_L.
  - apply Forall2_cons_inv_l in Hk as (S & Ss' & Hs & Hk & ->). destruct (steps_hll key S st Hh Hs) as (s & regs & (c1 & E1 & Hh1 & Hs1) & (Hw & Hex & _ & Hc & Hmg) & _).
    destruct (IH Ss' (T ∪ S) (HLL_Merge dst regs) (mkSt c1 (st_w st) (st_held st)) Hh1) as (regs' & (c2 & E2 & Hh2 & Hs2) & Hc2).
    + eapply Forall2_impl; [exact Hk|]. intros k X. by apply stands_same.
    + by apply covers_merge.
    + exists regs'. split; [|cbn [union_list foldr]; by rewrite <- (assoc_L (∪)) in Hc2].
      exists c2. cbn [merge_keys]. unfold mbind, M_bind. rewrite E1, Hw, andb_false_r, Hex. rewrite (Hmg T dst HT). rewrite E2. split_and!; [done|done|]. by eapply same_trans.
Qed.

(** C15: PFMERGE unites: the destination stands for its own set and those of all
    sources together, the sources and every other key are as before.  PFCOUNT of
    any keys answers the estimate of the array of the union of their sets, and
    nothing changes: it depends only on which elements were added, not on how, in
    which order or into which of the keys. *)
Theorem pfmerge_pfcount_correct key keys S Ss st :
  healthy (st_ctx st) → stands (st_ctx st) key S → Forall2 (stands (st_ctx st)) keys Ss →
  ∃ regs, covers (S ∪ ⋃ Ss) regs ∧
    (∃ runner, handlePFMerge (key :: keys) = Accept (key :: keys) runner ∧
       finishes runner st (WriteOK (st_w st)) (λ c', hll_at c' key regs ∧ others (st_ctx st) key c')) ∧
    (∃ runner, handlePFCount (key :: keys) = Accept (key :: keys) runner ∧
       match HLL_Count regs with
       | Some n => finishes runner st (WriteInteger (if bool_decide (keys = []) && negb (is_live (view (st_ctx st) key)) then 0 else n) (st_w st)) (same (st_ctx st))
       | None => bool_decide (keys = []) && negb (is_live (view (st_ctx st) key)) = false → fst (runner st) = Panic
       end).
Proof.
  intros Hh Hs Hk. destruct (steps_hll key S st Hh Hs) as (s & r0 & (c1 & E1 & Hh1 & Hs1) & (Hw & Hex & Hrec & Hc & Hmg) & Hat).
  assert (Hk1 : Forall2 (stands c1) keys Ss) by (eapply Forall2_impl; [exact Hk|]; intros k X; by apply stands_same).
  destruct (steps_merge_keys keys Ss S r0 (mkSt c1 (st_w st) (st_held st)) Hh1 Hk1 Hc) as (regs & (c2 & E2 & Hh2 & Hs2) & Hcr). exists regs. split; [done|]. split.
  - eexists. split; [done|]. unfold pfmerge_runner. eapply finishes_bind; [by exists c1|]. cbv beta. intros c Hh' Hv. rewrite Hw, andb_false_r, Hrec, Hex.
    destruct (steps_merge_keys keys Ss S r0 (mkSt c (st_w st) (st_held st)) Hh') as (regs2 & Hm & Hcr2); [eapply Forall2_impl; [exact Hk|]; intros k X; by apply stands_same|done|].
    rewrite (covers_unique _ _ _ Hcr2 Hcr) in Hm. eapply finishes_bind; [exact Hm|]. cbn [st_ctx st_w st_held]. intros c3 Hh3 Hv3.
    assert (Hv3' : same (st_ctx st) c3) by by eapply same_trans. rewrite <- (Hv3' key).
    apply (steps_store key r0 regs _ (λ _, write WriteOK) (mkSt c3 _ _)); cbn [st_ctx st_w st_held].
    + done.
    + rewrite (Hv3' key). intros Hl. destruct (Hat Hl) as (v & e & Hv0 & Hd). exists v, e. by rewrite (Hv3' key).
    + eapply covers_below; [|exact Hc|exact Hcr]. set_solver.
    + intros c4 Hh4 Hat4 Ho4. apply finishes_write; [done|done|]. split; [done|]. eapply others_trans; [by apply others_same|done].
  - exists (pfcount_runner (key :: keys)). split; [done|]. assert (Hone : keys = [] → regs = r0).
    { intros ->. apply Forall2_nil_inv_l in Hk as ->. cbn in Hcr. rewrite union_empty_r_L in Hcr. by apply (covers_unique S). }
    destruct keys as [|key' keys].
    + rewrite (Hone eq_refl). rewrite bool_decide_eq_true_2 by done. cbn [andb pfcount_runner]. unfold finishes, mbind, M_bind. rewrite E1, Hex, Hw, Hrec.
      destruct (is_live (view (st_ctx st) key)); cbn [negb].
      * destruct (HLL_Count r0) as [n|]; [|done]. exists Return, c1. by auto.
      * destruct (HLL_Count r0) as [n|]; [|done]. exists Return, c1. by auto.
    + rewrite bool_decide_eq_false_2 by done. cbn [andb]. unfold pfcount_runner.
      destruct (steps_merge_keys (key :: key' :: keys) (S :: Ss) ∅ empty_registers st Hh) as (regs2 & (c3 & E3 & Hh3 & Hs3) & Hcr2); [by constructor|apply covers_empty|].
      rewrite union_empty_l_L in Hcr2. rewrite (covers_unique _ _ _ Hcr2 Hcr) in E3. unfold finishes, mbind, M_bind. rewrite E3.
      destruct (HLL_Count regs) as [n|]; [|done]. exists (Next tt), c3. by auto.
Qed.
End Runs.

(** ** The reference engine and runs on it *)
Module HllExample.
Import RefEngine.

#[local] Instance ref_hll_laws : HllLaws.
Proof.
  split.
  - intros k regs tips tips' c _ Hl. cbn in Hl |- *. unfold ref_emit. cbn [ef_Key ef_Kind fst snd]. rewrite !lookup_partial_alter_eq. exists (Raw regs), None.
    split; [|done]. destruct (c.1 !! k) as [[[|] coll tag sc adds els ex fex]|] eqn:E; [discriminate Hl|reflexivity|reflexivity].
  - intros k regs old tips c r _ Hv Hl Hc Ho _. cbn in Hv, Hl |- *. rewrite lookup_partial_alter_eq, Hv. rewrite Hv in Hl. unfold ref_reduce, max_bytes, ref_max. cbn [reduce de_Collection de_Op de_Merge de_Value].
    rewrite Hl, Ho. eexists _, _. by split.
Qed.

(** A key with no element yet, one that is missing, and one that is an ordinary
    string. *)
Definition none_added : ReducedEffect := mkReduced INSERT_OP SCALAR TYPE_HLL (Some (Raw empty_registers)) ∅ [].
Definition st : St := mkSt (holding {[ str "h" := none_added ]}) (NewWriter []) [].
Lemma h_stands : stands (st_ctx st) (str "h") ∅.
Proof. right. exists empty_registers. split; [|apply covers_empty]. by exists (Raw empty_registers), None. Qed.
Lemma st_healthy : healthy (st_ctx st).
Proof. exact I. Qed.
Lemma missing_stands : stands (st_ctx st) (str "m") ∅.
Proof. left. by split. Qed.

Lemma pfadd_correct_witness : ∃ runner regs regs', handlePFAdd [str "h"; str "a"; str "b"] = Accept [str "h"] runner ∧ covers ∅ regs ∧ covers (∅ ∪ {[str "a"; str "b"]}) regs' ∧
  finishes runner st (WriteInteger (if bool_decide (regs' = regs) then 0 else 1) (NewWriter [])) (λ c', hll_at c' (str "h") regs' ∧ others (st_ctx st) (str "h") c').
Proof.
  destruct (pfadd_correct (str "h") [str "a"; str "b"] ∅ st st_healthy h_stands) as (runner & regs & regs' & Hp & Hc & Hc' & Hf). exists runner, regs, regs'.
  split; [exact Hp|]. split; [exact Hc|]. split; [|exact Hf]. cbn [list_to_set] in Hc'. by rewrite union_empty_r_L in Hc'.
Defined.

Lemma pfmerge_pfcount_correct_witness : ∃ regs, covers ∅ regs ∧ ∃ runner, handlePFMerge [str "m"; str "h"] = Accept [str "m"; str "h"] runner ∧
  finishes runner st (WriteOK (NewWriter [])) (λ c', hll_at c' (str "m") regs ∧ others (st_ctx st) (str "m") c').
Proof.
  assert (Hk : Forall2 (stands (st_ctx st)) [str "h"] [∅]) by (constructor; [exact h_stands|constructor]).
  destruct (pfmerge_pfcount_correct (str "m") [str "h"] ∅ [∅] st st_healthy missing_stands Hk) as (regs & Hc & Hm & _).
  exists regs. split; [|exact Hm]. cbn in Hc. by rewrite !union_empty_l_L in Hc.
Defined.

(** ** Where the estimate goes wrong *)

(** The correction for large estimates looks up the table of the small ones with
    an index near 2^32: from 143 million on PFCOUNT panics.  Here one register is 1
    and all others are at their maximum. *)
Definition large_registers : Registers := 1 :: replicate (Z.to_nat 16383) 63.
Definition large : ReducedEffect := mkReduced INSERT_OP SCALAR TYPE_HLL (Some (Raw large_registers)) ∅ [].
Lemma sum_absorbs n : fold_left (λ sum val, float_add sum (float_div (float64_of 1) (float64_of (pow_register val)))) (replicate n 63) float_half = float_half.
Proof. induction n as [|n IH]; [done|]. cbn [replicate fold_left]. replace (float_add float_half _) with float_half by (vm_compute; reflexivity). exact IH. Qed.
Lemma zeros_none n : filter (λ val : Z, val = 0) (replicate n 63) = [].
Proof. induction n as [|n IH]; [done|]. cbn [replicate]. by rewrite filter_cons_False. Qed.
Lemma large_sum n : harmonic_sum (1 :: replicate n 63) = float_half.
Proof.
  assert (Hh : float_add (S754_zero false) (float_div (float64_of 1) (float64_of (pow_register 1))) = float_half) by (vm_compute; reflexivity).
  unfold harmonic_sum. cbn [fold_left]. rewrite Hh. apply sum_absorbs.
Qed.
Lemma large_count : HLL_Count large_registers = None.
Proof.
  unfold HLL_Count, large_registers. rewrite large_sum. set (e := float_div alpha_m_m float_half).
  assert (H1 : SFleb e (float64_of 40960) = false) by (vm_compute; reflexivity). assert (H2 : SFltb large_range e = true) by (vm_compute; reflexivity).
  assert (H3 : large_estimate e = None) by (vm_compute; reflexivity). cbv zeta. by rewrite H1, H2, H3.
Qed.
Theorem pfcount_panics : ∃ runner, handlePFCount [str "l"] = Accept [str "l"] runner ∧
  fst (runner (mkSt (holding {[ str "l" := large ]}) (NewWriter []) [])) = Panic.
Proof.
  eexists. split; [done|]. assert (Hr : reconstructHLL (Some large) = large_registers).
  { unfold reconstructHLL. cbn [scalar_bytes mbind option_bind re_Scalar large Decompress ref_engine ref_decompress].
    assert (Hl : length large_registers = register_count) by (unfold large_registers, register_count; cbn [length]; rewrite length_replicate; lia).
    rewrite take_ge by lia. rewrite drop_ge, app_nil_r; [done|]. unfold empty_registers. rewrite length_replicate. lia. }
  assert (Hc : ∀ tips, classify_hll (Some large) tips = mkKeySnap (Some large) tips true false) by reflexivity.
  unfold pfcount_runner, getHLLSnapshot, get_snapshot, mbind, M_bind. cbn -[reconstructHLL HLL_Count large classify_hll].
  rewrite Hc. cbn [ks_exists ks_wrongType ks_snap negb]. by rewrite Hr, large_count.
Qed.
End HllExample.
