(* ===== verification/Sort.v ===== *)
(** * SORT

    src/redis/sort.go: SORT and SORT_RO on lists and keyed collections, with
    weights and values taken from other keys, and the number parser of
    src/redis/shared/protocol.go it uses.

    [sort.SliceStable] is translated as well: the comparison of DESC is not a
    strict order, so what the result is depends on the algorithm. *)

From Stdlib Require Import SpecFloat.
From S2P Require Import Prelude GoBytes Strconv Floats Commands Writer Engine Acl Sets Lists Zsets Dispatch.

Local Open Scope Z_scope.

(** ** Numbers *)

(** Digits before and after the point, in 64 bits. *)
Record Digits := mkDigits { dg_int : Z; dg_frac : Z; dg_div : spec_float; dg_hasFrac : bool }.
Fixpoint float_digits (b : bytes) (d : Digits) : option Digits :=
  match b with
  | [] => Some d
  | c :: b' =>
    if c =? 46 then
      if dg_hasFrac d then None else float_digits b' (mkDigits (dg_int d) (dg_frac d) (dg_div d) true)
    else if (c <? 48) || (57 <? c) then None
    else if dg_hasFrac d then
      float_digits b' (mkDigits (dg_int d) (i64 (i64 (dg_frac d * 10) + (c - 48))) (float_mul (dg_div d) (float64_of 10)) true)
    else float_digits b' (mkDigits (i64 (i64 (dg_int d * 10) + (c - 48))) (dg_frac d) (dg_div d) false)
  end.
Definition ParseFloat64 (b : bytes) : option spec_float :=
  match b with
  | [] => None
  | c :: b' =>
    let neg := c =? 45 in
    d ← float_digits (if neg || (c =? 43) then b' else b) (mkDigits 0 0 (float64_of 1) false);
    let result := float_add (float64_of (dg_int d)) (float_div (float64_of (dg_frac d)) (dg_div d)) in
    Some (if neg then SFopp result else result)
  end.

(** ** Options *)

Record sortOptions := mkSortOptions {
  so_byPattern : bytes;
  so_getPatterns : list bytes;
  so_limit : bool;
  so_offset : Z;
  so_count : Z;
  so_desc : bool;
  so_alpha : bool;
  so_store : bytes;
  so_noSort : bool
}.
Definition no_sort_options : sortOptions := mkSortOptions [] [] false 0 (-1) false false [] false.

Section Options.
Context `{UnicodeCase}.

Definition set_by (p : bytes) (o : sortOptions) : sortOptions :=
  let nosort := beq (ToLower p) (str "nosort") in
  mkSortOptions (if nosort then [] else p) (so_getPatterns o) (so_limit o) (so_offset o) (so_count o) (so_desc o) (so_alpha o) (so_store o)
    (so_noSort o || nosort).
Definition add_get (p : bytes) (o : sortOptions) : sortOptions :=
  mkSortOptions (so_byPattern o) (so_getPatterns o ++ [p]) (so_limit o) (so_offset o) (so_count o) (so_desc o) (so_alpha o) (so_store o) (so_noSort o).
Definition set_sort_limit (offset count : Z) (o : sortOptions) : sortOptions :=
  mkSortOptions (so_byPattern o) (so_getPatterns o) true offset count (so_desc o) (so_alpha o) (so_store o) (so_noSort o).
Definition set_desc (d : bool) (o : sortOptions) : sortOptions :=
  mkSortOptions (so_byPattern o) (so_getPatterns o) (so_limit o) (so_offset o) (so_count o) d (so_alpha o) (so_store o) (so_noSort o).
Definition set_alpha (o : sortOptions) : sortOptions :=
  mkSortOptions (so_byPattern o) (so_getPatterns o) (so_limit o) (so_offset o) (so_count o) (so_desc o) true (so_store o) (so_noSort o).
Definition set_store (k : bytes) (o : sortOptions) : sortOptions :=
  mkSortOptions (so_byPattern o) (so_getPatterns o) (so_limit o) (so_offset o) (so_count o) (so_desc o) (so_alpha o) k (so_noSort o).

Definition sort_syntax_error : bytes := str "ERR syntax error".
Definition not_integer : bytes := str "ERR value is not an integer or out of range".

Fixpoint parseSortOptions (fuel : nat) (args : list bytes) (o : sortOptions) : result bytes sortOptions :=
  match fuel, args with
  | S fuel', a :: rest =>
    let opt := ascii_upper a in
    if beq opt (str "BY") then
      match rest with p :: rest' => parseSortOptions fuel' rest' (set_by p o) | [] => Err sort_syntax_error end
    else if beq opt (str "GET") then
      match rest with p :: rest' => parseSortOptions fuel' rest' (add_get p o) | [] => Err sort_syntax_error end
    else if beq opt (str "LIMIT") then
      match rest with
      | x :: y :: rest' =>
        match ParseInt64 x, ParseInt64 y with
        | Some offset, Some count => parseSortOptions fuel' rest' (set_sort_limit offset count o)
        | _, _ => Err not_integer
        end
      | _ => Err sort_syntax_error
      end
    else if beq opt (str "ASC") then parseSortOptions fuel' rest (set_desc false o)
    else if beq opt (str "DESC") then parseSortOptions fuel' rest (set_desc true o)
    else if beq opt (str "ALPHA") then parseSortOptions fuel' rest (set_alpha o)
    else if beq opt (str "STORE") then
      match rest with k :: rest' => parseSortOptions fuel' rest' (set_store k o) | [] => Err sort_syntax_error end
    else Err sort_syntax_error
  | _, _ => Ok o
  end.
Definition sort_options (args : list bytes) : result bytes sortOptions := parseSortOptions (length args) args no_sort_options.
End Options.

(** ** Patterns *)

(** [strings.Cut(s, "->")]. *)
Fixpoint cut_arrow (s : bytes) : option (bytes * bytes) :=
  match s with
  | 45 :: 62 :: s' => Some ([], s')
  | c :: s' => '(before, after) ← cut_arrow s'; Some (c :: before, after)
  | [] => None
  end.
(** The key, and the field when it is one of a hash. *)
Definition substitutePattern (pattern element : bytes) : bytes * option bytes :=
  let key := match split2 pattern 42 with
             | (_, None) => pattern
             | (before, Some after) => before ++ element ++ after
             end in
  match cut_arrow key with Some (before, after) => (before, Some after) | None => (key, None) end.

(** ** Sorting *)

Record sortItem := mkItem { si_element : bytes; si_weight : spec_float; si_strWeight : bytes }.

(** [sort.insertionSort]: each element moves left as long as it is less than its
    neighbour; the sorted part is kept reversed. *)
Fixpoint move_left {A} (less : A → A → bool) (x : A) (sorted : list A) : list A :=
  match sorted with
  | y :: sorted' => if less x y then y :: move_left less x sorted' else x :: sorted
  | [] => [x]
  end.
Definition insertionSort {A} (less : A → A → bool) (l : list A) : list A :=
  reverse (fold_left (λ sorted x, move_left less x sorted) l []).

(** *** sort.SliceStable

    Go's stable sort: insertion sort on blocks of twenty elements, then SymMerge
    of neighbouring blocks.  A slice is a list, and the two sorted parts of the
    range that is merged are two lists; rotating the middle of the range
    rearranges the four parts.  [less] is only ever asked whether an element of the
    right part is less than one of the left part. *)

(** [for i < j { h := (i+j)/2; if f(h) { i = h+1 } else { j = h } }]. *)
Fixpoint bsearch (fuel : nat) (f : nat → bool) (i j : nat) : nat :=
  match fuel with
  | O => i
  | S fuel' =>
    if (i <? j)%nat then
      let h := ((i + j) / 2)%nat in
      if f h then bsearch fuel' f (h + 1) j else bsearch fuel' f i h
    else i
  end.
Definition search (f : nat → bool) (i j : nat) : nat := bsearch (j - i) f i j.

Section SymMerge.
Context {A : Type} (less : A → A → bool).

Definition less_at (l k : list A) (i j : nat) : bool := match l !! i, k !! j with Some a, Some b => less a b | _, _ => false end.

Fixpoint symMerge (fuel : nat) (left right : list A) : list A :=
  match fuel with
  | O => left ++ right
  | S fuel' =>
    match left, right with
    | [x], _ =>
      let i := search (λ h, less_at right [x] h 0) 0 (length right) in
      take i right ++ x :: drop i right
    | _, [y] =>
      let i := search (λ h, negb (less_at [y] left 0 h)) 0 (length left) in
      take i left ++ y :: drop i left
    | _, _ =>
      let m := length left in
      let b := (m + length right)%nat in
      let mid := (b / 2)%nat in
      let n := (mid + m)%nat in
      let '(start, r) := if (mid <? m)%nat then (n - b, mid)%nat else (0, m)%nat in
      let start := search (λ c, negb (less_at right left (n - 1 - c - m) c)) start r in
      let stop := (n - start)%nat in
      let first := (take start left, take (stop - m) right) in
      let second := (drop start left, drop (stop - m) right) in
      (if (0 <? start)%nat && (start <? mid)%nat then symMerge fuel' (fst first) (snd first) else fst first ++ snd first) ++
      (if (mid <? stop)%nat && (stop <? b)%nat then symMerge fuel' (fst second) (snd second) else fst second ++ snd second)
    end
  end.

(** Blocks of twenty are sorted and then merged in pairs. *)
Fixpoint blocks (fuel : nat) (l : list A) : list (list A) :=
  match fuel, l with
  | S fuel', _ :: _ => insertionSort less (take 20 l) :: blocks fuel' (drop 20 l)
  | _, _ => []
  end.
Fixpoint merge_pairs (bs : list (list A)) : list (list A) :=
  match bs with
  | l :: r :: bs' => symMerge (length l + length r) l r :: merge_pairs bs'
  | _ => bs
  end.
Fixpoint merge_blocks (fuel : nat) (bs : list (list A)) : list A :=
  match fuel, bs with
  | S fuel', _ :: _ :: _ => merge_blocks fuel' (merge_pairs bs)
  | _, _ => concat bs
  end.
Definition stable (l : list A) : list A := let bs := blocks (length l) l in merge_blocks (length bs) bs.
End SymMerge.

Definition item_less (o : sortOptions) (a b : sortItem) : bool :=
  if so_alpha o then blt (si_strWeight a) (si_strWeight b) else SFltb (si_weight a) (si_weight b).
Definition sort_less (o : sortOptions) (a b : sortItem) : bool := if so_desc o then negb (item_less o a b) else item_less o a b.
Definition sortItems (o : sortOptions) (items : list sortItem) : list sortItem := stable (sort_less o) items.

(** A negative offset is sliced with, which panics. *)
Definition applyLimit {A} (items : list A) (offset count : Z) : option (list A) :=
  if len items <=? offset then Some []
  else if offset <? 0 then None
  else
    let items := drop (Z.to_nat offset) items in
    Some (if (0 <=? count) && (count <? len items) then take (Z.to_nat count) items else items).

Section Sort.
Context `{Engine} `{!Clock} `{RangeOrder} `{UnicodeCase}.

(** What a snapshot holds at a key or a field. *)
Definition external_value (snap : option ReducedEffect) (field : option bytes) : option bytes :=
  r ← snap;
  match field with
  | Some f => if bool_decide (re_Collection r = KEYED) then Decompress <$> re_NetAdds r !! f else None
  | None => Decompress <$> re_Scalar r
  end.
Definition getExternalValue (pattern element : bytes) : M (option bytes) :=
  let '(key, field) := substitutePattern pattern element in
  '(snap, _) ← get_snapshot key;
  mret (external_value snap field).

(** The weight a text gives; a text that is no number weighs zero. *)
Definition weigh (o : sortOptions) (element : bytes) (text : option bytes) : sortItem :=
  match text with
  | None => mkItem element (S754_zero false) []
  | Some t => if so_alpha o then mkItem element (S754_zero false) t
              else mkItem element (default (S754_zero false) (ParseFloat64 t)) []
  end.
Fixpoint buildSortItems (o : sortOptions) (elements : list bytes) : M (list sortItem) :=
  match elements with
  | [] => mret []
  | e :: elements' =>
    item ← (if so_noSort o then mret (mkItem e (S754_zero false) [])
            else match so_byPattern o with
                 | [] => mret (weigh o e (Some e))
                 | p => text ← getExternalValue p e; mret (weigh o e text)
                 end);
    items ← buildSortItems o elements';
    mret (item :: items)
  end.

(** The results of one element; [None] is a nil result. *)
Fixpoint get_results (element : bytes) (patterns : list bytes) : M (list (option bytes)) :=
  match patterns with
  | [] => mret []
  | p :: patterns' =>
    r ← (if beq p (str "#") then mret (Some element) else getExternalValue p element);
    rs ← get_results element patterns';
    mret (r :: rs)
  end.
Fixpoint build_results (patterns : list bytes) (items : list sortItem) : M (list (option bytes)) :=
  match items with
  | [] => mret []
  | it :: items' =>
    rs ← get_results (si_element it) patterns;
    rest ← build_results patterns items';
    mret (rs ++ rest)
  end.
Definition buildResults (o : sortOptions) (items : list sortItem) : M (list (option bytes)) :=
  match so_getPatterns o with
  | [] => mret ((λ it, Some (si_element it)) <$> items)
  | patterns => build_results patterns items
  end.

Definition emitSortDelete (key : bytes) : M unit :=
  '(_, tips) ← get_snapshot key;
  emit (mkEffect key delete_effect) tips.

Definition storeResults (destKey : bytes) (results : list (option bytes)) : M unit :=
  _ ← emitSortDelete destKey;
  match results with
  | [] => mret tt
  | _ =>
    _ ← for_each (default [] <$> results) (emitListInsert destKey PLACE_TAIL);
    emitListTypeTag destKey
  end.

Definition write_result (r : option bytes) : M unit :=
  write (match r with Some b => WriteBulkString b | None => WriteNullBulkString end).

(** The elements of a collection; [None] for a scalar. *)
Definition sort_elements (r : ReducedEffect) : option (list bytes) :=
  match re_Collection r with
  | SCALAR => None
  | ORDERED => Some ((λ e, Decompress (el_Value e)) <$> re_OrderedElements r)
  | KEYED => Some (omap (λ k, Decompress <$> re_NetAdds r !! k) (range_keys (dom (re_NetAdds r))))
  end.

Definition sort_collection (o : sortOptions) (elements : list bytes) : M unit :=
  items ← buildSortItems o elements;
  let items := if so_noSort o then items else sortItems o items in
  items ← (if so_limit o then or_panic (applyLimit items (so_offset o) (so_count o)) else mret items);
  results ← buildResults o items;
  match so_store o with
  | [] =>
    _ ← write (WriteArray (len results));
    for_each results write_result
  | dest =>
    _ ← storeResults dest results;
    write (WriteInteger (len results))
  end.

(** A missing source is an empty one. *)
Definition sort_missing (o : sortOptions) : M unit :=
  match so_store o with
  | [] => reply (WriteArray 0)
  | dest => _ ← emitSortDelete dest; reply (WriteInteger 0)
  end.

Definition handleSort (args : list bytes) : M unit :=
  match args with
  | [] => reply (WriteWrongNumArguments (str "sort"))
  | key :: rest =>
    match sort_options rest with
    | Err e => reply (WriteError e)
    | Ok o =>
      '(snap, _) ← get_snapshot key;
      match snap with
      | Some r =>
        if bool_decide (re_Op r = REMOVE_OP) then sort_missing o
        else match sort_elements r with
        | None => reply WriteWrongType
        | Some elements => sort_collection o elements
        end
      | None => sort_missing o
      end
    end
  end.

(** [strings.EqualFold(arg, "STORE")], as in [is_streams]. *)
Definition is_store (arg : bytes) : bool := beq (ascii_lower (fold_long_s arg)) (str "store").
Definition handleSortRO (args : list bytes) : M unit :=
  if existsb is_store (tail args) then reply (WriteError sort_syntax_error) else handleSort args.

(** The source, and the argument after the first one that reads STORE. *)
Fixpoint store_key (args : list bytes) : list bytes :=
  match args with
  | a :: ((k :: _) as rest) => if is_store a then [k] else store_key rest
  | _ => []
  end.
Definition KeysSortCmd (args : list bytes) : list bytes :=
  match args with [] => [] | key :: rest => key :: store_key rest end.

Definition registerSortCommands (ty : CommandType) : option CommandEntry :=
  let entry (h : list bytes → M unit) (keys : list bytes → list bytes) (isWrite : bool) :=
    mkEntry None (Some (λ ro args, call_runner ro (h args))) (Some (λ args, Accept [] (h args))) (Some keys) isWrite false false false in
  match ty with
  | CmdSort => Some (entry handleSort KeysSortCmd true)
  | CmdSortRO => Some (entry handleSortRO KeysFirst false)
  | _ => None
  end.
End Sort.
