(* ===== verification/SortProps.v ===== *)
(** * What SORT returns and stores

    The stable sort of the elements by their weights, cut to its limit, with the
    values the GET patterns name; STORE leaves exactly that list at the
    destination.
    The stable sort of Go is proved to sort, also by the comparison DESC gives it. *)

From Stdlib Require Import SpecFloat Sorted.
From S2P Require Import Prelude GoBytes Strconv Floats Commands Writer Engine Runs Acl Sets Lists ListProps Zsets ZsetOrder Dispatch Sort.

Local Open Scope Z_scope.

(** ** Stable sorting *)

Section Stable.
Context {A : Type} (less : A → A → bool).

(** A strict weak order on the elements of a list. *)
Definition weak_order (l : list A) : Prop :=
  (∀ x, x ∈ l → less x x = false) ∧
  (∀ x y z, x ∈ l → y ∈ l → z ∈ l → less x y = true → less y z = true → less x z = true) ∧
  (∀ x y z, x ∈ l → y ∈ l → z ∈ l → less x z = true → less x y = true ∨ less y z = true).
Lemma move_left_perm x s : move_left less x s ≡ₚ x :: s.
Proof. induction s as [|y s IH]; [done|]. cbn. destruct (less x y); [|done]. by rewrite IH, Permutation_swap. Qed.
Lemma insertion_fold l s : fold_left (λ sorted x, move_left less x sorted) l s ≡ₚ l ++ s.
Proof. revert s. induction l as [|x l IH]; intros s; [done|]. cbn. rewrite IH, move_left_perm. by rewrite <- Permutation_middle. Qed.
Lemma insertionSort_perm l : insertionSort less l ≡ₚ l.
Proof. unfold insertionSort. rewrite reverse_Permutation, insertion_fold. by rewrite app_nil_r. Qed.

Lemma weak_asym l x y : weak_order l → x ∈ l → y ∈ l → less x y = true → less y x = false.
Proof. intros (Hi & Ht & _) Hx Hy Hl. apply not_true_is_false. intros Hl'. pose proof (Hi x Hx) as He. by rewrite (Ht x y x) in He. Qed.

Lemma move_left_sorted l x s : weak_order l → x ∈ l → (∀ y, y ∈ s → y ∈ l) → StronglySorted (λ a b, less a b = false) s →
  StronglySorted (λ a b, less a b = false) (move_left less x s).
Proof.
  intros Hw Hx Hs Hss. induction Hss as [|y s Hss IH Hall]; [by repeat constructor|]. cbn. destruct (less x y) eqn:El.
  - constructor; [apply IH; set_solver|]. rewrite move_left_perm. constructor; [|done]. apply (weak_asym l); [done|done|set_solver|done].
  - constructor; [by constructor|]. constructor; [done|]. rewrite Forall_forall in *. intros z Hz. apply not_true_is_false. intros Hxz. destruct Hw as (_ & _ & Hn).
    destruct (Hn x y z) as [?|?]; [done|set_solver|set_solver|done|congruence|]. by rewrite (Hall z Hz) in *.
Qed.
Lemma insertionSort_sorted l : weak_order l → StronglySorted (λ a b, less b a = false) (insertionSort less l).
Proof.
  intros Hw. assert (Hg : ∀ k s, (∀ x, x ∈ k ++ s → x ∈ l) → StronglySorted (λ a b, less a b = false) s →
    StronglySorted (λ a b, less a b = false) (fold_left (λ sorted x, move_left less x sorted) k s)).
  { intros k. induction k as [|x k IH]; intros s Hin Hs; [done|]. cbn. apply IH.
    - intros y. rewrite move_left_perm. set_solver.
    - apply (move_left_sorted l); [done|set_solver|set_solver|done]. }
  unfold insertionSort. specialize (Hg l [] ltac:(intros x; by rewrite app_nil_r) (SSorted_nil _)). revert Hg. generalize (fold_left (λ sorted x, move_left less x sorted) l []).
  intros s Hs. induction Hs as [|x s Hs IH Hall]; [constructor|]. rewrite reverse_cons. apply StronglySorted_app. split_and!; [|done|by repeat constructor]. intros a b Ha Hb.
  apply list_elem_of_singleton in Hb as ->. rewrite Forall_forall in Hall. apply Hall. by apply elem_of_reverse.
Qed.
End Stable.

(** *** SymMerge *)

Lemma bsearch_spec fuel f i j : (j - i <= fuel)%nat → (i <= j)%nat →
  let s := bsearch fuel f i j in (i <= s <= j)%nat ∧ ((i < s)%nat → f (s - 1)%nat = true) ∧ ((s < j)%nat → f s = false).
Proof.
  revert i j. induction fuel as [|fuel IH]; intros i j Hf Hij; cbn [bsearch]; [split_and!; lia|]. destruct (Nat.ltb_spec i j); [|split_and!; lia].
  assert (Hh : (i <= (i + j) / 2 < j)%nat). { pose proof (Nat.div_mod (i + j) 2). pose proof (Nat.mod_upper_bound (i + j) 2). lia. }
  set (h := ((i + j) / 2)%nat) in *. destruct (f h) eqn:E.
  - destruct (IH (h + 1)%nat j) as (H1 & H2 & H3); [lia|lia|]. split; [lia|split; [|done]]. intros Hlt.
    destruct (decide (h + 1 < bsearch fuel f (h + 1) j)%nat); [auto|]. replace (bsearch fuel f (h + 1) j - 1)%nat with h by lia. done.
  - destruct (IH i h) as (H1 & H2 & H3); [lia|lia|]. split; [lia|split; [done|]]. intros Hlt.
    destruct (decide (bsearch fuel f i h < h)%nat); [auto|]. replace (bsearch fuel f i h) with h by lia. done.
Qed.
Lemma search_spec f i j : (i <= j)%nat → let s := search f i j in (i <= s <= j)%nat ∧ ((i < s)%nat → f (s - 1)%nat = true) ∧ ((s < j)%nat → f s = false).
Proof. apply bsearch_spec. lia. Qed.

Section Merge.
Context {A : Type} (less : A → A → bool).
Fixpoint merge_lists (l : list A) : list A → list A :=
  fix go (r : list A) : list A :=
    match l, r with
    | [], _ => r
    | _, [] => l
    | x :: l', y :: r' => if less y x then y :: go r' else x :: merge_lists l' r
    end.
Lemma merge_nil_r l : merge_lists l [] = l.
Proof. by destruct l. Qed.
Lemma merge_nil_l r : merge_lists [] r = r.
Proof. by destruct r. Qed.
Lemma merge_cons x l y r : merge_lists (x :: l) (y :: r) = if less y x then y :: merge_lists (x :: l) r else x :: merge_lists l (y :: r).
Proof. done. Qed.
Lemma merge_perm l r : merge_lists l r ≡ₚ l ++ r.
Proof.
  revert r. induction l as [|x l IH]; intros r; [by rewrite merge_nil_l|]. induction r as [|y r IHr]; [by rewrite app_nil_r|]. rewrite merge_cons. destruct (less y x).
  - rewrite IHr. by rewrite <- Permutation_middle.
  - by rewrite IH.
Qed.

(** What goes before what: everything of [l] before all of [r], or the reverse. *)
Lemma merge_left_first l r : (∀ x y, x ∈ l → y ∈ r → less y x = false) → merge_lists l r = l ++ r.
Proof.
  revert r. induction l as [|x l IH]; intros r Hf; [by rewrite merge_nil_l|]. destruct r as [|y r]; [by rewrite app_nil_r|]. rewrite merge_cons, (Hf x y) by set_solver.
  cbn. f_equal. apply IH. intros; apply Hf; set_solver.
Qed.
Lemma merge_right_first l r : (∀ x y, x ∈ l → y ∈ r → less y x = true) → merge_lists l r = r ++ l.
Proof.
  induction r as [|y r IH]; intros Hf; [by rewrite merge_nil_r|]. destruct l as [|x l]; [by rewrite merge_nil_l, app_nil_r|]. rewrite merge_cons, (Hf x y) by set_solver.
  cbn. f_equal. apply IH. intros; apply Hf; set_solver.
Qed.
(** Two parts that do not mix are merged each for itself. *)
Lemma merge_split l1 l2 r1 r2 : (∀ x y, x ∈ l1 → y ∈ r2 → less y x = false) → (∀ x y, x ∈ l2 → y ∈ r1 → less y x = true) →
  merge_lists (l1 ++ l2) (r1 ++ r2) = merge_lists l1 r1 ++ merge_lists l2 r2.
Proof.
  revert r1. induction l1 as [|x l1 IH]; intros r1 Hf Ht.
  - rewrite merge_nil_l. cbn [app]. induction r1 as [|y r1 IHr]; [done|]. destruct l2 as [|x l2]; [by rewrite !merge_nil_l|]. cbn [app]. rewrite merge_cons, (Ht x y) by set_solver.
    f_equal. apply IHr. intros; apply Ht; set_solver.
  - induction r1 as [|y r1 IHr].
    + rewrite merge_nil_r. cbn [app]. destruct r2 as [|y r2]; [by rewrite !merge_nil_r|]. rewrite merge_cons, (Hf x y) by set_solver. f_equal.
      pose proof (IH []) as E. cbn [app] in E. rewrite E; [by rewrite merge_nil_r|intros; apply Hf; set_solver|set_solver].
    + cbn [app]. rewrite !merge_cons. destruct (less y x).
      * cbn [app]. f_equal. apply IHr. intros; apply Ht; set_solver.
      * cbn [app]. f_equal. apply (IH (y :: r1)); [intros; apply Hf; set_solver|done].
Qed.
End Merge.

Lemma sorted_lookup {A} (R : A → A → Prop) l i j x y : StronglySorted R l → l !! i = Some x → l !! j = Some y → (i < j)%nat → R x y.
Proof.
  intros Hs. revert i j. induction Hs as [|z l Hs IH Hall]; intros i j Hi Hj Hij; [done|]. destruct j as [|j]; [lia|]. destruct i as [|i]; cbn in Hi, Hj.
  - injection Hi as ->. rewrite Forall_forall in Hall. apply Hall. by eapply list_elem_of_lookup_2.
  - by apply (IH i j); [..|lia].
Qed.

(** A comparison of a later element with an earlier one, that follows a preorder
    [R] of the elements that satisfy [P]. *)
Section Order.
Context {A : Type} (less : A → A → bool) (P : A → Prop) (R : A → A → Prop).
Record follows : Prop := {
  f_trans x y z : P x → P y → P z → R x y → R y z → R x z;
  f_true y x : P y → P x → less y x = true → R y x;
  f_false y x : P y → P x → less y x = false → R x y;
  f_up y x x' : P y → P x → P x' → less y x = true → R x x' → less y x' = true;
  f_down y y' x : P y → P y' → P x → less y x = true → R y' y → less y' x = true
}.
Context (Hf : follows).

Definition ordered (l : list A) : Prop := Forall P l ∧ StronglySorted R l.
Lemma ordered_app l1 l2 : ordered (l1 ++ l2) → ordered l1 ∧ ordered l2 ∧ ∀ x y, x ∈ l1 → y ∈ l2 → R x y.
Proof. intros [[H1 H2]%Forall_app (H3 & H4 & H5)%StronglySorted_app]. done. Qed.
Lemma ordered_in l x : ordered l → x ∈ l → P x.
Proof. intros [Hl _]. by rewrite Forall_forall in Hl; apply Hl. Qed.

Lemma merge_ordered l r : ordered l → ordered r → ordered (merge_lists less l r).
Proof.
  intros [Pl Sl] [Pr Sr]. split; [rewrite merge_perm; by apply Forall_app|]. revert r Pr Sr. induction l as [|x l IH]; intros r Pr Sr; [by rewrite merge_nil_l|].
  induction r as [|y r IHr]; [by rewrite merge_nil_r|]. rewrite merge_cons. apply Forall_cons in Pl as [Px Pl], Pr as [Py Pr]. apply StronglySorted_inv in Sl as [Sl Hx], Sr as [Sr Hy].
  destruct (less y x) eqn:E.
  - constructor; [apply IHr; done|]. rewrite merge_perm. apply Forall_app. split; [|done]. assert (Hyx : R y x) by (apply Hf; done). constructor; [done|].
    rewrite Forall_forall in Hx, Pl |- *. intros z Hz. eapply (f_trans Hf y x z); auto.
  - constructor; [apply IH; [done|done|by constructor|by constructor]|]. rewrite merge_perm. apply Forall_app. split; [done|]. assert (Hxy : R x y) by (apply (f_false Hf); done). constructor; [done|].
    rewrite Forall_forall in Hy, Pr |- *. intros z Hz. eapply (f_trans Hf x y z); auto.
Qed.

(** The corner of a split decides for all of it. *)
Lemma corner_false l r s t : ordered l → ordered r → ((0 < s)%nat → (t < length r)%nat → less_at less r l t (s - 1) = false) → (s <= length l)%nat →
  ∀ x y, x ∈ take s l → y ∈ drop t r → less y x = false.
Proof.
  intros Ol Or Hc Hs x y (i & Hi)%list_elem_of_lookup (j & Hj)%list_elem_of_lookup. apply lookup_take_Some in Hi as [Hi Hlt]. rewrite lookup_drop in Hj.
  assert (Hl1 : (s - 1 < length l)%nat) by lia. destruct (lookup_lt_is_Some_2 _ _ Hl1) as [x' Hx'].
  assert (Ht : (t < length r)%nat) by (apply lookup_lt_Some in Hj; lia). destruct (lookup_lt_is_Some_2 _ _ Ht) as [y' Hy'].
  specialize (Hc ltac:(lia) Ht). unfold less_at in Hc. rewrite Hy', Hx' in Hc.
  assert (Px : P x) by (eapply ordered_in; [exact Ol|by eapply list_elem_of_lookup_2]). assert (Px' : P x') by (eapply ordered_in; [exact Ol|by eapply list_elem_of_lookup_2]).
  assert (Py : P y) by (eapply ordered_in; [exact Or|by eapply list_elem_of_lookup_2]). assert (Py' : P y') by (eapply ordered_in; [exact Or|by eapply list_elem_of_lookup_2]).
  apply not_true_is_false. intros E. assert (E1 : less y x' = true).
  { destruct (decide (i = s - 1)%nat) as [->|]; [congruence|]. apply (f_up Hf y x x'); [done..|]. eapply (sorted_lookup R l); [apply Ol|exact Hi|exact Hx'|lia]. }
  destruct (decide (j = 0%nat)) as [->|]; [rewrite Nat.add_0_r in Hj; congruence|]. rewrite (f_down Hf y y' x') in Hc; [done..|].
  eapply (sorted_lookup R r); [apply Or|exact Hy'|exact Hj|lia].
Qed.
Lemma corner_true l r s t : ordered l → ordered r → ((0 < t)%nat → (s < length l)%nat → less_at less r l (t - 1) s = true) → (t <= length r)%nat →
  ∀ x y, x ∈ drop s l → y ∈ take t r → less y x = true.
Proof.
  intros Ol Or Hc Hs x y (i & Hi)%list_elem_of_lookup (j & Hj)%list_elem_of_lookup. apply lookup_take_Some in Hj as [Hj Hlt]. rewrite lookup_drop in Hi.
  assert (Hl1 : (t - 1 < length r)%nat) by lia. destruct (lookup_lt_is_Some_2 _ _ Hl1) as [y' Hy'].
  assert (Ht : (s < length l)%nat) by (apply lookup_lt_Some in Hi; lia). destruct (lookup_lt_is_Some_2 _ _ Ht) as [x' Hx'].
  specialize (Hc ltac:(lia) Ht). unfold less_at in Hc. rewrite Hy', Hx' in Hc.
  assert (Px : P x) by (eapply ordered_in; [exact Ol|by eapply list_elem_of_lookup_2]). assert (Px' : P x') by (eapply ordered_in; [exact Ol|by eapply list_elem_of_lookup_2]).
  assert (Py : P y) by (eapply ordered_in; [exact Or|by eapply list_elem_of_lookup_2]). assert (Py' : P y') by (eapply ordered_in; [exact Or|by eapply list_elem_of_lookup_2]).
  assert (E1 : less y' x = true).
  { destruct (decide (i = 0%nat)) as [->|]; [rewrite Nat.add_0_r in Hi; congruence|]. apply (f_up Hf y' x' x); [done..|]. eapply (sorted_lookup R l); [apply Ol|exact Hx'|exact Hi|lia]. }
  destruct (decide (j = t - 1)%nat) as [->|]; [congruence|]. apply (f_down Hf y' y x); [done..|]. eapply (sorted_lookup R r); [apply Or|exact Hj|exact Hy'|lia].
Qed.
Lemma merge_at l r s t : ordered l → ordered r → (s <= length l)%nat → (t <= length r)%nat →
  ((0 < s)%nat → (t < length r)%nat → less_at less r l t (s - 1) = false) → ((0 < t)%nat → (s < length l)%nat → less_at less r l (t - 1) s = true) →
  merge_lists less l r = merge_lists less (take s l) (take t r) ++ merge_lists less (drop s l) (drop t r).
Proof.
  intros Ol Or Hs Ht H1 H2. rewrite <- (take_drop s l) at 1. rewrite <- (take_drop t r) at 1. apply merge_split; [by apply corner_false|by apply corner_true].
Qed.
Lemma ordered_take n l : ordered l → ordered (take n l).
Proof. intros Ol. rewrite <- (take_drop n l) in Ol. by apply ordered_app in Ol as [? _]. Qed.
Lemma ordered_drop n l : ordered l → ordered (drop n l).
Proof. intros Ol. rewrite <- (take_drop n l) in Ol. by apply ordered_app in Ol as (_ & ? & _). Qed.

Lemma insert_left x r : ordered [x] → ordered r → let i := search (λ h, less_at less r [x] h 0) 0 (length r) in take i r ++ x :: drop i r = merge_lists less [x] r.
Proof.
  intros Ox Or i. destruct (search_spec (λ h, less_at less r [x] h 0) 0 (length r)) as (Hi & H1 & H2); [lia|]. fold i in Hi, H1, H2.
  rewrite (merge_at [x] r 0 i); [|done|done|cbn; lia|lia|lia|auto]. rewrite take_0, drop_0, merge_nil_l. f_equal. symmetry. apply (merge_left_first less [x]).
  intros z y Hz Hy. apply (corner_false [x] r 1 i Ox Or); [intros _ ?; by apply H2|cbn; lia|done|done].
Qed.
Lemma insert_right l y : ordered l → ordered [y] → let i := search (λ h, negb (less_at less [y] l 0 h)) 0 (length l) in take i l ++ y :: drop i l = merge_lists less l [y].
Proof.
  intros Ol Oy i. destruct (search_spec (λ h, negb (less_at less [y] l 0 h)) 0 (length l)) as (Hi & H1 & H2); [lia|]. fold i in Hi, H1, H2.
  assert (Hc1 : (0 < i)%nat → less_at less [y] l 0 (i - 1) = false) by (intros ?; by apply negb_true_iff, H1).
  assert (Hc2 : (i < length l)%nat → less_at less [y] l 0 i = true) by (intros ?; by apply negb_false_iff, H2).
  rewrite (merge_at l [y] i 0); [|done|done|lia|cbn; lia|auto|lia]. rewrite take_0, drop_0, merge_nil_r. f_equal. symmetry. apply (merge_right_first less (drop i l) [y]).
  intros x z Hx Hz. apply (corner_true l [y] i 1 Ol Oy); [intros _ ?; by apply Hc2|cbn; lia|done|done].
Qed.
Lemma symMerge_merge fuel l r : ordered l → ordered r → l ≠ [] → r ≠ [] → (length l + length r <= fuel)%nat → symMerge less fuel l r = merge_lists less l r.
Proof.
  revert l r. induction fuel as [|fuel IH]; intros l r Ol Or Hl Hr Hfuel; [destruct l; [done|cbn in Hfuel; lia]|]. cbn [symMerge].
  destruct l as [|x l]; [done|]. destruct l as [|x2 l]; [by apply insert_left|]. destruct r as [|y r]; [done|]. destruct r as [|y2 r]; [by apply insert_right|].
  set (L := x :: x2 :: l) in *. set (Q := y :: y2 :: r) in *. assert (HL : (2 <= length L)%nat) by (cbn; lia). assert (HQ : (2 <= length Q)%nat) by (cbn; lia). clearbody L Q. clear x x2 l y y2 r Hl Hr.
  set (m := length L) in *. set (b := (m + length Q)%nat). set (mid := (b / 2)%nat). assert (Hmid : (2 * mid <= b <= 2 * mid + 1)%nat).
  { unfold mid. pose proof (Nat.div_mod b 2). pose proof (Nat.mod_upper_bound b 2). lia. }
  destruct (if (mid <? m)%nat then ((mid + m - b)%nat, mid) else (0%nat, m)) as [s0 r0] eqn:E0.
  set (f := λ c, negb (less_at less Q L (mid + m - 1 - c - m) c)). set (s := search f s0 r0).
  assert (Hs0 : (s0 <= r0 ∧ r0 <= m ∧ r0 <= mid ∧ (s0 = 0 ∨ s0 + length Q = mid) ∧ (r0 = m ∨ r0 = mid) ∧ mid <= s0 + length Q)%nat).
  { destruct (Nat.ltb_spec mid m); injection E0 as <- <-; unfold b in *; lia. }
  destruct Hs0 as (H1 & H2 & H3 & H4 & H5 & H6). destruct (search_spec f s0 r0 H1) as (Hs & Hlow & Hhigh). fold s in Hs, Hlow, Hhigh.
  assert (Ht : (mid + m - s - m = mid - s)%nat) by lia. rewrite Ht.
  assert (Hc1 : (0 < s)%nat → (mid - s < length Q)%nat → less_at less Q L (mid - s) (s - 1) = false).
  { intros Hpos Hlt. assert (Hgt : (s0 < s)%nat) by lia. specialize (Hlow Hgt). unfold f in Hlow. apply negb_true_iff in Hlow. by replace (mid - s)%nat with (mid + m - 1 - (s - 1) - m)%nat by lia. }
  assert (Hc2 : (0 < mid - s)%nat → (s < m)%nat → less_at less Q L (mid - s - 1) s = true).
  { intros Hpos Hlt. assert (Hgt : (s < r0)%nat) by lia. specialize (Hhigh Hgt). unfold f in Hhigh. apply negb_false_iff in Hhigh. by replace (mid - s - 1)%nat with (mid + m - 1 - s - m)%nat by lia. }
  rewrite (merge_at L Q s (mid - s)); [|done|done|lia|lia|done|done]. cbn [fst snd]. f_equal.
  - destruct (Nat.ltb_spec 0 s), (Nat.ltb_spec s mid); cbn [andb].
    + apply IH; [by apply ordered_take|by apply ordered_take|intros E; apply (f_equal length) in E; rewrite length_take in E; cbn [length] in E; fold m in E; unfold b in *; lia..|rewrite !length_take; fold m; unfold b in *; lia].
    + replace (mid - s)%nat with 0%nat by lia. by rewrite take_0, merge_nil_r, app_nil_r.
    + replace s with 0%nat by lia. by rewrite take_0, merge_nil_l.
    + replace s with 0%nat by lia. by rewrite take_0, merge_nil_l.
  - destruct (Nat.ltb_spec mid (mid + m - s)), (Nat.ltb_spec (mid + m - s) b); cbn [andb].
    + apply IH; [by apply ordered_drop|by apply ordered_drop|intros E; apply (f_equal length) in E; rewrite length_drop in E; cbn [length] in E; fold m in E; unfold b in *; lia..|rewrite !length_drop; fold m; unfold b in *; lia].
    + rewrite (drop_ge Q) by (unfold b in *; lia). by rewrite merge_nil_r, app_nil_r.
    + rewrite (drop_ge L) by (fold m; lia). by rewrite merge_nil_l.
    + rewrite (drop_ge L) by (fold m; lia). by rewrite merge_nil_l.
Qed.

(** Elements that compare the same way with each other. *)
Definition ties (q : A → bool) (b : bool) : Prop := ∀ x y, P x → P y → q x = true → q y = true → less y x = b.
Record sorts (l out : list A) : Prop := {
  sorts_ordered : ordered out;
  sorts_perm : out ≡ₚ l;
  sorts_ties q b : ties q b → filter (λ x, q x = true) out = if b then reverse (filter (λ x, q x = true) l) else filter (λ x, q x = true) l
}.
Lemma merge_ties q b l r : ordered l → ordered r → ties q b →
  filter (λ x, q x = true) (merge_lists less l r) = if b then filter (λ x, q x = true) r ++ filter (λ x, q x = true) l else filter (λ x, q x = true) l ++ filter (λ x, q x = true) r.
Proof.
  intros Ol Or Ht. revert r Or. induction l as [|x l IH]; intros r Or; [rewrite merge_nil_l, filter_nil, app_nil_r; by destruct b|].
  induction r as [|y r IHr]; [rewrite merge_nil_r, filter_nil, app_nil_r; by destruct b|]. rewrite merge_cons.
  pose proof (ordered_drop 1 _ Ol) as Ol'. pose proof (ordered_drop 1 _ Or) as Or'. cbn [drop] in Ol', Or'.
  destruct (less y x) eqn:E.
  - rewrite filter_cons, IHr by done. rewrite (filter_cons _ y). destruct (decide (q y = true)) as [Qy|]; [|done]. destruct b; [done|].
    assert (Hn : filter (λ x, q x = true) (x :: l) = []).
    { apply filter_none. intros z Hz Qz. assert (Ez : less y z = true).
      { apply elem_of_cons in Hz as [->|Hz]; [done|]. apply (f_up Hf y x z); [eapply ordered_in; [exact Or|by left]|eapply ordered_in; [exact Ol|by left]|eapply ordered_in; [exact Ol|by right]|done|].
        destruct Ol as [_ Sl]. apply StronglySorted_inv in Sl as [_ Hx]. rewrite Forall_forall in Hx. by apply Hx. }
      rewrite (Ht z y) in Ez; [done|eapply ordered_in; [exact Ol|done]|eapply ordered_in; [exact Or|by left]|done|done]. }
    by rewrite Hn.
  - rewrite filter_cons, IH by done. rewrite (filter_cons _ x). destruct (decide (q x = true)) as [Qx|]; [|done]. destruct b; [|done].
    assert (Hn : filter (λ x, q x = true) (y :: r) = []).
    { apply filter_none. intros z Hz Qz. assert (Ez : less z x = false).
      { apply not_true_is_false. intros Ez. apply elem_of_cons in Hz as [->|Hz]; [congruence|]. rewrite (f_down Hf z y x) in E; [done|eapply ordered_in; [exact Or|by right]|eapply ordered_in; [exact Or|by left]|eapply ordered_in; [exact Ol|by left]|done|].
        destruct Or as [_ Sr]. apply StronglySorted_inv in Sr as [_ Hy]. rewrite Forall_forall in Hy. by apply Hy. }
      rewrite (Ht x z) in Ez; [done|eapply ordered_in; [exact Ol|by left]|eapply ordered_in; [exact Or|done]|done|done]. }
    by rewrite Hn.
Qed.
Lemma sorts_merge l1 o1 l2 o2 : sorts l1 o1 → sorts l2 o2 → sorts (l1 ++ l2) (merge_lists less o1 o2).
Proof.
  intros [A1 B1 C1] [A2 B2 C2]. split; [by apply merge_ordered|by rewrite merge_perm, B1, B2|]. intros q b Ht. rewrite (merge_ties q b) by done. rewrite (C1 q b Ht), (C2 q b Ht), filter_app.
  destruct b; [by rewrite reverse_app|done].
Qed.
Lemma sorts_one x : P x → sorts [x] [x].
Proof. intros Px. split; [split; [by repeat constructor|by repeat constructor]|done|]. intros q b _. rewrite filter_cons, filter_nil. by destruct (decide _), b. Qed.
Lemma sorts_nil : sorts [] [].
Proof. split; [split; constructor|done|]. intros q b _. by destruct b. Qed.

Lemma merge_snoc l x y : less y x = true → merge_lists less (l ++ [x]) [y] = merge_lists less l [y] ++ [x].
Proof. intros E. induction l as [|z l IH]; [cbn; by rewrite E|]. cbn [app]. rewrite !merge_cons. destruct (less y z); [by rewrite !merge_nil_r|]. cbn [app]. by rewrite IH. Qed.
Lemma move_left_merge y s : ordered (reverse s) → P y → reverse (move_left less y s) = merge_lists less (reverse s) [y].
Proof.
  intros Os Py. induction s as [|x s IH]; [done|]. rewrite reverse_cons in Os |- *. destruct (ordered_app _ _ Os) as (O1 & O2 & H12). cbn [move_left]. destruct (less y x) eqn:E.
  - rewrite reverse_cons, IH by done. by rewrite merge_snoc.
  - rewrite merge_left_first; [by rewrite !reverse_cons|]. intros z w Hz ->%list_elem_of_singleton. assert (Px : P x) by (eapply ordered_in; [exact O2|by left]).
    apply elem_of_app in Hz as [Hz| ->%list_elem_of_singleton]; [|done]. apply not_true_is_false. intros Ez. rewrite (f_up Hf y z x) in E; [done..|eapply ordered_in; [exact O1|done]|done|done|apply H12; set_solver].
Qed.
Lemma sorts_insertion l : Forall P l → sorts l (insertionSort less l).
Proof.
  induction l as [|x l IH] using rev_ind; intros Hl; [apply sorts_nil|]. apply Forall_app in Hl as [Hl [Px _]%Forall_cons]. specialize (IH Hl).
  assert (E : insertionSort less (l ++ [x]) = merge_lists less (insertionSort less l) [x]).
  { unfold insertionSort in IH |- *. rewrite fold_left_app. cbn [fold_left]. apply move_left_merge; [apply IH|done]. }
  rewrite E. apply sorts_merge; [done|by apply sorts_one].
Qed.

Definition sorts_blocks (l : list A) (bs : list (list A)) : Prop := ∃ ls, concat ls = l ∧ Forall2 sorts ls bs ∧ Forall (λ b, b ≠ []) bs.
Lemma sorts_not_nil l o : sorts l o → l ≠ [] → o ≠ [].
Proof. intros Hs Hl ->. apply Hl. apply Permutation_nil_r. symmetry. apply (sorts_perm _ _ Hs). Qed.
Lemma blocks_sorts fuel l : Forall P l → (length l <= fuel)%nat → sorts_blocks l (blocks less fuel l).
Proof.
  revert l. induction fuel as [|fuel IH]; intros l Hl Hfuel; [destruct l; [|cbn in Hfuel; lia]; by exists []|]. destruct l as [|x l]; [by exists []|]. cbn [blocks].
  rewrite <- (take_drop 20 (x :: l)) in Hl. apply Forall_app in Hl as [H1 H2]. destruct (IH (drop 20 (x :: l)) H2) as (ls & Hc & Hs & Hn); [rewrite length_drop; cbn [length] in *; lia|].
  exists (take 20 (x :: l) :: ls). split; [cbn [concat]; rewrite Hc; apply take_drop|]. assert (Hb : sorts (take 20 (x :: l)) (insertionSort less (take 20 (x :: l)))) by by apply sorts_insertion.
  split; constructor; [done|done|by eapply sorts_not_nil|done].
Qed.
Lemma merge_pairs_sorts l bs : sorts_blocks l bs → sorts_blocks l (merge_pairs less bs).
Proof.
  intros (ls & Hc & Hs & Hn). remember (length bs) as n eqn:En. assert (Hle : (length bs <= n)%nat) by lia. clear En. revert l ls bs Hc Hs Hn Hle.
  induction n as [|n IH]; intros l ls bs Hc Hs Hn Hle; [destruct bs; [|cbn in Hle; lia]; by exists ls|]. destruct bs as [|b1 [|b2 bs]]; [by exists ls|by exists ls|].
  destruct ls as [|l1 [|l2 ls]]; [by inversion Hs|inversion Hs as [|? ? ? ? ? Hs']; by inversion Hs'|]. apply Forall2_cons in Hs as [S1 [S2 Hs]%Forall2_cons]. apply Forall_cons in Hn as [N1 [N2 Hn]%Forall_cons].
  destruct (IH (concat ls) ls bs eq_refl Hs Hn) as (ls' & Hc' & Hs' & Hn'); [cbn [length] in Hle; lia|]. cbn [merge_pairs].
  assert (E : symMerge less (length b1 + length b2) b1 b2 = merge_lists less b1 b2) by (apply symMerge_merge; [apply S1|apply S2|done|done|done]).
  exists ((l1 ++ l2) :: ls'). split; [cbn [concat] in *; by rewrite Hc', <- app_assoc|]. rewrite E. split; constructor; [by apply sorts_merge|done| |done].
  intros E0. pose proof (merge_perm less b1 b2) as Hp. rewrite E0 in Hp. apply Permutation_nil_l in Hp. by destruct b1.
Qed.
Lemma merge_pairs_length bs : (1 < length bs)%nat → (length (merge_pairs less bs) < length bs)%nat.
Proof.
  assert (Hg : ∀ n (bs : list (list A)), (length bs <= n)%nat → (length (merge_pairs less bs) <= length bs)%nat ∧ ((1 < length bs)%nat → (length (merge_pairs less bs) < length bs)%nat)).
  { intros n. induction n as [|n IH]; intros bs' Hle; [destruct bs'; cbn in *; lia|]. destruct bs' as [|b1 [|b2 bs']]; [cbn; lia..|]. cbn [merge_pairs length]. destruct (IH bs') as [H1 _]; [cbn in Hle; lia|]. lia. }
  apply (Hg (length bs)). done.
Qed.
Lemma merge_blocks_sorts fuel l bs : sorts_blocks l bs → (length bs <= fuel)%nat → sorts l (merge_blocks less fuel bs).
Proof.
  revert bs. induction fuel as [|fuel IH]; intros bs Hb Hle.
  - destruct bs; [|cbn in Hle; lia]. destruct Hb as (ls & <- & Hs & _). inversion Hs. apply sorts_nil.
  - destruct bs as [|b1 [|b2 bs]].
    + destruct Hb as (ls & <- & Hs & _). inversion Hs. apply sorts_nil.
    + destruct Hb as (ls & <- & Hs & _). inversion Hs as [|l1 ? ls' ? S1 S2]; subst. inversion S2; subst. cbn. by rewrite !app_nil_r.
    + cbn [merge_blocks]. apply IH; [by apply merge_pairs_sorts|]. pose proof (merge_pairs_length (b1 :: b2 :: bs)). cbn [length] in *. lia.
Qed.
Lemma stable_sorts l : Forall P l → sorts l (stable less l).
Proof. intros Hl. unfold stable. apply merge_blocks_sorts; [by apply blocks_sorts|done]. Qed.
End Order.

(** ** The order of the items *)

(** Weights that are numbers, where they count. *)
Definition numeric (o : sortOptions) (items : list sortItem) : Prop := so_alpha o = true ∨ Forall (λ it, IsNaN (si_weight it) = false) items.
Lemma items_weak_order o items : numeric o items → weak_order (item_less o) items.
Proof.
  intros Hc. unfold weak_order, item_less. destruct (so_alpha o) eqn:Ea.
  - split_and!; intros.
    + apply blt_irrefl.
    + by eapply blt_trans.
    + destruct (blt_total (si_strWeight y) (si_strWeight z)) as [?|[E|Hzy]]; [by right|left; by rewrite E|]. left. by eapply blt_trans.
  - destruct Hc as [Hc|Hc]; [congruence|]. rewrite Forall_forall in Hc. split_and!; intros.
    + apply not_true_is_false. rewrite SFltb_key by auto. apply key_lt_irrefl.
    + rewrite SFltb_key in * by auto. by eapply key_lt_trans.
    + rewrite !SFltb_key in * by auto. destruct (key_lt_total (float_key (si_weight y)) (float_key (si_weight z))) as [?|[E|Hzy]]; [by right|left; by rewrite E|]. left. by eapply key_lt_trans.
Qed.

(** Whether [a] may come before [b]: its weight is not greater, or with DESC not
    less. *)
Definition may_precede (o : sortOptions) (a b : sortItem) : Prop := (if so_desc o then item_less o a b else item_less o b a) = false.
Lemma sort_less_follows o items : numeric o items → follows (sort_less o) (λ it, it ∈ items) (may_precede o).
Proof.
  intros Hc. pose proof (items_weak_order o items Hc) as Hw. pose proof (λ x y, weak_asym (item_less o) items x y Hw) as Ha. destruct Hw as (_ & Ht & Hn).
  assert (Hneg : ∀ x y z, x ∈ items → y ∈ items → z ∈ items → item_less o x y = false → item_less o y z = false → item_less o x z = false).
  { intros x y z Hx Hy Hz H1 H2. apply not_true_is_false. intros H3. destruct (Hn x y z Hx Hy Hz H3); congruence. }
  unfold sort_less, may_precede. destruct (so_desc o); split.
  - intros x y z. apply Hneg.
  - intros y x _ _ E. by apply negb_true_iff.
  - intros y x Hy Hx E%negb_false_iff. by apply Ha.
  - intros y x x' Hy Hx Hx' E%negb_true_iff Hr. apply negb_true_iff. by apply (Hneg y x x').
  - intros y y' x Hy Hy' Hx E%negb_true_iff Hr. apply negb_true_iff. by apply (Hneg y' y x).
  - intros x y z Hx Hy Hz H1 H2. by apply (Hneg z y x).
  - intros y x Hy Hx E. by apply Ha.
  - done.
  - intros y x x' Hy Hx Hx' E Hr. destruct (Hn y x' x Hy Hx' Hx E); [done|congruence].
  - intros y y' x Hy Hy' Hx E Hr. destruct (Hn y y' x Hy Hy' Hx E); [congruence|done].
Qed.

(** The items in the order of their weights, descending with DESC; those of the
    same weight in the order they had, with DESC in the opposite order. *)
Definition same_weight (o : sortOptions) (c y : sortItem) : bool := negb (item_less o c y) && negb (item_less o y c).
Definition in_order (o : sortOptions) (items sorted : list sortItem) : Prop :=
  sorted ≡ₚ items ∧ StronglySorted (may_precede o) sorted ∧
  ∀ c, c ∈ items → filter (λ y, same_weight o c y = true) sorted =
    (if so_desc o then reverse (filter (λ y, same_weight o c y = true) items) else filter (λ y, same_weight o c y = true) items).
Lemma sortItems_in_order o items : numeric o items → in_order o items (sortItems o items).
Proof.
  intros Hc. pose proof (items_weak_order o items Hc) as (_ & _ & Hn).
  destruct (stable_sorts _ _ _ (sort_less_follows o items Hc) items) as [[_ Hs] Hp Ht]; [by apply Forall_forall|]. split; [done|]. split; [done|]. intros c Hin. apply (Ht (same_weight o c)).
  intros x y Hx Hy [Ex1%negb_true_iff Ex2%negb_true_iff]%andb_true_iff [Ey1%negb_true_iff Ey2%negb_true_iff]%andb_true_iff.
  assert (E : item_less o y x = false) by (apply not_true_is_false; intros E; destruct (Hn y c x Hy Hin Hx E); congruence). unfold sort_less. rewrite E. by destruct (so_desc o).
Qed.

(** *** Weights are numbers *)

Fixpoint tens (n : nat) (d : spec_float) : list spec_float := match n with O => [] | S n' => d :: tens n' (float_mul d (float64_of 10)) end.
(** A power of ten as the parser computes it: a positive number or infinity. *)
Definition divisor (d : spec_float) : Prop := d ∈ tens 310 (float64_of 1) ∨ d = S754_infinity false.
Lemma tens_end : forallb (λ d, finite d && negb (bool_decide (d = S754_zero false ∨ d = S754_zero true)) || bool_decide (d = S754_infinity false)) (tens 310 (float64_of 1)) = true ∧
  last (tens 310 (float64_of 1)) = Some (S754_infinity false).
Proof. split; vm_compute; reflexivity. Qed.
Lemma tens_step n d x : x ∈ tens n d → float_mul x (float64_of 10) ∈ tens n d ∨ last (tens n d) = Some x.
Proof.
  revert d. induction n as [|n IH]; intros d Hx; [by apply not_elem_of_nil in Hx|]. cbn [tens] in *. apply elem_of_cons in Hx as [->|Hx].
  - destruct n as [|n]; [by right|]. left. right. cbn [tens]. by left.
  - destruct n as [|n]; [by apply not_elem_of_nil in Hx|]. destruct (IH _ Hx) as [?|Hl]; [left; by right|]. right. cbn [tens] in *. by rewrite last_cons_cons.
Qed.
Lemma divisor_mul d : divisor d → divisor (float_mul d (float64_of 10)).
Proof.
  intros [Hd| ->]; [|right; vm_compute; reflexivity]. destruct (tens_step _ _ _ Hd) as [?|Hl]; [by left|]. rewrite (proj2 tens_end) in Hl. injection Hl as <-. right. vm_compute. reflexivity.
Qed.
Lemma divisor_number a d : finite a = true → divisor d → IsNaN (float_div a d) = false.
Proof.
  intros Ha [Hd| ->]; [|by apply div_infinity]. pose proof (proj1 tens_end) as Hall. rewrite forallb_forall in Hall. specialize (Hall d ltac:(by apply list_elem_of_In)).
  apply orb_true_iff in Hall as [[Hf Hz%negb_true_iff]%andb_true_iff| ->%bool_decide_eq_true]; [|by apply div_infinity]. apply bool_decide_eq_false in Hz. apply div_number; [done|done|]. intros [|] ->; apply Hz; auto.
Qed.
Lemma float_digits_number b d d' : float_digits b d = Some d' → is_i64 (dg_int d) → is_i64 (dg_frac d) → divisor (dg_div d) → is_i64 (dg_int d') ∧ is_i64 (dg_frac d') ∧ divisor (dg_div d').
Proof.
  revert d. induction b as [|c b IH]; intros d; cbn [float_digits]; [by intros [= ->]|]. destruct (c =? 46); [destruct (dg_hasFrac d); [done|]; intros E ? ? ?; by apply (IH _ E)|].
  destruct ((c <? 48) || (57 <? c)); [done|]. destruct (dg_hasFrac d); intros E ? ? ?; apply (IH _ E); cbn; try done; [apply i64_range|by apply divisor_mul|apply i64_range].
Qed.
Lemma ParseFloat64_number b x : ParseFloat64 b = Some x → IsNaN x = false.
Proof.
  unfold ParseFloat64. destruct b as [|c b]; [done|]. intros E. destruct (float_digits _ _) as [d|] eqn:Ed; [|discriminate E]. cbn in E.
  destruct (float_digits_number _ _ _ Ed) as (Hi & Hfr & Hdv); [by vm_compute|by vm_compute|left; by left|].
  assert (Hn : IsNaN (float_add (float64_of (dg_int d)) (float_div (float64_of (dg_frac d)) (dg_div d))) = false).
  { apply add_number; [by apply float64_finite|]. apply divisor_number; [by apply float64_finite|done]. }
  destruct (c =? 45); injection E as <-; by rewrite ?opp_number.
Qed.
Lemma weigh_number o e t : IsNaN (si_weight (weigh o e t)) = false.
Proof.
  destruct t as [t|]; [|done]. cbn. destruct (so_alpha o); [done|]. cbn. destruct (ParseFloat64 t) eqn:E; [by eapply ParseFloat64_number|done].
Qed.

(** ** What the command does *)

Section Runs.
Context `{ClockLaws} `{RangeOrder} `{UnicodeCase}.

(** The values patterns name, in a state of the keys. *)
Definition named (v : bytes → option ReducedEffect) (pattern element : bytes) : option bytes :=
  let '(key, field) := substitutePattern pattern element in external_value (v key) field.
Definition item_of (v : bytes → option ReducedEffect) (o : sortOptions) (e : bytes) : sortItem :=
  if so_noSort o then mkItem e (S754_zero false) []
  else match so_byPattern o with [] => weigh o e (Some e) | p => weigh o e (named v p e) end.
Definition results_of (v : bytes → option ReducedEffect) (o : sortOptions) (items : list sortItem) : list (option bytes) :=
  match so_getPatterns o with
  | [] => (λ it, Some (si_element it)) <$> items
  | patterns => it ← items; (λ p, if beq p (str "#") then Some (si_element it) else named v p (si_element it)) <$> patterns
  end.

Lemma items_numbers v o elements : numeric o (item_of v o <$> elements).
Proof.
  right. apply Forall_fmap, Forall_forall. intros e _. unfold compose, item_of. destruct (so_noSort o); [done|]. destruct (so_byPattern o); apply weigh_number.
Qed.

Lemma steps_external pattern element st : healthy (st_ctx st) →
  steps (getExternalValue pattern element) st (named (view (st_ctx st)) pattern element) (later (st_ctx st)).
Proof.
  intros Hh. unfold getExternalValue, named. destruct (substitutePattern pattern element) as [key field]. destruct (steps_get_later key st Hh) as [tips Hg].
  eapply steps_bind; [exact Hg|]. cbv beta. intros c' Hh' Hl. by apply steps_ret.
Qed.
Lemma steps_later_bind {A B} (m : M A) (f : A → M B) st a b : steps m st a (later (st_ctx st)) →
  (∀ c', healthy c' → later (st_ctx st) c' → steps (f a) (mkSt c' (st_w st) (st_held st)) b (later c')) → steps (m ≫= f) st b (later (st_ctx st)).
Proof. intros Hm Hf. eapply steps_bind; [exact Hm|]. cbv beta. intros c' Hh' Hl. eapply steps_weaken; [by apply Hf|]. intros c2. by apply later_trans. Qed.
Lemma named_later c c' p e : later c c' → named (view c') p e = named (view c) p e.
Proof. intros [Hs _]. unfold named. destruct (substitutePattern p e). by rewrite Hs. Qed.
Lemma item_later c c' o e : later c c' → item_of (view c') o e = item_of (view c) o e.
Proof. intros Hl. unfold item_of. destruct (so_noSort o), (so_byPattern o); try done. by rewrite (named_later c c'). Qed.

Lemma steps_items o elements st : healthy (st_ctx st) →
  steps (buildSortItems o elements) st (item_of (view (st_ctx st)) o <$> elements) (later (st_ctx st)).
Proof.
  revert st. induction elements as [|e elements IH]; intros st Hh; [by apply steps_ret; [|apply later_refl]|]. cbn [buildSortItems fmap list_fmap].
  eapply (steps_later_bind _ _ st (item_of (view (st_ctx st)) o e)).
  - unfold item_of. destruct (so_noSort o); [by apply steps_ret; [|apply later_refl]|]. destruct (so_byPattern o) as [|b p]; [by apply steps_ret; [|apply later_refl]|].
    eapply steps_later_bind; [by apply steps_external|]. intros c' Hh' _. by apply steps_ret; [|apply later_refl].
  - intros c' Hh' Hl. assert (E : item_of (view c') o <$> elements = item_of (view (st_ctx st)) o <$> elements) by (apply list_fmap_ext; intros _ x _; by apply item_later).
    rewrite <- E. eapply (steps_later_bind _ _ (mkSt c' _ _)); [by apply (IH (mkSt c' _ _))|]. cbn [st_ctx st_w st_held]. intros c2 Hh2 _. by apply steps_ret; [|apply later_refl].
Qed.

Lemma steps_gets e patterns st : healthy (st_ctx st) →
  steps (get_results e patterns) st ((λ p, if beq p (str "#") then Some e else named (view (st_ctx st)) p e) <$> patterns) (later (st_ctx st)).
Proof.
  revert st. induction patterns as [|p patterns IH]; intros st Hh; [by apply steps_ret; [|apply later_refl]|]. cbn [get_results fmap list_fmap].
  eapply (steps_later_bind _ _ st (if beq p (str "#") then Some e else named (view (st_ctx st)) p e)).
  - destruct (beq p (str "#")); [by apply steps_ret; [|apply later_refl]|by apply steps_external].
  - intros c' Hh' Hl. assert (E : (λ p, if beq p (str "#") then Some e else named (view c') p e) <$> patterns = (λ p, if beq p (str "#") then Some e else named (view (st_ctx st)) p e) <$> patterns)
      by (apply list_fmap_ext; intros _ x _; by rewrite (named_later (st_ctx st) c')).
    rewrite <- E. eapply (steps_later_bind _ _ (mkSt c' _ _)); [by apply (IH (mkSt c' _ _))|]. cbn [st_ctx st_w st_held]. intros c2 Hh2 _. by apply steps_ret; [|apply later_refl].
Qed.
Lemma steps_results o items st : healthy (st_ctx st) → steps (buildResults o items) st (results_of (view (st_ctx st)) o items) (later (st_ctx st)).
Proof.
  intros Hh. unfold buildResults, results_of. destruct (so_getPatterns o) as [|p0 ps]; [by apply steps_ret; [|apply later_refl]|]. generalize (p0 :: ps). intros patterns.
  revert st Hh. induction items as [|it items IH]; intros st Hh; [by apply steps_ret; [|apply later_refl]|]. cbn [build_results mbind list_bind].
  eapply steps_later_bind; [by apply steps_gets|]. intros c' Hh' Hl.
  assert (E : (it ← items; (λ p, if beq p (str "#") then Some (si_element it) else named (view c') p (si_element it)) <$> patterns) =
              (it ← items; (λ p, if beq p (str "#") then Some (si_element it) else named (view (st_ctx st)) p (si_element it)) <$> patterns)).
  { apply list_bind_ext; [|done]. intros x. apply list_fmap_ext. intros _ y _. by rewrite (named_later (st_ctx st) c'). }
  rewrite <- E. eapply (steps_later_bind _ _ (mkSt c' _ _)); [by apply (IH (mkSt c' _ _))|]. cbn [st_ctx st_w st_held]. intros c2 Hh2 _. by apply steps_ret; [|apply later_refl].
Qed.

Lemma items_later c c' o (elements : list bytes) : later c c' → item_of (view c') o <$> elements = item_of (view c) o <$> elements.
Proof. intros Hl. apply list_fmap_ext. intros _ x _. by apply item_later. Qed.
Lemma results_later c c' o items : later c c' → results_of (view c') o items = results_of (view c) o items.
Proof.
  intros Hl. unfold results_of. destruct (so_getPatterns o); [done|]. apply list_bind_ext; [|done]. intros x. apply list_fmap_ext. intros _ y _. by rewrite (named_later c c').
Qed.

(** Every element has its results. *)
Lemma results_length v o items : length (results_of v o items) = (length items * Nat.max 1 (length (so_getPatterns o)))%nat.
Proof.
  unfold results_of. destruct (so_getPatterns o) as [|p ps]; [rewrite length_fmap; cbn; lia|]. induction items as [|it items IH]; [done|].
  cbn [mbind list_bind]. rewrite length_app, length_fmap, IH. cbn [length]. lia.
Qed.

(** The destination of STORE is replaced by the list of the results. *)
Lemma steps_store_results dest results st : healthy (st_ctx st) → (length results <= room (st_ctx st))%nat →
  steps (storeResults dest results) st tt (only_list (st_ctx st) dest (default [] <$> results)).
Proof.
  intros Hh Hr. unfold storeResults, emitSortDelete. destruct (steps_get_later dest st Hh) as [tips Hg].
  eapply (steps_bind _ _ st tt (λ c', raw_list c' dest [] ∧ is_live (view c' dest) = false ∧ frame (st_ctx st) dest c' ∧ (room (st_ctx st) <= room c')%nat)).
  - eapply steps_bind; [exact Hg|]. cbv beta iota. intros c1 Hh1 (Hs1 & Hc1 & Hr1).
    destruct (law_emit (mkEffect dest delete_effect) tips _ Hh1) as (c2 & E & Hh2 & Ho & _). pose proof (law_delete dest tips _ Hh1) as Hd. pose proof (law_clock_emit (mkEffect dest delete_effect) tips c1) as [Hc2 Hr2].
    rewrite E in Hd, Hc2, Hr2. cbn [snd] in *. exists c2. unfold emit. cbn [st_ctx]. rewrite E. split; [done|]. split; [done|]. split_and!; [|done| |lia].
    + exists []. split_and!; [unfold holds; by rewrite Hd|by intros e ?%elem_of_nil|done].
    + split; [|lia]. intros k Hk. by rewrite Ho, Hs1.
  - cbv beta. intros c1 Hh1 (Hl1 & Hd1 & Hf1 & Hr1). destruct results as [|r results].
    + apply steps_ret; [done|]. split; [|done]. split; [done|]. cbn [st_ctx]. congruence.
    + assert (Hne : default [] <$> r :: results ≠ []) by done. revert Hne Hr. rewrite <- (length_fmap (default [])). generalize (default [] <$> r :: results).
      intros xs Hne Hr. eapply steps_bind; [apply (steps_push_all dest PLACE_TAIL xs [] (mkSt c1 _ _)); [done|cbn [st_ctx]; lia|done|by right]|]. cbv beta. cbn [st_ctx push_all app].
      intros c2 Hh2 (Hx2 & Hl2 & _ & Hf2). eapply steps_weaken; [apply (steps_list_tag dest xs (mkSt c2 _ _)); [done|done|by apply Hl2]|]. cbn [st_ctx].
      intros c3 [Hx3 Hf3]. split; [done|]. eapply frame_trans; [done|]. by eapply frame_trans.
Qed.

(** ** Replies *)

(** One entry per result, a null for a value that is missing. *)
Definition write_one (r : option bytes) : Writer → Writer := match r with Some b => WriteBulkString b | None => WriteNullBulkString end.
Definition sort_reply (results : list (option bytes)) (w : Writer) : Writer := foldl (λ w r, write_one r w) (WriteArray (len results) w) results.

(** What a key holds to sort: nothing when it is dead, [None] for a string. *)
Definition source (v : option ReducedEffect) : option (list bytes) :=
  match v with
  | Some r => if bool_decide (re_Op r = REMOVE_OP) then Some [] else sort_elements r
  | None => Some []
  end.
(** The part of a list LIMIT asks for. *)
Definition limited (o : sortOptions) (l : list sortItem) : list sortItem :=
  if so_limit o then (if 0 <=? so_count o then take (Z.to_nat (so_count o)) else id) (drop (Z.to_nat (so_offset o)) l) else l.
Lemma applyLimit_limited o l : so_limit o = true → 0 <= so_offset o → applyLimit l (so_offset o) (so_count o) = Some (limited o l).
Proof.
  intros Hl Ho. unfold applyLimit, limited, len. rewrite Hl. destruct (Z.leb_spec (Z.of_nat (length l)) (so_offset o)) as [Hle|Hlt].
  - rewrite drop_ge by lia. destruct (0 <=? so_count o); [by rewrite take_nil|done].
  - rewrite (proj2 (Z.ltb_ge _ _)) by done. destruct (Z.leb_spec 0 (so_count o)); [|done]. cbn [andb]. destruct (Z.ltb_spec (so_count o) (Z.of_nat (length (drop (Z.to_nat (so_offset o)) l)))); [done|].
    by rewrite take_ge by lia.
Qed.

(** The end of the command, with the results in hand: they go to the client or to
    the destination. *)
Definition delivers (o : sortOptions) (results : list (option bytes)) (st : St) (m : M unit) : Prop :=
  match so_store o with
  | [] => finishes m st (sort_reply results (st_w st)) (later (st_ctx st))
  | dest => (length results <= room (st_ctx st))%nat →
      finishes m st (WriteInteger (len results) (st_w st)) (only_list (st_ctx st) dest (default [] <$> results))
  end.
Lemma delivers_later {A} o results st (m : M A) (f : A → M unit) a : steps m st a (later (st_ctx st)) →
  (∀ c', healthy c' → later (st_ctx st) c' → delivers o results (mkSt c' (st_w st) (st_held st)) (f a)) → delivers o results st (m ≫= f).
Proof.
  intros Hm Hf. unfold delivers in *. destruct (so_store o).
  - eapply finishes_bind; [exact Hm|]. intros c' Hh Hl. eapply finishes_weaken; [by apply Hf|]. intros c2. by apply later_trans.
  - intros Hr. eapply finishes_bind; [exact Hm|]. intros c' Hh Hl. eapply finishes_weaken; [apply Hf; [done|done|]|].
    + cbn [st_ctx]. destruct Hl as (_ & _ & ?). lia.
    + intros c2. by apply only_list_later.
Qed.

Lemma delivers_missing o st : healthy (st_ctx st) → delivers o [] st (sort_missing o).
Proof.
  intros Hh. unfold delivers, sort_missing. destruct (so_store o) as [|b k]; [by apply finishes_reply; [|done|apply later_refl]|]. intros _.
  pose proof (steps_store_results (b :: k) [] st Hh (Nat.le_0_l _)) as (c' & E & Hh' & Ho). exists Return, c'. unfold storeResults, mbind, M_bind, mret, M_ret in E |- *.
  destruct (emitSortDelete (b :: k) st) as [[[]| | |] st'] eqn:Ed; try discriminate E. injection E as ->. by auto.
Qed.
Lemma results_none v o : results_of v o (limited o (if so_noSort o then [] else sortItems o [])) = [].
Proof.
  assert (Hs : sortItems o [] = []) by done. rewrite Hs. assert (E : (if so_noSort o then [] else []) = @nil sortItem) by by destruct (so_noSort o).
  rewrite E. unfold limited, results_of. rewrite drop_nil. destruct (so_limit o), (0 <=? so_count o), (so_getPatterns o); cbn [id]; by rewrite ?take_nil.
Qed.
Lemma delivers_collection o elements st : healthy (st_ctx st) → (so_limit o = true → 0 <= so_offset o) →
  let items := item_of (view (st_ctx st)) o <$> elements in
  delivers o (results_of (view (st_ctx st)) o (limited o (if so_noSort o then items else sortItems o items))) st (sort_collection o elements).
Proof.
  intros Hh Ho items. unfold sort_collection. eapply delivers_later; [by apply steps_items|]. intros c1 Hh1 Hl1. fold items. set (sorted := if so_noSort o then items else sortItems o items).
  eapply (delivers_later o _ (mkSt c1 _ _) _ _ (limited o sorted)).
  { unfold limited. destruct (so_limit o) eqn:El; [|by apply steps_ret; [|apply later_refl]]. rewrite applyLimit_limited by auto. unfold limited. rewrite El. by apply steps_ret; [|apply later_refl]. }
  cbn [st_ctx st_w st_held]. intros c2 Hh2 Hl2. rewrite <- (results_later (st_ctx st) c2) by by eapply later_trans. eapply (delivers_later o _ (mkSt c2 _ _)); [by apply steps_results|]. cbn [st_ctx st_w st_held]. intros c3 Hh3 _. generalize (results_of (view c2) o (limited o sorted)). intros results.
  unfold delivers. destruct (so_store o) as [|b k].
  - apply finishes_write_bind. unfold sort_reply. by apply (finishes_for_each_write write_one results (mkSt c3 _ _)); [|apply later_refl].
  - intros Hr. eapply finishes_bind; [by apply steps_store_results|]. intros c4 Hh4 Ho4. by apply finishes_write.
Qed.

(** C26: SORT, with a LIMIT offset that is not negative, takes the elements of a list
    or the data of the entries of a keyed collection (the members of a set, the values
    of a hash, of a sorted set what is stored as the score and not the members), a
    missing key having none, and puts them in the order of their weights - the element
    itself or the value its BY pattern names, as a number or with ALPHA as a text -
    ascending, or descending with DESC; elements of the same weight keep their order,
    and with DESC are in the opposite order.  It cuts the list to its LIMIT, and
    replies one entry for each GET pattern of each element, or with STORE replaces the
    destination by exactly that list and replies its length; other keys are left alone
    and a string is refused. *)
Theorem sort_correct (key : bytes) (opts : list bytes) (o : sortOptions) (st : St) :
  healthy (st_ctx st) → sort_options opts = Ok o → (so_limit o = true → 0 <= so_offset o) →
  let v := view (st_ctx st) in
  match source (v key) with
  | Some elements =>
    let items := item_of v o <$> elements in
    ∃ sorted, (if so_noSort o then sorted = items else in_order o items sorted) ∧
      let results := results_of v o (limited o sorted) in
      match so_store o with
      | [] => finishes (handleSort (key :: opts)) st (sort_reply results (st_w st)) (later (st_ctx st))
      | dest => (length results <= room (st_ctx st))%nat →
          finishes (handleSort (key :: opts)) st (WriteInteger (len results) (st_w st)) (only_list (st_ctx st) dest (default [] <$> results))
      end
  | None => finishes (handleSort (key :: opts)) st (WriteWrongType (st_w st)) (later (st_ctx st))
  end.
Proof.
  intros Hh Hp Ho v. destruct (steps_get_later key st Hh) as [tips Hg]. unfold handleSort. rewrite Hp. fold v in Hg. destruct (source (v key)) as [elements|] eqn:Es.
  - set (items := item_of v o <$> elements). exists (if so_noSort o then items else sortItems o items). split; [destruct (so_noSort o); [done|apply sortItems_in_order, items_numbers]|]. set (results := results_of v o _).
    eapply (delivers_later o results); [exact Hg|]. cbv beta iota. intros c1 Hh1 Hl.
    assert (Hm : delivers o results (mkSt c1 (st_w st) (st_held st)) (sort_collection o elements)).
    { pose proof (delivers_collection o elements (mkSt c1 (st_w st) (st_held st)) Hh1 Ho) as Hd. cbv zeta in Hd. cbn [st_ctx] in Hd.
      by rewrite (items_later _ _ _ _ Hl), (results_later _ _ _ _ Hl) in Hd. }
    assert (Hd : elements = [] → delivers o results (mkSt c1 (st_w st) (st_held st)) (sort_missing o)).
    { intros ->. replace results with (@nil (option bytes)); [by apply delivers_missing|]. symmetry. apply results_none. }
    unfold source in Es. destruct (v key) as [r|]; [|apply Hd; congruence]. destruct (bool_decide (re_Op r = REMOVE_OP)); [apply Hd; congruence|]. by rewrite Es.
  - eapply finishes_bind; [exact Hg|]. cbv beta iota. intros c1 Hh1 Hl. unfold source in Es. destruct (v key) as [r|]; [|done]. destruct (bool_decide (re_Op r = REMOVE_OP)); [done|].
    rewrite Es. by apply finishes_reply.
Qed.
End Runs.

(** ** Examples *)

Module SortExample.
Import RefEngine.

#[local] Instance entry_order : RangeOrder := λ X, elements X.
#[local] Instance plain_case : UnicodeCase := {| unicode_lower := id; unicode_upper := id; unicode_fields := λ _, []; unicode_trim := id |}.
(** A list, and the weights of its elements. *)
Definition elem (i : Z) (s : string) : Element := mkElement (EncodeElementID i 3) (Raw (str s)).
Definition scalar (s : string) : ReducedEffect := mkReduced INSERT_OP SCALAR TYPE_STRING (Some (Raw (str s))) ∅ [].
Definition start : St := mkSt (holding (<[ str "l" := mkReduced INSERT_OP ORDERED TYPE_LIST None ∅ [elem 1 "a"; elem 2 "b"; elem 3 "c"; elem 4 "d"] ]>
  (<[ str "w_a" := scalar "10" ]> (<[ str "w_b" := scalar "-2.5" ]> {[ str "w_c" := scalar "9" ]})))) (NewWriter []) [].
Definition opts : list bytes := [str "by"; str "w_*"; str "LIMIT"; str "1"; str "3"; str "GET"; str "#"; str "get"; str "w_*"; str "STORE"; str "d"].
Definition stored : list bytes := [str "d"; []; str "c"; str "9"; str "a"; str "10"].
Lemma sort_start_healthy : healthy (st_ctx start).
Proof. exact I. Qed.
Lemma sort_start_room : (1000 <= room (st_ctx start))%nat.
Proof. change (1000 <= Z.to_nat (2 ^ 63 - 1 - Z.max (-1) (-1)))%nat. lia. Qed.

(** What the options read. *)
Definition options : sortOptions := mkSortOptions (str "w_*") [str "#"; str "w_*"] true 1 3 false false (str "d") false.
Lemma opts_options : sort_options opts = Ok options.
Proof. vm_compute. reflexivity. Qed.

Lemma sort_correct_witness : ∃ sorted, in_order options (item_of (view (st_ctx start)) options <$> [str "a"; str "b"; str "c"; str "d"]) sorted ∧
  let results := results_of (view (st_ctx start)) options (limited options sorted) in
  finishes (handleSort (str "l" :: opts)) start (WriteInteger (len results) (NewWriter [])) (only_list (st_ctx start) (str "d") (default [] <$> results)).
Proof.
  destruct (sort_correct (str "l") opts options start sort_start_healthy opts_options) as (sorted & Ho & Hf).
  - intros _. discriminate.
  - exists sorted. split; [exact Ho|]. apply Hf. pose proof sort_start_room as Hr. rewrite results_length. cbn [so_getPatterns options length]. unfold limited. cbn [so_limit so_count so_offset options Z.leb Z.compare].
    rewrite length_take. lia.
Defined.

(** The values stored, computed. *)
Example sort_stored : (λ st : St, (bool_decide ((ks ← view (st_ctx st) (str "d"); Some (el_bytes <$> re_OrderedElements ks)) = Some stored))) (snd (handleSort (str "l" :: opts) start)) = true.
Proof. vm_compute. reflexivity. Qed.

(** A negative offset is not checked. *)
Theorem sort_negative_offset : fst (handleSort [str "l"; str "LIMIT"; str "-1"; str "2"] start) = Panic.
Proof. vm_compute. reflexivity. Qed.

(** The key a value of GET names is taken for the destination. *)
Theorem sort_keys_missed (src secret : bytes) : ∃ o, sort_options [str "GET"; str "store"; str "STORE"; secret] = Ok o ∧ so_store o = secret ∧
  KeysSortCmd [src; str "GET"; str "store"; str "STORE"; secret] = [src; str "STORE"].
Proof. eexists. split; [reflexivity|]. by split. Qed.

(** A number of twenty digits wraps around. *)
Theorem sort_weight_wraps : ParseFloat64 (str "18446744073709551617") = ParseFloat64 (str "1").
Proof. vm_compute. reflexivity. Qed.

(** Equal weights change places under DESC, as the theorem says they do. *)
Theorem sort_desc_reverses : si_element <$> sortItems (set_desc true no_sort_options) [weigh no_sort_options (str "a") (Some (str "a")); weigh no_sort_options (str "b") (Some (str "b"))] = [str "b"; str "a"].
Proof. vm_compute. reflexivity. Qed.

(** A sorted set is sorted without its members. *)
Definition zset (member : bytes) : ReducedEffect := mkReduced INSERT_OP KEYED TYPE_ZSET None {[ member := float_value (float64_of 1) ]} [].
Theorem sort_zset_members (a b : bytes) : sort_elements (zset a) = sort_elements (zset b).
Proof.
  unfold sort_elements, zset. cbn [re_Collection re_NetAdds]. unfold range_keys, entry_order. rewrite !dom_singleton_L, !elements_singleton. cbn [omap list_omap].
  by rewrite !lookup_singleton_eq.
Qed.
End SortExample.
