(* ===== verification/Geo.v ===== *)
(** * Geo commands

    src/redis/geo: geohashes and distances (encoding.go), GEOADD, GEOPOS, GEODIST
    and GEOHASH (core.go), and the searches (search.go).

    A geo key is a sorted set whose scores are geohashes of 52 bits.  Distances
    are computed in binary64 as the code does; the sine, the cosine and the arc
    tangent of package math are the class [Trig], and [sort.Slice] is the class
    [SortSlice]. *)

From Stdlib Require Import SpecFloat.
From S2P Require Import Prelude GoBytes Strconv Floats Commands Writer Engine Acl Sets Zsets Dispatch.

Local Open Scope Z_scope.

(** ** Interleaving *)

Definition u32 (z : Z) : Z := z `mod` 2 ^ 32.

(** [x = (x | (x << s)) & b] and [x = (x | (x >> s)) & b]. *)
Definition spread (s b x : Z) : Z := Z.land (Z.lor x (u64 (Z.shiftl x s))) b.
Definition squash (s b x : Z) : Z := Z.land (Z.lor x (Z.shiftr x s)) b.

Definition spread_all (x : Z) : Z :=
  spread 1 0x5555555555555555 (spread 2 0x3333333333333333 (spread 4 0x0F0F0F0F0F0F0F0F
    (spread 8 0x00FF00FF00FF00FF (spread 16 0x0000FFFF0000FFFF x)))).
Definition interleave64 (xlo ylo : Z) : Z := Z.lor (spread_all xlo) (u64 (Z.shiftl (spread_all ylo) 1)).

Definition squash_all (x : Z) : Z :=
  squash 16 0x00000000FFFFFFFF (squash 8 0x0000FFFF0000FFFF (squash 4 0x00FF00FF00FF00FF
    (squash 2 0x0F0F0F0F0F0F0F0F (squash 1 0x3333333333333333 (squash 0 0x5555555555555555 x))))).
Definition deinterleave64 (interleaved : Z) : Z :=
  Z.lor (squash_all interleaved) (u64 (Z.shiftl (squash_all (Z.shiftr interleaved 1)) 32)).

(** ** Geohashes *)

(** [uint32(f)] and [uint64(f)], for a value in range. *)
Definition uint32_of_float (f : spec_float) : Z := u32 (int64_of_float f).
Definition uint64_of_float (f : spec_float) : Z := u64 (int64_of_float f).

Definition GEO_LAT_MAX : spec_float := Float64frombits 0x40554345b1a57f00.
Definition GEO_LAT_MIN : spec_float := SFopp GEO_LAT_MAX.
Definition GEO_LON_MAX : spec_float := float64_of 180.
Definition GEO_LON_MIN : spec_float := SFopp GEO_LON_MAX.
(** [float64(uint64(1)<<GEO_STEP_MAX)]. *)
Definition geo_cells : spec_float := float64_of (2 ^ 26).

(** The number of the cell of a coordinate among 2^26 equal parts of its range. *)
Definition geo_bits (x min max : spec_float) : Z :=
  uint32_of_float (float_mul (float_div (float_sub x min) (float_sub max min)) geo_cells).
Definition geoHashEncodeWithRange (longitude latitude lonMin lonMax latMin latMax : spec_float) : Z :=
  interleave64 (geo_bits latitude latMin latMax) (geo_bits longitude lonMin lonMax).
Definition geoHashEncode (longitude latitude : spec_float) : Z :=
  geoHashEncodeWithRange longitude latitude GEO_LON_MIN GEO_LON_MAX GEO_LAT_MIN GEO_LAT_MAX.

(** The middle of a cell, clamped to the range. *)
Definition cell_edge (i : Z) (min scale : spec_float) : spec_float :=
  float_add min (float_mul (float_div (float64_of i) geo_cells) scale).
Definition cell_middle (i : Z) (min max scale : spec_float) : spec_float :=
  let x := float_div (float_add (cell_edge i min scale) (cell_edge (u32 (i + 1)) min scale)) (float64_of 2) in
  let x := if SFltb max x then max else x in
  if SFltb x min then min else x.
Definition latScale : spec_float := Float64frombits 0x40654345b1a57f00.
Definition lonScale : spec_float := float64_of 360.
Definition geoHashDecode (hash : Z) : spec_float * spec_float :=
  let hashSep := deinterleave64 hash in
  (cell_middle (u32 (Z.shiftr hashSep 32)) GEO_LON_MIN GEO_LON_MAX lonScale,
   cell_middle (u32 hashSep) GEO_LAT_MIN GEO_LAT_MAX latScale).

(** Ten characters of five bits each, the eleventh always 0. *)
Definition base32 : bytes := str "0123456789bcdefghjkmnpqrstuvwxyz".
Definition geoHashToString (hash : Z) : bytes :=
  (λ i, let idx := if i =? 10 then 0 else Z.land (Z.shiftr hash (52 - (i + 1) * 5)) 0x1f in
        base32 !!! Z.to_nat idx) <$> seqZ 0 11.

(** ** Distances *)

Class Trig := { math_Sin : spec_float → spec_float; math_Cos : spec_float → spec_float; math_Atan2 : spec_float → spec_float → spec_float }.
(** [strconv.FormatFloat(f, 'f', 4, 64)]. *)
Class FormatF4 := format_f4 : spec_float → bytes.
Class SortSlice := sort_slice : ∀ A, (A → A → bool) → list A → list A.
Arguments sort_slice {_} {A} less l.

Definition math_Sqrt : spec_float → spec_float := SFsqrt 53 1024.
Definition EARTH_RADIUS_METERS : spec_float := Float64frombits 0x41584f6f63e51090.
Definition DEG_TO_RAD : spec_float := Float64frombits 0x3f91df46a2529d39.

Definition haversineDistance `{Trig} (lon1 lat1 lon2 lat2 : spec_float) : spec_float :=
  let lat1Rad := float_mul lat1 DEG_TO_RAD in
  let lat2Rad := float_mul lat2 DEG_TO_RAD in
  let dLat := float_mul (float_sub lat2 lat1) DEG_TO_RAD in
  let dLon := float_mul (float_sub lon2 lon1) DEG_TO_RAD in
  let two := float64_of 2 in
  let a := float_add (float_mul (math_Sin (float_div dLat two)) (math_Sin (float_div dLat two)))
             (float_mul (float_mul (float_mul (math_Cos lat1Rad) (math_Cos lat2Rad)) (math_Sin (float_div dLon two)))
                        (math_Sin (float_div dLon two))) in
  let c := float_mul two (math_Atan2 (math_Sqrt a) (math_Sqrt (float_sub (float64_of 1) a))) in
  float_mul EARTH_RADIUS_METERS c.

Definition mile : spec_float := Float64frombits 0x4099255c28f5c28f.
Definition feet : spec_float := Float64frombits 0x400a3f290abb44e5.
Definition convertDistance `{UnicodeCase} (meters : spec_float) (unit : bytes) : spec_float :=
  let u := ToLower unit in
  if beq u (str "km") then float_div meters (float64_of 1000)
  else if beq u (str "mi") then float_div meters mile
  else if beq u (str "ft") then float_mul meters feet
  else meters.
Definition convertToMeters `{UnicodeCase} (dist : spec_float) (unit : bytes) : spec_float :=
  let u := ToLower unit in
  if beq u (str "km") then float_mul dist (float64_of 1000)
  else if beq u (str "mi") then float_mul dist mile
  else if beq u (str "ft") then float_div dist feet
  else dist.

Definition validateCoordinates (longitude latitude : spec_float) : bool :=
  SFleb GEO_LON_MIN longitude && SFleb longitude GEO_LON_MAX && SFleb GEO_LAT_MIN latitude && SFleb latitude GEO_LAT_MAX.
Definition valid_unit (unit : bytes) : bool := existsb (beq unit) [str "m"; str "km"; str "mi"; str "ft"].

Record geoEntry := mkGeoEntry { ge_Member : bytes; ge_Hash : Z; ge_Longitude : spec_float; ge_Latitude : spec_float; ge_Distance : spec_float }.

Definition geo_syntax_error : Writer → Writer := WriteError (str "ERR syntax error").
Definition geo_not_a_float : Writer → Writer := WriteError (str "ERR value is not a valid float").
Definition invalid_pair : Writer → Writer := WriteError (str "ERR invalid longitude,latitude pair").
Definition bad_unit : Writer → Writer := WriteError (str "ERR unsupported unit provided. please use M, KM, FT, MI").

Section Geo.
Context `{Engine} `{ParseFloat} `{FormatFloat} `{FormatF4} `{RangeOrder} `{UnicodeCase} `{Trig} `{SortSlice}.

(** ** Snapshots and effects *)

Definition classify_geo (snap : option ReducedEffect) : KeySnap :=
  match snap with
  | None => mkKeySnap None [] false false
  | Some r =>
    if bool_decide (re_Op r = REMOVE_OP) then mkKeySnap None [] false false
    else if bool_decide (re_Collection r = KEYED) then mkKeySnap snap [] true false
    else if bool_decide (re_Collection r = SCALAR) &&
            (bool_decide (re_TypeTag r = TYPE_GEO) || bool_decide (re_TypeTag r = TYPE_ZSET))
    then mkKeySnap snap [] true false
    else mkKeySnap None [] true true
  end.
Definition getGeoSnapshot (key : bytes) : M KeySnap :=
  '(snap, _) ← get_snapshot key;
  mret (classify_geo snap).

Definition geoMemberScore (snap : option ReducedEffect) (member : bytes) : option spec_float :=
  r ← snap; GetFloatVal <$> re_NetAdds r !! member.

Definition geo_entry (member : bytes) (v : Value) : geoEntry :=
  let hash := uint64_of_float (GetFloatVal v) in
  let '(lon, lat) := geoHashDecode hash in
  mkGeoEntry member hash lon lat float_zero.
Definition geo_less (a b : geoEntry) : bool :=
  if negb (ge_Hash a =? ge_Hash b) then ge_Hash a <? ge_Hash b else blt (ge_Member a) (ge_Member b).
Definition geoSortedEntries (snap : option ReducedEffect) : list geoEntry :=
  match snap with
  | Some r => sort_slice geo_less (omap (λ k, geo_entry k <$> re_NetAdds r !! k) (range_keys (dom (re_NetAdds r))))
  | None => []
  end.

Definition emitGeoInsert (key member : bytes) (geohash : spec_float) : M unit :=
  emit (mkEffect key (keyed_insert member (float_value geohash))) [].
Definition emitGeoTypeTag (key : bytes) : M unit := emit (mkEffect key (Effect_Meta (tag_meta TYPE_GEO))) [].
Definition emitGeoDeleteKey (key : bytes) : M unit := emit (mkEffect key delete_effect) [].

(** ** GEOADD *)

Record GeoAddOpts := mkGeoAddOpts { ga_nx : bool; ga_xx : bool; ga_ch : bool }.
Fixpoint geoadd_opts (args : list bytes) (o : GeoAddOpts) : GeoAddOpts * list bytes :=
  match args with
  | [] => (o, [])
  | a :: rest =>
    let opt := ToUpper a in
    if beq opt (str "NX") then geoadd_opts rest (mkGeoAddOpts true (ga_xx o) (ga_ch o))
    else if beq opt (str "XX") then geoadd_opts rest (mkGeoAddOpts (ga_nx o) true (ga_ch o))
    else if beq opt (str "CH") then geoadd_opts rest (mkGeoAddOpts (ga_nx o) (ga_xx o) true)
    else (o, args)
  end.

(** Longitude, latitude and member, three arguments at a time. *)
Fixpoint geo_members (args : list bytes) : result (Writer → Writer) (list (spec_float * spec_float * bytes)) :=
  match args with
  | a :: b :: member :: rest =>
    match parse_float a with
    | None => Err geo_not_a_float
    | Some lon =>
      match parse_float b with
      | None => Err geo_not_a_float
      | Some lat =>
        if negb (validateCoordinates lon lat) then Err invalid_pair
        else match geo_members rest with Err e => Err e | Ok ms => Ok ((lon, lat, member) :: ms) end
      end
    end
  | _ => Ok []
  end.

Definition geoadd_one (key : bytes) (snap : option ReducedEffect) (o : GeoAddOpts) (m : spec_float * spec_float * bytes)
    (counts : Z * Z) : M (Z * Z) :=
  let '(lon, lat, member) := m in
  let '(added, changed) := counts in
  let score := float64_of (geoHashEncode lon lat) in
  let existing := geoMemberScore snap member in
  let found := bool_decide (is_Some existing) in
  if ga_nx o && found then mret counts
  else if ga_xx o && negb found then mret counts
  else
    _ ← emitGeoInsert key member score;
    mret (match existing with
          | Some x => (added, if SFeqb score x then changed else changed + 1)
          | None => (added + 1, changed)
          end).
Fixpoint geoadd_loop (key : bytes) (snap : option ReducedEffect) (o : GeoAddOpts) (members : list (spec_float * spec_float * bytes))
    (counts : Z * Z) : M (Z * Z) :=
  match members with
  | [] => mret counts
  | m :: members' => counts ← geoadd_one key snap o m counts; geoadd_loop key snap o members' counts
  end.
Definition geoadd_runner (key : bytes) (o : GeoAddOpts) (members : list (spec_float * spec_float * bytes)) : M unit :=
  s ← getGeoSnapshot key;
  if ks_wrongType s then reply WriteWrongType
  else if negb (ks_exists s) && ga_xx o then reply (WriteInteger 0)
  else
    '(added, changed) ← geoadd_loop key (ks_snap s) o members (0, 0);
    _ ← (if negb (ks_exists s) then emitGeoTypeTag key else mret tt);
    write (WriteInteger (if ga_ch o then added + changed else added)).
Definition handleGeoAdd (args : list bytes) : Prep :=
  match args with
  | key :: ((_ :: _ :: _ :: _) as rest) =>
    let '(o, remaining) := geoadd_opts rest (mkGeoAddOpts false false false) in
    if ga_nx o && ga_xx o then Refuse [key] geo_syntax_error
    else if (len remaining <? 3) || negb (len remaining `mod` 3 =? 0) then Refuse [key] geo_syntax_error
    else match geo_members remaining with
    | Err e => Refuse [key] e
    | Ok members => Accept [key] (geoadd_runner key o members)
    end
  | _ => Refuse [] (WriteWrongNumArguments (str "geoadd"))
  end.

(** ** GEOPOS, GEOHASH, GEODIST *)

Definition write_coords (lonlat : spec_float * spec_float) (w : Writer) : Writer :=
  WriteBulkStringStr (format_float (snd lonlat)) (WriteBulkStringStr (format_float (fst lonlat)) (WriteArray 2 w)).
Definition pos_reply (score : option spec_float) : Writer → Writer :=
  match score with None => WriteNullArray | Some s => write_coords (geoHashDecode (uint64_of_float s)) end.
(** The standard geohash, over the whole range of latitudes. *)
Definition hash_string (score : spec_float) : bytes :=
  let '(lon, lat) := geoHashDecode (uint64_of_float score) in
  geoHashToString (geoHashEncodeWithRange lon lat (float64_of (-180)) (float64_of 180) (float64_of (-90)) (float64_of 90)).
Definition hash_reply (score : option spec_float) : Writer → Writer :=
  match score with None => WriteNullBulkString | Some s => WriteBulkStringStr (hash_string s) end.

(** One reply for each member; a missing key has none of them. *)
Definition members_runner (one : option spec_float → Writer → Writer) (key : bytes) (members : list bytes) : M unit :=
  s ← getGeoSnapshot key;
  if ks_wrongType s then reply WriteWrongType
  else if negb (ks_exists s) then
    _ ← write (WriteArray (len members));
    _ ← for_each members (λ _, write (one None));
    exit
  else
    _ ← write (WriteArray (len members));
    for_each members (λ m, write (one (geoMemberScore (ks_snap s) m))).
Definition handle_members (one : option spec_float → Writer → Writer) (name : bytes) (args : list bytes) : Prep :=
  match args with
  | key :: members => Accept [key] (members_runner one key members)
  | [] => Refuse [] (WriteWrongNumArguments name)
  end.
Definition handleGeoPos : list bytes → Prep := handle_members pos_reply (str "geopos").
Definition handleGeoHash : list bytes → Prep := handle_members hash_reply (str "geohash").

Definition geodist_runner (key member1 member2 u : bytes) : M unit :=
  s ← getGeoSnapshot key;
  if ks_wrongType s then reply WriteWrongType
  else if negb (ks_exists s) then reply WriteNullBulkString
  else match geoMemberScore (ks_snap s) member1, geoMemberScore (ks_snap s) member2 with
  | Some score1, Some score2 =>
    let '(lon1, lat1) := geoHashDecode (uint64_of_float score1) in
    let '(lon2, lat2) := geoHashDecode (uint64_of_float score2) in
    write (WriteBulkStringStr (format_f4 (convertDistance (haversineDistance lon1 lat1 lon2 lat2) u)))
  | _, _ => reply WriteNullBulkString
  end.
Definition handleGeoDist (args : list bytes) : Prep :=
  match args with
  | [key; member1; member2] => Accept [key] (geodist_runner key member1 member2 (str "m"))
  | [key; member1; member2; u] =>
    let unit := ToLower u in
    if negb (valid_unit unit) then Refuse [] bad_unit else Accept [key] (geodist_runner key member1 member2 unit)
  | _ => Refuse [] (WriteWrongNumArguments (str "geodist"))
  end.

(** ** Searches *)

Record GeoQuery := mkGeoQuery {
  gq_member : option bytes;
  gq_lonlat : option (spec_float * spec_float);
  gq_radius : option spec_float;
  gq_box : option (spec_float * spec_float);
  gq_unit : bytes;
  gq_desc : bool; gq_sort : bool;
  gq_count : Z; gq_any : bool;
  gq_withCoord : bool; gq_withDist : bool; gq_withHash : bool; gq_storeDist : bool
}.
Definition no_query : GeoQuery := mkGeoQuery None None None None (str "m") false false 0 false false false false false.
Definition set_member (m : bytes) (q : GeoQuery) : GeoQuery :=
  mkGeoQuery (Some m) (gq_lonlat q) (gq_radius q) (gq_box q) (gq_unit q) (gq_desc q) (gq_sort q) (gq_count q) (gq_any q) (gq_withCoord q) (gq_withDist q) (gq_withHash q) (gq_storeDist q).
Definition set_lonlat (lon lat : spec_float) (q : GeoQuery) : GeoQuery :=
  mkGeoQuery (gq_member q) (Some (lon, lat)) (gq_radius q) (gq_box q) (gq_unit q) (gq_desc q) (gq_sort q) (gq_count q) (gq_any q) (gq_withCoord q) (gq_withDist q) (gq_withHash q) (gq_storeDist q).
Definition set_radius (r : spec_float) (unit : bytes) (q : GeoQuery) : GeoQuery :=
  mkGeoQuery (gq_member q) (gq_lonlat q) (Some r) (gq_box q) unit (gq_desc q) (gq_sort q) (gq_count q) (gq_any q) (gq_withCoord q) (gq_withDist q) (gq_withHash q) (gq_storeDist q).
Definition set_box (width height : spec_float) (unit : bytes) (q : GeoQuery) : GeoQuery :=
  mkGeoQuery (gq_member q) (gq_lonlat q) (gq_radius q) (Some (width, height)) unit (gq_desc q) (gq_sort q) (gq_count q) (gq_any q) (gq_withCoord q) (gq_withDist q) (gq_withHash q) (gq_storeDist q).
Definition set_order (desc : bool) (q : GeoQuery) : GeoQuery :=
  mkGeoQuery (gq_member q) (gq_lonlat q) (gq_radius q) (gq_box q) (gq_unit q) desc true (gq_count q) (gq_any q) (gq_withCoord q) (gq_withDist q) (gq_withHash q) (gq_storeDist q).
Definition set_geo_count (n : Z) (q : GeoQuery) : GeoQuery :=
  mkGeoQuery (gq_member q) (gq_lonlat q) (gq_radius q) (gq_box q) (gq_unit q) (gq_desc q) (gq_sort q) n (gq_any q) (gq_withCoord q) (gq_withDist q) (gq_withHash q) (gq_storeDist q).
Definition set_geo_flags (any coord dist hash storeDist : bool) (q : GeoQuery) : GeoQuery :=
  mkGeoQuery (gq_member q) (gq_lonlat q) (gq_radius q) (gq_box q) (gq_unit q) (gq_desc q) (gq_sort q) (gq_count q)
    (gq_any q || any) (gq_withCoord q || coord) (gq_withDist q || dist) (gq_withHash q || hash) (gq_storeDist q || storeDist).

(** A number that has to be there and not negative. *)
Definition non_negative (what : string) (a : bytes) : result (Writer → Writer) spec_float :=
  match parse_float a with
  | Some x => if SFltb x float_zero then Err (WriteError (str "ERR need a non-negative " ++ str what)) else Ok x
  | None => Err (WriteError (str "ERR need a non-negative " ++ str what))
  end.

Definition geo_option (isStore : bool) (opt : bytes) (rest : list bytes) (q : GeoQuery) : result (Writer → Writer) (GeoQuery * list bytes) :=
  if beq opt (str "FROMMEMBER") then
    match rest with m :: rest' => Ok (set_member m q, rest') | _ => Err geo_syntax_error end
  else if beq opt (str "FROMLONLAT") then
    match rest with
    | a :: b :: rest' =>
      match parse_float a with
      | None => Err geo_not_a_float
      | Some lon =>
        match parse_float b with
        | None => Err geo_not_a_float
        | Some lat => if negb (validateCoordinates lon lat) then Err invalid_pair else Ok (set_lonlat lon lat q, rest')
        end
      end
    | _ => Err geo_syntax_error
    end
  else if beq opt (str "BYRADIUS") then
    match rest with
    | a :: u :: rest' =>
      match non_negative "radius" a with
      | Err e => Err e
      | Ok r => if negb (valid_unit (ToLower u)) then Err bad_unit else Ok (set_radius r (ToLower u) q, rest')
      end
    | _ => Err geo_syntax_error
    end
  else if beq opt (str "BYBOX") then
    match rest with
    | a :: b :: u :: rest' =>
      match non_negative "width" a with
      | Err e => Err e
      | Ok width =>
        match non_negative "height" b with
        | Err e => Err e
        | Ok height => if negb (valid_unit (ToLower u)) then Err bad_unit else Ok (set_box width height (ToLower u) q, rest')
        end
      end
    | _ => Err geo_syntax_error
    end
  else if beq opt (str "ASC") then Ok (set_order false q, rest)
  else if beq opt (str "DESC") then Ok (set_order true q, rest)
  else if beq opt (str "COUNT") then
    match rest with
    | a :: rest' =>
      match Atoi a with
      | Some n => if n <=? 0 then Err (WriteError (str "ERR COUNT must be > 0")) else Ok (set_geo_count n q, rest')
      | None => Err (WriteError (str "ERR COUNT must be > 0"))
      end
    | _ => Err geo_syntax_error
    end
  else if beq opt (str "ANY") then Ok (set_geo_flags true false false false false q, rest)
  else if beq opt (str "WITHCOORD") then Ok (set_geo_flags false true false false false q, rest)
  else if beq opt (str "WITHDIST") then Ok (set_geo_flags false false true false false q, rest)
  else if beq opt (str "WITHHASH") then Ok (set_geo_flags false false false true false q, rest)
  else if beq opt (str "STOREDIST") then
    if negb isStore then Err geo_syntax_error else Ok (set_geo_flags false false false false true q, rest)
  else Err geo_syntax_error.
Fixpoint geo_options (fuel : nat) (isStore : bool) (args : list bytes) (q : GeoQuery) : result (Writer → Writer) GeoQuery :=
  match fuel, args with
  | S fuel', a :: rest =>
    match geo_option isStore (ToUpper a) rest q with
    | Err e => Err e
    | Ok (q', rest') => geo_options fuel' isStore rest' q'
    end
  | _, _ => Ok q
  end.
Definition is_some {A} (o : option A) : bool := match o with Some _ => true | None => false end.
Definition geo_query (isStore : bool) (args : list bytes) : result (Writer → Writer) GeoQuery :=
  match geo_options (length args) isStore args no_query with
  | Err e => Err e
  | Ok q =>
    if negb (is_some (gq_member q)) && negb (is_some (gq_lonlat q))
    then Err (WriteError (str "ERR exactly one of FROMMEMBER or FROMLONLAT can be specified for GEOSEARCH"))
    else if is_some (gq_member q) && is_some (gq_lonlat q) then Err geo_syntax_error
    else if negb (is_some (gq_radius q)) && negb (is_some (gq_box q))
    then Err (WriteError (str "ERR exactly one of BYRADIUS and BYBOX can be specified for GEOSEARCH"))
    else if is_some (gq_radius q) && is_some (gq_box q) then Err geo_syntax_error
    else if gq_any q && (gq_count q =? 0) then Err (WriteError (str "ERR the ANY option requires the COUNT option"))
    else if isStore && (gq_withCoord q || gq_withDist q || gq_withHash q)
    then Err (WriteError (str "ERR STORE option cannot be combined with WITHCOORD, WITHDIST, or WITHHASH"))
    else Ok q
  end.

(** Whether an entry is in the circle or the box around the centre. *)
Definition in_range (q : GeoQuery) (fromLon fromLat : spec_float) (e : geoEntry) : bool :=
  match gq_radius q with
  | Some r => SFleb (haversineDistance fromLon fromLat (ge_Longitude e) (ge_Latitude e)) (convertToMeters r (gq_unit q))
  | None =>
    let '(width, height) := default (float_zero, float_zero) (gq_box q) in
    let lonDistance := haversineDistance fromLon (ge_Latitude e) (ge_Longitude e) (ge_Latitude e) in
    let latDistance := haversineDistance (ge_Longitude e) fromLat (ge_Longitude e) (ge_Latitude e) in
    SFleb latDistance (float_div (convertToMeters height (gq_unit q)) (float64_of 2)) &&
    SFleb lonDistance (float_div (convertToMeters width (gq_unit q)) (float64_of 2))
  end.
Definition with_distance (fromLon fromLat : spec_float) (e : geoEntry) : geoEntry :=
  mkGeoEntry (ge_Member e) (ge_Hash e) (ge_Longitude e) (ge_Latitude e) (haversineDistance fromLon fromLat (ge_Longitude e) (ge_Latitude e)).
(** ANY stops at the count. *)
Fixpoint collect (q : GeoQuery) (fromLon fromLat : spec_float) (found : Z) (entries : list geoEntry) : list geoEntry :=
  match entries with
  | [] => []
  | e :: entries' =>
    if in_range q fromLon fromLat e then
      with_distance fromLon fromLat e ::
      (if gq_any q && (0 <? gq_count q) && (gq_count q <=? found + 1) then [] else collect q fromLon fromLat (found + 1) entries')
    else collect q fromLon fromLat found entries'
  end.
Definition distance_less (desc : bool) (a b : geoEntry) : bool :=
  if desc then SFltb (ge_Distance b) (ge_Distance a) else SFltb (ge_Distance a) (ge_Distance b).
Definition should_sort (q : GeoQuery) : bool := gq_sort q || ((0 <? gq_count q) && negb (gq_any q)).
Definition geo_results (q : GeoQuery) (fromLon fromLat : spec_float) (entries : list geoEntry) : list geoEntry :=
  let results := collect q fromLon fromLat 0 entries in
  let results := if should_sort q then sort_slice (distance_less (gq_desc q)) results else results in
  if (0 <? gq_count q) && (gq_count q <? len results) then take (Z.to_nat (gq_count q)) results else results.

Definition geo_score (q : GeoQuery) (e : geoEntry) : spec_float :=
  if gq_storeDist q then convertDistance (ge_Distance e) (gq_unit q) else float64_of (ge_Hash e).
Definition store_geo (q : GeoQuery) (destKey : bytes) (results : list geoEntry) : M unit :=
  _ ← emitGeoDeleteKey destKey;
  _ ← (if 0 <? len results then
         _ ← for_each results (λ e, emitGeoInsert destKey (ge_Member e) (geo_score q e));
         emitGeoTypeTag destKey
       else mret tt);
  reply (WriteInteger (len results)).

Definition field_count (q : GeoQuery) : Z := 1 + Z.b2z (gq_withDist q) + Z.b2z (gq_withHash q) + Z.b2z (gq_withCoord q).
Definition write_found (q : GeoQuery) (e : geoEntry) (w : Writer) : Writer :=
  let w := if 1 <? field_count q then WriteArray (field_count q) w else w in
  let w := WriteBulkStringStr (ge_Member e) w in
  let w := if gq_withDist q then WriteBulkStringStr (format_f4 (convertDistance (ge_Distance e) (gq_unit q))) w else w in
  let w := if gq_withHash q then WriteInteger (i64 (ge_Hash e)) w else w in
  if gq_withCoord q then write_coords (ge_Longitude e, ge_Latitude e) w else w.

(** The centre: the point given, or where the member is. *)
Definition geo_center (q : GeoQuery) (snap : option ReducedEffect) : option (spec_float * spec_float) :=
  match gq_member q with
  | Some m => score ← geoMemberScore snap m; Some (geoHashDecode (uint64_of_float score))
  | None => gq_lonlat q
  end.
Definition geo_missing (destKey : bytes) (isStore : bool) : M unit :=
  if isStore then _ ← emitGeoDeleteKey destKey; reply (WriteInteger 0)
  else reply (WriteArray 0).
Definition geoSearch (args : list bytes) (destKey : bytes) (isStore : bool) : M unit :=
  match args with
  | [] => reply (WriteWrongNumArguments (str "geosearch"))
  | key :: opts =>
    match geo_query isStore opts with
    | Err e => reply e
    | Ok q =>
      s ← getGeoSnapshot key;
      if ks_wrongType s then reply WriteWrongType
      else if negb (ks_exists s) then geo_missing destKey isStore
      else match geo_center q (ks_snap s) with
      | None => reply (WriteError (str "ERR could not decode requested zset member"))
      | Some (fromLon, fromLat) =>
        let results := geo_results q fromLon fromLat (geoSortedEntries (ks_snap s)) in
        if isStore then store_geo q destKey results
        else
          _ ← write (WriteArray (len results));
          for_each results (λ e, write (write_found q e))
      end
    end
  end.

Definition handleGeoSearch (args : list bytes) : Prep :=
  match args with
  | key :: _ => Accept [key] (geoSearch args [] false)
  | [] => Refuse [] (WriteWrongNumArguments (str "geosearch"))
  end.
Definition handleGeoSearchStore (args : list bytes) : Prep :=
  match args with
  | destKey :: ((sourceKey :: _) as rest) => Accept [destKey; sourceKey] (geoSearch rest destKey true)
  | _ => Refuse [] (WriteWrongNumArguments (str "geosearchstore"))
  end.

(** ** GEORADIUS *)

(** The destination, whether it takes distances, and the options without it. *)
Fixpoint store_options (ro : bool) (name : string) (fuel : nat) (args : list bytes) (dest : bytes) (dist : bool) :
    result (Writer → Writer) (bytes * bool * list bytes) :=
  match fuel, args with
  | S fuel', a :: rest =>
    let opt := strings_ToUpper a in
    if beq opt (str "STORE") || beq opt (str "STOREDIST") then
      if ro then Err (WriteError (str "ERR " ++ opt ++ str " option not allowed in " ++ str name))
      else match rest with
      | [] => Err geo_syntax_error
      | k :: rest' => store_options ro name fuel' rest' k (dist || beq opt (str "STOREDIST"))
      end
    else match store_options ro name fuel' rest dest dist with
    | Err e => Err e
    | Ok (d, sd, opts) => Ok (d, sd, a :: opts)
    end
  | _, _ => Ok (dest, dist, [])
  end.
Definition radius_search (ro : bool) (name : string) (key : bytes) (center : list bytes) (radius unit : bytes) (opts : list bytes) : Prep :=
  match store_options ro name (length opts) opts [] false with
  | Err e => Refuse [] e
  | Ok (dest, storeDist, filtered) =>
    let isStore := negb (beq dest []) in
    Accept (if isStore then [dest; key] else [key])
      (geoSearch (key :: center ++ [str "BYRADIUS"; radius; unit] ++ filtered ++ (if storeDist then [str "STOREDIST"] else [])) dest isStore)
  end.
Definition handleGeoRadius (ro : bool) (args : list bytes) : Prep :=
  match args with
  | key :: lon :: lat :: radius :: unit :: opts => radius_search ro "GEORADIUS_RO" key [str "FROMLONLAT"; lon; lat] radius unit opts
  | _ => Refuse [] (WriteWrongNumArguments (str "georadius"))
  end.
Definition handleGeoRadiusByMember (ro : bool) (args : list bytes) : Prep :=
  match args with
  | key :: member :: radius :: unit :: opts => radius_search ro "GEORADIUSBYMEMBER_RO" key [str "FROMMEMBER"; member] radius unit opts
  | _ => Refuse [] (WriteWrongNumArguments (str "georadiusbymember"))
  end.

Definition register_geo (ty : CommandType) : option CommandEntry :=
  match ty with
  | CmdGeoAdd => Some (write_entry handleGeoAdd KeysFirst)
  | CmdGeoSearchStore => Some (write_entry handleGeoSearchStore KeysFirstTwo)
  | CmdGeoDist => Some (handler_entry handleGeoDist)
  | CmdGeoHash => Some (handler_entry handleGeoHash)
  | CmdGeoPos => Some (handler_entry handleGeoPos)
  | CmdGeoRadius => Some (write_entry (handleGeoRadius false) KeysFirst)
  | CmdGeoRadiusRO => Some (handler_entry (handleGeoRadius true))
  | CmdGeoRadiusByMember => Some (write_entry (handleGeoRadiusByMember false) KeysFirst)
  | CmdGeoRadiusByMemberRO => Some (handler_entry (handleGeoRadiusByMember true))
  | CmdGeoSearch => Some (handler_entry handleGeoSearch)
  | _ => None
  end.
End Geo.
