(* ===== verification/GeoProps.v ===== *)
(** * What the geo commands do

    Geohashes interleave the bits of two cell numbers and give them back; GEOADD
    is a ZADD of geohashes; a search finds exactly the members in its circle or
    box, the nearest of them when they are counted, and STORE leaves exactly those
    at the destination. *)

From Stdlib Require Import SpecFloat Sorted.
From S2P Require Import Prelude GoBytes Strconv Floats Commands Writer Engine Runs Acl Sets Strings Hashes HashTheorems Lists Zsets ZsetOrder ZsetTheorems ZsetOps ZsetOpProps Dispatch Sort SortProps Geo.

Local Open Scope Z_scope.

(** ** Bits *)

(** Functions that distribute over the bits of their argument are equal when they
    agree on the powers of two. *)
Definition linear (f : Z → Z) : Prop := f 0 = 0 ∧ ∀ a b, f (Z.lor a b) = Z.lor (f a) (f b).
Lemma linear_ext f g (n : nat) : linear f → linear g → (∀ i : nat, (i < n)%nat → f (2 ^ Z.of_nat i) = g (2 ^ Z.of_nat i)) →
  ∀ x, 0 <= x < 2 ^ Z.of_nat n → f x = g x.
Proof.
  intros [Hf0 Hf] [Hg0 Hg]. induction n as [|n IH]; intros Hi x Hx.
  - replace x with 0 by (change (2 ^ Z.of_nat 0) with 1 in Hx; lia). congruence.
  - assert (E : x = Z.lor (x `mod` 2 ^ Z.of_nat n) (if Z.testbit x (Z.of_nat n) then 2 ^ Z.of_nat n else 0)).
    { apply Z.bits_inj'. intros k Hk. rewrite Z.lor_spec.
      destruct (Z.ltb_spec k (Z.of_nat n)) as [Hlt|Hge].
      - rewrite Z.mod_pow2_bits_low by lia. destruct (Z.testbit x (Z.of_nat n)); [rewrite Z.pow2_bits_false by lia|rewrite Z.bits_0]; by rewrite orb_false_r.
      - rewrite Z.mod_pow2_bits_high by lia. cbn [orb]. destruct (Z.eq_dec k (Z.of_nat n)) as [->|Hne].
        + destruct (Z.testbit x (Z.of_nat n)) eqn:Et; [by rewrite Z.pow2_bits_true by lia|by rewrite Z.bits_0].
        + rewrite (Z.bits_above_log2 x); [destruct (Z.testbit x (Z.of_nat n)); [by rewrite Z.pow2_bits_false by lia|by rewrite Z.bits_0]|lia|].
          destruct (Z.eq_dec x 0) as [->|]; [cbn; lia|]. apply Z.log2_lt_pow2; [lia|]. eapply Z.lt_le_trans; [apply Hx|]. apply Z.pow_le_mono_r; lia. }
    rewrite E, Hf, Hg. f_equal.
    + apply IH; [intros i Hlt; apply Hi; lia|]. apply Z.mod_pos_bound. lia.
    + destruct (Z.testbit x (Z.of_nat n)); [apply Hi; lia|congruence].
Qed.
(** The check over the powers, to be computed. *)
Definition same_powers (f g : Z → Z) : bool := forallb (λ i, f (2 ^ i) =? g (2 ^ i)) (seqZ 0 32).
Lemma linear_u32 f g x : linear f → linear g → same_powers f g = true → 0 <= x < 2 ^ 32 → f x = g x.
Proof.
  intros Hf Hg Hp. apply (linear_ext f g 32 Hf Hg). intros i Hi. unfold same_powers in Hp. rewrite forallb_forall in Hp.
  apply Z.eqb_eq, Hp. apply list_elem_of_In, elem_of_seqZ. lia.
Qed.

Lemma linear_id : linear id.
Proof. done. Qed.
Lemma linear_zero : linear (λ _, 0).
Proof. done. Qed.
Lemma linear_comp f g : linear f → linear g → linear (λ x, f (g x)).
Proof. intros [H0 Hf] [H1 Hg]. split; [congruence|]. intros a b. by rewrite Hg, Hf. Qed.
Lemma linear_lor f g : linear f → linear g → linear (λ x, Z.lor (f x) (g x)).
Proof.
  intros [H0 Hf] [H1 Hg]. split; [by rewrite H0, H1|]. intros a b. rewrite Hf, Hg. apply Z.bits_inj'. intros n _. rewrite !Z.lor_spec.
  by destruct (Z.testbit (f a) n), (Z.testbit (f b) n), (Z.testbit (g a) n), (Z.testbit (g b) n).
Qed.
Lemma linear_land b f : linear f → linear (λ x, Z.land (f x) b).
Proof. intros [H0 Hf]. split; [by rewrite H0|]. intros x y. by rewrite Hf, Z.land_lor_distr_l. Qed.
Lemma linear_shiftr n f : linear f → linear (λ x, Z.shiftr (f x) n).
Proof. intros [H0 Hf]. split; [rewrite H0; apply Z.shiftr_0_l|]. intros x y. by rewrite Hf, Z.shiftr_lor. Qed.
Lemma linear_shiftl n f : linear f → linear (λ x, u64 (Z.shiftl (f x) n)).
Proof.
  intros [H0 Hf]. unfold u64. split; [rewrite H0, Z.shiftl_0_l; done|]. intros x y. rewrite Hf, Z.shiftl_lor.
  rewrite <- !Z.land_ones by lia. apply Z.land_lor_distr_l.
Qed.
Create HintDb bits.
#[export] Hint Resolve linear_id linear_zero linear_lor linear_land linear_shiftr linear_shiftl : bits.

Lemma linear_spread s b f : linear f → linear (λ x, spread s b (f x)).
Proof. intros Hf. unfold spread. auto with bits. Qed.
Lemma linear_squash s b f : linear f → linear (λ x, squash s b (f x)).
Proof. intros Hf. unfold squash. auto with bits. Qed.
#[export] Hint Resolve linear_spread linear_squash : bits.
Lemma linear_spread_all f : linear f → linear (λ x, spread_all (f x)).
Proof. intros Hf. unfold spread_all. auto 20 with bits. Qed.
Lemma linear_squash_all f : linear f → linear (λ x, squash_all (f x)).
Proof. intros Hf. unfold squash_all. auto 20 with bits. Qed.
#[export] Hint Resolve linear_spread_all linear_squash_all : bits.

(** One bit as a number. *)
Definition bit (n a : Z) : Z := Z.land (Z.shiftr a n) 1.
Lemma bit_b2z n a : 0 <= n → bit n a = Z.b2z (Z.testbit a n).
Proof. intros Hn. unfold bit. change 1 with (Z.ones 1). rewrite Z.land_ones by lia. rewrite Z.shiftr_div_pow2 by done. symmetry. by apply Z.testbit_spec'. Qed.

(** Bit [i] goes to place [2 i], and the odd places are free. *)
Definition bits_apart : bool :=
  forallb (λ i, same_powers (λ x, bit (2 * i) (spread_all x)) (bit i) && same_powers (λ x, bit (2 * i + 1) (spread_all x)) (λ _, 0)) (seqZ 0 32).
Lemma bits_are_apart : bits_apart = true.
Proof. vm_compute. reflexivity. Qed.
Lemma spread_bits x i : 0 <= x < 2 ^ 32 → 0 <= i < 32 →
  Z.testbit (spread_all x) (2 * i) = Z.testbit x i ∧ Z.testbit (spread_all x) (2 * i + 1) = false.
Proof.
  intros Hx Hi. pose proof bits_are_apart as Hb. unfold bits_apart in Hb. rewrite forallb_forall in Hb.
  specialize (Hb i ltac:(apply list_elem_of_In, elem_of_seqZ; lia)). apply andb_true_iff in Hb as [He Ho].
  assert (Hl : ∀ n, linear (λ x, bit n (spread_all x))) by (intros n; unfold bit; auto with bits).
  assert (Hl' : linear (bit i)) by (apply (linear_land 1 (λ x, Z.shiftr x i)), (linear_shiftr i id), linear_id).
  pose proof (linear_u32 _ _ x (Hl (2 * i)) Hl' He Hx) as Ee. pose proof (linear_u32 _ _ x (Hl (2 * i + 1)) linear_zero Ho Hx) as Eo.
  cbv beta in Ee, Eo. rewrite !bit_b2z in Ee by lia. rewrite bit_b2z in Eo by lia. split; [by apply Z.b2z_inj|by apply (Z.b2z_inj _ false)].
Qed.

Lemma interleave_bits x y i : 0 <= x < 2 ^ 32 → 0 <= y < 2 ^ 32 → 0 <= i < 32 →
  Z.testbit (interleave64 x y) (2 * i) = Z.testbit x i ∧ Z.testbit (interleave64 x y) (2 * i + 1) = Z.testbit y i.
Proof.
  intros Hx Hy Hi. unfold interleave64, u64. rewrite !Z.lor_spec. rewrite !Z.mod_pow2_bits_low, !Z.shiftl_spec by lia.
  destruct (spread_bits x i Hx Hi) as [-> ->]. replace (2 * i + 1 - 1) with (2 * i) by lia. destruct (spread_bits y i Hy Hi) as [-> _]. split; [|done].
  destruct (Z.eq_dec i 0) as [->|]; [rewrite (Z.testbit_neg_r _ (2 * 0 - 1)) by lia; by rewrite orb_false_r|].
  replace (2 * i - 1) with (2 * (i - 1) + 1) by lia. destruct (spread_bits y (i - 1) Hy) as [_ ->]; [lia|]. by rewrite orb_false_r.
Qed.

(** Squashing finds the even places and sees nothing of the odd ones. *)
Definition woven (y : Z) : Z := u64 (Z.shiftl (spread_all y) 1).
Lemma linear_woven f : linear f → linear (λ x, woven (f x)).
Proof. intros Hf. unfold woven. auto with bits. Qed.
#[export] Hint Resolve linear_woven : bits.
Lemma squash_lor a b : squash_all (Z.lor a b) = Z.lor (squash_all a) (squash_all b).
Proof. apply (linear_squash_all id linear_id). Qed.
Lemma squash_even x : 0 <= x < 2 ^ 32 → squash_all (spread_all x) = x.
Proof. apply (linear_u32 (λ x, squash_all (spread_all x)) id); [auto with bits|apply linear_id|vm_compute; reflexivity]. Qed.
Lemma squash_odd x : 0 <= x < 2 ^ 32 → squash_all (woven x) = 0.
Proof. apply (linear_u32 (λ x, squash_all (woven x)) (λ _, 0)); [auto with bits|apply linear_zero|vm_compute; reflexivity]. Qed.
Lemma squash_even_down x : 0 <= x < 2 ^ 32 → squash_all (Z.shiftr (spread_all x) 1) = 0.
Proof. apply (linear_u32 (λ x, squash_all (Z.shiftr (spread_all x) 1)) (λ _, 0)); [auto with bits|apply linear_zero|vm_compute; reflexivity]. Qed.
Lemma squash_odd_down x : 0 <= x < 2 ^ 32 → squash_all (Z.shiftr (woven x) 1) = x.
Proof. apply (linear_u32 (λ x, squash_all (Z.shiftr (woven x) 1)) id); [auto with bits|apply linear_id|vm_compute; reflexivity]. Qed.

Lemma u32_range z : 0 <= u32 z < 2 ^ 32.
Proof. apply Z.mod_pos_bound. lia. Qed.
Lemma deinterleave_interleave x y : 0 <= x < 2 ^ 32 → 0 <= y < 2 ^ 32 → deinterleave64 (interleave64 x y) = Z.lor x (Z.shiftl y 32).
Proof.
  intros Hx Hy. unfold deinterleave64, interleave64. fold (woven y). rewrite Z.shiftr_lor, !squash_lor.
  rewrite squash_even, squash_odd, squash_even_down, squash_odd_down by done. rewrite Z.lor_0_r, Z.lor_0_l. f_equal. apply u64_id.
  rewrite Z.shiftl_mul_pow2 by lia. zlia.
Qed.
Lemma halves x y : 0 <= x < 2 ^ 32 → 0 <= y < 2 ^ 32 → u32 (Z.lor x (Z.shiftl y 32)) = x ∧ u32 (Z.shiftr (Z.lor x (Z.shiftl y 32)) 32) = y.
Proof.
  intros Hx Hy. unfold u32. split.
  - rewrite <- Z.land_ones by lia. rewrite Z.land_lor_distr_l, !Z.land_ones by lia. rewrite Z.shiftl_mul_pow2, Z.mod_mul, Z.lor_0_r by lia. by apply Z.mod_small.
  - rewrite Z.shiftr_lor, Z.shiftr_shiftl_l by lia. rewrite (Z.shiftr_div_pow2 x), Z.div_small, Z.lor_0_l by lia. rewrite Z.sub_diag, Z.shiftl_0_r. by apply Z.mod_small.
Qed.

Lemma interleave_nonneg x y : 0 <= interleave64 x y.
Proof.
  unfold interleave64, spread_all. apply Z.lor_nonneg. split; [unfold spread at 1; apply Z.land_nonneg; right; lia|]. apply u64_range.
Qed.

(** ** GEOADD *)

Lemma geo_bits_range x min max : 0 <= geo_bits x min max < 2 ^ 32.
Proof. apply u32_range. Qed.
(** The point a geohash is decoded to: the middle of its cell. *)
Definition cell_of (lon lat : spec_float) : spec_float * spec_float :=
  (cell_middle (geo_bits lon GEO_LON_MIN GEO_LON_MAX) GEO_LON_MIN GEO_LON_MAX lonScale,
   cell_middle (geo_bits lat GEO_LAT_MIN GEO_LAT_MAX) GEO_LAT_MIN GEO_LAT_MAX latScale).
Lemma decode_encode lon lat : geoHashDecode (geoHashEncode lon lat) = cell_of lon lat.
Proof.
  unfold geoHashEncode, geoHashEncodeWithRange, geoHashDecode, cell_of.
  pose proof (geo_bits_range lat GEO_LAT_MIN GEO_LAT_MAX) as Ha. pose proof (geo_bits_range lon GEO_LON_MIN GEO_LON_MAX) as Hb.
  rewrite deinterleave_interleave by done. by destruct (halves _ _ Ha Hb) as [-> ->].
Qed.

Lemma score_exact z : 0 <= z < 2 ^ 53 → uint64_of_float (float64_of z) = z.
Proof. intros Hz. unfold uint64_of_float. rewrite float64_exact by done. apply u64_id. zlia. Qed.

(** Cell numbers in range give hashes that are exact as doubles. *)
Definition fits_53 (f : Z → Z) (n : nat) : bool := forallb (λ i, Z.shiftr (f (2 ^ i)) 53 =? 0) (seqZ 0 (Z.of_nat n)).
Lemma fits_bits f (n : nat) x : linear f → fits_53 f n = true → 0 <= x < 2 ^ Z.of_nat n → Z.shiftr (f x) 53 = 0.
Proof.
  intros Hf Hp. apply (linear_ext (λ x, Z.shiftr (f x) 53) (λ _, 0) n); [by apply linear_shiftr|apply linear_zero|]. intros i Hi. unfold fits_53 in Hp. rewrite forallb_forall in Hp.
  apply Z.eqb_eq, Hp. apply list_elem_of_In, elem_of_seqZ. lia.
Qed.
Lemma interleave_53 x y : 0 <= x < 2 ^ 27 → 0 <= y < 2 ^ 26 → interleave64 x y < 2 ^ 53.
Proof.
  intros Hx Hy. assert (E : Z.shiftr (interleave64 x y) 53 = 0).
  { unfold interleave64. rewrite Z.shiftr_lor. rewrite (fits_bits spread_all 27 x); [|apply (linear_spread_all id), linear_id|vm_compute; reflexivity|done].
    fold (woven y). rewrite (fits_bits woven 26 y); [done|apply (linear_woven id), linear_id|vm_compute; reflexivity|done]. }
  rewrite Z.shiftr_div_pow2 in E by lia. pose proof (interleave_nonneg x y). pose proof (Z.div_mod (interleave64 x y) (2 ^ 53)). pose proof (Z.mod_pos_bound (interleave64 x y) (2 ^ 53)). lia.
Qed.

(** C24: Geohashes: the bits of the two cell numbers of a point alternate in its
    hash, and are separated again without loss, so a hash is decoded to the middle
    of the cell its point is in.  It is decoded to the same place after it has been
    stored as a score under one condition, that the cell number of the longitude is
    below 2^26: at longitude 180 it is 2^26, the hash does not fit the 53 bits of a
    score, and [geohash_54_bits] shows another cell read back. *)
Theorem geohash_roundtrip :
  (∀ x y i, 0 <= x < 2 ^ 32 → 0 <= y < 2 ^ 32 → 0 <= i < 32 →
     Z.testbit (interleave64 x y) (2 * i) = Z.testbit x i ∧ Z.testbit (interleave64 x y) (2 * i + 1) = Z.testbit y i) ∧
  (∀ x y, 0 <= x < 2 ^ 32 → 0 <= y < 2 ^ 32 →
     u32 (deinterleave64 (interleave64 x y)) = x ∧ u32 (Z.shiftr (deinterleave64 (interleave64 x y)) 32) = y) ∧
  (∀ lon lat, geoHashDecode (geoHashEncode lon lat) = cell_of lon lat) ∧
  (∀ lon lat, geo_bits lon GEO_LON_MIN GEO_LON_MAX < 2 ^ 26 → geo_bits lat GEO_LAT_MIN GEO_LAT_MAX <= 2 ^ 26 →
     geoHashDecode (uint64_of_float (float64_of (geoHashEncode lon lat))) = cell_of lon lat).
Proof.
  split_and!.
  - intros x y i. apply interleave_bits.
  - intros x y Hx Hy. rewrite deinterleave_interleave by done. by apply halves.
  - apply decode_encode.
  - intros lon lat Ho Ha. rewrite score_exact; [apply decode_encode|]. unfold geoHashEncode, geoHashEncodeWithRange. split; [apply interleave_nonneg|].
    pose proof (geo_bits_range lon GEO_LON_MIN GEO_LON_MAX). pose proof (geo_bits_range lat GEO_LAT_MIN GEO_LAT_MAX). apply interleave_53; lia.
Qed.

(** GEOADD is the ZADD of the geohashes. *)
Definition as_zadd (o : GeoAddOpts) : ZAddOpts := mkZAddOpts (ga_nx o) (ga_xx o) false false (ga_ch o) false.
Definition geo_pair (m : spec_float * spec_float * bytes) : spec_float * bytes := let '(lon, lat, member) := m in (float64_of (geoHashEncode lon lat), member).

Section Runs.
Context `{EngineLaws} `{ParseFloat} `{FormatG} `{FormatFloat} `{FormatF4} `{RangeOrderLaws} `{UnicodeCase} `{Trig} `{SortSlice}.

Lemma member_score snap k : geoMemberScore snap k = zsetMemberScore snap k.
Proof. destruct snap; [done|]. unfold zsetMemberScore, net_adds. by rewrite lookup_empty. Qed.
Lemma geoadd_one_zadd key snap o m counts : geoadd_one key snap o m counts = zadd_one key snap (as_zadd o) (fst (geo_pair m)) (snd (geo_pair m)) counts.
Proof.
  destruct m as [[lon lat] k], counts as [a b]. unfold geoadd_one, zadd_one. rewrite member_score. cbn [geo_pair fst snd as_zadd za_nx za_xx za_gt za_lt andb].
  destruct (zsetMemberScore snap k) as [x|].
  - rewrite bool_decide_eq_true_2 by done. cbn [negb]. rewrite andb_true_r, andb_false_r. by destruct (ga_nx o).
  - rewrite bool_decide_eq_false_2 by (by intros []). cbn [negb]. rewrite andb_true_r, andb_false_r. by destruct (ga_xx o).
Qed.
Lemma geoadd_loop_zadd key snap o members counts st : geoadd_loop key snap o members counts st = zadd_loop key snap (as_zadd o) counts (geo_pair <$> members) st.
Proof.
  revert counts st. induction members as [|m members IH]; intros counts st; [done|]. rewrite fmap_cons. destruct (geo_pair m) as [score k] eqn:Em. cbn [geoadd_loop zadd_loop as_zadd za_incr].
  unfold mbind, M_bind. rewrite geoadd_one_zadd, Em. cbn [fst snd]. destruct (zadd_one _ _ _ _ _ _ _) as [[counts'| | |] st']; [apply IH|done..].
Qed.

(** Exactly the members the options allow have their new geohash. *)
Definition geo_allowed (o : GeoAddOpts) (old : option Value) : bool := match old with Some _ => negb (ga_nx o) | None => negb (ga_xx o) end.
Definition geoadd_result (o : GeoAddOpts) (members : list (spec_float * spec_float * bytes)) (m m' : gmap bytes Value) : Prop :=
  (∀ k, k ∉ (snd <$> members) → m' !! k = m !! k) ∧
  (∀ lon lat k, (lon, lat, k) ∈ members →
     m' !! k = if geo_allowed o (m !! k) then Some (float_value (float64_of (geoHashEncode lon lat))) else m !! k).
Definition geo_moved (o : GeoAddOpts) (m : gmap bytes Value) (p : spec_float * spec_float * bytes) : bool :=
  let '(lon, lat, k) := p in
  match m !! k with Some v => negb (ga_nx o) && negb (SFeqb (float64_of (geoHashEncode lon lat)) (GetFloatVal v)) | None => false end.

Lemma snd_pairs (members : list (spec_float * spec_float * bytes)) : snd <$> (geo_pair <$> members) = snd <$> members.
Proof. rewrite <- list_fmap_compose. apply list_fmap_ext. by intros _ [[lon lat] k] _. Qed.
Lemma geo_allowed_accepts o m k s : zadd_accepts (as_zadd o) (scores_of m !! k) s = geo_allowed o (m !! k).
Proof. unfold zadd_accepts, geo_allowed, scores_of. rewrite lookup_fmap. destruct (m !! k); cbn; [|done]. by rewrite !andb_true_r. Qed.
Lemma geoadd_zadd_result o (members : list (spec_float * spec_float * bytes)) m m' : zadd_result (as_zadd o) (geo_pair <$> members) m m' → geoadd_result o members m m'.
Proof.
  intros [Hn Hp]. rewrite snd_pairs in Hn. split; [done|]. intros lon lat k Hin. rewrite (Hp (float64_of (geoHashEncode lon lat)) k), geo_allowed_accepts; [done|].
  apply list_elem_of_fmap. by exists (lon, lat, k).
Qed.
Lemma geo_moved_changed o m (members : list (spec_float * spec_float * bytes)) : how_many (zadd_changed (as_zadd o) m) (geo_pair <$> members) = how_many (geo_moved o m) members.
Proof.
  induction members as [|[[lon lat] k] members IH]; [done|]. rewrite fmap_cons, !how_many_cons, IH. f_equal. f_equal. unfold zadd_changed, geo_moved. cbn [geo_pair fst snd].
  rewrite geo_allowed_accepts. unfold scores_of. rewrite lookup_fmap. unfold geo_allowed. destruct (m !! k); cbn [fmap option_fmap option_map]; [done|by rewrite andb_false_r].
Qed.

Lemma classify_geo_zset v : classify_geo v = classify_zset v [].
Proof. unfold classify_geo, classify_zset. destruct v as [r|]; [|done]. by rewrite (orb_comm (bool_decide (re_TypeTag r = TYPE_GEO))). Qed.
Lemma finishes_geo_get key (f : KeySnap → M unit) st m e w Q : healthy (st_ctx st) → is_hash (view (st_ctx st) key) m e →
  (∀ s c', sees s (view (st_ctx st) key) m e → healthy c' → same (st_ctx st) c' → finishes (f s) (mkSt c' (st_w st) (st_held st)) w Q) →
  finishes (getGeoSnapshot key ≫= f) st w Q.
Proof.
  intros Hh Hx Hf. destruct (steps_get key st Hh) as [tips Hg]. eapply finishes_bind_bind; [exact Hg|]. cbv beta iota. intros c' Hh' Hs.
  change (finishes (f (classify_geo (view (st_ctx st) key))) (mkSt c' (st_w st) (st_held st)) w Q). apply Hf; [|done|done].
  rewrite classify_geo_zset, (classify_zset_keyed _ _ _ _ Hx). by apply classify_sees.
Qed.
Lemma finishes_geo_refused key (f : KeySnap → M unit) st : healthy (st_ctx st) → not_zset (view (st_ctx st) key) →
  (∀ s, ks_exists s = true → ks_wrongType s = true → f s = reply WriteWrongType) →
  finishes (getGeoSnapshot key ≫= f) st (WriteWrongType (st_w st)) (same (st_ctx st)).
Proof.
  intros Hh Hx Hf. destruct (steps_get key st Hh) as [tips Hg]. eapply finishes_bind_bind; [exact Hg|]. cbv beta iota. intros c' Hh' Hs.
  change (finishes (f (classify_geo (view (st_ctx st) key))) (mkSt c' (st_w st) (st_held st)) (WriteWrongType (st_w st)) (same (st_ctx st))).
  rewrite classify_geo_zset. destruct (classify_not_zset _ [] Hx). rewrite Hf by done. by apply finishes_reply.
Qed.

Lemma steps_geoadd key s o p members st c0 m e : healthy (st_ctx st) → same c0 (st_ctx st) → is_hash (view c0 key) m e → sees s (view c0 key) m e →
  ga_xx o && negb (is_live (view c0 key)) = false →
  let pairs := geo_pair <$> p :: members in
  steps (geoadd_loop key (ks_snap s) o (p :: members) (0, 0)) st
    (how_many (zadd_new (as_zadd o) m) pairs, how_many (zadd_changed (as_zadd o) m) pairs)
    (λ c', ∃ fs e', grown c0 key (zadd_puts (as_zadd o) m pairs m) fs e e' any_tag c').
Proof.
  intros Hh Hsame Hx Hs Exx pairs.
  assert (Hz : steps (zadd_loop key (ks_snap s) (as_zadd o) (0, 0) pairs) st
    (how_many (zadd_new (as_zadd o) m) pairs, how_many (zadd_changed (as_zadd o) m) pairs)
    (λ c', ∃ fs e', grown c0 key (zadd_puts (as_zadd o) m pairs m) fs e e' any_tag c')).
  { destruct (is_live (view c0 key)) eqn:El.
    - eapply steps_weaken; [eapply (steps_zadd_loop key s _ (as_zadd o) pairs 0 0 st m e m e); [done|exact Hs|done|by rewrite Hsame|by rewrite Hsame]|].
      cbv beta. intros c2 (fs & e2 & Hg). exists fs, e2. by eapply same_grown.
    - destruct (is_hash_dead _ _ _ El Hx) as [-> ->]. rewrite andb_true_r in Exx. unfold pairs. rewrite fmap_cons.
      eapply steps_weaken; [eapply (steps_zadd_loop_new key s _ (as_zadd o) _ _ st); [done|exact Hs|done|done|by rewrite Hsame]|].
      cbv beta. intros c2 (fs & e2 & Hg). exists fs, e2. by eapply same_grown. }
  destruct Hz as (c' & E & Hrest). exists c'. split; [|done]. by rewrite geoadd_loop_zadd.
Qed.
Lemma geoadd_accepts key rest remaining o p members : geoadd_opts rest (mkGeoAddOpts false false false) = (o, remaining) → ga_nx o && ga_xx o = false →
  (length rest > 2)%nat → len remaining `mod` 3 = 0 → geo_members remaining = Ok (p :: members) →
  handleGeoAdd (key :: rest) = Accept [key] (geoadd_runner key o (p :: members)).
Proof.
  intros Ho Hc Hlen Hmod Hp. assert (Hlr : (len remaining <? 3) = false).
  { destruct remaining as [|? [|? [|? ?]]]; [done..|]. apply Z.ltb_ge. unfold len. cbn [length]. lia. }
  destruct rest as [|? [|? [|? ?]]]; cbn [length] in Hlen; [lia..|]. unfold handleGeoAdd. by rewrite Ho, Hc, Hlr, Hmod, Hp.
Qed.

(** GEOADD with any compatible options on a geo key, a sorted set or a missing
    key: exactly the members its options allow get the geohash of their new
    point as their score, a missing key becomes a geo key unless XX is given, and
    other keys stay as they were; the reply is the number of new members, with CH
    also of those that moved. *)
Theorem geoadd_correct (key : bytes) (rest remaining : list bytes) (o : GeoAddOpts) (p : spec_float * spec_float * bytes)
    (members : list (spec_float * spec_float * bytes)) (st : St) (m : gmap bytes Value) (e : gmap bytes Timestamp) :
  healthy (st_ctx st) → is_hash (view (st_ctx st) key) m e →
  geoadd_opts rest (mkGeoAddOpts false false false) = (o, remaining) → ga_nx o && ga_xx o = false →
  (length rest > 2)%nat → len remaining `mod` 3 = 0 → geo_members remaining = Ok (p :: members) → NoDup (snd <$> p :: members) →
  ∃ run, handleGeoAdd (key :: rest) = Accept [key] run ∧
    if ga_xx o && negb (is_live (view (st_ctx st) key)) then finishes run st (WriteInteger 0 (st_w st)) (same (st_ctx st))
    else ∃ m', geoadd_result o (p :: members) m m' ∧
      finishes run st
        (WriteInteger (Z.of_nat (size m') - Z.of_nat (size m) + if ga_ch o then how_many (geo_moved o m) (p :: members) else 0) (st_w st))
        (λ c', ∃ fs e', grown (st_ctx st) key m' fs e e' (λ t, t = TYPE_GEO) c').
Proof.
  intros Hh Hx Ho Hc Hlen Hmod Hp Hnd. exists (geoadd_runner key o (p :: members)). split.
  { apply geoadd_accepts with remaining; done. }
  destruct (ga_xx o && negb (is_live (view (st_ctx st) key))) eqn:Exx.
  - apply (finishes_geo_get _ _ _ m e); [done|done|]. intros s c' Hs Hh' Hsame.
    rewrite (sees_type _ _ _ _ Hs), (sees_exists _ _ _ _ Hs), andb_comm, Exx. by apply finishes_reply.
  - set (pairs := geo_pair <$> p :: members). assert (Hnd' : NoDup (snd <$> pairs)) by (unfold pairs; by rewrite snd_pairs).
    exists (zadd_puts (as_zadd o) m pairs m). split; [by apply geoadd_zadd_result, zadd_puts_result|].
    rewrite (zadd_puts_size (as_zadd o) m pairs m Hnd') by done.
    apply (finishes_geo_get _ _ _ m e); [done|done|]. intros s c' Hs Hh' Hsame.
    rewrite (sees_type _ _ _ _ Hs), (sees_exists _ _ _ _ Hs), (andb_comm (negb _)), Exx.
    eapply (finishes_bind _ _ (mkSt c' _ _)); [apply (steps_geoadd key s o p members (mkSt c' _ _) (st_ctx st) m e); done|].
    cbv beta iota. cbn [st_ctx st_w st_held]. intros c2 Hh2 (fs & e2 & Hg). fold pairs. rewrite <- (sees_exists _ _ _ _ Hs).
    eapply finishes_bind; [apply (steps_tag_fresh TYPE_GEO key s (mkSt c2 _ _) (st_ctx st)); [done|done|apply (sees_exists _ _ _ _ Hs)|exact Hg]|].
    cbv beta. intros c3 Hh3 Hg3. apply finishes_write; [done| |by exists fs, e2]. cbn [st_w]. rewrite <- geo_moved_changed. fold pairs. f_equal. destruct (ga_ch o); lia.
Qed.
End Runs.

(** ** Searches *)

Class SortSliceLaws `{SortSlice} := {
  sort_slice_perm A less (l : list A) : sort_slice less l ≡ₚ l;
  sort_slice_sorted A less (l : list A) : weak_order less l → StronglySorted (λ a b, less b a = false) (sort_slice less l)
}.

(** The entries of a geo key in the order of their geohashes. *)
Definition geo_entries (m : gmap bytes Value) (l : list geoEntry) : Prop :=
  l ≡ₚ (λ kv, geo_entry kv.1 kv.2) <$> map_to_list m ∧ StronglySorted (λ a b, geo_less b a = false) l.

(** The answer to a query around a point: of the entries in its circle or box all,
    or with ANY the first ones, in the order of their distances if they are sorted
    or counted, as many as were asked for. *)
Definition found `{UnicodeCase} `{Trig} (q : GeoQuery) (lon lat : spec_float) (m : gmap bytes Value) (results : list geoEntry) : Prop :=
  ∃ entries ordered, geo_entries m entries ∧
    let near := with_distance lon lat <$> filter (λ e, in_range q lon lat e = true) entries in
    let picked := if gq_any q && (0 <? gq_count q) then take (Z.to_nat (gq_count q)) near else near in
    (if should_sort q
     then ordered ≡ₚ picked ∧
          (Forall (λ e, IsNaN (ge_Distance e) = false) picked → StronglySorted (λ a b, distance_less (gq_desc q) b a = false) ordered)
     else ordered = picked) ∧
    results = if 0 <? gq_count q then take (Z.to_nat (gq_count q)) ordered else ordered.

Lemma geo_less_weak l : weak_order geo_less l.
Proof.
  unfold geo_less. split_and!.
  - intros x _. rewrite Z.eqb_refl. apply blt_irrefl.
  - intros x y z _ _ _. destruct (Z.eqb_spec (ge_Hash x) (ge_Hash y)) as [E1|N1], (Z.eqb_spec (ge_Hash y) (ge_Hash z)) as [E2|N2]; cbn [negb].
    + rewrite E1, E2, Z.eqb_refl. cbn [negb]. apply blt_trans.
    + intros _ Hlt. rewrite E1, (proj2 (Z.eqb_neq _ _)) by done. done.
    + intros Hlt _. rewrite <- E2, (proj2 (Z.eqb_neq _ _)) by done. done.
    + intros H1%Z.ltb_lt H2%Z.ltb_lt. rewrite (proj2 (Z.eqb_neq _ _)) by lia. cbn [negb]. apply Z.ltb_lt. lia.
  - intros x y z _ _ _. destruct (Z.eqb_spec (ge_Hash x) (ge_Hash z)) as [E|N]; cbn [negb].
    + intros Hb. destruct (Z.eqb_spec (ge_Hash x) (ge_Hash y)) as [E1|N1]; cbn [negb].
      * rewrite <- E1, E, Z.eqb_refl. cbn [negb]. destruct (blt_total (ge_Member y) (ge_Member z)) as [?|[E2|Hzy]]; [by right|left; by rewrite E2|left; by eapply blt_trans].
      * rewrite (proj2 (Z.eqb_neq (ge_Hash y) _)) by congruence. cbn [negb]. rewrite !Z.ltb_lt. lia.
    + intros Hlt%Z.ltb_lt. destruct (Z.eqb_spec (ge_Hash x) (ge_Hash y)) as [E1|N1]; cbn [negb].
      * right. rewrite (proj2 (Z.eqb_neq _ _)) by congruence. cbn [negb]. apply Z.ltb_lt. lia.
      * destruct (Z.eqb_spec (ge_Hash y) (ge_Hash z)) as [E2|N2]; cbn [negb]; [left; apply Z.ltb_lt; lia|]. rewrite !Z.ltb_lt. lia.
Qed.

Lemma distance_weak desc l : Forall (λ e, IsNaN (ge_Distance e) = false) l → weak_order (distance_less desc) l.
Proof.
  rewrite Forall_forall. intros Hn.
  assert (Hi : ∀ x, x ∈ l → SFltb (ge_Distance x) (ge_Distance x) = false) by (intros x Hx; apply not_true_is_false; rewrite SFltb_key by auto; apply key_lt_irrefl).
  assert (Ht : ∀ x y z, x ∈ l → y ∈ l → z ∈ l → SFltb (ge_Distance x) (ge_Distance y) = true → SFltb (ge_Distance y) (ge_Distance z) = true → SFltb (ge_Distance x) (ge_Distance z) = true)
    by (intros x y z ? ? ?; rewrite !SFltb_key by auto; apply key_lt_trans).
  assert (Hw : ∀ x y z, x ∈ l → y ∈ l → z ∈ l → SFltb (ge_Distance x) (ge_Distance z) = true → SFltb (ge_Distance x) (ge_Distance y) = true ∨ SFltb (ge_Distance y) (ge_Distance z) = true).
  { intros x y z ? ? ?. rewrite !SFltb_key by auto. intros Hlt. destruct (key_lt_total (float_key (ge_Distance y)) (float_key (ge_Distance z))) as [?|[E|Hzy]]; [by right|left; by rewrite E|]. left. by eapply key_lt_trans. }
  unfold distance_less. destruct desc; split_and!; try done; intros x y z Hx Hy Hz; [intros Hb Ha; by apply (Ht z y x)|]. intros Hb. destruct (Hw z y x Hz Hy Hx Hb); auto.
Qed.

Section Searches.
Context `{EngineLaws} `{ParseFloat} `{FormatG} `{FormatFloat} `{FormatF4} `{RangeOrderLaws} `{UnicodeCase} `{Trig} `{SortSliceLaws}.

Lemma entries_perm (m : gmap bytes Value) : omap (λ k, geo_entry k <$> m !! k) (range_keys (dom m)) ≡ₚ (λ kv, geo_entry kv.1 kv.2) <$> map_to_list m.
Proof.
  assert (Hk : range_keys (dom m) ≡ₚ (map_to_list m).*1).
  { rewrite range_keys_perm. apply NoDup_Permutation; [apply NoDup_elements|apply NoDup_fst_map_to_list|]. intros k. rewrite elem_of_elements, elem_of_dom, list_elem_of_fmap. split.
    - intros [v Hv]. exists (k, v). by rewrite elem_of_map_to_list.
    - intros ([k' v] & -> & Hv). exists v. by apply elem_of_map_to_list. }
  rewrite Hk. clear Hk. assert (Ha : ∀ k v, (k, v) ∈ map_to_list m → m !! k = Some v) by (intros k v; apply elem_of_map_to_list).
  induction (map_to_list m) as [|[k v] l IH]; [done|]. cbn [fmap list_fmap omap list_omap fst snd]. rewrite (Ha k v) by set_solver. cbn [fmap option_fmap option_map].
  rewrite IH; [done|]. intros k' v' Hin. apply Ha. by right.
Qed.
(** The order does not depend on how the snapshot was taken. *)
Definition entries_in (m : gmap bytes Value) : list geoEntry := sort_slice geo_less (omap (λ k, geo_entry k <$> m !! k) (range_keys (dom m))).
Lemma sees_entries s v m e : sees s v m e → geoSortedEntries (ks_snap s) = entries_in m.
Proof.
  intros Hs. pose proof (sees_fields _ _ _ _ Hs) as Hf. unfold geoSortedEntries. destruct (ks_snap s) as [r|]; cbn in Hf; subst m; [done|].
  symmetry. apply Permutation_nil_r. unfold entries_in. by rewrite sort_slice_perm, entries_perm, map_to_list_empty.
Qed.
Lemma entries_in_order m : geo_entries m (entries_in m).
Proof. split; [unfold entries_in; by rewrite sort_slice_perm, entries_perm|apply sort_slice_sorted, geo_less_weak]. Qed.

Lemma collect_near q lon lat n es : (gq_any q && (0 <? gq_count q) = true → n < gq_count q) →
  collect q lon lat n es =
    (if gq_any q && (0 <? gq_count q) then take (Z.to_nat (gq_count q - n)) else id) (with_distance lon lat <$> filter (λ e, in_range q lon lat e = true) es).
Proof.
  revert n. induction es as [|e es IH]; intros n Hn; [cbn; by destruct (gq_any q && _); rewrite ?take_nil|]. cbn [collect]. rewrite filter_cons.
  destruct (in_range q lon lat e) eqn:Ei; [rewrite decide_True by done|rewrite decide_False by done; by apply IH]. rewrite fmap_cons.
  destruct (gq_any q && (0 <? gq_count q)) eqn:Ea; cbn [andb].
  - specialize (Hn eq_refl). replace (Z.to_nat (gq_count q - n)) with (S (Z.to_nat (gq_count q - (n + 1)))) by lia. cbn [take]. f_equal. destruct (Z.leb_spec (gq_count q) (n + 1)).
    + by replace (Z.to_nat (gq_count q - (n + 1))) with 0%nat by lia.
    + apply IH. intros _. lia.
  - cbn [id]. f_equal. rewrite IH by done. done.
Qed.
Lemma results_found m q lon lat : found q lon lat m (geo_results q lon lat (entries_in m)).
Proof.
  unfold geo_results. rewrite collect_near by (intros [_ ?%Z.ltb_lt]%andb_true_iff; lia). rewrite Z.sub_0_r.
  set (near := with_distance lon lat <$> _). set (picked := if gq_any q && (0 <? gq_count q) then take (Z.to_nat (gq_count q)) near else near).
  replace ((if gq_any q && (0 <? gq_count q) then take (Z.to_nat (gq_count q)) else id) near) with picked by (unfold picked; by destruct (gq_any q && _)).
  set (ordered := if should_sort q then sort_slice (distance_less (gq_desc q)) picked else picked).
  exists (entries_in m), ordered. split; [apply entries_in_order|]. cbv zeta. fold near. fold picked. split.
  - unfold ordered. destruct (should_sort q); [|done]. split; [apply sort_slice_perm|]. intros Hn. by apply sort_slice_sorted, distance_weak.
  - destruct (Z.ltb_spec 0 (gq_count q)); [|done]. cbn [andb]. unfold len. destruct (Z.ltb_spec (gq_count q) (Z.of_nat (length ordered))); [done|]. by rewrite take_ge by lia.
Qed.

(** The destination holds exactly the members found, with their geohashes or their
    distances, as a geo key without an expiry, or nothing. *)
Definition geo_map (q : GeoQuery) (results : list geoEntry) : gmap bytes spec_float :=
  list_to_map ((λ e, (ge_Member e, geo_score q e)) <$> results).
Definition stored_geo (c : Ctx) (dest : bytes) (R : gmap bytes spec_float) (c' : Ctx) : Prop :=
  (if decide (R = ∅) then is_live (view c' dest) = false
   else ∃ e, is_hash (view c' dest) (float_value <$> R) e ∧ attrs (view c' dest) = Some (TYPE_GEO, None)) ∧ others c dest c'.

Lemma found_members q lon lat m results : found q lon lat m results → NoDup (ge_Member <$> results).
Proof.
  intros (entries & ordered & [Hp _] & Ho & ->).
  assert (He : NoDup (ge_Member <$> entries)).
  { rewrite Hp, <- list_fmap_compose. erewrite list_fmap_ext; [apply NoDup_fst_map_to_list|]. intros _ [k v] _. cbn [compose fst snd]. unfold compose, geo_entry. cbn [fst snd]. by destruct (geoHashDecode (uint64_of_float (GetFloatVal v))). }
  assert (Hn : NoDup (ge_Member <$> (with_distance lon lat <$> filter (λ e, in_range q lon lat e = true) entries))).
  { rewrite <- list_fmap_compose. eapply sublist_NoDup; [exact He|]. apply (fmap_sublist ge_Member), sublist_filter. }
  cbv zeta in Ho. revert Hn Ho. generalize (with_distance lon lat <$> filter (λ e, in_range q lon lat e = true) entries). intros near Hn Ho.
  assert (Ht : ∀ n (l : list geoEntry), NoDup (ge_Member <$> l) → NoDup (ge_Member <$> take n l)) by (intros n l Hl; eapply sublist_NoDup; [exact Hl|]; apply fmap_sublist, sublist_take).
  assert (Hq : NoDup (ge_Member <$> ordered)).
  { assert (Hpk : NoDup (ge_Member <$> (if gq_any q && (0 <? gq_count q) then take (Z.to_nat (gq_count q)) near else near))) by (destruct (gq_any q && _); auto).
    destruct (should_sort q); [destruct Ho as [Hop _]; by rewrite Hop|by rewrite Ho]. }
  destruct (0 <? gq_count q); auto.
Qed.

Definition as_entry (q : GeoQuery) (e : geoEntry) : ZSetEntry := Zsets.mkEntry (ge_Member e) (geo_score q e).
Lemma geo_map_lists q results : NoDup (ge_Member <$> results) → lists (geo_map q results) (as_entry q <$> results).
Proof.
  intros Hnd. split; [by rewrite <- list_fmap_compose|]. intros k x. unfold geo_map. rewrite <- elem_of_list_to_map by (by rewrite <- list_fmap_compose).
  rewrite !list_elem_of_fmap. split; intros (e & E & He); exists e; (split; [|done]); unfold as_entry in *; congruence.
Qed.
Lemma for_each_entries {A} (f : A → ZSetEntry) (g : ZSetEntry → M unit) l st : for_each l (λ x, g (f x)) st = for_each (f <$> l) g st.
Proof. revert st. induction l as [|x l IH]; intros st; [done|]. cbn [for_each fmap list_fmap]. unfold mbind, M_bind. destruct (g (f x) st) as [[[]| | |] st']; [apply IH|done..]. Qed.

Lemma finishes_store_geo q dest results st : healthy (st_ctx st) → NoDup (ge_Member <$> results) →
  finishes (store_geo q dest results) st (WriteInteger (len results) (st_w st)) (stored_geo (st_ctx st) dest (geo_map q results)).
Proof.
  intros Hh Hnd. pose proof (geo_map_lists q results Hnd) as Hl. pose proof (lists_empty _ _ Hl) as He. unfold store_geo.
  eapply finishes_bind; [by apply (steps_zset_delete dest st)|]. cbv beta. intros c2 Hh2 [Hd Ho]. destruct results as [|x results].
  { change (0 <? len []) with false. cbv iota. eapply (finishes_bind _ _ (mkSt c2 _ _) tt (λ c, c = c2)); [by apply steps_ret|]. cbv beta. intros c3 Hh3 ->. apply finishes_reply; [done|done|].
    split; [|done]. by rewrite decide_True by (by apply He). }
  assert (Hpos : (0 <? len (x :: results)) = true) by (apply Z.ltb_lt; unfold len; cbn [length]; lia). rewrite Hpos.
  assert (Hne : geo_map q (x :: results) ≠ ∅) by (intros E; by apply He in E).
  destruct (steps_put_entries dest (as_entry q x) (as_entry q <$> results) (mkSt c2 (st_w st) (st_held st)) ∅ ∅ Hh2 (dead_hash _ Hd)) as (c3 & E3 & Hh3 & fs & e' & Hg).
  assert (Hins : steps (for_each (x :: results) (λ e, emitGeoInsert dest (ge_Member e) (geo_score q e))) (mkSt c2 (st_w st) (st_held st)) tt
    (λ c, ∃ fs e', grown c2 dest (put_entries (as_entry q <$> x :: results) ∅) fs ∅ e' any_tag c)).
  { exists c3. split; [|split; [done|by exists fs, e']]. by rewrite (for_each_entries (as_entry q) (λ y, emitZSetInsert dest (ze_Member y) (ze_Score y))). }
  eapply finishes_bind_bind; [exact Hins|]. cbv beta. intros c4 Hh4 (fs4 & e4 & Hg4).
  eapply finishes_bind; [apply (steps_tag_fresh TYPE_GEO dest (mkKeySnap None [] false false) (mkSt c4 _ _) c2 (put_entries (as_entry q <$> x :: results) ∅) fs4 ∅ e4); [done|done|by rewrite Hd|exact Hg4]|].
  cbv beta. cbn [st_ctx st_w st_held]. intros c5 Hh5 Hg5. apply finishes_reply; [done|done|]. cbn [st_ctx]. rewrite (put_entries_all _ _ Hl) in Hg5.
  split; [|eapply others_trans; [exact Ho|apply Hg5]]. rewrite decide_False by done. exists e4. split; [apply Hg5|].
  pose proof (grown_attrs _ _ _ _ _ _ _ _ Hg5) as Ha. rewrite Hd in Ha. by destruct Ha as (t & -> & Ha).
Qed.

(** The centre of a query: its point, or the place of its member. *)
Definition center_of (q : GeoQuery) (m : gmap bytes Value) : option (spec_float * spec_float) :=
  match gq_member q with
  | Some k => (λ score, geoHashDecode (uint64_of_float score)) <$> scores_of m !! k
  | None => gq_lonlat q
  end.
Lemma sees_center s v m e q : sees s v m e → geo_center q (ks_snap s) = center_of q m.
Proof.
  intros Hs. unfold geo_center, center_of. destruct (gq_member q) as [k|]; [|done]. rewrite member_score, (sees_score _ _ _ _ _ Hs). by destruct (scores_of m !! k).
Qed.
Definition search_reply (q : GeoQuery) (results : list geoEntry) (w : Writer) : Writer := foldl (λ w e, write_found q e w) (WriteArray (len results) w) results.

(** The entries found go to the client, or to the destination and their number to the
    client. *)
Definition search_answer (dest : option bytes) (q : GeoQuery) (results : list geoEntry) (run : M unit) (st : St) : Prop :=
  match dest with
  | Some d => finishes run st (WriteInteger (len results) (st_w st)) (stored_geo (st_ctx st) d (geo_map q results))
  | None => finishes run st (search_reply q results (st_w st)) (same (st_ctx st))
  end.
Lemma stored_geo_same c c' dest R c2 : same c c' → stored_geo c' dest R c2 → stored_geo c dest R c2.
Proof. intros Hs [Hv Ho]. split; [done|]. intros k Hk. by rewrite Ho, Hs. Qed.
Lemma answer_results dest q results st c : healthy c → same (st_ctx st) c → NoDup (ge_Member <$> results) →
  let run := if is_some dest then store_geo q (default [] dest) results else _ ← write (WriteArray (len results)); for_each results (λ e, write (write_found q e)) in
  match dest with
  | Some d => finishes run (mkSt c (st_w st) (st_held st)) (WriteInteger (len results) (st_w st)) (stored_geo (st_ctx st) d (geo_map q results))
  | None => finishes run (mkSt c (st_w st) (st_held st)) (search_reply q results (st_w st)) (same (st_ctx st))
  end.
Proof.
  intros Hh Hs Hnd run. destruct dest as [d|]; unfold run; cbn [is_some default].
  - eapply finishes_weaken; [by apply (finishes_store_geo q d results (mkSt c _ _))|]. intros c2. by apply stored_geo_same.
  - apply finishes_write_bind. unfold search_reply. by apply (finishes_for_each_write (write_found q) results (mkSt c _ _)).
Qed.
Lemma answer_missing dest q st c : healthy c → same (st_ctx st) c →
  match dest with
  | Some d => finishes (geo_missing (default [] dest) (is_some dest)) (mkSt c (st_w st) (st_held st)) (WriteInteger 0 (st_w st)) (stored_geo (st_ctx st) d (geo_map q []))
  | None => finishes (geo_missing (default [] dest) (is_some dest)) (mkSt c (st_w st) (st_held st)) (search_reply q [] (st_w st)) (same (st_ctx st))
  end.
Proof.
  intros Hh Hs. destruct dest as [d|]; cbn [is_some default]; unfold geo_missing.
  - eapply finishes_bind; [by apply (steps_zset_delete d (mkSt c _ _))|]. cbv beta. intros c2 Hh2 [Hd Ho]. apply finishes_reply; [done|done|].
    split; [by rewrite decide_True|]. intros k Hk. by rewrite Ho, Hs.
  - by apply finishes_reply.
Qed.

(** C22: GEOSEARCH and GEOSEARCHSTORE: around the point given, or the place of the
    member given, the command finds exactly the members in its circle or box, in the
    order asked for and as many as asked for, the nearest ones when they are counted
    without ANY; it replies them and changes nothing, or leaves exactly them at the
    destination, with their geohashes or distances, and replies their number.  A
    missing key has no members, a member that is not there is an error, and a key of
    another type is refused. *)
Theorem geosearch_correct (dest : option bytes) (key : bytes) (opts : list bytes) (q : GeoQuery) (st : St) :
  healthy (st_ctx st) → geo_query (is_some dest) opts = Ok q →
  ∃ run,
    match dest with
    | Some d => handleGeoSearchStore (d :: key :: opts) = Accept [d; key] run
    | None => handleGeoSearch (key :: opts) = Accept [key] run
    end ∧
    (not_zset (view (st_ctx st) key) → finishes run st (WriteWrongType (st_w st)) (same (st_ctx st))) ∧
    (∀ m e, is_hash (view (st_ctx st) key) m e →
       if is_live (view (st_ctx st) key) then
         match center_of q m with
         | Some (lon, lat) => ∃ results, found q lon lat m results ∧ search_answer dest q results run st
         | None => finishes run st (WriteError (str "ERR could not decode requested zset member") (st_w st)) (same (st_ctx st))
         end
       else search_answer dest q [] run st).
Proof.
  intros Hh Hq. exists (geoSearch (key :: opts) (default [] dest) (is_some dest)). split; [by destruct dest|]. unfold geoSearch. rewrite Hq. split.
  { intros Hn. apply finishes_geo_refused; [done|done|]. intros s He Hw. cbv beta. by rewrite Hw. }
  intros m e Hx. destruct (is_live (view (st_ctx st) key)) eqn:El.
  - destruct (center_of q m) as [[lon lat]|] eqn:Ec.
    + exists (geo_results q lon lat (entries_in m)). pose proof (results_found m q lon lat) as Hfound. split; [done|]. pose proof (found_members _ _ _ _ _ Hfound) as Hnd.
      assert (Hgo : ∀ s c', sees s (view (st_ctx st) key) m e → healthy c' → same (st_ctx st) c' → geo_center q (ks_snap s) = Some (lon, lat) ∧ geoSortedEntries (ks_snap s) = entries_in m ∧ ks_wrongType s = false ∧ ks_exists s = true)
        by (intros s c' Hs _ _; by rewrite (sees_center _ _ _ _ _ Hs), (sees_entries _ _ _ _ Hs), (sees_type _ _ _ _ Hs), (sees_exists _ _ _ _ Hs)).
      pose proof (λ c h1 h2, answer_results dest q (geo_results q lon lat (entries_in m)) st c h1 h2 Hnd) as Ha. unfold search_answer.
      destruct dest as [d|]; (apply (finishes_geo_get _ _ _ m e); [done|done|]); intros s c' Hs Hh' Hsame; destruct (Hgo s c' Hs Hh' Hsame) as (-> & -> & -> & ->); exact (Ha c' Hh' Hsame).
    + apply (finishes_geo_get _ _ _ m e); [done|done|]. intros s c' Hs Hh' Hsame. rewrite (sees_type _ _ _ _ Hs), (sees_exists _ _ _ _ Hs), El, (sees_center _ _ _ _ _ Hs), Ec. by apply finishes_reply.
  - assert (Hgo : ∀ s, sees s (view (st_ctx st) key) m e → ks_wrongType s = false ∧ ks_exists s = false) by (intros s Hs; by rewrite (sees_type _ _ _ _ Hs), (sees_exists _ _ _ _ Hs)).
    pose proof (answer_missing dest q st) as Ha. unfold search_answer.
    destruct dest as [d|]; (apply (finishes_geo_get _ _ _ m e); [done|done|]); intros s c' Hs Hh' Hsame; destruct (Hgo s Hs) as [-> ->]; exact (Ha c' Hh' Hsame).
Qed.
End Searches.

(** ** Examples *)

Module GeoExample.
Import RefEngine.

(** Whole numbers for coordinates and a flat earth. *)
#[local] Instance whole_numbers : ParseFloat := λ b, if beq b (str "nan") then Some S754_nan else float64_of <$> Atoi b.
#[local] Instance no_text : FormatFloat := λ _, [].
#[local] Instance no_text4 : FormatF4 := λ _, [].
#[local] Instance no_text_g : FormatG := λ _, [].
#[local] Instance member_order : RangeOrder := λ X, elements X.
#[local] Instance member_order_laws : RangeOrderLaws.
Proof. by intros X. Qed.
#[local] Instance ascii_only : UnicodeCase := {| unicode_lower := id; unicode_upper := id; unicode_fields := λ _, []; unicode_trim := id |}.
#[local] Instance flat : Trig := {| math_Sin := id; math_Cos := λ _, float64_of 1; math_Atan2 := λ y _, y |}.
#[local] Instance by_insertion : SortSlice := λ A, insertionSort.
#[local] Instance by_insertion_laws : SortSliceLaws.
Proof. split; [intros A less l; apply insertionSort_perm|intros A less l; apply insertionSort_sorted]. Qed.

(** A key with two places. *)
Definition hash_at (lon lat : Z) : Value := float_value (float64_of (geoHashEncode (float64_of lon) (float64_of lat))).
Definition places : gmap bytes Value := <[ str "a" := hash_at 10 20 ]> {[ str "b" := hash_at 40 50 ]}.
Definition geo_key : ReducedEffect := mkReduced INSERT_OP KEYED TYPE_GEO None places [].
Definition start : St := mkSt (holding {[ str "g" := geo_key ]}) (NewWriter []) [].
Lemma geo_start_healthy : healthy (st_ctx start).
Proof. exact I. Qed.
Lemma g_is_geo : is_hash (view (st_ctx start) (str "g")) places ∅.
Proof. by split. Qed.

Lemma geohash_roundtrip_witness : geo_bits (float64_of 10) GEO_LON_MIN GEO_LON_MAX < 2 ^ 26 ∧
  geoHashDecode (uint64_of_float (float64_of (geoHashEncode (float64_of 10) (float64_of 20)))) = cell_of (float64_of 10) (float64_of 20).
Proof.
  split; [vm_compute; reflexivity|].
  apply (proj2 (proj2 (proj2 geohash_roundtrip)) (float64_of 10) (float64_of 20)); vm_compute; [reflexivity|discriminate].
Defined.

Definition add_args : list bytes := [str "ch"; str "11"; str "21"; str "a"; str "1"; str "2"; str "c"].
Definition added : list (spec_float * spec_float * bytes) := [(float64_of 11, float64_of 21, str "a"); (float64_of 1, float64_of 2, str "c")].
Lemma geoadd_correct_witness : ∃ run m', handleGeoAdd (str "g" :: add_args) = Accept [str "g"] run ∧ geoadd_result (mkGeoAddOpts false false true) added places m' ∧
  finishes run start (WriteInteger (Z.of_nat (size m') - 2 + how_many (geo_moved (mkGeoAddOpts false false true) places) added) (NewWriter []))
    (λ c', ∃ fs e', grown (st_ctx start) (str "g") m' fs ∅ e' (λ t, t = TYPE_GEO) c').
Proof.
  destruct (geoadd_correct (str "g") add_args (drop 1 add_args) (mkGeoAddOpts false false true) (float64_of 11, float64_of 21, str "a") [(float64_of 1, float64_of 2, str "c")] start places ∅
    geo_start_healthy g_is_geo) as (run & Hr & m' & Hm & Hf).
  - reflexivity.
  - reflexivity.
  - cbn. lia.
  - reflexivity.
  - vm_compute. reflexivity.
  - apply (bool_decide_unpack _). vm_compute. exact I.
  - exists run, m'. split; [exact Hr|]. split; [exact Hm|]. exact Hf.
Defined.

Definition search_args : list bytes := [str "FROMMEMBER"; str "b"; str "BYRADIUS"; str "9000"; str "KM"; str "COUNT"; str "1"].
Definition query : GeoQuery := mkGeoQuery (Some (str "b")) None (Some (float64_of 9000)) None (str "km") false false 1 false false false false false.
Lemma search_args_query : geo_query true search_args = Ok query.
Proof. vm_compute. reflexivity. Qed.
Lemma geosearch_correct_witness : ∃ run lon lat results, handleGeoSearchStore (str "d" :: str "g" :: search_args) = Accept [str "d"; str "g"] run ∧
  center_of query places = Some (lon, lat) ∧ found query lon lat places results ∧
  finishes run start (WriteInteger (len results) (NewWriter [])) (stored_geo (st_ctx start) (str "d") (geo_map query results)).
Proof.
  destruct (geosearch_correct (Some (str "d")) (str "g") search_args query start geo_start_healthy search_args_query) as (run & Hr & _ & Hl).
  specialize (Hl places ∅ g_is_geo). assert (Hv : is_live (view (st_ctx start) (str "g")) = true) by reflexivity. rewrite Hv in Hl.
  assert (Hc : is_Some (center_of query places)) by (apply (bool_decide_unpack _); vm_compute; exact I). destruct Hc as [[lon lat] Hc]. rewrite Hc in Hl.
  destruct Hl as (results & Hfound & Hf). exists run, lon, lat, results. split; [exact Hr|]. split; [exact Hc|]. split; [exact Hfound|exact Hf].
Defined.

(** A member named twice in one command is counted twice. *)
Definition run_reply (p : Prep) : bytes := match p with Accept _ run => w_buf (st_w (snd (run start))) | _ => [] end.
Theorem geoadd_counts_twice : run_reply (handleGeoAdd [str "n"; str "1"; str "1"; str "a"; str "2"; str "2"; str "a"]) = str ":2" ++ [13; 10].
Proof. vm_compute. reflexivity. Qed.

(** A radius that is no number passes for a non-negative one. *)
Theorem geo_nan_radius : ∃ q, geo_query false [str "FROMMEMBER"; str "a"; str "BYRADIUS"; str "nan"; str "m"] = Ok q ∧ gq_radius q = Some S754_nan.
Proof. eexists. split; [vm_compute; reflexivity|]. reflexivity. Qed.

(** At longitude 180 a geohash has 54 bits, and its score is another hash. *)
Theorem geohash_54_bits : geoHashEncode (float64_of 180) (float64_of 2) >= 2 ^ 53 ∧
  uint64_of_float (float64_of (geoHashEncode (float64_of 180) (float64_of 2))) ≠ geoHashEncode (float64_of 180) (float64_of 2).
Proof. split; vm_compute; [done|discriminate]. Qed.
End GeoExample.
